(* ===== verification/_CoqProject ===== *)
-Q . S2P
Prelude.v
Shell.v
Json.v
Glob.v
Evaluator.v
Authority.v
Fence.v
Team.v
Conversation.v
Usage.v
Title.v
Authorization.v
Labels.v
Session.v
Policy.v
Lease.v
TailBuffer.v
Media.v
Schedule.v
Steer.v
Compaction.v
Attempts.v
Dispatch.v
Gate.v
Loop.v
Turns.v
Asks.v
Reviews.v
Children.v
Snapshot.v
Store.v
Inventory.v
Eventlog.v
Skills.v
Regexp.v
Screens.v
Proposals.v
Ledger.v
Admission.v
Memory.v
Promotion.v
