(* ===== verification/Prelude.v ===== *)
(** * Mecatl: the engine's core

    Mecatl is an agent harness: a loop that runs a language model, dispatches its
    tool calls under a permission policy, delegates work to subagents and teams,
    and persists sessions.  This library verifies the core logic around the model:
    the code that decides whether a call runs and runs it, what a delegate may do,
    what untrusted text may look like in a prompt, which states a team and a
    session can be in, how a history is compacted, and the stores that hand work
    to one owner at a time.  It is Go code of [src/engine], with one store of
    [src/internal/adapter].

    ** Parts and files

    - [Prelude] (this file): Go strings as rune lists, the functions of the
      [strings] package the code uses with their lemmas, 64-bit integers, the
      hint database [go] and the tactics [case_bool] and [bprop].
    - [Shell] ([governance/shell.go]): the splitter of compound command lines, the
      substitution scanner, the wrapper canonicaliser, and the read-only,
      substitution-read-only and isolation-approvable classifiers.
    - [Json]: what the code uses of [encoding/json] to read call arguments.
    - [Glob] ([globMatch] of [governance/evaluator.go]).
    - [Evaluator] ([governance/permission.go], [governance/evaluator.go]): rules,
      scopes and audiences, the resolution of one pattern, of the operands of
      Copy and Move and of a shell line, plan mode, learned rules.
    - [Authority] ([governance/authority.go], [agent/authority_delegation.go]):
      capability sets and the derivation of a delegate's authority.
    - [Fence] ([governance/fence.go]): neutralising and fencing untrusted text.
    - [Team] ([team/team.go]): roster, task list, mailboxes, findings.
    - [Conversation] ([session/conversation.go], [session/toolcall.go] and the
      close-out of [session/session.go]), [Usage] ([session/usage.go]), [Title]
      ([session/title.go]), [Authorization] ([session/authorization.go]) and
      [Labels] ([session/principal.go], [kind.go], [incarnation.go],
      [envref.go]): the value types of a session and their validators.
    - [Session] ([session/session.go] and the aggregate methods of the files
      above): the session record and one definition per method.

    - [Policy] ([adapter/permpolicy], [adapter/permstore]): the session-aware
      policy over the evaluator, proved against the store interface of
      [port/permission.go] (the class [PermissionStore]), and the in-memory store
      as its instance.
    - [Lease] ([port/lease.go], [adapter/memlease]): the single-writer lease
      contract (the class [SessionLease]) with what its users can rely on, and
      the in-memory lease as its instance.

    - [Dispatch] ([agent/dispatch.go]): one turn's tool calls, from the permission
      decision over authority, hooks and execution to the ordered results, with
      the concurrent read batch, and the resumption of a turn parked at an
      approval; [Gate] has its theorems.
    - [Loop] ([agent/loop.go], the run hooks of [hooks.go],
      [manual_compaction.go]): the entries of a run, the turn loop with its
      boundary injections, brakes, model call, compaction and nudges, the park at
      an external authorization, and the ends of a run; [Turns] has its theorems.
    - [Asks] ([agent/permission.go], the approval controls of [loop.go], the
      emission of [childregistry.go]): the registry that hands a verdict to the call
      that waits for it, and the router of the asks of children.
    - [Reviews] ([resolveChildAsk] of [subagent.go], [askadjudicator.go],
      [clampPreview] of [teamtool.go], [agent/fence.go]): who answers the ask of a
      child without a person, and what peer text looks like in a preview.
    - [Children] ([agent/childregistry.go]): the registry of child runs.
    - [Media] ([session/content.go]): content parts, their caps, the screen of
      media URLs and addresses.
    - [Steer] ([agent/steer.go]): the inbox of a run.
    - [Compaction] ([agent/compaction.go], [cascade.go], [tokencount.go]): the
      two compactors and the heuristic counter.
    - [TailBuffer] ([agent/tailbuffer.go]): the output window of a shell job.
    - [Schedule] ([port/schedule.go], [adapter/memschedulestore]): schedules, their
      claims, fires and deletion.
    - [Attempts] ([learning/attempt.go], [attempt_repository.go],
      [adapter/memattempt]): learning attempts and their repository.
    - [Snapshot] ([adapter/sessnap]): what is kept of a session, and its
      reconstruction through the aggregate's own transitions.
    - [Store] ([adapter/memstore/memstore.go], the shared rules of [port/store.go] and
      [port/sessionlineage.go]): the session store with its lineage index;
      [Inventory] has the theorems about its pages.
    - [Eventlog] ([adapter/memstore/eventlog.go], [port/cursoreventlog.go]): the event
      log of a session, its cursors and its followers.
    - [Skills] ([learning/skill.go], [adapter/memskill]) and [Proposals]
      ([learning/proposal.go], [adapter/memproposal]): what learning stages, evaluates,
      promotes and activates.
    - [Ledger] ([learning/automatic_ledger.go], [internal/adapter/automaticstore]): the
      shared budget of automatic learning, a document under a file lock.
    - [Admission] ([learning/signals.go], [admission.go]): which completed runs are
      admitted to learning, and for which signals.
    - [Regexp]: the patterns of the [regexp] package the code uses, with their matcher.
    - [Screens] ([tool/memorylifecycle.go]): the canonical form of durable text, the key
      grammar, and the screens for credentials and instructions.
    - [Memory] ([tool/memorylifecycle.go], [adapter/memmemory]): the revisions of a
      memory key, with undo.
    - [Promotion] ([adapter/memorypromotion]): how a staged proposal becomes a memory,
      over [Proposals] and [Memory], among what others do to both stores.

    The evaluator calls the shell classifiers and the glob matcher; the session
    aggregate calls the five value components and stores an authority; the policy
    calls the evaluator with the session's mode and learned rules; dispatch calls
    the policy, pauses and resumes the session and reads its authority; the loop
    drives the session, dispatches a turn's calls and drains the steer inbox; the
    store keeps snapshots, and a loaded session is one the aggregate rebuilt.

    ** Correspondence

    A definition has the name of the Go function it models; a loop that Go writes
    inline is a recursion next to it ([splitLoop] for [SplitCommands]).  A Go
    struct is a record, a closed string enumeration an inductive type.  A method
    that mutates its receiver takes the record and returns the new one with its
    error; errors are their sentinels, without the wrapping text.  Maps and sets
    are [gmap]s and [gset]s; where Go iterates a map in an arbitrary order the
    theorems do not depend on it.  A Go [string] is the list of its runes: strings
    that reach this code are valid UTF-8, ASCII bytes are ASCII runes, and
    lengths in bytes are computed with [byteLen].  A Go [int] is a [Z] reduced by
    [wrap64] wherever it is added to.

    Fuel: [globMatch], [Canonicalize] and the two recursive shell classifiers
    recur on positions or on extracted text.  Their fuel is computed from the
    input, and [Glob.globLoop_total], [Shell.canonLoop_fuel] and
    [Shell.classifiers_terminate] show it is never exhausted.  The loop of
    [dispatch] takes at least one call a step and has the number of calls as fuel;
    the read batch has three moves per call (start, finish, publish);
    [Gate.dispatch_answers_in_order] needs both to be enough, since every call is
    answered.  [Loop.terminate] calls itself once per steer it cannot record, and
    [Turns.terminate_fuel] shows its fuel is enough.  [Loop.runLoop] has a number
    of iterations; safety is proved for every number, and [Turns.run_terminates]
    gives the one that ends the run.  Everything else is structural.

    Code outside the library is a parameter: [unicode.IsPrint] (an argument of
    [Fence.NeutraliseDelegationResult]), the compact JSON form and the SHA-256
    based legacy incarnation (the class [Session.Platform]), URL parsing ([Media]),
    the JSON decoding of raw bytes and the model's summary ([Compaction]), SHA-256
    ([Attempts], [Store]), the random incarnation a restored session starts with
    ([Snapshot]), the clock of the store ([Store]), the bytes of a cursor and the random generations of a
    log ([Eventlog]), the digests of [Skills] and [Proposals], the lower case, letters and digits of Unicode
    ([Screens]), the JSON bytes and the digest
    of [Ledger] (the digest of a message in [Admission]), whose disk also answers as an argument of each call.  What dispatch calls out to (people, hooks, tools, the authority
    service, cancellation, the goroutine scheduler) answers through the record
    [Dispatch.Outside] as any function of the past, and what the loop calls out to
    (the model, the stores, children, the clock of cancellation) through
    [Loop.RunOutside].  What an operator does to the steer inbox during a run is a
    script of batches.

    A component whose methods hold one mutex is a sequence of calls in any order
    ([Team], [Schedule], [Attempts], [Lease], [Store], [Skills], [Proposals], [Ledger],
    [Memory]); [Promotion] holds no lock and others act between its calls; where a method
    releases the lock in between ([Steer], [Asks], [Children], [Eventlog]) each critical section is a step; the
    concurrent reads of a
    turn are interleaved by the scheduler parameter of [Dispatch].

    ** What the theorems show

    - Permissions: a matching deny beats every allow of the call
      ([deny_dominates]), nothing is allowed without an allow rule for each part
      ([allow_needs_rule]), plan mode admits no mutation ([plan_mode_gate]), a
      substitution that is not read-only is never allowed silently
      ([substitution_floor_holds]), and the provenance of an ask is what the
      rules say ([floor_provenance_sound]).
    - Dispatch: no tool starts before the policy allowed or a person approved
      exactly its call, a bound authority admitted it and the hook let it through
      ([dispatch_gate]); what is denied never runs ([dispatch_denied_never_runs]);
      only reads overlap ([dispatch_serial]); every call has its result in its
      place ([dispatch_answers_in_order]); a resumed turn runs at most the call that is
      located for the answered ask, with its arguments or those the hook left of them,
      after the policy was asked again ([resume_gate]), and leaves no call open
      ([resume_answers_unanswered]).
    - Runs: over all turns of a run every tool passed its gates ([run_gate]) and
      nothing denied ran ([run_denied_never_runs]); every request to the model is a
      replayable history ([run_requests_replayable]); a run that does not retry a failed
      step with an open inbox ends with exactly one result or parked at an authorization
      that was saved before it was announced ([run_ends_once]); with a turn limit it ends
      ([run_terminates]).
    - Approvals: an ask gets at most one verdict, one that was accepted for it, and no
      sender waits ([approvals_delivered_once]); a resolution counts only for the ask
      it names exactly, and touches no other ([approval_exact_intent]); an ask of a child
      put before a person is settled at most once on the stream, and exactly once unless
      the run gave its last events up ([surfaced_asks_settled_once]), with a verdict that
      was given ([surfaced_approvals_truthful]); nobody is bypassed
      ([child_ask_fail_safe]), and a failing reviewer is asked a bounded number of
      times ([breaker_bounds_reviews]).
    - Children: ends are signalled once ([child_ends_once]), results are collected and
      announced once ([child_result_collected_once]), and survive a resume that fails
      ([failed_resume_keeps_result]).
    - Learned rules: approvals never weaken a deny or a configured ask
      ([policy_learning_never_loosens]), change a decision only when one of them
      was given in the session for the tool and a pattern of the call
      ([policy_change_vouched]), and then take effect
      ([policy_learn_effective]); accept-edits mode lifts exactly the built-in
      floor of the edit tools; the store is a capped set per session.
    - Leases: other owners are refused from a grant to its expiry
      ([lease_exclusive]), and tokens identify owners and never go down
      ([lease_fencing]).
    - Shell lines: segments are atomic and classified one by one; a line accepted as
      read-only loses nothing but separators, has no substitution, no grouping and no
      redirection outside the words of wrappers, and none of a list of writing forms
      ([readonly_sound]); an isolation-approvable line has no segment that leaves the
      worktree; detector and extractor agree.
    - The glob matcher decides its declarative language ([glob_match_correct]).
    - Authority: [Narrow] is the meet of the capability order, delegation only
      shrinks authority and consumes depth, so chains are bounded.
    - Fence: a fenced body cannot end its fence, the fast paths do not change the
      result, and the ASCII headers the gate recognises are redacted.
    - Team: an invariant of every history of calls, exclusive ownership of tasks,
      a lone worker completes every task, mailboxes are bounded and in order.
    - Histories: the pairing validator accepts exactly the replayable histories;
      interrupted turns, aborted authorizations and forks are repaired to one.
    - Session: an invariant that ties the pending controls to the state, recovery
      to idle, durable retry intents, counters, and bound authority.
    - Media: the screen of resolved addresses is exact, no internal name passes the
      screen of URLs, the caps are exact.
    - Compaction: the protected head, the first user prompt and the recent turns
      survive, the result is replayable, a cut tool body is exactly the two ends.
    - Steering: the inbox refines a queue, and what it accepts is delivered unless
      the run closes between the last drain and the close.
    - Schedules and attempts: a slot, and an attempt that nobody retries, have one owner
      at a time, the stores keep their invariant, failing calls write nothing, versions identify
      records, paging visits every record.
    - The tail buffer refines the list of the last bytes.
    - Snapshots: a saved session comes back exactly as it was, up to the attribution of
      the running run ([snapshot_roundtrip], [persisted_roundtrip] with the encoder's
      compaction of arguments), and whatever is restored satisfies the invariant of the
      aggregate ([restored_wellformed]).
    - The store implements a map of the sessions that can be restored
      ([store_refines_map]); its lineage records follow the
      stored sessions and outlive them ([lineage_tracks_store]); a lineage read over the
      partitions is a scan of all records ([lineage_read_exact]); following the cursors
      visits every session once or is told to restart ([inventory_paging_complete]).
    - Event logs: a follower yields a contiguous run of the records from its cursor on,
      and no wake-up is lost ([event_follow_exact]); a cursor resumes where it was handed
      out or is refused ([cursor_resumes]); the legacy reading is the append order
      ([read_append_order]).
    - Learning: an active skill passed its evaluation or cites evidence, one version of it
      is active, and every archived one can be rolled back to ([skill_active_earned]); a
      revision is spent once ([skill_revision_once]); a proposal moves along the edges of
      its lifecycle and keeps its identity ([proposal_lifecycle]); it is claimed for
      promotion once ([promotion_claimed_once]).  The ledger never exceeds its budgets
      ([automatic_budget_respected]), repeats an input only after its window
      ([automatic_admissions_spaced]), and every reservation has one owner and is resolved
      once ([reservation_exclusive]); a retry after a lost answer is charged once
      ([reserve_retry_idempotent]).  A run is admitted only for a request of its genuine
      prompt or for signals that cite its messages ([admission_sound]), and such a request
      is always heard ([explicit_request_admitted]); a lower sensitivity only tightens
      ([sensitivity_tightens]), and a host cannot forge signals ([host_signals_limited]).

    - Memory: whatever is retained passed the screens, and an instruction among the
      operator's facts came from someone else than the model ([memory_screened]); the
      matcher of patterns decides their language ([ends_matches]); a layer of quotes or
      labels hides no credential ([secret_unwrapped]); as long as no write claims the undo
      origin the store is an undo stack per key, with the errors of an undo beyond what is
      retained ([memory_refines_undo_stack]); a promotion writes at most once, only what the
      policy admits and never over a recallable value, among any calls of others and
      wherever it stops ([promotion_never_overwrites]).

    Where the code does less than its comments say, an [Example] next to the
    theorem evaluates the code on such an input.

    ** Not modelled, and the order of what follows

    The contextual reviewer, the wiring of subagents and of the team supervisor, and the
    assembly of the system prompt are not modelled, nor are the projection of evidence,
    the reflection that leads to a proposal and the writing of skill files.  Model
    streaming, file systems, network transports, persistent stores, servers and
    user interfaces are input and output around this core and are left out, as are
    hashing and random identifiers. *)

From Stdlib Require Import Ascii.
Export (notations) Ascii.
From stdpp Require Export base tactics strings gmap numbers list_basics list_relations list_monad list_misc list_tactics list_numbers list.

(** ** Go strings as rune sequences *)

Declare Scope go_scope.
Delimit Scope go_scope with go.

(** A rune (Go [int32] code point). *)
Abbreviation rune := N.

(** A Go string, as the sequence of its runes. *)
Abbreviation gostr := (list N).

(** ASCII literals. *)
Fixpoint lit (s : string) : gostr :=
  match s with
  | EmptyString => []
  | String c s' => N_of_ascii c :: lit s'
  end.

Definition chr (c : ascii) : rune := N_of_ascii c.
Arguments chr c%_char_scope : simpl never.
#[global] Arguments lit : simpl never.

Notation "# s" := (lit s%string) (at level 1, s at level 0, format "# s") : go_scope.
Notation "x =r y" := (N.eqb x y) (at level 35, no associativity) : go_scope.
Notation "x =s y" := (bool_decide (x = y)) (at level 35, no associativity) : go_scope.
Notation "x ∈? l" := (bool_decide (x ∈ l)) (at level 35, no associativity) : go_scope.

Open Scope go_scope.

(** The double quote rune (code point 34). *)
Definition dquote : rune := 34%N.
Definition squote : rune := chr "'".
Definition backtick : rune := chr "`".
Definition backslash : rune := chr "\".
Definition space : rune := 32%N.
Definition newline : rune := 10%N.

(** [unicode.IsSpace]: the White_Space runes. *)
Definition is_space (c : rune) : bool :=
  ((9 <=? c) && (c <=? 13))%N || c =r 32 || c =r 133 || c =r 160 || c =r 5760
  || ((8192 <=? c) && (c <=? 8202))%N || c =r 8232 || c =r 8233
  || c =r 8239 || c =r 8287 || c =r 12288.

(** ** The [strings] package *)

(** [strings.TrimLeftFunc] for a predicate. *)
Fixpoint trim_left (p : rune → bool) (s : gostr) : gostr :=
  match s with
  | [] => []
  | c :: s' => if p c then trim_left p s' else s
  end.

Definition trim_right (p : rune → bool) (s : gostr) : gostr :=
  reverse (trim_left p (reverse s)).

(** [strings.TrimSpace] *)
Definition TrimSpace (s : gostr) : gostr := trim_right is_space (trim_left is_space s).

(** [strings.Fields]: maximal runs of non-space runes. *)
Fixpoint fields_go (cur s : gostr) : list gostr :=
  match s with
  | [] => match cur with [] => [] | _ => [cur] end
  | c :: s' =>
      if is_space c
      then match cur with [] => fields_go [] s' | _ => cur :: fields_go [] s' end
      else fields_go (cur ++ [c]) s'
  end.

Definition Fields (s : gostr) : list gostr := fields_go [] s.

(** [strings.Join] *)
Fixpoint Join (fs : list gostr) (sep : gostr) : gostr :=
  match fs with
  | [] => []
  | [f] => f
  | f :: fs' => f ++ sep ++ Join fs' sep
  end.

(** [strings.HasPrefix], [strings.HasSuffix] *)
Definition HasPrefix (s p : gostr) : bool := bool_decide (p `prefix_of` s).
Definition HasSuffix (s p : gostr) : bool := bool_decide (p `suffix_of` s).

(** [strings.Contains] *)
Fixpoint Contains (s sub : gostr) : bool :=
  HasPrefix s sub || match s with [] => false | _ :: s' => Contains s' sub end.

(** [strings.ContainsRune], and [strings.ContainsAny] for a set given as runes. *)
Definition ContainsRune (s : gostr) (c : rune) : bool := c ∈? s.

(** [strings.ReplaceAll] for a non-empty [old]: leftmost, non-overlapping.
    [skip] counts the runes of a match still to be dropped. *)
Fixpoint replace_go (old new : gostr) (skip : nat) (s : gostr) : gostr :=
  match s with
  | [] => []
  | c :: s' =>
      match skip with
      | S k => replace_go old new k s'
      | O => if HasPrefix s old then new ++ replace_go old new (length old - 1) s'
             else c :: replace_go old new 0 s'
      end
  end.

Definition ReplaceAll (s old new : gostr) : gostr := replace_go old new 0 s.

(** [strings.Split] on a single-rune separator. *)
Fixpoint split_go (sep : rune) (cur s : gostr) : list gostr :=
  match s with
  | [] => [cur]
  | c :: s' => if c =r sep then cur :: split_go sep [] s' else split_go sep (cur ++ [c]) s'
  end.

Definition Split (s : gostr) (sep : rune) : list gostr := split_go sep [] s.

(** UTF-8 length of a rune, and of a string ([len]). *)
Definition runeLen (r : rune) : nat :=
  if (r <? 128)%N then 1 else if (r <? 2048)%N then 2 else if (r <? 65536)%N then 3 else 4.

Definition byteLen (s : gostr) : nat := sum_list (runeLen <$> s).

(** [unicode.IsControl]: the C0 and C1 controls. *)
Definition IsControl (r : rune) : bool := ((r <? 32) || ((127 <=? r) && (r <? 160)))%N.

(** ** Automation *)

Create HintDb go.

(** Case analysis on the boolean tests of the goal and hypotheses. *)
Ltac case_bool :=
  match goal with
  | |- context [if ?b then _ else _] => let E := fresh "E" in destruct b eqn:E
  | H : context [if ?b then _ else _] |- _ => let E := fresh "E" in destruct b eqn:E
  end.

(** The body of a field update: [e], the record rebuilt field by field, with the
    field [fld] replaced by [v]. *)
Ltac update_field e fld v :=
  let e := eval pattern fld in e in
  lazymatch e with ?g _ => let r := eval cbv beta in (g v) in exact r end.

(** Turn boolean equations into propositions. *)
Ltac bprop :=
  repeat match goal with
  | H : _ && _ = true |- _ => apply andb_prop in H as [? ?]
  | H : _ || _ = false |- _ => apply orb_false_elim in H as [? ?]
  | H : negb _ = true |- _ => apply negb_true_iff in H
  | H : negb _ = false |- _ => apply negb_false_iff in H
  | H : N.eqb _ _ = true |- _ => apply N.eqb_eq in H
  | H : N.eqb _ _ = false |- _ => apply N.eqb_neq in H
  | H : bool_decide _ = true |- _ => apply bool_decide_eq_true_1 in H
  | H : bool_decide _ = false |- _ => apply bool_decide_eq_false_1 in H
  | H : Is_true _ |- _ => apply Is_true_true in H
  end.

(** ** Trimming *)

Section trim.
Context (p : rune → bool).

Lemma trim_left_split s :
  ∃ a, s = a ++ trim_left p s ∧ Forall (λ c, p c = true) a.
Proof.
  induction s as [|c s (a & Ha & HF)]; simpl; [by exists []|].
  destruct (p c) eqn:E; [|by exists []].
  exists (c :: a). simpl. rewrite <-Ha. auto.
Qed.

Lemma trim_left_head s c s' : trim_left p s = c :: s' → p c = false.
Proof. induction s; simpl; intros; repeat case_bool; simplify_eq; auto. Qed.

Lemma trim_left_id s : (∀ c s', s = c :: s' → p c = false) → trim_left p s = s.
Proof. destruct s as [|c s]; simpl; [done|]. intros H. by rewrite (H c s eq_refl). Qed.

Lemma trim_left_app_true a s :
  Forall (λ c, p c = true) a → trim_left p (a ++ s) = trim_left p s.
Proof. induction 1 as [|c a Hc _ IH]; simpl; [done|]. by rewrite Hc. Qed.

Lemma trim_left_suffix s : trim_left p s `suffix_of` s.
Proof. destruct (trim_left_split s) as (a & Ha & _). by exists a. Qed.

Lemma trim_right_split s :
  ∃ b, s = trim_right p s ++ b ∧ Forall (λ c, p c = true) b.
Proof.
  unfold trim_right. destruct (trim_left_split (reverse s)) as (a & Ha & HF).
  exists (reverse a). split; [|by apply Forall_reverse].
  rewrite <-reverse_app, <-Ha. by rewrite reverse_involutive.
Qed.

Lemma trim_right_last s s' c : trim_right p s = s' ++ [c] → p c = false.
Proof.
  unfold trim_right. intros H.
  apply (f_equal reverse) in H. rewrite reverse_involutive, reverse_app in H.
  by apply trim_left_head in H.
Qed.

Lemma trim_right_id s : (∀ s' c, s = s' ++ [c] → p c = false) → trim_right p s = s.
Proof.
  intros H. unfold trim_right. rewrite trim_left_id; [apply reverse_involutive|].
  intros c s' Hs. apply (H (reverse s') c).
  by rewrite <-(reverse_involutive s), Hs, reverse_cons.
Qed.
End trim.

Abbreviation all_space := (Forall (λ c, is_space c = true)).

Lemma TrimSpace_split s :
  ∃ a b, s = a ++ TrimSpace s ++ b ∧ all_space a ∧ all_space b.
Proof.
  unfold TrimSpace.
  destruct (trim_left_split is_space s) as (a & Ha & HFa).
  destruct (trim_right_split is_space (trim_left is_space s)) as (b & Hb & HFb).
  exists a, b. split; [|done]. congruence.
Qed.

Lemma TrimSpace_last s s' c : TrimSpace s = s' ++ [c] → is_space c = false.
Proof. apply trim_right_last. Qed.

Lemma TrimSpace_head s c s' : TrimSpace s = c :: s' → is_space c = false.
Proof.
  unfold TrimSpace. intros H.
  destruct (trim_right_split is_space (trim_left is_space s)) as (b & Hb & _).
  rewrite H in Hb. by apply trim_left_head in Hb.
Qed.

(** A string is trimmed when neither end is a space. *)
Definition trimmed (s : gostr) : Prop :=
  (∀ c s', s = c :: s' → is_space c = false) ∧ (∀ s' c, s = s' ++ [c] → is_space c = false).

Lemma TrimSpace_trimmed s : trimmed (TrimSpace s).
Proof. split; intros; [by eapply TrimSpace_head|by eapply TrimSpace_last]. Qed.

Lemma TrimSpace_id s : trimmed s → TrimSpace s = s.
Proof.
  intros [Hh Hl]. unfold TrimSpace.
  rewrite (trim_left_id is_space s) by done. by apply trim_right_id.
Qed.

Lemma TrimSpace_idemp s : TrimSpace (TrimSpace s) = TrimSpace s.
Proof. apply TrimSpace_id, TrimSpace_trimmed. Qed.

(** ** Fields *)

(** A word: what [strings.Fields] yields. *)
Definition word (f : gostr) : Prop := f ≠ [] ∧ Forall (λ c, is_space c = false) f.

Abbreviation no_space := (Forall (λ c, is_space c = false)).

Lemma fields_go_words cur s : no_space cur → Forall word (fields_go cur s).
Proof.
  revert cur. induction s as [|c s IH]; intros cur Hc; simpl.
  - destruct cur; [constructor|]. constructor; [by split|constructor].
  - destruct (is_space c) eqn:E.
    + destruct cur; [by apply IH|]. constructor; [by split|by apply IH].
    + apply IH. apply Forall_app. split; [done|by constructor].
Qed.

Lemma Fields_words s : Forall word (Fields s).
Proof. by apply fields_go_words. Qed.

Lemma Fields_word_in s f : f ∈ Fields s → word f.
Proof. intros Hf. pose proof (Fields_words s) as H. rewrite Forall_forall in H. auto. Qed.

Lemma fields_go_concat cur s :
  no_space cur → concat (fields_go cur s) = cur ++ filter (λ c, is_space c = false) s.
Proof.
  revert cur. induction s as [|c s IH]; intros cur Hc; simpl.
  - destruct cur; simpl; by rewrite ?app_nil_r.
  - rewrite filter_cons. destruct (is_space c) eqn:E; simpl.
    + destruct cur; simpl; rewrite IH by done; done.
    + rewrite IH by (apply Forall_app; auto). by rewrite <-app_assoc.
Qed.

(** The fields of a string are its non-space runes, in order. *)
Lemma Fields_concat s : concat (Fields s) = filter (λ c, is_space c = false) s.
Proof. by apply fields_go_concat. Qed.

Lemma fields_go_app_space cur a sp b :
  is_space sp = true → fields_go cur (a ++ sp :: b) = fields_go cur a ++ Fields b.
Proof.
  intros Hs. revert cur. induction a as [|c a IH]; intros cur; simpl.
  - rewrite Hs. by destruct cur.
  - destruct (is_space c); [destruct cur|]; simpl; by rewrite ?IH.
Qed.

Lemma Fields_app_space a sp b :
  is_space sp = true → Fields (a ++ sp :: b) = Fields a ++ Fields b.
Proof. intros. by apply fields_go_app_space. Qed.

Lemma fields_go_spaces cur b :
  all_space b → fields_go cur b = fields_go cur [].
Proof.
  intros Hb. revert cur. induction Hb as [|c b Hc _ IH]; intros cur; simpl; [done|].
  rewrite Hc. destruct cur; rewrite IH; done.
Qed.

Lemma fields_go_app_spaces cur a b :
  all_space b → fields_go cur (a ++ b) = fields_go cur a.
Proof.
  intros Hb. revert cur. induction a as [|c a IH]; intros cur; simpl.
  - by apply fields_go_spaces.
  - destruct (is_space c); [destruct cur|]; by rewrite IH.
Qed.

Lemma Fields_spaces_app a s : all_space a → Fields (a ++ s) = Fields s.
Proof. unfold Fields. induction 1 as [|c a Hc _ IH]; simpl; [done|]. by rewrite Hc. Qed.

Lemma Fields_TrimSpace s : Fields (TrimSpace s) = Fields s.
Proof.
  destruct (TrimSpace_split s) as (a & b & Hs & Ha & Hb). rewrite Hs at 2.
  rewrite Fields_spaces_app by done. symmetry. by apply fields_go_app_spaces.
Qed.

Lemma fields_go_word cur f :
  no_space f → cur ++ f ≠ [] → fields_go cur f = [cur ++ f].
Proof.
  intros Hf. revert cur. induction Hf as [|c f Hc _ IH]; intros cur Hne; simpl.
  - rewrite app_nil_r in *. by destruct cur.
  - rewrite Hc, IH; rewrite <-?app_assoc; done.
Qed.

Lemma Fields_word f : word f → Fields f = [f].
Proof. intros [Hne Hf]. by apply fields_go_word. Qed.

(** Joining words with spaces and splitting them again is the identity. *)
Lemma Fields_Join fs : Forall word fs → Fields (Join fs [space]) = fs.
Proof.
  induction 1 as [|f fs Hf Hfs IH]; [done|].
  destruct fs as [|g fs]; simpl; [by apply Fields_word|].
  change (Fields (f ++ space :: Join (g :: fs) [space]) = f :: g :: fs).
  rewrite Fields_app_space, IH, Fields_word by done. done.
Qed.

Lemma Join_nonempty fs : Forall word fs → fs ≠ [] → Join fs [space] ≠ [].
Proof.
  intros H Hne He. apply Hne. rewrite <-(Fields_Join fs) by done. by rewrite He.
Qed.

Lemma Fields_nil_TrimSpace s : Fields s = [] ↔ TrimSpace s = [].
Proof.
  rewrite <-Fields_TrimSpace. split; [|by intros ->].
  destruct (TrimSpace s) as [|c t] eqn:E; [done|]. intros HF.
  pose proof (Fields_concat (c :: t)) as HC. rewrite HF in HC. simpl in HC.
  rewrite filter_cons, decide_True in HC by (by eapply TrimSpace_head). done.
Qed.

Lemma Join_trimmed fs : Forall word fs → trimmed (Join fs [space]).
Proof.
  induction 1 as [|f fs [Hne Hf] Hfs IH]; [by split; intros; destruct s'|].
  destruct fs as [|g fs]; simpl.
  - split; intros; subst; [by inversion Hf|]. apply Forall_app in Hf as [_ Hf]. by inversion Hf.
  - destruct IH as [IHh IHl]. split.
    + intros c s' E. destruct f; [done|]. simplify_eq/=. by inversion Hf.
    + intros s' c E.
      change (f ++ [space] ++ Join (g :: fs) [space] = s' ++ [c]) in E.
      remember (Join (g :: fs) [space]) as J eqn:HJ.
      destruct J as [|x l _] using rev_ind; [by symmetry in HJ; apply Join_nonempty in HJ|].
      rewrite !app_assoc in E. apply app_inj_tail in E as [_ ->]. by eapply IHl.
Qed.

(** ** Prefixes and substrings *)

Lemma HasPrefix_spec s p : HasPrefix s p = true ↔ ∃ t, s = p ++ t.
Proof. unfold HasPrefix. rewrite bool_decide_eq_true. done. Qed.

Lemma HasSuffix_spec s p : HasSuffix s p = true ↔ ∃ t, s = t ++ p.
Proof. unfold HasSuffix. rewrite bool_decide_eq_true. done. Qed.

Lemma Contains_spec s sub : Contains s sub = true ↔ ∃ a b, s = a ++ sub ++ b.
Proof.
  induction s as [|c s IH]; simpl; rewrite orb_true_iff, HasPrefix_spec.
  - split; [intros [[t ->]|]; [by exists [], t|done]|].
    intros (a & b & H). left. destruct a; [|done]. by exists b.
  - rewrite IH. split.
    + intros [[t H]|(a & b & ->)]; [by exists [], t|by exists (c :: a), b].
    + intros ([|x a] & b & H); [left; by exists b|]. simplify_eq/=. eauto.
Qed.

Lemma Contains_false s sub : Contains s sub = false ↔ ∀ a b, s ≠ a ++ sub ++ b.
Proof.
  rewrite <-not_true_iff_false, Contains_spec. naive_solver.
Qed.

Lemma lit_inj a b : lit a = lit b → a = b.
Proof.
  revert b. induction a as [|c a IH]; intros [|d b]; try done.
  change (N_of_ascii c :: lit a = N_of_ascii d :: lit b → String c a = String d b).
  intros [= Hc Hl]. f_equal; [|auto].
  by rewrite <-(ascii_N_embedding c), <-(ascii_N_embedding d), Hc.
Qed.

(** ** 64-bit integers *)

(** A Go [int] result reduced to its 64-bit two's complement value. *)
Definition wrap64 (z : Z) : Z := ((z + 2 ^ 63) mod 2 ^ 64 - 2 ^ 63)%Z.

Definition maxUint64 : Z := 2 ^ 64 - 1.
Definition wrapU64 (z : Z) : Z := (z mod 2 ^ 64)%Z.

Lemma wrapU64_id z : (0 <= z <= maxUint64)%Z → wrapU64 z = z.
Proof. intros. apply Z.mod_small. unfold maxUint64 in *. lia. Qed.

Definition int64 (z : Z) : Prop := (- 2 ^ 63 ≤ z < 2 ^ 63)%Z.

Lemma wrap64_id z : int64 z → wrap64 z = z.
Proof. unfold wrap64, int64. intros H. rewrite Z.mod_small by lia. lia. Qed.

Lemma wrap64_range z : int64 (wrap64 z).
Proof.
  unfold wrap64, int64. pose proof (Z.mod_pos_bound (z + 2 ^ 63) (2 ^ 64) ltac:(lia)). lia.
Qed.

Lemma wrap64_add_l a b : wrap64 (wrap64 a + b) = wrap64 (a + b).
Proof.
  unfold wrap64. f_equal.
  replace ((a + 2 ^ 63) mod 2 ^ 64 - 2 ^ 63 + b + 2 ^ 63)%Z with ((a + 2 ^ 63) mod 2 ^ 64 + b)%Z by lia.
  rewrite Zplus_mod_idemp_l. f_equal. lia.
Qed.

Lemma wrap64_add_r a b : wrap64 (a + wrap64 b) = wrap64 (a + b).
Proof. by rewrite Z.add_comm, wrap64_add_l, Z.add_comm. Qed.

(** ** Pointwise lemmas *)

Lemma existsb_false_forall {A} (f : A → bool) l :
  existsb f l = false ↔ ∀ x, x ∈ l → f x = false.
Proof.
  induction l as [|a l IH]; simpl; [split; [intros _ x Hx; by inversion Hx|done]|].
  rewrite orb_false_iff, IH. setoid_rewrite elem_of_cons. naive_solver.
Qed.

Lemma forallb_elem {A} (f : A → bool) l :
  forallb f l = true ↔ ∀ x, x ∈ l → f x = true.
Proof.
  rewrite forallb_forall. setoid_rewrite list_elem_of_In. done.
Qed.

Lemma forallb_ext_elem {A} (f g : A → bool) l :
  (∀ x, x ∈ l → f x = g x) → forallb f l = forallb g l.
Proof.
  induction l as [|a l IH]; simpl; intros H; [done|].
  rewrite (H a) by constructor. rewrite IH; [done|]. intros x Hx. apply H. by constructor.
Qed.

(** ** Splitting, joining and replacing *)

(** An occurrence of [sub] cannot straddle a rune [sub] does not have. *)
Lemma Contains_app_sep a x b sub :
  sub ≠ [] → x ∉ sub → Contains (a ++ x :: b) sub = Contains a sub || Contains b sub.
Proof.
  intros Hne Hx. apply eq_true_iff_eq. rewrite orb_true_iff, !Contains_spec. split.
  - intros (u & v & E).
    destruct (app_eq_inv _ _ _ _ E) as [(k & -> & E')|(k & -> & E')].
    + destruct (app_eq_inv _ _ _ _ E') as [(m & -> & Ev)|(m & -> & Ev)].
      * destruct m as [|y m]; simplify_eq/=; [left; exists u, []; by rewrite !app_nil_r|].
        set_solver.
      * left. by exists u, m.
    + destruct k as [|y k]; simplify_eq/=; [|right; by exists k, v].
      destruct sub as [|y sub]; [done|]. simplify_eq/=. set_solver.
  - intros [(u & v & ->)|(u & v & ->)].
    + exists u, (v ++ x :: b). by rewrite <-!app_assoc.
    + exists (a ++ x :: u), v. by rewrite <-!app_assoc.
Qed.

Lemma Contains_nil_l sub : sub ≠ [] → Contains [] sub = false.
Proof. intros. apply Contains_false. intros [|] [|] ?; destruct sub; simplify_eq/=. Qed.

Lemma Contains_app_disjoint a b sub :
  sub ≠ [] → (∀ x, x ∈ a → x ∉ sub) → Contains (a ++ b) sub = Contains b sub.
Proof.
  intros Hne. induction a as [|x a IH]; intros Ha; [done|].
  change ((x :: a) ++ b) with ([] ++ x :: (a ++ b)).
  rewrite Contains_app_sep, Contains_nil_l by (done || (apply Ha; constructor)).
  simpl. apply IH. intros y Hy. apply Ha. by constructor.
Qed.

Section replace.
Context (old new : gostr).
Hypothesis Hold : old ≠ [].

Lemma replace_go_id s : Contains s old = false → replace_go old new 0 s = s.
Proof.
  induction s as [|c s IH]; simpl; [done|]. intros H. bprop.
  by rewrite H, IH.
Qed.

Lemma ReplaceAll_id s : Contains s old = false → ReplaceAll s old new = s.
Proof. apply replace_go_id. Qed.

Hypothesis Hnew : new ≠ [].
Hypothesis Hdisj : ∀ x, x ∈ new → x ∉ old.

Lemma replace_go_prefix p s :
  (∀ x, x ∈ p → x ∈ old) → p `prefix_of` replace_go old new 0 s → p `prefix_of` s.
Proof using Hnew Hdisj.
  revert s. induction p as [|c p IH]; intros s Hp; [intros _; apply prefix_nil|].
  destruct s as [|d s]; simpl; [done|]. case_bool.
  - destruct new as [|n0 nw]; [done|]. intros Hpre. simpl in Hpre.
    apply prefix_cons_inv_1 in Hpre as ->. exfalso. apply (Hdisj n0); [constructor|].
    apply Hp. constructor.
  - intros Hpre. pose proof (prefix_cons_inv_1 _ _ _ _ Hpre) as ->.
    apply prefix_cons, IH; [|by eapply prefix_cons_inv_2].
    intros x Hx. apply Hp. by constructor.
Qed.

Lemma replace_go_removes k s : Contains (replace_go old new k s) old = false.
Proof using Hold Hnew Hdisj.
  revert k. induction s as [|c s IH]; intros k; [by apply Contains_nil_l|].
  destruct k as [|k]; [|apply IH]. simpl. case_bool.
  - by rewrite Contains_app_disjoint.
  - simpl. rewrite IH, orb_false_r. apply bool_decide_eq_false. intros Hpre.
    unfold HasPrefix in E. bprop. apply E, (replace_go_prefix old); [done|].
    simpl. unfold HasPrefix. by rewrite bool_decide_false.
Qed.

Lemma ReplaceAll_removes s : Contains (ReplaceAll s old new) old = false.
Proof using Hold Hnew Hdisj. apply replace_go_removes. Qed.
End replace.

Section split.
Context (sep : rune).

Lemma split_go_ne cur s : split_go sep cur s ≠ [].
Proof. revert cur. induction s; intros cur; simpl; [done|]. by case_bool. Qed.

Lemma Join_cons f fs (z : gostr) : fs ≠ [] → Join (f :: fs) z = f ++ z ++ Join fs z.
Proof. by destruct fs. Qed.

Lemma Join_split_go cur s : Join (split_go sep cur s) [sep] = cur ++ s.
Proof.
  revert cur. induction s as [|c s IH]; intros cur; simpl; [by rewrite app_nil_r|].
  case_bool; bprop.
  - subst c. rewrite Join_cons, IH by apply split_go_ne. done.
  - by rewrite IH, <-app_assoc.
Qed.

Lemma Join_Split s : Join (Split s sep) [sep] = s.
Proof. apply Join_split_go. Qed.

Lemma split_go_nosep cur s : sep ∉ cur → Forall (λ l, sep ∉ l) (split_go sep cur s).
Proof.
  revert cur. induction s as [|c s IH]; intros cur Hc; simpl; [by constructor|].
  case_bool; bprop; [constructor; [done|apply IH; set_solver]|apply IH; set_solver].
Qed.

Lemma Split_nosep s : Forall (λ l, sep ∉ l) (Split s sep).
Proof. apply split_go_nosep. set_solver. Qed.

Lemma split_go_app cur l s : sep ∉ l → split_go sep cur (l ++ s) = split_go sep (cur ++ l) s.
Proof.
  revert cur. induction l as [|c l IH]; intros cur Hl; simpl; [by rewrite app_nil_r|].
  case_bool; bprop; [set_solver|]. rewrite IH by set_solver. by rewrite <-app_assoc.
Qed.

Lemma Split_Join ls : ls ≠ [] → Forall (λ l, sep ∉ l) ls → Split (Join ls [sep]) sep = ls.
Proof.
  intros Hne. induction 1 as [|l ls Hl Hls IH]; [done|]. unfold Split in *.
  destruct ls as [|m ls].
  - simpl. rewrite <-(app_nil_r l) at 1. by rewrite split_go_app.
  - rewrite Join_cons, split_go_app by done. simpl. rewrite N.eqb_refl. f_equal. by apply IH.
Qed.

Lemma Contains_Join ls sub :
  sub ≠ [] → sep ∉ sub → Contains (Join ls [sep]) sub = existsb (λ l, Contains l sub) ls.
Proof.
  intros Hne Hs. induction ls as [|l ls IH]; [by apply Contains_nil_l|].
  destruct (decide (ls = [])) as [->|Hls]; [simpl; by rewrite orb_false_r|].
  rewrite Join_cons by done. simpl. rewrite Contains_app_sep by done. by rewrite <-IH.
Qed.
End split.
