(* ===== verification/Shell.v ===== *)
(** * The shell command classifier

    Model of [engine/governance/shell.go]: the quote-aware splitter of compound
    command lines, the detection and extraction of substitutions, the wrapper
    canonicalizer, and the three classifiers built from them ([ReadOnlyShell]
    for plan mode, [SubstitutionReadOnly] for the permission floor and
    [IsolationApprovable] for isolated subagents).

    A Go [string] is the list of its runes.  Index loops over [runes[i:end]]
    are recursions over the corresponding suffix; where the source jumps ahead
    ([i = closeIdx], [i++]) the recursion carries the number of runes still to
    be skipped, so every scanner is structurally recursive. *)

From S2P Require Import Prelude.

(** ** Splitting compound commands *)

(** [flush]: the trimmed buffer, dropped when empty. *)
Definition flush (buf : gostr) : list gostr :=
  match TrimSpace buf with [] => [] | seg => [seg] end.

(** The single-rune separators of an unquoted position. *)
Definition isSeparator (c : rune) : bool :=
  c =r chr ";" || c =r chr "|" || c =r chr "&" || c =r 10 || c =r 13.

(** The two-rune operators "&&" and "||". *)
Definition isDoubleOp (c next : rune) : bool :=
  (c =r chr "&" || c =r chr "|") && next =r c.

Fixpoint splitLoop (inSingle inDouble : bool) (buf : gostr) (runes : list rune) : list gostr :=
  match runes with
  | [] => flush buf
  | c :: rest =>
      if inSingle then splitLoop (negb (c =r squote)) inDouble (buf ++ [c]) rest
      else if inDouble then splitLoop inSingle (negb (c =r dquote)) (buf ++ [c]) rest
      else if c =r squote then splitLoop true inDouble (buf ++ [c]) rest
      else if c =r dquote then splitLoop inSingle true (buf ++ [c]) rest
      else
        let single :=
          if isSeparator c then flush buf ++ splitLoop inSingle inDouble [] rest
          else splitLoop inSingle inDouble (buf ++ [c]) rest in
        match rest with
        | c2 :: rest' =>
            if isDoubleOp c c2 then flush buf ++ splitLoop inSingle inDouble [] rest'
            else single
        | [] => single
        end
  end.

Definition SplitCommands (cmd : gostr) : list gostr := splitLoop false false [] cmd.

(** ** Detecting substitution and grouping *)

Definition hasSubstitutionTrigger (c next : rune) : bool :=
  if c =r backtick then true
  else if c =r chr "$" then next =r chr "(" || next =r chr "{"
  else if c =r chr "<" || c =r chr ">" then next =r chr "("
  else false.

(** The rune after the current one, [0] at the end of the range. *)
Definition nextRune (rest : list rune) : rune :=
  match rest with [] => 0%N | n :: _ => n end.

Fixpoint hasSubLoop (inSingle inDouble : bool) (runes : list rune) : bool :=
  match runes with
  | [] => false
  | c :: rest =>
      let next := nextRune rest in
      if inSingle then hasSubLoop (negb (c =r squote)) inDouble rest
      else if inDouble then
        if c =r dquote then hasSubLoop inSingle false rest
        else if hasSubstitutionTrigger c next then true
        else hasSubLoop inSingle inDouble rest
      else if c =r squote then hasSubLoop true inDouble rest
      else if c =r dquote then hasSubLoop inSingle true rest
      else if hasSubstitutionTrigger c next || c =r chr "(" || c =r chr "{" then true
      else hasSubLoop inSingle inDouble rest
  end.

Definition HasSubstitutionOrGrouping (seg : gostr) : bool := hasSubLoop false false seg.

(** ** Extracting substitutions *)

Definition substitutionPlaceholder : gostr := #"MECATL_SUBST".

Definition maxSubstitutionDepth : nat := 32.

(** The opener kinds of [nextSpanOpener] (the source's ['P'], ['('], ['`'], ['B']). *)
Inductive opener := OParam | OParen | OBacktick | OBrace.

(** The offset of the body and the kind of the span opened at [c]. *)
Definition nextSpanOpener (c next : rune) (inDouble : bool) : option (nat * opener) :=
  if c =r chr "$" && next =r chr "{" then Some (0, OParam)
  else if c =r chr "$" && next =r chr "(" then Some (2, OParen)
  else if (c =r chr "<" || c =r chr ">") && next =r chr "(" && negb inDouble then Some (2, OParen)
  else if c =r backtick then Some (1, OBacktick)
  else if c =r chr "(" && negb inDouble then Some (1, OParen)
  else if c =r chr "{" && negb inDouble then Some (0, OBrace)
  else None.

(** [spanParen]: the length of the body before the matching close paren. *)
Fixpoint spanParenLoop (depth : nat) (inSingle inDouble : bool) (runes : list rune) : option nat :=
  match runes with
  | [] => None
  | c :: rest =>
      if inSingle then S <$> spanParenLoop depth (negb (c =r squote)) inDouble rest
      else if inDouble then S <$> spanParenLoop depth inSingle (negb (c =r dquote)) rest
      else if c =r squote then S <$> spanParenLoop depth true inDouble rest
      else if c =r dquote then S <$> spanParenLoop depth inSingle true rest
      else if c =r chr "(" then S <$> spanParenLoop (S depth) inSingle inDouble rest
      else if c =r chr ")" then
        match pred depth with
        | O => Some 0
        | depth' => S <$> spanParenLoop depth' inSingle inDouble rest
        end
      else S <$> spanParenLoop depth inSingle inDouble rest
  end.

Definition spanParen (runes : list rune) : option nat := spanParenLoop 1 false false runes.

(** [spanBacktick]: the length of the body before the first unescaped backtick. *)
Fixpoint spanBacktick (runes : list rune) : option nat :=
  match runes with
  | [] => None
  | c :: rest =>
      if c =r backslash then
        match rest with
        | [] => None
        | _ :: rest' => (λ n, S (S n)) <$> spanBacktick rest'
        end
      else if c =r backtick then Some 0
      else S <$> spanBacktick rest
  end.

(** What the callbacks of [walkSubstitutions] see: literal runes and span bodies. *)
Inductive piece :=
  | PRune (c : rune)
  | PSpan (body : gostr).

(** [walkSubstitutions], with the calls to [onRune] and [onSpan] as a list.
    [None] is the source's [false]; [skip] counts the runes of the last span
    that the scan still has to pass ([i = s.closeIdx]). *)
Fixpoint walkLoop (skip : nat) (inSingle inDouble : bool) (runes : list rune)
    : option (list piece) :=
  match runes with
  | [] => if negb inSingle && negb inDouble then Some [] else None
  | c :: rest =>
      match skip with
      | S skip' => walkLoop skip' inSingle inDouble rest
      | O =>
          if inSingle then (PRune c ::.) <$> walkLoop 0 (negb (c =r squote)) inDouble rest
          else if c =r squote && negb inDouble then
            (PRune c ::.) <$> walkLoop 0 true inDouble rest
          else if c =r dquote then
            (PRune c ::.) <$> walkLoop 0 inSingle (negb inDouble) rest
          else
            match nextSpanOpener c (nextRune rest) inDouble with
            | None => (PRune c ::.) <$> walkLoop 0 inSingle inDouble rest
            | Some (_, OParam) | Some (_, OBrace) => None
            | Some (off, kind) =>
                let body := drop off runes in
                match (match kind with OBacktick => spanBacktick body | _ => spanParen body end) with
                | None => None
                | Some n =>
                    (PSpan (take n body) ::.) <$> walkLoop (off + n) inSingle inDouble rest
                end
            end
      end
  end.

Definition walkSubstitutions (runes : list rune) : option (list piece) :=
  walkLoop 0 false false runes.

(** [extractFrom]; [budget] is [maxSubstitutionDepth + 1 - depth]. *)
Fixpoint extractFrom (budget : nat) (runes : list rune) : option (list gostr) :=
  match budget with
  | O => None
  | S budget' =>
      pieces ← walkSubstitutions runes;
      foldr (λ p acc,
        match p with
        | PRune _ => acc
        | PSpan body =>
            rec ← extractFrom budget' body;
            out ← acc;
            Some (body :: rec ++ out)
        end) (Some []) pieces
  end.

Definition extractSubstitutions (seg : gostr) : option (list gostr) :=
  extractFrom (S maxSubstitutionDepth) seg.

Definition blankPiece (p : piece) : gostr :=
  match p with
  | PRune c => [c]
  | PSpan _ => substitutionPlaceholder
  end.

Definition outerWithSubstitutionsBlanked (seg : gostr) : option gostr :=
  pieces ← walkSubstitutions seg;
  Some (concat (blankPiece <$> pieces)).

(** ** Control-flow scaffolding *)

Definition shellControlKeywords : list gostr :=
  lit <$> ["do"; "then"; "else"; "elif"; "while"; "until"; "if"].

Fixpoint stripKeywordFields (fields : list gostr) : gostr :=
  match fields with
  | [] => []
  | head :: rest =>
      if head =s #"done" || head =s #"fi" || head =s #"esac" || head =s #";;"
      then stripKeywordFields rest
      else if head =s #"for" || head =s #"select" then []
      else if head ∈? shellControlKeywords then stripKeywordFields rest
      else Join fields [space]
  end.

Definition stripShellKeywords (seg : gostr) : gostr := stripKeywordFields (Fields seg).

Definition isPureSubshell (seg : gostr) : bool :=
  let runes := TrimSpace seg in
  if bool_decide (length runes < 2) || negb (nextRune runes =r chr "(") then false
  else
    match spanParen (drop 1 runes) with
    | None => false
    | Some n => bool_decide (1 + n = length runes - 1)
    end.

(** ** Wrappers *)

Definition wrapperFlagsTakeValue (head : gostr) : list gostr :=
  if head =s #"timeout" then lit <$> ["-s"; "--signal"; "-k"; "--kill-after"]
  else if head =s #"nice" then lit <$> ["-n"; "--adjustment"]
  else if head =s #"env" then lit <$> ["-u"; "--unset"; "-C"; "--chdir"]
  else if head =s #"stdbuf" then lit <$> ["-i"; "--input"; "-o"; "--output"; "-e"; "--error"]
  else if head =s #"ionice" then
    lit <$> ["-c"; "--class"; "-n"; "--classdata"; "-p"; "--pid"]
  else [].

Definition wrapperLeadingPositionals (head : gostr) : nat :=
  if head =s #"timeout" then 1 else 0.

Definition strippableWrappers : list gostr :=
  lit <$> ["timeout"; "time"; "nice"; "env"; "stdbuf"; "ionice"].

(** The inner loop of [Canonicalize]: [fields[i:]] where the wrapped command starts. *)
Fixpoint skipWrapperArgs (valueFlags : list gostr) (positionals : nat) (fields : list gostr)
    : list gostr :=
  match fields with
  | [] => []
  | f :: rest =>
      if negb (HasPrefix f #"-") then
        match positionals with
        | S p => skipWrapperArgs valueFlags p rest
        | O => fields
        end
      else if ContainsRune f (chr "=") then skipWrapperArgs valueFlags positionals rest
      else if f ∈? valueFlags then
        match rest with
        | [] => []
        | _ :: rest' => skipWrapperArgs valueFlags positionals rest'
        end
      else skipWrapperArgs valueFlags positionals rest
  end.

(** The outer loop of [Canonicalize]; every round drops at least the wrapper
    itself, so the number of fields bounds the rounds. *)
Fixpoint canonLoop (fuel : nat) (text : gostr) : gostr :=
  match fuel with
  | O => text
  | S fuel' =>
      match Fields text with
      | [] => text
      | head :: args =>
          if negb (head ∈? strippableWrappers) then text
          else
            match skipWrapperArgs (wrapperFlagsTakeValue head) (wrapperLeadingPositionals head) args with
            | [] => text
            | rest => canonLoop fuel' (Join rest [space])
            end
      end
  end.

Definition Canonicalize (cmd : gostr) : gostr :=
  canonLoop (length (Fields cmd)) (TrimSpace cmd).

(** ** Read-only commands *)

Definition readOnlyVerbs : list gostr :=
  lit <$> ["ls"; "cat"; "grep"; "egrep"; "fgrep"; "find"; "rg"; "head"; "tail"; "pwd";
           "echo"; "wc"; "stat"; "file"; "which"; "whoami"; "date"; "tree"; "diff"; "sort";
           "uniq"; "cut"; "true"].

Definition readOnlyGitSubcommands : list gostr :=
  lit <$> ["status"; "log"; "diff"; "show"; "branch"; "remote"; "ls-files"; "rev-parse";
           "blame"; "describe"; "tag"; "shortlog"].

Definition findMutatingPrimaries : list gostr :=
  lit <$> ["-delete"; "-exec"; "-execdir"; "-ok"; "-okdir";
           "-fprintf"; "-fprint"; "-fprint0"; "-fls"].

Definition verbArgsMutate (verb : gostr) (args : list gostr) : bool :=
  if verb =s #"find" then existsb (λ a, a ∈? findMutatingPrimaries) args
  else if verb =s #"sort" then
    existsb (λ a, a =s #"-o" || a =s #"--output" || HasPrefix a #"-o" || HasPrefix a #"--output=") args
  else false.

Definition writeIndicators : list gostr :=
  lit <$> ["rm"; "mv"; "cp"; "mkdir"; "rmdir"; "touch"; "tee"; "dd"; "chmod"; "chown";
           "ln"; "truncate"; "install"].

Definition simpleReadOnly (cmd : gostr) : bool :=
  if HasSubstitutionOrGrouping cmd then false
  else
    let canon := Canonicalize cmd in
    if ContainsRune canon (chr ">") then false
    else
      match Fields canon with
      | [] => false
      | (verb :: args) as fields =>
          if existsb (λ f, f ∈? writeIndicators) fields then false
          else if verb =s #"git" then
            match args with
            | [] => false
            | sub :: _ => sub ∈? readOnlyGitSubcommands
            end
          else if negb (verb ∈? readOnlyVerbs) then false
          else negb (verbArgsMutate verb args)
      end.

Definition ReadOnlyShell (cmd : gostr) : bool :=
  match SplitCommands cmd with
  | [] => false
  | parts => forallb simpleReadOnly parts
  end.

(** ** Read-only substitutions *)

Definition outerReadOnlyAfterBlanking (seg blanked : gostr) : bool :=
  if TrimSpace blanked =s substitutionPlaceholder then isPureSubshell seg
  else
    let residual := stripShellKeywords blanked in
    if TrimSpace residual =s [] then true
    else if TrimSpace residual =s substitutionPlaceholder then true
    else simpleReadOnly residual.

(** The body of [SubstitutionReadOnly], with the recursive call as an argument. *)
Definition substitutionReadOnlyBody (self : gostr → bool) (seg : gostr) : bool :=
  if negb (HasSubstitutionOrGrouping seg) then false
  else
    match extractSubstitutions seg with
    | None => false
    | Some inner =>
        if forallb (λ i, ReadOnlyShell i || self i) inner then
          match outerWithSubstitutionsBlanked seg with
          | None => false
          | Some blanked => outerReadOnlyAfterBlanking seg blanked
          end
        else false
    end.

Fixpoint substitutionReadOnlyFuel (fuel : nat) (seg : gostr) : bool :=
  match fuel with
  | O => false
  | S fuel' => substitutionReadOnlyBody (substitutionReadOnlyFuel fuel') seg
  end.

(** Extracted bodies are strictly shorter than the segment, so its length bounds
    the recursion. *)
Definition SubstitutionReadOnly (seg : gostr) : bool :=
  substitutionReadOnlyFuel (S (length seg)) seg.

(** ** Worktree escapes *)

Definition worktreeEscapeGitSubcommands : list gostr :=
  lit <$> ["push"; "config"; "remote"; "fetch"; "pull"; "clone"; "worktree"; "submodule"].

Definition gitGlobalValueFlags : list gostr :=
  lit <$> ["-C"; "-c"; "--git-dir"; "--work-tree"; "--namespace"; "--exec-path"; "--config-env"].

Definition gitPathBearingGlobalFlags : list gostr :=
  lit <$> ["-C"; "--git-dir"; "--work-tree"].

(** [f[:eq]] for the first ["="], the whole flag without one. *)
Fixpoint flagName (f : gostr) : gostr :=
  match f with
  | [] => []
  | c :: f' => if c =r chr "=" then [] else c :: flagName f'
  end.

(** [gitSubcommand]'s loop over [fields[1:]]: (subcommand if resolved, escapesPath). *)
Fixpoint gitSubcommandLoop (escapesPath : bool) (fields : list gostr) : option gostr * bool :=
  match fields with
  | [] => (None, escapesPath)
  | f :: rest =>
      if negb (HasPrefix f #"-") then (Some f, escapesPath)
      else
        let name := flagName f in
        let escapesPath' := escapesPath || name ∈? gitPathBearingGlobalFlags in
        if name ∈? gitGlobalValueFlags && negb (ContainsRune f (chr "=")) then
          match rest with
          | [] => (None, escapesPath')
          | _ :: rest' => gitSubcommandLoop escapesPath' rest'
          end
        else gitSubcommandLoop escapesPath' rest
  end.

Definition gitSubcommand (fields : list gostr) : option gostr * bool :=
  gitSubcommandLoop false (drop 1 fields).

Definition goWorktreeEscapeFlags : list gostr :=
  lit <$> ["-exec"; "--exec"; "-toolexec"; "--toolexec"; "-overlay"; "--overlay"; "-o"; "--o"].

Definition goArgsEscapeWorktree (args : list gostr) : bool :=
  existsb (λ a, flagName a ∈? goWorktreeEscapeFlags) args.

Definition worktreeSafeGoSubcommands : list gostr := lit <$> ["test"; "build"; "vet"; "list"].

Definition escapeRejectionsFree (text : gostr) : bool :=
  match Fields (Canonicalize (TrimSpace text)) with
  | [] => true
  | (head :: args) as fields =>
      let gitOK :=
        if head =s #"git" then
          match gitSubcommand fields with
          | (None, _) => false
          | (Some sub, escapesPath) => negb (escapesPath || sub ∈? worktreeEscapeGitSubcommands)
          end
        else true in
      if gitOK then negb (head =s #"go" && goArgsEscapeWorktree args) else false
  end.

Definition segmentIsolationApprovable (orig classifyText : gostr) : bool :=
  let residual := stripShellKeywords classifyText in
  if TrimSpace residual =s [] then true
  else if TrimSpace residual =s substitutionPlaceholder then isPureSubshell orig
  else
    let canon := Canonicalize residual in
    match Fields canon with
    | [] => false
    | head :: args =>
        if negb (escapeRejectionsFree residual) then false
        else if simpleReadOnly residual then true
        else if ContainsRune canon (chr ">") then false
        else
          match args with
          | sub :: _ => head =s #"go" && sub ∈? worktreeSafeGoSubcommands
          | [] => false
          end
    end.

Definition outerEscapeFree (orig text : gostr) : bool :=
  let trimmed := TrimSpace (stripShellKeywords text) in
  if trimmed =s [] then true
  else if trimmed =s substitutionPlaceholder then isPureSubshell orig
  else escapeRejectionsFree trimmed.

Definition flooredAllowSafe (seg : gostr) : bool :=
  if negb (HasSubstitutionOrGrouping seg) then false
  else
    match extractSubstitutions seg with
    | None => false
    | Some inner =>
        if forallb (λ i, ReadOnlyShell i || SubstitutionReadOnly i) inner then
          match outerWithSubstitutionsBlanked seg with
          | None => false
          | Some blanked => outerEscapeFree seg blanked
          end
        else false
    end.

(** One segment of [IsolationApprovable], with the recursive call as an argument. *)
Definition isolationSegment (self : gostr → bool) (seg : gostr) : bool :=
  if HasSubstitutionOrGrouping seg then
    match extractSubstitutions seg with
    | None => false
    | Some inner =>
        if forallb self inner then
          match outerWithSubstitutionsBlanked seg with
          | None => false
          | Some blanked => segmentIsolationApprovable seg blanked
          end
        else false
    end
  else segmentIsolationApprovable seg seg.

Fixpoint isolationApprovableFuel (fuel : nat) (cmd : gostr) : bool :=
  match fuel with
  | O => false
  | S fuel' =>
      match SplitCommands cmd with
      | [] => false
      | segs => forallb (isolationSegment (isolationApprovableFuel fuel')) segs
      end
  end.

Definition IsolationApprovable (cmd : gostr) : bool :=
  isolationApprovableFuel (S (length cmd)) cmd.

(** ** Quote states

    The scanners all track which quote is open; [qstep] is that tracking on its
    own, and [splitSpec] is the splitter with single-rune separators only. *)

Definition qstate : Type := bool * bool.

Definition unquoted (q : qstate) : bool := negb q.1 && negb q.2.

Definition qstep (q : qstate) (c : rune) : qstate :=
  if q.1 then (negb (c =r squote), q.2)
  else if q.2 then (q.1, negb (c =r dquote))
  else (c =r squote, c =r dquote).

Definition quoteState (q : qstate) (s : gostr) : qstate := foldl qstep q s.

(** The quotes of [s] are all closed. *)
Definition closedQuotes (s : gostr) : bool := unquoted (quoteState (false, false) s).

Fixpoint hasUnquotedSeparator (q : qstate) (s : gostr) : bool :=
  match s with
  | [] => false
  | c :: rest => (unquoted q && isSeparator c) || hasUnquotedSeparator (qstep q c) rest
  end.

(** [s] without its unquoted separators. *)
Fixpoint dropUnquotedSeparators (q : qstate) (s : gostr) : gostr :=
  match s with
  | [] => []
  | c :: rest =>
      if unquoted q && isSeparator c then dropUnquotedSeparators q rest
      else c :: dropUnquotedSeparators (qstep q c) rest
  end.

Fixpoint splitSpec (q : qstate) (buf s : gostr) : list gostr :=
  match s with
  | [] => flush buf
  | c :: rest =>
      if unquoted q && isSeparator c then flush buf ++ splitSpec q [] rest
      else splitSpec (qstep q c) (buf ++ [c]) rest
  end.

Lemma qstep_plain q c : unquoted q = true → c ≠ squote → c ≠ dquote → qstep q c = q.
Proof.
  destruct q as [[] []]; unfold unquoted, qstep; simpl; try done.
  intros _ H1%N.eqb_neq H2%N.eqb_neq. by rewrite H1, H2.
Qed.

Lemma unquoted_eq q : unquoted q = true → q = (false, false).
Proof. by destruct q as [[] []]. Qed.

Lemma isSeparator_plain c : isSeparator c = true → c ≠ squote ∧ c ≠ dquote.
Proof. intros H. split; intros ->; discriminate. Qed.

Lemma is_space_plain c : is_space c = true → c ≠ squote ∧ c ≠ dquote.
Proof. intros H. split; intros ->; discriminate. Qed.

Lemma isDoubleOp_separator c c2 :
  isDoubleOp c c2 = true → isSeparator c = true ∧ c2 = c.
Proof.
  unfold isDoubleOp, isSeparator. intros [H ->%N.eqb_eq]%andb_prop. split; [|done].
  apply orb_true_iff in H as [H|H]; rewrite H; by rewrite ?orb_true_r.
Qed.

Lemma splitSpec_cons_sep q buf c s :
  unquoted q = true → isSeparator c = true →
  splitSpec q buf (c :: s) = flush buf ++ splitSpec q [] s.
Proof. intros Hq Hc. simpl. by rewrite Hq, Hc. Qed.

(** The splitter's two-rune operators are two separators around nothing. *)
Lemma splitLoop_spec inSingle inDouble buf s :
  splitLoop inSingle inDouble buf s = splitSpec (inSingle, inDouble) buf s.
Proof.
  remember (length s) as n eqn:Hn. assert (length s ≤ n) as Hle by lia. clear Hn.
  revert inSingle inDouble buf s Hle.
  induction n as [|n IH]; intros inS inD buf s Hle; destruct s as [|c s]; simpl in *;
    try done; try lia.
  destruct inS; [by rewrite IH by lia|].
  destruct inD; [by rewrite IH by lia|].
  unfold unquoted, qstep; simpl.
  destruct (c =r squote) eqn:Eq.
  { apply N.eqb_eq in Eq as ->. simpl. by rewrite IH by lia. }
  destruct (c =r dquote) eqn:Ed.
  { apply N.eqb_eq in Ed as ->. simpl. by rewrite IH by lia. }
  assert (Hsingle : (if isSeparator c then flush buf ++ splitLoop false false [] s
    else splitLoop false false (buf ++ [c]) s) =
    (if isSeparator c then flush buf ++ splitSpec (false, false) [] s
     else splitSpec (false, false) (buf ++ [c]) s)) by (by rewrite !IH by lia).
  destruct s as [|c2 s]; [done|].
  destruct (isDoubleOp c c2) eqn:E2; [|done].
  apply isDoubleOp_separator in E2 as [Hsep ->]. rewrite Hsep.
  rewrite IH by (simpl in *; lia). by rewrite splitSpec_cons_sep by done.
Qed.

Lemma SplitCommands_spec cmd : SplitCommands cmd = splitSpec (false, false) [] cmd.
Proof. apply splitLoop_spec. Qed.

Lemma flush_in buf seg : seg ∈ flush buf → seg = TrimSpace buf ∧ seg ≠ [].
Proof.
  unfold flush. destruct (TrimSpace buf); [by intros ?%not_elem_of_nil|].
  intros ->%list_elem_of_singleton. done.
Qed.

Lemma flush_trimmed seg : trimmed seg → seg ≠ [] → flush seg = [seg].
Proof. intros Ht Hne. unfold flush. rewrite TrimSpace_id by done. by destruct seg. Qed.

Lemma hasUnquotedSeparator_app q a b :
  hasUnquotedSeparator q (a ++ b) =
  hasUnquotedSeparator q a || hasUnquotedSeparator (quoteState q a) b.
Proof.
  revert q. induction a as [|c a IH]; intros q; simpl; [done|].
  rewrite IH. by rewrite orb_assoc.
Qed.

Lemma quoteState_spaces q a : unquoted q = true → all_space a → quoteState q a = q.
Proof.
  intros Hq. induction 1 as [|c a Hc _ IH]; simpl; [done|].
  apply is_space_plain in Hc as [??]. by rewrite qstep_plain.
Qed.

Lemma hasUnquotedSeparator_TrimSpace s :
  hasUnquotedSeparator (false, false) s = false →
  hasUnquotedSeparator (false, false) (TrimSpace s) = false.
Proof.
  destruct (TrimSpace_split s) as (a & b & Hs & Ha & Hb). rewrite Hs at 1.
  rewrite !hasUnquotedSeparator_app, quoteState_spaces by done. intros H. bprop. done.
Qed.

Lemma splitSpec_segments buf s :
  hasUnquotedSeparator (false, false) buf = false →
  Forall (λ seg, seg ≠ [] ∧ trimmed seg ∧ hasUnquotedSeparator (false, false) seg = false)
    (splitSpec (quoteState (false, false) buf) buf s).
Proof.
  assert (Hflush : ∀ b, hasUnquotedSeparator (false, false) b = false →
    Forall (λ seg, seg ≠ [] ∧ trimmed seg ∧ hasUnquotedSeparator (false, false) seg = false)
      (flush b)).
  { intros b Hb. apply Forall_forall. intros seg [-> Hne]%flush_in.
    eauto using TrimSpace_trimmed, hasUnquotedSeparator_TrimSpace. }
  revert buf. induction s as [|c s IH]; intros buf Hbuf; simpl; [by apply Hflush|].
  destruct (unquoted _ && isSeparator c) eqn:E.
  - bprop. rewrite (unquoted_eq (quoteState _ _)) by done.
    apply Forall_app. split; [by apply Hflush|]. by apply (IH []).
  - replace (qstep (quoteState (false, false) buf) c)
      with (quoteState (false, false) (buf ++ [c])) by (unfold quoteState; by rewrite foldl_app).
    apply IH. rewrite hasUnquotedSeparator_app, Hbuf. simpl. by rewrite E.
Qed.

Lemma SplitCommands_segment cmd seg :
  seg ∈ SplitCommands cmd →
  seg ≠ [] ∧ trimmed seg ∧ hasUnquotedSeparator (false, false) seg = false.
Proof.
  rewrite SplitCommands_spec. intros Hin.
  pose proof (splitSpec_segments [] cmd eq_refl) as HF. rewrite Forall_forall in HF.
  by apply HF.
Qed.

Lemma splitSpec_single buf s :
  hasUnquotedSeparator (quoteState (false, false) buf) s = false →
  splitSpec (quoteState (false, false) buf) buf s = flush (buf ++ s).
Proof.
  revert buf. induction s as [|c s IH]; intros buf H; simpl in *; [by rewrite app_nil_r|].
  bprop. rewrite H. replace (qstep (quoteState (false, false) buf) c)
    with (quoteState (false, false) (buf ++ [c])) in * by (unfold quoteState; by rewrite foldl_app).
  rewrite IH by done. by rewrite <-app_assoc.
Qed.

Lemma SplitCommands_single s :
  hasUnquotedSeparator (false, false) s = false → SplitCommands s = flush s.
Proof. rewrite SplitCommands_spec. intros H. by apply (splitSpec_single []). Qed.

Lemma splitSpec_app_closed q buf a sep b :
  isSeparator sep = true → unquoted (quoteState q a) = true →
  splitSpec q buf (a ++ sep :: b) = splitSpec q buf a ++ splitSpec (false, false) [] b.
Proof.
  intros Hsep. revert q buf. induction a as [|c a IH]; intros q buf Hq; simpl in *.
  - rewrite Hq, Hsep. simpl. by rewrite (unquoted_eq q).
  - destruct (unquoted q && isSeparator c) eqn:E.
    + rewrite IH, app_assoc; [done|]. bprop.
      destruct (isSeparator_plain c) as [??]; [done|]. by rewrite qstep_plain in Hq.
    + by apply IH.
Qed.

Lemma SplitCommands_app_closed a sep b :
  isSeparator sep = true → closedQuotes a = true →
  SplitCommands (a ++ sep :: b) = SplitCommands a ++ SplitCommands b.
Proof. intros. rewrite !SplitCommands_spec. by apply splitSpec_app_closed. Qed.

Definition nonspace (s : gostr) : gostr := filter (λ c, is_space c = false) s.

Lemma nonspace_spaces a : all_space a → nonspace a = [].
Proof.
  unfold nonspace. induction 1 as [|c a Hc _ IH]; [done|].
  rewrite filter_cons, decide_False by (by rewrite Hc). done.
Qed.

Lemma nonspace_app a b : nonspace (a ++ b) = nonspace a ++ nonspace b.
Proof. apply filter_app. Qed.

Lemma nonspace_flush buf : nonspace (concat (flush buf)) = nonspace buf.
Proof.
  unfold flush. destruct (TrimSpace_split buf) as (a & b & Hs & Ha & Hb). rewrite Hs at 2.
  rewrite !nonspace_app, (nonspace_spaces a), (nonspace_spaces b) by done.
  destruct (TrimSpace buf); simpl; by rewrite ?app_nil_r.
Qed.

Lemma splitSpec_nonspace q buf s :
  nonspace (concat (splitSpec q buf s)) = nonspace buf ++ nonspace (dropUnquotedSeparators q s).
Proof.
  revert q buf. induction s as [|c s IH]; intros q buf; simpl.
  - by rewrite nonspace_flush, app_nil_r.
  - destruct (unquoted q && isSeparator c).
    + rewrite concat_app, nonspace_app, nonspace_flush, IH. done.
    + rewrite IH, !nonspace_app, <-app_assoc. f_equal.
      unfold nonspace. rewrite !filter_cons. by destruct (decide _).
Qed.

(** ** Canonicalization *)

Lemma skipWrapperArgs_suffix vf k fs : skipWrapperArgs vf k fs `suffix_of` fs.
Proof.
  remember (length fs) as n eqn:Hn. assert (length fs ≤ n) as Hle by lia. clear Hn.
  revert k fs Hle. induction n as [|n IH]; intros k fs Hle;
    destruct fs as [|f fs]; simpl in *; try done; try lia.
  assert (∀ k', skipWrapperArgs vf k' fs `suffix_of` f :: fs) as Hrec
    by (intros; apply suffix_cons_r, IH; lia).
  destruct (negb (HasPrefix f _)); [destruct k; [done|apply Hrec]|].
  destruct (ContainsRune f _); [apply Hrec|].
  destruct (f ∈? vf); [|apply Hrec].
  destruct fs as [|g fs]; [apply suffix_nil|].
  do 2 apply suffix_cons_r. apply IH. simpl in *; lia.
Qed.

Lemma Forall_suffix {A} (P : A → Prop) l k : l `suffix_of` k → Forall P k → Forall P l.
Proof. intros [p ->] [_ ?]%Forall_app. done. Qed.

Lemma Fields_Join_suffix s rest :
  rest `suffix_of` Fields s → Fields (Join rest [space]) = rest.
Proof. intros H. apply Fields_Join. eapply Forall_suffix; [done|apply Fields_words]. Qed.

(** One round of the canonicalizer: [None] when the text is final. *)
Definition stripWrapper (text : gostr) : option (list gostr) :=
  match Fields text with
  | [] => None
  | head :: args =>
      if head ∈? strippableWrappers then
        match skipWrapperArgs (wrapperFlagsTakeValue head) (wrapperLeadingPositionals head) args with
        | [] => None
        | rest => Some rest
        end
      else None
  end.

Lemma canonLoop_S n text :
  canonLoop (S n) text =
  match stripWrapper text with None => text | Some rest => canonLoop n (Join rest [space]) end.
Proof.
  simpl. unfold stripWrapper. destruct (Fields text) as [|head args]; [done|].
  destruct (head ∈? strippableWrappers); simpl; [|done].
  by destruct (skipWrapperArgs _ _ args).
Qed.

Lemma stripWrapper_suffix text rest :
  stripWrapper text = Some rest →
  rest ≠ [] ∧ rest `suffix_of` Fields text ∧ length rest < length (Fields text).
Proof.
  unfold stripWrapper. destruct (Fields text) as [|head args]; [done|].
  destruct (head ∈? strippableWrappers); [|done].
  pose proof (skipWrapperArgs_suffix (wrapperFlagsTakeValue head)
    (wrapperLeadingPositionals head) args) as Hs.
  destruct (skipWrapperArgs _ _ args) as [|f fs]; [done|]. intros [= <-].
  pose proof (suffix_length _ _ Hs). split_and!; [done|by apply suffix_cons_r|simpl in *; lia].
Qed.

Lemma stripWrapper_length text rest :
  stripWrapper text = Some rest →
  length (Fields (Join rest [space])) < length (Fields text).
Proof. intros (_ & Hs & Hl)%stripWrapper_suffix. by rewrite (Fields_Join_suffix text). Qed.

Lemma canonLoop_fuel n m text :
  length (Fields text) ≤ n → length (Fields text) ≤ m → canonLoop n text = canonLoop m text.
Proof.
  revert m text. induction n as [|n IH]; intros m text Hn Hm.
  - destruct m as [|m]; [done|]. rewrite canonLoop_S. unfold stripWrapper.
    by destruct (Fields text); simpl in *; [|lia].
  - destruct m as [|m].
    + rewrite canonLoop_S. unfold stripWrapper. by destruct (Fields text); simpl in *; [|lia].
    + rewrite !canonLoop_S. destruct (stripWrapper text) as [rest|] eqn:E; [|done].
      pose proof (stripWrapper_length _ _ E). apply IH; lia.
Qed.

Lemma stripWrapper_TrimSpace text : stripWrapper (TrimSpace text) = stripWrapper text.
Proof. unfold stripWrapper. by rewrite Fields_TrimSpace. Qed.

(** The loop of [Canonicalize] is the recursion that strips one wrapper at a
    time: the fuel never cuts it short. *)
Lemma Canonicalize_eq cmd :
  Canonicalize cmd =
  match stripWrapper cmd with
  | None => TrimSpace cmd
  | Some rest => Canonicalize (Join rest [space])
  end.
Proof.
  unfold Canonicalize. destruct (length (Fields cmd)) as [|n] eqn:Hlen.
  - unfold stripWrapper. by destruct (Fields cmd).
  - rewrite canonLoop_S, stripWrapper_TrimSpace.
    destruct (stripWrapper cmd) as [rest|] eqn:E; [|done].
    pose proof (stripWrapper_length _ _ E). pose proof (stripWrapper_suffix _ _ E) as (_ & Hs & _).
    rewrite (TrimSpace_id (Join rest _)) by (eapply Join_trimmed, Forall_suffix; [done|apply Fields_words]).
    apply canonLoop_fuel; lia.
Qed.

(** Induction along the rounds of [Canonicalize]. *)
Lemma Canonicalize_ind (P : gostr → Prop) :
  (∀ cmd, stripWrapper cmd = None → P cmd) →
  (∀ cmd rest, stripWrapper cmd = Some rest → P (Join rest [space]) → P cmd) →
  ∀ cmd, P cmd.
Proof.
  intros Hdone Hstep cmd. remember (length (Fields cmd)) as n eqn:Hn.
  assert (length (Fields cmd) ≤ n) as Hle by lia. clear Hn. revert cmd Hle.
  induction n as [|n IH]; intros cmd Hle; destruct (stripWrapper cmd) as [rest|] eqn:E; auto.
  - pose proof (stripWrapper_length _ _ E). lia.
  - apply (Hstep _ rest E), IH. pose proof (stripWrapper_length _ _ E). lia.
Qed.

Lemma Canonicalize_final cmd : stripWrapper (Canonicalize cmd) = None.
Proof.
  induction cmd as [cmd H|cmd rest H IH] using Canonicalize_ind; rewrite Canonicalize_eq, H;
    [by rewrite stripWrapper_TrimSpace|done].
Qed.

Lemma Canonicalize_trimmed cmd : trimmed (Canonicalize cmd).
Proof.
  induction cmd as [cmd H|cmd rest H IH] using Canonicalize_ind; rewrite Canonicalize_eq, H;
    [apply TrimSpace_trimmed|done].
Qed.

Lemma Canonicalize_suffix_fields cmd : Fields (Canonicalize cmd) `suffix_of` Fields cmd.
Proof.
  induction cmd as [cmd H|cmd rest H IH] using Canonicalize_ind; rewrite Canonicalize_eq, H.
  - by rewrite Fields_TrimSpace.
  - etrans; [exact IH|]. apply stripWrapper_suffix in H as (_ & Hs & _).
    by rewrite (Fields_Join_suffix cmd).
Qed.

(** ** Extraction *)

Lemma nextSpanOpener_offset c next d off k :
  nextSpanOpener c next d = Some (off, k) → k = OParen ∨ k = OBacktick → 1 ≤ off.
Proof. unfold nextSpanOpener. intros H [->| ->]; repeat case_bool; simplify_eq; lia. Qed.

Lemma fmap_cons_Some (p : piece) (m : option (list piece)) ps :
  (p ::.) <$> m = Some ps → ∃ ps', m = Some ps' ∧ ps = p :: ps'.
Proof. destruct m as [ps'|]; simpl; [|done]. intros [= <-]. eauto. Qed.

Lemma walkLoop_span_shorter skip inS inD l ps b :
  walkLoop skip inS inD l = Some ps → PSpan b ∈ ps → length b < length l.
Proof.
  revert skip inS inD ps. induction l as [|c l IH]; intros skip inS inD ps; simpl.
  { case_bool; [|done]. intros [= <-] ?%not_elem_of_nil. done. }
  destruct skip as [|skip]; [|intros H Hb; specialize (IH _ _ _ _ H Hb); lia].
  assert (Hrune : ∀ k s d, (PRune c ::.) <$> walkLoop k s d l = Some ps →
    PSpan b ∈ ps → length b < S (length l)).
  { intros k s d (ps' & H & ->)%fmap_cons_Some. intros [?|Hb]%elem_of_cons; [done|].
    specialize (IH _ _ _ _ H Hb). lia. }
  destruct inS; [by apply Hrune|].
  destruct (c =r squote && negb inD); [by apply Hrune|].
  destruct (c =r dquote); [by apply Hrune|].
  destruct (nextSpanOpener c (nextRune l) inD) as [[off k]|] eqn:Eo; [|by apply Hrune].
  pose proof (nextSpanOpener_offset _ _ _ _ _ Eo) as Hoff.
  assert (Hspan : ∀ n, 1 ≤ off →
    (PSpan (take n (drop off (c :: l))) ::.) <$> walkLoop (off + n) false inD l = Some ps →
    PSpan b ∈ ps → length b < S (length l)).
  { intros n Hle (ps' & H & ->)%fmap_cons_Some. intros [Heq|Hb]%elem_of_cons.
    - injection Heq as ->. rewrite length_take, length_drop. simpl. lia.
    - specialize (IH _ _ _ _ H Hb). lia. }
  destruct k; try done; [destruct (spanParen _) as [n|]|destruct (spanBacktick _) as [n|]];
    try done; apply Hspan; auto.
Qed.

Lemma walkSubstitutions_shorter l ps b :
  walkSubstitutions l = Some ps → PSpan b ∈ ps → length b < length l.
Proof. apply walkLoop_span_shorter. Qed.

Lemma extractFrom_shorter budget l inner i :
  extractFrom budget l = Some inner → i ∈ inner → length i < length l.
Proof.
  revert l inner i. induction budget as [|budget IH]; intros l inner i; simpl; [done|].
  destruct (walkSubstitutions l) as [ps|] eqn:Ew; simpl; [|done].
  assert (Hps : ∀ b, PSpan b ∈ ps → length b < length l)
    by eauto using walkSubstitutions_shorter.
  clear Ew. revert inner. induction ps as [|p ps IHps]; intros inner; simpl.
  { intros [= <-] ?%not_elem_of_nil. done. }
  specialize (IHps (λ b Hb, Hps b (list_elem_of_further _ _ _ Hb))).
  destruct p as [c|body]; [apply IHps|].
  destruct (extractFrom budget body) as [rec|] eqn:Er; simpl; [|done].
  destruct (foldr _ _ ps) as [out|]; simpl; [|done].
  intros [= <-] [->|[Hi|Hi]%elem_of_app]%elem_of_cons.
  - apply Hps. constructor.
  - specialize (IH _ _ _ Er Hi). assert (length body < length l) by (apply Hps; constructor). lia.
  - by eapply IHps.
Qed.

Lemma extractSubstitutions_shorter seg inner i :
  extractSubstitutions seg = Some inner → i ∈ inner → length i < length seg.
Proof. apply extractFrom_shorter. Qed.

Lemma substitutionReadOnlyBody_ext self self' seg :
  (∀ i, length i < length seg → self i = self' i) →
  substitutionReadOnlyBody self seg = substitutionReadOnlyBody self' seg.
Proof.
  intros H. unfold substitutionReadOnlyBody. destruct (negb _); [done|].
  destruct (extractSubstitutions seg) as [inner|] eqn:E; [|done].
  rewrite (forallb_ext_elem (λ i, ReadOnlyShell i || self i) (λ i, ReadOnlyShell i || self' i));
    [done|].
  intros i Hi. by rewrite H by eauto using extractSubstitutions_shorter.
Qed.

Lemma substitutionReadOnlyFuel_enough n m seg :
  length seg < n → length seg < m →
  substitutionReadOnlyFuel n seg = substitutionReadOnlyFuel m seg.
Proof.
  revert m seg. induction n as [|n IH]; intros [|m] seg Hn Hm; try lia. simpl.
  apply substitutionReadOnlyBody_ext. intros i Hi. apply IH; lia.
Qed.

Lemma SubstitutionReadOnly_unfold seg :
  SubstitutionReadOnly seg = substitutionReadOnlyBody SubstitutionReadOnly seg.
Proof.
  unfold SubstitutionReadOnly at 1. simpl. apply substitutionReadOnlyBody_ext.
  intros i Hi. apply substitutionReadOnlyFuel_enough; lia.
Qed.

Lemma TrimSpace_length s : length (TrimSpace s) ≤ length s.
Proof.
  destruct (TrimSpace_split s) as (a & b & Hs & _). apply (f_equal length) in Hs.
  rewrite !length_app in Hs. lia.
Qed.

Lemma splitSpec_length q buf s seg :
  seg ∈ splitSpec q buf s → length seg ≤ length buf + length s.
Proof.
  assert (Hf : ∀ b, seg ∈ flush b → length seg ≤ length b)
    by (intros b [-> _]%flush_in; apply TrimSpace_length).
  revert q buf. induction s as [|c s IH]; intros q buf; simpl.
  - intros H%Hf. lia.
  - case_bool.
    + intros [H%Hf|H]%elem_of_app; [lia|]. apply IH in H. simpl in H. lia.
    + intros H%IH. rewrite length_app in H. simpl in H. lia.
Qed.

Lemma SplitCommands_length cmd seg : seg ∈ SplitCommands cmd → length seg ≤ length cmd.
Proof. rewrite SplitCommands_spec. apply (splitSpec_length _ []). Qed.

Lemma isolationSegment_ext self self' seg :
  (∀ i, length i < length seg → self i = self' i) →
  isolationSegment self seg = isolationSegment self' seg.
Proof.
  intros H. unfold isolationSegment. destruct (HasSubstitutionOrGrouping seg); [|done].
  destruct (extractSubstitutions seg) as [inner|] eqn:E; [|done].
  rewrite (forallb_ext_elem self self'); [done|].
  intros i Hi. apply H. eauto using extractSubstitutions_shorter.
Qed.

Lemma isolationSegments_ext (f g : gostr → bool) segs :
  (∀ seg, seg ∈ segs → f seg = g seg) →
  match segs with [] => false | seg :: rest => forallb f (seg :: rest) end =
  match segs with [] => false | seg :: rest => forallb g (seg :: rest) end.
Proof. intros H. destruct segs; [done|]. by apply forallb_ext_elem. Qed.

Lemma isolationApprovableFuel_enough n m cmd :
  length cmd < n → length cmd < m →
  isolationApprovableFuel n cmd = isolationApprovableFuel m cmd.
Proof.
  revert m cmd. induction n as [|n IH]; intros [|m] cmd Hn Hm; try lia.
  cbn [isolationApprovableFuel]. apply isolationSegments_ext. intros seg Hseg%SplitCommands_length. apply isolationSegment_ext.
  intros i Hi. apply IH; lia.
Qed.

Lemma IsolationApprovable_unfold cmd :
  IsolationApprovable cmd =
  match SplitCommands cmd with
  | [] => false
  | segs => forallb (isolationSegment IsolationApprovable) segs
  end.
Proof.
  unfold IsolationApprovable at 1. cbn [isolationApprovableFuel].
  apply isolationSegments_ext. intros seg Hseg%SplitCommands_length. apply isolationSegment_ext.
  intros i Hi. apply isolationApprovableFuel_enough; lia.
Qed.

(** A segment the detector passes has no span for the extractor: the two
    scanners agree on what an opener is. *)
Lemma nextSpanOpener_trigger c next d off k :
  nextSpanOpener c next d = Some (off, k) →
  hasSubstitutionTrigger c next = true ∨ (d = false ∧ (c = chr "(" ∨ c = chr "{")).
Proof.
  unfold nextSpanOpener, hasSubstitutionTrigger. intros H.
  destruct (c =r backtick) eqn:Eb; [by left|].
  destruct (c =r chr "$") eqn:Ed; simpl in H.
  - apply N.eqb_eq in Ed as ->. left. revert H.
    destruct (next =r chr "{"), (next =r chr "("); [done..|]. by destruct d.
  - revert H. destruct (c =r chr "<" || c =r chr ">"), (next =r chr "("), d; simpl; auto.
    all: intros H; repeat case_bool; simplify_eq; bprop; subst; auto.
Qed.

Lemma hasSubLoop_walk inS inD l :
  inS && inD = false → hasSubLoop inS inD l = false →
  walkLoop 0 inS inD l =
  if unquoted (quoteState (inS, inD) l) then Some (PRune <$> l) else None.
Proof.
  revert inS inD. induction l as [|c l IH]; intros inS inD Hq H; simpl in *; [done|].
  assert (Hgo : ∀ s d, s && d = false → hasSubLoop s d l = false → qstep (inS, inD) c = (s, d) →
    (PRune c ::.) <$> walkLoop 0 s d l =
    if unquoted (quoteState (qstep (inS, inD) c) l) then Some (PRune c :: (PRune <$> l)) else None).
  { intros s d Hsd Hl ->. rewrite IH by done. by destruct (unquoted _). }
  revert H. destruct inS.
  { destruct inD; [done|]. intros H. apply Hgo; try done. by rewrite andb_false_r. }
  destruct (c =r squote) eqn:Es.
  { apply N.eqb_eq in Es as ->. intros H. destruct inD; simpl in *; apply Hgo; done. }
  destruct (c =r dquote) eqn:Ed.
  { apply N.eqb_eq in Ed as ->. intros H. destruct inD; simpl in *; apply Hgo; done. }
  destruct (hasSubstitutionTrigger c (nextRune l)) eqn:Et; [by destruct inD|]. intros H.
  assert (Hno : nextSpanOpener c (nextRune l) inD = None ∧ hasSubLoop false inD l = false).
  { destruct (nextSpanOpener _ _ _) as [[off k]|] eqn:E; revert H.
    - apply nextSpanOpener_trigger in E as [E|[-> [-> | ->]]]; [congruence|..];
        intros H; discriminate H.
    - destruct inD; simpl; [done|]. by destruct (c =r chr "(" || c =r chr "{"). }
  destruct Hno as [Hno Hl]. simpl. rewrite Hno. apply Hgo; try done.
  unfold qstep. simpl. rewrite Es, Ed. by destruct inD.
Qed.

Lemma concat_blank_runes l : concat (blankPiece <$> (PRune <$> l)) = l.
Proof. induction l as [|c l IH]; csimpl; congruence. Qed.

Lemma no_substitution_pieces seg :
  HasSubstitutionOrGrouping seg = false →
  walkSubstitutions seg = if closedQuotes seg then Some (PRune <$> seg) else None.
Proof. by apply hasSubLoop_walk. Qed.

Lemma Canonicalize_TrimSpace text : Canonicalize (TrimSpace text) = Canonicalize text.
Proof.
  rewrite (Canonicalize_eq (TrimSpace text)), (Canonicalize_eq text).
  by rewrite stripWrapper_TrimSpace, TrimSpace_idemp.
Qed.

(** What [simpleReadOnly] accepts: an allow-listed verb whose canonical text
    neither redirects nor names a write command. *)
Definition readOnlyFields (fields : list gostr) : Prop :=
  (∀ f, f ∈ fields → f ∉ writeIndicators) ∧
  match fields with
  | [] => False
  | verb :: args =>
      (verb = #"git" ∧ ∃ sub rest, args = sub :: rest ∧ sub ∈ readOnlyGitSubcommands) ∨
      (verb ∈ readOnlyVerbs ∧ verbArgsMutate verb args = false)
  end.

Lemma simpleReadOnly_spec cmd :
  simpleReadOnly cmd = true ↔
  HasSubstitutionOrGrouping cmd = false ∧ chr ">" ∉ Canonicalize cmd ∧
  readOnlyFields (Fields (Canonicalize cmd)).
Proof.
  unfold simpleReadOnly, readOnlyFields, ContainsRune.
  destruct (HasSubstitutionOrGrouping cmd); [naive_solver|].
  case_bool_decide; [naive_solver|].
  destruct (Fields (Canonicalize cmd)) as [|verb args]; [naive_solver|].
  destruct (existsb _ _) eqn:Ew.
  { split; [done|]. intros (_ & _ & Hw & _). exfalso.
    apply existsb_exists in Ew as (f & Hf%list_elem_of_In & Hd). bprop. by eapply Hw. }
  assert (Hno : ∀ f, f ∈ verb :: args → f ∉ writeIndicators).
  { intros f Hf. rewrite existsb_false_forall in Ew. specialize (Ew f Hf). by bprop. }
  clear Ew. destruct (decide (verb = #"git")) as [->|Hg].
  - rewrite (bool_decide_true (#"git" = _)) by done. destruct args as [|sub rest].
    + split; [done|]. intros (_ & _ & _ & [(_ & ? & ? & ? & _)|[Hv _]]); [done|].
      by apply (bool_decide_eq_true_2 _) in Hv.
    + rewrite bool_decide_eq_true. split; [naive_solver|].
      intros (_ & _ & _ & [(_ & ? & ? & ? & ?)|[Hv _]]); [naive_solver|].
      by apply (bool_decide_eq_true_2 _) in Hv.
  - rewrite (bool_decide_false (verb = _)) by done.
    destruct (verb ∈? readOnlyVerbs) eqn:Ev; bprop; simpl; [|naive_solver].
    rewrite negb_true_iff. naive_solver.
Qed.

Lemma ReadOnlyShell_segment cmd seg :
  ReadOnlyShell cmd = true → seg ∈ SplitCommands cmd → simpleReadOnly seg = true.
Proof.
  unfold ReadOnlyShell. destruct (SplitCommands cmd) as [|s segs]; [done|].
  rewrite forallb_elem. auto.
Qed.

Lemma ReadOnlyShell_forallb cmd :
  SplitCommands cmd ≠ [] → ReadOnlyShell cmd = forallb simpleReadOnly (SplitCommands cmd).
Proof. unfold ReadOnlyShell. by destruct (SplitCommands cmd). Qed.

Lemma IsolationApprovable_segment cmd seg :
  IsolationApprovable cmd = true → seg ∈ SplitCommands cmd →
  isolationSegment IsolationApprovable seg = true.
Proof.
  rewrite IsolationApprovable_unfold. destruct (SplitCommands cmd) as [|s segs]; [done|].
  rewrite forallb_elem. auto.
Qed.

(** A canonical field list that reaches outside the worktree. *)
Definition worktreeEscape (fields : list gostr) : Prop :=
  match fields with
  | [] => False
  | head :: args =>
      (head = #"git" ∧
        ((gitSubcommand fields).1 = None ∨ (gitSubcommand fields).2 = true ∨
         ∃ sub, (gitSubcommand fields).1 = Some sub ∧ sub ∈ worktreeEscapeGitSubcommands)) ∨
      (head = #"go" ∧ goArgsEscapeWorktree args = true)
  end.

Lemma escapeRejectionsFree_spec text :
  escapeRejectionsFree text = true ↔ ¬ worktreeEscape (Fields (Canonicalize text)).
Proof.
  unfold escapeRejectionsFree, worktreeEscape. rewrite Canonicalize_TrimSpace.
  destruct (Fields (Canonicalize text)) as [|head args]; [naive_solver|].
  destruct (decide (head = #"git")) as [->|Hg].
  - rewrite (bool_decide_true (#"git" = #"git")), (bool_decide_false (#"git" = #"go")) by done.
    destruct (gitSubcommand _) as [[sub|] esc]; simpl; [|naive_solver].
    destruct esc; simpl; [naive_solver|].
    destruct (decide (sub ∈ worktreeEscapeGitSubcommands)).
    + rewrite bool_decide_true by done. naive_solver.
    + rewrite bool_decide_false by done. naive_solver.
  - rewrite (bool_decide_false (head = #"git")) by done.
    destruct (decide (head = #"go")) as [->|Hgo].
    + rewrite bool_decide_true by done. simpl.
      destruct (goArgsEscapeWorktree args); naive_solver.
    + rewrite bool_decide_false by done. naive_solver.
Qed.

Lemma segmentIsolationApprovable_no_escape orig text :
  segmentIsolationApprovable orig text = true →
  TrimSpace (stripShellKeywords text) ≠ [] →
  TrimSpace (stripShellKeywords text) ≠ substitutionPlaceholder →
  ¬ worktreeEscape (Fields (Canonicalize (stripShellKeywords text))).
Proof.
  unfold segmentIsolationApprovable. intros H H1 H2.
  rewrite (bool_decide_false (_ = [])), (bool_decide_false (_ = substitutionPlaceholder)) in H by done.
  rewrite <-escapeRejectionsFree_spec.
  destruct (Fields (Canonicalize _)) as [|head args]; [done|].
  by destruct (escapeRejectionsFree _).
Qed.

(** ** What a read-only line must not be

    Stated with literal names, apart from the classifier's tables. *)

(** The rune [c], followed by [next], makes the shell expand or group at a position
    whose quote state is [q]. *)
Definition expands (q : qstate) (c next : rune) : Prop :=
  q.1 = false ∧
  (c = backtick ∨ (c = chr "$" ∧ (next = chr "(" ∨ next = chr "{")) ∨
   ((c = chr "<" ∨ c = chr ">") ∧ next = chr "(") ∨ (unquoted q = true ∧ (c = chr "(" ∨ c = chr "{"))).

(** Programs that run the program text or the command they are given. *)
Definition runners : list gostr :=
  lit <$> ["sh"; "bash"; "zsh"; "dash"; "eval"; "exec"; "source"; "."; "xargs"; "sudo"; "ssh";
           "awk"; "sed"; "perl"; "python"; "python3"; "ruby"; "node"; "make"; "go"; "npm"; "curl"; "wget"].

(** The forms of a command, given by its words, that are documented to write or to
    run something else. *)
Inductive writes : list gostr → Prop :=
  | WFile w words :
      w ∈ lit <$> ["rm"; "mv"; "cp"; "mkdir"; "rmdir"; "touch"; "tee"; "dd"; "chmod"; "chown"; "ln";
                   "truncate"; "install"] →
      w ∈ words → writes words
  | WRun verb args : verb ∈ runners → writes (verb :: args)
  | WFind args a :
      a ∈ lit <$> ["-delete"; "-exec"; "-execdir"; "-ok"; "-okdir"; "-fprintf"; "-fprint"; "-fprint0"; "-fls"] →
      a ∈ args → writes (#"find" :: args)
  | WSort args f : #"-o" ++ f ∈ args → writes (#"sort" :: args)
  | WSortLong args : #"--output" ∈ args → writes (#"sort" :: args)
  | WSortEq args f : #"--output=" ++ f ∈ args → writes (#"sort" :: args)
  | WGit sub args :
      sub ∈ lit <$> ["add"; "am"; "apply"; "bisect"; "checkout"; "cherry-pick"; "clean"; "clone"; "commit"; "config";
                     "fetch"; "filter-branch"; "gc"; "init"; "merge"; "mv"; "notes"; "pull"; "push"; "rebase"; "reset";
                     "restore"; "revert"; "rm"; "stash"; "submodule"; "switch"; "update-ref"; "worktree"; "-c"; "-C"] →
      writes (#"git" :: sub :: args).

Lemma hasSubLoop_expands inS inD pre c rest :
  hasSubLoop inS inD (pre ++ c :: rest) = false → inS && inD = false →
  ¬ expands (quoteState (inS, inD) pre) c (nextRune rest).
Proof.
  revert inS inD. induction pre as [|x pre IH]; intros inS inD H Hq.
  - clear -H. simpl in H. intros [HS He]. simpl in HS. subst inS.
    assert (Ht : hasSubstitutionTrigger c (nextRune rest) = true ∨ inD = false ∧ (c = chr "(" ∨ c = chr "{")).
    { destruct He as [-> |[[-> [-> | ->]]|[[[-> | ->] ->]|[Hu Hc]]]]; [by left..|]. right. by destruct inD. }
    clear He. revert H. destruct inD.
    + destruct Ht as [Ht|[? _]]; [|done]. rewrite Ht. destruct (c =r dquote) eqn:E; [|done].
      apply N.eqb_eq in E as ->. by vm_compute in Ht.
    + destruct (c =r squote) eqn:E1; [apply N.eqb_eq in E1 as ->|destruct (c =r dquote) eqn:E2; [apply N.eqb_eq in E2 as ->|]].
      1,2: by destruct Ht as [Ht|[_ [|]]].
      destruct Ht as [->|[_ [-> | ->]]]; [done|by rewrite orb_true_r..].
  - change (quoteState (inS, inD) (x :: pre)) with (quoteState (qstep (inS, inD) x) pre).
    simpl in H. revert H. unfold qstep; simpl.
    destruct inS; [destruct inD; [done|]; intros H; apply IH; [done|by rewrite andb_false_r]|].
    destruct inD; simpl.
    + destruct (x =r dquote); simpl; [intros H; by apply IH|]. case_bool; [done|]. intros H. by apply IH.
    + destruct (x =r squote) eqn:Es; [apply N.eqb_eq in Es as ->; intros H; by apply IH|].
      destruct (x =r dquote); simpl; [intros H; by apply IH|]. case_bool; [done|]. intros H. by apply IH.
Qed.

Lemma extract_none seg :
  HasSubstitutionOrGrouping seg = false → closedQuotes seg = true → extractSubstitutions seg = Some [].
Proof.
  intros H Hq. unfold extractSubstitutions. simpl. rewrite no_substitution_pieces, Hq by done. simpl.
  clear. induction seg as [|c seg IH]; csimpl; done.
Qed.

Lemma Fields_rune s w c : w ∈ Fields s → c ∈ w → c ∈ s.
Proof.
  intros Hw Hc. assert (Hin : c ∈ concat (Fields s)) by (apply list_elem_of_In, in_concat; exists w; by split; by apply list_elem_of_In).
  rewrite Fields_concat in Hin. by apply list_elem_of_filter in Hin as [_ ?].
Qed.

(** The verdict of a closed membership test. *)
Ltac elem_contra :=
  match goal with
  | H : ?x ∈ ?l |- _ => apply (bool_decide_eq_true_2 (x ∈ l)) in H; vm_compute in H; discriminate H
  end.

(** No word of one list is in the other. *)
Lemma lists_apart (w : gostr) (l k : list gostr) :
  w ∈ l → w ∈ k → forallb (λ x, negb (x ∈? k)) l = false.
Proof.
  intros Hl Hk. apply not_true_is_false. intros H. rewrite forallb_elem in H. specialize (H w Hl). by bprop.
Qed.

Lemma sort_mutates args a :
  a ∈ args → a = #"--output" ∨ (∃ f, a = #"-o" ++ f) ∨ (∃ f, a = #"--output=" ++ f) →
  verbArgsMutate #"sort" args = true.
Proof.
  intros Hin Ha. unfold verbArgsMutate. rewrite (bool_decide_false (_ = #"find")), (bool_decide_true (_ = #"sort")) by done.
  apply existsb_exists. exists a. split; [by apply list_elem_of_In|]. destruct Ha as [-> |[[f ->]|[f ->]]]; [done|..].
  - apply orb_true_iff. left. apply orb_true_iff. right. apply HasPrefix_spec. by exists f.
  - apply orb_true_iff. right. apply HasPrefix_spec. by exists f.
Qed.

Lemma writes_refused words : writes words → ¬ readOnlyFields words.
Proof.
  destruct 1 as [w words Hw Hin|verb args Hv|args a Ha Hin|args f Hin|args Hin|args f Hin|sub args Hs]; intros [Hno Hok].
  - by apply (Hno w Hin).
  - destruct Hok as [[-> _]|[Hro _]]; [elem_contra|]. by pose proof (lists_apart _ _ _ Hv Hro).
  - destruct Hok as [[? _]|[_ Hm]]; [done|]. revert Hm. unfold verbArgsMutate. rewrite bool_decide_true by done.
    rewrite existsb_false_forall. intros Hm. specialize (Hm a Hin). by bprop.
  - destruct Hok as [[? _]|[_ Hm]]; [done|]. by rewrite (sort_mutates _ _ Hin (or_intror (or_introl (ex_intro _ f eq_refl)))) in Hm.
  - destruct Hok as [[? _]|[_ Hm]]; [done|]. by rewrite (sort_mutates _ _ Hin (or_introl eq_refl)) in Hm.
  - destruct Hok as [[? _]|[_ Hm]]; [done|]. by rewrite (sort_mutates _ _ Hin (or_intror (or_intror (ex_intro _ f eq_refl)))) in Hm.
  - destruct Hok as [(_ & sub' & rest & [= -> ->] & Hro)|[Hv _]]; [by pose proof (lists_apart _ _ _ Hs Hro)|elem_contra].
Qed.

(** ** Properties *)

(** Splitting a command line yields non-empty trimmed segments, none of
    which contains a separator outside quotes; splitting a segment again
    returns that segment alone, so no second command hides in it. *)
Theorem split_segments_atomic cmd seg :
  seg ∈ SplitCommands cmd →
  seg ≠ [] ∧ trimmed seg ∧ hasUnquotedSeparator (false, false) seg = false ∧
  SplitCommands seg = [seg].
Proof.
  intros (Hne & Ht & Hs)%SplitCommands_segment. split_and!; try done.
  rewrite SplitCommands_single by done. by apply flush_trimmed.
Qed.

Lemma split_segments_atomic_witness :
  SplitCommands #"rm -rf /" = [ #"rm -rf /" ].
Proof.
  refine (proj2 (proj2 (proj2 (split_segments_atomic #"git status && rm -rf /" #"rm -rf /" _)))).
  vm_compute. right. left.
Defined.

(** The splitter loses nothing: the non-space runes of the segments, in
    order, are exactly the non-space runes of the command line outside its
    unquoted separators. *)
Theorem split_loses_nothing cmd :
  nonspace (concat (SplitCommands cmd)) =
  nonspace (dropUnquotedSeparators (false, false) cmd).
Proof. rewrite SplitCommands_spec. by rewrite splitSpec_nonspace. Qed.

(** A compound line is read-only exactly when both sides are: joining two
    commands with any separator (";", "|", "&", a line break, and therefore
    also "&&" and "||") after a quote-balanced left side neither hides nor
    invents a command. *)
Theorem readonly_compound a sep b :
  closedQuotes a = true → isSeparator sep = true →
  SplitCommands a ≠ [] → SplitCommands b ≠ [] →
  ReadOnlyShell (a ++ sep :: b) = ReadOnlyShell a && ReadOnlyShell b.
Proof.
  intros Hq Hsep Ha Hb. pose proof (SplitCommands_app_closed a sep b Hsep Hq) as Hs.
  rewrite (ReadOnlyShell_forallb (a ++ sep :: b)), Hs, forallb_app, <-!ReadOnlyShell_forallb; try done.
  rewrite Hs. by destruct (SplitCommands a).
Qed.

Lemma readonly_compound_witness :
  ReadOnlyShell (#"ls 'a;b'" ++ chr ";" :: #"rm x") =
  ReadOnlyShell #"ls 'a;b'" && ReadOnlyShell #"rm x".
Proof. apply readonly_compound; vm_compute; done. Defined.

(** C29. What a line that plan mode accepts as read-only cannot contain.  Of the line
    nothing but separators outside quotes is left out of its segments (quotes as the code
    tracks them, without backslashes).  A segment has no separator outside quotes; outside
    single quotes it has no backtick, "$(", "${", "<(" or ">(", and outside all quotes no
    "(" or "{"; with its quotes closed no command can be extracted from it.  Its words are
    those of stripped wrappers and then the command's.  None of the command's contains a
    ">", and they have none of the forms of [writes]: a word rm, mv, cp, tee or the like;
    find with -delete, -exec, -ok, -fprint or the like; sort with -o or --output; git with
    add, commit, push, reset or the like as its first argument; a shell, interpreter or
    launcher of [runners].  Words count as written, with their quotes, and the list is not
    complete: other forms that write are accepted ([readonly_accepts_writers]). *)
Theorem readonly_sound cmd :
  ReadOnlyShell cmd = true →
  nonspace (concat (SplitCommands cmd)) = nonspace (dropUnquotedSeparators (false, false) cmd) ∧
  ∀ seg, seg ∈ SplitCommands cmd →
    hasUnquotedSeparator (false, false) seg = false ∧
    (∀ pre c rest, seg = pre ++ c :: rest → ¬ expands (quoteState (false, false) pre) c (nextRune rest)) ∧
    (closedQuotes seg = true → extractSubstitutions seg = Some []) ∧
    ∃ wrappers words, Fields seg = wrappers ++ words ∧ words = Fields (Canonicalize seg) ∧
      (∀ w, w ∈ words → chr ">" ∉ w) ∧ ¬ writes words.
Proof.
  intros H. split; [by rewrite SplitCommands_spec, splitSpec_nonspace|]. intros seg Hseg.
  pose proof (ReadOnlyShell_segment _ _ H Hseg) as (Hsub & Hgt & Hok)%simpleReadOnly_spec. split_and!.
  - by apply SplitCommands_segment in Hseg as (_ & _ & ?).
  - intros pre c rest ->. by eapply hasSubLoop_expands.
  - by apply extract_none.
  - destruct (Canonicalize_suffix_fields seg) as [wr Hwr]. exists wr, (Fields (Canonicalize seg)). split_and!; [done..| |].
    + intros w Hw Hin. apply Hgt. by eapply Fields_rune.
    + intros Hx. by apply (writes_refused _ Hx).
Qed.

Lemma readonly_sound_witness :
  ¬ writes (Fields (Canonicalize #"timeout 5 git log")).
Proof.
  destruct (readonly_sound #"ls 'a;b' | timeout 5 git log" eq_refl) as [_ H].
  destruct (H #"timeout 5 git log") as (_ & _ & _ & wr & ws & _ & -> & _ & Hw); [vm_compute; right; left|exact Hw].
Defined.

(** Canonicalization removes a prefix of the words and nothing else, is
    idempotent, and leaves a wrapper in front only when nothing would follow. *)
Theorem canonicalize_strips_prefix cmd :
  Fields (Canonicalize cmd) `suffix_of` Fields cmd ∧
  Canonicalize (Canonicalize cmd) = Canonicalize cmd ∧
  match Fields (Canonicalize cmd) with
  | [] => True
  | head :: args =>
      head ∉ strippableWrappers ∨
      skipWrapperArgs (wrapperFlagsTakeValue head) (wrapperLeadingPositionals head) args = []
  end.
Proof.
  split_and!; [apply Canonicalize_suffix_fields| |].
  - rewrite (Canonicalize_eq (Canonicalize cmd)), Canonicalize_final.
    apply TrimSpace_id, Canonicalize_trimmed.
  - pose proof (Canonicalize_final cmd) as H. revert H. unfold stripWrapper.
    destruct (Fields (Canonicalize cmd)) as [|head args]; [done|].
    destruct (head ∈? strippableWrappers) eqn:E; bprop; [|by left].
    destruct (skipWrapperArgs _ _ args); [by right|done].
Qed.

(** The recursive classifiers terminate with their defining equations:
    every body extracted from a segment is strictly shorter than it, so the
    recursion of [SubstitutionReadOnly] and of [IsolationApprovable] on the
    extracted bodies is well founded and the definitions unfold. *)
Theorem classifiers_terminate seg cmd :
  (∀ inner i, extractSubstitutions seg = Some inner → i ∈ inner → length i < length seg) ∧
  SubstitutionReadOnly seg = substitutionReadOnlyBody SubstitutionReadOnly seg ∧
  IsolationApprovable cmd =
    match SplitCommands cmd with
    | [] => false
    | segs => forallb (isolationSegment IsolationApprovable) segs
    end.
Proof.
  split_and!; [apply extractSubstitutions_shorter|apply SubstitutionReadOnly_unfold|].
  apply IsolationApprovable_unfold.
Qed.

(** The detector and the extractor agree: a quote-balanced segment in which
    [HasSubstitutionOrGrouping] sees nothing has no inner command to extract,
    and blanking its substitutions leaves it unchanged. *)
Theorem detector_extractor_agree seg :
  HasSubstitutionOrGrouping seg = false → closedQuotes seg = true →
  extractSubstitutions seg = Some [] ∧ outerWithSubstitutionsBlanked seg = Some seg.
Proof.
  intros H Hq. split; [by apply extract_none|]. unfold outerWithSubstitutionsBlanked.
  rewrite no_substitution_pieces, Hq by done. simpl. by rewrite concat_blank_runes.
Qed.

Lemma detector_extractor_agree_witness :
  extractSubstitutions #"echo '$(rm x)'" = Some [].
Proof. apply detector_extractor_agree; vm_compute; done. Defined.

(** What is approved without a prompt for an isolated subagent cannot reach
    outside its worktree: no plain segment runs a [git] subcommand that
    publishes or rewires, points [git] at another directory, or passes [go] a
    flag that runs a foreign program or writes outside. *)
Theorem isolation_never_escapes cmd seg :
  IsolationApprovable cmd = true → seg ∈ SplitCommands cmd →
  HasSubstitutionOrGrouping seg = false →
  TrimSpace (stripShellKeywords seg) ≠ [] →
  TrimSpace (stripShellKeywords seg) ≠ substitutionPlaceholder →
  ¬ worktreeEscape (Fields (Canonicalize (stripShellKeywords seg))).
Proof.
  intros H Hseg Hsub H1 H2. eapply IsolationApprovable_segment in H; [|exact Hseg].
  unfold isolationSegment in H. rewrite Hsub in H.
  by eapply segmentIsolationApprovable_no_escape.
Qed.

Lemma isolation_never_escapes_witness :
  ¬ worktreeEscape (Fields (Canonicalize (stripShellKeywords #"do git log"))).
Proof.
  apply (isolation_never_escapes #"go test ./... ; do git log" #"do git log"); try (vm_compute; done).
  vm_compute. right. left.
Defined.

(** ** Boundaries of the classifiers, on concrete lines *)

(** The wrapper flags are dropped before the redirection check, so an output
    redirection written among them is not seen. *)
Example readonly_misses_wrapper_redirect :
  ReadOnlyShell #"timeout >notes.txt ls" = true ∧
  Canonicalize #"timeout >notes.txt ls" = #"ls".
Proof. split; vm_compute; reflexivity. Qed.

(** The words are compared with their quotes, short flags are not unbundled, and some
    allowed verbs write by other arguments: all these lines count as read-only, and
    each of them changes something. *)
Example readonly_accepts_writers :
  forallb ReadOnlyShell
    (lit <$> ["find . '-delete'"; "sort -no f f"; "uniq a b"; "tree -o f"; "git branch -D main"; "git diff --output=f"]) = true.
Proof. vm_compute. reflexivity. Qed.

(** A backslash does not escape a quote for the splitter: the escaped quotes of
    [echo "; make all "] hide the separator between them. *)
Example split_ignores_backslash :
  let cmd := #"echo \" ++ [dquote] ++ #"; make all \" ++ [dquote] in
  SplitCommands cmd = [cmd] ∧ ReadOnlyShell cmd = true.
Proof. split; vm_compute; reflexivity. Qed.

(** A command substitution in command position is refused on its own, but
    accepted behind a control-flow keyword. *)
Example substitution_in_command_position :
  SubstitutionReadOnly #"$(cat script)" = false ∧
  SubstitutionReadOnly #"if $(cat script)" = true.
Proof. split; vm_compute; reflexivity. Qed.

(** [git remote] is read-only for the permission floor and an escape verb for
    isolated subagents. *)
Example isolation_not_superset :
  SubstitutionReadOnly #"cat $(git remote)" = true ∧
  IsolationApprovable #"cat $(git remote)" = false.
Proof. split; vm_compute; reflexivity. Qed.
