(* ===== verification/Json.v ===== *)
(** * Tool-call arguments

    What the modelled code uses of Go's [encoding/json]: a [json.RawMessage] is
    empty, malformed, or the JSON value it denotes, and [json.Unmarshal] into a
    [map[string]json.RawMessage], a [string] or a struct of string fields acts
    on that value.  String values are rune sequences: the decoder replaces
    invalid UTF-8, so a decoded Go string is always valid. *)

From S2P Require Import Prelude.

Inductive json :=
  | JNull
  | JBool (b : bool)
  | JNumber (text : gostr)
  | JString (s : gostr)
  | JArray (l : list json)
  | JObject (kvs : list (gostr * json)).

Inductive RawMessage :=
  | RawEmpty
  | RawMalformed
  | RawValue (v : json).

(** The members of an object decoded into a map; [null] decodes to the nil map,
    any other value is a type error. *)
Definition unmarshalMap (raw : RawMessage) : option (list (gostr * json)) :=
  match raw with
  | RawValue (JObject kvs) => Some kvs
  | RawValue JNull => Some []
  | _ => None
  end.

(** Map lookup: a later member overwrites an earlier one of the same key. *)
Fixpoint member (key : gostr) (kvs : list (gostr * json)) : option json :=
  match kvs with
  | [] => None
  | (k, v) :: rest =>
      match member key rest with
      | Some w => Some w
      | None => if k =s key then Some v else None
      end
  end.

(** Decoding into a zero [string]: [null] leaves it empty. *)
Definition unmarshalString (v : json) : option gostr :=
  match v with
  | JString s => Some s
  | JNull => Some []
  | _ => None
  end.

(** Struct fields match keys up to case folding; the runes that fold to an ASCII
    letter are its upper case, the long s and the Kelvin sign. *)
Definition foldRune (c : rune) : rune :=
  if ((65 <=? c) && (c <=? 90))%N then (c + 32)%N
  else if c =r 383 then chr "s"
  else if c =r 8490 then chr "k"
  else c.

Definition equalFold (a b : gostr) : bool := (foldRune <$> a) =s (foldRune <$> b).

(** Decoding into a struct with two string fields: members are applied in
    order, [null] is ignored, and a member of another type makes the whole
    decode an error. *)
Fixpoint unmarshalPair (f1 f2 : gostr) (kvs : list (gostr * json)) (v1 v2 : gostr)
    : option (gostr * gostr) :=
  match kvs with
  | [] => Some (v1, v2)
  | (k, v) :: rest =>
      if equalFold k f1 then
        match v with
        | JString s => unmarshalPair f1 f2 rest s v2
        | JNull => unmarshalPair f1 f2 rest v1 v2
        | _ => None
        end
      else if equalFold k f2 then
        match v with
        | JString s => unmarshalPair f1 f2 rest v1 s
        | JNull => unmarshalPair f1 f2 rest v1 v2
        | _ => None
        end
      else unmarshalPair f1 f2 rest v1 v2
  end.
