(* ===== verification/Glob.v ===== *)
(** * The glob matcher of permission rules

    Model of [globMatch] of [engine/governance/evaluator.go], an iterative
    matcher that remembers the last ["*"], and its relation to the declarative
    meaning of a pattern. *)

From S2P Require Import Prelude.

(** The matcher's loop: [pi] and [si] index the pattern and the text, [star] is
    the position of the last ["*"] seen and [mark] the text position it was
    last tried from.  [None] means the fuel ran out. *)
Fixpoint globLoop (fuel : nat) (p str : gostr) (pi si : nat) (star : option nat) (mark : nat)
    : option bool :=
  match fuel with
  | O => None
  | S fuel' =>
      match str !! si with
      | None => Some (forallb (λ c, c =r chr "*") (drop pi p))
      | Some c =>
          let backtrack :=
            match star with
            | Some st => globLoop fuel' p str (S st) (S mark) star (S mark)
            | None => Some false
            end in
          match p !! pi with
          | Some x =>
              if x =r c || x =r chr "?" then globLoop fuel' p str (S pi) (S si) star mark
              else if x =r chr "*" then globLoop fuel' p str (S pi) si (Some pi) si
              else backtrack
          | None => backtrack
          end
      end
  end.

(** Rounds between two backtracks only advance in the pattern, and every
    backtrack advances [mark]. *)
Definition globFuel (p str : gostr) : nat := S ((S (length str)) * (S (S (length p)))).

Definition globMatch (pattern s : gostr) : bool :=
  default false (globLoop (globFuel pattern s) pattern s 0 0 None 0).

(** ** The meaning of a pattern *)

Definition star : rune := chr "*".
Definition anyRune : rune := chr "?".

Inductive glob : gostr → gostr → Prop :=
  | glob_nil : glob [] []
  | glob_lit c p s : c ≠ star → glob p s → glob (c :: p) (c :: s)
  | glob_any c p s : glob p s → glob (anyRune :: p) (c :: s)
  | glob_star_nil p s : glob p s → glob (star :: p) s
  | glob_star_cons c p s : glob (star :: p) s → glob (star :: p) (c :: s).

#[local] Hint Constructors glob : go.

Lemma glob_app p1 s1 p2 s2 : glob p1 s1 → glob p2 s2 → glob (p1 ++ p2) (s1 ++ s2).
Proof. induction 1; simpl; auto with go. Qed.

Lemma glob_star_absorb p t s : glob p s → glob (star :: p) (t ++ s).
Proof. intros H. induction t; simpl; auto with go. Qed.

Lemma glob_star_text t : glob [star] t.
Proof. rewrite <-(app_nil_r t). apply glob_star_absorb. constructor. Qed.

Lemma glob_stars p : forallb (λ c, c =r star) p = true ↔ glob p [].
Proof.
  induction p as [|c p IH]; simpl; [split; auto with go|].
  rewrite andb_true_iff, IH, N.eqb_eq. split; [intros [-> ?]; auto with go|].
  inversion 1; simplify_eq; auto.
Qed.

Lemma glob_star_inv p s : glob (star :: p) s → ∃ n, n ≤ length s ∧ glob p (drop n s).
Proof.
  remember (star :: p) as q eqn:Hq. induction 1; simplify_eq.
  - exists 0. split; [lia|done].
  - destruct IHglob as (n & Hn & H'); [done|]. exists (S n). simpl. split; [lia|done].
Qed.

(** A literal pattern rune against a text rune. *)
Definition litMatch (x c : rune) : Prop := x ≠ star ∧ (x = c ∨ x = anyRune).

Lemma glob_cons_inv x p s :
  x ≠ star → glob (x :: p) s → ∃ c s', s = c :: s' ∧ litMatch x c ∧ glob p s'.
Proof. intros Hx H. inversion H; simplify_eq; unfold litMatch; eauto 10. Qed.

Lemma glob_literals_inv seg p s :
  Forall (λ x, x ≠ star) seg → glob (seg ++ p) s →
  ∃ t s', s = t ++ s' ∧ Forall2 litMatch seg t ∧ glob p s'.
Proof.
  intros Hseg. revert s. induction Hseg as [|x seg Hx _ IH]; simpl; intros s H.
  - exists [], s. auto.
  - apply glob_cons_inv in H as (c & s' & -> & Hc & H); [|done].
    apply IH in H as (t & s'' & -> & HF & H). exists (c :: t), s''. auto.
Qed.

(** ** Soundness *)

Section loop.
Context (p str : gostr).

Definition soundInv (pi si : nat) (st : option nat) (mark : nat) : Prop :=
  mark ≤ si ≤ length str ∧ glob (take pi p) (take si str) ∧
  match st with
  | None => True
  | Some k => p !! k = Some star ∧ ∃ m, m ≤ mark ∧ glob (take k p) (take m str)
  end.

Lemma glob_take_star k n m :
  p !! k = Some star → m ≤ n → glob (take k p) (take m str) →
  glob (take (S k) p) (take n str).
Proof.
  intros Hk Hle Hg. rewrite (take_S_r _ _ star) by done.
  rewrite <-(take_drop m (take n str)), take_take, Nat.min_l by lia.
  apply glob_app; [done|apply glob_star_text].
Qed.

Lemma soundInv_match pi si st mark x c :
  soundInv pi si st mark → str !! si = Some c → p !! pi = Some x →
  x = c ∨ x = anyRune → soundInv (S pi) (S si) st mark.
Proof.
  intros ([Hm Hsi] & Hg & Hst) Hc Hx Hxc. apply lookup_lt_Some in Hc as Hlt.
  split_and!; [lia|lia| |done].
  rewrite (take_S_r _ _ x), (take_S_r _ _ c) by done. apply glob_app; [done|].
  destruct Hxc as [->| ->]; [|by repeat constructor].
  destruct (decide (c = star)) as [->|]; [apply glob_star_text|by repeat constructor].
Qed.

Lemma soundInv_star pi si st mark :
  soundInv pi si st mark → p !! pi = Some star → soundInv (S pi) si (Some pi) si.
Proof.
  intros ([Hm Hsi] & Hg & Hst) Hx. split_and!; [lia|lia| |done|eauto].
  by apply (glob_take_star pi si si).
Qed.

Lemma soundInv_backtrack pi si k mark c :
  soundInv pi si (Some k) mark → str !! si = Some c →
  soundInv (S k) (S mark) (Some k) (S mark).
Proof.
  intros ([Hm Hsi] & _ & Hk & m & Hle & Hg) Hc%lookup_lt_Some.
  split_and!; [lia|lia| |done|exists m; split; [lia|done]].
  apply (glob_take_star k (S mark) m); [done|lia|done].
Qed.

Lemma globLoop_sound fuel pi si st mark :
  soundInv pi si st mark → globLoop fuel p str pi si st mark = Some true → glob p str.
Proof.
  revert pi si st mark. induction fuel as [|fuel IH]; intros pi si st mark HI; simpl; [done|].
  destruct (str !! si) as [c|] eqn:Hc.
  - assert (Hback : match st with
      | Some k => globLoop fuel p str (S k) (S mark) st (S mark)
      | None => Some false end = Some true → glob p str).
    { destruct st as [k|]; [|done]. apply IH. by eapply soundInv_backtrack. }
    destruct (p !! pi) as [x|] eqn:Hx; [|done].
    destruct (x =r c || x =r chr "?") eqn:Em.
    { apply IH. eapply soundInv_match; [done..|].
      apply orb_true_iff in Em as [?|?]; bprop; auto. }
    destruct (x =r chr "*") eqn:Es; [|done].
    apply IH. bprop. subst. by eapply soundInv_star.
  - intros [= Hall]. destruct HI as (_ & Hg & _).
    apply lookup_ge_None in Hc. rewrite (take_ge str) in Hg by lia.
    rewrite <-(take_drop pi p), <-(app_nil_r str). apply glob_app; [done|]. by apply glob_stars.
Qed.

(** ** Completeness, for texts without a literal star *)

Definition basePattern (st : option nat) : nat := match st with None => 0 | Some k => S k end.

Definition completeInv (pi si : nat) (st : option nat) (mark : nat) : Prop :=
  si ≤ length str ∧
  (∃ seg t, drop (basePattern st) p = seg ++ drop pi p ∧ drop mark str = t ++ drop si str ∧
     Forall2 litMatch seg t ∧ si = mark + length t) ∧
  (glob p str → ∃ m, mark ≤ m ∧ glob (drop (basePattern st) p) (drop m str) ∧
     match st with None => m = 0 | Some _ => True end).

Lemma litMatch_nostar seg t : Forall2 litMatch seg t → Forall (λ x, x ≠ star) seg.
Proof. induction 1 as [|x c seg t [Hx _] _ IH]; auto. Qed.

(** From a match of the text after the last star, the pattern after the
    literals seen so far matches at least as far to the right. *)
Lemma completeInv_rest pi si st mark :
  completeInv pi si st mark → glob p str →
  ∃ n, si ≤ n ∧ glob (drop pi p) (drop n str) ∧
    (match st with None => n = si | Some _ => True end) ∧
    (n ≤ si → glob (drop pi p) (drop si str)).
Proof.
  intros (Hsi & (seg & t & Hseg & Ht & HF & Hlen) & Hc) Hg.
  destruct (Hc Hg) as (m & Hm & Hgm & Hst). rewrite Hseg in Hgm.
  apply glob_literals_inv in Hgm as (t' & s' & Hs' & HF' & Hgs);
    [|by eapply litMatch_nostar].
  assert (length t' = length t) as Hlt
    by (apply Forall2_length in HF; apply Forall2_length in HF'; lia).
  assert (s' = drop (m + length t) str) as ->.
  { rewrite <-drop_drop, Hs', <-Hlt. by rewrite drop_app_length. }
  exists (m + length t). split_and!; [lia|done| |].
  - destruct st; [done|]. lia.
  - intros ?. replace si with (m + length t) by lia. done.
Qed.

(** No match starts at the current position. *)
Definition stuckAt (pi : nat) (c : rune) : Prop :=
  match p !! pi with Some x => ¬ litMatch x c ∧ x ≠ star | None => True end.

Lemma stuckAt_no_glob pi si c :
  stuckAt pi c → str !! si = Some c → ¬ glob (drop pi p) (drop si str).
Proof.
  unfold stuckAt. intros Hst Hc Hg. rewrite (drop_S str c si) in Hg by done.
  destruct (p !! pi) as [x|] eqn:Hx.
  - destruct Hst as [Hl Hs]. rewrite (drop_S p x pi) in Hg by done.
    apply glob_cons_inv in Hg as (c' & s' & Heq & Hlm & _); [|done]. by simplify_eq.
  - apply lookup_ge_None in Hx. rewrite drop_ge in Hg by done. by inversion Hg.
Qed.

Context (Hnostar : star ∉ str).

Lemma completeInv_match pi si st mark x c :
  completeInv pi si st mark → str !! si = Some c → p !! pi = Some x →
  x = c ∨ x = anyRune → completeInv (S pi) (S si) st mark.
Proof.
  intros (Hsi & (seg & t & Hseg & Ht & HF & Hlen) & Hg) Hc Hx Hxc.
  apply lookup_lt_Some in Hc as Hlt. split_and!; [lia| |done].
  exists (seg ++ [x]), (t ++ [c]). rewrite <-!app_assoc. simpl.
  rewrite <-(drop_S p x pi), <-(drop_S str c si) by done. split_and!; [done|done| |].
  - apply Forall2_app; [done|]. constructor; [|constructor]. split; [|done].
    intros ->. destruct Hxc as [<-|]; [|done].
    apply Hnostar. by eapply list_elem_of_lookup_2.
  - rewrite length_app. simpl. lia.
Qed.

Lemma completeInv_star pi si st mark :
  completeInv pi si st mark → p !! pi = Some star → completeInv (S pi) si (Some pi) si.
Proof.
  intros HI Hx. split_and!; [by destruct HI| |].
  - exists [], []. simpl. auto.
  - intros Hg. destruct (completeInv_rest _ _ _ _ HI Hg) as (n & Hn & Hgn & _).
    rewrite (drop_S p star pi) in Hgn by done.
    apply glob_star_inv in Hgn as (k & _ & Hk). rewrite drop_drop in Hk.
    exists (n + k). split_and!; [lia|done|done].
Qed.

Lemma completeInv_stuck pi si st mark c :
  completeInv pi si st mark → str !! si = Some c → stuckAt pi c →
  match st with
  | None => ¬ glob p str
  | Some k => completeInv (S k) (S mark) st (S mark)
  end.
Proof.
  intros HI Hc Hstuck. pose proof (stuckAt_no_glob _ _ _ Hstuck Hc) as Hno.
  destruct st as [k|].
  - apply lookup_lt_Some in Hc as Hlt. destruct HI as (Hsi & Hseg & Hg).
    destruct Hseg as (seg & t & Hs & Ht & HF & Hlen).
    split_and!; [lia|by exists [], []; simpl; auto with lia|].
    intros Hgl. destruct (Hg Hgl) as (m & Hm & Hgm & _). exists m. split_and!; try done.
    destruct (decide (m = mark)) as [->|]; [|lia]. exfalso. apply Hno.
    rewrite Hs, Ht in Hgm. apply glob_literals_inv in Hgm as (t' & s' & Heq & HF' & Hgs);
      [|by eapply litMatch_nostar].
    apply app_inj_1 in Heq as [_ ->]; [done|].
    apply Forall2_length in HF. apply Forall2_length in HF'. lia.
  - intros Hg. destruct (completeInv_rest _ _ _ _ HI Hg) as (n & _ & Hgn & -> & _). done.
Qed.

Lemma globLoop_complete fuel pi si st mark :
  completeInv pi si st mark → globLoop fuel p str pi si st mark = Some false → ¬ glob p str.
Proof.
  revert pi si st mark. induction fuel as [|fuel IH]; intros pi si st mark HI; simpl; [done|].
  destruct (str !! si) as [c|] eqn:Hc.
  - assert (Hback : stuckAt pi c → match st with
      | Some k => globLoop fuel p str (S k) (S mark) st (S mark)
      | None => Some false end = Some false → ¬ glob p str).
    { intros Hs. pose proof (completeInv_stuck _ _ _ _ _ HI Hc Hs).
      destruct st; [by apply IH|done]. }
    unfold stuckAt in Hback. destruct (p !! pi) as [x|] eqn:Hx; [|by apply Hback].
    destruct (x =r c || x =r chr "?") eqn:Em.
    { apply IH. eapply completeInv_match; [done..|].
      apply orb_true_iff in Em as [?|?]; bprop; auto. }
    destruct (x =r chr "*") eqn:Es; bprop; subst; [by apply IH, (completeInv_star _ _ st mark)|].
    apply Hback. split; [|done]. intros [_ [?|?]]; done.
  - intros [= Hall] Hg. apply lookup_ge_None in Hc.
    destruct (completeInv_rest _ _ _ _ HI Hg) as (n & Hn & Hgn & _).
    rewrite (drop_ge str) in Hgn by lia.
    apply glob_stars in Hgn. unfold star in Hgn. congruence.
Qed.
End loop.

(** ** Termination *)

(** Backtracks left times the longest forward run, plus the current run. *)
Definition globMeasure (p str : gostr) (pi mark : nat) : nat :=
  (length str - mark) * S (S (length p)) + (length p - pi).

Lemma globLoop_total p str fuel pi si st mark :
  mark ≤ si → pi ≤ length p → (∀ k, st = Some k → S k ≤ length p) →
  globMeasure p str pi mark < fuel → ∃ b, globLoop fuel p str pi si st mark = Some b.
Proof.
  unfold globMeasure. revert pi si st mark.
  induction fuel as [|fuel IH]; intros pi si st mark Hm Hpi Hst Hf; [by apply Nat.nlt_0_r in Hf|]. simpl.
  destruct (str !! si) as [c|] eqn:Hc; [|eauto]. apply lookup_lt_Some in Hc as Hlt.
  assert (Hback : ∃ b, match st with
    | Some k => globLoop fuel p str (S k) (S mark) st (S mark)
    | None => Some false end = Some b).
  { destruct st as [k|]; [|eauto]. pose proof (Hst k eq_refl) as Hk. apply IH; [lia|lia|done|].
    replace (length str - mark) with (S (length str - S mark)) in Hf by lia.
    rewrite Nat.mul_succ_l in Hf. lia. }
  destruct (p !! pi) as [x|] eqn:Hx; [|done]. apply lookup_lt_Some in Hx.
  destruct (_ || _); [apply IH; [lia|lia|done|lia]|].
  destruct (x =r chr "*"); [|done].
  apply IH; [lia|lia|intros k [= <-]; lia|].
  assert ((length str - si) * S (S (length p)) ≤ (length str - mark) * S (S (length p)))
    by (apply Nat.mul_le_mono_r; lia). lia.
Qed.

Lemma globLoop_start p str : ∃ b, globLoop (globFuel p str) p str 0 0 None 0 = Some b.
Proof. apply globLoop_total; try done; [lia|]. unfold globMeasure, globFuel. lia. Qed.

Lemma globMatch_sound p s : globMatch p s = true → glob p s.
Proof.
  unfold globMatch. destruct (globLoop_start p s) as [b Hb]. rewrite Hb. simpl. intros ->.
  eapply globLoop_sound; [|done]. split_and!; [lia|lia|constructor|done].
Qed.

Lemma globMatch_complete p s : star ∉ s → glob p s → globMatch p s = true.
Proof.
  intros Hns Hg. unfold globMatch. destruct (globLoop_start p s) as [b Hb]. rewrite Hb. simpl.
  destruct b; [done|]. exfalso. revert Hg. eapply globLoop_complete; [done| |done].
  split_and!; [lia|exists [], []; simpl; auto|]. intros Hg. exists 0. auto.
Qed.

(** ** Properties *)

(** The matcher's loop always returns, whatever the pattern and the text:
    the fuel of [globMatch] covers every run. *)
Theorem glob_loop_terminates p s :
  ∃ b, globLoop (globFuel p s) p s 0 0 None 0 = Some b ∧ globMatch p s = b.
Proof.
  destruct (globLoop_start p s) as [b Hb]. exists b. split; [done|].
  unfold globMatch. by rewrite Hb.
Qed.

(** C30. The iterative matcher implements the declarative meaning of patterns on
    every text without a literal "*", and never accepts a text the pattern does
    not match. *)
Theorem glob_match_correct p s :
  (globMatch p s = true → glob p s) ∧ (star ∉ s → glob p s → globMatch p s = true).
Proof. split; [apply globMatch_sound|apply globMatch_complete]. Qed.

(** A "*" of the text is taken as a literal match of the pattern's "*", after
    which the pattern's star is no longer a wildcard. *)
Example glob_match_literal_star :
  glob #"rm *" #"rm *.txt" ∧ globMatch #"rm *" #"rm *.txt" = false.
Proof.
  split; [|by vm_compute]. change #"rm *" with (#"rm " ++ [star]).
  change #"rm *.txt" with (#"rm " ++ #"*.txt"). apply glob_app; [|apply glob_star_text].
  repeat (constructor; [done|]). constructor.
Qed.
