(* ===== verification/Evaluator.v ===== *)
(** * Permission evaluation

    Model of [engine/governance/permission.go] and
    [engine/governance/evaluator.go]: permission rules, the glob matcher, the
    deny → ask → allow resolution for one pattern, its fold over the segments
    of a shell line, the plan-mode gate and the derivation of learned rules. *)

From S2P Require Import Prelude Shell Json Glob.

(** ** Data *)

(** [Effect] is an open string type with three named values. *)
Inductive Effect :=
  | Deny
  | Ask
  | Allow
  | OtherEffect (name : gostr).

#[export] Instance Effect_eq_dec : EqDecision Effect.
Proof. solve_decision. Defined.

Inductive AskProvenance :=
  | AskProvenanceUnknown
  | AskProvenanceConfigured
  | AskProvenanceConfiguredAllowFloor
  | AskProvenanceBuiltinSubstitutionFloor.

#[export] Instance AskProvenance_eq_dec : EqDecision AskProvenance.
Proof. solve_decision. Defined.

Record PermissionDecision := mkDecision {
  DEffect : Effect;
  DReason : gostr;
  DProvenance : AskProvenance;
}.

(** [Scope] is an [int]; a smaller value has higher precedence. *)
Definition Scope : Type := Z.
Definition ScopeManaged : Scope := 0%Z.
Definition ScopeCLI : Scope := 1%Z.
Definition ScopeLocalProject : Scope := 2%Z.
Definition ScopeSharedProject : Scope := 3%Z.
Definition ScopeUser : Scope := 4%Z.
Definition ScopeBuiltinDefault : Scope := 5%Z.

Definition HasHigherPrecedenceThan (s other : Scope) : bool := (s <? other)%Z.

Definition Audience : Type := Z.
Definition AudienceAll : Audience := 0%Z.
Definition AudienceMain : Audience := 1%Z.
Definition AudienceSubagent : Audience := 2%Z.

Record Rule := mkRule {
  RScope : Scope;
  RTool : gostr;
  RPattern : gostr;
  REffect : Effect;
  RExact : bool;
  RAudience : Audience;
}.

Record Evaluator := mkEvaluator {
  rules : list Rule;
  looseSubstitution : bool;
  audience : Audience;
}.

(** ** Construction *)

Definition EvaluatorOption : Type := Evaluator → Evaluator.

Definition WithLooseSubstitution (loose : bool) : EvaluatorOption :=
  λ e, mkEvaluator (rules e) loose (audience e).

Definition WithAudience (a : Audience) : EvaluatorOption :=
  λ e, mkEvaluator (rules e) (looseSubstitution e) a.

Definition NewEvaluator (rs : list Rule) (opts : list EvaluatorOption) : Evaluator :=
  foldl (λ e o, o e) (mkEvaluator rs false AudienceAll) opts.

Definition readOnlyTools : list gostr := lit <$> ["Read"; "ListDir"; "Grep"; "Glob"].
Definition mutatingTools : list gostr := lit <$> ["Edit"; "Write"; "Copy"; "Move"; "Remove"].

Definition IsReadOnlyTool (tool : gostr) : bool := tool ∈? readOnlyTools.

(** ** Arguments *)

(** The first of [keys] whose member passes [accept] after decoding. *)
Fixpoint shellCommandKeys (kvs : list (gostr * json)) (keys : list gostr) : option gostr :=
  match keys with
  | [] => None
  | key :: keys' =>
      match member key kvs with
      | None => shellCommandKeys kvs keys'
      | Some raw =>
          match unmarshalString raw with
          | None => shellCommandKeys kvs keys'
          | Some s => if TrimSpace s =s [] then shellCommandKeys kvs keys' else Some s
          end
      end
  end.

(** [None] is the source's [("", false)]. *)
Definition ShellCommandFromArgs (args : RawMessage) : option gostr :=
  match args with
  | RawEmpty => None
  | _ =>
      match unmarshalMap args with
      | None => None
      | Some m => shellCommandKeys m (lit <$> ["command"; "cmd"])
      end
  end.

Fixpoint patternKeys (kvs : list (gostr * json)) (keys : list gostr) : gostr :=
  match keys with
  | [] => []
  | key :: keys' =>
      match member key kvs with
      | None => patternKeys kvs keys'
      | Some raw =>
          match unmarshalString raw with
          | None => patternKeys kvs keys'
          | Some s => s
          end
      end
  end.

Definition nonShellPattern (tool : gostr) (args : RawMessage) : gostr :=
  match args with
  | RawEmpty => []
  | _ =>
      match unmarshalMap args with
      | None => []
      | Some m => patternKeys m (lit <$> ["path"; "file_path"; "pattern"; "url"; "query"])
      end
  end.

Definition copyMovePatterns (args : RawMessage) : option (list gostr) :=
  match args with
  | RawValue (JObject kvs) =>
      '(src, dst) ← unmarshalPair #"source" #"destination" kvs [] [];
      Some [src; dst]
  | RawValue JNull => Some [[]; []]
  | _ => None
  end.

(** ** Matching *)

Definition ruleMatches (r : Rule) (tool pattern : gostr) (aud : Audience) : bool :=
  if negb (RAudience r =s AudienceAll) && negb (aud =s AudienceAll) && negb (RAudience r =s aud)
  then false
  else if negb (RTool r =s []) && negb (RTool r =s tool) then false
  else if RPattern r =s [] then true
  else if RPattern r =s pattern then true
  else if RExact r then false
  else globMatch (RPattern r) pattern.

(** ** Reasons *)

Definition describeTarget (tool rulePattern pattern : gostr) : gostr :=
  if negb (rulePattern =s []) then tool ++ #" (" ++ rulePattern ++ #")"
  else if negb (pattern =s []) then tool ++ #" (" ++ pattern ++ #")"
  else tool.

Definition ruleReason (r : Rule) (tool pattern : gostr) : gostr :=
  match REffect r with
  | Deny => #"denied by rule for " ++ describeTarget tool (RPattern r) pattern
  | Ask => #"approval required by rule for " ++ describeTarget tool (RPattern r) pattern
  | _ => #"allowed by rule for " ++ describeTarget tool (RPattern r) pattern
  end.

(** ** Resolution of one pattern *)

Definition effectRank (e : Effect) : nat :=
  match e with Deny => 3 | Ask => 2 | Allow => 1 | OtherEffect _ => 0 end.

Definition ruleIsConfigured (r : option Rule) : bool :=
  match r with Some r => negb (RScope r =s ScopeBuiltinDefault) | None => false end.

Definition configuredAskProvenance (r : option Rule) : AskProvenance :=
  if ruleIsConfigured r then AskProvenanceConfigured else AskProvenanceUnknown.

(** One round of the loop that fills [best[eff]]. *)
Definition bestStep (e : Evaluator) (tool pattern : gostr) (eff : Effect)
    (cur : option Rule) (r : Rule) : option Rule :=
  if negb (ruleMatches r tool pattern (audience e)) then cur
  else if negb (REffect r =s eff) then cur
  else
    match cur with
    | None => Some r
    | Some c => if HasHigherPrecedenceThan (RScope r) (RScope c) then Some r else cur
    end.

(** [best[eff]] after the loop over the rules. *)
Definition best (e : Evaluator) (rs : list Rule) (tool pattern : gostr) (eff : Effect)
    : option Rule :=
  foldl (bestStep e tool pattern eff) None rs.

Definition resolveSimpleRule (e : Evaluator) (rs : list Rule) (tool pattern : gostr)
    : PermissionDecision * option Rule :=
  match best e rs tool pattern Deny with
  | Some r => (mkDecision Deny (ruleReason r tool pattern) AskProvenanceUnknown, Some r)
  | None =>
      match best e rs tool pattern Ask, best e rs tool pattern Allow with
      | Some ask, Some allow =>
          if RScope ask =s ScopeBuiltinDefault && HasHigherPrecedenceThan (RScope allow) (RScope ask)
          then (mkDecision Allow (ruleReason allow tool pattern) AskProvenanceUnknown, Some allow)
          else (mkDecision Ask (ruleReason ask tool pattern) (configuredAskProvenance (Some ask)), Some ask)
      | Some ask, None =>
          (mkDecision Ask (ruleReason ask tool pattern) (configuredAskProvenance (Some ask)), Some ask)
      | None, Some allow =>
          (mkDecision Allow (ruleReason allow tool pattern) AskProvenanceUnknown, Some allow)
      | None, None =>
          (mkDecision Ask (#"no permission rule matched " ++ tool ++ #"; client approval required")
             AskProvenanceUnknown, None)
      end
  end.

Definition resolveSimple (e : Evaluator) (rs : list Rule) (tool pattern : gostr)
    : PermissionDecision :=
  (resolveSimpleRule e rs tool pattern).1.

(** ** Several patterns: the worst effect wins *)

Record patternsState := mkPatternsState {
  pWorst : PermissionDecision;
  pConfiguredAsk : bool;
}.

Definition patternsStep (e : Evaluator) (rs : list Rule) (tool : gostr)
    (st : patternsState) (pattern : gostr) : patternsState :=
  let d := resolveSimple e rs tool pattern in
  mkPatternsState
    (if effectRank (DEffect (pWorst st)) <? effectRank (DEffect d) then d else pWorst st)
    (pConfiguredAsk st || DProvenance d =s AskProvenanceConfigured).

Definition patternsInit : patternsState :=
  mkPatternsState (mkDecision Allow [] AskProvenanceUnknown) false.

Definition resolvePatterns (e : Evaluator) (rs : list Rule) (tool : gostr) (patterns : list gostr)
    : PermissionDecision :=
  let st := foldl (patternsStep e rs tool) patternsInit patterns in
  if DEffect (pWorst st) =s Ask && pConfiguredAsk st
  then mkDecision (DEffect (pWorst st)) (DReason (pWorst st)) AskProvenanceConfigured
  else pWorst st.

(** ** Shell lines *)

Definition substitutionReason : gostr :=
  #"Shell command contains command/process substitution or subshell grouping that may hide an inner command; client approval required".

Record shellState := mkShellState {
  worst : PermissionDecision;
  haveDecision : bool;
  anyConfiguredAsk : bool;
  flooredConfigured : nat;
  flooredBuiltin : nat;
  flooredBad : bool;
  unflooredNotAll : bool;
}.

Definition shellInit : shellState :=
  mkShellState (mkDecision Allow [] AskProvenanceUnknown) false false 0 0 false false.

(** Keep the new decision when there was none or it is worse. *)
Definition keepWorst (st : shellState) (d : PermissionDecision) : PermissionDecision :=
  if negb (haveDecision st) || (effectRank (DEffect (worst st)) <? effectRank (DEffect d))
  then d else worst st.

(** A segment whose own decision stands. *)
Definition shellKeep (st : shellState) (d : PermissionDecision) : shellState :=
  mkShellState (keepWorst st d) true
    (anyConfiguredAsk st || (DEffect d =s Ask && DProvenance d =s AskProvenanceConfigured))
    (flooredConfigured st) (flooredBuiltin st) (flooredBad st)
    (unflooredNotAll st || negb (DEffect d =s Allow)).

(** A segment whose Allow is floored at Ask. *)
Definition shellFloor (st : shellState) (sub : gostr) (segRule : option Rule) : shellState :=
  let d := mkDecision Ask substitutionReason AskProvenanceUnknown in
  let configured := ruleIsConfigured segRule && flooredAllowSafe sub in
  let builtin :=
    match segRule with Some r => RScope r =s ScopeBuiltinDefault | None => false end in
  mkShellState (keepWorst st d) true (anyConfiguredAsk st)
    (if configured then S (flooredConfigured st) else flooredConfigured st)
    (if configured then flooredBuiltin st
     else if builtin then S (flooredBuiltin st) else flooredBuiltin st)
    (if configured || builtin then flooredBad st else true)
    (unflooredNotAll st).

Definition shellStep (e : Evaluator) (rs : list Rule) (st : shellState) (sub : gostr) : shellState :=
  if HasSubstitutionOrGrouping sub then
    let '(seg, segRule) := resolveSimpleRule e rs #"Shell" (Canonicalize sub) in
    if SubstitutionReadOnly sub then shellKeep st seg
    else if looseSubstitution e then shellKeep st seg
    else if effectRank Ask <=? effectRank (DEffect seg) then shellKeep st seg
    else shellFloor st sub segRule
  else shellKeep st (resolveSimple e rs #"Shell" (Canonicalize sub)).

Definition shellAskProvenance (effect : Effect) (configured : bool)
    (configuredFloors builtinFloors : nat) (floorBad otherNonAllow : bool) : AskProvenance :=
  if negb (effect =s Ask) then AskProvenanceUnknown
  else if configured then AskProvenanceConfigured
  else if negb floorBad && negb otherNonAllow && (0 <? configuredFloors) && (builtinFloors =? 0)
  then AskProvenanceConfiguredAllowFloor
  else if negb floorBad && negb otherNonAllow && (0 <? builtinFloors) && (configuredFloors =? 0)
  then AskProvenanceBuiltinSubstitutionFloor
  else AskProvenanceUnknown.

Definition resolveShell (e : Evaluator) (rs : list Rule) (args : RawMessage) : PermissionDecision :=
  let cmd := default [] (ShellCommandFromArgs args) in
  match SplitCommands cmd with
  | [] => resolveSimple e rs #"Shell" []
  | subs =>
      let st := foldl (shellStep e rs) shellInit subs in
      mkDecision (DEffect (worst st)) (DReason (worst st))
        (shellAskProvenance (DEffect (worst st)) (anyConfiguredAsk st)
           (flooredConfigured st) (flooredBuiltin st) (flooredBad st) (unflooredNotAll st))
  end.

(** ** Whole calls *)

Definition resolve (e : Evaluator) (rs : list Rule) (tool : gostr) (args : RawMessage)
    : PermissionDecision :=
  if tool =s #"Shell" then resolveShell e rs args
  else
    match (if tool =s #"Copy" || tool =s #"Move" then copyMovePatterns args else None) with
    | Some patterns => resolvePatterns e rs tool patterns
    | None => resolveSimple e rs tool (nonShellPattern tool args)
    end.

Definition planModeToolReason (tool : gostr) : gostr :=
  #"plan mode is active: " ++ tool ++
  #" mutates the workspace and is not permitted; present a plan and exit plan mode first".

Definition planModeShellReason : gostr :=
  #"plan mode is active: this Shell command is not read-only and is not permitted; present a plan and exit plan mode first".

Definition planModeDecision (tool : gostr) (args : RawMessage) : option PermissionDecision :=
  if tool ∈? mutatingTools
  then Some (mkDecision Deny (planModeToolReason tool) AskProvenanceUnknown)
  else if tool =s #"Shell" then
    match ShellCommandFromArgs args with
    | Some cmd =>
        if negb (ReadOnlyShell cmd)
        then Some (mkDecision Deny planModeShellReason AskProvenanceUnknown)
        else None
    | None => None
    end
  else None.

Definition EvaluateWith (e : Evaluator) (tool : gostr) (args : RawMessage) (planMode : bool)
    (extra : list Rule) : PermissionDecision :=
  match (if planMode then planModeDecision tool args else None) with
  | Some d => d
  | None =>
      match extra with
      | [] => resolve e (rules e) tool args
      | _ => resolve e (rules e ++ extra) tool args
      end
  end.

Definition Evaluate (e : Evaluator) (tool : gostr) (args : RawMessage) (planMode : bool)
    : PermissionDecision :=
  EvaluateWith e tool args planMode [].

(** ** Learned rules *)

Definition learnablePattern (tool : gostr) (args : RawMessage) : option gostr :=
  if tool =s #"Shell" then
    match ShellCommandFromArgs args with
    | None => None
    | Some cmd =>
        match SplitCommands cmd with
        | [seg] => if HasSubstitutionOrGrouping seg then None else Some (Canonicalize seg)
        | _ => None
        end
    end
  else Some (nonShellPattern tool args).

Definition LearnableRule (e : Evaluator) (tool : gostr) (args : RawMessage) : option Rule :=
  match learnablePattern tool args with
  | None => None
  | Some pattern =>
      if pattern =s [] then None
      else Some (mkRule ScopeUser tool pattern Allow true AudienceAll)
  end.

(** ** The winning rule of an effect *)

(** Rule [r] of effect [eff] binds the evaluated call. *)
Definition binds (e : Evaluator) (tool pattern : gostr) (eff : Effect) (r : Rule) : Prop :=
  ruleMatches r tool pattern (audience e) = true ∧ REffect r = eff.

#[export] Instance binds_dec e tool pattern eff r : Decision (binds e tool pattern eff r).
Proof. unfold binds. apply _. Defined.

(** [r] is a binding rule of [rs] of the highest precedence. *)
Definition isBest (e : Evaluator) (rs : list Rule) (tool pattern : gostr) (eff : Effect)
    (r : Rule) : Prop :=
  r ∈ rs ∧ binds e tool pattern eff r ∧
  ∀ r', r' ∈ rs → binds e tool pattern eff r' → (RScope r <= RScope r')%Z.

Lemma bestStep_spec e tool pattern eff cur r :
  bestStep e tool pattern eff cur r =
  if bool_decide (binds e tool pattern eff r) then
    match cur with
    | None => Some r
    | Some c => if (RScope r <? RScope c)%Z then Some r else cur
    end
  else cur.
Proof.
  unfold bestStep, HasHigherPrecedenceThan.
  destruct (decide (binds e tool pattern eff r)) as [Hb|Hb].
  - rewrite (bool_decide_true (binds _ _ _ _ _)) by done. destruct Hb as [Hm <-].
    rewrite Hm, bool_decide_true by done. done.
  - rewrite (bool_decide_false (binds _ _ _ _ _)) by done. destruct (ruleMatches r _ _ _) eqn:Hm; simpl; [|done].
    rewrite bool_decide_false; [done|]. intros <-. by apply Hb.
Qed.

Lemma best_spec e rs tool pattern eff :
  match best e rs tool pattern eff with
  | Some r => isBest e rs tool pattern eff r
  | None => ∀ r, r ∈ rs → ¬ binds e tool pattern eff r
  end.
Proof.
  unfold best. induction rs as [|r rs IH] using rev_ind; simpl; [by intros ? ?%not_elem_of_nil|].
  rewrite foldl_app. simpl. rewrite bestStep_spec. unfold isBest in *.
  assert (Hin : ∀ r', r' ∈ rs ++ [r] ↔ r' ∈ rs ∨ r' = r)
    by (intros r'; by rewrite elem_of_app, list_elem_of_singleton).
  destruct (foldl _ None rs) as [c|]; case_bool_decide as Hb; [destruct (_ <? _)%Z eqn:E| | |].
  - apply Z.ltb_lt in E. destruct IH as (Hc & Hbc & Hmin). split_and!; [apply Hin; auto|done|].
    intros r' [Hr'| ->]%Hin Hb'; [|lia]. specialize (Hmin r' Hr' Hb'). lia.
  - apply Z.ltb_ge in E. destruct IH as (Hc & Hbc & Hmin). split_and!; [apply Hin; auto|done|].
    intros r' [Hr'| ->]%Hin Hb'; auto.
  - destruct IH as (Hc & Hbc & Hmin). split_and!; [apply Hin; auto|done|].
    intros r' [Hr'| ->]%Hin Hb'; [auto|done].
  - split_and!; [apply Hin; auto|done|].
    intros r' [Hr'| ->]%Hin Hb'; [by destruct (IH r')|lia].
  - intros r' [Hr'| ->]%Hin; [auto|done].
Qed.

Lemma best_None e rs tool pattern eff :
  best e rs tool pattern eff = None ↔ ∀ r, r ∈ rs → ¬ binds e tool pattern eff r.
Proof.
  pose proof (best_spec e rs tool pattern eff) as H.
  destruct (best _ _ _ _ _) as [r|]; [|naive_solver].
  split; [done|]. intros Hno. destruct H as (Hr & Hb & _). by destruct (Hno r).
Qed.

Lemma best_app_other e rs extra tool pattern eff :
  (∀ r, r ∈ extra → REffect r ≠ eff) →
  best e (rs ++ extra) tool pattern eff = best e rs tool pattern eff.
Proof.
  intros Hne. unfold best. rewrite foldl_app. generalize (foldl (bestStep e tool pattern eff) None rs).
  induction extra as [|r extra IH]; intros cur; simpl; [done|].
  rewrite bestStep_spec, bool_decide_false.
  - apply IH. intros r' Hr'. apply Hne. by constructor.
  - intros [_ Heff]. by apply (Hne r); [constructor|].
Qed.

(** ** One pattern *)

Lemma resolveSimple_Deny e rs tool pattern :
  DEffect (resolveSimple e rs tool pattern) = Deny ↔ ∃ r, r ∈ rs ∧ binds e tool pattern Deny r.
Proof.
  unfold resolveSimple, resolveSimpleRule.
  pose proof (best_spec e rs tool pattern Deny) as H. destruct (best e rs tool pattern Deny) as [r|].
  - destruct H as (Hr & Hb & _). simpl. naive_solver.
  - split; [|naive_solver]. repeat case_match; simpl; done.
Qed.

Lemma resolveSimple_Allow e rs tool pattern :
  DEffect (resolveSimple e rs tool pattern) = Allow →
  (∀ r, r ∈ rs → ¬ binds e tool pattern Deny r) ∧ ∃ r, r ∈ rs ∧ binds e tool pattern Allow r.
Proof.
  unfold resolveSimple, resolveSimpleRule.
  pose proof (best_spec e rs tool pattern Deny) as HD.
  pose proof (best_spec e rs tool pattern Allow) as HA.
  destruct (best e rs tool pattern Deny) as [r|]; [done|].
  destruct (best e rs tool pattern Ask) as [ask|], (best e rs tool pattern Allow) as [allow|];
    repeat case_bool; simpl; intros; try done;
    split; try done; exists allow; by destruct HA as (? & ? & _).
Qed.

Lemma resolveSimple_rank e rs tool pattern :
  1 ≤ effectRank (DEffect (resolveSimple e rs tool pattern)).
Proof. unfold resolveSimple, resolveSimpleRule. repeat case_match; simpl; lia. Qed.

(** Extra Allow rules leave a Deny and a configured Ask in place. *)
Lemma resolveSimple_extra_allow e rs extra tool pattern :
  (∀ r, r ∈ extra → REffect r = Allow) →
  (DEffect (resolveSimple e rs tool pattern) = Deny →
   DEffect (resolveSimple e (rs ++ extra) tool pattern) = Deny) ∧
  (DProvenance (resolveSimple e rs tool pattern) = AskProvenanceConfigured →
   DEffect (resolveSimple e (rs ++ extra) tool pattern) = Ask).
Proof.
  intros HA. unfold resolveSimple, resolveSimpleRule.
  rewrite !(best_app_other e rs extra tool pattern Deny),
    !(best_app_other e rs extra tool pattern Ask) by (intros r Hr; by rewrite HA).
  destruct (best e rs tool pattern Deny) as [r|]; [done|].
  destruct (best e rs tool pattern Ask) as [ask|]; simpl.
  - unfold configuredAskProvenance, ruleIsConfigured.
    destruct (RScope ask =s ScopeBuiltinDefault); simpl;
      repeat case_match; simpl; done.
  - repeat case_match; simpl; done.
Qed.

(** An unconfigured Ask is lifted by an Allow above the built-in scope. *)
Lemma resolveSimple_learned e rs tool pattern r :
  DEffect (resolveSimple e rs tool pattern) = Ask →
  DProvenance (resolveSimple e rs tool pattern) = AskProvenanceUnknown →
  binds e tool pattern Allow r → (RScope r < ScopeBuiltinDefault)%Z →
  DEffect (resolveSimple e (rs ++ [r]) tool pattern) = Allow.
Proof.
  intros HE HP Hb Hsc. revert HE HP. unfold resolveSimple, resolveSimpleRule.
  assert (Hne : ∀ eff, eff ≠ Allow → ∀ r', r' ∈ [r] → REffect r' ≠ eff)
    by (intros eff ? r' ->%list_elem_of_singleton; destruct Hb; congruence).
  rewrite !(best_app_other e rs [r]) by (by apply Hne).
  destruct (best e rs tool pattern Deny) as [d|]; [done|].
  pose proof (best_spec e (rs ++ [r]) tool pattern Allow) as HA.
  assert (Hr : r ∈ rs ++ [r]) by set_solver.
  destruct (best e (rs ++ [r]) tool pattern Allow) as [allow|]; [|by destruct (HA r Hr)].
  destruct HA as (_ & _ & Hmin). specialize (Hmin r Hr Hb). unfold ScopeBuiltinDefault in Hsc.
  destruct (best e rs tool pattern Ask) as [ask|]; [|done].
  unfold configuredAskProvenance, ruleIsConfigured, HasHigherPrecedenceThan.
  destruct (RScope ask =s ScopeBuiltinDefault) eqn:Ea; bprop; simpl.
  - intros _ _. rewrite Ea. unfold ScopeBuiltinDefault.
    replace (RScope allow <? 5)%Z with true by (symmetry; apply Z.ltb_lt; lia). done.
  - repeat case_match; simpl; done.
Qed.

(** ** Folding over several patterns *)

Lemma resolvePatterns_fold e rs tool ps st :
  let fin := foldl (patternsStep e rs tool) st ps in
  (∀ p, p ∈ ps →
    effectRank (DEffect (resolveSimple e rs tool p)) ≤ effectRank (DEffect (pWorst fin))) ∧
  effectRank (DEffect (pWorst st)) ≤ effectRank (DEffect (pWorst fin)) ∧
  (DEffect (pWorst fin) = DEffect (pWorst st) ∨
   ∃ p, p ∈ ps ∧ DEffect (pWorst fin) = DEffect (resolveSimple e rs tool p)) ∧
  (pConfiguredAsk fin = true → pConfiguredAsk st = true ∨
   ∃ p, p ∈ ps ∧ DProvenance (resolveSimple e rs tool p) = AskProvenanceConfigured).
Proof.
  revert st. induction ps as [|p ps IH]; intros st; simpl; [by split_and!; [set_solver|..]; auto|].
  destruct (IH (patternsStep e rs tool st p)) as (H1 & H2 & H3 & H4).
  assert (Hw : effectRank (DEffect (resolveSimple e rs tool p)) ≤
      effectRank (DEffect (pWorst (patternsStep e rs tool st p))) ∧
    effectRank (DEffect (pWorst st)) ≤ effectRank (DEffect (pWorst (patternsStep e rs tool st p))))
    by (simpl; case_bool; [apply Nat.ltb_lt in E|apply Nat.ltb_ge in E]; lia).
  split_and!.
  - intros p' [->|Hp']%elem_of_cons; [lia|auto].
  - lia.
  - destruct H3 as [H3|(p' & Hp' & H3)]; [|right; exists p'; split; [by constructor|done]].
    rewrite H3. simpl. case_bool; [|by left]. right. exists p. split; [constructor|done].
  - intros H. destruct (H4 H) as [H'|(p' & Hp' & H')];
      [|right; exists p'; split; [by constructor|done]].
    simpl in H'. apply orb_true_iff in H' as [H'|H']; [by left|]. bprop.
    right. exists p. split; [constructor|done].
Qed.

Lemma resolvePatterns_flag e rs tool ps st :
  (DProvenance (pWorst st) = AskProvenanceConfigured → pConfiguredAsk st = true) →
  DProvenance (pWorst (foldl (patternsStep e rs tool) st ps)) = AskProvenanceConfigured →
  pConfiguredAsk (foldl (patternsStep e rs tool) st ps) = true.
Proof.
  revert st. induction ps as [|p ps IH]; intros st Hst; simpl; [done|]. apply IH. simpl.
  case_bool; intros Hp.
  - by rewrite (bool_decide_true (DProvenance _ = _)), orb_true_r.
  - by rewrite Hst.
Qed.

Lemma resolvePatterns_effect e rs tool ps :
  DEffect (resolvePatterns e rs tool ps) =
  DEffect (pWorst (foldl (patternsStep e rs tool) patternsInit ps)).
Proof. unfold resolvePatterns. by case_bool. Qed.

(** The effect a shell segment contributes: its own, floored at Ask when it
    hides a command that cannot be shown read-only. *)
Definition segEffect (e : Evaluator) (rs : list Rule) (sub : gostr) : Effect :=
  let d := resolveSimple e rs #"Shell" (Canonicalize sub) in
  if HasSubstitutionOrGrouping sub && negb (SubstitutionReadOnly sub) && negb (looseSubstitution e)
     && (effectRank (DEffect d) <? effectRank Ask)
  then Ask else DEffect d.

Lemma shellStep_worst e rs st sub :
  haveDecision (shellStep e rs st sub) = true ∧
  ∃ d, worst (shellStep e rs st sub) = keepWorst st d ∧ DEffect d = segEffect e rs sub.
Proof.
  unfold shellStep, segEffect, resolveSimple.
  destruct (HasSubstitutionOrGrouping sub); simpl; [|eauto].
  destruct (resolveSimpleRule e rs _ _) as [d r]. simpl.
  destruct (SubstitutionReadOnly sub); simpl; [eauto|].
  destruct (looseSubstitution e); simpl; [eauto|].
  destruct (DEffect d) eqn:Ed; simpl; split; try done;
    by eexists; split; [reflexivity|]; rewrite ?Ed.
Qed.

Lemma keepWorst_rank st d :
  effectRank (DEffect d) ≤ effectRank (DEffect (keepWorst st d)) ∧
  (haveDecision st = true → effectRank (DEffect (worst st)) ≤ effectRank (DEffect (keepWorst st d))).
Proof.
  unfold keepWorst. destruct (haveDecision st); simpl; [|split; [lia|done]].
  case_bool; [apply Nat.ltb_lt in E|apply Nat.ltb_ge in E]; split; intros; lia.
Qed.

Lemma resolveShell_fold e rs subs st :
  let fin := foldl (shellStep e rs) st subs in
  (∀ sub, sub ∈ subs → effectRank (segEffect e rs sub) ≤ effectRank (DEffect (worst fin))) ∧
  (haveDecision st = true → effectRank (DEffect (worst st)) ≤ effectRank (DEffect (worst fin))) ∧
  (DEffect (worst fin) = DEffect (worst st) ∨
   ∃ sub, sub ∈ subs ∧ DEffect (worst fin) = segEffect e rs sub).
Proof.
  revert st. induction subs as [|sub subs IH]; intros st; simpl; [by split_and!; [set_solver|..]; auto|].
  destruct (IH (shellStep e rs st sub)) as (H1 & H2 & H3).
  destruct (shellStep_worst e rs st sub) as (Hh & d & Hd & Hs).
  specialize (H2 Hh). rewrite Hd in *. destruct (keepWorst_rank st d) as [Hk1 Hk2].
  rewrite Hs in Hk1. split_and!.
  - intros s [->|Hs']%elem_of_cons; [lia|auto].
  - intros Hst. specialize (Hk2 Hst). lia.
  - destruct H3 as [H3|(s & Hs' & H3)]; [|right; exists s; split; [by constructor|done]].
    rewrite H3. unfold keepWorst. case_bool; [|by left].
    right. exists sub. split; [constructor|done].
Qed.

(** The flags the fold collects. *)
Lemma resolveShell_configured e rs subs st :
  anyConfiguredAsk (foldl (shellStep e rs) st subs) = true →
  anyConfiguredAsk st = true ∨
  ∃ sub, sub ∈ subs ∧
    DProvenance (resolveSimple e rs #"Shell" (Canonicalize sub)) = AskProvenanceConfigured.
Proof.
  revert st. induction subs as [|sub subs IH]; intros st; simpl; [auto|].
  intros [H|(s & Hs & H)]%IH; [|right; exists s; split; [by constructor|done]].
  assert (Hd : anyConfiguredAsk st = true ∨
    DProvenance (resolveSimple e rs #"Shell" (Canonicalize sub)) = AskProvenanceConfigured).
  { revert H. unfold shellStep, resolveSimple.
    destruct (HasSubstitutionOrGrouping sub), (resolveSimpleRule e rs _ _) as [d r]; simpl;
      repeat case_bool; simpl; rewrite ?orb_true_iff, ?andb_true_iff, ?bool_decide_eq_true; tauto. }
  destruct Hd; [auto|]. right. exists sub. split; [constructor|done].
Qed.

(** The patterns a call is evaluated against. *)
Definition callPatterns (tool : gostr) (args : RawMessage) : list gostr :=
  if tool =s #"Shell" then
    match SplitCommands (default [] (ShellCommandFromArgs args)) with
    | [] => [[]]
    | subs => Canonicalize <$> subs
    end
  else
    match (if tool =s #"Copy" || tool =s #"Move" then copyMovePatterns args else None) with
    | Some patterns => patterns
    | None => [nonShellPattern tool args]
    end.

Lemma segEffect_Deny e rs sub :
  segEffect e rs sub = Deny ↔
  DEffect (resolveSimple e rs #"Shell" (Canonicalize sub)) = Deny.
Proof.
  unfold segEffect. case_bool; [|done]. bprop. split; [done|].
  intros Hd. by rewrite Hd in *.
Qed.

Lemma segEffect_rank e rs sub :
  effectRank (DEffect (resolveSimple e rs #"Shell" (Canonicalize sub))) ≤
  effectRank (segEffect e rs sub).
Proof.
  unfold segEffect. case_bool; [|lia]. bprop.
  match goal with H : (_ <? _) = true |- _ => apply Nat.ltb_lt in H; lia end.
Qed.

Lemma effectRank_Deny eff : 3 ≤ effectRank eff → eff = Deny.
Proof. destruct eff; simpl; [done|lia..]. Qed.

(** The rank of a resolved call bounds the rank of each of its patterns. *)
Lemma resolve_rank e rs tool args p :
  p ∈ callPatterns tool args →
  effectRank (DEffect (resolveSimple e rs tool p)) ≤ effectRank (DEffect (resolve e rs tool args)).
Proof.
  unfold callPatterns, resolve. destruct (tool =s #"Shell") eqn:Et.
  - bprop. subst tool. unfold resolveShell.
    destruct (SplitCommands _) as [|s subs]; [by intros ->%list_elem_of_singleton|].
    intros (sub & -> & Hsub)%list_elem_of_fmap. cbn [DEffect].
    destruct (resolveShell_fold e rs (s :: subs) shellInit) as (H & _).
    etrans; [apply segEffect_rank|exact (H sub Hsub)].
  - destruct (match _ with true => copyMovePatterns args | false => None end) as [ps|].
    + intros Hp. rewrite resolvePatterns_effect.
      by apply (resolvePatterns_fold e rs tool ps).
    + by intros ->%list_elem_of_singleton.
Qed.

(** A call is denied only through one of its patterns. *)
Lemma resolve_Deny_inv e rs tool args :
  DEffect (resolve e rs tool args) = Deny →
  ∃ p, p ∈ callPatterns tool args ∧ DEffect (resolveSimple e rs tool p) = Deny.
Proof.
  unfold callPatterns, resolve. destruct (tool =s #"Shell") eqn:Et.
  - bprop. subst tool. unfold resolveShell.
    destruct (SplitCommands _) as [|s subs]; [intros; exists []; split; [constructor|done]|].
    cbn [DEffect]. intros H.
    destruct (resolveShell_fold e rs (s :: subs) shellInit) as (_ & _ & [H'|(sub & Hs & H')]);
      rewrite H in H'; [done|].
    exists (Canonicalize sub). split; [by apply list_elem_of_fmap_2|].
    by apply segEffect_Deny.
  - destruct (match _ with true => copyMovePatterns args | false => None end) as [ps|].
    + rewrite resolvePatterns_effect. intros H.
      destruct (resolvePatterns_fold e rs tool ps patternsInit)
        as (_ & _ & [H'|(p & Hp & H')] & _); rewrite H in H'; [done|]. eauto.
    + intros. eexists. split; [constructor|done].
Qed.

Lemma resolve_configured_inv e rs tool args :
  DProvenance (resolve e rs tool args) = AskProvenanceConfigured →
  ∃ p, p ∈ callPatterns tool args ∧
    DProvenance (resolveSimple e rs tool p) = AskProvenanceConfigured.
Proof.
  unfold callPatterns, resolve. destruct (tool =s #"Shell") eqn:Et.
  - bprop. subst tool. unfold resolveShell.
    destruct (SplitCommands _) as [|s subs]; [intros; exists []; split; [constructor|done]|].
    cbn [DProvenance]. unfold shellAskProvenance. intros H.
    assert (Hc : anyConfiguredAsk (foldl (shellStep e rs) shellInit (s :: subs)) = true)
      by (revert H; repeat case_bool; try done).
    apply resolveShell_configured in Hc as [Hc|(sub & Hs & Hc)]; [done|].
    exists (Canonicalize sub). split; [by apply list_elem_of_fmap_2|done].
  - destruct (match _ with true => copyMovePatterns args | false => None end) as [ps|];
      [|intros; eexists; split; [constructor|done]].
    intros H. assert (Hf : pConfiguredAsk (foldl (patternsStep e rs tool) patternsInit ps) = true).
    { revert H. unfold resolvePatterns. case_bool; [by bprop|]. by apply resolvePatterns_flag. }
    by apply (resolvePatterns_fold e rs tool ps) in Hf as [?|?].
Qed.

(** ** The floor flags *)

(** The segment's Allow is raised to Ask. *)
Definition floored (e : Evaluator) (rs : list Rule) (sub : gostr) : bool :=
  HasSubstitutionOrGrouping sub && negb (SubstitutionReadOnly sub) && negb (looseSubstitution e)
  && (effectRank (DEffect (resolveSimple e rs #"Shell" (Canonicalize sub))) <? effectRank Ask).

Definition segmentRule (e : Evaluator) (rs : list Rule) (sub : gostr) : option Rule :=
  (resolveSimpleRule e rs #"Shell" (Canonicalize sub)).2.

Definition configuredFloor (e : Evaluator) (rs : list Rule) (sub : gostr) : bool :=
  ruleIsConfigured (segmentRule e rs sub) && flooredAllowSafe sub.

Definition builtinFloor (e : Evaluator) (rs : list Rule) (sub : gostr) : bool :=
  match segmentRule e rs sub with Some r => RScope r =s ScopeBuiltinDefault | None => false end.

Lemma shellStep_floored e rs st sub :
  shellStep e rs st sub =
  if floored e rs sub then shellFloor st sub (segmentRule e rs sub)
  else shellKeep st (resolveSimple e rs #"Shell" (Canonicalize sub)).
Proof.
  unfold shellStep, floored, resolveSimple, segmentRule.
  destruct (HasSubstitutionOrGrouping sub), (resolveSimpleRule e rs _ _) as [d r]; simpl; [|done].
  destruct (SubstitutionReadOnly sub); simpl; [done|].
  destruct (looseSubstitution e); simpl; [done|]. by destruct (DEffect d).
Qed.

Lemma floored_Allow e rs sub :
  floored e rs sub = true →
  DEffect (resolveSimple e rs #"Shell" (Canonicalize sub)) = Allow.
Proof.
  unfold floored. intros H. bprop.
  pose proof (resolveSimple_rank e rs #"Shell" (Canonicalize sub)).
  by destruct (DEffect (resolveSimple _ _ _ _)); simpl in *; try lia.
Qed.

(** What the flags say of one segment. *)
Definition flagsHold (e : Evaluator) (rs : list Rule) (fin : shellState) (sub : gostr) : Prop :=
  (unflooredNotAll fin = false →
    DEffect (resolveSimple e rs #"Shell" (Canonicalize sub)) = Allow) ∧
  (floored e rs sub = true → flooredBad fin = false →
    configuredFloor e rs sub = true ∨ builtinFloor e rs sub = true) ∧
  (floored e rs sub = true → flooredConfigured fin = 0 → configuredFloor e rs sub = false) ∧
  (floored e rs sub = true → flooredBuiltin fin = 0 →
    configuredFloor e rs sub = false → builtinFloor e rs sub = false).

(** A later state's flags are no weaker. *)
Definition flagsLe (a b : shellState) : Prop :=
  (unflooredNotAll b = false → unflooredNotAll a = false) ∧
  (flooredBad b = false → flooredBad a = false) ∧
  flooredConfigured a ≤ flooredConfigured b ∧ flooredBuiltin a ≤ flooredBuiltin b.

Lemma flagsLe_step e rs st sub : flagsLe st (shellStep e rs st sub).
Proof.
  rewrite shellStep_floored. unfold flagsLe, shellFloor, shellKeep.
  destruct (floored e rs sub); simpl; split_and!; try done;
    repeat case_bool; try done; try lia; intros; bprop; done.
Qed.

Lemma flagsLe_fold e rs subs st : flagsLe st (foldl (shellStep e rs) st subs).
Proof.
  revert st. induction subs as [|sub subs IH]; intros st; simpl; [by repeat split|].
  destruct (flagsLe_step e rs st sub) as (?&?&?&?), (IH (shellStep e rs st sub)) as (?&?&?&?).
  split_and!; auto; lia.
Qed.

Lemma flagsHold_step e rs st sub : flagsHold e rs (shellStep e rs st sub) sub.
Proof.
  unfold flagsHold. rewrite shellStep_floored.
  destruct (floored e rs sub) eqn:Ef; simpl.
  - unfold shellFloor, configuredFloor, builtinFloor. simpl.
    split_and!; [intros _; by apply floored_Allow|..]; intros _;
      (destruct (segmentRule e rs sub) as [r|]; simpl;
       [destruct (RScope r =s ScopeBuiltinDefault), (flooredAllowSafe sub)|]; simpl; intros; try done; auto).
  - split_and!; try done. intros H. bprop. by destruct (DEffect _); simpl in *.
Qed.

Lemma flagsHold_mono e rs a b sub : flagsLe a b → flagsHold e rs a sub → flagsHold e rs b sub.
Proof.
  intros (H1 & H2 & H3 & H4) (F1 & F2 & F3 & F4). split_and!; auto; intros.
  - apply F3; [done|lia].
  - apply F4; [done|lia|done].
Qed.

Lemma flagsHold_fold e rs subs st sub :
  sub ∈ subs → flagsHold e rs (foldl (shellStep e rs) st subs) sub.
Proof.
  revert st. induction subs as [|s subs IH]; intros st; [by intros ?%not_elem_of_nil|].
  intros [->|Hs]%elem_of_cons; simpl; [|by apply IH].
  eapply flagsHold_mono; [apply flagsLe_fold|apply flagsHold_step].
Qed.

(** ** Learned rules *)

Lemma resolve_learnable e rs tool args p :
  learnablePattern tool args = Some p → tool ≠ #"Copy" → tool ≠ #"Move" →
  DEffect (resolve e rs tool args) = DEffect (resolveSimple e rs tool p) ∧
  (DEffect (resolve e rs tool args) = Ask →
   DProvenance (resolve e rs tool args) = AskProvenanceUnknown →
   DProvenance (resolveSimple e rs tool p) = AskProvenanceUnknown).
Proof.
  intros Hp Hc Hm. revert Hp. unfold learnablePattern, resolve.
  rewrite (bool_decide_false (tool = #"Copy")), (bool_decide_false (tool = #"Move")) by done.
  destruct (tool =s #"Shell") eqn:Et; [|by intros [= <-]].
  bprop. subst tool. unfold resolveShell.
  destruct (ShellCommandFromArgs args) as [cmd|]; [|done]. change (default [] (Some cmd)) with cmd.
  destruct (SplitCommands cmd) as [|seg [|]] eqn:Es; [done| |done].
  destruct (HasSubstitutionOrGrouping seg) eqn:Eh; [done|]. intros [= <-].
  change (foldl (shellStep e rs) shellInit [seg]) with (shellStep e rs shellInit seg).
  unfold shellStep. rewrite Eh. unfold shellKeep, keepWorst. cbn.
  split; [done|]. intros Ha. rewrite Ha. unfold shellAskProvenance. cbn.
  unfold resolveSimple, resolveSimpleRule, configuredAskProvenance.
  repeat case_match; simpl; done.
Qed.

Lemma EvaluateWith_eq e tool args pm extra :
  EvaluateWith e tool args pm extra =
  match (if pm then planModeDecision tool args else None) with
  | Some d => d
  | None => resolve e (rules e ++ extra) tool args
  end.
Proof. unfold EvaluateWith. destruct extra; by rewrite ?app_nil_r. Qed.

Lemma LearnableRule_inv e tool args r :
  LearnableRule e tool args = Some r →
  ∃ p, learnablePattern tool args = Some p ∧ p ≠ [] ∧
    r = mkRule ScopeUser tool p Allow true AudienceAll.
Proof.
  unfold LearnableRule. destruct (learnablePattern tool args) as [p|]; [|done].
  case_bool; [done|]. bprop. intros [= <-]. eauto.
Qed.

Lemma learned_ruleMatches tool p tool' p' aud :
  p ≠ [] → tool ≠ [] →
  ruleMatches (mkRule ScopeUser tool p Allow true AudienceAll) tool' p' aud = true ↔
  tool' = tool ∧ p' = p.
Proof.
  intros Hp Ht. unfold ruleMatches. simpl.
  rewrite (bool_decide_false (tool = [])), (bool_decide_false (p = [])) by done. simpl.
  destruct (decide (tool = tool')) as [->|]; [|rewrite bool_decide_false by done; naive_solver].
  rewrite (bool_decide_true (tool' = tool')) by done. simpl.
  destruct (decide (p = p')) as [->|]; [rewrite bool_decide_true by done; naive_solver|].
  rewrite bool_decide_false by done. naive_solver.
Qed.

(** ** Properties *)

(** Sample payloads and rules for the witnesses. *)
Definition shellArgs (cmd : gostr) : RawMessage := RawValue (JObject [(#"command", JString cmd)]).
Definition denyRm : Rule := mkRule ScopeUser #"Shell" #"rm *" Deny false AudienceAll.
Definition allowAll : Rule := mkRule ScopeManaged [] [] Allow false AudienceAll.
Definition askGit : Rule := mkRule ScopeSharedProject #"Shell" #"git *" Ask false AudienceAll.
Definition floorAsk : Rule := mkRule ScopeBuiltinDefault #"Shell" [] Ask false AudienceAll.

(** Extra Allow rules weaken no Deny and no configured Ask of a whole call. *)
Lemma resolve_extra_allow e rs extra tool args :
  (∀ r, r ∈ extra → REffect r = Allow) →
  (DEffect (resolve e rs tool args) = Deny → DEffect (resolve e (rs ++ extra) tool args) = Deny) ∧
  (DProvenance (resolve e rs tool args) = AskProvenanceConfigured →
   DEffect (resolve e (rs ++ extra) tool args) ≠ Allow).
Proof.
  intros HA. split.
  - intros (p & Hp & Hd)%resolve_Deny_inv. apply effectRank_Deny.
    etrans; [|by apply (resolve_rank e _ tool args p)].
    apply (resolveSimple_extra_allow e rs extra) in Hd; [|done]. by rewrite Hd.
  - intros (p & Hp & Hd)%resolve_configured_inv Hall.
    pose proof (resolve_rank e (rs ++ extra) tool args p Hp) as Hr. rewrite Hall in Hr.
    apply (resolveSimple_extra_allow e rs extra) in Hd; [|done].
    rewrite Hd in Hr. simpl in Hr. lia.
Qed.

(** A matching learned rule turns an unconfigured Ask of a call into Allow. *)
Lemma resolve_learned e rs tool args r :
  LearnableRule e tool args = Some r → tool ≠ [] → tool ≠ #"Copy" → tool ≠ #"Move" →
  DEffect (resolve e rs tool args) = Ask →
  DProvenance (resolve e rs tool args) = AskProvenanceUnknown →
  DEffect (resolve e (rs ++ [r]) tool args) = Allow.
Proof.
  intros (p & Hp & Hne & ->)%LearnableRule_inv Ht Hc Hm HE HP.
  destruct (resolve_learnable e rs tool args p Hp Hc Hm) as [Heff Hprov].
  destruct (resolve_learnable e (rs ++ [mkRule ScopeUser tool p Allow true AudienceAll])
    tool args p Hp Hc Hm) as [-> _].
  apply resolveSimple_learned; [congruence|by apply Hprov| |done].
  split; [|done]. by apply learned_ruleMatches.
Qed.

Lemma planModeDecision_Deny tool args d :
  planModeDecision tool args = Some d → d = mkDecision Deny (DReason d) AskProvenanceUnknown.
Proof. unfold planModeDecision. repeat case_match; intros; by simplify_eq. Qed.

Lemma EvaluateWith_deny e tool args pm extra r p :
  r ∈ rules e ++ extra → p ∈ callPatterns tool args → binds e tool p Deny r →
  DEffect (EvaluateWith e tool args pm extra) = Deny.
Proof.
  intros Hr Hp Hb. rewrite EvaluateWith_eq.
  destruct (if pm then _ else _) as [d|] eqn:Epm.
  - destruct pm; [|done]. revert Epm. unfold planModeDecision. by repeat case_match; intros; simplify_eq.
  - apply effectRank_Deny. etrans; [|by apply (resolve_rank e _ tool args p)].
    replace (DEffect (resolveSimple e (rules e ++ extra) tool p)) with Deny; [done|].
    symmetry. apply resolveSimple_Deny. eauto.
Qed.

(** C1. Deny dominates: when any rule, static or learned, of any scope denies
    any pattern of a call (every segment of a shell line, both operands of a
    copy or move), the call is denied, in plan mode or not. *)
Theorem deny_dominates e tool args pm extra r p :
  r ∈ rules e ++ extra → p ∈ callPatterns tool args → binds e tool p Deny r →
  DEffect (EvaluateWith e tool args pm extra) = Deny.
Proof. apply EvaluateWith_deny. Qed.

Lemma deny_dominates_witness :
  DEffect (EvaluateWith (NewEvaluator [allowAll; denyRm] []) #"Shell"
    (shellArgs #"git status && timeout 5 rm -rf /") false [allowAll]) = Deny.
Proof.
  apply (deny_dominates _ _ _ _ _ denyRm #"rm -rf /").
  - vm_compute. right. left.
  - vm_compute. right. left.
  - split; reflexivity.
Defined.

(** Nothing is allowed silently: an allowed call has, for every pattern it
    is evaluated against, a binding Allow rule and no binding Deny rule. *)
Theorem allow_needs_rule e tool args pm extra p :
  DEffect (EvaluateWith e tool args pm extra) = Allow → p ∈ callPatterns tool args →
  (∃ r, r ∈ rules e ++ extra ∧ binds e tool p Allow r) ∧
  (∀ r, r ∈ rules e ++ extra → ¬ binds e tool p Deny r).
Proof.
  rewrite EvaluateWith_eq. intros H Hp. destruct (if pm then _ else _) as [d|] eqn:Epm.
  - destruct pm; [|done]. revert Epm. unfold planModeDecision.
    repeat case_match; intros; simplify_eq; done.
  - pose proof (resolve_rank e (rules e ++ extra) tool args p Hp) as Hr. rewrite H in Hr.
    pose proof (resolveSimple_rank e (rules e ++ extra) tool p) as Hr'.
    assert (DEffect (resolveSimple e (rules e ++ extra) tool p) = Allow) as HA
      by (by destruct (DEffect (resolveSimple _ _ _ _)); simpl in *; try lia).
    apply resolveSimple_Allow in HA as [? ?]. done.
Qed.

Lemma allow_needs_rule_witness :
  ∃ r, r ∈ [allowAll; denyRm] ++ [] ∧
    binds (NewEvaluator [allowAll; denyRm] []) #"Shell" #"ls" Allow r.
Proof.
  refine (proj1 (allow_needs_rule (NewEvaluator [allowAll; denyRm] []) #"Shell"
    (shellArgs #"git log | ls") false [] #"ls" _ _)).
  - reflexivity.
  - vm_compute. right. left.
Defined.

(** The evaluator answers with one of the three named effects. *)
Definition known (d : PermissionDecision) : Prop := match DEffect d with OtherEffect _ => False | _ => True end.

Lemma resolveSimple_known e rs tool p : known (resolveSimple e rs tool p).
Proof. unfold resolveSimple, resolveSimpleRule. by repeat case_match. Qed.

Lemma keepWorst_known st d : known (worst st) → known d → known (keepWorst st d).
Proof. unfold keepWorst. by case_bool. Qed.

Lemma shellStep_known e rs st sub : known (worst st) → known (worst (shellStep e rs st sub)).
Proof.
  intros Hst. unfold shellStep. case_bool; [|by apply keepWorst_known, resolveSimple_known].
  pose proof (resolveSimple_known e rs #"Shell" (Canonicalize sub)) as Hk. unfold resolveSimple in Hk.
  destruct (resolveSimpleRule e rs #"Shell" (Canonicalize sub)) as [seg r]. simpl in Hk.
  repeat case_bool; by apply keepWorst_known.
Qed.

Lemma shellFold_known e rs subs st : known (worst st) → known (worst (foldl (shellStep e rs) st subs)).
Proof. revert st. induction subs as [|x l IH]; intros st Hst; [done|]. apply IH. by apply shellStep_known. Qed.

Lemma EvaluateWith_known e tool args pm extra : known (EvaluateWith e tool args pm extra).
Proof.
  rewrite EvaluateWith_eq. destruct (if pm then _ else _) as [d|] eqn:Epm.
  - destruct pm; [|done]. apply planModeDecision_Deny in Epm. by rewrite Epm.
  - unfold resolve. case_bool.
    + unfold resolveShell. destruct (SplitCommands _) as [|sub subs]; [apply resolveSimple_known|].
      exact (shellFold_known e (rules e ++ extra) (sub :: subs) shellInit I).
    + destruct (if tool =s #"Copy" || tool =s #"Move" then _ else _) as [ps|]; [|apply resolveSimple_known].
      unfold resolvePatterns. assert (Hw : known (pWorst (foldl (patternsStep e (rules e ++ extra) tool) patternsInit ps))).
      { assert (known (pWorst patternsInit)) as Hi by done. revert Hi. generalize patternsInit.
        induction ps as [|x l IH]; intros st Hst; [done|]. apply IH. simpl. case_bool; [apply resolveSimple_known|done]. }
      by case_bool.
Qed.

Lemma EvaluateWith_plan e tool args extra :
  tool ∈ mutatingTools ∨
  (tool = #"Shell" ∧ ∃ cmd, ShellCommandFromArgs args = Some cmd ∧ ReadOnlyShell cmd = false) →
  DEffect (EvaluateWith e tool args true extra) = Deny.
Proof.
  intros H. unfold EvaluateWith, planModeDecision.
  destruct (tool ∈? mutatingTools) eqn:Em; [done|]. bprop.
  destruct H as [?|(-> & cmd & Hc & Hr)]; [done|].
  rewrite bool_decide_true by done. by rewrite Hc, Hr.
Qed.

(** C14. Plan mode comes first: a mutating tool, and a shell command that is not
    read-only, are denied under plan mode whatever the static rules, the
    learned rules and the evaluator's options are. *)
Theorem plan_mode_gate e tool args extra :
  tool ∈ mutatingTools ∨
  (tool = #"Shell" ∧ ∃ cmd, ShellCommandFromArgs args = Some cmd ∧ ReadOnlyShell cmd = false) →
  DEffect (EvaluateWith e tool args true extra) = Deny.
Proof. apply EvaluateWith_plan. Qed.

Lemma plan_mode_gate_witness :
  DEffect (EvaluateWith (NewEvaluator [allowAll] [WithLooseSubstitution true]) #"Shell"
    (shellArgs #"make all") true [allowAll]) = Deny.
Proof.
  apply plan_mode_gate. right. split; [reflexivity|]. exists #"make all".
  split; reflexivity.
Defined.

(** Learned rules only add: appending Allow rules turns no Deny and no
    configured Ask into anything weaker, for every tool and payload. *)
Theorem learned_rules_never_loosen e tool args pm extra :
  (∀ r, r ∈ extra → REffect r = Allow) →
  (DEffect (EvaluateWith e tool args pm []) = Deny →
   DEffect (EvaluateWith e tool args pm extra) = Deny) ∧
  (DProvenance (EvaluateWith e tool args pm []) = AskProvenanceConfigured →
   DEffect (EvaluateWith e tool args pm extra) ≠ Allow).
Proof.
  intros HA. rewrite !EvaluateWith_eq, app_nil_r.
  destruct (if pm then _ else _) as [d|] eqn:Epm; [|by apply resolve_extra_allow].
  destruct pm; [|done]. apply planModeDecision_Deny in Epm as ->. done.
Qed.

Lemma learned_rules_never_loosen_witness :
  DEffect (EvaluateWith (NewEvaluator [askGit] []) #"Shell" (shellArgs #"git push") false [allowAll])
  ≠ Allow.
Proof.
  refine (proj2 (learned_rules_never_loosen (NewEvaluator [askGit] []) #"Shell"
    (shellArgs #"git push") false [allowAll] _) _).
  - intros r ->%list_elem_of_singleton. reflexivity.
  - reflexivity.
Defined.

(** "Allow always" round trip: the rule learned from a call matches exactly
    that tool and pattern, and evaluating the same call again with it turns an
    unconfigured Ask into Allow. *)
Theorem learned_rule_roundtrip e tool args r :
  LearnableRule e tool args = Some r → tool ≠ [] →
  (∀ tool' p aud, ruleMatches r tool' p aud = true ↔ tool' = tool ∧ p = RPattern r) ∧
  (tool ≠ #"Copy" → tool ≠ #"Move" →
   DEffect (EvaluateWith e tool args false []) = Ask →
   DProvenance (EvaluateWith e tool args false []) = AskProvenanceUnknown →
   DEffect (EvaluateWith e tool args false [r]) = Allow).
Proof.
  intros Hr Ht. split.
  - pose proof Hr as (p & _ & Hne & ->)%LearnableRule_inv. intros. by apply learned_ruleMatches.
  - intros Hc Hm. unfold EvaluateWith. by apply resolve_learned.
Qed.

Lemma learned_rule_roundtrip_witness :
  DEffect (EvaluateWith (NewEvaluator [floorAsk] []) #"Shell" (shellArgs #"timeout 5 make test") false
    [mkRule ScopeUser #"Shell" #"make test" Allow true AudienceAll]) = Allow.
Proof.
  refine (proj2 (learned_rule_roundtrip (NewEvaluator [floorAsk] []) #"Shell"
    (shellArgs #"timeout 5 make test") _ _ _) _ _ _ _); reflexivity || (vm_compute; done).
Defined.

(** The substitution floor: without the loosening option, a shell line with
    a segment that hides a command not shown read-only is never allowed,
    whatever rules are configured or learned. *)
Theorem substitution_floor_holds e args pm extra cmd sub :
  looseSubstitution e = false → ShellCommandFromArgs args = Some cmd →
  sub ∈ SplitCommands cmd → HasSubstitutionOrGrouping sub = true →
  SubstitutionReadOnly sub = false →
  DEffect (EvaluateWith e #"Shell" args pm extra) ≠ Allow.
Proof.
  intros Hl Hc Hsub Hh Hro. rewrite EvaluateWith_eq.
  destruct (if pm then _ else _) as [d|] eqn:Epm.
  { destruct pm; [|done]. revert Epm. unfold planModeDecision.
    repeat case_match; intros; simplify_eq; done. }
  intros HA. unfold resolve in HA. rewrite bool_decide_true in HA by done.
  unfold resolveShell in HA. rewrite Hc in HA. change (default [] (Some cmd)) with cmd in HA.
  destruct (SplitCommands cmd) as [|s subs]; [by apply not_elem_of_nil in Hsub|].
  cbn [DEffect] in HA.
  destruct (resolveShell_fold e (rules e ++ extra) (s :: subs) shellInit) as (Hr & _).
  specialize (Hr sub Hsub). rewrite HA in Hr. revert Hr. unfold segEffect.
  rewrite Hh, Hro, Hl. simpl. case_bool; simpl; [lia|].
  apply Nat.ltb_ge in E. simpl in E. lia.
Qed.

Lemma substitution_floor_holds_witness :
  DEffect (EvaluateWith (NewEvaluator [allowAll] []) #"Shell" (shellArgs #"ls; cat $(make all)")
    false [allowAll]) ≠ Allow.
Proof.
  apply (substitution_floor_holds _ _ _ _ #"ls; cat $(make all)" #"cat $(make all)");
    try reflexivity.
  vm_compute. right. left.
Defined.

(** Floor provenance is earned by every segment: a shell decision tagged as
    a built-in (or configured) substitution floor has a line all of whose
    segments are allowed before flooring, and every floored segment is allowed
    by a built-in default rule (by a configured rule, with only read-only
    commands hidden in it). *)
Theorem floor_provenance_sound e rs args sub :
  sub ∈ SplitCommands (default [] (ShellCommandFromArgs args)) →
  let prov := DProvenance (resolveShell e rs args) in
  (prov = AskProvenanceConfiguredAllowFloor ∨ prov = AskProvenanceBuiltinSubstitutionFloor →
   DEffect (resolveSimple e rs #"Shell" (Canonicalize sub)) = Allow) ∧
  (prov = AskProvenanceConfiguredAllowFloor → floored e rs sub = true →
   ruleIsConfigured (segmentRule e rs sub) = true ∧ flooredAllowSafe sub = true) ∧
  (prov = AskProvenanceBuiltinSubstitutionFloor → floored e rs sub = true →
   builtinFloor e rs sub = true).
Proof.
  intros Hsub. unfold resolveShell. destruct (SplitCommands _) as [|s subs];
    [by apply not_elem_of_nil in Hsub|]. cbn [DProvenance].
  destruct (flagsHold_fold e rs (s :: subs) shellInit sub Hsub) as (F1 & F2 & F3 & F4).
  revert F1 F2 F3 F4. generalize (foldl (shellStep e rs) shellInit (s :: subs)) as fin.
  intros fin F1 F2 F3 F4. unfold shellAskProvenance.
  destruct (negb (DEffect (worst fin) =s Ask)); [by split_and!; [intros [?|?]|..]|].
  destruct (anyConfiguredAsk fin); [by split_and!; [intros [?|?]|..]|].
  destruct (flooredBad fin); [by split_and!; [intros [?|?]|..]|].
  destruct (unflooredNotAll fin); [by split_and!; [intros [?|?]|..]|].
  destruct (flooredConfigured fin) as [|n] eqn:Ec, (flooredBuiltin fin) as [|m] eqn:Eb;
    cbn; try by (split_and!; [intros [?|?]|..]).
  - split_and!; [auto|done|]. intros _ Hf. destruct (F2 Hf eq_refl) as [Hcf|?]; [|done].
    by rewrite (F3 Hf eq_refl) in Hcf.
  - split_and!; [auto| |done]. intros _ Hf. destruct (F2 Hf eq_refl) as [Hcf|Hbf].
    + unfold configuredFloor in Hcf. by apply andb_prop in Hcf.
    + destruct (configuredFloor e rs sub) eqn:Hcf; [unfold configuredFloor in Hcf; by apply andb_prop in Hcf|].
      by rewrite (F4 Hf eq_refl eq_refl) in Hbf.
Qed.

Lemma floor_provenance_sound_witness :
  DProvenance (resolveShell (NewEvaluator [] []) [allowAll] (shellArgs #"make $(git log)"))
    = AskProvenanceConfiguredAllowFloor ∧
  ruleIsConfigured (segmentRule (NewEvaluator [] []) [allowAll] #"make $(git log)") = true.
Proof.
  split; [reflexivity|].
  refine (proj1 (proj1 (proj2 (floor_provenance_sound (NewEvaluator [] []) [allowAll]
    (shellArgs #"make $(git log)") #"make $(git log)" _)) _ _)); vm_compute; try done. left.
Defined.
