(* ===== verification/Authority.v ===== *)
(** * Delegated authority

    [engine/governance/authority.go] and [engine/agent/authority_delegation.go]:
    the capability set a run carries, the attenuating operations on it, and the
    one derivation every delegation producer uses.  A Go [int] depth is a [Z];
    every operation only compares depths or decrements a positive one, so no
    operation here can overflow.  The two [map[string]struct{}] sets are gsets. *)

From S2P Require Import Prelude.

(** ** Capability sets *)

Record CapabilitySet := mkCaps {
  Tools : list gostr;
  RemainingDelegationDepth : Z;
  FileSystem : bool;
  DirectWrite : bool
}.

(** The failures of this component. *)
Inductive AuthorityError :=
  | ErrDelegationDepthExhausted
  | ErrToolsTightening
  | ErrDepthTightening
  | ErrFileSystemTightening
  | ErrDirectWriteTightening
  | ErrParentAuthorityUnbound
  | ErrResumeAuthorityUnbound
  | ErrResumeExceedsParent.

Definition MCPResourceCapability (server : gostr) : gostr :=
  #"mcp_resource__" ++ TrimSpace server.

Definition toolSet (tools : list gostr) : gset gostr := list_to_set tools.

Definition containsTools (available required : list gostr) : bool :=
  let availableSet := toolSet available in
  forallb (λ tool, tool ∈? availableSet) required.

(** The loop of [intersectTools]: [seen] is the set of tools already kept. *)
Fixpoint intersectLoop (rightSet seen : gset gostr) (left : list gostr) : list gostr :=
  match left with
  | [] => []
  | tool :: left' =>
      if negb (tool ∈? rightSet) then intersectLoop rightSet seen left'
      else if tool ∈? seen then intersectLoop rightSet seen left'
      else tool :: intersectLoop rightSet ({[tool]} ∪ seen) left'
  end.

Definition intersectTools (left right : list gostr) : list gostr :=
  intersectLoop (toolSet right) ∅ left.

Definition minDepth (left right : Z) : Z := if (left <? right)%Z then left else right.

Definition Narrow (left right : CapabilitySet) : CapabilitySet :=
  mkCaps (intersectTools (Tools left) (Tools right))
    (minDepth (RemainingDelegationDepth left) (RemainingDelegationDepth right))
    (FileSystem left && FileSystem right)
    (DirectWrite left && DirectWrite right).

Definition ConsumeDelegationHop (set : CapabilitySet) : CapabilitySet + AuthorityError :=
  if (RemainingDelegationDepth set <=? 0)%Z then inr ErrDelegationDepthExhausted
  else inl (mkCaps (Tools set) (RemainingDelegationDepth set - 1) (FileSystem set) (DirectWrite set)).

(** [CapabilitySet.Contains] *)
Definition ContainsCaps (set other : CapabilitySet) : bool :=
  (RemainingDelegationDepth other <=? RemainingDelegationDepth set)%Z
  && (negb (FileSystem other) || FileSystem set)
  && (negb (DirectWrite other) || DirectWrite set)
  && containsTools (Tools set) (Tools other).

Definition AllowsTool (set : CapabilitySet) (name : gostr) : bool :=
  containsTools (Tools set) [name].

(** ** Delegation ([engine/agent/authority_delegation.go]) *)

(** [session.Authority] *)
Record Authority := mkAuthority {
  ACapabilitySet : CapabilitySet;
  AProvenance : gostr;
  ADefinitionIdentity : gostr
}.

(** A caller's optional request for less; a nil field leaves the axis alone. *)
Record DelegationTightening := mkTightening {
  TTools : option (list gostr);
  TRemainingDelegationDepth : option Z;
  TFileSystem : option bool;
  TDirectWrite : option bool
}.

(** The four guarded assignments of [applyDelegationTightening]. *)
Definition tightenTools (t : DelegationTightening) (set : CapabilitySet)
    : CapabilitySet + AuthorityError :=
  match TTools t with
  | None => inl set
  | Some tools =>
      if negb (ContainsCaps set (mkCaps tools 0 false false)) then inr ErrToolsTightening
      else inl (mkCaps tools (RemainingDelegationDepth set) (FileSystem set) (DirectWrite set))
  end.

Definition tightenDepth (t : DelegationTightening) (set : CapabilitySet)
    : CapabilitySet + AuthorityError :=
  match TRemainingDelegationDepth t with
  | None => inl set
  | Some d =>
      if (d <? 0)%Z || (RemainingDelegationDepth set <? d)%Z then inr ErrDepthTightening
      else inl (mkCaps (Tools set) d (FileSystem set) (DirectWrite set))
  end.

Definition tightenFileSystem (t : DelegationTightening) (set : CapabilitySet)
    : CapabilitySet + AuthorityError :=
  match TFileSystem t with
  | None => inl set
  | Some b =>
      if b && negb (FileSystem set) then inr ErrFileSystemTightening
      else inl (mkCaps (Tools set) (RemainingDelegationDepth set) b (DirectWrite set))
  end.

Definition tightenDirectWrite (t : DelegationTightening) (set : CapabilitySet)
    : CapabilitySet + AuthorityError :=
  match TDirectWrite t with
  | None => inl set
  | Some b =>
      if b && negb (DirectWrite set) then inr ErrDirectWriteTightening
      else inl (mkCaps (Tools set) (RemainingDelegationDepth set) (FileSystem set) b)
  end.

Definition bindSet (r : CapabilitySet + AuthorityError)
    (k : CapabilitySet → CapabilitySet + AuthorityError) : CapabilitySet + AuthorityError :=
  match r with inl s => k s | inr e => inr e end.

Definition applyDelegationTightening (set : CapabilitySet) (tightening : option DelegationTightening)
    : CapabilitySet + AuthorityError :=
  match tightening with
  | None => inl set
  | Some t =>
      bindSet (tightenTools t set) (λ s,
      bindSet (tightenDepth t s) (λ s,
      bindSet (tightenFileSystem t s) (tightenDirectWrite t)))
  end.

Definition deriveDelegatedAuthority (parent : Authority) (candidate : CapabilitySet)
    (ceiling : option CapabilitySet) (tightening : option DelegationTightening)
    : Authority + AuthorityError :=
  let set := Narrow (ACapabilitySet parent) candidate in
  let set := match ceiling with Some c => Narrow set c | None => set end in
  match bindSet (applyDelegationTightening set tightening) ConsumeDelegationHop with
  | inl set => inl (mkAuthority set #"delegated" (ADefinitionIdentity parent))
  | inr e => inr e
  end.

(** [None] is a nil error. *)
Definition validateResumedAuthority (parent persisted : Authority) (persistedBound : bool)
    : option AuthorityError :=
  if AProvenance parent =s [] then Some ErrParentAuthorityUnbound
  else if negb persistedBound then Some ErrResumeAuthorityUnbound
  else if negb (ContainsCaps (ACapabilitySet parent) (ACapabilitySet persisted))
  then Some ErrResumeExceedsParent
  else None.

(** ** The containment order *)

(** What [Contains] decides. *)
Definition caps_le (a b : CapabilitySet) : Prop :=
  (RemainingDelegationDepth a ≤ RemainingDelegationDepth b)%Z ∧
  (FileSystem a → FileSystem b) ∧ (DirectWrite a → DirectWrite b) ∧
  (∀ tool, tool ∈ Tools a → tool ∈ Tools b).

#[global] Instance caps_sqsubseteq : SqSubsetEq CapabilitySet := caps_le.

(** Equal authority: containment both ways, coarser than equality since the
    order and multiplicity of tools do not matter. *)
#[global] Instance caps_equiv : Equiv CapabilitySet := λ a b, a ⊑ b ∧ b ⊑ a.

#[global] Instance caps_preorder : PreOrder (⊑@{CapabilitySet}).
Proof.
  split; [by intros a; split_and!|].
  intros a b c (? & ? & ? & ?) (? & ? & ? & ?). split_and!; auto. lia.
Qed.

#[global] Instance caps_equivalence : Equivalence (≡@{CapabilitySet}).
Proof.
  split; [by intros a; split|by intros a b []|].
  intros a b c [] []. split; etrans; eauto.
Qed.

#[global] Instance caps_sqsubseteq_proper :
  Proper ((≡) ==> (≡) ==> iff) (⊑@{CapabilitySet}).
Proof.
  intros a a' [H1 H2] b b' [H3 H4].
  split; intros H; [exact (transitivity H2 (transitivity H H3))|exact (transitivity H1 (transitivity H H4))].
Qed.

Lemma containsTools_spec a r : containsTools a r = true ↔ ∀ tool, tool ∈ r → tool ∈ a.
Proof.
  unfold containsTools, toolSet. rewrite forallb_elem.
  by setoid_rewrite bool_decide_eq_true; setoid_rewrite elem_of_list_to_set.
Qed.

Lemma containsTools_singleton a name : containsTools a [name] = true ↔ name ∈ a.
Proof.
  rewrite containsTools_spec. setoid_rewrite list_elem_of_singleton. naive_solver.
Qed.

Lemma ContainsCaps_spec a b : ContainsCaps a b = true ↔ b ⊑ a.
Proof.
  unfold ContainsCaps. rewrite !andb_true_iff, containsTools_spec, Z.leb_le.
  unfold sqsubseteq, caps_sqsubseteq, caps_le.
  destruct (FileSystem a), (FileSystem b), (DirectWrite a), (DirectWrite b); simpl; naive_solver.
Qed.

#[global] Instance ContainsCaps_proper : Proper ((≡) ==> (≡) ==> (=)) ContainsCaps.
Proof.
  intros a a' Ha b b' Hb. apply eq_true_iff_eq. rewrite !ContainsCaps_spec. by rewrite Ha, Hb.
Qed.

Lemma minDepth_min a b : minDepth a b = Z.min a b.
Proof. unfold minDepth. destruct (Z.ltb_spec a b); lia. Qed.

Lemma intersectLoop_elem rs seen l tool :
  tool ∈ intersectLoop rs seen l ↔ tool ∈ l ∧ tool ∈ rs ∧ tool ∉ seen.
Proof.
  revert seen. induction l as [|t l IH]; intros seen; simpl.
  - split; [by intros ?%not_elem_of_nil|by intros [?%not_elem_of_nil _]].
  - rewrite elem_of_cons. repeat case_bool; bprop; rewrite ?elem_of_cons, ?IH.
    + naive_solver.
    + naive_solver.
    + destruct (decide (tool = t)) as [->|]; set_solver.
Qed.

Lemma intersectTools_elem l r tool : tool ∈ intersectTools l r ↔ tool ∈ l ∧ tool ∈ r.
Proof. unfold intersectTools, toolSet. rewrite intersectLoop_elem. set_solver. Qed.

Lemma intersectLoop_sublist rs seen l : intersectLoop rs seen l `sublist_of` l.
Proof.
  revert seen. induction l as [|t l IH]; intros seen; simpl; [done|].
  repeat case_bool; by constructor.
Qed.

Lemma intersectLoop_NoDup rs seen l : NoDup (intersectLoop rs seen l).
Proof.
  revert seen. induction l as [|t l IH]; intros seen; simpl; [constructor|].
  repeat case_bool; [done..|]. constructor; [|done].
  rewrite intersectLoop_elem. set_solver.
Qed.

Lemma Narrow_glb a b c : c ⊑ Narrow a b ↔ c ⊑ a ∧ c ⊑ b.
Proof.
  unfold sqsubseteq, caps_sqsubseteq, caps_le, Narrow. simpl. rewrite minDepth_min.
  setoid_rewrite intersectTools_elem. rewrite Z.min_glb_iff.
  destruct (FileSystem a), (FileSystem b), (DirectWrite a), (DirectWrite b); naive_solver.
Qed.

Lemma Narrow_le_l a b : Narrow a b ⊑ a.
Proof. by apply (Narrow_glb a b). Qed.

Lemma Narrow_le_r a b : Narrow a b ⊑ b.
Proof. by apply (Narrow_glb a b). Qed.

#[global] Instance Narrow_proper : Proper ((≡) ==> (≡) ==> (≡)) Narrow.
Proof.
  intros a a' Ha b b' Hb.
  split; apply Narrow_glb; rewrite <-?Ha, <-?Hb; split; rewrite ?Ha, ?Hb;
    eauto using Narrow_le_l, Narrow_le_r.
Qed.

#[export] Hint Resolve Narrow_le_l Narrow_le_r : go.

Lemma ConsumeDelegationHop_le s s' :
  ConsumeDelegationHop s = inl s' →
  s' ⊑ s ∧ RemainingDelegationDepth s' = (RemainingDelegationDepth s - 1)%Z ∧
  (0 ≤ RemainingDelegationDepth s')%Z.
Proof.
  unfold ConsumeDelegationHop. destruct (Z.leb_spec (RemainingDelegationDepth s) 0); [done|].
  intros [= <-]. simpl. split_and!; try lia. split_and!; simpl; auto. lia.
Qed.

(** Each guarded assignment only removes authority. *)
Lemma tighten_le t s s' :
  applyDelegationTightening s t = inl s' → s' ⊑ s.
Proof.
  destruct t as [t|]; simpl; [|by intros [= <-]].
  assert (H1 : ∀ a b, tightenTools t a = inl b → b ⊑ a).
  { intros a b. unfold tightenTools. destruct (TTools t); [|by intros [= <-]].
    case_bool; [done|]. bprop. apply ContainsCaps_spec in E as (_ & _ & _ & HT).
    intros [= <-]. by split_and!. }
  assert (H2 : ∀ a b, tightenDepth t a = inl b → b ⊑ a).
  { intros a b. unfold tightenDepth. destruct (TRemainingDelegationDepth t) as [d|]; [|by intros [= <-]].
    case_bool; [done|]. bprop. intros [= <-]. split_and!; simpl; auto. lia. }
  assert (H3 : ∀ a b, tightenFileSystem t a = inl b → b ⊑ a).
  { intros a b. unfold tightenFileSystem. destruct (TFileSystem t) as [[]|]; simpl;
      [destruct (FileSystem a) eqn:E; [|done]|..]; intros [= <-]; split_and!; simpl;
      rewrite ?E; naive_solver. }
  assert (H4 : ∀ a b, tightenDirectWrite t a = inl b → b ⊑ a).
  { intros a b. unfold tightenDirectWrite. destruct (TDirectWrite t) as [[]|]; simpl;
      [destruct (DirectWrite a) eqn:E; [|done]|..]; intros [= <-]; split_and!; simpl;
      rewrite ?E; naive_solver. }
  unfold bindSet. repeat case_match; intros; simplify_eq.
  repeat match goal with
  | H : tightenTools _ _ = _ |- _ => apply H1 in H
  | H : tightenDepth _ _ = _ |- _ => apply H2 in H
  | H : tightenFileSystem _ _ = _ |- _ => apply H3 in H
  | H : tightenDirectWrite _ _ = _ |- _ => apply H4 in H
  end. etrans; [eassumption|]. etrans; [eassumption|]. by etrans.
Qed.

(** ** Chains of delegation *)

(** [delegated root n a]: [a] is an authority reached from [root] by [n]
    successful derivations, whatever candidates, ceilings and tightenings the
    producers supply. *)
Inductive delegated (root : Authority) : nat → Authority → Prop :=
  | delegated_root : delegated root 0 root
  | delegated_child n a candidate ceiling tightening a' :
      delegated root n a →
      deriveDelegatedAuthority a candidate ceiling tightening = inl a' →
      delegated root (S n) a'.

Lemma derive_le parent candidate ceiling tightening a :
  deriveDelegatedAuthority parent candidate ceiling tightening = inl a →
  ACapabilitySet a ⊑ ACapabilitySet parent ∧ ACapabilitySet a ⊑ candidate ∧
  (∀ c, ceiling = Some c → ACapabilitySet a ⊑ c) ∧
  (0 ≤ RemainingDelegationDepth (ACapabilitySet a)
     < RemainingDelegationDepth (ACapabilitySet parent))%Z.
Proof.
  unfold deriveDelegatedAuthority.
  set (n := match ceiling with Some c => _ | None => _ end).
  assert (Hn : n ⊑ Narrow (ACapabilitySet parent) candidate)
    by (unfold n; destruct ceiling; auto with go).
  assert (Hc : ∀ c, ceiling = Some c → n ⊑ c) by (intros c ->; unfold n; auto with go).
  clearbody n. destruct (applyDelegationTightening n tightening) as [s|] eqn:Et; [|done].
  apply tighten_le in Et. simpl.
  destruct (ConsumeDelegationHop s) as [s'|] eqn:Es; [|done]. intros [= <-]. simpl.
  apply ConsumeDelegationHop_le in Es as (Hs & Hd & H0).
  assert (Hsn : s' ⊑ n) by (by etrans).
  split_and!; [..|lia|].
  - etrans; [|apply Narrow_le_l]. by etrans.
  - etrans; [|apply Narrow_le_r]. by etrans.
  - intros c Hcc. etrans; eauto.
  - pose proof (Narrow_le_l (ACapabilitySet parent) candidate) as (? & _).
    destruct Et as (? & _), Hn as (? & _). lia.
Qed.

(** ** Properties *)

(** [Narrow] is the meet of two capability sets: [Contains] accepts exactly
    the sets both inputs contain, so nothing is widened and nothing the two have
    in common is lost; and the surviving tools are those of the left input in
    their order, without duplicates. *)
Theorem narrow_is_meet a b c :
  ContainsCaps (Narrow a b) c = ContainsCaps a c && ContainsCaps b c ∧
  (∀ name, AllowsTool (Narrow a b) name = AllowsTool a name && AllowsTool b name) ∧
  Tools (Narrow a b) `sublist_of` Tools a ∧ NoDup (Tools (Narrow a b)).
Proof.
  split_and!.
  - apply eq_true_iff_eq. rewrite andb_true_iff, !ContainsCaps_spec. apply Narrow_glb.
  - intros name. apply eq_true_iff_eq. unfold AllowsTool.
    rewrite andb_true_iff, !containsTools_singleton. apply intersectTools_elem.
  - apply intersectLoop_sublist.
  - apply intersectLoop_NoDup.
Qed.

(** C28. Every child derivation attenuates: the derived set is contained in the
    parent's, in the candidate and in any ceiling, it has spent a hop, it is
    tagged as delegated, and a resume of that child under the same (bound)
    parent is accepted. *)
Theorem derived_authority_attenuates parent candidate ceiling tightening child :
  deriveDelegatedAuthority parent candidate ceiling tightening = inl child →
  ContainsCaps (ACapabilitySet parent) (ACapabilitySet child) = true ∧
  ContainsCaps candidate (ACapabilitySet child) = true ∧
  (∀ c, ceiling = Some c → ContainsCaps c (ACapabilitySet child) = true) ∧
  (0 ≤ RemainingDelegationDepth (ACapabilitySet child)
     < RemainingDelegationDepth (ACapabilitySet parent))%Z ∧
  AProvenance child = #"delegated" ∧
  (AProvenance parent ≠ [] → validateResumedAuthority parent child true = None).
Proof.
  intros H. pose proof (derive_le _ _ _ _ _ H) as (H1 & H2 & H3 & H4 & H5).
  rewrite !ContainsCaps_spec. split_and!; try done.
  - intros c Hc. by apply ContainsCaps_spec, H3.
  - revert H. unfold deriveDelegatedAuthority. cbv zeta. destruct (bindSet _ _); [by intros [= <-]|done].
  - intros Hp. unfold validateResumedAuthority. rewrite bool_decide_false by done. simpl.
    by apply ContainsCaps_spec in H1 as ->.
Qed.

Definition sampleParent : Authority :=
  mkAuthority (mkCaps [ #"Read"; #"Shell"; #"Write" ] 3 true true) #"root" #"main".

Definition sampleChild : Authority :=
  mkAuthority (mkCaps [ #"Read" ] 1 true false) #"delegated" #"main".

Lemma derived_authority_attenuates_witness :
  ContainsCaps (ACapabilitySet sampleParent) (ACapabilitySet sampleChild) = true ∧
  validateResumedAuthority sampleParent sampleChild true = None.
Proof.
  refine ((λ H, conj (proj1 H) (proj2 (proj2 (proj2 (proj2 (proj2 H)))) _))
    (derived_authority_attenuates sampleParent (mkCaps [ #"Read"; #"Glob"; #"Shell" ] 2 true true)
       (Some (mkCaps [ #"Read"; #"Shell" ] 5 true false))
       (Some (mkTightening (Some [ #"Read" ]) None None None)) sampleChild _)).
  - done.
  - reflexivity.
Defined.

(** A delegation chain is bounded and only narrows: after [n] derivations
    the authority is contained in the root's, has at most the root's depth minus
    [n] hops left, and [n] never exceeds the root's depth; with no hops left a
    derivation without tightening fails with the exhaustion error. *)
Theorem delegation_chain_bounded root n a :
  delegated root n a →
  ContainsCaps (ACapabilitySet root) (ACapabilitySet a) = true ∧
  (RemainingDelegationDepth (ACapabilitySet a) + Z.of_nat n
     ≤ RemainingDelegationDepth (ACapabilitySet root))%Z ∧
  (Z.of_nat n ≤ Z.max 0 (RemainingDelegationDepth (ACapabilitySet root)))%Z ∧
  (Z.of_nat n = RemainingDelegationDepth (ACapabilitySet root) →
   ∀ candidate ceiling,
     deriveDelegatedAuthority a candidate ceiling None = inr ErrDelegationDepthExhausted).
Proof.
  intros H.
  assert (Hinv : ACapabilitySet a ⊑ ACapabilitySet root ∧
    (RemainingDelegationDepth (ACapabilitySet a) + Z.of_nat n
       ≤ RemainingDelegationDepth (ACapabilitySet root))%Z ∧
    (0 < Z.of_nat n → 0 ≤ RemainingDelegationDepth (ACapabilitySet a))%Z).
  { induction H as [|n a c ce t a' _ (IH1 & IH2 & IH3) Hd]; [split_and!; [done|lia..]|].
    apply derive_le in Hd as (Hd & _ & _ & Hlt). split_and!; [by etrans|lia..]. }
  destruct Hinv as (H1 & H2 & H3). split_and!; [by apply ContainsCaps_spec|lia|lia|].
  intros Hn candidate ceiling. unfold deriveDelegatedAuthority. simpl.
  set (s := match ceiling with Some c => _ | None => _ end).
  assert (Hs : s ⊑ ACapabilitySet a)
    by (unfold s; destruct ceiling; [etrans; [apply Narrow_le_l|]|]; apply Narrow_le_l).
  destruct Hs as (Hs & _). unfold ConsumeDelegationHop.
  by destruct (Z.leb_spec (RemainingDelegationDepth s) 0); [|lia].
Qed.

Lemma delegation_chain_bounded_witness :
  (Z.of_nat 1 ≤ Z.max 0 (RemainingDelegationDepth (ACapabilitySet sampleParent)))%Z.
Proof.
  refine (proj1 (proj2 (proj2 (delegation_chain_bounded sampleParent 1 sampleChild _)))).
  eapply (delegated_child _ 0 sampleParent (mkCaps [ #"Read" ] 2 true false) None None).
  - constructor.
  - reflexivity.
Defined.
