(* ===== verification/Fence.v ===== *)
(** * Fencing of untrusted text

    [engine/governance/fence.go]: the fence that wraps untrusted text inside a
    model-visible prompt, the neutralisation of forged fences and section
    headers, its two fast paths, and the delegation-result floor.

    The Go code mixes byte and rune indexing.  Every byte it compares with is
    ASCII, and in UTF-8 an ASCII byte occurs only as an ASCII rune, so on rune
    lists the tests are the same; the one length that is compared, [len(w)] in
    [lineMayBeHeader], is the UTF-8 length [byteLen]. *)

From S2P Require Import Prelude.

(** ** Unicode classes and case, as the matcher uses them *)

Definition inRanges (rs : list (N * N)) (r : rune) : bool :=
  existsb (λ lh, (lh.1 <=? r) && (r <=? lh.2))%N rs.

(** [unicode.Cf] *)
Definition isCf (r : rune) : bool :=
  inRanges [(173,173); (1536,1541); (1564,1564); (1757,1757); (1807,1807); (2192,2193);
    (2274,2274); (6158,6158); (8203,8207); (8234,8238); (8288,8292); (8294,8303);
    (65279,65279); (65529,65531); (69821,69821); (69837,69837); (78896,78911);
    (113824,113827); (119155,119162); (917505,917505); (917536,917631)]%N r.

(** [unicode.Cc] *)
Definition isCc (r : rune) : bool := inRanges [(0,31); (127,159)]%N r.

(** [unicode.ToLower], exact on every rune whose lower case is ASCII: the ASCII
    letters, U+0130 and the Kelvin sign U+212A.  Every other rune has a
    non-ASCII lower case, which the (ASCII) markers cannot tell apart. *)
Definition lowerRune (r : rune) : rune :=
  if ((65 <=? r) && (r <=? 90))%N then (r + 32)%N
  else if r =r 304 then 105%N else if r =r 8490 then 107%N else r.

Definition ToLower (s : gostr) : gostr := lowerRune <$> s.

(** ** Fence and redaction tokens *)

Definition UntrustedFence : gostr := #"<<<UNTRUSTED".
Definition redactedFraming : gostr :=
  #"[redacted-framing: this line matched a harness section header and was removed]".
Definition redactedMarker : gostr := #"[redacted-marker]".

(** ** Normalisation *)

Definition tab : rune := 9%N.
Definition cr : rune := 13%N.

(** The [lineBreaks] replacer; at each position the earliest listed pair wins,
    so CR LF is one break. *)
Fixpoint lineBreaksReplace (s : gostr) : gostr :=
  match s with
  | [] => []
  | c :: s' =>
      if c =r cr
      then match s' with
           | d :: s'' => newline :: (if d =r newline then lineBreaksReplace s''
                                     else lineBreaksReplace s')
           | [] => [newline]
           end
      else if c ∈? [8232; 8233; 133; 11; 12]%N then newline :: lineBreaksReplace s'
      else c :: lineBreaksReplace s'
  end.

Definition canonKeep (r : rune) : bool := r =r tab || negb (isCf r || isCc r).

Definition canonLine (ln : gostr) : gostr :=
  let ln := filter (λ r, canonKeep r = true) ln in
  let ln := Join (Fields ln) [space] in
  ReplaceAll ln #" :" #":".

Definition leadingDecoration : list rune := #"-*>#|`+~ " ++ [tab].

Definition isDigit (c : rune) : bool := ((48 <=? c) && (c <=? 57))%N.

Definition stripLeadingDecoration (s : gostr) : gostr :=
  let out := trim_left (λ c, c ∈? leadingDecoration) s in
  let rest := trim_left isDigit out in
  if (0 <? length out - length rest)
  then match rest with
       | c :: rest' => if c =r chr "." || c =r chr ")"
                       then trim_left (λ c, c ∈? [space; tab]) rest' else out
       | [] => out
       end
  else out.

(** ** The marker enumeration *)

Abbreviation framingSurface := N.
Definition surfacePrompt : framingSurface := 1%N.
Definition surfaceResult : framingSurface := 2%N.
Definition surfaceAll : framingSurface := N.lor surfacePrompt surfaceResult.

(** The markers that are a whole line, and those that are a prefix, of the
    prompt-only group and of the delegation group. *)
Definition promptLines : list gostr :=
  [ #"new messages for you:"; #"team goal:"; #"team status:"; #"team roster:"; #"your role:";
    #"recorded findings:"; #"messages sent to you:"; #"policy:"; #"requested command:";
    #"categories:"; #"task to classify:" ].

Definition promptPrefixes : list gostr :=
  [ #"tool:"; #"category:"; #"if no category clearly fits"; #"respond with only ";
    #"execution context:"; #"why the static policy could not resolve it:"; #"- message from ";
    #"you have claimed task "; #"findings from "; #"last words from "; #"completed tasks for ";
    #"note from the harness:" ].

Definition delegationPrefixes : list gostr :=
  [ #"agentid:"; #"last activity before the failure:"; #"[the subagent "; #"[subagent ";
    #"branch id:"; #"other branch ids:"; #"=== branch-"; #"parallel joined "; #"parallel (join=";
    #"judge rationale:"; #"winner workspace ("; #"winner auto-merged into this workspace";
    #"(branch workspaces were torn down"; #"--- not selected ---"; #"team id:" ].

Definition cancelledSuffix : gostr := #"other branch(es) cancelled or not selected.)".

Definition scoreboardRow (t : gostr) : bool :=
  HasPrefix t #"branch-" && (Contains t #"[ok]" || Contains t #"[failed]").

Definition framingHeaderSurfaces (t : gostr) : framingSurface :=
  if t ∈? promptLines || existsb (HasPrefix t) promptPrefixes then surfacePrompt
  else if existsb (HasPrefix t) delegationPrefixes || HasSuffix t cancelledSuffix || scoreboardRow t
  then surfaceAll
  else 0%N.

Definition surfaceMatches (t : gostr) (want : framingSurface) : bool :=
  negb (N.land (framingHeaderSurfaces t) want =r 0).

Definition framingHeaderOn (t : gostr) (want : framingSurface) : bool :=
  surfaceMatches t want ||
  (let undecorated := stripLeadingDecoration t in
   negb (undecorated =s t) && surfaceMatches undecorated want).

Definition framingHeader (t : gostr) : bool := framingHeaderOn t surfaceAll.

(** ** The candidate gate *)

(** A code point that [canonLine] strips and no gate may skip. *)
Definition hiddenRune (r : rune) : bool := (127 <=? r)%N && (isCf r || isCc r).

Definition lineNeedsFullScan (ln : gostr) : bool :=
  match ln with
  | [] => false
  | c :: _ =>
      c ∈? leadingDecoration || Contains ln #"  " || Contains ln #" :" || ContainsRune ln tab
      || isDigit c
      || existsb (λ r, ((r <? 32)%N && negb (r =r newline)) || hiddenRune r) ln
  end.

Definition markerLeaderWords : list gostr :=
  [ #"agentid"; #"branch"; #"parallel"; #"judge"; #"winner"; #"team"; #"policy"; #"tool";
    #"requested"; #"categories"; #"category"; #"task"; #"recorded"; #"messages"; #"new"; #"your";
    #"you"; #"findings"; #"last"; #"completed"; #"note"; #"execution"; #"why"; #"if"; #"respond";
    #"other" ].

Definition foldASCII (c : rune) : rune :=
  if ((65 <=? c) && (c <=? 90))%N then (c + 32)%N else c.

Fixpoint equalFoldASCII (a b : gostr) : bool :=
  match a, b with
  | [], [] => true
  | ca :: a', cb :: b' => foldASCII ca =r foldASCII cb && equalFoldASCII a' b'
  | _, _ => false
  end.

(** The text before the first space or colon. *)
Fixpoint leaderWord (ln : gostr) : gostr :=
  match ln with
  | [] => []
  | c :: ln' => if c =r space || c =r chr ":" then [] else c :: leaderWord ln'
  end.

Definition lineMayBeHeader (ln : gostr) : bool :=
  match ln with
  | [] => false
  | c :: _ =>
      if lineNeedsFullScan ln then true
      else if c ∈? #"[=(<-" then true
      else
        let w := leaderWord ln in
        if 12 <? byteLen w then false
        else if (7 <? byteLen w) && equalFoldASCII (take 7 w) #"branch-" then true
        else existsb (equalFoldASCII w) markerLeaderWords
  end.

Fixpoint anyLineLoop (ln s : gostr) : bool :=
  match s with
  | [] => lineMayBeHeader ln
  | c :: s' => if c =r newline then lineMayBeHeader ln || anyLineLoop [] s'
               else anyLineLoop (ln ++ [c]) s'
  end.

Definition anyLineMayBeHeader (s : gostr) : bool := anyLineLoop [] s.

Definition lineNeedsFold (s : gostr) : bool :=
  ContainsRune s cr || ContainsRune s 11%N || ContainsRune s 12%N
  || existsb (λ r, r ∈? [8232; 8233; 133]%N) s
  || existsb (λ r, ((r <? 32)%N && negb (r =r tab) && negb (r =r newline)) || hiddenRune r) s.

(** ** Neutralisation *)

Definition neutraliseLine (surf : framingSurface) (ln : gostr) : gostr :=
  if negb (lineMayBeHeader ln) then ln
  else if framingHeaderOn (ToLower (canonLine ln)) surf then redactedFraming
  else ln.

(** The passes behind the whole-string fast path. *)
Definition neutraliseSlow (s : gostr) (surf : framingSurface) : gostr :=
  let s := ReplaceAll s UntrustedFence redactedMarker in
  let s := lineBreaksReplace s in
  Join (neutraliseLine surf <$> Split s newline) [newline].

Definition neutraliseFramingOn (s : gostr) (surf : framingSurface) : gostr :=
  if negb (Contains s UntrustedFence) && negb (lineNeedsFold s) && negb (anyLineMayBeHeader s)
  then s
  else neutraliseSlow s surf.

Definition NeutraliseFraming (s : gostr) : gostr := neutraliseFramingOn s surfaceAll.

(** The builder is the text written so far. *)
Definition WriteUntrustedBlock (b body : gostr) : gostr :=
  b ++ (UntrustedFence ++ [newline]) ++ NeutraliseFraming body
    ++ ([newline] ++ UntrustedFence ++ [newline]).

Definition FenceUntrusted (body : gostr) : gostr := WriteUntrustedBlock [] body.

Definition fullyRedacted (neutralised : gostr) : bool :=
  forallb (λ ln, let t := TrimSpace ln in t =s [] || t =s redactedFraming)
    (Split neutralised newline).

(** ** The delegation-result floor *)

Definition hexDigit (n : N) : rune := nth (N.to_nat n) #"0123456789abcdef" (chr "0").

(** The [k] low hexadecimal digits, most significant first. *)
Fixpoint hexDigits (k : nat) (r : rune) : gostr :=
  match k with
  | O => []
  | S k' => hexDigit ((r / 16 ^ N.of_nat k') mod 16)%N :: hexDigits k' r
  end.

(** [utf8.ValidRune] *)
Definition ValidRune (r : rune) : bool :=
  ((r <? 55296) || ((57343 <? r) && (r <=? 1114111)))%N.

(** The single-letter escapes. *)
Definition letterEscape (r : rune) : option rune :=
  if r =r 7 then Some (chr "a") else if r =r 8 then Some (chr "b")
  else if r =r 12 then Some (chr "f") else if r =r newline then Some (chr "n")
  else if r =r cr then Some (chr "r") else if r =r tab then Some (chr "t")
  else if r =r 11 then Some (chr "v") else None.

Section quote.
(** [strconv.IsPrint], a Unicode table. *)
Context (isPrint : rune → bool).

(** [strconv.Quote], one rune at a time. *)
Definition appendEscapedRune (r : rune) : gostr :=
  if r =r dquote || r =r backslash then [backslash; r]
  else if isPrint r then [r]
  else
    match letterEscape r with
    | Some c => [backslash; c]
    | None =>
        if (r <? 32)%N || r =r 127 then backslash :: chr "x" :: hexDigits 2 r
        else
          let r := if ValidRune r then r else 65533%N in
          if (r <? 65536)%N then backslash :: chr "u" :: hexDigits 4 r
          else backslash :: chr "U" :: hexDigits 8 r
    end.

Definition Quote (s : gostr) : gostr :=
  dquote :: concat (appendEscapedRune <$> s) ++ [dquote].

Definition NeutraliseDelegationResult (s : gostr) : gostr :=
  let out := neutraliseFramingOn s surfaceResult in
  if TrimSpace s =s [] || negb (fullyRedacted out) then out
  else Quote (ReplaceAll s UntrustedFence redactedMarker).
End quote.

(** * Lemmas *)

(** ** The fence *)

Lemma fence_ne : UntrustedFence ≠ [].
Proof. done. Qed.

Lemma fence_no_newline : newline ∉ UntrustedFence.
Proof. apply (bool_decide_eq_false_1 (newline ∈ UntrustedFence)). reflexivity. Qed.

Lemma fence_marker_disjoint x : x ∈ redactedMarker → x ∉ UntrustedFence.
Proof.
  intros Hx Hf. assert (H : forallb (λ x, negb (x ∈? UntrustedFence)) redactedMarker = true)
    by reflexivity.
  rewrite forallb_elem in H. specialize (H x Hx). by bprop.
Qed.

#[export] Hint Resolve fence_ne fence_no_newline fence_marker_disjoint : go.

Lemma fence_replaced s : Contains (ReplaceAll s UntrustedFence redactedMarker) UntrustedFence = false.
Proof. apply ReplaceAll_removes; auto with go. Qed.

(** ** Line breaks *)

(** The runes [lineBreaks] folds. *)
Definition isBreak (c : rune) : bool := c =r cr || c ∈? [8232; 8233; 133; 11; 12]%N.

(** What one step of the replacer does. *)
Lemma lineBreaks_cons c s :
  lineBreaksReplace (c :: s) =
    if isBreak c
    then newline :: match c =r cr, s with
                    | true, d :: s' => if d =r newline then lineBreaksReplace s' else lineBreaksReplace s
                    | _, _ => lineBreaksReplace s
                    end
    else c :: lineBreaksReplace s.
Proof.
  simpl. unfold isBreak. destruct (c =r cr); simpl; [by destruct s|]. by case_bool.
Qed.

Lemma lineBreaks_out s : Forall (λ c, isBreak c = false) (lineBreaksReplace s).
Proof.
  induction s as [s IH] using (induction_ltof1 _ length). unfold ltof in IH.
  destruct s as [|c s]; [constructor|]. rewrite lineBreaks_cons. simpl in IH.
  destruct (isBreak c) eqn:E; constructor; [done| |done|apply IH; lia].
  destruct (c =r cr), s as [|d s]; try (apply IH; simpl; lia).
  destruct (d =r newline); apply IH; simpl; lia.
Qed.

Lemma lineBreaks_id s : Forall (λ c, isBreak c = false) s → lineBreaksReplace s = s.
Proof.
  induction 1 as [|c s Hc _ IH]; [done|]. by rewrite lineBreaks_cons, Hc, IH.
Qed.

Lemma lineBreaks_Forall (P : rune → Prop) s :
  P newline → Forall P s → Forall P (lineBreaksReplace s).
Proof.
  intros Hn. induction s as [s IH] using (induction_ltof1 _ length). unfold ltof in IH.
  destruct s as [|c s]; [done|]. rewrite lineBreaks_cons. simpl in IH.
  intros [Hc Hs]%Forall_cons.
  destruct (isBreak c); constructor; [done| |done|apply IH; [lia|done]].
  destruct (c =r cr), s as [|d s]; try (apply IH; simpl; [lia|done]).
  apply Forall_cons in Hs as [Hd Hs].
  destruct (d =r newline); apply IH; simpl; try lia; [done|by constructor].
Qed.

(** Folding cannot forge an occurrence of a text without newlines. *)
Lemma lineBreaks_prefix p s :
  newline ∉ p → p `prefix_of` lineBreaksReplace s → p `prefix_of` s.
Proof.
  revert s. induction p as [|x p IH]; intros s Hp; [intros; apply prefix_nil|].
  destruct s as [|c s]; [done|]. rewrite lineBreaks_cons.
  destruct (isBreak c); intros Hpre; pose proof (prefix_cons_inv_1 _ _ _ _ Hpre) as ->; [set_solver|].
  apply prefix_cons, IH; [set_solver|]. by eapply prefix_cons_inv_2.
Qed.

Lemma lineBreaks_Contains p s :
  p ≠ [] → newline ∉ p → Contains s p = false → Contains (lineBreaksReplace s) p = false.
Proof.
  intros Hne Hp. induction s as [s IH] using (induction_ltof1 _ length). unfold ltof in IH.
  destruct s as [|c s]; [done|]. intros HC.
  assert (HP : HasPrefix (lineBreaksReplace (c :: s)) p = false).
  { apply bool_decide_eq_false. intros Hpre. apply lineBreaks_prefix in Hpre; [|done].
    simpl in HC. bprop. unfold HasPrefix in *. by bprop. }
  simpl in HC. apply orb_false_elim in HC as [_ HC].
  rewrite lineBreaks_cons in HP |- *. simpl in IH.
  destruct (isBreak c); [change (newline :: ?x) with ([] ++ newline :: x);
    rewrite Contains_app_sep, Contains_nil_l by done; simpl|simpl in HP |- *; rewrite HP; simpl; apply IH; [lia|done]].
  destruct (c =r cr), s as [|d s]; try (apply IH; simpl; [lia|done]).
  destruct (d =r newline); apply IH; simpl; try lia; [|done].
  simpl in HC. by apply orb_false_elim in HC as [_ ?].
Qed.

(** ** The whole-string fast path *)

Lemma anyLineLoop_spec ln s : anyLineLoop ln s = existsb lineMayBeHeader (split_go newline ln s).
Proof.
  revert ln. induction s as [|c s IH]; intros ln; cbn [anyLineLoop split_go].
  - simpl. by rewrite orb_false_r.
  - destruct (c =r newline); [cbn [existsb]; by rewrite IH|apply IH].
Qed.

Lemma anyLineMayBeHeader_spec s : anyLineMayBeHeader s = existsb lineMayBeHeader (Split s newline).
Proof. apply anyLineLoop_spec. Qed.

Lemma lineNeedsFold_breaks s : lineNeedsFold s = false → Forall (λ c, isBreak c = false) s.
Proof.
  unfold lineNeedsFold, ContainsRune. intros H. bprop.
  repeat match goal with H : existsb _ _ = false |- _ => rewrite existsb_false_forall in H end.
  apply Forall_forall. intros c Hc. unfold isBreak. rewrite orb_false_iff. split.
  - apply N.eqb_neq. by intros ->.
  - apply bool_decide_eq_false. intros Hb.
    rename select (∀ x, x ∈ s → bool_decide _ = false) into Hm. specialize (Hm c Hc). bprop.
    rewrite !elem_of_cons in Hb. rewrite !elem_of_cons in Hm.
    destruct Hb as [->|[->|[->|[->|[->|Hb]]]]]; try done; [by apply Hm; auto..|].
    by apply not_elem_of_nil in Hb.
Qed.

Lemma neutraliseLine_gated surf ln : lineMayBeHeader ln = false → neutraliseLine surf ln = ln.
Proof. unfold neutraliseLine. by intros ->. Qed.

Lemma fmap_id_elem {A} (f : A → A) (l : list A) : (∀ x, x ∈ l → f x = x) → f <$> l = l.
Proof.
  intros H. rewrite <-(list_fmap_id l) at 2. by apply list_fmap_ext; intros i x ?%list_elem_of_lookup_2; auto.
Qed.

Lemma fast_path_slow s surf : neutraliseFramingOn s surf = neutraliseSlow s surf.
Proof.
  unfold neutraliseFramingOn. case_bool; [|done]. bprop.
  unfold neutraliseSlow. rewrite ReplaceAll_id, lineBreaks_id by auto using lineNeedsFold_breaks.
  rewrite fmap_id_elem; [by rewrite Join_Split|].
  rewrite anyLineMayBeHeader_spec, existsb_false_forall in H0. auto using neutraliseLine_gated.
Qed.

(** ** The lines of the output *)

Lemma redacted_no_newline : newline ∉ redactedFraming.
Proof. apply (bool_decide_eq_false_1 (newline ∈ redactedFraming)). reflexivity. Qed.

Lemma redacted_not_header surf :
  framingHeaderOn (ToLower (canonLine redactedFraming)) surf = false.
Proof. done. Qed.

Lemma redacted_stable surf : neutraliseLine surf redactedFraming = redactedFraming.
Proof. unfold neutraliseLine. destruct (framingHeaderOn _ surf); by case_bool. Qed.

(** The lines [neutraliseSlow] works on. *)
Definition foldedLines (s : gostr) : list gostr :=
  Split (lineBreaksReplace (ReplaceAll s UntrustedFence redactedMarker)) newline.

Lemma neutraliseLine_cases surf ln :
  neutraliseLine surf ln = ln ∨ neutraliseLine surf ln = redactedFraming.
Proof. unfold neutraliseLine. repeat case_bool; auto. Qed.

Lemma output_lines s surf :
  Split (neutraliseSlow s surf) newline = neutraliseLine surf <$> foldedLines s.
Proof.
  unfold neutraliseSlow. apply Split_Join.
  - intros H%fmap_nil_inv. by apply split_go_ne in H.
  - apply Forall_fmap. eapply Forall_impl; [apply Split_nosep|]. intros ln Hln. simpl.
    destruct (neutraliseLine_cases surf ln) as [-> | ->]; [done|apply redacted_no_newline].
Qed.

Lemma folded_no_fence s ln : ln ∈ foldedLines s → Contains ln UntrustedFence = false.
Proof.
  assert (H : Contains (Join (foldedLines s) [newline]) UntrustedFence = false).
  { unfold foldedLines. rewrite Join_Split. apply lineBreaks_Contains; auto with go.
    apply fence_replaced. }
  rewrite Contains_Join, existsb_false_forall in H by auto with go. auto.
Qed.

Lemma slow_no_fence s surf : Contains (neutraliseSlow s surf) UntrustedFence = false.
Proof.
  unfold neutraliseSlow. rewrite Contains_Join, existsb_false_forall by auto with go.
  intros ln (ln' & -> & Hin)%list_elem_of_fmap.
  destruct (neutraliseLine_cases surf ln') as [-> | ->]; [by eapply folded_no_fence|reflexivity].
Qed.

Lemma neutralise_no_fence s surf : Contains (neutraliseFramingOn s surf) UntrustedFence = false.
Proof. rewrite fast_path_slow. apply slow_no_fence. Qed.

Lemma Join_Forall (P : rune → Prop) ls z :
  Forall P z → Forall (Forall P) ls → Forall P (Join ls z).
Proof.
  intros Hz. induction 1 as [|l ls Hl Hls IH]; [constructor|].
  destruct (decide (ls = [])) as [->|]; [done|]. rewrite Join_cons by done.
  by rewrite !Forall_app.
Qed.

Lemma split_go_Forall (P : rune → Prop) sep cur s :
  Forall P cur → Forall P s → Forall (Forall P) (split_go sep cur s).
Proof.
  intros Hc Hs. revert cur Hc. induction Hs as [|c s Hc' Hs IH]; intros cur Hc; simpl;
    [by constructor|]. case_bool; [constructor; auto|]. apply IH, Forall_app; auto.
Qed.

Lemma replace_go_Forall (P : rune → Prop) old new k s :
  Forall P new → Forall P s → Forall P (replace_go old new k s).
Proof.
  intros Hn Hs. revert k. induction Hs as [|c s Hc Hs IH]; intros k; simpl; [constructor|].
  destruct k; [|apply IH]. case_bool; [apply Forall_app|constructor]; auto.
Qed.

Lemma foldedLines_Forall (P : rune → Prop) s ln :
  P newline → Forall P redactedMarker → Forall P s → ln ∈ foldedLines s → Forall P ln.
Proof.
  intros Hn Hm Hs Hin.
  assert (H : Forall (Forall P) (foldedLines s)).
  { apply split_go_Forall; [constructor|]. apply lineBreaks_Forall; [done|].
    by apply replace_go_Forall. }
  rewrite Forall_forall in H. auto.
Qed.

Lemma slow_idemp s surf : neutraliseSlow (neutraliseSlow s surf) surf = neutraliseSlow s surf.
Proof.
  unfold neutraliseSlow at 1.
  rewrite ReplaceAll_id by apply slow_no_fence.
  rewrite lineBreaks_id.
  - rewrite output_lines, <-list_fmap_compose. unfold neutraliseSlow. f_equal.
    apply list_fmap_ext. intros i ln _. simpl.
    destruct (neutraliseLine_cases surf ln) as [H|H]; rewrite H; [done|apply redacted_stable].
  - unfold neutraliseSlow. apply Join_Forall; [by repeat constructor|]. apply Forall_fmap.
    apply Forall_forall. intros ln Hln. simpl.
    destruct (neutraliseLine_cases surf ln) as [-> | ->].
    + assert (HF : Forall (Forall (λ c, isBreak c = false)) (foldedLines s))
        by (apply split_go_Forall; [constructor|apply lineBreaks_out]).
      rewrite Forall_forall in HF. auto.
    + apply Forall_forall. intros c Hc.
      assert (HB : existsb isBreak redactedFraming = false) by reflexivity.
      rewrite existsb_false_forall in HB. auto.
Qed.

(** ** The candidate gate on ASCII lines *)

Definition ascii (c : rune) : Prop := (c < 128)%N.

(** Printable ASCII: what a line that needs no full scan is made of. *)
Definition plain (c : rune) : Prop := (32 ≤ c < 127)%N.

Lemma inRanges_below rs r :
  Forall (λ lh : N * N, (r < lh.1)%N) rs → inRanges rs r = false.
Proof.
  unfold inRanges. induction 1 as [|[l h] rs Hl _ IH]; simpl in *; [done|].
  rewrite IH, orb_false_r. apply andb_false_iff. left. by apply N.leb_gt.
Qed.

Lemma plain_keep c : plain c → canonKeep c = true.
Proof.
  intros Hc. unfold canonKeep, isCf, isCc. rewrite inRanges_below.
  - unfold inRanges, plain in *. simpl. destruct (c =r tab); simpl; [done|].
    rewrite orb_false_r. apply negb_true_iff, orb_false_iff. rewrite !andb_false_iff, !N.leb_gt. lia.
  - unfold plain in Hc. repeat constructor; simpl; lia.
Qed.

Lemma plain_space c : plain c → is_space c = true ↔ c = space.
Proof.
  unfold plain, is_space, space. intros Hc. split; [|by intros ->].
  rewrite !orb_true_iff, !andb_true_iff, !N.eqb_eq, !N.leb_le. lia.
Qed.

Lemma fullScan_plain c ln :
  Forall ascii (c :: ln) → newline ∉ c :: ln → lineNeedsFullScan (c :: ln) = false →
  Forall plain (c :: ln) ∧ c ∉ leadingDecoration ∧ isDigit c = false ∧
  Contains (c :: ln) #"  " = false ∧ Contains (c :: ln) #" :" = false.
Proof.
  unfold lineNeedsFullScan. intros Ha Hn H. bprop. split_and!; try done.
  rename select (existsb _ _ = false) into Hx. rewrite existsb_false_forall in Hx.
  rewrite Forall_forall in Ha |- *. intros r Hr. specialize (Hx r Hr). specialize (Ha r Hr).
  unfold ascii, plain in *. apply orb_false_elim in Hx as [Hlo Hhi].
  assert (r ≠ newline) by (by intros ->). unfold hiddenRune, isCc in Hhi.
  split.
  - destruct (N.ltb_spec r 32); [|lia]. simpl in Hlo. by bprop.
  - destruct (N.eq_dec r 127%N) as [->|]; [done|lia].
Qed.

(** Single-spaced plain text is its fields joined, up to one trailing space. *)
Lemma Fields_single_spaced cur s :
  cur ≠ [] → Forall plain s → Contains s #"  " = false →
  ∃ e, cur ++ s = Join (fields_go cur s) [space] ++ e ∧ (e = [] ∨ e = [space]).
Proof.
  revert cur. induction s as [s IH] using (induction_ltof1 _ length). unfold ltof in IH.
  intros cur Hc Hp Hd. destruct s as [|c s]; simpl.
  { destruct cur; [done|]. exists []. simpl. auto. }
  apply Forall_cons in Hp as [Hpc Hp]. simpl in Hd. apply orb_false_elim in Hd as [Hd1 Hd].
  destruct (is_space c) eqn:Es.
  - apply plain_space in Es as ->; [|done].
    assert (Hcur : ∀ x l, match cur with [] => x | _ => cur :: l end = cur :: l)
      by (by destruct cur).
    rewrite Hcur. destruct s as [|d s].
    { exists [space]. simpl. auto. }
    assert (Hds : is_space d = false).
    { apply not_true_is_false. intros Hsp. apply Forall_cons in Hp as [Hpd _].
      apply plain_space in Hsp as ->; [|done]. unfold HasPrefix in Hd1. bprop.
      apply Hd1. by exists s. }
    cbn [fields_go]. rewrite Hds. change ([] ++ [d]) with [d]. apply Forall_cons in Hp as [Hpd Hp]. simpl in Hd.
    apply orb_false_elim in Hd as [_ Hd].
    destruct (IH s ltac:(simpl; lia) [d]) as (e & He & Hcase); [done..|].
    exists e. split; [|done]. rewrite Join_cons.
    + rewrite <-!app_assoc, <-He. done.
    + intros HF. rewrite HF in He. destruct e as [|? [|]]; naive_solver.
  - destruct (IH s ltac:(simpl; lia) (cur ++ [c])) as (e & He & Hcase);
      [by destruct cur|done..|]. exists e. split; [|done]. by rewrite <-He, <-app_assoc.
Qed.

Lemma Contains_app_l a b sub : Contains (a ++ b) sub = false → Contains a sub = false.
Proof.
  rewrite !Contains_false. intros H u v ->. apply (H u (v ++ b)). by rewrite <-!app_assoc.
Qed.

Lemma filter_all {A} (P : A → Prop) `{∀ x, Decision (P x)} (l : list A) :
  Forall P l → filter P l = l.
Proof. induction 1 as [|x l Hx _ IH]; [done|]. by rewrite filter_cons_True, IH. Qed.

(** On such a line [canonLine] only drops a trailing space. *)
Lemma canonLine_plain c ln :
  Forall ascii (c :: ln) → newline ∉ c :: ln → lineNeedsFullScan (c :: ln) = false →
  ∃ e, c :: ln = canonLine (c :: ln) ++ e ∧ (e = [] ∨ e = [space]).
Proof.
  intros Ha Hn Hf. destruct (fullScan_plain _ _ Ha Hn Hf) as (Hp & Hdec & _ & Hdd & Hsc).
  unfold canonLine. rewrite filter_all
    by (eapply Forall_impl; [exact Hp|]; intros; by apply plain_keep).
  assert (Hcs : is_space c = false).
  { apply not_true_is_false. intros Hsp. apply Forall_cons in Hp as [Hpc _].
    apply plain_space in Hsp as ->; [|done]. apply Hdec. by apply (bool_decide_eq_true_1 (space ∈ leadingDecoration)). }
  unfold Fields. simpl. rewrite Hcs.
  apply Forall_cons in Hp as [_ Hp]. simpl in Hdd. apply orb_false_elim in Hdd as [_ Hdd].
  destruct (Fields_single_spaced [c] ln) as (e & He & Hcase); [done..|].
  simpl in He |- *. exists e. split; [|done].
  rewrite ReplaceAll_id; [done|]. rewrite He in Hsc. by apply Contains_app_l in Hsc.
Qed.

Lemma lowerRune_fold c : ascii c → lowerRune c = foldASCII c.
Proof.
  unfold ascii, lowerRune, foldASCII. intros Hc. case_bool; [done|].
  by rewrite (proj2 (N.eqb_neq c 304)), (proj2 (N.eqb_neq c 8490)) by lia.
Qed.

Lemma foldASCII_idemp c : foldASCII (foldASCII c) = foldASCII c.
Proof.
  unfold foldASCII. destruct ((65 <=? c) && (c <=? 90))%N eqn:E; [|by rewrite E].
  destruct ((65 <=? c + 32) && (c + 32 <=? 90))%N eqn:E2; [|done].
  rewrite !andb_true_iff, !N.leb_le in E, E2. lia.
Qed.

(** A non-letter is folded to only by itself. *)
Lemma foldASCII_nonletter c x :
  (x < 97 ∨ 122 < x)%N → foldASCII c = x → c = x.
Proof.
  unfold foldASCII. intros Hx. case_bool; [|done]. rewrite andb_true_iff, !N.leb_le in E. lia.
Qed.

Lemma ToLower_fold s : Forall ascii s → ToLower s = foldASCII <$> s.
Proof. induction 1 as [|c s Hc _ IH]; [done|]. unfold ToLower in *. csimpl. by rewrite lowerRune_fold, IH. Qed.

Lemma equalFold_fold a b : equalFoldASCII a b = true ↔ foldASCII <$> a = foldASCII <$> b.
Proof.
  revert b. induction a as [|x a IH]; intros [|y b]; csimpl; try done.
  rewrite andb_true_iff, IH, N.eqb_eq. split; [by intros [-> ->]|by intros [= -> ->]].
Qed.

Lemma leaderWord_fold s : leaderWord (foldASCII <$> s) = foldASCII <$> leaderWord s.
Proof.
  induction s as [|c s IH]; [done|]. cbn [leaderWord fmap list_fmap].
  assert (H : ∀ x, (x < 97 ∨ 122 < x)%N → (x < 65 ∨ 90 < x)%N → foldASCII c =r x = (c =r x)).
  { intros x Hx Hx'. apply eq_true_iff_eq. rewrite !N.eqb_eq. split; [by apply foldASCII_nonletter|].
    intros ->. unfold foldASCII. case_bool; [|done]. rewrite andb_true_iff, !N.leb_le in E. lia. }
  rewrite !H by (vm_compute; auto). case_bool; [done|]. cbn [fmap list_fmap]. f_equal. apply IH.
Qed.

(** The leading word of a text that continues after it. *)
Lemma leaderWord_app m t :
  length (leaderWord m) < length m → leaderWord (m ++ t) = leaderWord m.
Proof.
  induction m as [|c m IH]; simpl; [lia|]. case_bool; [done|]. simpl. intros H. f_equal. apply IH. lia.
Qed.

Lemma leaderWord_app_nil m : leaderWord (m ++ [space]) = leaderWord m.
Proof. induction m as [|c m IH]; simpl; [done|]. case_bool; [done|]. by f_equal. Qed.

Lemma leaderWord_prefix s : leaderWord s `prefix_of` s.
Proof. induction s as [|c s IH]; simpl; [done|]. case_bool; [apply prefix_nil|by apply prefix_cons]. Qed.

Lemma byteLen_ascii s : Forall ascii s → byteLen s = length s.
Proof.
  unfold byteLen. induction 1 as [|c s Hc _ IH]; [done|]. cbn. rewrite IH. unfold runeLen.
  by rewrite (proj2 (N.ltb_lt c 128)).
Qed.

(** A marker is admitted by its first rune or by its leading word. *)
Definition punctLed (m : gostr) : bool :=
  match m with c :: _ => c ∈? #"[=(<-" | [] => false end.

Definition wordLed (m : gostr) : bool :=
  (length (leaderWord m) <? length m) && (length (leaderWord m) <=? 12)
  && (leaderWord m ∈? markerLeaderWords).

Lemma markers_led :
  forallb (λ m, punctLed m || wordLed m) (promptLines ++ promptPrefixes ++ delegationPrefixes) = true.
Proof. reflexivity. Qed.

Lemma leaderWords_folded lw : lw ∈ markerLeaderWords → foldASCII <$> lw = lw.
Proof.
  assert (H : forallb (λ lw, (foldASCII <$> lw) =s lw) markerLeaderWords = true) by reflexivity.
  rewrite forallb_elem in H. intros Hl. specialize (H lw Hl). by bprop.
Qed.

(** ASCII text whose scan is left to the leading-word test. *)
Section gate.
Context (c : rune) (ln : gostr).
Hypothesis Hascii : Forall ascii (c :: ln).
Hypothesis Hnl : newline ∉ c :: ln.
Hypothesis Hgate : lineMayBeHeader (c :: ln) = false.

Lemma gate_scan : lineNeedsFullScan (c :: ln) = false.
Proof using Hgate. pose proof Hgate as Hg. cbn [lineMayBeHeader] in Hg. by destruct (lineNeedsFullScan _). Qed.

Lemma gate_punct : c ∉ #"[=(<-".
Proof using Hgate.
  pose proof Hgate as Hg. cbn [lineMayBeHeader] in Hg. rewrite gate_scan in Hg.
  destruct (c ∈? _) eqn:E; [done|]. by bprop.
Qed.

Lemma gate_word :
  12 < length (leaderWord (c :: ln)) ∨
  ((length (leaderWord (c :: ln)) ≤ 7 ∨ foldASCII <$> take 7 (leaderWord (c :: ln)) ≠ #"branch-") ∧
   ∀ lw, lw ∈ markerLeaderWords → foldASCII <$> leaderWord (c :: ln) ≠ lw).
Proof using Hgate Hascii.
  pose proof Hgate as Hg. cbn [lineMayBeHeader] in Hg. rewrite gate_scan, bool_decide_false in Hg by apply gate_punct.
  set (w := leaderWord (c :: ln)).
  assert (Hw : byteLen w = length w).
  { apply byteLen_ascii. destruct (leaderWord_prefix (c :: ln)) as [k Hk].
    rewrite Hk in Hascii. by apply Forall_app in Hascii as [? _]. }
  cbv zeta in Hg. fold w in Hg. rewrite Hw in Hg. revert Hg.
  destruct (Nat.ltb_spec 12 (length w)); intros Hg; [by left|right]. split.
  - revert Hg. destruct (Nat.ltb_spec 7 (length w)); intros Hg; [|by left]. right. intros Hb.
    rewrite (proj2 (equalFold_fold _ _)) in Hg; [done|]. rewrite Hb. reflexivity.
  - intros lw Hlw Hf. destruct (_ && _); [done|].
    rewrite existsb_false_forall in Hg. specialize (Hg lw Hlw).
    rewrite (proj2 (equalFold_fold _ _)) in Hg; [done|]. rewrite Hf. symmetry.
    by apply leaderWords_folded.
Qed.

Lemma gate_canon :
  ∃ rest, canonLine (c :: ln) = c :: rest ∧ leaderWord (canonLine (c :: ln)) = leaderWord (c :: ln)
    ∧ ToLower (canonLine (c :: ln)) = foldASCII c :: (foldASCII <$> rest).
Proof using Hascii Hnl Hgate.
  destruct (canonLine_plain c ln Hascii Hnl gate_scan) as (e & He & Hcase).
  destruct (fullScan_plain c ln Hascii Hnl gate_scan) as (_ & Hdec & _).
  destruct (canonLine (c :: ln)) as [|c' rest] eqn:Ec.
  - destruct Hcase as [-> | ->]; [done|]. by injection He as -> _.
  - simpl in He. injection He as <- Hrest. exists rest. split_and!; [done|..].
    + rewrite Hrest. destruct Hcase as [-> | ->]; [by rewrite app_nil_r|].
      symmetry. apply (leaderWord_app_nil (c :: rest)).
    + rewrite ToLower_fold; [done|]. rewrite Hrest in Hascii.
      by apply (Forall_app _ (c :: rest)) in Hascii as [? _].
Qed.

Lemma gate_leader :
  leaderWord (ToLower (canonLine (c :: ln))) = foldASCII <$> leaderWord (c :: ln).
Proof using Hascii Hnl Hgate.
  destruct gate_canon as (rest & Hc & <- & ->). rewrite Hc.
  exact (leaderWord_fold (c :: rest)).
Qed.

Lemma fold_not_in (l : gostr) :
  forallb (λ x, (x <? 97) || (122 <? x))%N l = true → c ∉ l → foldASCII c ∉ l.
Proof using Type.
  intros Hl Hc Hin. apply Hc. rewrite forallb_elem in Hl. specialize (Hl _ Hin).
  rewrite orb_true_iff, !N.ltb_lt in Hl. by rewrite (foldASCII_nonletter c _ Hl eq_refl).
Qed.

Lemma gate_undecorated :
  stripLeadingDecoration (ToLower (canonLine (c :: ln))) = ToLower (canonLine (c :: ln)).
Proof using Hascii Hnl Hgate.
  destruct gate_canon as (rest & _ & _ & ->).
  destruct (fullScan_plain c ln Hascii Hnl gate_scan) as (_ & Hdec & Hdig & _).
  unfold stripLeadingDecoration. rewrite (trim_left_id (λ x, x ∈? leadingDecoration)).
  - cbv zeta. rewrite (trim_left_id isDigit).
    + by rewrite Nat.sub_diag.
    + intros x s' [= <- _]. apply not_true_is_false. unfold isDigit. rewrite andb_true_iff, !N.leb_le.
      intros Hd. assert (c = foldASCII c) as Hcc by (eapply foldASCII_nonletter; [|done]; lia).
      rewrite <-Hcc in Hd. unfold isDigit in Hdig. rewrite andb_false_iff, !N.leb_gt in Hdig. lia.
  - intros x s' [= <- _]. apply bool_decide_eq_false, fold_not_in; [reflexivity|done].
Qed.

(** A listed marker is never a prefix of a line the gate rules out. *)
Lemma gate_no_marker m :
  m ∈ promptLines ++ promptPrefixes ++ delegationPrefixes →
  ¬ m `prefix_of` ToLower (canonLine (c :: ln)).
Proof using Hascii Hnl Hgate.
  intros Hm [k Hk]. pose proof markers_led as HL. rewrite forallb_elem in HL.
  specialize (HL m Hm). apply orb_true_iff in HL as [HL|HL].
  - destruct gate_canon as (rest & _ & _ & Ht). rewrite Ht in Hk.
    destruct m as [|x m]; [done|]. simplify_eq/=. bprop.
    by apply (fold_not_in #"[=(<-"); [|apply gate_punct|].
  - unfold wordLed in HL. bprop. rename select (_ ∈ markerLeaderWords) into Hin.
    rewrite Nat.ltb_lt, Nat.leb_le in *.
    pose proof (leaderWord_app m k ltac:(done)) as Hlw. rewrite <-Hk, gate_leader in Hlw.
    destruct gate_word as [Hlong|[_ Hno]]; [|by apply (Hno _ Hin)].
    rewrite <-Hlw, length_fmap in *. lia.
Qed.
End gate.

(** The markers the gate does not admit: the cancelled-branches suffix, and
    scoreboard rows whose leading word is the bare family name or too long. *)
Definition escapesGate (t : gostr) : bool :=
  HasSuffix t cancelledSuffix
  || HasPrefix t #"branch-" && ((length (leaderWord t) =? 7) || (12 <? length (leaderWord t))).

Lemma branch_leader t :
  HasPrefix t #"branch-" = true → take 7 (leaderWord t) = #"branch-" ∧ 7 ≤ length (leaderWord t).
Proof. intros [k ->]%HasPrefix_spec. split; [reflexivity|]. simpl. lia. Qed.

Lemma gate_complete ln want :
  Forall ascii ln → newline ∉ ln → lineMayBeHeader ln = false →
  framingHeaderOn (ToLower (canonLine ln)) want = true →
  escapesGate (ToLower (canonLine ln)) = true.
Proof.
  intros Ha Hn Hg. destruct ln as [|c ln].
  { done. }
  unfold framingHeaderOn. rewrite gate_undecorated by done.
  rewrite bool_decide_true by done. simpl. rewrite orb_false_r. unfold surfaceMatches, framingHeaderSurfaces.
  pose proof (gate_no_marker c ln Ha Hn Hg) as Hm. pose proof (gate_word c ln Ha Hg) as Hw.
  pose proof (gate_leader c ln Ha Hn Hg) as Hl.
  set (t := ToLower _) in *. clearbody t. rewrite bool_decide_false.
  2:{ intros Ht. apply (Hm t); [|done]. by apply elem_of_app; left. }
  rewrite !(proj2 (existsb_false_forall _ _)).
  2,3: intros m Hin; apply bool_decide_eq_false, Hm; rewrite !elem_of_app; auto.
  simpl. unfold escapesGate. destruct (HasSuffix t cancelledSuffix); [done|]. simpl.
  unfold scoreboardRow. destruct (HasPrefix t #"branch-") eqn:Eb; [|done]. simpl. intros _.
  apply branch_leader in Eb as [Hb H7].
  apply orb_true_iff. rewrite Nat.eqb_eq, Nat.ltb_lt. rewrite Hl, length_fmap in *.
  destruct Hw as [?|[[?|Hne] _]]; [lia|lia|]. exfalso. apply Hne. by rewrite fmap_take.
Qed.

(** ** Quoted text *)

Definition escChars : gostr := #"\abfnrtvxuU0123456789cde" ++ [dquote].

Lemma hexDigit_esc n : hexDigit n ∈ escChars.
Proof.
  assert (H : forallb (λ x, x ∈? escChars) #"0123456789abcdef" = true) by reflexivity.
  rewrite forallb_elem in H. unfold hexDigit.
  destruct (nth_in_or_default (N.to_nat n) #"0123456789abcdef" (chr "0")) as [Hin| ->].
  - apply list_elem_of_In in Hin. specialize (H _ Hin). by bprop.
  - by apply (bool_decide_eq_true_1 (chr "0" ∈ escChars)).
Qed.

Lemma hexDigits_esc k r : Forall (λ x, x ∈ escChars) (hexDigits k r).
Proof. induction k; simpl; constructor; [apply hexDigit_esc|done]. Qed.

Section quoted.
Context (isPrint : rune → bool).

Lemma escaped_shape c :
  (appendEscapedRune isPrint c = [c] ∧ isPrint c = true ∧ c ≠ backslash) ∨
  ∃ tl, appendEscapedRune isPrint c = backslash :: tl ∧ Forall (λ x, x ∈ escChars) tl.
Proof using Type.
  assert (He : ∀ x l, x ∈? escChars = true → Forall (λ x, x ∈ escChars) l →
    Forall (λ x, x ∈ escChars) (x :: l)) by (intros; bprop; by constructor).
  pose proof (Forall_nil_2 (λ x, x ∈ escChars)) as Hnil.
  unfold appendEscapedRune. destruct (c =r dquote) eqn:E1.
  { bprop. subst. right. exists [dquote]. split; [done|]. by apply He. }
  destruct (c =r backslash) eqn:E2; cbn [orb].
  { bprop. subst. right. exists [backslash]. split; [done|]. by apply He. }
  bprop. destruct (isPrint c); [by left|right].
  unfold letterEscape.
  repeat match goal with |- context [match (if ?b then _ else _) with _ => _ end] => destruct b end;
    [by eexists; split; [reflexivity|apply He]..|].
  destruct (_ || _); [|cbv zeta; destruct (_ <? _)%N];
    (eexists; split; [reflexivity|apply He; [done|apply hexDigits_esc]]).
Qed.

Lemma quoted_prefix p s :
  backslash ∉ p → p `prefix_of` concat (appendEscapedRune isPrint <$> s) → p `prefix_of` s.
Proof using Type.
  revert s. induction p as [|x p IH]; intros s Hp; [intros; apply prefix_nil|].
  destruct s as [|c s]; [done|]. csimpl.
  destruct (escaped_shape c) as [(-> & _)|(tl & -> & _)]; simpl; intros Hpre;
    pose proof (prefix_cons_inv_1 _ _ _ _ Hpre) as ->; [|set_solver].
  apply prefix_cons, IH; [set_solver|]. by eapply prefix_cons_inv_2.
Qed.

(** Escaping cannot forge a text made of no escape characters. *)
Lemma quoted_Contains p s :
  p ≠ [] → (∀ x, x ∈ p → x ∉ escChars ∨ head p ≠ Some x) → backslash ∉ p → dquote ∉ p →
  Contains s p = false → Contains (Quote isPrint s) p = false.
Proof using Type.
  intros Hne Hh Hb Hd HC. unfold Quote.
  change (dquote :: ?a ++ ?b) with ([dquote] ++ a ++ b).
  rewrite Contains_app_disjoint by set_solver. rewrite Contains_app_sep by done.
  rewrite Contains_nil_l, orb_false_r by done.
  revert HC. induction s as [|c s IH]; [done|]. intros HC. simpl in HC.
  apply orb_false_elim in HC as [HP HC]. specialize (IH HC). csimpl.
  destruct (escaped_shape c) as [(Hc & _)|(tl & Hc & Htl)].
  - rewrite Hc. simpl. rewrite IH, orb_false_r. apply bool_decide_eq_false. intros Hpre.
    unfold HasPrefix in HP. bprop. apply HP, quoted_prefix; [done|]. csimpl. by rewrite Hc.
  - rewrite Hc. simpl. rewrite orb_false_intro; [done| |].
    + apply bool_decide_eq_false. intros [k Hk]. destruct p as [|x p]; [done|].
      simplify_eq/=. set_solver.
    + clear Hc. induction Htl as [|x tl Hx _ IHtl]; [done|]. simpl. rewrite IHtl, orb_false_r.
      apply bool_decide_eq_false. intros [k Hk]. destruct p as [|y p]; [done|].
      simplify_eq/=. destruct (Hh y ltac:(constructor)); done.
Qed.

Hypothesis isPrint_space : ∀ c, isPrint c = true → is_space c = true → c = space.

Lemma quoted_no_break s : Forall (λ c, is_space c = true → c = space) (Quote isPrint s).
Proof using isPrint_space.
  assert (HE : Forall (λ c, is_space c = true → c = space) escChars).
  { apply Forall_forall. intros c Hc.
    assert (H : existsb is_space escChars = false) by reflexivity.
    rewrite existsb_false_forall in H. by rewrite H. }
  rewrite Forall_forall in HE. unfold Quote. constructor; [done|].
  apply Forall_app. split; [|by repeat constructor].
  induction s as [|c s IH]; [constructor|]. csimpl. apply Forall_app. split; [|done].
  destruct (escaped_shape c) as [(-> & Hp & _)|(tl & -> & Htl)].
  - constructor; [by apply isPrint_space|constructor].
  - constructor; [done|]. eapply Forall_impl; [exact Htl|]. auto.
Qed.

Lemma quoted_informative s : fullyRedacted (Quote isPrint s) = false.
Proof using isPrint_space.
  assert (Hn : newline ∉ Quote isPrint s).
  { intros Hn. pose proof (quoted_no_break s) as HF. rewrite Forall_forall in HF.
    by specialize (HF _ Hn eq_refl). }
  unfold fullyRedacted. change (Quote isPrint s) with (Join [Quote isPrint s] [newline]).
  rewrite Split_Join; [|done|by repeat constructor]. cbn [forallb].
  rewrite andb_true_r, TrimSpace_id; [done|].
  split; intros x y Hxy; unfold Quote in Hxy; [by simplify_eq/=|].
  rewrite app_comm_cons in Hxy. by apply app_inj_tail in Hxy as [_ <-].
Qed.
End quoted.

(** ** Reading a fenced block back *)

(** Two texts without a fence, each followed by a closing fence line, agree. *)
Lemma closing_unique (fence : gostr) a1 a2 r1 r2 :
  fence ≠ [] → newline ∉ fence →
  Contains a1 fence = false → Contains a2 fence = false →
  a1 ++ newline :: fence ++ r1 = a2 ++ newline :: fence ++ r2 →
  length a1 ≤ length a2 → a1 = a2 ∧ r1 = r2.
Proof.
  intros Hne Hnl H1 H2 E Hlen.
  assert (Hz : ∃ z, a2 = a1 ++ z).
  { destruct (app_eq_inv _ _ _ _ E) as [(k & -> & _)|(k & -> & _)]; [|by exists k].
    rewrite length_app in Hlen. destruct k; [|simpl in Hlen; lia].
    exists []. by rewrite !app_nil_r. }
  destruct Hz as [z ->]. rewrite <-app_assoc in E. apply app_inv_head in E.
  destruct z as [|n z]; simpl in E.
  { injection E as E. apply app_inv_head in E. by rewrite app_nil_r. }
  injection E as <- E. exfalso.
  rewrite Contains_app_sep in H2 by done. apply orb_false_elim in H2 as [_ H2].
  rewrite Contains_false in H2.
  destruct (app_eq_inv _ _ _ _ E) as [(k & Hk & E')|(k & -> & _)].
  - destruct k as [|x k].
    + rewrite app_nil_r in Hk. apply (H2 [] []). by rewrite app_nil_r.
    + injection E' as <- _. apply Hnl. rewrite Hk. apply elem_of_app. right. constructor.
  - by apply (H2 [] k).
Qed.

(** * Properties *)

(** C27. A fenced block cannot be broken out of: the enclosed text never contains
    the fence, so a reader recovers the block from any text it heads; two blocks
    followed by anything agree only if their neutralised bodies and what follows
    agree. *)
Theorem fence_unforgeable body1 body2 rest1 rest2 :
  Contains (NeutraliseFraming body1) UntrustedFence = false ∧
  (FenceUntrusted body1 ++ rest1 = FenceUntrusted body2 ++ rest2 →
   NeutraliseFraming body1 = NeutraliseFraming body2 ∧ rest1 = rest2).
Proof.
  split; [apply neutralise_no_fence|]. unfold FenceUntrusted, WriteUntrustedBlock.
  rewrite !app_nil_l, <-!app_assoc. intros E. do 2 apply app_inv_head in E.
  pose proof (neutralise_no_fence body1 surfaceAll) as H1.
  pose proof (neutralise_no_fence body2 surfaceAll) as H2. fold (NeutraliseFraming body1) in H1.
  fold (NeutraliseFraming body2) in H2.
  destruct (Nat.le_ge_cases (length (NeutraliseFraming body1)) (length (NeutraliseFraming body2)))
    as [Hl|Hl]; [|symmetry in E];
    
    eapply (closing_unique UntrustedFence) in E as [? Hr]; auto with go; injection Hr; auto.
Qed.

(** The whole-string fast path is an optimisation only: on every text and
    surface the result is what the replace, fold, split, match and join passes
    give. *)
Theorem fast_path_equivalent s surf :
  neutraliseFramingOn s surf =
  Join ((λ ln, if lineMayBeHeader ln && framingHeaderOn (ToLower (canonLine ln)) surf
               then redactedFraming else ln)
        <$> Split (lineBreaksReplace (ReplaceAll s UntrustedFence redactedMarker)) newline) [newline].
Proof.
  rewrite fast_path_slow. unfold neutraliseSlow. f_equal. apply list_fmap_ext. intros i ln _.
  unfold neutraliseLine. by destruct (lineMayBeHeader ln).
Qed.

(** Neutralising neutralised text changes nothing, on every surface. *)
Theorem neutralise_idempotent s surf :
  neutraliseFramingOn (neutraliseFramingOn s surf) surf = neutraliseFramingOn s surf.
Proof. rewrite !fast_path_slow. apply slow_idemp. Qed.

(** No forged section header survives in ASCII text: a line of the output
    whose canonical form is a header of the surface belongs to one of the two
    families the candidate gate does not admit (the cancelled-branches suffix,
    and scoreboard rows whose leading word has 7 or more than 12 runes). *)
Theorem ascii_headers_neutralised s surf ln :
  Forall ascii s →
  ln ∈ Split (neutraliseFramingOn s surf) newline →
  framingHeaderOn (ToLower (canonLine ln)) surf = true →
  escapesGate (ToLower (canonLine ln)) = true.
Proof.
  intros Ha. rewrite fast_path_slow, output_lines. intros (ln' & -> & Hin)%list_elem_of_fmap.
  assert (Hln : Forall ascii ln').
  { eapply (foldedLines_Forall ascii); [done| |done|done].
    apply Forall_forall. intros c Hc.
    assert (H : forallb (λ c, c <? 128)%N redactedMarker = true) by reflexivity.
    rewrite forallb_elem in H. apply N.ltb_lt. auto. }
  assert (Hnl : newline ∉ ln').
  { pose proof (Split_nosep newline (lineBreaksReplace (ReplaceAll s UntrustedFence redactedMarker)))
      as HF. rewrite Forall_forall in HF. auto. }
  unfold neutraliseLine. destruct (lineMayBeHeader ln') eqn:Eg; cbn [negb];
    [|by apply gate_complete].
  destruct (framingHeaderOn (ToLower (canonLine ln')) surf) eqn:Em; [|by rewrite Em].
  rewrite redacted_not_header. done.
Qed.

Lemma ascii_headers_neutralised_witness :
  escapesGate (ToLower (canonLine #"and 2 other branch(es) cancelled or not selected.)")) = true.
Proof.
  apply (ascii_headers_neutralised #"and 2 other branch(es) cancelled or not selected.)" surfaceAll).
  - repeat constructor.
  - vm_compute. left.
  - reflexivity.
Defined.

(** The delegation-result floor: the returned text never contains the fence,
    a non-blank text keeps at least one informative line, and when it is not the
    neutralised text itself it has no rune that breaks a line.  ([isPrint] is
    [strconv.IsPrint], whose only printable space is U+0020.) *)
Theorem delegation_floor isPrint s :
  (∀ c, isPrint c = true → is_space c = true → c = space) →
  let out := NeutraliseDelegationResult isPrint s in
  Contains out UntrustedFence = false ∧
  (TrimSpace s ≠ [] → fullyRedacted out = false) ∧
  (out = neutraliseFramingOn s surfaceResult ∨
   Forall (λ c, c ≠ newline ∧ isBreak c = false) out).
Proof.
  intros Hp. cbv zeta. unfold NeutraliseDelegationResult. case_bool.
  - split_and!; [apply neutralise_no_fence| |by left].
    intros Hs. rewrite bool_decide_false in E by done. simpl in E. by bprop.
  - split_and!; [|by intros _; apply quoted_informative|right].
    + apply quoted_Contains; auto with go; [| | |apply fence_replaced].
      * intros x Hx. destruct (decide (x = chr "<")) as [->|Hne]; [left|right; by intros [= <-]].
        by apply (bool_decide_eq_false_1 (chr "<" ∈ escChars)).
      * by apply (bool_decide_eq_false_1 (backslash ∈ UntrustedFence)).
      * by apply (bool_decide_eq_false_1 (dquote ∈ UntrustedFence)).
    + eapply Forall_impl; [by apply quoted_no_break|]. intros c Hc. simpl in Hc.
      split; [by intros ->; specialize (Hc eq_refl)|]. apply not_true_is_false.
      intros Hb. assert (is_space c = true) as Hs.
      { unfold isBreak in Hb. apply orb_true_iff in Hb as [Hb|Hb]; bprop; subst; [done|].
        rewrite !elem_of_cons in Hb. destruct Hb as [->|[->|[->|[->|[->|Hb]]]]]; try done.
        by apply not_elem_of_nil in Hb. }
      by rewrite (Hc Hs) in Hb.
Qed.

Lemma delegation_floor_witness :
  let out := NeutraliseDelegationResult (λ c, (32 <=? c) && (c <? 127))%N #"agentId: x" in
  fullyRedacted out = false ∧ out = [dquote] ++ #"agentId: x" ++ [dquote].
Proof.
  split; [|reflexivity].
  apply (delegation_floor (λ c, (32 <=? c) && (c <? 127))%N #"agentId: x").
  - intros c Hc. bprop. intros Hs. apply (plain_space c); [|done]. unfold plain.
    rewrite N.leb_le, N.ltb_lt in *. lia.
  - done.
Defined.

(** ** What the gate lets through *)

(** A marker after a no-break space is recognised by the matcher, but its line
    is ruled out by the candidate gate and survives. *)
Example nbsp_header_survives :
  let ln := 160%N :: #"agentId: subagent-1" in
  framingHeader (ToLower (canonLine ln)) = true ∧ NeutraliseFraming ln = ln.
Proof. split; reflexivity. Qed.

Example kelvin_header_survives :
  let ln := #"tas" ++ 8490%N :: #" to classify:" in
  framingHeader (ToLower (canonLine ln)) = true ∧ NeutraliseFraming ln = ln.
Proof. split; reflexivity. Qed.

Example long_branch_row_survives :
  let ln := #"branch-000001 [OK] tests pass" in
  framingHeader (ToLower (canonLine ln)) = true ∧ NeutraliseFraming ln = ln.
Proof. split; reflexivity. Qed.

Example cancelled_suffix_survives :
  let ln := #"and 2 other branch(es) cancelled or not selected.)" in
  framingHeader (ToLower (canonLine ln)) = true ∧ NeutraliseFraming ln = ln.
Proof. split; reflexivity. Qed.
