(* ===== verification/Team.v ===== *)
(** * The team coordination aggregate

    [engine/team/team.go]: roster, dependency-aware task list, mailbox and
    findings ledger of one agent team.  Every Go method runs under one mutex, so
    a concurrent execution is a sequence of the operations below.  The Go maps
    are gmaps; a pointer stored in a map is the value it points to, since no
    method lets one escape (queries return copies).  A method that would
    dereference a missing map entry panics in Go; here it returns [None].
    Error values are their sentinels. *)

From stdpp Require Import pretty sorting.
From S2P Require Import Prelude.

(** ** Data *)

Definition OperatorSender : gostr := #"operator".

Definition MaxTasks : nat := 512.
Definition MaxInboxMessages : nat := 256.
Definition MaxMembers : nat := 32.
Definition MaxFindings : nat := 512.

Inductive TeamError :=
  | ErrMemberExists | ErrUnknownMember | ErrUnknownTask | ErrTaskNotClaimable | ErrTaskState
  | ErrReservedName | ErrUnknownSender | ErrTooManyTasks | ErrTooManyMessages
  | ErrTooManyMembers | ErrTooManyFindings.

Inductive MemberState := MemberSpawning | MemberWorking | MemberIdle | MemberStopped.
Inductive TaskState := TaskPending | TaskInProgress | TaskCompleted.

#[global] Instance MemberState_eq_dec : EqDecision MemberState.
Proof. solve_decision. Defined.
#[global] Instance TaskState_eq_dec : EqDecision TaskState.
Proof. solve_decision. Defined.
#[global] Instance TeamError_eq_dec : EqDecision TeamError.
Proof. solve_decision. Defined.

Abbreviation TaskID := gostr (only parsing).

Record Member := mkMember {
  MName : gostr; MAgentType : gostr; MSession : gostr; MState : MemberState
}.

Record Task := mkTask {
  TID : TaskID; TDescription : gostr; TDeps : list TaskID; TAssignee : gostr; TState : TaskState
}.

Record Message := mkMessage { MsgSeq : Z; MsgFrom : gostr; MsgTo : gostr; MsgBody : gostr }.

Record Finding := mkFinding { FSeq : Z; FMember : gostr; FBody : gostr }.

Record Team := mkTeam {
  name : gostr;
  members : gmap gostr Member;
  memOrder : list gostr;
  tasks : gmap TaskID Task;
  taskOrder : list TaskID;
  inbox : gmap gostr (list Message);
  findings : list Finding;
  nextTaskN : Z;
  nextMsg : Z;
  nextFind : Z
}.

(** A 64-bit [int] increment. *)
Definition incr64 (n : Z) : Z := wrap64 (n + 1).

(** [fmt.Sprintf("task-%d", n)] *)
Definition taskID (n : Z) : TaskID := #"task-" ++ lit (pretty n).

Definition setMembers (t : Team) ms mo :=
  mkTeam (name t) ms mo (tasks t) (taskOrder t) (inbox t) (findings t)
    (nextTaskN t) (nextMsg t) (nextFind t).
Definition setTasks (t : Team) ts :=
  mkTeam (name t) (members t) (memOrder t) ts (taskOrder t) (inbox t) (findings t)
    (nextTaskN t) (nextMsg t) (nextFind t).
Definition setInbox (t : Team) ib nm :=
  mkTeam (name t) (members t) (memOrder t) (tasks t) (taskOrder t) ib (findings t)
    (nextTaskN t) nm (nextFind t).

(** ** Operations *)

Definition New (n : gostr) : Team := mkTeam n ∅ [] ∅ [] ∅ [] 0 0 0.

Definition isMember (t : Team) (n : gostr) : bool := bool_decide (is_Some (members t !! n)).

Definition AddMember (t : Team) (n agentType : gostr) : Team * option TeamError :=
  if n =s OperatorSender then (t, Some ErrReservedName)
  else if isMember t n then (t, Some ErrMemberExists)
  else if MaxMembers <=? size (members t) then (t, Some ErrTooManyMembers)
  else (setMembers t (<[n := mkMember n agentType [] MemberSpawning]> (members t))
          (memOrder t ++ [n]), None).

(** The loop that drops the first occurrence of a name. *)
Fixpoint dropFirst (n : gostr) (l : list gostr) : list gostr :=
  match l with
  | [] => []
  | x :: l' => if x =s n then l' else x :: dropFirst n l'
  end.

Definition RemoveMember (t : Team) (n : gostr) : Team :=
  if negb (isMember t n) then t
  else setInbox (setMembers t (delete n (members t)) (dropFirst n (memOrder t)))
         (delete n (inbox t)) (nextMsg t).

Definition SetMemberSession (t : Team) (n sid : gostr) : Team * option TeamError :=
  match members t !! n with
  | None => (t, Some ErrUnknownMember)
  | Some m => (setMembers t (<[n := mkMember (MName m) (MAgentType m) sid (MState m)]> (members t))
                 (memOrder t), None)
  end.

Definition SetMemberState (t : Team) (n : gostr) (st : MemberState) : Team * option TeamError :=
  match members t !! n with
  | None => (t, Some ErrUnknownMember)
  | Some m => (setMembers t (<[n := mkMember (MName m) (MAgentType m) (MSession m) st]> (members t))
                 (memOrder t), None)
  end.

Definition Members (t : Team) : option (list Member) := mapM (λ n, members t !! n) (memOrder t).

Definition CreateTask (t : Team) (description : gostr) (deps : list TaskID)
    : Team * (TaskID + TeamError) :=
  if MaxTasks <=? size (tasks t) then (t, inr ErrTooManyTasks)
  else if negb (forallb (λ d, bool_decide (is_Some (tasks t !! d))) deps) then (t, inr ErrUnknownTask)
  else
    let n := incr64 (nextTaskN t) in
    let id := taskID n in
    (mkTeam (name t) (members t) (memOrder t)
       (<[id := mkTask id description deps [] TaskPending]> (tasks t)) (taskOrder t ++ [id])
       (inbox t) (findings t) n (nextMsg t) (nextFind t), inl id).

Definition depCompleted (t : Team) (d : TaskID) : bool :=
  match tasks t !! d with Some dep => TState dep =s TaskCompleted | None => false end.

Definition claimableLocked (t : Team) (task : Task) : bool :=
  if negb (TState task =s TaskPending) || negb (TAssignee task =s []) then false
  else forallb (depCompleted t) (TDeps task).

Definition assign (task : Task) (member : gostr) : Task :=
  mkTask (TID task) (TDescription task) (TDeps task) member TaskInProgress.

(** The scan of [ClaimNext]; the outer [None] is the nil dereference. *)
Fixpoint claimLoop (t : Team) (member : gostr) (ids : list TaskID) : option (Team * option Task) :=
  match ids with
  | [] => Some (t, None)
  | id :: ids' =>
      match tasks t !! id with
      | None => None
      | Some task =>
          if claimableLocked t task
          then let task := assign task member in
               Some (setTasks t (<[id := task]> (tasks t)), Some task)
          else claimLoop t member ids'
      end
  end.

Definition ClaimNext (t : Team) (member : gostr) : option (Team * (option Task + TeamError)) :=
  if negb (isMember t member) then Some (t, inr ErrUnknownMember)
  else match claimLoop t member (taskOrder t) with
       | Some (t', r) => Some (t', inl r)
       | None => None
       end.

Definition ClaimTask (t : Team) (id : TaskID) (member : gostr) : Team * option TeamError :=
  if negb (isMember t member) then (t, Some ErrUnknownMember)
  else match tasks t !! id with
       | None => (t, Some ErrUnknownTask)
       | Some task =>
           if negb (claimableLocked t task) then (t, Some ErrTaskNotClaimable)
           else (setTasks t (<[id := assign task member]> (tasks t)), None)
       end.

Definition CompleteTask (t : Team) (id : TaskID) (member : gostr) : Team * option TeamError :=
  match tasks t !! id with
  | None => (t, Some ErrUnknownTask)
  | Some task =>
      if negb (TState task =s TaskInProgress) || negb (TAssignee task =s member)
      then (t, Some ErrTaskState)
      else (setTasks t (<[id := mkTask (TID task) (TDescription task) (TDeps task) (TAssignee task)
                                 TaskCompleted]> (tasks t)), None)
  end.

Definition holds (member : gostr) (task : Task) : bool :=
  TState task =s TaskInProgress && TAssignee task =s member.

Definition releaseTask (member : gostr) (task : Task) : Task :=
  if holds member task then mkTask (TID task) (TDescription task) (TDeps task) [] TaskPending
  else task.

Definition ReleaseTasks (t : Team) (member : gostr) : Team :=
  setTasks t (releaseTask member <$> tasks t).

Definition InProgressFor (t : Team) (member : gostr) : bool :=
  existsb (λ kv, holds member kv.2) (map_to_list (tasks t)).

Definition Tasks (t : Team) : option (list Task) := mapM (λ id, tasks t !! id) (taskOrder t).

Definition inboxOf (t : Team) (n : gostr) : list Message := default [] (inbox t !! n).

Definition Send (t : Team) (from to body : gostr) : Team * option TeamError :=
  if negb (from =s OperatorSender) && negb (isMember t from) then (t, Some ErrUnknownSender)
  else if negb (isMember t to) then (t, Some ErrUnknownMember)
  else if MaxInboxMessages <=? length (inboxOf t to) then (t, Some ErrTooManyMessages)
  else
    let n := incr64 (nextMsg t) in
    (setInbox t (<[to := inboxOf t to ++ [mkMessage n from to body]]> (inbox t)) n, None).

Definition Drain (t : Team) (member : gostr) : Team * (list Message + TeamError) :=
  if negb (isMember t member) then (t, inr ErrUnknownMember)
  else (setInbox t (delete member (inbox t)) (nextMsg t), inl (inboxOf t member)).

Definition AppendFinding (t : Team) (member body : gostr) : Team * option TeamError :=
  if negb (isMember t member) then (t, Some ErrUnknownMember)
  else if MaxFindings <=? length (findings t) then (t, Some ErrTooManyFindings)
  else
    let n := incr64 (nextFind t) in
    (mkTeam (name t) (members t) (memOrder t) (tasks t) (taskOrder t) (inbox t)
       (findings t ++ [mkFinding n member body]) (nextTaskN t) (nextMsg t) n, None).

Definition Findings (t : Team) : list Finding := findings t.

Definition Quiescent (t : Team) : bool :=
  forallb (λ kv, TState kv.2 =s TaskCompleted) (map_to_list (tasks t))
  && forallb (λ kv : gostr * list Message, length kv.2 =? 0) (map_to_list (inbox t))
  && forallb (λ kv, negb (MState kv.2 =s MemberWorking || MState kv.2 =s MemberSpawning))
       (map_to_list (members t)).

(** ** Histories *)

(** The mutators, as one value per call. *)
Inductive Op :=
  | OAddMember (n agentType : gostr)
  | ORemoveMember (n : gostr)
  | OSetMemberSession (n sid : gostr)
  | OSetMemberState (n : gostr) (st : MemberState)
  | OCreateTask (description : gostr) (deps : list TaskID)
  | OClaimNext (member : gostr)
  | OClaimTask (id : TaskID) (member : gostr)
  | OCompleteTask (id : TaskID) (member : gostr)
  | OReleaseTasks (member : gostr)
  | OSend (from to body : gostr)
  | ODrain (member : gostr)
  | OAppendFinding (member body : gostr).

Definition errOf {A} (r : A + TeamError) : option TeamError :=
  match r with inl _ => None | inr e => Some e end.

(** One call: the new state and the error; [None] is a panic. *)
Definition exec (t : Team) (op : Op) : option (Team * option TeamError) :=
  match op with
  | OAddMember n a => Some (AddMember t n a)
  | ORemoveMember n => Some (RemoveMember t n, None)
  | OSetMemberSession n s => Some (SetMemberSession t n s)
  | OSetMemberState n s => Some (SetMemberState t n s)
  | OCreateTask d ds => let '(t', r) := CreateTask t d ds in Some (t', errOf r)
  | OClaimNext m => match ClaimNext t m with
                    | Some (t', r) => Some (t', errOf r) | None => None end
  | OClaimTask i m => Some (ClaimTask t i m)
  | OCompleteTask i m => Some (CompleteTask t i m)
  | OReleaseTasks m => Some (ReleaseTasks t m, None)
  | OSend f to b => Some (Send t f to b)
  | ODrain m => let '(t', r) := Drain t m in Some (t', errOf r)
  | OAppendFinding m b => Some (AppendFinding t m b)
  end.

(** [reachable k t]: some interleaving of [k] calls on a new team leads to [t]. *)
Inductive reachable : nat → Team → Prop :=
  | reachable_new n : reachable 0 (New n)
  | reachable_step k t op t' e :
      reachable k t → exec t op = Some (t', e) → reachable (S k) t'.

(** * The well-formedness invariant *)

Record roster_ok (t : Team) : Prop := {
  roster_nodup : NoDup (memOrder t);
  roster_dom : dom (members t) = list_to_set (memOrder t);
  roster_name : ∀ n m, members t !! n = Some m → MName m = n;
  roster_operator : members t !! OperatorSender = None;
  roster_cap : length (memOrder t) ≤ MaxMembers
}.

(** What holds of one task of the list. *)
Record task_ok (ts : gmap TaskID Task) (id : TaskID) (task : Task) : Prop := {
  task_id : TID task = id;
  task_unclaimed : TState task = TaskPending → TAssignee task = [];
  task_owner : TState task ≠ TaskPending → TAssignee task ≠ OperatorSender;
  task_started : TState task ≠ TaskPending →
    ∀ d, d ∈ TDeps task → ∃ dep, ts !! d = Some dep ∧ TState dep = TaskCompleted;
  task_earlier : ∃ k, id = taskID k ∧ ∀ d, d ∈ TDeps task → ∃ j, d = taskID j ∧ (1 ≤ j < k)%Z
}.

Record tasks_ok (t : Team) : Prop := {
  tasks_count : (0 ≤ nextTaskN t ≤ Z.of_nat MaxTasks)%Z;
  tasks_order : taskOrder t = taskID <$> seqZ 1 (nextTaskN t);
  tasks_dom : dom (tasks t) = list_to_set (taskOrder t);
  tasks_each : ∀ id task, tasks t !! id = Some task → task_ok (tasks t) id task
}.

Record mail_ok (t : Team) : Prop := {
  mail_member : ∀ n msgs, inbox t !! n = Some msgs → is_Some (members t !! n);
  mail_cap : ∀ n msgs, inbox t !! n = Some msgs → length msgs ≤ MaxInboxMessages;
  mail_to : ∀ n msgs, inbox t !! n = Some msgs → Forall (λ m, MsgTo m = n) msgs
}.

Record findings_ok (t : Team) : Prop := {
  findings_count : (0 ≤ nextFind t ≤ Z.of_nat MaxFindings)%Z;
  findings_seq : FSeq <$> findings t = seqZ 1 (nextFind t);
  findings_member : Forall (λ f, FMember f ≠ OperatorSender) (findings t)
}.

Record wf (t : Team) : Prop := {
  wf_roster : roster_ok t;
  wf_tasks : tasks_ok t;
  wf_mail : mail_ok t;
  wf_findings : findings_ok t
}.

(** ** Identifiers *)

#[global] Instance taskID_inj : Inj (=) (=) taskID.
Proof. intros a b H. unfold taskID in H. apply app_inv_head, lit_inj in H. by apply (inj pretty). Qed.

Lemma taskOrder_nodup n : NoDup (taskID <$> seqZ 1 n).
Proof. apply NoDup_fmap_2; [apply _|apply NoDup_seqZ]. Qed.

Lemma incr64_small n : (0 ≤ n < 2 ^ 63 - 1)%Z → incr64 n = (n + 1)%Z.
Proof. unfold incr64. intros. apply wrap64_id. unfold int64. lia. Qed.

(** A map whose keys are listed without repetition has as many entries. *)
Lemma size_listed {A} (m : gmap gostr A) l :
  NoDup l → dom m = list_to_set l → size m = length l.
Proof. intros Hl Hd. by rewrite <-size_dom, Hd, size_list_to_set. Qed.

Lemma isMember_true t n : isMember t n = true ↔ is_Some (members t !! n).
Proof. apply bool_decide_eq_true. Qed.

Lemma isMember_not_operator t n : roster_ok t → isMember t n = true → n ≠ OperatorSender.
Proof. intros HR [m Hm]%isMember_true ->. by rewrite (roster_operator _ HR) in Hm. Qed.

Lemma tasks_size t : tasks_ok t → Z.of_nat (size (tasks t)) = nextTaskN t.
Proof.
  intros [Hc Ho Hd _]. rewrite (size_listed _ (taskOrder t)), Ho, length_fmap, length_seqZ; [lia| |done].
  rewrite Ho. apply taskOrder_nodup.
Qed.

Lemma tasks_in_order t id : tasks_ok t → id ∈ taskOrder t ↔ is_Some (tasks t !! id).
Proof.
  intros HT. rewrite <-elem_of_dom, (tasks_dom _ HT), elem_of_list_to_set. done.
Qed.

Lemma roster_in_order t n : roster_ok t → n ∈ memOrder t ↔ is_Some (members t !! n).
Proof. intros HR. by rewrite <-elem_of_dom, (roster_dom _ HR), elem_of_list_to_set. Qed.

(** ** Roster operations *)

Lemma dropFirst_elem n l x : NoDup l → x ∈ dropFirst n l ↔ x ∈ l ∧ x ≠ n.
Proof.
  induction 1 as [|y l Hy Hl IH]; simpl; [set_solver|].
  case_bool; bprop; set_solver.
Qed.

Lemma dropFirst_sublist n l : dropFirst n l `sublist_of` l.
Proof. induction l; simpl; [done|]. by case_bool; constructor. Qed.

Lemma roster_ok_ext t t' :
  members t' = members t → memOrder t' = memOrder t → roster_ok t → roster_ok t'.
Proof. intros Hm Ho []. split; rewrite ?Hm, ?Ho; auto. Qed.

Lemma tasks_ok_ext t t' :
  tasks t' = tasks t → taskOrder t' = taskOrder t → nextTaskN t' = nextTaskN t →
  tasks_ok t → tasks_ok t'.
Proof. intros H1 H2 H3 []. split; rewrite ?H1, ?H2, ?H3; auto. Qed.

Lemma mail_ok_ext t t' :
  (∀ n, is_Some (members t !! n) → is_Some (members t' !! n)) → inbox t' = inbox t →
  mail_ok t → mail_ok t'.
Proof. intros Hm Hi []. split; rewrite ?Hi; eauto. Qed.

Lemma findings_ok_ext t t' :
  findings t' = findings t → nextFind t' = nextFind t → findings_ok t → findings_ok t'.
Proof. intros H1 H2 []. split; rewrite ?H1, ?H2; auto. Qed.

(** Close the components an operation does not touch. *)
Ltac untouched :=
  try (eapply roster_ok_ext; [..|by eapply wf_roster]; done);
  try (eapply tasks_ok_ext; [..|by eapply wf_tasks]; done);
  try (eapply findings_ok_ext; [..|by eapply wf_findings]; done).

Lemma AddMember_wf t n a : wf t → wf (AddMember t n a).1.
Proof.
  intros Hwf. unfold AddMember. repeat case_bool; [done..|]. bprop. simpl.
  pose proof (wf_roster _ Hwf) as HR. assert (Hn : members t !! n = None).
  { destruct (members t !! n) eqn:En; [|done]. by rewrite (proj2 (isMember_true _ _)) in *. }
  split; untouched.
  - split; simpl.
    + apply NoDup_app. split; [apply HR|]. split; [|apply NoDup_singleton].
      intros x Hx ->%list_elem_of_singleton. apply roster_in_order in Hx as [? Hx]; [|done].
      by rewrite Hn in Hx.
    + rewrite dom_insert_L, (roster_dom _ HR). rewrite list_to_set_app_L. set_solver.
    + intros x m. rewrite lookup_insert_Some. intros [[<- <-]|[_ ?]]; [done|by apply HR].
    + rewrite lookup_insert_ne by done. apply HR.
    + rewrite length_app. simpl. apply Nat.leb_gt in E1.
      rewrite (size_listed _ (memOrder t)) in E1 by apply HR. lia.
  - eapply mail_ok_ext; [..|by apply Hwf]; [|done]. simpl. intros x Hx.
    apply lookup_insert_is_Some. destruct (decide (n = x)); auto.
Qed.

Lemma RemoveMember_wf t n : wf t → wf (RemoveMember t n).
Proof.
  intros Hwf. unfold RemoveMember. case_bool; [done|]. pose proof (wf_roster _ Hwf) as HR.
  split; untouched.
  - split; simpl.
    + eapply sublist_NoDup; [apply HR|apply dropFirst_sublist].
    + rewrite dom_delete_L, (roster_dom _ HR). apply set_eq. intros x.
      rewrite elem_of_difference, !elem_of_list_to_set, elem_of_singleton, dropFirst_elem by apply HR.
      done.
    + intros x m [_ ?]%lookup_delete_Some. by apply HR.
    + rewrite lookup_delete_None. right. apply HR.
    + etrans; [apply sublist_length, dropFirst_sublist|apply HR].
  - destruct (wf_mail _ Hwf). split; simpl; intros x msgs [Hne Hx]%lookup_delete_Some; eauto.
    rewrite lookup_delete_ne by done. eauto.
Qed.

(** Both per-member setters replace a record under its own name. *)
Lemma setMember_wf t n m m' :
  wf t → members t !! n = Some m → MName m' = MName m →
  wf (setMembers t (<[n := m']> (members t)) (memOrder t)).
Proof.
  intros Hwf Hn Hm. pose proof (wf_roster _ Hwf) as HR. split; untouched.
  - split; simpl; try apply HR.
    + rewrite dom_insert_lookup_L by eauto. apply HR.
    + intros x y [[<- <-]|[_ ?]]%lookup_insert_Some; [|by apply HR].
      rewrite Hm. by apply HR.
    + rewrite lookup_insert_ne; [apply HR|]. intros ->. by rewrite (roster_operator _ HR) in Hn.
  - eapply mail_ok_ext; [..|by apply Hwf]; [|done]. simpl. intros x Hx.
    apply lookup_insert_is_Some. destruct (decide (n = x)); auto.
Qed.

Lemma SetMemberSession_wf t n s : wf t → wf (SetMemberSession t n s).1.
Proof. intros. unfold SetMemberSession. case_match; [|done]. by eapply setMember_wf. Qed.

Lemma SetMemberState_wf t n s : wf t → wf (SetMemberState t n s).1.
Proof. intros. unfold SetMemberState. case_match; [|done]. by eapply setMember_wf. Qed.

(** ** Task operations *)

Lemma seqZ_snoc n : (0 ≤ n)%Z → seqZ 1 (n + 1) = seqZ 1 n ++ [(n + 1)%Z].
Proof.
  intros. rewrite seqZ_app by lia. f_equal. rewrite seqZ_cons, seqZ_nil by lia. f_equal. lia.
Qed.

(** A step from one task list to another keeps completed tasks completed and
    every task's identity and dependencies. *)
Definition task_progress (old new : Task) : Prop :=
  TID new = TID old ∧ TDeps new = TDeps old ∧ (TState old = TaskCompleted → new = old).

Lemma task_progress_refl task : task_progress task task.
Proof. done. Qed.

#[export] Hint Resolve task_progress_refl : go.

(** Rewriting one task in place. *)
Lemma updateTask_wf t id task task' :
  wf t → tasks t !! id = Some task → task_progress task task' →
  (TState task' = TaskPending → TAssignee task' = []) →
  (TState task' ≠ TaskPending → TAssignee task' ≠ OperatorSender) →
  (TState task' ≠ TaskPending →
    ∀ d, d ∈ TDeps task → ∃ dep, tasks t !! d = Some dep ∧ TState dep = TaskCompleted) →
  wf (setTasks t (<[id := task']> (tasks t))).
Proof.
  intros Hwf Hid (Hi & Hd & Hc) Hun Hown Hst. pose proof (wf_tasks _ Hwf) as HT.
  assert (Hdone : ∀ d, (∃ dep, tasks t !! d = Some dep ∧ TState dep = TaskCompleted) →
    ∃ dep, <[id:=task']> (tasks t) !! d = Some dep ∧ TState dep = TaskCompleted).
  { intros d (dep & Hdep & Hs). destruct (decide (id = d)) as [<-|].
    - rewrite lookup_insert_eq. exists task'. split; [done|]. simplify_eq. by rewrite Hc.
    - rewrite lookup_insert_ne by done. eauto. }
  split; untouched; [|eapply mail_ok_ext; [..|by apply Hwf]; done].
  split; simpl; try apply HT.
  - rewrite dom_insert_lookup_L by eauto. apply HT.
  - intros x y [[<- <-]|[_ Hx]]%lookup_insert_Some.
    + destruct (tasks_each _ HT _ _ Hid). split; auto; [congruence|..]; rewrite Hd; auto.
    + destruct (tasks_each _ HT _ _ Hx). split; auto.
Qed.

Lemma claimable_spec t task :
  claimableLocked t task = true ↔
  TState task = TaskPending ∧ TAssignee task = [] ∧
  ∀ d, d ∈ TDeps task → ∃ dep, tasks t !! d = Some dep ∧ TState dep = TaskCompleted.
Proof.
  unfold claimableLocked. case_bool.
  - split; [done|]. intros (H1 & H2 & _). rewrite H1, H2 in E. done.
  - bprop. rewrite forallb_elem. unfold depCompleted. split.
    + intros HF. split_and!; [done..|]. intros d Hd. specialize (HF d Hd).
      destruct (tasks t !! d) as [dep|]; [|done]. bprop. eauto.
    + intros (_ & _ & HF) d Hd. destruct (HF d Hd) as (dep & -> & Hs). by apply bool_decide_eq_true.
Qed.

Lemma claim_wf t id task member :
  wf t → isMember t member = true → tasks t !! id = Some task → claimableLocked t task = true →
  wf (setTasks t (<[id := assign task member]> (tasks t))).
Proof.
  intros Hwf Hm Hid (Hp & Ha & Hdeps)%claimable_spec.
  eapply updateTask_wf; eauto; simpl.
  - split_and!; [done..|]. by rewrite Hp.
  - done.
  - intros _. by eapply isMember_not_operator; [apply Hwf|].
Qed.

Lemma ClaimTask_wf t id m : wf t → wf (ClaimTask t id m).1.
Proof.
  intros. unfold ClaimTask. case_bool; [done|]. destruct (tasks t !! id) eqn:?; [|done].
  case_bool; [done|]. bprop. by eapply claim_wf.
Qed.

(** [ClaimNext] scans to the first claimable task. *)
Lemma claimLoop_spec t member ids :
  (∀ id, id ∈ ids → is_Some (tasks t !! id)) →
  (claimLoop t member ids = Some (t, None) ∧
   ∀ id task, id ∈ ids → tasks t !! id = Some task → claimableLocked t task = false) ∨
  ∃ ids1 id ids2 task, ids = ids1 ++ id :: ids2 ∧ tasks t !! id = Some task ∧
    claimableLocked t task = true ∧
    (∀ id' task', id' ∈ ids1 → tasks t !! id' = Some task' → claimableLocked t task' = false) ∧
    claimLoop t member ids =
      Some (setTasks t (<[id := assign task member]> (tasks t)), Some (assign task member)).
Proof.
  induction ids as [|id ids IH]; intros Hids; simpl.
  { left. split; [done|]. intros id task Hin. by apply not_elem_of_nil in Hin. }
  destruct (Hids id) as [task Htask]; [constructor|]. rewrite Htask.
  destruct (claimableLocked t task) eqn:Ec.
  { right. exists [], id, ids, task. split_and!; try done. intros ? ? Hin. by apply not_elem_of_nil in Hin. }
  destruct IH as [[-> Hno]|(ids1 & id' & ids2 & task' & -> & Ht' & Hc & Hno & ->)].
  { intros x Hx. apply Hids. by constructor. }
  - left. split; [done|]. intros x y [->|Hin]%elem_of_cons Hx; [congruence|eauto].
  - right. exists (id :: ids1), id', ids2, task'. split_and!; try done.
    intros x y [->|Hin]%elem_of_cons Hx; [congruence|eauto].
Qed.

Lemma ClaimNext_total t m : wf t → is_Some (ClaimNext t m).
Proof.
  intros Hwf. unfold ClaimNext. case_bool; [eauto|].
  destruct (claimLoop_spec t m (taskOrder t)) as [[-> _]|(? & ? & ? & ? & _ & _ & _ & _ & ->)]; eauto.
  intros id Hid. by apply tasks_in_order; [apply Hwf|].
Qed.

Lemma ClaimNext_wf t m t' r : wf t → ClaimNext t m = Some (t', r) → wf t'.
Proof.
  intros Hwf. unfold ClaimNext. case_bool; [by intros [= <- _]|]. bprop.
  destruct (claimLoop_spec t m (taskOrder t))
    as [[-> _]|(? & id & ? & task & _ & Hid & Hc & _ & ->)]; [|by intros [= <- _]|].
  - intros id Hid. by apply tasks_in_order; [apply Hwf|].
  - intros [= <- _]. by eapply claim_wf.
Qed.

Lemma CompleteTask_wf t id m : wf t → wf (CompleteTask t id m).1.
Proof.
  intros Hwf. unfold CompleteTask. destruct (tasks t !! id) as [task|] eqn:Hid; [|done].
  case_bool; [done|]. bprop. pose proof (tasks_each _ (wf_tasks _ Hwf) _ _ Hid) as HO.
  eapply updateTask_wf; eauto; simpl.
  - split_and!; [done..|]. by rewrite H.
  - done.
  - intros _. apply HO. by rewrite H.
  - intros _. apply HO. by rewrite H.
Qed.

Lemma releaseTask_progress m task : task_progress task (releaseTask m task).
Proof.
  unfold releaseTask, holds. case_bool; [|auto with go]. bprop. split_and!; [done..|].
  by rewrite H.
Qed.

Lemma ReleaseTasks_wf t m : wf t → wf (ReleaseTasks t m).
Proof.
  intros Hwf. pose proof (wf_tasks _ Hwf) as HT. unfold ReleaseTasks.
  split; untouched; [|eapply mail_ok_ext; [..|by apply Hwf]; done].
  split; simpl; try apply HT.
  - rewrite dom_fmap_L. apply HT.
  - intros id task' (task & Ht & Hid)%lookup_fmap_Some. subst task'.
    destruct (tasks_each _ HT _ _ Hid) as [Hi Hun Hown Hst He].
    destruct (releaseTask_progress m task) as (H1 & H2 & H3).
    split; rewrite ?H1, ?H2; auto; unfold releaseTask; case_bool; auto; simpl; try done.
    intros Hp d Hd. destruct (Hst Hp d Hd) as (dep & Hdep & Hs). rewrite lookup_fmap, Hdep.
    exists (releaseTask m dep). split; [done|]. by destruct (releaseTask_progress m dep) as (_ & _ & ->).
Qed.

Lemma CreateTask_fresh t : tasks_ok t → tasks t !! taskID (nextTaskN t + 1) = None.
Proof.
  intros HT. apply eq_None_not_Some. rewrite <-tasks_in_order, (tasks_order _ HT) by done.
  intros (k & Hk%(inj taskID) & Hin)%list_elem_of_fmap. apply elem_of_seqZ in Hin. lia.
Qed.

Lemma CreateTask_wf t d ds : wf t → wf (CreateTask t d ds).1.
Proof.
  intros Hwf. pose proof (wf_tasks _ Hwf) as HT. unfold CreateTask. repeat case_bool; [done..|].
  bprop. apply Nat.leb_gt in E. pose proof (tasks_size _ HT) as Hsz.
  pose proof (tasks_count _ HT) as Hc. assert (Hlt : (nextTaskN t < Z.of_nat MaxTasks)%Z) by lia.
  assert (HM : Z.of_nat MaxTasks = 512%Z) by done.
  simpl. rewrite incr64_small by lia. pose proof (CreateTask_fresh t HT) as Hfresh.
  rewrite forallb_elem in E0.
  split; untouched; [|eapply mail_ok_ext; [..|by apply Hwf]; done].
  split; simpl.
  - lia.
  - rewrite seqZ_snoc, fmap_app, <-(tasks_order _ HT) by lia. done.
  - rewrite dom_insert_L, (tasks_dom _ HT), list_to_set_app_L. set_solver.
  - intros id task [[<- <-]|[Hne Hid]]%lookup_insert_Some.
    + split; simpl; try done. exists (nextTaskN t + 1)%Z. split; [done|].
      intros x Hx. specialize (E0 x Hx). bprop. apply tasks_in_order in E0; [|done].
      rewrite (tasks_order _ HT) in E0. apply list_elem_of_fmap in E0 as (j & -> & Hj).
      apply elem_of_seqZ in Hj. exists j. split; [done|lia].
    + destruct (tasks_each _ HT _ _ Hid). split; auto. intros Hp x Hx.
      destruct (task_started0 Hp x Hx) as (dep & Hdep & Hs). exists dep. split; [|done].
      rewrite lookup_insert_ne; [done|]. intros <-. by rewrite Hfresh in Hdep.
Qed.

(** ** Mailbox and ledger operations *)

Lemma Send_wf t f to b : wf t → wf (Send t f to b).1.
Proof.
  intros Hwf. unfold Send. repeat case_bool; [done..|]. bprop. apply Nat.leb_gt in E1. simpl.
  split; untouched. destruct (wf_mail _ Hwf) as [Hm Hc Ht].
  assert (Hto : Forall (λ m, MsgTo m = to) (inboxOf t to)).
  { unfold inboxOf. destruct (inbox t !! to) eqn:Ei; simpl; eauto. }
  split; simpl; intros n msgs [[<- <-]|[_ ?]]%lookup_insert_Some; eauto.
  - by apply isMember_true.
  - rewrite length_app. simpl. lia.
  - apply Forall_app. auto.
Qed.

Lemma Drain_wf t m : wf t → wf (Drain t m).1.
Proof.
  intros Hwf. unfold Drain. case_bool; [done|]. simpl. split; untouched.
  destruct (wf_mail _ Hwf). split; simpl; intros n msgs [_ ?]%lookup_delete_Some; eauto.
Qed.

Lemma AppendFinding_wf t m b : wf t → wf (AppendFinding t m b).1.
Proof.
  intros Hwf. unfold AppendFinding. repeat case_bool; [done..|]. bprop. apply Nat.leb_gt in E0.
  destruct (wf_findings _ Hwf) as [Hc Hs Hm]. assert (HM : Z.of_nat MaxFindings = 512%Z) by done.
  assert (Hl : Z.of_nat (length (findings t)) = nextFind t).
  { rewrite <-(length_fmap FSeq), Hs, length_seqZ. lia. }
  simpl. rewrite incr64_small by lia.
  split; untouched; [eapply mail_ok_ext; [..|by apply Hwf]; done|].
  split; simpl; [lia| |].
  - by rewrite fmap_app, Hs, seqZ_snoc by lia.
  - apply Forall_app. split; [done|]. constructor; [|done]. simpl.
    by eapply isMember_not_operator; [apply Hwf|].
Qed.

#[export] Hint Resolve AddMember_wf RemoveMember_wf SetMemberSession_wf SetMemberState_wf
  CreateTask_wf ClaimTask_wf CompleteTask_wf ReleaseTasks_wf Send_wf Drain_wf AppendFinding_wf : go.

Lemma New_wf n : wf (New n).
Proof.
  split; split; simpl; try done; try (intros; by simplify_map_eq); try constructor; lia.
Qed.

Lemma exec_wf t op t' e : wf t → exec t op = Some (t', e) → wf t'.
Proof.
  intros Hwf. destruct op; simpl;
    try (intros [= H]; apply (f_equal fst) in H; simpl in H; subst t'; by auto with go);
    try (intros [= <- _]; by auto with go).
  - destruct (CreateTask t description deps) as [t1 r] eqn:E. intros [= <- _].
    replace t1 with (CreateTask t description deps).1 by (by rewrite E). auto with go.
  - destruct (ClaimNext t member) as [[t1 r]|] eqn:E; [|done]. intros [= <- _]. by eapply ClaimNext_wf.
  - destruct (Drain t member) as [t1 r] eqn:E. intros [= <- _].
    replace t1 with (Drain t member).1 by (by rewrite E). auto with go.
Qed.

Lemma reachable_wf k t : reachable k t → wf t.
Proof. induction 1; [apply New_wf|by eapply exec_wf]. Qed.

Lemma exec_total t op : wf t → is_Some (exec t op).
Proof.
  intros Hwf. destruct op; simpl; eauto.
  - destruct (CreateTask _ _ _). eauto.
  - destruct (ClaimNext_total t member Hwf) as [[] ->]. eauto.
  - destruct (Drain _ _). eauto.
Qed.

(** ** Progress *)

(** Tasks that are not completed yet. *)
Definition openTasks (t : Team) : gmap TaskID Task :=
  filter (λ kv, TState kv.2 ≠ TaskCompleted) (tasks t).

Definition idle (t : Team) : Prop := ∀ id task, tasks t !! id = Some task → TState task ≠ TaskInProgress.

(** With no task in progress, the earliest open task is claimable. *)
Lemma claimable_exists t :
  tasks_ok t → idle t → openTasks t ≠ ∅ →
  ∃ id task, id ∈ taskOrder t ∧ tasks t !! id = Some task ∧ claimableLocked t task = true.
Proof.
  intros HT Hidle (id0 & task0 & H0)%map_choose.
  apply map_lookup_filter_Some in H0 as [H0 Hopen0]. simpl in Hopen0.
  destruct (task_earlier _ _ _ (tasks_each _ HT _ _ H0)) as (k0 & -> & _).
  assert (Hk : (0 ≤ k0)%Z).
  { assert (Hin : taskID k0 ∈ taskOrder t) by (apply tasks_in_order; eauto).
    rewrite (tasks_order _ HT) in Hin. apply list_elem_of_fmap in Hin as (j & Hj%(inj taskID) & Hin).
    apply elem_of_seqZ in Hin. lia. }
  revert task0 H0 Hopen0. pattern k0. apply Z_lt_induction; [|done]. clear k0 Hk.
  intros k IH task Htask Hopen. pose proof (tasks_each _ HT _ _ Htask) as HO.
  assert (Hp : TState task = TaskPending).
  { destruct (TState task) eqn:E; [done|by destruct (Hidle _ _ Htask)|done]. }
  destruct (claimableLocked t task) eqn:Ec.
  { exists (taskID k), task. split_and!; [apply tasks_in_order; eauto|done..]. }
  (* some dependency is open, and it is earlier *)
  assert (∃ d, d ∈ TDeps task ∧ depCompleted t d = false) as (d & Hd & Hdc).
  { unfold claimableLocked in Ec. rewrite Hp, (task_unclaimed _ _ _ HO Hp) in Ec. simpl in Ec.
    destruct (decide (Exists (λ d, depCompleted t d = false) (TDeps task))) as [HE|HE].
    - apply Exists_exists in HE. done.
    - exfalso. rewrite <-not_true_iff_false in Ec. apply Ec, forallb_elem. intros d Hd.
      apply not_false_is_true. intros Hf. apply HE, Exists_exists. eauto. }
  destruct (task_earlier _ _ _ HO) as (k' & Hk'%(inj taskID) & Hearlier). subst k'.
  destruct (Hearlier d Hd) as (j & -> & Hj).
  assert (is_Some (tasks t !! taskID j)) as [dep Hdep].
  { apply tasks_in_order; [done|]. rewrite (tasks_order _ HT). apply list_elem_of_fmap.
    exists j. split; [done|]. apply elem_of_seqZ.
    assert (Hin : taskID k ∈ taskOrder t) by (apply tasks_in_order; eauto).
    rewrite (tasks_order _ HT) in Hin. apply list_elem_of_fmap in Hin as (i & Hi%(inj taskID) & Hin).
    apply elem_of_seqZ in Hin. lia. }
  apply (IH j ltac:(lia) dep Hdep). unfold depCompleted in Hdc. rewrite Hdep in Hdc. by bprop.
Qed.

Lemma ClaimNext_claims t m :
  wf t → isMember t m = true → idle t → openTasks t ≠ ∅ →
  ∃ id task, tasks t !! id = Some task ∧ claimableLocked t task = true ∧
    ClaimNext t m = Some (setTasks t (<[id := assign task m]> (tasks t)), inl (Some (assign task m))).
Proof.
  intros Hwf Hm Hidle Hopen. pose proof (wf_tasks _ Hwf) as HT.
  destruct (claimable_exists t HT Hidle Hopen) as (id & task & Hin & Hid & Hc).
  unfold ClaimNext. rewrite Hm. simpl.
  destruct (claimLoop_spec t m (taskOrder t)) as [[_ Hno]|(? & id' & ? & task' & _ & Hid' & Hc' & _ & ->)].
  - intros x Hx. by apply tasks_in_order.
  - by rewrite (Hno id task Hin Hid) in Hc.
  - eauto.
Qed.

(** One member working alone: claim, complete, repeat. *)
Fixpoint workLoop (fuel : nat) (t : Team) (m : gostr) : option Team :=
  match fuel with
  | O => Some t
  | S fuel' =>
      match ClaimNext t m with
      | Some (t', inl (Some task)) => workLoop fuel' (CompleteTask t' (TID task) m).1 m
      | Some (t', _) => Some t'
      | None => None
      end
  end.

(** Claiming and completing a claimable task closes exactly that task. *)
Lemma claim_complete t id task m :
  wf t → isMember t m = true → idle t → tasks t !! id = Some task → claimableLocked t task = true →
  let t' := (CompleteTask (setTasks t (<[id := assign task m]> (tasks t))) (TID task) m).1 in
  wf t' ∧ isMember t' m = true ∧ idle t' ∧ openTasks t' = delete id (openTasks t) ∧ id ∈ dom (openTasks t).
Proof.
  intros Hwf Hm Hidle Hid Hc. pose proof (claim_wf _ _ _ _ Hwf Hm Hid Hc) as Hwf1. cbv zeta.
  rewrite (task_id _ _ _ (tasks_each _ (wf_tasks _ Hwf) _ _ Hid)).
  split; [by apply CompleteTask_wf|]. unfold CompleteTask. simpl. rewrite lookup_insert_eq. simpl.
  rewrite !bool_decide_true by done. simpl. rewrite insert_insert_eq.
  apply claimable_spec in Hc as (Hp & _ & _). split_and!.
  - done.
  - intros x y. simpl. intros [[<- <-]|[_ ?]]%lookup_insert_Some; [done|eauto].
  - unfold openTasks. simpl. rewrite map_filter_insert_False by (simpl; naive_solver).
    by rewrite map_filter_delete.
  - unfold openTasks. apply elem_of_dom. exists task. apply map_lookup_filter_Some.
    split; [done|]. simpl. by rewrite Hp.
Qed.

Lemma workLoop_done fuel t m :
  wf t → isMember t m = true → idle t → size (openTasks t) ≤ fuel →
  ∃ t', workLoop fuel t m = Some t' ∧ openTasks t' = ∅.
Proof.
  revert t. induction fuel as [|fuel IH]; intros t Hwf Hm Hidle Hsz.
  { exists t. split; [done|]. apply map_size_empty_iff. lia. }
  simpl. destruct (decide (openTasks t = ∅)) as [He|Hne].
  - unfold ClaimNext. rewrite Hm. simpl.
    destruct (claimLoop_spec t m (taskOrder t)) as [[-> _]|(? & id & ? & task & _ & Hid & Hc & _ & _)].
    + intros x Hx. by apply tasks_in_order; [apply Hwf|].
    + eauto.
    + exfalso. destruct (claim_complete t id task m) as (_ & _ & _ & _ & Hin); [done..|].
      rewrite He in Hin. set_solver.
  - destruct (ClaimNext_claims t m) as (id & task & Hid & Hc & ->); [done..|].
    destruct (claim_complete t id task m) as (H1 & H2 & H3 & H4 & H5); [done..|].
    apply IH; [done..|]. simpl TID. rewrite H4, map_size_delete_Some; [lia|].
    by apply elem_of_dom.
Qed.

(** * Properties *)

(** The names in the order of [Members]. *)
Definition memberNames (t : Team) : option (list gostr) := option_map (map MName) (Members t).

(** The roster after a call: who joins comes last, who is removed leaves, the others keep
    their places. *)
Definition rosterAfter (names : list gostr) (op : Op) (e : option TeamError) : list gostr :=
  match op, e with
  | OAddMember n _, None => names ++ [n]
  | ORemoveMember n, _ => filter (λ x, x ≠ n) names
  | _, _ => names
  end.

Lemma memberNames_order t : roster_ok t → memberNames t = Some (memOrder t).
Proof.
  intros HR. unfold memberNames, Members. assert (Hin : ∀ n, n ∈ memOrder t → ∃ m, members t !! n = Some m ∧ MName m = n).
  { intros n Hn. apply (roster_in_order t n HR) in Hn as [m Hm]. exists m. split; [done|by eapply roster_name]. }
  induction (memOrder t) as [|n l IH]; [done|]. destruct (Hin n) as (m & Hm & Hname); [by left|]. cbn. rewrite Hm. cbn.
  destruct (mapM _ l) as [ms|]; cbn in *; (assert (IH' := IH ltac:(intros x Hx; apply Hin; by right))); [|done]. injection IH' as ->. by rewrite Hname.
Qed.

Lemma dropFirst_filter n l : NoDup l → dropFirst n l = filter (λ x, x ≠ n) l.
Proof.
  induction 1 as [|x l Hx Hl IH]; [done|]. cbn [dropFirst]. destruct (decide (x = n)) as [->|Hne].
  - rewrite bool_decide_true, filter_cons_False by tauto. clear IH Hl. induction l as [|y l IH]; [done|].
    apply not_elem_of_cons in Hx as [H1 H2]. by rewrite filter_cons_True, <-IH by done.
  - by rewrite bool_decide_false, filter_cons_True, IH by done.
Qed.

Lemma claimLoop_order t m ids t' r : claimLoop t m ids = Some (t', r) → memOrder t' = memOrder t.
Proof. induction ids as [|i ids IH]; cbn [claimLoop]; repeat case_match; intros; simplify_eq; auto. Qed.

Lemma exec_roster t op t' e : roster_ok t → exec t op = Some (t', e) → memOrder t' = rosterAfter (memOrder t) op e.
Proof.
  intros HR H. destruct op as [n a|n|n s|n st|d ds|m|i m|i m|m|f to b|m|m b]; cbn [exec rosterAfter] in *.
  - unfold AddMember in H. repeat case_match; by simplify_eq.
  - injection H as <- <-. unfold RemoveMember, isMember. case_bool; cbn [memOrder].
    + apply negb_true_iff, bool_decide_eq_false in E. rewrite <-roster_in_order in E by done. clear HR. induction (memOrder t) as [|x l IH]; [done|].
      apply not_elem_of_cons in E as [H1 H2]. by rewrite filter_cons_True, <-IH by done.
    + cbn. by apply dropFirst_filter, HR.
  - unfold SetMemberSession in H. repeat case_match; by simplify_eq.
  - unfold SetMemberState in H. repeat case_match; by simplify_eq.
  - unfold CreateTask in H. repeat case_match; by simplify_eq.
  - unfold ClaimNext in H. case_bool; [by simplify_eq|]. destruct (claimLoop t m (taskOrder t)) as [[t1 r]|] eqn:Ec; [|done].
    simplify_eq. by apply claimLoop_order in Ec.
  - unfold ClaimTask in H. repeat case_match; by simplify_eq.
  - unfold CompleteTask in H. repeat case_match; by simplify_eq.
  - by injection H as <- <-.
  - unfold Send in H. repeat case_match; by simplify_eq.
  - unfold Drain in H. repeat case_match; by simplify_eq.
  - unfold AppendFinding in H. repeat case_match; by simplify_eq.
Qed.

(** C15. Under any interleaving of calls the aggregate stays well formed and no
    call panics: the roster lists its members once each, within the cap, under their own
    names and never the operator, and in join order (each call leaves the listed names as
    they are, but that a member who joins comes last and one who is removed leaves);
    task ids are task-1 .. task-n within the cap, dependencies point to earlier tasks, a
    pending task has no assignee and a started task has its dependencies
    completed; inboxes belong to members, respect the cap and are addressed to
    them; findings are numbered 1 .. n within the cap; and both listings
    succeed. *)
Theorem team_invariant k t :
  reachable k t →
  wf t ∧ (∀ op, is_Some (exec t op)) ∧ is_Some (Tasks t) ∧
  ∃ names, memberNames t = Some names ∧ (k = 0 → names = []) ∧
    ∀ op t' e, exec t op = Some (t', e) → memberNames t' = Some (rosterAfter names op e).
Proof.
  intros Hr. pose proof (reachable_wf _ _ Hr) as H. split_and!; [done|by intros; apply exec_total| |].
  - apply mapM_is_Some, Forall_forall; intros x Hx. by apply tasks_in_order; [apply H|].
  - exists (memOrder t). split_and!; [by apply memberNames_order, H|intros ->; by inversion Hr|]. intros op t' e He.
    rewrite <-(exec_roster t op t' e (wf_roster _ H) He). apply memberNames_order. eapply wf_roster, reachable_wf. by econstructor.
Qed.

(** A short history used by the witnesses. *)
Definition sampleOps : list Op :=
  [ OAddMember #"lead" []; OAddMember #"dev" []; OCreateTask #"a" [];
    OCreateTask #"b" [ #"task-1" ]; OSend OperatorSender #"dev" #"hi"; OClaimNext #"dev" ].

Fixpoint runOps (t : Team) (ops : list Op) : option Team :=
  match ops with
  | [] => Some t
  | op :: ops' => match exec t op with Some (t', _) => runOps t' ops' | None => None end
  end.

Lemma runOps_reachable k t ops t' :
  reachable k t → runOps t ops = Some t' → reachable (length ops + k) t'.
Proof.
  revert k t. induction ops as [|op ops IH]; intros k t Hr; simpl; [by intros [= <-]|].
  destruct (exec t op) as [[t1 e]|] eqn:E; [|done]. intros H.
  rewrite <-Nat.add_succ_r. eapply IH; [|done]. by econstructor.
Qed.

Definition sampleTeam : Team := default (New []) (runOps (New #"t") sampleOps).

Lemma sampleTeam_reachable : reachable 6 sampleTeam.
Proof. apply (runOps_reachable 0 (New #"t") sampleOps); [constructor|]. vm_compute. reflexivity. Qed.

Lemma team_invariant_witness : wf sampleTeam.
Proof. apply (team_invariant 6 sampleTeam). apply sampleTeam_reachable. Defined.

(** ** Message numbering *)

(** Sequence numbers in an inbox increase strictly and stay below the counter. *)
Definition seqs_ok (t : Team) : Prop :=
  ∀ n msgs, inbox t !! n = Some msgs →
    StronglySorted Z.lt (MsgSeq <$> msgs) ∧ Forall (λ m, (1 ≤ MsgSeq m ≤ nextMsg t)%Z) msgs.

Lemma StronglySorted_snoc (l : list Z) x :
  StronglySorted Z.lt l → Forall (λ y, (y < x)%Z) l → StronglySorted Z.lt (l ++ [x]).
Proof.
  induction 1 as [|y l Hl IH Hy]; intros HF; simpl; [repeat constructor|].
  apply Forall_cons in HF as [Hyx HF]. constructor; [auto|]. apply Forall_app. auto.
Qed.

Lemma Send_seqs t f to b :
  (0 ≤ nextMsg t < 2 ^ 63 - 1)%Z → seqs_ok t →
  seqs_ok (Send t f to b).1 ∧ (nextMsg t ≤ nextMsg (Send t f to b).1 ≤ nextMsg t + 1)%Z.
Proof.
  intros Hn Hs. unfold Send. repeat case_bool; simpl; [split; [done|lia]..|].
  rewrite incr64_small by lia. split; [|lia].
  assert (Hto : StronglySorted Z.lt (MsgSeq <$> inboxOf t to) ∧
    Forall (λ m, (1 ≤ MsgSeq m ≤ nextMsg t)%Z) (inboxOf t to)).
  { unfold inboxOf. destruct (inbox t !! to) eqn:Ei; simpl; [by eapply Hs|repeat constructor]. }
  destruct Hto as [H1 H2]. intros n msgs. simpl.
  intros [[<- <-]|[_ Hx]]%lookup_insert_Some.
  - rewrite fmap_app. split.
    + apply StronglySorted_snoc; [done|]. apply Forall_fmap. eapply Forall_impl; [done|].
      simpl. lia.
    + apply Forall_app. split; [|repeat constructor; simpl; lia].
      eapply Forall_impl; [done|]. simpl. lia.
  - destruct (Hs _ _ Hx) as [? ?]. split; [done|]. eapply Forall_impl; [done|]. simpl. lia.
Qed.

(** Every other call leaves the counter alone and at most removes inboxes. *)
Lemma exec_mail t op t' e :
  exec t op = Some (t', e) →
  (∃ f to b, t' = (Send t f to b).1) ∨
  (nextMsg t' = nextMsg t ∧ ∀ n msgs, inbox t' !! n = Some msgs → inbox t !! n = Some msgs).
Proof.
  destruct op; simpl; try (intros [= H]; apply (f_equal fst) in H; simpl in H; subst t').
  all: try (left; eauto; fail).
  all: try (right; unfold AddMember, SetMemberSession, SetMemberState, ClaimTask, CompleteTask,
    AppendFinding; repeat case_match; done).
  - intros [= <- _]. right. unfold RemoveMember. case_bool; [done|]. simpl. split; [done|].
    by intros n' msgs [_ ?]%lookup_delete_Some.
  - unfold CreateTask. intros H. right. repeat case_match; by simplify_eq/=.
  - destruct (ClaimNext t member) as [[t1 r]|] eqn:E; [|done]. intros [= <- _]. right.
    revert E. unfold ClaimNext. case_bool; [by intros [= <- _]|].
    generalize (taskOrder t). intros ids. induction ids as [|id ids IH]; simpl; [by intros [= <- _]|].
    destruct (tasks t !! id); [|done]. case_bool; [by intros [= <- _]|done].
  - intros [= <- _]. by right.
  - unfold Drain. case_bool; intros [= <- _]; right; [done|]. simpl. split; [done|].
    by intros n' msgs [_ ?]%lookup_delete_Some.
Qed.

(** Message numbers witness delivery order: after any history of fewer than
    2^63 - 1 calls, the sequence numbers of each inbox are positive and strictly
    increasing, and none exceeds the counter (which does not overflow). *)
Theorem message_numbers_increase k t :
  reachable k t → (Z.of_nat k < 2 ^ 63 - 1)%Z →
  (0 ≤ nextMsg t ≤ Z.of_nat k)%Z ∧ seqs_ok t.
Proof.
  induction 1 as [n|k t op t' e Hr IH Hx]; intros Hk.
  { split; [done|]. intros n' msgs. simpl. by rewrite lookup_empty. }
  destruct (IH ltac:(lia)) as [Hn Hs]. destruct (exec_mail _ _ _ _ Hx) as [(f & to & b & ->)|[Hn' Hi]].
  - destruct (Send_seqs t f to b ltac:(lia) Hs). split; [lia|done].
  - rewrite Hn'. split; [lia|]. intros n msgs Hx'. rewrite Hn'. eauto.
Qed.

Lemma message_numbers_increase_witness : seqs_ok sampleTeam.
Proof.
  apply (message_numbers_increase 6 sampleTeam); [apply sampleTeam_reachable|reflexivity].
Defined.

(** ** Task ownership *)

(** How one call can change one existing task. *)
Inductive task_change (op : Op) (id : TaskID) (task : Task) : Task → Prop :=
  | change_none : task_change op id task task
  | change_claim m : TState task = TaskPending → op = OClaimNext m ∨ op = OClaimTask id m →
      task_change op id task (assign task m)
  | change_complete m : op = OCompleteTask id m → TState task = TaskInProgress → TAssignee task = m →
      task_change op id task (mkTask (TID task) (TDescription task) (TDeps task) m TaskCompleted)
  | change_release m : op = OReleaseTasks m → TState task = TaskInProgress → TAssignee task = m →
      task_change op id task (mkTask (TID task) (TDescription task) (TDeps task) [] TaskPending).

#[local] Hint Constructors task_change : core.

Lemma insert_change (P : Task → Prop) (ts : gmap TaskID Task) id0 new id task :
  ts !! id = Some task → (id0 = id → P new) → P task →
  ∃ task', <[id0 := new]> ts !! id = Some task' ∧ P task'.
Proof.
  intros Hid Hn Ho. destruct (decide (id0 = id)) as [->|].
  - exists new. rewrite lookup_insert_eq. auto.
  - exists task. rewrite lookup_insert_ne by done. auto.
Qed.

Lemma exec_task_change t op t' e id task :
  wf t → exec t op = Some (t', e) → tasks t !! id = Some task →
  ∃ task', tasks t' !! id = Some task' ∧ task_change op id task task'.
Proof.
  intros Hwf Hx Hid. pose proof (wf_tasks _ Hwf) as HT. revert Hx.
  destruct op; simpl; try (intros [= H]; apply (f_equal fst) in H; simpl in H; subst t').
  all: try (unfold AddMember, SetMemberSession, SetMemberState, Send, AppendFinding;
    repeat case_match; eauto; done).
  - intros [= <- _]. unfold RemoveMember. case_bool; eauto.
  - unfold CreateTask. repeat case_bool; intros [= <- _]; simpl; eauto.
    eapply insert_change; [exact Hid| |auto]. intros Heq. exfalso.
    pose proof (CreateTask_fresh t HT) as Hf. apply Nat.leb_gt in E.
    pose proof (tasks_size _ HT). assert (Z.of_nat MaxTasks = 512%Z) by done.
    rewrite incr64_small in Heq by lia. by rewrite Heq, Hid in Hf.
  - destruct (ClaimNext t member) as [[t1 r]|] eqn:E; [|done]. intros [= <- _].
    revert E. unfold ClaimNext. case_bool; [intros [= <- _]; eauto|].
    destruct (claimLoop_spec t member (taskOrder t)) as [[-> _]|(? & i & ? & tk & _ & Hi & Hc & _ & ->)].
    + intros x Hx. by apply tasks_in_order.
    + intros [= <- _]; eauto.
    + intros [= <- _]. simpl. eapply insert_change; [exact Hid| |auto]. intros ->. simplify_eq.
      apply claimable_spec in Hc as [? _]. eauto.
  - unfold ClaimTask. case_bool; simpl; [eauto|]. destruct (tasks t !! id0) as [tk|] eqn:Hi; [|eauto].
    case_bool; simpl; [eauto|]. bprop. eapply insert_change; [exact Hid| |auto]. intros ->. simplify_eq.
    apply claimable_spec in E0 as [? _]. eauto.
  - unfold CompleteTask. destruct (tasks t !! id0) as [tk|] eqn:Hi; simpl; [|eauto].
    case_bool; simpl; [eauto|]. bprop. eapply insert_change; [exact Hid| |auto]. intros ->. simplify_eq.
    apply (change_complete _ _ _ (TAssignee task)); by f_equal.
  - intros [= <- _]. simpl. rewrite lookup_fmap, Hid. simpl. eexists. split; [done|].
    unfold releaseTask, holds. case_bool; [|auto]. bprop. by apply (change_release _ _ _ member).
  - unfold Drain. case_bool; intros [= <- _]; eauto.
Qed.

(** Ownership of a task is exclusive: while a member has a task in progress,
    every call either leaves the task exactly as it is, or is that member's own
    completion of it, or the release of that member's work; and once completed
    a task never changes again. *)
Theorem task_ownership_exclusive k t op t' e id task :
  reachable k t → exec t op = Some (t', e) → tasks t !! id = Some task →
  ∃ task', tasks t' !! id = Some task' ∧
    (TState task = TaskCompleted → task' = task) ∧
    (TState task = TaskInProgress →
       task' = task ∨
       (op = OCompleteTask id (TAssignee task) ∧ TState task' = TaskCompleted
          ∧ TAssignee task' = TAssignee task) ∨
       (op = OReleaseTasks (TAssignee task) ∧ TState task' = TaskPending)).
Proof.
  intros Hr%reachable_wf Hx Hid.
  destruct (exec_task_change _ _ _ _ _ _ Hr Hx Hid) as (task' & Ht' & Hc). exists task'.
  split; [done|]. destruct Hc; split; intros Hs; subst; try done; try congruence; auto 10.
Qed.

Lemma task_ownership_exclusive_witness :
  ∃ task', tasks (ReleaseTasks sampleTeam #"lead") !! #"task-1" = Some task' ∧ TState task' = TaskInProgress.
Proof.
  destruct (task_ownership_exclusive 6 sampleTeam (OReleaseTasks #"lead")
    (ReleaseTasks sampleTeam #"lead") None #"task-1"
    (mkTask #"task-1" #"a" [] #"dev" TaskInProgress)) as (task' & Ht & _ & Hc).
  - apply sampleTeam_reachable.
  - reflexivity.
  - vm_compute. reflexivity.
  - exists task'. split; [exact Ht|].
    destruct (Hc eq_refl) as [->|[(H & _)|(H & _)]]; [reflexivity|discriminate H..].
Defined.

(** [ClaimNext] hands out the first claimable task in creation order: it
    never panics; with an unknown member it fails and changes nothing; it
    reports nothing claimable exactly when no task is pending with completed
    dependencies; otherwise the claimed task is the earliest such task, is now
    in progress for the caller, and every other task is untouched. *)
Theorem claim_next_first k t m :
  reachable k t →
  ∃ t' r, ClaimNext t m = Some (t', r) ∧
  match r with
  | inr e => e = ErrUnknownMember ∧ isMember t m = false ∧ t' = t
  | inl None => t' = t ∧ ∀ id task, tasks t !! id = Some task → claimableLocked t task = false
  | inl (Some task') =>
      ∃ i task, taskOrder t !! i = Some (TID task') ∧ tasks t !! TID task' = Some task ∧
        claimableLocked t task = true ∧ task' = assign task m ∧
        (∀ j id0 task0, j < i → taskOrder t !! j = Some id0 → tasks t !! id0 = Some task0 →
           claimableLocked t task0 = false) ∧
        tasks t' = <[TID task' := task']> (tasks t)
  end.
Proof.
  intros Hr%reachable_wf. pose proof (wf_tasks _ Hr) as HT. unfold ClaimNext.
  destruct (isMember t m) eqn:Em; simpl; [|by exists t, (inr ErrUnknownMember)].
  destruct (claimLoop_spec t m (taskOrder t))
    as [[-> Hno]|(l1 & id & l2 & task & Ho & Hid & Hc & Hno & ->)].
  - intros x Hx. by apply tasks_in_order.
  - exists t, (inl None). split_and!; [done..|]. intros id task Hid. eapply Hno; [|done].
    apply tasks_in_order; eauto.
  - eexists _, (inl (Some _)). split; [done|]. simpl.
    rewrite (task_id _ _ _ (tasks_each _ HT _ _ Hid)).
    exists (length l1), task. split_and!; try done.
    + rewrite Ho. by apply list_lookup_middle.
    + intros j id0 task0 Hj Hj0 H0. eapply Hno; [|done].
      rewrite Ho, lookup_app_l in Hj0 by done. by eapply list_elem_of_lookup_2.
Qed.

Lemma claim_next_first_witness :
  ∃ t' r, ClaimNext sampleTeam #"lead" = Some (t', r) ∧ t' = sampleTeam.
Proof.
  destruct (claim_next_first 6 sampleTeam #"lead" sampleTeam_reachable) as (t' & r & H & Hr).
  exists t', r. split; [exact H|]. vm_compute in H. by simplify_eq.
Defined.

(** C33. Work never deadlocks: whenever no task is in progress, a single member
    that claims and completes in turn finishes every task, in at most as many
    rounds as there are open tasks, and no round panics. *)
Theorem work_completes k t m :
  reachable k t → isMember t m = true → idle t →
  ∃ t', workLoop (size (openTasks t)) t m = Some t' ∧
    ∀ id task, tasks t' !! id = Some task → TState task = TaskCompleted.
Proof.
  intros Hr%reachable_wf Hm Hi. destruct (workLoop_done (size (openTasks t)) t m) as (t' & H & He);
    [done..|]. exists t'. split; [done|]. intros id task Hid.
  apply dec_stable. intros Hn. assert (Hin : openTasks t' !! id = Some task).
  { by apply map_lookup_filter_Some. }
  by rewrite He in Hin.
Qed.

Lemma work_completes_witness :
  ∃ t', workLoop (size (openTasks (ReleaseTasks sampleTeam #"dev"))) (ReleaseTasks sampleTeam #"dev") #"lead"
    = Some t' ∧ ∀ id task, tasks t' !! id = Some task → TState task = TaskCompleted.
Proof.
  apply (work_completes 7).
  - eapply (reachable_step 6 sampleTeam (OReleaseTasks #"dev") _ None); [apply sampleTeam_reachable|done].
  - reflexivity.
  - intros id task Hid.
    assert (HF : map_Forall (λ _ tk, TState tk ≠ TaskInProgress) (tasks (ReleaseTasks sampleTeam #"dev")))
      by (apply (bool_decide_eq_true_1 _); vm_compute; reflexivity).
    exact (HF id task Hid).
Defined.

(** ** Delivery *)

(** Post a list of messages, in order, all to one member. *)
Definition sendAll (t : Team) (to : gostr) (ms : list (gostr * gostr)) : Team :=
  foldl (λ t fb, (Send t fb.1 to fb.2).1) t ms.

Definition accepted (t : Team) (fb : gostr * gostr) : Prop :=
  fb.1 = OperatorSender ∨ isMember t fb.1 = true.

Lemma Send_members t f to b : members (Send t f to b).1 = members t.
Proof. unfold Send. by repeat case_bool. Qed.

Lemma sendAll_inbox t to ms :
  isMember t to = true → Forall (accepted t) ms →
  length (inboxOf t to) + length ms ≤ MaxInboxMessages →
  (λ m, (MsgFrom m, MsgBody m)) <$> inboxOf (sendAll t to ms) to =
  ((λ m, (MsgFrom m, MsgBody m)) <$> inboxOf t to) ++ ms.
Proof.
  revert t. induction ms as [|[f b] ms IH]; intros t Hto Hms Hlen; [by rewrite app_nil_r|].
  apply Forall_cons in Hms as [Hf Hms]. simpl in Hlen.
  assert (HS : inboxOf (Send t f to b).1 to =
    inboxOf t to ++ [mkMessage (incr64 (nextMsg t)) f to b]).
  { unfold Send. rewrite Hto.
    assert (negb (f =s OperatorSender) && negb (isMember t f) = false) as ->.
    { destruct Hf as [Hf|Hf]; simpl in Hf; rewrite Hf; [done|by rewrite andb_false_r]. }
    cbn [negb]. rewrite (proj2 (Nat.leb_gt _ _)) by lia. cbn [fst]. unfold inboxOf at 1. simpl.
    by rewrite lookup_insert_eq. }
  change (sendAll t to ((f, b) :: ms)) with (sendAll (Send t f to b).1 to ms).
  rewrite IH.
  - rewrite HS, fmap_app, <-app_assoc. done.
  - unfold isMember in *. by rewrite Send_members.
  - eapply Forall_impl; [done|]. unfold accepted, isMember. intros x. by rewrite Send_members.
  - rewrite HS, length_app. simpl. lia.
Qed.

(** The mailbox is first-in first-out and at-most-once: accepted messages
    posted to a member are returned by its next [Drain] after the backlog, in
    posting order with their senders, within the cap; and a second [Drain]
    returns nothing. *)
Theorem send_drain_fifo t to ms :
  isMember t to = true → Forall (accepted t) ms →
  length (inboxOf t to) + length ms ≤ MaxInboxMessages →
  ∃ t' msgs, Drain (sendAll t to ms) to = (t', inl msgs) ∧
    (λ m, (MsgFrom m, MsgBody m)) <$> msgs =
      ((λ m, (MsgFrom m, MsgBody m)) <$> inboxOf t to) ++ ms ∧
    (Drain t' to).2 = inl [].
Proof.
  intros Hto Hms Hlen.
  assert (Hm : isMember (sendAll t to ms) to = true).
  { clear Hms Hlen. revert t Hto. induction ms as [|fb ms IH]; intros t Hto; [done|].
    apply IH. unfold isMember in *. by rewrite Send_members. }
  eexists _, _. unfold Drain. rewrite Hm. simpl. split; [done|].
  split; [by apply sendAll_inbox|]. unfold isMember in Hm |- *. simpl. rewrite Hm. simpl.
  unfold inboxOf. simpl. by rewrite lookup_delete_eq.
Qed.

Lemma send_drain_fifo_witness :
  ∃ t' msgs, Drain (sendAll sampleTeam #"dev" [(#"lead", #"x"); (OperatorSender, #"y")]) #"dev"
    = (t', inl msgs) ∧
    (λ m, (MsgFrom m, MsgBody m)) <$> msgs =
      [(OperatorSender, #"hi")] ++ [(#"lead", #"x"); (OperatorSender, #"y")] ∧
    (Drain t' #"dev").2 = inl [].
Proof.
  apply (send_drain_fifo sampleTeam #"dev" [(#"lead", #"x"); (OperatorSender, #"y")]).
  - reflexivity.
  - constructor; [right; reflexivity|]. constructor; [by left|constructor].
  - vm_compute. lia.
Defined.

(** A call that reports an error has changed nothing, whatever the state. *)
Theorem failed_calls_change_nothing t op t' e :
  exec t op = Some (t', Some e) → t' = t.
Proof.
  destruct op; simpl;
    unfold AddMember, SetMemberSession, SetMemberState, CreateTask, ClaimNext, ClaimTask, CompleteTask,
      Send, Drain, AppendFinding;
    intros H; repeat case_match; simplify_eq/=; try done; destruct_or?; simplify_eq/=; done.
Qed.

Lemma failed_calls_change_nothing_witness :
  (ClaimTask sampleTeam #"task-2" #"dev").1 = sampleTeam.
Proof.
  apply (failed_calls_change_nothing sampleTeam (OClaimTask #"task-2" #"dev") _ ErrTaskNotClaimable).
  vm_compute. reflexivity.
Defined.

(** [Quiescent] says what the listings show: in a well-formed team it holds
    exactly when every listed task is completed, every member's next [Drain]
    is empty, and no listed member is working or spawning. *)
Theorem quiescent_spec k t ts ms :
  reachable k t → Tasks t = Some ts → Members t = Some ms →
  Quiescent t = true ↔
  Forall (λ task, TState task = TaskCompleted) ts ∧
  (∀ n, isMember t n = true → (Drain t n).2 = inl []) ∧
  Forall (λ m, MState m ≠ MemberWorking ∧ MState m ≠ MemberSpawning) ms.
Proof.
  intros Hr%reachable_wf Hts Hms. unfold Quiescent.
  rewrite !andb_true_iff, !forallb_elem. unfold Tasks in Hts. unfold Members in Hms.
  apply mapM_Some in Hts, Hms. rewrite !Forall_forall.
  assert (Htask : ∀ task, task ∈ ts ↔ ∃ id, tasks t !! id = Some task).
  { intros task. split.
    - intros (i & Hi)%list_elem_of_lookup. destruct (Forall2_lookup_r _ _ _ _ _ Hts Hi) as (id & _ & ?). eauto.
    - intros [id Hid]. assert (Hin : id ∈ taskOrder t) by (apply tasks_in_order; [apply Hr|eauto]).
      apply list_elem_of_lookup in Hin as (i & Hi).
      destruct (Forall2_lookup_l _ _ _ _ _ Hts Hi) as (y & Hy & Hid'). simplify_eq.
      by eapply list_elem_of_lookup_2. }
  assert (Hmem : ∀ m, m ∈ ms ↔ ∃ n, members t !! n = Some m).
  { intros m. split.
    - intros (i & Hi)%list_elem_of_lookup. destruct (Forall2_lookup_r _ _ _ _ _ Hms Hi) as (n & _ & ?). eauto.
    - intros [n Hn]. assert (Hin : n ∈ memOrder t) by (apply roster_in_order; [apply Hr|eauto]).
      apply list_elem_of_lookup in Hin as (i & Hi).
      destruct (Forall2_lookup_l _ _ _ _ _ Hms Hi) as (y & Hy & Hn'). simplify_eq.
      by eapply list_elem_of_lookup_2. }
  split.
  - intros [[H1 H2] H3]. split_and!.
    + intros task [id Hid]%Htask. specialize (H1 (id, task) ltac:(by apply elem_of_map_to_list)). by bprop.
    + intros n Hn. unfold Drain. rewrite Hn. simpl. unfold inboxOf.
      destruct (inbox t !! n) as [msgs|] eqn:Ei; [|done].
      specialize (H2 (n, msgs) ltac:(by apply elem_of_map_to_list)). by destruct msgs.
    + intros m [n Hn]%Hmem. specialize (H3 (n, m) ltac:(by apply elem_of_map_to_list)). by bprop.
  - intros (H1 & H2 & H3). split_and!.
    + intros [id task] Hin%elem_of_map_to_list. apply bool_decide_eq_true, H1, Htask. eauto.
    + intros [n msgs] Hin%elem_of_map_to_list.
      assert (Hn : isMember t n = true) by (apply isMember_true; by eapply mail_member; [apply Hr|]).
      specialize (H2 n Hn). unfold Drain in H2. rewrite Hn in H2. simpl in H2. unfold inboxOf in H2.
      rewrite Hin in H2. simplify_eq/=. done.
    + intros [n m] Hin%elem_of_map_to_list. destruct (H3 m) as [Hw Hs]; [apply Hmem; eauto|].
      simpl. by rewrite !bool_decide_false.
Qed.

Lemma quiescent_spec_witness :
  Quiescent (New #"t") = true ↔
  Forall (λ task, TState task = TaskCompleted) [] ∧
  (∀ n, isMember (New #"t") n = true → (Drain (New #"t") n).2 = inl []) ∧
  Forall (λ m, MState m ≠ MemberWorking ∧ MState m ≠ MemberSpawning) [].
Proof. apply (quiescent_spec 0 (New #"t") [] []); [constructor|reflexivity..]. Defined.
