(* ===== verification/Conversation.v ===== *)
(** * The model-visible conversation

    [engine/session/conversation.go], [toolcall.go] and [content.go] (the value
    object only): messages, the tool-pairing validator that guards every history
    a provider will replay, the fork snapshot, the provider-neutral copy, and
    the repair of an interrupted turn ([closeOutInterruptedTurn] of
    [session.go]).  Messages are immutable in Go, so slices and pointers to them
    are plain values here. *)

From S2P Require Import Prelude.

(** ** Values *)

Inductive Role := RoleSystem | RoleUser | RoleAssistant | RoleTool.
#[global] Instance Role_eq_dec : EqDecision Role.
Proof. solve_decision. Defined.

Inductive UserPromptProvenance :=
  | UserPromptProvenanceUnknown | UserPromptProvenancePrincipal | UserPromptProvenanceHarness.

Abbreviation ToolCallID := gostr (only parsing).

(** Byte payloads ([Args], [Data]) are byte lists; [Priority] is the bit pattern
    of the float. *)
Record Content := mkContent {
  CBlockKind : gostr; CKind : gostr; CMIMEType : gostr; CData : list N; CURL : gostr;
  CText : gostr; CName : gostr; CTitle : gostr; CDescription : gostr; CSize : Z;
  CAudience : list gostr; CPriority : N; CLastModified : gostr
}.

Record ToolCall := mkToolCall {
  CallID : ToolCallID; CallName : gostr; CallArgs : list N; CallItemID : gostr
}.

Definition NewToolCall (id : ToolCallID) (name : gostr) (args : list N) : ToolCall :=
  mkToolCall id name args [].

Record ToolResult := mkToolResult {
  RCallID : ToolCallID; RContent : gostr; RIsError : bool; RParts : list Content
}.

Definition NewToolResult (callID : ToolCallID) (content : gostr) : ToolResult :=
  mkToolResult callID content false [].
Definition NewToolError (callID : ToolCallID) (content : gostr) : ToolResult :=
  mkToolResult callID content true [].
Definition NewToolResultWithParts (callID : ToolCallID) (content : gostr) (parts : list Content) :=
  mkToolResult callID content false parts.

Record Message := mkMessage {
  MRole : Role;
  MText : gostr;
  MToolCalls : list ToolCall;
  MToolResult : option ToolResult;
  MReasoning : gostr;
  MProviderPhase : gostr;
  MReasoningItemID : gostr;
  MParts : list Content;
  MProvenance : UserPromptProvenance
}.

Definition NewUserMessageWithParts (text : gostr) (parts : list Content) : Message :=
  mkMessage RoleUser text [] None [] [] [] parts UserPromptProvenanceUnknown.
Definition NewUserMessage (text : gostr) : Message := NewUserMessageWithParts text [].
Definition NewSystemMessage (text : gostr) : Message :=
  mkMessage RoleSystem text [] None [] [] [] [] UserPromptProvenanceUnknown.
Definition NewAssistantMessage (text reasoning : gostr) (calls : list ToolCall) : Message :=
  mkMessage RoleAssistant text calls None reasoning [] [] [] UserPromptProvenanceUnknown.
Definition NewToolMessage (r : ToolResult) : Message :=
  mkMessage RoleTool [] [] (Some r) [] [] [] [] UserPromptProvenanceUnknown.

Abbreviation Conversation := (list Message) (only parsing).

Definition Append (c : Conversation) (m : Message) : Conversation := c ++ [m].

(** ** Tool pairing *)

Inductive PairingError :=
  | PairNoResult (i : nat)
  | PairOrphaned (i : nat) (id : ToolCallID)
  | PairDangling (id : ToolCallID).

(** The ids an assistant message opens. *)
Definition callIDs (calls : list ToolCall) : gset ToolCallID := list_to_set (CallID <$> calls).

(** The loop over messages; [open] is the set of unanswered calls. *)
Fixpoint pairLoop (i : nat) (open : gset ToolCallID) (msgs : list Message)
    : gset ToolCallID + PairingError :=
  match msgs with
  | [] => inl open
  | m :: msgs' =>
      match MRole m with
      | RoleAssistant => pairLoop (S i) (open ∪ callIDs (MToolCalls m)) msgs'
      | RoleTool =>
          match MToolResult m with
          | None => inr (PairNoResult i)
          | Some r =>
              if RCallID r ∈? open then pairLoop (S i) (open ∖ {[RCallID r]}) msgs'
              else inr (PairOrphaned i (RCallID r))
          end
      | _ => pairLoop (S i) open msgs'
      end
  end.

(** Byte-wise order of strings, which on UTF-8 is the order of code points. *)
Fixpoint strLess (a b : gostr) : bool :=
  match a, b with
  | [], _ :: _ => true
  | x :: a', y :: b' => (x <? y)%N || (x =r y && strLess a' b')
  | _, [] => false
  end.

(** The order [sort.Strings] sorts by. *)
Definition strLe (a b : gostr) : Prop := strLess b a = false.
#[global] Instance strLe_dec : RelDecision strLe.
Proof. intros a b. unfold strLe. apply _. Defined.

(** The first element of [sort.Strings(ids)]. *)
Definition firstSorted (ids : list gostr) : gostr :=
  match ids with
  | [] => []
  | id :: ids' => foldl (λ m x, if strLess x m then x else m) id ids'
  end.

(** [None] is the nil error. *)
Definition ValidateToolPairing (msgs : list Message) : option PairingError :=
  match pairLoop 0 ∅ msgs with
  | inr e => Some e
  | inl open => match elements open with
                | [] => None
                | ids => Some (PairDangling (firstSorted ids))
                end
  end.

(** ** Copies *)

Definition CloneMessages (msgs : list Message) : list Message := msgs.

(** The backwards scan for the last assistant message: the messages before it,
    the message, and the messages after it. *)
Fixpoint lastAssistant (msgs : list Message) : option (list Message * Message * list Message) :=
  match msgs with
  | [] => None
  | m :: msgs' =>
      match lastAssistant msgs' with
      | Some (p, a, t) => Some (m :: p, a, t)
      | None => if MRole m =s RoleAssistant then Some ([], m, msgs') else None
      end
  end.

(** The call ids answered by tool messages. *)
Definition answeredIDs (msgs : list Message) : gset ToolCallID :=
  list_to_set (omap (λ m, match MRole m, MToolResult m with
                          | RoleTool, Some r => Some (RCallID r)
                          | _, _ => None
                          end) msgs).

(** [None] is the nil conversation. *)
Definition ForkSnapshot (c : option Conversation) : list Message :=
  match c with
  | None => []
  | Some messages =>
      let msgs := CloneMessages messages in
      match lastAssistant msgs with
      | None => msgs
      | Some (before, a, after) =>
          let answered := answeredIDs after in
          if existsb (λ call, negb (CallID call ∈? answered)) (MToolCalls a) then before else msgs
      end
  end.

Definition stripCall (c : ToolCall) : ToolCall := mkToolCall (CallID c) (CallName c) (CallArgs c) [].

Definition stripMessage (m : Message) : Message :=
  mkMessage (MRole m) (MText m) (stripCall <$> MToolCalls m) (MToolResult m) [] [] []
    (MParts m) (MProvenance m).

Definition StripProviderState (messages : list Message) : list Message := stripMessage <$> messages.

(** ** Repair of an interrupted turn *)

Definition interruptCloseOutMessage : gostr := #"tool call interrupted by cancellation".
Definition recoverCloseOutMessage : gostr :=
  #"tool call aborted: the run failed before this call's result was recorded".
Definition abandonCloseOutMessage : gostr :=
  #"tool call aborted: the process driving this run exited before this call's result was recorded".

Definition closeOutInterruptedTurn (msgs : Conversation) (message : gostr) : Conversation :=
  match lastAssistant msgs with
  | None => msgs
  | Some (_, a, after) =>
      let answered := answeredIDs after in
      foldl (λ c call, if CallID call ∈? answered then c
                       else Append c (NewToolMessage (NewToolError (CallID call) message)))
        msgs (MToolCalls a)
  end.

(** * Lemmas *)

(** The scan without positions: what is open after a history, or [None] once a
    tool message answers no open call. *)
Fixpoint scan (open : gset ToolCallID) (msgs : list Message) : option (gset ToolCallID) :=
  match msgs with
  | [] => Some open
  | m :: msgs' =>
      match MRole m with
      | RoleAssistant => scan (open ∪ callIDs (MToolCalls m)) msgs'
      | RoleTool =>
          match MToolResult m with
          | Some r => if RCallID r ∈? open then scan (open ∖ {[RCallID r]}) msgs' else None
          | None => None
          end
      | _ => scan open msgs'
      end
  end.

Lemma pairLoop_scan i open msgs :
  scan open msgs = match pairLoop i open msgs with inl o => Some o | inr _ => None end.
Proof.
  revert i open. induction msgs as [|m msgs IH]; intros i open; simpl; [done|].
  destruct (MRole m); auto. destruct (MToolResult m); [|done]. case_bool; auto.
Qed.

Lemma Validate_scan msgs : ValidateToolPairing msgs = None ↔ scan ∅ msgs = Some ∅.
Proof.
  unfold ValidateToolPairing. rewrite (pairLoop_scan 0).
  destruct (pairLoop 0 ∅ msgs) as [o|e]; [|done].
  destruct (elements o) as [|x l] eqn:E.
  - apply elements_empty_iff in E. split; [|done]. intros _. by apply leibniz_equiv in E as ->.
  - split; [done|]. intros [= ->]. by rewrite elements_empty in E.
Qed.

Lemma scan_app o a b : scan o (a ++ b) = scan o a ≫= λ o', scan o' b.
Proof.
  revert o. induction a as [|m a IH]; intros o; simpl; [done|].
  destruct (MRole m); auto. destruct (MToolResult m); [|done]. by case_bool.
Qed.

(** ** The order of strings *)

Lemma strLess_irrefl a : strLess a a = false.
Proof. induction a as [|x a IH]; [done|]. simpl. by rewrite N.ltb_irrefl, N.eqb_refl, IH. Qed.

Lemma strLess_trans a b c : strLess a b = true → strLess b c = true → strLess a c = true.
Proof.
  revert b c. induction a as [|x a IH]; intros [|y b] [|z c]; simpl; try done.
  rewrite !orb_true_iff, !andb_true_iff, !N.ltb_lt, !N.eqb_eq.
  intros [?|[-> H1]] [?|[-> H2]]; [left; lia|left; lia|left; lia|right]. split; [done|]. by eapply IH.
Qed.

Lemma strLess_total a b : strLess a b = true ∨ a = b ∨ strLess b a = true.
Proof.
  revert b. induction a as [|x a IH]; intros [|y b]; simpl; auto.
  destruct (N.lt_total x y) as [H|[-> |H]].
  - left. by rewrite (proj2 (N.ltb_lt _ _)).
  - rewrite N.ltb_irrefl, N.eqb_refl. simpl. destruct (IH b) as [?|[-> |?]]; auto.
  - right. right. by rewrite (proj2 (N.ltb_lt _ _)).
Qed.

Lemma strLess_asym a b : strLess a b = true → strLess b a = false.
Proof.
  intros H. destruct (strLess b a) eqn:E; [|done]. pose proof (strLess_trans _ _ _ H E) as H'.
  by rewrite strLess_irrefl in H'.
Qed.

Lemma strLe_less a b : strLe a b ↔ a = b ∨ strLess a b = true.
Proof.
  unfold strLe. split.
  - intros H. destruct (strLess_total a b) as [?|[?|?]]; auto. congruence.
  - intros [-> |H]; [apply strLess_irrefl|by apply strLess_asym].
Qed.

#[global] Instance strLe_total : Total strLe.
Proof. intros a b. rewrite !strLe_less. destruct (strLess_total a b) as [?|[?|?]]; auto. Qed.

#[global] Instance strLe_trans : Transitive strLe.
Proof.
  intros a b c. rewrite !strLe_less. intros [-> |H1] [-> |H2]; auto. right. by eapply strLess_trans.
Qed.

#[global] Instance strLe_antisymm : AntiSymm (=) strLe.
Proof. intros a b. rewrite !strLe_less. intros [-> |H1] [H2|H2]; auto. apply strLess_asym in H1. congruence. Qed.

(** ** The last assistant message *)

Definition noAssistant (msgs : list Message) : Prop := Forall (λ m, MRole m ≠ RoleAssistant) msgs.

Lemma lastAssistant_None msgs : lastAssistant msgs = None ↔ noAssistant msgs.
Proof.
  induction msgs as [|m msgs IH]; simpl; [by split; [constructor|]|].
  unfold noAssistant. rewrite Forall_cons. fold (noAssistant msgs). rewrite <-IH.
  destruct (lastAssistant msgs) as [[[? ?] ?]|]; [naive_solver|].
  case_bool; bprop; naive_solver.
Qed.

Lemma lastAssistant_Some msgs p a t :
  lastAssistant msgs = Some (p, a, t) ↔
  msgs = p ++ a :: t ∧ MRole a = RoleAssistant ∧ noAssistant t.
Proof.
  revert p. induction msgs as [|m msgs IH]; intros p; simpl.
  - split; [done|]. by intros [H _]; destruct p.
  - destruct (lastAssistant msgs) as [[[p' a'] t']|] eqn:E.
    + split.
      * intros [= <- <- <-]. destruct (IH p') as [H _]. by destruct (H eq_refl) as (-> & ? & ?).
      * intros (H & Ha & Ht). destruct p as [|m' p]; simplify_eq/=.
        -- apply lastAssistant_None in Ht. by rewrite E in Ht.
        -- destruct (IH p) as [_ H]. by specialize (H (conj eq_refl (conj Ha Ht))) as [= -> -> ->].
    + apply lastAssistant_None in E. case_bool; bprop.
      * split; [by intros [= <- <- <-]|]. intros (H & Ha & Ht). destruct p; simplify_eq/=; [done|].
        apply Forall_app in E as [_ E]. by inversion E.
      * split; [done|]. intros (H & Ha & Ht). destruct p; simplify_eq/=.
        apply Forall_app in E as [_ E]. by inversion E.
Qed.

Lemma answeredIDs_app a b : answeredIDs (a ++ b) = answeredIDs a ∪ answeredIDs b.
Proof. unfold answeredIDs. by rewrite omap_app, list_to_set_app_L. Qed.

(** Without assistant messages the scan only removes the answered calls. *)
Lemma scan_tail o t o' :
  noAssistant t → scan o t = Some o' → o' = o ∖ answeredIDs t ∧ answeredIDs t ⊆ o.
Proof.
  revert o. induction t as [|m t IH]; intros o Hn; simpl; [intros [= <-]; set_solver|].
  apply Forall_cons in Hn as [Hm Hn]. unfold answeredIDs. simpl.
  destruct (MRole m) eqn:Er; try done; try (by apply IH).
  destruct (MToolResult m) as [r|]; [|done]. case_bool; [|done]. bprop.
  intros Hs. apply IH in Hs as [-> Hsub]; [|done]. fold (answeredIDs t). set_solver.
Qed.

Lemma scan_calls o a t o' :
  MRole a = RoleAssistant → noAssistant t → scan o (a :: t) = Some o' →
  o' = (o ∪ callIDs (MToolCalls a)) ∖ answeredIDs t ∧ answeredIDs t ⊆ o ∪ callIDs (MToolCalls a).
Proof. intros Ha Hn. simpl. rewrite Ha. by apply scan_tail. Qed.

(** ** Synthetic results *)

Definition errorResults (message : gostr) (ids : list ToolCallID) : list Message :=
  (λ id, NewToolMessage (NewToolError id message)) <$> ids.

(** Answering distinct open calls closes exactly them. *)
Lemma scan_results (f : ToolCallID → Message) o ids :
  (∀ id, MRole (f id) = RoleTool ∧ ∃ r, MToolResult (f id) = Some r ∧ RCallID r = id) →
  NoDup ids → list_to_set ids ⊆ o → scan o (f <$> ids) = Some (o ∖ list_to_set ids).
Proof.
  intros Hf Hnd. revert o. induction Hnd as [|id ids Hid Hnd IH]; intros o Hsub; csimpl.
  - f_equal. set_solver.
  - destruct (Hf id) as (-> & r & -> & ->). rewrite bool_decide_true by set_solver.
    rewrite IH by set_solver. f_equal. set_solver.
Qed.

Lemma scan_errorResults message o ids :
  NoDup ids → list_to_set ids ⊆ o →
  scan o (errorResults message ids) = Some (o ∖ list_to_set ids).
Proof. intros. apply scan_results; [|done..]. intros id. split; [done|]. by eexists. Qed.

Definition openCalls (answered : gset ToolCallID) (calls : list ToolCall) : list ToolCallID :=
  filter (λ id, id ∉ answered) (CallID <$> calls).

Lemma closeOut_eq msgs message p a t :
  lastAssistant msgs = Some (p, a, t) →
  closeOutInterruptedTurn msgs message =
  msgs ++ errorResults message (openCalls (answeredIDs t) (MToolCalls a)).
Proof.
  intros H. unfold closeOutInterruptedTurn. rewrite H. generalize (MToolCalls a). clear.
  intros calls. revert msgs. induction calls as [|c calls IH]; intros msgs; simpl.
  { by rewrite app_nil_r. }
  rewrite IH. unfold openCalls. csimpl. rewrite filter_cons.
  case_bool; bprop; destruct (decide (CallID c ∉ answeredIDs t)); try done.
  csimpl. unfold Append. by rewrite <-app_assoc.
Qed.

(** ** Pairing, declaratively *)

Definition opens (m : Message) (id : ToolCallID) : Prop :=
  MRole m = RoleAssistant ∧ id ∈ CallID <$> MToolCalls m.

Definition answers (m : Message) (id : ToolCallID) : Prop :=
  MRole m = RoleTool ∧ ∃ r, MToolResult m = Some r ∧ RCallID r = id.

(** The last thing that happened to [id] in the history is a call. *)
Definition isOpen (msgs : list Message) (id : ToolCallID) : Prop :=
  ∃ p a t, msgs = p ++ a :: t ∧ opens a id ∧ ∀ m, m ∈ t → ¬ answers m id.

Lemma isOpen_snoc msgs m id :
  isOpen (msgs ++ [m]) id ↔ opens m id ∨ (isOpen msgs id ∧ ¬ answers m id).
Proof.
  split.
  - intros (p & a & t & E & Ho & Hn). destruct t as [|x t _] using rev_ind.
    + apply app_inj_tail in E as [_ ->]. by left.
    + rewrite app_comm_cons, app_assoc in E. apply app_inj_tail in E as [-> ->]. right. split.
      * exists p, a, t. split_and!; [done..|]. intros m' Hm. apply Hn. set_solver.
      * apply Hn. set_solver.
  - intros [Ho|[(p & a & t & -> & Ho & Hn) Hm]].
    + exists msgs, m, []. split_and!; [done..|]. intros ? Hx. by apply not_elem_of_nil in Hx.
    + exists p, a, (t ++ [m]). split_and!; [by rewrite <-app_assoc|done|].
      intros x [Hx| ->%list_elem_of_singleton]%elem_of_app; [by apply Hn|done].
Qed.

Lemma scan_isOpen msgs o : scan ∅ msgs = Some o → ∀ id, id ∈ o ↔ isOpen msgs id.
Proof.
  revert o. induction msgs as [|m msgs IH] using rev_ind; intros o.
  { intros [= <-] id. split; [set_solver|]. intros (p & a & t & E & _). by destruct p. }
  rewrite scan_app. destruct (scan ∅ msgs) as [o'|] eqn:E; [|done]. simpl.
  specialize (IH o' eq_refl). intros Hs id. rewrite isOpen_snoc, <-IH. unfold opens, answers.
  destruct (MRole m) eqn:Er.
  1,2: simplify_eq; naive_solver.
  - simplify_eq. unfold callIDs. rewrite elem_of_union, elem_of_list_to_set. naive_solver.
  - destruct (MToolResult m) as [r|]; [|done]. case_bool; [|done]. bprop. simplify_eq.
    rewrite elem_of_difference, elem_of_singleton. naive_solver.
Qed.

(** The scan fails exactly at a tool message that answers no open call. *)
Lemma scan_ok_iff msgs :
  (∃ o, scan ∅ msgs = Some o) ↔
  ∀ p m t, msgs = p ++ m :: t → MRole m = RoleTool → ∃ id, answers m id ∧ isOpen p id.
Proof.
  induction msgs as [|m msgs IH] using rev_ind.
  { split; [|by exists ∅]. intros _ p m t E. by destruct p. }
  rewrite scan_app. split.
  - intros [o Ho]. destruct (scan ∅ msgs) as [o'|] eqn:E; [|done]. simpl in Ho.
    intros p m' t Em Hr. destruct t as [|x t _] using rev_ind.
    + apply app_inj_tail in Em as [<- <-]. rewrite Hr in Ho.
      destruct (MToolResult m) as [r|] eqn:Emr; [|done]. revert Ho. case_bool; [|done]. intros _. bprop.
      exists (RCallID r). split; [split; eauto|]. by apply (scan_isOpen msgs o').
    + rewrite app_comm_cons, app_assoc in Em. apply app_inj_tail in Em as [-> _].
      destruct IH as [IH _]. by eapply IH; eauto.
  - intros H. destruct IH as [_ IH]. destruct IH as [o' Ho'].
    { intros p m' t -> Hr. apply (H p m' (t ++ [m])); [by rewrite <-app_assoc|done]. }
    rewrite Ho'. simpl. destruct (MRole m) eqn:Er; eauto.
    destruct (H msgs m []) as (id & (_ & r & -> & <-) & Hop); [done..|].
    rewrite bool_decide_true; [eauto|]. by apply (scan_isOpen msgs o').
Qed.

(** * Properties *)

(** [ValidateToolPairing] accepts exactly the provider-replayable histories:
    every tool message carries a result for a call that is open at that point
    (called before, and not answered since), and every tool call of every
    assistant message is answered by a later tool message. *)
Theorem tool_pairing_spec msgs :
  ValidateToolPairing msgs = None ↔
  (∀ p m t, msgs = p ++ m :: t → MRole m = RoleTool → ∃ id, answers m id ∧ isOpen p id) ∧
  (∀ p a t id, msgs = p ++ a :: t → opens a id → ∃ m, m ∈ t ∧ answers m id).
Proof.
  rewrite Validate_scan, <-scan_ok_iff. split.
  - intros H. split; [eauto|]. intros p a t id -> Ho.
    destruct (decide (Exists (λ m, MRole m = RoleTool ∧ RCallID <$> MToolResult m = Some id) t))
      as [HE|HE].
    + apply Exists_exists in HE as (m & Hm & Hr & Hid). exists m. split; [done|]. split; [done|].
      apply fmap_Some in Hid as (r & -> & ->). eauto.
    + exfalso. assert (Hop : isOpen (p ++ a :: t) id).
      { exists p, a, t. split_and!; [done..|]. intros m Hm (Hr & r & Hmr & <-). apply HE, Exists_exists.
        exists m. by rewrite Hmr. }
      apply (scan_isOpen _ _ H) in Hop. set_solver.
  - intros [[o Ho] Hall]. rewrite Ho. f_equal. apply set_eq. intros id. split; [|set_solver].
    intros (p & a & t & -> & Hop & Hn)%(scan_isOpen _ _ Ho).
    destruct (Hall p a t id eq_refl Hop) as (m & Hm & Hans). by destruct (Hn m Hm).
Qed.

(** C26. Repairing an interrupted turn makes the history replayable: if the
    history before the last assistant message is paired, that message's call ids
    are distinct, and no recorded result is orphaned, then after appending the
    synthetic results the whole history passes the validator; repairing twice is
    repairing once, and the recorded messages are kept. *)
Theorem interrupted_turn_repaired msgs message :
  (∀ p a t, lastAssistant msgs = Some (p, a, t) →
     ValidateToolPairing p = None ∧ NoDup (CallID <$> MToolCalls a)) →
  (∃ o, pairLoop 0 ∅ msgs = inl o) →
  ValidateToolPairing (closeOutInterruptedTurn msgs message) = None ∧
  closeOutInterruptedTurn (closeOutInterruptedTurn msgs message) message
    = closeOutInterruptedTurn msgs message ∧
  msgs `prefix_of` closeOutInterruptedTurn msgs message.
Proof.
  intros Hlast [o Ho]. assert (Hs : scan ∅ msgs = Some o) by (by rewrite (pairLoop_scan 0), Ho).
  destruct (lastAssistant msgs) as [[[p a] t]|] eqn:E.
  - destruct (Hlast p a t eq_refl) as [Hp Hnd]. rewrite (closeOut_eq _ _ _ _ _ E).
    apply lastAssistant_Some in E as (-> & Ha & Ht). apply Validate_scan in Hp.
    set (ids := openCalls (answeredIDs t) (MToolCalls a)). split_and!.
    + apply Validate_scan. rewrite scan_app, Hs. simpl.
      rewrite scan_app, Hp in Hs. simpl in Hs. apply (scan_calls ∅ a t) in Hs as [-> Hsub]; [|done..].
      assert (Hids : list_to_set ids = callIDs (MToolCalls a) ∖ answeredIDs t).
      { apply set_eq. intros id. unfold ids, openCalls, callIDs.
        rewrite elem_of_list_to_set, elem_of_difference, elem_of_list_to_set, list_elem_of_filter. naive_solver. }
      rewrite scan_errorResults; [|by apply NoDup_filter|set_solver].
      f_equal. set_solver.
    + rewrite (closeOut_eq _ _ p a (t ++ errorResults message ids)).
      * assert (openCalls (answeredIDs (t ++ errorResults message ids)) (MToolCalls a) = []) as ->;
          [|by rewrite app_nil_r].
        apply elem_of_nil_inv. intros id [Hno Hid]%list_elem_of_filter. apply Hno. rewrite answeredIDs_app.
        destruct (decide (id ∈ answeredIDs t)); [set_solver|]. apply elem_of_union. right.
        assert (Hin : id ∈ ids) by (by apply list_elem_of_filter). revert Hin. generalize ids. clear.
        intros ids. unfold answeredIDs, errorResults. rewrite elem_of_list_to_set.
        induction ids as [|x ids IH]; [by intros ?%not_elem_of_nil|]. csimpl.
        rewrite !elem_of_cons. intros [->|Hin]; auto.
      * apply lastAssistant_Some. split_and!; [by rewrite <-app_assoc|done|].
        apply Forall_app. split; [done|]. apply Forall_fmap, Forall_true. done.
    + by apply prefix_app_r.
  - assert (Heq : closeOutInterruptedTurn msgs message = msgs).
    { unfold closeOutInterruptedTurn. by rewrite E. }
    rewrite !Heq. split_and!; [|done..]. apply Validate_scan. rewrite Hs.
    apply lastAssistant_None in E. apply scan_tail in Hs as [-> _]; [|done]. f_equal. set_solver.
Qed.

Definition sampleCall (id : gostr) : ToolCall := NewToolCall id #"Read" [].

(** A turn with two calls, only one of which was answered. *)
Definition sampleInterrupted : list Message :=
  [ NewUserMessage #"go"; NewAssistantMessage #"ok" [] [sampleCall #"a"; sampleCall #"b"];
    NewToolMessage (NewToolResult #"a" #"done") ].

Lemma interrupted_turn_repaired_witness :
  ValidateToolPairing sampleInterrupted = Some (PairDangling #"b") ∧
  ValidateToolPairing (closeOutInterruptedTurn sampleInterrupted interruptCloseOutMessage) = None.
Proof.
  split; [reflexivity|].
  refine (proj1 (interrupted_turn_repaired sampleInterrupted interruptCloseOutMessage _ _)).
  - intros p a t H. vm_compute in H. simplify_eq/=. split; [reflexivity|].
    apply (bool_decide_eq_true_1 _). reflexivity.
  - exists {[ #"b" ]}. vm_compute. reflexivity.
Defined.

(** A fork snapshot is a prefix of the parent's history and, when the history
    before the last assistant message is paired and no recorded result is
    orphaned, it is replayable, whether or not the last turn was still open. *)
Theorem fork_snapshot_replayable msgs :
  ForkSnapshot (Some msgs) `prefix_of` msgs ∧
  ((∀ p a t, lastAssistant msgs = Some (p, a, t) → ValidateToolPairing p = None) →
   (∃ o, pairLoop 0 ∅ msgs = inl o) →
   ValidateToolPairing (ForkSnapshot (Some msgs)) = None).
Proof.
  unfold ForkSnapshot, CloneMessages. destruct (lastAssistant msgs) as [[[p a] t]|] eqn:E.
  - pose proof E as (Heq & Ha & Ht)%lastAssistant_Some. split.
    { case_bool; [rewrite Heq; by apply prefix_app_r|done]. }
    intros Hp [o Ho]. specialize (Hp p a t eq_refl). case_bool; [done|].
    apply Validate_scan. assert (Hs : scan ∅ msgs = Some o) by (by rewrite (pairLoop_scan 0), Ho).
    rewrite Hs. rewrite Heq, scan_app in Hs. apply Validate_scan in Hp. rewrite Hp in Hs.
    apply (scan_calls ∅ a t) in Hs as [-> _]; [|done..]. f_equal. apply set_eq. intros id.
    rewrite existsb_false_forall in E0. split; [|set_solver]. intros [Hin Hno]%elem_of_difference.
    apply elem_of_union in Hin as [Hin|Hin]; [set_solver|]. unfold callIDs in Hin.
    apply elem_of_list_to_set, list_elem_of_fmap in Hin as (c & -> & Hc).
    specialize (E0 c Hc). by bprop.
  - split; [done|]. intros _ [o Ho]. apply Validate_scan.
    assert (Hs : scan ∅ msgs = Some o) by (by rewrite (pairLoop_scan 0), Ho). rewrite Hs.
    apply lastAssistant_None in E. apply scan_tail in Hs as [-> _]; [|done]. f_equal. set_solver.
Qed.

Lemma fork_snapshot_replayable_witness :
  ValidateToolPairing (ForkSnapshot (Some sampleInterrupted)) = None.
Proof.
  refine (proj2 (fork_snapshot_replayable sampleInterrupted) _ _).
  - intros p a t H. vm_compute in H. by simplify_eq/=.
  - exists {[ #"b" ]}. vm_compute. reflexivity.
Defined.

(** Clearing provider-private state never changes the pairing verdict: the
    validator returns the same result (the same error, at the same message) on
    the stripped history, which keeps every role, text, result, media part and
    call identity, and holds no replay blob. *)
Theorem strip_preserves_pairing msgs :
  ValidateToolPairing (StripProviderState msgs) = ValidateToolPairing msgs ∧
  length (StripProviderState msgs) = length msgs ∧
  Forall2 (λ m m', MRole m' = MRole m ∧ MText m' = MText m ∧ MToolResult m' = MToolResult m ∧
             MParts m' = MParts m ∧ CallID <$> MToolCalls m' = CallID <$> MToolCalls m ∧
             CallName <$> MToolCalls m' = CallName <$> MToolCalls m ∧
             CallArgs <$> MToolCalls m' = CallArgs <$> MToolCalls m)
    msgs (StripProviderState msgs) ∧
  Forall (λ m, MReasoning m = [] ∧ MReasoningItemID m = [] ∧ MProviderPhase m = [] ∧
               Forall (λ c, CallItemID c = []) (MToolCalls m)) (StripProviderState msgs).
Proof.
  split_and!.
  - unfold ValidateToolPairing. assert (∀ i o, pairLoop i o (StripProviderState msgs) = pairLoop i o msgs) as ->;
      [|done].
    induction msgs as [|m msgs IH]; intros i o; [done|]. simpl.
    assert (callIDs (stripCall <$> MToolCalls m) = callIDs (MToolCalls m)) as ->.
    { unfold callIDs. by rewrite <-list_fmap_compose. }
    destruct (MRole m); rewrite ?IH; auto. destruct (MToolResult m); [|done]. case_bool; auto.
  - apply length_fmap.
  - induction msgs; constructor; [|done]. simpl. rewrite <-!list_fmap_compose. done.
  - apply Forall_fmap, Forall_true. intros m. simpl. split_and!; [done..|].
    by apply Forall_fmap, Forall_true.
Qed.

(** ** A repair that does not pair *)

(** An assistant message that repeats a call id: the repair appends one result
    per call, and the second one answers nothing. *)
Example duplicate_ids_not_repaired :
  ValidateToolPairing
    (closeOutInterruptedTurn [NewAssistantMessage [] [] [sampleCall #"x"; sampleCall #"x"]]
       interruptCloseOutMessage) = Some (PairOrphaned 2 #"x").
Proof. reflexivity. Qed.
