(* ===== verification/Usage.v ===== *)
(** * Token accounting

    [engine/session/usage.go]: usage values, the canonical ledger of the session
    aggregate and its restoration from a snapshot.  Counts are Go [int]s, so
    every sum is reduced to 64 bits.  A nil map reads as the empty map. *)

From S2P Require Import Prelude.

(** ** Usage values *)

Record Usage := mkUsage {
  InputTokens : Z; OutputTokens : Z; CacheReadTokens : Z; CacheWriteTokens : Z; ReasoningTokens : Z
}.

#[global] Instance Usage_eq_dec : EqDecision Usage.
Proof. solve_decision. Defined.

Definition zeroUsage : Usage := mkUsage 0 0 0 0 0.

(** [Usage.Add] *)
Definition addUsage (u other : Usage) : Usage :=
  mkUsage (wrap64 (InputTokens u + InputTokens other))
    (wrap64 (OutputTokens u + OutputTokens other))
    (wrap64 (CacheReadTokens u + CacheReadTokens other))
    (wrap64 (CacheWriteTokens u + CacheWriteTokens other))
    (wrap64 (ReasoningTokens u + ReasoningTokens other)).

Definition TotalTokens (u : Usage) : Z := wrap64 (InputTokens u + OutputTokens u).

(** ** The ledger *)

Abbreviation UsageKind := gostr (only parsing).
Definition UsageKindMain : UsageKind := #"main".
Definition UsageKindSessionTitle : UsageKind := #"session_title".

Record TokenUsage := mkTokenUsage { Total : Usage; Models : gmap gostr Usage }.

Abbreviation Ledger := (gmap gostr TokenUsage) (only parsing).

Definition zeroTokenUsage : TokenUsage := mkTokenUsage zeroUsage ∅.

Definition unknownModelAttribution : gostr := #"unknown".

Definition modelAttribution (providerID modelID : gostr) : gostr :=
  let providerID := Join (Fields providerID) [space] in
  let modelID := Join (Fields modelID) [space] in
  if providerID =s [] || modelID =s [] then unknownModelAttribution
  else providerID ++ #"/" ++ modelID.

(** Go's map read: the zero value for a missing key. *)
Definition modelUsage (models : gmap gostr Usage) (k : gostr) : Usage :=
  default zeroUsage (models !! k).

Definition recordTokenUsage (l : Ledger) (kind : UsageKind) (attribution : gostr) (usage : Usage)
    : Ledger :=
  let bucket := default zeroTokenUsage (l !! kind) in
  let attribution := if attribution =s [] then unknownModelAttribution else attribution in
  <[kind := mkTokenUsage (addUsage (Total bucket) usage)
              (<[attribution := addUsage (modelUsage (Models bucket) attribution) usage]>
                 (Models bucket))]> l.

Definition knownKind (kind : UsageKind) : bool :=
  kind =s UsageKindMain || kind =s UsageKindSessionTitle.

Definition RecordTokenUsage (l : Ledger) (kind : UsageKind) (providerID modelID : gostr) (usage : Usage)
    : Ledger :=
  if negb (knownKind kind) then l
  else recordTokenUsage l kind (modelAttribution providerID modelID) usage.

(** [cloneTokenUsage] copies every map; here the copy is the value. *)
Definition TokenUsageSnapshot (l : Ledger) : Ledger :=
  (λ bucket, mkTokenUsage (Total bucket) (Models bucket)) <$> l.

(** One iteration of the inner loop of [RestoreTokenUsage]. *)
Definition restoreStep (acc : TokenUsage) (entry : gostr * Usage) : TokenUsage :=
  let model := if entry.1 =s [] then unknownModelAttribution else entry.1 in
  mkTokenUsage (addUsage (Total acc) entry.2)
    (<[model := addUsage (modelUsage (Models acc) model) entry.2]> (Models acc)).

Definition restoreBucket (entries : list (gostr * Usage)) : TokenUsage :=
  foldl restoreStep zeroTokenUsage entries.

Definition RestoreTokenUsage (usage : Ledger) : Ledger :=
  (λ bucket, restoreBucket (map_to_list (Models bucket)))
    <$> filter (λ kb, knownKind kb.1 = true) usage.

(** [UsageFor] *)
Definition UsageFor (l : Ledger) (kind : UsageKind) : Usage :=
  Total (default zeroTokenUsage (l !! kind)).

(** * Lemmas *)

Lemma addUsage_comm a b : addUsage a b = addUsage b a.
Proof. unfold addUsage. f_equal; f_equal; lia. Qed.

Lemma addUsage_assoc a b c : addUsage (addUsage a b) c = addUsage a (addUsage b c).
Proof.
  unfold addUsage. simpl. f_equal; rewrite wrap64_add_l, wrap64_add_r; f_equal; lia.
Qed.

(** A left-commuted step, the shape the folds need. *)
Lemma addUsage_left_comm a b c : addUsage a (addUsage b c) = addUsage b (addUsage a c).
Proof. by rewrite <-!addUsage_assoc, (addUsage_comm a). Qed.

Definition inRange (u : Usage) : Prop :=
  int64 (InputTokens u) ∧ int64 (OutputTokens u) ∧ int64 (CacheReadTokens u) ∧
  int64 (CacheWriteTokens u) ∧ int64 (ReasoningTokens u).

Lemma addUsage_zero u : inRange u → addUsage zeroUsage u = u.
Proof. intros (? & ? & ? & ? & ?). destruct u; unfold addUsage; simpl in *. by rewrite !wrap64_id. Qed.

Lemma addUsage_range a b : inRange (addUsage a b).
Proof. split_and!; apply wrap64_range. Qed.

Lemma addUsage_zero_add u v : addUsage (addUsage zeroUsage u) v = addUsage u v.
Proof. unfold addUsage. simpl. by rewrite !wrap64_add_l. Qed.

(** The element-wise sum of a model map. *)
Definition sumUsage (models : gmap gostr Usage) : Usage :=
  map_fold (λ _ u acc, addUsage u acc) zeroUsage models.

Lemma sumUsage_insert models k u :
  models !! k = None → sumUsage (<[k := u]> models) = addUsage u (sumUsage models).
Proof.
  intros Hk. unfold sumUsage.
  rewrite (map_fold_insert_L (λ _ u acc, addUsage u acc)); [done| |done].
  intros. apply addUsage_left_comm.
Qed.

(** Adding to one model's entry adds to the sum. *)
Lemma sumUsage_add models k u :
  sumUsage (<[k := addUsage (modelUsage models k) u]> models) = addUsage u (sumUsage models).
Proof.
  unfold modelUsage. destruct (models !! k) as [v|] eqn:E; simpl.
  - rewrite <-(insert_delete_eq models), sumUsage_insert by apply lookup_delete_eq.
    rewrite <-(insert_delete_id models k v) at 2 by done.
    rewrite sumUsage_insert by apply lookup_delete_eq.
    by rewrite <-!addUsage_assoc, (addUsage_comm v).
  - rewrite sumUsage_insert by done. by rewrite addUsage_zero_add.
Qed.

(** What a bucket promises. *)
Definition bucket_ok (b : TokenUsage) : Prop :=
  Total b = sumUsage (Models b) ∧ Models b !! [] = None ∧
  map_Forall (λ _ u, inRange u) (Models b).

Definition ledger_ok (l : Ledger) : Prop :=
  map_Forall (λ kind b, knownKind kind = true ∧ bucket_ok b) l.

Lemma zero_bucket_ok : bucket_ok zeroTokenUsage.
Proof. split_and!; [done|apply lookup_empty|apply map_Forall_empty]. Qed.

(** Both the recorder and the restorer extend a bucket this way. *)
Lemma bucket_add_ok b k u :
  k ≠ [] → bucket_ok b →
  bucket_ok (mkTokenUsage (addUsage (Total b) u)
    (<[k := addUsage (modelUsage (Models b) k) u]> (Models b))).
Proof.
  intros Hk (H1 & H2 & H3). split_and!; simpl.
  - by rewrite sumUsage_add, H1, addUsage_comm.
  - by rewrite lookup_insert_ne.
  - apply map_Forall_insert_2; [apply addUsage_range|done].
Qed.

Lemma attribution_ne (a : gostr) : (if a =s [] then unknownModelAttribution else a) ≠ [].
Proof. case_bool; by bprop. Qed.

Lemma recordTokenUsage_ok l kind a u :
  knownKind kind = true → ledger_ok l → ledger_ok (recordTokenUsage l kind a u).
Proof.
  intros Hk Hl. unfold recordTokenUsage. apply map_Forall_insert_2; [|done]. split; [done|].
  apply bucket_add_ok; [apply attribution_ne|].
  destruct (l !! kind) as [b|] eqn:E; [by apply (Hl kind b E)|apply zero_bucket_ok].
Qed.

Lemma RecordTokenUsage_ok l kind p m u : ledger_ok l → ledger_ok (RecordTokenUsage l kind p m u).
Proof. intros. unfold RecordTokenUsage. case_bool; [done|]. bprop. by apply recordTokenUsage_ok. Qed.

Lemma restoreBucket_ok entries : bucket_ok (restoreBucket entries).
Proof.
  unfold restoreBucket. generalize zero_bucket_ok. generalize zeroTokenUsage.
  induction entries as [|e entries IH]; intros b Hb; [done|]. simpl.
  apply IH, bucket_add_ok; [apply attribution_ne|done].
Qed.

Lemma RestoreTokenUsage_ok l : ledger_ok (RestoreTokenUsage l).
Proof.
  intros kind b (b' & <- & H)%lookup_fmap_Some. apply map_lookup_filter_Some in H as [_ Hk].
  split; [done|apply restoreBucket_ok].
Qed.

#[export] Hint Resolve RecordTokenUsage_ok recordTokenUsage_ok RestoreTokenUsage_ok : go.

(** ** Restoration *)

Lemma restoreStep_comm acc e1 e2 : restoreStep (restoreStep acc e1) e2 = restoreStep (restoreStep acc e2) e1.
Proof.
  destruct e1 as [k1 u1], e2 as [k2 u2]. unfold restoreStep. simpl.
  set (n1 := if k1 =s [] then _ else k1). set (n2 := if k2 =s [] then _ else k2). clearbody n1 n2.
  f_equal; [by rewrite !addUsage_assoc, (addUsage_comm u1)|].
  unfold modelUsage. destruct (decide (n1 = n2)) as [->|Hne].
  - rewrite !lookup_insert_eq, !insert_insert_eq. simpl. by rewrite !addUsage_assoc, (addUsage_comm u1).
  - rewrite !lookup_insert_ne by done. by apply insert_insert_ne.
Qed.

Lemma restoreBucket_perm es es' : es ≡ₚ es' → restoreBucket es = restoreBucket es'.
Proof.
  unfold restoreBucket. generalize zeroTokenUsage. intros b H. revert b.
  induction H as [|e es es' _ IH|e1 e2 es|es es' es'' _ IH1 _ IH2]; intros b; simpl; auto.
  - by rewrite restoreStep_comm.
  - by rewrite IH1.
Qed.

Lemma restore_models_fold entries b :
  NoDup (entries.*1) → [] ∉ entries.*1 → Forall (λ e, inRange e.2) entries →
  (∀ k, k ∈ entries.*1 → Models b !! k = None) →
  Models (foldl restoreStep b entries) = list_to_map entries ∪ Models b.
Proof.
  revert b. induction entries as [|[k u] es IH]; intros b Hnd Hne Hr Hf; csimpl.
  { by rewrite (left_id_L ∅ _). }
  csimpl in Hnd. apply NoDup_cons in Hnd as [Hk Hnd]. apply Forall_cons in Hr as [Hu Hr].
  simpl in Hne. rewrite IH; [|done|set_solver|done|].
  - unfold restoreStep. simpl. rewrite bool_decide_false by set_solver. unfold modelUsage.
    rewrite (Hf k) by set_solver. simpl. rewrite addUsage_zero by done.
    rewrite <-insert_union_l, insert_union_r; [done|]. by apply not_elem_of_list_to_map_1.
  - intros k' Hk'. unfold restoreStep. simpl. rewrite bool_decide_false by set_solver.
    rewrite lookup_insert_ne by set_solver. apply Hf. set_solver.
Qed.

Lemma bucket_roundtrip b : bucket_ok b → restoreBucket (map_to_list (Models b)) = b.
Proof.
  intros (Ht & Hne & Hr).
  assert (HM : Models (restoreBucket (map_to_list (Models b))) = Models b).
  { unfold restoreBucket. rewrite restore_models_fold.
    - simpl. by rewrite list_to_map_to_list, (right_id_L ∅ _).
    - apply NoDup_fst_map_to_list.
    - intros ([k u] & Hk & Hin)%list_elem_of_fmap. simpl in Hk. subst k.
      apply elem_of_map_to_list in Hin. by rewrite Hne in Hin.
    - apply Forall_forall. intros [k u] Hin%elem_of_map_to_list. by eapply Hr.
    - intros. apply lookup_empty. }
  destruct (restoreBucket_ok (map_to_list (Models b))) as [HT _].
  destruct (restoreBucket (map_to_list (Models b))) as [T M], b as [T' M']. simpl in *. congruence.
Qed.

(** * Properties *)

(** The calls that change a ledger. *)
Inductive ledger_step : Ledger → Ledger → Prop :=
  | step_record l kind p m u : ledger_step l (RecordTokenUsage l kind p m u)
  | step_main l a u : ledger_step l (recordTokenUsage l UsageKindMain a u)
  | step_restore l l' : ledger_step l (RestoreTokenUsage l').

(** Whatever is recorded or restored, in any order, every bucket of the
    ledger is a known kind, its total is the element-wise 64-bit sum of its
    models, and no model has an empty attribution. *)
Theorem ledger_total_is_sum l :
  rtc ledger_step ∅ l → ledger_ok l.
Proof.
  intros H. cut (∀ l0, rtc ledger_step l0 l → ledger_ok l0 → ledger_ok l).
  { intros Hc. by apply (Hc ∅), map_Forall_empty. }
  clear H. intros l0. induction 1 as [|l0 l1 l Hs _ IH]; [done|]. intros Hl. apply IH.
  destruct Hs; auto with go.
Qed.

Lemma ledger_total_is_sum_witness :
  ledger_ok (RecordTokenUsage ∅ UsageKindMain #"openai" #"gpt" (mkUsage 5 2 1 0 0)).
Proof.
  apply (ledger_total_is_sum (RecordTokenUsage ∅ UsageKindMain #"openai" #"gpt" (mkUsage 5 2 1 0 0))).
  eapply rtc_l; [apply step_record|apply rtc_refl].
Defined.

(** Recording adds exactly the given usage to the total of its own bucket and
    leaves every other bucket alone; in particular title generation never counts
    against the main-run budget, and an unknown kind records nothing. *)
Theorem record_adds_to_its_bucket l kind p m u kind' :
  UsageFor (RecordTokenUsage l kind p m u) kind' =
  if decide (kind' = kind ∧ knownKind kind = true) then addUsage (UsageFor l kind') u
  else UsageFor l kind'.
Proof.
  unfold RecordTokenUsage, UsageFor. destruct (knownKind kind); simpl.
  - unfold recordTokenUsage. destruct (decide (kind' = kind)) as [->|Hne].
    + rewrite lookup_insert_eq, decide_True by done. done.
    + rewrite lookup_insert_ne by done. by rewrite decide_False by naive_solver.
  - by rewrite decide_False by naive_solver.
Qed.

(** Persistence is lossless and does not depend on Go's map iteration order:
    restoring a snapshot of a well-formed ledger gives the ledger back, and a
    bucket restored from its entries in any order is the same bucket. *)
Theorem usage_snapshot_roundtrip l :
  ledger_ok l →
  RestoreTokenUsage (TokenUsageSnapshot l) = l ∧
  ∀ kind b es, l !! kind = Some b → es ≡ₚ map_to_list (Models b) → restoreBucket es = b.
Proof.
  intros Hl. split.
  - unfold RestoreTokenUsage, TokenUsageSnapshot. apply map_eq. intros kind.
    rewrite lookup_fmap. destruct (l !! kind) as [b|] eqn:E.
    + destruct (Hl kind b E) as [Hk Hb]. erewrite (proj2 (map_lookup_filter_Some _ _ kind _)).
      2:{ split; [by rewrite lookup_fmap, E|done]. }
      simpl. by rewrite bucket_roundtrip.
    + erewrite (proj2 (map_lookup_filter_None _ _ kind)); [done|]. left. by rewrite lookup_fmap, E.
  - intros kind b es E Hp. rewrite (restoreBucket_perm _ _ Hp). apply bucket_roundtrip.
    by apply (Hl kind b E).
Qed.

Lemma usage_snapshot_roundtrip_witness :
  RestoreTokenUsage (TokenUsageSnapshot
    (RecordTokenUsage ∅ UsageKindMain #"openai" #"gpt" (mkUsage 5 2 1 0 0))) =
  RecordTokenUsage ∅ UsageKindMain #"openai" #"gpt" (mkUsage 5 2 1 0 0).
Proof.
  apply (usage_snapshot_roundtrip (RecordTokenUsage ∅ UsageKindMain #"openai" #"gpt" (mkUsage 5 2 1 0 0))).
  apply RecordTokenUsage_ok, map_Forall_empty.
Defined.
