(* ===== verification/Title.v ===== *)
(** * Session titles and prompt classification

    [engine/session/title.go] and the title methods of [session.go]: which
    messages are genuine user prompts, how titles are normalised and clamped,
    and the durable title metadata with its saturating [uint64] revision.  The
    metadata is the group of [Session] fields these methods own. *)

From S2P Require Import Prelude Conversation.

(** ** Genuine prompts *)

Definition CompactionSummaryMarker : gostr := #"[conversation compacted]".
Definition Tier4SummaryMarker : gostr := #"[earlier turns summarised]".

(** The em dash of the two nudge texts. *)
Definition emdash : gostr := [8212%N].

Definition NoProgressNudgeText : gostr :=
  #"Please continue. Make concrete progress on the task using your tools, or " ++ emdash ++
  #" if you are blocked or believe the task is complete " ++ emdash ++
  #" say so explicitly in a short message.".

Definition NoProgressExtractiveNudgeText : gostr :=
  #"Stop investigating now and do not run any more commands or tools. Using only the information you have already gathered, write your best final answer to the original task as a direct message now, even if it is incomplete or uncertain "
  ++ emdash ++ #" note any gaps briefly. Do not plan further steps; deliver what you have.".

Definition IsSynthesisedSummary (text : gostr) : bool :=
  HasPrefix text CompactionSummaryMarker || HasPrefix text Tier4SummaryMarker.

Definition isHarnessBackgroundNotice (text : gostr) : bool :=
  if negb (HasPrefix text #"[harness note: ") || negb (HasSuffix text #"]") then false
  else Contains text #" background subagent(s) finished: "
       || Contains text #" background command(s) finished: "
       || Contains text #" background subagent(s) still running: "
       || Contains text #" background command(s) still running: ".

Definition IsGenuineUserPrompt (m : Message) : bool :=
  if negb (MRole m =s RoleUser) || IsSynthesisedSummary (MText m) then false
  else if MText m =s NoProgressNudgeText || MText m =s NoProgressExtractiveNudgeText then false
  else negb (isHarnessBackgroundNotice (MText m)).

Inductive ActivityState := ActivityUnknown | ActivityDraft | ActivityActive.

Definition ActivityOf (messages : list Message) : ActivityState :=
  if existsb IsGenuineUserPrompt messages then ActivityActive else ActivityDraft.

(** ** Clamping *)

Definition ellipsis : gostr := [8230%N].

Definition maxTitleRunes : nat := 120.
Definition maxTitleSourcePrompts : nat := 3.
Definition maxTitleSourceRunes : nat := N.to_nat 2000.
Definition maxGeneratedTitleRunes : nat := 80.

Definition ClampTitle (s : gostr) : gostr :=
  let s := Join (Fields s) [space] in
  if s =s [] then []
  else if length s <=? maxTitleRunes then s
  else take maxTitleRunes s ++ ellipsis.

Definition clampGeneratedTitle (text : gostr) : gostr :=
  let text := Join (Fields text) [space] in
  if length text <=? maxGeneratedTitleRunes then text
  else take (maxGeneratedTitleRunes - 1) text ++ ellipsis.

(** [session.go]: the persisted failure cause. *)
Definition maxSnapshotErrorRunes : nat := 400.

Definition clampSnapshotRunes (s : gostr) (n : nat) : gostr :=
  if length s <=? n then s else take n s ++ ellipsis.

Definition normaliseSnapshotError (cause : gostr) : gostr :=
  clampSnapshotRunes (Join (Fields cause) [space]) maxSnapshotErrorRunes.

(** ** Title metadata *)

Inductive TitleProvenance :=
  | TitleProvenanceUnknown | TitleProvenanceFirstPrompt
  | TitleProvenanceOperator | TitleProvenanceGenerated.
#[global] Instance TitleProvenance_eq_dec : EqDecision TitleProvenance.
Proof. solve_decision. Defined.

(** [TitleGenerationUnset] is the empty string a legacy snapshot may carry. *)
Inductive TitleGenerationState :=
  | TitleGenerationUnset | TitleGenerationDisabled | TitleGenerationPending
  | TitleGenerationGenerated | TitleGenerationExhausted.
#[global] Instance TitleGenerationState_eq_dec : EqDecision TitleGenerationState.
Proof. solve_decision. Defined.

Inductive TitleAttemptOutcome :=
  | TitleAttemptSucceeded | TitleAttemptDeferred | TitleAttemptFailed | TitleAttemptInterrupted.
#[global] Instance TitleAttemptOutcome_eq_dec : EqDecision TitleAttemptOutcome.
Proof. solve_decision. Defined.

Record TitleAttempt := mkAttempt { AttemptID : gostr; AttemptOutcome : TitleAttemptOutcome }.
#[global] Instance TitleAttempt_eq_dec : EqDecision TitleAttempt.
Proof. solve_decision. Defined.

Record TitleMeta := mkTitleMeta {
  Title : gostr;
  TitleProv : TitleProvenance;
  TitleGeneration : TitleGenerationState;
  TitleRevision : Z;
  titleSourcePrompts : list gostr;
  titleAttempts : list TitleAttempt
}.

(** The title fields of a new session. *)
Definition newTitleMeta : TitleMeta :=
  mkTitleMeta [] TitleProvenanceUnknown TitleGenerationDisabled 0 [] [].


Definition bumpTitleRevision (m : TitleMeta) : TitleMeta :=
  mkTitleMeta (Title m) (TitleProv m) (TitleGeneration m)
    (if (TitleRevision m =? maxUint64)%Z then TitleRevision m else (TitleRevision m + 1)%Z)
    (titleSourcePrompts m) (titleAttempts m).

Definition SetTitle (m : TitleMeta) (text : gostr) : TitleMeta :=
  if Title m =s [] && negb (TrimSpace text =s [])
  then bumpTitleRevision (mkTitleMeta (ClampTitle text) TitleProvenanceFirstPrompt
         (TitleGeneration m) (TitleRevision m) (titleSourcePrompts m) (titleAttempts m))
  else m.

(** [None] is the blank-title error. *)
Definition RenameTitle (m : TitleMeta) (text : gostr) : option TitleMeta :=
  let title := ClampTitle text in
  if title =s [] then None
  else if Title m =s title && TitleProv m =s TitleProvenanceOperator then Some m
  else Some (bumpTitleRevision (mkTitleMeta title TitleProvenanceOperator
         (TitleGeneration m) (TitleRevision m) (titleSourcePrompts m) (titleAttempts m))).

(** The captured prompt, when one is captured. *)
Definition recordTitleSourcePrompt (m : TitleMeta) (text : gostr) : option TitleMeta :=
  if TrimSpace text =s [] || (length (titleSourcePrompts m) =? maxTitleSourcePrompts) then None
  else
    let text := if maxTitleSourceRunes <? length text then take maxTitleSourceRunes text else text in
    Some (mkTitleMeta (Title m) (TitleProv m) (TitleGeneration m) (TitleRevision m)
            (titleSourcePrompts m ++ [text]) (titleAttempts m)).

Definition RecordTitleSourcePrompt (m : TitleMeta) (text : gostr) : TitleMeta :=
  if negb (TitleGeneration m =s TitleGenerationPending) then m
  else match recordTitleSourcePrompt m text with
       | None => m
       | Some m' => bumpTitleRevision m'
       end.

Definition SetTitleGeneration (m : TitleMeta) (state : TitleGenerationState) : TitleMeta :=
  if TitleGeneration m =s state then m
  else bumpTitleRevision (mkTitleMeta (Title m) (TitleProv m) state (TitleRevision m)
         (titleSourcePrompts m) (titleAttempts m)).

Definition ApplyTitleGeneration (m : TitleMeta) (generation : TitleGenerationState)
    (attempts : list TitleAttempt) : TitleMeta :=
  let generation := if generation =s TitleGenerationUnset then TitleGenerationDisabled else generation in
  if TitleGeneration m =s generation && titleAttempts m =s attempts then m
  else bumpTitleRevision (mkTitleMeta (Title m) (TitleProv m) generation (TitleRevision m)
         (titleSourcePrompts m) attempts).

Definition RecordTitleAttempt (m : TitleMeta) (attempt : TitleAttempt) : TitleMeta :=
  ApplyTitleGeneration m (TitleGeneration m) (titleAttempts m ++ [attempt]).

Definition SetGeneratedTitle (m : TitleMeta) (text : gostr) : option TitleMeta :=
  let title := clampGeneratedTitle text in
  if title =s [] then None
  else if Title m =s title && TitleProv m =s TitleProvenanceGenerated
          && TitleGeneration m =s TitleGenerationGenerated then Some m
  else Some (bumpTitleRevision (mkTitleMeta title TitleProvenanceGenerated TitleGenerationGenerated
         (TitleRevision m) (titleSourcePrompts m) (titleAttempts m))).

(** [_] is the metadata being replaced. *)
Definition RestoreTitleMetadata (_ : TitleMeta) (title : gostr) (provenance : TitleProvenance)
    (revision : Z) (generation : TitleGenerationState) (sources : list gostr)
    (attempts : list TitleAttempt) : TitleMeta :=
  let generation := if generation =s TitleGenerationUnset then TitleGenerationDisabled else generation in
  let m := mkTitleMeta title provenance generation revision [] [] in
  let m := foldl (λ m source, default m (recordTitleSourcePrompt m source)) m sources in
  mkTitleMeta (Title m) (TitleProv m) (TitleGeneration m) (TitleRevision m)
    (titleSourcePrompts m) attempts.

(** * Lemmas *)

(** Normal form: words joined by single spaces. *)
Definition normal (s : gostr) : Prop := ∃ ws, Forall word ws ∧ s = Join ws [space].

Lemma normal_Join s : normal (Join (Fields s) [space]).
Proof. exists (Fields s). split; [apply Fields_words|done]. Qed.

Lemma normal_id s : normal s → Join (Fields s) [space] = s.
Proof. intros (ws & Hw & ->). by rewrite Fields_Join. Qed.

Lemma word_snoc w e : is_space e = false → Forall (λ c, is_space c = false) w → word (w ++ [e]).
Proof. intros He Hw. split; [by destruct w|]. apply Forall_app. auto. Qed.

(** Cutting a normal form anywhere and appending a non-space keeps it normal. *)
Lemma normal_take ws n e :
  is_space e = false → Forall word ws →
  ∃ ws', ws' ≠ [] ∧ Forall word ws' ∧ take n (Join ws [space]) ++ [e] = Join ws' [space].
Proof.
  intros He Hws. revert n. induction Hws as [|w ws [Hne Hw] Hws IH]; intros n.
  { exists [[e]]. split_and!; [done|repeat constructor; done|]. by destruct n. }
  destruct (decide (ws = [])) as [->|Hn].
  { exists [take n w ++ [e]]. split_and!; [done| |done]. constructor; [|done].
    apply word_snoc; [done|]. by apply Forall_take. }
  rewrite Join_cons by done. destruct (decide (n ≤ length w)) as [Hle|Hgt].
  - exists [take n w ++ [e]]. split_and!; [done| |by rewrite take_app_le].
    constructor; [|done]. apply word_snoc; [done|by apply Forall_take].
  - destruct (IH (n - length w - 1)) as (ws' & Hne' & Hw' & Heq). exists (w :: ws').
    split_and!; [done|by constructor|]. rewrite Join_cons by done.
    rewrite take_app_ge by lia. rewrite <-!app_assoc. f_equal. rewrite <-Heq.
    destruct (n - length w) as [|k] eqn:Ek; [lia|]. simpl. do 3 f_equal. lia.
Qed.

Lemma normal_clamp s n : normal s → normal (take n s ++ ellipsis).
Proof.
  intros (ws & Hw & ->). destruct (normal_take ws n 8230%N) as (ws' & _ & Hw' & Heq); [done..|].
  by exists ws'.
Qed.

Lemma ClampTitle_normal s : normal (ClampTitle s).
Proof.
  unfold ClampTitle. repeat case_bool; [by exists []|apply normal_Join|].
  apply normal_clamp, normal_Join.
Qed.

Lemma ClampTitle_length s : length (ClampTitle s) ≤ maxTitleRunes + 1.
Proof.
  unfold ClampTitle. repeat case_bool; [simpl; lia|apply Nat.leb_le in E0; lia|].
  rewrite length_app, length_take. change (length ellipsis) with 1. lia.
Qed.

Lemma ClampTitle_idemp s : ClampTitle (ClampTitle s) = ClampTitle s.
Proof.
  unfold ClampTitle at 1. rewrite normal_id by apply ClampTitle_normal.
  case_bool; [by bprop|]. case_bool; [done|]. unfold ClampTitle in *.
  set (J := Join (Fields s) [space]) in *. destruct (J =s []); [done|].
  destruct (length J <=? maxTitleRunes) eqn:EJ; [by rewrite EJ in E0|]. apply Nat.leb_gt in EJ.
  rewrite take_app_le by (rewrite length_take; lia). by rewrite take_take, Nat.min_id.
Qed.

Lemma ClampTitle_blank s : ClampTitle s = [] ↔ TrimSpace s = [].
Proof.
  rewrite <-Fields_nil_TrimSpace. unfold ClampTitle. split.
  - case_bool; bprop.
    + intros _. destruct (decide (Fields s = [])); [done|].
      by destruct (Join_nonempty (Fields s) (Fields_words s)).
    + case_bool; [done|]. intros H. by destruct (take maxTitleRunes _).
  - by intros ->.
Qed.

Lemma clampGenerated_spec s :
  normal (clampGeneratedTitle s) ∧ length (clampGeneratedTitle s) ≤ maxGeneratedTitleRunes ∧
  clampGeneratedTitle (clampGeneratedTitle s) = clampGeneratedTitle s.
Proof.
  assert (Hn : normal (clampGeneratedTitle s)).
  { unfold clampGeneratedTitle. case_bool; [apply normal_Join|apply normal_clamp, normal_Join]. }
  assert (Hl : length (clampGeneratedTitle s) ≤ maxGeneratedTitleRunes).
  { unfold clampGeneratedTitle. case_bool; [by apply Nat.leb_le in E|].
    rewrite length_app, length_take. change (length ellipsis) with 1.
    unfold maxGeneratedTitleRunes. lia. }
  split_and!; [done..|]. unfold clampGeneratedTitle at 1. rewrite normal_id by done.
  by rewrite (proj2 (Nat.leb_le _ _) Hl).
Qed.

(** ** Metadata steps *)

(** The mutators of the title metadata (restoration apart). *)
Inductive title_step (m : TitleMeta) : TitleMeta → Prop :=
  | ts_set text : title_step m (SetTitle m text)
  | ts_rename text m' : RenameTitle m text = Some m' → title_step m m'
  | ts_source text : title_step m (RecordTitleSourcePrompt m text)
  | ts_generation g : title_step m (SetTitleGeneration m g)
  | ts_apply g ats : title_step m (ApplyTitleGeneration m g ats)
  | ts_attempt a : title_step m (RecordTitleAttempt m a)
  | ts_generated text m' : SetGeneratedTitle m text = Some m' → title_step m m'.

(** A title is in normal form and at most one rune over its limit. *)
Definition title_ok (t : gostr) : Prop :=
  Join (Fields t) [space] = t ∧ length t ≤ maxTitleRunes + 1.

Record meta_ok (m : TitleMeta) : Prop := {
  meta_title : title_ok (Title m);
  meta_prov : TitleProv m ≠ TitleProvenanceUnknown ↔ Title m ≠ [];
  meta_rev : (0 ≤ TitleRevision m ≤ maxUint64)%Z;
  meta_count : length (titleSourcePrompts m) ≤ maxTitleSourcePrompts;
  meta_sources : Forall (λ s, length s ≤ maxTitleSourceRunes) (titleSourcePrompts m)
}.

Lemma ClampTitle_ok s : title_ok (ClampTitle s).
Proof. split; [apply normal_id, ClampTitle_normal|apply ClampTitle_length]. Qed.

Lemma clampGenerated_ok s : title_ok (clampGeneratedTitle s).
Proof.
  destruct (clampGenerated_spec s) as (Hn & Hl & _). split; [by apply normal_id|].
  unfold maxGeneratedTitleRunes, maxTitleRunes in *. lia.
Qed.

Lemma bump_ok m : meta_ok m → meta_ok (bumpTitleRevision m).
Proof.
  intros []. split; simpl; try done. destruct (Z.eqb_spec (TitleRevision m) maxUint64); [done|].
  unfold maxUint64 in *. lia.
Qed.

Lemma recordTitleSourcePrompt_ok m text m' :
  recordTitleSourcePrompt m text = Some m' → meta_ok m → meta_ok m'.
Proof.
  unfold recordTitleSourcePrompt. destruct (_ || _) eqn:E; [done|]. cbv zeta. intros [= <-] [].
  bprop. rename select (_ =? _ = false) into Hl. apply Nat.eqb_neq in Hl.
  split; simpl; try done.
  - rewrite length_app. simpl. lia.
  - apply Forall_app. split; [done|]. constructor; [|done].
    destruct (Nat.ltb_spec maxTitleSourceRunes (length text)); [|done].
    rewrite length_take. lia.
Qed.

(** Every mutator leaves the metadata alone or advances the revision once. *)
Definition bumped (m m' : TitleMeta) : Prop :=
  TitleRevision m' = Z.min maxUint64 (TitleRevision m + 1).

Lemma bump_bumped m m0 :
  (TitleRevision m ≤ maxUint64)%Z → TitleRevision m0 = TitleRevision m → bumped m (bumpTitleRevision m0).
Proof.
  unfold bumped. simpl. intros Hle ->.
  destruct (Z.eqb_spec (TitleRevision m) maxUint64); lia.
Qed.

Lemma title_step_ok m m' : meta_ok m → title_step m m' → meta_ok m' ∧ (m' = m ∨ bumped m m').
Proof.
  intros Hm Hs. pose proof (meta_rev _ Hm) as [_ Hrev]. destruct Hs as [t|t m' H|t|g|g ats|a|t m' H].
  - unfold SetTitle. destruct (_ && _) eqn:E; [|auto]. bprop.
    split; [|right; by apply bump_bumped]. apply bump_ok. destruct Hm. split; simpl; try done.
    + apply ClampTitle_ok.
    + rewrite ClampTitle_blank. done.
  - revert H. unfold RenameTitle. cbv zeta. destruct (ClampTitle t =s []) eqn:E; [done|].
    destruct (_ && _); intros [= <-]; [auto|]. bprop.
    split; [|right; by apply bump_bumped]. apply bump_ok. destruct Hm. split; simpl; try done.
    apply ClampTitle_ok.
  - unfold RecordTitleSourcePrompt. case_bool; [auto|].
    destruct (recordTitleSourcePrompt m t) as [m0|] eqn:E0; [|auto].
    split; [by eapply bump_ok, recordTitleSourcePrompt_ok|]. right. apply bump_bumped; [done|].
    revert E0. unfold recordTitleSourcePrompt. destruct (_ || _); [done|]. by intros [= <-].
  - unfold SetTitleGeneration. case_bool; [auto|]. split; [|right; by apply bump_bumped].
    apply bump_ok. by destruct Hm; split.
  - unfold ApplyTitleGeneration. cbv zeta. destruct (_ && _); [auto|].
    split; [|right; by apply bump_bumped]. apply bump_ok. by destruct Hm; split.
  - unfold RecordTitleAttempt, ApplyTitleGeneration. cbv zeta. destruct (_ && _); [auto|].
    split; [|right; by apply bump_bumped]. apply bump_ok. by destruct Hm; split.
  - revert H. unfold SetGeneratedTitle. cbv zeta. destruct (clampGeneratedTitle t =s []) eqn:E; [done|].
    destruct (_ && _); intros [= <-]; [auto|]. bprop.
    split; [|right; by apply bump_bumped]. apply bump_ok. destruct Hm. split; simpl; try done.
    apply clampGenerated_ok.
Qed.

Lemma newTitleMeta_ok : meta_ok newTitleMeta.
Proof. split; simpl; try done; try lia. split; simpl; [done|lia]. Qed.

(** * Properties *)

(** Titles are normalised once and for all: clamping is idempotent, gives
    single-spaced text of at most 121 runes (80 for generated titles), and is
    empty exactly on blank input. *)
Theorem clamp_title_normalises s :
  ClampTitle (ClampTitle s) = ClampTitle s ∧
  Join (Fields (ClampTitle s)) [space] = ClampTitle s ∧
  length (ClampTitle s) ≤ 121 ∧ (ClampTitle s = [] ↔ TrimSpace s = []) ∧
  clampGeneratedTitle (clampGeneratedTitle s) = clampGeneratedTitle s ∧
  length (clampGeneratedTitle s) ≤ 80.
Proof.
  destruct (clampGenerated_spec s) as (_ & Hl & Hi).
  split_and!; try done; [apply ClampTitle_idemp|apply normal_id, ClampTitle_normal|
    apply ClampTitle_length|apply ClampTitle_blank..].
Qed.

(** Along any history of title mutations of a session the metadata is well
    formed (title clamped, an author recorded exactly when there is a title, at
    most three bounded source prompts, a revision within [uint64]), and every
    mutation either changes nothing or advances the revision by one, saturating
    at the maximum. *)
Theorem title_metadata_invariant m m' :
  rtc title_step newTitleMeta m → title_step m m' →
  meta_ok m' ∧ (m' = m ∨ TitleRevision m' = Z.min maxUint64 (TitleRevision m + 1)).
Proof.
  intros Hr. assert (Hm : meta_ok m).
  { revert Hr. generalize newTitleMeta_ok. generalize newTitleMeta.
    intros m0 H0 Hr. induction Hr as [|m0 m1 m Hs _ IH]; [done|].
    apply IH. by eapply title_step_ok. }
  apply title_step_ok, Hm.
Qed.

Lemma title_metadata_invariant_witness :
  meta_ok (SetTitle newTitleMeta #"  fix   the build ").
Proof.
  apply (title_metadata_invariant newTitleMeta _); [apply rtc_refl|apply ts_set].
Defined.

(** A title is seeded once and never silently replaced: after [SetTitle] with
    a non-blank prompt later prompts change nothing, only an explicit rename or
    a generated title does, and a rename is idempotent. *)
Theorem title_set_once m t1 t2 m1 :
  TrimSpace t1 ≠ [] →
  SetTitle (SetTitle m t1) t2 = SetTitle m t1 ∧
  (RenameTitle m t1 = Some m1 →
   SetTitle m1 t2 = m1 ∧ RenameTitle m1 t1 = Some m1 ∧
   Title m1 = ClampTitle t1 ∧ TitleProv m1 = TitleProvenanceOperator).
Proof.
  intros Ht. split.
  - unfold SetTitle at 2 3. destruct (Title m =s []) eqn:E; simpl.
    + rewrite bool_decide_false by done. simpl. unfold SetTitle. simpl.
      rewrite (bool_decide_false (ClampTitle t1 = [])); [done|]. by rewrite ClampTitle_blank.
    + unfold SetTitle. by rewrite E.
  - intros Hr.
    assert (Hm1 : ClampTitle t1 ≠ [] ∧ Title m1 = ClampTitle t1 ∧ TitleProv m1 = TitleProvenanceOperator).
    { revert Hr. unfold RenameTitle. cbv zeta. destruct (ClampTitle t1 =s []) eqn:Eb; [done|].
      destruct (_ && _) eqn:E; intros [= <-]; by bprop. }
    destruct Hm1 as (Hne & H1 & H2). unfold SetTitle, RenameTitle. cbv zeta.
    rewrite H1, H2, (bool_decide_false (ClampTitle t1 = [])) by done.
    split_and!; [done| |done|done]. by rewrite !bool_decide_true.
Qed.

Lemma title_set_once_witness :
  SetTitle (SetTitle newTitleMeta #"first") #"second" = SetTitle newTitleMeta #"first".
Proof. apply (title_set_once newTitleMeta #"first" #"second" newTitleMeta). done. Defined.

(** Title metadata survives persistence: restoring the stored fields of
    well-formed metadata (generation state set, source prompts not blank) gives
    the same metadata and does not advance the revision. *)
Theorem title_restore_roundtrip m m0 :
  length (titleSourcePrompts m) ≤ maxTitleSourcePrompts →
  Forall (λ s, length s ≤ maxTitleSourceRunes ∧ TrimSpace s ≠ []) (titleSourcePrompts m) →
  TitleGeneration m ≠ TitleGenerationUnset →
  RestoreTitleMetadata m0 (Title m) (TitleProv m) (TitleRevision m) (TitleGeneration m)
    (titleSourcePrompts m) (titleAttempts m) = m.
Proof.
  intros Hlen Hs Hg. unfold RestoreTitleMetadata. rewrite bool_decide_false by done.
  assert (H : ∀ sources acc,
    length (acc ++ sources) ≤ maxTitleSourcePrompts →
    Forall (λ s, length s ≤ maxTitleSourceRunes ∧ TrimSpace s ≠ []) sources →
    foldl (λ m source, default m (recordTitleSourcePrompt m source))
      (mkTitleMeta (Title m) (TitleProv m) (TitleGeneration m) (TitleRevision m) acc []) sources =
    mkTitleMeta (Title m) (TitleProv m) (TitleGeneration m) (TitleRevision m) (acc ++ sources) []).
  { clear Hs Hlen. intros sources. induction sources as [|s sources IH]; intros acc Hl Hs.
    { by rewrite app_nil_r. }
    apply Forall_cons in Hs as [[Hs1 Hs2] Hs]. simpl. unfold recordTitleSourcePrompt at 2. cbn [titleSourcePrompts].
    rewrite bool_decide_false by done. cbn [orb].
    rewrite length_app in Hl. simpl in Hl.
    rewrite (proj2 (Nat.eqb_neq _ _)) by lia. cbv zeta.
    rewrite (proj2 (Nat.ltb_ge _ _)) by lia. cbn [default].
    replace (acc ++ s :: sources) with ((acc ++ [s]) ++ sources) by (by rewrite <-app_assoc).
    apply IH; [|done]. rewrite !length_app. simpl. lia. }
  rewrite H by done. by destruct m.
Qed.

Lemma title_restore_roundtrip_witness :
  let m := RecordTitleSourcePrompt (SetTitleGeneration newTitleMeta TitleGenerationPending) #"hello" in
  RestoreTitleMetadata newTitleMeta (Title m) (TitleProv m) (TitleRevision m) (TitleGeneration m)
    (titleSourcePrompts m) (titleAttempts m) = m.
Proof.
  cbv zeta. apply (title_restore_roundtrip
    (RecordTitleSourcePrompt (SetTitleGeneration newTitleMeta TitleGenerationPending) #"hello") newTitleMeta).
  - vm_compute. lia.
  - change (Forall (λ s, length s ≤ maxTitleSourceRunes ∧ TrimSpace s ≠ []) [ #"hello" ]).
    constructor; [|constructor]. split; [vm_compute; lia|done].
  - done.
Defined.
