(* ===== verification/Authorization.v ===== *)
(** * External authorization of a parked tool call

    [engine/session/authorization.go]: the value checks, and the validator that
    ties a parked call and its deferred siblings to the trailing assistant turn.
    The session transitions that use it are in [Session].

    Go strings are valid UTF-8 here, so [utf8.ValidString] holds of all of them.
    A [time.Time] is its nanoseconds since Go's zero time. *)

From S2P Require Import Prelude Conversation.

Abbreviation Time := Z (only parsing).
Definition IsZero (t : Time) : bool := (t =? 0)%Z.

(** ** Values *)

Definition maxAuthorizationValueBytes : nat := 256.

Definition validAuthorizationValue (value : gostr) : bool :=
  if value =s [] || (maxAuthorizationValueBytes <? byteLen value) then false
  else forallb (λ r, negb (IsControl r)) value.

Definition validAuthorizationID (value : gostr) : bool :=
  if negb (validAuthorizationValue value) then false
  else forallb (λ r, negb (IsControl r || is_space r)) value.

Definition ValidAuthorizationID (value : gostr) : bool := validAuthorizationID value.

Definition validAuthorizationDisplayName (value : gostr) : bool :=
  validAuthorizationValue value && TrimSpace value =s value.

Definition validAuthorizationBinding (binding : gostr) : bool :=
  negb (binding =s []) && (byteLen binding <=? maxAuthorizationValueBytes).

Definition validAuthorizationCall (call : ToolCall) : bool :=
  validAuthorizationID (CallID call) && negb (TrimSpace (CallName call) =s []).

Record ExternalAuthorization := mkExternalAuthorization {
  EAID : gostr; EADisplayName : gostr; EABinding : gostr; EAExpiresAt : Time
}.

Record PendingAuthorization := mkPendingAuthorization {
  PAuthorization : ExternalAuthorization; PCall : ToolCall; PDeferred : list ToolCall
}.

Inductive AuthError :=
  | AEInvalidID | AEDisplayName | AEBinding | AEExpiry | AEPendingCall | AEDeferredCall
  | AEDuplicateCall (id : gostr) | AENoAssistant | AEHistoryUnpaired (e : PairingError)
  | AETrailingCall | AEDuplicateTrailing (id : gostr) | AEIdentity | AENotFound | AEDeferredMismatch
  | AENonTool | AEUnknownResult (id : gostr) | AEDuplicateResult (id : gostr)
  | AELacksResult (id : gostr) | AEHasResult (id : gostr).

Definition sameAuthorizationCallIdentity (original effective : ToolCall) : bool :=
  CallID original =s CallID effective && CallName original =s CallName effective
  && CallItemID original =s CallItemID effective.

(** ** The validator *)

(** The duplicate checks share this loop: [valid] rejects a call, [bad] and
    [dup] are the two errors. *)
Fixpoint distinctLoop (bad : AuthError) (dup : gostr → AuthError) (seen : gset gostr)
    (calls : list ToolCall) : option AuthError :=
  match calls with
  | [] => None
  | call :: calls' =>
      if negb (validAuthorizationCall call) then Some bad
      else if CallID call ∈? seen then Some (dup (CallID call))
      else distinctLoop bad dup ({[CallID call]} ∪ seen) calls'
  end.

(** The scan for the parked call; the last match wins, as in the code. *)
Fixpoint findPending (pending : ToolCall) (i : nat) (at_ : option nat) (calls : list ToolCall)
    : option nat + AuthError :=
  match calls with
  | [] => inl at_
  | call :: calls' =>
      if CallID call =s CallID pending
      then if negb (sameAuthorizationCallIdentity call pending) then inr AEIdentity
           else findPending pending (S i) (Some i) calls'
      else findPending pending (S i) at_ calls'
  end.

(** The results after the trailing assistant message. *)
Fixpoint answeredLoop (known answered : gset gostr) (msgs : list Message) : gset gostr + AuthError :=
  match msgs with
  | [] => inl answered
  | m :: msgs' =>
      match MRole m, MToolResult m with
      | RoleTool, Some r =>
          if negb (RCallID r ∈? known) then inr (AEUnknownResult (RCallID r))
          else if RCallID r ∈? answered then inr (AEDuplicateResult (RCallID r))
          else answeredLoop known ({[RCallID r]} ∪ answered) msgs'
      | _, _ => inr AENonTool
      end
  end.

(** Calls before the parked one are answered, the others are not. *)
Fixpoint progressLoop (pendingAt i : nat) (answered : gset gostr) (calls : list ToolCall)
    : option AuthError :=
  match calls with
  | [] => None
  | call :: calls' =>
      let hasResult := CallID call ∈? answered in
      if (i <? pendingAt) && negb hasResult then Some (AELacksResult (CallID call))
      else if (pendingAt <=? i) && hasResult then Some (AEHasResult (CallID call))
      else progressLoop pendingAt (S i) answered calls'
  end.

Section validator.
(** [json.Marshal] of a raw message: its compact form, [None] when invalid. *)
Context (compactJSON : list N → option (list N)).

Definition equivalentAuthorizationArgs (original pending : list N) : bool :=
  if original =s pending then true
  else match compactJSON original, compactJSON pending with
       | Some a, Some b => a =s b
       | _, _ => false
       end.

Definition sameDeferredAuthorizationCall (original pending : ToolCall) : bool :=
  sameAuthorizationCallIdentity original pending
  && equivalentAuthorizationArgs (CallArgs original) (CallArgs pending).

Fixpoint sameDeferred (trailing deferred : list ToolCall) : bool :=
  match trailing, deferred with
  | [], [] => true
  | o :: trailing', d :: deferred' =>
      sameDeferredAuthorizationCall o d && sameDeferred trailing' deferred'
  | _, _ => false
  end.

(** The checks on the trailing assistant turn [a], [after]. *)
Definition validateTurn (before : list Message) (a : Message) (after : list Message)
    (pending : PendingAuthorization) : option AuthError :=
  let calls := MToolCalls a in
  match ValidateToolPairing before with
  | Some e => Some (AEHistoryUnpaired e)
  | None =>
      match distinctLoop AETrailingCall AEDuplicateTrailing ∅ calls with
      | Some e => Some e
      | None =>
          match findPending (PCall pending) 0 None calls with
          | inr e => Some e
          | inl None => Some AENotFound
          | inl (Some pendingAt) =>
              if negb (sameDeferred (drop (S pendingAt) calls) (PDeferred pending))
              then Some AEDeferredMismatch
              else match answeredLoop (callIDs calls) ∅ after with
                   | inr e => Some e
                   | inl answered => progressLoop pendingAt 0 answered calls
                   end
          end
      end
  end.

Definition validatePendingAuthorization (messages : list Message) (pending : PendingAuthorization)
    : option AuthError :=
  let auth := PAuthorization pending in
  if negb (validAuthorizationID (EAID auth)) then Some AEInvalidID
  else if negb (EADisplayName auth =s []) && negb (validAuthorizationDisplayName (EADisplayName auth))
  then Some AEDisplayName
  else if negb (validAuthorizationBinding (EABinding auth)) then Some AEBinding
  else if IsZero (EAExpiresAt auth) then Some AEExpiry
  else if negb (validAuthorizationCall (PCall pending)) then Some AEPendingCall
  else match distinctLoop AEDeferredCall AEDuplicateCall {[CallID (PCall pending)]} (PDeferred pending) with
       | Some e => Some e
       | None =>
           match lastAssistant messages with
           | None => Some AENoAssistant
           | Some (before, a, after) => validateTurn before a after pending
           end
       end.
End validator.

(** ** Resolution *)

Definition authorizationAbortMessage (reason : gostr) : gostr :=
  if reason =s #"denied" then #"external authorization denied"
  else if reason =s #"cancelled" then #"external authorization cancelled"
  else if reason =s #"expired" then #"external authorization expired"
  else if reason =s #"interrupted" then #"external authorization interrupted"
  else if reason =s #"unavailable" then #"external authorization unavailable"
  else #"external authorization failed".

Definition deferredMessage : gostr := #"authorization deferred sibling was not executed".

(** The results [resolveAuthorization] builds. *)
Definition abortResults (reason : gostr) (pending : PendingAuthorization) : list ToolResult :=
  NewToolError (CallID (PCall pending)) (authorizationAbortMessage reason)
  :: ((λ call, NewToolError (CallID call) deferredMessage) <$> PDeferred pending).

(** * Lemmas *)

Lemma distinctLoop_None bad dup seen calls :
  distinctLoop bad dup seen calls = None →
  NoDup (CallID <$> calls) ∧ (∀ c, c ∈ calls → CallID c ∉ seen).
Proof.
  revert seen. induction calls as [|c calls IH]; intros seen; simpl.
  { split; [constructor|]. intros ? Hx. by apply not_elem_of_nil in Hx. }
  destruct (negb _); [done|]. case_bool; [done|]. bprop. intros [Hnd Hs]%IH.
  csimpl. split.
  - constructor; [|done]. intros (c' & Hc & Hin)%list_elem_of_fmap. apply (Hs c' Hin). set_solver.
  - intros x [->|Hx]%elem_of_cons; [done|]. specialize (Hs x Hx). set_solver.
Qed.

Lemma findPending_None pending i at_ calls r :
  findPending pending i at_ calls = inl r → CallID pending ∉ CallID <$> calls → r = at_.
Proof.
  revert i at_. induction calls as [|c calls IH]; intros i at_; csimpl; [by intros [= <-]|].
  intros H Hn. rewrite bool_decide_false in H by set_solver. eapply IH; [done|set_solver].
Qed.

(** With distinct ids the parked call is found at its position. *)
Lemma findPending_Some pending i calls n :
  NoDup (CallID <$> calls) → findPending pending i None calls = inl (Some n) →
  ∃ pre c post, calls = pre ++ c :: post ∧ n = i + length pre ∧
    CallID c = CallID pending ∧ CallName c = CallName pending.
Proof.
  revert i. induction calls as [|c calls IH]; intros i Hnd; simpl; [done|].
  csimpl in Hnd. apply NoDup_cons in Hnd as [Hc Hnd]. case_bool; bprop.
  - case_bool; [done|]. intros H. apply findPending_None in H; [|by rewrite <-E]. simplify_eq.
    exists [], c, calls. unfold sameAuthorizationCallIdentity in *. bprop.
    split_and!; [done|simpl; lia|done|done].
  - intros (pre & c' & post & -> & -> & H1 & H2)%IH; [|done]. exists (c :: pre), c', post.
    split_and!; [done|simpl; lia|done|done].
Qed.

Lemma sameDeferred_ids compact trailing deferred :
  sameDeferred compact trailing deferred = true → CallID <$> trailing = CallID <$> deferred.
Proof.
  revert deferred. induction trailing as [|o trailing IH]; intros [|d deferred]; csimpl; try done.
  unfold sameDeferredAuthorizationCall, sameAuthorizationCallIdentity. intros H. bprop.
  f_equal; [done|]. by apply IH.
Qed.

(** The results recorded so far answer distinct calls of the turn. *)
Lemma answeredLoop_scan known answered msgs out :
  answeredLoop known answered msgs = inl out → answered ⊆ known →
  scan (known ∖ answered) msgs = Some (known ∖ out) ∧ out ⊆ known ∧
  Forall (λ m, MRole m = RoleTool) msgs.
Proof.
  revert answered. induction msgs as [|m msgs IH]; intros answered; simpl.
  { intros [= <-] Hs. split_and!; [done..|constructor]. }
  destruct (MRole m) eqn:Er; try done. destruct (MToolResult m) as [r|]; [|done].
  case_bool; [done|]. case_bool; [done|]. bprop. intros H Hs.
  apply IH in H as (Hscan & Hsub & Hall); [|set_solver].
  rewrite bool_decide_true by set_solver. split_and!; [|done|by constructor].
  rewrite <-Hscan. f_equal. set_solver.
Qed.

Lemma progressLoop_None pendingAt i answered pre post :
  i + length pre = pendingAt → progressLoop pendingAt i answered (pre ++ post) = None →
  (∀ c, c ∈ pre → CallID c ∈ answered) ∧ (∀ c, c ∈ post → CallID c ∉ answered).
Proof.
  revert i. induction pre as [|c pre IH]; intros i Hi; simpl.
  - intros H. split; [intros ? Hx; by apply not_elem_of_nil in Hx|].
    simpl in Hi. assert (Hle : pendingAt ≤ i) by lia. clear Hi. revert i Hle H.
    induction post as [|c post IH]; intros i Hle; simpl.
    { intros _ ? Hx. by apply not_elem_of_nil in Hx. }
    rewrite (proj2 (Nat.ltb_ge _ _)) by lia. rewrite (proj2 (Nat.leb_le _ _)) by lia. simpl.
    case_bool; [done|]. bprop. intros H x [->|Hx]%elem_of_cons; [done|]. by eapply (IH (S i)); [lia|..].
  - simpl in Hi. rewrite (proj2 (Nat.ltb_lt _ _)) by lia. rewrite (proj2 (Nat.leb_gt _ _)) by lia. simpl.
    case_bool; [done|]. bprop. intros H. apply IH in H as [H1 H2]; [|lia]. split; [|done].
    intros x [->|Hx]%elem_of_cons; [done|auto].
Qed.

(** ** A valid park *)

(** What the validator establishes about the history: exactly the parked call and
    its deferred siblings are open. *)
Lemma valid_park_open compact messages pending :
  validatePendingAuthorization compact messages pending = None →
  scan ∅ messages = Some (list_to_set (CallID (PCall pending) :: (CallID <$> PDeferred pending))) ∧
  NoDup (CallID (PCall pending) :: (CallID <$> PDeferred pending)).
Proof.
  unfold validatePendingAuthorization. cbv zeta.
  do 5 (destruct (_ : bool); [done|]).
  destruct (distinctLoop AEDeferredCall _ _ _) eqn:Ed; [done|].
  apply distinctLoop_None in Ed as [Hnd Hne].
  destruct (lastAssistant messages) as [[[p a] t]|] eqn:El; [|done].
  apply lastAssistant_Some in El as (-> & Ha & Ht). unfold validateTurn.
  destruct (ValidateToolPairing p) eqn:Ep; [done|]. apply Validate_scan in Ep.
  destruct (distinctLoop AETrailingCall _ _ _) eqn:Ec; [done|].
  apply distinctLoop_None in Ec as [Hcalls _].
  destruct (findPending _ _ _ _) as [[n|]|] eqn:Ef; [|done..].
  apply findPending_Some in Ef as (pre & c & post & Hpre & -> & Hid & _); [|done].
  simpl. destruct (negb _) eqn:Es; [done|]. bprop.
  destruct (answeredLoop _ _ _) as [out|] eqn:Ea; [|done]. intros Hprog.
  apply answeredLoop_scan in Ea as (Hscan & Hsub & _); [|set_solver].
  rewrite Hpre in Hprog. apply progressLoop_None in Hprog as [Hans Hopen]; [|done].
  rewrite Hpre, (app_assoc pre [c] post : pre ++ c :: post = _) in Es.
  rewrite (drop_app_length' (pre ++ [c])) in Es by (rewrite length_app; simpl; lia).
  split.
  - rewrite scan_app, Ep. simpl. rewrite Ha.
    rewrite (left_id_L ∅ _). rewrite (difference_empty_L (callIDs _)) in Hscan. rewrite Hscan. f_equal.
    apply sameDeferred_ids in Es. rewrite <-Es, <-Hid. unfold callIDs in *. rewrite Hpre in *.
    apply set_eq. intros id.
    rewrite elem_of_difference, !elem_of_list_to_set. rewrite fmap_app, elem_of_app. csimpl.
    split.
    + intros [[Hin|Hin] Hno]; [|set_solver]. exfalso. apply Hno.
      apply list_elem_of_fmap in Hin as (x & -> & Hx). by apply Hans.
    + intros Hin. assert (Hin' : id ∈ CallID c :: (CallID <$> post)) by set_solver.
      clear Hin. rename Hin' into Hin. split; [by right|].
      assert (∃ x, x ∈ c :: post ∧ id = CallID x) as (x & Hx & ->).
      { apply elem_of_cons in Hin as [->|(x & -> & Hx)%list_elem_of_fmap].
        - exists c. split; [by constructor|done].
        - exists x. split; [by constructor|done]. }
      by apply Hopen.
  - constructor; [|done]. intros (x & Hx & Hin)%list_elem_of_fmap. apply (Hne x Hin). set_solver.
Qed.

(** Recording the abort results closes the turn. *)
Lemma abort_pairs compact messages pending reason :
  validatePendingAuthorization compact messages pending = None →
  ValidateToolPairing (messages ++ (NewToolMessage <$> abortResults reason pending)) = None.
Proof.
  intros [Hs Hnd]%valid_park_open. apply Validate_scan. rewrite scan_app, Hs. simpl.
  rewrite bool_decide_true by set_solver.
  apply NoDup_cons in Hnd as [Hc Hnd].
  pose (f := λ id, NewToolMessage (NewToolError id deferredMessage)).
  assert (NewToolMessage <$> ((λ call, NewToolError (CallID call) deferredMessage) <$> PDeferred pending)
    = f <$> (CallID <$> PDeferred pending)) as Hf by (by rewrite <-!list_fmap_compose).
  etrans; [apply (f_equal (scan _) Hf)|].
  rewrite scan_results; [|by intros; split; [|eexists]|done|set_solver].
  f_equal. set_solver.
Qed.
