(* ===== verification/Labels.v ===== *)
(** * Creation labels of a session

    [engine/session/principal.go] (the principal value and its framing rule),
    [incarnation.go] (the closed syntax of incarnation ids), [kind.go] (session
    kinds and the relationship schema) and [envref.go].  Hashing and random
    minting of incarnations are parameters of the operations that use them. *)

From S2P Require Import Prelude.

(** ** Principals *)

Inductive GrantType := GrantTypeUser | GrantTypeClientCredentials | GrantTypeSystem.
#[global] Instance GrantType_eq_dec : EqDecision GrantType.
Proof. solve_decision. Defined.

Record Principal := mkPrincipal {
  Issuer : gostr; Subject : gostr; PGrantType : GrantType; PName : gostr
}.
#[global] Instance Principal_eq_dec : EqDecision Principal.
Proof. solve_decision. Defined.

Definition nul : rune := 0%N.

Definition principalIdentityHasSafeFraming (p : option Principal) : bool :=
  match p with
  | None => false
  | Some p => negb (ContainsRune (Issuer p) nul) && negb (ContainsRune (Subject p) nul)
  end.

Definition SameIdentity (p other : option Principal) : bool :=
  match p, other with
  | Some p, Some other => Issuer p =s Issuer other && Subject p =s Subject other
  | _, _ => false
  end.

(** The text whose digest is the owner scope ([PrincipalScopeHash]): [None] is
    the separate digest of an unsafely framed identity. *)
Definition principalScopeText (p : option Principal) : option gostr :=
  match p with
  | None => Some []
  | Some q => if negb (principalIdentityHasSafeFraming p) then None
              else Some (Issuer q ++ [nul] ++ Subject q)
  end.

(** ** Incarnations *)

Definition base32Lower (c : rune) : bool :=
  ((97 <=? c) && (c <=? 122) || (50 <=? c) && (c <=? 55))%N.

Definition hexRune (c : rune) : bool :=
  ((48 <=? c) && (c <=? 57) || (97 <=? c) && (c <=? 102) || (65 <=? c) && (c <=? 70))%N.

(** [hex.DecodeString] succeeds on an even number of hexadecimal digits. *)
Definition hexDecodes (s : gostr) : bool := Nat.even (length s) && forallb hexRune s.

(** [IncarnationID.Valid] *)
Definition IncarnationValid (s : gostr) : bool :=
  if HasPrefix s #"inc_" then
    if negb (byteLen s =? 30) then false
    else if negb (forallb base32Lower (drop 4 s)) then false
    else match last s with
         | Some c => c ∈? #"aeimquy4"
         | None => false
         end
  else if HasPrefix s #"legacy_" then
    if negb (byteLen s =? 71) then false
    else hexDecodes (drop 7 s)
  else false.

(** ** Kinds and relationships *)

Inductive SessionKind :=
  | SessionKindUnknown | SessionKindMain | SessionKindScheduled | SessionKindSubagent
  | SessionKindParallelBranch | SessionKindTeamMember | SessionKindDebug.
#[global] Instance SessionKind_eq_dec : EqDecision SessionKind.
Proof. solve_decision. Defined.

Record SessionRelationship := mkRel {
  ScheduleName : gostr; OriginSessionID : gostr; OriginIncarnation : gostr;
  ParentSessionID : gostr; ParentIncarnation : gostr; RelCallID : gostr;
  BranchIndex : option Z; TeamID : gostr; MemberName : gostr;
  DebugTargetID : gostr; DebugTargetIncarnation : gostr
}.
#[global] Instance SessionRelationship_eq_dec : EqDecision SessionRelationship.
Proof. solve_decision. Defined.

Definition emptyRel : SessionRelationship := mkRel [] [] [] [] [] [] None [] [] [] [].

Definition validRelatedIncarnation (id incarnation : gostr) : bool :=
  incarnation =s [] || (negb (id =s []) && IncarnationValid incarnation).

Definition validScheduledRelationship (rel : SessionRelationship) : bool :=
  let forbidden := mkRel [] [] [] (ParentSessionID rel) (ParentIncarnation rel) (RelCallID rel)
    (BranchIndex rel) (TeamID rel) (MemberName rel) (DebugTargetID rel) (DebugTargetIncarnation rel) in
  negb (ScheduleName rel =s [])
  && validRelatedIncarnation (OriginSessionID rel) (OriginIncarnation rel) && forbidden =s emptyRel.

Definition validSubagentRelationship (rel : SessionRelationship) : bool :=
  let forbidden := mkRel (ScheduleName rel) (OriginSessionID rel) (OriginIncarnation rel) [] [] []
    (BranchIndex rel) (TeamID rel) (MemberName rel) (DebugTargetID rel) (DebugTargetIncarnation rel) in
  negb (ParentSessionID rel =s []) && negb (RelCallID rel =s [])
  && validRelatedIncarnation (ParentSessionID rel) (ParentIncarnation rel) && forbidden =s emptyRel.

Definition validParallelBranchRelationship (rel : SessionRelationship) : bool :=
  let forbidden := mkRel (ScheduleName rel) (OriginSessionID rel) (OriginIncarnation rel) [] [] []
    None (TeamID rel) (MemberName rel) (DebugTargetID rel) (DebugTargetIncarnation rel) in
  negb (ParentSessionID rel =s []) && negb (RelCallID rel =s [])
  && match BranchIndex rel with Some i => (0 <=? i)%Z | None => false end
  && validRelatedIncarnation (ParentSessionID rel) (ParentIncarnation rel) && forbidden =s emptyRel.

Definition validTeamMemberRelationship (rel : SessionRelationship) : bool :=
  let forbidden := mkRel (ScheduleName rel) (OriginSessionID rel) (OriginIncarnation rel) [] [] []
    (BranchIndex rel) [] [] (DebugTargetID rel) (DebugTargetIncarnation rel) in
  let callValid := RelCallID rel =s []
    || (negb (ParentSessionID rel =s []) && IncarnationValid (ParentIncarnation rel)) in
  negb (TeamID rel =s []) && negb (MemberName rel =s []) && callValid
  && validRelatedIncarnation (ParentSessionID rel) (ParentIncarnation rel) && forbidden =s emptyRel.

Definition validDebugRelationship (rel : SessionRelationship) : bool :=
  let forbidden := mkRel (ScheduleName rel) (OriginSessionID rel) (OriginIncarnation rel)
    (ParentSessionID rel) (ParentIncarnation rel) (RelCallID rel) (BranchIndex rel)
    (TeamID rel) (MemberName rel) [] [] in
  negb (DebugTargetID rel =s [])
  && validRelatedIncarnation (DebugTargetID rel) (DebugTargetIncarnation rel) && forbidden =s emptyRel.

(** [ValidateSessionMetadata]; [true] is the nil error.  A legacy empty kind is
    [SessionKindUnknown] before it gets here. *)
Definition ValidateSessionMetadata (kind : SessionKind) (rel : SessionRelationship) : bool :=
  match kind with
  | SessionKindUnknown | SessionKindMain => rel =s emptyRel
  | SessionKindScheduled => validScheduledRelationship rel
  | SessionKindSubagent => validSubagentRelationship rel
  | SessionKindParallelBranch => validParallelBranchRelationship rel
  | SessionKindTeamMember => validTeamMemberRelationship rel
  | SessionKindDebug => validDebugRelationship rel
  end.

(** The extra requirement [newRelated] puts on new sessions. *)
Definition missingIncarnation (kind : SessionKind) (rel : SessionRelationship) : bool :=
  match kind with
  | SessionKindScheduled =>
      negb (OriginSessionID rel =s []) && negb (IncarnationValid (OriginIncarnation rel))
  | SessionKindSubagent | SessionKindParallelBranch => negb (IncarnationValid (ParentIncarnation rel))
  | SessionKindTeamMember =>
      negb (ParentSessionID rel =s []) && negb (IncarnationValid (ParentIncarnation rel))
  | SessionKindDebug => negb (IncarnationValid (DebugTargetIncarnation rel))
  | _ => false
  end.

(** ** Environment references *)

Record EnvironmentRef := mkEnvRef { EnvKind : gostr; EnvID : gostr; EnvRevision : gostr }.

(** [EnvironmentRef.Valid] *)
Definition EnvRefValid (r : EnvironmentRef) : bool :=
  negb (EnvKind r =s []) && negb (EnvID r =s []) && negb (EnvRevision r =s []).

(** * Properties *)

(** The relationship schema is exclusive: a relationship is accepted for at
    most one producer kind (main and legacy-unknown sessions share the empty
    relationship), so stored lineage determines who created the session. *)
Theorem relationship_determines_kind k1 k2 rel :
  ValidateSessionMetadata k1 rel = true → ValidateSessionMetadata k2 rel = true →
  k1 = k2 ∨
  (rel = emptyRel ∧ (k1 = SessionKindUnknown ∨ k1 = SessionKindMain)
                  ∧ (k2 = SessionKindUnknown ∨ k2 = SessionKindMain)).
Proof.
  destruct k1, k2; cbn; intros H1 H2; auto;
    unfold validScheduledRelationship, validSubagentRelationship, validParallelBranchRelationship,
      validTeamMemberRelationship, validDebugRelationship in *;
    cbv zeta in *; bprop; unfold emptyRel in *; destruct rel; simpl in *;
    repeat match goal with H : mkRel _ _ _ _ _ _ _ _ _ _ _ = _ |- _ => injection H; clear H; intros; subst end;
    try done; right; split_and!; by auto.
Qed.

Lemma relationship_determines_kind_witness :
  let rel := mkRel #"nightly" [] [] [] [] [] None [] [] [] [] in
  SessionKindScheduled = SessionKindScheduled ∨
  (rel = emptyRel ∧ (SessionKindScheduled = SessionKindUnknown ∨ SessionKindScheduled = SessionKindMain)
                  ∧ (SessionKindScheduled = SessionKindUnknown ∨ SessionKindScheduled = SessionKindMain)).
Proof.
  apply (relationship_determines_kind SessionKindScheduled SessionKindScheduled
    (mkRel #"nightly" [] [] [] [] [] None [] [] [] [])); reflexivity.
Defined.

(** Owner scopes are unambiguous: for safely framed principals the hashed
    text determines the (issuer, subject) pair, no valid principal shares the
    text of an absent owner, and an identity that carries the separator is sent
    to the separate scope. *)
Theorem principal_scope_unambiguous p q :
  principalScopeText (Some p) = principalScopeText (Some q) →
  SameIdentity (Some p) (Some q) = true ∨
  (principalIdentityHasSafeFraming (Some p) = false ∧ principalIdentityHasSafeFraming (Some q) = false).
Proof.
  unfold principalScopeText.
  destruct (principalIdentityHasSafeFraming (Some p)) eqn:Ep,
    (principalIdentityHasSafeFraming (Some q)) eqn:Eq; simpl; try done; [|by auto].
  intros [= H]. left. simpl in *. unfold ContainsRune in *. bprop.
  assert (Hs : Issuer p = Issuer q ∧ Subject p = Subject q).
  { destruct p as [ip sp gp np], q as [iq sq gq nq]; simpl in *.
    clear gp np gq nq. revert iq H H0 H2 H1 H3.
    induction ip as [|c ip IH]; intros [|d iq] H; simplify_eq/=; intros; try (split; done).
    - set_solver.
    - set_solver.
    - destruct (IH iq) as [-> ->]; [done|set_solver..|done]. }
  destruct Hs as [-> ->]. rewrite !bool_decide_true by done. done.
Qed.

Lemma principal_scope_unambiguous_witness :
  SameIdentity (Some (mkPrincipal #"i" #"s" GrantTypeUser #"a"))
    (Some (mkPrincipal #"i" #"s" GrantTypeSystem #"b")) = true ∨
  (principalIdentityHasSafeFraming (Some (mkPrincipal #"i" #"s" GrantTypeUser #"a")) = false ∧
   principalIdentityHasSafeFraming (Some (mkPrincipal #"i" #"s" GrantTypeSystem #"b")) = false).
Proof.
  apply (principal_scope_unambiguous (mkPrincipal #"i" #"s" GrantTypeUser #"a")
    (mkPrincipal #"i" #"s" GrantTypeSystem #"b")). reflexivity.
Defined.
