(* ===== verification/Session.v ===== *)
(** * The session aggregate

    [engine/session/session.go] with the aggregate methods of [usage.go],
    [title.go], [authorization.go], [workspace_enrollment.go], [principal.go],
    [kind.go], [incarnation.go] and [context_occupancy.go]: the record, one
    definition per method, and the lifecycle invariant of every history of calls.

    A method returns the new record and its error; a failing method whose guards
    come first returns the record unchanged.  [Conversation] is never nil in the
    code after [New].  The labels no method reads or writes (placement, external
    binding, profile, reasoning effort, debug labels) are left out. *)

From S2P Require Import Prelude Evaluator Authority Conversation Usage Title Authorization Labels.

(** ** Data *)

Inductive State :=
  | StateIdle | StateRunning | StateAwaiting | StateAuthorizing
  | StateCompleted | StateFailed | StateCancelled.
#[global] Instance State_eq_dec : EqDecision State.
Proof. solve_decision. Defined.

Definition IsTerminal (s : State) : bool :=
  match s with StateCompleted | StateFailed | StateCancelled => true | _ => false end.

Inductive PermissionMode := ModeDefault | ModePlan | ModeAccept.

(** [StopReason]; [StopNone] is the zero value. *)
Inductive StopReason :=
  | StopNone | StopEndTurn | StopMaxTurns | StopMaxToolCalls | StopMaxConsecutiveFailures
  | StopCancelled | StopError | StopNoProgress | StopBudget | StopTimeout
  | StopStructuredOutput | StopPlanApproved | StopPlanIterate.
#[global] Instance StopReason_eq_dec : EqDecision StopReason.
Proof. solve_decision. Defined.

Record Limits := mkLimits { MaxTurns : Z; MaxToolCalls : Z; MaxConsecutiveFailures : Z }.

(** [Limits.WithDefaults] *)
Definition WithDefaults (l d : Limits) : Limits :=
  mkLimits (if (MaxTurns l =? 0)%Z then MaxTurns d else MaxTurns l)
    (if (MaxToolCalls l =? 0)%Z then MaxToolCalls d else MaxToolCalls l)
    (if (MaxConsecutiveFailures l =? 0)%Z then MaxConsecutiveFailures d else MaxConsecutiveFailures l).

Record Counters := mkCounters { Turns : Z; ToolCalls : Z; ConsecutiveFailures : Z }.
Definition zeroCounters : Counters := mkCounters 0 0 0.

(** [retry.go]: both vocabularies are [uint8]. *)
Record RetryMetadata := mkRetry { Disposition : N; Progress : N }.
#[global] Instance RetryMetadata_eq_dec : EqDecision RetryMetadata.
Proof. solve_decision. Defined.
Definition zeroRetry : RetryMetadata := mkRetry 0 0.

Definition RetryDispositionRetryable : N := 1%N.
Definition RetryDispositionPermanent : N := 2%N.
Definition StreamProgressPrecommit : N := 1%N.
Definition StreamProgressVisible : N := 2%N.
Definition StreamProgressComplete : N := 3%N.

Definition RetryValid (m : RetryMetadata) : bool :=
  ((Disposition m <=? RetryDispositionPermanent) && (Progress m <=? StreamProgressComplete))%N.

Inductive GuardrailApprovalKind := GuardrailApprovalAction | GuardrailApprovalResultRelease.

Record GuardrailPendingScope := mkGuardrail {
  ReviewID : gostr; GKind : GuardrailApprovalKind; GrantDigest : gostr;
  SessionOnly : bool; RepeatAvailable : bool
}.

Inductive ApprovalOrigin :=
  | ApprovalOriginUnknown | ApprovalOriginPermission | ApprovalOriginHookGuardrail | ApprovalOriginPlan.

Record PendingAsk := mkAsk {
  AskID : gostr; AskTool : gostr; AskArgs : list N; AskReason : gostr; AskCall : gostr;
  AskGuardrail : option GuardrailPendingScope; AskOrigin : ApprovalOrigin; AskProv : AskProvenance
}.

Record ContextOccupancy := mkOccupancy { OccInputTokens : Z; OccEstimated : bool }.

Record PendingWorkspaceEnrollment := mkEnrollment {
  EnrollID : gostr; RequiredServices : Z; EnrollExpiresAt : Z
}.

(** [PlacementMetadata] *)
Record PlacementMetadata := mkPlacement { PlKind : gostr; PlLabel : gostr; PlBranch : gostr; PlRevision : gostr }.

(** The inert labels composition assigns after construction; the aggregate stores them
    and never reads them. *)
Record CreationLabels := mkLabels {
  Profile : gostr;
  ReasoningEffort : gostr;
  Placement : PlacementMetadata;
  ExternalBinding : gostr;
  DebugMCPServers : list gostr;
  DebugMCPTools : list gostr;
  DebugTargetFingerprint : gostr
}.
Definition noLabels : CreationLabels := mkLabels [] [] (mkPlacement [] [] [] []) [] [] [] [].

Record Session := mkSession {
  SID : gostr;
  SState : State;
  Mode : PermissionMode;
  Messages : list Message;
  SLimits : Limits;
  SCounters : Counters;
  tokenUsage : gmap gostr TokenUsage;
  latestContextOccupancy : option ContextOccupancy;
  usageAttribution : gostr;
  SEnvironmentRef : EnvironmentRef;
  ProviderID : gostr;
  ModelID : gostr;
  titleMeta : TitleMeta;
  Owner : option Principal;
  SAuthority : Authority;
  authorityBound : bool;
  Kind : SessionKind;
  Relationship : SessionRelationship;
  CreatedAt : Z;
  incarnation : gostr;
  pending : option PendingAsk;
  pendingAuthorization : option PendingAuthorization;
  pendingWorkspaceEnrollment : option PendingWorkspaceEnrollment;
  stop : StopReason;
  failureMetadata : RetryMetadata;
  retryPending : bool;
  retryMetadata : RetryMetadata;
  lastError : gostr;
  runID : gostr;
  labels : CreationLabels
}.

(** Field update: rebuild [s] with the field [f] replaced by [v]. *)
Ltac set_field s f v :=
  update_field (mkSession (SID s) (SState s) (Mode s) (Messages s) (SLimits s) (SCounters s)
    (tokenUsage s) (latestContextOccupancy s) (usageAttribution s) (SEnvironmentRef s)
    (ProviderID s) (ModelID s) (titleMeta s) (Owner s) (SAuthority s) (authorityBound s) (Kind s)
    (Relationship s) (CreatedAt s) (incarnation s) (pending s) (pendingAuthorization s)
    (pendingWorkspaceEnrollment s) (stop s) (failureMetadata s) (retryPending s) (retryMetadata s)
    (lastError s) (runID s) (labels s)) (f s) v.

Definition setState v s : Session := ltac:(set_field s SState v).
Definition setMode v s : Session := ltac:(set_field s Mode v).
Definition setMessages v s : Session := ltac:(set_field s Messages v).
Definition setCounters v s : Session := ltac:(set_field s SCounters v).
Definition setTokenUsage v s : Session := ltac:(set_field s tokenUsage v).
Definition setOccupancy v s : Session := ltac:(set_field s latestContextOccupancy v).
Definition setAttribution v s : Session := ltac:(set_field s usageAttribution v).
Definition setEnvironmentRef v s : Session := ltac:(set_field s SEnvironmentRef v).
Definition setTitleMeta v s : Session := ltac:(set_field s titleMeta v).
Definition setOwner v s : Session := ltac:(set_field s Owner v).
Definition setAuthority v s : Session := ltac:(set_field s SAuthority v).
Definition setAuthorityBound v s : Session := ltac:(set_field s authorityBound v).
Definition setKind v s : Session := ltac:(set_field s Kind v).
Definition setRelationship v s : Session := ltac:(set_field s Relationship v).
Definition setIncarnation v s : Session := ltac:(set_field s incarnation v).
Definition setPending v s : Session := ltac:(set_field s pending v).
Definition setPendingAuthorization v s : Session := ltac:(set_field s pendingAuthorization v).
Definition setPendingEnrollment v s : Session := ltac:(set_field s pendingWorkspaceEnrollment v).
Definition setStop v s : Session := ltac:(set_field s stop v).
Definition setFailureMetadata v s : Session := ltac:(set_field s failureMetadata v).
Definition setRetryPending v s : Session := ltac:(set_field s retryPending v).
Definition setRetryMetadata v s : Session := ltac:(set_field s retryMetadata v).
Definition setLastError v s : Session := ltac:(set_field s lastError v).
Definition setRunID v s : Session := ltac:(set_field s runID v).
Definition setProviderID v s : Session := ltac:(set_field s ProviderID v).
Definition setModelID v s : Session := ltac:(set_field s ModelID v).
Definition setLabels v s : Session := ltac:(set_field s labels v).

Inductive SessionError :=
  | ErrIllegalTransition
  | ErrNoPendingAsk
  | ErrNoPendingAuthorization
  | ErrPairing (e : PairingError)
  | ErrInvalidAuthorization (e : AuthError)
  | ErrAuthorizationState
  | ErrInvalidEnvironmentRef
  | ErrBlankTitle
  | ErrEnrollmentNotPending
  | ErrInvalidPrincipalIdentity
  | ErrOwnerAlreadySet
  | ErrAuthorityAlreadyBound
  | ErrInvalidAuthorityPayload
  | ErrControlPending
  | ErrAuthorityNotBound
  | ErrInvalidToolName
  | ErrInvalidSessionMetadata
  | ErrInvalidIncarnation.

(** What the package takes from outside: the compact form [json.Marshal] gives a
    raw message, and the SHA-256 based legacy incarnation. *)
Class Platform := {
  compactJSON : list N → option (list N);
  legacyIncarnationID : gostr → Z → option Principal → gostr
}.

(** ** Construction *)

Definition noAuthority : Authority := mkAuthority (mkCaps [] 0 false false) [] [].

(** [New]; [None] is its panic.  The minted incarnation is an argument. *)
Definition New (id : gostr) (mode : PermissionMode) (ref : EnvironmentRef) (limits : Limits)
    (createdAt : Z) (inc : gostr) : option Session :=
  if negb (EnvRefValid ref) then None
  else Some (mkSession id StateIdle mode [] limits zeroCounters ∅ None [] ref [] [] newTitleMeta
    None noAuthority false SessionKindMain emptyRel createdAt inc None None None
    StopNone zeroRetry false zeroRetry [] [] noLabels).

Definition newRelated (id : gostr) (mode : PermissionMode) (ref : EnvironmentRef) (limits : Limits)
    (createdAt : Z) (inc : gostr) (kind : SessionKind) (rel : SessionRelationship)
    : option (Session + SessionError) :=
  if negb (ValidateSessionMetadata kind rel) then Some (inr ErrInvalidSessionMetadata)
  else if missingIncarnation kind rel then Some (inr ErrInvalidSessionMetadata)
  else match New id mode ref limits createdAt inc with
       | None => None
       | Some s => Some (inl (setRelationship rel (setKind kind s)))
       end.

(** ** Turns *)

Definition fail (s : Session) (e : SessionError) : Session * option SessionError := (s, Some e).
Definition ok (s : Session) : Session * option SessionError := (s, None).

(** [rejectWhileWorkspaceEnrollmentPending] *)
Definition enrollmentPending (s : Session) : bool :=
  match pendingWorkspaceEnrollment s with Some _ => true | None => false end.

Definition BeginTurn (s : Session) : Session * option SessionError :=
  if enrollmentPending s then fail s ErrIllegalTransition
  else if negb (SState s =s StateIdle) && negb (SState s =s StateRunning) then fail s ErrIllegalTransition
  else let c := SCounters s in
       ok (setCounters (mkCounters (wrap64 (Turns c + 1)) (ToolCalls c) (ConsecutiveFailures c))
             (setState StateRunning s)).

Definition RecordAssistant (s : Session) (m : Message) : Session * option SessionError :=
  if negb (SState s =s StateRunning) then fail s ErrIllegalTransition
  else ok (setMessages (Append (Messages s) m) s).

(** One iteration of the loop of [RecordToolResults]. *)
Definition recordResult (s : Session) (r : ToolResult) : Session :=
  let c := SCounters s in
  setCounters (mkCounters (Turns c) (wrap64 (ToolCalls c + 1))
                 (if RIsError r then wrap64 (ConsecutiveFailures c + 1) else 0%Z))
    (setMessages (Append (Messages s) (NewToolMessage r)) s).

Definition RecordToolResults (s : Session) (results : list ToolResult) : Session * option SessionError :=
  if negb (SState s =s StateRunning) then fail s ErrIllegalTransition
  else ok (foldl recordResult s results).

Definition SetUsageAttribution (s : Session) (providerID modelID : gostr) : Session :=
  setAttribution (modelAttribution providerID modelID) s.

Definition RecordUsage (s : Session) (u : Usage) : Session * option SessionError :=
  if negb (SState s =s StateRunning) then fail s ErrIllegalTransition
  else
    let attribution := if usageAttribution s =s [] then modelAttribution (ProviderID s) (ModelID s)
                       else usageAttribution s in
    ok (setTokenUsage (recordTokenUsage (tokenUsage s) UsageKindMain attribution u)
          (setAttribution attribution s)).

Definition RecordLatestContextOccupancy (s : Session) (o : ContextOccupancy) : Session :=
  if (OccInputTokens o =? 0)%Z then s else setOccupancy (Some o) s.

Definition recordUserPromptWithParts (s : Session) (text : gostr) (parts : list Content)
    (instructions : list Message) (provenance : UserPromptProvenance) : Session * option SessionError :=
  if enrollmentPending s then fail s ErrIllegalTransition
  else if IsTerminal (SState s) || (retryPending s && SState s =s StateIdle)
          || SState s =s StateAuthorizing then fail s ErrIllegalTransition
  else
    let m := NewUserMessageWithParts text parts in
    let m := mkMessage (MRole m) (MText m) (MToolCalls m) (MToolResult m) (MReasoning m)
               (MProviderPhase m) (MReasoningItemID m) (MParts m) provenance in
    ok (setMessages (Append (foldl Append (Messages s) instructions) m) s).

Definition RecordUserPromptWithParts s text parts instructions :=
  recordUserPromptWithParts s text parts instructions UserPromptProvenanceUnknown.
Definition RecordUserPrompt s text instructions := RecordUserPromptWithParts s text [] instructions.
Definition RecordPrincipalPromptWithParts s text parts instructions :=
  recordUserPromptWithParts s text parts instructions UserPromptProvenancePrincipal.
Definition RecordHarnessPrompt s text :=
  recordUserPromptWithParts s text [] [] UserPromptProvenanceHarness.

(** ** History replacement *)

Definition replaceMessages (s : Session) (messages : list Message) : Session * option SessionError :=
  match ValidateToolPairing messages with
  | Some e => fail s (ErrPairing e)
  | None => ok (setMessages messages s)
  end.

Definition ReplaceHistory (s : Session) (messages : list Message) : Session * option SessionError :=
  if negb (SState s =s StateRunning) then fail s ErrIllegalTransition
  else replaceMessages s messages.

Definition ReplaceHistoryAtBoundary (s : Session) (messages : list Message)
    : Session * option SessionError :=
  if enrollmentPending s then fail s ErrIllegalTransition
  else if SState s =s StateRunning || SState s =s StateAwaiting || SState s =s StateAuthorizing
  then fail s ErrIllegalTransition
  else replaceMessages s messages.

Definition SeedHistory (s : Session) (messages : list Message) : Session * option SessionError :=
  if enrollmentPending s then fail s ErrIllegalTransition
  else if negb (SState s =s StateIdle) then fail s ErrIllegalTransition
  else replaceMessages s messages.

(** ** Approvals *)

Definition PauseForApproval (s : Session) (ask : PendingAsk) : Session * option SessionError :=
  if negb (SState s =s StateRunning) then fail s ErrIllegalTransition
  else ok (setState StateAwaiting (setPending (Some ask) s)).

Definition PendingAskOf (s : Session) : option PendingAsk :=
  if negb (SState s =s StateAwaiting) then None else pending s.

Definition ResumeWith (s : Session) : Session * (PendingAsk + SessionError) :=
  match pending s with
  | Some ask =>
      if negb (SState s =s StateAwaiting) then (s, inr ErrNoPendingAsk)
      else (setState StateRunning (setPending None s), inl ask)
  | None => (s, inr ErrNoPendingAsk)
  end.

(** ** Terminal transitions *)

Definition clearRetryIntent (s : Session) : Session := setRetryMetadata zeroRetry (setRetryPending false s).

(** The shared guard of the terminal transitions. *)
Definition cannotEnd (s : Session) : bool := IsTerminal (SState s) || SState s =s StateAuthorizing.

Definition Complete (s : Session) : Session * option SessionError :=
  if enrollmentPending s then fail s ErrIllegalTransition
  else if cannotEnd s then fail s ErrIllegalTransition
  else
    let s := if stop s =s StopNone then setStop StopEndTurn s else s in
    ok (clearRetryIntent (setPending None (setState StateCompleted s))).

Definition Stop (s : Session) (reason : StopReason) : Session * option SessionError :=
  if enrollmentPending s then fail s ErrIllegalTransition
  else if cannotEnd s then fail s ErrIllegalTransition
  else ok (clearRetryIntent (setPending None (setState StateCompleted (setStop reason s)))).

Definition Cancel (s : Session) : Session * option SessionError :=
  if enrollmentPending s then fail s ErrIllegalTransition
  else if cannotEnd s then fail s ErrIllegalTransition
  else ok (clearRetryIntent (setPending None (setState StateCancelled (setStop StopCancelled s)))).

Definition Fail_ (s : Session) : Session * option SessionError :=
  if enrollmentPending s then fail s ErrIllegalTransition
  else if cannotEnd s then fail s ErrIllegalTransition
  else ok (setLastError [] (setFailureMetadata zeroRetry (clearRetryIntent
         (setPending None (setState StateFailed (setStop StopError s)))))).

Definition RecordFailureMetadata (s : Session) (m : RetryMetadata) : Session * option SessionError :=
  if negb (SState s =s StateFailed) then fail s ErrIllegalTransition
  else if negb (RetryValid m) then fail s ErrIllegalTransition
  else ok (setFailureMetadata m s).

Definition FailureMetadata (s : Session) : RetryMetadata :=
  if negb (SState s =s StateFailed) then zeroRetry else failureMetadata s.

Definition RecordLastError (s : Session) (cause : gostr) : Session * option SessionError :=
  if negb (SState s =s StateFailed) then fail s ErrIllegalTransition
  else ok (setLastError (normaliseSnapshotError cause) s).

Definition BeginRun (s : Session) (id : gostr) : Session := setRunID id s.

(** ** Recovery *)

Definition resetToIdle (s : Session) : Session :=
  setCounters zeroCounters (clearRetryIntent (setLastError [] (setFailureMetadata zeroRetry
    (setPending None (setStop StopNone (setState StateIdle s)))))).

Definition closeOut (s : Session) (message : gostr) : Session :=
  setMessages (closeOutInterruptedTurn (Messages s) message) s.

Definition Reopen (s : Session) : Session * option SessionError :=
  if negb (SState s =s StateCompleted) then fail s ErrIllegalTransition
  else ok (resetToIdle s).

Definition Interrupt (s : Session) : Session * option SessionError :=
  if negb (SState s =s StateCancelled) then fail s ErrIllegalTransition
  else ok (resetToIdle (closeOut s interruptCloseOutMessage)).

Definition Recover (s : Session) : Session * option SessionError :=
  if negb (SState s =s StateFailed) then fail s ErrIllegalTransition
  else ok (resetToIdle (closeOut s recoverCloseOutMessage)).

Definition Abandon (s : Session) : Session * option SessionError :=
  if negb (SState s =s StateRunning) then fail s ErrIllegalTransition
  else
    let s' := resetToIdle (closeOut s abandonCloseOutMessage) in
    ok (if retryPending s then setRetryMetadata (retryMetadata s) (setRetryPending true s') else s').

(** A failure that may be retried exactly. *)
Definition retryEligible (m : RetryMetadata) : bool :=
  Disposition m =r RetryDispositionRetryable
  && (Progress m =r StreamProgressPrecommit || Progress m =r StreamProgressVisible).

Definition PrepareFailedStepRetry (s : Session) : Session * option SessionError :=
  if retryPending s && SState s =s StateIdle then ok s
  else
    let metadata := failureMetadata s in
    if negb (SState s =s StateFailed) || negb (RetryValid metadata) || negb (retryEligible metadata)
    then fail s ErrIllegalTransition
    else ok (setRetryMetadata metadata (setRetryPending true
               (resetToIdle (closeOut s recoverCloseOutMessage)))).

Definition RestoreFailedStepRetryPending (s : Session) (m : RetryMetadata) : Session * option SessionError :=
  if (negb (SState s =s StateIdle) && negb (SState s =s StateRunning)) || negb (retryEligible m)
  then fail s ErrIllegalTransition
  else ok (setRetryMetadata m (setRetryPending true s)).

Definition Rehome (s : Session) (ref : EnvironmentRef) : Session * option SessionError :=
  if negb (SState s =s StateIdle) then fail s ErrIllegalTransition
  else if negb (EnvRefValid ref) then fail s ErrInvalidEnvironmentRef
  else ok (setEnvironmentRef ref s).

Definition SetMode (s : Session) (mode : PermissionMode) : Session * option SessionError :=
  if SState s =s StateRunning || SState s =s StateAwaiting || SState s =s StateAuthorizing
  then fail s ErrIllegalTransition
  else ok (setMode mode s).

(** ** Stop conditions *)

Definition LimitTripped (s : Session) : option StopReason :=
  let l := SLimits s in let c := SCounters s in
  if ((0 <? MaxTurns l) && (MaxTurns l <=? Turns c))%Z then Some StopMaxTurns
  else if ((0 <? MaxToolCalls l) && (MaxToolCalls l <=? ToolCalls c))%Z then Some StopMaxToolCalls
  else if ((0 <? MaxConsecutiveFailures l) && (MaxConsecutiveFailures l <=? ConsecutiveFailures c))%Z
  then Some StopMaxConsecutiveFailures
  else None.

Definition RecordedStopReason (s : Session) : option StopReason :=
  if stop s =s StopNone then None else Some (stop s).

Definition StopReasonOf (s : Session) : option StopReason :=
  match RecordedStopReason s with Some r => Some r | None => LimitTripped s end.

(** ** External authorization *)

Section aggregate.
Context {platform : Platform}.

Definition ValidateAuthorizationState (s : Session) : option SessionError :=
  match SState s with
  | StateAuthorizing =>
      match pending s, pendingAuthorization s with
      | None, Some p =>
          match validatePendingAuthorization compactJSON (Messages s) p with
          | Some e => Some (ErrInvalidAuthorization e)
          | None => None
          end
      | _, _ => Some ErrAuthorizationState
      end
  | _ =>
      match pendingAuthorization s with
      | Some _ => Some ErrAuthorizationState
      | None =>
          match pending s with
          | None => if SState s =s StateAwaiting then Some ErrAuthorizationState else None
          | Some _ => if negb (SState s =s StateAwaiting) then Some ErrAuthorizationState else None
          end
      end
  end.

Definition PauseForAuthorization (s : Session) (p : PendingAuthorization) : Session * option SessionError :=
  if negb (SState s =s StateRunning) then fail s ErrIllegalTransition
  else match pending s with
       | Some _ => fail s ErrIllegalTransition
       | None =>
           match validatePendingAuthorization compactJSON (Messages s) p with
           | Some e => fail s (ErrInvalidAuthorization e)
           | None => ok (setState StateAuthorizing (setPendingAuthorization (Some p) s))
           end
       end.

Definition PendingAuthorizationOf (s : Session) : option PendingAuthorization :=
  if negb (SState s =s StateAuthorizing) then None else pendingAuthorization s.

(** The [None] branch under [StateAuthorizing] is ruled out by the validation
    before it. *)
Definition ClaimAuthorization (s : Session) : Session * (PendingAuthorization + SessionError) :=
  match ValidateAuthorizationState s with
  | Some e => (s, inr e)
  | None =>
      if negb (SState s =s StateAuthorizing) then (s, inr ErrNoPendingAuthorization)
      else match pendingAuthorization s with
           | Some p => (setState StateRunning (setPendingAuthorization None s), inl p)
           | None => (s, inr ErrAuthorizationState)
           end
  end.

Definition RestoreAuthorizationClaim (s : Session) (p : PendingAuthorization)
    : Session * option SessionError :=
  match ValidateAuthorizationState s with
  | Some e => fail s e
  | None =>
      if negb (SState s =s StateRunning) then fail s ErrIllegalTransition
      else match pendingAuthorization s, pending s with
           | None, None =>
               match validatePendingAuthorization compactJSON (Messages s) p with
               | Some e => fail s (ErrInvalidAuthorization e)
               | None => ok (setState StateAuthorizing (setPendingAuthorization (Some p) s))
               end
           | _, _ => fail s ErrIllegalTransition
           end
  end.

Definition resolveAuthorization (s : Session) (reason : gostr) : Session * (list ToolResult + SessionError) :=
  match ValidateAuthorizationState s with
  | Some e => (s, inr e)
  | None =>
      if negb (SState s =s StateAuthorizing) then (s, inr ErrNoPendingAuthorization)
      else match pendingAuthorization s with
           | Some p => (setState StateRunning (setPendingAuthorization None s), inl (abortResults reason p))
           | None => (s, inr ErrAuthorizationState)
           end
  end.

Definition AbortAuthorization (s : Session) (reason : gostr) := resolveAuthorization s reason.
Definition InterruptAuthorization (s : Session) := resolveAuthorization s #"interrupted".

(** ** Workspace enrollment *)

Definition maxWorkspaceEnrollmentIDBytes : nat := 256.
Definition maxWorkspaceEnrollmentTools : nat := 256.
Definition maxWorkspaceEnrollmentToolNameBytes : nat := 256.
Definition maxWorkspaceEnrollmentToolNamesBytes : N := 32768.

(** [WorkspaceEnrollmentID.Valid] *)
Definition EnrollmentIDValid (id : gostr) : bool :=
  if id =s [] || (maxWorkspaceEnrollmentIDBytes <? byteLen id) then false
  else forallb (λ r, negb (IsControl r || is_space r)) id.

Definition BeginWorkspaceEnrollment (s : Session) (p : PendingWorkspaceEnrollment)
    : Session * option SessionError :=
  if negb (SState s =s StateIdle) then fail s ErrIllegalTransition
  else match pending s, pendingAuthorization s with
       | None, None =>
           if negb (authorityBound s) then fail s ErrIllegalTransition
           else if enrollmentPending s then fail s ErrIllegalTransition
           else if negb (EnrollmentIDValid (EnrollID p)) || (RequiredServices p =? 0)%Z
                   || IsZero (EnrollExpiresAt p) then fail s ErrIllegalTransition
           else ok (setPendingEnrollment (Some p) s)
       | _, _ => fail s ErrIllegalTransition
       end.

Definition validToolAuthorityName (name : gostr) : bool :=
  if name =s [] || (maxWorkspaceEnrollmentToolNameBytes <? byteLen name) then false
  else forallb (λ r, negb (IsControl r)) name.

Fixpoint enrollmentNamesLoop (seen : gset gostr) (totalBytes : N) (names : list gostr) : bool :=
  match names with
  | [] => true
  | name :: names' =>
      if negb (validToolAuthorityName name) then false
      else if name ∈? seen then false
      else
        let totalBytes := (totalBytes + N.of_nat (byteLen name))%N in
        if (maxWorkspaceEnrollmentToolNamesBytes <? totalBytes)%N then false
        else enrollmentNamesLoop ({[name]} ∪ seen) totalBytes names'
  end.

Definition ValidWorkspaceEnrollmentToolNames (names : list gostr) : bool :=
  if maxWorkspaceEnrollmentTools <? length names then false
  else enrollmentNamesLoop ∅ 0 names.

Definition withTools (a : Authority) (tools : list gostr) : Authority :=
  let c := ACapabilitySet a in
  mkAuthority (mkCaps tools (RemainingDelegationDepth c) (FileSystem c) (DirectWrite c))
    (AProvenance a) (ADefinitionIdentity a).

Definition CompleteWorkspaceEnrollment (s : Session) (p : PendingWorkspaceEnrollment)
    (exactTools : list gostr) : Session * option SessionError :=
  match pendingWorkspaceEnrollment s with
  | None => fail s ErrEnrollmentNotPending
  | Some q =>
      if negb (EnrollID q =s EnrollID p) || negb (RequiredServices q =? RequiredServices p)%Z
         || negb (EnrollExpiresAt q =? EnrollExpiresAt p)%Z then fail s ErrEnrollmentNotPending
      else if negb (SState s =s StateIdle) then fail s ErrIllegalTransition
      else if negb (authorityBound s) || negb (ValidWorkspaceEnrollmentToolNames exactTools)
      then fail s ErrIllegalTransition
      else ok (setPendingEnrollment None (setAuthority (withTools (SAuthority s) exactTools) s))
  end.

Definition AbortWorkspaceEnrollment (s : Session) (id : gostr) : Session * option SessionError :=
  match pendingWorkspaceEnrollment s with
  | None => fail s ErrEnrollmentNotPending
  | Some q => if negb (EnrollID q =s id) then fail s ErrEnrollmentNotPending
              else ok (setPendingEnrollment None s)
  end.

(** ** Labels *)

Definition labelRune (r : rune) : bool :=
  (((97 <=? r) && (r <=? 122)) || ((65 <=? r) && (r <=? 90)) || ((48 <=? r) && (r <=? 57)))%N
  || r =r chr "_" || r =r chr "." || r =r chr ":" || r =r chr "-".

Definition validAuthorityLabel (label : gostr) : bool :=
  if label =s [] || (256 <? byteLen label) then false else forallb labelRune label.

(** [Authority.Valid] *)
Definition AuthorityValid (a : Authority) : bool :=
  validAuthorityLabel (AProvenance a)
  && (ADefinitionIdentity a =s [] || validAuthorityLabel (ADefinitionIdentity a)).

Definition BindAuthority (s : Session) (a : Authority) : Session * option SessionError :=
  if negb (SState s =s StateIdle) then fail s ErrIllegalTransition
  else if authorityBound s then fail s ErrAuthorityAlreadyBound
  else if negb (AuthorityValid a) then fail s ErrInvalidAuthorityPayload
  else ok (setAuthorityBound true (setAuthority a s)).

(** The owner is stamped before the authority is bound, so a failing bind
    leaves the owner behind. *)
Definition RestoreLabels (s : Session) (owner : option Principal) (a : Authority)
    : Session * option SessionError :=
  let bind s := if negb (AProvenance a =s []) then BindAuthority s a else ok s in
  match owner with
  | None => bind s
  | Some o =>
      if negb (principalIdentityHasSafeFraming owner) then fail s ErrInvalidPrincipalIdentity
      else match Owner s with
           | Some o' => if negb (o' =s o) then fail s ErrOwnerAlreadySet else bind (setOwner (Some o) s)
           | None => bind (setOwner (Some o) s)
           end
  end.

Definition BoundAuthority (s : Session) : option Authority :=
  if negb (authorityBound s) then None else Some (SAuthority s).

(** The loop of [GrantToolAuthority]; [None] is the invalid-name error. *)
Fixpoint grantLoop (seen : gset gostr) (names : list gostr) : option (list gostr) :=
  match names with
  | [] => Some []
  | name :: names' =>
      if name ∈? seen then grantLoop seen names'
      else if negb (validToolAuthorityName name) then None
      else match grantLoop ({[name]} ∪ seen) names' with
           | Some additions => Some (name :: additions)
           | None => None
           end
  end.

Definition GrantToolAuthority (s : Session) (names : list gostr) : Session * option SessionError :=
  if negb (SState s =s StateIdle) && negb (SState s =s StateCompleted) then fail s ErrIllegalTransition
  else match pending s, pendingAuthorization s, pendingWorkspaceEnrollment s with
       | None, None, None =>
           if negb (authorityBound s) then fail s ErrAuthorityNotBound
           else
             let tools := Tools (ACapabilitySet (SAuthority s)) in
             match grantLoop (toolSet tools) names with
             | None => fail s ErrInvalidToolName
             | Some [] => ok s
             | Some additions => ok (setAuthority (withTools (SAuthority s) (tools ++ additions)) s)
             end
       | _, _, _ => fail s ErrControlPending
       end.

(** [kind = None] is the empty legacy kind. *)
Definition RestoreSessionMetadata (s : Session) (kind : option SessionKind) (rel : SessionRelationship)
    : Session * option SessionError :=
  if negb (SState s =s StateIdle) then fail s ErrIllegalTransition
  else
    let kind := default SessionKindUnknown kind in
    if negb (ValidateSessionMetadata kind rel) then fail s ErrInvalidSessionMetadata
    else ok (setRelationship rel (setKind kind s)).

Definition RestoreIncarnation (s : Session) (inc : gostr) : Session * option SessionError :=
  if negb (SState s =s StateIdle) then fail s ErrInvalidIncarnation
  else
    let inc := if inc =s [] then legacyIncarnationID (SID s) (CreatedAt s) (Owner s) else inc in
    if negb (IncarnationValid inc) then fail s ErrInvalidIncarnation
    else ok (setIncarnation inc s).

(** ** Histories *)

Inductive Op :=
  | OBeginTurn
  | ORecordAssistant (m : Message)
  | ORecordToolResults (rs : list ToolResult)
  | OSetUsageAttribution (providerID modelID : gostr)
  | ORecordUsage (u : Usage)
  | ORecordTokenUsage (kind providerID modelID : gostr) (u : Usage)
  | ORestoreTokenUsage (l : gmap gostr TokenUsage)
  | ORecordOccupancy (o : ContextOccupancy)
  | ORecordUserPrompt (text : gostr) (parts : list Content) (ins : list Message)
      (prov : UserPromptProvenance)
  | OReplaceHistory (ms : list Message)
  | OReplaceHistoryAtBoundary (ms : list Message)
  | OSeedHistory (ms : list Message)
  | OPauseForApproval (ask : PendingAsk)
  | OResumeWith
  | OComplete
  | OStop (reason : StopReason)
  | OCancel
  | OFail
  | ORecordFailureMetadata (m : RetryMetadata)
  | ORecordLastError (cause : gostr)
  | OBeginRun (id : gostr)
  | OAssignLabels (providerID modelID : gostr) (l : CreationLabels)
  | OPrepareFailedStepRetry
  | ORestoreFailedStepRetryPending (m : RetryMetadata)
  | OReopen
  | OInterrupt
  | ORecover
  | OAbandon
  | ORehome (ref : EnvironmentRef)
  | OSetMode (mode : PermissionMode)
  | OTitle (m : TitleMeta)
  | OPauseForAuthorization (p : PendingAuthorization)
  | OClaimAuthorization
  | ORestoreAuthorizationClaim (p : PendingAuthorization)
  | OAbortAuthorization (reason : gostr)
  | OBeginEnrollment (p : PendingWorkspaceEnrollment)
  | OCompleteEnrollment (p : PendingWorkspaceEnrollment) (tools : list gostr)
  | OAbortEnrollment (id : gostr)
  | ORestoreLabels (owner : option Principal) (a : Authority)
  | OBindAuthority (a : Authority)
  | OGrantToolAuthority (names : list gostr)
  | ORestoreSessionMetadata (kind : option SessionKind) (rel : SessionRelationship)
  | ORestoreIncarnation (inc : gostr).

Definition errOnly {A} (r : Session * (A + SessionError)) : Session * option SessionError :=
  match r with
  | (s, inl _) => (s, None)
  | (s, inr e) => (s, Some e)
  end.

(** One method call, or the assignment of the creation labels.  The title methods write only the title metadata, whose
    own steps are modelled in [Title]: [OTitle] is any such write. *)
Definition exec (s : Session) (op : Op) : Session * option SessionError :=
  match op with
  | OBeginTurn => BeginTurn s
  | ORecordAssistant m => RecordAssistant s m
  | ORecordToolResults rs => RecordToolResults s rs
  | OSetUsageAttribution p m => ok (SetUsageAttribution s p m)
  | ORecordUsage u => RecordUsage s u
  | ORecordTokenUsage k p m u => ok (setTokenUsage (RecordTokenUsage (tokenUsage s) k p m u) s)
  | ORestoreTokenUsage l => ok (setTokenUsage (RestoreTokenUsage l) s)
  | ORecordOccupancy o => ok (RecordLatestContextOccupancy s o)
  | ORecordUserPrompt t ps ins prov => recordUserPromptWithParts s t ps ins prov
  | OReplaceHistory ms => ReplaceHistory s ms
  | OReplaceHistoryAtBoundary ms => ReplaceHistoryAtBoundary s ms
  | OSeedHistory ms => SeedHistory s ms
  | OPauseForApproval a => PauseForApproval s a
  | OResumeWith => errOnly (ResumeWith s)
  | OComplete => Complete s
  | OStop r => Stop s r
  | OCancel => Cancel s
  | OFail => Fail_ s
  | ORecordFailureMetadata m => RecordFailureMetadata s m
  | ORecordLastError c => RecordLastError s c
  | OBeginRun id => ok (BeginRun s id)
  | OAssignLabels p m l => ok (setLabels l (setModelID m (setProviderID p s)))
  | OPrepareFailedStepRetry => PrepareFailedStepRetry s
  | ORestoreFailedStepRetryPending m => RestoreFailedStepRetryPending s m
  | OReopen => Reopen s
  | OInterrupt => Interrupt s
  | ORecover => Recover s
  | OAbandon => Abandon s
  | ORehome r => Rehome s r
  | OSetMode m => SetMode s m
  | OTitle m => ok (setTitleMeta m s)
  | OPauseForAuthorization p => PauseForAuthorization s p
  | OClaimAuthorization => errOnly (ClaimAuthorization s)
  | ORestoreAuthorizationClaim p => RestoreAuthorizationClaim s p
  | OAbortAuthorization r => errOnly (AbortAuthorization s r)
  | OBeginEnrollment p => BeginWorkspaceEnrollment s p
  | OCompleteEnrollment p ts => CompleteWorkspaceEnrollment s p ts
  | OAbortEnrollment id => AbortWorkspaceEnrollment s id
  | ORestoreLabels o a => RestoreLabels s o a
  | OBindAuthority a => BindAuthority s a
  | OGrantToolAuthority ns => GrantToolAuthority s ns
  | ORestoreSessionMetadata k r => RestoreSessionMetadata s k r
  | ORestoreIncarnation i => RestoreIncarnation s i
  end.

(** Sessions reached from a new one by any sequence of calls. *)
Inductive reachable : Session → Prop :=
  | reachable_new id mode ref limits createdAt inc s :
      New id mode ref limits createdAt inc = Some s → reachable s
  | reachable_exec s op : reachable s → reachable (exec s op).1.
End aggregate.

(** * The lifecycle invariant *)

Section invariant.
Context {platform : Platform}.

(** No trace of a failure. *)
Definition clean (s : Session) : Prop := failureMetadata s = zeroRetry ∧ lastError s = [].

(** What each state says about the other lifecycle fields. *)
Definition shape (s : Session) : Prop :=
  match SState s with
  | StateIdle => pending s = None ∧ pendingAuthorization s = None ∧ stop s = StopNone ∧ clean s
  | StateRunning =>
      pending s = None ∧ pendingAuthorization s = None ∧ stop s = StopNone ∧ clean s ∧
      pendingWorkspaceEnrollment s = None
  | StateAwaiting =>
      is_Some (pending s) ∧ pendingAuthorization s = None ∧ stop s = StopNone ∧ clean s ∧
      pendingWorkspaceEnrollment s = None
  | StateAuthorizing =>
      pending s = None ∧ stop s = StopNone ∧ clean s ∧ pendingWorkspaceEnrollment s = None ∧
      ∃ p, pendingAuthorization s = Some p ∧
           validatePendingAuthorization compactJSON (Messages s) p = None
  | StateCompleted | StateCancelled =>
      pending s = None ∧ pendingAuthorization s = None ∧ clean s ∧ retryPending s = false ∧
      pendingWorkspaceEnrollment s = None
  | StateFailed =>
      pending s = None ∧ pendingAuthorization s = None ∧ retryPending s = false ∧
      pendingWorkspaceEnrollment s = None ∧ RetryValid (failureMetadata s) = true
  end.

Definition retry_ok (s : Session) : Prop :=
  if retryPending s then retryEligible (retryMetadata s) = true else retryMetadata s = zeroRetry.

Record data_ok (s : Session) : Prop := {
  data_enrollment : is_Some (pendingWorkspaceEnrollment s) → authorityBound s = true;
  data_ledger : ledger_ok (tokenUsage s);
  data_env : EnvRefValid (SEnvironmentRef s) = true;
  data_kind : ValidateSessionMetadata (Kind s) (Relationship s) = true;
  data_authority : authorityBound s = true → AuthorityValid (SAuthority s) = true
}.

Lemma foldl_recordResult_fields s rs :
  let s' := foldl recordResult s rs in
  SState s' = SState s ∧ pending s' = pending s ∧ pendingAuthorization s' = pendingAuthorization s ∧
  stop s' = stop s ∧ failureMetadata s' = failureMetadata s ∧ lastError s' = lastError s ∧
  pendingWorkspaceEnrollment s' = pendingWorkspaceEnrollment s ∧
  retryPending s' = retryPending s ∧ retryMetadata s' = retryMetadata s ∧
  Messages s' = Messages s ++ (NewToolMessage <$> rs) ∧
  authorityBound s' = authorityBound s ∧ tokenUsage s' = tokenUsage s ∧
  SEnvironmentRef s' = SEnvironmentRef s ∧ Kind s' = Kind s ∧ Relationship s' = Relationship s ∧
  SAuthority s' = SAuthority s.
Proof.
  revert s. induction rs as [|r rs IH]; intros s; simpl; [by rewrite app_nil_r|].
  destruct (IH (recordResult s r)) as (-> & -> & -> & -> & -> & -> & -> & -> & -> & -> & HH).
  split_and!; try done; try apply HH. simpl. unfold Append. by rewrite <-app_assoc.
Qed.

(** Replacing the messages only matters while authorizing. *)
Lemma shape_messages s ms :
  SState s ≠ StateAuthorizing → shape s → shape (setMessages ms s).
Proof. unfold shape, clean. simpl. by destruct (SState s). Qed.

(** Solve a transition whose source state is known. *)
Ltac from_state Hs :=
  unfold shape, clean in *; simpl in *; rewrite ?Hs in *; simpl in *; naive_solver.

Lemma BeginTurn_shape s : shape s → shape (BeginTurn s).1.
Proof.
  intros H. unfold BeginTurn, enrollmentPending.
  destruct (pendingWorkspaceEnrollment s) eqn:Ee; [done|]. case_bool; [done|].
  unfold shape, clean in *. simpl in *. destruct (SState s); try done; rewrite Ee in *; naive_solver.
Qed.

Lemma RecordToolResults_shape s rs : shape s → shape (RecordToolResults s rs).1.
Proof.
  intros H. unfold RecordToolResults. case_bool; [done|]. bprop. simpl.
  destruct (foldl_recordResult_fields s rs) as (H1 & H2 & H3 & H4 & H5 & H6 & H7 & _).
  unfold shape, clean in *. rewrite H1, H2, H3, H4, H5, H6, H7, E. by rewrite E in H.
Qed.

Lemma replaceMessages_shape s ms :
  SState s ≠ StateAuthorizing → shape s → shape (replaceMessages s ms).1.
Proof. intros. unfold replaceMessages. case_match; [done|]. by apply shape_messages. Qed.

Lemma terminal_shape s : shape s → pendingWorkspaceEnrollment s = None → cannotEnd s = false →
  pendingAuthorization s = None ∧ clean s.
Proof. unfold shape, cannotEnd. destruct (SState s); simpl; try done; naive_solver. Qed.

(** The four terminal transitions. *)
Lemma end_shape s :
  shape s →
  shape (Complete s).1 ∧ (∀ r, shape (Stop s r).1) ∧ shape (Cancel s).1 ∧ shape (Fail_ s).1.
Proof.
  intros H. unfold Complete, Stop, Cancel, Fail_, enrollmentPending.
  destruct (pendingWorkspaceEnrollment s) eqn:Ee; [done|].
  destruct (cannotEnd s) eqn:Ec; [done|].
  destruct (terminal_shape s H Ee Ec) as [Hpa [Hf He]].
  split_and!; intros; unfold shape, clean; simpl; try case_bool; simpl; split_and!; done.
Qed.

Lemma terminal_no_park s : shape s → SState s ≠ StateAuthorizing → pendingAuthorization s = None.
Proof. unfold shape. destruct (SState s); naive_solver. Qed.

(** Close a transition that ends in [resetToIdle]. *)
Ltac to_idle H :=
  let Hp := fresh in assert (Hp := terminal_no_park _ H ltac:(congruence));
  unfold shape, clean; simpl; rewrite Hp; done.

Lemma PauseForAuthorization_shape s p : shape s → shape (PauseForAuthorization s p).1.
Proof.
  intros H. unfold PauseForAuthorization. case_bool; [done|]. bprop.
  destruct (pending s) eqn:Ep; [done|]. case_match eqn:Ev; [done|].
  unfold shape, clean in *. simpl. rewrite E in H. naive_solver.
Qed.

Lemma authorizing_resolves s :
  shape s → ∀ p, pendingAuthorization s = Some p →
  shape (setState StateRunning (setPendingAuthorization None s)).
Proof. unfold shape, clean. simpl. intros H p Hp. destruct (SState s); naive_solver. Qed.

Lemma exec_shape s op : shape s → shape (exec s op).1.
Proof.
  intros H. destruct op; simpl; try done.
  - by apply BeginTurn_shape.
  - unfold RecordAssistant. case_bool; [done|]. bprop. apply shape_messages; [congruence|done].
  - by apply RecordToolResults_shape.
  - unfold RecordUsage. by case_bool.
  - unfold RecordLatestContextOccupancy. by case_bool.
  - unfold recordUserPromptWithParts. do 2 (case_bool; [done|]). bprop. by apply shape_messages.
  - unfold ReplaceHistory. case_bool; [done|]. bprop. apply replaceMessages_shape; [congruence|done].
  - unfold ReplaceHistoryAtBoundary. do 2 (case_bool; [done|]). bprop. by apply replaceMessages_shape.
  - unfold SeedHistory. do 2 (case_bool; [done|]). bprop. apply replaceMessages_shape; [congruence|done].
  - unfold PauseForApproval. case_bool; [done|]. bprop. from_state E.
  - unfold ResumeWith. destruct (pending s) eqn:Ep; [|done]. case_bool; [done|]. bprop. from_state E.
  - by apply end_shape.
  - by apply end_shape.
  - by apply end_shape.
  - by apply end_shape.
  - unfold RecordFailureMetadata. do 2 (case_bool; [done|]). bprop. from_state E.
  - unfold RecordLastError. case_bool; [done|]. bprop. from_state E.
  - unfold PrepareFailedStepRetry. case_bool; [done|]. case_bool; [done|]. bprop.
    to_idle H.
  - unfold RestoreFailedStepRetryPending. case_bool; [done|].
    unfold shape, clean in *. simpl. by destruct (SState s).
  - unfold Reopen. case_bool; [done|]. bprop. to_idle H.
  - unfold Interrupt. case_bool; [done|]. bprop. to_idle H.
  - unfold Recover. case_bool; [done|]. bprop. to_idle H.
  - unfold Abandon. case_bool; [done|]. bprop. case_bool; to_idle H.
  - unfold Rehome. by do 2 (case_bool; [done|]).
  - unfold SetMode. by case_bool.
  - by apply PauseForAuthorization_shape.
  - unfold ClaimAuthorization. case_match; [done|]. case_bool; [done|].
    case_match eqn:Ep; [|done]. by eapply authorizing_resolves.
  - unfold RestoreAuthorizationClaim. case_match; [done|]. case_bool; [done|]. bprop.
    repeat (case_match; [done|]). from_state E.
  - unfold AbortAuthorization, resolveAuthorization. case_match; [done|]. case_bool; [done|].
    case_match eqn:Ep; [|done]. by eapply authorizing_resolves.
  - unfold BeginWorkspaceEnrollment. case_bool; [done|]. bprop. repeat case_match; try done.
    unfold shape, clean in *. simpl. by rewrite E in *.
  - unfold CompleteWorkspaceEnrollment. case_match; [|done]. case_bool; [done|]. case_bool; [done|].
    case_bool; [done|]. bprop. unfold shape, clean in *. simpl. by rewrite E0 in *.
  - unfold AbortWorkspaceEnrollment. repeat case_match; try done.
    unfold shape, clean in *. simpl. destruct (SState s); naive_solver.
  - unfold RestoreLabels, BindAuthority. repeat case_match; done.
  - unfold BindAuthority. repeat case_match; done.
  - unfold GrantToolAuthority. repeat case_match; done.
  - unfold RestoreSessionMetadata. repeat case_match; done.
  - unfold RestoreIncarnation. repeat case_match; done.
Qed.

(** ** Retry intent and data *)

Lemma retry_ext s s' :
  retryPending s' = retryPending s → retryMetadata s' = retryMetadata s → retry_ok s → retry_ok s'.
Proof. unfold retry_ok. by intros -> ->. Qed.

Lemma exec_retry s op : shape s → retry_ok s → retry_ok (exec s op).1.
Proof.
  intros Hsh H. destruct op; simpl; try done.
  - unfold BeginTurn. by repeat case_bool.
  - unfold RecordAssistant. by repeat case_bool.
  - unfold RecordToolResults. case_bool; [done|]. simpl.
    destruct (foldl_recordResult_fields s rs) as (_ & _ & _ & _ & _ & _ & _ & H1 & H2 & _).
    by apply (retry_ext s).
  - unfold RecordUsage. by case_bool.
  - unfold RecordLatestContextOccupancy. by case_bool.
  - unfold recordUserPromptWithParts. by repeat case_bool.
  - unfold ReplaceHistory, replaceMessages. by repeat case_match.
  - unfold ReplaceHistoryAtBoundary, replaceMessages. by repeat case_match.
  - unfold SeedHistory, replaceMessages. by repeat case_match.
  - unfold PauseForApproval. by case_bool.
  - unfold ResumeWith. by repeat case_match.
  - unfold Complete. by do 2 (case_bool; [done|]).
  - unfold Stop. by do 2 (case_bool; [done|]).
  - unfold Cancel. by do 2 (case_bool; [done|]).
  - unfold Fail_. by do 2 (case_bool; [done|]).
  - unfold RecordFailureMetadata. by repeat case_bool.
  - unfold RecordLastError. by case_bool.
  - unfold PrepareFailedStepRetry. case_bool; [done|]. case_bool; [done|]. by bprop.
  - unfold RestoreFailedStepRetryPending. case_bool; [done|]. by bprop.
  - unfold Reopen. by case_bool.
  - unfold Interrupt. by case_bool.
  - unfold Recover. by case_bool.
  - unfold Abandon. case_bool; [done|]. unfold retry_ok in *. simpl.
    destruct (retryPending s) eqn:Er; simpl; done.
  - unfold Rehome. by repeat case_bool.
  - unfold SetMode. by case_bool.
  - unfold PauseForAuthorization. by repeat case_match.
  - unfold ClaimAuthorization. by repeat case_match.
  - unfold RestoreAuthorizationClaim. by repeat case_match.
  - unfold AbortAuthorization, resolveAuthorization. by repeat case_match.
  - unfold BeginWorkspaceEnrollment. by repeat case_match.
  - unfold CompleteWorkspaceEnrollment. by repeat case_match.
  - unfold AbortWorkspaceEnrollment. by repeat case_match.
  - unfold RestoreLabels, BindAuthority. by repeat case_match.
  - unfold BindAuthority. by repeat case_match.
  - unfold GrantToolAuthority. by repeat case_match.
  - unfold RestoreSessionMetadata. by repeat case_match.
  - unfold RestoreIncarnation. by repeat case_match.
Qed.

Lemma data_ext s s' :
  pendingWorkspaceEnrollment s' = pendingWorkspaceEnrollment s ∨ pendingWorkspaceEnrollment s' = None →
  authorityBound s' = authorityBound s → tokenUsage s' = tokenUsage s →
  SEnvironmentRef s' = SEnvironmentRef s → Kind s' = Kind s → Relationship s' = Relationship s →
  SAuthority s' = SAuthority s → data_ok s → data_ok s'.
Proof.
  intros He Hb Hu Hr Hk Hrel Ha []. split; rewrite ?Hb, ?Hu, ?Hr, ?Hk, ?Hrel, ?Ha; auto.
  destruct He as [-> | ->]; [done|]. by intros [].
Qed.

Lemma withTools_valid a ts : AuthorityValid (withTools a ts) = AuthorityValid a.
Proof. done. Qed.

Lemma BindAuthority_data s a : data_ok s → data_ok (BindAuthority s a).1.
Proof.
  intros H. unfold BindAuthority. do 3 (case_bool; [done|]). bprop. destruct H. split; simpl; auto.
Qed.

Lemma exec_data s op : data_ok s → data_ok (exec s op).1.
Proof.
  intros H. destruct op; simpl;
    try (by (unfold BeginTurn, RecordAssistant, RecordLatestContextOccupancy, recordUserPromptWithParts,
      ReplaceHistory, ReplaceHistoryAtBoundary, SeedHistory, replaceMessages, PauseForApproval, ResumeWith,
      Complete, Stop, Cancel, Fail_, RecordFailureMetadata, RecordLastError, PrepareFailedStepRetry,
      RestoreFailedStepRetryPending, Reopen, Interrupt, Recover, Abandon, SetMode, PauseForAuthorization,
      ClaimAuthorization, RestoreAuthorizationClaim, AbortAuthorization, resolveAuthorization,
      AbortWorkspaceEnrollment, RestoreIncarnation;
      repeat case_match; try done; apply (data_ext s); simpl; auto)).
  - unfold RecordToolResults. case_bool; [done|]. simpl.
    destruct (foldl_recordResult_fields s rs)
      as (_ & _ & _ & _ & _ & _ & H7 & _ & _ & _ & H1 & H2 & H3 & H4 & H5 & H6).
    apply (data_ext s); auto.
  - unfold RecordUsage. case_bool; [done|]. destruct H. split; simpl; auto with go.
  - destruct H. split; simpl; auto with go.
  - destruct H. split; simpl; auto with go.
  - unfold Rehome. do 2 (case_bool; [done|]). bprop. destruct H. by split.
  - unfold BeginWorkspaceEnrollment. repeat case_match; try done. bprop. destruct H. split; simpl; auto.
  - unfold CompleteWorkspaceEnrollment. repeat case_match; try done. destruct H. split; simpl; auto.
  - unfold RestoreLabels. repeat case_match; try done; try (by apply BindAuthority_data);
      try (apply BindAuthority_data, (data_ext s); simpl; by auto); apply (data_ext s); simpl; by auto.
  - by apply BindAuthority_data.
  - unfold GrantToolAuthority. repeat case_match; try done. destruct H. split; simpl; auto.
  - unfold RestoreSessionMetadata. do 2 (case_bool; [done|]). bprop. destruct H. by split.
Qed.

Lemma New_ok id mode ref limits c inc s :
  New id mode ref limits c inc = Some s → shape s ∧ retry_ok s ∧ data_ok s.
Proof.
  unfold New. case_bool; [done|]. bprop. intros [= <-]. split_and!; [by split_and!|done|].
  split; simpl; try done.
Qed.

Lemma reachable_ok s : reachable s → shape s ∧ retry_ok s ∧ data_ok s.
Proof.
  induction 1 as [|s op _ (H1 & H2 & H3)]; [by eapply New_ok|].
  split_and!; [by apply exec_shape|by apply exec_retry|by apply exec_data].
Qed.

Lemma reachable_shape s : reachable s → shape s.
Proof. apply reachable_ok. Qed.
End invariant.

(** * Properties *)

(** A concrete platform and history for the witnesses. *)
Definition samplePlatform : Platform :=
  {| compactJSON := λ x, Some x; legacyIncarnationID := λ _ _ _, [] |}.

Definition runOps {platform : Platform} (s : Session) (ops : list Op) : Session :=
  foldl (λ s op, (exec s op).1) s ops.

Lemma reachable_runOps {platform : Platform} s ops : reachable s → reachable (runOps s ops).
Proof.
  revert s. induction ops as [|op ops IH]; intros s Hs; [done|]. by apply IH, reachable_exec.
Qed.

Definition sampleNew : Session :=
  default (mkSession [] StateIdle ModeDefault [] (mkLimits 0 0 0) zeroCounters ∅ None []
    (mkEnvRef [] [] []) [] [] newTitleMeta None noAuthority false SessionKindMain emptyRel 0 []
    None None None StopNone zeroRetry false zeroRetry [] [] noLabels)
  (New #"s1" ModeDefault (mkEnvRef #"local" #"ws" #"1") (mkLimits 5 0 3) 1 #"inc_x").

Lemma sampleNew_reachable : reachable (platform := samplePlatform) sampleNew.
Proof.
  apply (reachable_new #"s1" ModeDefault (mkEnvRef #"local" #"ws" #"1") (mkLimits 5 0 3) 1 #"inc_x").
  reflexivity.
Qed.

Definition samplePark : PendingAuthorization :=
  mkPendingAuthorization (mkExternalAuthorization #"auth-1" #"GitHub" #"b" 7)
    (sampleCall #"a") [sampleCall #"b"].

(** A turn whose first call is parked on an external authorization. *)
Definition sampleAuthorizing : Session :=
  runOps (platform := samplePlatform) sampleNew
    [ ORecordUserPrompt #"go" [] [] UserPromptProvenancePrincipal; OBeginTurn;
      ORecordAssistant (NewAssistantMessage #"ok" [] [sampleCall #"a"; sampleCall #"b"]);
      OPauseForAuthorization samplePark ].

(** A turn that failed with a retryable error. *)
Definition sampleFailed : Session :=
  runOps (platform := samplePlatform) sampleNew
    [ ORecordUserPrompt #"go" [] [] UserPromptProvenancePrincipal; OBeginTurn;
      ORecordAssistant (NewAssistantMessage #"ok" [] [sampleCall #"a"]); OFail;
      ORecordFailureMetadata (mkRetry 1 2) ].

(** C2. The lifecycle invariant of every history of calls: an ask is pending
    exactly while awaiting and an authorization exactly while authorizing (and
    then it still matches the history, so the state validator always succeeds);
    a workspace enrollment is pending only on an idle session with bound
    authority; a non-terminal session has no stop reason; failure facts exist
    only on a failed session; a retry intent exists only before the end of the
    run and is eligible; the usage ledger, environment reference, kind and bound
    authority are valid. *)
Theorem session_lifecycle_invariant {platform : Platform} s :
  reachable s →
  (is_Some (pending s) ↔ SState s = StateAwaiting) ∧
  (is_Some (pendingAuthorization s) ↔ SState s = StateAuthorizing) ∧
  ValidateAuthorizationState s = None ∧
  (is_Some (pendingWorkspaceEnrollment s) → SState s = StateIdle ∧ authorityBound s = true) ∧
  (IsTerminal (SState s) = false → stop s = StopNone) ∧
  (SState s ≠ StateFailed → failureMetadata s = zeroRetry ∧ lastError s = []) ∧
  (retryPending s = true → IsTerminal (SState s) = false ∧ retryEligible (retryMetadata s) = true) ∧
  data_ok s.
Proof.
  intros (Hs & Hr & Hd)%reachable_ok. pose proof (data_enrollment _ Hd) as He.
  unfold shape, clean, retry_ok, ValidateAuthorizationState in *.
  destruct (SState s) eqn:Es; simpl;
    repeat match goal with
    | H : _ ∧ _ |- _ => destruct H
    | H : ∃ _, _ |- _ => destruct H
    | H : is_Some (pending s) |- _ => destruct H
    | H : pending s = _ |- _ => rewrite H in *
    | H : pendingAuthorization s = _ |- _ => rewrite H in *
    | H : pendingWorkspaceEnrollment s = None |- _ => rewrite H in *
    | H : retryPending s = _ |- _ => rewrite H in *
    | H : validatePendingAuthorization _ _ _ = None |- _ => rewrite H in *
    end; split_and!; try done; try (by split; [intros []|]); try (by intros []); auto;
    try (intros Hp; rewrite Hp in *; auto); try (split; eauto; done).
Qed.

Lemma session_lifecycle_invariant_witness :
  is_Some (pendingAuthorization sampleAuthorizing) ↔ SState sampleAuthorizing = StateAuthorizing.
Proof.
  refine (proj1 (proj2 (session_lifecycle_invariant (platform := samplePlatform) sampleAuthorizing _))).
  apply reachable_runOps, sampleNew_reachable.
Defined.

(** Resolving a parked authorization closes the turn: from any reachable
    authorizing session, aborting succeeds with one error result for the parked
    call and one per deferred sibling, and recording them leaves a running
    session whose history is replayable. *)
Theorem authorization_abort_repairs {platform : Platform} s reason :
  reachable s → SState s = StateAuthorizing →
  ∃ p s1 s2, pendingAuthorization s = Some p ∧
    AbortAuthorization s reason = (s1, inl (abortResults reason p)) ∧
    RecordToolResults s1 (abortResults reason p) = (s2, None) ∧
    SState s2 = StateRunning ∧ pendingAuthorization s2 = None ∧
    Messages s `prefix_of` Messages s2 ∧ ValidateToolPairing (Messages s2) = None.
Proof.
  intros Hr%reachable_shape Hs. unfold shape in Hr. rewrite Hs in Hr.
  destruct Hr as (Hp & _ & _ & _ & p & Hpa & Hv).
  assert (HV : ValidateAuthorizationState s = None).
  { unfold ValidateAuthorizationState. by rewrite Hs, Hp, Hpa, Hv. }
  unfold AbortAuthorization, resolveAuthorization. rewrite HV, Hs, Hpa.
  exists p, (setState StateRunning (setPendingAuthorization None s)). eexists. split; [done|].
  split; [done|]. split; [by unfold RecordToolResults|].
  destruct (foldl_recordResult_fields (setState StateRunning (setPendingAuthorization None s))
    (abortResults reason p)) as (-> & _ & -> & _ & _ & _ & _ & _ & _ & -> & _).
  split_and!; [done|done|by apply prefix_app_r|]. by eapply abort_pairs.
Qed.

Lemma authorization_abort_repairs_witness :
  ∃ p s1 s2, pendingAuthorization sampleAuthorizing = Some p ∧
    AbortAuthorization (platform := samplePlatform) sampleAuthorizing #"denied"
      = (s1, inl (abortResults #"denied" p)) ∧
    RecordToolResults s1 (abortResults #"denied" p) = (s2, None) ∧
    SState s2 = StateRunning ∧ pendingAuthorization s2 = None ∧
    Messages sampleAuthorizing `prefix_of` Messages s2 ∧ ValidateToolPairing (Messages s2) = None.
Proof.
  apply (authorization_abort_repairs (platform := samplePlatform)).
  - apply reachable_runOps, sampleNew_reachable.
  - vm_compute. reflexivity.
Defined.

(** A claim that could not be handed to a run is compensated exactly:
    claiming the parked authorization of a reachable session succeeds, and
    restoring the claim gives the same session back. *)
Theorem authorization_claim_roundtrip {platform : Platform} s :
  reachable s → SState s = StateAuthorizing →
  ∃ p s1, ClaimAuthorization s = (s1, inl p) ∧ SState s1 = StateRunning ∧
    Messages s1 = Messages s ∧ RestoreAuthorizationClaim s1 p = (s, None).
Proof.
  intros Hr%reachable_shape Hs. unfold shape in Hr. rewrite Hs in Hr.
  destruct Hr as (Hp & _ & _ & _ & p & Hpa & Hv).
  assert (HV : ValidateAuthorizationState s = None).
  { unfold ValidateAuthorizationState. by rewrite Hs, Hp, Hpa, Hv. }
  unfold ClaimAuthorization. rewrite HV, Hs, Hpa. simpl. eexists p, _. split_and!; try done.
  unfold RestoreAuthorizationClaim, ValidateAuthorizationState. simpl. rewrite Hp, Hv. simpl.
  destruct s; simpl in *. by subst.
Qed.

Lemma authorization_claim_roundtrip_witness :
  ∃ p s1, ClaimAuthorization (platform := samplePlatform) sampleAuthorizing = (s1, inl p) ∧
    SState s1 = StateRunning ∧ Messages s1 = Messages sampleAuthorizing ∧
    RestoreAuthorizationClaim (platform := samplePlatform) s1 p = (sampleAuthorizing, None).
Proof.
  apply (authorization_claim_roundtrip (platform := samplePlatform)).
  - apply reachable_runOps, sampleNew_reachable.
  - vm_compute. reflexivity.
Defined.

(** ** Recovery *)

Lemma closeOut_prefix msgs message : msgs `prefix_of` closeOutInterruptedTurn msgs message.
Proof.
  destruct (lastAssistant msgs) as [[[p a] t]|] eqn:E.
  - rewrite (closeOut_eq _ _ _ _ _ E). by apply prefix_app_r.
  - unfold closeOutInterruptedTurn. by rewrite E.
Qed.

#[export] Hint Resolve closeOut_prefix : go.

(** The four seams back to idle, and the state each one starts from. *)
Inductive Seam : Type := SeamReopen | SeamInterrupt | SeamRecover | SeamAbandon.

#[export] Instance Seam_eq_dec : EqDecision Seam.
Proof. solve_decision. Defined.

Definition seamOp (m : Seam) : Op :=
  match m with
  | SeamReopen => OReopen
  | SeamInterrupt => OInterrupt
  | SeamRecover => ORecover
  | SeamAbandon => OAbandon
  end.

Definition recoverySeam (st : State) : option Seam :=
  match st with
  | StateCompleted => Some SeamReopen
  | StateCancelled => Some SeamInterrupt
  | StateFailed => Some SeamRecover
  | StateRunning => Some SeamAbandon
  | _ => None
  end.

(** [s'] is [s] brought back to idle: counters and stop reason reset, ledger
    kept, history extended. *)
Definition recovered (s s' : Session) : Prop :=
  SState s' = StateIdle ∧ SCounters s' = zeroCounters ∧ StopReasonOf s' = LimitTripped s' ∧
  pending s' = None ∧ tokenUsage s' = tokenUsage s ∧ Messages s `prefix_of` Messages s'.

Lemma recovered_reset s msgs :
  Messages s `prefix_of` msgs → recovered s (resetToIdle (setMessages msgs s)).
Proof.
  intros H. unfold recovered, StopReasonOf, RecordedStopReason. cbn.
  rewrite bool_decide_true by reflexivity. auto 10.
Qed.

Lemma recovered_retry s s' b m :
  recovered s s' → recovered s (setRetryMetadata m (setRetryPending b s')).
Proof. intros H. exact H. Qed.

Lemma recovered_plain s : recovered s (resetToIdle s).
Proof.
  unfold recovered, StopReasonOf, RecordedStopReason. cbn.
  rewrite bool_decide_true by reflexivity. auto 10.
Qed.

#[export] Hint Resolve recovered_reset recovered_retry recovered_plain : go.

(** Every ended or abandoned run has exactly one way back to idle: the seam
    of its state succeeds, resets the counters and the stop reason, keeps the
    usage ledger and extends the history; every other seam fails and changes
    nothing. *)
Theorem recovery_seams {platform : Platform} s seam :
  if decide (recoverySeam (SState s) = Some seam)
  then ∃ s', exec s (seamOp seam) = (s', None) ∧ recovered s s'
  else exec s (seamOp seam) = (s, Some ErrIllegalTransition).
Proof.
  destruct seam; cbn [seamOp exec]; unfold Reopen, Interrupt, Recover, Abandon, closeOut;
    generalize interruptCloseOutMessage, recoverCloseOutMessage, abandonCloseOutMessage; intros i r a;
    destruct (SState s) eqn:Es; cbn [recoverySeam]; case_decide; try congruence; try reflexivity;
    (eexists; split; [reflexivity|]; try case_match; auto with go).
Qed.

(** A prepared retry is never bypassed or lost: preparing an eligible failed
    session yields an idle session that carries the failure's facts (and
    preparing again changes nothing); while a retry is pending an idle session
    accepts no prompt, and every call keeps the intent unless it ends the run. *)
Theorem retry_intent_durable {platform : Platform} s :
  reachable s →
  (SState s = StateFailed → retryEligible (failureMetadata s) = true →
   ∃ s', PrepareFailedStepRetry s = (s', None) ∧ SState s' = StateIdle ∧ retryPending s' = true ∧
     retryMetadata s' = failureMetadata s ∧ PrepareFailedStepRetry s' = (s', None)) ∧
  (retryPending s = true →
   (SState s = StateIdle → ∀ text parts ins prov,
      recordUserPromptWithParts s text parts ins prov = (s, Some ErrIllegalTransition)) ∧
   ∀ op, IsTerminal (SState (exec s op).1) = false → retryPending (exec s op).1 = true).
Proof.
  intros Hr%reachable_shape. split.
  - intros Hs He. unfold PrepareFailedStepRetry. unfold shape in Hr. rewrite Hs in *.
    destruct Hr as (_ & _ & Hrp & _ & Hv). rewrite Hrp, Hv, He. simpl. eexists. split; [done|].
    split_and!; done.
  - intros Hp. split.
    { intros Hs text parts ins prov. unfold recordUserPromptWithParts.
      case_bool; [done|]. rewrite Hp, Hs. done. }
    intros op. pose proof (exec_shape s op Hr) as Hr'. unfold shape in Hr.
    destruct op; simpl; try done;
      unfold BeginTurn, RecordAssistant, RecordUsage, RecordLatestContextOccupancy,
        recordUserPromptWithParts, ReplaceHistory, ReplaceHistoryAtBoundary, SeedHistory, replaceMessages,
        PauseForApproval, ResumeWith, Complete, Stop, Cancel, Fail_, RecordFailureMetadata,
        RecordLastError, PrepareFailedStepRetry, RestoreFailedStepRetryPending, Reopen, Interrupt,
        Recover, Abandon, Rehome, SetMode, PauseForAuthorization, ClaimAuthorization,
        RestoreAuthorizationClaim, AbortAuthorization, resolveAuthorization, BeginWorkspaceEnrollment,
        CompleteWorkspaceEnrollment, AbortWorkspaceEnrollment, RestoreLabels, BindAuthority,
        GrantToolAuthority, RestoreSessionMetadata, RestoreIncarnation;
      try (repeat case_match; simpl; done).
    + unfold RecordToolResults. case_bool; [done|]. simpl.
      by destruct (foldl_recordResult_fields s rs) as (_ & _ & _ & _ & _ & _ & _ & -> & _).
    + case_bool; [done|]. bprop. rewrite E in Hr. naive_solver.
    + case_bool; [done|]. bprop. rewrite E in Hr. naive_solver.
    + case_bool; [done|]. bprop. rewrite E in Hr. naive_solver.
Qed.

Lemma retry_intent_durable_witness :
  ∃ s', PrepareFailedStepRetry sampleFailed = (s', None) ∧ SState s' = StateIdle ∧ retryPending s' = true ∧
    retryMetadata s' = failureMetadata sampleFailed ∧ PrepareFailedStepRetry s' = (s', None).
Proof.
  refine (proj1 (retry_intent_durable (platform := samplePlatform) sampleFailed _) _ _).
  - apply reachable_runOps, sampleNew_reachable.
  - vm_compute. reflexivity.
  - vm_compute. reflexivity.
Defined.

(** ** Counters and limits *)

(** The number of failed results at the end of a batch. *)
Fixpoint leadingErrors (rs : list ToolResult) : nat :=
  match rs with
  | r :: rs' => if RIsError r then S (leadingErrors rs') else 0
  | [] => 0
  end.
Definition errorRun (rs : list ToolResult) : nat := leadingErrors (rev rs).

Lemma errorRun_snoc rs r : errorRun (rs ++ [r]) = if RIsError r then S (errorRun rs) else 0.
Proof. unfold errorRun. by rewrite rev_app_distr. Qed.

Lemma errorRun_all rs : forallb RIsError rs = true → errorRun rs = length rs.
Proof.
  induction rs as [|r rs IH] using rev_ind; [done|]. rewrite forallb_app, errorRun_snoc, length_app.
  simpl. intros [H1 [H2 _]%andb_true_iff]%andb_true_iff. rewrite H2, IH by done. lia.
Qed.

(** A field that one recorded result keeps, a batch keeps. *)
Lemma foldl_recordResult_keeps {A} (f : Session → A) s rs :
  (∀ s r, f (recordResult s r) = f s) → f (foldl recordResult s rs) = f s.
Proof. intros Hf. revert s. induction rs as [|r rs IH]; intros s; [done|]. simpl. by rewrite IH, Hf. Qed.

Lemma foldl_recordResult_counters s rs :
  int64 (ToolCalls (SCounters s)) → int64 (ConsecutiveFailures (SCounters s)) →
  SCounters (foldl recordResult s rs) = mkCounters (Turns (SCounters s))
    (wrap64 (ToolCalls (SCounters s) + Z.of_nat (length rs)))
    (wrap64 (if forallb RIsError rs then ConsecutiveFailures (SCounters s) + Z.of_nat (errorRun rs)
             else Z.of_nat (errorRun rs))).
Proof.
  intros Ht Hf. induction rs as [|r rs IH] using rev_ind.
  { simpl. rewrite !Z.add_0_r, !wrap64_id by done. by destruct (SCounters s). }
  rewrite foldl_app. simpl. rewrite IH. cbn [Turns ToolCalls ConsecutiveFailures].
  rewrite wrap64_add_l, errorRun_snoc, forallb_app, length_app. simpl. f_equal.
  - f_equal. lia.
  - destruct (RIsError r); simpl; [|by rewrite andb_false_r].
    rewrite andb_true_r, wrap64_add_l. destruct (forallb RIsError rs); f_equal; lia.
Qed.

(** Recording a batch of results counts every one of them and keeps the run
    of failures at its end: the tool-call counter grows by the batch, the
    failure counter is the trailing run of errors (carried over from before when
    the whole batch failed), and while the counters do not overflow a trailing run
    as long as the configured failure limit trips a limit. *)
Theorem tool_results_counted s rs :
  SState s = StateRunning →
  int64 (ToolCalls (SCounters s)) → int64 (ConsecutiveFailures (SCounters s)) →
  ∃ s', RecordToolResults s rs = (s', None) ∧ SState s' = StateRunning ∧
    Messages s' = Messages s ++ (NewToolMessage <$> rs) ∧
    SCounters s' = mkCounters (Turns (SCounters s))
      (wrap64 (ToolCalls (SCounters s) + Z.of_nat (length rs)))
      (wrap64 (if forallb RIsError rs then ConsecutiveFailures (SCounters s) + Z.of_nat (errorRun rs)
               else Z.of_nat (errorRun rs))) ∧
    ((0 ≤ ConsecutiveFailures (SCounters s))%Z →
     int64 (ConsecutiveFailures (SCounters s) + Z.of_nat (errorRun rs))%Z →
     (0 < MaxConsecutiveFailures (SLimits s) ≤ Z.of_nat (errorRun rs))%Z → is_Some (LimitTripped s')).
Proof.
  intros Hs Ht Hf. exists (foldl recordResult s rs). pose proof (foldl_recordResult_counters s rs Ht Hf) as HC.
  destruct (foldl_recordResult_fields s rs) as (-> & _ & _ & _ & _ & _ & _ & _ & _ & -> & _).
  split_and!; try done; [unfold RecordToolResults; by rewrite Hs|].
  intros Hn Hb [Hp Hm]. unfold LimitTripped. rewrite (foldl_recordResult_keeps SLimits), HC by done.
  cbn [Turns ToolCalls ConsecutiveFailures].
  set (cf := wrap64 (if _ : bool then _ else _)).
  assert ((Z.of_nat (errorRun rs) ≤ cf)%Z).
  { subst cf. rewrite wrap64_id; destruct (forallb RIsError rs); unfold int64 in *; lia. }
  destruct (_ && _); [eauto|]. destruct (_ && _); [eauto|].
  rewrite (proj2 (andb_true_iff _ _)); [eauto|]. lia.
Qed.

Lemma tool_results_counted_witness :
  let s := setState StateRunning sampleNew in
  ∃ s', RecordToolResults s [NewToolError #"a" #"boom"] = (s', None) ∧
    ConsecutiveFailures (SCounters s') = 1%Z.
Proof.
  intros s. destruct (tool_results_counted s [NewToolError #"a" #"boom"]) as (s' & H1 & _ & _ & H2 & _).
  - reflexivity.
  - vm_compute. split; congruence.
  - vm_compute. split; congruence.
  - exists s'. split; [exact H1|]. rewrite H2. reflexivity.
Defined.

(** ** Bound authority *)

Lemma grantLoop_spec seen names additions :
  grantLoop seen names = Some additions →
  NoDup additions ∧ Forall (λ n, n ∉ seen ∧ validToolAuthorityName n = true) additions ∧
  additions ⊆ names ∧ ∀ n, n ∈ names → n ∈ seen ∨ n ∈ additions.
Proof.
  revert seen additions. induction names as [|n names IH]; simpl; intros seen additions H; simplify_eq.
  { split_and!; [constructor|constructor|set_solver|set_solver]. }
  case_bool; bprop.
  - apply IH in H as (? & ? & ? & Hin). split_and!; try done; [set_solver|].
    intros m [-> | Hm]%elem_of_cons; auto.
  - destruct (validToolAuthorityName n) eqn:Ev; simpl in H; [|done]. case_match; simplify_eq.
    match goal with G : grantLoop _ _ = _ |- _ => apply IH in G as (Hnd & Hall & Hsub & Hin) end.
    rewrite Forall_forall in Hall. split_and!.
    + constructor; [|done]. intros Hm%Hall. set_solver.
    + constructor; [done|]. apply Forall_forall. intros m Hm%Hall. set_solver.
    + set_solver.
    + intros m [-> | Hm]%elem_of_cons; [set_solver|]. apply Hin in Hm. set_solver.
Qed.

(** Everything an authority carries but its tools. *)
Definition envelope (a : Authority) : Z * bool * bool * gostr * gostr :=
  (RemainingDelegationDepth (ACapabilitySet a), FileSystem (ACapabilitySet a),
   DirectWrite (ACapabilitySet a), AProvenance a, ADefinitionIdentity a).

Definition toolsOf (s : Session) : list gostr := Tools (ACapabilitySet (SAuthority s)).

(** The authority after one call on a bound session. *)
Definition authorityStep (s : Session) (op : Op) (s' : Session) : Prop :=
  match op with
  | OGrantToolAuthority names =>
      ∃ additions, toolsOf s' = toolsOf s ++ additions ∧ NoDup additions ∧
        additions ⊆ names ∧ Forall (λ n, n ∉ toolsOf s ∧ validToolAuthorityName n = true) additions
  | OCompleteEnrollment p tools =>
      SAuthority s' = SAuthority s ∨
      (toolsOf s' = tools ∧ enrollmentPending s = true ∧ ValidWorkspaceEnrollmentToolNames tools = true)
  | _ => SAuthority s' = SAuthority s
  end.

Lemma GrantToolAuthority_step s names :
  let s' := (GrantToolAuthority s names).1 in
  authorityBound s' = authorityBound s ∧ envelope (SAuthority s') = envelope (SAuthority s) ∧
  authorityStep s (OGrantToolAuthority names) s' ∧ Owner s' = Owner s.
Proof.
  cbv zeta. assert (Hid : authorityStep s (OGrantToolAuthority names) s).
  { exists []. rewrite app_nil_r. split_and!; [done|constructor|set_solver|constructor]. }
  unfold GrantToolAuthority. case_bool; [done|].
  destruct (pending s), (pendingAuthorization s), (pendingWorkspaceEnrollment s); try done.
  case_bool; [done|]. destruct (grantLoop _ names) as [[|a additions]|] eqn:Eg; try done.
  apply grantLoop_spec in Eg as (Hnd & Hall & Hsub & _). split_and!; try done.
  exists (a :: additions). split_and!; try done. eapply Forall_impl; [exact Hall|]. cbv beta.
  intros n [Hn ?]. split; [|done]. contradict Hn. by apply elem_of_list_to_set.
Qed.

Lemma CompleteWorkspaceEnrollment_step s p tools :
  let s' := (CompleteWorkspaceEnrollment s p tools).1 in
  authorityBound s' = authorityBound s ∧ envelope (SAuthority s') = envelope (SAuthority s) ∧
  authorityStep s (OCompleteEnrollment p tools) s' ∧ Owner s' = Owner s.
Proof.
  cbv zeta. unfold CompleteWorkspaceEnrollment, authorityStep, enrollmentPending.
  destruct (pendingWorkspaceEnrollment s); [|by auto]. repeat (case_bool; [by auto|]).
  bprop. split_and!; try done. right. auto.
Qed.

(** A bound authority is fixed: no call unbinds it or changes its delegation
    depth, its file-system and write axes, its provenance or its definition
    identity; the tool list changes only by a grant, which appends new valid names
    of the request, or by completing a pending enrollment, which installs the
    validated list; and an owner once set never changes. *)
Theorem authority_axes_fixed {platform : Platform} s op :
  authorityBound s = true →
  let s' := (exec s op).1 in
  authorityBound s' = true ∧ envelope (SAuthority s') = envelope (SAuthority s) ∧
  authorityStep s op s' ∧ (is_Some (Owner s) → Owner s' = Owner s).
Proof.
  intros Hb. cbv zeta. destruct op; cbn [authorityStep exec].
  all: try (unfold ok, BeginTurn, RecordAssistant, SetUsageAttribution, RecordUsage,
        RecordLatestContextOccupancy, recordUserPromptWithParts, ReplaceHistory,
        ReplaceHistoryAtBoundary, SeedHistory, replaceMessages, PauseForApproval, ResumeWith, Complete,
        Stop, Cancel, Fail_, RecordFailureMetadata, RecordLastError, BeginRun, PrepareFailedStepRetry,
        RestoreFailedStepRetryPending, Reopen, Interrupt, Recover, Abandon, Rehome, SetMode,
        PauseForAuthorization, ClaimAuthorization, RestoreAuthorizationClaim, AbortAuthorization,
        resolveAuthorization, BeginWorkspaceEnrollment, AbortWorkspaceEnrollment, BindAuthority,
        RestoreSessionMetadata, RestoreIncarnation; rewrite ?Hb;
      repeat case_match; cbn; solve [auto]).
  - unfold RecordToolResults, ok. case_bool; [by auto|]. cbn [fst].
    by rewrite (foldl_recordResult_keeps authorityBound), (foldl_recordResult_keeps SAuthority),
      (foldl_recordResult_keeps Owner).
  - destruct (CompleteWorkspaceEnrollment_step s p tools) as (-> & ? & ? & ->). auto.
  - assert (Hbind : ∀ s1, authorityBound s1 = true →
      (if negb (AProvenance a =s []) then BindAuthority s1 a else ok s1).1 = s1).
    { intros s1 H1. unfold BindAuthority. rewrite H1. by repeat case_bool. }
    unfold RestoreLabels. destruct owner as [o|]; [|by rewrite Hbind].
    case_bool; [by auto|]. destruct (Owner s) as [o'|] eqn:Eo; [case_bool; [by auto|]|];
      rewrite Hbind by done; bprop; cbn; split_and!; auto; intros []; congruence.
  - destruct (GrantToolAuthority_step s names) as (-> & ? & ? & ->). auto.
Qed.

(** A new session bound to one tool. *)
Definition sampleBound : Session :=
  runOps (platform := samplePlatform) sampleNew
    [OBindAuthority (mkAuthority (mkCaps [ #"Read" ] 1 true false) #"root" [])].

Lemma authority_axes_fixed_witness :
  toolsOf (exec (platform := samplePlatform) sampleBound (OGrantToolAuthority [ #"Grep"; #"Read" ])).1
    = [ #"Read"; #"Grep" ] ∧
  envelope (SAuthority (exec (platform := samplePlatform) sampleBound
    (OGrantToolAuthority [ #"Grep"; #"Read" ])).1) = envelope (SAuthority sampleBound).
Proof.
  split; [vm_compute; reflexivity|].
  apply (authority_axes_fixed (platform := samplePlatform) sampleBound
    (OGrantToolAuthority [ #"Grep"; #"Read" ])).
  vm_compute. reflexivity.
Defined.
