(* ===== verification/Policy.v ===== *)
(** * The session-aware permission policy and its store of learned rules

    [engine/adapter/permpolicy/permpolicy.go] and
    [engine/adapter/permstore/permstore.go].  The policy asks a store of learned
    rules through the interface [port.PermissionStore] of
    [engine/port/permission.go], here the class [PermissionStore]; its theorems
    are proved for every store that keeps the interface's promises, and
    [Memory], the in-memory store, is an instance.

    Before that, the evaluator is shown to depend on its rules only as a set, and
    only through the rules that match the call: the policy merges rules of
    several origins into one list. *)

From S2P Require Import Prelude Shell Json Session Evaluator.

#[export] Instance Rule_eq_dec : EqDecision Rule.
Proof. solve_decision. Defined.

(** ** The store interface and the in-memory store *)

(** [port.PermissionStore]: recording keeps what was there, adds at most the
    recorded rule, and touches no other session. *)
Class PermissionStore (St : Type) := {
  storeRecord : St → gostr → Rule → St;
  storeRules : St → gostr → list Rule;
  store_other st sid sid' r : sid ≠ sid' → storeRules (storeRecord st sid r) sid' = storeRules st sid';
  store_sound st sid r r' :
    r' ∈ storeRules (storeRecord st sid r) sid → r' ∈ storeRules st sid ∨ r' = r;
  store_keeps st sid r r' : r' ∈ storeRules st sid → r' ∈ storeRules (storeRecord st sid r) sid
}.

Definition maxRulesPerSession : nat := 256.

(** [Memory]; the mutex is held for the whole of every method. *)
Record Memory := mkMemory { bySession : gmap gostr (list Rule) }.

Definition NewMemory : Memory := mkMemory ∅.

(** A missing key reads as the nil slice. *)
Definition MemoryRules (m : Memory) (sid : gostr) : list Rule := default [] (bySession m !! sid).

Definition MemoryRecord (m : Memory) (sid : gostr) (rule : Rule) : Memory :=
  let cur := MemoryRules m sid in
  if rule ∈? cur then m
  else if maxRulesPerSession <=? length cur then m
  else mkMemory (<[sid := cur ++ [rule]]> (bySession m)).

Definition MemoryForget (m : Memory) (sid : gostr) : Memory :=
  mkMemory (delete sid (bySession m)).

(** ** The policy *)

(** The resolver of file-based rules maps the workspace to its rules. *)
Record Policy (St WS : Type) := mkPolicy {
  peval : Evaluator;
  pstore : option St;
  presolver : option (WS → list Rule)
}.
Arguments mkPolicy {St WS} _ _ _.
Arguments peval {St WS} _.
Arguments pstore {St WS} _.
Arguments presolver {St WS} _.

Definition AllowAllFloorRules : list Rule :=
  [mkRule ScopeBuiltinDefault [] [] Allow false AudienceAll].

Definition acceptEditsRules : list Rule :=
  [mkRule ScopeCLI #"Edit" [] Allow false AudienceAll;
   mkRule ScopeCLI #"Write" [] Allow false AudienceAll].

Definition NewPolicyWithResolver {St WS} (rs : list Rule) (store : option St)
    (resolver : option (WS → list Rule)) (opts : list EvaluatorOption) : Policy St WS :=
  mkPolicy (NewEvaluator rs opts) store resolver.

Definition NewPolicy {St WS} (rs : list Rule) (store : option St) (opts : list EvaluatorOption)
    : Policy St WS :=
  mkPolicy (NewEvaluator rs opts) store None.

Section policy.
Context {St WS : Type} `{!PermissionStore St}.
Implicit Types p : Policy St WS.

(** The three groups of [extra], in the order they are appended. *)
Definition modeRules (mode : PermissionMode) : list Rule :=
  match mode with ModeAccept => acceptEditsRules | _ => [] end.
Definition learnedRules p (sid : gostr) : list Rule :=
  match pstore p with Some st => storeRules st sid | None => [] end.
Definition resolvedRules p (ws : WS) : list Rule :=
  match presolver p with Some resolve => resolve ws | None => [] end.

(** [Policy.Evaluate]; of the call it reads the name and the raw arguments. *)
Definition PolicyEvaluate p (sid : gostr) (mode : PermissionMode) (tool : gostr) (args : RawMessage)
    (ws : WS) : PermissionDecision :=
  EvaluateWith (peval p) tool args (match mode with ModePlan => true | _ => false end)
    (modeRules mode ++ learnedRules p sid ++ resolvedRules p ws).

Definition PolicyLearn p (sid tool : gostr) (args : RawMessage) : Policy St WS :=
  match pstore p with
  | None => p
  | Some st =>
      match LearnableRule (peval p) tool args with
      | Some rule => mkPolicy (peval p) (Some (storeRecord st sid rule)) (presolver p)
      | None => p
      end
  end.

(** A session's "allow always" verdicts, in order. *)
Definition learnAll p (calls : list (gostr * gostr * RawMessage)) : Policy St WS :=
  foldl (λ p '(sid, tool, args), PolicyLearn p sid tool args) p calls.
End policy.

(** ** Rule sets *)

Definition verdict (d : PermissionDecision) : Effect * AskProvenance := (DEffect d, DProvenance d).

(** What the folds read of a resolved pattern. *)
Definition ruleKey (x : PermissionDecision * option Rule) : Effect * AskProvenance * option Scope :=
  (verdict x.1, RScope <$> x.2).

(** Two rule lists that agree on the rules matching one pattern. *)
Definition agree (e : Evaluator) (tool p : gostr) (rs rs' : list Rule) : Prop :=
  ∀ r, ruleMatches r tool p (audience e) = true → r ∈ rs ↔ r ∈ rs'.

#[export] Instance agree_equivalence e tool p : Equivalence (agree e tool p).
Proof.
  split; unfold agree; [done|intros x y H r Hr; by rewrite H|].
  intros x y z H1 H2 r Hr. by rewrite H1, H2.
Qed.

Lemma best_scope e tool p rs rs' eff :
  agree e tool p rs rs' → RScope <$> best e rs tool p eff = RScope <$> best e rs' tool p eff.
Proof.
  intros H. pose proof (best_spec e rs tool p eff) as H1. pose proof (best_spec e rs' tool p eff) as H2.
  destruct (best e rs tool p eff) as [r|], (best e rs' tool p eff) as [r'|]; simpl; [|..|done].
  - destruct H1 as (Hr & Hb & Hm), H2 as (Hr' & Hb' & Hm'). f_equal. apply Z.le_antisymm.
    + apply Hm; [|done]. apply H; [apply Hb'|done].
    + apply Hm'; [|done]. apply H; [apply Hb|done].
  - destruct H1 as (Hr & Hb & _). destruct (H2 r); [|done]. apply H; [apply Hb|done].
  - destruct H2 as (Hr & Hb & _). destruct (H1 r'); [|done]. apply H; [apply Hb|done].
Qed.

#[export] Instance resolveSimpleRule_proper e tool p :
  Proper (agree e tool p ==> eq) (λ rs, ruleKey (resolveSimpleRule e rs tool p)).
Proof.
  intros rs rs' H. unfold ruleKey, verdict, resolveSimpleRule.
  pose proof (best_scope e tool p rs rs' Deny H). pose proof (best_scope e tool p rs rs' Ask H).
  pose proof (best_scope e tool p rs rs' Allow H).
  destruct (best e rs tool p Deny), (best e rs' tool p Deny); simplify_eq/=; [congruence|].
  destruct (best e rs tool p Ask), (best e rs' tool p Ask); simplify_eq/=;
    destruct (best e rs tool p Allow), (best e rs' tool p Allow); simplify_eq/=; try congruence;
    unfold configuredAskProvenance, ruleIsConfigured;
    repeat match goal with H : RScope ?a = RScope _ |- context [RScope ?a] => rewrite H end;
    repeat case_match; simpl; congruence.
Qed.

(** The folds over patterns and over segments depend on the rules only through
    the keys of the call's patterns. *)
Lemma resolveSimple_verdict e tool p rs rs' :
  ruleKey (resolveSimpleRule e rs tool p) = ruleKey (resolveSimpleRule e rs' tool p) →
  verdict (resolveSimple e rs tool p) = verdict (resolveSimple e rs' tool p).
Proof. unfold ruleKey, resolveSimple. congruence. Qed.

Lemma verdict_eq d d' :
  verdict d = verdict d' ↔ DEffect d = DEffect d' ∧ DProvenance d = DProvenance d'.
Proof. unfold verdict. split; [by intros [= ? ?]|by intros [-> ->]]. Qed.

Lemma resolvePatterns_ext e tool rs rs' ps :
  (∀ p, p ∈ ps → verdict (resolveSimple e rs tool p) = verdict (resolveSimple e rs' tool p)) →
  verdict (resolvePatterns e rs tool ps) = verdict (resolvePatterns e rs' tool ps).
Proof.
  intros H. unfold resolvePatterns.
  assert (Hst : ∀ st st', verdict (pWorst st) = verdict (pWorst st') →
    pConfiguredAsk st = pConfiguredAsk st' →
    let f := foldl (patternsStep e rs tool) st ps in
    let f' := foldl (patternsStep e rs' tool) st' ps in
    verdict (pWorst f) = verdict (pWorst f') ∧ pConfiguredAsk f = pConfiguredAsk f').
  { induction ps as [|p ps IH]; intros st st' H1 H2; simpl; [done|].
    apply IH; [intros; apply H; by constructor|..]; clear IH;
      specialize (H p (list_elem_of_here _ _)); apply verdict_eq in H as [He Hp].
    - pose proof H1 as [He1 _]%verdict_eq. simpl. rewrite He, He1.
      case_bool; [by apply verdict_eq|done].
    - simpl. by rewrite H2, Hp. }
  destruct (Hst patternsInit patternsInit) as [H1 H2]; [done..|]. cbv zeta in *.
  pose proof H1 as [He1 _]%verdict_eq. rewrite He1, H2. case_bool; [|done]. apply verdict_eq. done.
Qed.

(** What a fold state over segments determines. *)
Definition shellKey (st : shellState) :=
  (DEffect (worst st), haveDecision st, anyConfiguredAsk st, flooredConfigured st, flooredBuiltin st,
   flooredBad st, unflooredNotAll st).

Lemma shellKeep_ext st st' d d' :
  shellKey st = shellKey st' → verdict d = verdict d' → shellKey (shellKeep st d) = shellKey (shellKeep st' d').
Proof.
  unfold shellKey, shellKeep, keepWorst. intros [= H1 H2 H3 H4 H5 H6 H7] [He Hp]%verdict_eq. simpl.
  rewrite H1, H2, H3, H4, H5, H6, H7, He, Hp. case_bool; congruence.
Qed.

Lemma shellStep_ext e rs rs' st st' sub :
  shellKey st = shellKey st' →
  ruleKey (resolveSimpleRule e rs #"Shell" (Canonicalize sub))
    = ruleKey (resolveSimpleRule e rs' #"Shell" (Canonicalize sub)) →
  shellKey (shellStep e rs st sub) = shellKey (shellStep e rs' st' sub).
Proof.
  intros H Hk. unfold shellStep, resolveSimple.
  destruct (resolveSimpleRule e rs _ _) as [seg r], (resolveSimpleRule e rs' _ _) as [seg' r'].
  unfold ruleKey in Hk. simpl in Hk. apply pair_equal_spec in Hk as [Hv Hr].
  assert (Hs : DEffect seg = DEffect seg') by (by apply verdict_eq in Hv as [? _]).
  assert (Hkeep : shellKey (shellKeep st seg) = shellKey (shellKeep st' seg')) by (by apply shellKeep_ext).
  simpl. rewrite Hs. repeat case_bool; try done.
  unfold shellKey, shellFloor, keepWorst in *. simpl. injection H as H1 H2 H3 H4 H5 H6 H7.
  rewrite H1, H2, H3, H4, H5, H6, H7. destruct r, r'; simplify_eq/=;
    try match goal with H : RScope _ = RScope _ |- _ => rewrite H end; repeat case_bool; simpl; congruence.
Qed.

Lemma resolveShell_ext e rs rs' args :
  (∀ p, p ∈ callPatterns #"Shell" args →
     ruleKey (resolveSimpleRule e rs #"Shell" p) = ruleKey (resolveSimpleRule e rs' #"Shell" p)) →
  verdict (resolveShell e rs args) = verdict (resolveShell e rs' args).
Proof.
  unfold callPatterns, resolveShell. rewrite bool_decide_true by done.
  destruct (SplitCommands _) as [|s subs]; intros H.
  { apply resolveSimple_verdict, H. by constructor. }
  assert (Hst : ∀ l st st', (∀ x, x ∈ l → x ∈ s :: subs) → shellKey st = shellKey st' →
    shellKey (foldl (shellStep e rs) st l) = shellKey (foldl (shellStep e rs') st' l)).
  { induction l as [|x l IH]; intros st st' Hl Hk; simpl; [done|]. apply IH; [set_solver|].
    apply shellStep_ext; [done|]. apply H, list_elem_of_fmap. set_solver. }
  specialize (Hst (s :: subs) shellInit shellInit (λ x Hx, Hx) eq_refl).
  unfold shellKey in Hst. injection Hst as H1 H2 H3 H4 H5 H6 H7. unfold verdict. cbn [DEffect DProvenance].
  cbn [foldl]. by rewrite H1, H3, H4, H5, H6, H7.
Qed.

Lemma resolve_ext e rs rs' tool args :
  (∀ p, p ∈ callPatterns tool args → agree e tool p rs rs') →
  verdict (resolve e rs tool args) = verdict (resolve e rs' tool args).
Proof.
  intros H. assert (Hk : ∀ p, p ∈ callPatterns tool args →
    ruleKey (resolveSimpleRule e rs tool p) = ruleKey (resolveSimpleRule e rs' tool p)).
  { intros p Hp. by apply resolveSimpleRule_proper, H. }
  clear H. unfold resolve. destruct (tool =s #"Shell") eqn:Et.
  { bprop. subst. by apply resolveShell_ext. }
  unfold callPatterns in Hk. rewrite Et in Hk. case_match.
  - apply resolvePatterns_ext. intros. by apply resolveSimple_verdict, Hk.
  - apply resolveSimple_verdict, Hk. by constructor.
Qed.

Lemma EvaluateWith_ext e tool args pm extra extra' :
  (∀ p, p ∈ callPatterns tool args → agree e tool p (rules e ++ extra) (rules e ++ extra')) →
  verdict (EvaluateWith e tool args pm extra) = verdict (EvaluateWith e tool args pm extra').
Proof. intros H. rewrite !EvaluateWith_eq. case_match; [done|]. by apply resolve_ext. Qed.

(** ** The in-memory store *)

Lemma MemoryRules_insert m sid sid' l :
  MemoryRules (mkMemory (<[sid := l]> (bySession m))) sid' = if decide (sid = sid') then l else MemoryRules m sid'.
Proof.
  unfold MemoryRules. simpl. case_decide as E; [by rewrite E, lookup_insert_eq|by rewrite lookup_insert_ne].
Qed.

Lemma MemoryRecord_rules m sid sid' r :
  MemoryRules (MemoryRecord m sid r) sid' =
  if decide (sid = sid') then
    if r ∈? MemoryRules m sid then MemoryRules m sid
    else if maxRulesPerSession <=? length (MemoryRules m sid) then MemoryRules m sid
    else MemoryRules m sid ++ [r]
  else MemoryRules m sid'.
Proof.
  unfold MemoryRecord. cbv zeta. destruct (r ∈? _); [by case_decide; subst|].
  destruct (_ <=? _); [by case_decide; subst|]. apply MemoryRules_insert.
Qed.

#[export] Instance Memory_store : PermissionStore Memory.
Proof.
  refine {| storeRecord := MemoryRecord; storeRules := MemoryRules |}; intros st sid.
  - intros sid' r H. by rewrite MemoryRecord_rules, decide_False.
  - intros r r'. rewrite MemoryRecord_rules, decide_True by done. repeat case_bool; set_solver.
  - intros r r'. rewrite MemoryRecord_rules, decide_True by done. repeat case_bool; set_solver.
Defined.

(** The calls on the store. *)
Inductive StoreOp := SRecord (sid : gostr) (r : Rule) | SForget (sid : gostr).

Definition storeExec (m : Memory) (op : StoreOp) : Memory :=
  match op with SRecord sid r => MemoryRecord m sid r | SForget sid => MemoryForget m sid end.

(** What a session was taught since it was last forgotten. *)
Definition taughtStep (sid : gostr) (l : list Rule) (op : StoreOp) : list Rule :=
  match op with
  | SRecord sid' r => if sid' =s sid then l ++ [r] else l
  | SForget sid' => if sid' =s sid then [] else l
  end.
Definition taught (sid : gostr) (ops : list StoreOp) : list Rule := foldl (taughtStep sid) [] ops.

(** The list without its repetitions, each rule at its first place. *)
Definition firsts (l : list Rule) : list Rule :=
  foldl (λ acc r, if r ∈? acc then acc else acc ++ [r]) [] l.

Lemma firsts_snoc l r : firsts (l ++ [r]) = if r ∈? firsts l then firsts l else firsts l ++ [r].
Proof. unfold firsts. by rewrite foldl_app. Qed.

(** Recording on the first rules within the cap is recording on all of them. *)
Lemma record_take n l r :
  (if r ∈? take n (firsts l) then take n (firsts l)
   else if n <=? length (take n (firsts l)) then take n (firsts l) else take n (firsts l) ++ [r])
  = take n (firsts (l ++ [r])).
Proof.
  rewrite firsts_snoc, length_take. destruct (decide (length (firsts l) < n)) as [Hl|Hl].
  - rewrite take_ge by lia. case_bool; [by rewrite take_ge by lia|].
    rewrite (proj2 (Nat.leb_gt _ _)) by lia. rewrite take_ge; [done|]. rewrite length_app. simpl. lia.
  - rewrite (proj2 (Nat.leb_le _ _)) by lia. destruct (r ∈? firsts l).
    + by case_bool.
    + rewrite take_app_le by lia. by case_bool.
Qed.

Lemma storeExec_taught ops sid :
  MemoryRules (foldl storeExec NewMemory ops) sid = take maxRulesPerSession (firsts (taught sid ops)).
Proof.
  induction ops as [|op ops IH] using rev_ind; [done|]. unfold taught in *. rewrite !foldl_app. simpl.
  destruct op as [sid' r|sid']; simpl.
  - rewrite MemoryRecord_rules. case_decide as E.
    + subst sid'. rewrite (bool_decide_true (sid = sid)) by done. rewrite IH. apply record_take.
    + by rewrite (bool_decide_false (sid' = sid)).
  - unfold MemoryForget, MemoryRules in *. simpl. case_bool; bprop.
    + subst. by rewrite lookup_delete_eq.
    + by rewrite lookup_delete_ne.
Qed.

(** The store is a capped set per session: after any history of calls, a
    session has exactly the distinct rules recorded for it since it was last
    forgotten, in the order they were first recorded, up to the cap; other
    sessions' calls have no effect on it. *)
Theorem permstore_refines ops sid :
  MemoryRules (foldl storeExec NewMemory ops) sid = take maxRulesPerSession (firsts (taught sid ops)) ∧
  NoDup (MemoryRules (foldl storeExec NewMemory ops) sid) ∧
  length (MemoryRules (foldl storeExec NewMemory ops) sid) ≤ maxRulesPerSession.
Proof.
  rewrite storeExec_taught. split_and!; [done| |rewrite length_take; lia].
  apply (sublist_NoDup _ (firsts (taught sid ops))); [|apply sublist_take].
  induction (taught sid ops) as [|r l IH] using rev_ind; [constructor|]. rewrite firsts_snoc.
  case_bool; [done|]. bprop. apply NoDup_app. split_and!; [done|set_solver|apply NoDup_singleton].
Qed.

(** ** The policy over any store *)

Section theorems.
Context {St WS : Type} `{!PermissionStore St}.
Implicit Types p : Policy St WS.

Lemma PolicyLearn_fields p sid tool args :
  peval (PolicyLearn p sid tool args) = peval p ∧ presolver (PolicyLearn p sid tool args) = presolver p.
Proof. unfold PolicyLearn. by repeat case_match. Qed.

Lemma learnAll_fields p calls :
  peval (learnAll p calls) = peval p ∧ presolver (learnAll p calls) = presolver p.
Proof.
  induction calls as [|[[sid tool] args] calls IH] using rev_ind; [done|].
  unfold learnAll in *. rewrite foldl_app. simpl.
  destruct (PolicyLearn_fields (foldl (λ p '(sid, tool, args), PolicyLearn p sid tool args) p calls)
    sid tool args) as [-> ->]. done.
Qed.

Lemma PolicyLearn_rules p sid tool args sid' r :
  (r ∈ learnedRules p sid' → r ∈ learnedRules (PolicyLearn p sid tool args) sid') ∧
  (r ∈ learnedRules (PolicyLearn p sid tool args) sid' →
   r ∈ learnedRules p sid' ∨ (sid = sid' ∧ LearnableRule (peval p) tool args = Some r)).
Proof.
  unfold learnedRules, PolicyLearn. destruct (pstore p) as [st|] eqn:Es; [|rewrite Es; auto].
  destruct (LearnableRule _ _ _) as [rule|] eqn:El; [|rewrite Es; auto]. simpl.
  destruct (decide (sid = sid')) as [<-|Hne]; [|rewrite store_other by done; auto].
  split; [apply store_keeps|]. intros [?| ->]%store_sound; auto.
Qed.

(** Learned rules grow, and only by rules learned from calls of the session. *)
Lemma learnAll_rules p calls sid r :
  (r ∈ learnedRules p sid → r ∈ learnedRules (learnAll p calls) sid) ∧
  (r ∈ learnedRules (learnAll p calls) sid →
   r ∈ learnedRules p sid ∨
   ∃ tool args, (sid, tool, args) ∈ calls ∧ LearnableRule (peval p) tool args = Some r).
Proof.
  induction calls as [|[[sid' tool] args] calls [IH1 IH2]] using rev_ind; [auto|].
  destruct (learnAll_fields p calls) as [He _]. unfold learnAll in *. rewrite foldl_app. simpl.
  destruct (PolicyLearn_rules (foldl (λ p '(sid, tool, args), PolicyLearn p sid tool args) p calls)
    sid' tool args sid r) as [H1 H2]. rewrite He in H2. split; [auto|].
  intros [[?|(t & a & ? & ?)]%IH2|[-> ?]]%H2; [auto|right; exists t, a; set_solver|].
  right. exists tool, args. set_solver.
Qed.

Lemma learnAll_other p calls sid :
  (∀ c, c ∈ calls → c.1.1 ≠ sid) → learnedRules (learnAll p calls) sid = learnedRules p sid.
Proof.
  induction calls as [|[[sid' tool] args] calls IH] using rev_ind; [done|]. intros H.
  rewrite <-IH by (intros; apply H; set_solver). assert (sid' ≠ sid) by (apply (H (sid', tool, args)); set_solver).
  unfold learnAll in *. rewrite foldl_app. simpl. unfold learnedRules, PolicyLearn.
  set (q := foldl _ p calls). destruct (pstore q) as [st|] eqn:Es; [|by rewrite Es].
  destruct (LearnableRule _ _ _); simpl; [by apply store_other|by rewrite Es].
Qed.

(** Sessions are isolated: approvals given in other sessions never change a
    session's decisions, whatever store keeps the rules. *)
Theorem policy_sessions_isolated p calls sid mode tool args ws :
  (∀ c, c ∈ calls → c.1.1 ≠ sid) →
  PolicyEvaluate (learnAll p calls) sid mode tool args ws = PolicyEvaluate p sid mode tool args ws.
Proof.
  intros H. unfold PolicyEvaluate, resolvedRules. destruct (learnAll_fields p calls) as [-> ->].
  by rewrite learnAll_other.
Qed.

(** An approval of the session for the call's tool and one of its patterns. *)
Definition vouches (sid tool : gostr) (args : RawMessage) (c : gostr * gostr * RawMessage) : Prop :=
  c.1.1 = sid ∧ c.1.2 = tool ∧
  ∃ pat, learnablePattern c.1.2 c.2 = Some pat ∧ pat ∈ callPatterns tool args.

#[local] Instance vouches_dec sid tool args c : Decision (vouches sid tool args c).
Proof.
  unfold vouches. destruct (learnablePattern c.1.2 c.2) as [pat|] eqn:E.
  - destruct (decide (c.1.1 = sid ∧ c.1.2 = tool ∧ pat ∈ callPatterns tool args)); [left|right]; naive_solver.
  - right. naive_solver.
Defined.

(** Every effect of learning is vouched for: if approvals changed the effect
    or the provenance of a session's decision on a call, then one of them was
    given in that session, for that tool, and for a pattern of that very call. *)
Theorem policy_change_vouched p calls sid mode tool args ws :
  (∀ c, c ∈ calls → c.1.2 ≠ []) →
  verdict (PolicyEvaluate (learnAll p calls) sid mode tool args ws)
    ≠ verdict (PolicyEvaluate p sid mode tool args ws) →
  ∃ c, c ∈ calls ∧ vouches sid tool args c.
Proof.
  intros Hne Hv. destruct (decide (Exists (vouches sid tool args) calls)) as [He|He];
    [by apply list.Exists_exists in He|].
  destruct Hv. unfold PolicyEvaluate, resolvedRules. destruct (learnAll_fields p calls) as [-> ->].
  apply EvaluateWith_ext. intros pat Hpat r Hm. rewrite !elem_of_app.
  destruct (learnAll_rules p calls sid r) as [H1 H2]. split; [|tauto].
  intros [?|[?|[[?|(t & a & Hin & Hl)]%H2|?]]]; auto. destruct He. apply list.Exists_exists.
  exists (sid, t, a). split; [done|]. apply LearnableRule_inv in Hl as (pat' & Hp & Hne' & ->).
  apply learned_ruleMatches in Hm as [-> ->]; [|done|by apply (Hne (sid, t, a))]. split_and!; eauto.
Qed.

(** C31. Learning never loosens policy: after any approvals, in any session, a call
    that the static, mode and file-based rules deny is still denied, and one that
    they ask about by configuration is still not allowed. *)
Theorem policy_learning_never_loosens p calls sid mode tool args ws :
  (DEffect (PolicyEvaluate p sid mode tool args ws) = Deny →
   DEffect (PolicyEvaluate (learnAll p calls) sid mode tool args ws) = Deny) ∧
  (DProvenance (PolicyEvaluate p sid mode tool args ws) = AskProvenanceConfigured →
   DEffect (PolicyEvaluate (learnAll p calls) sid mode tool args ws) ≠ Allow).
Proof.
  unfold PolicyEvaluate, resolvedRules. destruct (learnAll_fields p calls) as [-> ->].
  set (old := modeRules mode ++ learnedRules p sid ++ _). set (new := modeRules mode ++ _).
  set (added := filter (λ r, REffect r = Allow) (learnedRules (learnAll p calls) sid)).
  assert (Hsame : verdict (EvaluateWith (peval p) tool args (match mode with ModePlan => true | _ => false end) new)
    = verdict (EvaluateWith (peval p) tool args (match mode with ModePlan => true | _ => false end) (old ++ added))).
  { apply EvaluateWith_ext. intros pat _ r _. subst old new added.
    destruct (learnAll_rules p calls sid r) as [H1 H2]. rewrite !elem_of_app, list_elem_of_filter.
    split; [|tauto]. intros [?|[?|[Hr|?]]]; auto 10. pose proof Hr as [?|(t & a & _ & Hl)]%H2; [auto 10|].
    apply LearnableRule_inv in Hl as (? & _ & _ & ->). auto 10. }
  apply verdict_eq in Hsame as [-> _]. rewrite !EvaluateWith_eq.
  set (plan := match mode with ModePlan => true | _ => false end).
  destruct (if plan then planModeDecision tool args else None) as [d|] eqn:Epm.
  - destruct plan; [|done]. by apply planModeDecision_Deny in Epm as ->.
  - rewrite app_assoc. apply resolve_extra_allow. intros r [? _]%list_elem_of_filter. done.
Qed.
End theorems.

(** ** Approvals and accept-edits *)

Lemma EvaluateWith_Ask e tool args pm extra :
  DEffect (EvaluateWith e tool args pm extra) = Ask →
  (if pm then planModeDecision tool args else None) = None.
Proof.
  rewrite EvaluateWith_eq. destruct (if pm then _ else _) as [d|] eqn:E; [|done].
  destruct pm; [|done]. by apply planModeDecision_Deny in E as ->.
Qed.

(** An approval takes effect: after "allow always" on a call that the policy
    asked about without a configured reason, and while the session is below the
    cap, the same call in the same session is allowed, in the same mode and
    workspace. *)
Theorem policy_learn_effective {WS} (p : Policy Memory WS) m sid mode tool args ws r :
  pstore p = Some m → length (MemoryRules m sid) < maxRulesPerSession →
  LearnableRule (peval p) tool args = Some r → tool ≠ [] → tool ≠ #"Copy" → tool ≠ #"Move" →
  verdict (PolicyEvaluate p sid mode tool args ws) = (Ask, AskProvenanceUnknown) →
  DEffect (PolicyEvaluate (PolicyLearn p sid tool args) sid mode tool args ws) = Allow.
Proof.
  intros Hst Hcap Hl Ht Hc Hm. unfold PolicyEvaluate, resolvedRules.
  destruct (PolicyLearn_fields p sid tool args) as [-> ->].
  set (pm := match mode with ModePlan => true | _ => false end).
  set (old := modeRules mode ++ learnedRules p sid ++ _). set (new := modeRules mode ++ _).
  intros Hold. assert (HE : DEffect (EvaluateWith (peval p) tool args pm old) = Ask) by (by injection Hold).
  pose proof (EvaluateWith_Ask _ _ _ _ _ HE) as Hpm. rewrite EvaluateWith_eq, Hpm in *.
  injection Hold as _ HP. pose proof (resolve_learned _ _ _ _ _ Hl Ht Hc Hm HE HP) as HA.
  rewrite <-HA. apply verdict_eq, resolve_ext. intros pat _ r' _. subst old new.
  assert (Hin : r ∈ learnedRules (PolicyLearn p sid tool args) sid).
  { unfold PolicyLearn, learnedRules. rewrite Hst, Hl. simpl. rewrite MemoryRecord_rules, decide_True by done.
    case_bool; [by bprop|]. rewrite (proj2 (Nat.leb_gt _ _)) by done. set_solver. }
  destruct (PolicyLearn_rules p sid tool args sid r') as [H1 H2]. rewrite Hl in H2.
  rewrite !elem_of_app, list_elem_of_singleton. split; [|naive_solver].
  intros [?|[?|[[?|[_ [= ->]]]%H2|?]]]; auto 10.
Qed.

Lemma acceptEdits_match e tool pat r :
  r ∈ acceptEditsRules → tool = RTool r ↔ ruleMatches r tool pat (audience e) = true.
Proof.
  intros Hr. unfold acceptEditsRules in Hr. rewrite elem_of_cons, list_elem_of_singleton in Hr.
  unfold ruleMatches. destruct Hr as [-> | ->]; simpl.
  - destruct (decide (tool = #"Edit")) as [->|]; [done|]. rewrite (bool_decide_false (#"Edit" = tool)) by done.
    by split.
  - destruct (decide (tool = #"Write")) as [->|]; [done|]. rewrite (bool_decide_false (#"Write" = tool)) by done.
    by split.
Qed.

(** An Allow of command-line scope, on top of any rules. *)
Lemma resolveSimple_cli_allow e rs extra tool pat r :
  (∀ r, r ∈ extra → REffect r = Allow) → r ∈ extra → RScope r = ScopeCLI →
  ruleMatches r tool pat (audience e) = true →
  DEffect (resolveSimple e (rs ++ extra) tool pat) =
  match verdict (resolveSimple e rs tool pat) with
  | (Deny, _) => Deny
  | (Ask, AskProvenanceConfigured) => Ask
  | _ => Allow
  end.
Proof.
  intros HA Hr Hs Hm. unfold verdict, resolveSimple, resolveSimpleRule.
  rewrite !(best_app_other e rs extra tool pat Deny), !(best_app_other e rs extra tool pat Ask)
    by (intros r' Hr'; by rewrite HA).
  destruct (best e rs tool pat Deny); [done|].
  pose proof (best_spec e (rs ++ extra) tool pat Allow) as HB.
  assert (Hin : r ∈ rs ++ extra) by set_solver. assert (Hb : binds e tool pat Allow r) by (split; auto).
  destruct (best e (rs ++ extra) tool pat Allow) as [al|]; [|by destruct (HB r Hin)].
  destruct HB as (_ & _ & Hmin). specialize (Hmin r Hin Hb). rewrite Hs in Hmin.
  destruct (best e rs tool pat Ask) as [ask|]; [|by destruct (best e rs tool pat Allow)].
  unfold configuredAskProvenance, ruleIsConfigured, HasHigherPrecedenceThan.
  destruct (RScope ask =s ScopeBuiltinDefault) eqn:Ea; bprop; simpl.
  - rewrite Ea. unfold ScopeBuiltinDefault, ScopeCLI in *.
    replace (RScope al <? 5)%Z with true by (symmetry; apply Z.ltb_lt; lia). simpl.
    destruct (best e rs tool pat Allow); simpl; [by case_bool|done].
  - by destruct (best e rs tool pat Allow).
Qed.

(** Accept-edits mode loosens exactly the built-in floor of the two edit
    tools: every other call is decided as in default mode; an edit that default
    mode denies stays denied, one it asks about by configuration stays asked,
    and every other edit is allowed. *)
Theorem accept_edits_scope {St WS} `{!PermissionStore St} (p : Policy St WS) sid tool args ws :
  let d := PolicyEvaluate p sid ModeDefault tool args ws in
  let a := PolicyEvaluate p sid ModeAccept tool args ws in
  if decide (tool = #"Edit" ∨ tool = #"Write")
  then DEffect a = match verdict d with
                   | (Deny, _) => Deny
                   | (Ask, AskProvenanceConfigured) => Ask
                   | _ => Allow
                   end
  else verdict a = verdict d.
Proof.
  unfold PolicyEvaluate. rewrite !EvaluateWith_eq. cbv zeta.
  set (rest := learnedRules p sid ++ resolvedRules p ws). cbn [modeRules app].
  case_decide as Ht.
  - assert (Hr : ∃ r, r ∈ acceptEditsRules ∧ tool = RTool r ∧ RScope r = ScopeCLI).
    { destruct Ht as [-> | ->];
        [exists (mkRule ScopeCLI #"Edit" [] Allow false AudienceAll)
        |exists (mkRule ScopeCLI #"Write" [] Allow false AudienceAll)];
        (split; [unfold acceptEditsRules|done]); [by left|right; by left]. }
    destruct Hr as (r & Hin & Htr & Hs).
    assert (Hres : ∀ rs, resolve (peval p) rs tool args
      = resolveSimple (peval p) rs tool (nonShellPattern tool args)).
    { intros rs. by destruct Ht as [-> | ->]. }
    rewrite !Hres.
    rewrite <-(resolveSimple_cli_allow (peval p) (rules (peval p) ++ rest) acceptEditsRules _ _ r); try done.
    + rewrite <-!Hres. apply verdict_eq, resolve_ext. intros pat _ r' _. set_solver.
    + intros r' Hr'. unfold acceptEditsRules in Hr'. set_solver.
    + by apply (acceptEdits_match _ _ _ r Hin).
  - apply resolve_ext. intros pat _ r Hm. rewrite !elem_of_app. split; [|tauto].
    intros [?|[Hr|?]]; auto. destruct Ht. apply acceptEdits_match in Hm as ->; [|done].
    unfold acceptEditsRules in Hr. rewrite elem_of_cons, list_elem_of_singleton in Hr.
    destruct Hr as [-> | ->]; auto.
Qed.

(** ** A policy to evaluate *)

Definition samplePolicy : Policy Memory unit := NewPolicy [floorAsk; denyRm] (Some NewMemory) [].

Definition makeTest : RawMessage := shellArgs #"make test".

Lemma policy_sessions_isolated_witness :
  PolicyEvaluate (learnAll samplePolicy [(#"s1", #"Shell", makeTest)]) #"s2" ModeDefault #"Shell" makeTest tt
  = PolicyEvaluate samplePolicy #"s2" ModeDefault #"Shell" makeTest tt.
Proof.
  apply policy_sessions_isolated. intros c ->%list_elem_of_singleton. vm_compute. congruence.
Defined.

Lemma policy_change_vouched_witness :
  ∃ c, c ∈ [(#"s1", #"Shell", makeTest)] ∧ vouches #"s1" #"Shell" makeTest c.
Proof.
  apply (policy_change_vouched samplePolicy [(#"s1", #"Shell", makeTest)] #"s1" ModeDefault #"Shell" makeTest tt).
  - intros c ->%list_elem_of_singleton. vm_compute. congruence.
  - vm_compute. congruence.
Defined.

Lemma policy_learn_effective_witness :
  DEffect (PolicyEvaluate (PolicyLearn samplePolicy #"s1" #"Shell" makeTest) #"s1" ModeDefault #"Shell"
    makeTest tt) = Allow.
Proof.
  apply (policy_learn_effective samplePolicy NewMemory #"s1" ModeDefault #"Shell" makeTest tt
    (mkRule ScopeUser #"Shell" #"make test" Allow true AudienceAll)); try (vm_compute; congruence).
  vm_compute. lia.
Defined.
