(* ===== verification/Lease.v ===== *)
(** * Single-writer session leases

    The contract [port.SessionLease] of [engine/port/lease.go] as the class
    [SessionLease], what it guarantees to its users, and the reference
    implementation [engine/adapter/memlease/memlease.go], an instance
    ([engine/adapter/memstore/lease.go] has the same operations).

    Every method reads the clock before it takes the mutex, so the times of a
    sequence of calls need not be ordered: each call has its own [now].  Times
    are nanoseconds, tokens are [uint64]. *)

From S2P Require Import Prelude.

(** ** The contract *)

(** [port.Lease] *)
Record LeaseValue := mkLease { LSessionID : gostr; LOwner : gostr; LToken : Z; LExpiry : Z }.

Inductive LeaseError := ErrLeaseHeld | ErrLeaseUnsupported.

(** The operations with three observations, of which users see only the grants:
    the current holder, the highest token ever granted and the lifetime. *)
Class LeaseOps (L : Type) := {
  Acquire : L → Z → gostr → gostr → L * (LeaseValue + LeaseError);
  Renew : L → Z → LeaseValue → L * (LeaseValue + LeaseError);
  Release : L → LeaseValue → L;
  hold : L → gostr → option LeaseValue;
  highest : L → gostr → Z;
  lifetime : L → Z;
  leaseOk : L → Prop
}.

(** Only the entry of [id] may have changed. *)
Definition sameElsewhere `{LeaseOps L} (l l' : L) (id : gostr) : Prop :=
  lifetime l' = lifetime l ∧
  ∀ id', id' ≠ id → hold l' id' = hold l id' ∧ highest l' id' = highest l id'.

(** [v] is the hold just given. *)
Definition grants `{LeaseOps L} (l l' : L) (now : Z) (v : LeaseValue) : Prop :=
  leaseOk l' ∧ sameElsewhere l l' (LSessionID v) ∧ LExpiry v = (now + lifetime l)%Z ∧
  hold l' (LSessionID v) = Some v ∧ highest l' (LSessionID v) = LToken v.

(** The hold of [id] at [now], if it has not lapsed. *)
Definition liveHold `{LeaseOps L} (l : L) (now : Z) (id : gostr) : option LeaseValue :=
  match hold l id with
  | Some cur => if (now <? LExpiry cur)%Z then Some cur else None
  | None => None
  end.

(** The promises.  [Acquire] is refused exactly while another owner's hold is
    live; it keeps or advances the token of the caller's own live hold and
    otherwise gives a token above every earlier one.  [Renew] needs the owner and
    the token of the current hold and keeps them; whether it succeeds after expiry
    is left open.  [Release] drops only the caller's own hold. *)
Class SessionLease (L : Type) `{LeaseOps L} := {
  hold_ok (l : L) id cur : leaseOk l → hold l id = Some cur → LSessionID cur = id ∧ LToken cur = highest l id;
  acquire_law (l : L) now id owner : leaseOk l → (highest l id < maxUint64)%Z →
    match liveHold l now id with
    | Some cur =>
        if decide (LOwner cur = owner)
        then ∃ l' v, Acquire l now id owner = (l', inl v) ∧ grants l l' now v ∧ LSessionID v = id ∧
               LOwner v = owner ∧ (LToken v = LToken cur ∨ (highest l id < LToken v)%Z)
        else Acquire l now id owner = (l, inr ErrLeaseHeld)
    | None =>
        ∃ l' v, Acquire l now id owner = (l', inl v) ∧ grants l l' now v ∧ LSessionID v = id ∧
          LOwner v = owner ∧ (highest l id < LToken v)%Z
    end;
  renew_law (l : L) now w : leaseOk l →
    match Renew l now w with
    | (l', inl v) => grants l l' now v ∧ LSessionID v = LSessionID w ∧
        ∃ cur, hold l (LSessionID w) = Some cur ∧ LOwner cur = LOwner w ∧ LToken cur = LToken w ∧
          LOwner v = LOwner w ∧ LToken v = LToken w
    | (l', inr e) => l' = l ∧ e = ErrLeaseHeld
    end;
  renew_live (l : L) now w cur : leaseOk l → liveHold l now (LSessionID w) = Some cur →
    LOwner cur = LOwner w → LToken cur = LToken w → ∃ l' v, Renew l now w = (l', inl v);
  release_law (l : L) w : leaseOk l →
    match hold l (LSessionID w) with
    | Some cur =>
        if decide (LOwner cur = LOwner w ∧ LToken cur = LToken w)
        then leaseOk (Release l w) ∧ hold (Release l w) (LSessionID w) = None ∧
             highest (Release l w) (LSessionID w) = highest l (LSessionID w) ∧
             sameElsewhere l (Release l w) (LSessionID w)
        else Release l w = l
    | None => Release l w = l
    end
}.

(** ** What users of a lease can rely on *)

Inductive LeaseOp :=
  | LAcquire (now : Z) (id owner : gostr)
  | LRenew (now : Z) (w : LeaseValue)
  | LRelease (w : LeaseValue).

Section users.
Context `{SessionLease L}.
Implicit Types l : L.

Definition toGrant (r : L * (LeaseValue + LeaseError)) : L * option LeaseValue :=
  match r with (l, inl v) => (l, Some v) | (l, inr _) => (l, None) end.

Definition leaseExec l (op : LeaseOp) : L * option LeaseValue :=
  match op with
  | LAcquire now id owner => toGrant (Acquire l now id owner)
  | LRenew now w => toGrant (Renew l now w)
  | LRelease w => (Release l w, None)
  end.

(** The state after a sequence of calls, and the leases they granted. *)
Fixpoint leaseRun l (ops : list LeaseOp) : L * list LeaseValue :=
  match ops with
  | [] => (l, [])
  | op :: ops' =>
      let '(l1, g) := leaseExec l op in
      let '(l2, gs) := leaseRun l1 ops' in
      (l2, option_list g ++ gs)
  end.

(** No token of the sequence comes near overflow. *)
Fixpoint tokensFit l (ops : list LeaseOp) : Prop :=
  (∀ id, (highest l id < maxUint64)%Z) ∧
  match ops with [] => True | op :: ops' => tokensFit (leaseExec l op).1 ops' end.

(** One call: who may be granted what, and what stays. *)
Lemma leaseExec_grant l op l' v :
  leaseOk l → (∀ id, (highest l id < maxUint64)%Z) → leaseExec l op = (l', Some v) →
  ∃ now, grants l l' now v ∧ (op = LAcquire now (LSessionID v) (LOwner v) ∨ (∃ w, op = LRenew now w)) ∧
    ((highest l (LSessionID v) < LToken v)%Z ∧ liveHold l now (LSessionID v) = None ∨
     ∃ cur, hold l (LSessionID v) = Some cur ∧ LOwner cur = LOwner v ∧
       (LToken v = LToken cur ∨ (highest l (LSessionID v) < LToken v)%Z)).
Proof.
  intros Hok Hfit. destruct op as [now id owner|now w|w]; simpl; [| |done].
  - pose proof (acquire_law l now id owner Hok (Hfit id)) as Ha.
    destruct (liveHold l now id) as [cur|] eqn:El; [case_decide|].
    + destruct Ha as (l1 & v1 & -> & Hg & <- & Ho & Ht). intros [= -> ->]. exists now. subst owner.
      split_and!; [done|left; congruence|]. right. exists cur. split_and!; try done. unfold liveHold in El.
      by repeat case_match; simplify_eq.
    + by rewrite Ha.
    + destruct Ha as (l1 & v1 & -> & Hg & <- & <- & Ht). intros [= -> ->]. exists now. auto 10.
  - pose proof (renew_law l now w Hok) as Hr. destruct (Renew l now w) as [l1 [v1|e]]; [|done].
    destruct Hr as (Hg & Hid & cur & Hc & Ho & Ht & Ho' & Ht'). intros [= -> ->]. exists now.
    split_and!; [done|by eauto|]. right. exists cur. rewrite Hid. split_and!; [done|congruence|left; congruence].
Qed.

Lemma leaseExec_none l op l' :
  leaseOk l → (∀ id, (highest l id < maxUint64)%Z) → leaseExec l op = (l', None) →
  l' = l ∨
  ∃ w cur, op = LRelease w ∧ hold l (LSessionID w) = Some cur ∧ LOwner cur = LOwner w ∧ leaseOk l' ∧
    hold l' (LSessionID w) = None ∧ highest l' (LSessionID w) = highest l (LSessionID w) ∧
    sameElsewhere l l' (LSessionID w).
Proof.
  intros Hok Hfit. destruct op as [now id owner|now w|w]; simpl.
  - pose proof (acquire_law l now id owner Hok (Hfit id)) as Ha.
    destruct (liveHold l now id) as [cur|]; [case_decide|].
    + by destruct Ha as (l1 & v1 & -> & _).
    + rewrite Ha. intros [= ->]. auto.
    + by destruct Ha as (l1 & v1 & -> & _).
  - pose proof (renew_law l now w Hok) as Hr. destruct (Renew l now w) as [l1 [v1|e]]; [done|].
    destruct Hr as [-> _]. intros [= ->]. auto.
  - intros [= <-]. pose proof (release_law l w Hok) as Hr.
    destruct (hold l (LSessionID w)) as [cur|] eqn:Eh; [|auto]. case_decide; [|auto].
    right. exists w, cur. naive_solver.
Qed.

Lemma leaseExec_ok l op :
  leaseOk l → (∀ id, (highest l id < maxUint64)%Z) → leaseOk (leaseExec l op).1.
Proof.
  intros Hok Hfit. destruct (leaseExec l op) as [l' [v|]] eqn:E; simpl.
  - apply leaseExec_grant in E as (? & Hg & _); [apply Hg|done..].
  - apply leaseExec_none in E as [->|(w & c & _ & _ & _ & ? & _)]; done.
Qed.

(** A call made while the lease [v], granted at [start], runs, other than the
    holder giving it up. *)
Definition during (v : LeaseValue) (start : Z) (op : LeaseOp) : Prop :=
  match op with
  | LAcquire now _ _ | LRenew now _ => (start <= now < LExpiry v)%Z
  | LRelease w => ¬ (LSessionID w = LSessionID v ∧ LOwner w = LOwner v)
  end.

(** The owner of [v] holds its session at least as long as [v] says. *)
Definition holdsOn l (v : LeaseValue) : Prop :=
  ∃ cur, hold l (LSessionID v) = Some cur ∧ LOwner cur = LOwner v ∧ (LExpiry v <= LExpiry cur)%Z.

Lemma liveHold_holdsOn l v now :
  holdsOn l v → (now < LExpiry v)%Z →
  ∃ cur, liveHold l now (LSessionID v) = Some cur ∧ LOwner cur = LOwner v.
Proof.
  intros (cur & Hc & Ho & He) Hn. exists cur. unfold liveHold. rewrite Hc.
  by rewrite (proj2 (Z.ltb_lt _ _)) by lia.
Qed.

Lemma leaseExec_holds l op v start :
  leaseOk l → (∀ id, (highest l id < maxUint64)%Z) → holdsOn l v →
  LExpiry v = (start + lifetime l)%Z → during v start op →
  let '(l', g) := leaseExec l op in
  holdsOn l' v ∧ lifetime l' = lifetime l ∧
  (∀ w, g = Some w → LSessionID w = LSessionID v → LOwner w = LOwner v).
Proof.
  intros Hok Hfit Hon He Hd. destruct (leaseExec l op) as [l' [w|]] eqn:E.
  - apply leaseExec_grant in E as (now & (Hok' & [HT Hoth] & Hexp & Hh & _) & Hop & Hcase); [|done..].
    assert (Hnow : (start <= now < LExpiry v)%Z) by (destruct Hop as [->|[? ->]]; exact Hd).
    destruct (decide (LSessionID w = LSessionID v)) as [Hid|Hid].
    + assert (Hwo : LOwner w = LOwner v).
      { rewrite Hid in Hcase. destruct (liveHold_holdsOn l v now Hon) as (c & Hc & Hco); [lia|].
        destruct Hcase as [[_ Hn]|(cur & Hcur & Ho & _)]; [congruence|].
        destruct Hon as (cur' & Hcur' & Ho' & _). congruence. }
      split_and!; [|done|by intros ? [= <-]]. exists w. rewrite <-Hid. split_and!; [done|done|lia].
    + destruct (Hoth (LSessionID v)) as [Hv _]; [done|].
      split_and!; [|done|by intros ? [= <-]]. unfold holdsOn. by rewrite Hv.
  - apply leaseExec_none in E as [->|(w & cur & -> & Hc & Ho & _ & _ & _ & HT & Hoth)]; [done| |done..].
    split_and!; [|done|done]. simpl in Hd.
    assert (Hid : LSessionID w ≠ LSessionID v).
    { intros Hid. apply Hd. split; [done|]. destruct Hon as (c & Hc' & Ho' & _). congruence. }
    destruct (Hoth (LSessionID v)) as [Hv _]; [done|]. unfold holdsOn. by rewrite Hv.
Qed.

Lemma leaseRun_holds l ops v start :
  leaseOk l → tokensFit l ops → holdsOn l v → LExpiry v = (start + lifetime l)%Z →
  Forall (during v start) ops →
  let '(l', gs) := leaseRun l ops in
  leaseOk l' ∧ (∀ id, (highest l' id < maxUint64)%Z) ∧ holdsOn l' v ∧
  (∀ w, w ∈ gs → LSessionID w = LSessionID v → LOwner w = LOwner v).
Proof.
  revert l. induction ops as [|op ops IH]; intros l Hok [Hfit Hrest] Hon He Hd; simpl.
  { split_and!; [done..|]. by intros w ?%not_elem_of_nil. }
  apply Forall_cons in Hd as [Hd Hds]. pose proof (leaseExec_holds l op v start Hok Hfit Hon He Hd) as Hx.
  pose proof (leaseExec_ok l op Hok Hfit) as Hok1. destruct (leaseExec l op) as [l1 g]. simpl in *.
  destruct Hx as (Hon1 & HT & Hg). specialize (IH l1 Hok1 Hrest Hon1). rewrite HT in IH. specialize (IH He Hds).
  destruct (leaseRun l1 ops) as [l2 gs]. destruct IH as (? & ? & ? & Hgs). split_and!; [done..|].
  intros w [Hw|Hw]%elem_of_app; [|by apply Hgs]. apply Hg. destruct g; simpl in Hw; [|by apply not_elem_of_nil in Hw].
  apply list_elem_of_singleton in Hw. by subst.
Qed.

(** C32. A lease excludes other writers: from its grant to its expiry, through
    any calls of any owners (made no earlier than the grant, and not the holder
    giving it up), every grant of the session goes to the holder, and an
    acquisition by anyone else is refused and changes nothing, as long as the
    fencing tokens fit 64 bits. *)
Theorem lease_exclusive l start id owner l0 v ops l1 gs :
  leaseOk l → tokensFit l (LAcquire start id owner :: ops) →
  Acquire l start id owner = (l0, inl v) → Forall (during v start) ops → leaseRun l0 ops = (l1, gs) →
  (∀ w, w ∈ gs → LSessionID w = id → LOwner w = owner) ∧
  ∀ now other, other ≠ owner → (now < LExpiry v)%Z → Acquire l1 now id other = (l1, inr ErrLeaseHeld).
Proof.
  intros Hok [Hfit Hrest] Hacq Hd Hrun. simpl in Hrest. rewrite Hacq in Hrest. simpl in Hrest.
  assert (Hx : leaseExec l (LAcquire start id owner) = (l0, Some v)) by (simpl; by rewrite Hacq).
  apply leaseExec_grant in Hx as (now & (Hok0 & [HT _] & Hexp & Hh & _) & Hop & _); [|done..].
  destruct Hop as [[= -> Hid Ho]|[? ?]]; [|done].
  assert (Hon : holdsOn l0 v) by (exists v; split_and!; [done|done|lia]).
  pose proof (leaseRun_holds l0 ops v now Hok0 Hrest Hon) as Hr. rewrite HT, Hrun in Hr.
  destruct (Hr Hexp Hd) as (Hok1 & Hfit1 & Hon1 & Hgs). subst id owner. split; [done|].
  intros now' other Hne Hlt. pose proof (acquire_law l1 now' (LSessionID v) other Hok1 (Hfit1 _)) as Ha.
  destruct (liveHold_holdsOn l1 v now' Hon1 Hlt) as (cur & Hc & Hco). rewrite Hc in Ha.
  rewrite decide_False in Ha; [done|]. congruence.
Qed.

(** Grants so far, oldest first, against the current state. *)
Definition fenced l (gs : list LeaseValue) : Prop :=
  (∀ g, g ∈ gs → (LToken g <= highest l (LSessionID g))%Z) ∧
  (∀ g cur, g ∈ gs → hold l (LSessionID g) = Some cur → LToken g = LToken cur → LOwner g = LOwner cur).

(** Tokens never go down, and a token identifies its owner. *)
Definition ordered (gs : list LeaseValue) : Prop :=
  ∀ i j gi gj, i < j → gs !! i = Some gi → gs !! j = Some gj → LSessionID gi = LSessionID gj →
    (LToken gi <= LToken gj)%Z ∧ (LToken gi = LToken gj → LOwner gi = LOwner gj).

Lemma ordered_snoc gs g :
  ordered gs →
  (∀ w, w ∈ gs → LSessionID w = LSessionID g →
     (LToken w <= LToken g)%Z ∧ (LToken w = LToken g → LOwner w = LOwner g)) →
  ordered (gs ++ [g]).
Proof.
  intros Ho Hg i j gi gj Hij Hi Hj. apply lookup_snoc_Some in Hi as [[Hi1 Hi]|[-> <-]];
    apply lookup_snoc_Some in Hj as [[Hj1 Hj]|[-> <-]]; try lia; [by apply (Ho i j)|].
  intros Hid. apply Hg; [by eapply list_elem_of_lookup_2|done].
Qed.

Lemma fenced_exec l op gs :
  leaseOk l → (∀ id, (highest l id < maxUint64)%Z) → fenced l gs → ordered gs →
  let '(l', g) := leaseExec l op in fenced l' (gs ++ option_list g) ∧ ordered (gs ++ option_list g).
Proof.
  intros Hok Hfit [Hle Hown] Hord. destruct (leaseExec l op) as [l' [v|]] eqn:E; simpl.
  - apply leaseExec_grant in E as (now & (Hok' & [_ Hoth] & _ & Hh & Hhi) & _ & Hcase); [|done..].
    assert (Hgs : ∀ w, w ∈ gs → LSessionID w = LSessionID v →
      (LToken w <= LToken v)%Z ∧ (LToken w = LToken v → LOwner w = LOwner v)).
    { intros w Hw Hid. pose proof (Hle w Hw) as Hw'. rewrite Hid in Hw'.
      destruct Hcase as [[? _]|(cur & Hc & Ho & [Ht|Ht])]; [lia| |lia].
      destruct (hold_ok l _ cur Hok Hc) as [_ Hct]. split; [lia|]. intros Hwv. rewrite <-Ho.
      apply (Hown w cur Hw); [by rewrite Hid|congruence]. }
    split; [|by apply ordered_snoc]. split.
    + intros w Hw. destruct (decide (LSessionID w = LSessionID v)) as [Hid|Hid].
      * rewrite Hid, Hhi. apply elem_of_app in Hw as [Hw| ->%list_elem_of_singleton]; [|lia].
        by apply Hgs.
      * destruct (Hoth _ Hid) as [_ ->]. apply elem_of_app in Hw as [Hw| ->%list_elem_of_singleton]; [|done].
        by apply Hle.
    + intros w cur Hw Hc Ht. destruct (decide (LSessionID w = LSessionID v)) as [Hid|Hid].
      * rewrite Hid, Hh in Hc. simplify_eq.
        apply elem_of_app in Hw as [Hw| ->%list_elem_of_singleton]; [|done]. by apply Hgs.
      * destruct (Hoth _ Hid) as [Hc' _]. rewrite Hc' in Hc.
        apply elem_of_app in Hw as [Hw| ->%list_elem_of_singleton]; [|done]. by apply (Hown w).
  - rewrite app_nil_r. split; [|done]. apply leaseExec_none in E
      as [->|(w & cur & -> & Hc & _ & _ & Hn & Hhi & _ & Hoth)]; [done| |done..]. split.
    + intros g Hg. destruct (decide (LSessionID g = LSessionID w)) as [Hid|Hid].
      * rewrite Hid, Hhi, <-Hid. by apply Hle.
      * destruct (Hoth _ Hid) as [_ ->]. by apply Hle.
    + intros g cur' Hg Hc'. destruct (decide (LSessionID g = LSessionID w)) as [Hid|Hid].
      * by rewrite Hid, Hn in Hc'.
      * destruct (Hoth _ Hid) as [Heq _]. rewrite Heq in Hc'. by apply Hown.
Qed.

Lemma leaseRun_fenced l ops gs :
  leaseOk l → tokensFit l ops → fenced l gs → ordered gs → ordered (gs ++ (leaseRun l ops).2).
Proof.
  revert l gs. induction ops as [|op ops IH]; intros l gs Hok [Hfit Hrest] Hf Ho; simpl; [by rewrite app_nil_r|].
  pose proof (fenced_exec l op gs Hok Hfit Hf Ho) as Hx. pose proof (leaseExec_ok l op Hok Hfit) as Hok1.
  destruct (leaseExec l op) as [l1 g]. destruct Hx as [Hf1 Ho1]. simpl in *.
  specialize (IH l1 _ Hok1 Hrest Hf1 Ho1). destruct (leaseRun l1 ops). simpl in *.
  by rewrite <-app_assoc in IH.
Qed.
End users.

(** ** The in-memory lease *)

Record record := mkRecord { rowner : gostr; rtoken : Z; rexpiry : Z }.

Record Lease := mkLeaseState {
  leases : gmap gostr record;
  ttl : Z;
  maxTok : gmap gostr Z
}.

(** Thirty seconds. *)
Definition defaultTTL : Z := 30000000000.

Definition New (t : Z) : Lease := mkLeaseState ∅ (if (t <=? 0)%Z then defaultTTL else t) ∅.

Definition maxTokOf (l : Lease) (id : gostr) : Z := default 0%Z (maxTok l !! id).

Definition grant (l : Lease) (id owner : gostr) (token now : Z) : Lease * LeaseValue :=
  let expiry := (now + ttl l)%Z in
  (mkLeaseState (<[id := mkRecord owner token expiry]> (leases l)) (ttl l)
     (if (maxTokOf l id <? token)%Z then <[id := token]> (maxTok l) else maxTok l),
   mkLease id owner token expiry).

Definition granted (r : Lease * LeaseValue) : Lease * (LeaseValue + LeaseError) := (r.1, inl r.2).

Definition LeaseAcquire (l : Lease) (now : Z) (id owner : gostr) : Lease * (LeaseValue + LeaseError) :=
  match leases l !! id with
  | None => granted (grant l id owner (wrapU64 (maxTokOf l id + 1)) now)
  | Some cur =>
      if negb (now <? rexpiry cur)%Z then granted (grant l id owner (wrapU64 (maxTokOf l id + 1)) now)
      else if rowner cur =s owner then granted (grant l id owner (rtoken cur) now)
      else (l, inr ErrLeaseHeld)
  end.

Definition LeaseRenew (l : Lease) (now : Z) (w : LeaseValue) : Lease * (LeaseValue + LeaseError) :=
  match leases l !! LSessionID w with
  | None => (l, inr ErrLeaseHeld)
  | Some cur =>
      if negb (rowner cur =s LOwner w) || negb (rtoken cur =? LToken w)%Z || negb (now <? rexpiry cur)%Z
      then (l, inr ErrLeaseHeld)
      else granted (grant l (LSessionID w) (LOwner w) (LToken w) now)
  end.

Definition LeaseRelease (l : Lease) (w : LeaseValue) : Lease :=
  match leases l !! LSessionID w with
  | Some cur =>
      if rowner cur =s LOwner w && (rtoken cur =? LToken w)%Z
      then mkLeaseState (delete (LSessionID w) (leases l)) (ttl l) (maxTok l)
      else l
  | None => l
  end.

#[export] Instance Lease_ops : LeaseOps Lease := {|
  Acquire := LeaseAcquire;
  Renew := LeaseRenew;
  Release := LeaseRelease;
  hold l id := (λ r, mkLease id (rowner r) (rtoken r) (rexpiry r)) <$> leases l !! id;
  highest := maxTokOf;
  lifetime := ttl;
  leaseOk l := (∀ id, 0 <= maxTokOf l id <= maxUint64)%Z ∧
               ∀ id r, leases l !! id = Some r → rtoken r = maxTokOf l id
|}.

Lemma maxTokOf_insert l t ls id id' tok :
  maxTokOf (mkLeaseState ls t (<[id := tok]> (maxTok l))) id' =
  if decide (id = id') then tok else maxTokOf l id'.
Proof.
  unfold maxTokOf. simpl. case_decide as E; [by rewrite E, lookup_insert_eq|by rewrite lookup_insert_ne].
Qed.

(** A grant of a token no lower than the highest one. *)
Lemma grant_grants l id owner token now :
  leaseOk l → (maxTokOf l id <= token <= maxUint64)%Z →
  let '(l', v) := grant l id owner token now in
  grants l l' now v ∧ v = mkLease id owner token (now + ttl l).
Proof.
  intros [Hb Hr] Ht. simpl. split; [|done].
  set (mt := if (maxTokOf l id <? token)%Z then _ else _).
  assert (Hmax : ∀ ls id', maxTokOf (mkLeaseState ls (ttl l) mt) id'
    = if decide (id = id') then token else maxTokOf l id').
  { intros ls id'. subst mt. case_bool; [apply maxTokOf_insert|].
    case_decide as E0; [subst id'|done]. apply Z.ltb_ge in E. unfold maxTokOf in *. simpl. lia. }
  unfold grants, sameElsewhere. simpl. split_and!; try done.
  - intros id'. rewrite Hmax. case_decide; [|done]. pose proof (Hb id). lia.
  - intros id' r. rewrite Hmax. case_decide as E; [subst id'|].
    + rewrite lookup_insert_eq. by intros [= <-].
    + rewrite lookup_insert_ne by done. apply Hr.
  - intros id' Hne. rewrite Hmax, decide_False, lookup_insert_ne by done. done.
  - by rewrite lookup_insert_eq.
  - by rewrite Hmax, decide_True.
Qed.

#[export] Instance Lease_session : SessionLease Lease.
Proof.
  split.
  - intros l id cur [_ Hr] Hh. simpl in *. destruct (leases l !! id) as [r|] eqn:E; simplify_eq/=.
    split; [done|by apply Hr].
  - intros l now id owner Hok Hfit. simpl in Hfit. unfold liveHold. simpl. unfold LeaseAcquire.
    assert (Hw : wrapU64 (maxTokOf l id + 1) = (maxTokOf l id + 1)%Z).
    { destruct Hok as [Hb _]. apply Z.mod_small. pose proof (Hb id). unfold maxUint64 in *. lia. }
    assert (Htake : ∃ l' v, granted (grant l id owner (wrapU64 (maxTokOf l id + 1)) now) = (l', inl v) ∧
      grants l l' now v ∧ LSessionID v = id ∧ LOwner v = owner ∧ (maxTokOf l id < LToken v)%Z).
    { rewrite Hw. pose proof (grant_grants l id owner (maxTokOf l id + 1) now Hok) as Hg.
      destruct (grant _ _ _ _ _) as [l' v]. destruct Hg as [Hg ->]; [lia|]. eexists _, _. split; [done|].
      split_and!; [done..|simpl; lia]. }
    destruct (leases l !! id) as [r|] eqn:E; simpl; [|done].
    destruct (now <? rexpiry r)%Z; simpl; [|done].
    case_decide as Ho; [rewrite bool_decide_true by done|by rewrite bool_decide_false].
    pose proof (proj2 Hok id r E) as Hrt. pose proof (proj1 Hok id) as Hb.
    pose proof (grant_grants l id owner (rtoken r) now Hok) as Hg.
    destruct (grant l id owner (rtoken r) now) as [l' v]. destruct Hg as [Hg ->]; [lia|].
    eexists _, _. split; [done|]. split_and!; try done. by left.
  - intros l now w Hok. simpl. unfold LeaseRenew. destruct (leases l !! LSessionID w) as [r|] eqn:E; [|done].
    case_bool; [done|]. bprop.
    match goal with H : (_ =? _)%Z = true |- _ => apply Z.eqb_eq in H as Ht end.
    pose proof (proj2 Hok _ r E) as Hrt. pose proof (proj1 Hok (LSessionID w)) as Hb.
    pose proof (grant_grants l (LSessionID w) (LOwner w) (LToken w) now Hok) as Hg.
    destruct (grant _ _ _ _ _) as [l' v]. destruct Hg as [Hg ->]; [lia|]. simpl. split_and!; try done.
    eexists. split; [done|]. done.
  - intros l now w cur Hok. unfold liveHold. simpl. unfold LeaseRenew.
    destruct (leases l !! LSessionID w) as [r|]; simpl; [|done]. case_bool; [|done].
    intros [= <-]. simpl. intros -> ->. rewrite bool_decide_true, Z.eqb_refl by done. simpl. eauto.
  - intros l w Hok. simpl. unfold LeaseRelease. destruct (leases l !! LSessionID w) as [r|] eqn:E; simpl; [|done].
    case_decide as Hd.
    + destruct Hd as [-> ->]. rewrite bool_decide_true, Z.eqb_refl by done. unfold sameElsewhere. simpl.
      rewrite lookup_delete_eq. split_and!; try done.
      * apply Hok.
      * intros id r' Hr'. apply lookup_delete_Some in Hr' as [_ Hr']. by apply (proj2 Hok).
      * intros id' Hne. by rewrite lookup_delete_ne.
    + case_bool; [|done]. bprop. destruct Hd. split; [done|]. by apply Z.eqb_eq.
Qed.

(** A call raises the highest token of a session by at most one. *)
Lemma leaseExec_maxTok (l : Lease) op id :
  leaseOk l → (maxTokOf (leaseExec l op).1 id <= maxTokOf l id + 1)%Z.
Proof.
  intros [Hb Hr].
  assert (Hgrant : ∀ id0 owner token now, (token <= maxTokOf l id0 + 1)%Z →
    (maxTokOf (grant l id0 owner token now).1 id <= maxTokOf l id + 1)%Z).
  { intros id0 owner token now Ht. simpl. case_bool; [|unfold maxTokOf; simpl; lia].
    rewrite maxTokOf_insert. case_decide; [subst|]; lia. }
  assert (Hw : ∀ id0, (wrapU64 (maxTokOf l id0 + 1) <= maxTokOf l id0 + 1)%Z).
  { intros id0. apply Z.mod_le; [|lia]. pose proof (Hb id0). lia. }
  destruct op as [now id0 owner|now w|w]; simpl.
  - unfold LeaseAcquire. destruct (leases l !! id0) as [r|] eqn:E; [|by apply Hgrant, Hw].
    case_bool; [by apply Hgrant, Hw|]. case_bool; [|simpl; lia]. apply Hgrant. rewrite (Hr _ _ E). lia.
  - unfold LeaseRenew. destruct (leases l !! LSessionID w) as [r|] eqn:E; [|simpl; lia].
    case_bool; [simpl; lia|]. bprop. apply Hgrant.
    match goal with H : (_ =? _)%Z = true |- _ => apply Z.eqb_eq in H as <- end. rewrite (Hr _ _ E). lia.
  - unfold LeaseRelease. repeat case_match; unfold maxTokOf; simpl; lia.
Qed.

Lemma tokensFit_count (l : Lease) ops (n : Z) :
  leaseOk l → (∀ id, maxTokOf l id <= n)%Z → (n + Z.of_nat (length ops) < maxUint64)%Z → tokensFit l ops.
Proof.
  revert l n. induction ops as [|op ops IH]; intros l n Hok Hn Hlen; cbn [tokensFit length] in *.
  { split; [|done]. intros id. specialize (Hn id). simpl in *. lia. }
  assert (Hfit : ∀ id, (maxTokOf l id < maxUint64)%Z) by (intros id; specialize (Hn id); lia).
  split; [done|]. apply (IH _ (n + 1)%Z); [by apply leaseExec_ok| |lia].
  intros id. etrans; [by apply leaseExec_maxTok|]. specialize (Hn id). lia.
Qed.

Lemma NewLease_ok t : leaseOk (New t).
Proof.
  split; [|done]. intros id. unfold maxTokOf. simpl. rewrite lookup_empty. unfold maxUint64. simpl. lia.
Qed.

(** Fencing tokens: in any history of fewer than 2^64 - 1 calls on a new
    in-memory lease, with any clock readings, the tokens granted for a session
    never go down and two grants with the same token have the same owner, so a
    later owner always holds a strictly greater token. *)
Theorem lease_fencing t ops :
  (Z.of_nat (length ops) < maxUint64)%Z → ordered (leaseRun (New t) ops).2.
Proof.
  intros Hlen. apply (leaseRun_fenced (New t) ops []); [apply NewLease_ok| | |].
  - apply (tokensFit_count _ _ 0); [apply NewLease_ok| |lia]. intros id. unfold maxTokOf. simpl.
    by rewrite lookup_empty.
  - by split; intros g; intros; destruct (not_elem_of_nil g).
  - by intros i j gi gj _ Hi.
Qed.

Definition sampleLeaseOps : list LeaseOp :=
  [LAcquire 0 #"s" #"a"; LAcquire 5 #"s" #"b"; LAcquire 40 #"s" #"b"].

Lemma lease_fencing_witness : ordered (leaseRun (New 30) sampleLeaseOps).2.
Proof. apply lease_fencing. vm_compute. reflexivity. Defined.

Lemma lease_exclusive_witness :
  Acquire (leaseRun (LeaseAcquire (New 30) 0 #"s" #"a").1 [LAcquire 5 #"s" #"b"]).1 20 #"s" #"c"
  = ((leaseRun (LeaseAcquire (New 30) 0 #"s" #"a").1 [LAcquire 5 #"s" #"b"]).1, inr ErrLeaseHeld).
Proof.
  refine (proj2 (lease_exclusive (New 30) 0 #"s" #"a" _ (mkLease #"s" #"a" 1 30) [LAcquire 5 #"s" #"b"] _ []
    _ _ _ _ _) 20%Z #"c" _ _).
  - apply NewLease_ok.
  - apply (tokensFit_count _ _ 0); [apply NewLease_ok| |vm_compute; reflexivity].
    intros id. vm_compute. congruence.
  - vm_compute. reflexivity.
  - constructor; [vm_compute; split; congruence|constructor].
  - vm_compute. reflexivity.
  - vm_compute. congruence.
  - vm_compute. reflexivity.
Defined.
