(* ===== verification/TailBuffer.v ===== *)
(** * The output tail of a background shell job

    [engine/agent/tailbuffer.go]: a window of at most [capacity] bytes that slides
    over a scratch array of twice that size.  A slice expression outside the
    array panics in Go; here it is [None], and the theorems show that it does not
    happen.  Lengths are naturals: an array that long exists.  Each method holds
    the mutex, so the concurrent writers of a job are one sequence of writes. *)

From S2P Require Import Prelude.

Definition maxShellJobTailBytes : nat := 64 * 1024.

Record tailBuffer := mkTail { scratch : list N; start : nat; len : nat; truncated : bool }.

Definition newTailBuffer (capacity : Z) : tailBuffer :=
  let capacity := if (capacity <? 1)%Z then 1%Z else capacity in
  mkTail (replicate (2 * Z.to_nat capacity) 0%N) 0 0 false.

(** [l[a:b]] *)
Definition slice {A} (l : list A) (a b : nat) : option (list A) :=
  if (a <=? b) && (b <=? length l) then Some (take (b - a) (drop a l)) else None.

(** [copy(l[a:b], src)] *)
Definition copyInto {A} (l : list A) (a b : nat) (src : list A) : option (list A) :=
  if (a <=? b) && (b <=? length l)
  then let n := (b - a) `min` length src in Some (take a l ++ take n src ++ drop (a + n) l)
  else None.

(** Compact the live window to the front when [n] more bytes do not fit behind
    it: the scratch, the window's start and its end. *)
Definition makeRoom (t : tailBuffer) (n : nat) : option (list N * nat * nat) :=
  let e := start t + len t in
  if length (scratch t) <? e + n then
    src ← slice (scratch t) (start t) e;
    s ← copyInto (scratch t) 0 (len t) src;
    Some (s, 0, len t)
  else Some (scratch t, start t, e).

(** The whole method; the result is the number of bytes taken, always all. *)
Definition Write (t : tailBuffer) (p : list N) : option (tailBuffer * nat) :=
  if length p =? 0 then Some (t, 0)
  else
    let capacity := length (scratch t) / 2 in
    if capacity <=? length p then
      src ← slice p (length p - capacity) (length p);
      s ← copyInto (scratch t) 0 capacity src;
      Some (mkTail s 0 capacity (truncated t || (capacity <? length p) || (0 <? len t)), length p)
    else
      '(s, st, e) ← makeRoom t (length p);
      s ← copyInto s e (e + length p) p;
      let total := len t + length p in
      if capacity <? total
      then Some (mkTail s (st + (total - capacity)) capacity true, length p)
      else Some (mkTail s st total (truncated t), length p).

Definition Snapshot (t : tailBuffer) : option (list N) := slice (scratch t) (start t) (start t + len t).

Definition Truncated (t : tailBuffer) : bool := truncated t.

(** A job's writes. *)
Fixpoint writes (t : tailBuffer) (ps : list (list N)) : option tailBuffer :=
  match ps with
  | [] => Some t
  | p :: ps' => '(t', _) ← Write t p; writes t' ps'
  end.

(** ** Correctness *)

(** The last [c] elements. *)
Definition lastn {A} (c : nat) (l : list A) : list A := drop (length l - c) l.

Section lists.
Context {A : Type}.
Implicit Types l : list A.

Lemma lastn_length c l : length (lastn c l) = c `min` length l.
Proof. unfold lastn. rewrite length_drop. lia. Qed.

(** Only the last [c] elements of the past matter. *)
Lemma lastn_app c l p : lastn c (lastn c l ++ p) = lastn c (l ++ p).
Proof.
  unfold lastn. rewrite !length_app, length_drop.
  destruct (decide (length p <= c)).
  - rewrite !drop_app_le by (rewrite ?length_drop; lia). rewrite drop_drop. f_equal. f_equal. lia.
  - rewrite !drop_app_ge by (rewrite ?length_drop; lia). f_equal. rewrite ?length_drop; lia.
Qed.

Lemma slice_Some l a b : a <= b → b <= length l → slice l a b = Some (take (b - a) (drop a l)).
Proof. intros. unfold slice. by rewrite !(proj2 (Nat.leb_le _ _)) by lia. Qed.

Lemma copyInto_Some l a b src :
  a <= b → b <= length l → length src = b - a → copyInto l a b src = Some (take a l ++ src ++ drop b l).
Proof.
  intros. unfold copyInto. rewrite !(proj2 (Nat.leb_le _ _)) by lia. cbn [andb].
  replace ((b - a) `min` length src) with (length src) by lia. replace (a + length src) with b by lia.
  by rewrite firstn_all.
Qed.

(** The window [a, b) of a spliced list. *)
Lemma window_splice l a b src :
  a <= length l → take (length src) (drop a (take a l ++ src ++ drop b l)) = src.
Proof.
  intros. rewrite drop_app_ge by (rewrite length_take; lia). rewrite length_take.
  replace (a - a `min` length l) with 0 by lia. by rewrite drop_0, take_app_length.
Qed.
End lists.

(** The buffer after the bytes [hist] were written: the window is inside the
    scratch and holds their last [c] bytes. *)
Definition holds (c : nat) (hist : list N) (t : tailBuffer) : Prop :=
  1 <= c ∧ length (scratch t) = 2 * c ∧ len t = c `min` length hist ∧ start t + len t <= 2 * c ∧
  take (len t) (drop (start t) (scratch t)) = lastn c hist ∧ truncated t = (c <? length hist).

Lemma new_holds capacity : holds (Z.to_nat (capacity `max` 1)) [] (newTailBuffer capacity).
Proof.
  unfold newTailBuffer, holds. cbn -[replicate Nat.mul].
  assert ((if (capacity <? 1)%Z then 1%Z else capacity) = (capacity `max` 1)%Z) as -> by (case_match; lia).
  rewrite length_replicate. split_and!; try lia; done.
Qed.

(** Appending after the window. *)
Lemma window_append (s : list N) st n p :
  st + n + length p <= length s →
  copyInto s (st + n) (st + n + length p) p = Some (take (st + n) s ++ p ++ drop (st + n + length p) s) ∧
  take (n + length p) (drop st (take (st + n) s ++ p ++ drop (st + n + length p) s)) = take n (drop st s) ++ p.
Proof.
  intros H. split; [apply copyInto_Some; lia|].
  rewrite drop_app_le by (rewrite length_take; lia).
  rewrite skipn_firstn_comm. replace (st + n - st) with n by lia.
  rewrite take_app_ge by (rewrite length_take, length_drop; lia). f_equal.
  rewrite length_take, length_drop. replace (n + length p - n `min` (length s - st)) with (length p) by lia.
  apply take_app_length.
Qed.

Lemma makeRoom_holds c hist t n :
  holds c hist t → n < c →
  ∃ s st, makeRoom t n = Some (s, st, st + len t) ∧ length s = 2 * c ∧ st + len t + n <= 2 * c ∧
    take (len t) (drop st s) = lastn c hist.
Proof.
  intros (Hc & Hs & Hl & Hb & Hw & Ht) Hn. unfold makeRoom. rewrite Hs.
  destruct (Nat.ltb_spec (2 * c) (start t + len t + n)).
  - rewrite slice_Some by lia. cbn [mbind option_bind].
    replace (start t + len t - start t) with (len t) by lia. rewrite Hw.
    assert (Hll : length (lastn c hist) = len t) by (rewrite lastn_length; lia).
    rewrite copyInto_Some by lia. eexists _, 0. split; [done|]. split_and!; try lia.
    + rewrite !length_app, length_drop, length_take. lia.
    + rewrite <-Hll at 1. by rewrite window_splice by lia.
  - eexists _, _. split; [done|]. split_and!; [done|lia|done].
Qed.

(** One write. *)
Lemma Write_holds c hist t p :
  holds c hist t → ∃ t', Write t p = Some (t', length p) ∧ holds c (hist ++ p) t'.
Proof.
  intros (Hc & Hs & Hl & Hb & Hw & Ht). unfold Write.
  destruct (Nat.eqb_spec (length p) 0) as [Hp|Hp].
  { destruct p; [|done]. exists t. rewrite app_nil_r. by split. }
  rewrite Hs. replace (2 * c / 2) with c by (rewrite Nat.mul_comm; symmetry; by apply Nat.div_mul).
  destruct (Nat.leb_spec c (length p)) as [Hcp|Hcp].
  - rewrite slice_Some by lia. cbn [mbind option_bind].
    replace (length p - (length p - c)) with c by lia. set (src := take c (drop (length p - c) p)).
    assert (Hsrc : src = lastn c (hist ++ p)).
    { unfold src, lastn. rewrite length_app, drop_app_ge, take_ge by (rewrite ?length_drop; lia).
      f_equal. lia. }
    assert (Hlen : length src = c) by (rewrite Hsrc, lastn_length, length_app; lia).
    rewrite copyInto_Some by lia. eexists. split; [done|].
    split_and!; cbn [scratch start len truncated]; try lia.
    + rewrite !length_app, length_drop, length_take. lia.
    + rewrite length_app. lia.
    + rewrite <-Hlen at 1. rewrite window_splice by lia. done.
    + rewrite Ht, Hl, length_app. destruct (Nat.ltb_spec c (length hist)), (Nat.ltb_spec c (length p)),
        (Nat.ltb_spec 0 (c `min` length hist)), (Nat.ltb_spec c (length hist + length p)); simpl; lia || done.
  - destruct (makeRoom_holds c hist t (length p)) as (s & st & -> & Hls & Hroom & Hw'); [done|done|].
    cbn [mbind option_bind]. destruct (window_append s st (len t) p) as [-> Hwin]; [lia|]. cbn [mbind option_bind].
    rewrite Hw' in Hwin. set (s' := take _ s ++ _) in *.
    assert (Hs' : length s' = 2 * c) by (unfold s'; rewrite !length_app, length_drop, length_take; lia).
    pose proof (lastn_app c hist p) as Hlast. assert (Hll := lastn_length c hist).
    destruct (Nat.ltb_spec c (len t + length p)); (eexists; split; [done|]);
      (split_and!; cbn [scratch start len truncated]; try (rewrite ?length_app; lia)).
    + rewrite <-Hlast, <-Hwin. unfold lastn. rewrite length_take, length_drop, skipn_firstn_comm, drop_drop.
      f_equal; [lia|f_equal; lia].
    + symmetry. apply Nat.ltb_lt. rewrite length_app. lia.
    + rewrite <-Hlast, <-Hwin. unfold lastn. rewrite length_take, length_drop.
      replace ((len t + length p) `min` (length s' - st) - c) with 0 by lia. done.
    + rewrite Ht, length_app. destruct (Nat.ltb_spec c (length hist)), (Nat.ltb_spec c (length hist + length p));
        lia || done.
Qed.

Lemma writes_holds c hist t ps :
  holds c hist t → ∃ t', writes t ps = Some t' ∧ holds c (hist ++ concat ps) t'.
Proof.
  revert hist t. induction ps as [|p ps IH]; intros hist t Ht; simpl.
  { exists t. by rewrite app_nil_r. }
  destruct (Write_holds c hist t p Ht) as (t1 & -> & H1). simpl.
  destruct (IH (hist ++ p) t1 H1) as (t2 & -> & H2). exists t2. by rewrite app_assoc.
Qed.

(** The tail buffer is exactly the tail.  Whatever is written, in whatever
    pieces, no write or read leaves the scratch array, every write is taken whole,
    the snapshot is the last [capacity] bytes of everything written (all of it when
    shorter), and the truncation flag says exactly whether anything was dropped. *)
Theorem tail_buffer_refines capacity ps p :
  let c := Z.to_nat (capacity `max` 1) in
  ∃ t t', writes (newTailBuffer capacity) ps = Some t ∧ Write t p = Some (t', length p) ∧
    Snapshot t' = Some (lastn c (concat ps ++ p)) ∧ Truncated t' = (c <? length (concat ps ++ p)) ∧
    length (scratch t') = 2 * c ∧ len t' <= c.
Proof.
  intros c. destruct (writes_holds c [] (newTailBuffer capacity) ps (new_holds capacity)) as (t & Hw & Ht).
  destruct (Write_holds c (concat ps) t p Ht) as (t' & Hp & (_ & Hs & Hl & Hb & Hwin & Htr)).
  exists t, t'. split_and!; try done; [|lia]. unfold Snapshot. rewrite slice_Some by lia.
  replace (start t' + len t' - start t') with (len t') by lia. by rewrite Hwin.
Qed.

Example tail_example :
  (t ← writes (newTailBuffer 3) [[1;2];[3;4];[5];[6;7;8;9];[10]]%N; Snapshot t) = Some [8;9;10]%N.
Proof. reflexivity. Qed.
