(* ===== verification/Media.v ===== *)
(** * Media and tool-result content

    [engine/session/content.go]: the constructors of content parts, the size caps,
    and the screen of media URLs and resolved addresses against requests to
    internal hosts.

    The parts of Go's [net] the screen uses are written out: [net.ParseIP] and the
    classification methods of [net.IP], an address being its 4 or 16 bytes.  The
    result of [url.Parse] (the scheme and [Hostname()]) is a parameter: the
    theorems hold for every parser. *)

From S2P Require Import Prelude Fence Conversation.

#[local] Open Scope Z_scope.

(** ** Sizes *)

Definition MaxMediaBytes : Z := Z.shiftl 10 20.
Definition MaxPromptMediaBytes : Z := Z.shiftl 20 20.
Definition MaxPromptMediaParts : Z := 16.
Definition MaxToolResultTextBytes : Z := Z.shiftl 25 10.
Definition MaxToolResultBytes : Z := Z.shiftl 20 20.

Definition dataLen (c : Content) : Z := Z.of_nat (length (CData c)).
Definition textLen (c : Content) : Z := Z.of_nat (byteLen (CText c)).

Inductive ContentError :=
  | CEKind | CEMime | CEMimeKind | CEBoth | CENeither | CETooMany | CEPart (i : nat) | CETotal
  | CEUnknownBlock (i : nat) | CEURL.

(** The loop of [ValidateMediaParts]: [i] parts and [total] bytes so far. *)
Fixpoint mediaLoop (i : nat) (total : Z) (parts : list Content) : option ContentError :=
  match parts with
  | [] => None
  | p :: parts' =>
      let n := dataLen p in
      if MaxMediaBytes <? n then Some (CEPart i)
      else
        let total := total + n in
        if MaxPromptMediaBytes <? total then Some CETotal else mediaLoop (S i) total parts'
  end.

(** [None] is no error. *)
Definition ValidateMediaParts (parts : list Content) : option ContentError :=
  if MaxPromptMediaParts <? Z.of_nat (length parts) then Some CETooMany else mediaLoop 0 0 parts.

Definition BlockText : gostr := #"text".
Definition BlockImage : gostr := #"image".
Definition BlockAudio : gostr := #"audio".
Definition BlockResourceLink : gostr := #"resource_link".
Definition BlockEmbeddedResource : gostr := #"embedded_resource".
Definition BlockStructuredContent : gostr := #"structured".

(** The bytes a block adds to the total, or its error. *)
Definition blockBytes (i : nat) (p : Content) : Z + ContentError :=
  let k := CBlockKind p in
  if (k =s BlockText) || (k =s BlockStructuredContent) then
    if MaxToolResultTextBytes <? textLen p then inr (CEPart i) else inl (textLen p)
  else if k =s BlockEmbeddedResource then
    if MaxMediaBytes <? dataLen p then inr (CEPart i) else inl (dataLen p + textLen p)
  else if (k =s BlockImage) || (k =s BlockAudio) then
    if MaxMediaBytes <? dataLen p then inr (CEPart i) else inl (dataLen p)
  else if k =s BlockResourceLink then inl 0
  else if k =s [] then
    if MaxMediaBytes <? dataLen p then inr (CEPart i) else inl (dataLen p)
  else inr (CEUnknownBlock i).

Fixpoint resultLoop (i : nat) (total : Z) (parts : list Content) : option ContentError :=
  match parts with
  | [] => None
  | p :: parts' =>
      match blockBytes i p with
      | inr e => Some e
      | inl n =>
          let total := total + n in
          if MaxToolResultBytes <? total then Some CETotal else resultLoop (S i) total parts'
      end
  end.

Definition ValidateToolResultParts (parts : list Content) : option ContentError := resultLoop 0 0 parts.

(** ** Blocks *)

Definition emptyContent : Content := mkContent [] [] [] [] [] [] [] [] [] 0 [] 0 [].

Definition NewTextBlock (text : gostr) : Content := mkContent BlockText [] [] [] [] text [] [] [] 0 [] 0 [].

Definition NewResourceLinkBlock (uri name title description mimeType : gostr) (size : Z)
    (audience : list gostr) : Content :=
  mkContent BlockResourceLink [] mimeType [] uri [] name title description size audience 0 [].

Definition NewEmbeddedResourceBlock (uri mimeType text : gostr) (blob : list N) (audience : list gostr) :
    Content + ContentError :=
  let hasText := negb (text =s []) in
  let hasBlob := (0 <? length blob)%nat in
  if hasText && hasBlob then inr CEBoth
  else if negb hasText && negb hasBlob then inr CENeither
  else if hasText then inl (mkContent BlockEmbeddedResource [] mimeType [] uri text [] [] [] 0 audience 0 [])
  else inl (mkContent BlockEmbeddedResource [] mimeType blob uri [] [] [] [] 0 audience 0 []).

Definition NewStructuredContentBlock (structuredJSON : gostr) : Content :=
  mkContent BlockStructuredContent [] [] [] [] structuredJSON [] [] [] 0 [] 0 [].

Definition ToolBlockText (b : Content) : gostr :=
  if CBlockKind b =s BlockResourceLink then
    if negb (CTitle b =s []) then CTitle b ++ #" (" ++ CURL b ++ #")"
    else if negb (CName b =s []) then CName b ++ #" (" ++ CURL b ++ #")"
    else CURL b
  else if CBlockKind b =s BlockEmbeddedResource then
    if negb (CText b =s []) then CText b else CURL b ++ #" (" ++ CMIMEType b ++ #")"
  else CText b.

(** ** IP addresses ([net.IP]) *)

Abbreviation IP := (list N) (only parsing).

(** Byte [i], for addresses long enough to have one. *)
Definition byteAt (ip : IP) (i : nat) : N := default 0%N (ip !! i).

Definition v4Prefix : list N := replicate 10 0%N ++ [255; 255]%N.

Definition To4 (ip : IP) : option IP :=
  if (length ip =? 4)%nat then Some ip
  else if (length ip =? 16)%nat && (take 12 ip =s v4Prefix) then Some (drop 12 ip)
  else None.

Definition To16 (ip : IP) : IP := if (length ip =? 4)%nat then v4Prefix ++ ip else ip.

(** [IP.Equal] *)
Definition ipEqual (a b : IP) : bool := To16 a =s To16 b.

Definition IPv4zero : IP := [0; 0; 0; 0]%N.
Definition IPv4bcast : IP := [255; 255; 255; 255]%N.
Definition IPv6unspecified : IP := replicate 16 0%N.
Definition IPv6loopback : IP := replicate 15 0%N ++ [1]%N.

Definition IsUnspecified (ip : IP) : bool := ipEqual ip IPv4zero || ipEqual ip IPv6unspecified.

Definition IsLoopback (ip : IP) : bool :=
  match To4 ip with Some ip4 => byteAt ip4 0 =r 127 | None => ipEqual ip IPv6loopback end.

Definition is16 (ip : IP) : bool := (length ip =? 16)%nat.

Definition IsPrivate (ip : IP) : bool :=
  match To4 ip with
  | Some ip4 => byteAt ip4 0 =r 10 || byteAt ip4 0 =r 172 && N.land (byteAt ip4 1) 240 =r 16
                || byteAt ip4 0 =r 192 && byteAt ip4 1 =r 168
  | None => is16 ip && N.land (byteAt ip 0) 254 =r 252
  end.

Definition IsMulticast (ip : IP) : bool :=
  match To4 ip with
  | Some ip4 => N.land (byteAt ip4 0) 240 =r 224
  | None => is16 ip && byteAt ip 0 =r 255
  end.

Definition IsLinkLocalMulticast (ip : IP) : bool :=
  match To4 ip with
  | Some ip4 => byteAt ip4 0 =r 224 && byteAt ip4 1 =r 0 && byteAt ip4 2 =r 0
  | None => is16 ip && byteAt ip 0 =r 255 && N.land (byteAt ip 1) 15 =r 2
  end.

Definition IsLinkLocalUnicast (ip : IP) : bool :=
  match To4 ip with
  | Some ip4 => byteAt ip4 0 =r 169 && byteAt ip4 1 =r 254
  | None => is16 ip && byteAt ip 0 =r 254 && N.land (byteAt ip 1) 192 =r 128
  end.

(** [IP.IsGlobalUnicast] *)
Definition goGlobalUnicast (ip : IP) : bool :=
  ((length ip =? 4)%nat || is16 ip) && negb (ipEqual ip IPv4bcast) && negb (IsUnspecified ip)
  && negb (IsLoopback ip) && negb (IsMulticast ip) && negb (IsLinkLocalUnicast ip).

(** [IPNet.Contains] for the two networks: 100.64.0.0/10, a 4-byte network, and
    64:ff9b::/96, a 16-byte one. *)
Definition cgnatContains (ip : IP) : bool :=
  match To4 ip with
  | Some x => byteAt x 0 =r 100 && N.land (byteAt x 1) 192 =r 64
  | None => false
  end.

Definition nat64Prefix : list N := [0; 100; 255; 155]%N ++ replicate 8 0%N.

Definition nat64Contains (ip : IP) : bool :=
  match To4 ip with Some _ => false | None => is16 ip && (take 12 ip =s nat64Prefix) end.

(** [isGlobalUnicast]; the only recursive call is on a 4-byte address, which no
    16-byte network contains, so the length bounds the recursion. *)
Fixpoint globalUnicastGo (fuel : nat) (ip : IP) : bool :=
  if nat64Contains ip then
    match fuel with O => false | S f => globalUnicastGo f (drop 12 (To16 ip)) end
  else if IsLoopback ip || IsPrivate ip || IsUnspecified ip || IsLinkLocalUnicast ip
          || IsLinkLocalMulticast ip || IsMulticast ip then false
  else if cgnatContains ip then false
  else goGlobalUnicast ip.

Definition isGlobalUnicast (ip : IP) : bool := globalUnicastGo (length ip) ip.

Definition ValidateResolvedIP (ip : IP) : bool := isGlobalUnicast ip.

(** ** [net.ParseIP] *)

Definition isDigit (c : rune) : bool := ((48 <=? c) && (c <=? 57))%N.

(** Four decimal octets without leading zeros: [val] and [digLen] describe the
    current one, [acc] the finished ones; [first] and [prevDot] say what came
    before [s]. *)
Fixpoint parseIPv4Fields (first prevDot : bool) (val : N) (digLen : nat) (acc : list N) (s : gostr) :
    option (list N) :=
  match s with
  | [] => if (length acc <? 3)%nat then None else Some (acc ++ [val])
  | c :: s' =>
      if isDigit c then
        if (digLen =? 1)%nat && val =r 0 then None
        else
          let val := (val * 10 + c - 48)%N in
          if (255 <? val)%N then None else parseIPv4Fields false false val (S digLen) acc s'
      else if c =r chr "." then
        if first || (s' =s []) || prevDot then None
        else if (length acc =? 3)%nat then None
        else parseIPv4Fields false true 0 0 (acc ++ [val]) s'
      else None
  end.

Definition parseIPv4 (s : gostr) : option (list N) := parseIPv4Fields true false 0 0 [] s.

Definition hexValue (c : rune) : option N :=
  if isDigit c then Some (c - 48)%N
  else if ((97 <=? c) && (c <=? 102))%N then Some (c - 87)%N
  else if ((65 <=? c) && (c <=? 70))%N then Some (c - 55)%N
  else None.

(** The hexadecimal number at the front, with its digit count and the rest;
    more than four digits are an error. *)
Fixpoint hexScan (off : nat) (acc : N) (s : gostr) : option (N * nat * gostr) :=
  match s with
  | [] => Some (acc, off, [])
  | c :: s' =>
      match hexValue c with
      | None => Some (acc, off, s)
      | Some d => if (3 <? off)%nat then None else hexScan (S off) (acc * 16 + d)%N s'
      end
  end.

(** The groups of an IPv6 address: eight iterations fill it. *)
Fixpoint v6Loop (fuel : nat) (acc : list N) (ell : option nat) (s : gostr) :
    option (list N * option nat * gostr) :=
  match fuel with
  | O => Some (acc, ell, s)
  | S f =>
      '(v, off, rest) ← hexScan 0 0 s;
      if (off =? 0)%nat then None
      else if HasPrefix rest #"." then
        if (match ell with None => negb (length acc =? 12)%nat | Some _ => false end)
           || (16 <? length acc + 4)%nat then None
        else
          v4 ← parseIPv4 s;
          Some (acc ++ v4, ell, [])
      else
        let acc := acc ++ [(v / 256)%N; (v mod 256)%N] in
        match rest with
        | [] => Some (acc, ell, [])
        | c :: rest' =>
            if negb (c =r chr ":") then None
            else
              match rest' with
              | [] => None
              | d :: rest'' =>
                  if d =r chr ":" then
                    match ell with
                    | Some _ => None
                    | None =>
                        match rest'' with
                        | [] => Some (acc, Some (length acc), [])
                        | _ => v6Loop f acc (Some (length acc)) rest''
                        end
                    end
                  else v6Loop f acc ell rest'
              end
        end
  end.

Definition parseIPv6 (s : gostr) : option (list N) :=
  let lead := HasPrefix s #"::" in
  let s := if lead then drop 2 s else s in
  if lead && (s =s []) then Some IPv6unspecified
  else
    '(acc, ell, rest) ← v6Loop 8 [] (if lead then Some 0%nat else None) s;
    if negb (rest =s []) then None
    else if (length acc <? 16)%nat then
      e ← ell;
      Some (take e acc ++ replicate (16 - length acc) 0%N ++ drop e acc)
    else match ell with Some _ => None | None => Some acc end.

(** The first dot, colon or percent sign decides the family; an address with a
    zone is not an IP here. *)
Fixpoint firstOf (s : gostr) : option rune :=
  match s with
  | [] => None
  | c :: s' => if c =r chr "." || c =r chr ":" || c =r chr "%" then Some c else firstOf s'
  end.

Definition ParseIP (s : gostr) : option IP :=
  match firstOf s with
  | Some c =>
      if c =r chr "." then v4 ← parseIPv4 s; Some (v4Prefix ++ v4)
      else if c =r chr ":" then if ContainsRune s (chr "%") then None else parseIPv6 s
      else None
  | None => None
  end.

(** ** Hosts and URLs *)

Definition isHexDigit (r : rune) : bool := (isDigit r || ((97 <=? r) && (r <=? 102))%N).

Definition isNumericLabel (label : gostr) : bool :=
  if label =s [] then false
  else
    let s := ToLower label in
    if HasPrefix s #"0x" then
      let rest := drop 2 s in
      if rest =s [] then false else forallb isHexDigit rest
    else forallb isDigit s.

Definition isNumericish (host : gostr) : bool :=
  if host =s [] then false else forallb isNumericLabel (Split host (chr ".")).

Definition internalSuffixes : list gostr := [ #".local"; #".internal"; #".localhost" ].

Definition isInternalHostname (host : gostr) : bool :=
  let h := ToLower host in
  if h =s #"localhost" then true
  else if negb (Contains h #".") then true
  else existsb (HasSuffix h) internalSuffixes.

Definition TrimSuffix (s suffix : gostr) : gostr :=
  if HasSuffix s suffix then take (length s - length suffix) s else s.

(** The last part of [ValidateMediaURL]: a literal address, a numeric host, a
    name. *)
Definition screenHost (host : gostr) : bool :=
  match ParseIP host with
  | Some ip => isGlobalUnicast ip
  | None => if isNumericish host then false else negb (isInternalHostname host)
  end.

(** What [ValidateMediaURL] takes from a parsed URL: the scheme and
    [Hostname()]. *)
Record URL := mkURL { Scheme : gostr; Hostname : gostr }.

Section urls.
Context (urlParse : gostr → option URL).

Definition ValidateMediaURL (raw : gostr) : bool :=
  let raw := TrimSpace raw in
  if raw =s [] then false
  else match urlParse raw with
  | None => false
  | Some u =>
      if Scheme u =s [] then false
      else if negb (ToLower (Scheme u) =s #"https") then false
      else if Hostname u =s [] then false
      else
        let host := TrimSuffix (Hostname u) #"." in
        if host =s [] then false else screenHost host
  end.

Definition MediaImage : gostr := #"image".
Definition MediaAudio : gostr := #"audio".

Definition validateMIME (kind mime : gostr) : bool := HasPrefix (ToLower mime) (kind ++ #"/").

Definition NewContent (kind mime : gostr) (data : list N) (rawURL : gostr) : Content + ContentError :=
  if negb (kind =s MediaImage) && negb (kind =s MediaAudio) then inr CEKind
  else if mime =s [] then inr CEMime
  else if negb (validateMIME kind mime) then inr CEMimeKind
  else
    let hasData := (0 <? length data)%nat in
    let hasURL := negb (rawURL =s []) in
    if hasData && hasURL then inr CEBoth
    else if negb hasData && negb hasURL then inr CENeither
    else if hasURL then
      if negb (ValidateMediaURL rawURL) then inr CEURL
      else inl (mkContent [] kind mime [] rawURL [] [] [] [] 0 [] 0 [])
    else inl (mkContent [] kind mime data [] [] [] [] [] 0 [] 0 []).

Definition NewImageContent (mime : gostr) (data : list N) := NewContent MediaImage mime data [].
Definition NewImageURLContent (mime rawURL : gostr) := NewContent MediaImage mime [] rawURL.
Definition NewAudioContent (mime : gostr) (data : list N) := NewContent MediaAudio mime data [].
Definition NewAudioURLContent (mime rawURL : gostr) := NewContent MediaAudio mime [] rawURL.
End urls.

Example parse_v4 : ParseIP #"169.254.169.254" = Some (v4Prefix ++ [169; 254; 169; 254]%N).
Proof. vm_compute. reflexivity. Qed.
Example parse_v6 : ParseIP #"64:ff9b::a9fe:a9fe" = Some (nat64Prefix ++ [169; 254; 169; 254]%N).
Proof. vm_compute. reflexivity. Qed.
Example parse_mapped : ParseIP #"::ffff:10.0.0.1" = Some (v4Prefix ++ [10; 0; 0; 1]%N).
Proof. vm_compute. reflexivity. Qed.
Example parse_bad : ParseIP #"1.2.3.04" = None ∧ ParseIP #"1.2.3" = None ∧ ParseIP #"1::2::3" = None
  ∧ ParseIP #"1:2:3:4:5:6:7:8:9" = None ∧ ParseIP #"12345::" = None ∧ ParseIP #"1:2:3:4:5:6:7::8" = None
  ∧ ParseIP #"fe80::1%eth0" = None.
Proof. split_and!; vm_compute; reflexivity. Qed.
Example parse_lead : ParseIP #"::1" = Some IPv6loopback ∧ ParseIP #"::" = Some IPv6unspecified
  ∧ ParseIP #"1::" = Some (0 :: 1 :: replicate 14 0)%N ∧ is_Some (ParseIP #"1:2:3:4:5:6:7:8").
Proof. vm_compute. eauto 10. Qed.

(** ** Which addresses pass the screen *)

Definition isByte (b : N) : Prop := (b < 256)%N.

(** A fact about bytes that holds of the 256 values. *)
Lemma byte_all (f : N → bool) b :
  forallb f (N.of_nat <$> seq 0 256) = true → isByte b → f b = true.
Proof.
  intros Hf Hb. apply forallb_elem with (x := b) in Hf; [done|]. apply list_elem_of_fmap.
  exists (N.to_nat b). rewrite N2Nat.id. split; [done|]. apply elem_of_seq. unfold isByte in Hb. lia.
Qed.

(** Masks of a byte are intervals. *)
Lemma byte_mask_range (m v lo hi : N) b :
  forallb (λ b, Bool.eqb (N.land b m =r v) ((lo <=? b) && (b <=? hi))%N) (N.of_nat <$> seq 0 256) = true →
  isByte b → (N.land b m =r v) = ((lo <=? b) && (b <=? hi))%N.
Proof. intros Hf Hb. apply eqb_prop. by apply (byte_all (λ b, Bool.eqb (N.land b m =r v) ((lo <=? b) && (b <=? hi))%N)). Qed.

(** An IPv4 address as a 32-bit number, and the block [base/n] of such. *)
Definition v4Value (a b c d : N) : Z := ((Z.of_N a * 256 + Z.of_N b) * 256 + Z.of_N c) * 256 + Z.of_N d.
Definition inBlock (v : Z) (blk : Z * Z) : bool := v / 2 ^ (32 - blk.2) =? blk.1 / 2 ^ (32 - blk.2).

(** 127/8, 10/8, 172.16/12, 192.168/16, 169.254/16, 100.64/10, 224/4, 0.0.0.0 and
    255.255.255.255. *)
Definition blockedV4 : list (Z * Z) :=
  [(v4Value 127 0 0 0, 8); (v4Value 10 0 0 0, 8); (v4Value 172 16 0 0, 12); (v4Value 192 168 0 0, 16);
   (v4Value 169 254 0 0, 16); (v4Value 100 64 0 0, 10); (v4Value 224 0 0 0, 4);
   (v4Value 0 0 0 0, 32); (v4Value 255 255 255 255, 32)].

Definition publicV4 (a b c d : N) : bool := negb (existsb (inBlock (v4Value a b c d)) blockedV4).

(** Unspecified, loopback, fc00::/7, fe80::/10 and ff00::/8. *)
Definition publicV6 (ip : IP) : bool :=
  let a := byteAt ip 0 in let b := byteAt ip 1 in
  negb (ip =s IPv6unspecified) && negb (ip =s IPv6loopback)
  && negb ((252 <=? a) && (a <=? 253))%N && negb (a =r 254 && ((128 <=? b) && (b <=? 191))%N) && negb (a =r 255).

Lemma globalUnicast_screen fuel ip :
  nat64Contains ip = false → globalUnicastGo fuel ip = globalUnicastGo 0 ip.
Proof. intros H. destruct fuel; simpl; by rewrite H. Qed.

(** A 4-byte address is treated as its mapped 16-byte form. *)
Lemma mapped_same a b c d :
  isGlobalUnicast (v4Prefix ++ [a; b; c; d]) = isGlobalUnicast [a; b; c; d].
Proof.
  unfold isGlobalUnicast. rewrite !globalUnicast_screen by reflexivity.
  unfold globalUnicastGo, IsUnspecified, goGlobalUnicast, IsUnspecified. reflexivity.
Qed.

(** The well-known NAT64 prefix is screened by the address it embeds. *)
Lemma nat64_same a b c d :
  isGlobalUnicast (nat64Prefix ++ [a; b; c; d]) = isGlobalUnicast [a; b; c; d].
Proof.
  unfold isGlobalUnicast. change (length (nat64Prefix ++ [a; b; c; d])) with (S 15).
  cbn [globalUnicastGo]. change (nat64Contains (nat64Prefix ++ [a; b; c; d])) with true. cbv iota.
  change (drop 12 (To16 (nat64Prefix ++ [a; b; c; d]))) with [a; b; c; d].
  by rewrite !globalUnicast_screen by reflexivity.
Qed.

Lemma v4_quad_eq (a b c d w x y z : N) :
  ipEqual [a; b; c; d] [w; x; y; z] = (a =r w && b =r x && c =r y && d =r z).
Proof.
  unfold ipEqual, To16. cbn [length Nat.eqb]. apply eq_true_iff_eq.
  rewrite bool_decide_eq_true, !andb_true_iff, !N.eqb_eq. split.
  - intros [= -> -> -> ->]%(inj (app v4Prefix)). done.
  - by intros [[[-> ->] ->] ->].
Qed.

(** Membership in the blocked blocks, by bytes. *)
Lemma v4_blocks a b c d :
  isByte a → isByte b → isByte c → isByte d → let v := v4Value a b c d in
  inBlock v (v4Value 127 0 0 0, 8) = (a =r 127) ∧
  inBlock v (v4Value 10 0 0 0, 8) = (a =r 10) ∧
  inBlock v (v4Value 172 16 0 0, 12) = (a =r 172 && ((16 <=? b) && (b <=? 31))%N) ∧
  inBlock v (v4Value 192 168 0 0, 16) = (a =r 192 && b =r 168) ∧
  inBlock v (v4Value 169 254 0 0, 16) = (a =r 169 && b =r 254) ∧
  inBlock v (v4Value 100 64 0 0, 10) = (a =r 100 && ((64 <=? b) && (b <=? 127))%N) ∧
  inBlock v (v4Value 224 0 0 0, 4) = ((224 <=? a) && (a <=? 239))%N ∧
  inBlock v (v4Value 0 0 0 0, 32) = (a =r 0 && b =r 0 && c =r 0 && d =r 0) ∧
  inBlock v (v4Value 255 255 255 255, 32) = (a =r 255 && b =r 255 && c =r 255 && d =r 255).
Proof.
  unfold isByte. intros Ha Hb Hc Hd. cbv zeta. set (v := v4Value a b c d). unfold inBlock. cbn [fst snd].
  assert (H24 : v / 2 ^ 24 = Z.of_N a) by (symmetry; apply Z.div_unique with (Z.of_N b * 65536 + Z.of_N c * 256 + Z.of_N d); unfold v, v4Value; lia).
  assert (H16 : v / 2 ^ 16 = Z.of_N a * 256 + Z.of_N b) by (symmetry; apply Z.div_unique with (Z.of_N c * 256 + Z.of_N d); unfold v, v4Value; lia).
  assert (H20 : v / 2 ^ 20 = (Z.of_N a * 256 + Z.of_N b) / 16) by (rewrite <-H16, Z.div_div by lia; done).
  assert (H22 : v / 2 ^ 22 = (Z.of_N a * 256 + Z.of_N b) / 64) by (rewrite <-H16, Z.div_div by lia; done).
  assert (H28 : v / 2 ^ 28 = Z.of_N a / 16) by (rewrite <-H24, Z.div_div by lia; done).
  change (32 - 8) with 24. change (32 - 12) with 20. change (32 - 16) with 16. change (32 - 10) with 22.
  change (32 - 4) with 28. change (2 ^ (32 - 32)) with 1. rewrite !Z.div_1_r, H24, H16, H20, H22, H28.
  split_and!; apply eq_true_iff_eq; rewrite ?andb_true_iff, Z.eqb_eq, ?N.eqb_eq, ?N.leb_le.
  - change (v4Value 127 0 0 0 / 2 ^ 24) with 127. lia.
  - change (v4Value 10 0 0 0 / 2 ^ 24) with 10. lia.
  - change (v4Value 172 16 0 0 / 2 ^ 20) with 2753. Z.to_euclidean_division_equations. lia.
  - change (v4Value 192 168 0 0 / 2 ^ 16) with 49320. lia.
  - change (v4Value 169 254 0 0 / 2 ^ 16) with 43518. lia.
  - change (v4Value 100 64 0 0 / 2 ^ 22) with 401. Z.to_euclidean_division_equations. lia.
  - change (v4Value 224 0 0 0 / 2 ^ 28) with 14. Z.to_euclidean_division_equations. lia.
  - unfold v, v4Value. lia.
  - unfold v, v4Value. lia.
Qed.

Lemma v4_screen a b c d :
  isByte a → isByte b → isByte c → isByte d → isGlobalUnicast [a; b; c; d] = publicV4 a b c d.
Proof.
  intros Ha Hb Hc Hd. unfold isGlobalUnicast. rewrite globalUnicast_screen by reflexivity.
  cbn [globalUnicastGo]. change (nat64Contains [a; b; c; d]) with false. cbv iota.
  assert (Hu : IsUnspecified [a; b; c; d] = (a =r 0 && b =r 0 && c =r 0 && d =r 0)).
  { unfold IsUnspecified, IPv4zero. rewrite v4_quad_eq.
    assert (ipEqual [a; b; c; d] IPv6unspecified = false) as -> by (by apply bool_decide_false). apply orb_false_r. }
  unfold goGlobalUnicast, IPv4bcast. rewrite Hu, v4_quad_eq.
  unfold IsLoopback, IsPrivate, IsLinkLocalUnicast, IsLinkLocalMulticast, IsMulticast, cgnatContains.
  change (To4 [a; b; c; d]) with (Some [a; b; c; d]). cbv iota.
  change (byteAt [a; b; c; d] 0) with a. change (byteAt [a; b; c; d] 1) with b.
  change (byteAt [a; b; c; d] 2) with c.
  rewrite (byte_mask_range 240 16 16 31 b), (byte_mask_range 240 224 224 239 a), (byte_mask_range 192 64 64 127 b)
    by (done || vm_compute; reflexivity).
  destruct (v4_blocks a b c d Ha Hb Hc Hd) as (E1 & E2 & E3 & E4 & E5 & E6 & E7 & E8 & E9).
  unfold publicV4, blockedV4. cbn [existsb]. rewrite E1, E2, E3, E4, E5, E6, E7, E8, E9.
  assert (Hm : a =r 224 && b =r 0 && c =r 0 = true → ((224 <=? a) && (a <=? 239))%N = true).
  { rewrite !andb_true_iff, !N.eqb_eq, !N.leb_le. lia. }
  revert Hm. generalize (a =r 224 && b =r 0 && c =r 0) as llm. generalize ((224 <=? a) && (a <=? 239))%N as m.
  generalize (a =r 0 && b =r 0 && c =r 0 && d =r 0) as u.
  generalize (a =r 255 && b =r 255 && c =r 255 && d =r 255) as bc.
  generalize (a =r 172 && ((16 <=? b) && (b <=? 31))%N) as p1. generalize (a =r 192 && b =r 168) as p2.
  generalize (a =r 169 && b =r 254) as ll. generalize (a =r 100 && ((64 <=? b) && (b <=? 127))%N) as cg.
  generalize (a =r 127) as lo. generalize (a =r 10) as p0.
  intros [] [] [] [] [] [] [] [] [] []; try reflexivity; intros H; by specialize (H eq_refl).
Qed.

Lemma v6_screen ip :
  length ip = 16%nat → Forall isByte ip → take 12 ip ≠ v4Prefix → take 12 ip ≠ nat64Prefix →
  isGlobalUnicast ip = publicV6 ip.
Proof.
  intros Hl Hb Hm Hn. assert (Hl' : (length ip =? 16)%nat = true) by (by rewrite Hl).
  assert (H4 : To4 ip = None).
  { unfold To4. rewrite Hl. cbn [Nat.eqb andb]. by rewrite (bool_decide_false (take 12 ip = v4Prefix)). }
  assert (Hu : IsUnspecified ip = (ip =s IPv6unspecified)).
  { unfold IsUnspecified, ipEqual, To16. rewrite Hl. cbn [Nat.eqb length].
    rewrite (bool_decide_false (ip = _)); [done|]. intros ->. by apply Hm. }
  assert (Hbc : ipEqual ip IPv4bcast = false).
  { unfold ipEqual, To16. rewrite Hl. cbn [Nat.eqb length]. apply bool_decide_false. intros ->. by apply Hm. }
  assert (Hlo : IsLoopback ip = (ip =s IPv6loopback)).
  { unfold IsLoopback, ipEqual, To16. rewrite H4, Hl. done. }
  assert (Hbyte : ∀ i, isByte (byteAt ip i)).
  { intros i. unfold byteAt. destruct (ip !! i) as [x|] eqn:E; [|done]. simpl. rewrite Forall_forall in Hb.
    apply Hb. by eapply list_elem_of_lookup_2. }
  unfold isGlobalUnicast. rewrite globalUnicast_screen.
  2: { unfold nat64Contains, is16. by rewrite H4, Hl', (bool_decide_false (take 12 ip = nat64Prefix)). }
  cbn [globalUnicastGo]. unfold nat64Contains at 1, is16 at 1.
  rewrite H4, Hl', (bool_decide_false (take 12 ip = nat64Prefix)) by done. cbn [andb].
  unfold goGlobalUnicast. rewrite Hu, Hbc, Hlo. unfold cgnatContains.
  unfold IsPrivate, IsMulticast, IsLinkLocalMulticast, IsLinkLocalUnicast, is16, publicV6. rewrite H4, Hl'. cbv zeta.
  rewrite (byte_mask_range 254 252 252 253 (byteAt ip 0)), (byte_mask_range 192 128 128 191 (byteAt ip 1))
    by (done || vm_compute; reflexivity).
  cbn [andb]. rewrite orb_true_r. cbn [andb].
  generalize (N.land (byteAt ip 1) 15 =r 2) as l. generalize (byteAt ip 0 =r 255) as m.
  generalize ((252 <=? byteAt ip 0) && (byteAt ip 0 <=? 253))%N as p.
  generalize (byteAt ip 0 =r 254) as f. generalize ((128 <=? byteAt ip 1) && (byteAt ip 1 <=? 191))%N as g.
  generalize (ip =s IPv6loopback) as lo. generalize (ip =s IPv6unspecified) as u.
  by intros [] [] [] [] [] [] [].
Qed.

(** The address screen is exact.  An IPv4 address passes exactly when it lies
    in none of the blocked blocks (127/8, 10/8, 172.16/12, 192.168/16, 169.254/16
    with the metadata service, 100.64/10, 224/4, 0.0.0.0, 255.255.255.255), and the
    same decision is made for its IPv4-mapped form and for the NAT64 address that
    embeds it; every other IPv6 address passes exactly when it is not unspecified,
    loopback, unique-local, link-local or multicast. *)
Theorem media_ip_screen_exact :
  (∀ a b c d, isByte a → isByte b → isByte c → isByte d →
     ValidateResolvedIP [a; b; c; d] = publicV4 a b c d ∧
     ValidateResolvedIP (v4Prefix ++ [a; b; c; d]) = publicV4 a b c d ∧
     ValidateResolvedIP (nat64Prefix ++ [a; b; c; d]) = publicV4 a b c d) ∧
  (∀ ip, length ip = 16%nat → Forall isByte ip → take 12 ip ≠ v4Prefix → take 12 ip ≠ nat64Prefix →
     ValidateResolvedIP ip = publicV6 ip).
Proof.
  unfold ValidateResolvedIP. split; [|apply v6_screen].
  intros a b c d Ha Hb Hc Hd. rewrite mapped_same, nat64_same. split_and!; by apply v4_screen.
Qed.

(** ** Dotted quads *)

(** A byte in decimal. *)
Definition decByte (b : N) : gostr :=
  if (b <? 10)%N then [48 + b]%N
  else if (b <? 100)%N then [48 + b / 10; 48 + b mod 10]%N
  else [48 + b / 100; 48 + b / 10 mod 10; 48 + b mod 10]%N.

Definition dottedQuad (a b c d : N) : gostr :=
  decByte a ++ #"." ++ decByte b ++ #"." ++ decByte c ++ #"." ++ decByte d.

Lemma isDigit_dec d : (d < 10)%N → isDigit (48 + d) = true.
Proof. intros. unfold isDigit. rewrite andb_true_iff, !N.leb_le. lia. Qed.

Lemma digit_step v d : (v * 10 + (48 + d) - 48 = v * 10 + d)%N.
Proof. lia. Qed.

(** One digit of an octet that stays in range. *)
Lemma read_digit first prevDot v n acc d rest :
  (d < 10)%N → ¬ (n = 1%nat ∧ v = 0%N) → (v * 10 + d < 256)%N →
  parseIPv4Fields first prevDot v n acc ((48 + d)%N :: rest) =
  parseIPv4Fields false false (v * 10 + d) (S n) acc rest.
Proof.
  intros Hd Hz Hv. cbn [parseIPv4Fields]. rewrite isDigit_dec by done. rewrite digit_step.
  assert ((n =? 1)%nat && v =r 0 = false) as ->.
  { apply not_true_is_false. rewrite andb_true_iff, Nat.eqb_eq, N.eqb_eq. done. }
  by rewrite (proj2 (N.ltb_ge _ _)) by lia.
Qed.

(** Reading one octet. *)
Lemma read_octet first prevDot acc b rest :
  isByte b →
  ∃ n, parseIPv4Fields first prevDot 0 0 acc (decByte b ++ rest) = parseIPv4Fields false false b (S n) acc rest.
Proof.
  intros Hb. unfold isByte in Hb. unfold decByte.
  assert (Hmod : ∀ x, (x mod 10 < 10)%N) by (intros; by apply N.mod_lt).
  pose proof (N.div_mod b 10 ltac:(done)) as H1. pose proof (N.div_mod (b / 10) 10 ltac:(done)) as H2.
  assert (H3 : (b / 100 = b / 10 / 10)%N) by (rewrite N.Div0.div_div; done).
  pose proof (Hmod b) as H4. pose proof (Hmod (b / 10)%N) as H5. rewrite H3. clear H3 Hmod. revert H1 H2 H4 H5.
  generalize (b / 10 / 10)%N as q2. generalize ((b / 10) mod 10)%N as r2. generalize (b / 10)%N as q1.
  generalize (b mod 10)%N as r1. intros r1 q1 r2 q2 H1 H2 H4 H5.
  destruct (N.ltb_spec b 10) as [H|H]; [|destruct (N.ltb_spec b 100) as [H'|H']]; cbn [app].
  - exists 0%nat. rewrite read_digit by lia. f_equal; lia.
  - exists 1%nat. rewrite !read_digit by lia. f_equal; lia.
  - exists 2%nat. rewrite !read_digit by lia. f_equal; lia.
Qed.

Lemma read_dot v n acc s :
  s ≠ [] → (length acc < 3)%nat →
  parseIPv4Fields false false v n acc (#"." ++ s) = parseIPv4Fields false true 0 0 (acc ++ [v]) s.
Proof.
  intros Hs Hl. change (#"." ++ s) with (chr "." :: s). cbn [parseIPv4Fields].
  change (isDigit (chr ".")) with false. rewrite N.eqb_refl, (bool_decide_false (s = [])) by done.
  simpl. by rewrite (proj2 (Nat.eqb_neq _ _)) by lia.
Qed.

Lemma decByte_ne b : decByte b ≠ [].
Proof. unfold decByte. by repeat case_match. Qed.

Lemma firstOf_dec b s : isByte b → firstOf (decByte b ++ s) = firstOf s.
Proof.
  intros Hb. assert (Hd : ∀ d t, (d < 10)%N → firstOf ((48 + d)%N :: t) = firstOf t).
  { intros d t ?. cbn [firstOf]. unfold chr. rewrite !(proj2 (N.eqb_neq _ _)) by (cbn; lia). done. }
  assert (Hmod : ∀ x, (x mod 10 < 10)%N) by (intros; by apply N.mod_lt).
  unfold decByte, isByte in *. destruct (N.ltb_spec b 10) as [H|H]; [|destruct (N.ltb_spec b 100) as [H'|H']];
    cbn [app]; rewrite !Hd; auto; apply N.Div0.div_lt_upper_bound; lia.
Qed.

(** Every dotted quad is read as its address. *)
Lemma ParseIP_dotted a b c d :
  isByte a → isByte b → isByte c → isByte d →
  ParseIP (dottedQuad a b c d) = Some (v4Prefix ++ [a; b; c; d]).
Proof.
  intros Ha Hb Hc Hd. unfold ParseIP, dottedQuad. rewrite firstOf_dec by done.
  change (firstOf (#"." ++ _)) with (Some (chr ".")). cbv iota beta. rewrite N.eqb_refl. unfold parseIPv4.
  destruct (read_octet true false [] a (#"." ++ decByte b ++ #"." ++ decByte c ++ #"." ++ decByte d) Ha) as [? ->].
  rewrite read_dot by (simpl; first [by intros ?%app_nil; destruct_and?; eapply decByte_ne | lia]).
  change ([] ++ [a]) with [a].
  destruct (read_octet false true [a] b (#"." ++ decByte c ++ #"." ++ decByte d) Hb) as [? ->].
  rewrite read_dot by (simpl; first [by intros [??]%app_nil; eapply decByte_ne | lia]).
  change ([a] ++ [b]) with [a; b].
  destruct (read_octet false true [a; b] c (#"." ++ decByte d) Hc) as [? ->].
  rewrite read_dot by (simpl; first [by intros ?; eapply decByte_ne | lia]).
  destruct (read_octet false true [a; b; c] d [] Hd) as [? Hl]. rewrite app_nil_r in Hl.
  change ([a; b] ++ [c]) with [a; b; c]. by rewrite Hl.
Qed.

(** A media URL that passes points at no internal host, whatever the URL
    parser: it parses, its scheme is https, and its host, without a trailing root
    dot, is a literal address that passes the address screen, or a name that is
    not a numeric address form, has a dot, and is not an internal name.  A dotted
    quad passes exactly when its address is public. *)
Theorem media_url_not_internal urlParse raw :
  ValidateMediaURL urlParse raw = true →
  ∃ u, urlParse (TrimSpace raw) = Some u ∧ ToLower (Scheme u) = #"https" ∧
  let host := TrimSuffix (Hostname u) #"." in
  host ≠ [] ∧
  (∀ ip, ParseIP host = Some ip → ValidateResolvedIP ip = true) ∧
  (ParseIP host = None → isNumericish host = false ∧ Contains (ToLower host) #"." = true ∧
     ToLower host ≠ #"localhost" ∧ Forall (λ suf, HasSuffix (ToLower host) suf = false) internalSuffixes) ∧
  (∀ a b c d, isByte a → isByte b → isByte c → isByte d → host = dottedQuad a b c d → publicV4 a b c d = true).
Proof.
  unfold ValidateMediaURL. destruct (TrimSpace raw =s []); [done|].
  destruct (urlParse (TrimSpace raw)) as [u|]; [|done].
  destruct (Scheme u =s []); [done|]. destruct (ToLower (Scheme u) =s #"https") eqn:Hs; [|done]. bprop. simpl.
  destruct (Hostname u =s []); [done|]. destruct (TrimSuffix (Hostname u) #"." =s []) eqn:Hh; [done|]. bprop.
  unfold screenHost. intros H. exists u. cbv zeta. set (host := TrimSuffix (Hostname u) #".") in *.
  split_and!; [done..| | |].
  - intros ip Hip. by rewrite Hip in H.
  - intros Hn. rewrite Hn in H. destruct (isNumericish host); [done|]. unfold isInternalHostname in H.
    destruct (ToLower host =s #"localhost") eqn:El; [done|]. destruct (Contains (ToLower host) #".") eqn:Ec; [|done].
    bprop. split_and!; [done..|]. cbn [negb] in H.
    apply Forall_forall, existsb_false_forall. by apply negb_true_iff, negb_true_iff.
  - intros a b c d Ha Hb Hc Hd E. rewrite E, ParseIP_dotted in H by done.
    rewrite mapped_same in H. by rewrite v4_screen in H.
Qed.

(** An https URL split at its first slashes, enough for the samples. *)
Definition sampleParse (raw : gostr) : option URL :=
  if HasPrefix raw #"https://" then Some (mkURL #"https" (drop 8 raw)) else None.

Lemma media_url_not_internal_witness :
  ValidateMediaURL sampleParse #"https://8.8.4.4" = true ∧ publicV4 8 8 4 4 = true.
Proof.
  assert (H : ValidateMediaURL sampleParse #"https://8.8.4.4" = true) by (vm_compute; reflexivity).
  split; [exact H|]. destruct (media_url_not_internal sampleParse #"https://8.8.4.4" H) as (u & Hu & _ & _ & _ & _ & Hq).
  vm_compute in Hu. injection Hu as <-. apply Hq; vm_compute; reflexivity.
Defined.

(** The screen of names is a list of shapes: an IPv4-mapped literal with a zone is
    no IP for [net.ParseIP], is not numeric and has a dot, so it passes. *)
Example media_zone_passes :
  ParseIP #"::ffff:169.254.169.254%eth0" = None ∧ screenHost #"::ffff:169.254.169.254%eth0" = true.
Proof. split; vm_compute; reflexivity. Qed.

(** ** Sizes and shapes *)

Definition sumZ (l : list Z) : Z := foldr Z.add 0 l.

Lemma sumZ_nonneg l : Forall (λ n, 0 <= n) l → 0 <= sumZ l.
Proof. induction 1; simpl; lia. Qed.

(** A capped running total: both loops are of this form. *)
Lemma mediaLoop_spec i total parts :
  0 <= total → mediaLoop i total parts = None ↔
  Forall (λ p, dataLen p <= MaxMediaBytes) parts ∧
  (parts = [] ∨ total + sumZ (dataLen <$> parts) <= MaxPromptMediaBytes).
Proof.
  revert i total. induction parts as [|p parts IH]; intros i total Ht; csimpl; [by split; auto|].
  assert (0 <= dataLen p) by (unfold dataLen; lia).
  assert (0 <= sumZ (dataLen <$> parts)).
  { apply sumZ_nonneg, Forall_fmap, Forall_true. intros q. unfold dataLen. simpl. lia. }
  rewrite Forall_cons. destruct (Z.ltb_spec MaxMediaBytes (dataLen p)); [split; [done|lia]|].
  destruct (Z.ltb_spec MaxPromptMediaBytes (total + dataLen p)).
  { split; [done|]. intros [_ [?|?]]; [done|lia]. }
  rewrite IH by lia. split.
  - intros [? [-> | ?]]; (split; [done|right; simpl; lia]).
  - intros [[? ?] [?|?]]; [done|]. split; [done|right; lia].
Qed.

(** The media caps of a prompt are exactly the documented ones: the parts pass
    if and only if there are at most sixteen, each holds at most 10 MiB inline, and
    together they hold at most 20 MiB. *)
Theorem media_caps_exact parts :
  ValidateMediaParts parts = None ↔
  Z.of_nat (length parts) <= 16 ∧ Forall (λ p, dataLen p <= 10 * 2 ^ 20) parts ∧
  sumZ (dataLen <$> parts) <= 20 * 2 ^ 20.
Proof.
  unfold ValidateMediaParts, MaxPromptMediaParts.
  change (10 * 2 ^ 20) with MaxMediaBytes. change (20 * 2 ^ 20) with MaxPromptMediaBytes.
  destruct (Z.ltb_spec 16 (Z.of_nat (length parts))); [split; [done|lia]|].
  rewrite mediaLoop_spec by lia. rewrite Z.add_0_l. split.
  - intros [? [-> |?]]; split_and!; done.
  - intros (? & ? & ?). auto.
Qed.

(** What a block counts for: its inline text and bytes; references count nothing. *)
Definition blockWithin (p : Content) : Prop := ∃ n, blockBytes 0 p = inl n.
Definition blockSize (p : Content) : Z := match blockBytes 0 p with inl n => n | inr _ => 0 end.

Lemma blockBytes_index i p :
  blockBytes i p = match blockBytes 0 p with
                   | inl n => inl n
                   | inr (CEPart _) => inr (CEPart i)
                   | inr (CEUnknownBlock _) => inr (CEUnknownBlock i)
                   | inr e => inr e
                   end.
Proof. unfold blockBytes. by repeat case_match; simplify_eq. Qed.

Lemma blockBytes_nonneg i p n : blockBytes i p = inl n → 0 <= n.
Proof. unfold blockBytes, dataLen, textLen. repeat case_match; intros; simplify_eq; lia. Qed.

Lemma resultLoop_sound i total parts :
  0 <= total → resultLoop i total parts = None ↔
  Forall blockWithin parts ∧ (parts = [] ∨ total + sumZ (blockSize <$> parts) <= MaxToolResultBytes).
Proof.
  revert i total. induction parts as [|p parts IH]; intros i total Ht; csimpl; [by split; auto|].
  assert (Hsum : 0 <= sumZ (blockSize <$> parts)).
  { apply sumZ_nonneg, Forall_fmap, Forall_true. intros q. unfold blockSize. simpl.
    destruct (blockBytes 0 q) eqn:E; [by apply blockBytes_nonneg in E|lia]. }
  rewrite Forall_cons, blockBytes_index. unfold blockWithin at 1, blockSize at 1.
  destruct (blockBytes 0 p) as [n|e] eqn:E.
  2: { destruct e; (split; [done|]); by intros [[[? ?] _] _]. }
  pose proof (blockBytes_nonneg _ _ _ E) as Hn. destruct (Z.ltb_spec MaxToolResultBytes (total + n)).
  { split; [done|]. intros [_ [?|?]]; [done|lia]. }
  rewrite IH by lia. split.
  - intros [? [-> | ?]]; (split; [by eauto|right; simpl; lia]).
  - intros [[? ?] [?|?]]; [done|]. split; [done|right; lia].
Qed.

(** A tool result that passes is bounded: every block is of a known kind and
    within its own cap (25 KiB of text, 10 MiB of data), the whole result counts at
    most 20 MiB, and a result passes whenever this holds. *)
Theorem tool_result_caps_exact parts :
  ValidateToolResultParts parts = None ↔
  Forall blockWithin parts ∧ sumZ (blockSize <$> parts) <= 20 * 2 ^ 20.
Proof.
  unfold ValidateToolResultParts. change (20 * 2 ^ 20) with MaxToolResultBytes.
  rewrite resultLoop_sound, Z.add_0_l by lia. split; [|by intros [??]; auto]. intros [? [-> |?]]; by split.
Qed.

(** [NewContent] builds only well-formed media parts: of a known kind with a
    MIME type of that kind, inline bytes or a URL but not both, the URL one that
    passes the screen, and never a tool-result block. *)
Theorem new_content_wellformed urlParse kind mime data rawURL c :
  NewContent urlParse kind mime data rawURL = inl c →
  CBlockKind c = [] ∧ (CKind c = MediaImage ∨ CKind c = MediaAudio) ∧
  HasPrefix (ToLower (CMIMEType c)) (CKind c ++ #"/") = true ∧
  ((CData c ≠ [] ∧ CURL c = []) ∨
   (CData c = [] ∧ CURL c = rawURL ∧ CURL c ≠ [] ∧ ValidateMediaURL urlParse (CURL c) = true)).
Proof.
  unfold NewContent, validateMIME. intros H. repeat case_match; simplify_eq/=; bprop; split_and!; try done;
    repeat match goal with H : _ && _ = false |- _ => apply andb_false_iff in H end; destruct_or?; bprop; auto.
  all: destruct data; simpl in *; auto; naive_solver.
Qed.

Lemma new_content_wellformed_witness :
  ∃ c, NewImageContent sampleParse #"image/png" [1; 2; 3]%N = inl c ∧ CBlockKind c = [] ∧ CData c ≠ [].
Proof.
  eexists. split; [vm_compute; reflexivity|].
  destruct (new_content_wellformed sampleParse MediaImage #"image/png" [1; 2; 3]%N []
    (mkContent [] MediaImage #"image/png" [1; 2; 3]%N [] [] [] [] [] 0 [] 0 []) eq_refl) as (H1 & _ & _ & [[H2 _]|[H2 _]]).
  - split; [exact H1|exact H2].
  - discriminate H2.
Defined.
