(* ===== verification/Schedule.v ===== *)
(** * The schedule store

    [engine/port/schedule.go] (specifications, firing state, fires, triggers) and
    the reference store [engine/adapter/memschedulestore/memschedulestore.go].
    Every method holds one mutex from start to end, so a run of the store is a
    sequence of calls ([SchedOp], [schedExec], [schedRun]); the times are the
    caller's.  Go ranges over a map in no fixed order: the order of [List], [Due]
    and [ListFires] is that of [map_to_list] and no theorem depends on it.

    A [time.Time] is its nanoseconds since Go's zero time; [FireCount] and
    [OneShotRetryCount] are 64-bit ints. *)

From S2P Require Import Prelude Conversation Authorization Labels Session.

(** ** Specifications, states and fires *)

Definition PendingFireSessionID : gostr := #"pending".

Inductive ScheduleError :=
  | ErrScheduleNotFound | ErrScheduleAlreadyExists | ErrScheduleDeleting | ErrScheduleActiveFire
  | ErrEmptyDeletionID.
#[global] Instance ScheduleError_eq_dec : EqDecision ScheduleError.
Proof. solve_decision. Defined.

Inductive TriggerKind := TriggerNone | TriggerCron | TriggerOneShot.
#[global] Instance TriggerKind_eq_dec : EqDecision TriggerKind.
Proof. solve_decision. Defined.

Record TriggerSpec := mkTrigger { Cron : gostr; OneShot : Time }.

(** [TriggerSpec.Kind] *)
Definition TriggerKindOf (t : TriggerSpec) : TriggerKind :=
  if negb (Cron t =s []) && negb (IsZero (OneShot t)) then TriggerNone
  else if negb (Cron t =s []) then TriggerCron
  else if negb (IsZero (OneShot t)) then TriggerOneShot
  else TriggerNone.

Inductive TriggerError := TriggerBoth | TriggerNeither.

(** [TriggerSpec.Validate]; [None] is no error. *)
Definition TriggerValidate (t : TriggerSpec) : option TriggerError :=
  let hasCron := negb (Cron t =s []) in
  let hasOneShot := negb (IsZero (OneShot t)) in
  if hasCron && hasOneShot then Some TriggerBoth
  else if negb hasCron && negb hasOneShot then Some TriggerNeither
  else None.

Inductive MisfirePolicy := MisfireFireOnceNow | MisfireSkip.

Record ScheduleProviderSelector := mkSelector { SelProviderID : gostr; SelModelID : gostr }.

Record ScheduleSpec := mkScheduleSpec {
  SpName : gostr;
  SpPrompt : gostr;
  SpParts : list Content;
  SpTrigger : TriggerSpec;
  SpSelector : ScheduleProviderSelector;
  SpProfile : gostr;
  SpEnvironmentRef : EnvironmentRef;
  SpPlacementScope : gostr;
  SpPlacementOwned : bool;
  SpMode : PermissionMode;
  SpLimits : Limits;
  SpMutating : bool;
  SpMaxFires : Z;
  SpMisfire : MisfirePolicy;
  SpSingleton : bool;
  SpTimezone : gostr;
  SpCreatedAt : Time;
  SpOneShotRetry : bool;
  SpOneShotMaxRetries : Z;
  SpCarryContext : bool;
  SpOriginSessionID : gostr;
  SpOwner : option Principal;
  SpFireTimeout : Z
}.

Record ScheduleState := mkScheduleState {
  NextFireAt : Time;
  LastFireAt : Time;
  FireCount : Z;
  Enabled : bool;
  DeletionID : gostr;
  LastFireSessionID : gostr;
  OneShotRetryCount : Z;
  LastFireStartedAt : Time;
  LastFireProgressAt : Time;
  FireDeadline : Time
}.

Record Schedule := mkSchedule { Spec : ScheduleSpec; State : ScheduleState }.

Record ScheduleFire := mkFire {
  FireID : gostr;
  FireScheduleName : gostr;
  FireSessionID : gostr;
  FiredAt : Time;
  FireStartedAt : Time;
  FireProgressAt : Time;
  FireDeadlineAt : Time;
  FireStop : StopReason;
  FireErr : gostr
}.

(** Field updates. *)
Ltac upd_state s f v :=
  update_field (mkScheduleState (NextFireAt s) (LastFireAt s) (FireCount s) (Enabled s) (DeletionID s)
    (LastFireSessionID s) (OneShotRetryCount s) (LastFireStartedAt s) (LastFireProgressAt s)
    (FireDeadline s)) (f s) v.

Definition setNextFireAt v s : ScheduleState := ltac:(upd_state s NextFireAt v).
Definition setLastFireAt v s : ScheduleState := ltac:(upd_state s LastFireAt v).
Definition setFireCount v s : ScheduleState := ltac:(upd_state s FireCount v).
Definition setEnabled v s : ScheduleState := ltac:(upd_state s Enabled v).
Definition setDeletionID v s : ScheduleState := ltac:(upd_state s DeletionID v).
Definition setLastFireSessionID v s : ScheduleState := ltac:(upd_state s LastFireSessionID v).
Definition setOneShotRetryCount v s : ScheduleState := ltac:(upd_state s OneShotRetryCount v).
Definition setInFlight started progress deadline s : ScheduleState :=
  mkScheduleState (NextFireAt s) (LastFireAt s) (FireCount s) (Enabled s) (DeletionID s)
    (LastFireSessionID s) (OneShotRetryCount s) started progress deadline.
Definition setProgress v s : ScheduleState := ltac:(upd_state s LastFireProgressAt v).
Definition setFireProgress v f : ScheduleFire :=
  mkFire (FireID f) (FireScheduleName f) (FireSessionID f) (FiredAt f) (FireStartedAt f) v
    (FireDeadlineAt f) (FireStop f) (FireErr f).

(** ** The store *)

(** A record of the map is a [Schedule]: the specification and the state.  The
    clones Go takes are values here. *)
Record Store := mkStore { scheds : gmap gostr Schedule; fires : gmap gostr ScheduleFire }.

Definition New : Store := mkStore ∅ ∅.

Definition put (s : Store) (name : gostr) (rec : Schedule) : Store :=
  mkStore (<[name := rec]> (scheds s)) (fires s).
Definition putFire (s : Store) (id : gostr) (f : ScheduleFire) : Store :=
  mkStore (scheds s) (<[id := f]> (fires s)).
Definition remove (s : Store) (name : gostr) : Store :=
  mkStore (delete name (scheds s)) (fires s).

(** What a call returns. *)
Inductive SchedResult := ROk | RSched (v : Schedule) | RErr (e : ScheduleError).

(** The state a new name starts with: a zero state is enabled. *)
Definition initialState (st : ScheduleState) : ScheduleState :=
  if IsZero (NextFireAt st) && negb (Enabled st) && (FireCount st =? 0)%Z then setEnabled true st else st.

Definition Save (s : Store) (v : Schedule) : Store * SchedResult :=
  match scheds s !! SpName (Spec v) with
  | Some cur =>
      if negb (DeletionID (State cur) =s []) then (s, RErr ErrScheduleDeleting)
      else (put s (SpName (Spec v)) (mkSchedule (Spec v) (State cur)), ROk)
  | None => (put s (SpName (Spec v)) (mkSchedule (Spec v) (initialState (State v))), ROk)
  end.

Definition Create (s : Store) (v : Schedule) : Store * SchedResult :=
  match scheds s !! SpName (Spec v) with
  | Some _ => (s, RErr ErrScheduleAlreadyExists)
  | None => (put s (SpName (Spec v)) (mkSchedule (Spec v) (initialState (State v))), ROk)
  end.

Definition Load (s : Store) (name : gostr) : SchedResult :=
  match scheds s !! name with Some rec => RSched rec | None => RErr ErrScheduleNotFound end.

Definition Delete (s : Store) (name : gostr) : Store * SchedResult :=
  match scheds s !! name with
  | Some rec => if negb (DeletionID (State rec) =s []) then (s, RErr ErrScheduleDeleting)
                else (remove s name, ROk)
  | None => (remove s name, ROk)
  end.

Definition BeginDelete (s : Store) (name deletionID : gostr) : Store * SchedResult :=
  match scheds s !! name with
  | None => (s, RErr ErrScheduleNotFound)
  | Some rec =>
      if negb (DeletionID (State rec) =s []) then (s, RSched rec)
      else if (LastFireSessionID (State rec) =s PendingFireSessionID)
              || negb (IsZero (LastFireStartedAt (State rec))) then (s, RErr ErrScheduleActiveFire)
      else if deletionID =s [] then (s, RErr ErrEmptyDeletionID)
      else
        let rec' := mkSchedule (Spec rec) (setDeletionID deletionID (setEnabled false (State rec))) in
        (put s name rec', RSched rec')
  end.

Definition CompleteDelete (s : Store) (name deletionID : gostr) : Store * SchedResult :=
  match scheds s !! name with
  | None => (s, RErr ErrScheduleDeleting)
  | Some rec =>
      if (DeletionID (State rec) =s []) || negb (DeletionID (State rec) =s deletionID)
      then (s, RErr ErrScheduleDeleting)
      else (remove s name, ROk)
  end.

Definition List (s : Store) : list Schedule := (map_to_list (scheds s)).*2.

(** The body of the loop of [Due]. *)
Definition isDue (now : Time) (rec : Schedule) : bool :=
  if negb (Enabled (State rec)) then false
  else if IsZero (NextFireAt (State rec)) || (now <? NextFireAt (State rec))%Z then false
  else if ((0 <? SpMaxFires (Spec rec)) && (SpMaxFires (Spec rec) <=? FireCount (State rec)))%Z then false
  else true.

Definition Due (s : Store) (now : Time) : list Schedule :=
  filter (λ rec, isDue now rec = true) (List s).

(** The advance both claims make. *)
Definition advance (now nextFire : Time) (st : ScheduleState) : ScheduleState :=
  let st := setLastFireAt now st in
  let st := setNextFireAt nextFire st in
  let st := setFireCount (wrap64 (FireCount st + 1)) st in
  let st := setLastFireSessionID PendingFireSessionID st in
  let st := setInFlight 0%Z 0%Z 0%Z st in
  if IsZero nextFire then setEnabled false st else st.

Definition Claim (s : Store) (name : gostr) (now nextFire : Time) : Store * SchedResult :=
  match scheds s !! name with
  | None => (s, RErr ErrScheduleNotFound)
  | Some rec =>
      let st := State rec in
      if negb (Enabled st) || negb (DeletionID st =s []) then (s, RErr ErrScheduleNotFound)
      else if IsZero (NextFireAt st) || (now <? NextFireAt st)%Z then (s, RErr ErrScheduleNotFound)
      else if ((0 <? SpMaxFires (Spec rec)) && (SpMaxFires (Spec rec) <=? FireCount st))%Z
      then (s, RErr ErrScheduleNotFound)
      else
        let rec' := mkSchedule (Spec rec) (advance now nextFire st) in
        (put s name rec', RSched rec')
  end.

Definition ClaimNow (s : Store) (name : gostr) (now nextFire : Time) : Store * SchedResult :=
  match scheds s !! name with
  | None => (s, RErr ErrScheduleNotFound)
  | Some rec =>
      let st := State rec in
      if negb (Enabled st) || negb (DeletionID st =s []) then (s, RErr ErrScheduleNotFound)
      else if ((0 <? SpMaxFires (Spec rec)) && (SpMaxFires (Spec rec) <=? FireCount st))%Z
      then (s, RErr ErrScheduleNotFound)
      else if (LastFireAt st =? now)%Z then (s, RErr ErrScheduleNotFound)
      else
        let rec' := mkSchedule (Spec rec) (advance now nextFire st) in
        (put s name rec', RSched rec')
  end.

Definition SetEnabled (s : Store) (name : gostr) (enabled : bool) : Store * SchedResult :=
  match scheds s !! name with
  | None => (s, RErr ErrScheduleNotFound)
  | Some rec =>
      if negb (DeletionID (State rec) =s []) then (s, RErr ErrScheduleDeleting)
      else (put s name (mkSchedule (Spec rec) (setEnabled enabled (State rec))), ROk)
  end.

(** A fire with a stop reason has ended. *)
Definition terminalFire (s : Store) (id : gostr) : bool :=
  match fires s !! id with Some f => negb (FireStop f =s StopNone) | None => false end.

Definition RecordFire (s : Store) (f : ScheduleFire) : Store * SchedResult :=
  if terminalFire s (FireID f) then (s, ROk)
  else match scheds s !! FireScheduleName f with
  | None => (s, RErr ErrScheduleNotFound)
  | Some rec =>
      let st := setInFlight 0%Z 0%Z 0%Z (setLastFireSessionID (FireSessionID f) (State rec)) in
      (putFire (put s (FireScheduleName f) (mkSchedule (Spec rec) st)) (FireID f) f, ROk)
  end.

Definition RecordFireStart (s : Store) (name : gostr) (fire : ScheduleFire) : Store * SchedResult :=
  match scheds s !! name with
  | None => (s, RErr ErrScheduleNotFound)
  | Some rec =>
      if terminalFire s (FireID fire) then (s, ROk)
      else if match fires s !! FireID fire with
              | Some existing => (FireStartedAt existing =? FireStartedAt fire)%Z
              | None => false
              end then (s, ROk)
      else
        let progress := if IsZero (FireProgressAt fire) then FireStartedAt fire else FireProgressAt fire in
        let st := setInFlight (FireStartedAt fire) progress (FireDeadlineAt fire)
                    (setLastFireSessionID (FireSessionID fire) (State rec)) in
        (putFire (put s name (mkSchedule (Spec rec) st)) (FireID fire) fire, ROk)
  end.

Definition RecordFireProgress (s : Store) (name fireID : gostr) (at_ : Time) : Store * SchedResult :=
  match scheds s !! name with
  | None => (s, RErr ErrScheduleNotFound)
  | Some rec =>
      let s1 := if negb (IsZero at_) && (LastFireProgressAt (State rec) <? at_)%Z
                then put s name (mkSchedule (Spec rec) (setProgress at_ (State rec))) else s in
      match fires s1 !! fireID with
      | None => (s1, ROk)
      | Some f =>
          if negb (FireStop f =s StopNone) then (s1, ROk)
          else if negb (IsZero at_) && (FireProgressAt f <? at_)%Z
          then (putFire s1 fireID (setFireProgress at_ f), ROk)
          else (s1, ROk)
      end
  end.

Definition LoadFire (s : Store) (fireID : gostr) : ScheduleFire + ScheduleError :=
  match fires s !! fireID with Some f => inl f | None => inr ErrScheduleNotFound end.

Definition ListFires (s : Store) (scheduleName : gostr) : list ScheduleFire + ScheduleError :=
  match scheds s !! scheduleName with
  | None => inr ErrScheduleNotFound
  | Some _ => inl (filter (λ f, FireScheduleName f = scheduleName) (map_to_list (fires s)).*2)
  end.

Definition ReArmOneShot (s : Store) (name : gostr) (nextFire : Time) : Store * SchedResult :=
  match scheds s !! name with
  | None => (s, RErr ErrScheduleNotFound)
  | Some rec =>
      if negb (DeletionID (State rec) =s []) then (s, RErr ErrScheduleDeleting)
      else
        let st := setNextFireAt nextFire (setEnabled true (State rec)) in
        (put s name (mkSchedule (Spec rec) (setOneShotRetryCount (wrap64 (OneShotRetryCount st + 1)) st)), ROk)
  end.

(** ** Runs *)

Inductive SchedOp :=
  | SSave (v : Schedule)
  | SCreate (v : Schedule)
  | SDelete (name : gostr)
  | SBeginDelete (name deletionID : gostr)
  | SCompleteDelete (name deletionID : gostr)
  | SClaim (name : gostr) (now nextFire : Time)
  | SClaimNow (name : gostr) (now nextFire : Time)
  | SSetEnabled (name : gostr) (enabled : bool)
  | SRecordFire (f : ScheduleFire)
  | SRecordFireStart (name : gostr) (f : ScheduleFire)
  | SRecordFireProgress (name fireID : gostr) (at_ : Time)
  | SReArmOneShot (name : gostr) (nextFire : Time).

Definition schedExec (s : Store) (op : SchedOp) : Store * SchedResult :=
  match op with
  | SSave v => Save s v
  | SCreate v => Create s v
  | SDelete name => Delete s name
  | SBeginDelete name id => BeginDelete s name id
  | SCompleteDelete name id => CompleteDelete s name id
  | SClaim name now next => Claim s name now next
  | SClaimNow name now next => ClaimNow s name now next
  | SSetEnabled name b => SetEnabled s name b
  | SRecordFire f => RecordFire s f
  | SRecordFireStart name f => RecordFireStart s name f
  | SRecordFireProgress name id t => RecordFireProgress s name id t
  | SReArmOneShot name next => ReArmOneShot s name next
  end.

(** The store after the calls, and each call with its result. *)
Fixpoint schedRun (s : Store) (ops : list SchedOp) : Store * list (SchedOp * SchedResult) :=
  match ops with
  | [] => (s, [])
  | op :: ops' =>
      let '(s1, r) := schedExec s op in
      let '(s2, rs) := schedRun s1 ops' in
      (s2, (op, r) :: rs)
  end.

(** ** How calls change a record *)

(** The schedule a call is about. *)
Definition opName (op : SchedOp) : gostr :=
  match op with
  | SSave v | SCreate v => SpName (Spec v)
  | SDelete n | SBeginDelete n _ | SCompleteDelete n _ | SClaim n _ _ | SClaimNow n _ _
  | SSetEnabled n _ | SRecordFireStart n _ | SRecordFireProgress n _ _ | SReArmOneShot n _ => n
  | SRecordFire f => FireScheduleName f
  end.

Ltac sched_unfold :=
  unfold schedExec, Save, Create, Delete, BeginDelete, CompleteDelete, Claim, ClaimNow, SetEnabled,
    RecordFire, RecordFireStart, RecordFireProgress, ReArmOneShot.

(** All the paths of a call, each with its resulting store. *)
Ltac sched_paths :=
  sched_unfold; repeat case_match; simplify_eq/=; try done.

(** A call changes no other schedule. *)
Lemma schedExec_frame s op n :
  opName op ≠ n → scheds (schedExec s op).1 !! n = scheds s !! n.
Proof.
  intros Hn. destruct op; simpl in Hn; sched_paths; unfold put, putFire, remove; simpl;
    rewrite ?lookup_insert_ne, ?lookup_delete_ne by done; done.
Qed.

(** A refused call changes nothing. *)
Lemma schedExec_error s op s' e : schedExec s op = (s', RErr e) → s' = s.
Proof. destruct op; sched_paths; by intros [= <-]. Qed.

(** Runs preserve what every allowed call preserves, and every result is that of
    a call made in a state where it holds. *)
Lemma schedRun_inv (P : Store → Prop) (ok : SchedOp → Prop) s ops s' rs :
  (∀ s op, P s → ok op → P (schedExec s op).1) → P s → Forall ok ops → schedRun s ops = (s', rs) →
  P s' ∧ ∀ op r, (op, r) ∈ rs → ok op ∧ ∃ s0, P s0 ∧ (schedExec s0 op).2 = r.
Proof.
  intros Hstep. revert s s' rs. induction ops as [|op ops IH]; intros s s' rs HP Hok Hrun; simpl in Hrun.
  { simplify_eq. split; [done|]. by intros ?? ?%not_elem_of_nil. }
  apply Forall_cons in Hok as [Hop Hops]. pose proof (Hstep s op HP Hop) as H1.
  destruct (schedExec s op) as [s1 r] eqn:E. destruct (schedRun s1 ops) as [s2 rs'] eqn:E2. simplify_eq.
  destruct (IH s1 s' rs' H1 Hops E2) as [HP' Hrs]. split; [done|].
  intros op' r' [[= -> ->]|Hin]%elem_of_cons; [|by apply Hrs]. split; [done|]. exists s. by rewrite E.
Qed.

(** All the paths of a call about the record of [Hrec], and what it leaves
    there. *)
Ltac sched_at Hrec :=
  sched_unfold; rewrite ?Hrec; repeat (case_match; simplify_eq); simplify_eq/=;
  rewrite ?lookup_insert_eq, ?lookup_delete_eq.

(** ** At most one claim per slot *)

(** Calls that do not open a new slot for [name] after a claim at [now] that left
    the next one at [next]: the schedule is not deleted or re-armed, scheduled
    claims come before [next], and a manual claim is for the same instant. *)
Definition sameSlot (name : gostr) (now next : Time) (op : SchedOp) : Prop :=
  match op with
  | SDelete n | SCompleteDelete n _ | SReArmOneShot n _ => n ≠ name
  | SClaim n t _ => n = name → IsZero next = true ∨ (t < next)%Z
  | SClaimNow n t _ => n = name → t = now
  | _ => True
  end.

(** The slot is taken. *)
Definition slotTaken (name : gostr) (now next : Time) (s : Store) : Prop :=
  ∃ rec, scheds s !! name = Some rec ∧ NextFireAt (State rec) = next ∧ LastFireAt (State rec) = now.

Lemma slotTaken_refuses name now next s t n :
  slotTaken name now next s →
  ((IsZero next = true ∨ (t < next)%Z) → Claim s name t n = (s, RErr ErrScheduleNotFound)) ∧
  (ClaimNow s name now n = (s, RErr ErrScheduleNotFound)).
Proof.
  intros (rec & Hrec & Hn & Hl). unfold Claim, ClaimNow. rewrite Hrec, Hn, Hl, Z.eqb_refl. split.
  - intros Ht. destruct (negb _ || _) eqn:?; [done|].
    assert (IsZero next || (t <? next)%Z = true) as ->; [|done].
    destruct Ht as [->|?]; [done|]. apply orb_true_iff. right. by apply Z.ltb_lt.
  - by repeat case_match.
Qed.

Lemma slotTaken_step name now next s op :
  slotTaken name now next s → sameSlot name now next op → slotTaken name now next (schedExec s op).1.
Proof.
  intros Ht Hok. pose proof Ht as (rec & Hrec & Hn & Hl).
  destruct (decide (opName op = name)) as [Hop|Hop].
  2: { exists rec. by rewrite schedExec_frame. }
  destruct op as [v|v|n|n id|n id|n t nx|n t nx|n b|f|n f|n id t|n nx]; cbn in Hop, Hok; subst; try done.
  4: cbn [schedExec]; by rewrite (proj1 (slotTaken_refuses _ _ _ s t nx Ht)) by auto.
  4: cbn [schedExec]; rewrite Hok by done; by rewrite (proj2 (slotTaken_refuses _ _ _ s t nx Ht)).
  all: unfold slotTaken; sched_at Hrec; eexists; split_and!; [eassumption || reflexivity|..]; done.
Qed.

Lemma advance_fields now next st :
  NextFireAt (advance now next st) = next ∧ LastFireAt (advance now next st) = now ∧
  FireCount (advance now next st) = wrap64 (FireCount st + 1).
Proof. unfold advance. by destruct (IsZero next). Qed.

(** A call that claims [name] at [now] and moves its next slot to [next]. *)
Definition claims (name : gostr) (now next : Time) (op : SchedOp) : Prop :=
  op = SClaim name now next ∨ op = SClaimNow name now next.

Lemma claim_takes s name now next op s1 v :
  claims name now next op → schedExec s op = (s1, RSched v) → slotTaken name now next s1.
Proof.
  intros [-> | ->]; sched_unfold; repeat case_match; intros; simplify_eq; unfold slotTaken; simpl;
    rewrite lookup_insert_eq; (eexists; split; [reflexivity|]); destruct (advance_fields now next (State s0)); naive_solver.
Qed.

(** A slot is claimed at most once.  After a claim of a schedule, scheduled
    or manual, through any calls that do not open a new slot for it (no deletion
    or re-arm; scheduled claims before the next slot, or at any time when there
    is none; manual claims at the same instant), whatever else is saved, paused,
    resumed or recorded, every further claim of it is refused as not found. *)
Theorem schedule_slot_claimed_once s name now next op0 s1 v ops s2 rs :
  claims name now next op0 → schedExec s op0 = (s1, RSched v) →
  Forall (sameSlot name now next) ops → schedRun s1 ops = (s2, rs) →
  ∀ t n op r, claims name t n op → (op, r) ∈ rs → r = RErr ErrScheduleNotFound.
Proof.
  intros Hc H0 Hops Hrun t n op r Hop Hin.
  pose proof (claim_takes _ _ _ _ _ _ _ Hc H0) as Ht.
  destruct (schedRun_inv (slotTaken name now next) _ _ _ _ _
    (slotTaken_step name now next) Ht Hops Hrun) as [_ Hrs].
  destruct (Hrs op r Hin) as (Hok & s0 & Hs0 & <-).
  destruct (slotTaken_refuses name now next s0 t n Hs0) as [Hclaim Hnow].
  destruct Hop as [-> | ->]; cbn [schedExec]; cbn in Hok.
  - by rewrite Hclaim by auto.
  - by rewrite Hok, Hnow by done.
Qed.

(** ** Sample values *)

Definition sampleSpec (name : gostr) (maxFires : Z) : ScheduleSpec :=
  mkScheduleSpec name #"run" [] (mkTrigger #"0 * * * *" 0) (mkSelector [] []) [] (mkEnvRef [] [] []) []
    false ModeDefault (mkLimits 0 0 0) false maxFires MisfireFireOnceNow true [] 0 false 0 false [] None 0.

Definition sampleState (next : Time) : ScheduleState := mkScheduleState next 0 0 true [] [] 0 0 0 0.

Definition sampleStore (maxFires : Z) : Store :=
  (Create New (mkSchedule (sampleSpec #"nightly" maxFires) (sampleState 10))).1.

Definition sampleFire (stop : StopReason) : ScheduleFire :=
  mkFire #"f1" #"nightly" #"s1" 10 11 0 100 stop [].

Definition sampleRace : list SchedOp :=
  [SClaim #"nightly" 13 30; SSetEnabled #"nightly" true; SClaimNow #"nightly" 12 40;
   SRecordFireStart #"nightly" (sampleFire StopNone); SClaim #"nightly" 19 50].

Lemma schedule_slot_claimed_once_witness :
  let '(s1, r) := Claim (sampleStore 0) #"nightly" 12 20 in
  (∃ v, r = RSched v) ∧
  ((∀ t n op r', claims #"nightly" t n op → (op, r') ∈ (schedRun s1 sampleRace).2 →
    r' = RErr ErrScheduleNotFound)).
Proof.
  destruct (Claim (sampleStore 0) #"nightly" 12 20) as [s1 r] eqn:E.
  assert (Hr : ∃ v, r = RSched v) by (vm_compute in E; simplify_eq; eauto).
  split; [done|]. destruct Hr as [v ->].
  refine (schedule_slot_claimed_once (sampleStore 0) #"nightly" 12 20 (SClaim #"nightly" 12 20) s1 v sampleRace
    _ _ (or_introl eq_refl) E _ (surjective_pairing _)).
  repeat (apply Forall_cons; split); try apply Forall_nil; cbn; intros; try done; right; lia.
Defined.

(** [Due] and [Claim] agree: a schedule that is not marked for deletion can
    be claimed at [now] exactly when [Due] lists it, and the claim advances it
    before anything runs. *)
Theorem schedule_due_iff_claimable s name now next rec :
  scheds s !! name = Some rec → DeletionID (State rec) = [] →
  let rec' := mkSchedule (Spec rec) (advance now next (State rec)) in
  (rec ∈ Due s now ∧ Claim s name now next = (put s name rec', RSched rec')) ∨
  (rec ∉ Due s now ∧ Claim s name now next = (s, RErr ErrScheduleNotFound)).
Proof.
  intros Hrec Hd rec'. unfold Claim, Due, List. rewrite Hrec, Hd, list_elem_of_filter.
  destruct (isDue now rec) eqn:Hdue; [left|right].
  - split; [split; [done|]|].
    + apply list_elem_of_fmap. exists (name, rec). split; [done|]. by apply elem_of_map_to_list.
    + unfold isDue in Hdue. by repeat case_match; simplify_eq.
  - split; [naive_solver|]. unfold isDue in Hdue. by repeat case_match; simplify_eq.
Qed.

Lemma schedule_due_iff_claimable_witness :
  let rec := mkSchedule (sampleSpec #"nightly" 0) (sampleState 10) in
  rec ∈ Due (sampleStore 0) 10 ∧
  (Claim (sampleStore 0) #"nightly" 10 20).2 = RSched (mkSchedule (Spec rec) (advance 10 20 (State rec))).
Proof.
  destruct (schedule_due_iff_claimable (sampleStore 0) #"nightly" 10 20
    (mkSchedule (sampleSpec #"nightly" 0) (sampleState 10)) eq_refl eq_refl) as [[H1 H2]|[_ H2]].
  - split; [exact H1|]. by rewrite H2.
  - vm_compute in H2. discriminate.
Defined.

(** ** The fire budget *)

(** The schedule keeps its budget [m] and its counter. *)
Definition budgeted (name : gostr) (m : Z) (op : SchedOp) : Prop :=
  match op with
  | SSave v | SCreate v => SpName (Spec v) = name → SpMaxFires (Spec v) = m
  | SDelete n | SCompleteDelete n _ => n ≠ name
  | _ => True
  end.

(** The call was a claim of [name], and it got the slot. *)
Definition won (name : gostr) (x : SchedOp * SchedResult) : bool :=
  match x with
  | (SClaim n _ _, RSched _) | (SClaimNow n _ _, RSched _) => n =s name
  | _ => false
  end.

Definition wins (name : gostr) (rs : list (SchedOp * SchedResult)) : Z :=
  Z.of_nat (length (filter (λ x, won name x = true) rs)).

Lemma wins_cons name x rs : wins name (x :: rs) = ((if won name x then 1 else 0) + wins name rs)%Z.
Proof.
  unfold wins. rewrite filter_cons. destruct (won name x); simpl; [|lia]. lia.
Qed.

(** The record of [name] has budget [m], of which [k] are used. *)
Definition used (name : gostr) (m k : Z) (s : Store) : Prop :=
  ∃ rec, scheds s !! name = Some rec ∧ SpMaxFires (Spec rec) = m ∧ FireCount (State rec) = k.

(** What a claim does: nothing, or the advance of an enabled schedule under its
    budget. *)
Lemma claims_cases s name t nx op rec :
  claims name t nx op → scheds s !! name = Some rec →
  schedExec s op = (s, RErr ErrScheduleNotFound) ∨
  (Enabled (State rec) = true ∧ DeletionID (State rec) = [] ∧
   ((0 < SpMaxFires (Spec rec))%Z → (FireCount (State rec) < SpMaxFires (Spec rec))%Z) ∧
   let rec' := mkSchedule (Spec rec) (advance t nx (State rec)) in
   schedExec s op = (put s name rec', RSched rec')).
Proof.
  intros Hop Hrec. destruct Hop as [-> | ->]; sched_unfold; rewrite Hrec; simpl;
    repeat case_match; try (by left); right; bprop; destruct_and?; (split_and!; [done..| |done]); intros;
    bprop; lia.
Qed.

Lemma isClaim_dec op : (∃ t nx, claims (opName op) t nx op) ∨ ∀ n r, won n (op, r) = false.
Proof. destruct op; try (right; intros; by destruct r); left; eexists _, _; unfold claims; eauto. Qed.

Lemma won_claims n name t nx op r :
  claims name t nx op → won n (op, r) = match r with RSched _ => name =s n | _ => false end.
Proof. by intros [-> | ->]; destruct r. Qed.

(** The calls that are not claims keep the budget and the counter. *)
Lemma used_other name m k s op :
  used name m k s → budgeted name m op → (∀ n r, won n (op, r) = false) → used name m k (schedExec s op).1.
Proof.
  intros (rec & Hrec & Hmax & Hc) Hok Hw. destruct (decide (opName op = name)) as [Hop|Hop].
  2: { exists rec. by rewrite schedExec_frame. }
  destruct op as [v|v|n|n id|n id|n t nx|n t nx|n b|f|n f|n id t|n nx]; cbn in Hop, Hok; subst; try done.
  4,5: specialize (Hw name (RSched rec)); cbn in Hw; by case_bool_decide.
  all: unfold used; sched_at Hrec; eexists; split_and!; [eassumption || reflexivity|..]; try done; by apply Hok.
Qed.

Lemma used_step name m k s op :
  (0 < m < 2 ^ 63)%Z → (0 <= k <= m)%Z → used name m k s → budgeted name m op →
  let '(s1, r) := schedExec s op in
  let d := if won name (op, r) then 1%Z else 0%Z in used name m (k + d) s1 ∧ (k + d <= m)%Z.
Proof.
  intros Hm Hk Hu Hok. destruct (isClaim_dec op) as [(t & nx & Hcl)|Hw].
  2: { pose proof (used_other name m k s op Hu Hok Hw) as Hu'. destruct (schedExec s op).
    rewrite Hw. simpl. rewrite Z.add_0_r. by split; [|lia]. }
  pose proof Hu as (rec & Hrec & Hmax & Hc). destruct (decide (opName op = name)) as [Hop|Hop].
  - rewrite Hop in Hcl. destruct (claims_cases s name t nx op rec Hcl Hrec) as [-> |(_ & _ & Hlt & ->)].
    + rewrite (won_claims _ _ _ _ _ _ Hcl). simpl. rewrite Z.add_0_r. by split; [|lia].
    + rewrite (won_claims _ _ _ _ _ _ Hcl), bool_decide_true by done. simpl. split; [|lia].
      exists (mkSchedule (Spec rec) (advance t nx (State rec))). simpl. rewrite lookup_insert_eq.
      split_and!; [done..|]. rewrite (proj2 (proj2 (advance_fields t nx (State rec)))), Hc.
      apply wrap64_id. unfold int64. lia.
  - pose proof (schedExec_frame s op name Hop) as Hf. destruct (schedExec s op) as [s1 r]. simpl in Hf.
    rewrite (won_claims _ _ _ _ _ _ Hcl), (bool_decide_false (opName op = name)) by done.
    assert (Hd : (k + (if match r with RSched _ => false | _ => false end then 1 else 0))%Z = k)
      by (destruct r; lia). cbv zeta. rewrite Hd. split; [|lia]. exists rec. by rewrite Hf.
Qed.

(** The fire budget bounds the fires.  While a schedule keeps a positive
    [MaxFires] and is not deleted, through any calls the counter grows by exactly
    the claims that won, scheduled or manual, and never passes [MaxFires]: no more
    claims win than were left, and the counter does not overflow. *)
Theorem schedule_fire_budget s name m k ops s' rs :
  (0 < m < 2 ^ 63)%Z → (0 <= k <= m)%Z → used name m k s → Forall (budgeted name m) ops →
  schedRun s ops = (s', rs) → used name m (k + wins name rs) s' ∧ (k + wins name rs <= m)%Z.
Proof.
  intros Hm. revert s k rs. induction ops as [|op ops IH]; intros s k rs Hk Hu Hops Hrun; simpl in Hrun.
  { simplify_eq. unfold wins. simpl. rewrite Z.add_0_r. by split; [|lia]. }
  apply Forall_cons in Hops as [Hop Hops]. pose proof (used_step name m k s op Hm Hk Hu Hop) as Hs.
  destruct (schedExec s op) as [s1 r]. destruct (schedRun s1 ops) as [s2 rs'] eqn:E. simplify_eq.
  destruct Hs as [Hu1 Hle]. rewrite wins_cons, Z.add_assoc.
  apply (IH s1 (k + (if won name (op, r) then 1 else 0))%Z rs'); try done. destruct (won name (op, r)); lia.
Qed.

Lemma schedule_fire_budget_witness :
  wins #"nightly" (schedRun (sampleStore 2)
    [SClaim #"nightly" 10 20; SClaim #"nightly" 20 30; SClaim #"nightly" 30 40; SClaimNow #"nightly" 31 50]).2
  = 2%Z ∧
  used #"nightly" 2 (0 + 2) (schedRun (sampleStore 2)
    [SClaim #"nightly" 10 20; SClaim #"nightly" 20 30; SClaim #"nightly" 30 40; SClaimNow #"nightly" 31 50]).1.
Proof.
  split; [vm_compute; reflexivity|].
  destruct (schedule_fire_budget (sampleStore 2) #"nightly" 2 0
    [SClaim #"nightly" 10 20; SClaim #"nightly" 20 30; SClaim #"nightly" 30 40; SClaimNow #"nightly" 31 50]
    _ _ ltac:(lia) ltac:(lia) ltac:(eexists; split_and!; [vm_compute; reflexivity|done|done])
    ltac:(repeat (apply Forall_cons; split); try apply Forall_nil; done)
    (surjective_pairing _)) as [H _]. exact H.
Defined.

(** ** Deletion *)

(** The record of [name] is marked by [id]; only the bookkeeping of its last fire
    may differ from [rec]. *)
Definition marked (name id : gostr) (rec : Schedule) (s : Store) : Prop :=
  ∃ rec', scheds s !! name = Some rec' ∧ Spec rec' = Spec rec ∧ DeletionID (State rec') = id ∧
    NextFireAt (State rec') = NextFireAt (State rec) ∧ LastFireAt (State rec') = LastFireAt (State rec) ∧
    FireCount (State rec') = FireCount (State rec) ∧ Enabled (State rec') = Enabled (State rec) ∧
    OneShotRetryCount (State rec') = OneShotRetryCount (State rec).

(** Calls that would use, change or drop a schedule. *)
Definition operates (name : gostr) (op : SchedOp) : bool :=
  match op with
  | SSave v | SCreate v => SpName (Spec v) =s name
  | SDelete n | SCompleteDelete n _ | SClaim n _ _ | SClaimNow n _ _ | SSetEnabled n _ | SReArmOneShot n _ => n =s name
  | _ => false
  end.

Definition isErr (r : SchedResult) : bool := match r with RErr _ => true | _ => false end.

Lemma marked_refuses name id rec s op :
  id ≠ [] → marked name id rec s → op ≠ SCompleteDelete name id → operates name op = true →
  ∃ e, schedExec s op = (s, RErr e).
Proof.
  intros Hid (rec' & Hrec & _ & Hd & _) Hne Hop.
  assert (Hb : (DeletionID (State rec') =s []) = false) by (apply bool_decide_false; congruence).
  assert (HC : ∀ t nx, claims name t nx op → ∃ e, schedExec s op = (s, RErr e)).
  { intros t nx Hcl. destruct (claims_cases s name t nx op rec' Hcl Hrec) as [->|(_ & ? & _)]; [by eauto|congruence]. }
  destruct op; cbn in Hop; try done; apply bool_decide_eq_true in Hop; subst; cbn [schedExec];
    try (eapply HC; unfold claims; by eauto);
    unfold Save, Create, Delete, CompleteDelete, SetEnabled, ReArmOneShot; rewrite Hrec, ?Hb; simpl; eauto.
  case_match; [by eauto|]. bprop. naive_solver.
Qed.

Lemma marked_step name id rec s op :
  id ≠ [] → marked name id rec s → op ≠ SCompleteDelete name id → marked name id rec (schedExec s op).1.
Proof.
  intros Hid Hm Hne. destruct (operates name op) eqn:Hop.
  { by destruct (marked_refuses name id rec s op Hid Hm Hne Hop) as [e ->]. }
  pose proof Hm as (rec' & Hrec & Hs & Hd & Hf).
  destruct (decide (opName op = name)) as [Hn|Hn].
  2: { exists rec'. by rewrite schedExec_frame. }
  destruct op; cbn in Hop, Hn; rewrite ?(bool_decide_true (_ = name)) in Hop by done; try done; subst;
    unfold marked; sched_at Hrec; bprop; try done; eexists; split_and!; [eassumption || reflexivity|..]; naive_solver.
Qed.

Lemma BeginDelete_stored s name id s1 rec :
  BeginDelete s name id = (s1, RSched rec) → scheds s1 !! name = Some rec.
Proof.
  unfold BeginDelete. repeat case_match; intros; simplify_eq/=; [done|]. by rewrite lookup_insert_eq.
Qed.

(** A deletion mark fences the schedule.  [BeginDelete] leaves a schedule with
    no fire under way disabled and marked by the caller's id.  From then on,
    through any calls other than the completion that names this id, the record
    stays with its specification, slot, counters and mark; every attempt to
    claim, overwrite, pause, resume, re-arm or drop it fails; and the completion
    that names the id removes it. *)
Theorem schedule_deletion_fence s name id s1 rec ops s2 rs :
  BeginDelete s name id = (s1, RSched rec) → id ≠ [] → DeletionID (State rec) = id →
  Forall (λ op, op ≠ SCompleteDelete name id) ops → schedRun s1 ops = (s2, rs) →
  marked name id rec s2 ∧
  (∀ op r, (op, r) ∈ rs → operates name op = true → isErr r = true) ∧
  CompleteDelete s2 name id = (remove s2 name, ROk).
Proof.
  intros Hb Hid Hd Hops Hrun.
  assert (Hm : marked name id rec s1).
  { exists rec. split_and!; try done. by eapply BeginDelete_stored. }
  destruct (schedRun_inv (marked name id rec) _ _ _ _ _
    (λ s op Hs Hop, marked_step name id rec s op Hid Hs Hop) Hm Hops Hrun) as [Hm2 Hrs].
  split_and!; [done| |].
  - intros op r Hin Hop. destruct (Hrs op r Hin) as (Hne & s0 & Hs0 & <-).
    by destruct (marked_refuses name id rec s0 op Hid Hs0 Hne Hop) as [e ->].
  - destruct Hm2 as (rec' & Hrec & _ & Hd' & _). unfold CompleteDelete. rewrite Hrec, Hd'.
    by rewrite (bool_decide_false (id = [])), bool_decide_true by done.
Qed.

Definition sampleDuringDelete : list SchedOp :=
  [SClaim #"nightly" 10 20; SSetEnabled #"nightly" true; SCompleteDelete #"nightly" #"other";
   SDelete #"nightly"; SRecordFire (sampleFire StopEndTurn)].

Lemma schedule_deletion_fence_witness :
  let '(s1, r) := BeginDelete (sampleStore 0) #"nightly" #"del-1" in
  ∃ rec, r = RSched rec ∧
  let s2 := (schedRun s1 sampleDuringDelete).1 in
  marked #"nightly" #"del-1" rec s2 ∧ CompleteDelete s2 #"nightly" #"del-1" = (remove s2 #"nightly", ROk).
Proof.
  destruct (BeginDelete (sampleStore 0) #"nightly" #"del-1") as [s1 r] eqn:E.
  assert (Hr : ∃ v, r = RSched v ∧ DeletionID (State v) = #"del-1") by (vm_compute in E; simplify_eq; eauto).
  destruct Hr as (rec & -> & Hd). exists rec. split; [done|].
  destruct (schedule_deletion_fence (sampleStore 0) #"nightly" #"del-1" s1 rec sampleDuringDelete
    (schedRun s1 sampleDuringDelete).1 (schedRun s1 sampleDuringDelete).2 E ltac:(done) Hd
    ltac:(repeat (apply Forall_cons; split); try apply Forall_nil; done)
    (surjective_pairing _)) as (H1 & _ & H3). by split.
Defined.

(** ** Fires *)

(** The fire a call records. *)
Definition recordsFire (id : gostr) (op : SchedOp) : bool :=
  match op with
  | SRecordFire f | SRecordFireStart _ f => FireID f =s id
  | _ => false
  end.

(** How a call may change the record of a fire that is under way or ended: an
    ended fire never changes, and unless the call records the fire anew only its
    progress moves, forwards. *)
Lemma schedExec_fire s op id f :
  fires s !! id = Some f →
  ∃ f', fires (schedExec s op).1 !! id = Some f' ∧
    (FireStop f ≠ StopNone → f' = f) ∧
    (recordsFire id op = false → f' = f ∨ ∃ t, f' = setFireProgress t f ∧ (FireProgressAt f < t)%Z).
Proof.
  intros Hf.
  destruct op as [v|v|n|n i|n i|n t nx|n t nx|n b|g|n g|n i t|n nx]; cbn [recordsFire];
    try (exists f; split; [|by auto]; by sched_paths).
  - unfold schedExec, RecordFire, terminalFire. destruct (decide (FireID g = id)) as [<-|Hne].
    + rewrite Hf. destruct (decide (FireStop f = StopNone)) as [Hs|Hs].
      * rewrite (bool_decide_true (_ = StopNone)), (bool_decide_true (_ = FireID g)) by done. simpl.
        case_match; simpl; rewrite ?lookup_insert_eq; eexists; (split; [done|]); naive_solver.
      * rewrite (bool_decide_false (_ = StopNone)) by done. exists f. auto.
    + exists f. split; [|auto]. repeat case_match; simpl; rewrite ?lookup_insert_ne by done; done.
  - unfold schedExec, RecordFireStart, terminalFire. destruct (decide (FireID g = id)) as [<-|Hne].
    + rewrite Hf. destruct (decide (FireStop f = StopNone)) as [Hs|Hs].
      * rewrite (bool_decide_true (_ = StopNone)), (bool_decide_true (_ = FireID g)) by done. simpl.
        repeat case_match; simpl; rewrite ?lookup_insert_eq; eexists; (split; [done|]); naive_solver.
      * rewrite (bool_decide_false (_ = StopNone)) by done. exists f. by case_match; auto.
    + exists f. split; [|auto]. repeat case_match; simpl; rewrite ?lookup_insert_ne by done; done.
  - unfold schedExec, RecordFireProgress. destruct (scheds s !! n) as [rec|]; [|exists f; auto].
    cbv zeta. match goal with |- context [fires ?x !! i] => set (s1 := x) end.
    assert (Hs1 : fires s1 = fires s) by (subst s1; by case_match). clearbody s1. rewrite Hs1.
    destruct (decide (i = id)) as [->|Hne].
    + rewrite Hf. destruct (decide (FireStop f = StopNone)) as [Hs|Hs].
      * rewrite (bool_decide_true (_ = StopNone)) by done. simpl. destruct (negb _ && _) eqn:Et; unfold putFire; cbn [fst fires]; rewrite ?Hs1.
        -- rewrite lookup_insert_eq. eexists. split; [done|]. split; [done|]. intros _. right. exists t.
           split; [done|]. bprop. destruct_and?. bprop. lia.
        -- exists f. auto.
      * rewrite (bool_decide_false (_ = StopNone)) by done. exists f. simpl. rewrite Hs1. auto.
    + exists f. split; [|auto]. repeat case_match; simpl; rewrite ?Hs1, ?lookup_insert_ne by done; done.
Qed.

(** A fire that ended is final and progress never runs backwards: through any
    calls, a fire recorded with a stop reason keeps its record exactly; one that is
    under way and is not recorded anew keeps every field except its progress, which
    only grows. *)
Theorem schedule_fire_final s id f ops :
  fires s !! id = Some f →
  ∃ f', fires (schedRun s ops).1 !! id = Some f' ∧
    (FireStop f ≠ StopNone → f' = f) ∧
    (Forall (λ op, recordsFire id op = false) ops →
     f' = setFireProgress (FireProgressAt f') f ∧ (FireProgressAt f <= FireProgressAt f')%Z).
Proof.
  revert s f. induction ops as [|op ops IH]; intros s f Hf; simpl.
  { exists f. split_and!; [done..|]. intros _. destruct f; simpl; split; [done|lia]. }
  destruct (schedExec_fire s op id f Hf) as (f1 & Hf1 & Hterm & Hstep).
  destruct (schedExec s op) as [s1 r]. simpl in Hf1. destruct (IH s1 f1 Hf1) as (f2 & Hf2 & Hterm2 & Hp2).
  destruct (schedRun s1 ops) as [s2 rs]. simpl in *. exists f2. split_and!; [done| |].
  - intros Hs. rewrite Hterm2, Hterm; try done. by rewrite Hterm.
  - intros [Hop Hops]%Forall_cons. destruct (Hp2 Hops) as [-> Hle].
    destruct (Hstep Hop) as [->|(t & -> & Ht)]; destruct f; simpl in *; split; try done; lia.
Qed.

Lemma schedule_fire_final_witness :
  let s := (schedRun (sampleStore 0) [SRecordFireStart #"nightly" (sampleFire StopNone)]).1 in
  ∃ f', fires (schedRun s [SRecordFireProgress #"nightly" #"f1" 40; SRecordFireProgress #"nightly" #"f1" 30]).1
    !! #"f1" = Some f' ∧ f' = setFireProgress (FireProgressAt f') (sampleFire StopNone) ∧ FireProgressAt f' = 40%Z.
Proof.
  intros s. assert (Hf : fires s !! #"f1" = Some (sampleFire StopNone)) by (vm_compute; reflexivity).
  destruct (schedule_fire_final s #"f1" (sampleFire StopNone)
    [SRecordFireProgress #"nightly" #"f1" 40; SRecordFireProgress #"nightly" #"f1" 30] Hf) as (f' & Hf' & _ & Hp).
  exists f'. split; [exact Hf'|]. split; [apply Hp; repeat (apply Forall_cons; split); try apply Forall_nil; done|].
  vm_compute in Hf'. simplify_eq. reflexivity.
Defined.

(** ** The store's invariant *)

Definition storeOk (s : Store) : Prop :=
  (∀ n rec, scheds s !! n = Some rec →
     SpName (Spec rec) = n ∧ int64 (FireCount (State rec)) ∧
     (DeletionID (State rec) ≠ [] → Enabled (State rec) = false)) ∧
  (∀ id f, fires s !! id = Some f → FireID f = id).

(** New schedules come unmarked, with a counter that is an int. *)
Definition cleanInput (op : SchedOp) : Prop :=
  match op with
  | SSave v | SCreate v => DeletionID (State v) = [] ∧ int64 (FireCount (State v))
  | _ => True
  end.

(** Both halves survive an update of one entry. *)
Lemma storeOk_put s n rec :
  storeOk s → SpName (Spec rec) = n → int64 (FireCount (State rec)) →
  (DeletionID (State rec) ≠ [] → Enabled (State rec) = false) → storeOk (put s n rec).
Proof.
  intros [H1 H2] Hn Hi Hd. split; [|done]. intros n' rec'. simpl.
  rewrite lookup_insert_Some. intros [[<- <-]|[_ H]]; [done|by apply H1].
Qed.

Lemma storeOk_putFire s id f : storeOk s → FireID f = id → storeOk (putFire s id f).
Proof.
  intros [H1 H2] Hid. split; [done|]. intros id' f'. simpl.
  rewrite lookup_insert_Some. intros [[<- <-]|[_ H]]; [done|by apply H2].
Qed.

Lemma storeOk_remove s n : storeOk s → storeOk (remove s n).
Proof. intros [H1 H2]. split; [|done]. intros n' rec'. simpl. rewrite lookup_delete_Some. intros [_ H]. by apply H1. Qed.

Lemma initialState_clean st : DeletionID (initialState st) = DeletionID st ∧ FireCount (initialState st) = FireCount st.
Proof. unfold initialState. by case_match. Qed.

Lemma advance_clean now next st :
  DeletionID (advance now next st) = DeletionID st ∧ int64 (FireCount (advance now next st)).
Proof.
  destruct (advance_fields now next st) as (_ & _ & ->). split; [|apply wrap64_range].
  unfold advance. by case_match.
Qed.

Lemma storeOk_step s op : storeOk s → cleanInput op → storeOk (schedExec s op).1.
Proof.
  intros Hs Hin. destruct (scheds s !! opName op) as [rec|] eqn:Hrec.
  2: { destruct op; cbn in Hin, Hrec; sched_unfold; rewrite ?Hrec; repeat case_match; try done;
    try (by apply storeOk_remove); apply storeOk_put; cbn; try done;
    destruct (initialState_clean (State v)) as [HA HB]; rewrite ?HA, ?HB; naive_solver. }
  destruct (proj1 Hs _ _ Hrec) as (Hn & Hi & Hd).
  destruct op as [v|v|n|n i|n i|n t nx|n t nx|n b|g|n g|n i t|n nx]; cbn in Hin, Hrec, Hn; sched_unfold;
    rewrite ?Hrec; repeat case_match; simplify_eq/=; try done; try (by apply storeOk_remove); bprop;
    repeat first [apply storeOk_putFire | apply storeOk_put]; cbn; try done; try tauto; try congruence;
    try (match goal with |- context [advance ?a ?b ?c] => destruct (advance_clean a b c) as [HA HB] end;
         rewrite ?HA; bprop; destruct_and?; bprop; tauto);
    by apply Hs.
Qed.

(** The store's invariant, through any calls on an empty store: every schedule
    is stored under its own name with a counter in range, every fire under its
    own id, and a schedule marked for deletion is disabled, so [Due] never lists
    one. *)
Theorem schedule_store_invariant ops :
  Forall cleanInput ops → let s := (schedRun New ops).1 in
  storeOk s ∧ ∀ now rec, rec ∈ Due s now → scheds s !! SpName (Spec rec) = Some rec ∧ DeletionID (State rec) = [].
Proof.
  intros Hops s. destruct (schedRun_inv storeOk cleanInput New ops s (schedRun New ops).2 storeOk_step) as [Hs _].
  { split; intros ??; unfold New; cbn [scheds fires]; by rewrite lookup_empty. } { done. } { by rewrite (surjective_pairing (schedRun New ops)). }
  split; [done|]. intros now rec. unfold Due, List. rewrite list_elem_of_filter, list_elem_of_fmap.
  intros [Hdue ([n r] & -> & Hin%elem_of_map_to_list)]. simpl in *.
  destruct (proj1 Hs n r Hin) as (-> & _ & Hd). split; [done|].
  destruct (decide (DeletionID (State r) = [])) as [|Hne]; [done|]. exfalso. apply Hd in Hne.
  unfold isDue in Hdue. by rewrite Hne in Hdue.
Qed.

Lemma schedule_store_invariant_witness :
  storeOk (schedRun New (SCreate (mkSchedule (sampleSpec #"nightly" 0) (sampleState 10)) :: sampleRace)).1.
Proof.
  apply (schedule_store_invariant (SCreate (mkSchedule (sampleSpec #"nightly" 0) (sampleState 10)) :: sampleRace)).
  repeat (apply Forall_cons; split); try apply Forall_nil; try done.
Defined.
