(* ===== verification/Steer.v ===== *)
(** * The steer inbox of a run

    [engine/agent/steer.go]: the slot that parks an operator's instructions while a
    run is under way.  Every method that takes the mutex is one atomic step; the
    goroutines of a run interleave such steps ([SteerStep], [steerRun]).  Draining
    and closing at the end of a run ([closeSteerDrained]) are two steps, with the
    record of the drained steer between them.

    Texts are valid UTF-8, so [session.ToValidUTF8] is the identity.  A run without
    an inbox is [None]. *)

From S2P Require Import Prelude Conversation Session Media.

Inductive SteerOutcome := SteerAccepted | SteerAppended | SteerRetracted | SteerNonePending | SteerTooLate.
#[global] Instance SteerOutcome_eq_dec : EqDecision SteerOutcome.
Proof. solve_decision. Defined.

Record steerContent := mkSteer { stext : gostr; sparts : list Content; smessageID : gostr }.
Definition noSteer : steerContent := mkSteer [] [] [].

Record steerInbox := mkInbox { closed : bool; pending : steerContent; has : bool }.
Definition newSteerInbox : steerInbox := mkInbox false noSteer false.

Inductive SteerError := SteerEmpty | SteerParts (e : ContentError) | SteerCombined (e : ContentError).

Definition blankLine : gostr := [newline; newline].

(** The merge of a second steer into the pending one. *)
Definition appendSteer (p x : steerContent) : steerContent :=
  let sep := if negb (stext p =s []) && negb (stext x =s []) then blankLine else [] in
  mkSteer (stext p ++ sep ++ stext x) (sparts p ++ sparts x) (smessageID x).

Definition EnqueueSteerWithMessageID (b : option steerInbox) (text : gostr) (parts : list Content)
    (messageID : gostr) : option steerInbox * SteerOutcome * option SteerError :=
  match b with
  | None => (None, SteerTooLate, None)
  | Some b =>
      if (text =s []) && (length parts =? 0) then (Some b, SteerTooLate, Some SteerEmpty)
      else match ValidateMediaParts parts with
      | Some e => (Some b, SteerTooLate, Some (SteerParts e))
      | None =>
          if closed b then (Some b, SteerTooLate, None)
          else if has b then
            match ValidateMediaParts (sparts (pending b) ++ parts) with
            | Some e => (Some b, SteerTooLate, Some (SteerCombined e))
            | None =>
                (Some (mkInbox (closed b) (appendSteer (pending b) (mkSteer text parts messageID)) (has b)),
                 SteerAppended, None)
            end
          else (Some (mkInbox (closed b) (mkSteer text parts messageID) true), SteerAccepted, None)
      end
  end.

Definition EnqueueSteer (b : option steerInbox) (text : gostr) (parts : list Content) :=
  EnqueueSteerWithMessageID b text parts [].

Definition cancelSteer (b : option steerInbox) : option steerInbox * SteerOutcome :=
  match b with
  | None => (None, SteerNonePending)
  | Some b => if negb (has b) then (Some b, SteerNonePending)
              else (Some (mkInbox (closed b) noSteer false), SteerRetracted)
  end.

Definition drainSteer (b : option steerInbox) : option steerInbox * option steerContent :=
  match b with
  | None => (None, None)
  | Some b => if negb (has b) then (Some b, None)
              else (Some (mkInbox (closed b) noSteer false), Some (pending b))
  end.

Definition hasSteer (b : option steerInbox) : bool := match b with None => false | Some b => has b end.

Definition closeSteer (b : option steerInbox) : option steerInbox :=
  match b with None => None | Some b => Some (mkInbox true (pending b) (has b)) end.

(** ** Recording a drained steer *)

(** The record of [commitSteer]: a root run ([Role] empty) records it as the
    principal's, a child run does not.  The events and the save that follow do not
    change the session. *)
Definition commitSteer (role : gostr) (s : Session) (c : steerContent) : Session * option SessionError :=
  if role =s [] then RecordPrincipalPromptWithParts s (stext c) (sparts c) []
  else RecordUserPromptWithParts s (stext c) (sparts c) [].

(** The drain at a turn boundary. *)
Definition drainPendingSteer (role : gostr) (b : option steerInbox) (s : Session) :
    option steerInbox * (Session * option SessionError) :=
  match drainSteer b with
  | (b', None) => (b', (s, None))
  | (b', Some c) => (b', commitSteer role s c)
  end.

(** ** Runs of atomic steps *)

Inductive SteerStep :=
  | SEnqueue (text : gostr) (parts : list Content) (messageID : gostr)
  | SCancel
  | SDrain
  | SClose.

Inductive SteerResult :=
  | ROutcome (o : SteerOutcome) (e : option SteerError)
  | RDrained (c : option steerContent)
  | RDone.

Definition steerStep (b : option steerInbox) (st : SteerStep) : option steerInbox * SteerResult :=
  match st with
  | SEnqueue t p m => let '(b', o, e) := EnqueueSteerWithMessageID b t p m in (b', ROutcome o e)
  | SCancel => let '(b', o) := cancelSteer b in (b', ROutcome o None)
  | SDrain => let '(b', c) := drainSteer b in (b', RDrained c)
  | SClose => (closeSteer b, RDone)
  end.

Fixpoint steerRun (b : option steerInbox) (sts : list SteerStep) : option steerInbox * list SteerResult :=
  match sts with
  | [] => (b, [])
  | st :: sts' =>
      let '(b1, r) := steerStep b st in
      let '(b2, rs) := steerRun b1 sts' in (b2, r :: rs)
  end.

(** The steps of [closeSteerDrained] when the record succeeds. *)
Definition closeSteerDrained : list SteerStep := [SDrain; SClose].

(** ** The specification: a queue of submissions *)

Record SteerQueue := mkQueue { qclosed : bool; queue : list steerContent }.

(** The queue as one instruction: the texts that are not empty, separated by blank
    lines, all the parts in order, and the last message id. *)
Definition bundle (q : list steerContent) : steerContent :=
  mkSteer (Join (filter (λ t, t ≠ []) (stext <$> q)) blankLine) (concat (sparts <$> q))
    (default [] (smessageID <$> last q)).

Definition queueStep (q : SteerQueue) (st : SteerStep) : SteerQueue * SteerResult :=
  match st with
  | SEnqueue t p m =>
      let x := mkSteer t p m in
      if (t =s []) && (length p =? 0) then (q, ROutcome SteerTooLate (Some SteerEmpty))
      else match ValidateMediaParts p with
      | Some e => (q, ROutcome SteerTooLate (Some (SteerParts e)))
      | None =>
          if qclosed q then (q, ROutcome SteerTooLate None)
          else match queue q with
          | [] => (mkQueue false [x], ROutcome SteerAccepted None)
          | _ => match ValidateMediaParts (concat (sparts <$> queue q) ++ p) with
                 | Some e => (q, ROutcome SteerTooLate (Some (SteerCombined e)))
                 | None => (mkQueue false (queue q ++ [x]), ROutcome SteerAppended None)
                 end
          end
      end
  | SCancel => match queue q with
               | [] => (q, ROutcome SteerNonePending None)
               | _ => (mkQueue (qclosed q) [], ROutcome SteerRetracted None)
               end
  | SDrain => match queue q with
              | [] => (q, RDrained None)
              | l => (mkQueue (qclosed q) [], RDrained (Some (bundle l)))
              end
  | SClose => (mkQueue true (queue q), RDone)
  end.

Fixpoint queueRun (q : SteerQueue) (sts : list SteerStep) : SteerQueue * list SteerResult :=
  match sts with
  | [] => (q, [])
  | st :: sts' =>
      let '(q1, r) := queueStep q st in
      let '(q2, rs) := queueRun q1 sts' in (q2, r :: rs)
  end.

(** ** Refinement *)

Definition inboxOf (q : SteerQueue) (b : steerInbox) : Prop :=
  closed b = qclosed q ∧
  match queue q with
  | [] => has b = false
  | l => has b = true ∧ pending b = bundle l
  end.

Lemma Join_snoc (ls : list gostr) x sep :
  ls ≠ [] → Join (ls ++ [x]) sep = Join ls sep ++ sep ++ x.
Proof.
  induction ls as [|l ls IH]; [done|]. intros _. destruct ls as [|l' ls]; [done|].
  cbn [app]. cbn [app] in IH. change (Join (l :: l' :: ls ++ [x]) sep) with (l ++ sep ++ Join (l' :: ls ++ [x]) sep).
  rewrite IH by done. change (Join (l :: l' :: ls) sep) with (l ++ sep ++ Join (l' :: ls) sep). by rewrite !app_assoc.
Qed.

Lemma Join_filter_nil (ls : list gostr) sep : Join (filter (λ t, t ≠ []) ls) sep = [] → filter (λ t, t ≠ []) ls = [].
Proof.
  intros H. destruct (filter (λ t : gostr, t ≠ []) ls) as [|f fs] eqn:E; [done|].
  assert (Hf : f ∈ filter (λ t : gostr, t ≠ []) ls) by (rewrite E; apply list_elem_of_here).
  apply list_elem_of_filter in Hf as [Hf _]. destruct fs; simpl in H; [done|].
  apply app_nil in H as [? _]. done.
Qed.

(** One more submission on the slot is one more element of the queue. *)
Lemma append_bundle q x : appendSteer (bundle q) x = bundle (q ++ [x]).
Proof.
  unfold appendSteer, bundle. cbn [stext sparts smessageID].
  rewrite !fmap_app, concat_app, last_snoc, filter_app. csimpl. rewrite app_nil_r. f_equal.
  set (ls := filter _ (stext <$> q)). destruct (decide (stext x = [])) as [Hx|Hx].
  - rewrite (bool_decide_true (stext x = [])) by done. rewrite andb_false_r, Hx, filter_cons_False by naive_solver.
    by rewrite filter_nil, !app_nil_r.
  - rewrite (bool_decide_false (stext x = [])) by done. rewrite filter_cons_True, filter_nil by done.
    destruct (decide (ls = [])) as [->|Hl]; [done|]. rewrite Join_snoc by done.
    rewrite bool_decide_false; [done|]. intros H. by apply Hl, (Join_filter_nil _ blankLine).
Qed.

Lemma bundle_one x : bundle [x] = x.
Proof.
  destruct x as [t p m]. unfold bundle. rewrite !list_fmap_singleton. cbn [stext sparts concat].
  rewrite app_nil_r. f_equal. destruct (decide (t = [])) as [-> |Ht]; [done|]. by rewrite filter_cons_True.
Qed.

Lemma steerStep_refines q b st :
  inboxOf q b →
  ∃ b', (steerStep (Some b) st).1 = Some b' ∧ inboxOf (queueStep q st).1 b' ∧
    (steerStep (Some b) st).2 = (queueStep q st).2.
Proof.
  intros [Hc Hq]. destruct st as [t p m| | |]; simpl.
  - destruct ((t =s []) && (length p =? 0)); [by exists b|]. destruct (ValidateMediaParts p); [by exists b|].
    rewrite Hc. destruct (qclosed q) eqn:Eq; [exists b; split_and!; [done|split; cbn [fst]; [congruence|done]|done]|].
    destruct (queue q) as [|x l] eqn:El.
    + rewrite Hq. eexists. split_and!; [done| |done]. split; [done|]. cbn [fst queue has pending]. by rewrite bundle_one.
    + destruct Hq as [Hh Hp]. rewrite Hh, Hp. change (sparts (bundle (x :: l))) with (concat (sparts <$> (x :: l))).
      destruct (ValidateMediaParts _).
      { exists b. split_and!; [done| |done]. split; cbn [fst]; [congruence|]. by rewrite El. }
      eexists. split_and!; [done| |done]. split; [done|]. cbn [fst queue has pending]. by rewrite append_bundle.
  - destruct (queue q) as [|x l] eqn:El.
    + rewrite Hq. exists b. split_and!; [done| |done]. split; cbn [fst]; [done|]. by rewrite El.
    + destruct Hq as [Hh Hp]. rewrite Hh, ?Hp. eexists. split_and!; [done| |done]. by split.
  - destruct (queue q) as [|x l] eqn:El.
    + rewrite Hq. exists b. split_and!; [done| |done]. split; cbn [fst]; [done|]. by rewrite El.
    + destruct Hq as [Hh Hp]. rewrite Hh, ?Hp. eexists. split_and!; [done| |done]. by split.
  - eexists. split_and!; [done| |done]. by split.
Qed.

Lemma steerRun_refines q b sts :
  inboxOf q b →
  ∃ b', (steerRun (Some b) sts).1 = Some b' ∧ inboxOf (queueRun q sts).1 b' ∧
    (steerRun (Some b) sts).2 = (queueRun q sts).2.
Proof.
  revert q b. induction sts as [|st sts IH]; intros q b Hb; simpl; [by exists b|].
  destruct (steerStep_refines q b st Hb) as (b1 & H1 & H2 & H3).
  destruct (steerStep (Some b) st) as [b1' r], (queueStep q st) as [q1 r']. simpl in *. subst.
  destruct (IH q1 b1 H2) as (b2 & H4 & H5 & H6).
  destruct (steerRun (Some b1) sts), (queueRun q1 sts). simpl in *. subst. by exists b2.
Qed.

(** The single slot of the inbox refines a queue: through any interleaving of
    submissions, cancellations, drains and closes, every outcome is that of a queue
    that collects the accepted and appended submissions, and a drain delivers all
    of them as one instruction: their texts separated by blank lines, their parts
    in order, and the last message id. *)
Theorem steer_refines_queue sts :
  ∃ b, (steerRun (Some newSteerInbox) sts).1 = Some b ∧ inboxOf (queueRun (mkQueue false []) sts).1 b ∧
    (steerRun (Some newSteerInbox) sts).2 = (queueRun (mkQueue false []) sts).2.
Proof. by apply steerRun_refines. Qed.

(** ** No submission is dropped *)

(** What one step takes in, and what it settles: a drain settles the pending
    submissions with the instruction it delivers, a cancellation without one. *)
Definition takes (st : SteerStep) (r : SteerResult) : list steerContent :=
  match st, r with
  | SEnqueue t p m, ROutcome o _ =>
      if decide (o = SteerAccepted ∨ o = SteerAppended) then [mkSteer t p m] else []
  | _, _ => []
  end.

Definition settles (r : SteerResult) : list (option steerContent) :=
  match r with
  | RDrained (Some c) => [Some c]
  | ROutcome SteerRetracted _ => [None]
  | _ => []
  end.

Definition taken (sts : list SteerStep) (rs : list SteerResult) : list steerContent :=
  concat (zip_with takes sts rs).

Definition settlements (rs : list SteerResult) : list (option steerContent) := concat (settles <$> rs).

(** A settlement of the submissions [g]. *)
Definition settled (o : option steerContent) (g : list steerContent) : Prop :=
  g ≠ [] ∧ match o with Some c => c = bundle g | None => True end.

(** One step moves submissions from the queue to a settlement, or takes one in. *)
Lemma queueStep_ledger q st q' r :
  queueStep q st = (q', r) →
  ∃ gs, Forall2 settled (settles r) gs ∧ queue q ++ takes st r = concat gs ++ queue q'.
Proof.
  intros H. assert (Hnone : settles r = [] → queue q ++ takes st r = queue q' →
    ∃ gs, Forall2 settled (settles r) gs ∧ queue q ++ takes st r = concat gs ++ queue q').
  { intros -> ->. exists []. split; [constructor|done]. }
  destruct st as [t p m| | |]; simpl in H.
  - repeat case_match; simplify_eq/=; apply Hnone; try done; by rewrite app_nil_r.
  - destruct (queue q) as [|x l] eqn:E; simplify_eq/=; [apply Hnone; by rewrite ?E|].
    exists [x :: l]. simpl. rewrite !app_nil_r. repeat constructor. done.
  - destruct (queue q) as [|x l] eqn:E; simplify_eq/=; [apply Hnone; by rewrite ?E|].
    exists [x :: l]. simpl. rewrite !app_nil_r. repeat constructor. done.
  - simplify_eq/=. apply Hnone; [done|by rewrite app_nil_r].
Qed.

Lemma queueRun_ledger q sts :
  let '(q', rs) := queueRun q sts in
  ∃ gs, Forall2 settled (settlements rs) gs ∧ queue q ++ taken sts rs = concat gs ++ queue q'.
Proof.
  revert q. induction sts as [|st sts IH]; intros q; simpl.
  { exists []. split; [constructor|]. by rewrite app_nil_r. }
  destruct (queueStep q st) as [q1 r] eqn:E. destruct (queueStep_ledger _ _ _ _ E) as (g1 & Hg1 & H1).
  specialize (IH q1). destruct (queueRun q1 sts) as [q2 rs]. destruct IH as (g2 & Hg2 & H2).
  exists (g1 ++ g2). split; [by apply Forall2_app|].
  unfold taken. simpl. rewrite app_assoc, H1, concat_app, <-!app_assoc. f_equal. done.
Qed.

(** Once closed, a queue takes nothing in and an empty one stays empty. *)
Lemma queueRun_closed q sts : qclosed q = true → queue q = [] → queue (queueRun q sts).1 = [].
Proof.
  revert q. induction sts as [|st sts IH]; intros q Hc Hq; simpl; [done|].
  assert (H : qclosed (queueStep q st).1 = true ∧ queue (queueStep q st).1 = []).
  { destruct st; simpl; rewrite ?Hc, ?Hq; repeat case_match; simplify_eq/=; done. }
  destruct (queueStep q st) as [q1 r]. destruct H as [H1 H2]. specialize (IH q1 H1 H2).
  by destruct (queueRun q1 sts).
Qed.

Lemma queueRun_app q a b :
  queueRun q (a ++ b) =
  let '(q1, r1) := queueRun q a in let '(q2, r2) := queueRun q1 b in (q2, r1 ++ r2).
Proof.
  revert q. induction a as [|st a IH]; intros q; simpl; [by destruct (queueRun q b)|].
  destruct (queueStep q st) as [q1 r]. rewrite IH. destruct (queueRun q1 a) as [q2 r2]. by destruct (queueRun q2 b).
Qed.

(** Submissions are never dropped.  Through any interleaving of steps, the
    submissions that were accepted or appended are, in order, exactly those
    delivered by drains (each as the bundle of its submissions), those retracted by
    cancellations, and those still pending; and when a run ends by draining and
    closing with no submission in between, whatever is submitted later, nothing is
    left pending: every submission taken was delivered or retracted. *)
Theorem steer_never_dropped sts later :
  (let '(b, rs) := steerRun (Some newSteerInbox) sts in
   ∃ gs rest, Forall2 settled (settlements rs) gs ∧ taken sts rs = concat gs ++ rest ∧
     hasSteer b = negb (rest =s [])) ∧
  (let all := sts ++ closeSteerDrained ++ later in
   let '(b, rs) := steerRun (Some newSteerInbox) all in
   hasSteer b = false ∧ ∃ gs, Forall2 settled (settlements rs) gs ∧ taken all rs = concat gs).
Proof.
  set (q0 := mkQueue false []).
  assert (Hall : ∀ l, let '(b, rs) := steerRun (Some newSteerInbox) l in
    hasSteer b = negb (queue (queueRun q0 l).1 =s []) ∧
    ∃ gs, Forall2 settled (settlements rs) gs ∧ taken l rs = concat gs ++ queue (queueRun q0 l).1).
  { intros l. destruct (steerRun_refines q0 newSteerInbox l) as (b & H1 & H2 & H3); [by split|].
    destruct (steerRun (Some newSteerInbox) l) as [ob rs]. simpl in H1, H3. subst ob rs.
    pose proof (queueRun_ledger q0 l) as Hl. destruct (queueRun q0 l) as [q rs]. simpl in *.
    destruct Hl as (gs & Hgs & Ht). split; [|by exists gs].
    destruct H2 as [_ Hq]. destruct (queue q); [done|]. by destruct Hq as [-> _]. }
  split.
  - pose proof (Hall sts) as H. destruct (steerRun _ sts) as [b rs]. destruct H as (H1 & gs & H2 & H3). eauto 10.
  - cbv zeta. pose proof (Hall (sts ++ closeSteerDrained ++ later)) as H.
    assert (Hempty : queue (queueRun q0 (sts ++ closeSteerDrained ++ later)).1 = []).
    { rewrite queueRun_app. destruct (queueRun q0 sts) as [q1 r1]. unfold closeSteerDrained. cbn [app queueRun].
      destruct (queueStep q1 SDrain) as [q2 r2] eqn:E. assert (Hq2 : queue q2 = []).
      { simpl in E. destruct (queue q1) eqn:E1; simplify_eq; done. }
      cbn [queueStep]. pose proof (queueRun_closed (mkQueue true (queue q2)) later eq_refl Hq2) as Hc.
      destruct (queueRun (mkQueue true (queue q2)) later) as [q3 r3]. exact Hc. }
    rewrite Hempty in H. destruct (steerRun _ _) as [b rs]. destruct H as (H1 & gs & H2 & H3).
    split; [done|]. exists gs. by rewrite app_nil_r in H3.
Qed.

(** The drain and the close of a run that ends are separate steps: a submission
    between them is accepted, and then closed in with nobody left to drain it. *)
Example steer_close_race :
  steerRun (Some newSteerInbox) [SDrain; SEnqueue #"stop" [] #"m1"; SClose] =
  (Some (mkInbox true (mkSteer #"stop" [] #"m1") true),
   [RDrained None; ROutcome SteerAccepted None; RDone]).
Proof. vm_compute. reflexivity. Qed.
