(* ===== verification/Attempts.v ===== *)
(** * Learning attempts

    [engine/learning/attempt.go] (the attempt's data and its validation),
    [attempt_repository.go] (checkpoints, finalization, queries, the lifecycle
    table) and the reference repository [engine/adapter/memattempt/memattempt.go].

    The clock is read before the lock is taken, so each call has its own [now]; a
    cancelled context returns before anything else and is left out.  Enumerated
    strings have a constructor for every other value.  [digestParts], the SHA-256
    of the length-framed parts in hexadecimal, is a parameter.  Generations and the
    version counter are [uint64]. *)

From stdpp Require Import pretty sorting.
From S2P Require Import Prelude Fence Conversation Authorization Labels.

(** ** The vocabulary *)

Definition MaxAttemptIDBytes : nat := 96.
Definition MaxAttemptVersionBytes : nat := 128.
Definition MaxAttemptLinkIDBytes : nat := 128.
Definition MaxDurableRunIDBytes : nat := 256.
Definition MaxAttemptCallerBytes : nat := 1024.

Inductive AttemptState :=
  | AttemptQueued | AttemptRunning | AttemptCompleted | AttemptFailed | AttemptAbandoned
  | AttemptStateOther (s : gostr).
#[global] Instance AttemptState_eq_dec : EqDecision AttemptState.
Proof. solve_decision. Defined.

Definition StateValid (s : AttemptState) : bool := match s with AttemptStateOther _ => false | _ => true end.

Definition Terminal (s : AttemptState) : bool :=
  (s =s AttemptCompleted) || (s =s AttemptFailed) || (s =s AttemptAbandoned).

Inductive AttemptOutcome :=
  | AttemptOutcomeNone | AttemptOutcomeSucceeded | AttemptOutcomeAbstained | AttemptOutcomeFailed
  | AttemptOutcomeAbandoned | AttemptOutcomeOther (s : gostr).
#[global] Instance AttemptOutcome_eq_dec : EqDecision AttemptOutcome.
Proof. solve_decision. Defined.

Definition OutcomeValid (o : AttemptOutcome) : bool := match o with AttemptOutcomeOther _ => false | _ => true end.

Inductive AttemptFailureCode :=
  | FailureNone | FailureEvidenceUnavailable | FailureEvaluationRejected | FailurePublicationFailed
  | FailureClaimExpired | FailureRetryExhausted | FailureUnavailable | FailureInternal
  | FailureOther (s : gostr).
#[global] Instance AttemptFailureCode_eq_dec : EqDecision AttemptFailureCode.
Proof. solve_decision. Defined.

Definition FailureValid (c : AttemptFailureCode) : bool := match c with FailureOther _ => false | _ => true end.

Inductive AttemptCheckpointStage :=
  | AttemptCheckpointNone | AttemptCheckpointEvidenceVerified | AttemptCheckpointReflectionComplete
  | AttemptCheckpointProposalLinked | AttemptCheckpointSkillLinked | AttemptCheckpointOther (s : gostr).
#[global] Instance AttemptCheckpointStage_eq_dec : EqDecision AttemptCheckpointStage.
Proof. solve_decision. Defined.

Definition StageValid (s : AttemptCheckpointStage) : bool := match s with AttemptCheckpointOther _ => false | _ => true end.

Definition rank (s : AttemptCheckpointStage) : Z :=
  match s with
  | AttemptCheckpointNone => 0
  | AttemptCheckpointEvidenceVerified => 1
  | AttemptCheckpointReflectionComplete => 2
  | AttemptCheckpointProposalLinked => 3
  | AttemptCheckpointSkillLinked => 4
  | AttemptCheckpointOther _ => -1
  end.

Definition CanAdvanceTo (s next : AttemptCheckpointStage) : bool :=
  StageValid s && StageValid next && negb (next =s AttemptCheckpointNone) && (rank s <=? rank next)%Z.

Inductive AdmissionClass :=
  | AdmissionSkipped | AdmissionWeighted | AdmissionHard | AdmissionHostRequested | AdmissionOther (s : gostr).
#[global] Instance AdmissionClass_eq_dec : EqDecision AdmissionClass.
Proof. solve_decision. Defined.

Definition ClassValid (c : AdmissionClass) : bool := match c with AdmissionOther _ => false | _ => true end.

Definition className (c : AdmissionClass) : gostr :=
  match c with
  | AdmissionSkipped => #"skipped" | AdmissionWeighted => #"weighted" | AdmissionHard => #"hard"
  | AdmissionHostRequested => #"host_requested" | AdmissionOther s => s
  end.

Definition PromptOriginCurrentPrincipal : gostr := #"current_principal".

(** ** Values *)

(** Go strings are valid UTF-8 here. *)
Definition validOpaque (value : gostr) (limit : nat) : bool :=
  if (value =s []) || (limit <? byteLen value) then false else negb (existsb IsControl value).

Definition validOptionalAttemptLink (value : gostr) : bool :=
  (value =s []) || validOpaque value MaxAttemptLinkIDBytes.

Definition validDigest (text : gostr) : bool :=
  if negb (byteLen text =? 64) || negb (ToLower text =s text) then false else hexDecodes text.

Record AttemptSource := mkSource { ASessionID : gostr; ARunID : gostr; ACanonicalDigest : gostr }.
#[global] Instance AttemptSource_eq_dec : EqDecision AttemptSource.
Proof. solve_decision. Defined.

Definition SourceValid (s : AttemptSource) : bool :=
  validOpaque (ASessionID s) MaxAttemptLinkIDBytes && validOpaque (ARunID s) MaxDurableRunIDBytes
  && validDigest (ACanonicalDigest s).

Record CurrentPromptBinding := mkPrompt { POrdinal : Z; PDigest : gostr; POrigin : gostr }.
#[global] Instance CurrentPromptBinding_eq_dec : EqDecision CurrentPromptBinding.
Proof. solve_decision. Defined.

Record AdmissionProvenance := mkProvenance {
  PClass : AdmissionClass; PSource : AttemptSource; PPrompt : CurrentPromptBinding; PBinding : gostr
}.
#[global] Instance AdmissionProvenance_eq_dec : EqDecision AdmissionProvenance.
Proof. solve_decision. Defined.

Definition validAdmissionBindingMaterial (class : AdmissionClass) (source : AttemptSource)
    (prompt : CurrentPromptBinding) : bool :=
  ClassValid class && negb (class =s AdmissionSkipped) && SourceValid source && (0 <=? POrdinal prompt)%Z
  && validDigest (PDigest prompt) && (POrigin prompt =s PromptOriginCurrentPrincipal).

Definition validStoredCheckpoint (stage : AttemptCheckpointStage) (proposalID skillID : gostr) : bool :=
  match stage with
  | AttemptCheckpointNone | AttemptCheckpointEvidenceVerified | AttemptCheckpointReflectionComplete =>
      (proposalID =s []) && (skillID =s [])
  | AttemptCheckpointProposalLinked => negb (proposalID =s []) && (skillID =s [])
  | AttemptCheckpointSkillLinked => negb (skillID =s [])
  | AttemptCheckpointOther _ => false
  end.

Record AttemptClaim := mkClaim { CGeneration : Z; CExpiresAt : Time }.

Definition ClaimValid (c : AttemptClaim) : bool := (0 <? CGeneration c)%Z && negb (IsZero (CExpiresAt c)).
Definition ValidAt (c : AttemptClaim) (now : Time) : bool :=
  ClaimValid c && negb (IsZero now) && (now <? CExpiresAt c)%Z.

Record AttemptRecord := mkAttempt {
  AID : gostr;
  AVersion : gostr;
  AState : AttemptState;
  AOutcome : AttemptOutcome;
  AFailureCode : AttemptFailureCode;
  AProvenance : AdmissionProvenance;
  AAttemptGeneration : Z;
  AClaimGeneration : Z;
  AClaimExpiresAt : Time;
  ACheckpointStage : AttemptCheckpointStage;
  AProposalID : gostr;
  ASkillID : gostr;
  ACreatedAt : Time;
  AUpdatedAt : Time
}.
#[global] Instance AttemptRecord_eq_dec : EqDecision AttemptRecord.
Proof. solve_decision. Defined.

Inductive AttemptError :=
  | ErrInvalidAttempt | ErrAttemptNotFound | ErrAttemptCreateConflict | ErrAttemptVersionConflict
  | ErrAttemptTransition | ErrAttemptClaimConflict | ErrAttemptClaimLost | ErrAttemptQuotaExceeded.

(** [ValidAttemptTransition] *)
Definition ValidAttemptTransition (from to : AttemptState) : bool :=
  match from with
  | AttemptQueued => (to =s AttemptRunning) || (to =s AttemptAbandoned)
  | AttemptRunning => (to =s AttemptRunning) || (to =s AttemptQueued) || Terminal to
  | AttemptFailed => to =s AttemptQueued
  | _ => false
  end.

Record AttemptCheckpoint := mkCheckpoint { CkStage : AttemptCheckpointStage; CkProposalID : gostr; CkSkillID : gostr }.

(** [AttemptCheckpoint.Validate] *)
Definition CheckpointValidate (c : AttemptCheckpoint) : bool :=
  if negb (StageValid (CkStage c)) || (CkStage c =s AttemptCheckpointNone)
     || negb (validOptionalAttemptLink (CkProposalID c)) || negb (validOptionalAttemptLink (CkSkillID c)) then false
  else match CkStage c with
  | AttemptCheckpointEvidenceVerified | AttemptCheckpointReflectionComplete =>
      negb (negb (CkProposalID c =s []) || negb (CkSkillID c =s []))
  | AttemptCheckpointProposalLinked => negb ((CkProposalID c =s []) || negb (CkSkillID c =s []))
  | AttemptCheckpointSkillLinked => negb (CkSkillID c =s [])
  | _ => true
  end.

Record AttemptFinalization := mkFinal { FState : AttemptState; FOutcome : AttemptOutcome; FFailureCode : AttemptFailureCode }.

(** [AttemptFinalization.Validate] *)
Definition FinalValidate (f : AttemptFinalization) : bool :=
  match FState f with
  | AttemptCompleted => ((FOutcome f =s AttemptOutcomeSucceeded) || (FOutcome f =s AttemptOutcomeAbstained))
                        && (FFailureCode f =s FailureNone)
  | AttemptFailed => (FOutcome f =s AttemptOutcomeFailed) && FailureValid (FFailureCode f)
                     && negb (FFailureCode f =s FailureNone)
  | AttemptAbandoned => (FOutcome f =s AttemptOutcomeAbandoned) && (FFailureCode f =s FailureNone)
  | _ => false
  end.

Section attempts.
Context (digestParts : list gostr → gostr).

Definition provenanceBinding (class : AdmissionClass) (source : AttemptSource) (prompt : CurrentPromptBinding) : gostr :=
  digestParts [className class; ASessionID source; ARunID source; ACanonicalDigest source;
               lit (pretty (POrdinal prompt)); PDigest prompt; POrigin prompt].

Definition NewAdmissionProvenance (class : AdmissionClass) (source : AttemptSource) (prompt : CurrentPromptBinding) :
    option AdmissionProvenance :=
  if negb (validAdmissionBindingMaterial class source prompt) then None
  else Some (mkProvenance class source prompt (provenanceBinding class source prompt)).

(** [AdmissionProvenance.Validate] *)
Definition ProvenanceValidate (p : AdmissionProvenance) (expected : AttemptSource) (prompt : CurrentPromptBinding) : bool :=
  negb (negb (validAdmissionBindingMaterial (PClass p) (PSource p) (PPrompt p)) || negb (PSource p =s expected)
        || negb (PPrompt p =s prompt) || negb (PBinding p =s provenanceBinding (PClass p) (PSource p) (PPrompt p))).

(** [AdmissionProvenance.valid] *)
Definition provenanceValid (p : AdmissionProvenance) : bool :=
  validAdmissionBindingMaterial (PClass p) (PSource p) (PPrompt p)
  && (PBinding p =s provenanceBinding (PClass p) (PSource p) (PPrompt p)).

Definition DeterministicAttemptID (caller : gostr) (source : AttemptSource) : option gostr :=
  if (caller =s []) || (MaxAttemptCallerBytes <? byteLen caller) || negb (SourceValid source) then None
  else Some (#"attempt-" ++ take 32 (digestParts [caller; ASessionID source; ARunID source; ACanonicalDigest source])).

Definition stateShape (r : AttemptRecord) : bool :=
  match AState r with
  | AttemptQueued | AttemptRunning =>
      negb (negb (AOutcome r =s AttemptOutcomeNone) || negb (AFailureCode r =s FailureNone))
  | AttemptCompleted =>
      negb (negb (AOutcome r =s AttemptOutcomeSucceeded) && negb (AOutcome r =s AttemptOutcomeAbstained)
            || negb (AFailureCode r =s FailureNone))
  | AttemptFailed => negb (negb (AOutcome r =s AttemptOutcomeFailed) || (AFailureCode r =s FailureNone))
  | AttemptAbandoned =>
      negb (negb (AOutcome r =s AttemptOutcomeAbandoned) || negb (AFailureCode r =s FailureNone))
  | AttemptStateOther _ => true
  end.

(** [true] is no error. *)
Definition ValidateAttemptRecord (r : AttemptRecord) : bool :=
  if negb (validOpaque (AID r) MaxAttemptIDBytes) || negb (HasPrefix (AID r) #"attempt-")
     || negb (validOpaque (AVersion r) MaxAttemptVersionBytes) || negb (StateValid (AState r))
     || negb (OutcomeValid (AOutcome r)) || negb (FailureValid (AFailureCode r))
     || negb (validStoredCheckpoint (ACheckpointStage r) (AProposalID r) (ASkillID r))
     || (AAttemptGeneration r =? 0)%Z || IsZero (ACreatedAt r) || (AUpdatedAt r <? ACreatedAt r)%Z
     || negb (validOptionalAttemptLink (AProposalID r)) || negb (validOptionalAttemptLink (ASkillID r))
     || negb (provenanceValid (AProvenance r)) then false
  else if negb (Bool.eqb (AState r =s AttemptRunning) (0 <? AClaimGeneration r)%Z)
          || negb (Bool.eqb (AClaimGeneration r =? 0)%Z (IsZero (AClaimExpiresAt r))) then false
  else stateShape r.

Record AttemptCreate := mkCreate { CrID : gostr; CrProvenance : AdmissionProvenance }.

(** [AttemptCreate.Validate] *)
Definition CreateValidate (c : AttemptCreate) : bool :=
  negb (negb (validOpaque (CrID c) MaxAttemptIDBytes) || negb (HasPrefix (CrID c) #"attempt-")
        || negb (provenanceValid (CrProvenance c))).

(** ** The repository *)

Definition DefaultAttemptPageSize : nat := 50.
Definition MaxAttemptPageSize : Z := 200.
Definition MaxAttemptDeleteBatch : Z := 200.
Definition MaxAttemptWorkBatch : Z := 200.
Definition MaxAttemptsPerPartition : nat := 256.
Definition MaxAttemptClaimDuration : Z := 24 * 3600 * 1000000000.
Definition MaxAttemptRetentionAge : Z := 10 * 365 * 24 * 3600 * 1000000000.

Record Store := mkAttemptStore {
  records : gmap gostr (gmap gostr AttemptRecord);
  claimGeneration : gmap gostr (gmap gostr Z);
  nextVersion : Z
}.

Definition New : Store := mkAttemptStore ∅ ∅ 0.

(** Reading a missing map reads an empty one. *)
Definition bucket (s : Store) (p : gostr) : gmap gostr AttemptRecord := default ∅ (records s !! p).
Definition generation (s : Store) (p id : gostr) : Z := default 0%Z (default ∅ (claimGeneration s !! p) !! id).

Definition putRecord (s : Store) (p : gostr) (r : AttemptRecord) : Store :=
  mkAttemptStore (<[p := <[AID r := r]> (bucket s p)]> (records s)) (claimGeneration s) (nextVersion s).

(** Deleting from a missing map does nothing. *)
Definition dropRecord (s : Store) (p id : gostr) : Store :=
  mkAttemptStore (alter (delete id) p (records s)) (alter (delete id) p (claimGeneration s)) (nextVersion s).

Definition versionLocked (s : Store) : Store * gostr :=
  let n := wrapU64 (nextVersion s + 1) in
  (mkAttemptStore (records s) (claimGeneration s) n, #"mem-" ++ lit (pretty n)).

Definition withCommit (v : gostr) (now : Time) (r : AttemptRecord) : AttemptRecord :=
  mkAttempt (AID r) v (AState r) (AOutcome r) (AFailureCode r) (AProvenance r) (AAttemptGeneration r)
    (AClaimGeneration r) (AClaimExpiresAt r) (ACheckpointStage r) (AProposalID r) (ASkillID r) (ACreatedAt r) now.

Definition commitLocked (s : Store) (p : gostr) (r : AttemptRecord) (now : Time) : Store * AttemptRecord :=
  let '(s, v) := versionLocked s in
  let r := withCommit v now r in (putRecord s p r, r).

Definition currentLocked (s : Store) (p id expected : gostr) : AttemptRecord + AttemptError :=
  match bucket s p !! id with
  | None => inr ErrAttemptNotFound
  | Some r => if negb (AVersion r =s expected) then inr ErrAttemptVersionConflict else inl r
  end.

Definition nextClaimGenerationLocked (s : Store) (p id : gostr) : Store * Z :=
  let g := wrapU64 (generation s p id + 1) in
  (mkAttemptStore (records s) (<[p := <[id := g]> (default ∅ (claimGeneration s !! p))]> (claimGeneration s))
     (nextVersion s), g).

Definition validClaimDuration (d : Z) : bool := (0 <? d)%Z && (d <=? MaxAttemptClaimDuration)%Z.

Definition matchesClaim (r : AttemptRecord) (c : AttemptClaim) (now : Time) : bool :=
  (AState r =s AttemptRunning) && ValidAt c now && (AClaimGeneration r =? CGeneration c)%Z
  && (AClaimExpiresAt r =? CExpiresAt c)%Z.

Ltac upd_attempt r f v :=
  update_field (mkAttempt (AID r) (AVersion r) (AState r) (AOutcome r) (AFailureCode r) (AProvenance r)
    (AAttemptGeneration r) (AClaimGeneration r) (AClaimExpiresAt r) (ACheckpointStage r) (AProposalID r)
    (ASkillID r) (ACreatedAt r) (AUpdatedAt r)) (f r) v.

Definition setAState v r : AttemptRecord := ltac:(upd_attempt r AState v).
Definition setAOutcome v r : AttemptRecord := ltac:(upd_attempt r AOutcome v).
Definition setAFailure v r : AttemptRecord := ltac:(upd_attempt r AFailureCode v).
Definition setAGeneration v r : AttemptRecord := ltac:(upd_attempt r AAttemptGeneration v).
Definition setClaim (gen : Z) (expires : Time) (r : AttemptRecord) : AttemptRecord :=
  mkAttempt (AID r) (AVersion r) (AState r) (AOutcome r) (AFailureCode r) (AProvenance r) (AAttemptGeneration r)
    gen expires (ACheckpointStage r) (AProposalID r) (ASkillID r) (ACreatedAt r) (AUpdatedAt r).
Definition setCheckpoint (stage : AttemptCheckpointStage) (prop skill : gostr) (r : AttemptRecord) : AttemptRecord :=
  mkAttempt (AID r) (AVersion r) (AState r) (AOutcome r) (AFailureCode r) (AProvenance r) (AAttemptGeneration r)
    (AClaimGeneration r) (AClaimExpiresAt r) stage prop skill (ACreatedAt r) (AUpdatedAt r).

Definition clearClaim (r : AttemptRecord) : AttemptRecord := setClaim 0 0 r.

(** Least recently updated first, then by id. *)
Definition olderThan (a b : AttemptRecord) : bool :=
  (AUpdatedAt a <? AUpdatedAt b)%Z || (AUpdatedAt a =? AUpdatedAt b)%Z && strLess (AID a) (AID b).

(** The loop of [makeRoomLocked]: the oldest terminal record. *)
Definition oldestTerminal (rs : list AttemptRecord) : option AttemptRecord :=
  foldl (λ oldest r,
    if Terminal (AState r) && match oldest with None => true | Some o => olderThan r o end
    then Some r else oldest) None rs.

Definition makeRoomLocked (s : Store) (p : gostr) : Store + AttemptError :=
  if size (bucket s p) <? MaxAttemptsPerPartition then inl s
  else match oldestTerminal (map_to_list (bucket s p)).*2 with
  | None => inr ErrAttemptQuotaExceeded
  | Some o => inl (dropRecord s p (AID o))
  end.

Inductive AttemptResult :=
  | ARecord (r : AttemptRecord)
  | AClaimed (r : AttemptRecord) (c : AttemptClaim)
  | ADeleted (n : nat)
  | AErr (e : AttemptError).

Definition Create (s : Store) (now : Time) (p : gostr) (c : AttemptCreate) : Store * AttemptResult :=
  if (p =s []) || negb (CreateValidate c) then (s, AErr ErrInvalidAttempt)
  else if IsZero now then (s, AErr ErrInvalidAttempt)
  else match bucket s p !! CrID c with
  | Some existing =>
      if AProvenance existing =s CrProvenance c then (s, ARecord existing)
      else (s, AErr ErrAttemptCreateConflict)
  | None =>
      match makeRoomLocked s p with
      | inr e => (s, AErr e)
      | inl s =>
          let '(s, v) := versionLocked s in
          let r := mkAttempt (CrID c) v AttemptQueued AttemptOutcomeNone FailureNone (CrProvenance c) 1 0 0
                     AttemptCheckpointNone [] [] now now in
          (putRecord s p r, ARecord r)
      end
  end.

Definition Get (s : Store) (p id : gostr) : option AttemptRecord := bucket s p !! id.

Definition AcquireClaim (s : Store) (now : Time) (p id expected : gostr) (d : Z) : Store * AttemptResult :=
  if negb (validClaimDuration d) then (s, AErr ErrInvalidAttempt)
  else if IsZero now then (s, AErr ErrInvalidAttempt)
  else match currentLocked s p id expected with
  | inr e => (s, AErr e)
  | inl r =>
      if (AState r =s AttemptRunning) && (now <? AClaimExpiresAt r)%Z then (s, AErr ErrAttemptClaimConflict)
      else if negb (AState r =s AttemptQueued) && negb (AState r =s AttemptRunning) then (s, AErr ErrAttemptTransition)
      else if (now <? ACreatedAt r)%Z then (s, AErr ErrInvalidAttempt)
      else
        let '(s, g) := nextClaimGenerationLocked s p id in
        let '(s, r) := commitLocked s p (setClaim g (now + d)%Z (setAState AttemptRunning r)) now in
        (s, AClaimed r (mkClaim g (now + d)%Z))
  end.

(** The guards RenewClaim, Checkpoint, ReleaseClaim and Finalize share. *)
Definition claimed (s : Store) (now : Time) (p id expected : gostr) (c : AttemptClaim) : AttemptRecord + AttemptError :=
  match currentLocked s p id expected with
  | inr e => inr e
  | inl r => if negb (matchesClaim r c now) then inr ErrAttemptClaimLost else inl r
  end.

Definition RenewClaim (s : Store) (now : Time) (p id expected : gostr) (c : AttemptClaim) (d : Z) : Store * AttemptResult :=
  if negb (validClaimDuration d) then (s, AErr ErrInvalidAttempt)
  else if IsZero now then (s, AErr ErrInvalidAttempt)
  else match claimed s now p id expected c with
  | inr e => (s, AErr e)
  | inl r =>
      let '(s, r) := commitLocked s p (setClaim (AClaimGeneration r) (now + d)%Z r) now in
      (s, AClaimed r (mkClaim (CGeneration c) (now + d)%Z))
  end.

Definition Checkpoint (s : Store) (now : Time) (p id expected : gostr) (c : AttemptClaim) (k : AttemptCheckpoint) :
    Store * AttemptResult :=
  if IsZero now || negb (CheckpointValidate k) then (s, AErr ErrInvalidAttempt)
  else match claimed s now p id expected c with
  | inr e => (s, AErr e)
  | inl r =>
      if negb (CanAdvanceTo (ACheckpointStage r) (CkStage k)) then (s, AErr ErrAttemptTransition)
      else if ACheckpointStage r =s CkStage k then
        if negb (AProposalID r =s CkProposalID k) || negb (ASkillID r =s CkSkillID k)
        then (s, AErr ErrAttemptTransition) else (s, ARecord r)
      else
        let '(s, r) := commitLocked s p (setCheckpoint (CkStage k) (CkProposalID k) (CkSkillID k) r) now in
        (s, ARecord r)
  end.

Definition ReleaseClaim (s : Store) (now : Time) (p id expected : gostr) (c : AttemptClaim) : Store * AttemptResult :=
  if IsZero now then (s, AErr ErrInvalidAttempt)
  else match claimed s now p id expected c with
  | inr e => (s, AErr e)
  | inl r =>
      let '(s, r) := commitLocked s p (clearClaim (setAState AttemptQueued r)) now in (s, ARecord r)
  end.

Definition Finalize (s : Store) (now : Time) (p id expected : gostr) (c : AttemptClaim) (f : AttemptFinalization) :
    Store * AttemptResult :=
  if IsZero now then (s, AErr ErrInvalidAttempt)
  else if negb (FinalValidate f) then (s, AErr ErrAttemptTransition)
  else match claimed s now p id expected c with
  | inr e => (s, AErr e)
  | inl r =>
      if negb (ValidAttemptTransition (AState r) (FState f)) then (s, AErr ErrAttemptTransition)
      else
        let r := setAFailure (FFailureCode f) (setAOutcome (FOutcome f) (setAState (FState f) r)) in
        let '(s, r) := commitLocked s p (clearClaim r) now in (s, ARecord r)
  end.

Definition Retry (s : Store) (now : Time) (p id expected : gostr) : Store * AttemptResult :=
  if IsZero now then (s, AErr ErrInvalidAttempt)
  else match currentLocked s p id expected with
  | inr e => (s, AErr e)
  | inl r =>
      if negb (ValidAttemptTransition (AState r) AttemptQueued) then (s, AErr ErrAttemptTransition)
      else
        let r := setAFailure FailureNone (setAOutcome AttemptOutcomeNone (setAState AttemptQueued r)) in
        let r := setAGeneration (wrapU64 (AAttemptGeneration r + 1)) r in
        let '(s, r) := commitLocked s p (clearClaim r) now in (s, ARecord r)
  end.

Definition Abandon (s : Store) (now : Time) (p id expected : gostr) : Store * AttemptResult :=
  if IsZero now then (s, AErr ErrInvalidAttempt)
  else match currentLocked s p id expected with
  | inr e => (s, AErr e)
  | inl r =>
      if (AState r =s AttemptRunning) && (now <? AClaimExpiresAt r)%Z then (s, AErr ErrAttemptClaimConflict)
      else if negb (ValidAttemptTransition (AState r) AttemptAbandoned) then (s, AErr ErrAttemptTransition)
      else
        let r := setAFailure FailureNone (setAOutcome AttemptOutcomeAbandoned (setAState AttemptAbandoned r)) in
        let '(s, r) := commitLocked s p (clearClaim r) now in (s, ARecord r)
  end.

Definition Delete (s : Store) (p id expected : gostr) : Store * AttemptResult :=
  match currentLocked s p id expected with
  | inr e => (s, AErr e)
  | inl r =>
      if AState r =s AttemptRunning then (s, AErr ErrAttemptClaimConflict)
      else if negb (AState r =s AttemptQueued) && negb (Terminal (AState r)) then (s, AErr ErrAttemptTransition)
      else (dropRecord s p id, ADeleted 1)
  end.

(** The order of the deletion candidates: oldest first, then by id. *)
Definition olderEq (a b : AttemptRecord) : Prop := olderThan b a = false.
#[global] Instance olderEq_dec : RelDecision olderEq.
Proof. intros a b. unfold olderEq. apply _. Defined.

Definition DeleteTerminalOlderThan (s : Store) (now : Time) (p : gostr) (age : Z) (limit : Z) : Store * AttemptResult :=
  if (p =s []) || (age <=? 0)%Z || (MaxAttemptRetentionAge <? age)%Z || (limit <? 1)%Z
     || (MaxAttemptDeleteBatch <? limit)%Z then (s, AErr ErrInvalidAttempt)
  else if IsZero now then (s, AErr ErrInvalidAttempt)
  else
    let old := filter (λ r, Terminal (AState r) && (AUpdatedAt r <? now - age)%Z = true) (map_to_list (bucket s p)).*2 in
    let doomed := take (Z.to_nat limit) (merge_sort olderEq old) in
    (foldl (λ s r, dropRecord s p (AID r)) s doomed, ADeleted (length doomed)).

(** ** Queries *)

Record AttemptList := mkList { LAfter : gostr; LLimit : Z; LState : AttemptState }.

(** [AttemptList.Validate]; an empty state stands for any. *)
Definition ListValidate (q : AttemptList) : bool :=
  negb ((LLimit q <? 0)%Z || (MaxAttemptPageSize <? LLimit q)%Z
        || (negb (LAfter q =s []) && negb (validOpaque (LAfter q) MaxAttemptIDBytes))
        || (negb (LState q =s AttemptStateOther []) && negb (StateValid (LState q)))).

(** The ids a query selects, sorted. *)
Definition selected (s : Store) (p : gostr) (q : AttemptList) : list gostr :=
  merge_sort strLe
    (filter (λ kv, strLess (LAfter q) kv.1 && ((LState q =s AttemptStateOther []) || (AState kv.2 =s LState q)) = true)
       (map_to_list (bucket s p))).*1.

(** The page's records and the cursor of the next page. *)
Definition List (s : Store) (p : gostr) (q : AttemptList) : option (list AttemptRecord * gostr) :=
  if (p =s []) || negb (ListValidate q) then None
  else
    let limit := if (LLimit q =? 0)%Z then DefaultAttemptPageSize else Z.to_nat (LLimit q) in
    let ids := selected s p q in
    let page := omap (λ id, bucket s p !! id) (take limit ids) in
    Some (page, if limit <? length ids then match last page with Some r => AID r | None => [] end else []).

Record AttemptWork := mkWork { WPartition : gostr; WRecord : AttemptRecord }.

Definition workLe (a b : AttemptWork) : Prop :=
  if decide (WPartition a = WPartition b) then strLe (AID (WRecord a)) (AID (WRecord b))
  else strLe (WPartition a) (WPartition b).
#[global] Instance workLe_dec : RelDecision workLe.
Proof. intros a b. unfold workLe. case_decide; apply _. Defined.

Definition isWork (now : Time) (afterP afterID : gostr) (w : AttemptWork) : bool :=
  let r := WRecord w in
  (strLess afterP (WPartition w) || (WPartition w =s afterP) && strLess afterID (AID r))
  && ((AState r =s AttemptQueued) || (AState r =s AttemptRunning) && (AClaimExpiresAt r <=? now)%Z).

Definition allWork (s : Store) : list AttemptWork :=
  '(p, b) ← map_to_list (records s); mkWork p <$> (map_to_list b).*2.

(** [AttemptWorkList.Validate] *)
Definition WorkListValidate (afterP afterID : gostr) (limit : Z) : bool :=
  let cursorEmpty := (afterP =s []) && (afterID =s []) in
  let cursorValid := negb (afterP =s []) && validOpaque afterP 128 && validOpaque afterID MaxAttemptIDBytes in
  negb ((limit <? 1)%Z || (MaxAttemptWorkBatch <? limit)%Z || (negb cursorEmpty && negb cursorValid)).

Definition DiscoverWork (s : Store) (now : Time) (afterP afterID : gostr) (limit : Z) :
    option (list AttemptWork * (gostr * gostr)) :=
  if negb (WorkListValidate afterP afterID limit) || IsZero now then None
  else
    let work := merge_sort workLe (filter (λ w, isWork now afterP afterID w = true) (allWork s)) in
    let page := take (Z.to_nat limit) work in
    Some (page, if (limit <? Z.of_nat (length work))%Z
                then match last page with Some w => (WPartition w, AID (WRecord w)) | None => ([], []) end
                else ([], [])).

(** ** Runs *)

Inductive AttemptOp :=
  | ACreate (now : Time) (p : gostr) (c : AttemptCreate)
  | AAcquire (now : Time) (p id v : gostr) (d : Z)
  | ARenew (now : Time) (p id v : gostr) (c : AttemptClaim) (d : Z)
  | ACheckpoint (now : Time) (p id v : gostr) (c : AttemptClaim) (k : AttemptCheckpoint)
  | ARelease (now : Time) (p id v : gostr) (c : AttemptClaim)
  | AFinalize (now : Time) (p id v : gostr) (c : AttemptClaim) (f : AttemptFinalization)
  | ARetry (now : Time) (p id v : gostr)
  | AAbandon (now : Time) (p id v : gostr)
  | ADelete (p id v : gostr)
  | ADeleteOld (now : Time) (p : gostr) (age limit : Z).

Definition attemptExec (s : Store) (op : AttemptOp) : Store * AttemptResult :=
  match op with
  | ACreate now p c => Create s now p c
  | AAcquire now p id v d => AcquireClaim s now p id v d
  | ARenew now p id v c d => RenewClaim s now p id v c d
  | ACheckpoint now p id v c k => Checkpoint s now p id v c k
  | ARelease now p id v c => ReleaseClaim s now p id v c
  | AFinalize now p id v c f => Finalize s now p id v c f
  | ARetry now p id v => Retry s now p id v
  | AAbandon now p id v => Abandon s now p id v
  | ADelete p id v => Delete s p id v
  | ADeleteOld now p age limit => DeleteTerminalOlderThan s now p age limit
  end.

Fixpoint attemptRun (s : Store) (ops : list AttemptOp) : Store :=
  match ops with [] => s | op :: ops' => attemptRun (attemptExec s op).1 ops' end.
End attempts.

(** * Lemmas *)

(** ** Versions *)

Definition digitRune (c : rune) : Prop := (48 <= c < 58)%N.

Lemma pretty_N_go_digits k x (str : string) :
  (x < 10 ^ N.of_nat k)%N → Forall digitRune (lit str) →
  Forall digitRune (lit (pretty_N_go x str)) ∧ length (lit (pretty_N_go x str)) <= k + length (lit str).
Proof.
  revert x str. induction k as [|k IH]; intros x str Hx Hs.
  - assert (x = 0%N) as -> by (simpl in Hx; lia). rewrite pretty_N_go_0. by split; [|lia].
  - destruct (decide (x = 0%N)) as [->|Hne]; [rewrite pretty_N_go_0; split; [done|lia]|].
    rewrite pretty_N_go_step by lia. destruct (IH (x `div` 10)%N (String (pretty_N_char (x `mod` 10)) str)) as [H1 H2].
    + apply N.Div0.div_lt_upper_bound. rewrite Nat2N.inj_succ, N.pow_succ_r' in Hx. lia.
    + change (lit (String ?c ?t)) with (Ascii.N_of_ascii c :: lit t). constructor; [|done].
      assert (x `mod` 10 < 10)%N as Hm by (apply N.mod_lt; lia). revert Hm. generalize (x `mod` 10)%N. intros d Hd.
      assert (Hall : ∀ d, (d < 10)%N → digitRune (Ascii.N_of_ascii (pretty_N_char d))).
      { intros e He. assert (e ∈ [0;1;2;3;4;5;6;7;8;9]%N) as Hin.
        { rewrite !elem_of_cons. lia. }
        rewrite !elem_of_cons in Hin. unfold digitRune.
        repeat (destruct Hin as [->|Hin]; [vm_compute; split; congruence|]). by apply not_elem_of_nil in Hin. }
      by apply Hall.
    + split; [done|]. change (lit (String ?c ?t)) with (Ascii.N_of_ascii c :: lit t) in H2. simpl in H2. lia.
Qed.

Lemma version_text n :
  (0 < n <= maxUint64)%Z → Forall digitRune (lit (pretty n)) ∧ length (lit (pretty n)) <= 20.
Proof.
  intros Hn. destruct n as [|q|q]; try lia. change (pretty (Z.pos q)) with (pretty (N.pos q)).
  unfold pretty, pretty_N. rewrite decide_False by done.
  destruct (pretty_N_go_digits 20 (N.pos q) EmptyString) as [H1 H2]; [|constructor|].
  - unfold maxUint64 in Hn. assert (10 ^ N.of_nat 20 = 100000000000000000000)%N as -> by (vm_compute; reflexivity). lia.
  - split; [done|]. simpl in H2. lia.
Qed.

Definition versionOf (n : Z) : gostr := #"mem-" ++ lit (pretty n).

Lemma versionOf_inj n m : versionOf n = versionOf m → n = m.
Proof. unfold versionOf. intros H%app_inv_head%lit_inj. by apply (inj pretty). Qed.

Lemma versionOf_valid n : (0 < n <= maxUint64)%Z → validOpaque (versionOf n) MaxAttemptVersionBytes = true.
Proof.
  intros Hn. destruct (version_text n Hn) as [Hd Hl]. unfold validOpaque, versionOf.
  assert (Ha : Forall (λ c, digitRune c ∨ c ∈ #"mem-") (#"mem-" ++ lit (pretty n))).
  { apply Forall_app. split; [|by eapply Forall_impl; [done|auto]]. apply Forall_forall. auto. }
  assert (Hin : ∀ c, c ∈ #"mem-" → (45 <= c < 127)%N).
  { intros c Hc. change #"mem-" with [109; 101; 109; 45]%N in Hc. rewrite !elem_of_cons, elem_of_nil in Hc. lia. }
  rewrite byteLen_ascii.
  2: { eapply Forall_impl; [done|]. unfold ascii, digitRune. intros c [?|Hc%Hin]; lia. }
  rewrite length_app. change (length #"mem-") with 4. unfold MaxAttemptVersionBytes.
  rewrite (proj2 (Nat.ltb_ge _ _)), orb_false_r by lia.
  rewrite bool_decide_false by done. apply negb_true_iff, existsb_false_forall. intros c Hc.
  rewrite Forall_forall in Ha. unfold IsControl. apply orb_false_iff. rewrite andb_false_iff, !N.leb_gt, !N.ltb_ge.
  destruct (Ha c Hc) as [Hx|Hx%Hin]; unfold digitRune in *; lia.
Qed.

(** ** Buckets *)

Lemma bucket_put s p r p' :
  bucket (putRecord s p r) p' = if decide (p = p') then <[AID r := r]> (bucket s p') else bucket s p'.
Proof.
  unfold bucket at 1, putRecord. simpl. case_decide as E.
  - subst. by rewrite lookup_insert_eq.
  - by rewrite lookup_insert_ne.
Qed.

Lemma bucket_drop s p id p' :
  bucket (dropRecord s p id) p' = if decide (p = p') then delete id (bucket s p') else bucket s p'.
Proof.
  unfold bucket, dropRecord. simpl. case_decide as E.
  - subst. rewrite lookup_alter_eq. destruct (records s !! p'); simpl; [done|]. by rewrite delete_empty.
  - by rewrite lookup_alter_ne.
Qed.

Lemma generation_drop s p id p' id' :
  generation (dropRecord s p id) p' id' = if decide (p = p' ∧ id = id') then 0%Z else generation s p' id'.
Proof.
  unfold generation, dropRecord. simpl. destruct (decide (p = p')) as [->|E].
  - rewrite lookup_alter_eq. destruct (claimGeneration s !! p') as [m|]; simpl.
    + destruct (decide (id = id')) as [->|]; [by rewrite lookup_delete_eq, decide_True|].
      rewrite lookup_delete_ne, decide_False by naive_solver. done.
    + rewrite lookup_empty. simpl. by case_decide.
  - rewrite lookup_alter_ne, decide_False by naive_solver. done.
Qed.

Lemma bucket_version s p : bucket (versionLocked s).1 p = bucket s p.
Proof. done. Qed.

Lemma generation_next s p id p' id' :
  generation (nextClaimGenerationLocked s p id).1 p' id' =
  if decide (p = p' ∧ id = id') then wrapU64 (generation s p id + 1) else generation s p' id'.
Proof.
  unfold nextClaimGenerationLocked, generation. simpl. destruct (decide (p = p')) as [->|E].
  - rewrite lookup_insert_eq. simpl. destruct (decide (id = id')) as [->|].
    + by rewrite lookup_insert_eq, decide_True.
    + rewrite lookup_insert_ne, decide_False by naive_solver. done.
  - rewrite lookup_insert_ne, decide_False by naive_solver. done.
Qed.

(** ** The lifecycle of one record *)

Lemma currentLocked_inl s p id v r :
  currentLocked s p id v = inl r → bucket s p !! id = Some r ∧ AVersion r = v.
Proof. unfold currentLocked. destruct (bucket s p !! id); [|done]. case_bool; [done|]. intros [= ->]. by bprop. Qed.

Lemma claimed_inl s now p id v c r :
  claimed s now p id v c = inl r →
  bucket s p !! id = Some r ∧ AVersion r = v ∧ matchesClaim r c now = true.
Proof.
  unfold claimed. destruct (currentLocked s p id v) as [r'|] eqn:E; [|done]. apply currentLocked_inl in E as [??].
  case_bool; [done|]. intros [= ->]. split_and!; try done. by apply negb_false_iff.
Qed.

Lemma matchesClaim_spec r c now :
  matchesClaim r c now = true →
  AState r = AttemptRunning ∧ (0 < CGeneration c)%Z ∧ (now < CExpiresAt c)%Z ∧
  AClaimGeneration r = CGeneration c ∧ AClaimExpiresAt r = CExpiresAt c.
Proof.
  unfold matchesClaim, ValidAt, ClaimValid. rewrite !andb_true_iff, !Z.ltb_lt, !Z.eqb_eq, bool_decide_eq_true. tauto.
Qed.

(** The transitions a call can make on the record it names. *)
Inductive lifecycle (now : Time) (r : AttemptRecord) : AttemptOp → AttemptRecord → Prop :=
  | life_renew p id v c d :
      matchesClaim r c now = true → validClaimDuration d = true →
      lifecycle now r (ARenew now p id v c d) (setClaim (AClaimGeneration r) (now + d)%Z r)
  | life_checkpoint p id v c k :
      matchesClaim r c now = true → CheckpointValidate k = true →
      CanAdvanceTo (ACheckpointStage r) (CkStage k) = true → ACheckpointStage r ≠ CkStage k →
      lifecycle now r (ACheckpoint now p id v c k) (setCheckpoint (CkStage k) (CkProposalID k) (CkSkillID k) r)
  | life_release p id v c :
      matchesClaim r c now = true →
      lifecycle now r (ARelease now p id v c) (clearClaim (setAState AttemptQueued r))
  | life_finalize p id v c f :
      matchesClaim r c now = true → FinalValidate f = true →
      lifecycle now r (AFinalize now p id v c f)
        (clearClaim (setAFailure (FFailureCode f) (setAOutcome (FOutcome f) (setAState (FState f) r))))
  | life_retry p id v :
      AState r = AttemptRunning ∨ AState r = AttemptFailed →
      lifecycle now r (ARetry now p id v)
        (clearClaim (setAGeneration (wrapU64 (AAttemptGeneration r + 1))
           (setAFailure FailureNone (setAOutcome AttemptOutcomeNone (setAState AttemptQueued r)))))
  | life_abandon p id v :
      AState r = AttemptQueued ∨ AState r = AttemptRunning ∧ (AClaimExpiresAt r <= now)%Z →
      lifecycle now r (AAbandon now p id v)
        (clearClaim (setAFailure FailureNone (setAOutcome AttemptOutcomeAbandoned (setAState AttemptAbandoned r)))).

Definition freshAttempt (c : AttemptCreate) (v : gostr) (now : Time) : AttemptRecord :=
  mkAttempt (CrID c) v AttemptQueued AttemptOutcomeNone FailureNone (CrProvenance c) 1 0 0
    AttemptCheckpointNone [] [] now now.

(** The record a call names, with the version it expects. *)
Definition target (op : AttemptOp) : option (gostr * gostr * gostr) :=
  match op with
  | AAcquire _ p id v _ | ARenew _ p id v _ _ | ACheckpoint _ p id v _ _ | ARelease _ p id v _
  | AFinalize _ p id v _ _ | ARetry _ p id v | AAbandon _ p id v | ADelete p id v => Some (p, id, v)
  | ACreate _ _ _ | ADeleteOld _ _ _ _ => None
  end.

(** The claim a call presents. *)
Definition presented (op : AttemptOp) : option AttemptClaim :=
  match op with
  | ARenew _ _ _ _ c _ | ACheckpoint _ _ _ _ c _ | ARelease _ _ _ _ c | AFinalize _ _ _ _ c _ => Some c
  | _ => None
  end.

(** When a call was made; a deletion does not read the clock. *)
Definition opTime (op : AttemptOp) : option Time :=
  match op with
  | ACreate now _ _ | AAcquire now _ _ _ _ | ARenew now _ _ _ _ _ | ACheckpoint now _ _ _ _ _
  | ARelease now _ _ _ _ | AFinalize now _ _ _ _ _ | ARetry now _ _ _ | AAbandon now _ _ _
  | ADeleteOld now _ _ _ => Some now
  | ADelete _ _ _ => None
  end.

Definition acquirable (now : Time) (r : AttemptRecord) : Prop :=
  (AState r = AttemptQueued ∨ AState r = AttemptRunning ∧ (AClaimExpiresAt r <= now)%Z) ∧ (ACreatedAt r <= now)%Z.

Definition droppable (r : AttemptRecord) : Prop := AState r = AttemptQueued ∨ Terminal (AState r) = true.

Section results.
Context (digestParts : list gostr → gostr).

(** Everything a call can do to the store. *)
Inductive change (s : Store) : AttemptOp → Store → Prop :=
  | ch_none op : change s op s
  | ch_create now p c s1 :
      now ≠ 0%Z → CreateValidate digestParts c = true → bucket s p !! CrID c = None → makeRoomLocked s p = inl s1 →
      change s (ACreate now p c) (putRecord (versionLocked s1).1 p (freshAttempt c (versionLocked s1).2 now))
  | ch_acquire now p id v d r :
      now ≠ 0%Z → validClaimDuration d = true → bucket s p !! id = Some r → AVersion r = v → acquirable now r →
      change s (AAcquire now p id v d)
        (commitLocked (nextClaimGenerationLocked s p id).1 p
           (setClaim (wrapU64 (generation s p id + 1)) (now + d)%Z (setAState AttemptRunning r)) now).1
  | ch_commit now op p id v r r' :
      now ≠ 0%Z → target op = Some (p, id, v) → opTime op = Some now → bucket s p !! id = Some r → AVersion r = v →
      lifecycle now r op r' → change s op (commitLocked s p r' now).1
  | ch_delete p id v r :
      bucket s p !! id = Some r → AVersion r = v → droppable r → change s (ADelete p id v) (dropRecord s p id)
  | ch_purge now p age limit rs :
      Forall (λ r, r ∈ (map_to_list (bucket s p)).*2 ∧ Terminal (AState r) = true) rs →
      change s (ADeleteOld now p age limit) (foldl (λ s r, dropRecord s p (AID r)) s rs).

Lemma IsZero_false t : IsZero t = false → t ≠ 0%Z.
Proof. unfold IsZero. intros ?%Z.eqb_neq. done. Qed.

Ltac refuse := repeat (case_bool; [apply ch_none|]).

(** A record that is idle or whose claim has lapsed. *)
Lemma idle_intro now r :
  (AState r =s AttemptRunning) && (now <? AClaimExpiresAt r)%Z = false →
  AState r = AttemptQueued ∨ AState r = AttemptRunning →
  AState r = AttemptQueued ∨ AState r = AttemptRunning ∧ (AClaimExpiresAt r <= now)%Z.
Proof.
  intros H [?|Hr]; [by left|]. right. split; [done|]. rewrite (bool_decide_true (_ = AttemptRunning)) in H by done.
  by apply Z.ltb_ge in H.
Qed.

Lemma attemptExec_change s op : change s op (attemptExec digestParts s op).1.
Proof.
  destruct op as [now p c|now p id v d|now p id v c d|now p id v c k|now p id v c|now p id v c f|now p id v|now p id v
    |p id v|now p age limit]; cbn [attemptExec].
  - unfold Create. refuse. destruct (bucket s p !! CrID c) eqn:Eb; [case_bool; apply ch_none|].
    destruct (makeRoomLocked s p) eqn:Er; [|apply ch_none]. bprop. apply ch_create; auto using IsZero_false.
  - unfold AcquireClaim. refuse. destruct (currentLocked s p id v) as [r|] eqn:Ec; [|apply ch_none].
    apply currentLocked_inl in Ec as [Hr Hv]. refuse. bprop.
    apply (ch_acquire s now p id v d r); auto using IsZero_false.
    split; [|lia]. apply idle_intro; [done|]. apply andb_false_iff in E2 as [?|?]; bprop; auto.
  - unfold RenewClaim. refuse. destruct (claimed s now p id v c) as [r|] eqn:Ec; [|apply ch_none].
    apply claimed_inl in Ec as (Hr & Hv & Hm). bprop.
    apply (ch_commit s now (ARenew now p id v c d) p id v r); auto using IsZero_false. by constructor.
  - unfold Checkpoint. refuse. destruct (claimed s now p id v c) as [r|] eqn:Ec; [|apply ch_none].
    apply claimed_inl in Ec as (Hr & Hv & Hm). case_bool; [apply ch_none|]. case_bool; [case_bool; apply ch_none|]. bprop.
    apply (ch_commit s now (ACheckpoint now p id v c k) p id v r); auto using IsZero_false. by constructor.
  - unfold ReleaseClaim. refuse. destruct (claimed s now p id v c) as [r|] eqn:Ec; [|apply ch_none].
    apply claimed_inl in Ec as (Hr & Hv & Hm). bprop.
    apply (ch_commit s now (ARelease now p id v c) p id v r); auto using IsZero_false. by constructor.
  - unfold Finalize. refuse. destruct (claimed s now p id v c) as [r|] eqn:Ec; [|apply ch_none].
    apply claimed_inl in Ec as (Hr & Hv & Hm). refuse. bprop.
    apply (ch_commit s now (AFinalize now p id v c f) p id v r); auto using IsZero_false. by constructor.
  - unfold Retry. refuse. destruct (currentLocked s p id v) as [r|] eqn:Ec; [|apply ch_none].
    apply currentLocked_inl in Ec as [Hr Hv]. refuse. bprop.
    apply (ch_commit s now (ARetry now p id v) p id v r); auto using IsZero_false.
    refine (life_retry now r p id v _). unfold ValidAttemptTransition in E0. destruct (AState r); auto; done.
  - unfold Abandon. refuse. destruct (currentLocked s p id v) as [r|] eqn:Ec; [|apply ch_none].
    apply currentLocked_inl in Ec as [Hr Hv]. refuse. bprop.
    apply (ch_commit s now (AAbandon now p id v) p id v r); auto using IsZero_false. constructor.
    apply idle_intro; [done|]. unfold ValidAttemptTransition in E1. destruct (AState r); auto; done.
  - unfold Delete. destruct (currentLocked s p id v) as [r|] eqn:Ec; [|apply ch_none].
    apply currentLocked_inl in Ec as [Hr Hv]. refuse. apply (ch_delete s p id v r); [done..|].
    apply andb_false_iff in E0 as [?|?]; bprop; [by left|by right].
  - unfold DeleteTerminalOlderThan. refuse. cbn [fst]. apply ch_purge. apply Forall_forall.
    intros r Hr. apply elem_of_take in Hr as (i & Hr%list_elem_of_lookup_2 & _).
    rewrite merge_sort_Permutation in Hr. apply list_elem_of_filter in Hr as [[Ht _]%andb_true_iff Hin]. done.
Qed.

(** ** Well-formed records *)

Record wellFormed (r : AttemptRecord) : Prop := {
  wf_id : validOpaque (AID r) MaxAttemptIDBytes = true ∧ HasPrefix (AID r) #"attempt-" = true;
  wf_version : validOpaque (AVersion r) MaxAttemptVersionBytes = true;
  wf_names : StateValid (AState r) = true ∧ OutcomeValid (AOutcome r) = true ∧ FailureValid (AFailureCode r) = true;
  wf_checkpoint : validStoredCheckpoint (ACheckpointStage r) (AProposalID r) (ASkillID r) = true;
  wf_links : validOptionalAttemptLink (AProposalID r) = true ∧ validOptionalAttemptLink (ASkillID r) = true;
  wf_generation : AAttemptGeneration r ≠ 0%Z;
  wf_times : ACreatedAt r ≠ 0%Z ∧ (ACreatedAt r <= AUpdatedAt r)%Z;
  wf_provenance : provenanceValid digestParts (AProvenance r) = true;
  wf_running : AState r = AttemptRunning ↔ (0 < AClaimGeneration r)%Z;
  wf_expiry : AClaimGeneration r = 0%Z ↔ AClaimExpiresAt r = 0%Z;
  wf_shape : stateShape r = true
}.

Lemma eqb_false_bool (a b : bool) : negb (Bool.eqb a b) = false ↔ (a = true ↔ b = true).
Proof. rewrite negb_false_iff, eqb_true_iff. destruct a, b; intuition congruence. Qed.

Lemma wellFormed_iff r : ValidateAttemptRecord digestParts r = true ↔ wellFormed r.
Proof.
  unfold ValidateAttemptRecord. split.
  - intros H. case_bool; [done|]. case_bool; [done|].
    rewrite !orb_false_iff, !negb_false_iff in E. apply orb_false_iff in E0 as [E1 E2].
    rewrite eqb_false_bool, bool_decide_eq_true, Z.ltb_lt in E1.
    unfold IsZero in *. rewrite eqb_false_bool, !Z.eqb_eq in E2. rewrite !Z.eqb_neq, Z.ltb_ge in E. split; tauto.
  - intros []. rewrite (proj2 (orb_false_iff _ _)); [rewrite (proj2 (orb_false_iff _ _)); [done|]|].
    + rewrite !eqb_false_bool, bool_decide_eq_true, Z.ltb_lt. unfold IsZero. by rewrite !Z.eqb_eq.
    + unfold IsZero. rewrite !orb_false_iff, !negb_false_iff, !Z.eqb_neq, Z.ltb_ge. tauto.
Qed.

Lemma IsZero_neq t : IsZero t = false ↔ t ≠ 0%Z.
Proof. apply Z.eqb_neq. Qed.

Lemma checkpoint_stored k :
  CheckpointValidate k = true →
  validStoredCheckpoint (CkStage k) (CkProposalID k) (CkSkillID k) = true ∧
  validOptionalAttemptLink (CkProposalID k) = true ∧ validOptionalAttemptLink (CkSkillID k) = true.
Proof.
  unfold CheckpointValidate. case_bool; [done|]. rewrite !orb_false_iff, !negb_false_iff in E.
  destruct E as [[[Hvalid Hn] Hp] Hk]. intros Hx. split; [|done]. unfold validStoredCheckpoint.
  apply bool_decide_eq_false in Hn. destruct (CkStage k); try done;
    rewrite ?negb_true_iff, ?orb_false_iff, ?negb_false_iff in Hx; rewrite ?andb_true_iff, ?negb_true_iff; done.
Qed.

(** A committed transition of a well-formed record is well formed. *)
Lemma lifecycle_wf now r op r' v :
  wellFormed r → lifecycle now r op r' → (0 < now)%Z → (ACreatedAt r <= now)%Z →
  (AAttemptGeneration r' ≠ 0)%Z → validOpaque v MaxAttemptVersionBytes = true → wellFormed (withCommit v now r').
Proof.
  intros Hw Hl Hnow Hc Hg Hv. destruct Hw as [Wid Wver (Wst & Wout & Wfail) Wcp Wlinks Wgen [Wc Wu] Wprov Wrun Wexp Wshape].
  destruct Hl as [p id v0 c d Hm Hd|p id v0 c k Hm Hk Ha Hne|p id v0 c Hm|p id v0 c f Hm Hf|p id v0 Hs|p id v0 Hs];
    cbn in Hg; [apply matchesClaim_spec in Hm as (Hst & Hcg & _ & Hcg' & _)..| |].
  - unfold validClaimDuration in Hd. apply andb_true_iff in Hd as [Hd _]. apply Z.ltb_lt in Hd.
    split; cbn; try done. lia.
  - apply checkpoint_stored in Hk as (? & ? & ?). split; cbn; try done.
  - split; cbn; try done. unfold stateShape in *. cbn. by rewrite Hst in Wshape.
  - unfold FinalValidate in Hf. split; cbn; try done.
    + destruct (FState f); try done; rewrite !andb_true_iff, ?orb_true_iff, ?bool_decide_eq_true in Hf.
      * by destruct Hf as [[-> | ->] ->].
      * by destruct Hf as [[-> ?] _].
      * by destruct Hf as [-> ->].
    + destruct (FState f); try done; intuition (done || lia).
    + unfold stateShape. cbn. destruct (FState f); try done; rewrite !andb_true_iff, ?orb_true_iff, ?bool_decide_eq_true in Hf.
      * destruct Hf as [[-> | ->] ->]; done.
      * destruct Hf as [[-> _] Hne]. apply negb_true_iff. rewrite bool_decide_true by done. by apply negb_true_iff in Hne.
      * destruct Hf as [-> ->]. done.
  - split; cbn; try done.
  - split; cbn; try done.
Qed.

(** ** Removals *)

(** [s'] is [s] without the records [ids] of [p]. *)
Record removes (s : Store) (p : gostr) (ids : list gostr) (s' : Store) : Prop := {
  rm_version : nextVersion s' = nextVersion s;
  rm_bucket p' id : bucket s' p' !! id = (if decide (p = p' ∧ id ∈ ids) then None else bucket s p' !! id);
  rm_generation p' id : generation s' p' id = (if decide (p = p' ∧ id ∈ ids) then 0%Z else generation s p' id)
}.

Lemma removes_nil s p : removes s p [] s.
Proof. split; [done| |]; intros p' id; rewrite decide_False; try done; by intros [_ ?%not_elem_of_nil]. Qed.

Lemma removes_cons s p id ids s' : removes (dropRecord s p id) p ids s' → removes s p (id :: ids) s'.
Proof.
  intros [Hv Hb Hg]. split; [done|..]; intros p' id'; [rewrite Hb, bucket_drop|rewrite Hg, generation_drop];
    (destruct (decide (p = p')) as [->|Hne]; [|repeat case_decide; naive_solver]);
    (destruct (decide (id' ∈ ids)) as [Hin|Hin];
     [rewrite !decide_True by (rewrite ?elem_of_cons; auto); done|]);
    (destruct (decide (id = id')) as [->|Hne]).
  - rewrite decide_False by tauto. by rewrite lookup_delete_eq, decide_True by (rewrite elem_of_cons; auto).
  - rewrite !decide_False by (rewrite ?elem_of_cons; naive_solver). by rewrite lookup_delete_ne.
  - rewrite decide_False, !decide_True by (rewrite ?elem_of_cons; naive_solver). done.
  - rewrite !decide_False by (rewrite ?elem_of_cons; naive_solver). done.
Qed.

Lemma removes_fold s p rs : removes s p (AID <$> rs) (foldl (λ s r, dropRecord s p (AID r)) s rs).
Proof. revert s. induction rs as [|r rs IH]; intros s; [apply removes_nil|]. csimpl. by apply removes_cons. Qed.

Lemma removes_one s p id : removes s p [id] (dropRecord s p id).
Proof. apply removes_cons, removes_nil. Qed.

(** ** Making room *)

Lemma oldestTerminal_spec rs :
  match oldestTerminal rs with
  | None => Forall (λ r, Terminal (AState r) = false) rs
  | Some o => o ∈ rs ∧ Terminal (AState o) = true
  end.
Proof.
  unfold oldestTerminal. induction rs as [|r rs IH] using rev_ind; [constructor|]. rewrite foldl_snoc.
  destruct (foldl _ None rs) as [o|].
  - destruct IH as [Ho Ht]. destruct (Terminal (AState r)) eqn:Er; simpl; [destruct (olderThan r o)|];
      rewrite elem_of_app; try (split; [|done]; by left). split; [|done]. right. apply list_elem_of_here.
  - rewrite andb_true_r. destruct (Terminal (AState r)) eqn:Er; simpl.
    + split; [|done]. rewrite elem_of_app. right. apply list_elem_of_here.
    + apply Forall_app. split; [done|]. by constructor.
Qed.

(** Every record is filed under its own id. *)
Definition keyed (s : Store) : Prop := ∀ p id r, bucket s p !! id = Some r → AID r = id.

Lemma makeRoom_spec s p s1 :
  keyed s → size (bucket s p) <= MaxAttemptsPerPartition → makeRoomLocked s p = inl s1 →
  size (bucket s1 p) < MaxAttemptsPerPartition ∧
  (s1 = s ∨ ∃ o, bucket s p !! AID o = Some o ∧ Terminal (AState o) = true ∧ removes s p [AID o] s1).
Proof.
  intros Hk Hs. unfold makeRoomLocked. destruct (Nat.ltb_spec (size (bucket s p)) MaxAttemptsPerPartition).
  { intros [= <-]. auto. }
  pose proof (oldestTerminal_spec (map_to_list (bucket s p)).*2) as Ho.
  destruct (oldestTerminal _) as [o|]; [|done]. intros [= <-]. destruct Ho as [Ho Ht].
  apply list_elem_of_fmap in Ho as ([id o'] & -> & Hin%elem_of_map_to_list). simpl in *.
  pose proof (Hk p id o' Hin) as <-. split; [|right; exists o'; split_and!; [done..|apply removes_one]].
  rewrite bucket_drop, decide_True by done. rewrite map_size_delete, Hin. unfold MaxAttemptsPerPartition in *. lia.
Qed.

(** ** The invariant of the store *)

Record recordOk (t : Time) (s : Store) (p id : gostr) (r : AttemptRecord) : Prop := {
  ro_key : AID r = id;
  ro_wf : wellFormed r;
  ro_version : ∃ k, AVersion r = versionOf k ∧ (0 < k <= nextVersion s)%Z;
  ro_attempts : (0 < AAttemptGeneration r <= nextVersion s)%Z;
  ro_claim : (AClaimGeneration r <= generation s p id)%Z;
  ro_created : (0 < ACreatedAt r <= t)%Z
}.

Record storeInv (t : Time) (s : Store) : Prop := {
  si_version : (0 <= nextVersion s)%Z;
  si_generation p id : (0 <= generation s p id <= nextVersion s)%Z;
  si_records p id r : bucket s p !! id = Some r → recordOk t s p id r;
  si_size p : size (bucket s p) <= MaxAttemptsPerPartition
}.

Lemma storeInv_keyed t s : storeInv t s → keyed s.
Proof. intros [_ _ H _] p id r Hr. apply (ro_key _ _ _ _ _ (H p id r Hr)). Qed.

Lemma storeInv_later t t' s : (t <= t')%Z → storeInv t s → storeInv t' s.
Proof.
  intros Ht [H1 H2 H3 H4]. split; [done..| |done]. intros p id r Hr. destruct (H3 p id r Hr). split; try done. lia.
Qed.

Lemma storeInv_removes t s p ids s' : storeInv t s → removes s p ids s' → storeInv t s'.
Proof.
  intros [H1 H2 H3 H4] [R1 R2 R3]. split.
  - by rewrite R1.
  - intros p' id. rewrite R1, R3. specialize (H2 p' id). case_decide; lia.
  - intros p' id r. rewrite R2. case_decide as E; [done|]. intros Hr. destruct (H3 p' id r Hr) as [? ? ? ? Hc ?].
    split; rewrite ?R1; try done. by rewrite R3, decide_False.
  - intros p'. etrans; [|apply (H4 p')]. apply map_subseteq_size, map_subseteq_spec. intros id r. rewrite R2.
    by case_decide.
Qed.

Lemma commit_bucket s p r now p' :
  bucket (commitLocked s p r now).1 p' =
  if decide (p = p') then <[AID r := withCommit (versionLocked s).2 now r]> (bucket s p') else bucket s p'.
Proof. unfold commitLocked. simpl. by rewrite bucket_put. Qed.

(** Committing a record: [s0] is [s], or [s] with one more claim generation. *)
Lemma storeInv_commit t s s0 p r now :
  storeInv t s → (nextVersion s < maxUint64)%Z → nextVersion s0 = nextVersion s → (∀ p, bucket s0 p = bucket s p) →
  (∀ p id, generation s p id <= generation s0 p id <= nextVersion s + 1)%Z →
  (∀ v, validOpaque v MaxAttemptVersionBytes = true → wellFormed (withCommit v now r)) →
  (0 < AAttemptGeneration r <= nextVersion s + 1)%Z → (AClaimGeneration r <= generation s0 p (AID r))%Z →
  (0 < ACreatedAt r <= now)%Z → (t <= now)%Z →
  (is_Some (bucket s p !! AID r) ∨ size (bucket s p) < MaxAttemptsPerPartition) →
  storeInv now (commitLocked s0 p r now).1.
Proof.
  intros [H1 H2 H3 H4] Hmax Hn Hb Hg Hwf Ha Hc Hcr Ht Hsize.
  assert (Hnv : nextVersion (commitLocked s0 p r now).1 = (nextVersion s + 1)%Z).
  { unfold commitLocked, versionLocked. simpl. rewrite Hn. apply wrapU64_id. lia. }
  assert (Hgen : ∀ p' id, generation (commitLocked s0 p r now).1 p' id = generation s0 p' id) by done.
  assert (Hv : (versionLocked s0).2 = versionOf (nextVersion s + 1)).
  { unfold versionLocked, versionOf. simpl. rewrite Hn, wrapU64_id by lia. done. }
  split.
  - lia.
  - intros p' id. rewrite Hnv, Hgen. specialize (H2 p' id). specialize (Hg p' id). lia.
  - intros p' id r'. rewrite commit_bucket, Hb. intros Hr.
    assert (Hold : ∀ r', bucket s p' !! id = Some r' → recordOk now (commitLocked s0 p r now).1 p' id r').
    { intros r1 Hr1. destruct (H3 p' id r1 Hr1) as [K1 K2 (k & K3 & K4) K5 K6 K7].
      split; rewrite ?Hnv, ?Hgen; try done; [exists k; split; [done|lia]|lia| |lia]. specialize (Hg p' id). lia. }
    case_decide as E; [|by apply Hold]. subst p'. rewrite lookup_insert_Some in Hr.
    destruct Hr as [[<- <-]|[_ Hr]]; [|by apply Hold]. rewrite Hv.
    split; cbn -[commitLocked]; rewrite ?Hnv, ?Hgen; try done; try lia.
    + apply Hwf, versionOf_valid. lia.
    + exists (nextVersion s + 1)%Z. split; [done|lia].
  - intros p'. rewrite commit_bucket, Hb. case_decide as E; [|apply H4]. subst p'. rewrite map_size_insert.
    specialize (H4 p). destruct Hsize as [[? ->]|]; [done|]. case_match; unfold id; lia.
Qed.

(** The clock after a call. *)
Definition clockOf (t : Time) (op : AttemptOp) : Time := default t (opTime op).

Lemma wellFormed_fresh now v c :
  CreateValidate digestParts c = true → (0 < now)%Z → validOpaque v MaxAttemptVersionBytes = true →
  wellFormed (freshAttempt c v now).
Proof.
  unfold CreateValidate. rewrite negb_true_iff, !orb_false_iff, !negb_false_iff. intros [[Hid Hpre] Hp] Hnow Hv.
  split; cbn; try done; try lia.
Qed.

Lemma wellFormed_acquired now d g r v :
  wellFormed r → acquirable now r → validClaimDuration d = true → (0 < now)%Z → (0 < g)%Z →
  validOpaque v MaxAttemptVersionBytes = true →
  wellFormed (withCommit v now (setClaim g (now + d)%Z (setAState AttemptRunning r))).
Proof.
  intros [Wid Wver (Wst & Wout & Wfail) Wcp Wlinks Wgen [Wc Wu] Wprov Wrun Wexp Wshape] [Hs Hc] Hd Hnow Hg Hv.
  unfold validClaimDuration in Hd. apply andb_true_iff in Hd as [Hd _]. apply Z.ltb_lt in Hd.
  split; cbn; try done; try lia. unfold stateShape in *. cbn. destruct Hs as [Hs|[Hs _]]; by rewrite Hs in Wshape.
Qed.

Lemma lifecycle_fields now r op r' :
  lifecycle now r op r' →
  AID r' = AID r ∧ AProvenance r' = AProvenance r ∧ ACreatedAt r' = ACreatedAt r ∧
  (AClaimGeneration r' = AClaimGeneration r ∨ AClaimGeneration r' = 0%Z) ∧
  (AAttemptGeneration r' = AAttemptGeneration r ∨ AAttemptGeneration r' = wrapU64 (AAttemptGeneration r + 1)).
Proof. intros []; cbn; auto 10. Qed.

Lemma storeInv_change t s op s' :
  storeInv t s → (nextVersion s < maxUint64)%Z → change s op s' → (t <= clockOf t op)%Z →
  (∀ now, opTime op = Some now → 0 < now)%Z → storeInv (clockOf t op) s'.
Proof.
  intros Hi Hmax Hch Ht Hpos. pose proof Hi as [H1 H2 H3 H4].
  destruct Hch as [op|now p c s1 Hne Hval Hb Hroom|now p id v d r Hne Hd Hr Hv Hacq|now op p id v r r' Hne Htg Hop Hr Hv Hl
    |p id v r Hr Hv Hdrop|now p age limit rs Hrs]; unfold clockOf in *; cbn [opTime default from_option Datatypes.id] in Ht, Hpos |- *.
  - by eapply storeInv_later.
  - specialize (Hpos now eq_refl).
    assert (Hs1 : storeInv t s1 ∧ nextVersion s1 = nextVersion s ∧ bucket s1 p !! CrID c = None).
    { destruct (makeRoom_spec s p s1) as [_ [->|(o & _ & _ & R)]]; eauto using storeInv_keyed. split_and!.
      - by eapply storeInv_removes.
      - apply (rm_version _ _ _ _ R).
      - rewrite (rm_bucket _ _ _ _ R), Hb. by case_decide. }
    destruct Hs1 as (Hi1 & Hn1 & Hb1). destruct (makeRoom_spec s p s1) as [Hsz _]; eauto using storeInv_keyed.
    change (storeInv now (commitLocked s1 p (freshAttempt c (versionLocked s1).2 now) now).1).
    destruct Hi1 as [K1 K2 K3 K4].
    apply (storeInv_commit t s1); auto; cbn; try lia; [by split| | |apply K2].
    + intros p' id'. specialize (K2 p' id'). lia.
    + intros v Hv. by apply wellFormed_fresh.
  - specialize (Hpos now eq_refl). destruct (H3 p id r Hr) as [Hk Hw _ Ha _ Hc].
    pose proof (H2 p id) as Hg. assert (Hwr : wrapU64 (generation s p id + 1) = (generation s p id + 1)%Z)
      by (apply wrapU64_id; lia).
    apply (storeInv_commit t s); auto; try lia; cbn -[nextClaimGenerationLocked]; try lia.
    + intros p' id'. rewrite generation_next. specialize (H2 p' id'). case_decide as E; [|lia].
      destruct E as [-> ->]. lia.
    + intros w Hw'. apply wellFormed_acquired; auto. lia.
    + rewrite generation_next, decide_True by done. lia.
    + left. rewrite Hk. eauto.
  - rewrite Hop in Ht |- *. cbn in *. specialize (Hpos now Hop). destruct (H3 p id r Hr) as [Hk Hw _ Ha Hcl Hc].
    pose proof (lifecycle_fields _ _ _ _ Hl) as (F1 & _ & F3 & F4 & F5).
    rewrite (wrapU64_id (AAttemptGeneration r + 1)) in F5 by lia. pose proof (H2 p id) as Hg.
    apply (storeInv_commit t s); auto; try lia.
    + intros p' id'. specialize (H2 p' id'). lia.
    + intros w Hw'. eapply lifecycle_wf; eauto; lia.
    + rewrite F1, Hk. lia.
    + left. rewrite F1, Hk. eauto.
  - eapply storeInv_removes; [done|apply removes_one].
  - eapply storeInv_later; [exact Ht|]. eapply storeInv_removes; [done|apply removes_fold].
Qed.

(** ** Runs of the store *)

(** The key a call may write. *)
Definition written (op : AttemptOp) : option (gostr * gostr) :=
  match op with ACreate _ p c => Some (p, CrID c) | _ => fst <$> target op end.

(** A record after a call was there before, or the call wrote it under a new version. *)
Lemma change_lookup t s op s' p id r :
  storeInv t s → (nextVersion s < maxUint64)%Z → change s op s' → bucket s' p !! id = Some r →
  bucket s p !! id = Some r ∨ AVersion r = versionOf (nextVersion s + 1) ∧ written op = Some (p, id).
Proof.
  intros Hi Hmax Hch. pose proof Hi as [H1 H2 H3 H4].
  assert (Hver : (versionLocked s).2 = versionOf (nextVersion s + 1)).
  { unfold versionLocked, versionOf. simpl. rewrite wrapU64_id by lia. done. }
  destruct Hch as [op|now p1 c s1 Hne Hval Hb Hroom|now p1 id1 v d r1 Hne Hd Hr Hv Hacq|now op p1 id1 v r1 r' Hne Htg Hop Hr Hv Hl
    |p1 id1 v r1 Hr Hv Hdrop|now p1 age limit rs Hrs].
  - auto.
  - destruct (makeRoom_spec s p1 s1) as [_ Hs1]; eauto using storeInv_keyed.
    assert (Hold : ∀ q i x, bucket s1 q !! i = Some x → bucket s q !! i = Some x).
    { intros q i x. destruct Hs1 as [->|(o & _ & _ & R)]; [done|]. rewrite (rm_bucket _ _ _ _ R). by case_decide. }
    assert (Hn : nextVersion s1 = nextVersion s) by (destruct Hs1 as [->|(o & _ & _ & R)]; [done|apply (rm_version _ _ _ _ R)]).
    rewrite bucket_put, bucket_version. case_decide as E; [|eauto]. subst p1.
    rewrite lookup_insert_Some. cbn -[versionLocked]. intros [[<- <-]|[_ Hr]]; [right|eauto]. split; [|done].
    cbn -[versionLocked]. rewrite <-Hver. unfold versionLocked. simpl. by rewrite Hn.
  - rewrite commit_bucket. change (bucket (nextClaimGenerationLocked s p1 id1).1 p) with (bucket s p).
    case_decide as E; [|auto]. subst p1. rewrite lookup_insert_Some. intros [[<- <-]|[_ ?]]; [right|auto].
    cbn. rewrite (ro_key _ _ _ _ _ (H3 _ _ _ Hr)). by rewrite <-Hver.
  - rewrite commit_bucket. case_decide as E; [|auto]. subst p1.
    pose proof (lifecycle_fields _ _ _ _ Hl) as (F1 & _). rewrite F1, (ro_key _ _ _ _ _ (H3 _ _ _ Hr)).
    rewrite lookup_insert_Some. intros [[<- <-]|[_ ?]]; [right|auto]. split; [done|].
    unfold written. rewrite Htg. by destruct op.
  - rewrite (rm_bucket _ _ _ _ (removes_one s p1 id1)). case_decide; [done|auto].
  - rewrite (rm_bucket _ _ _ _ (removes_fold s p1 rs)). case_decide; [done|auto].
Qed.

Lemma change_version t s op s' :
  storeInv t s → (nextVersion s < maxUint64)%Z → change s op s' →
  (nextVersion s <= nextVersion s' <= nextVersion s + 1)%Z.
Proof.
  intros Hi Hmax Hch. pose proof (si_version _ _ Hi) as H0. pose proof (wrapU64_id (nextVersion s + 1)) as Hw.
  destruct Hch as [op|now p1 c s1 Hne Hval Hb Hroom| | | |now p1 age limit rs Hrs]; cbn; try lia.
  - destruct (makeRoom_spec s p1 s1) as [_ [->|(o & _ & _ & R)]]; eauto using storeInv_keyed, si_size.
    + lia.
    + rewrite (rm_version _ _ _ _ R). lia.
  - rewrite (rm_version _ _ _ _ (removes_fold s p1 rs)). lia.
Qed.

(** Calls made at times in order, from [t] on. *)
Fixpoint inOrder (t : Time) (ops : list AttemptOp) : Prop :=
  match ops with
  | [] => True
  | op :: ops' =>
      match opTime op with None => True | Some now => (0 < now)%Z ∧ (t <= now)%Z end ∧ inOrder (clockOf t op) ops'
  end.

Lemma inOrder_app t ops1 ops2 :
  inOrder t (ops1 ++ ops2) ↔ inOrder t ops1 ∧ inOrder (foldl clockOf t ops1) ops2.
Proof. revert t. induction ops1 as [|op ops IH]; intros t; simpl; [tauto|]. rewrite IH. tauto. Qed.

Lemma attemptRun_app s ops1 ops2 :
  attemptRun digestParts s (ops1 ++ ops2) = attemptRun digestParts (attemptRun digestParts s ops1) ops2.
Proof. revert s. induction ops1 as [|op ops IH]; intros s; simpl; [done|]. apply IH. Qed.

Lemma storeInv_exec t s op :
  storeInv t s → (nextVersion s < maxUint64)%Z →
  match opTime op with None => True | Some now => (0 < now)%Z ∧ (t <= now)%Z end →
  storeInv (clockOf t op) (attemptExec digestParts s op).1 ∧
  (nextVersion s <= nextVersion (attemptExec digestParts s op).1 <= nextVersion s + 1)%Z.
Proof.
  intros Hi Hmax Ht. pose proof (attemptExec_change s op) as Hch. split; [|by eapply change_version].
  eapply storeInv_change; [done..| |]; unfold clockOf; destruct (opTime op); simpl; naive_solver.
Qed.

Lemma storeInv_New : storeInv 0 New.
Proof.
  assert (Hb : ∀ p, bucket New p = ∅) by (intros p; unfold bucket; simpl; by rewrite lookup_empty).
  split; simpl; [lia|..].
  - intros p id. unfold generation. simpl. rewrite lookup_empty. simpl. rewrite lookup_empty. simpl. lia.
  - intros p id r. by rewrite Hb, lookup_empty.
  - intros p. rewrite Hb, map_size_empty. unfold MaxAttemptsPerPartition. lia.
Qed.

Lemma storeInv_run t s ops :
  storeInv t s → inOrder t ops → (nextVersion s + Z.of_nat (length ops) <= maxUint64)%Z →
  storeInv (foldl clockOf t ops) (attemptRun digestParts s ops) ∧
  (nextVersion s <= nextVersion (attemptRun digestParts s ops) <= nextVersion s + Z.of_nat (length ops))%Z.
Proof.
  revert t s. induction ops as [|op ops IH]; intros t s Hi; cbn [inOrder attemptRun length foldl].
  { intros _ _. split; [done|lia]. }
  intros [Hop Ho] Hlen. destruct (storeInv_exec t s op) as [Hi' Hv]; [done|lia|done|].
  destruct (IH _ _ Hi' Ho) as [? ?]; [lia|]. split; [done|lia].
Qed.

(** A version of the past names the record it named then. *)
Lemma run_old_version t s ops p id r k :
  storeInv t s → inOrder t ops → (nextVersion s + Z.of_nat (length ops) <= maxUint64)%Z →
  bucket (attemptRun digestParts s ops) p !! id = Some r → AVersion r = versionOf k → (k <= nextVersion s)%Z →
  bucket s p !! id = Some r.
Proof.
  revert t s. induction ops as [|op ops IH]; intros t s Hi; cbn [inOrder attemptRun length]; [done|].
  intros [Hop Ho] Hlen Hr Hk Hle. destruct (storeInv_exec t s op) as [Hi' Hv]; [done|lia|done|].
  apply (IH _ _ Hi' Ho) in Hr; [|lia|done|lia].
  destruct (change_lookup t s op (attemptExec digestParts s op).1 p id r Hi) as [?|[Hk' _]]; [lia|apply attemptExec_change|done|done|].
  rewrite Hk in Hk'. apply versionOf_inj in Hk'. lia.
Qed.

(** Two records never have the same version. *)
Definition distinctVersions (s : Store) : Prop :=
  ∀ p id r p' id' r', bucket s p !! id = Some r → bucket s p' !! id' = Some r' → AVersion r = AVersion r' →
  p = p' ∧ id = id'.

Lemma distinct_run t s ops :
  storeInv t s → inOrder t ops → (nextVersion s + Z.of_nat (length ops) <= maxUint64)%Z →
  distinctVersions s → distinctVersions (attemptRun digestParts s ops).
Proof.
  revert t s. induction ops as [|op ops IH]; intros t s Hi; cbn [inOrder attemptRun length]; [done|].
  intros [Hop Ho] Hlen Hd. destruct (storeInv_exec t s op) as [Hi' Hv]; [done|lia|done|].
  apply (IH _ _ Hi' Ho); [lia|]. intros p id r p' id' r' Hr Hr' Heq. pose proof (attemptExec_change s op) as Hch.
  assert (Hnew : ∀ q i x, bucket s q !! i = Some x → AVersion x = versionOf (nextVersion s + 1) → False).
  { intros q i x Hx Hxv. destruct (ro_version _ _ _ _ _ (si_records _ _ Hi q i x Hx)) as (k & Hk & Hle).
    rewrite Hk in Hxv. apply versionOf_inj in Hxv. lia. }
  destruct (change_lookup t s op (attemptExec digestParts s op).1 p id r Hi) as [Ho1|[V1 W1]]; [lia|done..| |];
    (destruct (change_lookup t s op (attemptExec digestParts s op).1 p' id' r' Hi) as [Ho2|[V2 W2]]; [lia|done..| |]).
  - eauto.
  - exfalso. eapply Hnew; [exact Ho1|congruence].
  - exfalso. eapply Hnew; [exact Ho2|congruence].
  - by simplify_eq.
Qed.
End results.

(** * Theorems *)

Section theorems.
Context (digestParts : list gostr → gostr).

Abbreviation exec := (attemptExec digestParts).
Abbreviation run := (attemptRun digestParts).

Lemma run_inv ops :
  inOrder 0 ops → (Z.of_nat (length ops) <= maxUint64)%Z →
  storeInv digestParts (foldl clockOf 0%Z ops) (run New ops) ∧ (nextVersion (run New ops) <= Z.of_nat (length ops))%Z.
Proof.
  intros Ho Hlen. destruct (storeInv_run digestParts 0 New ops (storeInv_New _) Ho) as [? [_ ?]]; [done|]. by split.
Qed.

(** The store's type.  After any calls made at times in order (fewer than
    2^64 of them), every stored attempt passes the record validation, is filed
    under its own id, and no partition holds more than 256. *)
Theorem attempt_records_valid ops p :
  inOrder 0 ops → (Z.of_nat (length ops) <= maxUint64)%Z →
  (∀ id r, Get (run New ops) p id = Some r → ValidateAttemptRecord digestParts r = true ∧ AID r = id) ∧
  size (bucket (run New ops) p) <= MaxAttemptsPerPartition.
Proof.
  intros Ho Hlen. destruct (run_inv ops Ho Hlen) as [Hi _]. split; [|apply (si_size _ _ _ Hi)].
  intros id r Hr. destruct (si_records _ _ _ Hi p id r Hr) as [Hk Hw _ _ _ _]. by rewrite wellFormed_iff.
Qed.

(** Versions. *)
Lemma run_distinct ops :
  inOrder 0 ops → (Z.of_nat (length ops) <= maxUint64)%Z → distinctVersions (run New ops).
Proof.
  intros Ho Hlen. apply (distinct_run digestParts 0); [apply storeInv_New|done..|].
  intros p id r p' id' r'. unfold bucket. simpl. by rewrite lookup_empty.
Qed.

(** Versions have no ABA.  If a version read at one moment of a run is found on
    a record at a later moment, it is the same record of the same partition with
    the same content: a caller whose expected version still matches has seen
    everything there is to see, whatever was written or deleted in between. *)
Theorem attempt_version_identifies ops1 ops2 p id r p' id' r' :
  inOrder 0 (ops1 ++ ops2) → (Z.of_nat (length (ops1 ++ ops2)) <= maxUint64)%Z →
  Get (run New ops1) p id = Some r → Get (run New (ops1 ++ ops2)) p' id' = Some r' → AVersion r' = AVersion r →
  p' = p ∧ id' = id ∧ r' = r.
Proof.
  intros [Ho1 Ho2]%inOrder_app Hlen Hr Hr' Hv. rewrite length_app in Hlen.
  destruct (run_inv ops1) as [Hi1 Hn]; [done|lia|].
  destruct (ro_version _ _ _ _ _ _ (si_records _ _ _ Hi1 p id r Hr)) as (k & Hk & Hle). unfold Get in Hr'.
  rewrite attemptRun_app in Hr'.
  eapply (run_old_version digestParts _ _ ops2) in Hr'; [|done|done|lia|by rewrite Hv|lia].
  destruct (run_distinct ops1) with p' id' r' p id r as [-> ->]; [done|lia|done..|]. split_and!; [done..|].
  unfold Get in Hr. congruence.
Qed.

(** A call that says it failed. *)
Definition failed (o : AttemptResult) : Prop := ∃ e, o = AErr e.

(** Case analysis on the guards of a call, none of which writes. *)
Ltac guards :=
  unfold attemptExec, Create, AcquireClaim, RenewClaim, Checkpoint, ReleaseClaim, Finalize, Retry, Abandon, Delete,
    DeleteTerminalOlderThan, claimed;
  repeat (case_match; try solve [done | eexists; reflexivity]).

(** Errors.  A call that answers an error has changed nothing.  A call on a
    missing record, or with any version but the record's own, answers an error;
    so does a call that presents a claim which is not the record's claim or has
    lapsed. *)
Theorem attempt_errors_write_nothing s op :
  (failed (exec s op).2 → (exec s op).1 = s) ∧
  (∀ p id v, target op = Some (p, id, v) → (∀ r, Get s p id = Some r → AVersion r ≠ v) → failed (exec s op).2) ∧
  (∀ p id v r c now, target op = Some (p, id, v) → Get s p id = Some r → presented op = Some c → opTime op = Some now →
     matchesClaim r c now = false → failed (exec s op).2).
Proof.
  split_and!.
  - intros [e He]. revert He. destruct op; guards.
  - intros p id v Ht Hr.
    assert (Hcur : ∃ e, currentLocked s p id v = inr e).
    { unfold currentLocked. unfold Get in Hr. destruct (bucket s p !! id) as [r|]; [|eauto].
      specialize (Hr r eq_refl). rewrite bool_decide_false by done. simpl. eauto. }
    destruct Hcur as [e He]. destruct op; simplify_eq/=; guards; congruence.
  - intros p id v r c now Ht Hr Hc Hnow Hm.
    assert (Hcl : ∃ e, claimed s now p id v c = inr e).
    { unfold claimed, currentLocked. unfold Get in Hr. rewrite Hr. case_bool; [eauto|]. rewrite Hm. simpl. eauto. }
    destruct Hcl as [e He]. revert He. destruct op; simplify_eq/=; guards; intros; simplify_eq/=; congruence.
Qed.

(** A call by someone who does not hold the claim of the running record [r], while
    the claim lasts.  [Retry] is left out: it does not look at the claim. *)
Definition outsider (p id : gostr) (r : AttemptRecord) (op : AttemptOp) : Prop :=
  (∀ now, opTime op = Some now → now < AClaimExpiresAt r)%Z ∧
  (∀ v c, target op = Some (p, id, v) → presented op = Some c →
     CGeneration c ≠ AClaimGeneration r ∨ CExpiresAt c ≠ AClaimExpiresAt r) ∧
  (∀ now v, op ≠ ARetry now p id v).

Lemma outsider_step t s p id r op :
  storeInv digestParts t s → bucket s p !! id = Some r → AState r = AttemptRunning → outsider p id r op →
  bucket (exec s op).1 p !! id = Some r.
Proof.
  intros Hi Hr Hrun (Hearly & Hcl & Hretry). pose proof (storeInv_keyed _ _ _ Hi) as Hkey.
  assert (Hnt : Terminal (AState r) = false) by (by rewrite Hrun).
  destruct (attemptExec_change digestParts s op) as [op|now p1 c s1 Hne Hval Hb Hroom|now p1 id1 v d r1 Hne Hd Hr1 Hv Hacq
    |now op p1 id1 v r1 r' Hne Htg Hop Hr1 Hv Hl|p1 id1 v r1 Hr1 Hv Hdrop|now p1 age limit rs Hrs].
  - done.
  - destruct (makeRoom_spec digestParts s p1 s1) as [_ Hs1]; [done|apply (si_size _ _ _ Hi)|done|].
    rewrite bucket_put, bucket_version. assert (Hr1 : bucket s1 p !! id = Some r).
    { destruct Hs1 as [->|(o & Ho & Hterm & R)]; [done|]. rewrite (rm_bucket _ _ _ _ R), decide_False; [done|].
      intros [-> ->%list_elem_of_singleton]. congruence. }
    case_decide as E; [|done]. subst p1. rewrite lookup_insert_ne; [done|]. cbn. intros Hid. congruence.
  - rewrite commit_bucket. case_decide as E; [|done]. subst p1. cbn. rewrite (Hkey _ _ _ Hr1).
    rewrite lookup_insert_ne; [done|]. intros ->. simplify_eq. destruct Hacq as [[?|[_ ?]] _]; [congruence|].
    specialize (Hearly now eq_refl). lia.
  - rewrite commit_bucket. case_decide as E; [|done]. subst p1.
    pose proof (lifecycle_fields _ _ _ _ Hl) as (F1 & _). rewrite F1, (Hkey _ _ _ Hr1).
    rewrite lookup_insert_ne; [done|]. intros ->. rewrite Hr in Hr1. injection Hr1 as <-. specialize (Hearly now Hop).
    destruct Hl as [p0 id0 v0 c d Hm _|p0 id0 v0 c k Hm _ _ _|p0 id0 v0 c Hm|p0 id0 v0 c f Hm _|p0 id0 v0 _|p0 id0 v0 Hs];
      [apply matchesClaim_spec in Hm as (_ & _ & _ & G & X); destruct (Hcl v c Htg eq_refl); congruence..| |].
    + simplify_eq/=. by eapply Hretry.
    + destruct Hs as [?|[_ ?]]; [congruence|lia].
  - rewrite (rm_bucket _ _ _ _ (removes_one digestParts s p1 id1)), decide_False; [done|].
    intros [-> ->%list_elem_of_singleton]. simplify_eq. destruct Hdrop; congruence.
  - rewrite (rm_bucket _ _ _ _ (removes_fold digestParts s p1 rs)), decide_False; [done|].
    intros [-> (x & -> & Hx)%list_elem_of_fmap]. rewrite Forall_forall in Hrs. destruct (Hrs x Hx) as [Hin Hterm].
    apply list_elem_of_fmap in Hin as ([k y] & -> & Hin%elem_of_map_to_list). simpl in *.
    rewrite (Hkey _ _ _ Hin) in Hr. congruence.
Qed.

Lemma outsider_run t s p id r ops :
  storeInv digestParts t s → inOrder t ops → (nextVersion s + Z.of_nat (length ops) <= maxUint64)%Z →
  bucket s p !! id = Some r → AState r = AttemptRunning → Forall (outsider p id r) ops →
  bucket (run s ops) p !! id = Some r.
Proof.
  intros Hi Ho Hlen Hr Hrun Hops. revert t s Hi Ho Hlen Hr. induction Hops as [|op ops Hop _ IH]; intros t s Hi; [done|].
  cbn [inOrder attemptRun length]. intros [Ht Ho] Hlen Hr.
  destruct (storeInv_exec digestParts t s op) as [Hi' Hv]; [done|lia|done|].
  apply (IH _ _ Hi' Ho); [lia|]. by apply (outsider_step t).
Qed.

Lemma acquire_spec s now p id v d r c :
  keyed s → (AcquireClaim s now p id v d).2 = AClaimed r c →
  bucket (AcquireClaim s now p id v d).1 p !! id = Some r ∧ AState r = AttemptRunning ∧
  c = mkClaim (AClaimGeneration r) (AClaimExpiresAt r).
Proof.
  intros Hkey. unfold AcquireClaim. repeat (case_bool; [done|]).
  destruct (currentLocked s p id v) as [r0|] eqn:Ec; [|done]. apply currentLocked_inl in Ec as [Hr0 _].
  repeat (case_bool; [done|]). cbn. intros [= <- <-]. split; [|done].
  rewrite bucket_put, decide_True by done. cbn. rewrite (Hkey _ _ _ Hr0). by rewrite lookup_insert_eq.
Qed.

Lemma finalize_spec s now p id c f r :
  bucket s p !! id = Some r → matchesClaim r c now = true → now ≠ 0%Z → FinalValidate f = true →
  ∃ r', (Finalize s now p id (AVersion r) c f).2 = ARecord r' ∧ AState r' = FState f.
Proof.
  intros Hr Hm Hnow Hf. unfold Finalize, claimed, currentLocked. rewrite (proj2 (IsZero_neq now)), Hf, Hr by done.
  cbn [negb]. rewrite bool_decide_true by done. cbn [negb]. rewrite Hm. cbn [negb].
  destruct (matchesClaim_spec _ _ _ Hm) as [Hst _]. rewrite Hst. unfold FinalValidate in Hf.
  destruct (FState f) eqn:Ef; try done; cbn; eauto.
Qed.

(** C34. A claim is exclusive, but for a retry.  After a successful acquisition, whatever
    calls others make before it expires (acquisitions, abandonments, deletions and
    purges, retries of other attempts, calls with another claim, the eviction of a full
    partition), the record stays exactly as the claim's holder left it, and the holder can
    still finalize it with the version it was given.  Clock readings do not go back and
    there are fewer than 2^64 calls.  A retry of this attempt is excluded: at the current
    version it takes the live claim away ([attempt_retry_takes_live_claim]). *)
Theorem attempt_claim_exclusive ops0 now p id v d r c ops f later :
  let s1 := run New (ops0 ++ [AAcquire now p id v d]) in
  inOrder 0 (ops0 ++ AAcquire now p id v d :: ops) → (Z.of_nat (length ops0 + S (length ops)) <= maxUint64)%Z →
  (exec (run New ops0) (AAcquire now p id v d)).2 = AClaimed r c →
  Forall (outsider p id r) ops → FinalValidate f = true → (0 < later < CExpiresAt c)%Z →
  Get (run s1 ops) p id = Some r ∧
  ∃ r', (exec (run s1 ops) (AFinalize later p id (AVersion r) c f)).2 = ARecord r' ∧ AState r' = FState f.
Proof.
  intros s1 Ho Hlen Hacq Hops Hf Hlater.
  rewrite (cons_middle (AAcquire now p id v d)), app_assoc in Ho. apply inOrder_app in Ho as [Ho1 Ho2].
  destruct (run_inv (ops0 ++ [AAcquire now p id v d])) as [Hi Hn]; [done|rewrite length_app; simpl; lia|].
  rewrite length_app in Hn. simpl in Hn.
  pose proof (proj1 (inOrder_app _ _ _) Ho1) as [Ho0 [[Hnow _] _]]. simpl in Hnow.
  destruct (run_inv ops0 Ho0) as [Hi0 _]; [lia|].
  assert (Hs1 : bucket s1 p !! id = Some r ∧ AState r = AttemptRunning ∧ c = mkClaim (AClaimGeneration r) (AClaimExpiresAt r)).
  { subst s1. rewrite attemptRun_app. by eapply acquire_spec; [eapply storeInv_keyed|]. }
  fold s1 in Hi, Hn. destruct Hs1 as (Hr & Hst & ->). cbn in Hlater.
  assert (Hget : bucket (run s1 ops) p !! id = Some r) by (eapply (outsider_run _ s1); eauto; lia).
  split; [done|]. apply finalize_spec; [done| |lia|done].
  pose proof (wf_running _ _ (ro_wf _ _ _ _ _ _ (si_records _ _ _ Hi p id r Hr))) as Hrun.
  unfold matchesClaim, ValidAt, ClaimValid, IsZero. cbn.
  rewrite !andb_true_iff, !negb_true_iff, !Z.ltb_lt, !Z.eqb_eq, !Z.eqb_neq, bool_decide_eq_true. split_and!; try done; try lia.
  by apply Hrun.
Qed.
End theorems.

(** ** Examples *)

Definition exDigest : gostr := repeat 97%N 64.
Definition exParts (_ : list gostr) : gostr := exDigest.
Definition exSource : AttemptSource := mkSource #"s1" #"r1" exDigest.
Definition exPrompt : CurrentPromptBinding := mkPrompt 0 exDigest PromptOriginCurrentPrincipal.
Definition exCreate (id : gostr) : AttemptCreate := mkCreate id (mkProvenance AdmissionHard exSource exPrompt exDigest).
Definition exA : gostr := #"attempt-a".
Definition exB : gostr := #"attempt-b".

(** Two attempts, the first one acquired and failed, then tried again. *)
Definition exOps : list AttemptOp :=
  [ ACreate 10 #"p" (exCreate exA); ACreate 11 #"p" (exCreate exB);
    AAcquire 12 #"p" exA #"mem-1" 100;
    AFinalize 13 #"p" exA #"mem-3" (mkClaim 1 112) (mkFinal AttemptFailed AttemptOutcomeFailed FailureInternal);
    ARetry 14 #"p" exA #"mem-4" ].

Lemma attempt_records_valid_witness :
  ValidateAttemptRecord exParts (default (freshAttempt (exCreate exA) [] 0) (Get (attemptRun exParts New exOps) #"p" exA)) = true
  ∧ (AState <$> Get (attemptRun exParts New exOps) #"p" exA) = Some AttemptQueued.
Proof.
  destruct (attempt_records_valid exParts exOps #"p") as [H _]; [by vm_compute|by vm_compute|].
  destruct (Get (attemptRun exParts New exOps) #"p" exA) as [r|] eqn:E.
  - destruct (H exA r E) as [H1 _]. split; [exact H1|]. rewrite <-E. by vm_compute.
  - exfalso. revert E. by vm_compute.
Defined.

Lemma attempt_version_identifies_witness :
  (AVersion <$> Get (attemptRun exParts New exOps) #"p" exB) = Some #"mem-2" ∧
  Get (attemptRun exParts New exOps) #"p" exB = Get (attemptRun exParts New (take 2 exOps)) #"p" exB.
Proof.
  assert (Ho : inOrder 0 (take 2 exOps ++ drop 2 exOps)) by by vm_compute.
  assert (Hn : (Z.of_nat (length (take 2 exOps ++ drop 2 exOps)) <= maxUint64)%Z) by by vm_compute.
  assert (Hlast : (AVersion <$> Get (attemptRun exParts New exOps) #"p" exB) = Some #"mem-2") by by vm_compute.
  destruct (Get (attemptRun exParts New (take 2 exOps)) #"p" exB) as [r|] eqn:E1; [|exfalso; revert E1; by vm_compute].
  destruct (Get (attemptRun exParts New (take 2 exOps ++ drop 2 exOps)) #"p" exB) as [r'|] eqn:E2;
    [|exfalso; revert E2; by vm_compute].
  assert (Hv : AVersion r' = AVersion r).
  { enough (Some (AVersion r') = Some (AVersion r)) by congruence.
    change (AVersion <$> Some r' = AVersion <$> Some r). rewrite <-E1, <-E2. by vm_compute. }
  destruct (attempt_version_identifies exParts (take 2 exOps) (drop 2 exOps) #"p" exB r #"p" exB r') as (_ & _ & Hr);
    [exact Ho|exact Hn|exact E1|exact E2|exact Hv|].
  split; [exact Hlast|]. change exOps with (take 2 exOps ++ drop 2 exOps). by rewrite E2, Hr.
Defined.

Lemma attempt_errors_write_nothing_witness :
  let s := attemptRun exParts New (take 3 exOps) in
  (attemptExec exParts s (AAbandon 20 #"p" exA #"mem-1")).1 = s ∧
  (attemptExec exParts s (ARelease 20 #"p" exA #"mem-3" (mkClaim 2 112))).1 = s.
Proof.
  split.
  - apply attempt_errors_write_nothing. exists ErrAttemptVersionConflict. by vm_compute.
  - apply attempt_errors_write_nothing. exists ErrAttemptClaimLost. by vm_compute.
Defined.

(** Others try to take, abandon, delete and release the claimed attempt. *)
Definition exRaiders : list AttemptOp :=
  [ AAcquire 20 #"p" exA #"mem-3" 50; AAbandon 21 #"p" exA #"mem-3"; ADelete #"p" exA #"mem-3";
    ARelease 22 #"p" exA #"mem-3" (mkClaim 2 112); ADeleteOld 23 #"p" 1 200; ACreate 24 #"p" (exCreate #"attempt-c") ].

Definition exHeld : AttemptRecord :=
  default (freshAttempt (exCreate exA) [] 0) (Get (attemptRun exParts New (take 3 exOps)) #"p" exA).

Lemma exRaiders_outside r :
  AClaimGeneration r = 1%Z → AClaimExpiresAt r = 112%Z → Forall (outsider #"p" exA r) exRaiders.
Proof.
  intros Hg Hx. unfold outsider. rewrite Hg, Hx. unfold exRaiders.
  repeat constructor; try done; intros; simplify_eq/=; auto; lia.
Qed.

Lemma attempt_claim_exclusive_witness :
  Get (attemptRun exParts (attemptRun exParts New (take 3 exOps)) exRaiders) #"p" exA = Some exHeld.
Proof.
  assert (Ho : inOrder 0 (take 2 exOps ++ AAcquire 12 #"p" exA #"mem-1" 100 :: exRaiders)) by by vm_compute.
  assert (Hout : Forall (outsider #"p" exA exHeld) exRaiders) by (apply exRaiders_outside; vm_compute; reflexivity).
  refine (proj1 (attempt_claim_exclusive exParts (take 2 exOps) 12 #"p" exA #"mem-1" 100 exHeld (mkClaim 1 112) exRaiders
           (mkFinal AttemptCompleted AttemptOutcomeSucceeded FailureNone) 30 Ho _ _ Hout _ _)).
  - vm_compute. discriminate.
  - vm_compute. reflexivity.
  - reflexivity.
  - split; reflexivity.
Defined.

(** [Retry] takes an attempt away from the holder of a live claim: the lifecycle
    table it consults also lets a running attempt go back to the queue. *)
Lemma attempt_retry_takes_live_claim :
  let s := attemptRun exParts New (take 3 exOps) in
  let s' := (attemptExec exParts s (ARetry 20 #"p" exA #"mem-3")).1 in
  AState <$> Get s #"p" exA = Some AttemptRunning ∧ AClaimExpiresAt <$> Get s #"p" exA = Some 112%Z ∧
  AState <$> Get s' #"p" exA = Some AttemptQueued ∧
  (attemptExec exParts s' (ARelease 21 #"p" exA #"mem-3" (mkClaim 1 112))).2 = AErr ErrAttemptVersionConflict.
Proof. vm_compute. done. Qed.

(** ** Paging *)

(** A caller that follows the cursors. *)
Fixpoint listPages (fuel : nat) (s : Store) (p : gostr) (q : AttemptList) : option (list AttemptRecord) :=
  match fuel with
  | 0 => None
  | S fuel =>
      match List s p q with
      | None => None
      | Some (page, []) => Some page
      | Some (page, cursor) => app page <$> listPages fuel s p (mkList cursor (LLimit q) (LState q))
      end
  end.

Definition pageSize (q : AttemptList) : nat := if (LLimit q =? 0)%Z then DefaultAttemptPageSize else Z.to_nat (LLimit q).

Definition matchesState (q : AttemptList) (r : AttemptRecord) : bool :=
  (LState q =s AttemptStateOther []) || (AState r =s LState q).

Lemma elem_of_selected s p q id :
  id ∈ selected s p q ↔ strLess (LAfter q) id = true ∧ ∃ r, bucket s p !! id = Some r ∧ matchesState q r = true.
Proof.
  unfold selected. rewrite merge_sort_Permutation, list_elem_of_fmap. split.
  - intros ([k r] & -> & [[H1 H2]%andb_true_iff Hin%elem_of_map_to_list]%list_elem_of_filter). split; [done|]. by exists r.
  - intros (H1 & r & Hr & H2). exists (id, r). split; [done|]. apply list_elem_of_filter.
    rewrite elem_of_map_to_list. split; [|done]. simpl. rewrite H1. exact H2.
Qed.

Lemma selected_NoDup s p q : NoDup (selected s p q).
Proof.
  unfold selected. rewrite merge_sort_Permutation. eapply sublist_NoDup; [|apply fmap_sublist, sublist_filter].
  apply NoDup_fst_map_to_list.
Qed.

Lemma selected_length s p q : length (selected s p q) <= size (bucket s p).
Proof.
  unfold selected. rewrite merge_sort_Permutation, length_fmap, length_filter, length_map_to_list. done.
Qed.

Lemma selected_sorted s p q : StronglySorted strLe (selected s p q).
Proof. apply StronglySorted_merge_sort; apply _. Qed.

(** The keys after the last one of a page are the ones the page left. *)
Lemma selected_next s p q n cursor :
  last (take n (selected s p q)) = Some cursor →
  selected s p (mkList cursor (LLimit q) (LState q)) = drop n (selected s p q).
Proof.
  intros Hlast. pose proof (selected_NoDup s p q) as Hnd. pose proof (selected_sorted s p q) as Hsort.
  apply last_Some in Hlast as [l1 Hl1].
  assert (Hsplit : selected s p q = (l1 ++ [cursor]) ++ drop n (selected s p q)) by (rewrite <-Hl1; by rewrite take_drop).
  revert Hsplit. generalize (drop n (selected s p q)). intros l2 Hl2. rewrite Hl2 in Hnd, Hsort.
  apply (StronglySorted_unique strLe); [apply selected_sorted|by eapply StronglySorted_app_1_r|].
  apply NoDup_Permutation; [apply selected_NoDup|by apply NoDup_app in Hnd as (_ & _ & ?)|].
  apply NoDup_app in Hnd as (_ & Hdisj & _). intros id. rewrite elem_of_selected. simpl. split.
  - intros (Hlt & r & Hr & Hm).
    assert (Hin : id ∈ selected s p q).
    { apply elem_of_selected. split; [|by exists r]. eapply strLess_trans; [|exact Hlt].
      eapply elem_of_selected. rewrite Hl2. rewrite !elem_of_app. left. right. apply list_elem_of_here. }
    rewrite Hl2, elem_of_app in Hin. destruct Hin as [Hin|]; [|done]. exfalso.
    apply elem_of_app in Hin as [Hin| ->%list_elem_of_singleton]; [|by rewrite strLess_irrefl in Hlt].
    apply StronglySorted_app_1_l in Hsort.
    pose proof (StronglySorted_app_1_elem_of _ _ _ id cursor Hsort Hin (list_elem_of_here _ _)) as Hle. unfold strLe in Hle.
    congruence.
  - intros Hin.
    assert (Hc : cursor ∈ l1 ++ [cursor]) by (rewrite elem_of_app; right; apply list_elem_of_here).
    pose proof (StronglySorted_app_1_elem_of _ _ _ cursor id Hsort Hc Hin) as Hle.
    apply strLe_less in Hle as [Heq|Hlt].
    { subst id. exfalso. by eapply Hdisj. }
    split; [done|]. assert (Hin' : id ∈ selected s p q) by (rewrite Hl2, elem_of_app; auto).
    by apply elem_of_selected in Hin' as [_ ?].
Qed.

Section paging.
Context (s : Store) (p : gostr).
Hypothesis Hkeyed : keyed s.
Hypothesis Hids : ∀ id r, bucket s p !! id = Some r → validOpaque id MaxAttemptIDBytes = true.
Hypothesis Hp : p ≠ [].

Abbreviation found := (omap (λ id, bucket s p !! id)).

Lemma found_ids (l : list gostr) : (∀ id, id ∈ l → is_Some (bucket s p !! id)) → AID <$> found l = l.
Proof.
  induction l as [|id l IH]; intros Hl; csimpl; [done|].
  destruct (Hl id) as [r Hr]; [apply list_elem_of_here|]. rewrite Hr. csimpl. f_equal; [by eapply Hkeyed|].
  apply IH. intros x Hx. apply Hl. by right.
Qed.

Lemma selected_present q id : id ∈ selected s p q → is_Some (bucket s p !! id).
Proof. intros (_ & r & ? & _)%elem_of_selected. eauto. Qed.

Lemma pageSize_pos q : ListValidate q = true → 0 < pageSize q.
Proof.
  unfold ListValidate, pageSize. rewrite negb_true_iff, !orb_false_iff, !Z.ltb_ge. intros [[[H1 _] _] _].
  destruct (Z.eqb_spec (LLimit q) 0); [unfold DefaultAttemptPageSize; lia|lia].
Qed.

Lemma List_page q :
  ListValidate q = true → pageSize q < length (selected s p q) →
  ∃ cursor, last (take (pageSize q) (selected s p q)) = Some cursor ∧
    List s p q = Some (found (take (pageSize q) (selected s p q)), cursor).
Proof.
  intros Hq Hlen. pose proof (pageSize_pos q Hq) as Hpos.
  destruct (last (take (pageSize q) (selected s p q))) as [cursor|] eqn:El.
  2: { apply last_None in El. apply (f_equal length) in El. rewrite length_take in El. simpl in El. lia. }
  exists cursor. split; [done|]. unfold List. rewrite bool_decide_false, Hq by done. cbn [orb negb].
  fold (pageSize q). rewrite (proj2 (Nat.ltb_lt _ _)) by done. repeat f_equal.
  assert (Hpage : AID <$> found (take (pageSize q) (selected s p q)) = take (pageSize q) (selected s p q)).
  { apply found_ids. intros id (i & Hi%list_elem_of_lookup_2 & _)%elem_of_take. by eapply selected_present. }
  rewrite <-Hpage, fmap_last in El. destruct (last (found _)) as [r|]; [|done]. by injection El.
Qed.

Lemma listPages_all fuel q :
  ListValidate q = true → length (selected s p q) < fuel → listPages fuel s p q = Some (found (selected s p q)).
Proof.
  revert q. induction fuel as [|fuel IH]; intros q Hq Hlen; [lia|]. cbn [listPages].
  destruct (Nat.lt_ge_cases (pageSize q) (length (selected s p q))) as [Hlt|Hge].
  - destruct (List_page q Hq Hlt) as (cursor & Hlast & ->).
    assert (Hin : cursor ∈ selected s p q).
    { apply last_Some in Hlast as [l1 Hl1]. rewrite <-(take_drop (pageSize q) (selected s p q)), Hl1, !elem_of_app.
      left. right. apply list_elem_of_here. }
    apply elem_of_selected in Hin as (Hafter & r & Hr & _). pose proof (Hids cursor r Hr) as Hval.
    destruct cursor as [|c0 cs] eqn:Ec; [done|]. rewrite <-Ec in *. rewrite IH.
    + rewrite (selected_next s p q (pageSize q) cursor Hlast). cbn. by rewrite <-omap_app, take_drop.
    + revert Hq. unfold ListValidate. cbn. rewrite Hval, andb_false_r, !negb_true_iff, !orb_false_iff. tauto.
    + rewrite (selected_next s p q (pageSize q) cursor Hlast), length_drop. pose proof (pageSize_pos q Hq). lia.
  - unfold List. rewrite bool_decide_false, Hq by done. cbn [orb negb]. fold (pageSize q).
    rewrite (proj2 (Nat.ltb_ge _ _)), take_ge by lia. done.
Qed.
End paging.

(** Following the cursors ends and misses nothing.  In every reachable store, a
    caller that lists a partition from the start page by page, with any page size,
    reaches the last page after at most one call per record and one more, and has
    then received every record in the asked state exactly once, in the order of the
    ids. *)
Theorem attempt_paging_complete digestParts ops p q :
  let s := attemptRun digestParts New ops in
  inOrder 0 ops → (Z.of_nat (length ops) <= maxUint64)%Z → p ≠ [] → ListValidate q = true → LAfter q = [] →
  ∃ rs, listPages (S (size (bucket s p))) s p q = Some rs ∧ StronglySorted strLe (AID <$> rs) ∧ NoDup (AID <$> rs) ∧
    ∀ r, r ∈ rs ↔ Get s p (AID r) = Some r ∧ matchesState q r = true.
Proof.
  intros s Ho Hlen Hp Hq Hafter. destruct (run_inv digestParts ops Ho Hlen) as [Hi _]. fold s in Hi.
  pose proof (storeInv_keyed _ _ _ Hi) as Hkey.
  assert (Hids : ∀ id r, bucket s p !! id = Some r → validOpaque id MaxAttemptIDBytes = true).
  { intros id r Hr. destruct (si_records _ _ _ Hi p id r Hr) as [<- Hw _ _ _ _]. apply (wf_id _ _ Hw). }
  exists (omap (λ id, bucket s p !! id) (selected s p q)).
  pose proof (found_ids s p Hkey (selected s p q) (selected_present s p q)) as Hfound.
  split; [|rewrite Hfound; split_and!; [apply selected_sorted|apply selected_NoDup|]].
  - apply listPages_all; try done. pose proof (selected_length s p q). lia.
  - intros r. rewrite list_elem_of_omap. split.
    + intros (id & (_ & r0 & Hr0 & Hm)%elem_of_selected & Hr). rewrite Hr in Hr0. injection Hr0 as <-.
      by rewrite (Hkey _ _ _ Hr).
    + intros [Hr Hm]. exists (AID r). split; [|done]. apply elem_of_selected. split; [|by exists r].
      rewrite Hafter. specialize (Hids _ _ Hr). by destruct (AID r).
Qed.

Lemma attempt_paging_complete_witness :
  ∃ rs, listPages 3 (attemptRun exParts New exOps) #"p" (mkList [] 1 (AttemptStateOther [])) = Some rs ∧ AID <$> rs = [exA; exB].
Proof.
  destruct (attempt_paging_complete exParts exOps #"p" (mkList [] 1 (AttemptStateOther []))) as (rs & Hrs & _);
    [by vm_compute|by vm_compute|done|by vm_compute|done|].
  exists rs. assert (Hn : size (bucket (attemptRun exParts New exOps) #"p") = 2) by (vm_compute; reflexivity).
  rewrite Hn in Hrs. split; [exact Hrs|].
  enough (Some (AID <$> rs) = Some [exA; exB]) by congruence. change (option_map (map AID) (Some rs) = Some [exA; exB]).
  rewrite <-Hrs. vm_compute. reflexivity.
Defined.
