(* ===== verification/Dispatch.v ===== *)
(** * Dispatch of a turn's tool calls

    [engine/agent/dispatch.go]: the permission, authority and hook gates in front
    of a tool, the serial path, the concurrent read batch, the order of results,
    and the resumption of a call parked at an approval.

    The model is the engine without a contextual reviewer ([r.reviewRoot] is nil),
    where [reviewAction], [reviewChildPermissionAsk], [resolveInbound] and
    [admitPrincipalRevisions] return at once.  Turn numbers, queue times and
    diagnostics are left out.

    Everything the engine calls out to answers through [Outside]: a function of
    what has happened so far (the log, newest entry first) and of the question.  A
    person's verdict, a hook process, a tool, the authority service, the
    cancellation of the context and the scheduler of the batch's goroutines can so
    be anything.  The log holds the events of the client's stream and, for the
    theorems, what the engine did in between. *)

From stdpp Require Import pretty.
From S2P Require Import Prelude Fence Json Evaluator Authority Conversation Authorization Labels Session Policy Media.

(** ** Data *)

Inductive ApprovalVerdict := VerdictDeny | VerdictAllowOnce | VerdictAllowAlways | VerdictOther (n : Z).
#[global] Instance ApprovalVerdict_eq_dec : EqDecision ApprovalVerdict.
Proof. solve_decision. Defined.

Record approval := mkApproval { AVerdict : ApprovalVerdict; ADenyReason : gostr }.

(** What dispatch asks of a [tool.Tool]: the optional interfaces it implements. *)
Record Tool := mkTool {
  TReadOnly : bool;
  TRequester : bool;
  TSerial : bool;
  TMutatesParent : option (ToolCall → bool);
  TSearch : bool
}.

Inductive HookPhase :=
  | PhaseSessionStart | PhaseUserPromptSubmit | PhasePreToolUse | PhasePostToolUse | PhaseStop | PhaseSubagentStop
  | PhaseTeammateIdle | PhaseTaskCreated | PhaseTaskCompleted.

Record HookEvent := mkHookEvent {
  HPhase : HookPhase; HTool : gostr; HInput : list N; HSession : gostr; HCall : gostr
}.

Record HookOutcome := mkOutcome { HBlock : bool; HMessage : gostr; HMutated : list N; HAskApproval : bool }.

Inductive HookDecision := HookBlocked | HookModified | HookInfo | HookAdvisory.

Record AuthorityResource := mkResource { ResPath : gostr; ResWorkspace : gostr }.

Record AuthorityRequest := mkAuthorityRequest {
  ReqCaps : CapabilitySet; ReqTool : gostr; ReqAction : gostr; ReqDepth : Z; ReqDefinition : gostr;
  ReqInstance : gostr; ReqIssuer : gostr; ReqSubject : gostr; ReqResource : option AuthorityResource
}.

(** A text annotation of the stream ([EvHook]). *)
Record HookNote := mkNote { NText : gostr; NPhase : HookPhase; NTool : gostr; NDecision : HookDecision; NCall : gostr }.

Record PlanApprovalReceipt := mkReceipt { RcRef : gostr; RcSession : gostr; RcCall : gostr; RcMode : PermissionMode }.

(** The log: [Card] to [Result] are the events of the stream, the rest is what the
    engine did. *)
Inductive Entry :=
  | Card (c : ToolCall)
  | Asked (a : PendingAsk)
  | Answered (a : PendingAsk) (v : ApprovalVerdict)
  | Noted (n : HookNote)
  | Available (r : ToolResult)
  | Result (r : ToolResult)
  | Decided (c : ToolCall) (d : PermissionDecision)
  | Authorized (c : ToolCall)
  | HookRan (e : HookEvent) (o : HookOutcome + gostr)
  | Learned (c : ToolCall)
  | HookLearned (e : HookEvent)
  | Started (c : ToolCall)
  | Finished (c : ToolCall)
  | Recorded (c : ToolCall) (r : ToolResult)
  | Requested (c : ToolCall)
  | AbortedRequest (a : ExternalAuthorization).

Abbreviation log := (list Entry).

(** The answers of the world. *)
Record Outside := mkOutside {
  oCancelled : log → bool;
  oVerdict : log → PendingAsk → option approval;
  oHook : log → HookEvent → HookOutcome + gostr;
  oTool : log → ToolCall → ToolResult + gostr;
  oSearch : log → ToolCall → CapabilitySet → ToolResult;
  oAuthorize : log → AuthorityRequest → (bool * gostr) + gostr;
  oRequest : log → ToolCall → ExternalAuthorization * bool * bool;
  oAbort : log → ExternalAuthorization → bool;
  oPick : log → nat
}.

(** What [encoding/json] and the tools' formats contribute. *)
Record Format := mkFormat {
  rawJSON : list N → RawMessage;
  marshalResult : list N → gostr → bool → list N;
  marshalScope : gostr → list N;
  malformedPath : list N → gostr;
  isPrint : rune → bool
}.

(** The engine's dependencies and the run's request. *)
Record Engine (WS : Type) := mkEngine {
  dExtraTools : list (gostr * Tool);
  dExempt : gostr → bool;
  dCatalog : option (gostr → option Tool);
  dInteractive : bool;
  dPlanModeAutoApprove : bool;
  dRole : gostr;
  dCanPresentAuthorization : bool;
  dHooks : bool;
  dHookLearner : bool;
  dAuthorityEvaluator : bool;
  dRequiresOwner : bool;
  dResolver : option (gostr → (gostr * gostr) + gostr);
  dRecorder : bool;
  dWorkspace : WS;
  dRef : EnvironmentRef;
  dDiscriminator : gostr
}.
Arguments dExtraTools {WS} _.
Arguments dExempt {WS} _.
Arguments dCatalog {WS} _.
Arguments dInteractive {WS} _.
Arguments dPlanModeAutoApprove {WS} _.
Arguments dRole {WS} _.
Arguments dCanPresentAuthorization {WS} _.
Arguments dHooks {WS} _.
Arguments dHookLearner {WS} _.
Arguments dAuthorityEvaluator {WS} _.
Arguments dRequiresOwner {WS} _.
Arguments dResolver {WS} _.
Arguments dRecorder {WS} _.
Arguments dWorkspace {WS} _.
Arguments dRef {WS} _.
Arguments dDiscriminator {WS} _.

#[global] Instance CapabilitySet_eq_dec : EqDecision CapabilitySet.
Proof. solve_decision. Defined.
#[global] Instance Authority_eq_dec : EqDecision Authority.
Proof. solve_decision. Defined.
#[global] Instance EnvironmentRef_eq_dec : EqDecision EnvironmentRef.
Proof. solve_decision. Defined.
#[global] Instance PermissionMode_eq_dec : EqDecision PermissionMode.
Proof. solve_decision. Defined.
#[global] Instance ExternalAuthorization_eq_dec : EqDecision ExternalAuthorization.
Proof. solve_decision. Defined.

Definition zeroResult : ToolResult := mkToolResult [] [] false [].
Definition zeroAuthorization : ExternalAuthorization := mkExternalAuthorization [] [] [] 0%Z.

Definition presentPlanToolName : gostr := #"PresentPlan".
Definition ShellToolName : gostr := #"Shell".
Definition shellSystemTempToolName : gostr := #"ShellSystemTemp".
Definition callMcpWithQueryToolName : gostr := #"CallMcpWithQuery".
Definition withheldResultText : gostr :=
  #"tool result withheld by contextual guardrail; the already-produced content was destroyed and the tool was not re-executed".
Definition resumeAbortedSiblingMessage : gostr :=
  #"tool call aborted: the run was resumed at a different pending approval after restart; this sibling call's verdict was lost".

Definition validApprovalVerdict (v : ApprovalVerdict) : bool :=
  match v with VerdictOther _ => false | _ => true end.

Definition positive (v : ApprovalVerdict) : bool := (v =s VerdictAllowOnce) || (v =s VerdictAllowAlways).

Definition planApprovedTargetForVerdict (v : ApprovalVerdict) : PermissionMode :=
  match v with VerdictAllowAlways => ModeAccept | _ => ModeDefault end.

(** [readBatchable] *)
Definition readBatchable (t : option Tool) (c : ToolCall) : bool :=
  match t with
  | None => false
  | Some t =>
      if negb (TReadOnly t) then false
      else if TRequester t then false
      else if TSerial t then false
      else match TMutatesParent t with Some mutates => negb (mutates c) | None => true end
  end.

Definition denyResult (c : ToolCall) (reason : gostr) : ToolResult :=
  NewToolError (CallID c) (#"permission denied: " ++ (if reason =s [] then #"denied by permission policy" else reason)).

Definition newAskID (id : gostr) (n : Z) (callID disc : gostr) (occurrence : Z) : gostr :=
  if (occurrence =? 0)%Z then id ++ #":" ++ lit (pretty n) ++ #":" ++ callID ++ #":" ++ disc
  else id ++ #":" ++ lit (pretty n) ++ #":" ++ callID ++ #".a" ++ lit (pretty occurrence) ++ #":" ++ disc.

(** ** Decoding arguments *)

Fixpoint digits (acc : Z) (s : gostr) : option Z :=
  match s with
  | [] => Some acc
  | c :: s => if ((48 <=? c) && (c <=? 57))%N then digits (acc * 10 + (Z.of_N c - 48))%Z s else None
  end.

(** A JSON number decoded into an [int]: no fraction, no exponent, 64 bits. *)
Definition intOfNumber (text : gostr) : option Z :=
  let v := match text with
           | c :: (_ :: _) as rest => if c =r chr "-" then Z.opp <$> digits 0 rest else digits 0 text
           | _ => digits 0 text
           end in
  match v with
  | Some n => if ((- 2 ^ 63 <=? n) && (n <? 2 ^ 63))%Z then Some n else None
  | None => None
  end.

Record shellArgs := mkShellArgs { ShCommand : gostr; ShTimeoutMS : Z; ShBackground : bool; ShTempScope : gostr }.

Definition zeroShellArgs : shellArgs := mkShellArgs [] 0 false [].

(** One member decoded into the struct [shellArgs]; [null] is ignored. *)
Definition shellMember (a : shellArgs) (k : gostr) (v : json) : option shellArgs :=
  if equalFold k #"command" then
    match v with JString s => Some (mkShellArgs s (ShTimeoutMS a) (ShBackground a) (ShTempScope a))
               | JNull => Some a | _ => None end
  else if equalFold k #"timeout_ms" then
    match v with JNumber n => (λ z, mkShellArgs (ShCommand a) z (ShBackground a) (ShTempScope a)) <$> intOfNumber n
               | JNull => Some a | _ => None end
  else if equalFold k #"background" then
    match v with JBool b => Some (mkShellArgs (ShCommand a) (ShTimeoutMS a) b (ShTempScope a))
               | JNull => Some a | _ => None end
  else if equalFold k #"temp_scope" then
    match v with JString s => Some (mkShellArgs (ShCommand a) (ShTimeoutMS a) (ShBackground a) s)
               | JNull => Some a | _ => None end
  else Some a.

Fixpoint shellMembers (a : shellArgs) (kvs : list (gostr * json)) : option shellArgs :=
  match kvs with
  | [] => Some a
  | (k, v) :: rest => match shellMember a k v with Some a => shellMembers a rest | None => None end
  end.

(** [parseShellArgs]; the messages of its refusals are left out. *)
Definition parseShellArgs (args : RawMessage) : option shellArgs :=
  let decoded := match args with
                 | RawEmpty => Some zeroShellArgs
                 | _ => match unmarshalMap args with Some kvs => shellMembers zeroShellArgs kvs | None => None end
                 end in
  match decoded with
  | None => None
  | Some a =>
      if TrimSpace (ShCommand a) =s [] then None
      else if (ShTimeoutMS a <? 0)%Z then None
      else if negb (ShTempScope a =s []) && negb (ShTempScope a =s #"managed") && negb (ShTempScope a =s #"system") then None
      else Some a
  end.

(** The pair [{"content", "is_error"}] a PostToolUse hook answers with. *)
Fixpoint resultMembers (content : gostr) (isErr : bool) (kvs : list (gostr * json)) : option (gostr * bool) :=
  match kvs with
  | [] => Some (content, isErr)
  | (k, v) :: rest =>
      if equalFold k #"content" then
        match v with
        | JString s => resultMembers s isErr rest
        | JNull => resultMembers content isErr rest
        | _ => None
        end
      else if equalFold k #"is_error" then
        match v with
        | JBool b => resultMembers content b rest
        | JNull => resultMembers content isErr rest
        | _ => None
        end
      else resultMembers content isErr rest
  end.

Definition resultPayload (raw : RawMessage) : option (gostr * bool) :=
  match unmarshalMap raw with Some kvs => resultMembers [] false kvs | None => None end.

(** What the PostToolUse hook is shown: the text of the blocks other than images,
    or the plain content. *)
Definition postHookContent (r : ToolResult) : gostr :=
  match RParts r with
  | [] => RContent r
  | parts => Join (ToolBlockText <$> filter (λ b, CBlockKind b ≠ BlockImage) parts) [newline]
  end.

(** ** The state and its monad *)

Section dispatch.
Context {St WS : Type} `{!PermissionStore St}.
Context (F : Format) (O : Outside) (E : Engine WS).

Record World := mkWorld {
  wSession : Session;
  wPolicy : Policy St WS;
  wAskSeq : Z;
  wPublished : list gostr;
  wPlanTarget : option PermissionMode;
  wPlanIterate : bool;
  wReceipt : option PlanApprovalReceipt;
  wLog : log
}.

Ltac upd_world w f v :=
  update_field (mkWorld (wSession w) (wPolicy w) (wAskSeq w) (wPublished w) (wPlanTarget w) (wPlanIterate w)
    (wReceipt w) (wLog w)) (f w) v.

Definition setWSession v w : World := ltac:(upd_world w wSession v).
Definition setWPolicy v w : World := ltac:(upd_world w wPolicy v).
Definition setWAskSeq v w : World := ltac:(upd_world w wAskSeq v).
Definition setWPublished v w : World := ltac:(upd_world w wPublished v).
Definition setWPlanTarget v w : World := ltac:(upd_world w wPlanTarget v).
Definition setWPlanIterate v w : World := ltac:(upd_world w wPlanIterate v).
Definition setWReceipt v w : World := ltac:(upd_world w wReceipt v).
Definition setWLog v w : World := ltac:(upd_world w wLog v).

Definition M (A : Type) : Type := World → A * World.
#[global] Instance M_ret : MRet M := λ A a w, (a, w).
#[global] Instance M_bind : MBind M := λ A B k m w, let '(a, w') := m w in k a w'.

Definition gets {A} (f : World → A) : M A := λ w, (f w, w).
Definition modify (f : World → World) : M unit := λ w, (tt, f w).

(** Append to the log. *)
Definition emit (e : Entry) : M unit := modify (λ w, setWLog (e :: wLog w) w).

Definition sess : M Session := gets wSession.

(** [ctx.Err() != nil] *)
Definition ctxErr : M bool := gets (λ w, oCancelled O (wLog w)).

Definition lookupTool (name : gostr) : option Tool :=
  match list_find (λ nt : gostr * Tool, nt.1 = name) (dExtraTools E) with
  | Some (_, (_, t)) => Some t
  | None => match dCatalog E with None => None | Some catalog => catalog name end
  end.

Definition extraToolAuthorityExempt (name : gostr) : bool :=
  match list_find (λ nt : gostr * Tool, nt.1 = name) (dExtraTools E) with
  | Some _ => dExempt E name
  | None => false
  end.

Definition openCard (c : ToolCall) : M unit := emit (Card c).

(** [publishToolResult] of an [EvToolResultAvailable] event. *)
Definition publishAvailable (r : ToolResult) : M unit :=
  published ← gets wPublished;
  if RCallID r ∈? published then mret tt
  else modify (λ w, setWPublished (RCallID r :: wPublished w) w);; emit (Available r).

(** [publishToolResult] of an [EvToolResult] event. *)
Definition publishResult (r : ToolResult) : M unit :=
  publishAvailable r;; emit (Result r).

(** ** Permission *)

Definition evaluate (tool : gostr) (args : RawMessage) : M PermissionDecision :=
  s ← sess; p ← gets wPolicy; mret (PolicyEvaluate p (SID s) (Mode s) tool args (dWorkspace E)).

Definition shellSystemScope (c : ToolCall) : bool :=
  if negb (CallName c =s ShellToolName) then false
  else match parseShellArgs (rawJSON F (CallArgs c)) with
       | Some a => ShTempScope a =s #"system"
       | None => false
       end.

Definition combineScope (ordinary system : PermissionDecision) : PermissionDecision :=
  if DEffect system =s Deny then system
  else if DEffect ordinary =s Ask then ordinary
  else system.

Definition permissionDecision (c : ToolCall) : M PermissionDecision :=
  ordinary ← evaluate (CallName c) (rawJSON F (CallArgs c));
  if negb (shellSystemScope c) || (DEffect ordinary =s Deny) then emit (Decided c ordinary);; mret ordinary
  else
    system ← evaluate shellSystemTempToolName RawEmpty;
    let d := combineScope ordinary system in emit (Decided c d);; mret d.

Definition systemScopeApprovalArgs (c : ToolCall) : list N :=
  marshalScope F
    (match parseShellArgs (rawJSON F (CallArgs c)) with
     | None => #"Shell command"
     | Some a => match Fields (ShCommand a) with
                 | [] => #"Shell command"
                 | [f1] => f1
                 | f1 :: f2 :: _ => f1 ++ [space] ++ f2
                 end
     end).

Definition issueAskID (callID : gostr) : M gostr :=
  s ← sess; n ← gets wAskSeq;
  let n := wrapU64 (n + 1) in
  modify (setWAskSeq n);;
  mret (newAskID (SID s) (ToolCalls (SCounters s)) callID (dDiscriminator E) n).

Definition recordValidatedApproval (a : PendingAsk) (v : ApprovalVerdict) : M unit :=
  s ← sess;
  match AskOrigin a with
  | ApprovalOriginPlan =>
      if positive v
      then modify (setWReceipt (Some (mkReceipt (AskID a) (SID s) (AskCall a) (planApprovedTargetForVerdict v))))
      else mret tt
  | _ => mret tt
  end.

(** [surfaceAsk] *)
Inductive AskOutcome := NotPaused | AskCancelled | AskVerdict (a : approval).

Definition surfaceAsk (a : PendingAsk) : M AskOutcome :=
  s ← sess;
  match PauseForApproval s a with
  | (_, Some _) => mret NotPaused
  | (s, None) =>
      modify (setWSession s);;
      emit (Asked a);;
      answer ← gets (λ w, oVerdict O (wLog w) a);
      modify (λ w, setWSession (ResumeWith (wSession w)).1 w);;
      match answer with
      | None => mret AskCancelled
      | Some v => emit (Answered a (AVerdict v));; recordValidatedApproval a (AVerdict v);; mret (AskVerdict v)
      end
  end.

Definition denyDecision (reason : gostr) : PermissionDecision := mkDecision Deny reason AskProvenanceUnknown.
Definition allowDecision : PermissionDecision := mkDecision Allow [] AskProvenanceUnknown.

(** The second component is [cancelled]. *)
Definition authorizeDecision (c : ToolCall) (d : PermissionDecision) : M (PermissionDecision * bool) :=
  if negb (DEffect d =s Ask) then mret (d, false)
  else
    askID ← issueAskID (CallID c);
    let args := if shellSystemScope c then systemScopeApprovalArgs c else CallArgs c in
    let ask := mkAsk askID (CallName c) args (DReason d) (CallID c) None ApprovalOriginPermission (DProvenance d) in
    o ← surfaceAsk ask;
    match o with
    | NotPaused => mret (denyDecision #"internal: cannot pause", false)
    | AskCancelled => mret (denyDecision #"cancelled", true)
    | AskVerdict v =>
        match AVerdict v with
        | VerdictAllowAlways =>
            modify (λ w, setWPolicy (PolicyLearn (wPolicy w) (SID (wSession w)) (CallName c) (rawJSON F (CallArgs c))) w);;
            emit (Learned c);; mret (allowDecision, false)
        | VerdictAllowOnce => mret (allowDecision, false)
        | _ => if negb (ADenyReason v =s []) then mret (denyDecision (ADenyReason v), false)
               else mret (denyDecision (#"denied by user: " ++ DReason d), false)
        end
    end.

(** ** Authority *)

Definition authorityDefinition (a : Authority) : gostr :=
  if negb (ADefinitionIdentity a =s []) then ADefinitionIdentity a else #"root".

(** [authorityTarget]; [inr] is the error's text. *)
Definition authorityTarget (c : ToolCall) : gostr + gostr :=
  let members f1 f2 := match unmarshalMap (rawJSON F (CallArgs c)) with
                       | Some kvs => unmarshalPair f1 f2 kvs [] []
                       | None => None
                       end in
  if CallName c =s callMcpWithQueryToolName then
    match members #"server" #"tool" with
    | Some (server, tool) =>
        if (TrimSpace server =s []) || (TrimSpace tool =s []) then inr #"CallMcpWithQuery target is invalid"
        else inl (#"mcp__" ++ TrimSpace server ++ #"__" ++ TrimSpace tool)
    | None => inr #"CallMcpWithQuery target is invalid"
    end
  else if (CallName c =s #"ListMcpResources") || (CallName c =s #"ReadMcpResource") then
    match members #"server" #"server" with
    | Some (server, _) =>
        if TrimSpace server =s [] then inr #"MCP resource target is invalid"
        else inl (MCPResourceCapability (TrimSpace server))
    | None => inr #"MCP resource target is invalid"
    end
  else inl (CallName c).

(** The members of the object, the named one at most once and a string. *)
Fixpoint namedPath (field : gostr) (found : option gostr) (kvs : list (gostr * json)) : option gostr + gostr :=
  match kvs with
  | [] => inl found
  | (k, v) :: rest =>
      if negb (k =s field) then namedPath field found rest
      else match found, unmarshalString v with
           | None, Some path => namedPath field (Some path) rest
           | _, _ => inr #"local resource path is ambiguous"
           end
  end.

Definition authorityPathNamed (args : list N) (field : gostr) : gostr + gostr :=
  match rawJSON F args with
  | RawMalformed => inr (malformedPath F args)
  | RawValue (JObject kvs) =>
      match namedPath field None kvs with
      | inr e => inr e
      | inl None => inr #"local resource path is invalid"
      | inl (Some path) =>
          if (path =s []) || (4096 <? byteLen path) || (0%N ∈? path) then inr #"local resource path is invalid"
          else inl path
      end
  | _ => inr #"local resource arguments are invalid"
  end.

Definition authorityWorkspaceResource (path : gostr) : AuthorityResource + gostr :=
  match dResolver E with
  | None => inr #"session workspace cannot derive an authority resource identity"
  | Some resolve =>
      match resolve path with
      | inr e => inr (#"derive authority resource identity: " ++ e)
      | inl (target, workspace) =>
          if (target =s []) || (workspace =s []) || negb (HasPrefix target #"/") || negb (HasPrefix workspace #"/")
          then inr #"session workspace returned an invalid authority resource identity"
          else inl (mkResource target workspace)
      end
  end.

Definition authorityResources (c : ToolCall) : list AuthorityResource + gostr :=
  let one := authorityPathNamed (CallArgs c) in
  if CallName c ∈? [ #"Read"; #"ListDir"; #"Edit"; #"Write"; #"Remove" ] then
    match one #"path" with
    | inr e => inr e
    | inl path => match authorityWorkspaceResource path with inr e => inr e | inl r => inl [r] end
    end
  else if CallName c ∈? [ #"Copy"; #"Move" ] then
    match one #"source" with
    | inr e => inr e
    | inl source =>
        match one #"destination" with
        | inr e => inr e
        | inl destination =>
            match authorityWorkspaceResource source with
            | inr e => inr e
            | inl r1 => match authorityWorkspaceResource destination with inr e => inr e | inl r2 => inl [r1; r2] end
            end
        end
    end
  else inl [].

Definition ownerIdentity (s : Session) : gostr * gostr :=
  match Owner s with Some o => (Issuer o, Subject o) | None => ([], []) end.

(** The loop over the resources of [authorizeExecution]. *)
Fixpoint authorizeResources (c : ToolCall) (target : gostr) (s : Session) (rs : list (option AuthorityResource)) :
    M (option ToolResult) :=
  match rs with
  | [] => mret None
  | r :: rs =>
      let caps := ACapabilitySet (SAuthority s) in
      let req := mkAuthorityRequest caps target (CallName c) (RemainingDelegationDepth caps)
                   (authorityDefinition (SAuthority s)) (SID s) (ownerIdentity s).1 (ownerIdentity s).2 r in
      d ← gets (λ w, oAuthorize O (wLog w) req);
      match d with
      | inr _ =>
          mret (Some (NewToolError (CallID c) (#"tool " ++ Quote (isPrint F) target ++
                 #" was not executed: authority evaluator unavailable")))
      | inl (false, reason) =>
          mret (Some (NewToolError (CallID c) (#"tool " ++ Quote (isPrint F) target ++ #" denied by authority: " ++
                 (if reason =s [] then #"authorization denied" else reason))))
      | inl (true, _) => authorizeResources c target s rs
      end
  end.

(** [authorizeExecution]; a result is a refusal. *)
Definition authorizeExecution (c : ToolCall) : M (option ToolResult) :=
  s ← sess;
  let quoted n := Quote (isPrint F) n in
  let refuse n why := mret (Some (NewToolError (CallID c) (#"tool " ++ quoted n ++ why))) in
  if negb (authorityBound s) then mret None
  else if extraToolAuthorityExempt (CallName c) then mret None
  else if negb (dAuthorityEvaluator E) then
    refuse (CallName c) #" was not executed: authority evaluator is not configured"
  else match authorityTarget c with
  | inr e => refuse (CallName c) (#" denied by authority: " ++ e)
  | inl target =>
      match authorityResources c with
      | inr e => refuse target (#" denied by authority: " ++ e)
      | inl rs =>
          if dRequiresOwner E && (((ownerIdentity s).1 =s []) || ((ownerIdentity s).2 =s []))
          then refuse target #" denied by authority: owner identity is unavailable"
          else
            denied ← authorizeResources c target s (match rs with [] => [None] | _ => Some <$> rs end);
            match denied with
            | Some r => mret (Some r)
            | None => emit (Authorized c);; mret None
            end
      end
  end.

(** What a completed authorization is bound to. *)
Record permissionAuthorization := mkAuth {
  auCall : ToolCall; auRef : EnvironmentRef; auAuthority : Authority; auBound : bool
}.

Definition authMatches (a : permissionAuthorization) (c : ToolCall) (ref : EnvironmentRef) : bool :=
  (CallID (auCall a) =s CallID c) && (CallName (auCall a) =s CallName c) && (CallArgs (auCall a) =s CallArgs c)
  && (auRef a =s ref).

Definition authorityStillValid (a : permissionAuthorization) (s : Session) (c : ToolCall) : bool :=
  if negb (authMatches a c (dRef E)) then false
  else Bool.eqb (authorityBound s) (auBound a) && (negb (authorityBound s) || (SAuthority s =s auAuthority a)).

(** [authorizeBound]: the decision, its binding, and [cancelled]. *)
Definition authorizeBound (c : ToolCall) : M (PermissionDecision * permissionAuthorization * bool) :=
  d ← permissionDecision c;
  '(effective, cancelled) ← authorizeDecision c d;
  if cancelled || negb (DEffect effective =s Allow)
  then mret (effective, mkAuth c (dRef E) noAuthority false, cancelled)
  else
    s ← sess;
    let auth := mkAuth c (dRef E) (SAuthority s) (authorityBound s) in
    denied ← authorizeExecution c;
    match denied with
    | Some r => mret (denyDecision (RContent r), auth, false)
    | None => mret (effective, auth, false)
    end.

(** [reauthorizeApprovedCall]; [inr] is the refusal. *)
Definition reauthorizeApprovedCall (c : ToolCall) (acceptAsk : bool) : M (permissionAuthorization + ToolResult) :=
  d ← permissionDecision c;
  if (DEffect d =s Deny) || (negb acceptAsk && negb (DEffect d =s Allow)) then
    mret (inr (denyResult c (if DEffect d =s Ask
      then #"effective call changed after approval and requires a separate deterministic permission approval"
      else DReason d)))
  else
    s ← sess;
    denied ← authorizeExecution c;
    match denied with
    | Some r => mret (inr r)
    | None => mret (inl (mkAuth c (dRef E) (SAuthority s) (authorityBound s)))
    end.

(** ** Hooks *)

Inductive preHookResult :=
  | PreAllow (effective : ToolCall)
  | PreBlocked (msg : gostr)
  | PreAsk (msg : gostr).

Definition preEvent (s : Session) (c : ToolCall) : HookEvent :=
  mkHookEvent PhasePreToolUse (CallName c) (CallArgs c) (SID s) (CallID c).

Definition runHook (e : HookEvent) : M (HookOutcome + gostr) :=
  o ← gets (λ w, oHook O (wLog w) e); emit (HookRan e o);; mret o.

Definition note (phase : HookPhase) (c : ToolCall) (text : gostr) (d : HookDecision) : HookNote :=
  mkNote text phase (CallName c) d (CallID c).

Definition jsonValid (raw : list N) : bool :=
  match rawJSON F raw with RawValue _ => true | _ => false end.

Definition withArgs (c : ToolCall) (args : list N) : ToolCall := mkToolCall (CallID c) (CallName c) args (CallItemID c).

(** [preHook]; [None] is a cancelled context. *)
Definition preHook (c : ToolCall) : M (option preHookResult) :=
  if negb (dHooks E) then mret (Some (PreAllow c))
  else
    gone ← ctxErr;
    if (gone : bool) then mret None
    else
      s ← sess;
      o ← runHook (preEvent s c);
      match o with
      | inr err =>
          gone ← ctxErr;
          mret (if (gone : bool) then None else Some (PreBlocked (#"PreToolUse hook error: " ++ err)))
      | inl o =>
          if HBlock o then
            let m := if HMessage o =s [] then #"blocked by PreToolUse hook" else HMessage o in
            if HAskApproval o && dInteractive E then mret (Some (PreAsk m))
            else emit (Noted (note PhasePreToolUse c m HookBlocked));; mret (Some (PreBlocked m))
          else if negb (HMutated o =s []) then
            if jsonValid (HMutated o) then
              emit (Noted (note PhasePreToolUse c (#"PreToolUse hook rewrote tool arguments for " ++ CallName c) HookModified));;
              mret (Some (PreAllow (withArgs c (HMutated o))))
            else
              emit (Noted (note PhasePreToolUse c #"PreToolUse hook returned a malformed argument mutation (ignored)" HookInfo));;
              mret (Some (PreAllow c))
          else if negb (HMessage o =s []) then
            emit (Noted (note PhasePreToolUse c (HMessage o) HookAdvisory));; mret (Some (PreAllow c))
          else mret (Some (PreAllow c))
      end.

(** How a gate or a call ended. *)
Inductive GateOutcome := Proceed | Refused (r : ToolResult) | GateCancelled.

Definition guardrailScope : GuardrailPendingScope := mkGuardrail [] GuardrailApprovalAction [] true true.

Definition askHookApproval (c : ToolCall) (reason : gostr) : M GateOutcome :=
  askID ← issueAskID (CallID c);
  let ask := mkAsk askID (CallName c) (CallArgs c) reason (CallID c) (Some guardrailScope)
               ApprovalOriginHookGuardrail AskProvenanceUnknown in
  o ← surfaceAsk ask;
  match o with
  | NotPaused => mret (Refused (NewToolError (CallID c) #"internal: cannot pause for guardrail approval"))
  | AskCancelled => mret GateCancelled
  | AskVerdict v =>
      match AVerdict v with
      | VerdictAllowAlways =>
          s ← sess;
          (if dHookLearner E then emit (HookLearned (preEvent s c)) else mret tt);; mret Proceed
      | VerdictAllowOnce => mret Proceed
      | _ => let res := NewToolError (CallID c) reason in publishResult res;; mret (Refused res)
      end
  end.

(** [surfacePlanAsk]; [None] is a cancelled context. *)
Definition surfacePlanAsk (c : ToolCall) : M (option ToolResult) :=
  if negb (dInteractive E) && negb (dPlanModeAutoApprove E) then
    let res := NewToolError (CallID c) #"plan not approved: plan approval requires an interactive operator" in
    publishResult res;; mret (Some res)
  else
    askID ← issueAskID (CallID c);
    let ask := mkAsk askID presentPlanToolName (CallArgs c) #"plan ready for operator approval" (CallID c) None
                 ApprovalOriginPlan AskProvenanceUnknown in
    o ← surfaceAsk ask;
    match o with
    | NotPaused => mret (Some (NewToolError (CallID c) #"internal: cannot pause for plan approval"))
    | AskCancelled => mret None
    | AskVerdict v =>
        if positive (AVerdict v) then
          modify (setWPlanTarget (Some (planApprovedTargetForVerdict (AVerdict v))));;
          let res := NewToolResult (CallID c) #"plan approved by operator: proceeding to execution" in
          publishResult res;; mret (Some res)
        else
          modify (setWPlanIterate true);;
          let res := NewToolError (CallID c)
            #"plan not approved by operator: the operator will provide feedback; end this turn and wait for it" in
          publishResult res;; mret (Some res)
    end.

(** [postHook]: the effective result and its annotations. *)
Definition postHook (c : ToolCall) (res : ToolResult) : M (ToolResult * list HookNote) :=
  gone ← ctxErr;
  if negb (dHooks E) || gone then mret (res, [])
  else
    s ← sess;
    o ← runHook (mkHookEvent PhasePostToolUse (CallName c)
                   (marshalResult F (CallArgs c) (postHookContent res) (RIsError res)) (SID s) (CallID c));
    match o with
    | inr _ => mret (res, [])
    | inl o =>
        let blocked := if HBlock o && negb (HMessage o =s []) then [note PhasePostToolUse c (HMessage o) HookBlocked] else [] in
        if negb (HMutated o =s []) then
          match (if jsonValid (HMutated o) then resultPayload (rawJSON F (HMutated o)) else None) with
          | Some (content, isErr) =>
              mret (if (isErr : bool) then NewToolError (RCallID res) content else NewToolResult (RCallID res) content,
                    blocked ++ [note PhasePostToolUse c (#"PostToolUse hook rewrote the tool result for " ++ CallName c) HookModified])
          | None =>
              mret (res, blocked ++ [note PhasePostToolUse c #"PostToolUse hook returned a malformed result mutation (ignored)" HookInfo])
          end
        else if negb (HMessage o =s []) && negb (HBlock o)
        then mret (res, blocked ++ [note PhasePostToolUse c (HMessage o) HookAdvisory])
        else mret (res, blocked)
    end.

(** ** Execution *)

(** [timeExecute]: a harness error becomes an error result. *)
Definition timeExecute (c : ToolCall) : M ToolResult :=
  r ← gets (λ w, oTool O (wLog w) c);
  mret (match r with
        | inl r => r
        | inr err => NewToolError (CallID c) (#"tool " ++ Quote (isPrint F) (CallName c) ++ #" failed: " ++ err)
        end).

Definition executionRecord : Type := ToolResult * list HookNote.

Definition bindingChanged (c : ToolCall) : ToolResult :=
  NewToolError (CallID c) #"tool was not executed: authority binding changed after admission".

(** [executePrivate] in two halves, for the goroutines of a batch: the check of the
    binding and the start of the tool, then its result and the PostToolUse hook.
    [None] is a call whose binding no longer holds. *)
Definition startTool (c : ToolCall) (auth : permissionAuthorization) : M bool :=
  s ← sess;
  if negb (authorityStillValid auth s c) then mret false else emit (Started c);; mret true.

Definition finishTool (c : ToolCall) (t : Tool) (started : bool) : M executionRecord :=
  res ← (if negb started then mret (bindingChanged c)
         else
           s ← sess;
           r ← (if TSearch t && authorityBound s
                then gets (λ w, oSearch O (wLog w) c (ACapabilitySet (SAuthority s)))
                else timeExecute c);
           emit (Finished c);; mret r);
  postHook c res.

Definition executePrivate (c : ToolCall) (t : Tool) (auth : permissionAuthorization) : M executionRecord :=
  started ← startTool c auth; finishTool c t started.

Fixpoint emitNotes (ns : list HookNote) : M unit :=
  match ns with [] => mret tt | n :: ns => emit (Noted n);; emitNotes ns end.

(** [finalizeToolResult] *)
Definition finalizeToolResult (c : ToolCall) (notes : list HookNote) (res : ToolResult)
    (available originalReleased : bool) : M unit :=
  (if originalReleased then emitNotes notes else mret tt);;
  (if available then publishAvailable res else mret tt);;
  (if dRecorder E then emit (Recorded c res) else mret tt);;
  publishResult res.

(** [execute]: the result is released as it is, and nothing cancels it. *)
Definition execute (c : ToolCall) (t : Tool) (auth : permissionAuthorization) : M ToolResult :=
  '(res, notes) ← executePrivate c t auth;
  gone ← ctxErr;
  finalizeToolResult c notes res (negb gone) true;;
  mret res.

Record dispatchPark := mkPark {
  pkAuthorization : option ExternalAuthorization; pkCall : ToolCall; pkDeferred : list ToolCall; pkFatal : bool
}.

Inductive CallOutcome := Ended (r : ToolResult) | Parked (p : dispatchPark) | Cancelled.

Definition fatalPark (c : ToolCall) : dispatchPark := mkPark None c [] true.

(** A fatal park carries no requester. *)
Definition abortAuthorization (a : ExternalAuthorization) : M bool :=
  ok ← gets (λ w, oAbort O (wLog w) a); emit (AbortedRequest a);; mret ok.

Definition refuseCall (r : ToolResult) : M CallOutcome := publishResult r;; mret (Ended r).

Definition runTool (c : ToolCall) (t : Tool) (auth : permissionAuthorization) : M CallOutcome :=
  r ← execute c t auth; mret (Ended r).

(** [postPreToolUse] *)
Definition postPreToolUse (c : ToolCall) (t : Tool) (auth : permissionAuthorization) : M CallOutcome :=
  s ← sess;
  if negb (authorityStillValid auth s c) then refuseCall (bindingChanged c)
  else if negb (TRequester t) then runTool c t auth
  else if negb (dCanPresentAuthorization E) || negb (dRole E =s []) then
    refuseCall (NewToolError (CallID c) #"external authorization cannot be presented by this run")
  else
    '(authorization, required, err) ← gets (λ w, oRequest O (wLog w) c);
    emit (Requested c);;
    gone ← ctxErr;
    if (gone : bool) then
      if authorization =s zeroAuthorization then mret Cancelled
      else
        ok ← abortAuthorization authorization;
        mret (if (ok : bool) then Cancelled else Parked (fatalPark c))
    else if (err : bool) then
      (if authorization =s zeroAuthorization then mret true else abortAuthorization authorization);;
      mret (Parked (fatalPark c))
    else if (required : bool) then mret (Parked (mkPark (Some authorization) c [] false))
    else runTool c t auth.

(** ** The gates in order *)

Definition unavailableOrUnknownToolResult (s : Session) (c : ToolCall) : ToolResult :=
  if HasPrefix (CallName c) #"mcp__" && authorityBound s && AllowsTool (ACapabilitySet (SAuthority s)) (CallName c)
  then NewToolError (CallID c) #"tool is currently unavailable; do not retry unless the catalog changes"
  else NewToolError (CallID c) (#"unknown tool " ++ Quote (isPrint F) (CallName c)).

Definition planGate (s : Session) (c : ToolCall) : bool :=
  (Mode s =s ModePlan) && (CallName c =s presentPlanToolName).

Inductive Admission :=
  | Cleared (effective : ToolCall) (auth : permissionAuthorization)
  | Answer (r : ToolResult)
  | Stopped.

(** Permission, hook and the re-authorization of rewritten arguments: the steps
    [runOne] and [prepareReadBatch] share. *)
Definition admitCall (c : ToolCall) : M Admission :=
  '(d, auth, cancelled) ← authorizeBound c;
  if (cancelled : bool) then mret Stopped
  else if DEffect d =s Deny then
    let res := denyResult c (DReason d) in publishResult res;; mret (Answer res)
  else
    pre ← preHook c;
    match pre with
    | None => mret Stopped
    | Some (PreBlocked msg) => let res := NewToolError (CallID c) msg in publishResult res;; mret (Answer res)
    | Some pre =>
        gate ← (match pre with PreAsk msg => askHookApproval c msg | _ => mret Proceed end);
        match gate with
        | GateCancelled => mret Stopped
        | Refused res => mret (Answer res)
        | Proceed =>
            let effective := match pre with PreAllow e => e | _ => c end in
            if CallArgs effective =s CallArgs c then mret (Cleared effective auth)
            else
              '(d, auth, cancelled) ← authorizeBound effective;
              if (cancelled : bool) then mret Stopped
              else if DEffect d =s Deny then
                let res := denyResult effective (DReason d) in publishResult res;; mret (Answer res)
              else mret (Cleared effective auth)
        end
    end.

(** [runOne] *)
Definition runOne (c : ToolCall) : M CallOutcome :=
  s ← sess;
  openCard c;;
  match lookupTool (CallName c) with
  | None => refuseCall (unavailableOrUnknownToolResult s c)
  | Some t =>
      if planGate s c then
        r ← surfacePlanAsk c; mret (match r with Some r => Ended r | None => Cancelled end)
      else
        a ← admitCall c;
        match a with
        | Stopped => mret Cancelled
        | Answer r => mret (Ended r)
        | Cleared effective auth => postPreToolUse effective t auth
        end
  end.

(** ** The read batch *)

(** [readBatchPending] *)
Record Slot := mkSlot {
  slCall : ToolCall; slTool : Tool; slAuth : permissionAuthorization;
  slResult : ToolResult; slNotes : list HookNote; slAvailable : bool
}.

Abbreviation Results := (gmap gostr ToolResult).

(** [prepareReadBatch]; [None] is cancelled. *)
Fixpoint prepareReadBatch (batch : list ToolCall) (out : Results) : M (option (list Slot * Results)) :=
  match batch with
  | [] => mret (Some ([], out))
  | c :: rest =>
      s ← sess;
      openCard c;;
      if planGate s c then
        r ← surfacePlanAsk c;
        match r with
        | None => mret None
        | Some r => prepareReadBatch rest (<[CallID c := r]> out)
        end
      else
        a ← admitCall c;
        match a with
        | Stopped => mret None
        | Answer r => prepareReadBatch rest (<[CallID c := r]> out)
        | Cleared effective auth =>
            match lookupTool (CallName effective) with
            | Some t =>
                if readBatchable (Some t) effective then
                  prepared ← prepareReadBatch rest out;
                  mret (match prepared with
                        | None => None
                        | Some (slots, out) => Some (mkSlot effective t auth zeroResult [] false :: slots, out)
                        end)
                else
                  let res := NewToolError (CallID effective) #"tool classification changed during contextual review preparation" in
                  publishResult res;; prepareReadBatch rest (<[CallID effective := res]> out)
            | None =>
                let res := NewToolError (CallID effective) #"tool classification changed during contextual review preparation" in
                publishResult res;; prepareReadBatch rest (<[CallID effective := res]> out)
            end
        end
  end.

(** The moves of the batch: a worker starts, a worker finishes, the dispatcher
    takes a finished one and publishes it. *)
Inductive Move := MStart (i : nat) | MFinish (i : nat) (started : bool) | MPublish (i : nat).

Definition moves (ready : list nat) (running : list (nat * bool)) (queue : list nat) : list Move :=
  (MStart <$> ready) ++ ((λ '(i, b), MFinish i b) <$> running) ++ (match queue with [] => [] | i :: _ => [MPublish i] end).

Definition startSlot (slots : list Slot) (i : nat) : M bool :=
  match slots !! i with Some p => startTool (slCall p) (slAuth p) | None => mret false end.

Definition finishSlot (slots : list Slot) (i : nat) (started : bool) : M (list Slot) :=
  match slots !! i with
  | Some p =>
      '(res, notes) ← finishTool (slCall p) (slTool p) started;
      mret (<[i := mkSlot (slCall p) (slTool p) (slAuth p) res notes false]> slots)
  | None => mret slots
  end.

(** One turn of [publishCleanReadBatch]. *)
Definition publishSlot (slots : list Slot) (i : nat) : M (list Slot) :=
  match slots !! i with
  | Some p =>
      gone ← ctxErr;
      if (gone : bool) then mret slots
      else
        emitNotes (slNotes p);; publishAvailable (slResult p);;
        mret (<[i := mkSlot (slCall p) (slTool p) (slAuth p) (slResult p) [] true]> slots)
  | None => mret slots
  end.

(** The goroutines of the batch and the dispatcher, in the order the scheduler
    picks; every slot makes three moves. *)
Fixpoint runBatch (fuel : nat) (ready : list nat) (running : list (nat * bool)) (queue : list nat)
    (slots : list Slot) : M (list Slot) :=
  match fuel with
  | 0 => mret slots
  | S fuel =>
      n ← gets (λ w, oPick O (wLog w));
      let ms := moves ready running queue in
      match ms !! (n `mod` length ms) with
      | None => mret slots
      | Some (MStart i) =>
          started ← startSlot slots i;
          runBatch fuel (filter (λ j, j ≠ i) ready) (running ++ [(i, started)]) queue slots
      | Some (MFinish i started) =>
          slots ← finishSlot slots i started;
          runBatch fuel ready (filter (λ jb, jb.1 ≠ i) running) (queue ++ [i]) slots
      | Some (MPublish i) =>
          slots ← publishSlot slots i;
          runBatch fuel ready running (tail queue) slots
      end
  end.

(** [drainReadBatch] *)
Fixpoint drainReadBatch (slots : list Slot) (cancelled : bool) (out : Results) : M (Results * bool) :=
  match slots with
  | [] => mret (out, cancelled)
  | p :: rest =>
      gone ← ctxErr;
      let c := slCall p in
      if cancelled || gone then
        let res := NewToolError (CallID c) (withheldResultText ++ #": batch release was cancelled") in
        finalizeToolResult c [] res (negb (slAvailable p)) false;;
        drainReadBatch rest true (<[CallID c := res]> out)
      else if slAvailable p then
        finalizeToolResult c (slNotes p) (slResult p) false false;;
        drainReadBatch rest false (<[CallID c := slResult p]> out)
      else
        finalizeToolResult c (slNotes p) (slResult p) true true;;
        drainReadBatch rest false (<[CallID c := slResult p]> out)
  end.

(** [runReadBatch]: the results and [cancelled]. *)
Definition runReadBatch (batch : list ToolCall) : M (Results * bool) :=
  prepared ← prepareReadBatch batch ∅;
  match prepared with
  | None => mret (∅, true)
  | Some (slots, out) =>
      gone ← ctxErr;
      if (gone : bool) then mret (∅, true)
      else
        slots ← runBatch (3 * length slots) (seq 0 (length slots)) [] [] slots;
        drainReadBatch slots false out
  end.

(** ** The whole turn *)

Definition completedDispatchResults (calls : list ToolCall) (results : Results) : list ToolResult :=
  omap (λ c, results !! CallID c) calls.

(** A missing key reads as the zero result. *)
Definition orderedDispatchResults (calls : list ToolCall) (results : Results) : list ToolResult :=
  (λ c, default zeroResult (results !! CallID c)) <$> calls.

Definition batchable (c : ToolCall) : bool := readBatchable (lookupTool (CallName c)) c.

(** The maximal run of consecutive batchable calls, and the rest. *)
Fixpoint span (calls : list ToolCall) : list ToolCall * list ToolCall :=
  match calls with
  | [] => ([], [])
  | c :: rest => if batchable c then let '(b, r) := span rest in (c :: b, r) else ([], calls)
  end.

(** The calls a cancelled batch leaves behind. *)
Fixpoint abandonCalls (calls : list ToolCall) (results : Results) : M Results :=
  match calls with
  | [] => mret results
  | c :: rest =>
      openCard c;;
      let res := NewToolError (CallID c) (withheldResultText ++ #": dispatch was cancelled before execution") in
      publishResult res;; abandonCalls rest (<[CallID c := res]> results)
  end.

Inductive TurnOutcome :=
  | TurnResults (rs : list ToolResult)
  | TurnParked (rs : list ToolResult) (p : dispatchPark)
  | TurnCancelled (rs : list ToolResult).

(** The loop of [dispatch]: [done] are the calls behind, [rest] those ahead; a step
    takes at least one call, so the number of calls is fuel enough. *)
Fixpoint dispatchLoop (fuel : nat) (done rest : list ToolCall) (results : Results) : M TurnOutcome :=
  match fuel, rest with
  | S fuel, c :: tl =>
      if negb (batchable c) then
        o ← runOne c;
        match o with
        | Cancelled => mret (TurnCancelled (completedDispatchResults done results))
        | Parked p =>
            mret (TurnParked (orderedDispatchResults done results) (mkPark (pkAuthorization p) (pkCall p) tl (pkFatal p)))
        | Ended r => dispatchLoop fuel (done ++ [c]) tl (<[CallID c := r]> results)
        end
      else
        let '(batch, after) := span rest in
        '(out, cancelled) ← runReadBatch batch;
        let results := out ∪ results in
        if (cancelled : bool) then
          results ← abandonCalls after results;
          mret (TurnCancelled (completedDispatchResults (done ++ rest) results))
        else dispatchLoop fuel (done ++ batch) after results
  | _, _ => mret (TurnResults (orderedDispatchResults done results))
  end.

Definition dispatch (calls : list ToolCall) : M TurnOutcome := dispatchLoop (length calls) [] calls ∅.

(** ** Resuming at an approval *)

(** [pendingCallID]: the id of the only call of the ask's tool, or empty. *)
Definition pendingCallID (a : PendingAsk) (calls : list ToolCall) : gostr :=
  match filter (λ c, CallName c = AskTool a) calls with
  | [c] => CallID c
  | _ => []
  end.

Definition indexOf (P : ToolCall → bool) (calls : list ToolCall) : option nat :=
  fst <$> list_find (λ c, P c = true) calls.

Definition pendingIndex (a : PendingAsk) (calls : list ToolCall) : option nat :=
  let id := pendingCallID a calls in
  let byID := if negb (id =s []) then indexOf (λ c, CallID c =s id) calls else None in
  match byID with
  | Some i => Some i
  | None => indexOf (λ c, CallName c =s AskTool a) calls
  end.

(** The last message of the assistant, with the messages after it. *)
Fixpoint trailingAssistant (msgs : list Message) : option (Message * list Message) :=
  match msgs with
  | [] => None
  | m :: rest =>
      match trailingAssistant rest with
      | Some x => Some x
      | None => if MRole m =s RoleAssistant then Some (m, rest) else None
      end
  end.

(** [locatePendingCall]: the calls of the trailing message, the index of the pending
    one, and the messages after. *)
Definition locatePendingCall (msgs : list Message) (a : PendingAsk) : option (list ToolCall * nat * list Message) :=
  match trailingAssistant msgs with
  | None => None
  | Some (m, rest) => (λ i, (MToolCalls m, i, rest)) <$> pendingIndex a (MToolCalls m)
  end.

Definition validatePendingApproval (a : PendingAsk) : option gostr :=
  match AskOrigin a with
  | ApprovalOriginPermission | ApprovalOriginPlan =>
      match AskGuardrail a with
      | Some _ => Some (#"origin " ++ Quote (isPrint F)
                    (match AskOrigin a with ApprovalOriginPlan => #"plan" | _ => #"permission" end) ++ #" cannot carry guardrail scope")
      | None => None
      end
  | ApprovalOriginHookGuardrail =>
      match AskGuardrail a with None => Some #"hook guardrail approval is missing its scope" | Some _ => None end
  | ApprovalOriginUnknown => Some (#"unknown approval origin " ++ Quote (isPrint F) [])
  end.

(** [rejectUnresumableApproval] *)
Definition rejectUnresumableApproval (c : ToolCall) (a : PendingAsk) : M (option ToolResult) :=
  let reject text := openCard c;; let res := NewToolError (CallID c) text in publishResult res;; mret (Some res) in
  match validatePendingApproval a with
  | Some err => reject (#"approval unresolved: " ++ err)
  | None =>
      match AskOrigin a, AskGuardrail a with
      | ApprovalOriginHookGuardrail, Some (mkGuardrail _ GuardrailApprovalResultRelease _ _ _) =>
          reject (withheldResultText ++ #": held result was lost across process restart")
      | _, _ => mret None
      end
  end.

(** The tail of [resolvePendingCall] for a hook-originated approval. *)
Definition resumeHookApproved (c : ToolCall) (t : Tool) (a : PendingAsk) : M CallOutcome :=
  if match AskGuardrail a with None => true | Some g => negb (ReviewID g =s []) end then
    refuseCall (NewToolError (CallID c) #"contextual guardrail approval state is unavailable; the action must be reviewed again")
  else
    '(d, auth, cancelled) ← authorizeBound c;
    if (cancelled : bool) then mret Cancelled
    else if DEffect d =s Deny then refuseCall (denyResult c (DReason d))
    else postPreToolUse c t auth.

(** The tail of [resolvePendingCall] for a permission approval. *)
Definition resumePermissionApproved (c : ToolCall) (t : Tool) : M CallOutcome :=
  pre ← preHook c;
  match pre with
  | None => mret Cancelled
  | Some (PreBlocked msg) | Some (PreAsk msg) => refuseCall (NewToolError (CallID c) msg)
  | Some (PreAllow effective) =>
      first ← reauthorizeApprovedCall c true;
      match first with
      | inr denied => refuseCall denied
      | inl auth =>
          if CallArgs effective =s CallArgs c then postPreToolUse effective t auth
          else
            second ← reauthorizeApprovedCall effective false;
            match second with
            | inr denied => refuseCall denied
            | inl auth => postPreToolUse effective t auth
            end
      end
  end.

(** [resolvePendingCall] *)
Definition resolvePendingCall (c : ToolCall) (a : PendingAsk) (v : ApprovalVerdict) : M CallOutcome :=
  if negb (validApprovalVerdict v) then
    mret (Ended (NewToolError (CallID c) #"approval verdict is invalid; the protected tool was not executed"))
  else
    rejected ← rejectUnresumableApproval c a;
    match rejected with
    | Some r => mret (Ended r)
    | None =>
        emit (Answered a v);;
        recordValidatedApproval a v;;
        if v =s VerdictDeny then
          (match AskOrigin a with ApprovalOriginPlan => modify (setWPlanIterate true) | _ => mret tt end);;
          openCard c;; refuseCall (denyResult c (#"denied by user: " ++ AskReason a))
        else
          (match v, AskOrigin a with
           | VerdictAllowAlways, ApprovalOriginPermission =>
               modify (λ w, setWPolicy (PolicyLearn (wPolicy w) (SID (wSession w)) (CallName c) (rawJSON F (CallArgs c))) w);;
               emit (Learned c)
           | _, _ => mret tt
           end);;
          openCard c;;
          s ← sess;
          match lookupTool (CallName c) with
          | None => refuseCall (unavailableOrUnknownToolResult s c)
          | Some t =>
              match AskOrigin a with
              | ApprovalOriginHookGuardrail => resumeHookApproved c t a
              | ApprovalOriginPlan =>
                  modify (setWPlanTarget (Some (planApprovedTargetForVerdict v)));;
                  refuseCall (NewToolResult (CallID c) #"plan approved by operator: proceeding to execution")
              | _ => resumePermissionApproved c t
              end
          end
    end.

Inductive ResumeOutcome :=
  | ResumeNotAwaiting
  | ResumeCancelled
  | ResumeParked (completed : list ToolResult) (p : dispatchPark)
  | ResumeRecorded (rs : list ToolResult)
  | ResumeFailed.

(** The calls in front of a parked one that have no result. *)
Fixpoint lostResults (answered : list gostr) (calls : list ToolCall) : M (list ToolResult) :=
  match calls with
  | [] => mret []
  | c :: rest =>
      if CallID c ∈? answered then lostResults answered rest
      else
        let res := NewToolError (CallID c) #"tool call completed before process loss, but its result was not durably recorded" in
        openCard c;; publishResult res;; rs ← lostResults answered rest; mret (res :: rs)
  end.

(** Step 4 of [driveFromAwaiting]: the pending call's result and a refusal for every
    other call without one. *)
Fixpoint resumeResults (answered : list gostr) (pending : nat) (result : ToolResult) (i : nat) (calls : list ToolCall) :
    M (list ToolResult) :=
  match calls with
  | [] => mret []
  | c :: rest =>
      if CallID c ∈? answered then resumeResults answered pending result (S i) rest
      else if (i =? pending)%nat then
        rs ← resumeResults answered pending result (S i) rest; mret (result :: rs)
      else
        let sibling := NewToolError (CallID c) resumeAbortedSiblingMessage in
        openCard c;; publishResult sibling;;
        rs ← resumeResults answered pending result (S i) rest; mret (sibling :: rs)
  end.

Definition answeredBy (msgs : list Message) : list gostr :=
  omap (λ m, match MRole m, MToolResult m with RoleTool, Some r => Some (RCallID r) | _, _ => None end) msgs.

(** [driveFromAwaiting], up to the continuation of the loop. *)
Definition driveFromAwaiting (askID : gostr) (v : ApprovalVerdict) : M ResumeOutcome :=
  s ← sess;
  match PendingAskOf s with
  | None => mret ResumeNotAwaiting
  | Some a =>
      if negb (AskID a =s askID) then mret ResumeNotAwaiting
      else match locatePendingCall (Messages s) a with
      | None => mret ResumeNotAwaiting
      | Some (calls, i, rest) =>
          match ResumeWith s, calls !! i with
          | (_, inr _), _ | _, None => mret ResumeNotAwaiting
          | (s, inl _), Some c =>
              modify (setWSession s);;
              o ← resolvePendingCall c a v;
              match o with
              | Cancelled => mret ResumeCancelled
              | Parked p =>
                  completed ← lostResults (answeredBy rest) (take i calls);
                  mret (ResumeParked completed (mkPark (pkAuthorization p) (pkCall p) (drop (S i) calls) (pkFatal p)))
              | Ended r =>
                  rs ← resumeResults (answeredBy rest) i r 0 calls;
                  s ← sess;
                  match RecordToolResults s rs with
                  | (_, Some _) => mret ResumeFailed
                  | (s, None) => modify (setWSession s);; mret (ResumeRecorded rs)
                  end
              end
          end
      end
  end.
End dispatch.
