(* ===== verification/Gate.v ===== *)
(** * What dispatch guarantees

    The theorems on [Dispatch]: no tool runs without its gates, denied calls never
    run, serial calls run alone, every call has its result in its place, and a run
    resumed at an approval runs at most the approved call, for every behaviour of
    the outside.

    They are proved with weakest preconditions over the monad of [Dispatch] and one
    invariant of the log, [safe]: every entry is justified by the entries before
    it. *)

From stdpp Require Import pretty.
From S2P Require Import Prelude Fence Json Evaluator Authority Conversation Authorization Labels Session Policy Media Dispatch.

Section gate.
Context {St WS : Type} `{!PermissionStore St}.
Context (F : Format) (O : Outside) (E : Engine WS).

Abbreviation World := (@World St WS).
Abbreviation M := (@M St WS).
Implicit Types w : World.
Implicit Types h : log.

(** ** Weakest preconditions *)

Definition wp {A} (m : M A) (Q : A → World → Prop) (w : World) : Prop := Q (m w).1 (m w).2.

Lemma wp_ret {A} (a : A) (Q : A → World → Prop) w : Q a w → wp (mret a) Q w.
Proof. done. Qed.

Lemma wp_bind {A B} (m : M A) (k : A → M B) (Q : B → World → Prop) w :
  wp m (λ a w', wp (k a) Q w') w → wp (m ≫= k) Q w.
Proof. unfold wp, mbind, M_bind. by destruct (m w) as [a w']. Qed.

Lemma wp_gets {A} (f : World → A) (Q : A → World → Prop) w : Q (f w) w → wp (gets f) Q w.
Proof. done. Qed.

Lemma wp_modify (f : World → World) (Q : unit → World → Prop) w : Q tt (f w) → wp (modify f) Q w.
Proof. done. Qed.

Lemma wp_mono {A} (m : M A) (P Q : A → World → Prop) w :
  wp m P w → (∀ a w', P a w' → Q a w') → wp m Q w.
Proof. unfold wp. auto. Qed.

(** ** The invariant of the log *)

(** The executions in progress: none, one that is not for a batch, or some of a batch. *)
Inductive Phase := Idle | Serial (c : ToolCall) | Batch (n : nat).

#[local] Instance ToolCall_eq_dec : EqDecision ToolCall.
Proof. solve_decision. Defined.

Definition isBatchable (c : ToolCall) : bool := readBatchable (lookupTool E (CallName c)) c.

Definition startPhase (c : ToolCall) (ph : Phase) : option Phase :=
  match ph with
  | Idle => Some (if isBatchable c then Batch 1 else Serial c)
  | Batch n => if isBatchable c then Some (Batch (S n)) else None
  | Serial _ => None
  end.

Definition finishPhase (c : ToolCall) (ph : Phase) : option Phase :=
  match ph with
  | Serial c' => if decide (c = c') then Some Idle else None
  | Batch 1 => Some Idle
  | Batch (S n) => Some (Batch n)
  | _ => None
  end.

Fixpoint phase (h : log) : option Phase :=
  match h with
  | [] => Some Idle
  | Started c :: h => phase h ≫= startPhase c
  | Finished c :: h => phase h ≫= finishPhase c
  | _ :: h => phase h
  end.

(** [x] is in the past of [y]. *)
Definition before (x y : Entry) (h : log) : Prop := ∃ h1 h2, h = h1 ++ y :: h2 ∧ x ∈ h2.

(** A person said yes to the ask of [decision] about [c]. *)
Definition approvedBy (c : ToolCall) (d : PermissionDecision) (h : log) : Prop :=
  ∃ a v, before (Decided c d) (Answered a v) h ∧ AskOrigin a = ApprovalOriginPermission ∧ AskCall a = CallID c ∧
    AskTool a = CallName c ∧ AskReason a = DReason d ∧ (shellSystemScope F c = false → AskArgs a = CallArgs c) ∧
    positive v = true.

(** The policy allowed this very call, or asked and was answered yes. *)
Definition permitted (c : ToolCall) (h : log) : Prop :=
  ∃ d, Decided c d ∈ h ∧ (DEffect d = Allow ∨ DEffect d = Ask ∧ approvedBy c d h).

Definition authorized (bound : bool) (c : ToolCall) (h : log) : Prop :=
  bound = true → extraToolAuthorityExempt E (CallName c) = false → Authorized c ∈ h.

(** The call a hook's outcome leaves. *)
Definition rewritten (c : ToolCall) (o : HookOutcome) : ToolCall :=
  if negb (HMutated o =s []) && jsonValid F (HMutated o) then withArgs c (HMutated o) else c.

Definition hookApproved (c : ToolCall) (h : log) : Prop :=
  ∃ a v, Answered a v ∈ h ∧ AskOrigin a = ApprovalOriginHookGuardrail ∧ AskCall a = CallID c ∧
    AskTool a = CallName c ∧ AskArgs a = CallArgs c ∧ positive v = true.

(** The PreToolUse hook let the call through, or blocked it and a person overrode. *)
Definition hooked (c : ToolCall) (h : log) : Prop :=
  dHooks E = true →
  ∃ c0 sid o, HookRan (mkHookEvent PhasePreToolUse (CallName c0) (CallArgs c0) sid (CallID c0)) (inl o) ∈ h ∧
    (HBlock o = false ∧ rewritten c0 o = c ∨ HBlock o = true ∧ c0 = c ∧ hookApproved c h).

Definition gated (bound : bool) (c : ToolCall) (h : log) : Prop :=
  permitted c h ∧ authorized bound c h ∧ hooked c h.

(** What the policy may not decide, whatever was learned. *)
Definition decisionOk (ev : Evaluator) (mode : PermissionMode) (c : ToolCall) (d : PermissionDecision) : Prop :=
  let args := rawJSON F (CallArgs c) in
  known d ∧
  (mode = ModePlan →
   CallName c ∈ mutatingTools ∨
   (CallName c = #"Shell" ∧ ∃ cmd, ShellCommandFromArgs args = Some cmd ∧ Shell.ReadOnlyShell cmd = false) →
   DEffect d = Deny) ∧
  (∀ r p, r ∈ rules ev → p ∈ callPatterns (CallName c) args → binds ev (CallName c) p Deny r → DEffect d = Deny).

(** The gate an execution has passed is a parameter: [gated] for a turn, a weaker one
    where a call resumes at an approval given earlier. *)
Section invariant.
Context (ev : Evaluator) (mode : PermissionMode) (bound : bool) (gate : ToolCall → log → Prop).
Hypothesis gate_mono : ∀ c h h', h `suffix_of` h' → gate c h → gate c h'.
Hypothesis gate_gated : ∀ c h, gated bound c h → gate c h.

Definition entryOk (e : Entry) (h : log) : Prop :=
  match e with
  | Started c => gate c h
  | Decided c d => decisionOk ev mode c d
  | _ => True
  end.

Fixpoint safe (h : log) : Prop :=
  match h with [] => True | e :: h' => entryOk e h' ∧ safe h' end.

(** The state dispatch starts from and keeps. *)
Record good (w : World) : Prop := {
  gd_safe : safe (wLog w);
  gd_eval : peval (wPolicy w) = ev;
  gd_mode : Mode (wSession w) = mode;
  gd_bound : authorityBound (wSession w) = bound
}.

(** What a piece of dispatch leaves alone. *)
Record frame (w w' : World) : Prop := {
  fr_log : wLog w `suffix_of` wLog w';
  fr_phase : phase (wLog w') = phase (wLog w);
  fr_session : SID (wSession w') = SID (wSession w) ∧ SAuthority (wSession w') = SAuthority (wSession w)
}.

#[global] Instance frame_preorder : PreOrder frame.
Proof.
  split.
  - intros w. by split.
  - intros w1 w2 w3 [L1 P1 [S1 A1]] [L2 P2 [S2 A2]]. split; [by etrans|congruence|split; congruence].
Qed.

(** [m] keeps the invariant, frames, and ends in [Q]. *)
Definition keeps {A} (m : M A) (w : World) (Q : A → World → Prop) : Prop :=
  good w → wp m (λ a w', good w' ∧ frame w w' ∧ Q a w') w.

Lemma keeps_bind {A B} (m : M A) (k : A → M B) w P Q :
  keeps m w P → (∀ a w', good w' → frame w w' → P a w' → keeps (k a) w' Q) → keeps (m ≫= k) w Q.
Proof.
  intros Hm Hk Hg. apply wp_bind. eapply wp_mono; [by apply Hm|]. simpl. intros a w' (Hg' & Hf & HP).
  eapply wp_mono; [by apply (Hk a w')|]. simpl. intros b w2 (? & ? & ?). split_and!; [done|by etrans|done].
Qed.

Lemma keeps_ret {A} (a : A) w (Q : A → World → Prop) : Q a w → keeps (mret a) w Q.
Proof. intros HQ Hg. apply wp_ret. by split_and!. Qed.

Lemma keeps_mono {A} (m : M A) w (P Q : A → World → Prop) :
  keeps m w P → (∀ a w', frame w w' → P a w' → Q a w') → keeps m w Q.
Proof. intros Hm HPQ Hg. eapply wp_mono; [by apply Hm|]. simpl. naive_solver. Qed.

Lemma keeps_gets {A} (f : World → A) w (Q : A → World → Prop) : Q (f w) w → keeps (gets f) w Q.
Proof. intros HQ Hg. apply wp_gets. by split_and!. Qed.

(** Entries that neither start nor finish an execution. *)
Definition plain (e : Entry) : Prop := match e with Started _ | Finished _ => False | _ => True end.

Lemma phase_plain e h : plain e → phase (e :: h) = phase h.
Proof. by destruct e. Qed.

Lemma keeps_emit e w (Q : unit → World → Prop) :
  plain e → entryOk e (wLog w) → Q tt (setWLog (e :: wLog w) w) → keeps (emit e) w Q.
Proof.
  intros Hp He HQ [G1 G2 G3 G4]. unfold emit. apply wp_modify. split_and!; [by split| |done].
  split; [by exists [e]|by apply phase_plain|done].
Qed.

(** A change of the record that touches neither log nor identity. *)
Record quiet (f : World → World) (w : World) : Prop := {
  qt_log : wLog (f w) = wLog w;
  qt_eval : peval (wPolicy (f w)) = peval (wPolicy w);
  qt_session : Mode (wSession (f w)) = Mode (wSession w) ∧ authorityBound (wSession (f w)) = authorityBound (wSession w) ∧
    SID (wSession (f w)) = SID (wSession w) ∧ SAuthority (wSession (f w)) = SAuthority (wSession w)
}.

Lemma keeps_modify f w (Q : unit → World → Prop) : quiet f w → Q tt (f w) → keeps (modify f) w Q.
Proof.
  intros [L1 L2 (L3 & L4 & L5 & L6)] HQ [G1 G2 G3 G4]. apply wp_modify. split_and!; [| |done].
  - split; congruence.
  - split; [by rewrite L1|by rewrite L1|done].
Qed.

(** The same for the first step of a sequence. *)
Lemma bind_gets {A B} (f : World → A) (k : A → M B) w Q : keeps (k (f w)) w Q → keeps (gets f ≫= k) w Q.
Proof. done. Qed.

Lemma bind_ret {A B} (a : A) (k : A → M B) w Q : keeps (k a) w Q → keeps (mret a ≫= k) w Q.
Proof. done. Qed.

Lemma bind_emit {B} e (k : unit → M B) w Q :
  plain e → (good w → entryOk e (wLog w)) → keeps (k tt) (setWLog (e :: wLog w) w) Q → keeps (emit e ≫= k) w Q.
Proof.
  intros Hp He Hk Hg. eapply (keeps_bind _ _ _ (λ _ w', w' = setWLog (e :: wLog w) w)); [|by intros [] ? _ _ ->|done].
  apply keeps_emit; auto.
Qed.

Lemma bind_modify {B} f (k : unit → M B) w Q : quiet f w → keeps (k tt) (f w) Q → keeps (modify f ≫= k) w Q.
Proof.
  intros Hq Hk. eapply (keeps_bind _ _ _ (λ _ w', w' = f w)); [by apply keeps_modify|]. by intros [] ? _ _ ->.
Qed.

(** ** Monotonicity *)

Lemma suffix_elem (e : Entry) h h' : h `suffix_of` h' → e ∈ h → e ∈ h'.
Proof. intros [k ->] He. apply elem_of_app. by right. Qed.

Lemma before_mono x y h h' : h `suffix_of` h' → before x y h → before x y h'.
Proof. intros [k ->] (h1 & h2 & -> & Hx). exists (k ++ h1), h2. by rewrite <-(assoc_L (++)). Qed.

Lemma permitted_mono c h h' : h `suffix_of` h' → permitted c h → permitted c h'.
Proof.
  intros Hs (d & Hd & Hok). exists d. split; [by eapply suffix_elem|]. destruct Hok as [?|[? (a & v & Hb & ?)]]; [by left|].
  right. split; [done|]. exists a, v. split; [by eapply before_mono|done].
Qed.

Lemma authorized_mono c h h' : h `suffix_of` h' → authorized bound c h → authorized bound c h'.
Proof. intros Hs Ha Hb Hx. eapply suffix_elem; eauto. Qed.

Lemma hooked_mono c h h' : h `suffix_of` h' → hooked c h → hooked c h'.
Proof.
  intros Hs Ha Hd. destruct (Ha Hd) as (c0 & sid & o & Hr & Ho). exists c0, sid, o. split; [by eapply suffix_elem|].
  destruct Ho as [?|(? & ? & a & v & Hv & ?)]; [by left|]. right. split_and!; [done..|]. exists a, v.
  split; [by eapply suffix_elem|done].
Qed.

Lemma gated_mono c h h' : h `suffix_of` h' → gated bound c h → gated bound c h'.
Proof. intros Hs (? & ? & ?). split_and!; eauto using permitted_mono, authorized_mono, hooked_mono. Qed.

(** ** Publication *)

Lemma publishAvailable_keeps r w : keeps (publishAvailable r) w (λ _ _, True).
Proof.
  unfold publishAvailable. apply bind_gets. case_bool; [by apply keeps_ret|].
  apply bind_modify; [done|]. by apply keeps_emit.
Qed.

Lemma publishResult_keeps r w : keeps (publishResult r) w (λ _ _, True).
Proof.
  unfold publishResult. eapply keeps_bind; [apply publishAvailable_keeps|]. intros _ w1 _ _ _. by apply keeps_emit.
Qed.

Lemma emitNotes_keeps ns w : keeps (emitNotes ns) w (λ _ _, True).
Proof.
  revert w. induction ns as [|n ns IH]; intros w; [by apply keeps_ret|]. cbn [emitNotes]. by apply bind_emit.
Qed.

(** ** Permission *)

Lemma evaluate_ok w c :
  good w →
  decisionOk ev mode c (PolicyEvaluate (wPolicy w) (SID (wSession w)) (Mode (wSession w)) (CallName c)
    (rawJSON F (CallArgs c)) (dWorkspace E)).
Proof.
  intros [_ He Hm _]. unfold decisionOk, PolicyEvaluate. rewrite He, Hm. split_and!.
  - apply EvaluateWith_known.
  - intros -> Hx. by apply EvaluateWith_plan.
  - intros r p Hr Hp Hb. eapply (EvaluateWith_deny _ _ _ _ _ r p); [|done..]. apply elem_of_app. by left.
Qed.

Lemma bind_evaluate {B} tool args (k : PermissionDecision → M B) w Q :
  keeps (k (PolicyEvaluate (wPolicy w) (SID (wSession w)) (Mode (wSession w)) tool args (dWorkspace E))) w Q →
  keeps (evaluate E tool args ≫= k) w Q.
Proof. done. Qed.

Lemma permissionDecision_keeps c w :
  keeps (permissionDecision F E c) w (λ d w', Decided c d ∈ wLog w' ∧ known d).
Proof.
  intros Hg. pose proof (evaluate_ok w c Hg) as Hok. revert Hg. unfold permissionDecision. apply bind_evaluate.
  case_bool.
  - apply bind_emit; [done|done|]. apply keeps_ret. split; [apply list_elem_of_here|apply Hok].
  - apply orb_false_iff in E0 as [_ Hnd]. bprop. apply bind_evaluate. cbv zeta.
    destruct Hok as (Hk & Hplan & Hdeny).
    assert (Hk' : decisionOk ev mode c (combineScope (PolicyEvaluate (wPolicy w) (SID (wSession w)) (Mode (wSession w))
      (CallName c) (rawJSON F (CallArgs c)) (dWorkspace E)) (PolicyEvaluate (wPolicy w) (SID (wSession w))
      (Mode (wSession w)) shellSystemTempToolName RawEmpty (dWorkspace E)))).
    { split_and!.
      - unfold combineScope. repeat case_bool; [apply EvaluateWith_known|done|apply EvaluateWith_known].
      - intros Hm Hx. exfalso. apply Hnd. by apply Hplan.
      - intros r p Hr Hp Hb. exfalso. apply Hnd. by apply (Hdeny r p). }
    apply bind_emit; [done|done|]. apply keeps_ret. split; [apply list_elem_of_here|apply Hk'].
Qed.

Lemma bind_sess {B} (k : Session → M B) w Q : keeps (k (wSession w)) w Q → keeps (sess ≫= k) w Q.
Proof. done. Qed.

Lemma pause_quiet a s w : PauseForApproval (wSession w) a = (s, None) → quiet (setWSession s) w.
Proof. unfold PauseForApproval. case_bool; [done|]. intros [= <-]. by split. Qed.

Lemma resume_quiet w : quiet (λ w, setWSession (ResumeWith (wSession w)).1 w) w.
Proof. split; [done|done|]. cbn. unfold ResumeWith. destruct (pending (wSession w)); [|done]. by case_bool. Qed.

Lemma recordValidatedApproval_keeps a v w :
  keeps (recordValidatedApproval a v) w (λ _ w', wLog w' = wLog w).
Proof.
  unfold recordValidatedApproval. apply bind_sess. destruct (AskOrigin a); try by apply keeps_ret.
  case_bool; [|by apply keeps_ret]. by apply keeps_modify.
Qed.

Lemma surfaceAsk_keeps a w :
  keeps (surfaceAsk O a) w (λ o w', match o with
    | AskVerdict v => wLog w' = Answered a (AVerdict v) :: Asked a :: wLog w
    | _ => True end).
Proof.
  unfold surfaceAsk. apply bind_sess. destruct (PauseForApproval (wSession w) a) as [s [err|]] eqn:Ep; [by apply keeps_ret|].
  apply bind_modify; [by eapply pause_quiet|]. apply bind_emit; [done..|]. apply bind_gets. apply bind_modify; [apply resume_quiet|].
  destruct (oVerdict O _ a) as [v|]; [|by apply keeps_ret]. apply bind_emit; [done..|].
  eapply keeps_bind; [apply recordValidatedApproval_keeps|]. intros [] w1 _ _ Hl. apply keeps_ret. rewrite Hl. done.
Qed.

Lemma issueAskID_keeps id w : keeps (issueAskID E id) w (λ _ w', wLog w' = wLog w).
Proof. unfold issueAskID. apply bind_sess, bind_gets. cbv zeta. apply bind_modify; [done|]. by apply keeps_ret. Qed.

Lemma learn_quiet tool args w : quiet (λ w, setWPolicy (PolicyLearn (wPolicy w) (SID (wSession w)) tool args) w) w.
Proof. split; [done| |done]. cbn. unfold PolicyLearn. destruct (pstore (wPolicy w)); [|done]. by case_match. Qed.

Lemma authorizeDecision_keeps c d w :
  Decided c d ∈ wLog w → known d →
  keeps (authorizeDecision F O E c d) w (λ r w', r.2 = false → DEffect r.1 ≠ Deny → DEffect r.1 = Allow ∧ permitted c (wLog w')).
Proof.
  intros Hd Hk. unfold authorizeDecision. case_bool.
  { apply keeps_ret. simpl. intros _ Hne. apply negb_true_iff in E0. bprop.
    assert (DEffect d = Allow) as Ha by (unfold known in Hk; by destruct (DEffect d)).
    split; [done|]. exists d. auto. }
  apply negb_false_iff in E0. bprop. eapply keeps_bind; [apply issueAskID_keeps|]. intros askID w1 _ _ Hl1. cbv zeta.
  eapply keeps_bind; [apply surfaceAsk_keeps|]. intros o w2 _ _ Ho.
  destruct o as [| |v]; [by apply keeps_ret..|].
  assert (Hp : positive (AVerdict v) = true → permitted c (wLog w2)).
  { intros Hpos. exists d. rewrite Ho, Hl1. split; [by do 2 right|]. right. split; [done|].
    eexists _, (AVerdict v). split; [eexists [], _; split; [done|by right]|]. simpl.
    split_and!; try done. by intros ->. }
  destruct (AVerdict v) eqn:Ev; try (case_bool; by apply keeps_ret).
  - apply keeps_ret. simpl. auto.
  - apply bind_modify; [apply learn_quiet|]. apply bind_emit; [done..|]. apply keeps_ret. simpl. intros _ _.
    split; [done|]. eapply permitted_mono; [|by apply Hp]. by exists [Learned c].
Qed.

(** ** Authority *)

Lemma authorizeResources_keeps c target s rs w :
  keeps (authorizeResources F O c target s rs) w (λ r _, ∀ x, r = Some x → RCallID x = CallID c).
Proof.
  revert w. induction rs as [|r rs IH]; intros w; cbn [authorizeResources]; [by apply keeps_ret|]. apply bind_gets.
  destruct (oAuthorize O _ _) as [[[] reason]|]; [apply IH|apply keeps_ret; by intros ? [= <-]..].
Qed.

Lemma authorizeExecution_keeps c w :
  keeps (authorizeExecution F O E c) w (λ r w',
    (r = None → authorized bound c (wLog w')) ∧ ∀ x, r = Some x → RCallID x = CallID c).
Proof.
  intros Hg. pose proof (gd_bound _ Hg) as Hb. revert Hg. unfold authorizeExecution. apply bind_sess. cbv zeta.
  assert (Hrefuse : ∀ text, keeps (mret (Some (NewToolError (CallID c) text))) w (λ r w',
    (r = None → authorized bound c (wLog w')) ∧ ∀ x, r = Some x → RCallID x = CallID c)).
  { intros text. apply keeps_ret. split; [done|]. by intros ? [= <-]. }
  case_bool. { apply keeps_ret. split; [|done]. intros _ Hx. apply negb_true_iff in E0. congruence. }
  case_bool. { apply keeps_ret. split; [|done]. intros _ _ Hx. congruence. }
  case_bool; [apply Hrefuse|]. destruct (authorityTarget F c) as [target|]; [|apply Hrefuse].
  destruct (authorityResources F E c) as [rs|]; [|apply Hrefuse]. case_bool; [apply Hrefuse|].
  eapply keeps_bind; [apply authorizeResources_keeps|]. intros denied w1 _ _ Hd. destruct denied as [x|].
  { apply keeps_ret. split; [done|]. intros ? [= <-]. by apply Hd. }
  apply bind_emit; [done..|]. apply keeps_ret. split; [|done]. intros _ _ _. apply list_elem_of_here.
Qed.

Definition cleared (c : ToolCall) (w : World) : Prop := permitted c (wLog w) ∧ authorized bound c (wLog w).

Lemma cleared_mono c w w' : frame w w' → cleared c w → cleared c w'.
Proof. intros [Hs _ _] [? ?]. split; eauto using permitted_mono, authorized_mono. Qed.

Lemma authorizeBound_keeps c w :
  keeps (authorizeBound F O E c) w (λ r w', r.2 = false → DEffect r.1.1 ≠ Deny → cleared c w').
Proof.
  unfold authorizeBound. eapply keeps_bind; [apply permissionDecision_keeps|]. intros d w1 _ _ [Hd Hk].
  eapply keeps_bind; [by apply authorizeDecision_keeps|]. intros [eff canc] w2 _ _ Hp. simpl in Hp.
  case_bool.
  - apply keeps_ret. simpl. intros -> Hne. destruct (Hp eq_refl Hne) as [Ha _]. rewrite Ha in E0. done.
  - apply orb_false_iff in E0 as [-> Ha%negb_false_iff]. bprop.
    apply bind_sess. cbv zeta.
    eapply keeps_bind; [apply authorizeExecution_keeps|]. intros denied w3 _ Hf [Hz _]. destruct denied as [r|]; [by apply keeps_ret|].
    apply keeps_ret. simpl. intros _ Hne. destruct (Hp eq_refl) as [_ Hperm]; [congruence|].
    split; [|by apply Hz]. eapply permitted_mono; [apply Hf|done].
Qed.

Lemma reauthorizeApprovedCall_keeps c acc w :
  keeps (reauthorizeApprovedCall F O E c acc) w (λ r w', match r with
    | inl _ => authorized bound c (wLog w') ∧
        ∃ d, Decided c d ∈ wLog w' ∧ DEffect d ≠ Deny ∧ (acc = false → DEffect d = Allow)
    | inr x => RCallID x = CallID c end).
Proof.
  unfold reauthorizeApprovedCall. eapply keeps_bind; [apply permissionDecision_keeps|]. intros d w1 _ _ [Hd Hk].
  case_bool; [by apply keeps_ret|]. apply orb_false_iff in E0 as [Hne Hacc]. bprop. apply bind_sess.
  eapply keeps_bind; [apply authorizeExecution_keeps|]. intros denied w2 _ Hf [Hz Hx]. destruct denied as [x|]; [apply keeps_ret; by apply Hx|].
  apply keeps_ret. split; [by apply Hz|]. exists d. split_and!; [eapply suffix_elem; [apply Hf|done]|done|].
  intros ->. simpl in Hacc. apply negb_false_iff in Hacc. by bprop.
Qed.

(** ** Hooks *)

Lemma bind_runHook {B} e (k : HookOutcome + gostr → M B) w Q :
  keeps (k (oHook O (wLog w) e)) (setWLog (HookRan e (oHook O (wLog w) e) :: wLog w) w) Q →
  keeps (runHook O e ≫= k) w Q.
Proof. intros Hk. apply (bind_emit (HookRan e (oHook O (wLog w) e)) (λ _, k (oHook O (wLog w) e))); done. Qed.

Definition sameCall (c0 c : ToolCall) : Prop :=
  CallID c = CallID c0 ∧ CallName c = CallName c0 ∧ CallItemID c = CallItemID c0.

(** The call itself, or what a PreToolUse hook run on it left of it. *)
Definition hookLeft (c e : ToolCall) (h : log) : Prop :=
  e = c ∨ ∃ sid o, HookRan (mkHookEvent PhasePreToolUse (CallName c) (CallArgs c) sid (CallID c)) (inl o) ∈ h ∧
    HBlock o = false ∧ rewritten c o = e.

(** A block that a person may still override. *)
Definition blockedByHook (c : ToolCall) (h : log) : Prop :=
  ∃ sid o, HookRan (mkHookEvent PhasePreToolUse (CallName c) (CallArgs c) sid (CallID c)) (inl o) ∈ h ∧ HBlock o = true.

Lemma preHook_keeps c w :
  keeps (preHook F O E c) w (λ r w', match r with
    | Some (PreAllow e) => hooked e (wLog w') ∧ sameCall c e ∧ hookLeft c e (wLog w')
    | Some (PreAsk _) => blockedByHook c (wLog w')
    | _ => True end).
Proof.
  unfold preHook. case_bool. { apply keeps_ret. split_and!; [|done|by left]. intros Hd. by rewrite Hd in E0. }
  apply bind_gets. destruct (oCancelled O _); [by apply keeps_ret|]. apply bind_sess, bind_runHook.
  destruct (oHook O (wLog w) (preEvent (wSession w) c)) as [o|err] eqn:Eo.
  2: { apply bind_gets. apply keeps_ret. by destruct (oCancelled O _). }
  assert (Hpass : HBlock o = false → ∀ w', HookRan (preEvent (wSession w) c) (inl o) ∈ wLog w' →
    hooked (rewritten c o) (wLog w') ∧ sameCall c (rewritten c o) ∧ hookLeft c (rewritten c o) (wLog w')).
  { intros Hb w' Hin. split_and!; [|unfold sameCall, rewritten; by case_bool|right; exists (SID (wSession w)), o; auto].
    intros _. exists c, (SID (wSession w)), o. auto. }
  assert (Hhead : ∀ l, HookRan (preEvent (wSession w) c) (inl o) ∈ l ++ HookRan (preEvent (wSession w) c) (inl o) :: wLog w).
  { intros l. apply elem_of_app. right. apply list_elem_of_here. }
  destruct (HBlock o) eqn:Hb.
  - case_bool.
    + apply keeps_ret. exists (SID (wSession w)), o. split; [apply (Hhead [])|done].
    + apply bind_emit; [done..|]. by apply keeps_ret.
  - specialize (Hpass eq_refl). unfold rewritten in Hpass. destruct (negb (HMutated o =s [])) eqn:Em; simpl in Hpass.
    + destruct (jsonValid F (HMutated o)); (apply bind_emit; [done..|]; apply keeps_ret, Hpass, (Hhead [_])).
    + case_bool; [apply bind_emit; [done..|]; apply keeps_ret, Hpass, (Hhead [_])|apply keeps_ret, Hpass, (Hhead [])].
Qed.

Lemma askHookApproval_keeps c m w :
  keeps (askHookApproval O E c m) w (λ r w', match r with
    | Proceed => hookApproved c (wLog w')
    | Refused r => RCallID r = CallID c
    | GateCancelled => True end).
Proof.
  unfold askHookApproval. eapply keeps_bind; [apply issueAskID_keeps|]. intros askID w1 _ _ Hl1. cbv zeta.
  eapply keeps_bind; [apply surfaceAsk_keeps|]. intros o w2 _ _ Ho. destruct o as [| |v]; [by apply keeps_ret..|].
  assert (Hp : positive (AVerdict v) = true → ∀ w', wLog w2 `suffix_of` wLog w' → hookApproved c (wLog w')).
  { intros Hpos w' Hs. eexists _, (AVerdict v). split; [eapply suffix_elem; [exact Hs|]; rewrite Ho; apply list_elem_of_here|done]. }
  destruct (AVerdict v) eqn:Ev.
  - cbv zeta. eapply keeps_bind; [apply publishResult_keeps|]. intros. by apply keeps_ret.
  - apply keeps_ret. by apply Hp.
  - apply bind_sess. case_bool.
    + apply bind_emit; [done..|]. apply keeps_ret. apply Hp; [done|]. by eexists [_].
    + apply bind_ret. apply keeps_ret. by apply Hp.
  - cbv zeta. eapply keeps_bind; [apply publishResult_keeps|]. intros. by apply keeps_ret.
Qed.

Lemma surfacePlanAsk_keeps c w : keeps (surfacePlanAsk O E c) w (λ r _, ∀ x, r = Some x → RCallID x = CallID c).
Proof.
  assert (Hpub : ∀ res w', RCallID res = CallID c →
    keeps (publishResult res;; mret (Some res)) w' (λ r _, ∀ x, r = Some x → RCallID x = CallID c)).
  { intros res w' Hr. eapply keeps_bind; [apply publishResult_keeps|]. intros. apply keeps_ret. by intros ? [= <-]. }
  unfold surfacePlanAsk. case_bool; [by apply Hpub|].
  eapply keeps_bind; [apply issueAskID_keeps|]. intros askID w1 _ _ _. cbv zeta.
  eapply keeps_bind; [apply surfaceAsk_keeps|]. intros o w2 _ _ _. destruct o as [| |v].
  - apply keeps_ret. by intros ? [= <-].
  - by apply keeps_ret.
  - case_bool; (apply bind_modify; [done|]; by apply Hpub).
Qed.

Lemma postHook_keeps c r w : keeps (postHook F O E c r) w (λ x _, RCallID x.1 = RCallID r).
Proof.
  unfold postHook. apply bind_gets. case_bool; [by apply keeps_ret|]. apply bind_sess, bind_runHook.
  destruct (oHook O _ _); [|by apply keeps_ret]. cbv zeta. case_bool; [|case_bool; by apply keeps_ret].
  destruct (if jsonValid F _ then _ else _) as [[? []]|]; by apply keeps_ret.
Qed.

(** ** Admission *)

Lemma admitCall_keeps c w :
  keeps (admitCall F O E c) w (λ a w', match a with
    | Cleared e _ => gated bound e (wLog w') ∧ sameCall c e
    | Answer r => RCallID r = CallID c
    | Stopped => True end).
Proof.
  unfold admitCall. eapply keeps_bind; [apply authorizeBound_keeps|]. intros [[d auth] canc] w1 _ _ Hb. simpl in Hb.
  destruct canc; [by apply keeps_ret|]. case_bool.
  { cbv zeta. eapply keeps_bind; [apply publishResult_keeps|]. intros. by apply keeps_ret. }
  bprop. specialize (Hb eq_refl E0).
  eapply keeps_bind; [apply preHook_keeps|]. intros pre w2 Hg2 Hf2 Hpre. apply (cleared_mono _ _ _ Hf2) in Hb.
  destruct pre as [pre|]; [|by apply keeps_ret].
  assert (Hrest : ∀ e w3, good w3 → frame w2 w3 → hooked e (wLog w3) → sameCall c e →
    keeps (if CallArgs e =s CallArgs c then mret (Cleared e auth)
           else '(d, auth, cancelled) ← authorizeBound F O E e;
             if (cancelled : bool) then mret Stopped
             else if DEffect d =s Deny then let res := denyResult e (DReason d) in publishResult res;; mret (Answer res)
             else mret (Cleared e auth)) w3
      (λ a w', match a with
        | Cleared e _ => gated bound e (wLog w') ∧ sameCall c e
        | Answer r => RCallID r = CallID c
        | Stopped => True end)).
  { intros e w3 _ Hf3 Hh Hsame. apply (cleared_mono _ _ _ Hf3) in Hb. case_bool.
    - bprop. apply keeps_ret. split; [|done]. destruct Hb. assert (e = c) as ->; [|done].
      destruct e, c, Hsame as (? & ? & ?). simpl in *. congruence.
    - eapply keeps_bind; [apply authorizeBound_keeps|]. intros [[d' auth'] canc] w4 _ Hf4 Hb'. simpl in Hb'.
      destruct canc; [by apply keeps_ret|]. case_bool.
      { cbv zeta. eapply keeps_bind; [apply publishResult_keeps|]. intros. apply keeps_ret. apply Hsame. }
      bprop. destruct (Hb' eq_refl E2) as [? ?]. apply keeps_ret. split; [|done]. split_and!; try done.
      eapply hooked_mono; [apply Hf4|done]. }
  destruct pre as [e|msg|msg].
  - destruct Hpre as (Hh & Hsame & _). apply bind_ret. by apply Hrest.
  - cbv zeta. eapply keeps_bind; [apply publishResult_keeps|]. intros. by apply keeps_ret.
  - eapply keeps_bind; [apply askHookApproval_keeps|]. intros g w3 Hg3 Hf3 Hap. destruct g; [|by apply keeps_ret..].
    apply Hrest; [done|done| |done]. destruct Hpre as (sid & o & Ho & Hblk). intros _. exists c, sid, o.
    split; [eapply suffix_elem; [apply Hf3|done]|]. right. split_and!; [done..|by apply Hap].
Qed.

(** ** Serial execution *)

(** Tools answer with the id of their call. *)
Definition honest : Prop :=
  (∀ h c r, oTool O h c = inl r → RCallID r = CallID c) ∧ (∀ h c caps, RCallID (oSearch O h c caps) = CallID c).

Lemma phase_serial c h : phase h = Some Idle → phase (Finished c :: Started c :: h) = Some Idle.
Proof.
  intros Hp. cbn [phase]. rewrite Hp. cbn. destruct (isBatchable c); [done|]. cbn. by rewrite decide_True.
Qed.

(** A tool run from start to finish, with nothing in between. *)
Lemma bind_serial {A B} c (f : World → A) (k : A → M B) w Q :
  gate c (wLog w) → phase (wLog w) = Some Idle →
  (∀ a, a = f (setWLog (Started c :: wLog w) w) → keeps (k a) (setWLog (Finished c :: Started c :: wLog w) w) Q) →
  keeps (emit (Started c);; a ← gets f; emit (Finished c);; k a) w Q.
Proof.
  intros Hgt Hph Hk [G1 G2 G3 G4]. set (w2 := setWLog (Finished c :: Started c :: wLog w) w).
  assert (Hg2 : good w2) by (split; [by split_and!|done..]).
  assert (Hf2 : frame w w2).
  { split; [by exists [Finished c; Started c]| |done]. rewrite Hph. by apply phase_serial. }
  unfold wp. cbn. destruct (Hk _ eq_refl Hg2) as (? & ? & ?). split_and!; [done|by etrans|done].
Qed.

Lemma result_id c t w :
  honest → RCallID (if TSearch t && authorityBound (wSession w)
    then oSearch O (wLog w) c (ACapabilitySet (SAuthority (wSession w)))
    else match oTool O (wLog w) c with
         | inl r => r
         | inr err => NewToolError (CallID c) (#"tool " ++ Quote (isPrint F) (CallName c) ++ #" failed: " ++ err)
         end) = CallID c.
Proof.
  intros [Ht Hs]. case_bool; [apply Hs|]. destruct (oTool O (wLog w) c) eqn:Eo; [by eapply Ht|done].
Qed.

Lemma executePrivate_keeps c t auth w :
  gate c (wLog w) → phase (wLog w) = Some Idle →
  keeps (executePrivate F O E c t auth) w (λ x _, honest → RCallID x.1 = CallID c).
Proof.
  intros Hgt Hph. destruct (authorityStillValid E auth (wSession w) c) eqn:Ev.
  - assert (Heq : ∀ Q, keeps (emit (Started c);;
        a ← gets (λ w, if TSearch t && authorityBound (wSession w)
                       then oSearch O (wLog w) c (ACapabilitySet (SAuthority (wSession w)))
                       else match oTool O (wLog w) c with
                            | inl r => r
                            | inr err => NewToolError (CallID c) (#"tool " ++ Quote (isPrint F) (CallName c) ++ #" failed: " ++ err)
                            end);
        emit (Finished c);; postHook F O E c a) w Q → keeps (executePrivate F O E c t auth) w Q).
    { intros Q HQ Hg. specialize (HQ Hg). unfold wp in *. revert HQ. unfold executePrivate, startTool, finishTool, sess.
      unfold mbind, M_bind, gets. rewrite Ev. cbn. by destruct (TSearch t && authorityBound (wSession w)). }
    apply Heq, bind_serial; [done..|]. intros a Ha. eapply keeps_mono; [apply postHook_keeps|].
    simpl. intros x w' _ -> Hh. subst a. by apply (result_id c t (setWLog (Started c :: wLog w) w)).
  - assert (Heq : ∀ Q, keeps (postHook F O E c (bindingChanged c)) w Q → keeps (executePrivate F O E c t auth) w Q).
    { intros Q HQ Hg. specialize (HQ Hg). unfold wp in *. revert HQ. unfold executePrivate, startTool, finishTool, sess.
      unfold mbind, M_bind, gets. rewrite Ev. done. }
    apply Heq. eapply keeps_mono; [apply postHook_keeps|]. by intros x w' _ ->.
Qed.

Lemma finalizeToolResult_keeps c ns r av rel w : keeps (finalizeToolResult E c ns r av rel) w (λ _ _, True).
Proof.
  unfold finalizeToolResult.
  eapply (keeps_bind _ _ _ (λ _ _, True)); [destruct rel; [apply emitNotes_keeps|by apply keeps_ret]|]. intros _ w1 _ _ _.
  eapply (keeps_bind _ _ _ (λ _ _, True)); [destruct av; [apply publishAvailable_keeps|by apply keeps_ret]|]. intros _ w2 _ _ _.
  eapply (keeps_bind _ _ _ (λ _ _, True)); [destruct (dRecorder E); [by apply keeps_emit|by apply keeps_ret]|].
  intros _ w3 _ _ _. apply publishResult_keeps.
Qed.

Definition endsFor (c : ToolCall) (o : CallOutcome) : Prop :=
  match o with
  | Ended r => RCallID r = CallID c
  | Parked p => CallID (pkCall p) = CallID c ∧ CallName (pkCall p) = CallName c
  | Cancelled => True
  end.

Lemma runTool_keeps c t auth w :
  gate c (wLog w) → phase (wLog w) = Some Idle →
  keeps (runTool F O E c t auth) w (λ o _, honest → endsFor c o).
Proof.
  intros Hgt Hph. unfold runTool, execute.
  eapply (keeps_bind _ _ _ (λ r _, honest → RCallID r = CallID c)).
  - eapply keeps_bind; [by apply executePrivate_keeps|]. intros [r ns] w1 _ _ Hr. apply bind_gets.
    eapply keeps_bind; [apply finalizeToolResult_keeps|]. intros _ w2 _ _ _. by apply keeps_ret.
  - intros r w1 _ _ Hr. by apply keeps_ret.
Qed.

Lemma refuseCall_keeps c r w : RCallID r = CallID c → keeps (refuseCall r) w (λ o _, endsFor c o).
Proof.
  intros Hr. unfold refuseCall. eapply keeps_bind; [apply publishResult_keeps|]. intros. by apply keeps_ret.
Qed.

Lemma abortAuthorization_keeps a w : keeps (abortAuthorization O a) w (λ _ _, True).
Proof. unfold abortAuthorization. apply bind_gets, bind_emit; [done..|]. by apply keeps_ret. Qed.

Lemma postPreToolUse_keeps c t auth w :
  gate c (wLog w) → phase (wLog w) = Some Idle →
  keeps (postPreToolUse F O E c t auth) w (λ o _, honest → endsFor c o).
Proof.
  intros Hgt Hph. unfold postPreToolUse. apply bind_sess.
  case_bool; [by eapply keeps_mono; [apply (refuseCall_keeps c)|]|]. case_bool; [by apply runTool_keeps|].
  case_bool; [by eapply keeps_mono; [apply (refuseCall_keeps c)|]|]. apply bind_gets.
  destruct (oRequest O (wLog w) c) as [[auth0 req] err]. apply bind_emit; [done..|]. apply bind_gets.
  destruct (oCancelled O _).
  { case_bool; [by apply keeps_ret|]. eapply keeps_bind; [apply abortAuthorization_keeps|]. intros [] w1 _ _ _; by apply keeps_ret. }
  destruct err.
  { eapply (keeps_bind _ _ _ (λ _ _, True)); [|intros; by apply keeps_ret].
    case_bool; [by apply keeps_ret|apply abortAuthorization_keeps]. }
  destruct req; [by apply keeps_ret|].
  apply runTool_keeps; [|done]. eapply gate_mono; [|done]. by exists [Requested c].
Qed.

Lemma runOne_keeps c w :
  phase (wLog w) = Some Idle → keeps (runOne F O E c) w (λ o _, honest → endsFor c o).
Proof.
  intros Hph. unfold runOne. apply bind_sess. apply bind_emit; [done..|].
  destruct (lookupTool E (CallName c)) as [t|].
  2: { eapply keeps_mono; [apply (refuseCall_keeps c)|done]. unfold unavailableOrUnknownToolResult. by case_bool. }
  case_bool.
  { eapply keeps_bind; [apply surfacePlanAsk_keeps|]. intros r w1 _ _ Hr. apply keeps_ret. destruct r; [|done].
    intros _. by apply Hr. }
  eapply keeps_bind; [apply admitCall_keeps|]. intros a w1 _ Hf Ha. destruct a as [e auth|r|]; [|by apply keeps_ret..].
  destruct Ha as [Hgt (Hid & Hname & _)]. eapply keeps_mono; [apply postPreToolUse_keeps; [by apply gate_gated|]|].
  - rewrite (fr_phase _ _ Hf). done.
  - intros o w2 _ Ho Hh. specialize (Ho Hh). destruct o; simpl in *; [congruence|by rewrite <-Hid, <-Hname|done].
Qed.

(** ** The read batch *)

Definition slotOk (h : log) (p : Slot) : Prop := gate (slCall p) h ∧ isBatchable (slCall p) = true.

Lemma slotsOk_mono h h' slots : h `suffix_of` h' → Forall (slotOk h) slots → Forall (slotOk h') slots.
Proof. intros Hs Hf. eapply Forall_impl; [exact Hf|]. intros p [? ?]. split; [by eapply gate_mono|done]. Qed.

(** Every result is filed under the id it answers. *)
Definition filed (out : gmap gostr ToolResult) : Prop := map_Forall (λ id r, RCallID r = id) out.

Lemma filed_insert out id r : filed out → RCallID r = id → filed (<[id := r]> out).
Proof. intros Ho Hr. by apply map_Forall_insert_2. Qed.

Definition ids (calls : list ToolCall) : gset gostr := list_to_set (CallID <$> calls).

Definition prepared (batch : list ToolCall) (out : gmap gostr ToolResult) (w : World)
    (r : option (list Slot * gmap gostr ToolResult)) : Prop :=
  ∀ slots out', r = Some (slots, out') →
    Forall (slotOk (wLog w)) slots ∧ (filed out → filed out') ∧ dom out' ∪ ids (slCall <$> slots) = dom out ∪ ids batch.

Lemma prepareReadBatch_keeps batch out w :
  keeps (prepareReadBatch F O E batch out) w (λ r w', prepared batch out w' r).
Proof.
  revert out w. induction batch as [|c batch IH]; intros out w; cbn [prepareReadBatch].
  { apply keeps_ret. intros slots out' [= <- <-]. split_and!; [constructor|done|set_solver]. }
  assert (Hanswer : ∀ r w', RCallID r = CallID c →
    keeps (prepareReadBatch F O E batch (<[CallID c := r]> out)) w' (λ r w', prepared (c :: batch) out w' r)).
  { intros r w' Hr. eapply keeps_mono; [apply IH|]. intros x w2 _ Hx slots out' ->.
    destruct (Hx slots out' eq_refl) as (H1 & H2 & H3). split_and!; [done|auto using filed_insert|].
    rewrite H3, dom_insert_L. unfold ids. csimpl. set_solver. }
  assert (Hchanged : ∀ r w', RCallID r = CallID c →
    keeps (publishResult r;; prepareReadBatch F O E batch (<[CallID c := r]> out)) w' (λ r w', prepared (c :: batch) out w' r)).
  { intros r w' Hr. eapply keeps_bind; [apply publishResult_keeps|]. intros. by apply Hanswer. }
  apply bind_sess. apply bind_emit; [done..|]. case_bool.
  { eapply keeps_bind; [apply surfacePlanAsk_keeps|]. intros [r|] w1 _ _ Hr; [|by apply keeps_ret]. apply Hanswer. by apply Hr. }
  eapply keeps_bind; [apply admitCall_keeps|]. intros a w1 _ Hf Ha. destruct a as [e auth|r|]; [|by apply Hanswer|by apply keeps_ret].
  destruct Ha as [Hgt (Hid & Hname & _)]. rewrite Hid.
  destruct (lookupTool E (CallName e)) as [t|] eqn:Et; [|by apply Hchanged]. case_bool; [|by apply Hchanged].
  eapply keeps_bind; [apply IH|]. intros r w2 _ Hf2 Hr. apply keeps_ret. destruct r as [[slots out']|]; [|done].
  intros slots' out2 [= <- <-]. destruct (Hr slots out' eq_refl) as (H1 & H2 & H3). split_and!; [|done|].
  - constructor; [|done]. split; [eapply gate_mono; [apply Hf2|by apply gate_gated]|]. unfold isBatchable. cbn [slCall]. by rewrite Et.
  - unfold ids in *. csimpl. rewrite Hid. set_solver.
Qed.

Definition nrun (running : list (nat * bool)) : nat := length (filter (λ jb, jb.2 = true) running).
Definition phaseOf (n : nat) : Phase := match n with 0 => Idle | _ => Batch n end.

Lemma phase_start c n h :
  isBatchable c = true → phase h = Some (phaseOf n) → phase (Started c :: h) = Some (phaseOf (S n)).
Proof. intros Hb Hp. cbn [phase]. rewrite Hp. destruct n; cbn; by rewrite Hb. Qed.

Lemma phase_finish c n h : phase h = Some (phaseOf (S n)) → phase (Finished c :: h) = Some (phaseOf n).
Proof. intros Hp. cbn [phase]. rewrite Hp. by destruct n. Qed.

Lemma filter_ne_perm (l : list nat) i : NoDup l → i ∈ l → l ≡ₚ i :: filter (λ j, j ≠ i) l.
Proof.
  intros Hl Hi. apply NoDup_Permutation; [done| |].
  - apply NoDup_cons. split; [|by apply NoDup_filter]. rewrite list_elem_of_filter. tauto.
  - intros j. rewrite elem_of_cons, list_elem_of_filter. destruct (decide (j = i)); naive_solver.
Qed.

Lemma filter_fst_perm (l : list (nat * bool)) i b :
  NoDup l.*1 → (i, b) ∈ l → l ≡ₚ (i, b) :: filter (λ jb, jb.1 ≠ i) l.
Proof.
  intros Hl Hi. apply NoDup_Permutation; [by apply NoDup_fmap_1 in Hl| |].
  - apply NoDup_cons. split; [rewrite list_elem_of_filter; simpl; tauto|]. apply NoDup_filter. by apply NoDup_fmap_1 in Hl.
  - intros [j b']. rewrite elem_of_cons, list_elem_of_filter. simpl. split.
    + intros Hj. destruct (decide (j = i)) as [->|]; [left|right; done].
      f_equal. apply list_elem_of_lookup in Hi as [x Hx]. apply list_elem_of_lookup in Hj as [y Hy].
      assert (x = y) as ->; [|congruence]. eapply NoDup_lookup; [exact Hl|rewrite list_lookup_fmap, Hx; done|].
      by rewrite list_lookup_fmap, Hy.
    + intros [[= -> ->]|[_ ?]]; done.
Qed.

(** [frame] without the phase. *)
Definition grows (w w' : World) : Prop :=
  wLog w `suffix_of` wLog w' ∧ SID (wSession w') = SID (wSession w) ∧ SAuthority (wSession w') = SAuthority (wSession w).

#[global] Instance grows_preorder : PreOrder grows.
Proof. split; [by intros w|]. intros w1 w2 w3 (? & ? & ?) (? & ? & ?). split_and!; [by etrans|congruence..]. Qed.

Lemma frame_grows w w' : frame w w' → grows w w'.
Proof. by intros [? _ [? ?]]. Qed.

Lemma good_started c w : good w → gate c (wLog w) → good (setWLog (Started c :: wLog w) w).
Proof. intros [G1 G2 G3 G4] Hg. by split. Qed.

Lemma good_finished c w : good w → good (setWLog (Finished c :: wLog w) w).
Proof. intros [G1 G2 G3 G4]. by split. Qed.

Lemma startSlot_wp slots i p n w :
  slots !! i = Some p → slotOk (wLog w) p → good w → phase (wLog w) = Some (phaseOf n) →
  wp (startSlot E slots i) (λ b w', good w' ∧ grows w w' ∧ phase (wLog w') = Some (phaseOf (if b then S n else n))) w.
Proof.
  intros Hp [Hgt Hb] Hg Hph. unfold startSlot. rewrite Hp. unfold startTool. apply wp_bind, wp_gets. case_bool; [by apply wp_ret|].
  apply wp_bind. unfold emit. apply wp_modify, wp_ret. split_and!; [by apply good_started| |by apply phase_start].
  split_and!; [by exists [Started (slCall p)]|done..].
Qed.

Lemma finishTool_wp c t (b : bool) n w :
  good w → phase (wLog w) = Some (phaseOf (if b then S n else n)) →
  wp (finishTool F O E c t b) (λ (x : executionRecord) w', good w' ∧ grows w w' ∧ phase (wLog w') = Some (phaseOf n) ∧ (honest → RCallID x.1 = CallID c)) w.
Proof.
  intros Hg Hph. unfold finishTool. apply wp_bind. destruct b; cbn [negb].
  - apply wp_bind. unfold sess. apply wp_gets. apply wp_bind.
    assert (Hr : wp (if TSearch t && authorityBound (wSession w)
        then gets (λ w0, oSearch O (wLog w0) c (ACapabilitySet (SAuthority (wSession w)))) else timeExecute F O c)
      (λ r w', w' = w ∧ (honest → RCallID r = CallID c)) w).
    { pose proof (result_id c t w) as Hid. destruct (TSearch t && authorityBound (wSession w)); [by apply wp_gets|].
      unfold timeExecute. apply wp_bind, wp_gets, wp_ret. split; [done|]. exact Hid. }
    eapply wp_mono; [exact Hr|]. simpl. intros r w' [-> Hid]. apply wp_bind. unfold emit. apply wp_modify, wp_ret.
    eapply wp_mono; [apply postHook_keeps; by apply good_finished|]. simpl. intros x w2 (Hg2 & Hf2 & Hx). split_and!.
    + done.
    + etrans; [|by apply frame_grows]. split_and!; [by exists [Finished c]|done..].
    + rewrite (fr_phase _ _ Hf2). by apply phase_finish.
    + rewrite Hx. done.
  - apply wp_ret. eapply wp_mono; [by apply postHook_keeps|]. simpl. intros x w2 (Hg2 & Hf2 & Hx). split_and!; [done|by apply frame_grows| |by rewrite Hx].
    by rewrite (fr_phase _ _ Hf2).
Qed.

Lemma publishSlot_keeps slots i w :
  keeps (publishSlot O slots i) w (λ slots' _, slCall <$> slots' = slCall <$> slots ∧ slResult <$> slots' = slResult <$> slots).
Proof.
  unfold publishSlot. destruct (slots !! i) as [p|] eqn:Ep; [|by apply keeps_ret]. apply bind_gets.
  destruct (oCancelled O _); [by apply keeps_ret|].
  eapply keeps_bind; [apply emitNotes_keeps|]. intros _ w1 _ _ _. eapply keeps_bind; [apply publishAvailable_keeps|].
  intros _ w2 _ _ _. apply keeps_ret. rewrite !list_fmap_insert. cbn [slCall slResult].
  by rewrite !list_insert_id by (by rewrite list_lookup_fmap, Ep).
Qed.

Record batchInv (ready : list nat) (running : list (nat * bool)) (slots : list Slot) (w : World) : Prop := {
  bi_good : good w;
  bi_phase : phase (wLog w) = Some (phaseOf (nrun running));
  bi_slots : Forall (slotOk (wLog w)) slots;
  bi_nodup : NoDup (ready ++ running.*1);
  bi_range i : i ∈ ready ++ running.*1 → i < length slots;
  bi_done i p : honest → slots !! i = Some p → i ∉ ready ++ running.*1 → RCallID (slResult p) = CallID (slCall p)
}.

Lemma slotOk_calls h slots slots' : slCall <$> slots' = slCall <$> slots → Forall (slotOk h) slots → Forall (slotOk h) slots'.
Proof.
  intros Heq Hs. unfold slotOk in *. rewrite Forall_forall in *. intros p Hp.
  assert (Hin : slCall p ∈ slCall <$> slots) by (rewrite <-Heq; by apply list_elem_of_fmap_2).
  apply list_elem_of_fmap in Hin as (q & -> & Hq). by apply Hs.
Qed.

Lemma runBatch_wp fuel ready running queue slots w :
  batchInv ready running slots w → fuel = 3 * length ready + 2 * length running + length queue →
  wp (runBatch F O E fuel ready running queue slots) (λ slots' w', good w' ∧ grows w w' ∧ phase (wLog w') = Some Idle ∧
    slCall <$> slots' = slCall <$> slots ∧ (honest → Forall (λ p, RCallID (slResult p) = CallID (slCall p)) slots')) w.
Proof.
  revert ready running queue slots w. induction fuel as [|fuel IH]; intros ready running queue slots w Hi Hfuel; cbn [runBatch].
  { assert (ready = []) as -> by (destruct ready; [done|simpl in Hfuel; lia]).
    assert (running = []) as -> by (destruct running; [done|simpl in Hfuel; lia]).
    apply wp_ret. destruct Hi as [Hg Hph _ _ _ Hd]. split_and!; [done..|]. intros Hh. apply Forall_lookup. intros i p Hp.
    apply (Hd i p); [done..|]. apply not_elem_of_nil. }
  apply wp_bind, wp_gets. cbv zeta. set (ms := moves ready running queue).
  assert (Hlen : length ms ≠ 0).
  { subst ms. unfold moves. rewrite !length_app, !length_fmap. destruct queue; simpl in *; lia. }
  destruct (lookup_lt_is_Some_2 ms (oPick O (wLog w) `mod` length ms)) as [mv Hmv]; [by apply Nat.mod_upper_bound|].
  rewrite Hmv. apply list_elem_of_lookup_2 in Hmv. subst ms. unfold moves in Hmv. rewrite !elem_of_app in Hmv.
  destruct Hi as [Hg Hph Hs Hnd Hrange Hd]. apply NoDup_app in Hnd as (Hnr & Hdisj & Hnn).
  destruct Hmv as [(i & -> & Hi)%list_elem_of_fmap|[([i b] & -> & Hi)%list_elem_of_fmap|Hq]].
  - pose proof (filter_ne_perm ready i Hnr Hi) as Hperm. set (ready' := filter (λ j, j ≠ i) ready) in *.
    destruct (lookup_lt_is_Some_2 slots i) as [p Hp]; [apply Hrange, elem_of_app; by left|].
    apply wp_bind. eapply wp_mono; [eapply startSlot_wp; [done|by eapply Forall_lookup_1|done|done]|].
    simpl. intros b w1 (Hg1 & Hgr & Hph1). eapply wp_mono; [apply IH|].
    + assert (Hsub : ready' ++ (running ++ [(i, b)]).*1 ≡ₚ ready ++ running.*1).
      { rewrite fmap_app. csimpl. rewrite Hperm. solve_Permutation. }
      split; [done| | |by rewrite Hsub; apply NoDup_app| |].
      * rewrite Hph1. f_equal. f_equal. unfold nrun. rewrite filter_app, length_app. destruct b; simpl; lia.
      * eapply slotsOk_mono; [apply Hgr|done].
      * intros j. rewrite Hsub. apply Hrange.
      * intros j q Hh Hj. rewrite Hsub. by apply Hd.
    + rewrite length_app. apply Permutation_length in Hperm. simpl in *. lia.
    + simpl. intros slots' w2 (? & ? & ? & ? & ?). split_and!; [done|by etrans|done..].
  - pose proof (filter_fst_perm running i b Hnn Hi) as Hperm. set (running' := filter (λ jb, jb.1 ≠ i) running) in *.
    assert (Hin : i ∈ running.*1) by (apply list_elem_of_fmap; by exists (i, b)).
    destruct (lookup_lt_is_Some_2 slots i) as [p Hp]; [apply Hrange, elem_of_app; by right|].
    assert (Hn : nrun running = if b then S (nrun running') else nrun running').
    { unfold nrun. rewrite Hperm, filter_cons. by destruct b. }
    rewrite Hn in Hph. apply wp_bind. unfold finishSlot. rewrite Hp. apply wp_bind.
    eapply wp_mono; [by apply (finishTool_wp _ _ b (nrun running'))|].
    simpl. intros [r ns] w1 (Hg1 & Hgr & Hph1 & Hid). simpl in Hid. apply wp_ret.
    set (p' := mkSlot (slCall p) (slTool p) (slAuth p) r ns false).
    assert (Hcalls : slCall <$> <[i:=p']> slots = slCall <$> slots).
    { rewrite list_fmap_insert. apply list_insert_id. by rewrite list_lookup_fmap, Hp. }
    assert (Hfst : running.*1 ≡ₚ i :: running'.*1) by (by rewrite Hperm).
    eapply wp_mono; [apply IH|].
    + split; [done|done| | | |].
      * eapply slotOk_calls; [exact Hcalls|]. eapply slotsOk_mono; [apply Hgr|done].
      * rewrite Hfst in Hnn. apply NoDup_cons in Hnn as [_ Hnn]. apply NoDup_app. split_and!; [done| |done].
        intros j Hj ?. apply (Hdisj j Hj). rewrite Hfst. by right.
      * intros j Hj. rewrite length_insert. apply Hrange. rewrite Hfst. set_solver.
      * intros j q Hh. destruct (decide (i = j)) as [<-|Hne].
        -- rewrite list_lookup_insert_eq by (by eapply lookup_lt_Some). intros [= <-] _. by apply Hid.
        -- rewrite list_lookup_insert_ne by done. intros Hq Hj. apply (Hd j q); [done..|]. rewrite Hfst. set_solver.
    + rewrite length_app. apply Permutation_length in Hperm. simpl in *. lia.
    + simpl. intros slots' w2 (? & ? & ? & Hc & ?). split_and!; [done|by etrans|done|congruence|done].
  - destruct queue as [|i queue]; [by apply not_elem_of_nil in Hq|]. apply list_elem_of_singleton in Hq as ->.
    apply wp_bind. eapply wp_mono; [by apply publishSlot_keeps|]. simpl. intros slots1 w1 (Hg1 & Hf1 & Hc1 & Hr1).
    eapply wp_mono; [apply IH|].
    + split; [done| | |by apply NoDup_app| |].
      * rewrite (fr_phase _ _ Hf1). done.
      * eapply slotOk_calls; [exact Hc1|]. eapply slotsOk_mono; [apply Hf1|done].
      * intros j Hj. apply (f_equal length) in Hc1. rewrite !length_fmap in Hc1. rewrite Hc1. by apply Hrange.
      * intros j q Hh Hj Hnj.
        assert (Hcj : (slCall <$> slots1) !! j = Some (slCall q)) by (by rewrite list_lookup_fmap, Hj).
        assert (Hrj : (slResult <$> slots1) !! j = Some (slResult q)) by (by rewrite list_lookup_fmap, Hj).
        rewrite Hc1, list_lookup_fmap in Hcj. rewrite Hr1, list_lookup_fmap in Hrj.
        destruct (slots !! j) as [q0|] eqn:Eq0; [|done]. injection Hcj as <-. injection Hrj as <-. by apply (Hd j).
    + simpl in *. lia.
    + simpl. intros slots' w2 (? & ? & ? & Hc & ?). split_and!; [done|etrans; [by apply frame_grows|done]|done|congruence|done].
Qed.

Lemma drainReadBatch_keeps slots canc out w :
  keeps (drainReadBatch O E slots canc out) w (λ r _,
    dom r.1 = dom out ∪ ids (slCall <$> slots) ∧
    (Forall (λ p, RCallID (slResult p) = CallID (slCall p)) slots → filed out → filed r.1)).
Proof.
  revert canc out w. induction slots as [|p slots IH]; intros canc out w; cbn [drainReadBatch].
  { apply keeps_ret. split; [unfold ids; set_solver|done]. }
  apply bind_gets. cbv zeta.
  assert (Hrest : ∀ canc' ns r av rel, (RCallID (slResult p) = CallID (slCall p) → RCallID r = CallID (slCall p)) →
    keeps (finalizeToolResult E (slCall p) ns r av rel;; drainReadBatch O E slots canc' (<[CallID (slCall p) := r]> out)) w
      (λ r _, dom r.1 = dom out ∪ ids (slCall <$> p :: slots) ∧
        (Forall (λ p, RCallID (slResult p) = CallID (slCall p)) (p :: slots) → filed out → filed r.1))).
  { intros canc' ns r av rel Hr. eapply keeps_bind; [apply finalizeToolResult_keeps|]. intros _ w1 _ _ _.
    eapply keeps_mono; [apply IH|]. intros x w2 _ [Hd Hx]. split.
    - rewrite Hd, dom_insert_L. unfold ids. csimpl. set_solver.
    - intros [H1 H2]%Forall_cons Ho. apply Hx; [done|]. apply filed_insert; auto. }
  case_bool; [by apply Hrest|]. destruct (slAvailable p); by apply Hrest.
Qed.

Lemma runReadBatch_keeps batch w :
  phase (wLog w) = Some Idle →
  keeps (runReadBatch F O E batch) w (λ r _,
    (r.2 = false → dom r.1 = ids batch) ∧ dom r.1 ⊆ ids batch ∧ (honest → filed r.1)).
Proof.
  intros Hph. unfold runReadBatch. eapply keeps_bind; [apply prepareReadBatch_keeps|]. intros prep w1 _ Hf1 Hp.
  assert (Hnone : keeps (mret (∅, true)) w1 (λ (r : gmap gostr ToolResult * bool) _,
    (r.2 = false → dom r.1 = ids batch) ∧ dom r.1 ⊆ ids batch ∧ (honest → filed r.1))).
  { apply keeps_ret. simpl. split_and!; [done|set_solver|]. intros _. apply map_Forall_empty. }
  destruct prep as [[slots out]|]; [|done]. apply bind_gets. destruct (oCancelled O _); [done|].
  destruct (Hp slots out eq_refl) as (Hs & Ho & Hd). rewrite dom_empty_L in Hd.
  intros Hg1. apply wp_bind. eapply wp_mono.
  { apply runBatch_wp; [|rewrite length_seq; simpl; lia]. split; [done| |done| | |].
    - by rewrite (fr_phase _ _ Hf1), Hph.
    - csimpl. rewrite app_nil_r. apply NoDup_seq.
    - csimpl. intros i. rewrite app_nil_r, elem_of_seq. lia.
    - intros i p _ Hi Hni. exfalso. apply Hni. csimpl. rewrite app_nil_r, elem_of_seq. apply lookup_lt_Some in Hi. lia. }
  simpl. intros slots' w2 (Hg2 & (L2 & S2 & A2) & Hph2 & Hc2 & Hr2).
  assert (Hf2 : frame w1 w2) by (split; [done|by rewrite Hph2, (fr_phase _ _ Hf1)|done]).
  eapply wp_mono; [by apply drainReadBatch_keeps|]. simpl. intros [out' canc] w3 (Hg3 & Hf3 & Hd3 & Hx3). simpl in *.
  split_and!; [done|by etrans|..].
  - intros _. rewrite Hd3, Hc2. unfold ids in *. set_solver.
  - rewrite Hd3, Hc2. unfold ids in *. set_solver.
  - intros Hh. apply Hx3; [auto|]. apply Ho. apply map_Forall_empty.
Qed.

(** ** The turn *)

Lemma abandonCalls_keeps calls results w :
  keeps (abandonCalls calls results) w (λ r _, dom r = dom results ∪ ids calls ∧ (filed results → filed r)).
Proof.
  revert results w. induction calls as [|c calls IH]; intros results w; cbn [abandonCalls].
  { apply keeps_ret. split; [unfold ids; set_solver|done]. }
  apply bind_emit; [done..|]. cbv zeta. eapply keeps_bind; [apply publishResult_keeps|]. intros _ w1 _ _ _.
  eapply keeps_mono; [apply IH|]. intros r w2 _ [Hd Hr]. split.
  - rewrite Hd, dom_insert_L. unfold ids. csimpl. set_solver.
  - intros Hx. apply Hr. by apply filed_insert.
Qed.

Lemma span_spec calls :
  let '(b, r) := span E calls in calls = b ++ r ∧ Forall (λ c, batchable E c = true) b.
Proof.
  induction calls as [|c calls IH]; cbn [span]; [done|]. case_bool; [|done]. destruct (span E calls) as [b r].
  destruct IH as [-> Hb]. split; [done|by constructor].
Qed.

Lemma completed_ids calls results :
  filed results → RCallID <$> completedDispatchResults calls results `sublist_of` CallID <$> calls.
Proof.
  intros Hf. unfold completedDispatchResults. induction calls as [|c calls IH]; csimpl; [done|].
  destruct (results !! CallID c) as [r|] eqn:Er; csimpl; [|by apply sublist_cons]. rewrite (Hf _ _ Er). by apply sublist_skip.
Qed.

Lemma ordered_ids calls results :
  filed results → ids calls ⊆ dom results → RCallID <$> orderedDispatchResults calls results = CallID <$> calls.
Proof.
  intros Hf Hd. unfold orderedDispatchResults. rewrite <-list_fmap_compose. apply list_fmap_ext. intros i c Hc.
  assert (Hin : CallID c ∈ dom results).
  { apply Hd. unfold ids. rewrite elem_of_list_to_set. apply list_elem_of_fmap_2. by eapply list_elem_of_lookup_2. }
  apply elem_of_dom in Hin as [r Hr]. simpl. rewrite Hr. simpl. by apply Hf.
Qed.

(** What a turn hands back for the calls of a message. *)
Definition turnOk (calls : list ToolCall) (o : TurnOutcome) : Prop :=
  match o with
  | TurnResults rs => RCallID <$> rs = CallID <$> calls
  | TurnParked rs p =>
      ∃ front c, calls = front ++ c :: pkDeferred p ∧ RCallID <$> rs = CallID <$> front ∧
        CallID (pkCall p) = CallID c ∧ CallName (pkCall p) = CallName c
  | TurnCancelled rs => RCallID <$> rs `sublist_of` CallID <$> calls
  end.

Lemma ids_app l k : ids (l ++ k) = ids l ∪ ids k.
Proof. unfold ids. rewrite fmap_app. apply list_to_set_app_L. Qed.

Lemma dispatchLoop_keeps fuel front rest results w :
  length rest <= fuel → phase (wLog w) = Some Idle → dom results = ids front → (honest → filed results) →
  keeps (dispatchLoop F O E fuel front rest results) w (λ o _, honest → turnOk (front ++ rest) o).
Proof.
  revert front rest results w. induction fuel as [|fuel IH]; intros front rest results w Hfuel Hph Hd Hf.
  { destruct rest; [|simpl in Hfuel; lia]. cbn [dispatchLoop]. apply keeps_ret. intros Hh. rewrite app_nil_r. simpl.
    apply ordered_ids; [auto|set_solver]. }
  destruct rest as [|c rest]; cbn [dispatchLoop].
  { apply keeps_ret. intros Hh. rewrite app_nil_r. simpl. apply ordered_ids; [auto|set_solver]. }
  case_bool.
  - eapply keeps_bind; [by apply runOne_keeps|]. intros o w1 _ Hf1 Ho. destruct o as [r|p|].
    + replace (front ++ c :: rest) with ((front ++ [c]) ++ rest) by (by rewrite <-(assoc_L (++))). apply IH.
      * simpl in Hfuel. lia.
      * by rewrite (fr_phase _ _ Hf1).
      * rewrite dom_insert_L, Hd, ids_app. unfold ids. csimpl. set_solver.
      * intros Hh. apply filed_insert; [auto|]. by apply Ho.
    + apply keeps_ret. intros Hh. destruct (Ho Hh) as [Hid Hname]. exists front, c. simpl. split_and!; [done| |done..].
      apply ordered_ids; [auto|set_solver].
    + apply keeps_ret. intros Hh. simpl. etrans; [by apply completed_ids; auto|]. rewrite fmap_app. by apply sublist_inserts_r.
  - apply negb_false_iff in E0. pose proof (span_spec (c :: rest)) as Hspan. cbn [span] in *. rewrite E0 in *.
    destruct (span E rest) as [b r]. destruct Hspan as [Heq _]. rewrite Heq.
    eapply keeps_bind; [by apply runReadBatch_keeps|]. intros [out canc] w1 _ Hf1 (Hd1 & Hsub & Hfl1). simpl in Hd1, Hsub, Hfl1.
    assert (Hfl : honest → filed (out ∪ results)) by (intros Hh; apply map_Forall_union_2; [by apply Hfl1|by apply Hf]).
    cbv zeta. destruct canc.
    + eapply keeps_bind; [apply abandonCalls_keeps|]. intros res w2 _ _ [_ Hr2]. apply keeps_ret. intros Hh. apply completed_ids. auto.
    + rewrite (assoc_L (++)). apply IH.
      * apply (f_equal length) in Heq. rewrite length_app in Heq. simpl in *. lia.
      * by rewrite (fr_phase _ _ Hf1).
      * rewrite dom_union_L, Hd, Hd1, ids_app by done. set_solver.
      * done.
Qed.

Lemma dispatch_keeps calls w :
  phase (wLog w) = Some Idle → keeps (dispatch F O E calls) w (λ o _, honest → turnOk calls o).
Proof.
  intros Hph. unfold dispatch. apply (dispatchLoop_keeps _ []); [done|done|by rewrite dom_empty_L|].
  intros _. apply map_Forall_empty.
Qed.
End invariant.
End gate.

(** ** Resuming at an approval *)

Section resume.
Context {St WS : Type} `{!PermissionStore St}.
Context (F : Format) (O : Outside) (E : Engine WS).
Context (ev : Evaluator) (mode : PermissionMode) (bound : bool) (a : PendingAsk) (v : ApprovalVerdict) (c0 : ToolCall).
Implicit Types w : @World St WS.

(** The gate of a resumed call: the verdict was yes, a bound authority admits the call
    that runs, and the policy decided it again.  It is the located call, which the
    policy does not deny, or what the PreToolUse hook left of that call, which then has
    to be allowed without an ask. *)
Definition resumeGate (c : ToolCall) (h : log) : Prop :=
  positive v = true ∧ Answered a v ∈ h ∧ authorized E bound c h ∧
  ∃ d, Decided c d ∈ h ∧ DEffect d ≠ Deny ∧
    (c = c0 ∨ (sameCall c0 c ∧ DEffect d = Allow ∧
       ∃ sid o, HookRan (mkHookEvent PhasePreToolUse (CallName c0) (CallArgs c0) sid (CallID c0)) (inl o) ∈ h ∧
         HBlock o = false ∧ rewritten F c0 o = c)).

Lemma resumeGate_mono c h h' : h `suffix_of` h' → resumeGate c h → resumeGate c h'.
Proof.
  intros Hs (H1 & H2 & H3 & d & Hd & Hne & Hc). split_and!; eauto using suffix_elem, authorized_mono.
  exists d. split_and!; eauto using suffix_elem. destruct Hc as [->|(? & ? & sid & o & ? & ? & ?)]; [by left|].
  right. split_and!; [done..|]. exists sid, o. split_and!; eauto using suffix_elem.
Qed.

Abbreviation kept := (keeps F E ev mode bound resumeGate).

Lemma refuseCall_kept c r w : RCallID r = CallID c → kept (refuseCall r) w (λ o _, honest O → endsFor c o).
Proof. intros Hr. eapply keeps_mono; [by apply refuseCall_keeps|done]. Qed.

Lemma rejectUnresumable_kept c w :
  kept (rejectUnresumableApproval F c a) w (λ r _, ∀ x, r = Some x → RCallID x = CallID c).
Proof.
  assert (Hrej : ∀ text, kept (openCard c;; let res := NewToolError (CallID c) text in publishResult res;; mret (Some res)) w
    (λ r _, ∀ x, r = Some x → RCallID x = CallID c)).
  { intros text. apply bind_emit; [done..|]. cbv zeta. eapply keeps_bind; [apply publishResult_keeps|].
    intros. apply keeps_ret. by intros ? [= <-]. }
  unfold rejectUnresumableApproval. cbv zeta. destruct (validatePendingApproval F a); [apply Hrej|].
  destruct (AskOrigin a); try by apply keeps_ret. destruct (AskGuardrail a) as [[? [] ? ? ?]|]; try by apply keeps_ret. apply Hrej.
Qed.

Lemma resumeHookApproved_kept t w :
  positive v = true → Answered a v ∈ wLog w → phase E (wLog w) = Some Idle →
  kept (resumeHookApproved F O E c0 t a) w (λ o _, honest O → endsFor c0 o).
Proof.
  intros Hpos Hans Hph. unfold resumeHookApproved. case_bool; [by apply refuseCall_kept|].
  eapply keeps_bind; [apply authorizeBound_keeps|]. intros [[d auth] canc] w1 _ Hf Hb. simpl in Hb.
  destruct canc; [by apply keeps_ret|]. case_bool; [by apply refuseCall_kept|]. bprop. destruct (Hb eq_refl E1) as [Hperm Hau].
  apply postPreToolUse_keeps; [apply resumeGate_mono| |by rewrite (fr_phase _ _ _ Hf)].
  destruct Hperm as (d' & Hd' & Hok). split_and!; [done|by eapply suffix_elem; [apply Hf|]|done|].
  exists d'. split_and!; [done|by destruct Hok as [->|[-> _]]|by left].
Qed.

Lemma resumePermissionApproved_kept t w :
  positive v = true → Answered a v ∈ wLog w → phase E (wLog w) = Some Idle →
  kept (resumePermissionApproved F O E c0 t) w (λ o _, honest O → endsFor c0 o).
Proof.
  intros Hpos Hans Hph. unfold resumePermissionApproved. eapply keeps_bind; [apply preHook_keeps|].
  intros pre w1 _ Hf1 Hpre. destruct pre as [[e|msg|msg]|]; [|by apply refuseCall_kept..|by apply keeps_ret].
  destruct Hpre as (_ & Hsame & Hleft). eapply keeps_bind; [apply reauthorizeApprovedCall_keeps|]. intros first w2 _ Hf2 H1.
  assert (Hgo : ∀ auth w3, frame E w2 w3 →
    authorized E bound e (wLog w3) ∧ (∃ d, Decided e d ∈ wLog w3 ∧ DEffect d ≠ Deny ∧ (e = c0 ∨ DEffect d = Allow)) →
    kept (postPreToolUse F O E e t auth) w3 (λ o _, honest O → endsFor c0 o)).
  { intros auth w3 Hf3 [Hau (d & Hd & Hne & Hal)].
    assert (Hin : ∀ x, x ∈ wLog w1 → x ∈ wLog w3).
    { intros x Hx. eapply suffix_elem; [apply (fr_log _ _ _ Hf3)|]. by eapply suffix_elem; [apply (fr_log _ _ _ Hf2)|]. }
    eapply keeps_mono; [apply postPreToolUse_keeps; [apply resumeGate_mono| |]|].
    - split_and!; [done| |done|].
      { apply Hin. by eapply suffix_elem; [apply (fr_log _ _ _ Hf1)|]. }
      exists d. split_and!; [done..|]. destruct Hal as [->|Hal]; [by left|].
      destruct Hleft as [->|(sid & o & Ho & Hb & Hr)]; [by left|]. right. split_and!; [done..|]. exists sid, o. auto.
    - by rewrite (fr_phase _ _ _ Hf3), (fr_phase _ _ _ Hf2), (fr_phase _ _ _ Hf1).
    - intros o w4 _ Ho Hh. specialize (Ho Hh). destruct Hsame as (Hid & Hname & _).
      destruct o; simpl in *; [congruence|by rewrite <-Hid, <-Hname|done]. }
  destruct first as [auth|denied].
  - case_bool.
    + bprop. destruct H1 as [Hau (d & Hd & Hne & _)]. apply Hgo; [done|].
      assert (e = c0) as -> by (destruct e, c0, Hsame as (? & ? & ?); simpl in *; congruence). eauto 6.
    + eapply keeps_bind; [apply reauthorizeApprovedCall_keeps|]. intros second w3 _ Hf3 H2.
      destruct second as [auth2|denied].
      * destruct H2 as [Hau (d & Hd & Hne & Hal)]. apply Hgo; eauto 7.
      * apply refuseCall_kept. rewrite H2. apply Hsame.
  - by apply refuseCall_kept.
Qed.

Lemma resolvePendingCall_kept w :
  phase E (wLog w) = Some Idle → kept (resolvePendingCall F O E c0 a v) w (λ o _, honest O → endsFor c0 o).
Proof.
  intros Hph. unfold resolvePendingCall. case_bool; [by apply keeps_ret|]. apply negb_false_iff in E0.
  eapply keeps_bind; [apply rejectUnresumable_kept|]. intros [x|] w1 _ Hf1 Hx; [apply keeps_ret; intros _; by apply Hx|].
  apply bind_emit; [done..|]. eapply keeps_bind; [apply recordValidatedApproval_keeps|]. intros [] w2 _ Hf2 Hl2.
  assert (Hph2 : phase E (wLog w2) = Some Idle) by (rewrite (fr_phase _ _ _ Hf2); simpl; by rewrite (fr_phase _ _ _ Hf1)).
  assert (Hans : Answered a v ∈ wLog w2) by (rewrite Hl2; apply list_elem_of_here).
  case_bool.
  { eapply keeps_bind with (P := λ _ _, True).
    - destruct (AskOrigin a); try by apply keeps_ret. by apply keeps_modify.
    - intros _ w3 _ _ _. apply bind_emit; [done..|]. by apply refuseCall_kept. }
  assert (Hpos : positive v = true) by (destruct v; done).
  eapply keeps_bind with (P := λ _ _, True).
  { destruct v; try by apply keeps_ret. destruct (AskOrigin a); try by apply keeps_ret.
    apply bind_modify; [apply learn_quiet|]. by apply keeps_emit. }
  intros _ w3 _ Hf3 _. apply bind_emit; [done..|]. apply bind_sess.
  set (w4 := setWLog (Card c0 :: wLog w3) w3).
  assert (Hph4 : phase E (wLog w4) = Some Idle) by (simpl; by rewrite (fr_phase _ _ _ Hf3)).
  assert (Hans4 : Answered a v ∈ wLog w4) by (right; by eapply suffix_elem; [apply Hf3|]).
  destruct (lookupTool E (CallName c0)) as [t|].
  2: { apply refuseCall_kept. unfold unavailableOrUnknownToolResult. by case_bool. }
  destruct (AskOrigin a).
  - by apply resumePermissionApproved_kept.
  - by apply resumePermissionApproved_kept.
  - by apply resumeHookApproved_kept.
  - apply bind_modify; [done|]. by apply refuseCall_kept.
Qed.

Lemma lostResults_kept answered calls w : kept (lostResults answered calls) w (λ _ _, True).
Proof.
  revert w. induction calls as [|c calls IH]; intros w; cbn [lostResults]; [by apply keeps_ret|]. case_bool; [apply IH|].
  cbv zeta. apply bind_emit; [done..|]. eapply keeps_bind; [apply publishResult_keeps|]. intros _ w1 _ _ _.
  eapply keeps_bind; [apply IH|]. intros. by apply keeps_ret.
Qed.

Definition unanswered (answered : list gostr) (calls : list ToolCall) : list ToolCall :=
  filter (λ c, CallID c ∉ answered) calls.

Lemma resumeResults_kept answered i r k calls w :
  (honest O → ∀ c, calls !! (i - k) = Some c → k <= i → RCallID r = CallID c) →
  kept (resumeResults answered i r k calls) w (λ rs _, honest O → RCallID <$> rs = CallID <$> unanswered answered calls).
Proof.
  revert k w. induction calls as [|c calls IH]; intros k w Hr; cbn [resumeResults]; [by apply keeps_ret|].
  assert (Hnext : ∀ w', kept (resumeResults answered i r (S k) calls) w' (λ rs _, honest O → RCallID <$> rs = CallID <$> unanswered answered calls)).
  { intros w'. apply IH. intros Hh c' Hc' Hk. apply (Hr Hh c'); [|lia]. replace (i - k) with (S (i - S k)) by lia. done. }
  unfold unanswered in *. rewrite filter_cons. destruct (decide (CallID c ∈ answered)) as [Hin|Hin].
  { rewrite bool_decide_true by done. rewrite decide_False by tauto. apply Hnext. }
  rewrite bool_decide_false by done. rewrite decide_True by done. case_bool.
  - apply Nat.eqb_eq in E0 as ->. eapply keeps_bind; [apply Hnext|]. intros rs w1 _ _ Hrs. apply keeps_ret. intros Hh. csimpl.
    rewrite Hrs by done. f_equal. apply (Hr Hh c); [|done]. by rewrite Nat.sub_diag.
  - cbv zeta. apply bind_emit; [done..|]. eapply keeps_bind; [apply publishResult_keeps|]. intros _ w1 _ _ _.
    eapply keeps_bind; [apply Hnext|]. intros rs w2 _ _ Hrs. apply keeps_ret. intros Hh. csimpl. by rewrite Hrs.
Qed.

Lemma record_quiet s rs w : RecordToolResults (wSession w) rs = (s, None) → quiet (setWSession s) w.
Proof.
  unfold RecordToolResults. case_bool; [done|]. intros [= <-].
  assert (H : ∀ rs s, let s' := foldl recordResult s rs in
    Mode s' = Mode s ∧ authorityBound s' = authorityBound s ∧ SID s' = SID s ∧ SAuthority s' = SAuthority s).
  { clear. induction rs as [|r rs IH]; intros s; [done|]. cbn [foldl]. destruct (IH (recordResult s r)) as (H1 & H2 & H3 & H4).
    cbv zeta. rewrite H1, H2, H3, H4. done. }
  split; [done|done|]. cbn. apply H.
Qed.
End resume.

(** * Theorems *)

Section theorems.
Context {St WS : Type} `{!PermissionStore St}.
Context (F : Format) (O : Outside) (E : Engine WS).
Implicit Types w : @World St WS.

Lemma safe_at (ev : Evaluator) mode gate h later e past :
  safe F ev mode gate h → h = later ++ e :: past → entryOk F ev mode gate e past.
Proof.
  intros Hs ->. induction later as [|x later IH]; simpl in Hs; [by destruct Hs|]. apply IH. apply Hs.
Qed.

Lemma dispatch_run calls w :
  wLog w = [] →
  let gate := gated F E (authorityBound (wSession w)) in
  good F (peval (wPolicy w)) (Mode (wSession w)) (authorityBound (wSession w)) gate (dispatch F O E calls w).2 ∧
  frame E w (dispatch F O E calls w).2 ∧ (honest O → turnOk calls (dispatch F O E calls w).1).
Proof.
  intros Hl gate. apply (dispatch_keeps F O E _ _ _ gate); [| |by rewrite Hl|].
  - intros c h h'. apply gated_mono.
  - done.
  - split; try done. by rewrite Hl.
Qed.


(** What a safe log says of a call that ran. *)
Lemma safe_denied (ev : Evaluator) mode bound h c :
  safe F ev mode (gated F E bound) h → Started c ∈ h →
  let args := rawJSON F (CallArgs c) in
  (∀ r p, r ∈ rules ev → p ∈ callPatterns (CallName c) args → ¬ binds ev (CallName c) p Deny r) ∧
  (mode = ModePlan →
   CallName c ∉ mutatingTools ∧
   (CallName c = #"Shell" → ∀ cmd, ShellCommandFromArgs args = Some cmd → Shell.ReadOnlyShell cmd = true)).
Proof.
  intros Hs Hin args.
  apply list_elem_of_split in Hin as (later & past & Hlog).
  pose proof (safe_at _ _ _ _ _ _ _ Hs Hlog) as (Hperm & _ & _). destruct Hperm as (d & Hd & Hok).
  apply list_elem_of_split in Hd as (l2 & p2 & Hp2).
  assert (Hdec : decisionOk F ev mode c d).
  { apply (safe_at _ _ _ _ (later ++ Started c :: l2) (Decided c d) p2 Hs). rewrite Hlog, Hp2. by rewrite <-(assoc_L (++)). }
  assert (Hne : DEffect d ≠ Deny) by (destruct Hok as [->|[-> _]]; done).
  destruct Hdec as (_ & Hplan & Hdeny). split.
  - intros r p Hr Hp Hb. apply Hne. by apply (Hdeny r p).
  - intros Hm. split.
    + intros Hmut. apply Hne, Hplan; [done|]. by left.
    + intros Hsh cmd Hcmd. destruct (Shell.ReadOnlyShell cmd) eqn:Ero; [done|]. exfalso. apply Hne, Hplan; [done|].
      right. split; [done|]. by exists cmd.
Qed.

(** Denied calls never run.  No tool call that a static deny rule matches is
    executed, and in plan mode no mutating tool and no shell command that is not
    read-only is, whatever rules were learned and whatever approvals are given. *)
Theorem dispatch_denied_never_runs calls w c :
  let ev := peval (wPolicy w) in
  let args := rawJSON F (CallArgs c) in
  wLog w = [] → Started c ∈ wLog (dispatch F O E calls w).2 →
  (∀ r p, r ∈ rules ev → p ∈ callPatterns (CallName c) args → ¬ binds ev (CallName c) p Deny r) ∧
  (Mode (wSession w) = ModePlan →
   CallName c ∉ mutatingTools ∧
   (CallName c = #"Shell" → ∀ cmd, ShellCommandFromArgs args = Some cmd → Shell.ReadOnlyShell cmd = true)).
Proof.
  intros ev args Hl Hin. destruct (dispatch_run calls w Hl) as ([Hs _ _ _] & _ & _).
  by eapply safe_denied.
Qed.

Lemma phase_suffix h h' : h `suffix_of` h' → phase E h' ≠ None → phase E h ≠ None.
Proof.
  intros [k ->]. induction k as [|e k IH]; simpl; [done|]. intros Hp. apply IH. intros Hn.
  destruct e; try done; rewrite Hn in Hp; done.
Qed.

(** C4. Reads in parallel, everything else alone.  At every moment of a turn the
    running tools are none, one, or several that are all read-batchable: a tool that
    may change anything never overlaps another, whatever order the scheduler picks,
    and at the end of the turn nothing is running. *)
Theorem dispatch_serial calls w h :
  wLog w = [] → h `suffix_of` wLog (dispatch F O E calls w).2 →
  phase E h ≠ None ∧ phase E (wLog (dispatch F O E calls w).2) = Some Idle.
Proof.
  intros Hl Hs. destruct (dispatch_run calls w Hl) as (_ & [_ Hp _] & _). rewrite Hl in Hp. split; [|done].
  eapply phase_suffix; [done|]. by rewrite Hp.
Qed.

(** C24. Every call is answered in its place.  When tools answer with the id of their
    call, a turn that is not cancelled hands back one result per call, in the order
    of the calls; a parked turn hands back the results of the calls in front of the
    parked one and defers exactly those behind it; a cancelled turn's results are in
    order and answer calls of the turn. *)
Theorem dispatch_answers_in_order calls w :
  wLog w = [] → honest O → turnOk calls (dispatch F O E calls w).1.
Proof. intros Hl. by destruct (dispatch_run calls w Hl) as (_ & _ & ?). Qed.

(** The pending call of an awaiting session, and what a verdict resumes. *)
Definition resumes (s : Session) (askID : gostr) (a : PendingAsk) (calls : list ToolCall) (i : nat)
    (rest : list Message) (c0 : ToolCall) : Prop :=
  PendingAskOf s = Some a ∧ AskID a = askID ∧ locatePendingCall (Messages s) a = Some (calls, i, rest) ∧ calls !! i = Some c0.

Lemma driveFromAwaiting_run askID v w :
  wLog w = [] → let r := driveFromAwaiting F O E askID v w in
  (r.1 = ResumeNotAwaiting ∧ wLog r.2 = []) ∨
  ∃ a calls i rest c0, resumes (wSession w) askID a calls i rest c0 ∧
    safe F (peval (wPolicy w)) (Mode (wSession w)) (resumeGate F E (authorityBound (wSession w)) a v c0) (wLog r.2) ∧
    (honest O → ∀ rs, r.1 = ResumeRecorded rs → RCallID <$> rs = CallID <$> unanswered (answeredBy rest) calls).
Proof.
  intros Hl. cbv [driveFromAwaiting sess mbind M_bind gets mret M_ret]. cbv zeta.
  destruct (PendingAskOf (wSession w)) as [a|] eqn:Ea; [|left; by split].
  destruct (negb (AskID a =s askID)) eqn:Eid; [by left|]. bprop.
  destruct (locatePendingCall (Messages (wSession w)) a) as [[[calls i] rest]|] eqn:Eloc; [|by left].
  destruct (ResumeWith (wSession w)) as [s1 [ask|]] eqn:Er; [|by left]. destruct (calls !! i) as [c0|] eqn:Ec; [|by left].
  right. exists a, calls, i, rest, c0. split; [by split_and!|].
  set (gate := resumeGate F E (authorityBound (wSession w)) a v c0).
  assert (Hk : keeps F E (peval (wPolicy w)) (Mode (wSession w)) (authorityBound (wSession w)) gate (modify (setWSession s1);;
      o ← resolvePendingCall F O E c0 a v;
      match o with
      | Cancelled => mret ResumeCancelled
      | Parked p =>
          completed ← lostResults (answeredBy rest) (take i calls);
          mret (ResumeParked completed (mkPark (pkAuthorization p) (pkCall p) (drop (S i) calls) (pkFatal p)))
      | Ended r =>
          rs ← resumeResults (answeredBy rest) i r 0 calls;
          s ← gets wSession;
          match RecordToolResults s rs with
          | (_, Some _) => mret ResumeFailed
          | (s, None) => modify (setWSession s);; mret (ResumeRecorded rs)
          end
      end) w (λ r _, honest O → ∀ rs, r = ResumeRecorded rs → RCallID <$> rs = CallID <$> unanswered (answeredBy rest) calls)).
  { apply bind_modify.
    { pose proof (resume_quiet w) as Hq. destruct Hq as [Q1 Q2 Q3]. cbn in Q3. rewrite Er in Q3. split; done. }
    eapply keeps_bind; [apply resolvePendingCall_kept; simpl; by rewrite Hl|]. intros o w1 _ _ Ho. destruct o as [r|p|].
    - eapply keeps_bind; [apply (resumeResults_kept F O E)|].
      { intros Hh c Hc _. rewrite Nat.sub_0_r in Hc. rewrite Ec in Hc. injection Hc as <-. by apply Ho. }
      intros rs w2 _ _ Hrs. apply bind_gets. destruct (RecordToolResults (wSession w2) rs) as [s2 [err|]] eqn:Erec; [by apply keeps_ret|].
      apply bind_modify; [by eapply record_quiet|]. apply keeps_ret. intros Hh ? [= <-]. by apply Hrs.
    - eapply keeps_bind; [apply lostResults_kept|]. intros. by apply keeps_ret.
    - by apply keeps_ret. }
  assert (Hg : good F (peval (wPolicy w)) (Mode (wSession w)) (authorityBound (wSession w)) gate w).
  { split; [by rewrite Hl|done..]. }
  destruct (Hk Hg) as ([Hs _ _ _] & _ & Hr). split; [exact Hs|exact Hr].
Qed.

(** The located call is the first of the turn with the ask's tool, when the calls have
    distinct ids. *)
Lemma located_first a calls i c0 :
  NoDup (CallID <$> calls) → pendingIndex a calls = Some i → calls !! i = Some c0 →
  CallName c0 = AskTool a ∧ ∀ j c, calls !! j = Some c → CallName c = AskTool a → i ≤ j.
Proof.
  intros Hnd Hi Hc. unfold pendingIndex in Hi. case_match eqn:Hby.
  2: { unfold indexOf in Hi. apply fmap_Some in Hi as ([i' c] & Hf & ->). apply list_find_Some in Hf as (Hl & Hn & Hbef).
       simpl in *. rewrite Hl in Hc. injection Hc as ->. bprop. split; [done|]. intros j c Hj Hname.
       destruct (decide (i' ≤ j)) as [|Hlt]; [done|]. exfalso. apply (Hbef j c); [done|lia|by apply bool_decide_eq_true_2]. }
  injection Hi as ->. case_bool; [|done]. apply fmap_Some in Hby as ([i' c] & Hf & ->). apply list_find_Some in Hf as (Hl & Hn & _).
  simpl in *. rewrite Hl in Hc. injection Hc as ->. bprop. unfold pendingCallID in Hn, E0.
  destruct (filter (λ c, CallName c = AskTool a) calls) as [|x [|]] eqn:Ef; try done.
  assert (Honly : ∀ j c, calls !! j = Some c → CallName c = AskTool a → c = x).
  { intros j c Hj Hname. assert (Hin : c ∈ filter (λ c, CallName c = AskTool a) calls).
    { apply list_elem_of_filter. split; [done|]. by eapply list_elem_of_lookup_2. }
    rewrite Ef in Hin. by apply list_elem_of_singleton in Hin. }
  assert (Hx : x ∈ filter (λ c, CallName c = AskTool a) calls) by (rewrite Ef; apply list_elem_of_here).
  apply list_elem_of_filter in Hx as [Hxn Hx]. apply list_elem_of_lookup in Hx as [k Hk].
  assert (Hat : ∀ j, calls !! j = Some x → i' = j).
  { intros j Hj. eapply NoDup_lookup; [exact Hnd| |]; rewrite list_lookup_fmap; [by rewrite Hl|rewrite Hj; simpl; by rewrite Hn]. }
  pose proof (Hat k Hk) as <-. rewrite Hl in Hk. injection Hk as ->. split; [done|].
  intros j c Hj Hname. rewrite (Honly j c Hj Hname) in Hj. by rewrite (Hat j Hj).
Qed.

(** C25. What an approval given before a restart runs.  When the run of an awaiting
    session is resumed with a verdict, a tool starts only if the verdict was yes and was
    given to the ask the session waits for.  The call that starts is the one
    [locatePendingCall] finds for the ask, with its arguments, and the policy, asked
    again about exactly this call, does not deny it; or it is what the PreToolUse hook
    left of that call, and the policy allows the new arguments outright.  A bound
    authority admits it.  When the turn's calls have distinct ids, the call found is
    the first one of the ask's tool: the asked call when the tool occurs once, and
    possibly another one when it occurs more than once ([resume_wrong_call]). *)
Theorem resume_gate askID v w later c past :
  wLog w = [] → wLog (driveFromAwaiting F O E askID v w).2 = later ++ Started c :: past →
  ∃ a calls i rest c0, resumes (wSession w) askID a calls i rest c0 ∧
    resumeGate F E (authorityBound (wSession w)) a v c0 c past ∧
    (NoDup (CallID <$> calls) →
     CallName c0 = AskTool a ∧ ∀ j c', calls !! j = Some c' → CallName c' = AskTool a → i ≤ j).
Proof.
  intros Hl Hlog. destruct (driveFromAwaiting_run askID v w Hl) as [[_ He]|(a & calls & i & rest & c0 & Hres & Hs & _)].
  - rewrite He in Hlog. by destruct later.
  - exists a, calls, i, rest, c0. split_and!; [done|exact (safe_at _ _ _ _ _ _ _ Hs Hlog)|]. intros Hnd.
    destruct Hres as (_ & _ & Hloc & Hc). unfold locatePendingCall in Hloc.
    destruct (trailingAssistant _) as [[m rest']|]; [|done]. apply fmap_Some in Hloc as (i' & Hi & [= -> -> ->]).
    by apply located_first.
Qed.

(** A restart leaves no call open.  When tools answer with the id of their call,
    the results a resumed run records are one per call of the interrupted turn that has
    no result yet, in the order of the calls. *)
Theorem resume_answers_unanswered askID v w rs :
  wLog w = [] → honest O → (driveFromAwaiting F O E askID v w).1 = ResumeRecorded rs →
  ∃ a calls i rest c0, resumes (wSession w) askID a calls i rest c0 ∧
    RCallID <$> rs = CallID <$> unanswered (answeredBy rest) calls.
Proof.
  intros Hl Hh Hr. destruct (driveFromAwaiting_run askID v w Hl) as [[He _]|(a & calls & i & rest & c0 & Hres & _ & Hrs)].
  - by rewrite He in Hr.
  - exists a, calls, i, rest, c0. split; [done|]. by apply Hrs.
Qed.
End theorems.

(** ** A sample engine

    A catalogue of a reading tool and a shell, hooks that let everything through, a
    person who says yes, and tools that answer with the name of their call. *)
Definition sampleFormat : Format :=
  mkFormat (λ b, RawValue (JObject [(#"command", JString b)])) (λ _ s _, s) (λ s, s) (λ s, s) (λ _, true).

Definition sampleOutside : Outside :=
  mkOutside (λ _, false) (λ _ _, Some (mkApproval VerdictAllowOnce [])) (λ _ _, inl (mkOutcome false [] [] false))
    (λ _ c, inl (NewToolResult (CallID c) (CallArgs c))) (λ _ c _, NewToolResult (CallID c) []) (λ _ _, inl (true, []))
    (λ _ _, (zeroAuthorization, false, false)) (λ _ _, true) (λ h, length h).

Definition sampleTool (readOnly : bool) : Tool := mkTool readOnly false false None false.

Definition sampleEngine : Engine unit :=
  mkEngine unit [(#"Shell", sampleTool false); (#"Read", sampleTool true)] (λ _, false) None true false [] false true false false
    false None false tt (mkEnvRef #"local" #"ws" #"1") #"d".

Definition sampleShell (id cmd : gostr) : ToolCall := NewToolCall id #"Shell" cmd.
Definition sampleRead (id : gostr) : ToolCall := NewToolCall id #"Read" #"f".

Definition sampleTurn : list ToolCall := [sampleRead #"a"; sampleRead #"b"; sampleShell #"c" #"make"].

(** A session whose assistant has just asked for [calls]. *)
Definition sampleRunning (calls : list ToolCall) : Session :=
  runOps (platform := samplePlatform) sampleNew
    [ ORecordUserPrompt #"go" [] [] UserPromptProvenancePrincipal; OBeginTurn;
      ORecordAssistant (NewAssistantMessage #"ok" [] calls) ].

Definition sampleStart : Session := Eval vm_compute in sampleRunning sampleTurn.

Definition samplePolicy : Policy Memory unit := NewPolicy [denyRm] (Some NewMemory) [].

Definition sampleWorld (s : Session) : World := mkWorld s samplePolicy 0 [] None false None [].

Definition sampleRun : TurnOutcome * World :=
  dispatch sampleFormat sampleOutside sampleEngine sampleTurn (sampleWorld sampleStart).

Definition sampleAsk (c : ToolCall) : PendingAsk :=
  mkAsk #"ask" (CallName c) (CallArgs c) [] (CallID c) None ApprovalOriginPermission AskProvenanceUnknown.


(** The session waiting for an answer about [c]. *)
Definition sampleParked (calls : list ToolCall) (c : ToolCall) : Session :=
  (PauseForApproval (sampleRunning calls) (sampleAsk c)).1.

Definition sampleAwaiting : Session := Eval vm_compute in sampleParked [sampleRead #"a"; sampleShell #"b" #"make"] (sampleShell #"b" #"make").

Definition sampleResume : ResumeOutcome * World :=
  driveFromAwaiting sampleFormat sampleOutside sampleEngine #"ask" VerdictAllowOnce (sampleWorld sampleAwaiting).


Lemma dispatch_denied_never_runs_witness :
  #"make" ∈ callPatterns #"Shell" (rawJSON sampleFormat #"make") ∧ ¬ binds (peval samplePolicy) #"Shell" #"make" Deny denyRm.
Proof.
  assert (Hp : #"make" ∈ callPatterns #"Shell" (rawJSON sampleFormat #"make")).
  { apply (list_elem_of_lookup_2 _ 0). vm_compute. reflexivity. }
  assert (Hin : Started (sampleShell #"c" #"make") ∈ wLog sampleRun.2).
  { apply (list_elem_of_lookup_2 _ 4). vm_compute. reflexivity. }
  split; [exact Hp|].
  apply (proj1 (dispatch_denied_never_runs sampleFormat sampleOutside sampleEngine sampleTurn (sampleWorld sampleStart)
    (sampleShell #"c" #"make") eq_refl Hin) denyRm #"make"); [left|exact Hp].
Defined.

Lemma dispatch_serial_witness :
  phase sampleEngine (drop 14 (wLog sampleRun.2)) ≠ None ∧ phase sampleEngine (wLog sampleRun.2) = Some Idle.
Proof.
  apply (dispatch_serial sampleFormat sampleOutside sampleEngine sampleTurn (sampleWorld sampleStart)); [reflexivity|].
  exists (take 14 (wLog sampleRun.2)). vm_compute. reflexivity.
Defined.

Lemma sampleOutside_honest : honest sampleOutside.
Proof. split; [|done]. by intros h c r [= <-]. Qed.

Lemma dispatch_answers_in_order_witness : turnOk sampleTurn sampleRun.1.
Proof.
  apply (dispatch_answers_in_order sampleFormat sampleOutside sampleEngine sampleTurn (sampleWorld sampleStart));
    [reflexivity|exact sampleOutside_honest].
Defined.

Lemma resume_gate_witness :
  ∃ a calls i rest c0, resumes sampleAwaiting #"ask" a calls i rest c0 ∧
    resumeGate sampleFormat sampleEngine (authorityBound sampleAwaiting) a VerdictAllowOnce c0 (sampleShell #"b" #"make")
      (drop 8 (wLog sampleResume.2)) ∧
    (NoDup (CallID <$> calls) →
     CallName c0 = AskTool a ∧ ∀ j c', calls !! j = Some c' → CallName c' = AskTool a → i ≤ j).
Proof.
  refine (resume_gate sampleFormat sampleOutside sampleEngine #"ask" VerdictAllowOnce (sampleWorld sampleAwaiting)
    (take 7 (wLog sampleResume.2)) _ _ eq_refl _).
  vm_compute. reflexivity.
Defined.

Lemma resume_answers_unanswered_witness :
  ∃ a calls i rest c0, resumes sampleAwaiting #"ask" a calls i rest c0 ∧
    [ #"a"; #"b" ] = CallID <$> unanswered (answeredBy rest) calls.
Proof.
  refine (resume_answers_unanswered sampleFormat sampleOutside sampleEngine #"ask" VerdictAllowOnce (sampleWorld sampleAwaiting)
    [NewToolError #"a" resumeAbortedSiblingMessage; NewToolResult #"b" #"make"] eq_refl sampleOutside_honest _).
  vm_compute. reflexivity.
Defined.

(** [locatePendingCall] goes by the name of the tool although the ask carries the id of
    its call: with two shell calls in the turn, the approval of the second runs the
    first. *)
Example resume_wrong_call :
  let calls := [sampleShell #"a" #"deploy"; sampleShell #"b" #"make"] in
  let w := sampleWorld (sampleParked calls (sampleShell #"b" #"make")) in
  let h := wLog (driveFromAwaiting sampleFormat sampleOutside sampleEngine #"ask" VerdictAllowOnce w).2 in
  h !! 7 = Some (Started (sampleShell #"a" #"deploy")) ∧ Forall (λ e, match e with Started c => CallID c = #"a" | _ => True end) h.
Proof. vm_compute. split; [reflexivity|]. repeat constructor. Qed.
