(* ===== verification/Loop.v ===== *)
(** * The run loop

    [engine/agent/loop.go]: the entries of a run ([drive], [RetryFailedStep],
    [ResumeApprovalWith], the continuation after an external authorization), the turn
    loop they share, and the ways a run ends; the run-level hooks of [hooks.go] and
    the admission of a compaction ([manual_compaction.go]).  A turn's tool calls are
    those of [Dispatch], the steer inbox is that of [Steer].

    The model provider, hooks, people, stores, children and the clock of
    cancellation answer through [RunOutside], any function of what has happened so
    far (the log, newest entry first); every check of the context is an entry, so
    that two checks can have different answers.  What an operator does to the steer
    inbox is a script: before each access of the run to the inbox one batch of it is
    executed.  Latency figures, diagnostics and the learning observer's trajectory
    are left out, and so is the assembly of the system prompt. *)

From stdpp Require Import pretty.
From S2P Require Import Prelude Fence Json Evaluator Authority Conversation Usage Title Authorization Labels Session Policy Media Steer Dispatch.

(** ** Data *)

(** A provider's error with the facts [failureFacts] reads off it; a vocabulary the
    error does not carry is zero. *)
Record ProviderError := mkProviderError {
  peText : gostr; peDisposition : N; peProgress : N; peCanceled : bool
}.

(** The causes of a terminal, without their wrapping text. *)
Inductive RunCause :=
  | CauseSession (e : SessionError)
  | CauseProvider (e : ProviderError)
  | CauseCanceled
  | CauseRejected (phase : HookPhase) (reason : gostr)
  | CauseEmptyStop (stop : StopReason)
  | CausePartialStop (stop : StopReason)
  | CauseDelivery
  | CauseAuthorization
  | CauseNotAwaiting
  | CauseVerdict (v : ApprovalVerdict)
  | CauseNoRetryIntent
  | CauseEnvironment
  | CauseToolGone (name : gostr).

(** [port.LLMChunk] *)
Inductive Chunk :=
  | ChunkText (t : gostr)
  | ChunkReasoning (t : gostr)
  | ChunkReasoningItem (t id : gostr)
  | ChunkPhase (t : gostr)
  | ChunkToolCall (c : option ToolCall)
  | ChunkUsage (u : option Usage)
  | ChunkProviderRoute (t : gostr)
  | ChunkDone (stop : StopReason).

Inductive childFamily := FamilySubagent | FamilyParallel | FamilyTeam | FamilyShellCmd.
#[global] Instance childFamily_eq_dec : EqDecision childFamily.
Proof. solve_decision. Defined.

Record childStatus := mkChildStatus { csID : gostr; csFamily : childFamily; csStop : gostr }.

(** The log of a run: the events of its stream down to [RunResult], then what the
    engine did. *)
Inductive RunEvent :=
  | SessionInit
  | TurnStart (turn : Z)
  | MessageDelta (turn : Z) (t : gostr)
  | ReasoningDelta (turn : Z) (t : gostr)
  | ProviderRoute (turn : Z) (t : gostr)
  | TurnEnd (turn : Z) (u : Usage) (estimated : bool)
  | UserPrompted (turn : Z) (text : gostr) (parts : list Content) (prov : UserPromptProvenance)
  | Steered (turn : Z) (c : steerContent)
  | NoProgress (turn : Z) (text : gostr)
  | Compacted (turn : Z) (summary : gostr)
  | CompactionArchived (turn : Z) (replaced : list Message)
  | HookNoted (phase : HookPhase) (text : gostr) (d : HookDecision)
  | ModelRetry (text : gostr) (m : RetryMetadata)
  | AuthorizationRequired (turn : Z) (a : ExternalAuthorization) (call : gostr)
  | AuthorizationResolved (a : ExternalAuthorization) (call : gostr) (status : gostr)
  | RunResult (stop : StopReason) (text : gostr) (usage : Usage) (cause : option RunCause) (m : RetryMetadata)
  | CtxChecked (gone : bool)
  | ChunkRead (c : Chunk)
  | ModelCalled (msgs : list Message)
  | Spent (u : Usage)
  | HookFired (e : HookEvent) (o : HookOutcome + gostr)
  | Saved (s : Session) (ok : bool)
  | Delivered (seq : Z)
  | ChildrenDrained
  | Observed (stop : StopReason)
  | PlanRecorded (r : PlanApprovalReceipt).

Abbreviation runLog := (list RunEvent).

(** The answers of the world. *)
Record RunOutside := mkRunOutside {
  roCancelled : runLog → bool;
  roHook : runLog → HookEvent → HookOutcome + gostr;
  roExpand : gostr → option gostr;
  roStream : runLog → list Message → list (Chunk + ProviderError) + ProviderError;
  roSave : runLog → Session → bool;
  roFinished : runLog → list childStatus;
  roLive : runLog → list gostr;
  roPending : runLog → option (list (gostr * Z));
  roWindow : runLog → Z;
  roRequestTokens : runLog → list Message → Z;
  roCompact : runLog → list Message → Z → option (list Message * gostr);
  roDispatch : runLog → Outside;
  roEmitRequired : runLog → bool * bool
}.

(** What the run reads of the engine's dependencies and of its request, beside those
    dispatch reads. *)
Record RunConfig := mkRunConfig {
  rcStore : bool;
  rcDeliveryQueue : bool;
  rcPlanApprovals : bool;
  rcObserver : bool;
  rcMaxNoProgressNudges : Z;
  rcMaxRunTokens : Z;
  rcMaxRunTokensOverride : Z;
  rcBudgetBaseline : Usage;
  rcFragments : list Message;
  rcThreshold : Z → Z;
  rcTarget : Z → Z;
  rcCount : list Message → Z;
  rcPromptPayload : gostr → list N;
  rcStopPayload : StopReason → list N
}.

(** ** Notices and nudges *)

Definition ShellCmdJobPrefix : gostr := #"bashcmd-".

Definition commaSpace : gostr := #", ".

(** One clause of a notice: nothing for an empty list. *)
Definition noticeClause (items : list gostr) (what rest : gostr) : gostr :=
  match items with
  | [] => []
  | _ => #"[harness note: " ++ lit (pretty (N.of_nat (length items))) ++ what ++ Join items commaSpace ++ rest
  end.

Definition statusItem (st : childStatus) : gostr := csID st ++ #" (" ++ csStop st ++ #")".

Definition backgroundNoticeText (finished : list childStatus) : gostr :=
  let shell := filter (λ st, csFamily st = FamilyShellCmd) finished in
  let delegations := filter (λ st, csFamily st ≠ FamilyShellCmd) finished in
  noticeClause (statusItem <$> delegations) #" background subagent(s) finished: "
    #". Collect each result with SubagentStatus before relying on it.]"
  ++ noticeClause (statusItem <$> shell) #" background command(s) finished: "
    #". Collect each output with ShellStatus before relying on it.]".

Definition backgroundPendingNudgeText (ids : list gostr) : gostr :=
  let rest channel := #". Collect or wait for them with " ++ channel ++ #", cancel them, or finish " ++ emdash
                      ++ #" anything still running when you finish will be cancelled.]" in
  noticeClause (filter (λ id, HasPrefix id ShellCmdJobPrefix = false) ids) #" background subagent(s) still running: "
    (rest #"SubagentStatus")
  ++ noticeClause (filter (λ id, HasPrefix id ShellCmdJobPrefix = true) ids) #" background command(s) still running: "
    (rest #"ShellStatus").

(** ** Facts of a failure *)

Definition failureFacts (cause : option RunCause) : RetryMetadata :=
  match cause with
  | Some (CauseProvider e) =>
      mkRetry (if (peDisposition e <=? RetryDispositionPermanent)%N then peDisposition e else 0%N)
        (if (peProgress e <=? StreamProgressComplete)%N then peProgress e else 0%N)
  | _ => zeroRetry
  end.

Definition permanentCause (cause : RunCause) : bool :=
  (Disposition (failureFacts (Some cause)) =? RetryDispositionPermanent)%N.

Definition isCanceled (cause : RunCause) : bool :=
  match cause with CauseCanceled => true | CauseProvider e => peCanceled e | _ => false end.

Definition stopTerminalCause (stop : StopReason) (text : gostr) : option RunCause :=
  if negb (stop =s StopError) then None
  else if negb (TrimSpace text =s []) then Some (CausePartialStop stop)
  else Some (CauseEmptyStop stop).

Definition estimateZeroUsageInput (reported : Z) (msgs : list Message) (count : list Message → Z) : option Z :=
  if negb (reported =? 0)%Z || (length msgs =? 0)%nat then None else Some (count msgs).

(** [effectiveMaxRunTokens] *)
Definition effectiveMaxRunTokens (C : RunConfig) : Z :=
  let base := rcMaxRunTokens C in
  let over := rcMaxRunTokensOverride C in
  if ((0 <? base) && (0 <? over))%Z then (if (over <? base)%Z then over else base)
  else if (0 <? over)%Z then over
  else base.

Definition budgetExhausted (C : RunConfig) (cumulative : Usage) : bool :=
  let ceiling := effectiveMaxRunTokens C in
  ((0 <? ceiling) && (ceiling <=? wrap64 (TotalTokens cumulative - TotalTokens (rcBudgetBaseline C))))%Z.

(** [validPlanApprovalReceipt] is the contextual reviewer's; the loop's own check of
    a receipt, in [terminateComplete]. *)
Definition receiptApplies (r : option PlanApprovalReceipt) (s : Session) (target : PermissionMode) : option PlanApprovalReceipt :=
  match r with
  | Some r => if (RcSession r =s SID s) && (RcMode r =s target) then Some r else None
  | None => None
  end.

Definition validateRunEnvironment (s : Session) (ref : EnvironmentRef) : bool :=
  EnvRefValid (SEnvironmentRef s) && EnvRefValid ref && (SEnvironmentRef s =s ref).

Definition requestMessages (fragments persisted : list Message) : list Message :=
  match fragments with [] => persisted | _ => fragments ++ persisted end.

Definition shouldRunBoundaryInjections (firstIteration skipFirst : bool) : bool := negb firstIteration || negb skipFirst.

(** ** The state and its monad *)

Section loop.
Context {platform : Platform}.
Context {St WS : Type} `{!PermissionStore St}.
Context (F : Format) (E : Engine WS) (C : RunConfig) (R : RunOutside).

Record RunState := mkRunState {
  rsWorld : @World St WS;
  rsInbox : option steerInbox;
  rsOperator : list (list SteerStep);
  rsLog : runLog
}.

Definition setWorld (v : World) (r : RunState) : RunState := mkRunState v (rsInbox r) (rsOperator r) (rsLog r).
Definition setInbox (v : option steerInbox) (r : RunState) : RunState :=
  mkRunState (rsWorld r) v (rsOperator r) (rsLog r).
Definition setRLog (v : runLog) (r : RunState) : RunState := mkRunState (rsWorld r) (rsInbox r) (rsOperator r) v.

Definition rsSession (r : RunState) : Session := wSession (rsWorld r).
Definition setSession (v : Session) (r : RunState) : RunState := setWorld (setWSession v (rsWorld r)) r.

Definition RM (A : Type) : Type := RunState → A * RunState.
#[global] Instance RM_ret : MRet RM := λ A a r, (a, r).
#[global] Instance RM_bind : MBind RM := λ A B k m r, let '(a, r') := m r in k a r'.

Definition rgets {A} (f : RunState → A) : RM A := λ r, (f r, r).
Definition rmodify (f : RunState → RunState) : RM unit := λ r, (tt, f r).

(** [Run.emit], and the record of what the engine did. *)
Definition remit (e : RunEvent) : RM unit := rmodify (λ r, setRLog (e :: rsLog r) r).

Definition rsess : RM Session := rgets rsSession.

(** A method of the session: the error is returned, the new state stored. *)
Definition onSession (f : Session → Session * option SessionError) : RM (option SessionError) :=
  s ← rsess; let '(s', e) := f s in rmodify (setSession s');; mret e.

(** A method whose error the caller drops. *)
Definition onSession_ (f : Session → Session * option SessionError) : RM unit := _ ← onSession f; mret tt.

(** [ctx.Err() != nil] *)
Definition rctxErr : RM bool := gone ← rgets (λ r, roCancelled R (rsLog r)); remit (CtxChecked gone);; mret gone.

(** A piece of dispatch. *)
Definition dispatching {A} (m : Outside → @M St WS A) : RM A :=
  λ r, let '(a, w) := m (roDispatch R (rsLog r)) (rsWorld r) in (a, setWorld w r).

Definition turnsOf : RM Z := s ← rsess; mret (Turns (SCounters s)).

(** ** Persistence *)

(** [save]: a failure is a diagnostic. *)
Definition save : RM unit :=
  if negb (rcStore C) then mret tt
  else s ← rsess; ok ← rgets (λ r, roSave R (rsLog r) s); remit (Saved s ok).

(** [saveRequired]; [true] is the nil error. *)
Definition saveRequired : RM bool :=
  if negb (rcStore C) then mret false
  else s ← rsess; ok ← rgets (λ r, roSave R (rsLog r) s); remit (Saved s ok);; mret ok.

(** ** Prompts *)

Definition emitUserPrompt (turn : Z) (text : gostr) (parts : list Content) (prov : UserPromptProvenance) : RM unit :=
  remit (UserPrompted turn text parts prov).

Definition recordContinuation (turn : Z) (text : gostr) : RM (option SessionError) :=
  e ← onSession (λ s, RecordHarnessPrompt s text);
  match e with
  | Some err => mret (Some err)
  | None => emitUserPrompt turn text [] UserPromptProvenanceHarness;; mret None
  end.

(** ** The steer inbox *)

(** The operator's half of a step: enqueue or cancel. *)
Definition operatorStep (b : option steerInbox) (st : SteerStep) : option steerInbox :=
  match st with
  | SEnqueue _ _ _ | SCancel => (steerStep b st).1
  | _ => b
  end.

(** Before the run's access, the operator's next batch. *)
Definition operatorActs : RM unit :=
  rmodify (λ r, match rsOperator r with
    | [] => r
    | batch :: rest => mkRunState (rsWorld r) (foldl operatorStep (rsInbox r) batch) rest (rsLog r)
    end).

Definition takeSteer : RM (option steerContent) :=
  operatorActs;;
  b ← rgets rsInbox;
  let '(b, c) := drainSteer b in rmodify (setInbox b);; mret c.

(** [Engine.commitSteer] *)
Definition commit (c : steerContent) : RM (option SessionError) :=
  e ← onSession (λ s, commitSteer (dRole E) s c);
  match e with
  | Some err => mret (Some err)
  | None =>
      turn ← turnsOf;
      emitUserPrompt turn (stext c) (sparts c)
        (if dRole E =s [] then UserPromptProvenancePrincipal else UserPromptProvenanceUnknown);;
      remit (Steered turn c);; save;; mret None
  end.

Definition drainSteerAtBoundary : RM (option RunCause) :=
  c ← takeSteer;
  match c with
  | None => mret None
  | Some c => e ← commit c; mret (CauseSession <$> e)
  end.

Definition steerParked : RM bool := operatorActs;; b ← rgets rsInbox; mret (hasSteer b).

(** [closeSteerDrained]; [onFault] is its call of [terminate]. *)
Definition closeDrained (onFault : RunCause → RM unit) : RM unit :=
  b ← rgets rsInbox;
  match b with
  | None => mret tt
  | Some _ =>
      c ← takeSteer;
      e ← (match c with Some c => commit c | None => mret None end);
      match e with
      | Some err => onFault (CauseSession err)
      | None => operatorActs;; rmodify (λ r, setInbox (closeSteer (rsInbox r)) r)
      end
  end.

(** ** The end of a run *)

Definition drainChildren : RM unit := remit ChildrenDrained.

(** [fireStop] *)
Definition fireStop (reason : StopReason) : RM unit :=
  if negb (dHooks E) then mret tt
  else
    s ← rsess;
    let ev := mkHookEvent PhaseStop [] (rcStopPayload C reason) (SID s) [] in
    o ← rgets (λ r, roHook R (rsLog r) ev);
    remit (HookFired ev o);;
    match o with
    | inl o => if HBlock o && negb (HMessage o =s []) then remit (HookNoted PhaseStop (HMessage o) HookInfo) else mret tt
    | inr _ => mret tt
    end.

Definition emitResult (reason : StopReason) (text : gostr) (usage : Usage) (cause : option RunCause) (m : RetryMetadata)
    : RM unit := remit (RunResult reason text usage cause m).

(** [terminate], which calls itself when the last steer cannot be recorded; the fuel
    bounds the calls. *)
Fixpoint terminateFuel (fuel : nat) (reason : StopReason) (text : gostr) (usage : Usage) (cause : option RunCause)
    (permanent : bool) : RM unit :=
  match fuel with
  | O => mret tt
  | S fuel =>
      let facts := failureFacts cause in
      let facts := if (Disposition facts =? 0)%N && permanent then mkRetry RetryDispositionPermanent (Progress facts) else facts in
      closeDrained (λ fault, terminateFuel fuel StopError [] zeroUsage (Some fault) false);;
      drainChildren;;
      (match reason with
       | StopCancelled => onSession_ Cancel
       | StopError => onSession_ Fail_;; onSession_ (λ s, RecordFailureMetadata s facts)
       | _ => s ← rsess; if IsTerminal (SState s) then mret tt else onSession_ (λ s, Stop s reason)
       end);;
      fireStop reason;;
      emitResult reason text usage (if reason =s StopCancelled then None else cause) facts;;
      save
  end.

(** Each call takes a batch of the operator's, or the steer that was parked before. *)
Definition terminateDepth (r : RunState) : nat := 2 + length (rsOperator r).

Definition terminate (reason : StopReason) (text : gostr) (usage : Usage) (cause : option RunCause) (permanent : bool)
    : RM unit := λ r, terminateFuel (terminateDepth r) reason text usage cause permanent r.

Definition closeSteerDrained : RM unit := closeDrained (λ fault, terminate StopError [] zeroUsage (Some fault) false).

Definition deferFailedStepRetry (reason : StopReason) (text : gostr) (usage : Usage) : RM unit :=
  closeSteerDrained;; drainChildren;; fireStop reason;; emitResult reason text usage None zeroRetry;; save.

(** [observeCompletion], up to the call of the observer. *)
Definition observeCompletion (reason : StopReason) : RM unit :=
  s ← rsess;
  if negb (rcObserver C) || negb (SState s =s StateCompleted) || (reason =s StopError) || (reason =s StopCancelled)
  then mret tt else remit (Observed reason).

Definition flipMode (target : PermissionMode) : RM unit :=
  e ← onSession (λ s, SetMode s target);
  match e with
  | Some _ => mret tt
  | None =>
      s ← rsess;
      receipt ← rgets (λ r, wReceipt (rsWorld r));
      (match receiptApplies receipt s target with
       | Some r => if rcPlanApprovals C then remit (PlanRecorded r) else mret tt
       | None => mret tt
       end);; save
  end.

Definition terminateComplete (reason : StopReason) (text : gostr) (usage : Usage) (cause : option RunCause) : RM unit :=
  closeSteerDrained;;
  drainChildren;;
  s ← rsess;
  (if IsTerminal (SState s) then mret tt else onSession_ (λ s, Stop s reason));;
  target ← rgets (λ r, wPlanTarget (rsWorld r));
  (match target with Some target => flipMode target | None => mret tt end);;
  save;;
  observeCompletion reason;;
  fireStop reason;;
  emitResult reason text usage cause (mkRetry 0 StreamProgressComplete).

(** The functions of the loop that may end the run return whether they did. *)
Definition planApprovalTerminal (text : gostr) (usage : Usage) : RM bool :=
  w ← rgets rsWorld;
  match wPlanTarget w with
  | Some _ => terminateComplete StopPlanApproved text usage None;; mret true
  | None => if wPlanIterate w then terminateComplete StopPlanIterate text usage None;; mret true else mret false
  end.

(** ** The turn boundary *)

Definition injectBackgroundNotice : RM (option RunCause) :=
  finished ← rgets (λ r, roFinished R (rsLog r));
  match finished with
  | [] => mret None
  | _ =>
      turn ← turnsOf;
      e ← recordContinuation turn (backgroundNoticeText finished);
      match e with
      | Some err => mret (Some (CauseSession err))
      | None => save;; mret None
      end
  end.

(** The loop of [drainPendingDelivery]. *)
Fixpoint deliverNotes (notes : list (gostr * Z)) : RM (option RunCause) :=
  match notes with
  | [] => mret None
  | (text, seq) :: rest =>
      turn ← turnsOf;
      e ← recordContinuation turn text;
      match e with
      | Some err => mret (Some (CauseSession err))
      | None => remit (Delivered seq);; deliverNotes rest
      end
  end.

Definition drainPendingDelivery : RM (option RunCause) :=
  if negb (rcDeliveryQueue C) then mret None
  else
    pending ← rgets (λ r, roPending R (rsLog r));
    match pending with
    | None => mret (Some CauseDelivery)
    | Some notes =>
        e ← deliverNotes notes;
        match e with
        | Some err => mret (Some err)
        | None => (match notes with [] => mret tt | _ => save end);; mret None
        end
    end.

Definition runBoundaryInjections : RM (option RunCause) :=
  e ← injectBackgroundNotice;
  match e with
  | Some err => mret (Some err)
  | None =>
      e ← drainPendingDelivery;
      match e with Some err => mret (Some err) | None => drainSteerAtBoundary end
  end.

(** A prepared retry that has not begun its turn. *)
Definition retryIdle (s : Session) : bool := retryPending s && (SState s =s StateIdle).

Definition preTurnTerminal (text : gostr) (usage : Usage) : RM bool :=
  s ← rsess;
  match StopReasonOf s with
  | Some reason =>
      (if retryIdle s then deferFailedStepRetry reason text usage else terminate reason text usage None false);; mret true
  | None =>
      gone ← rctxErr;
      if (gone : bool) then terminate StopCancelled text usage None false;; mret true
      else
        s ← rsess;
        if budgetExhausted C (UsageFor (tokenUsage s) UsageKindMain) then
          (if retryIdle s then deferFailedStepRetry StopBudget text usage else terminateComplete StopBudget text usage None);;
          mret true
        else mret false
  end.

(** ** The model call *)

Record TurnFold := mkTurnFold {
  tfText : gostr; tfBlob : gostr; tfItemID : gostr; tfPhase : gostr; tfCalls : list ToolCall; tfUsage : Usage; tfStop : StopReason
}.

Definition emptyFold : TurnFold := mkTurnFold [] [] [] [] [] zeroUsage StopNone.

(** What a chunk adds to the message. *)
Definition foldChunk (t : TurnFold) (c : Chunk) : TurnFold :=
  let '(mkTurnFold text blob item phase calls usage stop) := t in
  match c with
  | ChunkText x => mkTurnFold (text ++ x) blob item phase calls usage stop
  | ChunkReasoning _ | ChunkProviderRoute _ => t
  | ChunkReasoningItem x id => mkTurnFold text (blob ++ x) (if id =s [] then item else id) phase calls usage stop
  | ChunkPhase x => mkTurnFold text blob item x calls usage stop
  | ChunkToolCall (Some c) => mkTurnFold text blob item phase (calls ++ [c]) usage stop
  | ChunkToolCall None => t
  | ChunkUsage (Some u) => mkTurnFold text blob item phase calls (addUsage usage u) stop
  | ChunkUsage None => t
  | ChunkDone s => mkTurnFold text blob item phase calls usage s
  end.

(** What a chunk shows to the client. *)
Definition showChunk (turn : Z) (c : Chunk) : RM unit :=
  match c with
  | ChunkText x => remit (MessageDelta turn x)
  | ChunkReasoning x => remit (ReasoningDelta turn x)
  | ChunkProviderRoute x => remit (ProviderRoute turn x)
  | _ => mret tt
  end.

Fixpoint readStream (turn : Z) (t : TurnFold) (items : list (Chunk + ProviderError)) : RM (TurnFold * option RunCause) :=
  match items with
  | [] => gone ← rctxErr; mret (t, if (gone : bool) then Some CauseCanceled else None)
  | inr e :: _ => mret (t, Some (CauseProvider e))
  | inl c :: rest =>
      remit (ChunkRead c);;
      gone ← rctxErr;
      if (gone : bool) then mret (t, Some CauseCanceled)
      else showChunk turn c;; readStream turn (foldChunk t c) rest
  end.

Definition foldedMessage (t : TurnFold) : Message :=
  let m := NewAssistantMessage (tfText t) (tfBlob t) (tfCalls t) in
  mkMessage (MRole m) (MText m) (MToolCalls m) (MToolResult m) (MReasoning m) (tfPhase t) (tfItemID t) (MParts m) (MProvenance m).

(** [runTurn]: the message is meaningful when there is no error. *)
Definition runTurn (turn : Z) (msgs : list Message) : RM (Message * Usage * StopReason * option RunCause) :=
  answer ← rgets (λ r, roStream R (rsLog r) msgs);
  remit (ModelCalled msgs);;
  match answer with
  | inr e => mret (foldedMessage emptyFold, zeroUsage, StopNone, Some (CauseProvider e))
  | inl items => '(t, e) ← readStream turn emptyFold items; mret (foldedMessage t, tfUsage t, tfStop t, e)
  end.

(** ** Compaction *)

Inductive Candidate := CandidateError | CandidateUnchanged | CandidateChanged (msgs : list Message) (summary : gostr).

(** [compactionCandidate]: the admission of what the compactor answered. *)
Definition compactionCandidate (original : list Message) (answer : option (list Message * gostr)) : Candidate :=
  match answer with
  | None => CandidateError
  | Some (candidate, summary) =>
      if (length candidate =? 0)%nat then CandidateUnchanged
      else match ValidateToolPairing candidate with
      | Some _ => CandidateError
      | None => if (rcCount C original <=? rcCount C candidate)%Z then CandidateUnchanged
                else CandidateChanged candidate summary
      end
  end.

(** The history budget [maybeCompact] hands to the compactor. *)
Definition compactionBudget (window requestTokens persisted : Z) : Z :=
  let irreducible := wrap64 (requestTokens - persisted) in
  let irreducible := if (irreducible <? 0)%Z then 0%Z else irreducible in
  let budget := wrap64 (rcTarget C window - irreducible) in
  if (budget <? 1)%Z then 1%Z else budget.

(** [maybeCompact]: the messages of the request after it. *)
Definition maybeCompact (turn : Z) : RM (list Message) :=
  s ← rsess;
  let request := requestMessages (rcFragments C) (Messages s) in
  window ← rgets (λ r, roWindow R (rsLog r));
  if (window <=? 0)%Z then mret request
  else
    tokens ← rgets (λ r, roRequestTokens R (rsLog r) request);
    if (tokens <? rcThreshold C window)%Z then mret request
    else
      answer ← rgets (λ r, roCompact R (rsLog r) (Messages s)
        (compactionBudget window tokens (rcCount C (Messages s))));
      match compactionCandidate (Messages s) answer with
      | CandidateError | CandidateUnchanged => mret request
      | CandidateChanged candidate summary =>
          e ← onSession (λ s, ReplaceHistory s candidate);
          match e with
          | Some _ => mret request
          | None =>
              remit (Compacted turn summary);; remit (CompactionArchived turn (Messages s));;
              mret (requestMessages (rcFragments C) candidate)
          end
      end.

Inductive CompactionError := CompactionIllegal (e : SessionError) | CompactionFailed.

(** [CompactSession]: the manual compaction at a turn boundary, with the archive and
    the summary. *)
Definition CompactSession (s : Session) (answer : option (list Message * gostr)) :
    Session * (option (list Message * gostr) + CompactionError) :=
  if (SState s =s StateRunning) || (SState s =s StateAwaiting) then (s, inr (CompactionIllegal ErrIllegalTransition))
  else match compactionCandidate (Messages s) answer with
  | CandidateError => (s, inr CompactionFailed)
  | CandidateUnchanged => (s, inl None)
  | CandidateChanged candidate summary =>
      match ReplaceHistoryAtBoundary s candidate with
      | (s', Some e) => (s', inr (CompactionIllegal e))
      | (s', None) => (s', inl (Some (Messages s, summary)))
      end
  end.

(** ** A turn without tool calls *)

(** The counters the loop keeps for the nudges. *)
Record Nudges := mkNudges { nNoProgress : Z; nPending : bool }.

(** [finishTurnNoTools]: whether the run ended, and the counters. *)
Definition finishTurnNoTools (m : Message) (streamStop : StopReason) (turn : Z) (text : gostr) (usage : Usage)
    (n : Nudges) : RM (bool * Nudges) :=
  let continue nudge n :=
    e ← recordContinuation turn nudge;
    match e with
    | Some err => terminate StopError text usage (Some (CauseSession err)) false;; mret (true, n)
    | None => save;; mret (false, n)
    end in
  if negb (TrimSpace (MText m) =s []) then
    let stop := if streamStop =s StopNone then StopEndTurn else streamStop in
    let finish := terminateComplete stop text usage (stopTerminalCause stop text);; mret (true, n) in
    if negb (stop =s StopEndTurn) then finish
    else
      parked ← steerParked;
      if (parked : bool) then mret (false, n)
      else if nPending n then finish
      else
        ids ← rgets (λ r, roLive R (rsLog r));
        match ids with
        | [] => finish
        | _ => continue (backgroundPendingNudgeText ids) (mkNudges (nNoProgress n) true)
        end
  else if negb (streamStop =s StopNone) && negb (streamStop =s StopEndTurn) then
    (if streamStop =s StopError then terminate StopError text usage (Some (CauseEmptyStop streamStop)) false
     else terminateComplete streamStop text usage (stopTerminalCause streamStop text));; mret (true, n)
  else
    let cap := rcMaxNoProgressNudges C in
    if ((cap <? 0) || (cap <=? nNoProgress n))%Z then
      remit (NoProgress turn #"no progress after continuation attempts; ending run");;
      terminateComplete StopNoProgress text usage None;; mret (true, n)
    else
      let final := (nNoProgress n =? wrap64 (cap - 1))%Z in
      remit (NoProgress turn (if final then #"model still not progressing; final attempt: requesting a best-effort answer"
                              else #"model produced no tool call or text; nudging to continue"));;
      continue (if final then NoProgressExtractiveNudgeText else NoProgressNudgeText)
        (mkNudges (wrap64 (nNoProgress n + 1)) (nPending n)).

(** ** External authorization *)

Inductive ParkOutcome := ParkResults (rs : list ToolResult) | ParkWaiting | ParkCancelled | ParkFatal.

Fixpoint deferredFailures (calls : list ToolCall) : @M St WS (list ToolResult) :=
  match calls with
  | [] => mret []
  | c :: rest =>
      openCard c;;
      let res := NewToolError (CallID c) #"external authorization deferred sibling was not executed" in
      publishResult res;; rs ← deferredFailures rest; mret (res :: rs)
  end.

Definition authorizationParkFailures (p : dispatchPark) (message : gostr) : @M St WS (list ToolResult) :=
  let pending := NewToolError (CallID (pkCall p)) message in
  publishResult pending;; rs ← deferredFailures (pkDeferred p); mret (pending :: rs).

(** [abortAuthorization] of a park; [true] is the nil error. *)
Definition abortPark (p : dispatchPark) : RM bool :=
  match pkAuthorization p with
  | None => mret true
  | Some a => dispatching (λ O, abortAuthorization O a)
  end.

(** [rollbackAuthorization]; [true] is the nil error. *)
Definition rollbackAuthorization (p : dispatchPark) (reason : gostr) : RM bool :=
  e ← onSession (λ s, errOnly (AbortAuthorization s reason));
  match e with
  | Some _ => abortPark p;; mret false
  | None => saved ← saveRequired; aborted ← abortPark p; mret (saved && aborted)
  end.

Definition orCancelled (ok : bool) : ParkOutcome := if ok then ParkCancelled else ParkFatal.

(** The park once the aggregate has taken it: persist, drain, announce. *)
Definition announcePark (turn : Z) (p : dispatchPark) (a : ExternalAuthorization) : RM ParkOutcome :=
  gone ← rctxErr;
  if (gone : bool) then ok ← rollbackAuthorization p #"cancelled"; mret (orCancelled ok)
  else
    saved ← saveRequired;
    if negb saved then rollbackAuthorization p #"failed";; mret ParkFatal
    else
      drainChildren;;
      gone ← rctxErr;
      if (gone : bool) then ok ← rollbackAuthorization p #"cancelled"; mret (orCancelled ok)
      else
        '(emitted, cancelled) ← rgets (λ r, roEmitRequired R (rsLog r));
        if (emitted : bool) then remit (AuthorizationRequired turn a (CallID (pkCall p)));; mret ParkWaiting
        else
          ok ← rollbackAuthorization p #"cancelled";
          mret (if ok && (cancelled : bool) then ParkCancelled else ParkFatal).

Definition parkAuthorization (turn : Z) (p : dispatchPark) (completed : list ToolResult) : RM ParkOutcome :=
  e ← (match completed with [] => mret None | _ => onSession (λ s, RecordToolResults s completed) end);
  match e with
  | Some _ => abortPark p;; mret ParkFatal
  | None =>
      if pkFatal p then mret ParkFatal
      else if negb (dCanPresentAuthorization E) || negb (dRole E =s []) then
        ok ← abortPark p;
        if (ok : bool) then
          rs ← dispatching (λ _, authorizationParkFailures p #"external authorization cannot be presented by this run");
          mret (ParkResults rs)
        else mret ParkFatal
      else
        gone ← rctxErr;
        if (gone : bool) then ok ← abortPark p; mret (orCancelled ok)
        else
          let a := default zeroAuthorization (pkAuthorization p) in
          e ← onSession (λ s, PauseForAuthorization s (mkPendingAuthorization a (pkCall p) (pkDeferred p)));
          match e with
          | Some _ => abortPark p;; mret ParkFatal
          | None => announcePark turn p a
          end
  end.

(** [dispatchTurn] *)
Definition recordTurn (text : gostr) (usage : Usage) (results : list ToolResult) : RM bool :=
  e ← onSession (λ s, RecordToolResults s results);
  match e with
  | Some err => terminate StopError text usage (Some (CauseSession err)) false;; mret true
  | None => save;; planApprovalTerminal text usage
  end.

(** The end of a turn whose park did not leave results. *)
Definition endPark (text : gostr) (usage : Usage) (o : ParkOutcome) (continue : list ToolResult → RM bool) : RM bool :=
  match o with
  | ParkCancelled => terminate StopCancelled text usage None false;; mret true
  | ParkFatal => terminate StopError text usage (Some CauseAuthorization) false;; mret true
  | ParkWaiting => mret true
  | ParkResults rs => continue rs
  end.

Definition dispatchTurn (turn : Z) (calls : list ToolCall) (text : gostr) (usage : Usage) : RM bool :=
  o ← dispatching (λ O, dispatch F O E calls);
  match o with
  | TurnCancelled results =>
      e ← (match results with
           | [] => mret None
           | _ => e ← onSession (λ s, RecordToolResults s results);
                  match e with Some err => mret (Some err) | None => save;; mret None end
           end);
      (match e with
       | Some err => terminate StopError text usage (Some (CauseSession err)) false
       | None => terminate StopCancelled text usage None false
       end);; mret true
  | TurnParked results p =>
      o ← parkAuthorization turn p results; endPark text usage o (recordTurn text usage)
  | TurnResults results => recordTurn text usage results
  end.

(** ** The loop *)

(** What the loop carries from turn to turn. *)
Record Carried := mkCarried { caTotal : Usage; caText : gostr; caNudges : Nudges; caFirst : bool }.

Definition startOf (total : Usage) (text : gostr) : Carried := mkCarried total text (mkNudges 0 false) true.

Inductive Ran := RunOver | RunFuel.

(** The turn from [BeginTurn] on: [None] when the run is over. *)
Definition oneTurn (k : Carried) : RM (option Carried) :=
  let over (end_ : RM unit) : RM (option Carried) := end_;; mret None in
  e ← onSession BeginTurn;
  match e with
  | Some err => over (terminate StopError (caText k) (caTotal k) (Some (CauseSession err)) false)
  | None =>
      turns ← turnsOf;
      let turn := wrap64 (turns - 1) in
      remit (TurnStart turn);;
      request ← maybeCompact turn;
      '(m, usage, streamStop, err) ← runTurn turn request;
      let total := addUsage (caTotal k) usage in
      onSession_ (λ s, RecordUsage s usage);;
      remit (Spent usage);;
      match err with
      | Some cause =>
          gone ← (if isCanceled cause then mret true else rctxErr);
          over (if (gone : bool) then terminate StopCancelled (caText k) total (Some cause) false
                else terminate StopError (caText k) total (Some cause) (permanentCause cause))
      | None =>
          s ← rsess;
          let est := estimateZeroUsageInput (InputTokens usage) (Messages s) (rcCount C) in
          let shown := match est with
                       | Some n => mkUsage n (OutputTokens usage) (CacheReadTokens usage) (CacheWriteTokens usage) (ReasoningTokens usage)
                       | None => usage
                       end in
          let estimated := match est with Some n => (0 <? n)%Z | None => false end in
          let text := if MText m =s [] then caText k else MText m in
          remit (TurnEnd turn shown estimated);;
          e ← onSession (λ s, RecordAssistant s m);
          match e with
          | Some err => over (terminate StopError text total (Some (CauseSession err)) false)
          | None =>
              (if (streamStop =s StopCancelled) || (streamStop =s StopError) then mret tt
               else rmodify (λ r, setSession (RecordLatestContextOccupancy (rsSession r)
                      (mkOccupancy (InputTokens shown) estimated)) r));;
              match MToolCalls m with
              | [] =>
                  '(done, n) ← finishTurnNoTools m streamStop turn text total (caNudges k);
                  mret (if (done : bool) then None else Some (mkCarried total text n false))
              | calls =>
                  done ← dispatchTurn turn calls text total;
                  mret (if (done : bool) then None else Some (mkCarried total text (caNudges k) false))
              end
          end
      end
  end.

(** One iteration of [runLoop]. *)
Definition iterate (skipFirst : bool) (k : Carried) : RM (option Carried) :=
  ended ← planApprovalTerminal (caText k) (caTotal k);
  if (ended : bool) then mret None
  else
    e ← (if shouldRunBoundaryInjections (caFirst k) skipFirst then runBoundaryInjections else mret None);
    match e with
    | Some cause => terminate StopError (caText k) (caTotal k) (Some cause) false;; mret None
    | None =>
        ended ← preTurnTerminal (caText k) (caTotal k);
        if (ended : bool) then mret None else oneTurn k
    end.

(** [runLoop], bounded by a number of iterations. *)
Fixpoint runLoop (fuel : nat) (skipFirst : bool) (k : Carried) : RM Ran :=
  match fuel with
  | O => mret RunFuel
  | S fuel =>
      next ← iterate skipFirst k;
      match next with
      | None => mret RunOver
      | Some k => runLoop fuel skipFirst k
      end
  end.

(** ** Entries *)

(** [fireSessionStart]; [Some] is the reason of a veto. *)
Definition fireSessionStart : RM (option gostr) :=
  if negb (dHooks E) then mret None
  else
    gone ← rctxErr;
    if (gone : bool) then mret None
    else
      s ← rsess;
      let ev := mkHookEvent PhaseSessionStart [] [] (SID s) [] in
      o ← rgets (λ r, roHook R (rsLog r) ev);
      remit (HookFired ev o);;
      match o with
      | inr err => mret (Some (#"SessionStart hook error: " ++ err))
      | inl o =>
          if HBlock o then
            let msg := if HMessage o =s [] then #"session blocked by SessionStart hook" else HMessage o in
            remit (HookNoted PhaseSessionStart msg HookBlocked);; mret (Some msg)
          else mret None
      end.

(** The member [prompt] of a mutation. *)
Fixpoint promptMembers (prompt : gostr) (kvs : list (gostr * json)) : option gostr :=
  match kvs with
  | [] => Some prompt
  | (k, v) :: rest =>
      if equalFold k #"prompt" then
        match v with
        | JString s => promptMembers s rest
        | JNull => promptMembers prompt rest
        | _ => None
        end
      else promptMembers prompt rest
  end.

Definition promptPayload (raw : RawMessage) : option gostr :=
  match unmarshalMap raw with Some kvs => promptMembers [] kvs | None => None end.

(** [fireUserPromptSubmit]; [inr] is the reason of a veto. *)
Definition fireUserPromptSubmit (text : gostr) : RM (gostr + gostr) :=
  if negb (dHooks E) then mret (inl text)
  else
    gone ← rctxErr;
    if (gone : bool) then mret (inl text)
    else
      s ← rsess;
      let ev := mkHookEvent PhaseUserPromptSubmit [] (rcPromptPayload C text) (SID s) [] in
      o ← rgets (λ r, roHook R (rsLog r) ev);
      remit (HookFired ev o);;
      match o with
      | inr err => mret (inr (#"UserPromptSubmit hook error: " ++ err))
      | inl o =>
          if HBlock o then
            let msg := if HMessage o =s [] then #"prompt blocked by UserPromptSubmit hook" else HMessage o in
            remit (HookNoted PhaseUserPromptSubmit msg HookBlocked);; mret (inr msg)
          else if HMutated o =s [] then mret (inl text)
          else match promptPayload (rawJSON F (HMutated o)) with
          | Some prompt =>
              remit (HookNoted PhaseUserPromptSubmit #"UserPromptSubmit hook rewrote the prompt" HookModified);; mret (inl prompt)
          | None =>
              remit (HookNoted PhaseUserPromptSubmit #"UserPromptSubmit hook returned a malformed prompt mutation (ignored)" HookInfo);;
              mret (inl text)
          end
      end.

(** [recordPrompt]; [Some] is the cause that ends the run, with its text. *)
Definition recordPrompt (text : gostr) (parts : list Content) : RM (option (gostr * RunCause)) :=
  let text := default text (roExpand R text) in
  v ← fireUserPromptSubmit text;
  match v with
  | inr reason => mret (Some (reason, CauseRejected PhaseUserPromptSubmit reason))
  | inl text =>
      let root := dRole E =s [] in
      e ← onSession (λ s, if root then RecordPrincipalPromptWithParts s text parts [] else RecordUserPromptWithParts s text parts []);
      match e with
      | Some err => mret (Some ([], CauseSession err))
      | None =>
          rmodify (λ r, let s := rsSession r in
            setSession (setTitleMeta (RecordTitleSourcePrompt (SetTitle (titleMeta s) text) text) s) r);;
          emitUserPrompt 0 text parts (if root then UserPromptProvenancePrincipal else UserPromptProvenanceUnknown);;
          mret None
      end
  end.

Definition endWith (text : gostr) (cause : RunCause) : RM Ran :=
  terminate StopError text zeroUsage (Some cause) false;; mret RunOver.

Definition drive (fuel : nat) (text : gostr) (parts : list Content) : RM Ran :=
  remit SessionInit;;
  turns ← turnsOf;
  vetoed ← (if (turns =? 0)%Z then fireSessionStart else mret None);
  match vetoed with
  | Some reason => endWith reason (CauseRejected PhaseSessionStart reason)
  | None =>
      e ← recordPrompt text parts;
      match e with
      | Some (reason, cause) => endWith reason cause
      | None => runLoop fuel false (startOf zeroUsage [])
      end
  end.

(** [prepareRunEnvironment] in front of a body. *)
Definition inEnvironment (body : RM Ran) : RM Ran :=
  s ← rsess;
  if negb (validateRunEnvironment s (dRef E)) then remit SessionInit;; endWith [] CauseEnvironment
  else body.

(** [Engine.Run] *)
Definition Run (fuel : nat) (text : gostr) (parts : list Content) : RM Ran := inEnvironment (drive fuel text parts).

Definition RetryFailedStep (fuel : nat) : RM Ran :=
  inEnvironment (
    remit SessionInit;;
    s ← rsess;
    if negb (retryPending s) then endWith [] CauseNoRetryIntent
    else
      let m := retryMetadata s in
      remit (ModelRetry (if (Progress m =? StreamProgressVisible)%N
        then #"The prior partial model output failed and is superseded; the failed model step is being retried."
        else #"The failed model step is being retried without adding another user prompt.") m);;
      runLoop fuel true (startOf zeroUsage [])).

(** [driveFromAwaiting] with the continuation of the loop. *)
Definition resumeAwaiting (fuel : nat) (askID : gostr) (v : ApprovalVerdict) : RM Ran :=
  remit SessionInit;;
  turns ← turnsOf;
  o ← dispatching (λ O, driveFromAwaiting F O E askID v);
  match o with
  | ResumeNotAwaiting | ResumeFailed => endWith [] CauseNotAwaiting
  | ResumeCancelled => terminate StopCancelled [] zeroUsage None false;; mret RunOver
  | ResumeRecorded _ => save;; runLoop fuel false (startOf zeroUsage [])
  | ResumeParked completed p =>
      o ← parkAuthorization (wrap64 (turns - 1)) p completed;
      ended ← endPark [] zeroUsage o (λ rs,
        e ← onSession (λ s, RecordToolResults s rs);
        match e with
        | Some err => terminate StopError [] zeroUsage (Some (CauseSession err)) false;; mret true
        | None => save;; mret false
        end);
      if (ended : bool) then mret RunOver else runLoop fuel false (startOf zeroUsage [])
  end.

Definition ResumeApprovalWith (fuel : nat) (askID : gostr) (v : ApprovalVerdict) : RM Ran :=
  if negb (validApprovalVerdict v) then
    remit SessionInit;;
    emitResult StopError [] zeroUsage (Some (CauseVerdict v)) (mkRetry RetryDispositionPermanent 0);; mret RunOver
  else inEnvironment (resumeAwaiting fuel askID v).

(** ** After an external authorization *)

Definition emitAuthorizationResolution (a : ExternalAuthorization) (call status : gostr) (results : list ToolResult) : RM unit :=
  dispatching (λ _, foldr (λ x k, publishResult x;; k) (mret tt) results);;
  remit (AuthorizationResolved a call status).

Definition deferredText : gostr := #"authorization deferred sibling was not executed".

(** The refusal of a continuation: one result per call, then the failure. *)
Definition rejectContinuation (p : PendingAuthorization) (status resultReason : gostr) : RM Ran :=
  let results := NewToolError (CallID (PCall p)) resultReason
                 :: ((λ c, NewToolError (CallID c) deferredText) <$> PDeferred p) in
  e ← onSession (λ s, RecordToolResults s results);
  match e with
  | Some err => endWith [] (CauseSession err)
  | None =>
      save;; emitAuthorizationResolution (PAuthorization p) (CallID (PCall p)) status results;;
      endWith [] (CauseToolGone (CallName (PCall p)))
  end.

(** The tool of the continuation; [None] is a cancelled context.  Without a contextual
    reviewer nothing cancels an execution. *)
Definition runContinued (O : Outside) (c : ToolCall) (t : Tool) : @M St WS (option ToolResult) :=
  '(d, auth, cancelled) ← authorizeBound F O E c;
  if (cancelled : bool) then mret None
  else if negb (DEffect d =s Allow) then
    let res := denyResult c (DReason d) in publishResult res;; mret (Some res)
  else res ← execute F O E c t auth; mret (Some res).

Fixpoint publishDeferred (calls : list ToolCall) : @M St WS (list ToolResult) :=
  match calls with
  | [] => mret []
  | c :: rest =>
      let res := NewToolError (CallID c) deferredText in
      publishResult res;; rs ← publishDeferred rest; mret (res :: rs)
  end.

(** The body of [PrepareAuthorizationContinuation]. *)
Definition continueAuthorization (fuel : nat) (p : PendingAuthorization) (status : gostr) : RM Ran :=
  remit SessionInit;;
  s ← rsess;
  match (match dCatalog E with Some catalog => catalog (CallName (PCall p)) | None => None end) with
  | None => rejectContinuation p status #"authorization continuation tool is unavailable"
  | Some t =>
      if (Mode s =s ModePlan) && negb (TReadOnly t) then
        rejectContinuation p status (#"authorization continuation is no longer permitted: plan mode is active and "
          ++ Quote (isPrint F) (CallName (PCall p))
          ++ #" now mutates the workspace; present a plan and exit plan mode first")
      else
        o ← dispatching (λ O, runContinued O (PCall p) t);
        match o with
        | None => terminate StopCancelled [] zeroUsage None false;; mret RunOver
        | Some result =>
            deferred ← dispatching (λ _, publishDeferred (PDeferred p));
            e ← onSession (λ s, RecordToolResults s (result :: deferred));
            match e with
            | Some err => endWith [] (CauseSession err)
            | None =>
                save;; emitAuthorizationResolution (PAuthorization p) (CallID (PCall p)) status [];;
                runLoop fuel false (startOf zeroUsage [])
            end
        end
  end.

(** The body of [PrepareAfterAuthorization]. *)
Definition afterAuthorization (fuel : nat) (a : ExternalAuthorization) (call status : gostr) (results : list ToolResult) : RM Ran :=
  remit SessionInit;;
  emitAuthorizationResolution a call status results;;
  runLoop fuel false (startOf zeroUsage []).
End loop.
