(* ===== verification/Turns.v ===== *)
(** * What a run guarantees

    The theorems on [Loop]: every tool of a run passed its gates, every request to the
    model is a replayable history, the aggregate only moves by its own methods, a run
    ends with exactly one result or parked, and it ends.

    They are one proof by weakest preconditions with one invariant, [live], of a run
    between two steps, and one description, [over], of a run that has ended. *)

From stdpp Require Import pretty.
From S2P Require Import Steer Prelude Fence Json Evaluator Authority Conversation Usage Title Authorization Labels Session Policy Media Dispatch Gate Loop.

Create HintDb stable discriminated.

(** ** Dispatch leaves the session as it finds it

    An ask pauses the session and resumes it: when nothing was pending before, the
    session is the same record afterwards. *)

Section stable.
Context {St WS : Type} `{!PermissionStore St}.
Context (F : Format) (O : Outside) (E : Engine WS).

Abbreviation W := (@Dispatch.World St WS).
Abbreviation D := (@Dispatch.M St WS).

Definition stable {A} (m : D A) : Prop :=
  ∀ w, pending (wSession w) = None → wSession (m w).2 = wSession w.

Lemma stable_ret {A} (a : A) : stable (mret a).
Proof. done. Qed.

Lemma stable_gets {A} (f : W → A) : stable (gets f).
Proof. done. Qed.

Lemma stable_bind {A B} (m : D A) (k : A → D B) : stable m → (∀ a, stable (k a)) → stable (m ≫= k).
Proof.
  intros Hm Hk w Hw. unfold mbind, M_bind. specialize (Hm w Hw). destruct (m w) as [a w1]. simpl in Hm.
  rewrite <-Hm in Hw. by rewrite Hk, Hm.
Qed.

Lemma stable_emit e : stable (emit e).
Proof. done. Qed.

Lemma stable_modify (f : W → W) : (∀ w, wSession (f w) = wSession w) → stable (modify f).
Proof. intros Hf w _. apply Hf. Qed.

Lemma stable_pair {A B C} (p : A * B) (k : A → B → D C) : (∀ a b, stable (k a b)) → stable (let '(a, b) := p in k a b).
Proof. by destruct p. Qed.

(** The steps of a stable program, and the lemmas on its pieces. *)
Ltac stable_step :=
  first
    [ solve [eauto with stable]
    | apply stable_ret | apply stable_emit | apply stable_gets
    | apply stable_bind; [|intros]
    | apply stable_modify; by intros
    | case_match ].
Ltac stabilise := repeat (cbv zeta; stable_step).

Lemma publishAvailable_stable r : stable (publishAvailable r).
Proof. unfold publishAvailable. stabilise. Qed.
#[local] Hint Resolve publishAvailable_stable : stable.
Lemma publishResult_stable r : stable (publishResult r).
Proof. unfold publishResult. stabilise. Qed.
#[local] Hint Resolve publishResult_stable : stable.
Lemma permissionDecision_stable c : stable (permissionDecision F E c).
Proof. unfold permissionDecision, evaluate, sess. stabilise. Qed.
#[local] Hint Resolve permissionDecision_stable : stable.
Lemma issueAskID_stable id : stable (issueAskID E id).
Proof. unfold issueAskID, sess. stabilise. Qed.
#[local] Hint Resolve issueAskID_stable : stable.
Lemma recordValidatedApproval_stable a v : stable (recordValidatedApproval a v).
Proof. unfold recordValidatedApproval, sess. stabilise. Qed.
#[local] Hint Resolve recordValidatedApproval_stable : stable.

Lemma pause_resume s a s' :
  pending s = None → PauseForApproval s a = (s', None) → (ResumeWith s').1 = s.
Proof.
  unfold PauseForApproval. case_bool; [done|]. intros Hp [= <-]. apply negb_false_iff in E0. bprop. destruct s. cbn in *. by subst.
Qed.

Lemma surfaceAsk_stable a : stable (surfaceAsk O a).
Proof.
  intros w Hw. unfold surfaceAsk, sess, gets, mbind, M_bind. destruct (PauseForApproval (wSession w) a) as [s [err|]] eqn:Hp; [done|].
  pose proof (pause_resume _ _ _ Hw Hp) as Hr. unfold modify, emit. cbn -[ResumeWith recordValidatedApproval].
  destruct (oVerdict O _ a) as [v|]; [|done]. cbn -[ResumeWith recordValidatedApproval].
  match goal with |- context [recordValidatedApproval ?x ?y ?z] =>
    pose proof (recordValidatedApproval_stable x y z) as Hs; destruct (recordValidatedApproval x y z) as [[] w1]
  end. cbn -[ResumeWith] in *. rewrite Hs; rewrite Hr; done.
Qed.
#[local] Hint Resolve surfaceAsk_stable : stable.
Lemma authorizeResources_stable c target s rs : stable (authorizeResources F O c target s rs).
Proof. induction rs as [|r rs IH]; cbn [authorizeResources]; stabilise. Qed.
#[local] Hint Resolve authorizeResources_stable : stable.
Lemma emitNotes_stable ns : stable (emitNotes ns).
Proof. induction ns as [|n ns IH]; cbn [emitNotes]; stabilise. Qed.
#[local] Hint Resolve emitNotes_stable : stable.
Lemma authorizeDecision_stable c d : stable (authorizeDecision F O E c d).
Proof. unfold authorizeDecision. stabilise. Qed.
#[local] Hint Resolve authorizeDecision_stable : stable.
Lemma authorizeExecution_stable c : stable (authorizeExecution F O E c).
Proof. unfold authorizeExecution, sess. stabilise. Qed.
#[local] Hint Resolve authorizeExecution_stable : stable.
Lemma authorizeBound_stable c : stable (authorizeBound F O E c).
Proof. unfold authorizeBound, sess. stabilise. Qed.
#[local] Hint Resolve authorizeBound_stable : stable.
Lemma preHook_stable c : stable (preHook F O E c).
Proof. unfold preHook, ctxErr, runHook, sess. stabilise. Qed.
#[local] Hint Resolve preHook_stable : stable.
Lemma askHookApproval_stable c r : stable (askHookApproval O E c r).
Proof. unfold askHookApproval, sess. stabilise. Qed.
#[local] Hint Resolve askHookApproval_stable : stable.
Lemma surfacePlanAsk_stable c : stable (surfacePlanAsk O E c).
Proof. unfold surfacePlanAsk, sess. stabilise. Qed.
#[local] Hint Resolve surfacePlanAsk_stable : stable.
Lemma postHook_stable c r : stable (postHook F O E c r).
Proof. unfold postHook, ctxErr, runHook, sess. stabilise. Qed.
#[local] Hint Resolve postHook_stable : stable.
Lemma startTool_stable c a : stable (startTool E c a).
Proof. unfold startTool, sess. stabilise. Qed.
#[local] Hint Resolve startTool_stable : stable.
Lemma finishTool_stable c t b : stable (finishTool F O E c t b).
Proof. unfold finishTool, timeExecute, sess. stabilise. Qed.
#[local] Hint Resolve finishTool_stable : stable.
Lemma executePrivate_stable c t a : stable (executePrivate F O E c t a).
Proof. unfold executePrivate. stabilise. Qed.
#[local] Hint Resolve executePrivate_stable : stable.
Lemma finalizeToolResult_stable c ns r a b : stable (finalizeToolResult E c ns r a b).
Proof. unfold finalizeToolResult. stabilise. Qed.
#[local] Hint Resolve finalizeToolResult_stable : stable.
Lemma execute_stable c t a : stable (execute F O E c t a).
Proof. unfold execute, ctxErr. stabilise. Qed.
#[local] Hint Resolve execute_stable : stable.
Lemma abortAuthorization_stable a : stable (abortAuthorization O a).
Proof. unfold abortAuthorization. stabilise. Qed.
#[local] Hint Resolve abortAuthorization_stable : stable.
Lemma refuseCall_stable r : stable (refuseCall r).
Proof. unfold refuseCall. stabilise. Qed.
#[local] Hint Resolve refuseCall_stable : stable.
Lemma runTool_stable c t a : stable (runTool F O E c t a).
Proof. unfold runTool. stabilise. Qed.
#[local] Hint Resolve runTool_stable : stable.
Lemma postPreToolUse_stable c t a : stable (postPreToolUse F O E c t a).
Proof. unfold postPreToolUse, ctxErr, sess. stabilise. Qed.
#[local] Hint Resolve postPreToolUse_stable : stable.
Lemma admitCall_stable c : stable (admitCall F O E c).
Proof. unfold admitCall. stabilise. Qed.
#[local] Hint Resolve admitCall_stable : stable.
Lemma runOne_stable c : stable (runOne F O E c).
Proof. unfold runOne, openCard, sess. stabilise. Qed.
#[local] Hint Resolve runOne_stable : stable.
Lemma prepareReadBatch_stable batch out : stable (prepareReadBatch F O E batch out).
Proof. revert out. induction batch as [|c batch IH]; intros out; cbn [prepareReadBatch]; unfold openCard, sess; stabilise. Qed.
#[local] Hint Resolve prepareReadBatch_stable : stable.
Lemma startSlot_stable slots i : stable (startSlot E slots i).
Proof. unfold startSlot. stabilise. Qed.
#[local] Hint Resolve startSlot_stable : stable.
Lemma finishSlot_stable slots i b : stable (finishSlot F O E slots i b).
Proof. unfold finishSlot. stabilise. Qed.
#[local] Hint Resolve finishSlot_stable : stable.
Lemma publishSlot_stable slots i : stable (publishSlot O slots i).
Proof. unfold publishSlot, ctxErr. stabilise. Qed.
#[local] Hint Resolve publishSlot_stable : stable.
Lemma runBatch_stable fuel ready running queue slots : stable (runBatch F O E fuel ready running queue slots).
Proof. revert ready running queue slots. induction fuel as [|fuel IH]; intros; cbn [runBatch]; stabilise. Qed.
#[local] Hint Resolve runBatch_stable : stable.
Lemma drainReadBatch_stable slots b out : stable (drainReadBatch O E slots b out).
Proof. revert b out. induction slots as [|p slots IH]; intros; cbn [drainReadBatch]; unfold ctxErr; stabilise. Qed.
#[local] Hint Resolve drainReadBatch_stable : stable.
Lemma runReadBatch_stable batch : stable (runReadBatch F O E batch).
Proof. unfold runReadBatch, ctxErr. stabilise. Qed.
#[local] Hint Resolve runReadBatch_stable : stable.
Lemma abandonCalls_stable calls results : stable (abandonCalls calls results).
Proof. revert results. induction calls as [|c calls IH]; intros; cbn [abandonCalls]; unfold openCard; stabilise. Qed.
#[local] Hint Resolve abandonCalls_stable : stable.
Lemma dispatchLoop_stable fuel front rest results : stable (dispatchLoop F O E fuel front rest results).
Proof. revert front rest results. induction fuel as [|fuel IH]; intros front rest results; cbn [dispatchLoop]; stabilise. Qed.

Lemma dispatch_stable calls : stable (dispatch F O E calls).
Proof. apply dispatchLoop_stable. Qed.

Lemma deferredFailures_stable calls : stable (deferredFailures calls).
Proof. induction calls as [|c calls IH]; cbn [deferredFailures]; unfold openCard; stabilise. Qed.
#[local] Hint Resolve deferredFailures_stable : stable.
Lemma authorizationParkFailures_stable p m : stable (authorizationParkFailures p m).
Proof. unfold authorizationParkFailures. stabilise. Qed.
Lemma runContinued_stable c t : stable (runContinued F E O c t).
Proof. unfold runContinued. stabilise. Qed.
Lemma publishDeferred_stable calls : stable (publishDeferred calls).
Proof. induction calls as [|c calls IH]; cbn [publishDeferred]; stabilise. Qed.
End stable.

(** ** Weakest preconditions *)

Section wp.
Context {St WS : Type}.

Abbreviation RunState := (@Loop.RunState St WS).
Abbreviation RM := (@Loop.RM St WS).

Definition rwp {A} (m : RM A) (Q : A → RunState → Prop) (r : RunState) : Prop := Q (m r).1 (m r).2.

Lemma rwp_bind {A B} (m : RM A) (k : A → RM B) Q r : rwp m (λ a r', rwp (k a) Q r') r → rwp (m ≫= k) Q r.
Proof. unfold rwp, mbind, RM_bind. by destruct (m r) as [a r']. Qed.

Lemma rwp_mono {A} (m : RM A) (P Q : A → RunState → Prop) r :
  rwp m P r → (∀ a r', P a r' → Q a r') → rwp m Q r.
Proof. unfold rwp. auto. Qed.

(** The specification of the first step, then the rest. *)
Lemma rwp_seq {A B} (m : RM A) (k : A → RM B) P Q r :
  rwp m P r → (∀ a r', P a r' → rwp (k a) Q r') → rwp (m ≫= k) Q r.
Proof. intros Hm Hk. apply rwp_bind. by eapply rwp_mono. Qed.

Lemma rwp_ret {A} (a : A) (Q : A → RunState → Prop) r : Q a r → rwp (mret a) Q r.
Proof. done. Qed.

Lemma rwp_gets {A B} (f : RunState → A) (k : A → RM B) Q r : rwp (k (f r)) Q r → rwp (rgets f ≫= k) Q r.
Proof. done. Qed.

Lemma rwp_sess {B} (k : Session → RM B) Q r : rwp (k (rsSession r)) Q r → rwp (rsess ≫= k) Q r.
Proof. done. Qed.

Lemma rwp_turns {B} (k : Z → RM B) Q r : rwp (k (Turns (SCounters (rsSession r)))) Q r → rwp (turnsOf ≫= k) Q r.
Proof. done. Qed.

Lemma rwp_emit {B} e (k : unit → RM B) Q r : rwp (k tt) Q (setRLog (e :: rsLog r) r) → rwp (remit e ≫= k) Q r.
Proof. done. Qed.

Lemma rwp_modify {B} f (k : unit → RM B) Q r : rwp (k tt) Q (f r) → rwp (rmodify f ≫= k) Q r.
Proof. done. Qed.

Lemma rwp_on {B} f (k : option SessionError → RM B) Q r :
  rwp (k (f (rsSession r)).2) Q (setSession (f (rsSession r)).1 r) → rwp (onSession f ≫= k) Q r.
Proof.
  unfold rwp, onSession, rsess, rgets, mbind, RM_bind, rmodify, mret, RM_ret. by destruct (f (rsSession r)) as [s' e].
Qed.

Lemma rwp_on_ {B} f (k : unit → RM B) Q r :
  rwp (k tt) Q (setSession (f (rsSession r)).1 r) → rwp (onSession_ f ≫= k) Q r.
Proof.
  intros H. unfold onSession_. apply rwp_bind, rwp_on. by apply rwp_ret.
Qed.

Lemma rwp_do f (Q : unit → RunState → Prop) r : Q tt (setSession (f (rsSession r)).1 r) → rwp (onSession_ f) Q r.
Proof. intros H. unfold onSession_. by apply rwp_on. Qed.

Lemma rwp_dispatching (R : RunOutside) {A B} (m : Outside → @M St WS A) (k : A → RM B) Q r :
  wp (m (roDispatch R (rsLog r))) (λ a w, rwp (k a) Q (setWorld w r)) (rsWorld r) → rwp (dispatching R m ≫= k) Q r.
Proof.
  unfold rwp, wp, dispatching, mbind, RM_bind. by destruct (m (roDispatch R (rsLog r)) (rsWorld r)) as [a w].
Qed.

Lemma rwp_ctx (R : RunOutside) {B} (k : bool → RM B) Q r :
  rwp (k (roCancelled R (rsLog r))) Q (setRLog (CtxChecked (roCancelled R (rsLog r)) :: rsLog r) r) →
  rwp (rctxErr R ≫= k) Q r.
Proof. done. Qed.
End wp.

(** ** The invariant of a run *)

Definition streamCalls (items : list (Chunk + ProviderError)) : list ToolCall :=
  omap (λ i, match i with inl (ChunkToolCall c) => c | _ => None end) items.

(** The results of the log, and the authorizations it announced. *)
Definition results (h : runLog) : list StopReason :=
  omap (λ e, match e with RunResult stop _ _ _ _ => Some stop | _ => None end) h.
Definition waits (h : runLog) : list ExternalAuthorization :=
  omap (λ e, match e with AuthorizationRequired _ a _ => Some a | _ => None end) h.

Definition requestOk (e : RunEvent) : Prop :=
  match e with ModelCalled msgs => ValidateToolPairing msgs = None | _ => True end.

(** Entries that neither end the run nor call the model. *)
Definition quietEvent (e : RunEvent) : bool :=
  match e with RunResult _ _ _ _ _ | AuthorizationRequired _ _ _ | ModelCalled _ => false | _ => true end.

Section turns.
Context {platform : Platform} {St WS : Type} `{!PermissionStore St}.
Context (F : Format) (E : Engine WS) (C : RunConfig) (R : RunOutside).
Context (ev : Evaluator) (mode : PermissionMode) (bound : bool) (gate : ToolCall → log → Prop) (L : Limits) (P : Prop).
Hypothesis gate_mono : ∀ c h h', h `suffix_of` h' → gate c h → gate c h'.
Hypothesis gate_gated : ∀ c h, gated F E bound c h → gate c h.
Hypothesis tools_honest : P → ∀ h, honest (roDispatch R h).
Hypothesis calls_distinct : P → ∀ h msgs items, roStream R h msgs = inl items → NoDup (CallID <$> streamCalls items).
Hypothesis fragments_paired : P → ValidateToolPairing (rcFragments C) = None.

Abbreviation RunState := (@Loop.RunState St WS).
Abbreviation RM := (@Loop.RM St WS).
Implicit Types r : RunState.
Implicit Types s : Session.
Implicit Types o : gset ToolCallID.

Record sess_ok o (T : Z) s : Prop := {
  so_reach : reachable s;
  so_enrol : pendingWorkspaceEnrollment s = None;
  so_limits : SLimits s = L;
  so_turns : Turns (SCounters s) = T;
  so_mode : Mode s = mode;
  so_bound : authorityBound s = bound;
  so_open : P → scan ∅ (Messages s) = Some o
}.

Record world_ok (w : @World St WS) : Prop := {
  wo_safe : safe F ev mode gate (wLog w);
  wo_eval : peval (wPolicy w) = ev;
  wo_phase : phase E (wLog w) = Some Idle
}.

Record log_ok (h : runLog) : Prop := {
  lo_requests : P → Forall requestOk h;
  lo_results : results h = [];
  lo_waits : waits h = []
}.

Definition active s : Prop := SState s = StateIdle ∨ SState s = StateRunning.

(** A parked steer can be recorded. *)
Definition calm r : Prop := rsInbox r = None ∨ retryIdle (rsSession r) = false.

Record base o T r : Prop := {
  ba_sess : sess_ok o T (rsSession r);
  ba_world : world_ok (rsWorld r);
  ba_log : log_ok (rsLog r)
}.

Record live o T r : Prop := {
  lv_base : base o T r;
  lv_active : active (rsSession r);
  lv_calm : calm r
}.

(** On its way out, before the result. *)
Record closing r : Prop := {
  cl_reach : reachable (rsSession r);
  cl_world : world_ok (rsWorld r);
  cl_log : log_ok (rsLog r)
}.

(** A run that has ended: with one result, the session terminal or its retry kept; or
    parked, without a result, at an authorization whose session was saved before it
    was announced. *)
Definition finished r : Prop :=
  (∃ stop, results (rsLog r) = [stop]) ∧ waits (rsLog r) = [] ∧
  (IsTerminal (SState (rsSession r)) = true ∨ retryIdle (rsSession r) = true).

Definition parked r : Prop :=
  results (rsLog r) = [] ∧ SState (rsSession r) = StateAuthorizing ∧
  ∃ turn a call h, rsLog r = AuthorizationRequired turn a call :: h ∧ waits h = [] ∧ Saved (rsSession r) true ∈ h ∧
    PAuthorization <$> PendingAuthorizationOf (rsSession r) = Some a.

Record over r : Prop := {
  ov_reach : reachable (rsSession r);
  ov_safe : safe F ev mode gate (wLog (rsWorld r));
  ov_phase : phase E (wLog (rsWorld r)) = Some Idle;
  ov_requests : P → Forall requestOk (rsLog r);
  ov_end : finished r ∨ parked r
}.

(** *** Events *)

Lemma log_ok_quiet e h : quietEvent e = true → log_ok h → log_ok (e :: h).
Proof.
  intros He [H1 H2 H3]. split; destruct e; try done; intros HP; constructor; try done; by apply H1.
Qed.

Lemma base_emit e o T r : quietEvent e = true → base o T r → base o T (setRLog (e :: rsLog r) r).
Proof. intros He [H1 H2 H3]. split; [done..|]. by apply log_ok_quiet. Qed.

Lemma live_emit e o T r : quietEvent e = true → live o T r → live o T (setRLog (e :: rsLog r) r).
Proof. intros He [H1 H2 H3]. split; [by apply base_emit|done..]. Qed.

Lemma closing_emit e r : quietEvent e = true → closing r → closing (setRLog (e :: rsLog r) r).
Proof. intros He [H1 H2 H3]. split; [done..|]. by apply log_ok_quiet. Qed.

Ltac quietly :=
  repeat match goal with
  | |- live _ _ _ => apply live_emit; [done|]
  | |- closing _ => apply closing_emit; [done|]
  | |- base _ _ _ => apply base_emit; [done|]
  end.

Lemma live_closing o T r : live o T r → closing r.
Proof. intros [[H1 H2 H3] _ _]. split; [apply H1|done..]. Qed.

Lemma over_emit e r : quietEvent e = true → closing r → over r → over (setRLog (e :: rsLog r) r) ∨ parked r.
Proof.
  intros He _ [H1 H2 H3 H4 [(H5 & H6 & H7)|H5]]; [|by right]. left. split; try done.
  - intros HP. constructor; [by destruct e|by apply H4].
  - left. split_and!; [|by destruct e|done]. by destruct e.
Qed.

(** *** Changes of the session *)

Lemma world_ok_session s (w : @World St WS) : world_ok w → world_ok (setWSession s w).
Proof. by intros [H1 H2 H3]. Qed.

Lemma base_session o T o' T' s r : base o T r → sess_ok o' T' s → base o' T' (setSession s r).
Proof. intros [H1 H2 H3] Hs. split; [done|by apply world_ok_session|done]. Qed.

Lemma live_session o T o' T' s r :
  base o T r → sess_ok o' T' s → active s → (rsInbox r = None ∨ retryIdle s = false) → live o' T' (setSession s r).
Proof. intros Hb Hs Ha Hc. split; [by eapply base_session|done..]. Qed.

Lemma closing_session s r : closing r → reachable s → closing (setSession s r).
Proof. intros [H1 H2 H3] Hs. split; [done|by apply world_ok_session|done]. Qed.

Lemma running_calm s : SState s = StateRunning → retryIdle s = false.
Proof. intros H. unfold retryIdle. rewrite H. by rewrite andb_false_r. Qed.

(** A method that keeps what the invariant reads. *)
Lemma sess_ok_ext o o' T T' s s' :
  sess_ok o T s → reachable s' → pendingWorkspaceEnrollment s' = pendingWorkspaceEnrollment s → SLimits s' = SLimits s →
  Mode s' = Mode s → authorityBound s' = authorityBound s → Turns (SCounters s') = T' →
  (P → scan ∅ (Messages s') = Some o') → sess_ok o' T' s'.
Proof. intros [H1 H2 H3 H4 H5 H6 H7] Hr He Hl Hm Hb Ht Ho. split; first [done|congruence]. Qed.

(** *** Prompts *)

Lemma scan_user h m : MRole m = RoleUser → scan ∅ (h ++ [m]) = scan ∅ h.
Proof. intros Hm. rewrite scan_app. destruct (scan ∅ h); [|done]. simpl. by rewrite Hm. Qed.

(** A user message is recorded or refused; when the inbox needs it, it is recorded. *)
Lemma recordUser_live o T r text parts prov :
  live o T r →
  let '(s, e) := recordUserPromptWithParts (rsSession r) text parts [] prov in
  live o T (setSession s r) ∧ (retryIdle (rsSession r) = false → e = None).
Proof.
  intros [Hb Ha Hc]. pose proof (ba_sess _ _ _ Hb) as Hs.
  pose proof (reachable_exec (rsSession r) (ORecordUserPrompt text parts [] prov) (so_reach _ _ _ Hs)) as Hr. cbn [exec] in Hr.
  unfold recordUserPromptWithParts in *. unfold enrollmentPending in *. rewrite (so_enrol _ _ _ Hs) in *.
  case_bool.
  - split; [by eapply live_session|]. intros Hi. exfalso. unfold retryIdle in Hi. destruct Ha as [Ha|Ha]; rewrite Ha in *.
    + cbn in E0. destruct (retryPending (rsSession r)); done.
    + cbn in E0. by rewrite andb_false_r in E0.
  - split; [|done]. eapply live_session; [done| |done|done]. eapply sess_ok_ext; try done.
    + apply (so_turns _ _ _ Hs).
    + intros HP. cbn. unfold Append. rewrite scan_user by done. by apply (so_open _ _ _ Hs).
Qed.

Lemma save_spec (Q : unit → RunState → Prop) r :
  (∀ h, (h = [] ∨ ∃ ok, h = [Saved (rsSession r) ok]) → Q tt (setRLog (h ++ rsLog r) r)) → rwp (save C R) Q r.
Proof.
  intros HQ. unfold save. case_bool.
  - apply rwp_ret. specialize (HQ [] (or_introl eq_refl)). destruct r. exact HQ.
  - apply rwp_sess, rwp_gets. apply (HQ [_]). right. by eexists.
Qed.

Lemma save_live o T r : live o T r → rwp (save C R) (λ _ r', live o T r') r.
Proof.
  intros Hl. apply save_spec. intros h [-> |[ok ->]]; [by destruct r|]. by apply live_emit.
Qed.

Lemma save_closing r : closing r → rwp (save C R) (λ _ r', closing r' ∧ rsSession r' = rsSession r) r.
Proof.
  intros Hl. apply save_spec. intros h [-> |[ok ->]]; [by destruct r|]. split; [|done]. by apply closing_emit.
Qed.

Lemma recordContinuation_live o T r turn text :
  live o T r → rwp (recordContinuation turn text) (λ _ r', live o T r') r.
Proof.
  intros Hl. unfold recordContinuation. apply rwp_on. pose proof (recordUser_live o T r text [] UserPromptProvenanceHarness Hl) as Hu.
  unfold RecordHarnessPrompt. destruct (recordUserPromptWithParts _ _ _ _ _) as [s e]. destruct Hu as [Hu _].
  destruct e; [by apply rwp_ret|]. apply rwp_emit, rwp_ret. by apply live_emit.
Qed.

Lemma commit_live o T r c :
  live o T r → rwp (commit E C R c) (λ e r', live o T r' ∧ (retryIdle (rsSession r) = false → e = None)) r.
Proof.
  intros Hl. unfold commit. apply rwp_on. unfold commitSteer, RecordPrincipalPromptWithParts, RecordUserPromptWithParts.
  assert (Hu : ∀ prov, let '(s, e) := recordUserPromptWithParts (rsSession r) (stext c) (sparts c) [] prov in
    live o T (setSession s r) ∧ (retryIdle (rsSession r) = false → e = None)).
  { intros prov. by apply recordUser_live. }
  assert (Hk : ∀ s, live o T (setSession s r) →
    rwp (turn ← turnsOf; emitUserPrompt turn (stext c) (sparts c)
        (if dRole E =s [] then UserPromptProvenancePrincipal else UserPromptProvenanceUnknown);;
      remit (Steered turn c);; save C R;; mret (None : option SessionError))
      (λ e r', live o T r' ∧ (retryIdle (rsSession r) = false → e = None)) (setSession s r)).
  { intros s Hs. apply rwp_turns, rwp_emit, rwp_emit. eapply rwp_seq; [apply save_live; by quietly|].
    intros [] r' Hr'. by apply rwp_ret. }
  case_bool; [specialize (Hu UserPromptProvenancePrincipal)|specialize (Hu UserPromptProvenanceUnknown)];
    destruct (recordUserPromptWithParts _ _ _ _ _) as [s e]; destruct Hu as [Hu He];
    (destruct e; [by apply rwp_ret|by apply Hk]).
Qed.

(** *** The inbox *)

Lemma operatorStep_none b st : b = None → operatorStep b st = None.
Proof. intros ->. by destruct st. Qed.

Lemma operatorActs_live o T r : live o T r → rwp operatorActs (λ _ r', live o T r' ∧ rsSession r' = rsSession r ∧
  (rsInbox r = None → rsInbox r' = None)) r.
Proof.
  intros [Hb Ha Hc]. unfold operatorActs, rwp, rmodify. simpl. destruct (rsOperator r) as [|batch rest]; [done|].
  assert (Hn : ∀ b, b = None → foldl operatorStep b batch = None).
  { induction batch as [|st batch IH]; intros b Hb'; [done|]. simpl. apply IH. by apply operatorStep_none. }
  split_and!; [|done|by apply Hn]. split; [by destruct Hb; split|done|]. destruct Hc as [Hc|Hc]; [left; by apply Hn|by right].
Qed.

Lemma live_inbox o T r b : live o T r → (rsInbox r = None → b = None) → live o T (setInbox b r).
Proof.
  intros [Hb Ha Hc] Hn. split; [by destruct Hb; split|done|]. destruct Hc as [Hc|Hc]; [left; by apply Hn|by right].
Qed.

Lemma takeSteer_live o T r :
  live o T r → rwp takeSteer (λ c r', live o T r' ∧ rsSession r' = rsSession r ∧ (rsInbox r = None → c = None)) r.
Proof.
  intros Hl. unfold takeSteer. eapply rwp_seq; [by apply operatorActs_live|]. intros [] r1 (Hl1 & Hs1 & Hn1).
  apply rwp_gets. unfold drainSteer. destruct (rsInbox r1) as [b|] eqn:Eb.
  - case_bool; apply rwp_modify, rwp_ret; (split_and!; [apply live_inbox; [done|congruence]|done|naive_solver]).
  - apply rwp_modify, rwp_ret. split_and!; [by apply live_inbox|done..].
Qed.

Lemma closeDrained_live o T r onFault :
  live o T r → rwp (closeDrained E C R onFault) (λ _ r', live o T r') r.
Proof.
  intros Hl. unfold closeDrained. apply rwp_gets. destruct (rsInbox r) as [b|] eqn:Eb; [|by apply rwp_ret].
  assert (Hc : retryIdle (rsSession r) = false). { destruct (lv_calm _ _ _ Hl) as [Hc|Hc]; [congruence|done]. }
  eapply rwp_seq; [by apply takeSteer_live|]. intros c r1 (Hl1 & Hs1 & _).
  eapply (rwp_seq _ _ (λ e r', live o T r' ∧ e = None)).
  - destruct c as [c|]; [|by apply rwp_ret]. eapply rwp_mono; [by apply commit_live|]. intros e r2 [Hl2 He]. split; [done|].
    apply He. by rewrite Hs1.
  - intros e r2 [Hl2 ->]. eapply rwp_seq; [by apply operatorActs_live|]. intros [] r3 (Hl3 & _ & _).
    apply (live_inbox _ _ _ _ Hl3). by intros ->.
Qed.

(** *** Ending *)

Lemma active_ends s : active s → cannotEnd s = false.
Proof. unfold cannotEnd. by intros [-> | ->]. Qed.

Lemma active_not_terminal s : active s → IsTerminal (SState s) = false.
Proof. by intros [-> | ->]. Qed.

(** The three terminal transitions of an active session. *)
Lemma ending_methods o T s reason :
  sess_ok o T s → active s →
  ∀ f, f ∈ [Cancel; Fail_; (λ s, Stop s reason)] → reachable (f s).1 ∧ IsTerminal (SState (f s).1) = true.
Proof.
  intros Hs Ha f Hf. pose proof (so_reach _ _ _ Hs) as Hr. split.
  - rewrite !elem_of_cons, elem_of_nil in Hf. destruct Hf as [-> |[-> |[-> |[]]]].
    + apply (reachable_exec s OCancel Hr).
    + apply (reachable_exec s OFail Hr).
    + apply (reachable_exec s (OStop reason) Hr).
  - pose proof (active_ends _ Ha) as Hc. rewrite !elem_of_cons, elem_of_nil in Hf.
    destruct Hf as [-> |[-> |[-> |[]]]]; unfold Cancel, Fail_, Stop, enrollmentPending; by rewrite (so_enrol _ _ _ Hs), Hc.
Qed.

Definition ended r : Prop := closing r ∧ (IsTerminal (SState (rsSession r)) = true ∨ retryIdle (rsSession r) = true).

Lemma ended_emit e r : quietEvent e = true → ended r → ended (setRLog (e :: rsLog r) r).
Proof. intros He [Hc Ht]. split; [by apply closing_emit|done]. Qed.

Lemma ended_over r reason text usage cause m :
  ended r → over (setRLog (RunResult reason text usage cause m :: rsLog r) r).
Proof.
  intros [[H1 [H2 H3 H4] [H5 H6 H7]] Ht]. split; [done..| |].
  - intros HP. constructor; [done|by apply H5].
  - left. split_and!; [|done|done]. exists reason. simpl. by rewrite H6.
Qed.

Lemma over_save r : over r → finished r → rwp (save C R) (λ _ r', over r') r.
Proof.
  intros [H1 H2 H3 H4 _] Hf. apply save_spec. intros h [-> |[ok ->]].
  - destruct r. split; try done. by left.
  - split; try done; [intros HP; constructor; [done|by apply H4]|]. left. exact Hf.
Qed.

Lemma fireStop_ended r reason : ended r → rwp (fireStop E C R reason) (λ _ r', ended r') r.
Proof.
  intros He. unfold fireStop. case_bool; [by apply rwp_ret|]. apply rwp_sess, rwp_gets, rwp_emit.
  assert (Hf : ∀ x, ended (setRLog (HookFired (mkHookEvent PhaseStop [] (rcStopPayload C reason) (SID (rsSession r)) []) x :: rsLog r) r)).
  { intros x. by apply ended_emit. }
  destruct (roHook R (rsLog r) _) as [o|err]; [|by apply rwp_ret]. case_bool; [|by apply rwp_ret]. by apply ended_emit.
Qed.

(** The tail every terminal shares: the hook, the result, the save. *)
Lemma resultTail_over r reason text usage cause m :
  ended r → rwp (fireStop E C R reason;; emitResult reason text usage cause m;; save C R) (λ _ r', over r') r.
Proof.
  intros He. eapply rwp_seq; [by apply fireStop_ended|]. intros [] r1 He1. apply rwp_emit.
  apply over_save; [by apply ended_over|]. destruct He1 as [[_ _ [_ Hr Hw]] Ht]. split_and!; [|done|done].
  exists reason. simpl. by rewrite Hr.
Qed.

Lemma terminateFuel_over fuel o T r reason text usage cause permanent :
  live o T r → rwp (terminateFuel E C R (S fuel) reason text usage cause permanent) (λ _ r', over r') r.
Proof.
  intros Hl. cbn [terminateFuel]. cbv zeta. eapply rwp_seq; [by apply closeDrained_live|]. intros [] r1 Hl1. apply rwp_emit.
  set (r2 := setRLog (ChildrenDrained :: rsLog r1) r1).
  assert (Hl2 : live o T r2) by (by apply live_emit).
  pose proof (ending_methods o T _ reason (ba_sess _ _ _ (lv_base _ _ _ Hl2)) (lv_active _ _ _ Hl2)) as Hend.
  assert (Hgo : ∀ f, f ∈ [Cancel; Fail_; (λ s, Stop s reason)] → ended (setSession (f (rsSession r2)).1 r2)).
  { intros f Hf. destruct (Hend f Hf) as [Hr Ht]. split; [|by left]. apply closing_session; [by eapply live_closing|done]. }
  eapply (rwp_seq _ _ (λ _ r', ended r')); [|intros [] r3 He3; by apply resultTail_over].
  assert (Hstop : rwp (s ← rsess; if IsTerminal (SState s) then mret tt else onSession_ (λ s, Stop s reason)) (λ _ r', ended r') r2).
  { apply rwp_sess. rewrite (active_not_terminal _ (lv_active _ _ _ Hl2)). apply rwp_do. apply (Hgo (λ s, Stop s reason)). set_solver. }
  destruct reason; try exact Hstop.
  - apply rwp_do, (Hgo Cancel). set_solver.
  - apply rwp_on_. assert (He := Hgo Fail_ ltac:(set_solver)).
    set (r3 := setSession (Fail_ (rsSession r2)).1 r2) in *. destruct He as [Hc Ht].
    assert (Hm : ∀ m, ended (setSession (RecordFailureMetadata (rsSession r3) m).1 r3)).
    { intros m. split.
      - apply closing_session; [done|]. apply (reachable_exec (rsSession r3) (ORecordFailureMetadata m)). apply Hc.
      - cbn. unfold RecordFailureMetadata. destruct Ht as [Ht|Ht]; [left|right]; by repeat case_bool. }
    apply rwp_do, Hm.
Qed.

Lemma terminate_over o T r reason text usage cause permanent :
  live o T r → rwp (terminate E C R reason text usage cause permanent) (λ _ r', over r') r.
Proof. apply terminateFuel_over. Qed.

(** The run is over, and the loop is told so. *)
Lemma over_and {A} (m : RM unit) (a : A) (Q : A → RunState → Prop) r :
  rwp m (λ _ r', over r') r → (∀ r', over r' → Q a r') → rwp (m;; mret a) Q r.
Proof. intros Hm HQ. eapply rwp_seq; [exact Hm|]. intros [] r' Hr'. by apply HQ. Qed.

Lemma closeSteerDrained_live o T r : live o T r → rwp (closeSteerDrained E C R) (λ _ r', live o T r') r.
Proof. apply closeDrained_live. Qed.

Lemma deferFailedStepRetry_over o T r reason text usage :
  live o T r → rsInbox r = None → retryIdle (rsSession r) = true →
  rwp (deferFailedStepRetry E C R reason text usage) (λ _ r', over r') r.
Proof.
  intros Hl Hi Ht. unfold deferFailedStepRetry, closeSteerDrained, closeDrained. apply rwp_bind, rwp_gets. rewrite Hi. apply rwp_ret, rwp_emit.
  apply resultTail_over. split; [|by right]. apply closing_emit; [done|]. by eapply live_closing.
Qed.

Lemma observe_ended r reason : ended r → rwp (observeCompletion C reason) (λ _ r', ended r') r.
Proof. intros He. unfold observeCompletion. apply rwp_sess. case_bool; [by apply rwp_ret|]. by apply ended_emit. Qed.

Lemma save_ended r : ended r → rwp (save C R) (λ _ r', ended r') r.
Proof.
  intros He. apply save_spec. intros h [-> |[ok ->]]; [by destruct r|]. by apply ended_emit.
Qed.

Lemma flipMode_ended r target : ended r → rwp (flipMode C R target) (λ _ r', ended r') r.
Proof.
  intros [Hc Ht]. unfold flipMode. apply rwp_on.
  assert (He : ended (setSession (SetMode (rsSession r) target).1 r)).
  { split; [apply closing_session; [done|apply (reachable_exec _ (OSetMode target)), Hc]|]. cbn.
    unfold SetMode. by case_bool. }
  destruct (SetMode (rsSession r) target) as [s [err|]]; [by apply rwp_ret|]. apply rwp_sess, rwp_gets.
  eapply (rwp_seq _ _ (λ _ r', ended r')); [|intros [] r1 He1; by apply save_ended].
  case_match; [|by apply rwp_ret]. case_bool; [by apply ended_emit|by apply rwp_ret].
Qed.

Lemma terminateComplete_over o T r reason text usage cause :
  live o T r → rwp (terminateComplete E C R reason text usage cause) (λ _ r', over r') r.
Proof.
  intros Hl. unfold terminateComplete. eapply rwp_seq; [by apply closeSteerDrained_live|]. intros [] r1 Hl1. apply rwp_emit.
  set (r2 := setRLog (ChildrenDrained :: rsLog r1) r1). assert (Hl2 : live o T r2) by (by apply live_emit). apply rwp_sess.
  eapply (rwp_seq _ _ (λ _ r', ended r')).
  { rewrite (active_not_terminal _ (lv_active _ _ _ Hl2)). apply rwp_do.
    destruct (ending_methods o T (rsSession r2) reason (ba_sess _ _ _ (lv_base _ _ _ Hl2)) (lv_active _ _ _ Hl2) (λ s, Stop s reason)) as [Hr Ht];
      [set_solver|]. split; [|by left]. apply closing_session; [by eapply live_closing|done]. }
  intros [] r3 He3. apply rwp_gets. eapply (rwp_seq _ _ (λ _ r', ended r')).
  { case_match; [by apply flipMode_ended|by apply rwp_ret]. }
  intros [] r4 He4. eapply rwp_seq; [by apply save_ended|]. intros [] r5 He5. eapply rwp_seq; [by apply observe_ended|].
  intros [] r6 He6. eapply rwp_seq; [by apply fireStop_ended|]. intros [] r7 He7. by apply ended_over.
Qed.

(** [Q true] for a run that is over, [Q false] for one that goes on. *)
Definition overOr o T (done : bool) r : Prop := if done then over r else live o T r.

Lemma planApprovalTerminal_spec o T r text usage :
  live o T r → rwp (planApprovalTerminal E C R text usage) (overOr o T) r.
Proof.
  intros Hl. unfold planApprovalTerminal. apply rwp_gets. case_match; [|case_bool; [|by apply rwp_ret]].
  all: apply over_and; [by eapply terminateComplete_over|done].
Qed.

(** *** The turn boundary *)

Lemma injectBackgroundNotice_live o T r : live o T r → rwp (injectBackgroundNotice C R) (λ _ r', live o T r') r.
Proof.
  intros Hl. unfold injectBackgroundNotice. apply rwp_gets. case_match; [by apply rwp_ret|]. apply rwp_turns.
  eapply rwp_seq; [by apply recordContinuation_live|]. intros [err|] r1 Hl1; [by apply rwp_ret|].
  eapply rwp_seq; [by apply save_live|]. intros [] r2 Hl2. by apply rwp_ret.
Qed.

Lemma deliverNotes_live o T r notes : live o T r → rwp (deliverNotes notes) (λ _ r', live o T r') r.
Proof.
  revert r. induction notes as [|[text seq] notes IH]; intros r Hl; cbn [deliverNotes]; [by apply rwp_ret|]. apply rwp_turns.
  eapply rwp_seq; [by apply recordContinuation_live|]. intros [err|] r1 Hl1; [by apply rwp_ret|]. apply rwp_emit. apply IH. by quietly.
Qed.

Lemma runBoundaryInjections_live o T r : live o T r → rwp (runBoundaryInjections E C R) (λ _ r', live o T r') r.
Proof.
  intros Hl. unfold runBoundaryInjections. eapply rwp_seq; [by apply injectBackgroundNotice_live|].
  intros [c|] r1 Hl1; [by apply rwp_ret|]. eapply (rwp_seq _ _ (λ _ r', live o T r')).
  { unfold drainPendingDelivery. case_bool; [by apply rwp_ret|]. apply rwp_gets. case_match; [|by apply rwp_ret].
    eapply rwp_seq; [by apply deliverNotes_live|]. intros [c|] r2 Hl2; [by apply rwp_ret|].
    eapply (rwp_seq _ _ (λ _ r', live o T r')); [|intros [] r3 Hl3; by apply rwp_ret].
    case_match; [by apply rwp_ret|by apply save_live]. }
  intros [c|] r2 Hl2; [by apply rwp_ret|]. unfold drainSteerAtBoundary. eapply rwp_seq; [by apply takeSteer_live|].
  intros [c|] r3 (Hl3 & _ & _); [|by apply rwp_ret]. eapply rwp_seq; [by apply commit_live|]. intros e r4 [Hl4 _]. by apply rwp_ret.
Qed.

Lemma calm_retry o T r : live o T r → retryIdle (rsSession r) = true → rsInbox r = None.
Proof. intros Hl Ht. destruct (lv_calm _ _ _ Hl) as [?|Hc]; [done|congruence]. Qed.

Lemma preTurnTerminal_spec o T r text usage :
  live o T r →
  rwp (preTurnTerminal E C R text usage) (λ done r', overOr o T done r' ∧
    (done = false → LimitTripped (rsSession r) = None)) r.
Proof.
  intros Hl. unfold preTurnTerminal. apply rwp_sess. destruct (StopReasonOf (rsSession r)) as [reason|] eqn:Es.
  { apply over_and; [|done]. case_bool; [|by eapply terminate_over].
    eapply deferFailedStepRetry_over; [done|by eapply calm_retry|done]. }
  assert (Hlim : LimitTripped (rsSession r) = None). { unfold StopReasonOf in Es. by case_match. }
  apply rwp_ctx. set (r1 := setRLog _ r). assert (Hl1 : live o T r1) by (by apply live_emit).
  destruct (roCancelled R (rsLog r)). { apply over_and; [by eapply terminate_over|done]. }
  apply rwp_sess. case_bool; [|by apply rwp_ret]. apply over_and; [|done]. case_bool; [|by eapply terminateComplete_over].
  eapply deferFailedStepRetry_over; [done|by eapply calm_retry|done].
Qed.

(** *** The model call *)

Lemma foldChunk_calls t c : tfCalls (foldChunk t c) = tfCalls t ++ match c with ChunkToolCall (Some x) => [x] | _ => [] end.
Proof. destruct t, c as [| | | |[]|[]| |]; simpl; by rewrite ?app_nil_r. Qed.

Lemma showChunk_live o T r turn c : live o T r → rwp (showChunk turn c) (λ _ r', live o T r') r.
Proof. intros Hl. destruct c; simpl; try (by apply rwp_ret); by apply live_emit. Qed.

Lemma readStream_live o T r turn t items :
  live o T r → rwp (readStream R turn t items) (λ a r', live o T r' ∧ (a.2 = None → tfCalls a.1 = tfCalls t ++ streamCalls items)) r.
Proof.
  revert r t. induction items as [|[c|e] items IH]; intros r t Hl; cbn [readStream].
  - apply rwp_ctx, rwp_ret. split; [by quietly|]. intros _. by rewrite app_nil_r.
  - apply rwp_emit, rwp_ctx. destruct (roCancelled R _); [apply rwp_ret; split; [by quietly|done]|].
    eapply rwp_seq; [apply showChunk_live; by quietly|]. intros [] r1 Hl1.
    eapply rwp_mono; [by apply IH|]. intros a r2 [Hl2 Hc]. split; [done|]. intros Ha. rewrite (Hc Ha), foldChunk_calls, <-(assoc_L (++)).
    f_equal. unfold streamCalls. by destruct c as [| | | |[]| | |].
  - apply rwp_ret. done.
Qed.

Lemma request_ok (msgs : list Message) : P → ValidateToolPairing msgs = None →
  ValidateToolPairing (requestMessages (rcFragments C) msgs) = None.
Proof.
  intros HP Hm. pose proof (fragments_paired HP) as Hf. rewrite !Validate_scan in *. unfold requestMessages.
  destruct (rcFragments C) as [|m fs]; [done|]. by rewrite scan_app, Hf.
Qed.

Lemma live_called o T r msgs :
  live o T r → (P → ValidateToolPairing msgs = None) → live o T (setRLog (ModelCalled msgs :: rsLog r) r).
Proof.
  intros [[H1 H2 [H3 H4 H5]] Ha Hc] Hm. split; [|done..]. split; [done..|]. split; [|done..]. intros HP.
  constructor; [by apply Hm|by apply H3].
Qed.

Lemma runTurn_live o T r turn msgs :
  live o T r → (P → ValidateToolPairing msgs = None) →
  rwp (runTurn R turn msgs) (λ a r', live o T r' ∧
    (P → a.2 = None → NoDup (CallID <$> MToolCalls a.1.1.1)) ∧ MRole a.1.1.1 = RoleAssistant) r.
Proof.
  intros Hl Hm. unfold runTurn. apply rwp_gets, rwp_emit. set (r1 := setRLog _ r).
  assert (Hl1 : live o T r1) by (by apply live_called). destruct (roStream R (rsLog r) msgs) as [items|e] eqn:Es.
  - eapply rwp_seq; [by apply readStream_live|]. intros [t err] r2 [Hl2 Hc]. apply rwp_ret. split_and!; [done| |done].
    intros HP Herr. cbn in *. rewrite (Hc Herr). by eapply calls_distinct.
  - apply rwp_ret. by split_and!.
Qed.

Lemma maybeCompact_live o T r turn :
  live o T r → (P → o = ∅) →
  rwp (maybeCompact C R turn) (λ msgs r', live o T r' ∧ (P → ValidateToolPairing msgs = None) ∧
    SState (rsSession r') = SState (rsSession r)) r.
Proof.
  intros Hl Ho. pose proof (lv_base _ _ _ Hl) as Hb. pose proof (ba_sess _ _ _ Hb) as Hs. unfold maybeCompact. apply rwp_sess. cbv zeta.
  assert (Hreq : P → ValidateToolPairing (requestMessages (rcFragments C) (Messages (rsSession r))) = None).
  { intros HP. apply request_ok; [done|]. rewrite Validate_scan, (so_open _ _ _ Hs HP). f_equal. by apply Ho. }
  apply rwp_gets. case_bool; [by apply rwp_ret|]. apply rwp_gets. case_bool; [by apply rwp_ret|]. apply rwp_gets.
  unfold compactionCandidate. destruct (roCompact R _ _ _) as [[cand summary]|]; [|by apply rwp_ret]. case_bool; [by apply rwp_ret|].
  destruct (ValidateToolPairing cand) eqn:Ev; [by apply rwp_ret|]. case_bool; [by apply rwp_ret|]. apply rwp_on.
  pose proof (reachable_exec (rsSession r) (OReplaceHistory cand) (so_reach _ _ _ Hs)) as Hr. cbn [exec] in Hr.
  unfold ReplaceHistory, replaceMessages in *. rewrite Ev in *. destruct (negb _) eqn:Er.
  - apply rwp_ret. split_and!; [|done..]. by eapply live_session; [| | apply Hl..].
  - apply negb_false_iff in Er. bprop. assert (Hl' : live o T (setSession (setMessages cand (rsSession r)) r)).
    { eapply live_session; [done| |by right|right; by apply running_calm]. eapply sess_ok_ext; try done; [apply (so_turns _ _ _ Hs)|].
      intros HP. cbn. rewrite (Ho HP). by apply Validate_scan. }
    apply rwp_emit, rwp_emit, rwp_ret. split_and!; [by quietly| |done]. intros HP. by apply request_ok.
Qed.

(** *** A turn without tool calls *)

Lemma finishTurnNoTools_spec o T r m stop turn text usage n :
  live o T r → rwp (finishTurnNoTools E C R m stop turn text usage n) (λ a r', overOr o T a.1 r') r.
Proof.
  intros Hl. unfold finishTurnNoTools. cbv zeta.
  assert (Hfin : ∀ reason cause (n : Nudges) r, live o T r →
    rwp (terminateComplete E C R reason text usage cause;; mret (true, n)) (λ a r', overOr o T a.1 r') r).
  { intros reason cause n' r' Hl'. apply over_and; [by eapply terminateComplete_over|done]. }
  assert (Hcont : ∀ nudge (n : Nudges) r, live o T r →
    rwp (e ← recordContinuation turn nudge;
         match e with
         | Some err => terminate E C R StopError text usage (Some (CauseSession err)) false;; mret (true, n)
         | None => save C R;; mret (false, n)
         end) (λ a r', overOr o T a.1 r') r).
  { intros nudge n' r' Hl'. eapply rwp_seq; [by apply recordContinuation_live|]. intros [err|] r1 Hl1.
    - apply over_and; [by eapply terminate_over|done].
    - eapply rwp_seq; [by apply save_live|]. intros [] r2 Hl2. by apply rwp_ret. }
  case_bool.
  - case_bool; [by apply Hfin|]. unfold steerParked. apply rwp_bind. eapply rwp_seq; [by apply operatorActs_live|].
    intros [] r1 (Hl1 & _ & _). apply rwp_gets, rwp_ret. destruct (hasSteer _); [by apply rwp_ret|]. case_bool; [by apply Hfin|].
    apply rwp_gets. destruct (roLive R _); [by apply Hfin|by apply Hcont].
  - case_bool.
    + apply over_and; [|done]. case_bool; [by eapply terminate_over|by eapply terminateComplete_over].
    + case_bool; apply rwp_emit; [apply Hfin|apply Hcont]; by quietly.
Qed.

(** *** Dispatch *)

Lemma active_pending o T s : sess_ok o T s → active s → pending s = None.
Proof. intros Hs Ha. pose proof (reachable_shape _ (so_reach _ _ _ Hs)) as Hsh. unfold shape in Hsh. destruct Ha as [Ha|Ha]; rewrite Ha in Hsh; apply Hsh. Qed.

Lemma base_good o T r : base o T r → good F ev mode bound gate (rsWorld r).
Proof. intros [[] [] _]. by split. Qed.

(** A stable piece of dispatch that keeps the invariant of the gates. *)
Lemma dispatching_base {A} (m : Outside → @M St WS A) (Q : A → Prop) o T r :
  base o T r → pending (rsSession r) = None → (∀ O, stable (m O)) →
  (∀ O, keeps F E ev mode bound gate (m O) (rsWorld r) (λ a _, (∃ h, O = roDispatch R h) → Q a)) →
  rwp (dispatching R m) (λ a r', base o T r' ∧ Q a ∧ rsSession r' = rsSession r ∧ rsInbox r' = rsInbox r) r.
Proof.
  intros Hb Hp Hst Hk. pose proof (base_good _ _ _ Hb) as Hg.
  specialize (Hk (roDispatch R (rsLog r)) Hg). specialize (Hst (roDispatch R (rsLog r)) (rsWorld r) Hp). unfold rwp, wp, dispatching in *.
  destruct (m (roDispatch R (rsLog r)) (rsWorld r)) as [a w']. simpl in *. destruct Hk as (Hg' & Hf & Hq).
  split_and!; [|by apply Hq; eexists|done|done].
  destruct Hb as [H1 H2 H3]. destruct Hg' as [G1 G2 G3 G4]. split; [unfold rsSession in *; simpl; by rewrite Hst|split; [done|done|]|done].
  etrans; [apply Hf|apply H2].
Qed.

Lemma dispatching_live {A} (m : Outside → @M St WS A) (Q : A → Prop) o T r :
  live o T r → (∀ O, stable (m O)) →
  (∀ O, keeps F E ev mode bound gate (m O) (rsWorld r) (λ a _, (∃ h, O = roDispatch R h) → Q a)) →
  rwp (dispatching R m) (λ a r', live o T r' ∧ Q a ∧ rsSession r' = rsSession r) r.
Proof.
  intros Hl Hst Hk. pose proof (lv_base _ _ _ Hl) as Hb.
  eapply rwp_mono; [eapply dispatching_base; [done|eapply active_pending; [apply Hb|apply Hl]|done|done]|].
  intros a r' (Hb' & Hq & Hs & Hi). split_and!; [|done|done]. split; [done|by rewrite Hs; apply Hl|]. unfold calm. rewrite Hs, Hi. apply Hl.
Qed.

(** Results for open calls close them. *)
Lemma scan_toolResults (rs : list ToolResult) o :
  NoDup (RCallID <$> rs) → list_to_set (RCallID <$> rs) ⊆ o →
  scan o (NewToolMessage <$> rs) = Some (o ∖ list_to_set (RCallID <$> rs)).
Proof.
  revert o. induction rs as [|r rs IH]; intros o Hn Hsub; csimpl; csimpl in Hn; csimpl in Hsub.
  { f_equal. set_solver. }
  apply NoDup_cons in Hn as [Hx Hn]. simpl in *. rewrite bool_decide_true by set_solver.
  rewrite IH; [f_equal; set_solver|done|]. intros x Hin. apply elem_of_difference. split; [set_solver|].
  intros ->%elem_of_singleton. by apply Hx, (elem_of_list_to_set (C := gset ToolCallID)).
Qed.

(** Without [P] the open calls of the invariant are any set. *)
Lemma live_open o o' T r : live o T r → (P → o = o') → live o' T r.
Proof.
  intros [[[] H2 H3] Ha Hc] Ho. split; [|done..]. split; [|done..]. split; try done. intros HP. rewrite <-Ho; auto.
Qed.

Lemma recordResults_live o o' T r rs :
  base o T r → active (rsSession r) → (rsInbox r = None ∨ retryIdle (rsSession r) = false) →
  (P → scan o (NewToolMessage <$> rs) = Some o') →
  let '(s, e) := RecordToolResults (rsSession r) rs in
  match e with
  | None => live o' T (setSession s r) ∧ SState s = StateRunning
  | Some _ => live o T (setSession s r)
  end.
Proof.
  intros Hb Ha Hc Ho. pose proof (ba_sess _ _ _ Hb) as Hs. pose proof (reachable_exec (rsSession r) (ORecordToolResults rs) (so_reach _ _ _ Hs)) as Hr.
  cbn [exec] in Hr. unfold RecordToolResults in *. destruct (negb _) eqn:En.
  - cbn. by eapply live_session.
  - cbn in *. apply negb_false_iff in En. bprop.
    destruct (foldl_recordResult_fields (rsSession r) rs) as (F1 & F2 & F3 & F4 & F5 & F6 & F7 & F8 & F9 & F10 & F11 & _).
    assert (Hk : SState (foldl recordResult (rsSession r) rs) = StateRunning) by congruence. split; [|done].
    eapply live_session; [done| |by right|right; by apply running_calm].
    eapply sess_ok_ext; try done.
    + apply (foldl_recordResult_keeps SLimits); done.
    + apply (foldl_recordResult_keeps Mode); done.
    + rewrite <-(so_turns _ _ _ Hs). apply (foldl_recordResult_keeps (λ s, Turns (SCounters s))). done.
    + intros HP. rewrite F10, scan_app, (so_open _ _ _ Hs HP). simpl. by apply Ho.
Qed.

(** *** External authorization *)

Lemma abortPark_live o T r p : live o T r → rwp (abortPark R p) (λ _ r', live o T r') r.
Proof.
  intros Hl. unfold abortPark. case_match; [|by apply rwp_ret].
  eapply rwp_mono; [apply (dispatching_live _ (λ _, True)); [done|intros; apply abortAuthorization_stable|]|naive_solver].
  intros O. eapply keeps_mono; [apply abortAuthorization_keeps|done].
Qed.

Lemma saveRequired_live o T r : live o T r → rwp (saveRequired C R) (λ _ r', live o T r') r.
Proof. intros Hl. unfold saveRequired. case_bool; [by apply rwp_ret|]. apply rwp_sess, rwp_gets, rwp_emit, rwp_ret. by quietly. Qed.

Lemma rollback_live o T r p reason :
  base o T r → SState (rsSession r) = StateAuthorizing → rwp (rollbackAuthorization C R p reason) (λ _ r', live o T r') r.
Proof.
  intros Hb Ha. pose proof (ba_sess _ _ _ Hb) as Hs. unfold rollbackAuthorization. apply rwp_on.
  pose proof (reachable_exec (rsSession r) (OAbortAuthorization reason) (so_reach _ _ _ Hs)) as Hr. cbn [exec] in Hr.
  pose proof (reachable_shape _ (so_reach _ _ _ Hs)) as Hsh. unfold shape in Hsh. rewrite Ha in Hsh. destruct Hsh as (Hp & _ & _ & _ & q & Hq & Hv).
  unfold AbortAuthorization, resolveAuthorization, ValidateAuthorizationState in *. rewrite Ha, Hp, Hq, Hv in *. cbn in *.
  eapply (rwp_seq _ _ (λ _ r', live o T r')).
  - apply saveRequired_live. eapply live_session; [done| |by right|by right; apply running_calm]. eapply sess_ok_ext; try done.
    + apply (so_turns _ _ _ Hs).
    + apply (so_open _ _ _ Hs).
  - intros saved r1 Hl1. eapply rwp_seq; [by apply abortPark_live|]. intros b r2 Hl2. by apply rwp_ret.
Qed.

Lemma deferredFailures_ids calls (w : @World St WS) :
  keeps F E ev mode bound gate (deferredFailures calls) w (λ rs _, RCallID <$> rs = CallID <$> calls).
Proof.
  revert w. induction calls as [|c calls IH]; intros w; cbn [deferredFailures]; [by apply keeps_ret|].
  apply bind_emit; [done..|]. cbv zeta. eapply keeps_bind; [apply publishResult_keeps|]. intros _ w1 _ _ _.
  eapply keeps_bind; [apply IH|]. intros rs w2 _ _ Hrs. apply keeps_ret. csimpl. by rewrite Hrs.
Qed.

(** The ids a park leaves open. *)
Definition openIDs (p : dispatchPark) : list ToolCallID := CallID (pkCall p) :: (CallID <$> pkDeferred p).

Lemma parkFailures_live o T r p text :
  live o T r →
  rwp (dispatching R (λ _, authorizationParkFailures p text)) (λ rs r', live o T r' ∧ RCallID <$> rs = openIDs p) r.
Proof.
  intros Hl. eapply rwp_mono; [apply (dispatching_live _ (λ rs, RCallID <$> rs = openIDs p)); [done|intros; apply authorizationParkFailures_stable|]|naive_solver].
  intros O. unfold authorizationParkFailures. eapply keeps_bind; [apply publishResult_keeps|]. intros _ w1 _ _ _.
  eapply keeps_bind; [apply deferredFailures_ids|]. intros rs w2 _ _ Hrs. apply keeps_ret. intros _. csimpl. by rewrite Hrs.
Qed.

(** The outcome of a park whose calls are still open. *)
Definition parkOk T (p : dispatchPark) (out : ParkOutcome) r : Prop :=
  match out with
  | ParkResults rs => live (list_to_set (openIDs p)) T r ∧ RCallID <$> rs = openIDs p
  | ParkWaiting => over r
  | _ => ∃ o, live o T r
  end.

Lemma orCancelled_ok o T p ok r : live o T r → parkOk T p (orCancelled ok) r.
Proof. intros Hl. by destruct ok; exists o. Qed.

Lemma rollback_ok o T r p reason (k : bool → ParkOutcome) :
  base o T r → SState (rsSession r) = StateAuthorizing → (∀ b r', live o T r' → parkOk T p (k b) r') →
  rwp (ok ← rollbackAuthorization C R p reason; mret (k ok)) (parkOk T p) r.
Proof. intros Hb Ha Hk. eapply rwp_seq; [by apply rollback_live|]. intros b r' Hl. by apply rwp_ret, Hk. Qed.

Lemma announcePark_ok o T r turn p a :
  base o T r → SState (rsSession r) = StateAuthorizing → PAuthorization <$> pendingAuthorization (rsSession r) = Some a →
  rwp (announcePark C R turn p a) (parkOk T p) r.
Proof.
  intros Hb Ha Hpa. unfold announcePark. apply rwp_ctx.
  assert (Hcanc : ∀ h, base o T (setRLog h r) →
    rwp (ok ← rollbackAuthorization C R p #"cancelled"; mret (orCancelled ok)) (parkOk T p) (setRLog h r)).
  { intros h Hb'. eapply rollback_ok; [done|done|]. intros b r' Hl. by eapply orCancelled_ok. }
  destruct (roCancelled R _); [apply Hcanc; by quietly|]. set (h1 := CtxChecked false :: rsLog r).
  assert (Hb1 : base o T (setRLog h1 r)) by (by apply base_emit). apply rwp_bind. unfold saveRequired.
  case_bool.
  { apply rwp_ret. cbn. eapply (rwp_seq _ _ (λ _ r', live o T r')); [by apply rollback_live|]. intros b r' Hl. apply rwp_ret. by exists o. }
  apply rwp_sess, rwp_gets, rwp_emit, rwp_ret. cbn [rsLog setRLog rsSession rsWorld].
  change (rsSession (setRLog h1 r)) with (rsSession r). destruct (roSave R _ _); cbn [negb].
  2: { eapply (rwp_seq _ _ (λ _ r', live o T r')); [apply rollback_live; [by quietly|done]|]. intros b r' Hl. apply rwp_ret. by exists o. }
  set (h2 := Saved (rsSession r) true :: h1). assert (Hb2 : base o T (setRLog h2 r)) by (by apply (base_emit _ o T (setRLog h1 r))).
  apply rwp_emit, rwp_ctx. destruct (roCancelled R _).
  { apply (Hcanc (CtxChecked true :: ChildrenDrained :: h2)).
    apply (base_emit _ o T (setRLog (ChildrenDrained :: h2) r)); [done|]. by apply (base_emit _ o T (setRLog h2 r)). }
  set (h3 := CtxChecked false :: ChildrenDrained :: h2). assert (Hb3 : base o T (setRLog h3 r)).
  { apply (base_emit _ o T (setRLog (ChildrenDrained :: h2) r)); [done|]. by apply (base_emit _ o T (setRLog h2 r)). }
  apply rwp_gets. destruct (roEmitRequired R _) as [[] canc].
  - apply rwp_emit, rwp_ret. destruct Hb3 as [Hs Hw [Hq Hr Hwt]]. split; [apply Hs|apply Hw|apply Hw| |].
    + intros HP. constructor; [done|by apply Hq].
    + right. split_and!; [done|done|]. exists turn, a, (CallID (pkCall p)), h3. split_and!; [done|done| |].
      * do 2 right. left.
      * change (PAuthorization <$> PendingAuthorizationOf (rsSession r) = Some a). unfold PendingAuthorizationOf. by rewrite Ha.
  - apply (rollback_ok o T (setRLog h3 r) p _ (λ ok, if ok && canc then ParkCancelled else ParkFatal)); [done|done|].
    intros b r' Hl. destruct b, canc; by exists o.
Qed.

Lemma parkAuthorization_ok o T r turn p completed :
  live o T r →
  (P → NoDup ((RCallID <$> completed) ++ openIDs p) ∧ o = list_to_set ((RCallID <$> completed) ++ openIDs p)) →
  rwp (parkAuthorization E C R turn p completed) (parkOk T p) r.
Proof.
  intros Hl Ho. set (o1 := list_to_set (openIDs p) : gset ToolCallID). unfold parkAuthorization.
  eapply (rwp_seq _ _ (λ e r', match e with None => live o1 T r' | Some _ => live o T r' end)).
  { pose proof (recordResults_live o o1 T r completed (lv_base _ _ _ Hl) (lv_active _ _ _ Hl) (lv_calm _ _ _ Hl)) as Hrec.
    destruct completed as [|x completed]; [apply rwp_ret; eapply live_open; [done|]; intros HP; by destruct (Ho HP) as [_ ->]|].
    unfold onSession. apply rwp_sess. destruct (RecordToolResults _ _) as [s e]. apply rwp_modify, rwp_ret.
    assert (Hx : P → scan o (NewToolMessage <$> x :: completed) = Some o1).
    { intros HP. destruct (Ho HP) as [Hn ->]. apply NoDup_app in Hn as (Hn & Hd & _).
      rewrite scan_toolResults; [|done|set_solver]. f_equal. unfold o1. set_solver. }
    specialize (Hrec Hx). destruct e; [done|apply Hrec]. }
  intros [err|] r1 Hl1.
  { eapply rwp_seq; [by apply abortPark_live|]. intros b r2 Hl2. apply rwp_ret. by exists o. }
  case_bool; [apply rwp_ret; by exists o1|]. case_bool.
  { eapply rwp_seq; [by apply abortPark_live|]. intros [] r2 Hl2; [|apply rwp_ret; by exists o1].
    eapply rwp_seq; [by apply parkFailures_live|]. intros rs r3 Hrs. by apply rwp_ret. }
  apply rwp_ctx. set (r2 := setRLog _ r1). assert (Hl2 : live o1 T r2) by (by apply live_emit).
  destruct (roCancelled R _).
  { eapply rwp_seq; [by apply abortPark_live|]. intros b r3 Hl3. apply rwp_ret. by apply (orCancelled_ok o1). }
  cbv zeta. set (pa := mkPendingAuthorization _ _ _). apply rwp_on.
  pose proof (ba_sess _ _ _ (lv_base _ _ _ Hl2)) as Hs.
  pose proof (reachable_exec (rsSession r2) (OPauseForAuthorization pa) (so_reach _ _ _ Hs)) as Hr. cbn [exec] in Hr.
  unfold PauseForAuthorization in *. rewrite (active_pending _ _ _ Hs (lv_active _ _ _ Hl2)) in *.
  assert (Hfail : rwp (abortPark R p;; mret ParkFatal) (parkOk T p) (setSession (rsSession r2) r2)).
  { eapply rwp_seq; [apply abortPark_live, (live_session _ _ o1 T _ _ (lv_base _ _ _ Hl2) Hs (lv_active _ _ _ Hl2) (lv_calm _ _ _ Hl2))|].
    intros b r3 Hl3. apply rwp_ret. by exists o1. }
  destruct (negb (SState (rsSession r2) =s StateRunning)); [exact Hfail|].
  destruct (validatePendingAuthorization _ _ _); [exact Hfail|].
  eapply (announcePark_ok o1); [|done|done]. eapply base_session; [apply Hl2|]. eapply sess_ok_ext; try done; apply Hs.
Qed.

(** *** The turn *)

Lemma recordTurn_spec o T r text usage rs :
  live o T r → (P → NoDup (RCallID <$> rs) ∧ o = list_to_set (RCallID <$> rs)) →
  rwp (recordTurn E C R text usage rs) (overOr ∅ T) r.
Proof.
  intros Hl Ho. unfold recordTurn. apply rwp_on.
  pose proof (recordResults_live o ∅ T r rs (lv_base _ _ _ Hl) (lv_active _ _ _ Hl) (lv_calm _ _ _ Hl)) as Hrec.
  destruct (RecordToolResults (rsSession r) rs) as [s e].
  assert (Hx : P → scan o (NewToolMessage <$> rs) = Some ∅).
  { intros HP. destruct (Ho HP) as [Hn ->]. rewrite scan_toolResults by done. f_equal. set_solver. }
  specialize (Hrec Hx). cbn [fst snd]. destruct e as [err|]; [apply over_and; [by eapply terminate_over|done]|].
  destruct Hrec as [Hl' _]. eapply rwp_seq; [by apply save_live|]. intros [] r1 Hl1. by apply planApprovalTerminal_spec.
Qed.

Lemma endPark_spec T r text usage p out continue :
  parkOk T p out r →
  (∀ rs r', live (list_to_set (openIDs p)) T r' → RCallID <$> rs = openIDs p → rwp (continue rs) (overOr ∅ T) r') →
  rwp (endPark E C R text usage out continue) (overOr ∅ T) r.
Proof.
  intros Hok Hc. destruct out as [rs| | |]; simpl in *.
  - destruct Hok. by apply Hc.
  - by apply rwp_ret.
  - destruct Hok as [o Hl]. apply over_and; [by eapply terminate_over|done].
  - destruct Hok as [o Hl]. apply over_and; [by eapply terminate_over|done].
Qed.

Lemma dispatchTurn_spec o T r turn calls text usage :
  live o T r → (P → NoDup (CallID <$> calls) ∧ o = list_to_set (CallID <$> calls)) →
  rwp (dispatchTurn F E C R turn calls text usage) (overOr ∅ T) r.
Proof.
  intros Hl Ho. unfold dispatchTurn.
  eapply rwp_seq; [apply (dispatching_live _ (λ a, P → turnOk calls a)); [done|intros; apply dispatch_stable|]|].
  { intros O. eapply keeps_mono; [apply dispatch_keeps; [done..|]; apply (wo_phase _ (ba_world _ _ _ (lv_base _ _ _ Hl)))|].
    intros a w _ Ha [h ->] HP. by apply Ha, tools_honest. }
  intros out r1 (Hl1 & Hok & _). destruct out as [rs|rs p|rs]; simpl in Hok.
  - eapply recordTurn_spec; [done|]. intros HP. rewrite (Hok HP). by apply Ho.
  - eapply rwp_seq; [eapply (parkAuthorization_ok o); [done|]|].
    { intros HP. destruct (Ho HP) as [Hn ->], (Hok HP) as (front & c & -> & -> & Hid & _).
      unfold openIDs. rewrite Hid, <-!(fmap_cons CallID), <-fmap_app. done. }
    intros out r2 Hout. eapply endPark_spec; [done|]. intros rs' r3 Hl3 Hids. eapply recordTurn_spec; [done|].
    intros HP. rewrite Hids. split; [|done]. destruct (Ho HP) as [Hn _], (Hok HP) as (front & c & -> & _ & Hid & _).
    rewrite fmap_app in Hn. apply NoDup_app in Hn as (_ & _ & Hn). unfold openIDs. by rewrite Hid.
  - pose proof (recordResults_live o (o ∖ list_to_set (RCallID <$> rs)) T r1 rs (lv_base _ _ _ Hl1) (lv_active _ _ _ Hl1) (lv_calm _ _ _ Hl1)) as Hrec.
    eapply (rwp_seq _ _ (λ _ r', ∃ o', live o' T r')).
    + destruct rs as [|x rs]; [apply rwp_ret; by exists o|]. apply rwp_on. destruct (RecordToolResults _ _) as [s e].
      assert (Hx : P → scan o (NewToolMessage <$> x :: rs) = Some (o ∖ list_to_set (RCallID <$> x :: rs))).
      { intros HP. destruct (Ho HP) as [Hn ->]. specialize (Hok HP). apply scan_toolResults.
        - by eapply sublist_NoDup.
        - intros y. rewrite !elem_of_list_to_set. intros Hy. by eapply elem_of_sublist. }
      specialize (Hrec Hx). cbn [fst snd]. destruct e as [err|]; [apply rwp_ret; by exists o|]. destruct Hrec as [Hl' _].
      eapply rwp_seq; [by apply save_live|]. intros [] r2 Hl2. apply rwp_ret. by eexists.
    + intros e r2 [o' Hl2]. apply over_and; [|done]. destruct e; by eapply terminate_over.
Qed.

(** A write to what the invariant does not read. *)
Lemma live_write o T r s :
  live o T r → reachable s →
  (SState s, pendingWorkspaceEnrollment s, SLimits s, SCounters s, Mode s, authorityBound s, Messages s, retryPending s) =
  (SState (rsSession r), pendingWorkspaceEnrollment (rsSession r), SLimits (rsSession r), SCounters (rsSession r), Mode (rsSession r),
   authorityBound (rsSession r), Messages (rsSession r), retryPending (rsSession r)) →
  live o T (setSession s r).
Proof.
  intros [Hb Ha Hc] Hr [= E1 E2 E3 E4 E5 E6 E7 E8]. pose proof (ba_sess _ _ _ Hb) as Hs.
  eapply live_session; [done| |unfold active; by rewrite E1|].
  - eapply sess_ok_ext; [done|done|done|done|done|done| |]; [rewrite E4; apply Hs|rewrite E7; apply Hs].
  - unfold calm, retryIdle in *. by rewrite E1, E8.
Qed.

Lemma beginTurn_live T r :
  live ∅ T r →
  let '(s, e) := BeginTurn (rsSession r) in
  match e with
  | None => live ∅ (wrap64 (T + 1)) (setSession s r) ∧ SState s = StateRunning
  | Some _ => live ∅ T (setSession s r)
  end.
Proof.
  intros Hl. pose proof (lv_base _ _ _ Hl) as Hb. pose proof (ba_sess _ _ _ Hb) as Hs.
  pose proof (reachable_exec (rsSession r) OBeginTurn (so_reach _ _ _ Hs)) as Hr. cbn [exec] in Hr.
  assert (Hsame : live ∅ T (setSession (rsSession r) r)) by (by apply live_write; [|apply Hs|]).
  unfold BeginTurn in *. case_bool; [exact Hsame|]. case_bool; [exact Hsame|]. cbn in *. split; [|done].
  eapply live_session; [done| |by right|right; by apply running_calm]. eapply sess_ok_ext; try done; [|apply Hs].
  cbn. by rewrite (so_turns _ _ _ Hs).
Qed.

Lemma recordAssistant_live T r m :
  live ∅ T r → MRole m = RoleAssistant →
  let '(s, e) := RecordAssistant (rsSession r) m in
  match e with
  | None => live (callIDs (MToolCalls m)) T (setSession s r)
  | Some _ => live ∅ T (setSession s r)
  end.
Proof.
  intros Hl Hm. pose proof (lv_base _ _ _ Hl) as Hb. pose proof (ba_sess _ _ _ Hb) as Hs.
  pose proof (reachable_exec (rsSession r) (ORecordAssistant m) (so_reach _ _ _ Hs)) as Hr. cbn [exec] in Hr.
  unfold RecordAssistant in *. case_bool; [by apply live_write; [|apply Hs|]|]. cbn in *. apply negb_false_iff in E0. bprop.
  eapply live_session; [done| |by right|right; by apply running_calm]. eapply sess_ok_ext; try done; [apply Hs|].
  intros HP. cbn. unfold Append. rewrite scan_app, (so_open _ _ _ Hs HP). simpl. rewrite Hm. f_equal. set_solver.
Qed.

Lemma recordUsage_live o T r u : live o T r → live o T (setSession (RecordUsage (rsSession r) u).1 r).
Proof.
  intros Hl. pose proof (so_reach _ _ _ (ba_sess _ _ _ (lv_base _ _ _ Hl))) as Hr.
  apply live_write; [done|apply (reachable_exec (rsSession r) (ORecordUsage u) Hr)|].
  unfold RecordUsage. by case_bool.
Qed.

Lemma recordOccupancy_live o T r c : live o T r → live o T (setSession (RecordLatestContextOccupancy (rsSession r) c) r).
Proof.
  intros Hl. pose proof (so_reach _ _ _ (ba_sess _ _ _ (lv_base _ _ _ Hl))) as Hr.
  apply live_write; [done|apply (reachable_exec (rsSession r) (ORecordOccupancy c) Hr)|].
  unfold RecordLatestContextOccupancy. by case_bool.
Qed.

(** [None] for a run that is over, [Some] for one that goes on. *)
Definition overElse (T : Z) (k : option Carried) r : Prop := match k with None => over r | Some _ => live ∅ T r end.

Lemma oneTurn_spec T r k : live ∅ T r → rwp (oneTurn F E C R k) (overElse (wrap64 (T + 1))) r.
Proof.
  intros Hl. unfold oneTurn. cbv zeta. apply rwp_on. pose proof (beginTurn_live T r Hl) as Hbt.
  destruct (BeginTurn (rsSession r)) as [s e]. cbn [fst snd].
  destruct e as [err|]; [apply over_and; [by eapply terminate_over|done]|]. destruct Hbt as [Hl1 _]. set (T' := wrap64 (T + 1)) in *.
  apply rwp_turns, rwp_emit. eapply rwp_seq; [apply (maybeCompact_live ∅ T'); [by apply live_emit|done]|].
  intros request r2 (Hl2 & Hreq & _). eapply rwp_seq; [by apply runTurn_live|]. intros [[[m usage] streamStop] err] r3 (Hl3 & Hnd & Hrole).
  cbn [fst snd] in *. apply rwp_on_. apply rwp_emit. set (r4 := setRLog _ _).
  assert (Hl4 : live ∅ T' r4) by (apply live_emit; [done|by apply recordUsage_live]). clearbody r4.
  destruct err as [cause|].
  { eapply (rwp_seq _ _ (λ _ r', live ∅ T' r')); [case_bool; [by apply rwp_ret|by apply live_emit]|]. intros gone r5 Hl5.
    apply over_and; [destruct gone; by eapply terminate_over|done]. }
  apply rwp_sess, rwp_emit, rwp_on. set (r5 := setRLog _ r4). assert (Hl5 : live ∅ T' r5) by (by apply live_emit). clearbody r5.
  pose proof (recordAssistant_live T' r5 m Hl5 Hrole) as Hra. destruct (RecordAssistant (rsSession r5) m) as [s5 e5]. cbn [fst snd].
  destruct e5 as [err|]; [apply over_and; [by eapply terminate_over|done]|].
  eapply (rwp_seq _ _ (λ _ r', live (callIDs (MToolCalls m)) T' r')).
  { case_bool; [by apply rwp_ret|]. by apply recordOccupancy_live. }
  intros [] r6 Hl6. destruct (MToolCalls m) as [|c calls] eqn:Ec.
  - eapply rwp_seq; [by apply finishTurnNoTools_spec|]. intros [[] n] r7 Ho; by apply rwp_ret.
  - eapply rwp_seq; [eapply dispatchTurn_spec; [done|]|intros [] r7 Ho; by apply rwp_ret].
    intros HP. split; [by apply Hnd|done].
Qed.

Lemma iterate_spec T r skipFirst k :
  live ∅ T r →
  rwp (iterate F E C R skipFirst k) (λ a r', overElse (wrap64 (T + 1)) a r' ∧ (a ≠ None → (0 < MaxTurns L → T < MaxTurns L)%Z)) r.
Proof.
  intros Hl. unfold iterate. eapply rwp_seq; [by apply (planApprovalTerminal_spec ∅ T)|]. intros [] r1 Hl1; simpl in Hl1; [by apply rwp_ret|].
  eapply (rwp_seq _ _ (λ _ r', live ∅ T r')).
  { case_bool; [by apply runBoundaryInjections_live|by apply rwp_ret]. }
  intros [cause|] r2 Hl2; [apply over_and; [by eapply terminate_over|done]|].
  eapply rwp_seq; [by apply preTurnTerminal_spec|]. intros [] r3 [Ho Hlim]; [by apply rwp_ret|].
  eapply rwp_mono; [by apply oneTurn_spec|]. intros a r4 Ha. split; [done|]. intros _ Hpos.
  specialize (Hlim eq_refl). pose proof (ba_sess _ _ _ (lv_base _ _ _ Hl2)) as Hs. unfold LimitTripped in Hlim.
  rewrite (so_limits _ _ _ Hs), (so_turns _ _ _ Hs) in Hlim. case_bool; [done|]. bprop. lia.
Qed.

(** A run that is over, or between two turns when the iterations are used up. *)
Definition ranTo (a : Ran) r : Prop := match a with RunOver => over r | RunFuel => ∃ T, live ∅ T r end.

Lemma runLoop_spec fuel T r skipFirst k : live ∅ T r → rwp (runLoop F E C R fuel skipFirst k) ranTo r.
Proof.
  revert T r k. induction fuel as [|fuel IH]; intros T r k Hl; cbn [runLoop]; [apply rwp_ret; by exists T|].
  eapply rwp_seq; [by apply iterate_spec|]. intros [k'|] r1 [Ho _]; [by eapply IH|by apply rwp_ret].
Qed.

(** The turn limit bounds the iterations. *)
Lemma runLoop_ends fuel T r skipFirst k :
  live ∅ T r → (0 < MaxTurns L)%Z → int64 (MaxTurns L) → int64 T → (MaxTurns L - T < Z.of_nat fuel)%Z → (0 < fuel)%nat →
  rwp (runLoop F E C R fuel skipFirst k) (λ a _, a = RunOver) r.
Proof.
  revert T r k. induction fuel as [|fuel IH]; intros T r k Hl Hmax Hi HT Hf Hpos; [lia|]. cbn [runLoop].
  eapply rwp_seq; [by apply iterate_spec|]. intros [k'|] r1 [Ho Hlt]; [|by apply rwp_ret].
  assert (Hw : wrap64 (T + 1) = (T + 1)%Z). { apply wrap64_id. unfold int64 in *. specialize (Hlt ltac:(done) ltac:(lia)). lia. }
  rewrite Hw in Ho. eapply IH; [done|done|done| | |]; unfold int64 in *; specialize (Hlt ltac:(done) ltac:(lia)); lia.
Qed.

(** *** Entries *)

Lemma fireSessionStart_live o T r : live o T r → rwp (fireSessionStart E R) (λ _ r', live o T r') r.
Proof.
  intros Hl. unfold fireSessionStart. case_bool; [by apply rwp_ret|]. apply rwp_ctx. destruct (roCancelled R _).
  { apply rwp_ret. by quietly. }
  apply rwp_sess, rwp_gets, rwp_emit. destruct (roHook R _ _) as [out|err]; [|apply rwp_ret; by quietly].
  case_bool; [apply rwp_emit|]; apply rwp_ret; by quietly.
Qed.

Lemma fireUserPromptSubmit_live o T r text : live o T r → rwp (fireUserPromptSubmit F E C R text) (λ _ r', live o T r') r.
Proof.
  intros Hl. unfold fireUserPromptSubmit. case_bool; [by apply rwp_ret|]. apply rwp_ctx. destruct (roCancelled R _).
  { apply rwp_ret. by quietly. }
  apply rwp_sess, rwp_gets, rwp_emit. destruct (roHook R _ _) as [out|err]; [|apply rwp_ret; by quietly].
  case_bool; [apply rwp_emit, rwp_ret; by quietly|]. case_bool; [apply rwp_ret; by quietly|].
  destruct (promptPayload _); apply rwp_emit, rwp_ret; by quietly.
Qed.

Lemma title_live o T r m : live o T r → live o T (setSession (setTitleMeta m (rsSession r)) r).
Proof.
  intros Hl. pose proof (so_reach _ _ _ (ba_sess _ _ _ (lv_base _ _ _ Hl))) as Hr.
  by apply live_write; [|apply (reachable_exec (rsSession r) (OTitle m) Hr)|].
Qed.

Lemma recordPrompt_live o T r text parts : live o T r → rwp (recordPrompt F E C R text parts) (λ _ r', live o T r') r.
Proof.
  intros Hl. unfold recordPrompt. cbv zeta. eapply rwp_seq; [by apply fireUserPromptSubmit_live|].
  intros [prompt|reason] r1 Hl1; [|by apply rwp_ret]. unfold onSession, RecordPrincipalPromptWithParts, RecordUserPromptWithParts.
  assert (Hu : let '(s, e) := (if dRole E =s [] then recordUserPromptWithParts (rsSession r1) prompt parts [] UserPromptProvenancePrincipal
                               else recordUserPromptWithParts (rsSession r1) prompt parts [] UserPromptProvenanceUnknown) in
    live o T (setSession s r1)).
  { case_bool; [pose proof (recordUser_live o T r1 prompt parts UserPromptProvenancePrincipal Hl1) as Hu
               |pose proof (recordUser_live o T r1 prompt parts UserPromptProvenanceUnknown Hl1) as Hu];
      destruct (recordUserPromptWithParts _ _ _ _ _) as [s e]; apply Hu. }
  apply rwp_bind, rwp_sess. destruct (if dRole E =s [] then _ else _) as [s e]. apply rwp_modify, rwp_ret.
  destruct e as [err|]; [by apply rwp_ret|]. apply rwp_modify, rwp_emit, rwp_ret. quietly. by apply (title_live _ _ (setSession s r1)).
Qed.

Lemma endWith_over o T r text cause : live o T r → rwp (endWith E C R text cause) (λ a r', a = RunOver ∧ over r') r.
Proof. intros Hl. apply over_and; [by eapply terminate_over|done]. Qed.

(** Every entry either ends at once or starts the loop on a live run. *)
Definition entersLoop (m : RM Ran) (fuel : nat) T r : Prop :=
  ∀ Q : Ran → RunState → Prop,
    (∀ r', over r' → Q RunOver r') →
    (∀ skip k r', live ∅ T r' → rwp (runLoop F E C R fuel skip k) Q r') →
    rwp m Q r.

Lemma inEnvironment_enters body fuel T r : live ∅ T r → entersLoop body fuel T r → entersLoop (inEnvironment E C R body) fuel T r.
Proof.
  intros Hl Hb Q HQ Hk. unfold inEnvironment. apply rwp_sess. case_bool; [|by apply Hb]. apply rwp_emit.
  eapply rwp_mono; [eapply (endWith_over ∅ T); by quietly|]. intros a r' [-> Ho]. by apply HQ.
Qed.

Lemma Run_enters fuel text parts T r : live ∅ T r → entersLoop (Run F E C R fuel text parts) fuel T r.
Proof.
  intros Hl. apply inEnvironment_enters; [done|]. intros Q HQ Hk. unfold drive. apply rwp_emit, rwp_turns.
  assert (Hend : ∀ t c r', live ∅ T r' → rwp (endWith E C R t c) Q r').
  { intros t c r' Hl'. eapply rwp_mono; [by eapply (endWith_over ∅ T)|]. intros a r2 [-> Ho]. by apply HQ. }
  eapply (rwp_seq _ _ (λ _ r', live ∅ T r')).
  { case_bool; [apply fireSessionStart_live|apply rwp_ret]; by quietly. }
  intros [reason|] r1 Hl1; [by apply Hend|]. eapply rwp_seq; [by apply recordPrompt_live|].
  intros [[reason cause]|] r2 Hl2; [by apply Hend|by apply Hk].
Qed.

Lemma Retry_enters fuel T r : live ∅ T r → entersLoop (RetryFailedStep F E C R fuel) fuel T r.
Proof.
  intros Hl. apply inEnvironment_enters; [done|]. intros Q HQ Hk. apply rwp_emit, rwp_sess. case_bool.
  - eapply rwp_mono; [eapply (endWith_over ∅ T); by quietly|]. intros a r' [-> Ho]. by apply HQ.
  - apply rwp_emit, Hk. by quietly.
Qed.

Lemma publishAll_live o T r (rs : list ToolResult) :
  live o T r → rwp (dispatching R (λ _, foldr (λ x (k : @M St WS unit), publishResult x;; k) (mret tt) rs)) (λ _ r', live o T r') r.
Proof.
  intros Hl. eapply rwp_mono; [apply (dispatching_live _ (λ _, True)); [done| |]|naive_solver].
  - intros O. induction rs as [|x rs IH]; simpl; [apply stable_ret|]. apply stable_bind; [apply publishResult_stable|done].
  - intros O. generalize (rsWorld r). induction rs as [|x rs IH]; intros w; simpl; [by apply keeps_ret|].
    eapply keeps_bind; [apply publishResult_keeps|]. intros _ w1 _ _ _. apply IH.
Qed.

Lemma after_enters fuel a call status rs T r :
  live ∅ T r → entersLoop (afterAuthorization F E C R fuel a call status rs) fuel T r.
Proof.
  intros Hl Q HQ Hk. unfold afterAuthorization, emitAuthorizationResolution. apply rwp_emit, rwp_bind.
  eapply rwp_seq; [apply (publishAll_live ∅ T); by quietly|]. intros [] r1 Hl1. apply Hk. by quietly.
Qed.

Lemma enters_ran m fuel T r : entersLoop m fuel T r → rwp m ranTo r.
Proof. intros Hm. apply Hm; [done|]. intros skip k r' Hl. by eapply runLoop_spec. Qed.

Lemma ranTo_log a r : ranTo a r →
  reachable (rsSession r) ∧ safe F ev mode gate (wLog (rsWorld r)) ∧ (P → Forall requestOk (rsLog r)).
Proof.
  destruct a; [intros []|intros [T [[Hs Hw Hl] _ _]]]; simpl; split_and!; try done; [apply Hs|apply Hw|apply Hl].
Qed.

Lemma enters_ends m fuel T r :
  entersLoop m fuel T r → (0 < MaxTurns L)%Z → int64 (MaxTurns L) → int64 T → (MaxTurns L - T < Z.of_nat fuel)%Z → (0 < fuel)%nat →
  rwp m (λ a _, a = RunOver) r.
Proof. intros Hm Hmax Hi HT Hf Hpos. apply Hm; [done|]. intros skip k r' Hl. by eapply runLoop_ends. Qed.

End turns.

(** ** The depth of [terminate]

    [closeSteerDrained] ends the run a second time when the last steer cannot be
    recorded, and so [terminate] calls itself.  Each such call has taken a steer out of
    the inbox, and the operator fills it at most once per batch: the fuel is enough. *)

Section depth.
Context {platform : Platform} {St WS : Type} `{!PermissionStore St}.
Context (E : Engine WS) (C : RunConfig) (R : RunOutside).
Abbreviation RunState := (@Loop.RunState St WS).
Implicit Types r : RunState.

Definition sameInbox r r' : Prop := rsInbox r' = rsInbox r ∧ rsOperator r' = rsOperator r.

Lemma save_inbox r : rwp (save C R) (λ _ r', sameInbox r r') r.
Proof. apply save_spec. by intros h _. Qed.

Lemma commit_inbox r c : rwp (commit E C R c) (λ _ r', sameInbox r r') r.
Proof.
  unfold commit. apply rwp_on. destruct (commitSteer _ _ _) as [s [err|]]; [by apply rwp_ret|].
  apply rwp_turns, rwp_emit, rwp_emit. eapply rwp_seq; [apply save_inbox|]. intros [] r' H. by apply rwp_ret.
Qed.

(** Steers the inbox can still yield. *)
Definition steersLeft r : nat := length (rsOperator r) + (if hasSteer (rsInbox r) then 1 else 0).

Lemma takeSteer_left r : rwp takeSteer (λ c r', c ≠ None → steersLeft r' < steersLeft r) r.
Proof.
  unfold takeSteer, operatorActs. apply rwp_bind. unfold rwp at 1, rmodify. cbn [fst snd].
  set (r1 := match rsOperator r with [] => r | _ => _ end).
  assert (H1 : hasSteer (rsInbox r1) = true → length (rsOperator r1) < steersLeft r).
  { unfold r1, steersLeft. destruct (rsOperator r) as [|batch rest] eqn:Eo; [rewrite Eo; intros ->; simpl; lia|].
    intros _. simpl. lia. }
  clearbody r1. apply rwp_gets. unfold drainSteer, hasSteer in *. destruct (rsInbox r1) as [b|]; [|by apply rwp_modify, rwp_ret].
  case_bool; apply rwp_modify, rwp_ret; [done|]. intros _. unfold steersLeft at 1. simpl. rewrite Nat.add_0_r. apply H1. by destruct (has b).
Qed.

(** The handler of a fault matters only while a steer is left. *)
Lemma closeDrained_ext r f g :
  (∀ cause r', steersLeft r' < steersLeft r → f cause r' = g cause r') →
  closeDrained E C R f r = closeDrained E C R g r.
Proof.
  intros Hfg. unfold closeDrained. unfold rgets, mbind, RM_bind. cbn. destruct (rsInbox r); [|done].
  pose proof (takeSteer_left r) as Ht. unfold rwp in Ht. destruct (takeSteer r) as [[c|] r1]; [|done]. cbn in Ht.
  pose proof (commit_inbox r1 c) as Hc. unfold rwp in Hc. destruct (commit E C R c r1) as [[err|] r2]; [|done].
  destruct Hc as [Hi Ho]. apply Hfg. unfold steersLeft. cbn in *. rewrite Hi, Ho. by apply Ht.
Qed.

Lemma terminateFuel_enough fuel fuel' reason text usage cause permanent r :
  steersLeft r < fuel → steersLeft r < fuel' →
  terminateFuel E C R fuel reason text usage cause permanent r = terminateFuel E C R fuel' reason text usage cause permanent r.
Proof.
  revert fuel' reason text usage cause permanent r. induction fuel as [|fuel IH]; intros [|fuel'] *; [lia..|]. intros H1 H2.
  cbn [terminateFuel]. cbv zeta. unfold mbind at 1 5, RM_bind. erewrite closeDrained_ext; [reflexivity|].
  intros c r' Hlt. apply IH; lia.
Qed.

Lemma terminate_fuel fuel reason text usage cause permanent r :
  terminateDepth r <= fuel →
  terminateFuel E C R fuel reason text usage cause permanent r = terminate E C R reason text usage cause permanent r.
Proof.
  intros H. unfold terminate, terminateDepth in *. apply terminateFuel_enough; unfold steersLeft; case_bool; lia.
Qed.
End depth.


(** ** Theorems *)

Section theorems.
Context {platform : Platform} {St WS : Type} `{!PermissionStore St}.
Context (F : Format) (E : Engine WS) (C : RunConfig) (R : RunOutside).
Abbreviation RunState := (@Loop.RunState St WS).
Implicit Types r : RunState.

(** The entries of a run that do not resume a call: a prompt, the retry of a failed
    step, and the continuation after an authorization was resolved without running
    its call. *)
Inductive Launch :=
  | LaunchPrompt (text : gostr) (parts : list Content)
  | LaunchRetry
  | LaunchResolved (a : ExternalAuthorization) (call status : gostr) (results : list ToolResult).

Definition launch (fuel : nat) (l : Launch) : @RM St WS Ran :=
  match l with
  | LaunchPrompt text parts => Run F E C R fuel text parts
  | LaunchRetry => RetryFailedStep F E C R fuel
  | LaunchResolved a call status results => afterAuthorization F E C R fuel a call status results
  end.

(** The state a run starts from.  There is no inbox of steers when the session is idle
    with a retry to be done; otherwise there may be one. *)
Record ready r : Prop := {
  rd_reach : reachable (rsSession r);
  rd_active : active (rsSession r);
  rd_enrol : pendingWorkspaceEnrollment (rsSession r) = None;
  rd_calm : calm r;
  rd_log : rsLog r = [];
  rd_world : wLog (rsWorld r) = []
}.

(** The services answer in order: a tool with the id of its call, the model with
    distinct call ids, the prompt fragments without half of a pair. *)
Record wellBehaved : Prop := {
  wb_tools : ∀ h, honest (roDispatch R h);
  wb_model : ∀ h msgs items, roStream R h msgs = inl items → NoDup (CallID <$> streamCalls items);
  wb_fragments : ValidateToolPairing (rcFragments C) = None
}.

Abbreviation gateOf r := (gated F E (authorityBound (rsSession r))).
Abbreviation liveFrom r P :=
  (live F E (peval (wPolicy (rsWorld r))) (Mode (rsSession r)) (authorityBound (rsSession r)) (gateOf r) (SLimits (rsSession r)) P).

Lemma ready_live (P : Prop) r :
  ready r → (P → ValidateToolPairing (Messages (rsSession r)) = None) → liveFrom r P ∅ (Turns (SCounters (rsSession r))) r.
Proof.
  intros [H1 H2 H3 H4 H5 H6] HP. split; [|done..]. split.
  - split; try done. intros Hp. by apply Validate_scan, HP.
  - by split; rewrite ?H6.
  - split; rewrite H5; done.
Qed.

Lemma launch_ran (P : Prop) fuel l r :
  ready r → (P → wellBehaved) → (P → ValidateToolPairing (Messages (rsSession r)) = None) →
  rwp (launch fuel l) (ranTo F E (peval (wPolicy (rsWorld r))) (Mode (rsSession r)) (authorityBound (rsSession r)) (gateOf r)
    (SLimits (rsSession r)) P) r ∧
  ((0 < MaxTurns (SLimits (rsSession r)))%Z → int64 (MaxTurns (SLimits (rsSession r))) → int64 (Turns (SCounters (rsSession r))) →
   (MaxTurns (SLimits (rsSession r)) - Turns (SCounters (rsSession r)) < Z.of_nat fuel)%Z → 0 < fuel →
   (launch fuel l r).1 = RunOver).
Proof.
  intros Hr Hwb HP. pose proof (ready_live P r Hr HP) as Hl.
  assert (H1 : P → ∀ h, honest (roDispatch R h)) by (intros Hp; apply Hwb, Hp).
  assert (H2 : P → ∀ h msgs items, roStream R h msgs = inl items → NoDup (CallID <$> streamCalls items)) by (intros Hp; apply Hwb, Hp).
  assert (H3 : P → ValidateToolPairing (rcFragments C) = None) by (intros Hp; apply Hwb, Hp).
  assert (Hm : ∀ c h h', h `suffix_of` h' → gateOf r c h → gateOf r c h') by (intros c h h'; apply gated_mono).
  assert (He : entersLoop F E C R (peval (wPolicy (rsWorld r))) (Mode (rsSession r)) (authorityBound (rsSession r)) (gateOf r)
    (SLimits (rsSession r)) P (launch fuel l) fuel (Turns (SCounters (rsSession r))) r).
  { destruct l; [apply Run_enters|apply Retry_enters|apply after_enters]; eauto. }
  split; [eapply enters_ran|intros; eapply enters_ends]; eauto.
Qed.


(** What is denied never runs, in a whole run: no tool call that a static deny rule
    matches is executed in any turn, and in a run that starts in plan mode no mutating
    tool is, and no shell command that is not read-only. *)
Theorem run_denied_never_runs fuel l r c :
  let ev := peval (wPolicy (rsWorld r)) in
  let args := rawJSON F (CallArgs c) in
  ready r → Started c ∈ wLog (rsWorld (launch fuel l r).2) →
  (∀ rule p, rule ∈ rules ev → p ∈ callPatterns (CallName c) args → ¬ binds ev (CallName c) p Deny rule) ∧
  (Mode (rsSession r) = ModePlan →
   CallName c ∉ mutatingTools ∧
   (CallName c = #"Shell" → ∀ cmd, ShellCommandFromArgs args = Some cmd → Shell.ReadOnlyShell cmd = true)).
Proof.
  intros ev args Hr Hin. destruct (launch_ran False fuel l r Hr) as [Hran _]; [done..|].
  apply ranTo_log in Hran as (_ & Hs & _). by eapply safe_denied.
Qed.


(** C7. How a run ends that starts [ready]: in an active session that its own methods
    reach, with no workspace enrolment pending and nothing logged yet, and, when it is the
    retry of a failed step, without an inbox of steers.  Whatever the services answer, the
    end of such a run is one of two.  It has emitted exactly one result and the session is
    terminal, or keeps its failed step for a later retry; or it has emitted no result and
    the session waits for an external authorization, which was announced last and only
    after the waiting session had been saved.  In both the session is one its own methods
    can reach.  The condition on the inbox is needed: the retry of a failed step with an
    open inbox can emit two results ([retry_with_steer_ends_twice]). *)
Theorem run_ends_once fuel l r :
  ready r → (launch fuel l r).1 = RunOver →
  let r' := (launch fuel l r).2 in reachable (rsSession r') ∧ (finished r' ∨ parked r').
Proof.
  intros Hr Ha. destruct (launch_ran False fuel l r Hr) as [Hran _]; [done..|]. unfold rwp in Hran. rewrite Ha in Hran.
  by destruct Hran.
Qed.

(** C8. A run with a turn limit that starts [ready] ends: whatever the services answer,
    the loop is left after at most as many iterations as turns remain, and one more. *)
Theorem run_terminates fuel l r :
  ready r → (0 < MaxTurns (SLimits (rsSession r)))%Z → int64 (MaxTurns (SLimits (rsSession r))) →
  int64 (Turns (SCounters (rsSession r))) →
  (MaxTurns (SLimits (rsSession r)) - Turns (SCounters (rsSession r)) < Z.of_nat fuel)%Z → 0 < fuel →
  (launch fuel l r).1 = RunOver.
Proof. intros Hr. by destruct (launch_ran False fuel l r Hr) as [_ Ht]; [done..|]. Qed.
End theorems.

(** ** A sample run

    The first answer of the model reads two files and runs a command, the second ends
    the turn. *)

Definition modelCalls (h : runLog) : nat := length (omap (λ e, match e with ModelCalled ms => Some ms | _ => None end) h).

Definition sampleStream (h : runLog) : list (Chunk + ProviderError) :=
  match modelCalls h with
  | 0 => inl (ChunkText #"look") :: ((λ c, inl (ChunkToolCall (Some c))) <$> sampleTurn)
           ++ [inl (ChunkUsage (Some (mkUsage 10 5 0 0 0))); inl (ChunkDone StopNone)]
  | _ => [inl (ChunkText #"done"); inl (ChunkDone StopEndTurn)]
  end.

Definition sampleRunOutside (cancelled : bool) : RunOutside :=
  mkRunOutside (λ _, cancelled) (λ _ _, inl (mkOutcome false [] [] false)) (λ _, None) (λ h _, inl (sampleStream h)) (λ _ _, true)
    (λ _, []) (λ _, []) (λ _, Some []) (λ _, 0%Z) (λ _ _, 0%Z) (λ _ _ _, None) (λ _, sampleOutside) (λ _, (true, false)).

Definition sampleConfig : RunConfig :=
  mkRunConfig true false false true 2 0 0 zeroUsage [] (λ w, w) (λ w, w) (λ ms, Z.of_nat (length ms)) (λ t, t) (λ _, []).

Definition sampleIdle : Session := Eval vm_compute in sampleNew.

Definition sampleState (s : Session) (inbox : option steerInbox) : @RunState Memory unit :=
  mkRunState (sampleWorld s) inbox [] [].

Definition sampleBegin : @RunState Memory unit := sampleState sampleIdle (Some (mkInbox false noSteer false)).

Definition sampleLaunch : Launch := LaunchPrompt #"go" [].

Abbreviation sampleGo fuel := (launch (platform := samplePlatform) sampleFormat sampleEngine sampleConfig (sampleRunOutside false) fuel sampleLaunch sampleBegin).

Definition sampleEnd : Ran * @RunState Memory unit := Eval vm_compute in sampleGo 6.

Lemma sampleGo_eq : sampleGo 6 = sampleEnd.
Proof. vm_compute. reflexivity. Qed.

Lemma sampleBegin_ready : ready (platform := samplePlatform) sampleBegin.
Proof.
  split; [exact sampleNew_reachable|by left|reflexivity|right; reflexivity|reflexivity..].
Qed.



Lemma run_denied_never_runs_witness :
  #"make" ∈ callPatterns #"Shell" (rawJSON sampleFormat #"make") ∧ ¬ binds (peval samplePolicy) #"Shell" #"make" Deny denyRm.
Proof.
  assert (Hp : #"make" ∈ callPatterns #"Shell" (rawJSON sampleFormat #"make")).
  { apply (list_elem_of_lookup_2 _ 0). vm_compute. reflexivity. }
  assert (Hin : Started (sampleShell #"c" #"make") ∈ wLog (rsWorld (sampleGo 6).2)).
  { rewrite sampleGo_eq. apply (list_elem_of_lookup_2 _ 4). vm_compute. reflexivity. }
  split; [exact Hp|].
  apply (proj1 (run_denied_never_runs sampleFormat sampleEngine sampleConfig (sampleRunOutside false) 6 sampleLaunch sampleBegin
    (sampleShell #"c" #"make") sampleBegin_ready Hin) denyRm #"make"); [left|exact Hp].
Defined.


Lemma run_ends_once_witness : reachable (platform := samplePlatform) (rsSession sampleEnd.2) ∧ (finished sampleEnd.2 ∨ parked sampleEnd.2).
Proof.
  pose proof (run_ends_once (platform := samplePlatform) sampleFormat sampleEngine sampleConfig (sampleRunOutside false) 6 sampleLaunch sampleBegin sampleBegin_ready) as H.
  rewrite sampleGo_eq in H. exact (H eq_refl).
Defined.

Lemma run_terminates_witness : (sampleGo 6).1 = RunOver.
Proof.
  apply (run_terminates (platform := samplePlatform) sampleFormat sampleEngine sampleConfig (sampleRunOutside false) 6 sampleLaunch sampleBegin sampleBegin_ready);
    unfold int64; cbn; lia.
Defined.

(** A session that is idle with the retry of a failed step prepared. *)
Definition sampleRetry : Session :=
  runOps (platform := samplePlatform) sampleNew
    [ ORecordUserPrompt #"go" [] [] UserPromptProvenancePrincipal; OBeginTurn; OFail;
      ORecordFailureMetadata (mkRetry RetryDispositionRetryable StreamProgressPrecommit); OPrepareFailedStepRetry ].

(** A retry that is cancelled before its turn while a steer is parked: the session
    refuses the steer, [closeSteerDrained] ends the run as failed, and the caller
    goes on to end it again. *)
Example retry_with_steer_ends_twice :
  let parkedSteer := Some (mkInbox false (mkSteer #"wait" [] #"p") true) in
  let r := (launch (platform := samplePlatform) sampleFormat sampleEngine sampleConfig (sampleRunOutside true) 3 LaunchRetry
              (sampleState sampleRetry parkedSteer)).2 in
  retryIdle sampleRetry = true ∧ results (rsLog r) = [StopCancelled; StopError] ∧ SState (rsSession r) = StateFailed.
Proof. vm_compute. auto. Qed.
