(* ===== verification/Asks.v ===== *)
(** * Approvals

    [engine/agent/permission.go] and the approval controls of [loop.go]: the registry
    that hands a verdict to the call that waits for it, the router that carries the
    verdicts for the asks of children, and the retraction of asks nobody answers
    ([retractAsksVia], [sealWithFinal] and [emitAccepted] of [childregistry.go]).  The
    resolution of a child's ask without a person is in [Reviews].

    Each critical section is one step, and steps of different goroutines come in any
    order.  A channel is its buffer; a sender that has left the lock and has not sent
    yet is an entry of [arSending].  A send to the stream may be given up. *)

From S2P Require Import Prelude Fence Json Evaluator Shell Conversation Session Dispatch.

(** ** Resolutions *)

(** [ApprovalResolution]; the empty kind is [None]. *)
Record ApprovalResolution := mkResolution {
  resAskID : gostr; resReviewID : gostr; resKind : option GuardrailApprovalKind; resVerdict : ApprovalVerdict
}.

Inductive ApprovalError :=
  | ErrApprovalNotPending | ErrApprovalIntentMismatch | ErrApprovalUnsupported | ErrApprovalGrantIneligible | ErrApprovalNeedsReview.
#[global] Instance ApprovalError_eq_dec : EqDecision ApprovalError.
Proof. solve_decision. Defined.

Inductive AskResolution := AskResolutionNotPending | AskResolutionResolved | AskResolutionPlanOriginated | AskResolutionNotPlan.
#[global] Instance AskResolution_eq_dec : EqDecision AskResolution.
Proof. solve_decision. Defined.

#[global] Instance GuardrailApprovalKind_eq_dec : EqDecision GuardrailApprovalKind.
Proof. solve_decision. Defined.
#[global] Instance ApprovalOrigin_eq_dec : EqDecision ApprovalOrigin.
Proof. solve_decision. Defined.

Definition validateApprovalResolution (F : Format) (ask : PendingAsk) (res : ApprovalResolution) (requireAck : bool) : option ApprovalError :=
  if negb (validApprovalVerdict (resVerdict res)) then Some ErrApprovalGrantIneligible
  else match validatePendingApproval F ask with
  | Some _ => Some ErrApprovalUnsupported
  | None =>
      if negb (AskID ask =s resAskID res) then Some ErrApprovalIntentMismatch
      else match AskGuardrail ask with
      | None => if negb (resReviewID res =s []) || negb (resKind res =s None) then Some ErrApprovalIntentMismatch else None
      | Some g =>
          if (GKind g =s GuardrailApprovalResultRelease) && (resVerdict res =s VerdictAllowAlways) then Some ErrApprovalGrantIneligible
          else if requireAck || negb (resReviewID res =s []) || negb (resKind res =s None) then
            if negb (resReviewID res =s ReviewID g) || negb (resKind res =s Some (GKind g)) then Some ErrApprovalIntentMismatch else None
          else None
      end
  end.

(** ** The registry of asks *)

Record askRegistry := mkAsks {
  arPending : gmap gostr nat;
  arScopes : gmap gostr PendingAsk;
  arChans : list (list approval);
  arSending : list (nat * approval)
}.

Definition newAskRegistry : askRegistry := mkAsks ∅ ∅ [] [].

(** [registerAsk], with the channel it returns. *)
Definition registerAsk (r : askRegistry) (ask : PendingAsk) : askRegistry * nat :=
  let ch := length (arChans r) in
  (mkAsks (<[AskID ask := ch]> (arPending r)) (<[AskID ask := ask]> (arScopes r)) (arChans r ++ [[]]) (arSending r), ch).

(** The entry is removed under the lock; the send comes after it. *)
Definition consume (r : askRegistry) (askID : gostr) (ch : nat) (a : approval) : askRegistry :=
  mkAsks (delete askID (arPending r)) (delete askID (arScopes r)) (arChans r) (arSending r ++ [(ch, a)]).

Definition zeroAsk : PendingAsk := mkAsk [] [] [] [] [] None ApprovalOriginUnknown AskProvenanceUnknown.

Definition resolveOrdinary (r : askRegistry) (askID : gostr) (v : ApprovalVerdict) : askRegistry * AskResolution :=
  match arPending r !! askID with
  | None => (r, AskResolutionNotPending)
  | Some ch =>
      if negb (AskOrigin (default zeroAsk (arScopes r !! askID)) =s ApprovalOriginPermission) then (r, AskResolutionPlanOriginated)
      else (consume r askID ch (mkApproval v []), AskResolutionResolved)
  end.

Definition resolvePlan (r : askRegistry) (askID : gostr) (v : ApprovalVerdict) : askRegistry * AskResolution :=
  match arPending r !! askID with
  | None => (r, AskResolutionNotPending)
  | Some ch =>
      let ask := default zeroAsk (arScopes r !! askID) in
      if negb (AskOrigin ask =s ApprovalOriginPlan) || match AskGuardrail ask with Some _ => true | None => false end
      then (r, AskResolutionNotPlan)
      else (consume r askID ch (mkApproval v []), AskResolutionResolved)
  end.

Definition resolveChecked (r : askRegistry) (askID : gostr) (a : approval) (check : PendingAsk → option ApprovalError)
    : askRegistry * option ApprovalError :=
  match arPending r !! askID with
  | None => (r, Some ErrApprovalNotPending)
  | Some ch =>
      match check (default zeroAsk (arScopes r !! askID)) with
      | Some e => (r, Some e)
      | None => (consume r askID ch a, None)
      end
  end.

Definition resolveWith (r : askRegistry) (askID : gostr) (a : approval) : askRegistry := (resolveChecked r askID a (λ _, None)).1.

Definition discard (r : askRegistry) (askID : gostr) : askRegistry * bool :=
  match arPending r !! askID with
  | None => (r, false)
  | Some _ => (mkAsks (delete askID (arPending r)) (delete askID (arScopes r)) (arChans r) (arSending r), true)
  end.

(** The approval controls of a run without children. *)
Definition resolveApprovalOwn (F : Format) (r : askRegistry) (res : ApprovalResolution) : askRegistry * option ApprovalError :=
  resolveChecked r (resAskID res) (mkApproval (resVerdict res) []) (λ ask, validateApprovalResolution F ask res true).

Definition approveOwn (F : Format) (r : askRegistry) (askID : gostr) (v : ApprovalVerdict) : askRegistry * option ApprovalError :=
  resolveChecked r askID (mkApproval v []) (λ ask,
    match AskGuardrail ask with
    | Some (mkGuardrail _ GuardrailApprovalResultRelease _ _ _) => Some ErrApprovalNeedsReview
    | _ => validateApprovalResolution F ask (mkResolution askID [] None v) false
    end).

(** ** Steps of a registry *)

Inductive AskStep :=
  | ARegister (ask : PendingAsk)
  | AOrdinary (askID : gostr) (v : ApprovalVerdict)
  | APlan (askID : gostr) (v : ApprovalVerdict)
  | AChecked (askID : gostr) (a : approval) (check : PendingAsk → option ApprovalError)
  | ADiscard (askID : gostr)
  | ASend (i : nat)
  | AReceive (ch : nat).

Inductive AskReply :=
  | RChannel (ch : nat)
  | RResolution (o : AskResolution)
  | RError (e : option ApprovalError)
  | RDiscarded (b : bool)
  | RSent (ch : nat) (a : approval)
  | RReceived (ch : nat) (a : approval)
  | RFull
  | RIdle.

(** A send to a full buffer waits ([RFull]); a receive from an empty one, and a sender
    that does not exist, do nothing ([RIdle]).  The two outcomes of [await] are
    [AReceive] and [ADiscard]. *)
Definition askExec (r : askRegistry) (s : AskStep) : askRegistry * AskReply :=
  match s with
  | ARegister ask => let '(r, ch) := registerAsk r ask in (r, RChannel ch)
  | AOrdinary id v => let '(r, o) := resolveOrdinary r id v in (r, RResolution o)
  | APlan id v => let '(r, o) := resolvePlan r id v in (r, RResolution o)
  | AChecked id a check => let '(r, e) := resolveChecked r id a check in (r, RError e)
  | ADiscard id => let '(r, b) := discard r id in (r, RDiscarded b)
  | ASend i =>
      match arSending r !! i with
      | None => (r, RIdle)
      | Some (ch, a) =>
          match arChans r !! ch with
          | Some [] => (mkAsks (arPending r) (arScopes r) (<[ch := [a]]> (arChans r)) (delete i (arSending r)), RSent ch a)
          | _ => (r, RFull)
          end
      end
  | AReceive ch =>
      match arChans r !! ch with
      | Some (a :: rest) => (mkAsks (arPending r) (arScopes r) (<[ch := rest]> (arChans r)) (arSending r), RReceived ch a)
      | _ => (r, RIdle)
      end
  end.

Abbreviation askLog := (list (AskStep * AskReply)).

(** The log of a run of steps, in their order. *)
Fixpoint askRun (r : askRegistry) (past : askLog) (steps : list AskStep) : askRegistry * askLog :=
  match steps with
  | [] => (r, past)
  | s :: steps => let '(r, x) := askExec r s in askRun r (past ++ [(s, x)]) steps
  end.

(** ** The router of children's asks *)

Definition VerdictString (v : ApprovalVerdict) : gostr :=
  match v with VerdictAllowOnce => #"allow_once" | VerdictAllowAlways => #"allow_always" | _ => #"deny" end.

Record ApprovalPayload := mkPayload {
  payAskID : gostr; payVerdict : gostr; payTool : gostr; payAllowAlways : bool; payOrigin : ApprovalOrigin
}.

(** The events about asks on the parent's stream. *)
Inductive AskEvent := EvApproval (turn : Z) (p : ApprovalPayload) | EvPermissionRetract (askID : gostr).

Definition eventAsk (e : AskEvent) : gostr := match e with EvApproval _ p => payAskID p | EvPermissionRetract id => id end.

Record childAskRoute := mkRoute { rtChild : nat; rtTurn : Z; rtApproval : ApprovalPayload; rtSurfaced : bool }.

Record childAskRouter := mkRouter {
  byAskID : gmap gostr childAskRoute; accepted : gmap nat (list AskEvent); rtClosed : bool
}.

Definition newChildAskRouter : childAskRouter := mkRouter ∅ ∅ false.

Definition registerSurfaced (r : childAskRouter) (ask : PendingAsk) (child : nat) (turn : Z) : childAskRouter :=
  if rtClosed r then r
  else mkRouter (<[AskID ask := mkRoute child turn (mkPayload (AskID ask) [] (AskTool ask) false (AskOrigin ask)) true]> (byAskID r))
         (accepted r) (rtClosed r).

Definition recordAccepted (r : childAskRouter) (route : childAskRoute) (v : ApprovalVerdict) : childAskRouter :=
  if negb (rtSurfaced route) then r
  else
    let p := rtApproval route in
    let payload := mkPayload (payAskID p) (VerdictString v) (payTool p) (v =s VerdictAllowAlways) (payOrigin p) in
    mkRouter (byAskID r)
      (<[rtChild route := default [] (accepted r !! rtChild route) ++ [EvApproval (rtTurn route) payload]]> (accepted r)) (rtClosed r).

Definition dropRoute (r : childAskRouter) (askID : gostr) : childAskRouter :=
  mkRouter (delete askID (byAskID r)) (accepted r) (rtClosed r).

Definition takeAccepted (r : childAskRouter) (child : nat) : childAskRouter * list AskEvent :=
  (mkRouter (byAskID r) (delete child (accepted r)) (rtClosed r), default [] (accepted r !! child)).

Definition requeueAccepted (r : childAskRouter) (child : nat) (events : list AskEvent) : childAskRouter :=
  match events with
  | [] => r
  | _ => mkRouter (byAskID r) (<[child := events ++ default [] (accepted r !! child)]> (accepted r)) (rtClosed r)
  end.

Definition retractsOf (routes : gmap gostr childAskRoute) : list AskEvent :=
  omap (λ kv, if rtSurfaced kv.2 then Some (EvPermissionRetract kv.1) else None) (map_to_list routes).

(** [closeEvents]; Go's order of the two maps is arbitrary. *)
Definition closeEvents (r : childAskRouter) : childAskRouter * list AskEvent :=
  if rtClosed r then (r, [])
  else (mkRouter ∅ ∅ true, concat (map_to_list (accepted r)).*2 ++ retractsOf (byAskID r)).

Definition unregister (r : childAskRouter) (askID : gostr) : childAskRouter * bool :=
  match byAskID r !! askID with None => (r, false) | Some _ => (dropRoute r askID, true) end.

(** ** A run with children

    [prEmitting] is the holder of [emitMu] while it sends accepted verdicts; the other
    sections of that mutex wait until it is free.  A send may be given up, because the
    registry is being sealed or the run was cancelled and its consumer does not drain; the
    code forgets the event then, and [prDropped] remembers it. *)
Record ParentRun := mkParent {
  prAsks : askRegistry;
  prKids : gmap nat askRegistry;
  prRouter : childAskRouter;
  prSealed : bool;
  prEmitting : option (nat * list AskEvent);
  prStream : list AskEvent;
  prDropped : list AskEvent
}.

Definition newParentRun : ParentRun := mkParent newAskRegistry ∅ newChildAskRouter false None [] [].

Definition kid (p : ParentRun) (child : nat) : askRegistry := default newAskRegistry (prKids p !! child).

Definition setAsks (v : askRegistry) (p : ParentRun) : ParentRun :=
  mkParent v (prKids p) (prRouter p) (prSealed p) (prEmitting p) (prStream p) (prDropped p).
Definition setKid (child : nat) (v : askRegistry) (p : ParentRun) : ParentRun :=
  mkParent (prAsks p) (<[child := v]> (prKids p)) (prRouter p) (prSealed p) (prEmitting p) (prStream p) (prDropped p).
Definition setRouter (v : childAskRouter) (p : ParentRun) : ParentRun :=
  mkParent (prAsks p) (prKids p) v (prSealed p) (prEmitting p) (prStream p) (prDropped p).
Definition setEmitting (v : option (nat * list AskEvent)) (p : ParentRun) : ParentRun :=
  mkParent (prAsks p) (prKids p) (prRouter p) (prSealed p) v (prStream p) (prDropped p).
(** The events go out, but for those whose send is given up. *)
Definition sendEvents (sent : AskEvent → bool) (es : list AskEvent) (p : ParentRun) : ParentRun :=
  mkParent (prAsks p) (prKids p) (prRouter p) (prSealed p) (prEmitting p)
    (prStream p ++ filter (λ e, sent e = true) es) (prDropped p ++ filter (λ e, sent e = false) es).
Definition pushEvents (es : list AskEvent) (p : ParentRun) : ParentRun :=
  mkParent (prAsks p) (prKids p) (prRouter p) (prSealed p) (prEmitting p) (prStream p ++ es) (prDropped p).

(** The child of a route has taken the verdict. *)
Definition routeAccepted (p : ParentRun) (askID : gostr) (route : childAskRoute) (reg : askRegistry) (v : ApprovalVerdict) : ParentRun :=
  setKid (rtChild route) reg (setRouter (recordAccepted (dropRoute (prRouter p) askID) route v) p).

(** [routeResolution]; [None] when no child owns the ask.  A child has no router of its
    own, and its [ResolveApproval] is [resolveApprovalOwn]. *)
Definition routeResolution (F : Format) (p : ParentRun) (res : ApprovalResolution) : option (ParentRun * option ApprovalError) :=
  match byAskID (prRouter p) !! resAskID res with
  | None => None
  | Some route =>
      match resolveApprovalOwn F (kid p (rtChild route)) res with
      | (_, Some e) => Some (p, Some e)
      | (reg, None) => Some (routeAccepted p (resAskID res) route reg (resVerdict res), None)
      end
  end.

(** [Run.ResolveApproval] *)
Definition ResolveApproval (F : Format) (p : ParentRun) (res : ApprovalResolution) : ParentRun * option ApprovalError :=
  if negb (validApprovalVerdict (resVerdict res)) then (p, Some ErrApprovalGrantIneligible)
  else if resAskID res =s [] then (p, Some ErrApprovalNotPending)
  else match routeResolution F p res with
  | Some r => r
  | None => let '(r, e) := resolveApprovalOwn F (prAsks p) res in (setAsks r p, e)
  end.

(** [Run.Approve] *)
Definition Approve (F : Format) (p : ParentRun) (askID : gostr) (v : ApprovalVerdict) : ParentRun * option ApprovalError :=
  if negb (validApprovalVerdict v) then (p, Some ErrApprovalGrantIneligible)
  else if askID =s [] then (p, Some ErrApprovalNotPending)
  else match routeResolution F p (mkResolution askID [] None v) with
  | Some r => r
  | None => let '(r, e) := approveOwn F (prAsks p) askID v in (setAsks r p, e)
  end.

(** [Run.ResolveOrdinaryAsk], with [resolveOrdinary] of the router. *)
Definition ResolveOrdinaryAsk (p : ParentRun) (askID : gostr) (v : ApprovalVerdict) : ParentRun * AskResolution :=
  match byAskID (prRouter p) !! askID with
  | Some route =>
      match resolveOrdinary (kid p (rtChild route)) askID v with
      | (reg, AskResolutionResolved) => (routeAccepted p askID route reg v, AskResolutionResolved)
      | (_, o) => (p, o)
      end
  | None => let '(r, o) := resolveOrdinary (prAsks p) askID v in (setAsks r p, o)
  end.

(** [Run.ResolvePlanAsk] *)
Definition ResolvePlanAsk (p : ParentRun) (askID : gostr) (v : ApprovalVerdict) : ParentRun * AskResolution :=
  let '(r, o) := resolvePlan (prAsks p) askID v in (setAsks r p, o).

(** [Run.RetractPermissionAsk] *)
Definition RetractPermissionAsk (p : ParentRun) (askID : gostr) (delivered : bool) : ParentRun * bool :=
  match discard (prAsks p) askID with
  | (_, false) => (p, false)
  | (r, true) => (sendEvents (λ _, delivered) [EvPermissionRetract askID] (setAsks r p), true)
  end.

(** One round of [retractAsksVia]: the gate is consumed only when the event is sent, but
    the send may then be given up. *)
Definition retractAsk (p : ParentRun) (askID : gostr) (delivered : bool) : ParentRun :=
  if prSealed p then p
  else match unregister (prRouter p) askID with
  | (_, false) => p
  | (r, true) => sendEvents (λ _, delivered) [EvPermissionRetract askID] (setRouter r p)
  end.

(** The start of [emitAccepted]. *)
Definition emitTake (p : ParentRun) (child : nat) : ParentRun :=
  if prSealed p then p
  else let '(r, queued) := takeAccepted (prRouter p) child in
  match queued with [] => setRouter r p | _ => setEmitting (Some (child, queued)) (setRouter r p) end.

(** One send of [emitAccepted], delivered or aborted; the mutex is free after the last
    one and after an abort. *)
Definition emitSend (p : ParentRun) (delivered : bool) : ParentRun :=
  match prEmitting p with
  | None => p
  | Some (child, queued) =>
      if negb delivered then setEmitting None (setRouter (requeueAccepted (prRouter p) child queued) p)
      else match queued with
      | [] => setEmitting None p
      | [e] => setEmitting None (pushEvents [e] p)
      | e :: rest => setEmitting (Some (child, rest)) (pushEvents [e] p)
      end
  end.

(** [sealWithFinal] with the loop that emits what it returns. *)
Definition sealWithFinal (p : ParentRun) (sent : AskEvent → bool) : ParentRun :=
  if prSealed p then p
  else let '(r, events) := closeEvents (prRouter p) in
  sendEvents sent events (mkParent (prAsks p) (prKids p) r true (prEmitting p) (prStream p) (prDropped p)).

Inductive RunStep :=
  | POwn (s : AskStep)
  | PChild (child : nat) (s : AskStep)
  | PSurface (ask : PendingAsk) (child : nat) (turn : Z)
  | PResolve (res : ApprovalResolution)
  | PApprove (askID : gostr) (v : ApprovalVerdict)
  | POrdinary (askID : gostr) (v : ApprovalVerdict)
  | PPlan (askID : gostr) (v : ApprovalVerdict)
  | PRetractOwn (askID : gostr) (delivered : bool)
  | PRetract (askID : gostr) (delivered : bool)
  | PTake (child : nat)
  | PSend (delivered : bool)
  | PSeal (sent : AskEvent → bool).

(** The second component is the verdict that the step had accepted, with its ask. *)
Definition runExec (F : Format) (p : ParentRun) (s : RunStep) : ParentRun * option (gostr * ApprovalVerdict) :=
  match s with
  | POwn s => (setAsks (askExec (prAsks p) s).1 p, None)
  | PChild child s => (setKid child (askExec (kid p child) s).1 p, None)
  | PSurface ask child turn => (setRouter (registerSurfaced (prRouter p) ask child turn) p, None)
  | PResolve res => let '(p, e) := ResolveApproval F p res in
      (p, match e with None => Some (resAskID res, resVerdict res) | Some _ => None end)
  | PApprove id v => let '(p, e) := Approve F p id v in (p, match e with None => Some (id, v) | Some _ => None end)
  | POrdinary id v => let '(p, o) := ResolveOrdinaryAsk p id v in (p, if o =s AskResolutionResolved then Some (id, v) else None)
  | PPlan id v => let '(p, o) := ResolvePlanAsk p id v in (p, if o =s AskResolutionResolved then Some (id, v) else None)
  | PRetractOwn id d => ((RetractPermissionAsk p id d).1, None)
  | PRetract id d => (match prEmitting p with Some _ => p | None => retractAsk p id d end, None)
  | PTake child => (match prEmitting p with Some _ => p | None => emitTake p child end, None)
  | PSend delivered => (emitSend p delivered, None)
  | PSeal sent => (match prEmitting p with Some _ => p | None => sealWithFinal p sent end, None)
  end.

Fixpoint runSteps (F : Format) (p : ParentRun) (steps : list RunStep) : ParentRun * list (gostr * ApprovalVerdict) :=
  match steps with
  | [] => (p, [])
  | s :: steps =>
      let '(p, a) := runExec F p s in
      let '(p, l) := runSteps F p steps in (p, match a with Some x => x :: l | None => l end)
  end.

(** ** What the registry guarantees *)

(** The verdict [a] of the step [s] is one for [ask]: the ask has the origin the
    control is for, or passed the control's check. *)
Definition verdictFor (s : AskStep) (ask : PendingAsk) (a : approval) : Prop :=
  match s with
  | AOrdinary id v => id = AskID ask ∧ a = mkApproval v [] ∧ AskOrigin ask = ApprovalOriginPermission
  | APlan id v => id = AskID ask ∧ a = mkApproval v [] ∧ AskOrigin ask = ApprovalOriginPlan ∧ AskGuardrail ask = None
  | AChecked id a' check => id = AskID ask ∧ a = a' ∧ check ask = None
  | _ => False
  end.

Definition acceptedReply (x : AskReply) : bool :=
  match x with RResolution AskResolutionResolved | RError None => true | _ => false end.

Definition acceptedIn (l : askLog) : list AskStep := (filter (λ e, acceptedReply e.2 = true) l).*1.

Definition sentOn (l : askLog) : list nat := omap (λ e, match e.2 with RSent ch _ => Some ch | _ => None end) l.

(** [ch] was made for [ask], and the verdict [a] was accepted for it. *)
Definition madeFor (l : askLog) (ch : nat) (ask : PendingAsk) : Prop := (ARegister ask, RChannel ch) ∈ l.

Definition vouched (l : askLog) (ch : nat) (a : approval) : Prop :=
  ∃ ask s x, madeFor l ch ask ∧ (s, x) ∈ l ∧ acceptedReply x = true ∧ verdictFor s ask a.

(** Channels in [arPending] and in [arSending] are empty, distinct and not yet sent on. *)
Record asksOk (r : askRegistry) (l : askLog) : Prop := {
  ao_scope id ch : arPending r !! id = Some ch → ∃ ask, arScopes r !! id = Some ask ∧ AskID ask = id ∧ madeFor l ch ask;
  ao_fresh id ch : arPending r !! id = Some ch → arChans r !! ch = Some [] ∧ ch ∉ (arSending r).*1 ∧ ch ∉ sentOn l;
  ao_inj id id' ch : arPending r !! id = Some ch → arPending r !! id' = Some ch → id = id';
  ao_sending ch a : (ch, a) ∈ arSending r → arChans r !! ch = Some [] ∧ ch ∉ sentOn l ∧ vouched l ch a;
  ao_senders : NoDup (arSending r).*1;
  ao_sent : NoDup (sentOn l) ∧ ∀ ch, ch ∈ sentOn l → ch < length (arChans r);
  ao_buffer ch b a : arChans r !! ch = Some b → a ∈ b → vouched l ch a;
  ao_full : ∀ s, (s, RFull) ∉ l;
  ao_received s ch a : (s, RReceived ch a) ∈ l → vouched l ch a;
  ao_count : length (acceptedIn l) = length (sentOn l) + length (arSending r)
}.

Lemma vouched_mono l l' ch a : l `sublist_of` l' → vouched l ch a → vouched l' ch a.
Proof.
  intros Hs (ask & s & x & H1 & H2 & H3 & H4). exists ask, s, x. split_and!; [| |done|done]; by eapply elem_of_sublist.
Qed.

Lemma acceptedIn_snoc l s x : length (acceptedIn (l ++ [(s, x)])) = length (acceptedIn l) + if acceptedReply x then 1 else 0.
Proof.
  unfold acceptedIn. rewrite filter_app, fmap_app, length_app. f_equal. rewrite filter_cons. simpl.
  destruct (acceptedReply x); [by rewrite decide_True by done|by rewrite decide_False by done].
Qed.

Lemma sentOn_snoc l s x : sentOn (l ++ [(s, x)]) = sentOn l ++ match x with RSent ch _ => [ch] | _ => [] end.
Proof. unfold sentOn. rewrite omap_app. by destruct x. Qed.

(** A step that changes nothing and accepts nothing. *)
Lemma asksOk_idle r l s x :
  asksOk r l → acceptedReply x = false → (∀ ch a, x ≠ RSent ch a) → x ≠ RFull → (∀ ch a, x ≠ RReceived ch a) → asksOk r (l ++ [(s, x)]).
Proof.
  intros [H1 H2 H3 H4 H5 H6 H7 H8 H9 H10] Ha Hs Hf Hr.
  assert (Hn : sentOn (l ++ [(s, x)]) = sentOn l). { rewrite sentOn_snoc. destruct x; try by rewrite app_nil_r. by destruct (Hs ch a). }
  assert (Hm : l `sublist_of` l ++ [(s, x)]) by (by apply sublist_inserts_r).
  split; rewrite ?Hn; try done.
  - intros id ch Hp. destruct (H1 id ch Hp) as (ask & ? & ? & ?). exists ask. split_and!; [done|done|]. by eapply elem_of_sublist.
  - intros ch a Hin. destruct (H4 ch a Hin) as (? & ? & ?). split_and!; [done|done|]. by eapply vouched_mono.
  - intros ch b a Hb Hin. eapply vouched_mono; [done|by eapply H7].
  - intros s'. rewrite elem_of_app, list_elem_of_singleton. intros [?|[= <- <-]]; [by eapply H8|done].
  - intros s' ch a. rewrite elem_of_app, list_elem_of_singleton. intros [Hin|[= <- <-]]; [|by destruct (Hr ch a)].
    eapply vouched_mono; [done|by eapply H9].
  - rewrite acceptedIn_snoc, Ha. lia.
Qed.

Lemma asksOk_consume r l s x id ch a ask :
  asksOk r l → arPending r !! id = Some ch → arScopes r !! id = Some ask → verdictFor s ask a → acceptedReply x = true →
  asksOk (consume r id ch a) (l ++ [(s, x)]).
Proof.
  intros [H1 H2 H3 H4 H5 H6 H7 H8 H9 H10] Hp Hsc Hv Ha. destruct (H2 id ch Hp) as (F1 & F2 & F3).
  destruct (H1 id ch Hp) as (ask' & Hsc' & Hid & Hmade). assert (ask' = ask) as -> by congruence.
  assert (Hn : sentOn (l ++ [(s, x)]) = sentOn l). { rewrite sentOn_snoc. destruct x; try by rewrite app_nil_r. done. }
  assert (Hm : l `sublist_of` l ++ [(s, x)]) by (by apply sublist_inserts_r).
  assert (Hvo : vouched (l ++ [(s, x)]) ch a).
  { exists ask, s, x. split_and!; [by eapply elem_of_sublist|set_solver|done|done]. }
  split; rewrite ?Hn; unfold consume; cbn [arPending arScopes arChans arSending]; try done.
  - intros id' ch'. rewrite lookup_delete_Some. intros [Hne Hp']. destruct (H1 id' ch' Hp') as (ask' & ? & ? & ?). exists ask'.
    rewrite lookup_delete_ne by done. split_and!; [done|done|]. by eapply elem_of_sublist.
  - intros id' ch'. rewrite lookup_delete_Some. intros [Hne Hp']. destruct (H2 id' ch' Hp') as (G1 & G2 & G3). split_and!; [done| |done].
    rewrite fmap_app, elem_of_app. cbn. rewrite list_elem_of_singleton. intros [?| ->]; [done|]. by apply Hne, (H3 id id' ch).
  - intros id1 id2 ch'. rewrite !lookup_delete_Some. intros [_ ?] [_ ?]. by eapply H3.
  - intros ch' a'. rewrite elem_of_app, list_elem_of_singleton. intros [Hin|[= -> ->]]; [|done].
    destruct (H4 ch' a' Hin) as (? & ? & ?). split_and!; [done|done|]. by eapply vouched_mono.
  - rewrite fmap_app. apply NoDup_app. cbn. split_and!; [done| |apply NoDup_singleton].
    intros c Hc ->%list_elem_of_singleton. done.
  - intros c b a' Hb Hin. eapply vouched_mono; [done|by eapply H7].
  - intros s'. rewrite elem_of_app, list_elem_of_singleton. intros [?|[= <- <-]]; [by eapply H8|done].
  - intros s' c a'. rewrite elem_of_app, list_elem_of_singleton. intros [Hin|[= <- <-]]; [|done].
    eapply vouched_mono; [done|by eapply H9].
  - rewrite acceptedIn_snoc, Ha, length_app. cbn. lia.
Qed.

(** What every entry of a log was stays so when the log grows. *)
Lemma asksOk_log r l s x :
  asksOk r l → acceptedReply x = false → x ≠ RFull → (∀ ch a, x ≠ RReceived ch a) →
  (∀ s', (s', RFull) ∉ l ++ [(s, x)]) ∧ (∀ s' ch a, (s', RReceived ch a) ∈ l ++ [(s, x)] → vouched (l ++ [(s, x)]) ch a) ∧
  length (acceptedIn (l ++ [(s, x)])) = length (acceptedIn l) ∧ l `sublist_of` l ++ [(s, x)].
Proof.
  intros Hok Ha Hf Hr. split_and!; [| | |by apply sublist_inserts_r].
  - intros s'. rewrite elem_of_app, list_elem_of_singleton. intros [?|[= <- <-]]; [by eapply ao_full|done].
  - intros s' ch a. rewrite elem_of_app, list_elem_of_singleton. intros [Hin|[= <- <-]]; [|by destruct (Hr ch a)].
    eapply vouched_mono; [by apply sublist_inserts_r|by eapply ao_received].
  - rewrite acceptedIn_snoc, Ha. lia.
Qed.

Lemma asksOk_register r l ask :
  asksOk r l → asksOk (registerAsk r ask).1 (l ++ [(ARegister ask, RChannel (registerAsk r ask).2)]).
Proof.
  intros Hok. pose proof Hok as [H1 H2 H3 H4 H5 H6 H7 H8 H9 H10]. cbn. set (ch := length (arChans r)).
  destruct (asksOk_log r l (ARegister ask) (RChannel ch) Hok) as (L1 & L2 & L3 & Hm); [done..|].
  assert (Hn : sentOn (l ++ [(ARegister ask, RChannel ch)]) = sentOn l) by (by rewrite sentOn_snoc, app_nil_r).
  assert (Hsub : ∀ c b, arChans r !! c = Some b → (arChans r ++ [[]]) !! c = Some b) by (intros; by apply lookup_app_l_Some).
  assert (Hnew : ∀ c, arChans r !! c = Some [] → c ≠ ch). { intros c Hc ->. apply lookup_lt_Some in Hc. unfold ch in Hc. lia. }
  split; cbn [arPending arScopes arChans arSending]; rewrite ?Hn; try done.
  - intros id c. rewrite lookup_insert_Some. intros [[<- <-]|[Hne Hp]].
    + exists ask. rewrite lookup_insert_eq. split_and!; [done|done|]. unfold madeFor. set_solver.
    + destruct (H1 id c Hp) as (a & ? & ? & ?). exists a. rewrite lookup_insert_ne by done. split_and!; [done|done|by eapply elem_of_sublist].
  - intros id c. rewrite lookup_insert_Some. intros [[<- <-]|[Hne Hp]].
    + split_and!; [by rewrite lookup_app_r, Nat.sub_diag by lia| |].
      * intros ([c a] & -> & Hin)%list_elem_of_fmap. destruct (H4 c a Hin) as (G & _). by apply (Hnew c).
      * intros Hin. apply H6 in Hin. unfold ch in Hin. lia.
    + destruct (H2 id c Hp) as (G1 & G2 & G3). split_and!; [by apply Hsub|done|done].
  - intros id id' c. rewrite !lookup_insert_Some. intros [[<- <-]|[Hne Hp]] [[<- Hc]|[Hne' Hp']]; [done| | |by eapply H3].
    + destruct (H2 id' ch Hp') as (G & _). by destruct (Hnew ch G).
    + subst c. destruct (H2 id ch Hp) as (G & _). by destruct (Hnew ch G).
  - intros c a Hin. destruct (H4 c a Hin) as (? & ? & ?). split_and!; [by apply Hsub|done|by eapply vouched_mono].
  - split; [apply H6|]. intros c Hc. rewrite length_app. apply H6 in Hc. lia.
  - intros c b a. rewrite lookup_app_Some. intros [Hb|[_ Hb]] Hin; [eapply vouched_mono; [done|by eapply H7]|].
    apply list_lookup_singleton_Some in Hb as [_ <-]. by apply elem_of_nil in Hin.
  - rewrite L3. apply H10.
Qed.

Lemma asksOk_discard r l id b :
  asksOk r l → asksOk (discard r id).1 (l ++ [(ADiscard id, RDiscarded b)]).
Proof.
  intros Hok. unfold discard. destruct (arPending r !! id); [|by apply asksOk_idle].
  apply (asksOk_idle _ l (ADiscard id) (RDiscarded b)); [|done..]. destruct Hok as [H1 H2 H3 H4 H5 H6 H7 H8 H9 H10].
  split; cbn [fst arPending arScopes arChans arSending]; try done.
  - intros id' ch. rewrite lookup_delete_Some. intros [Hne Hp]. rewrite lookup_delete_ne by done. by apply H1.
  - intros id' ch. rewrite lookup_delete_Some. intros [Hne Hp]. by eapply H2.
  - intros id1 id2 ch. rewrite !lookup_delete_Some. intros [_ ?] [_ ?]. by eapply H3.
Qed.

Lemma delete_fst_NoDup (l : list (nat * approval)) i ch a :
  NoDup l.*1 → l !! i = Some (ch, a) → NoDup (delete i l).*1 ∧ ch ∉ (delete i l).*1.
Proof.
  intros Hn Hi. rewrite <-(take_drop_middle l i (ch, a) Hi), fmap_app, fmap_cons in Hn. cbn in Hn.
  rewrite delete_take_drop, fmap_app. apply NoDup_app in Hn as (N1 & N2 & N3). apply NoDup_cons in N3 as [N3 N4].
  split; [apply NoDup_app; split_and!; [done|set_solver|done]|]. rewrite elem_of_app. intros [?|?]; [by apply (N2 ch); [|left]|done].
Qed.

Lemma asksOk_send r l i ch a :
  asksOk r l → arSending r !! i = Some (ch, a) →
  asksOk (mkAsks (arPending r) (arScopes r) (<[ch := [a]]> (arChans r)) (delete i (arSending r))) (l ++ [(ASend i, RSent ch a)]).
Proof.
  intros Hok Hi. pose proof Hok as [H1 H2 H3 H4 H5 H6 H7 H8 H9 H10].
  destruct (asksOk_log r l (ASend i) (RSent ch a) Hok) as (L1 & L2 & L3 & Hm); [done..|].
  assert (Hin : (ch, a) ∈ arSending r) by (by eapply list_elem_of_lookup_2). destruct (H4 ch a Hin) as (S1 & S2 & S3).
  destruct (delete_fst_NoDup _ _ _ _ H5 Hi) as [D1 D2].
  assert (Hn : sentOn (l ++ [(ASend i, RSent ch a)]) = sentOn l ++ [ch]) by apply sentOn_snoc.
  assert (Hlt : ch < length (arChans r)) by (by eapply lookup_lt_Some).
  assert (Hdel : ∀ x, x ∈ delete i (arSending r) → x ∈ arSending r) by (intros x Hx; eapply elem_of_sublist; [done|apply sublist_delete]).
  split; cbn [arPending arScopes arChans arSending]; rewrite ?Hn; try done.
  - intros id c Hp. destruct (H1 id c Hp) as (k & ? & ? & ?). exists k. split_and!; [done|done|by eapply elem_of_sublist].
  - intros id c Hp. destruct (H2 id c Hp) as (G1 & G2 & G3). assert (c ≠ ch). { intros ->. apply G2. by apply (list_elem_of_fmap_2 fst _ (ch, a)). }
    rewrite list_lookup_insert_ne by done. split_and!; [done| |set_solver].
    intros ([c' a'] & -> & Hx)%list_elem_of_fmap. apply G2. apply (list_elem_of_fmap_2 fst _ (c', a')). by apply Hdel.
  - intros c a' Hx. assert (c ≠ ch). { intros ->. apply D2. by apply (list_elem_of_fmap_2 fst _ (ch, a')). }
    destruct (H4 c a' (Hdel _ Hx)) as (? & ? & ?). rewrite list_lookup_insert_ne by done. split_and!; [done|set_solver|by eapply vouched_mono].
  - rewrite length_insert. split.
    + apply NoDup_app. split_and!; [apply H6| |apply NoDup_singleton]. intros c Hc ->%list_elem_of_singleton. done.
    + intros c. rewrite elem_of_app, list_elem_of_singleton. intros [Hc| ->]; [by apply H6|done].
  - intros c b a'. destruct (decide (c = ch)) as [-> |Hne].
    + rewrite list_lookup_insert_eq by done. intros [= <-] ->%list_elem_of_singleton. by eapply vouched_mono.
    + rewrite list_lookup_insert_ne by done. intros Hb Hx. eapply vouched_mono; [done|by eapply H7].
  - rewrite L3, H10, length_app, length_delete by (by eexists). cbn. apply lookup_lt_Some in Hi. lia.
Qed.

Lemma asksOk_receive r l ch a rest :
  asksOk r l → arChans r !! ch = Some (a :: rest) →
  asksOk (mkAsks (arPending r) (arScopes r) (<[ch := rest]> (arChans r)) (arSending r)) (l ++ [(AReceive ch, RReceived ch a)]).
Proof.
  intros Hok Hc. pose proof Hok as [H1 H2 H3 H4 H5 H6 H7 H8 H9 H10].
  assert (Hm : l `sublist_of` l ++ [(AReceive ch, RReceived ch a)]) by (by apply sublist_inserts_r).
  assert (Hn : sentOn (l ++ [(AReceive ch, RReceived ch a)]) = sentOn l) by (by rewrite sentOn_snoc, app_nil_r).
  assert (Hlt : ch < length (arChans r)) by (by eapply lookup_lt_Some).
  split; cbn [arPending arScopes arChans arSending]; rewrite ?Hn; try done.
  - intros id c Hp. destruct (H1 id c Hp) as (k & ? & ? & ?). exists k. split_and!; [done|done|by eapply elem_of_sublist].
  - intros id c Hp. destruct (H2 id c Hp) as (G1 & G2 & G3). rewrite list_lookup_insert_ne by congruence. by split_and!.
  - intros c a' Hx. destruct (H4 c a' Hx) as (G1 & G2 & G3). rewrite list_lookup_insert_ne by congruence.
    split_and!; [done|done|by eapply vouched_mono].
  - rewrite length_insert. apply H6.
  - intros c b a'. destruct (decide (c = ch)) as [-> |Hne].
    + rewrite list_lookup_insert_eq by done. intros [= <-] Hx. eapply vouched_mono; [done|]. eapply H7; [done|by right].
    + rewrite list_lookup_insert_ne by done. intros Hb Hx. eapply vouched_mono; [done|by eapply H7].
  - intros s'. rewrite elem_of_app, list_elem_of_singleton. intros [?|[= ]]; by eapply H8.
  - intros s' c a'. rewrite elem_of_app, list_elem_of_singleton. intros [Hx|[= -> -> ->]]; (eapply vouched_mono; [done|]).
    + by eapply H9.
    + eapply H7; [done|by left].
  - rewrite acceptedIn_snoc. cbn. lia.
Qed.

Lemma asksOk_exec r l s : asksOk r l → asksOk (askExec r s).1 (l ++ [(s, (askExec r s).2)]).
Proof.
  intros Hok. destruct s as [ask|id v|id v|id a check|id|i|ch]; cbn [askExec].
  - exact (asksOk_register r l ask Hok).
  - unfold resolveOrdinary. destruct (arPending r !! id) as [ch|] eqn:Hp; [|by apply asksOk_idle].
    destruct (ao_scope _ _ Hok id ch Hp) as (ask & Hs & Hid & _). rewrite Hs. change (default zeroAsk (Some ask)) with ask.
    case_bool; [by apply asksOk_idle|]. apply negb_false_iff in E. bprop. by eapply asksOk_consume.
  - unfold resolvePlan. destruct (arPending r !! id) as [ch|] eqn:Hp; [|by apply asksOk_idle].
    destruct (ao_scope _ _ Hok id ch Hp) as (ask & Hs & Hid & _). rewrite Hs. change (default zeroAsk (Some ask)) with ask.
    case_bool; [by apply asksOk_idle|]. apply orb_false_iff in E as [E1 E2]. apply negb_false_iff in E1.
    apply bool_decide_eq_true in E1. destruct (AskGuardrail ask) eqn:Hg; [done|]. by eapply asksOk_consume.
  - unfold resolveChecked. destruct (arPending r !! id) as [ch|] eqn:Hp; [|by apply asksOk_idle].
    destruct (ao_scope _ _ Hok id ch Hp) as (ask & Hs & Hid & _). rewrite Hs. change (default zeroAsk (Some ask)) with ask.
    destruct (check ask) eqn:Hc; [by apply asksOk_idle|]. by eapply asksOk_consume.
  - destruct (discard r id) as [r' b] eqn:Ed. pose proof (asksOk_discard r l id b Hok) as H. by rewrite Ed in H.
  - destruct (arSending r !! i) as [[ch a]|] eqn:Hi; [|by apply asksOk_idle].
    destruct (ao_sending _ _ Hok ch a) as (Hc & _); [by eapply list_elem_of_lookup_2|]. rewrite Hc. by apply asksOk_send.
  - destruct (arChans r !! ch) as [[|a rest]|] eqn:Hc; [by apply asksOk_idle| |by apply asksOk_idle]. by apply asksOk_receive.
Qed.

Lemma asksOk_run r l steps : asksOk r l → asksOk (askRun r l steps).1 (askRun r l steps).2.
Proof.
  revert r l. induction steps as [|s steps IH]; intros r l Hok; [done|]. cbn [askRun].
  pose proof (asksOk_exec r l s Hok) as H. destruct (askExec r s) as [r' x]. by apply IH.
Qed.

Lemma asksOk_new : asksOk newAskRegistry [].
Proof.
  split; try done; try set_solver.
  - apply NoDup_nil_2.
  - split; [apply NoDup_nil_2|set_solver].
Qed.

(** C9. An ask is answered once, and with a verdict given for it.  However the calls of
    the loop, of the clients and of cancellations interleave: no sender of a verdict
    ever waits; no channel gets two verdicts; every accepted verdict is sent or about to
    be; and whoever waits for an ask receives only a verdict that a control accepted for
    that very ask, after the origin or the scope of the ask had been checked. *)
Theorem approvals_delivered_once steps :
  let '(r, l) := askRun newAskRegistry [] steps in
  (∀ s, (s, RFull) ∉ l) ∧ NoDup (sentOn l) ∧ length (acceptedIn l) = length (sentOn l) + length (arSending r) ∧
  ∀ s ch a, (s, RReceived ch a) ∈ l → vouched l ch a.
Proof.
  pose proof (asksOk_run newAskRegistry [] steps asksOk_new) as Hok. destruct (askRun newAskRegistry [] steps) as [r l].
  split_and!; [apply Hok|apply Hok|apply Hok|]. intros s ch a. apply Hok.
Qed.

(** ** Exact intent *)

(** A resolution is for an ask: the id, the review and the kind are those of the ask. *)
Definition exactFor (ask : PendingAsk) (res : ApprovalResolution) : Prop :=
  AskID ask = resAskID res ∧ validApprovalVerdict (resVerdict res) = true ∧
  match AskGuardrail ask with
  | None => resReviewID res = [] ∧ resKind res = None ∧ (AskOrigin ask = ApprovalOriginPermission ∨ AskOrigin ask = ApprovalOriginPlan)
  | Some g =>
      AskOrigin ask = ApprovalOriginHookGuardrail ∧ resReviewID res = ReviewID g ∧ resKind res = Some (GKind g) ∧
      (GKind g = GuardrailApprovalResultRelease → resVerdict res ≠ VerdictAllowAlways)
  end.

Lemma validate_exact F ask res : validateApprovalResolution F ask res true = None → exactFor ask res.
Proof.
  unfold validateApprovalResolution, validatePendingApproval, exactFor. case_bool; [done|]. apply negb_false_iff in E.
  destruct (AskOrigin ask) eqn:Eo, (AskGuardrail ask) as [g|] eqn:Eg; try done; case_bool; try done; bprop.
  - case_bool; [done|]. intros _. bprop. split_and!; auto.
  - case_bool; [done|]. cbn. case_bool; [done|]. intros _. bprop. split_and!; try done.
    intros Hk Hv. rewrite Hk, Hv in E1. by rewrite !bool_decide_true in E1.
  - case_bool; [done|]. intros _. bprop. split_and!; auto.
Qed.

(** The registry that would take a verdict for an ask, as [ResolveApproval] looks it up. *)
Definition ownerOf (p : ParentRun) (askID : gostr) : askRegistry :=
  match byAskID (prRouter p) !! askID with Some route => kid p (rtChild route) | None => prAsks p end.

Lemma resolveOwn_cases F r res :
  match resolveApprovalOwn F r res with
  | (r', Some _) => r' = r
  | (r', None) => ∃ ch, arPending r !! resAskID res = Some ch ∧ exactFor (default zeroAsk (arScopes r !! resAskID res)) res ∧
      r' = consume r (resAskID res) ch (mkApproval (resVerdict res) [])
  end.
Proof.
  unfold resolveApprovalOwn, resolveChecked. destruct (arPending r !! resAskID res) as [ch|]; [|done].
  destruct (validateApprovalResolution _ _ _ _) eqn:Ev; [done|]. exists ch. split_and!; [done|by eapply validate_exact|done].
Qed.

(** The registry has handed the verdict [a] to the waiter of [askID], on the channel [ch],
    and has forgotten this ask; nothing else of it has changed. *)
Record handsOver (r r' : askRegistry) (askID : gostr) (ch : nat) (a : approval) : Prop := {
  hv_pending : arPending r' = delete askID (arPending r);
  hv_scopes : arScopes r' = delete askID (arScopes r);
  hv_chans : arChans r' = arChans r;
  hv_sending : arSending r' = arSending r ++ [(ch, a)]
}.

(** C10. A verdict counts only for the ask it names.  [ResolveApproval] succeeds only
    when the ask is pending where it is owned (in the child it was routed from, or in
    the run itself), the resolution carries its exact id, review and kind, and the verdict
    is one the ask can be given (a held result is never released for good).  Then exactly
    that ask is consumed: its owner hands this verdict to the channel the ask waits on and
    forgets the ask, every other ask of the owner stays pending, the registries of the
    others and the other routes stay as they are, and nothing is sent on the stream.  A
    refused resolution changes nothing. *)
Theorem approval_exact_intent F p res :
  let id := resAskID res in
  match ResolveApproval F p res with
  | (p', Some _) => p' = p
  | (p', None) =>
      prStream p' = prStream p ∧ prEmitting p' = prEmitting p ∧
      ∃ ch, arPending (ownerOf p id) !! id = Some ch ∧ exactFor (default zeroAsk (arScopes (ownerOf p id) !! id)) res ∧
      match byAskID (prRouter p) !! id with
      | Some route =>
          handsOver (kid p (rtChild route)) (kid p' (rtChild route)) id ch (mkApproval (resVerdict res) []) ∧ prAsks p' = prAsks p ∧
          (∀ c, c ≠ rtChild route → kid p' c = kid p c ∧ accepted (prRouter p') !! c = accepted (prRouter p) !! c) ∧
          byAskID (prRouter p') = delete id (byAskID (prRouter p))
      | None =>
          handsOver (prAsks p) (prAsks p') id ch (mkApproval (resVerdict res) []) ∧ prKids p' = prKids p ∧ prRouter p' = prRouter p
      end
  end.
Proof.
  cbv zeta. unfold ResolveApproval, ownerOf. case_bool; [done|]. case_bool; [done|]. unfold routeResolution.
  destruct (byAskID (prRouter p) !! resAskID res) as [route|] eqn:Er.
  - pose proof (resolveOwn_cases F (kid p (rtChild route)) res) as H. destruct (resolveApprovalOwn F _ res) as [reg [e|]]; [done|].
    destruct H as (ch & Hp & Hx & ->). split_and!; [done|done|]. exists ch. unfold routeAccepted, recordAccepted. split_and!; [done|done| |done| |].
    + unfold kid. cbn. by rewrite lookup_insert_eq.
    + intros c Hc. unfold kid. cbn. rewrite lookup_insert_ne by done. split; [done|]. destruct (rtSurfaced route); [|done]. cbn. by rewrite lookup_insert_ne.
    + by destruct (rtSurfaced route).
  - pose proof (resolveOwn_cases F (prAsks p) res) as H. destruct (resolveApprovalOwn F (prAsks p) res) as [reg [e|]].
    + subst reg. by destruct p.
    + destruct H as (ch & Hp & Hx & ->). split_and!; [done|done|]. by exists ch.
Qed.

(** ** Every surfaced ask is settled once *)

Definition countAsk (id : gostr) (es : list AskEvent) : nat := length (filter (λ e, eventAsk e = id) es).

Lemma countAsk_app id l k : countAsk id (l ++ k) = countAsk id l + countAsk id k.
Proof. unfold countAsk. by rewrite filter_app, length_app. Qed.

Lemma countAsk_one id e : countAsk id [e] = if decide (eventAsk e = id) then 1 else 0.
Proof. unfold countAsk. rewrite filter_cons, filter_nil. by case_decide. Qed.

Lemma countAsk_perm id l k : l ≡ₚ k → countAsk id l = countAsk id k.
Proof. intros H. unfold countAsk. by rewrite H. Qed.

Definition queuedIn (m : gmap nat (list AskEvent)) : list AskEvent := concat (map_to_list m).*2.

Lemma queued_split m c : queuedIn m ≡ₚ default [] (m !! c) ++ queuedIn (delete c m).
Proof.
  unfold queuedIn. destruct (m !! c) as [l|] eqn:Hc; [|by rewrite delete_id].
  assert (Hp := map_to_list_delete m c l Hc). rewrite <-Hp. done.
Qed.

Lemma queued_insert m c l : queuedIn (<[c := l]> m) ≡ₚ l ++ queuedIn (delete c m).
Proof.
  rewrite (queued_split (<[c := l]> m) c), lookup_insert_eq. cbn. by rewrite delete_insert_eq.
Qed.

(** Verdicts and retractions on their way out, out and given up. *)
Definition pool (p : ParentRun) : list AskEvent :=
  queuedIn (accepted (prRouter p)) ++ (match prEmitting p with Some (_, q) => q | None => [] end) ++ prStream p ++ prDropped p.

Definition routed (p : ParentRun) (id : gostr) : nat := match byAskID (prRouter p) !! id with Some _ => 1 | None => 0 end.

Definition tally (p : ParentRun) (id : gostr) : nat := routed p id + countAsk id (pool p).

Record parentOk (p : ParentRun) : Prop := {
  po_route id rt : byAskID (prRouter p) !! id = Some rt → rtSurfaced rt = true ∧ payAskID (rtApproval rt) = id;
  po_closed : rtClosed (prRouter p) = prSealed p;
  po_sealed : prSealed p = true → byAskID (prRouter p) = ∅ ∧ accepted (prRouter p) = ∅ ∧ prEmitting p = None
}.

(** The step puts the ask [id] before a person. *)
Definition surfaces (id : gostr) (s : RunStep) : bool := match s with PSurface ask _ _ => AskID ask =s id | _ => false end.

(** The accepted verdict of a routed ask moves its route into the queue. *)
Lemma accept_tally p askID route reg v id :
  parentOk p → byAskID (prRouter p) !! askID = Some route →
  tally (routeAccepted p askID route reg v) id = tally p id ∧ parentOk (routeAccepted p askID route reg v).
Proof.
  intros [H1 H2 H3] Hr. destruct (H1 _ _ Hr) as [Hs Hid].
  assert (Hop : prSealed p = false). { destruct (prSealed p); [|done]. by rewrite (proj1 (H3 eq_refl)) in Hr. }
  unfold routeAccepted, recordAccepted. rewrite Hs. cbn. split.
  - unfold tally, routed, pool. cbn. rewrite !countAsk_app, (countAsk_perm id _ _ (queued_insert _ _ _)).
    rewrite (countAsk_perm id _ _ (queued_split (accepted (prRouter p)) (rtChild route))), !countAsk_app.
    rewrite countAsk_one. cbn [eventAsk payAskID]. rewrite Hid. destruct (decide (askID = id)) as [-> |Hne].
    + rewrite lookup_delete_eq, Hr. lia.
    + rewrite lookup_delete_ne by done. lia.
  - split; cbn.
    + intros id' rt. rewrite lookup_delete_Some. intros [_ ?]. by apply H1.
    + done.
    + by rewrite Hop.
Qed.

Lemma resolve_tally F p res id : parentOk p →
  match routeResolution F p res with
  | Some (p', _) => tally p' id = tally p id ∧ parentOk p' ∧ prAsks p' = prAsks p
  | None => True
  end.
Proof.
  intros Hok. unfold routeResolution. destruct (byAskID (prRouter p) !! resAskID res) as [route|] eqn:Er; [|done].
  destruct (resolveApprovalOwn F _ res) as [reg [e|]]; [done|].
  destruct (accept_tally p (resAskID res) route reg (resVerdict res) id Hok Er). done.
Qed.

Lemma own_tally p r id : tally (setAsks r p) id = tally p id ∧ (parentOk p → parentOk (setAsks r p)).
Proof. split; [done|]. intros [H1 H2 H3]. by split. Qed.

Lemma count_sent id (sent : AskEvent → bool) es :
  countAsk id (filter (λ e, sent e = true) es) + countAsk id (filter (λ e, sent e = false) es) = countAsk id es.
Proof.
  assert (Hc : ∀ e l, countAsk id (e :: l) = countAsk id [e] + countAsk id l) by (intros e l; by rewrite <-countAsk_app).
  induction es as [|e es IH]; [done|]. rewrite Hc, <-IH. destruct (sent e) eqn:Es.
  - rewrite filter_cons_True, (filter_cons_False (λ e, sent e = false)) by (by rewrite ?Es). rewrite Hc. lia.
  - rewrite (filter_cons_False (λ e, sent e = true)), filter_cons_True by (by rewrite ?Es). rewrite (Hc e (filter (λ e, sent e = false) es)). lia.
Qed.

Lemma send_events_tally sent p es id : tally (sendEvents sent es p) id = tally p id + countAsk id es.
Proof. rewrite <-(count_sent id sent es). unfold tally, routed, pool. cbn. rewrite !countAsk_app. lia. Qed.

Lemma send_events_ok sent p es : parentOk p → parentOk (sendEvents sent es p).
Proof. intros [H1 H2 H3]. by split. Qed.

Lemma retract_tally p askID d id :
  parentOk p → tally (retractAsk p askID d) id = tally p id ∧ parentOk (retractAsk p askID d).
Proof.
  intros Hok. pose proof Hok as [H1 H2 H3]. unfold retractAsk. destruct (prSealed p) eqn:Es; [done|]. unfold unregister.
  destruct (byAskID (prRouter p) !! askID) as [rt|] eqn:Er; [|done]. split.
  - rewrite send_events_tally, countAsk_one. unfold tally, routed, pool. cbn. destruct (decide (askID = id)) as [-> |Hne].
    + rewrite lookup_delete_eq, Er. lia.
    + rewrite lookup_delete_ne by done. lia.
  - apply send_events_ok. split; cbn.
    + intros id' rt'. rewrite lookup_delete_Some. intros [_ ?]. by apply H1.
    + congruence.
    + by rewrite Es.
Qed.

(** What is queued for a child, and the rest. *)
Lemma count_queued m child id :
  countAsk id (queuedIn m) = countAsk id (default [] (m !! child)) + countAsk id (queuedIn (delete child m)).
Proof. by rewrite (countAsk_perm id _ _ (queued_split m child)), countAsk_app. Qed.

Lemma count_requeued m child l id :
  countAsk id (queuedIn (<[child := l]> m)) = countAsk id l + countAsk id (queuedIn (delete child m)).
Proof. by rewrite (countAsk_perm id _ _ (queued_insert m child l)), countAsk_app. Qed.

Lemma tally_eq p id :
  tally p id = routed p id + (countAsk id (queuedIn (accepted (prRouter p)))
    + (countAsk id (match prEmitting p with Some (_, q) => q | None => [] end) + (countAsk id (prStream p) + countAsk id (prDropped p)))).
Proof. unfold tally, pool. by rewrite !countAsk_app. Qed.

Lemma take_tally p child id :
  parentOk p → prEmitting p = None → tally (emitTake p child) id = tally p id ∧ parentOk (emitTake p child).
Proof.
  intros Hok He. pose proof Hok as [H1 H2 H3]. unfold emitTake, takeAccepted. destruct (prSealed p) eqn:Es; [done|].
  pose proof (count_queued (accepted (prRouter p)) child id) as Hq.
  destruct (default [] (accepted (prRouter p) !! child)) as [|e q].
  - split; [|split; [done|cbn; congruence|cbn; by rewrite Es]]. rewrite !tally_eq, Hq, He. cbn. rewrite He. done.
  - split; [|split; [done|cbn; congruence|cbn; by rewrite Es]]. rewrite !tally_eq, Hq, He. unfold routed. cbn [setEmitting setRouter prRouter byAskID accepted prEmitting prStream prDropped].
    change (countAsk id []) with 0. lia.
Qed.

Lemma send_tally p delivered id :
  parentOk p → tally (emitSend p delivered) id = tally p id ∧ parentOk (emitSend p delivered).
Proof.
  intros Hok. pose proof Hok as [H1 H2 H3]. unfold emitSend. destruct (prEmitting p) as [[child q]|] eqn:He; [|done].
  assert (Hs : prSealed p = false). { destruct (prSealed p) eqn:Es; [|done]. destruct (H3 eq_refl) as (_ & _ & ?). done. }
  destruct delivered; cbn [negb].
  - destruct q as [|e [|e' q]]; (split; [|split; [done|cbn; congruence|cbn; by rewrite Hs]]); rewrite !tally_eq, He; unfold routed;
      cbn [setEmitting pushEvents prRouter byAskID accepted prEmitting prStream prDropped]; change (countAsk id []) with 0.
    + done.
    + rewrite countAsk_app. lia.
    + change (e :: e' :: q) with ([e] ++ e' :: q). rewrite !countAsk_app. lia.
  - split; [|split; [by destruct q|destruct q; cbn; congruence|cbn; by rewrite Hs]]. rewrite !tally_eq, He. unfold routed, requeueAccepted.
    destruct q as [|e q]; cbn [setEmitting setRouter prRouter byAskID accepted prEmitting prStream prDropped]; change (countAsk id []) with 0; [done|].
    rewrite count_requeued, (count_queued (accepted (prRouter p)) child), countAsk_app. lia.
Qed.

Lemma count_retracts (m : gmap gostr childAskRoute) id :
  (∀ k rt, m !! k = Some rt → rtSurfaced rt = true) → countAsk id (retractsOf m) = match m !! id with Some _ => 1 | None => 0 end.
Proof.
  unfold retractsOf. induction m as [|k rt m Hk IH] using map_ind; intros Hm; [done|].
  assert (Hrt : rtSurfaced rt = true) by (apply (Hm k); apply lookup_insert_eq).
  assert (Hp : omap (λ kv, if rtSurfaced kv.2 then Some (EvPermissionRetract kv.1) else None) (map_to_list (<[k := rt]> m))
    ≡ₚ EvPermissionRetract k :: omap (λ kv, if rtSurfaced kv.2 then Some (EvPermissionRetract kv.1) else None) (map_to_list m)).
  { rewrite map_to_list_insert by done. cbn. by rewrite Hrt. }
  rewrite (countAsk_perm id _ _ Hp). change (EvPermissionRetract k :: ?l) with ([EvPermissionRetract k] ++ l). rewrite countAsk_app, countAsk_one, IH.
  - cbn. destruct (decide (k = id)) as [-> |Hne]; [by rewrite lookup_insert_eq, Hk|]. by rewrite lookup_insert_ne.
  - intros k' rt' Hl. apply (Hm k'). rewrite lookup_insert_ne; [done|]. intros ->. congruence.
Qed.

Lemma seal_tally p sent id :
  parentOk p → prEmitting p = None → tally (sealWithFinal p sent) id = tally p id ∧ parentOk (sealWithFinal p sent).
Proof.
  intros Hok He. pose proof Hok as [H1 H2 H3]. unfold sealWithFinal. destruct (prSealed p) eqn:Es; [done|]. unfold closeEvents.
  rewrite H2. split; [|by apply send_events_ok; split]. rewrite send_events_tally, !tally_eq, He. unfold routed. cbn [prRouter byAskID accepted prEmitting prStream prDropped].
  rewrite ?He, !countAsk_app, (count_retracts _ id) by (intros k rt Hk; by apply (H1 k)).
  change (countAsk id []) with 0. change (countAsk id (queuedIn ∅)) with 0. fold (queuedIn (accepted (prRouter p))). rewrite lookup_empty. lia.
Qed.

Lemma surface_tally p ask child turn id :
  parentOk p →
  let p' := setRouter (registerSurfaced (prRouter p) ask child turn) p in
  parentOk p' ∧ (AskID ask ≠ id → tally p' id = tally p id) ∧
  (AskID ask = id → tally p id = 0 → tally p' id = if rtClosed (prRouter p) then 0 else 1).
Proof.
  intros Hok. pose proof Hok as [H1 H2 H3]. unfold registerSurfaced. destruct (rtClosed (prRouter p)) eqn:Ec; cbn [setRouter].
  { destruct p. cbn in *. split_and!; [exact Hok|done|done]. }
  split_and!.
  - split; cbn; [|congruence|by rewrite <-H2]. intros id' rt. rewrite lookup_insert_Some. intros [[<- <-]|[_ ?]]; [done|by apply H1].
  - intros Hne. unfold tally, routed, pool. cbn. by rewrite lookup_insert_ne.
  - intros <-. unfold tally, routed, pool. cbn. rewrite lookup_insert_eq. lia.
Qed.

(** The run's own registry takes an ask only by registering it. *)
Lemma askExec_fresh r s id :
  arPending r !! id = None → (∀ ask, s = ARegister ask → AskID ask ≠ id) → arPending (askExec r s).1 !! id = None.
Proof.
  intros Hn Hs. assert (Hd : ∀ k, delete k (arPending r) !! id = None) by (intros k; by apply lookup_delete_None; right).
  destruct s as [ask|k v|k v|k a check|k|i|ch]; cbn [askExec].
  - cbn. rewrite lookup_insert_ne; [done|by apply Hs].
  - unfold resolveOrdinary. repeat case_match; simplify_eq; auto; apply Hd.
  - unfold resolvePlan. repeat case_match; simplify_eq; auto; apply Hd.
  - unfold resolveChecked. repeat case_match; simplify_eq; auto; apply Hd.
  - unfold discard. repeat case_match; simplify_eq; auto; apply Hd.
  - repeat case_match; simplify_eq; auto.
  - repeat case_match; simplify_eq; auto.
Qed.

(** [id] is no ask of the run's own: the ids of asks carry the id of their session. *)
Definition notOwn (id : gostr) (s : RunStep) : Prop := ∀ ask, s = POwn (ARegister ask) → AskID ask ≠ id.

Lemma resolveChecked_fresh r k a check id :
  arPending r !! id = None → arPending (resolveChecked r k a check).1 !! id = None.
Proof.
  intros Hn. pose proof (askExec_fresh r (AChecked k a check) id Hn ltac:(done)) as H. cbn in H.
  by destruct (resolveChecked r k a check).
Qed.

(** The sections of [emitMu] do not touch the run's own registry. *)
Lemma emits_asks p k child delivered sent :
  prAsks (retractAsk p k delivered) = prAsks p ∧ prAsks (emitTake p child) = prAsks p ∧ prAsks (emitSend p delivered) = prAsks p ∧
  prAsks (sealWithFinal p sent) = prAsks p.
Proof.
  unfold retractAsk, unregister, emitTake, takeAccepted, emitSend, sealWithFinal, closeEvents.
  split_and!; repeat case_match; by simplify_eq.
Qed.

(** One step of a run: a step that does not surface [id] leaves its tally. *)
Lemma runExec_tally F p s id :
  parentOk p → arPending (prAsks p) !! id = None → notOwn id s →
  let p' := (runExec F p s).1 in
  parentOk p' ∧ arPending (prAsks p') !! id = None ∧
  (surfaces id s = false → tally p' id = tally p id) ∧
  (surfaces id s = true → tally p id = 0 → tally p' id = if rtClosed (prRouter p) then 0 else 1).
Proof.
  intros Hok Hn Hown p'. unfold p'. clear p'.
  assert (Hsame : ∀ q, tally q id = tally p id ∧ parentOk q → arPending (prAsks q) !! id = None →
    surfaces id s = false → parentOk q ∧ arPending (prAsks q) !! id = None ∧ (surfaces id s = false → tally q id = tally p id) ∧
    (surfaces id s = true → tally p id = 0 → tally q id = if rtClosed (prRouter p) then 0 else 1)).
  { intros q [Ht Hq] Hp Hs. split_and!; [done|done|done|congruence]. }
  assert (Hset : ∀ r, arPending r !! id = None → (tally (setAsks r p) id = tally p id ∧ parentOk (setAsks r p)) ∧
    arPending (prAsks (setAsks r p)) !! id = None).
  { intros r Hr. split; [|done]. split; [done|by apply own_tally]. }
  assert (Hres : ∀ res k a check,
    let q := match routeResolution F p res with Some (q, _) => q | None => setAsks (resolveChecked (prAsks p) k a check).1 p end in
    (tally q id = tally p id ∧ parentOk q) ∧ arPending (prAsks q) !! id = None).
  { intros res k a check. pose proof (resolve_tally F p res id Hok) as H. destruct (routeResolution F p res) as [[q e]|].
    - destruct H as (? & ? & H). cbn. by rewrite H.
    - by apply Hset, resolveChecked_fresh. }
  destruct s as [s|child s|ask child turn|res|k v|k v|k v|k d|k d|child|delivered|sent]; cbn [runExec fst].
  - assert (Hf : arPending (askExec (prAsks p) s).1 !! id = None) by (apply askExec_fresh; [done|intros ask ->; by apply Hown]).
    apply Hsame; [by apply Hset|done|done].
  - apply Hsame; [|done|done]. split; [done|]. by destruct Hok; split.
  - destruct (surface_tally p ask child turn id Hok) as (S1 & S2 & S3). split_and!; [done|done| |]; cbn [surfaces]; intros Hs; bprop; auto.
  - unfold ResolveApproval, resolveApprovalOwn. case_bool; [by apply Hsame|]. case_bool; [by apply Hsame|].
    match goal with |- context [resolveChecked (prAsks p) ?k ?a ?c] => specialize (Hres res k a c); destruct (resolveChecked (prAsks p) k a c) as [r e] end.
    destruct (routeResolution F p res) as [[q e']|]; apply Hsame; (apply Hres || done).
  - unfold Approve, approveOwn. case_bool; [by apply Hsame|]. case_bool; [by apply Hsame|].
    match goal with |- context [resolveChecked (prAsks p) k ?a ?c] =>
      specialize (Hres (mkResolution k [] None v) k a c); destruct (resolveChecked (prAsks p) k a c) as [r e] end.
    destruct (routeResolution F p _) as [[q e']|]; apply Hsame; (apply Hres || done).
  - unfold ResolveOrdinaryAsk. destruct (byAskID (prRouter p) !! k) as [route|] eqn:Er.
    + destruct (resolveOrdinary _ k v) as [reg []]; try by apply Hsame. apply Hsame; [by apply accept_tally|done|done].
    + pose proof (askExec_fresh (prAsks p) (AOrdinary k v) id Hn ltac:(done)) as Hf. cbn in Hf. destruct (resolveOrdinary (prAsks p) k v) as [r o].
      apply Hsame; [by apply Hset|done|done].
  - unfold ResolvePlanAsk. pose proof (askExec_fresh (prAsks p) (APlan k v) id Hn ltac:(done)) as Hf. cbn in Hf.
    destruct (resolvePlan (prAsks p) k v) as [r o]. apply Hsame; [by apply Hset|done|done].
  - unfold RetractPermissionAsk, discard. destruct (arPending (prAsks p) !! k) eqn:Ek; [|by apply Hsame].
    assert (k ≠ id) by congruence. cbn [fst]. apply Hsame; [|cbn; by apply lookup_delete_None; right|done].
    split; [|by apply send_events_ok, own_tally]. rewrite send_events_tally, countAsk_one. cbn. rewrite decide_False by done. by rewrite Nat.add_0_r.
  - destruct (prEmitting p) eqn:He; (apply Hsame; [|done || by rewrite (proj1 (emits_asks p k 0 d (λ _, true)))|done]); [done|by apply retract_tally].
  - destruct (prEmitting p) eqn:He; (apply Hsame; [|done || by rewrite (proj1 (proj2 (emits_asks p [] child false (λ _, true))))|done]); [done|by apply take_tally].
  - apply Hsame; [by apply send_tally|by rewrite (proj1 (proj2 (proj2 (emits_asks p [] 0 delivered (λ _, true)))))|done].
  - destruct (prEmitting p) eqn:He; (apply Hsame; [|done || by rewrite (proj2 (proj2 (proj2 (emits_asks p [] 0 false sent))))|done]); [done|by apply seal_tally].
Qed.

Lemma runSteps_cons F p s steps :
  (runSteps F p (s :: steps)).1 = (runSteps F (runExec F p s).1 steps).1 ∧
  (runSteps F p (s :: steps)).2 = option_list (runExec F p s).2 ++ (runSteps F (runExec F p s).1 steps).2.
Proof.
  cbn [runSteps]. destruct (runExec F p s) as [p1 a]. cbn. destruct (runSteps F p1 steps) as [p2 l]. by destruct a.
Qed.

Lemma runSteps_app F p s1 s2 : (runSteps F p (s1 ++ s2)).1 = (runSteps F (runSteps F p s1).1 s2).1.
Proof.
  revert p. induction s1 as [|s s1 IH]; intros p; [done|]. rewrite <-app_comm_cons, !(proj1 (runSteps_cons _ _ _ _)). apply IH.
Qed.

Lemma runSteps_keep F p steps id :
  parentOk p → arPending (prAsks p) !! id = None → Forall (notOwn id) steps → Forall (λ s, surfaces id s = false) steps →
  let p' := (runSteps F p steps).1 in parentOk p' ∧ arPending (prAsks p') !! id = None ∧ tally p' id = tally p id.
Proof.
  revert p. induction steps as [|s steps IH]; intros p Hok Hn Hown Hs; [done|].
  apply Forall_cons in Hown as [Ho Hown], Hs as [Hs1 Hs]. rewrite (proj1 (runSteps_cons _ _ _ _)). cbv zeta.
  destruct (runExec_tally F p s id Hok Hn Ho) as (E1 & E2 & E3 & _). rewrite <-(E3 Hs1). by apply IH.
Qed.

Lemma parentOk_new : parentOk newParentRun.
Proof. by split. Qed.

(** The stream of a run after the seal holds what there is of an ask. *)
Lemma stream_tally p id :
  parentOk p → countAsk id (prStream p) <= tally p id ∧ (prSealed p = true → countAsk id (prStream p) + countAsk id (prDropped p) = tally p id).
Proof.
  intros [H1 H2 H3]. rewrite tally_eq. split; [lia|]. intros Hs. destruct (H3 Hs) as (R1 & R2 & R3). unfold routed.
  by rewrite R1, R2, R3.
Qed.

(** The step gives up no send for good. *)
Definition delivers (s : RunStep) : Prop :=
  match s with PRetractOwn _ d | PRetract _ d => d = true | PSeal sent => ∀ e, sent e = true | _ => True end.

Lemma sendEvents_all sent es p : (∀ e, sent e = true) → prDropped (sendEvents sent es p) = prDropped p.
Proof.
  intros Hs. cbn. assert (filter (λ e, sent e = false) es = []) as ->; [|by rewrite app_nil_r].
  induction es as [|e es IH]; [done|]. rewrite filter_cons, decide_False by (by rewrite Hs). done.
Qed.

Lemma accept_dropped p askID route reg v : prDropped (routeAccepted p askID route reg v) = prDropped p.
Proof. done. Qed.

Lemma route_dropped F p res : match routeResolution F p res with Some (q, _) => prDropped q = prDropped p | None => True end.
Proof. unfold routeResolution. destruct (byAskID _ !! _); [|done]. by destruct (resolveApprovalOwn _ _ _) as [? []]. Qed.

Lemma runExec_delivers F p s : delivers s → prDropped (runExec F p s).1 = prDropped p.
Proof.
  destruct s as [s|child s|ask child turn|res|k v|k v|k v|k d|k d|child|delivered|sent]; cbn [delivers runExec fst]; intros Hd; try done.
  - unfold ResolveApproval. case_bool; [done|]. case_bool; [done|]. pose proof (route_dropped F p res) as H. destruct (routeResolution F p res) as [[q e]|]; [done|].
    by destruct (resolveApprovalOwn F (prAsks p) res).
  - unfold Approve. case_bool; [done|]. case_bool; [done|]. pose proof (route_dropped F p (mkResolution k [] None v)) as H.
    destruct (routeResolution F p _) as [[q e]|]; [done|]. by destruct (approveOwn F (prAsks p) k v).
  - unfold ResolveOrdinaryAsk. destruct (byAskID _ !! _) as [route|]; [|by destruct (resolveOrdinary _ _ _)]. by destruct (resolveOrdinary _ k v) as [reg []].
  - unfold ResolvePlanAsk. by destruct (resolvePlan _ _ _).
  - unfold RetractPermissionAsk. destruct (discard _ _) as [r []]; [|done]. cbn [fst]. by rewrite sendEvents_all.
  - destruct (prEmitting p); [done|]. unfold retractAsk. destruct (prSealed p); [done|]. destruct (unregister _ _) as [r []]; [|done]. by rewrite sendEvents_all.
  - destruct (prEmitting p); [done|]. unfold emitTake. destruct (prSealed p); [done|]. by destruct (takeAccepted _ _) as [r []].
  - unfold emitSend. destruct (prEmitting p) as [[child q]|]; [|done]. destruct delivered; [|done]. by destruct q as [|e [|e' q]].
  - destruct (prEmitting p); [done|]. unfold sealWithFinal. destruct (prSealed p); [done|]. destruct (closeEvents _). by rewrite sendEvents_all.
Qed.

Lemma runSteps_delivers F p steps : Forall delivers steps → prDropped (runSteps F p steps).1 = prDropped p.
Proof.
  revert p. induction steps as [|s steps IH]; intros p H; [done|]. apply Forall_cons in H as [Hs H]. rewrite (proj1 (runSteps_cons _ _ _ _)), IH by done.
  by apply runExec_delivers.
Qed.

(** C11. An ask that a child puts before a person is settled once.  Verdicts,
    cancellations of children, their ends, the delivery of accepted verdicts and the end
    of the run come in any order, and any send may be given up.  The parent's stream never
    carries two settlements of one ask (an approval and a retraction, or two of a kind).
    When the run is sealed, exactly one settlement was sent for an ask that was surfaced
    before: it is on the stream, or its send was given up for good.  An approval that the
    seal has not overtaken is sent again, so with no send of a retraction or of the seal
    given up the stream carries exactly one.  The id of the ask is surfaced once, and the
    asks of the run's own have other ids. *)
Theorem surfaced_asks_settled_once F pre ask child turn post :
  let steps := pre ++ PSurface ask child turn :: post in
  let p := (runSteps F newParentRun steps).1 in
  Forall (notOwn (AskID ask)) steps → Forall (λ s, surfaces (AskID ask) s = false) (pre ++ post) →
  countAsk (AskID ask) (prStream p) <= 1 ∧
  (prSealed p = true → prSealed (runSteps F newParentRun pre).1 = false →
   countAsk (AskID ask) (prStream p) + countAsk (AskID ask) (prDropped p) = 1 ∧ (Forall delivers steps → countAsk (AskID ask) (prStream p) = 1)).
Proof.
  intros steps p Hown Hs. apply Forall_app in Hs as [Hs1 Hs2]. unfold steps in *. apply Forall_app in Hown as [Ho1 Ho2].
  apply Forall_cons in Ho2 as [Ho2 Ho3].
  destruct (runSteps_keep F newParentRun pre (AskID ask) parentOk_new ltac:(done) Ho1 Hs1) as (A1 & A2 & A3).
  set (p1 := (runSteps F newParentRun pre).1) in *.
  destruct (runExec_tally F p1 (PSurface ask child turn) (AskID ask) A1 A2 Ho2) as (B1 & B2 & _ & B4).
  specialize (B4 ltac:(apply bool_decide_true; done) A3). set (p2 := (runExec F p1 (PSurface ask child turn)).1) in *.
  destruct (runSteps_keep F p2 post (AskID ask) B1 B2 Ho3 Hs2) as (C1 & C2 & C3).
  assert (Hp : p = (runSteps F p2 post).1). { unfold p. rewrite runSteps_app, (proj1 (runSteps_cons _ _ _ _)). done. }
  rewrite <-Hp in C1, C3. destruct (stream_tally p (AskID ask) C1) as [D1 D2]. rewrite C3, B4 in D1, D2.
  rewrite (po_closed _ A1) in *. split; [destruct (prSealed p1); lia|]. intros Hse Hop. rewrite Hop in D2. specialize (D2 Hse). split; [done|].
  intros Hd. pose proof (runSteps_delivers F newParentRun _ Hd) as H0. fold p in H0. rewrite H0 in D2. cbn in D2. lia.
Qed.

(** *** Approvals on the stream are verdicts that were given *)

(** What a step may add to the pool: retractions, and the verdict it had accepted. *)
Definition newEvent (a : option (gostr * ApprovalVerdict)) (e : AskEvent) : Prop :=
  match e with
  | EvPermissionRetract _ => True
  | EvApproval _ pay => ∃ v, a = Some (payAskID pay, v) ∧ payVerdict pay = VerdictString v
  end.

Definition addsOnly (p p' : ParentRun) (a : option (gostr * ApprovalVerdict)) : Prop :=
  ∀ e, e ∈ pool p' → e ∈ pool p ∨ newEvent a e.

Lemma elem_queued m child e : e ∈ queuedIn m ↔ e ∈ default [] (m !! child) ∨ e ∈ queuedIn (delete child m).
Proof. by rewrite (queued_split m child), elem_of_app. Qed.

Lemma elem_requeued m child l e : e ∈ queuedIn (<[child := l]> m) ↔ e ∈ l ∨ e ∈ queuedIn (delete child m).
Proof. by rewrite queued_insert, elem_of_app. Qed.

Lemma elem_pool p e :
  e ∈ pool p ↔ e ∈ queuedIn (accepted (prRouter p)) ∨ e ∈ (match prEmitting p with Some (_, q) => q | None => [] end) ∨ e ∈ prStream p ∨ e ∈ prDropped p.
Proof. unfold pool. by rewrite !elem_of_app. Qed.

Lemma accept_adds p askID route reg v :
  payAskID (rtApproval route) = askID → addsOnly p (routeAccepted p askID route reg v) (Some (askID, v)).
Proof.
  intros Hid e. rewrite !elem_pool. unfold routeAccepted, recordAccepted. destruct (rtSurfaced route); cbn; [|tauto].
  rewrite elem_requeued, elem_of_app, list_elem_of_singleton, (elem_queued (accepted (prRouter p)) (rtChild route)).
  intros [[[?| ->]|?]|?]; [tauto| |tauto|tauto]. right. exists v. cbn. by rewrite Hid.
Qed.

Lemma send_events_adds sent p es a : (∀ e, e ∈ es → newEvent a e) → addsOnly p (sendEvents sent es p) a.
Proof.
  intros Hes e. rewrite !elem_pool. cbn. rewrite !elem_of_app, !list_elem_of_filter. intros [?|[?|[[?|[_ ?]]|[?|[_ ?]]]]]; eauto 6.
Qed.

Lemma emits_add p k child delivered sent :
  addsOnly p (retractAsk p k delivered) None ∧ addsOnly p (emitTake p child) None ∧ addsOnly p (emitSend p delivered) None ∧
  addsOnly p (sealWithFinal p sent) None.
Proof.
  split_and!; intros e.
  - unfold retractAsk, unregister. destruct (prSealed p); [tauto|]. destruct (byAskID (prRouter p) !! k); [|tauto]. intros He.
    apply (send_events_adds _ _ _ None) in He as [He|He]; [by left|by right|]. intros ? ->%list_elem_of_singleton. done.
  - rewrite !elem_pool. unfold emitTake, takeAccepted. destruct (prSealed p); [tauto|]. rewrite (elem_queued (accepted (prRouter p)) child).
    destruct (default [] (accepted (prRouter p) !! child)) as [|x q]; cbn; [tauto|]. destruct (prEmitting p) as [[]|]; tauto.
  - rewrite !elem_pool. unfold emitSend. destruct (prEmitting p) as [[c q]|] eqn:He; [|rewrite He; tauto]. destruct delivered; cbn [negb].
    + destruct q as [|x [|y q]]; cbn; rewrite ?elem_of_app, ?elem_of_cons, ?elem_of_nil; tauto.
    + unfold requeueAccepted. destruct q as [|x q]; cbn [setEmitting setRouter prRouter accepted prEmitting prStream prDropped]; [rewrite elem_of_nil; tauto|].
      rewrite elem_requeued, (elem_queued (accepted (prRouter p)) c), elem_of_app. rewrite elem_of_nil. tauto.
  - unfold sealWithFinal, closeEvents. destruct (prSealed p); [tauto|]. destruct (rtClosed (prRouter p)); intros He.
    + apply (send_events_adds _ _ _ None) in He as [He|He]; [by left|by right|]. by intros ? ?%elem_of_nil.
    + rewrite !elem_pool in *. cbn in *. rewrite elem_of_nil, !elem_of_app, !list_elem_of_filter, !elem_of_app in He. fold (queuedIn (accepted (prRouter p))) in He.
      assert (Hr : e ∈ retractsOf (byAskID (prRouter p)) → newEvent None e).
      { intros Hr. unfold retractsOf in Hr. apply list_elem_of_omap in Hr as ([id rt] & _ & Hr). cbn in Hr. destruct (rtSurfaced rt); [|done]. by injection Hr as <-. }
      tauto.
Qed.

Lemma adds_same p p' a : pool p' = pool p → addsOnly p p' a.
Proof. intros Hp e. rewrite Hp. by left. Qed.

Lemma runExec_adds F p s : parentOk p → addsOnly p (runExec F p s).1 (runExec F p s).2.
Proof.
  intros [H1 _ _]. assert (Hres : ∀ res, match routeResolution F p res with
    | Some (q, e) => addsOnly p q (match e with None => Some (resAskID res, resVerdict res) | Some _ => None end) | None => True end).
  { intros res. unfold routeResolution. destruct (byAskID (prRouter p) !! resAskID res) as [route|] eqn:Er; [|done].
    destruct (resolveApprovalOwn F _ res) as [reg [e|]]; [by apply adds_same|]. apply accept_adds. by apply H1. }
  destruct s as [s|child s|ask child turn|res|k v|k v|k v|k d|k d|child|delivered|sent]; cbn [runExec fst snd].
  - by apply adds_same.
  - by apply adds_same.
  - apply adds_same. unfold registerSurfaced. by destruct (rtClosed (prRouter p)).
  - unfold ResolveApproval. case_bool; [by apply adds_same|]. case_bool; [by apply adds_same|].
    specialize (Hres res). destruct (routeResolution F p res) as [[q e]|]; [done|].
    destruct (resolveApprovalOwn F (prAsks p) res) as [r e]. by apply adds_same.
  - unfold Approve. case_bool; [by apply adds_same|]. case_bool; [by apply adds_same|].
    specialize (Hres (mkResolution k [] None v)). destruct (routeResolution F p _) as [[q e]|]; [done|].
    destruct (approveOwn F (prAsks p) k v) as [r e]. by apply adds_same.
  - unfold ResolveOrdinaryAsk. destruct (byAskID (prRouter p) !! k) as [route|] eqn:Er.
    + destruct (resolveOrdinary _ k v) as [reg []]; try by apply adds_same. apply accept_adds. by apply H1.
    + destruct (resolveOrdinary (prAsks p) k v) as [r o]. by apply adds_same.
  - unfold ResolvePlanAsk. destruct (resolvePlan (prAsks p) k v) as [r o]. by apply adds_same.
  - unfold RetractPermissionAsk. destruct (discard (prAsks p) k) as [r []]; [|by apply adds_same].
    intros e He. apply (send_events_adds _ _ _ None) in He as [He|He]; [by left|by right|]. by intros ? ->%list_elem_of_singleton.
  - destruct (prEmitting p); [by apply adds_same|apply (emits_add p k 0 d (λ _, true))].
  - destruct (prEmitting p); [by apply adds_same|apply (emits_add p [] child false (λ _, true))].
  - apply (emits_add p [] 0 delivered (λ _, true)).
  - destruct (prEmitting p); [by apply adds_same|apply (emits_add p [] 0 false sent)].
Qed.

Lemma parentOk_exec F p s : parentOk p → parentOk (runExec F p s).1.
Proof.
  intros Hok. set (ids := match s with POwn (ARegister ask) => [AskID ask] | _ => [] end).
  set (id := fresh (dom (arPending (prAsks p)) ∪ list_to_set ids)).
  assert (Hf : id ∉ dom (arPending (prAsks p)) ∪ list_to_set ids) by apply is_fresh.
  apply not_elem_of_union in Hf as [Hf1 Hf2]. apply (runExec_tally F p s id Hok); [by apply not_elem_of_dom|].
  intros ask ->. cbn in Hf2. set_solver.
Qed.

Lemma runSteps_truthful F p past steps :
  parentOk p → (∀ t pay, EvApproval t pay ∈ pool p → ∃ v, (payAskID pay, v) ∈ past ∧ payVerdict pay = VerdictString v) →
  ∀ t pay, EvApproval t pay ∈ pool (runSteps F p steps).1 →
  ∃ v, (payAskID pay, v) ∈ past ++ (runSteps F p steps).2 ∧ payVerdict pay = VerdictString v.
Proof.
  revert p past. induction steps as [|s steps IH]; intros p past Hok Hp t pay Hin.
  { destruct (Hp t pay Hin) as (v & ? & ?). exists v. split; [|done]. apply elem_of_app. by left. }
  destruct (runSteps_cons F p s steps) as [E1 E2]. rewrite E1 in Hin. rewrite E2, (assoc_L (++)). eapply IH; [| |exact Hin].
  - by apply parentOk_exec.
  - intros t' pay' Hin'. destruct (runExec_adds F p s Hok _ Hin') as [Hold|(v & -> & Hv)].
    + destruct (Hp _ _ Hold) as (v & ? & ?). exists v. split; [|done]. apply elem_of_app. by left.
    + exists v. split; [|done]. apply elem_of_app. right. left.
Qed.

(** An approval on the parent's stream is a verdict that was given: for every
    approval event of a child's ask there was a call of an approval control that named
    this ask, carried this verdict and was accepted by the child. *)
Theorem surfaced_approvals_truthful F steps turn pay :
  let r := runSteps F newParentRun steps in
  EvApproval turn pay ∈ prStream r.1 → ∃ v, (payAskID pay, v) ∈ r.2 ∧ payVerdict pay = VerdictString v.
Proof.
  intros r Hin. apply (runSteps_truthful F newParentRun [] steps parentOk_new) with (t := turn).
  - intros t p Hp. by apply elem_of_nil in Hp.
  - apply elem_pool. auto.
Qed.

(** ** A sample

    A child asks, the verdict races with the child's cancellation, and the run ends. *)
Definition sampleFormatAsks : Format := mkFormat (λ _, RawEmpty) (λ _ s _, s) (λ s, s) (λ s, s) (λ _, true).

Definition childAsk : PendingAsk := mkAsk #"child-1" #"Shell" [] [] #"c1" None ApprovalOriginPermission AskProvenanceUnknown.
Definition otherAsk : PendingAsk := mkAsk #"child-2" #"Shell" [] [] #"c2" None ApprovalOriginPermission AskProvenanceUnknown.

Definition sampleBefore : list RunStep := [PChild 7 (ARegister childAsk); PChild 7 (ARegister otherAsk); PSurface otherAsk 7 1].
Definition sampleAfter : list RunStep :=
  [PApprove #"child-1" VerdictAllowOnce; PRetract #"child-1" true; PTake 7; PSend false; PChild 7 (ASend 0); PTake 7; PSend true; PSeal (λ _, true)].

Lemma surfaced_asks_settled_once_witness :
  let p := (runSteps sampleFormatAsks newParentRun (sampleBefore ++ PSurface childAsk 7 1 :: sampleAfter)).1 in
  countAsk #"child-1" (prStream p) = 1 ∧ length (prStream p) = 2.
Proof.
  split; [|vm_compute; reflexivity].
  apply (proj2 (surfaced_asks_settled_once sampleFormatAsks sampleBefore childAsk 7 1 sampleAfter
    ltac:(repeat constructor; intros ask H; discriminate H) ltac:(repeat constructor))).
  - vm_compute. reflexivity.
  - vm_compute. reflexivity.
  - repeat constructor.
Defined.

(** A child is cancelled while its ask is open, and the send of the retraction is given up:
    the gate is consumed, and nobody is told. *)
Example retraction_given_up :
  let p := (runSteps sampleFormatAsks newParentRun (sampleBefore ++ [PSurface childAsk 7 1; PRetract #"child-1" false; PRetract #"child-1" true; PSeal (λ _, true)])).1 in
  prSealed p = true ∧ countAsk #"child-1" (prStream p) = 0 ∧ countAsk #"child-1" (prDropped p) = 1 ∧ countAsk #"child-2" (prStream p) = 1.
Proof. vm_compute. done. Qed.

Lemma surfaced_approvals_truthful_witness :
  let r := runSteps sampleFormatAsks newParentRun (sampleBefore ++ PSurface childAsk 7 1 :: sampleAfter) in
  ∃ v, (#"child-1", v) ∈ r.2 ∧ #"allow_once" = VerdictString v.
Proof.
  apply (surfaced_approvals_truthful sampleFormatAsks (sampleBefore ++ PSurface childAsk 7 1 :: sampleAfter) 1
    (mkPayload #"child-1" #"allow_once" #"Shell" false ApprovalOriginPermission)).
  apply (list_elem_of_lookup_2 _ 0). vm_compute. reflexivity.
Defined.
