(* ===== verification/Reviews.v ===== *)
(** * The asks of children without a person

    [resolveChildAsk] of [engine/agent/subagent.go] with the messages of its refusals,
    the reviewer's breaker ([dispatch.go], [askadjudicator.go]), the parser of a
    reviewer's verdict and the preview of peer-controlled text ([clampPreview] of
    [teamtool.go]).  The reviewer itself, a run of another engine, answers through a
    parameter. *)

From S2P Require Import Prelude Shell Fence Json Evaluator Title Conversation Session Dispatch.

(** ** Previews *)

Definition maxTeamPreview : nat := 200.

Definition isControl (r : rune) : bool := (r <? 32)%N || ((127 <=? r) && (r <=? 159))%N.

Definition isCleanASCII (s : gostr) : bool :=
  if maxTeamPreview <? byteLen s then false else forallb (λ r, (32 <=? r) && (r <=? 126))%N s.

(** The loop of [clampPreview]: the text, [changed] and [truncated]. *)
Fixpoint clampLoop (runes : nat) (s : gostr) : gostr * bool * bool :=
  match s with
  | [] => ([], false, false)
  | r :: s =>
      let c := isControl r in
      if runes =? maxTeamPreview then ([], c, true)
      else let '(out, changed, truncated) := clampLoop (S runes) s in ((if c then 32%N else r) :: out, c || changed, truncated)
  end.

Definition clampPreview (s : gostr) : gostr :=
  if isCleanASCII s then s
  else
    let '(out, changed, truncated) := clampLoop 0 s in
    if negb changed && negb truncated then s
    else if (truncated : bool) then trim_right (λ r, (r =? 32)%N) out ++ ellipsis
    else out.

(** ** The reviewer *)

Definition backticks : gostr := #"```".

Definition isFenceWord (first : gostr) : bool :=
  (first =s []) || negb (existsb (λ r, r ∈? (#" {}" ++ [9%N; 34%N])) first).

(** The rest after the first newline, with what precedes it. *)
Fixpoint cutLine (s : gostr) : option (gostr * gostr) :=
  match s with
  | [] => None
  | r :: s => if (r =? 10)%N then Some ([], s) else (λ p, (r :: p.1, p.2)) <$> cutLine s
  end.

Definition StripLoneCodeFence (s : gostr) : gostr :=
  if negb (HasPrefix s backticks) || negb (HasSuffix s backticks) || (byteLen s <? 6) then s
  else
    let inner := take (length s - 6) (drop 3 s) in
    let inner := match cutLine inner with
                 | Some (line, rest) => if isFenceWord (TrimSpace line) then rest else inner
                 | None => inner
                 end in
    TrimSpace inner.

(** [askVerdict]; a missing or null [allow] is [None]. *)
Record askVerdict := mkVerdict { vAllow : option bool; vReason : gostr }.

(** [None] is a decoding error. *)
Fixpoint verdictMembers (v : askVerdict) (kvs : list (gostr * json)) : option askVerdict :=
  match kvs with
  | [] => Some v
  | (k, x) :: rest =>
      if equalFold k #"allow" then
        match x with
        | JBool b => verdictMembers (mkVerdict (Some b) (vReason v)) rest
        | JNull => verdictMembers (mkVerdict None (vReason v)) rest
        | _ => None
        end
      else if equalFold k #"reason" then
        match x with
        | JString s => verdictMembers (mkVerdict (vAllow v) s) rest
        | JNull => verdictMembers v rest
        | _ => None
        end
      else verdictMembers v rest
  end.

(** [parseAskVerdict]; [decode] is the JSON value of a text. *)
Definition parseAskVerdict (decode : gostr → RawMessage) (text : gostr) : option (bool * gostr) :=
  let trimmed := StripLoneCodeFence (TrimSpace text) in
  if negb (HasPrefix trimmed #"{") || negb (HasSuffix trimmed #"}") then None
  else match unmarshalMap (decode trimmed) with
  | None => None
  | Some kvs =>
      match verdictMembers (mkVerdict None []) kvs with
      | Some (mkVerdict (Some allow) reason) => Some (allow, reason)
      | _ => None
      end
  end.

(** [engineAskReviewer.Review] after its run; [None] is an error. *)
Definition reviewOf (decode : gostr → RawMessage) (final : gostr) (stop : StopReason) : option (bool * gostr) :=
  if (stop =s StopError) || (stop =s StopCancelled) then None
  else match parseAskVerdict decode final with
  | Some (allow, reason) => Some (allow, TrimSpace reason)
  | None => None
  end.

(** A reviewer's answer: an abstention, an error, or a verdict. *)
Inductive ReviewAnswer := NotReviewable | ReviewFailed (reason : gostr) | Reviewed (allowed : bool) (reason : gostr).

Record askReviewBreaker := mkBreaker { consecutiveDenies : Z; maxDenies : Z; brOpened : bool }.

Record askReviewOutcome := mkReview {
  orReviewed : bool; orAllowed : bool; orReason : gostr; orFailed : bool; orFailReason : gostr; orJustOpened : bool
}.

Definition noReview : askReviewOutcome := mkReview false false [] false [] false.

Definition noteBreakerFailure (b : askReviewBreaker) : askReviewBreaker * bool :=
  let n := wrap64 (consecutiveDenies b + 1) in
  if (maxDenies b <=? n)%Z && negb (brOpened b) then (mkBreaker n (maxDenies b) true, true)
  else (mkBreaker n (maxDenies b) (brOpened b), false).

(** The closure [adjudicate] of [parentCaps]; [aborted] is the state of the run's
    hard abort, [answer] what the reviewer would answer.  The last component tells
    whether it was asked. *)
Definition adjudicate (b : askReviewBreaker) (aborted : bool) (answer : ReviewAnswer) : askReviewBreaker * askReviewOutcome * bool :=
  if (maxDenies b <=? consecutiveDenies b)%Z then (b, noReview, false)
  else if aborted then (b, noReview, false)
  else match answer with
  | NotReviewable => (b, noReview, true)
  | ReviewFailed reason => let '(b, o) := noteBreakerFailure b in (b, mkReview false false [] true reason o, true)
  | Reviewed true reason => (mkBreaker 0 (maxDenies b) (brOpened b), mkReview true true reason false [] false, true)
  | Reviewed false reason => let '(b, o) := noteBreakerFailure b in (b, mkReview true false reason false [] o, true)
  end.

(** ** The resolution of a child's ask *)

Section child.
Context (F : Format).

Definition shellCmdFromArgs (args : list N) : gostr := default [] (ShellCommandFromArgs (rawJSON F args)).

Definition surfacedCommandPreview (ask : PendingAsk) : gostr :=
  if AskTool ask =s #"Shell" then
    (if shellCmdFromArgs (AskArgs ask) =s [] then AskReason ask else shellCmdFromArgs (AskArgs ask))
  else AskReason ask.

Definition childAutoDenyMessage (reason : gostr) (configured : bool) : gostr :=
  #"not permitted in a non-interactive subagent shell: " ++ reason ++
  (if configured then
     #"; this command requires approval by a configured permission rule and no interactive approver is attached"
     ++ #" " ++ emdash ++ #" use a command the rule does not gate, or report back that approval is required"
   else
     #"; rephrase to avoid command substitution/subshell grouping, or use an auto-approved tool (read-only commands, or go test/build/vet/list)").

Definition childReviewedDenyMessage (reason verdictReason : gostr) : gostr :=
  let vr := TrimSpace verdictReason in
  let vr := if vr =s [] then #"no reason given" else vr in
  #"not permitted in a non-interactive subagent shell: " ++ reason
  ++ #"; an automated policy reviewer declined this command (" ++ clampPreview vr ++ #")"
  ++ #" " ++ emdash ++ #" rephrase to a read-only form or report back that approval is required".

(** What [resolveChildAsk] reads of a [childPosture]; [poReview] is [caps.adjudicate]
    with its breaker. *)
Record childPosture := mkPosture { poIsolated : bool; poInteractive : bool; poReview : option askReviewBreaker }.

Inductive Disposition :=
  | Approved
  | Surfaced
  | Denied (message : gostr).

Definition autoApproves (ask : PendingAsk) (isolated : bool) : bool :=
  (AskProv ask =s AskProvenanceConfiguredAllowFloor)
  || (isolated && (AskTool ask =s #"Shell") && IsolationApprovable (shellCmdFromArgs (AskArgs ask))).

(** [resolveChildAsk], with the breaker after it. *)
Definition resolveChildAsk (ask : PendingAsk) (p : childPosture) (aborted : bool) (answer : ReviewAnswer)
    : Disposition * option askReviewBreaker :=
  let configuredAsk := AskProv ask =s AskProvenanceConfigured in
  let headless := Denied (childAutoDenyMessage (AskReason ask) configuredAsk) in
  if negb configuredAsk && autoApproves ask (poIsolated p) then (Approved, poReview p)
  else if poInteractive p then (Surfaced, poReview p)
  else match (if configuredAsk then None else poReview p) with
  | None => (headless, poReview p)
  | Some b =>
      let '(b, o, _) := adjudicate b aborted answer in
      if orReviewed o && orAllowed o then (Approved, Some b)
      else if orReviewed o then (Denied (childReviewedDenyMessage (AskReason ask) (orReason o)), Some b)
      else (headless, Some b)
  end.
End child.

(** ** Previews are inert *)

Definition scrub (r : rune) : rune := if isControl r then 32%N else r.

(** What a preview is. *)
Definition preview (s : gostr) : gostr :=
  let t := scrub <$> s in
  if length t <=? maxTeamPreview then t else trim_right (λ r, (r =? 32)%N) (take maxTeamPreview t) ++ ellipsis.

Lemma clampLoop_spec n s :
  n <= maxTeamPreview →
  let '(out, changed, truncated) := clampLoop n s in
  out = take (maxTeamPreview - n) (scrub <$> s) ∧ truncated = (maxTeamPreview - n <? length s) ∧
  (changed = false → truncated = false → scrub <$> s = s).
Proof.
  revert n. induction s as [|r s IH]; intros n Hn; cbn [clampLoop].
  { split_and!; [by destruct (maxTeamPreview - n)|by destruct (maxTeamPreview - n)|done]. }
  destruct (n =? maxTeamPreview) eqn:E.
  - apply Nat.eqb_eq in E as ->. rewrite Nat.sub_diag. done.
  - apply Nat.eqb_neq in E. specialize (IH (S n) ltac:(lia)). destruct (clampLoop (S n) s) as [[out changed] truncated].
    destruct IH as (-> & -> & Hs). replace (maxTeamPreview - n) with (S (maxTeamPreview - S n)) by lia.
    split_and!; [done|done|]. intros [Hr Hc]%orb_false_elim Ht. csimpl. rewrite Hs by done. unfold scrub. by rewrite Hr.
Qed.

Lemma scrub_clean s : forallb (λ r, (32 <=? r) && (r <=? 126))%N s = true → scrub <$> s = s.
Proof.
  induction s as [|r s IH]; [done|]. cbn [forallb]. intros [Hr Hs]%andb_prop. csimpl. rewrite IH by done. f_equal.
  unfold scrub, isControl. bprop. apply N.leb_le in H, H0.
  assert (E1 : (r <? 32)%N = false) by (apply N.ltb_ge; lia). assert (E2 : (127 <=? r)%N = false) by (apply N.leb_gt; lia).
  by rewrite E1, E2.
Qed.

Lemma byteLen_length s : length s <= byteLen s.
Proof.
  unfold byteLen. induction s as [|r s IH]; [done|]. csimpl. assert (1 <= runeLen r) by (unfold runeLen; repeat case_bool; lia). lia.
Qed.

Lemma clampPreview_eq s : clampPreview s = preview s.
Proof.
  unfold clampPreview, preview, isCleanASCII. cbv zeta. rewrite length_fmap.
  assert (Hlen : length s <= byteLen s) by apply byteLen_length.
  destruct (maxTeamPreview <? byteLen s) eqn:Eb.
  2: destruct (forallb _ s) eqn:Ef; [apply Nat.ltb_ge in Eb; rewrite (scrub_clean _ Ef); case_bool; [done|]; apply Nat.leb_gt in E; lia|].
  all: pose proof (clampLoop_spec 0 s ltac:(lia)) as Hl; destruct (clampLoop 0 s) as [[out changed] truncated]; destruct Hl as (-> & -> & Hs);
    rewrite Nat.sub_0_r in *; destruct (maxTeamPreview <? length s) eqn:El; cbn [negb andb];
    [apply Nat.ltb_lt in El; rewrite (proj2 (Nat.leb_gt _ _)) by lia; by rewrite andb_false_r
    |apply Nat.ltb_ge in El; rewrite (proj2 (Nat.leb_le _ _)) by lia; rewrite andb_true_r; case_bool;
     [apply negb_true_iff in E; by rewrite Hs|by rewrite take_ge by (rewrite length_fmap; lia)]].
Qed.

(** Peer-controlled text is inert in a preview: the two paths of [clampPreview] agree
    on one definition (controls become spaces, 200 runes and an ellipsis), and so a
    preview has no control character (no escape sequence, no line break) and at most
    201 runes. *)
Theorem preview_inert s :
  clampPreview s = preview s ∧ Forall (λ r, isControl r = false) (clampPreview s) ∧ length (clampPreview s) <= 201.
Proof.
  split; [apply clampPreview_eq|]. rewrite clampPreview_eq. unfold preview. cbv zeta.
  assert (Hc : Forall (λ r, isControl r = false) (scrub <$> s)).
  { apply Forall_fmap, Forall_true. intros r. cbn. unfold scrub. destruct (isControl r) eqn:E; [done|exact E]. }
  case_bool; [apply Nat.leb_le in E; by split; [|unfold maxTeamPreview in E; lia]|].
  destruct (trim_right_split (λ r, (r =? 32)%N) (take maxTeamPreview (scrub <$> s))) as (b & Hb & _). split.
  - apply Forall_app. split; [|by repeat constructor]. assert (Ht : Forall (λ r, isControl r = false) (take maxTeamPreview (scrub <$> s))) by (by apply Forall_take).
    rewrite Hb in Ht. by apply Forall_app in Ht as [? _].
  - apply (f_equal length) in Hb. rewrite length_app, length_take in Hb. rewrite length_app. change (length ellipsis) with 1. unfold maxTeamPreview in *. lia.
Qed.

(** ** What answers a child's ask *)

(** The shell command of an ask stays inside its worktree: each of its segments is one
    [IsolationApprovable] accepts. *)
Definition confined (F : Format) (ask : PendingAsk) : Prop :=
  AskTool ask = #"Shell" ∧
  ∀ seg, seg ∈ SplitCommands (shellCmdFromArgs F (AskArgs ask)) → isolationSegment IsolationApprovable seg = true.

(** C12. Nobody is bypassed.  An ask of a child that a configured rule demands is never
    approved without a person: it is surfaced, or denied where there is none.  Any
    other ask is approved without a person only when a configured allow covers it up to
    the substitution floor, when it is a shell command in an isolated worktree all of
    whose segments stay inside, or, with no person attached, when a reviewer that was
    asked under a closed breaker said yes; a reviewer never overrides a person's seat. *)
Theorem child_ask_fail_safe F ask p aborted answer :
  match (resolveChildAsk F ask p aborted answer).1 with
  | Approved =>
      AskProv ask ≠ AskProvenanceConfigured ∧
      (AskProv ask = AskProvenanceConfiguredAllowFloor ∨ (poIsolated p = true ∧ confined F ask) ∨
       (poInteractive p = false ∧ ∃ b reason, poReview p = Some b ∧ answer = Reviewed true reason ∧
          aborted = false ∧ (consecutiveDenies b < maxDenies b)%Z))
  | Surfaced => poInteractive p = true
  | Denied _ => poInteractive p = false
  end.
Proof.
  unfold resolveChildAsk. cbv zeta. destruct (AskProv ask =s AskProvenanceConfigured) eqn:Ec; cbn [negb andb].
  { destruct (poInteractive p) eqn:Ei; done. }
  bprop. destruct (autoApproves F ask (poIsolated p)) eqn:Ea.
  - split; [done|]. unfold autoApproves in Ea. apply orb_true_iff in Ea as [Ea|Ea]; bprop; [by left|]. right. left. split; [done|].
    split; [done|]. intros seg Hs. by eapply IsolationApprovable_segment.
  - destruct (poInteractive p) eqn:Ei; [done|]. destruct (poReview p) as [b|]; [|done]. unfold adjudicate. case_bool; [done|].
    destruct aborted; [done|]. destruct answer as [|reason|[] reason]; [done| | |].
    + by destruct (noteBreakerFailure b).
    + split; [done|]. right. right. split; [done|]. exists b, reason. split_and!; [done..|]. apply Z.leb_gt in E. lia.
    + by destruct (noteBreakerFailure b).
Qed.

(** ** The breaker *)

(** Reviews in a row, each with the state of the hard abort and the answer. *)
Fixpoint reviewRun (b : askReviewBreaker) (asks : list (bool * ReviewAnswer)) : askReviewBreaker * list (askReviewOutcome * bool) :=
  match asks with
  | [] => (b, [])
  | (aborted, answer) :: asks =>
      let '(b, o, asked) := adjudicate b aborted answer in
      let '(b, l) := reviewRun b asks in (b, (o, asked) :: l)
  end.

#[global] Instance ReviewAnswer_eq_dec : EqDecision ReviewAnswer.
Proof. solve_decision. Defined.

(** A review that was spent: the reviewer was asked and did not abstain. *)
Definition spent (answer : ReviewAnswer) (asked : bool) : nat :=
  if asked && negb (answer =s NotReviewable) then 1 else 0.

Definition spentReviews (asks : list (bool * ReviewAnswer)) (l : list (askReviewOutcome * bool)) : nat :=
  sum_list (zip_with (λ a o, spent a.2 o.2) asks l).

Definition openings (l : list (askReviewOutcome * bool)) : nat := sum_list ((λ x, if orJustOpened x.1 then 1 else 0) <$> l).

Definition breakerOk (b : askReviewBreaker) : Prop := (0 <= consecutiveDenies b)%Z ∧ int64 (maxDenies b).

Lemma noteBreaker_step b :
  breakerOk b → (consecutiveDenies b < maxDenies b)%Z →
  let '(b', o) := noteBreakerFailure b in
  breakerOk b' ∧ maxDenies b' = maxDenies b ∧ consecutiveDenies b' = (consecutiveDenies b + 1)%Z ∧ brOpened b' = brOpened b || o ∧
  (o = true → brOpened b = false).
Proof.
  intros [H1 H2] Hlt. unfold noteBreakerFailure. cbv zeta.
  assert (Hw : wrap64 (consecutiveDenies b + 1) = (consecutiveDenies b + 1)%Z) by (apply wrap64_id; unfold int64 in *; lia).
  rewrite Hw. case_bool; unfold breakerOk; cbn; bprop; split_and!; try done; try lia; try by destruct (brOpened b).
Qed.

(** One review: an allow resets the count, any other spent review adds one to it while
    it is below the limit; the breaker is reported open at most once. *)
Lemma adjudicate_step b aborted answer :
  breakerOk b →
  let '(b', o, asked) := adjudicate b aborted answer in
  breakerOk b' ∧ maxDenies b' = maxDenies b ∧ brOpened b' = brOpened b || orJustOpened o ∧ (orJustOpened o = true → brOpened b = false) ∧
  ((∀ reason, answer ≠ Reviewed true reason) →
   consecutiveDenies b' = (consecutiveDenies b + Z.of_nat (spent answer asked))%Z ∧
   (spent answer asked = 1 → (consecutiveDenies b < maxDenies b)%Z)).
Proof.
  intros Hb. unfold adjudicate. case_bool; [cbn; rewrite orb_false_r, Z.add_0_r; by split_and!|]. apply Z.leb_gt in E.
  destruct aborted; [cbn; rewrite orb_false_r, Z.add_0_r; by split_and!|].
  destruct answer as [|reason|[] reason]; cbn.
  - rewrite orb_false_r, Z.add_0_r. by split_and!.
  - pose proof (noteBreaker_step b Hb E) as Hs. destruct (noteBreakerFailure b) as [b1 o]. destruct Hs as (S1 & S2 & S3 & S4 & S5). by split_and!.
  - rewrite orb_false_r. split_and!; try done; [|intros Hn; by destruct (Hn reason)]. split; [done|apply Hb].
  - pose proof (noteBreaker_step b Hb E) as Hs. destruct (noteBreakerFailure b) as [b1 o]. destruct Hs as (S1 & S2 & S3 & S4 & S5). by split_and!.
Qed.

(** The breaker bounds what is spent on a reviewer.  In any row of asks without an
    allow, however the reviewer answers and whenever the run is aborted, the reviewer is
    asked at most as often as denials remain to the limit (abstentions aside), and in
    any row at all the opening of the breaker is reported at most once. *)
Theorem breaker_bounds_reviews b asks :
  breakerOk b →
  ((∀ aborted reason, (aborted, Reviewed true reason) ∉ asks) →
   (Z.of_nat (spentReviews asks (reviewRun b asks).2) <= Z.max 0 (maxDenies b - consecutiveDenies b))%Z) ∧
  openings (reviewRun b asks).2 <= if brOpened b then 0 else 1.
Proof.
  revert b. induction asks as [|[aborted answer] asks IH]; intros b Hb; [cbn; split; [lia|destruct (brOpened b); lia]|].
  cbn [reviewRun]. pose proof (adjudicate_step b aborted answer Hb) as Hs. destruct (adjudicate b aborted answer) as [[b1 o] asked].
  destruct Hs as (S1 & S2 & S3 & S4 & S5). destruct (IH b1 S1) as [I1 I2]. destruct (reviewRun b1 asks) as [b2 l]. split.
  - intros Hno. destruct S5 as [C1 C2]; [intros reason ->; by apply (Hno aborted reason); left|].
    specialize (I1 ltac:(intros a r Hin; apply (Hno a r); by right)). unfold spentReviews in *. cbn in *.
    assert (spent answer asked <= 1) by (unfold spent; case_bool; lia).
    destruct (decide (spent answer asked = 1)) as [H1|H1]; [specialize (C2 H1)|]; lia.
  - unfold openings in *. cbn in *. rewrite S3 in I2. destruct (orJustOpened o); [rewrite (S4 eq_refl) in *; cbn in *; lia|].
    by rewrite orb_false_r in I2.
Qed.

(** Three denials open a breaker of three; the fourth ask is not reviewed. *)
Definition sampleBreaker : askReviewBreaker := mkBreaker 0 3 false.
Definition sampleAsks : list (bool * ReviewAnswer) :=
  [(false, Reviewed false []); (false, ReviewFailed #"timeout"); (false, NotReviewable); (false, Reviewed false []); (false, Reviewed false [])].

Lemma breaker_bounds_reviews_witness :
  spentReviews sampleAsks (reviewRun sampleBreaker sampleAsks).2 = 3 ∧ openings (reviewRun sampleBreaker sampleAsks).2 <= 1.
Proof.
  split; [vm_compute; reflexivity|]. apply (breaker_bounds_reviews sampleBreaker sampleAsks). split; [cbn|unfold int64; cbn]; lia.
Defined.
