(* ===== verification/Children.v ===== *)
(** * The registry of child runs

    [childRunRegistry] of [engine/agent/childregistry.go]: the children a run has
    spawned, from their registration over the start of their drive to their terminal
    or removal, the collection of a background child's result and the notice that it
    is finished.  The guarded emission of events and the retraction of asks, which the
    same type holds under its other mutex, are in [Asks].

    Entries are allocated in a heap and named by their position, as the pointers of the
    code: [markDoneResult] keeps the pointer while it retracts asks without the lock,
    and another attempt may take over the id in between.  A terminal in that gap is in
    [rgEnding].  The channel an entry closes at its end is the number of its closes; a
    second close would panic. *)

From stdpp Require Import sorting.
From S2P Require Import Prelude Conversation Session TailBuffer.

(** ** Data *)

Inductive childFamily := childFamilySubagent | childFamilyParallelBranch | childFamilyTeamMember | childFamilyShellCmd.
#[global] Instance childFamily_eq_dec : EqDecision childFamily.
Proof. solve_decision. Defined.

Inductive childState := childQueued | childRunning | childDone.
#[global] Instance childState_eq_dec : EqDecision childState.
Proof. solve_decision. Defined.

(** [childEntry]; the cancel function and the release of the liveness claim are the
    flags they set, the output buffer is named by a number. *)
Record childEntry := mkEntry {
  ceFamily : childFamily;
  ceGoal : gostr;
  ceBackground : bool;
  ceCancelled : bool;
  ceClientCancelled : bool;
  ceAsks : gset gostr;
  ceState : childState;
  ceProtected : bool;
  ceStop : StopReason;
  ceDisplaced : option nat;
  ceResult : option ToolResult;
  ceDelivered : bool;
  ceNoticed : bool;
  ceClosed : nat;
  ceTail : option nat;
  ceExit : Z
}.

Record childRunRegistry := mkRegistry {
  rgHeap : list childEntry;
  rgEntries : gmap gostr nat;
  rgGen : nat;
  rgEnding : list (nat * StopReason * option ToolResult)
}.

Definition newChildRunRegistry : childRunRegistry := mkRegistry [] ∅ 0 [].

(** [childStatus] *)
Record childReport := mkReport {
  crID : gostr; crFamily : childFamily; crGoal : gostr; crBackground : bool; crState : childState; crStop : StopReason; crDelivered : bool
}.

(** Setters. *)
Definition setHeap (v : list childEntry) (g : childRunRegistry) : childRunRegistry := mkRegistry v (rgEntries g) (rgGen g) (rgEnding g).
Definition setEntry (p : nat) (e : childEntry) (g : childRunRegistry) : childRunRegistry := setHeap (<[p := e]> (rgHeap g)) g.
Definition setMap (v : gmap gostr nat) (g : childRunRegistry) : childRunRegistry := mkRegistry (rgHeap g) v (rgGen g) (rgEnding g).
Definition setEnding (v : list (nat * StopReason * option ToolResult)) (g : childRunRegistry) : childRunRegistry :=
  mkRegistry (rgHeap g) (rgEntries g) (rgGen g) v.

Definition withTail (v : option nat) (e : childEntry) : childEntry :=
  mkEntry (ceFamily e) (ceGoal e) (ceBackground e) (ceCancelled e) (ceClientCancelled e) (ceAsks e) (ceState e) (ceProtected e) (ceStop e)
    (ceDisplaced e) (ceResult e) (ceDelivered e) (ceNoticed e) (ceClosed e) v (ceExit e).
Definition withExit (v : Z) (e : childEntry) : childEntry :=
  mkEntry (ceFamily e) (ceGoal e) (ceBackground e) (ceCancelled e) (ceClientCancelled e) (ceAsks e) (ceState e) (ceProtected e) (ceStop e)
    (ceDisplaced e) (ceResult e) (ceDelivered e) (ceNoticed e) (ceClosed e) (ceTail e) v.
Definition withAsks (v : gset gostr) (e : childEntry) : childEntry :=
  mkEntry (ceFamily e) (ceGoal e) (ceBackground e) (ceCancelled e) (ceClientCancelled e) v (ceState e) (ceProtected e) (ceStop e)
    (ceDisplaced e) (ceResult e) (ceDelivered e) (ceNoticed e) (ceClosed e) (ceTail e) (ceExit e).
Definition withCancel (cancelled client : bool) (e : childEntry) : childEntry :=
  mkEntry (ceFamily e) (ceGoal e) (ceBackground e) cancelled client (ceAsks e) (ceState e) (ceProtected e) (ceStop e)
    (ceDisplaced e) (ceResult e) (ceDelivered e) (ceNoticed e) (ceClosed e) (ceTail e) (ceExit e).
Definition withFlags (delivered noticed : bool) (e : childEntry) : childEntry :=
  mkEntry (ceFamily e) (ceGoal e) (ceBackground e) (ceCancelled e) (ceClientCancelled e) (ceAsks e) (ceState e) (ceProtected e) (ceStop e)
    (ceDisplaced e) (ceResult e) delivered noticed (ceClosed e) (ceTail e) (ceExit e).
Definition withRunning (e : childEntry) : childEntry :=
  mkEntry (ceFamily e) (ceGoal e) (ceBackground e) (ceCancelled e) (ceClientCancelled e) (ceAsks e) childRunning (ceProtected e) (ceStop e)
    None (ceResult e) (ceDelivered e) (ceNoticed e) (ceClosed e) (ceTail e) (ceExit e).
Definition withDone (stop : StopReason) (result : option ToolResult) (e : childEntry) : childEntry :=
  mkEntry (ceFamily e) (ceGoal e) (ceBackground e) (ceCancelled e) (ceClientCancelled e) (ceAsks e) childDone
    (if ceFamily e =s childFamilyTeamMember then ceProtected e else false) stop
    None result (ceDelivered e) (ceNoticed e) (S (ceClosed e)) (ceTail e) (ceExit e).
Definition withRemoved (e : childEntry) : childEntry :=
  mkEntry (ceFamily e) (ceGoal e) (ceBackground e) (ceCancelled e) (ceClientCancelled e) (ceAsks e) (ceState e) false (ceStop e)
    (ceDisplaced e) (ceResult e) (ceDelivered e) (ceNoticed e) (S (ceClosed e)) (ceTail e) (ceExit e).
Definition withReleased (e : childEntry) : childEntry :=
  mkEntry (ceFamily e) (ceGoal e) (ceBackground e) (ceCancelled e) (ceClientCancelled e) (ceAsks e) (ceState e) false (ceStop e)
    (ceDisplaced e) (ceResult e) (ceDelivered e) (ceNoticed e) (ceClosed e) (ceTail e) (ceExit e).

(** ** Operations *)

(** [g.entries[childID]] *)
Definition lookupEntry (g : childRunRegistry) (id : gostr) : option (nat * childEntry) :=
  p ← rgEntries g !! id; e ← rgHeap g !! p; Some (p, e).

Definition isDone (e : childEntry) : bool := ceState e =s childDone.

(** [registerProtected]; [admitted] is the answer of the process-wide liveness, and
    [None] means there is none. *)
Definition registerProtected (g : childRunRegistry) (id : gostr) (family : childFamily) (goal : gostr) (background : bool)
    (admitted : option bool) : childRunRegistry * bool :=
  let asked := if family =s childFamilyShellCmd then None else admitted in
  match asked with
  | Some false => (g, false)
  | _ =>
      let displaced := match lookupEntry g id with Some (p, old) => if isDone old then Some p else None | None => None end in
      let protected := match asked with Some true => true | _ => false end in
      let e := mkEntry family goal background false false ∅ childQueued protected StopNone displaced None false false 0 None 0 in
      (mkRegistry (rgHeap g ++ [e]) (<[id := length (rgHeap g)]> (rgEntries g)) (rgGen g) (rgEnding g), true)
  end.

(** An update of a live entry; unknown and done ids are ignored. *)
Definition updateLive (f : childEntry → childEntry) (g : childRunRegistry) (id : gostr) : childRunRegistry :=
  match lookupEntry g id with
  | Some (p, e) => if isDone e then g else setEntry p (f e) g
  | None => g
  end.

Definition attachOutputTail (g : childRunRegistry) (id : gostr) (buf : nat) : childRunRegistry := updateLive (withTail (Some buf)) g id.
(** The buffers are what the jobs have written meanwhile; a snapshot of [None] would be a
    slice out of range. *)
Definition outputTailSnapshot (buffers : nat → tailBuffer) (g : childRunRegistry) (id : gostr) : option (option (list N) * bool) :=
  match lookupEntry g id with
  | Some (_, e) => match ceTail e with Some b => Some (Snapshot (buffers b), Truncated (buffers b)) | None => None end
  | None => None
  end.
Definition setExitCode (g : childRunRegistry) (id : gostr) (code : Z) : childRunRegistry := updateLive (withExit code) g id.
Definition markRunning (g : childRunRegistry) (id : gostr) : childRunRegistry := updateLive withRunning g id.
Definition recordAsk (g : childRunRegistry) (id askID : gostr) : childRunRegistry :=
  updateLive (λ e, withAsks ({[askID]} ∪ ceAsks e) e) g id.

Definition snapshotAsksLocked (e : childEntry) : list gostr := merge_sort strLe (elements (ceAsks e)).

Definition takeEntryAsks (g : childRunRegistry) (id : gostr) : childRunRegistry * option (nat * list gostr) :=
  match lookupEntry g id with
  | None => (g, None)
  | Some (p, e) => (setEntry p (withAsks ∅ e) g, Some (p, snapshotAsksLocked e))
  end.

Definition takeAsks (g : childRunRegistry) (id : gostr) : childRunRegistry * list gostr :=
  match takeEntryAsks g id with (g, Some (_, asks)) => (g, asks) | (g, None) => (g, []) end.

(** [markDoneResult] up to its second lock: the entry is captured and its asks are
    taken, to be retracted. *)
Definition beginDone (g : childRunRegistry) (id : gostr) (stop : StopReason) (result : option ToolResult) : childRunRegistry * list gostr :=
  match takeEntryAsks g id with
  | (g, None) => (g, [])
  | (g, Some (p, asks)) => (setEnding (rgEnding g ++ [(p, stop, result)]) g, asks)
  end.

(** ... and from it on, for the captured entry. *)
Definition endDone (g : childRunRegistry) (i : nat) : childRunRegistry :=
  match rgEnding g !! i with
  | None => g
  | Some (p, stop, result) =>
      let g := setEnding (delete i (rgEnding g)) g in
      match rgHeap g !! p with
      | None => g
      | Some e =>
          if isDone e then g
          else mkRegistry (<[p := withDone stop result e]> (rgHeap g)) (rgEntries g) (S (rgGen g)) (rgEnding g)
      end
  end.

Definition remove (g : childRunRegistry) (id : gostr) : childRunRegistry :=
  match lookupEntry g id with
  | None => g
  | Some (p, e) =>
      if isDone e then g
      else
        mkRegistry (<[p := withRemoved e]> (rgHeap g))
          (match ceDisplaced e with Some d => <[id := d]> (rgEntries g) | None => delete id (rgEntries g) end)
          (S (rgGen g)) (rgEnding g)
  end.

Definition releaseLiveness (g : childRunRegistry) (id : gostr) : childRunRegistry :=
  match lookupEntry g id with Some (p, e) => setEntry p (withReleased e) g | None => g end.

(** [liveGeneration]: the number of the current generation, and whether a child is live. *)
Definition liveGeneration (g : childRunRegistry) : nat * bool :=
  (rgGen g, existsb (λ p, match rgHeap g !! p with Some e => negb (isDone e) | None => false end) (map_to_list (rgEntries g)).*2).

Definition reportOf (id : gostr) (e : childEntry) : childReport :=
  mkReport id (ceFamily e) (ceGoal e) (ceBackground e) (ceState e) (ceStop e) (ceDelivered e).

Definition byID (a b : childReport) : Prop := strLe (crID a) (crID b).
#[global] Instance byID_dec a b : Decision (byID a b).
Proof. unfold byID, strLe. apply _. Defined.

(** The entries of the map, with their ids. *)
Definition roster (g : childRunRegistry) : list (gostr * childEntry) :=
  omap (λ ip, (λ e, (ip.1, e)) <$> rgHeap g !! ip.2) (map_to_list (rgEntries g)).

Definition statusSnapshotMatching (g : childRunRegistry) (exclude : childFamily → bool) : list childReport :=
  merge_sort byID ((λ x, reportOf x.1 x.2) <$> filter (λ x, exclude (ceFamily x.2) = false) (roster g)).

Definition liveBackgroundIDsMatching (g : childRunRegistry) (exclude : childFamily → bool) : list gostr :=
  merge_sort strLe (filter (λ x, ceBackground x.2 && negb (isDone x.2) && negb (exclude (ceFamily x.2)) = true) (roster g)).*1.

Inductive collectOutcome := collectUnknown | collectRunning | collectForeground | collectAlready | collectOK.
#[global] Instance collectOutcome_eq_dec : EqDecision collectOutcome.
Proof. solve_decision. Defined.

(** The result, the status of the child ([None] is the zero status) and the outcome. *)
Definition collectMatching (g : childRunRegistry) (id : gostr) (exclude : childFamily → bool)
    : childRunRegistry * option ToolResult * option childReport * collectOutcome :=
  match lookupEntry g id with
  | None => (g, None, None, collectUnknown)
  | Some (p, e) =>
      if exclude (ceFamily e) then (g, None, None, collectUnknown)
      else if negb (isDone e) then (g, None, Some (reportOf id e), collectRunning)
      else if negb (ceBackground e) then (g, None, Some (reportOf id e), collectForeground)
      else if ceDelivered e then (g, None, Some (reportOf id e), collectAlready)
      else
        let e' := withFlags true (ceNoticed e) e in
        (setEntry p e' g, ceResult e, Some (reportOf id e'), collectOK)
  end.

(** A finished background child whose end was not announced. *)
Definition unnoticed (e : childEntry) : bool := ceBackground e && isDone e && negb (ceNoticed e).

Definition noticeEntry (heap : list childEntry) (p : nat) : list childEntry :=
  match heap !! p with Some e => if unnoticed e then <[p := withFlags (ceDelivered e) true e]> heap else heap | None => heap end.

(** [noticeFinishedBackground] *)
Definition noticeFinishedBackground (g : childRunRegistry) : childRunRegistry * list childReport :=
  (setHeap (foldl noticeEntry (rgHeap g) (map_to_list (rgEntries g)).*2) g,
   merge_sort byID ((λ x, reportOf x.1 x.2) <$> filter (λ x, unnoticed x.2 && negb (ceDelivered x.2) = true) (roster g))).

(** [cancelLiveBackground]: the ids to be joined. *)
Definition cancelEntry (heap : list childEntry) (p : nat) : list childEntry :=
  match heap !! p with
  | Some e => if ceBackground e && negb (isDone e) then <[p := withCancel true (ceClientCancelled e) e]> heap else heap
  | None => heap
  end.

Definition cancelLiveBackground (g : childRunRegistry) : childRunRegistry * list gostr :=
  (setHeap (foldl cancelEntry (rgHeap g) (map_to_list (rgEntries g)).*2) g, liveBackgroundIDsMatching g (λ _, false)).

(** [requestCancel] with the call of the cancel function that follows it
    ([Run.CancelChild]): the snapshot of the asks, [None] for an unknown or done id. *)
Definition requestCancel (g : childRunRegistry) (id : gostr) : childRunRegistry * option (list gostr) :=
  match lookupEntry g id with
  | None => (g, None)
  | Some (p, e) => if isDone e then (g, None) else (setEntry p (withCancel true true e) g, Some (snapshotAsksLocked e))
  end.

Definition clientCancelled (g : childRunRegistry) (id : gostr) : bool :=
  match lookupEntry g id with Some (_, e) => ceClientCancelled e | None => false end.

(** ** Steps *)

Inductive ChildStep :=
  | CRegister (id : gostr) (family : childFamily) (goal : gostr) (background : bool) (admitted : option bool)
  | CAttachTail (id : gostr) (buf : nat)
  | CSetExit (id : gostr) (code : Z)
  | CMarkRunning (id : gostr)
  | CRecordAsk (id askID : gostr)
  | CBeginDone (id : gostr) (stop : StopReason) (result : option ToolResult)
  | CEndDone (i : nat)
  | CTakeAsks (id : gostr)
  | CRemove (id : gostr)
  | CReleaseLiveness (id : gostr)
  | CCollect (id : gostr) (exclude : childFamily → bool)
  | CNotice
  | CCancelLive
  | CRequestCancel (id : gostr).

Definition childExec (g : childRunRegistry) (s : ChildStep) : childRunRegistry :=
  match s with
  | CRegister id f goal bg adm => (registerProtected g id f goal bg adm).1
  | CAttachTail id buf => attachOutputTail g id buf
  | CSetExit id code => setExitCode g id code
  | CMarkRunning id => markRunning g id
  | CRecordAsk id a => recordAsk g id a
  | CBeginDone id stop res => (beginDone g id stop res).1
  | CEndDone i => endDone g i
  | CTakeAsks id => (takeAsks g id).1
  | CRemove id => remove g id
  | CReleaseLiveness id => releaseLiveness g id
  | CCollect id ex => (collectMatching g id ex).1.1.1
  | CNotice => (noticeFinishedBackground g).1
  | CCancelLive => (cancelLiveBackground g).1
  | CRequestCancel id => (requestCancel g id).1
  end.

Definition childRun (g : childRunRegistry) (steps : list ChildStep) : childRunRegistry := foldl childExec g steps.

(** ** What a step does to an entry *)

(** An entry under a write that does not move it: flags only go up. *)
Record quietEntry (e e' : childEntry) : Prop := {
  qe_state : ceState e' = ceState e;
  qe_closed : ceClosed e' = ceClosed e;
  qe_displaced : ceDisplaced e' = ceDisplaced e;
  qe_kept : (ceBackground e', ceStop e', ceResult e') = (ceBackground e, ceStop e, ceResult e);
  qe_delivered : ceDelivered e = true → ceDelivered e' = true;
  qe_noticed : ceNoticed e = true → ceNoticed e' = true
}.

#[global] Instance quietEntry_preorder : PreOrder quietEntry.
Proof.
  split; [by split|]. intros e1 e2 e3 [A1 A2 A3 A4 A5 A6] [B1 B2 B3 B4 B5 B6]. split; [congruence..| |]; auto.
Qed.

(** A finished entry stays as it finished. *)
Record settled (e e' : childEntry) : Prop := {
  st_done : isDone e' = true;
  st_kept : (ceBackground e', ceStop e', ceResult e', ceClosed e') = (ceBackground e, ceStop e, ceResult e, ceClosed e);
  st_delivered : ceDelivered e = true → ceDelivered e' = true;
  st_noticed : ceNoticed e = true → ceNoticed e' = true
}.

Definition quietHeap : relation (list childEntry) := Forall2 quietEntry.

#[global] Instance quietHeap_preorder : PreOrder quietHeap.
Proof. unfold quietHeap. apply _. Qed.

Definition laterHeap (h h' : list childEntry) : Prop :=
  ∀ p e, h !! p = Some e → ∃ e', h' !! p = Some e' ∧ (isDone e = true → settled e e').

#[global] Instance laterHeap_preorder : PreOrder laterHeap.
Proof.
  split.
  - intros h p e He. exists e. split; [done|]. intros Hd. by split.
  - intros h1 h2 h3 H12 H23 p e He. destruct (H12 p e He) as (e2 & He2 & S12). destruct (H23 p e2 He2) as (e3 & He3 & S23).
    exists e3. split; [done|]. intros Hd. destruct (S12 Hd) as [A1 A2 A3 A4]. destruct (S23 A1) as [B1 B2 B3 B4].
    split; [done|congruence| |]; auto.
Qed.

Lemma isDone_state e e' : ceState e' = ceState e → isDone e' = isDone e.
Proof. unfold isDone. by intros ->. Qed.

Lemma quiet_settled e e' : quietEntry e e' → isDone e = true → settled e e'.
Proof. intros [Q1 Q2 Q3 Q4 Q5 Q6] Hd. split; [by rewrite (isDone_state e)|congruence|done|done]. Qed.

Lemma quietHeap_later h h' : quietHeap h h' → laterHeap h h'.
Proof.
  intros Hq p e He. destruct (Forall2_lookup_l _ _ _ _ _ Hq He) as (e' & He' & Hqe). exists e'. split; [done|]. by apply quiet_settled.
Qed.

Lemma quiet_insert h p e e' : h !! p = Some e → quietEntry e e' → quietHeap h (<[p := e']> h).
Proof.
  intros He Hq. apply Forall2_same_length_lookup_2; [by rewrite length_insert|]. intros i x y Hx Hy.
  destruct (decide (i = p)) as [-> |Hne].
  - rewrite list_lookup_insert_eq in Hy by (by eapply lookup_lt_Some). by simplify_eq.
  - rewrite list_lookup_insert_ne in Hy by done. by simplify_eq.
Qed.

Lemma quiet_fold (f : list childEntry → nat → list childEntry) h ps :
  (∀ h p, quietHeap h (f h p)) → quietHeap h (foldl f h ps).
Proof.
  intros Hf. revert h. induction ps as [|p ps IH]; intros h; cbn; [done|].
  etrans; [apply Hf|apply IH].
Qed.

(** The effects of a step. *)
Inductive effect (g : childRunRegistry) (s : ChildStep) (g' : childRunRegistry) : Prop :=
  | eff_quiet :
      quietHeap (rgHeap g) (rgHeap g') → rgEntries g' = rgEntries g → rgGen g' = rgGen g → rgEnding g' = rgEnding g → effect g s g'
  | eff_run id p e :
      s = CMarkRunning id → rgEntries g !! id = Some p → rgHeap g !! p = Some e → isDone e = false →
      g' = setEntry p (withRunning e) g → effect g s g'
  | eff_begin id p stop res :
      s = CBeginDone id stop res → rgEntries g !! id = Some p → quietHeap (rgHeap g) (rgHeap g') → rgEntries g' = rgEntries g →
      rgGen g' = rgGen g → rgEnding g' = rgEnding g ++ [(p, stop, res)] → effect g s g'
  | eff_late i p stop res :
      rgEnding g !! i = Some (p, stop, res) → g' = setEnding (delete i (rgEnding g)) g → effect g s g'
  | eff_done i p stop res e :
      rgEnding g !! i = Some (p, stop, res) → rgHeap g !! p = Some e → isDone e = false →
      g' = mkRegistry (<[p := withDone stop res e]> (rgHeap g)) (rgEntries g) (S (rgGen g)) (delete i (rgEnding g)) → effect g s g'
  | eff_remove id p e :
      s = CRemove id → rgEntries g !! id = Some p → rgHeap g !! p = Some e → isDone e = false → g' = remove g id → effect g s g'
  | eff_register id e :
      rgEntries g' = <[id := length (rgHeap g)]> (rgEntries g) → (∃ f goal bg adm, s = CRegister id f goal bg adm) →
      rgHeap g' = rgHeap g ++ [e] → rgGen g' = rgGen g → rgEnding g' = rgEnding g →
      isDone e = false → ceClosed e = 0 →
      ceDisplaced e = (match lookupEntry g id with Some (p, old) => if isDone old then Some p else None | None => None end) → effect g s g'.

Lemma lookupEntry_Some g id p e : lookupEntry g id = Some (p, e) ↔ rgEntries g !! id = Some p ∧ rgHeap g !! p = Some e.
Proof.
  unfold lookupEntry. destruct (rgEntries g !! id) as [q|]; cbn; [|naive_solver].
  destruct (rgHeap g !! q) as [x|] eqn:Hq; cbn; naive_solver.
Qed.

Lemma effect_same g s : effect g s g.
Proof. by apply eff_quiet. Qed.

Lemma effect_set g s p e e' : rgHeap g !! p = Some e → quietEntry e e' → effect g s (setEntry p e' g).
Proof. intros He Hq. apply eff_quiet; [|done..]. by eapply quiet_insert. Qed.

Lemma effect_live g s id f :
  (∀ e, quietEntry e (f e)) → effect g s (updateLive f g id).
Proof.
  intros Hf. unfold updateLive. destruct (lookupEntry g id) as [[p e]|] eqn:El; [|apply effect_same].
  case_bool; [apply effect_same|]. apply lookupEntry_Some in El as [_ He]. by eapply effect_set.
Qed.

Lemma noticeEntry_quiet h p : quietHeap h (noticeEntry h p).
Proof. unfold noticeEntry. destruct (h !! p) as [e|] eqn:He; [|done]. case_bool; [|done]. by eapply quiet_insert. Qed.

Lemma cancelEntry_quiet h p : quietHeap h (cancelEntry h p).
Proof. unfold cancelEntry. destruct (h !! p) as [e|] eqn:He; [|done]. case_bool; [|done]. by eapply quiet_insert. Qed.

Lemma childExec_effect g s : effect g s (childExec g s).
Proof.
  destruct s as [id f goal bg adm|id buf|id code|id|id a|id stop res|i|id|id|id|id ex| | |id]; cbn [childExec].
  - unfold registerProtected. cbv zeta. set (asked := if f =s childFamilyShellCmd then None else adm).
    destruct asked as [[]|]; [|apply effect_same|]; (eapply (eff_register _ _ _ id); [done|by do 4 eexists|done..]).
  - by apply effect_live.
  - by apply effect_live.
  - unfold markRunning, updateLive. destruct (lookupEntry g id) as [[p e]|] eqn:El; [|apply effect_same].
    case_bool; [apply effect_same|]. apply lookupEntry_Some in El as [Hi He]. by eapply eff_run.
  - by apply effect_live.
  - unfold beginDone, takeEntryAsks. destruct (lookupEntry g id) as [[p e]|] eqn:El; [|apply effect_same].
    apply lookupEntry_Some in El as [Hi He]. eapply eff_begin; [done|done| |done..]. by eapply quiet_insert.
  - unfold endDone. destruct (rgEnding g !! i) as [[[p stop] res]|] eqn:Hi; [|apply effect_same]. cbv zeta. cbn [rgHeap setEnding].
    destruct (rgHeap g !! p) as [e|] eqn:He; [|by eapply eff_late]. case_bool; [by eapply eff_late|by eapply eff_done].
  - unfold takeAsks, takeEntryAsks. destruct (lookupEntry g id) as [[p e]|] eqn:El; [|apply effect_same].
    apply lookupEntry_Some in El as [Hi He]. by eapply effect_set.
  - destruct (lookupEntry g id) as [[p e]|] eqn:El.
    + destruct (isDone e) eqn:Ed; [unfold remove; rewrite El, Ed; apply effect_same|]. apply lookupEntry_Some in El as [Hi He]. by eapply eff_remove.
    + unfold remove. rewrite El. apply effect_same.
  - unfold releaseLiveness. destruct (lookupEntry g id) as [[p e]|] eqn:El; [|apply effect_same].
    apply lookupEntry_Some in El as [Hi He]. by eapply effect_set.
  - unfold collectMatching. destruct (lookupEntry g id) as [[p e]|] eqn:El; [|apply effect_same]. apply lookupEntry_Some in El as [Hi He].
    repeat (case_bool; [apply effect_same|]). by eapply effect_set.
  - apply eff_quiet; [|done..]. apply quiet_fold, noticeEntry_quiet.
  - apply eff_quiet; [|done..]. apply quiet_fold, cancelEntry_quiet.
  - unfold requestCancel. destruct (lookupEntry g id) as [[p e]|] eqn:El; [|apply effect_same]. case_bool; [apply effect_same|].
    apply lookupEntry_Some in El as [Hi He]. by eapply effect_set.
Qed.

Lemma later_insert h p e e' : h !! p = Some e → isDone e = false → laterHeap h (<[p := e']> h).
Proof.
  intros He Hd q x Hx. destruct (decide (q = p)) as [-> |Hne].
  - simplify_eq. exists e'. split; [by apply list_lookup_insert_eq; eapply lookup_lt_Some|]. congruence.
  - exists x. rewrite list_lookup_insert_ne by done. split; [done|]. intros Hd'. by split.
Qed.

Lemma childExec_later g s : laterHeap (rgHeap g) (rgHeap (childExec g s)).
Proof.
  destruct (childExec_effect g s) as [Hq _ _ _|id p e _ _ He Hd ->|id p stop res _ _ Hq _ _ _|i p stop res _ ->|i p stop res e _ He Hd ->
    |id p e _ Hi He Hd ->|id e _ _ -> _ _ _ _ _].
  - by apply quietHeap_later.
  - by eapply later_insert.
  - by apply quietHeap_later.
  - done.
  - by eapply later_insert.
  - unfold remove. rewrite (proj2 (lookupEntry_Some g id p e)), Hd by done. by eapply later_insert.
  - intros p x Hx. exists x. split; [by apply lookup_app_l_Some|]. intros Hd. by split.
Qed.

Lemma childRun_later g steps : laterHeap (rgHeap g) (rgHeap (childRun g steps)).
Proof.
  revert g. induction steps as [|s steps IH]; intros g; cbn; [done|]. etrans; [apply childExec_later|apply IH].
Qed.


(** ** Ownership *)

(** Every entry was registered for one id: the map sends an id to entries registered
    for it, and the entry a registration displaced is a finished one of the same id. *)
Record owned (g : childRunRegistry) (own : nat → gostr) : Prop := {
  ow_map : ∀ id p, rgEntries g !! id = Some p → own p = id ∧ p < length (rgHeap g);
  ow_ending : ∀ p stop res, (p, stop, res) ∈ rgEnding g → p < length (rgHeap g);
  ow_displaced : ∀ p e d, rgHeap g !! p = Some e → ceDisplaced e = Some d →
    own d = own p ∧ ∃ old, rgHeap g !! d = Some old ∧ isDone old = true
}.

Lemma owned_new own : owned newChildRunRegistry own.
Proof. split; [intros id p; cbn; by rewrite lookup_empty|intros p stop res; cbn; set_solver|intros p e d; cbn; by rewrite lookup_nil]. Qed.

Lemma quiet_length h h' : quietHeap h h' → length h' = length h.
Proof. intros Hq. symmetry. by eapply Forall2_length. Qed.

(** The map and the pending terminals stay in range when the heap does not shrink, and
    a displaced entry stays done. *)
Lemma owned_displaced_later (h h' : list childEntry) (own : nat → gostr) (p d : nat) :
  (own d = own p ∧ ∃ old, h !! d = Some old ∧ isDone old = true) → laterHeap h h' →
  own d = own p ∧ ∃ old, h' !! d = Some old ∧ isDone old = true.
Proof.
  intros (Ho & old & Hold & Hd) Hl. split; [done|]. destruct (Hl d old Hold) as (old' & Hold' & Hs). exists old'. split; [done|]. apply (Hs Hd).
Qed.

Lemma owned_displaced_insert g own p e e' :
  owned g own → rgHeap g !! p = Some e → isDone e = false → ceDisplaced e' = ceDisplaced e ∨ ceDisplaced e' = None →
  ∀ q x d, <[p := e']> (rgHeap g) !! q = Some x → ceDisplaced x = Some d →
    own d = own q ∧ ∃ old, <[p := e']> (rgHeap g) !! d = Some old ∧ isDone old = true.
Proof.
  intros [_ _ Od] He Hd Hdis q x d Hx Hxd. apply (owned_displaced_later (rgHeap g)); [|by eapply later_insert].
  destruct (decide (q = p)) as [-> |Hne].
  - rewrite list_lookup_insert_eq in Hx by (by eapply lookup_lt_Some). simplify_eq. destruct Hdis as [Hs|Hn]; [|congruence].
    apply (Od p e d He). congruence.
  - rewrite list_lookup_insert_ne in Hx by done. by eapply Od.
Qed.

Lemma owned_displaced_quiet g own h' :
  owned g own → quietHeap (rgHeap g) h' →
  ∀ q x d, h' !! q = Some x → ceDisplaced x = Some d → own d = own q ∧ ∃ old, h' !! d = Some old ∧ isDone old = true.
Proof.
  intros [_ _ Od] Hq q x d Hx Hxd. apply (owned_displaced_later (rgHeap g)); [|by apply quietHeap_later].
  destruct (Forall2_lookup_r _ _ _ _ _ Hq Hx) as (e & He & [_ _ Q3 _ _ _]). apply (Od q e d He). congruence.
Qed.

(** The registry keeps the ownership, which a registration extends. *)
Lemma owned_step g own s :
  owned g own → ∃ own', owned (childExec g s) own' ∧ ∀ p, p < length (rgHeap g) → own' p = own p.
Proof.
  intros Ho. pose proof Ho as [Om Oe Od].
  destruct (childExec_effect g s) as [Hq Hm _ He|id p e _ Hi Hp Hd ->|id p stop res _ Hi Hq Hm _ He|i p stop res Hi ->|i p stop res e Hi Hp Hd ->
    |id p e _ Hi Hp Hd ->|id e Hm _ Hh _ He _ _ Hdis].
  - exists own. split; [|done]. split; [rewrite Hm|rewrite He|by eapply owned_displaced_quiet]; rewrite (quiet_length _ _ Hq); eauto.
  - exists own. split; [|done]. split; cbn [setEntry setHeap rgHeap rgEntries rgEnding]; rewrite ?length_insert; [done|done|].
    apply (owned_displaced_insert g own p e); try done. by right.
  - exists own. split; [|done]. split; [rewrite Hm|rewrite He|by eapply owned_displaced_quiet]; rewrite (quiet_length _ _ Hq); [done|].
    intros q st rs [Hin|Hin]%elem_of_app; [by eapply Oe|]. apply list_elem_of_singleton in Hin. simplify_eq. by apply (Om id).
  - exists own. split; [|done]. split; [done| |done]. intros q st rs Hin. apply list_elem_of_delete_inv in Hin. by eapply Oe.
  - exists own. split; [|done]. split; cbn [rgHeap rgEntries rgEnding]; rewrite ?length_insert; [done| |].
    + intros q st rs Hin. apply list_elem_of_delete_inv in Hin. by eapply Oe.
    + apply (owned_displaced_insert g own p e); try done. by right.
  - exists own. split; [|done]. unfold remove. rewrite (proj2 (lookupEntry_Some g id p e)), Hd by done.
    split; cbn [rgHeap rgEntries rgEnding]; rewrite ?length_insert; [|done|apply (owned_displaced_insert g own p e); try done; by left].
    intros id' q. destruct (ceDisplaced e) as [d|] eqn:Hdis.
    + rewrite lookup_insert_Some. intros [[<- <-]|[Hne Hq]]; [|by apply Om]. destruct (Od p e d Hp Hdis) as (-> & old & Hold & _).
      split; [apply (Om id p Hi)|by eapply lookup_lt_Some].
    + rewrite lookup_delete_Some. intros [_ Hq]. by apply Om.
  - set (n := length (rgHeap g)) in *. exists (λ p, if decide (p = n) then id else own p).
    assert (Hlt : ∀ p, p < n → (if decide (p = n) then id else own p) = own p) by (intros p Hp; case_decide; [lia|done]).
    split; [|done]. split.
    + intros id' p. rewrite Hm, Hh, length_app. cbn. rewrite lookup_insert_Some. intros [[<- <-]|[Hne Hp]].
      * by rewrite decide_True; [split; [done|]; unfold n; lia|].
      * destruct (Om id' p Hp) as [Ho' Hp']. rewrite Hlt by done. split; [done|unfold n in *; lia].
    + intros p st rs. rewrite He, Hh, length_app. intros Hin%Oe. lia.
    + intros p x d Hx Hxd. rewrite Hh in Hx |- *. apply lookup_app_Some in Hx as [Hx|[Hge Hx]].
      * destruct (Od p x d Hx Hxd) as (Hod & old & Hold & Hdone). pose proof (lookup_lt_Some _ _ _ Hx). pose proof (lookup_lt_Some _ _ _ Hold).
        rewrite !Hlt by done. split; [done|]. exists old. split; [by apply lookup_app_l_Some|done].
      * apply list_lookup_singleton_Some in Hx as [Hx0 <-]. replace p with n by (unfold n; lia). rewrite Hxd in Hdis.
        destruct (lookupEntry g id) as [[q old]|] eqn:El; [|done]. destruct (isDone old) eqn:Hdone; [|done]. simplify_eq.
        apply lookupEntry_Some in El as [Hq Hold]. destruct (Om id q Hq) as [Hoq Hlq]. rewrite (Hlt q Hlq), decide_True by done.
        split; [done|]. exists old. split; [by apply lookup_app_l_Some|done].
Qed.

Lemma owned_run g own steps :
  owned g own → ∃ own', owned (childRun g steps) own' ∧ ∀ p, p < length (rgHeap g) → own' p = own p.
Proof.
  revert g own. induction steps as [|s steps IH]; intros g own Ho; [by exists own|]. cbn.
  destruct (owned_step g own s Ho) as (own1 & Ho1 & E1). destruct (IH _ _ Ho1) as (own2 & Ho2 & E2). exists own2. split; [done|].
  intros p Hp. rewrite E2; [by apply E1|]. destruct (lookup_lt_is_Some_2 _ _ Hp) as [e He].
  destruct (childExec_later g s p e He) as (e' & He' & _). by eapply lookup_lt_Some.
Qed.

Lemma owned_inj g own id1 id2 p : owned g own → rgEntries g !! id1 = Some p → rgEntries g !! id2 = Some p → id1 = id2.
Proof. intros [Om _ _] H1%Om H2%Om. destruct H1, H2. congruence. Qed.


(** ** Ends *)

(** What the callers keep to: an entry whose terminal is under way is not removed
    ([remove] is the abort before the start of the drive, [markDoneResult] its end). *)
Definition disciplined (g : childRunRegistry) (s : ChildStep) : bool :=
  match s with
  | CRemove id => match rgEntries g !! id with Some p => forallb (λ t, negb (t.1.1 =s p)) (rgEnding g) | None => true end
  | _ => true
  end.

Fixpoint disciplinedRun (g : childRunRegistry) (steps : list ChildStep) : bool :=
  match steps with [] => true | s :: steps => disciplined g s && disciplinedRun (childExec g s) steps end.

(** An entry in use: in the map, or with a terminal under way. *)
Definition inUse (g : childRunRegistry) (p : nat) : Prop :=
  (∃ id, rgEntries g !! id = Some p) ∨ (∃ stop res, (p, stop, res) ∈ rgEnding g).

Definition doneCount (e : childEntry) : nat := if isDone e then 1 else 0.

Record ends (g : childRunRegistry) : Prop := {
  en_once : ∀ p e, rgHeap g !! p = Some e → doneCount e ≤ ceClosed e ≤ 1;
  en_use : ∀ p e, rgHeap g !! p = Some e → inUse g p → ceClosed e = doneCount e;
  en_gen : rgGen g = sum_list (ceClosed <$> rgHeap g)
}.

Lemma sum_closed_insert (h : list childEntry) p e e' :
  h !! p = Some e → ceClosed e' = S (ceClosed e) → sum_list (ceClosed <$> <[p := e']> h) = S (sum_list (ceClosed <$> h)).
Proof.
  revert p. induction h as [|x h IH]; intros [|p] He Hc; csimpl in *; simplify_eq; [cbn; lia|].
  change (ceClosed x + sum_list (ceClosed <$> <[p := e']> h) = S (ceClosed x + sum_list (ceClosed <$> h))). rewrite (IH p) by done. lia.
Qed.

Lemma sum_closed_ext (h h' : list childEntry) : Forall2 (λ e e', ceClosed e' = ceClosed e) h h' → sum_list (ceClosed <$> h') = sum_list (ceClosed <$> h).
Proof. induction 1; cbn; lia. Qed.

Lemma quiet_sum h h' : quietHeap h h' → sum_list (ceClosed <$> h') = sum_list (ceClosed <$> h).
Proof. intros Hq. apply sum_closed_ext. eapply Forall2_impl; [exact Hq|]. by intros e e' []. Qed.

Lemma quiet_count e e' : quietEntry e e' → doneCount e' = doneCount e ∧ ceClosed e' = ceClosed e.
Proof. intros [Q1 Q2 _ _ _ _]. unfold doneCount. by rewrite (isDone_state e e'). Qed.

Lemma ends_quiet g h' :
  ends g → quietHeap (rgHeap g) h' →
  (∀ p e, h' !! p = Some e → doneCount e ≤ ceClosed e ≤ 1) ∧ (∀ p e, h' !! p = Some e → inUse g p → ceClosed e = doneCount e).
Proof.
  intros [E1 E2 _] Hq. split; intros p e' He'; destruct (Forall2_lookup_r _ _ _ _ _ Hq He') as (e & He & Hqe);
    destruct (quiet_count e e' Hqe) as [-> ->]; eauto.
Qed.

Lemma insert_cases {A} (l : list A) p y q x : <[p := y]> l !! q = Some x → (q = p ∧ x = y) ∨ (q ≠ p ∧ l !! q = Some x).
Proof. rewrite list_lookup_insert_Some. naive_solver. Qed.

Lemma ends_remove g own id p e :
  owned g own → disciplined g (CRemove id) = true → ends g → rgEntries g !! id = Some p → rgHeap g !! p = Some e → isDone e = false →
  ends (remove g id).
Proof.
  intros Ho Hdis [E1 E2 E3] Hi Hp Hd.
  assert (Hc : ceClosed e = 0). { rewrite (E2 p e Hp); [unfold doneCount; by rewrite Hd|]. left. by exists id. }
  unfold remove. rewrite (proj2 (lookupEntry_Some g id p e)), Hd by done. split; cbn [rgHeap rgGen].
  + intros q x [[-> ->]|[_ Hx]]%insert_cases; [|by eapply E1]. change (doneCount e ≤ S (ceClosed e) ≤ 1). unfold doneCount. rewrite Hd. lia.
  + intros q x Hx Hu. assert (Huse : q ≠ p ∧ (inUse g q ∨ ∃ old, rgHeap g !! q = Some old ∧ isDone old = true)).
    { destruct Hu as [(id' & Hu)|(st & rs & Hu)]; cbn [rgEntries rgEnding] in Hu.
      - destruct (ceDisplaced e) as [d|] eqn:Hd'.
        + apply lookup_insert_Some in Hu as [[<- <-]|[Hne Hu]].
          * destruct (ow_displaced g own Ho p e d Hp Hd') as (_ & old & Hold & Hdone). split; [congruence|right; eauto].
          * split; [|left; left; eauto]. intros ->. by destruct (Hne (owned_inj g own id id' p Ho Hi Hu)).
        + apply lookup_delete_Some in Hu as [Hne Hu]. split; [|left; left; eauto]. intros ->. by destruct (Hne (owned_inj g own id id' p Ho Hi Hu)).
      - split; [|left; right; eauto]. intros ->. cbn in Hdis. rewrite Hi in Hdis. rewrite forallb_forall in Hdis.
        specialize (Hdis (p, st, rs)). apply list_elem_of_In in Hu. specialize (Hdis Hu). cbn in Hdis. by rewrite bool_decide_true in Hdis. }
    destruct Huse as [Hne Huse]. apply insert_cases in Hx as [[-> _]|[_ Hx]]; [done|].
    destruct Huse as [Huse|(old & Hold & Hdone)]; [by apply E2 in Hx|]. rewrite Hx in Hold. injection Hold as <-.
    pose proof (E1 q x Hx) as Hb. unfold doneCount in *. rewrite Hdone in *. lia.
  + rewrite E3. symmetry. by apply (sum_closed_insert _ p e).
Qed.

Lemma ends_step g own s : owned g own → disciplined g s = true → ends g → ends (childExec g s).
Proof.
  intros Ho Hdis Hen. pose proof Hen as [E1 E2 E3].
  destruct (childExec_effect g s) as [Hq Hm Hg He|id p e _ Hi Hp Hd ->|id p stop res _ Hi Hq Hm Hg He|i p stop res Hi ->|i p stop res e Hi Hp Hd ->
    |id p e -> Hi Hp Hd ->|id e Hm _ Hh Hg He Hnd Hc _].
  - destruct (ends_quiet g _ Hen Hq) as [F1 F2]. split; [done| |by rewrite Hg, (quiet_sum _ _ Hq)].
    intros p e Hp Hu. apply (F2 p e Hp). unfold inUse in *. by rewrite Hm, He in Hu.
  - split; cbn [setEntry setHeap rgHeap rgGen].
    + intros q x [[-> ->]|[_ Hx]]%insert_cases; [|by eapply E1]. change (0 ≤ ceClosed e ≤ 1). destruct (E1 p e Hp). lia.
    + intros q x [[-> ->]|[_ Hx]]%insert_cases; [|by apply E2]. intros Hu. change (ceClosed e = 0). rewrite (E2 p e Hp) by exact Hu. unfold doneCount. by rewrite Hd.
    + rewrite E3. symmetry. apply sum_closed_ext. apply Forall2_same_length_lookup_2; [by rewrite length_insert|].
      intros q x y Hx [[-> ->]|[_ Hy]]%insert_cases; by simplify_eq.
  - destruct (ends_quiet g _ Hen Hq) as [F1 F2]. split; [done| |by rewrite Hg, (quiet_sum _ _ Hq)].
    intros q x Hx [(id' & Hu)|(st & rs & Hu)]; apply (F2 q x Hx).
    + left. exists id'. by rewrite <-Hm.
    + rewrite He in Hu. apply elem_of_app in Hu as [Hu|Hu%list_elem_of_singleton]; [by right; eauto|]. simplify_eq. left. by exists id.
  - split; [done| |done]. intros q x Hx Hu. apply (E2 q x Hx). destruct Hu as [Hu|(st & rs & Hu%list_elem_of_delete_inv)]; [by left|right; eauto].
  - assert (Hc : ceClosed e = 0). { rewrite (E2 p e Hp); [unfold doneCount; by rewrite Hd|]. right. exists stop, res. by apply list_elem_of_lookup_2 in Hi. }
    split; cbn [rgHeap rgGen].
    + intros q x [[-> ->]|[_ Hx]]%insert_cases; [change (1 ≤ S (ceClosed e) ≤ 1); lia|by eapply E1].
    + intros q x [[-> ->]|[_ Hx]]%insert_cases; [intros _; change (S (ceClosed e) = 1); lia|]. intros Hu. apply (E2 q x Hx).
      destruct Hu as [Hu|(st & rs & Hu%list_elem_of_delete_inv)]; [by left|right; eauto].
    + rewrite E3. symmetry. by apply (sum_closed_insert _ p e).
  - by apply (ends_remove g own id p e).
  - assert (Hc0 : doneCount e = 0) by (unfold doneCount; by rewrite Hnd). split.
    + intros q x Hx. rewrite Hh in Hx. apply lookup_app_Some in Hx as [Hx|[_ [_ <-]%list_lookup_singleton_Some]]; [by eapply E1|lia].
    + intros q x Hx Hu. rewrite Hh in Hx. apply lookup_app_Some in Hx as [Hx|[_ [_ <-]%list_lookup_singleton_Some]]; [|lia].
      apply (E2 q x Hx). unfold inUse in Hu |- *. rewrite Hm, He in Hu. destruct Hu as [(id' & Hu)|Hu]; [left|by right].
      apply lookup_insert_Some in Hu as [[_ <-]|[_ Hu]]; [|by exists id']. apply lookup_lt_Some in Hx. lia.
    + rewrite Hg, Hh, E3, fmap_app, sum_list_with_app. cbn. lia.
Qed.

Lemma ends_run g own steps : owned g own → disciplinedRun g steps = true → ends g → ends (childRun g steps).
Proof.
  revert g own. induction steps as [|s steps IH]; intros g own Ho Hd He; [done|]. cbn in *. bprop.
  destruct (owned_step g own s Ho) as (own' & Ho' & _). apply (IH _ own'); [done..|]. by apply (ends_step g own).
Qed.

(** No end of a child is signalled twice and none is lost: in every sequence of
    registrations, starts, terminals and removals in which an entry is not removed while
    its own terminal is under way, the channel of an entry is closed at most once (a
    second close would panic), a finished entry has its channel closed, an entry of the
    roster has it closed exactly when it is finished, and the number of generations that
    woke the waiters for any child is the number of ends. *)
Theorem child_ends_once (steps : list ChildStep) (g := childRun newChildRunRegistry steps) :
  disciplinedRun newChildRunRegistry steps = true →
  (∀ p e, rgHeap g !! p = Some e → ceClosed e ≤ 1 ∧ (isDone e = true → ceClosed e = 1)) ∧
  (∀ id p e, lookupEntry g id = Some (p, e) → ceClosed e = (if isDone e then 1 else 0)) ∧
  rgGen g = sum_list (ceClosed <$> rgHeap g).
Proof.
  intros Hd. destruct (ends_run newChildRunRegistry (λ _, []) steps) as [E1 E2 E3]; [apply owned_new|done|by split|]. fold g in E1, E2, E3.
  split_and!; [| |done].
  - intros p e Hp. specialize (E1 p e Hp). unfold doneCount in E1. destruct (isDone e); split; try lia; done.
  - intros id p e [Hi Hp]%lookupEntry_Some. apply (E2 p e Hp). left. by exists id.
Qed.

(** ** Delivery and notices *)

(** What the children of a run hand to the parent: the results it collects and the
    notices it gets, with the entries they come from. *)
Inductive ChildOut := Delivered (p : nat) (res : option ToolResult) | Announced (p : nat) (r : childReport).

Definition announcedBy (g : childRunRegistry) : list (nat * childReport) :=
  omap (λ ip, e ← rgHeap g !! ip.2; if unnoticed e && negb (ceDelivered e) then Some (ip.2, reportOf ip.1 e) else None) (map_to_list (rgEntries g)).

Definition childOut (g : childRunRegistry) (s : ChildStep) : list ChildOut :=
  match s with
  | CCollect id ex =>
      match lookupEntry g id, collectMatching g id ex with
      | Some (p, _), (_, res, _, collectOK) => [Delivered p res]
      | _, _ => []
      end
  | CNotice => (λ pr, Announced pr.1 pr.2) <$> announcedBy g
  | _ => []
  end.

Fixpoint childOuts (g : childRunRegistry) (steps : list ChildStep) : list ChildOut :=
  match steps with [] => [] | s :: steps => childOut g s ++ childOuts (childExec g s) steps end.

Definition deliveredOf (o : ChildOut) : option nat := match o with Delivered p _ => Some p | _ => None end.
Definition announcedOf (o : ChildOut) : option nat := match o with Announced p _ => Some p | _ => None end.

(** The notices of a step are the reports [noticeFinishedBackground] returns. *)
Lemma announcedBy_reports g : (announcedBy g).*2 ≡ₚ (noticeFinishedBackground g).2.
Proof.
  cbn. rewrite merge_sort_Permutation. unfold announcedBy, roster. induction (map_to_list (rgEntries g)) as [|[id p] l IH]; cbn; [done|].
  destruct (rgHeap g !! p) as [e|]; cbn; [|exact IH].
  case_decide as Hu; cbn in Hu; [rewrite Hu; cbn; by rewrite IH|apply not_true_is_false in Hu; rewrite Hu; exact IH].
Qed.

Lemma announcedBy_Some g p r :
  (p, r) ∈ announcedBy g ↔ ∃ id e, lookupEntry g id = Some (p, e) ∧ unnoticed e = true ∧ ceDelivered e = false ∧ r = reportOf id e.
Proof.
  unfold announcedBy. rewrite list_elem_of_omap. split.
  - intros ([id q] & Hin%elem_of_map_to_list & Hr). cbn in Hr. destruct (rgHeap g !! q) as [e|] eqn:He; [|done]. cbn in Hr.
    destruct (unnoticed e && negb (ceDelivered e)) eqn:Hu; [|done]. bprop. simplify_eq. exists id, e. split_and!; [by apply lookupEntry_Some|done..].
  - intros (id & e & [Hi He]%lookupEntry_Some & Hu & Hd & ->). exists (id, p). split; [by apply elem_of_map_to_list|]. cbn. by rewrite He; cbn; rewrite Hu, Hd.
Qed.

Lemma collectMatching_ok g id ex g' res st :
  collectMatching g id ex = (g', res, st, collectOK) →
  ∃ p e, lookupEntry g id = Some (p, e) ∧ isDone e = true ∧ ceBackground e = true ∧ ceDelivered e = false ∧
    res = ceResult e ∧ g' = setEntry p (withFlags true (ceNoticed e) e) g.
Proof.
  unfold collectMatching. destruct (lookupEntry g id) as [[p e]|]; [|done]. repeat (case_bool; [done|]). intros ?. simplify_eq. bprop.
  exists p, e. split_and!; try done; by apply negb_false_iff.
Qed.

Lemma childOut_delivered g s p res :
  Delivered p res ∈ childOut g s →
  ∃ e, rgHeap g !! p = Some e ∧ isDone e = true ∧ ceBackground e = true ∧ ceDelivered e = false ∧ ceResult e = res ∧
    rgHeap (childExec g s) !! p = Some (withFlags true (ceNoticed e) e).
Proof.
  destruct s; cbn; try (by intros ?%elem_of_nil); [|by intros ([] & ? & _)%list_elem_of_fmap].
  destruct (lookupEntry g id) as [[q e]|] eqn:El; [|by intros ?%elem_of_nil]. destruct (collectMatching g id exclude) as [[[g' r] st] o] eqn:Ec.
  destruct o; try (by intros ?%elem_of_nil). intros Hin%list_elem_of_singleton. simplify_eq.
  destruct (collectMatching_ok _ _ _ _ _ _ Ec) as (q' & e' & El' & Hd & Hb & Hdel & -> & ->). rewrite El in El'. simplify_eq.
  apply lookupEntry_Some in El as [_ He]. exists e'. split_and!; try done. cbn. apply list_lookup_insert_eq. by eapply lookup_lt_Some.
Qed.

Lemma notice_marks ps h p e :
  h !! p = Some e → unnoticed e = true → p ∈ ps → ∃ e', foldl noticeEntry h ps !! p = Some e' ∧ ceNoticed e' = true.
Proof.
  intros He Hu Hin. apply list_elem_of_split in Hin as (l1 & l2 & ->). rewrite foldl_app. cbn.
  set (h1 := foldl noticeEntry h l1). assert (Hq : quietHeap h h1) by apply quiet_fold, noticeEntry_quiet.
  destruct (Forall2_lookup_l _ _ _ _ _ Hq He) as (e1 & He1 & [Q1 _ _ Q4 _ _]).
  assert (Hn : ∃ e2, noticeEntry h1 p !! p = Some e2 ∧ ceNoticed e2 = true).
  { unfold noticeEntry. rewrite He1. unfold unnoticed in Hu |- *. bprop. rewrite (isDone_state e e1 Q1). destruct (ceNoticed e1) eqn:Hn.
    - exists e1. rewrite andb_false_r. done.
    - replace (ceBackground e1) with true by congruence. replace (isDone e) with true by congruence. cbn.
      eexists. split; [apply list_lookup_insert_eq; by eapply lookup_lt_Some|done]. }
  destruct Hn as (e2 & He2 & Hn2).
  destruct (Forall2_lookup_l _ _ _ _ _ (quiet_fold noticeEntry (noticeEntry h1 p) l2 noticeEntry_quiet) He2) as (e3 & He3 & [_ _ _ _ _ Q6]).
  exists e3. auto.
Qed.

Lemma childOut_announced g s p r :
  Announced p r ∈ childOut g s →
  ∃ e, rgHeap g !! p = Some e ∧ isDone e = true ∧ ceBackground e = true ∧ ceDelivered e = false ∧ ceNoticed e = false ∧
    ∃ e', rgHeap (childExec g s) !! p = Some e' ∧ ceNoticed e' = true.
Proof.
  destruct s; cbn; try (by intros ?%elem_of_nil).
  - destruct (lookupEntry g id) as [[q e]|]; [|by intros ?%elem_of_nil]. destruct (collectMatching g id exclude) as [[[g' r'] st] o].
    destruct o; try (by intros ?%elem_of_nil). by intros ?%list_elem_of_singleton.
  - intros ([q r'] & Heq & Hin)%list_elem_of_fmap. cbn in Heq. simplify_eq.
    apply announcedBy_Some in Hin as (id & e & [Hi He]%lookupEntry_Some & Hu & Hd & _).
    destruct (notice_marks (map_to_list (rgEntries g)).*2 (rgHeap g) q e He Hu) as (e' & He' & Hn).
    { apply list_elem_of_fmap. exists (id, q). split; [done|by apply elem_of_map_to_list]. }
    unfold unnoticed in Hu. bprop. exists e. split_and!; try done. by exists e'.
Qed.

Lemma childOuts_split g steps o :
  o ∈ childOuts g steps → ∃ l1 s l2, steps = l1 ++ s :: l2 ∧ o ∈ childOut (childRun g l1) s.
Proof.
  revert g. induction steps as [|s steps IH]; intros g; cbn; [set_solver|]. intros [Hin|Hin]%elem_of_app; [by exists [], s, steps|].
  destruct (IH _ Hin) as (l1 & s' & l2 & -> & Ho). by exists (s :: l1), s', l2.
Qed.

(** A delivered entry is neither delivered nor announced again, a noticed one is not
    announced again. *)
Lemma delivered_final g steps p e :
  rgHeap g !! p = Some e → isDone e = true → ceDelivered e = true →
  p ∉ omap deliveredOf (childOuts g steps) ∧ p ∉ omap announcedOf (childOuts g steps).
Proof.
  intros He Hd Hdel. split; intros (o & Hin & Hp)%list_elem_of_omap; destruct o as [q res|q r]; try done; cbn in Hp; simplify_eq;
    destruct (childOuts_split _ _ _ Hin) as (l1 & s & l2 & -> & Ho); destruct (childRun_later g l1 p e He) as (e' & He' & Hs);
    destruct (Hs Hd) as [_ _ S3 _].
  - destruct (childOut_delivered _ _ _ _ Ho) as (x & Hx & _ & _ & Hxd & _). rewrite He' in Hx. simplify_eq. rewrite S3 in Hxd; done.
  - destruct (childOut_announced _ _ _ _ Ho) as (x & Hx & _ & _ & Hxd & _). rewrite He' in Hx. simplify_eq. rewrite S3 in Hxd; done.
Qed.

Lemma noticed_final g steps p e :
  rgHeap g !! p = Some e → isDone e = true → ceNoticed e = true → p ∉ omap announcedOf (childOuts g steps).
Proof.
  intros He Hd Hn (o & Hin & Hp)%list_elem_of_omap. destruct o as [q res|q r]; [done|]. cbn in Hp. simplify_eq.
  destruct (childOuts_split _ _ _ Hin) as (l1 & s & l2 & -> & Ho). destruct (childRun_later g l1 p e He) as (e' & He' & Hs).
  destruct (Hs Hd) as [_ _ _ S4]. destruct (childOut_announced _ _ _ _ Ho) as (x & Hx & _ & _ & _ & Hxn & _). rewrite He' in Hx.
  simplify_eq. rewrite S4 in Hxn; done.
Qed.

Lemma owned_pointers_nodup g own : owned g own → NoDup (map_to_list (rgEntries g)).*2.
Proof.
  intros Ho. apply NoDup_fmap_2_strong; [|apply NoDup_map_to_list]. intros [id1 p1] [id2 p2] H1%elem_of_map_to_list H2%elem_of_map_to_list. cbn.
  intros ->. f_equal. by eapply owned_inj.
Qed.

Lemma announcedBy_nodup g own : owned g own → NoDup (announcedBy g).*1.
Proof.
  intros Ho%owned_pointers_nodup. revert Ho. unfold announcedBy. generalize (map_to_list (rgEntries g)). intros l Hnd. apply (sublist_NoDup _ _ Hnd). clear Hnd.
  induction l as [|[id p] l IH]; cbn; [done|]. destruct (rgHeap g !! p) as [e|]; cbn; [|by constructor].
  destruct (unnoticed e && negb (ceDelivered e)); cbn; by constructor.
Qed.

Lemma childOut_nodup g own s : owned g own → NoDup (omap deliveredOf (childOut g s)) ∧ NoDup (omap announcedOf (childOut g s)).
Proof.
  intros Ho. destruct s; cbn; try (split; constructor).
  - destruct (lookupEntry g id) as [[p e]|]; [|split; constructor].
    destruct (collectMatching g id exclude) as [[[g' r] st] o]. destruct o; cbn; split; repeat constructor; set_solver.
  - assert (Hn : omap deliveredOf ((λ pr, Announced pr.1 pr.2) <$> announcedBy g) = []) by (induction (announcedBy g); done).
    assert (Ha : omap announcedOf ((λ pr, Announced pr.1 pr.2) <$> announcedBy g) = (announcedBy g).*1).
    { induction (announcedBy g) as [|x l IH]; [done|]. cbn [fmap list_fmap omap list_omap announcedOf] in IH |- *. by rewrite IH. }
    rewrite Hn, Ha. split; [constructor|by eapply announcedBy_nodup].
Qed.

Lemma childOuts_nodup g own steps :
  owned g own → NoDup (omap deliveredOf (childOuts g steps)) ∧ NoDup (omap announcedOf (childOuts g steps)).
Proof.
  revert g own. induction steps as [|s steps IH]; intros g own Ho; cbn; [split; constructor|].
  destruct (owned_step g own s Ho) as (own' & Ho' & _). destruct (IH _ _ Ho') as [I1 I2]. destruct (childOut_nodup g own s Ho) as [N1 N2].
  rewrite !omap_app, !NoDup_app. split_and!; [done| |done|done| |done].
  - intros p (o & Hin & Hp)%list_elem_of_omap. destruct o as [q res|]; [|done]. cbn in Hp. simplify_eq.
    destruct (childOut_delivered _ _ _ _ Hin) as (e & _ & Hd & _ & _ & _ & He'). by apply (delivered_final _ steps p _ He').
  - intros p (o & Hin & Hp)%list_elem_of_omap. destruct o as [|q r]; [done|]. cbn in Hp. simplify_eq.
    destruct (childOut_announced _ _ _ _ Hin) as (e & He & Hd & _ & _ & _ & e' & He' & Hn).
    destruct (childExec_later g s p e He) as (x & Hx & Hs). rewrite He' in Hx. simplify_eq.
    apply (noticed_final _ steps p x He'); [apply (Hs Hd)|done].
Qed.

Lemma childRun_app g l1 l2 : childRun g (l1 ++ l2) = childRun (childRun g l1) l2.
Proof. apply foldl_app. Qed.

Lemma childOuts_app g l1 l2 : childOuts g (l1 ++ l2) = childOuts g l1 ++ childOuts (childRun g l1) l2.
Proof. revert g. induction l1 as [|s l1 IH]; intros g; cbn; [done|]. by rewrite IH, app_assoc. Qed.

(** C13. A background child's result reaches the parent at most once and as it ended: in
    every sequence of operations no entry is collected twice and none is announced
    twice; what a collection hands over is the result its child ended with, of a
    finished background child; and once a result is collected its end is never
    announced. *)
Theorem child_result_collected_once (steps : list ChildStep) (g := childRun newChildRunRegistry steps) :
  NoDup (omap deliveredOf (childOuts newChildRunRegistry steps)) ∧
  NoDup (omap announcedOf (childOuts newChildRunRegistry steps)) ∧
  (∀ p res, Delivered p res ∈ childOuts newChildRunRegistry steps →
     ∃ e, rgHeap g !! p = Some e ∧ isDone e = true ∧ ceBackground e = true ∧ ceDelivered e = true ∧ ceResult e = res) ∧
  (∀ l1 l2 p res r, steps = l1 ++ l2 → Delivered p res ∈ childOuts newChildRunRegistry l1 →
     Announced p r ∉ childOuts (childRun newChildRunRegistry l1) l2).
Proof.
  assert (Hdel : ∀ l p res, Delivered p res ∈ childOuts newChildRunRegistry l → ∃ e, rgHeap (childRun newChildRunRegistry l) !! p = Some e ∧
    isDone e = true ∧ ceBackground e = true ∧ ceDelivered e = true ∧ ceResult e = res).
  { intros l p res Hin. destruct (childOuts_split _ _ _ Hin) as (l1 & s & l2 & -> & Ho).
    destruct (childOut_delivered _ _ _ _ Ho) as (e & _ & Hd & Hb & _ & Hr & He').
    rewrite childRun_app. change (childRun ?g (s :: l2)) with (childRun (childExec g s) l2).
    destruct (childRun_later _ l2 p _ He') as (e' & He2 & Hs). destruct (Hs Hd) as [S1 S2 S3 _]. cbn in S2, S3. exists e'.
    split_and!; [done|done|congruence|by apply S3|congruence]. }
  destruct (childOuts_nodup newChildRunRegistry (λ _, []) steps (owned_new _)) as [N1 N2]. split_and!; [done|done|by apply Hdel|].
  intros l1 l2 p res r -> Hin Hann. destruct (Hdel l1 p res Hin) as (e & He & Hd & _ & Hdl & _).
  apply (proj2 (delivered_final _ l2 p e He Hd Hdl)). apply list_elem_of_omap. by exists (Announced p r).
Qed.

(** ** A failed resume *)

(** A step that neither starts, ends nor replaces the attempt registered for an id. *)
Definition leavesAttempt (id : gostr) (s : ChildStep) : bool :=
  match s with
  | CMarkRunning i | CBeginDone i _ _ | CRemove i | CRegister i _ _ _ _ => negb (i =s id)
  | _ => true
  end.

Lemma fold_frozen (f : list childEntry → nat → list childEntry) ps h p :
  (∀ h q, q ≠ p → f h q !! p = h !! p) → p ∉ ps → foldl f h ps !! p = h !! p.
Proof.
  intros Hf. revert h. induction ps as [|q ps IH]; intros h Hp; cbn; [done|]. apply not_elem_of_cons in Hp as [Hne Hp].
  rewrite IH by done. by apply Hf.
Qed.

(** A finished entry that is not in the map is out of reach. *)
Lemma childExec_frozen g s p e :
  (∀ id, rgEntries g !! id ≠ Some p) → rgHeap g !! p = Some e → isDone e = true → rgHeap (childExec g s) !! p = Some e.
Proof.
  intros Hun He Hd.
  assert (Hset : ∀ id q x y, lookupEntry g id = Some (q, x) → <[q := y]> (rgHeap g) !! p = Some e).
  { intros id q x y [Hi _]%lookupEntry_Some. rewrite list_lookup_insert_ne; [done|]. intros ->. by destruct (Hun id). }
  assert (Hnot : p ∉ (map_to_list (rgEntries g)).*2).
  { intros ([id q] & Hq & Hin%elem_of_map_to_list)%list_elem_of_fmap. cbn in Hq. subst q. by destruct (Hun id). }
  assert (Hlive : ∀ f id, rgHeap (updateLive f g id) !! p = Some e).
  { intros f id. unfold updateLive. destruct (lookupEntry g id) as [[q x]|] eqn:El; [|done]. case_bool; [done|]. by eapply Hset. }
  destruct s as [id f goal bg adm|id buf|id code|id|id a|id stop res|i|id|id|id|id ex| | |id]; cbn [childExec]; try apply Hlive.
  - unfold registerProtected. cbv zeta. destruct (if f =s childFamilyShellCmd then None else adm) as [[]|]; cbn; try done; by apply lookup_app_l_Some.
  - unfold beginDone, takeEntryAsks. destruct (lookupEntry g id) as [[q x]|] eqn:El; [|done]. by eapply Hset.
  - unfold endDone. destruct (rgEnding g !! i) as [[[q stop] res]|]; [|done]. cbv zeta. cbn [rgHeap setEnding].
    destruct (rgHeap g !! q) as [x|] eqn:Hx; [|done]. case_bool; [done|]. cbn. rewrite list_lookup_insert_ne; [done|]. congruence.
  - unfold takeAsks, takeEntryAsks. destruct (lookupEntry g id) as [[q x]|] eqn:El; [|done]. by eapply Hset.
  - unfold remove. destruct (lookupEntry g id) as [[q x]|] eqn:El; [|done]. case_bool; [done|]. by eapply Hset.
  - unfold releaseLiveness. destruct (lookupEntry g id) as [[q x]|] eqn:El; [|done]. by eapply Hset.
  - unfold collectMatching. destruct (lookupEntry g id) as [[q x]|] eqn:El; [|done]. repeat (case_bool; [done|]). by eapply Hset.
  - cbn. rewrite fold_frozen; [done| |done]. intros h q Hne. unfold noticeEntry. destruct (h !! q); [|done]. case_bool; [|done].
    by apply list_lookup_insert_ne.
  - cbn. rewrite fold_frozen; [done| |done]. intros h q Hne. unfold cancelEntry. destruct (h !! q); [|done]. case_bool; [|done].
    by apply list_lookup_insert_ne.
  - unfold requestCancel. destruct (lookupEntry g id) as [[q x]|] eqn:El; [|done]. case_bool; [done|]. by eapply Hset.
Qed.

(** An attempt [q] of [id] that has not started, over the finished entry [p]. *)
Record resuming (g : childRunRegistry) (id : gostr) (q p : nat) (e : childEntry) : Prop := {
  rs_map : rgEntries g !! id = Some q;
  rs_new : ∃ x, rgHeap g !! q = Some x ∧ isDone x = false ∧ ceDisplaced x = Some p;
  rs_ending : ∀ stop res, (q, stop, res) ∉ rgEnding g;
  rs_old : rgHeap g !! p = Some e;
  rs_done : isDone e = true
}.

Lemma resuming_step g own id q p e s :
  owned g own → resuming g id q p e → leavesAttempt id s = true → resuming (childExec g s) id q p e.
Proof.
  intros Ho [Rm (x & Hx & Hxd & Hxp) Re Rp Rd] Hs.
  assert (Hold : rgHeap (childExec g s) !! p = Some e).
  { apply childExec_frozen; [|done..]. intros id' Hid. destruct (ow_displaced g own Ho q x p Hx Hxp) as (Howp & _).
    destruct (ow_map g own Ho id' p Hid) as [Hid' _]. destruct (ow_map g own Ho id q Rm) as [Hidq _]. congruence. }
  assert (Hne : ∀ id' r, id' ≠ id → rgEntries g !! id' = Some r → r ≠ q) by (intros id' r Hi Hr ->; by destruct (Hi (owned_inj g own id' id q Ho Hr Rm))).
  destruct (childExec_effect g s) as [Hq Hm _ He|id' r y -> Hi Hp Hd Hg|id' r stop res -> Hi Hq Hm _ He|i r stop res Hi Hg|i r stop res y Hi Hp Hd Hg
    |id' r y -> Hi Hp Hd Hg|id' y Hm (? & ? & ? & ? & ->) Hh _ He _ _ _]; try (cbn in Hs; bprop).
  - split; [by rewrite Hm| |by rewrite He|done..]. destruct (Forall2_lookup_l _ _ _ _ _ Hq Hx) as (x' & Hx' & [Q1 _ Q3 _ _ _]).
    exists x'. by rewrite (isDone_state x x' Q1), Q3.
  - split; [by rewrite Hg| |by rewrite Hg|done..]. exists x. rewrite Hg. cbn. rewrite list_lookup_insert_ne by eauto. done.
  - split; [by rewrite Hm| | |done..].
    + destruct (Forall2_lookup_l _ _ _ _ _ Hq Hx) as (x' & Hx' & [Q1 _ Q3 _ _ _]). exists x'. by rewrite (isDone_state x x' Q1), Q3.
    + intros st rs. rewrite He. intros [Hin|Hin%list_elem_of_singleton]%elem_of_app; [by eapply Re|]. simplify_eq. by eapply Hne.
  - rewrite Hg in Hold |- *. split; [done|by exists x| |done..]. intros st rs Hin%list_elem_of_delete_inv. by eapply Re.
  - assert (Hrq : r ≠ q). { intros ->. apply list_elem_of_lookup_2 in Hi. by eapply Re. }
    rewrite Hg in Hold |- *. split; [done| | |done..]; [exists x; cbn; by rewrite list_lookup_insert_ne|].
    intros st rs Hin%list_elem_of_delete_inv. by eapply Re.
  - rewrite Hg in Hold |- *. unfold remove in *. rewrite (proj2 (lookupEntry_Some g id' r y)), Hd in Hold |- * by done.
    split; cbn [rgEntries rgHeap rgEnding] in *; [|exists x; rewrite list_lookup_insert_ne by eauto; done|done..].
    destruct (ceDisplaced y); [by rewrite lookup_insert_ne|by rewrite lookup_delete_ne].
  - split; [by rewrite Hm, lookup_insert_ne| |by rewrite He|done..]. exists x. rewrite Hh. split; [by apply lookup_app_l_Some|done].
Qed.

Lemma resuming_run g own id q p e steps :
  owned g own → resuming g id q p e → forallb (leavesAttempt id) steps = true → resuming (childRun g steps) id q p e.
Proof.
  revert g own. induction steps as [|s steps IH]; intros g own Ho Hr Hs; [done|]. cbn in *. bprop.
  destruct (owned_step g own s Ho) as (own' & Ho' & _). apply (IH _ own'); [done| |done]. by eapply resuming_step.
Qed.

Lemma resuming_register g own id p e f goal bg adm :
  owned g own → lookupEntry g id = Some (p, e) → isDone e = true → (registerProtected g id f goal bg adm).2 = true →
  resuming (childExec g (CRegister id f goal bg adm)) id (length (rgHeap g)) p e.
Proof.
  intros Ho El Hd. cbn [childExec]. unfold registerProtected. cbv zeta. rewrite El, Hd.
  set (asked := if f =s childFamilyShellCmd then None else adm). intros Hadm.
  destruct asked as [[]|]; [|done|]; clear Hadm; apply lookupEntry_Some in El as [Hi He]; (split; cbn; [by rewrite lookup_insert_eq| | |by apply lookup_app_l_Some|done];
    [eexists; split; [by rewrite lookup_app_r, Nat.sub_diag by lia|done]|intros stop res Hin; apply (ow_ending g own Ho) in Hin; lia]).
Qed.

(** A resume that fails before it starts loses nothing: when a finished background
    child whose result was not collected is registered again and the attempt is removed
    before it starts, whatever the other children do meanwhile (and whatever is asked of
    this id short of starting, ending or registering it again), the child's entry is
    reinstated as it was and a collection hands over its result. *)
Theorem failed_resume_keeps_result (before during : list ChildStep) (id : gostr) (p : nat) (e : childEntry)
    (f : childFamily) (goal : gostr) (bg : bool) (adm : option bool) (exclude : childFamily → bool)
    (g := childRun newChildRunRegistry before)
    (g' := childRun g (CRegister id f goal bg adm :: during ++ [CRemove id])) :
  lookupEntry g id = Some (p, e) → isDone e = true → ceBackground e = true → ceDelivered e = false → exclude (ceFamily e) = false →
  (registerProtected g id f goal bg adm).2 = true → forallb (leavesAttempt id) during = true →
  lookupEntry g' id = Some (p, e) ∧ (collectMatching g' id exclude).1.1.2 = ceResult e ∧ (collectMatching g' id exclude).2 = collectOK.
Proof.
  intros El Hd Hb Hdl Hex Hadm Hs. destruct (owned_run newChildRunRegistry (λ _, []) before (owned_new _)) as (own & Ho & _). fold g in Ho.
  destruct (owned_step g own (CRegister id f goal bg adm) Ho) as (own1 & Ho1 & _).
  pose proof (resuming_run _ own1 id _ p e during Ho1 (resuming_register g own id p e f goal bg adm Ho El Hd Hadm) Hs) as [Rm (x & Hx & Hxd & Hxp) _ Rp _].
  assert (El' : lookupEntry g' id = Some (p, e)).
  { unfold g'. change (childRun g (?s :: ?l)) with (childRun (childExec g s) l). rewrite childRun_app.
    set (h := childRun _ during) in *. change (childRun h [CRemove id]) with (remove h id). unfold remove.
    rewrite (proj2 (lookupEntry_Some h id _ x)), Hxd, Hxp by done. apply lookupEntry_Some. cbn. rewrite lookup_insert_eq. split; [done|].
    rewrite list_lookup_insert_ne; [done|]. intros Heq. rewrite Heq, Rp in Hx. congruence. }
  split; [done|]. unfold collectMatching. by rewrite El', Hex, Hd, Hb, Hdl.
Qed.

(** ** Examples *)

Definition sampleResult : ToolResult := NewToolResult #"call-1" #"the answer".

(** A background child that ran to its end, with another one still running. *)
Definition sampleRun : list ChildStep :=
  [CRegister #"subagent-1" childFamilySubagent #"look it up" true (Some true); CMarkRunning #"subagent-1"; CRecordAsk #"subagent-1" #"ask-1";
   CRegister #"subagent-2" childFamilySubagent #"build it" true (Some true); CMarkRunning #"subagent-2";
   CBeginDone #"subagent-1" StopEndTurn (Some sampleResult); CEndDone 0].

Definition sampleEntry : childEntry :=
  match lookupEntry (childRun newChildRunRegistry sampleRun) #"subagent-1" with Some (_, e) => e
  | None => mkEntry childFamilySubagent [] false false false ∅ childQueued false StopNone None None false false 0 None 0 end.

Lemma child_ends_once_witness :
  disciplinedRun newChildRunRegistry (sampleRun ++ [CRegister #"subagent-1" childFamilySubagent [] true None; CRemove #"subagent-1"]) = true ∧
  rgGen (childRun newChildRunRegistry (sampleRun ++ [CRegister #"subagent-1" childFamilySubagent [] true None; CRemove #"subagent-1"])) =
    sum_list (ceClosed <$> rgHeap (childRun newChildRunRegistry
      (sampleRun ++ [CRegister #"subagent-1" childFamilySubagent [] true None; CRemove #"subagent-1"]))).
Proof. split; [by vm_compute|]. apply (child_ends_once (sampleRun ++ [CRegister #"subagent-1" childFamilySubagent [] true None; CRemove #"subagent-1"])). by vm_compute. Defined.

Lemma failed_resume_keeps_result_witness :
  (collectMatching (childRun (childRun newChildRunRegistry sampleRun)
     (CRegister #"subagent-1" childFamilySubagent #"again" true (Some true) ::
        [CNotice; CRecordAsk #"subagent-2" #"ask-2"; CBeginDone #"subagent-2" StopCancelled None; CEndDone 0] ++ [CRemove #"subagent-1"]))
     #"subagent-1" (λ _, false)).1.1.2 = Some sampleResult.
Proof.
  apply (failed_resume_keeps_result sampleRun [CNotice; CRecordAsk #"subagent-2" #"ask-2"; CBeginDone #"subagent-2" StopCancelled None; CEndDone 0]
    #"subagent-1" 0 sampleEntry childFamilySubagent #"again" true (Some true) (λ _, false)); by vm_compute.
Defined.

(** Without the discipline a removal between the two halves of a terminal closes the
    channel of its entry twice. *)
Example removal_inside_terminal_closes_twice :
  ceClosed <$> rgHeap (childRun newChildRunRegistry
    [CRegister #"subagent-1" childFamilySubagent [] false None; CBeginDone #"subagent-1" StopEndTurn None; CRemove #"subagent-1"; CEndDone 0]) = [2].
Proof. by vm_compute. Qed.

(** The result of a collection, and nothing at the second. *)
Example collected_then_already :
  let g := childRun newChildRunRegistry sampleRun in
  (collectMatching g #"subagent-1" (λ _, false)).1.1.2 = Some sampleResult ∧ (noticeFinishedBackground g).2 = [reportOf #"subagent-1" sampleEntry] ∧
  (collectMatching (childRun g [CCollect #"subagent-1" (λ _, false)]) #"subagent-1" (λ _, false)).2 = collectAlready ∧
  (noticeFinishedBackground (childRun g [CCollect #"subagent-1" (λ _, false)])).2 = [].
Proof. by vm_compute. Qed.
