(* ===== verification/Snapshot.v ===== *)
(** * Session snapshots

    [engine/adapter/sessnap/sessnap.go]: the plain record a session is saved as ([Of])
    and the reconstruction that drives a fresh session through its own transitions
    ([Restore], [RestoreState]); then the form the record has after [encoding/json]
    ([wire]).

    A freshly minted incarnation is an argument of [Restore], as it is of
    [Session.New]. *)

From S2P Require Import Prelude Evaluator Authority Conversation Usage Title Authorization Labels Session.

(** ** Data *)

(** [contentDTO] *)
Record contentDTO := mkContentDTO { dKind : gostr; dMIMEType : gostr; dData : list N; dURL : gostr }.

(** [messageDTO] *)
Record messageDTO := mkMessageDTO {
  dRole : Role; dText : gostr; dToolCalls : list ToolCall; dToolResult : option ToolResult; dReasoning : gostr;
  dProviderPhase : gostr; dReasoningItemID : gostr; dParts : list contentDTO; dProvenance : UserPromptProvenance
}.

(** [pendingAuthorizationDTO]; its call records have the fields of a tool call. *)
Record pendingAuthorizationDTO := mkParkDTO { dAuthorization : ExternalAuthorization; dCall : ToolCall; dDeferred : list ToolCall }.

(** [Snapshot]; an empty kind is [None], an absent stop reason [StopNone]. *)
Record Snapshot := mkSnapshot {
  snID : gostr;
  snState : State;
  snMode : PermissionMode;
  snLimits : Limits;
  snCounters : Counters;
  snCreatedAt : Z;
  snIncarnation : gostr;
  snMessages : list messageDTO;
  snPending : option PendingAsk;
  snPendingAuthorization : option pendingAuthorizationDTO;
  snPendingEnrollment : option PendingWorkspaceEnrollment;
  snStopReason : StopReason;
  snKind : option SessionKind;
  snRelationship : SessionRelationship;
  snProviderID : gostr;
  snModelID : gostr;
  snLabels : CreationLabels;
  snTitle : TitleMeta;
  snTokenUsage : Ledger;
  snOccupancy : option ContextOccupancy;
  snFailure : RetryMetadata;
  snRetryPending : bool;
  snRetry : RetryMetadata;
  snLastError : gostr;
  snRunID : gostr;
  snOwner : option Principal;
  snAuthority : option Authority;
  snEnvironmentRef : EnvironmentRef
}.

Inductive SnapshotError :=
  | SnapSession (e : SessionError)
  | SnapEnvironment
  | SnapEmptyAuthority
  | SnapInvalidAuthority
  | SnapPendingMismatch
  | SnapPanic.

(** ** Taking a snapshot *)

Definition contentToDTO (parts : list Content) : list contentDTO :=
  (λ p, mkContentDTO (CKind p) (CMIMEType p) (CData p) (CURL p)) <$> parts.

Definition contentFromDTO (parts : list contentDTO) : list Content :=
  (λ d, mkContent [] (dKind d) (dMIMEType d) (dData d) (dURL d) [] [] [] [] 0 [] 0 []) <$> parts.

Definition toDTO (m : Message) : messageDTO :=
  mkMessageDTO (MRole m) (MText m) (MToolCalls m) (MToolResult m) (MReasoning m) (MProviderPhase m) (MReasoningItemID m)
    (contentToDTO (MParts m)) (MProvenance m).

Definition fromDTO (d : messageDTO) : Message :=
  mkMessage (dRole d) (dText d) (dToolCalls d) (dToolResult d) (dReasoning d) (dProviderPhase d) (dReasoningItemID d)
    (contentFromDTO (dParts d)) (dProvenance d).

Definition toPendingAuthorizationDTO (p : PendingAuthorization) : pendingAuthorizationDTO :=
  mkParkDTO (PAuthorization p) (PCall p) (PDeferred p).

Definition fromPendingAuthorizationDTO (d : pendingAuthorizationDTO) : PendingAuthorization :=
  mkPendingAuthorization (dAuthorization d) (dCall d) (dDeferred d).

Section snapshots.
Context {platform : Platform}.

(** The record [Of] fills in. *)
Definition snapshotOf (s : Session) : Snapshot :=
  mkSnapshot (SID s) (SState s) (Mode s) (SLimits s) (SCounters s) (CreatedAt s) (incarnation s)
    (toDTO <$> Messages s) (PendingAskOf s) (toPendingAuthorizationDTO <$> PendingAuthorizationOf s)
    (pendingWorkspaceEnrollment s) (default StopNone (RecordedStopReason s)) (Some (Kind s)) (Relationship s)
    (ProviderID s) (ModelID s) (labels s) (titleMeta s) (TokenUsageSnapshot (tokenUsage s))
    (latestContextOccupancy s) (FailureMetadata s) (retryPending s) (retryMetadata s) (lastError s) (runID s) (Owner s)
    (BoundAuthority s) (SEnvironmentRef s).

Definition Of (s : Session) : Snapshot + SnapshotError :=
  match ValidateAuthorizationState s with
  | Some e => inr (SnapSession e)
  | None => inl (snapshotOf s)
  end.

(** ** Restoring *)

(** A transition whose error ends the reconstruction. *)
Definition ran (r : Session * option SessionError) : Session + SnapshotError :=
  match r with (s, None) => inl s | (_, Some e) => inr (SnapSession e) end.

Definition andThen {A B} (r : A + SnapshotError) (k : A → B + SnapshotError) : B + SnapshotError :=
  match r with inl a => k a | inr e => inr e end.

Local Notation "x ⇐ r ;; k" := (andThen r (λ x, k)) (at level 100, r at next level, right associativity).

Definition ValidatePersistedAuthority (a : Authority) : option SnapshotError :=
  let set := ACapabilitySet a in
  if (Tools set =s []) && (RemainingDelegationDepth set =? 0)%Z && negb (FileSystem set) && negb (DirectWrite set) then Some SnapEmptyAuthority
  else if negb (AuthorityValid a) then Some SnapInvalidAuthority
  else None.

Definition restoreAuthority (s : Session) (a : option Authority) : Session + SnapshotError :=
  match a with
  | None => inl s
  | Some a => match ValidatePersistedAuthority a with Some e => inr e | None => ran (BindAuthority s a) end
  end.

Record RestoreData := mkRestoreData {
  rdState : State;
  rdStop : StopReason;
  rdPending : option PendingAsk;
  rdPendingAuthorization : option PendingAuthorization;
  rdCounters : Counters;
  rdTokenUsage : Ledger;
  rdFailure : RetryMetadata;
  rdRetryPending : bool;
  rdRetry : RetryMetadata;
  rdLastError : gostr
}.

Definition validateRestorePendingState (minted : gostr) (s : Session) (state : State) (pending : option PendingAsk)
    (park : option PendingAuthorization) : option SnapshotError :=
  match state with
  | StateAwaiting => match pending, park with Some _, None => None | _, _ => Some SnapPendingMismatch end
  | StateAuthorizing =>
      match pending, park with
      | None, Some p =>
          match New (SID s) (Mode s) (SEnvironmentRef s) (SLimits s) (CreatedAt s) minted with
          | None => Some SnapPanic
          | Some probe =>
              match BeginTurn (setMessages (Messages s) probe) with
              | (_, Some e) => Some (SnapSession e)
              | (probe, None) => match PauseForAuthorization probe p with (_, Some e) => Some (SnapSession e) | (_, None) => None end
              end
          end
      | _, _ => Some SnapPendingMismatch
      end
  | _ => match pending, park with None, None => None | _, _ => Some SnapPendingMismatch end
  end.

Definition beginTurnPreservingCounters (s : Session) (want : Counters) : Session + SnapshotError :=
  s ⇐ ran (BeginTurn s);; inl (setCounters want s).

(** The dereference of an absent pending value is a panic. *)
Definition enterState (s : Session) (data : RestoreData) : Session + SnapshotError :=
  match rdState data with
  | StateIdle => inl s
  | StateRunning => beginTurnPreservingCounters s (rdCounters data)
  | StateAwaiting =>
      s ⇐ beginTurnPreservingCounters s (rdCounters data);;
      match rdPending data with Some ask => ran (PauseForApproval s ask) | None => inr SnapPanic end
  | StateAuthorizing =>
      s ⇐ beginTurnPreservingCounters s (rdCounters data);;
      match rdPendingAuthorization data with Some p => ran (PauseForAuthorization s p) | None => inr SnapPanic end
  | StateCompleted =>
      if (rdStop data =s StopNone) || (rdStop data =s StopEndTurn) then ran (Complete s) else ran (Stop s (rdStop data))
  | StateCancelled => ran (Cancel s)
  | StateFailed =>
      s ⇐ ran (Fail_ s);;
      s ⇐ ran (RecordFailureMetadata s (rdFailure data));;
      if negb (rdLastError data =s []) then ran (RecordLastError s (rdLastError data)) else inl s
  end.

Definition RestoreState (minted : gostr) (s : Session) (data : RestoreData) : Session + SnapshotError :=
  match validateRestorePendingState minted s (rdState data) (rdPending data) (rdPendingAuthorization data) with
  | Some e => inr e
  | None =>
      let s := setTokenUsage (RestoreTokenUsage (rdTokenUsage data)) (setCounters (rdCounters data) s) in
      s ⇐ enterState s data;;
      if rdRetryPending data then ran (RestoreFailedStepRetryPending s (rdRetry data)) else inl s
  end.

(** The part of [Restore] before the lifecycle. *)
Definition restoreCreation (minted : gostr) (d : Snapshot) : Session + SnapshotError :=
  if negb (EnvRefValid (snEnvironmentRef d)) then inr SnapEnvironment
  else match New (snID d) (snMode d) (snEnvironmentRef d) (snLimits d) (snCreatedAt d) minted with
  | None => inr SnapPanic
  | Some s =>
      s ⇐ ran (RestoreSessionMetadata s (snKind d) (snRelationship d));;
      s ⇐ restoreAuthority s (snAuthority d);;
      let s := setMessages (foldl (λ c m, Append c (fromDTO m)) (Messages s) (snMessages d)) s in
      let s := setLabels (snLabels d) (setModelID (snModelID d) (setProviderID (snProviderID d) s)) in
      let s := BeginRun s (snRunID d) in
      let t := snTitle d in
      let s := setTitleMeta (RestoreTitleMetadata (titleMeta s) (Title t) (TitleProv t) (TitleRevision t) (TitleGeneration t)
                 (titleSourcePrompts t) (titleAttempts t)) s in
      s ⇐ ran (RestoreLabels s (snOwner d) noAuthority);;
      ran (RestoreIncarnation s (snIncarnation d))
  end.

Definition restoreData (d : Snapshot) : RestoreData :=
  mkRestoreData (snState d) (snStopReason d) (snPending d) (fromPendingAuthorizationDTO <$> snPendingAuthorization d) (snCounters d)
    (snTokenUsage d) (snFailure d) (snRetryPending d) (snRetry d) (snLastError d).

(** [Snapshot.Restore] *)
Definition Restore (minted : gostr) (d : Snapshot) : Session + SnapshotError :=
  s ⇐ restoreCreation minted d;;
  s ⇐ RestoreState minted s (restoreData d);;
  let s := match snOccupancy d with Some o => RecordLatestContextOccupancy s o | None => s end in
  match snPendingEnrollment d with Some p => ran (BeginWorkspaceEnrollment s p) | None => inl s end.
End snapshots.

(** ** What a session that can be saved looks like *)

Lemma clampSnapshot_idemp s : normaliseSnapshotError (normaliseSnapshotError s) = normaliseSnapshotError s.
Proof.
  unfold normaliseSnapshotError, clampSnapshotRunes. set (J := Join (Fields s) [space]).
  assert (Hn : normal J) by apply normal_Join. destruct (length J <=? maxSnapshotErrorRunes) eqn:EJ.
  - rewrite normal_id by done. by rewrite EJ.
  - rewrite normal_id by (by apply normal_clamp). apply Nat.leb_gt in EJ. case_bool; [done|].
    rewrite take_app_le by (rewrite length_take; lia). by rewrite take_take, Nat.min_id.
Qed.

Definition enrollmentOk (p : PendingWorkspaceEnrollment) : bool :=
  negb (negb (EnrollmentIDValid (EnrollID p)) || (RequiredServices p =? 0)%Z || IsZero (EnrollExpiresAt p)).

(** What the methods of the aggregate keep besides the lifecycle invariant. *)
Record durable (s : Session) : Prop := {
  du_cancelled : SState s = StateCancelled → stop s = StopCancelled;
  du_failed : SState s = StateFailed → stop s = StopError;
  du_owner : ∀ o, Owner s = Some o → principalIdentityHasSafeFraming (Some o) = true;
  du_occupancy : ∀ o, latestContextOccupancy s = Some o → (OccInputTokens o =? 0)%Z = false;
  du_enrollment : ∀ p, pendingWorkspaceEnrollment s = Some p → enrollmentOk p = true;
  du_error : normaliseSnapshotError (lastError s) = lastError s;
  du_unbound : authorityBound s = false → SAuthority s = noAuthority
}.

Section invariant.
Context {platform : Platform}.

Lemma durable_ext s s' :
  SState s' = SState s ∨ (SState s' ≠ StateCancelled ∧ SState s' ≠ StateFailed) → stop s' = stop s ∨ (SState s' ≠ StateCancelled ∧ SState s' ≠ StateFailed) →
  Owner s' = Owner s → latestContextOccupancy s' = latestContextOccupancy s →
  pendingWorkspaceEnrollment s' = pendingWorkspaceEnrollment s ∨ pendingWorkspaceEnrollment s' = None →
  lastError s' = lastError s ∨ lastError s' = [] → authorityBound s' = authorityBound s → SAuthority s' = SAuthority s →
  durable s → durable s'.
Proof.
  intros H1 H2 H3 H4 H5 H6 H7 H8 [D1 D2 D3 D4 D5 D6 D7]. split; rewrite ?H3, ?H4, ?H7, ?H8; auto.
  - intros Hc. destruct H1 as [H1|[? _]]; [|done]. destruct H2 as [-> |[? _]]; [|done]. apply D1. congruence.
  - intros Hc. destruct H1 as [H1|[_ ?]]; [|done]. destruct H2 as [-> |[_ ?]]; [|done]. apply D2. congruence.
  - destruct H5 as [-> | ->]; [done|]. by intros p.
  - destruct H6 as [-> | ->]; [done|]. done.
Qed.

(** The authority, the owner and the pending enrollment aside. *)
Ltac durable_auto s := apply (durable_ext s); cbn; auto; try (right; split; congruence).

Lemma BindAuthority_durable s a : durable s → durable (BindAuthority s a).1.
Proof. intros H. unfold BindAuthority. do 3 (case_bool; [done|]). destruct H. by split. Qed.

Lemma setOwner_durable s o : principalIdentityHasSafeFraming (Some o) = true → durable s → durable (setOwner (Some o) s).
Proof. intros Ho []. split; try done. cbn. by intros ? [= <-]. Qed.

Lemma RestoreLabels_durable s o a : durable s → durable (RestoreLabels s o a).1.
Proof.
  intros H. unfold RestoreLabels. destruct o as [o|]; [|case_bool; [by apply BindAuthority_durable|done]].
  case_bool; [done|]. apply negb_false_iff in E. pose proof (setOwner_durable s o E H) as Ho.
  destruct (Owner s); [case_bool; [done|]|]; (case_bool; [by apply BindAuthority_durable|done]).
Qed.

Lemma end_durable s : durable s → durable (Complete s).1 ∧ (∀ r, durable (Stop s r).1) ∧ durable (Cancel s).1 ∧ durable (Fail_ s).1.
Proof.
  intros H. unfold Complete, Stop, Cancel, Fail_. destruct (enrollmentPending s); [done|]. destruct (cannotEnd s); [done|].
  destruct H. split_and!; try intros r; try (case_bool; by split); by split.
Qed.

Lemma exec_durable s op : shape s → durable s → durable (exec s op).1.
Proof.
  intros Hs H. destruct op; cbn [exec];
    try (by (unfold BeginTurn, RecordAssistant, RecordUsage, recordUserPromptWithParts,
      ReplaceHistory, ReplaceHistoryAtBoundary, SeedHistory, replaceMessages, PauseForApproval, ResumeWith,
      RecordFailureMetadata, PrepareFailedStepRetry,
      RestoreFailedStepRetryPending, Reopen, Interrupt, Recover, Abandon, Rehome, SetMode, PauseForAuthorization,
      ClaimAuthorization, RestoreAuthorizationClaim, AbortAuthorization, resolveAuthorization,
      AbortWorkspaceEnrollment, RestoreSessionMetadata, RestoreIncarnation, ok, fail, errOnly;
      repeat case_match; try done; durable_auto s)).
  - unfold RecordToolResults. case_bool; [done|]. cbn. clear Hs E. revert s H. induction rs as [|r rs IH]; intros s H; [done|]. apply IH. durable_auto s.
  - unfold RecordLatestContextOccupancy. cbn. case_bool; [done|]. destruct H. split; try done. cbn. by intros ? [= <-].
  - unfold ResumeWith. destruct (pending s); [|done]. case_bool; [done|]. cbn. durable_auto s.
  - by apply end_durable.
  - by apply end_durable.
  - by apply end_durable.
  - by apply end_durable.
  - unfold RecordLastError. case_bool; [done|]. destruct H. split; try done. apply clampSnapshot_idemp.
  - unfold ClaimAuthorization. case_match; [done|]. case_bool; [done|]. case_match; [|done]. cbn. durable_auto s.
  - unfold AbortAuthorization, resolveAuthorization. case_match; [done|]. case_bool; [done|]. case_match; [|done]. cbn. durable_auto s.
  - unfold BeginWorkspaceEnrollment. case_bool; [done|]. repeat case_match; try done. destruct H. split; try done. cbn. intros ? [= <-].
    unfold enrollmentOk. apply negb_true_iff. done.
  - unfold CompleteWorkspaceEnrollment. case_match; [|done]. do 3 (case_bool; [done|]). bprop. destruct H. split; try done. cbn. congruence.
  - by apply RestoreLabels_durable.
  - by apply BindAuthority_durable.
  - unfold GrantToolAuthority. repeat case_match; try done. bprop. destruct H. split; try done. cbn. congruence.
Qed.

Lemma reachable_durable s : reachable s → durable s.
Proof.
  induction 1 as [id mode ref limits createdAt inc s Hn|s op Hr IH].
  - revert Hn. unfold New. case_bool; [done|]. intros [= <-]. by split.
  - apply exec_durable; [by apply reachable_shape|done].
Qed.
End invariant.

(** ** The round trip *)

(** The parts of a message that a snapshot keeps are the media fields. *)
Definition plainPart (c : Content) : bool :=
  (CBlockKind c =s []) && (CText c =s []) && (CName c =s []) && (CTitle c =s []) && (CDescription c =s []) && (CSize c =? 0)%Z
  && (CAudience c =s []) && (CPriority c =? 0)%N && (CLastModified c =s []).

Definition titleRestorable (t : TitleMeta) : bool :=
  (length (titleSourcePrompts t) <=? maxTitleSourcePrompts)
  && forallb (λ x, (length x <=? maxTitleSourceRunes) && negb (TrimSpace x =s [])) (titleSourcePrompts t)
  && negb (TitleGeneration t =s TitleGenerationUnset).

Definition emptyCapabilities (c : CapabilitySet) : bool :=
  (Tools c =s []) && (RemainingDelegationDepth c =? 0)%Z && negb (FileSystem c) && negb (DirectWrite c).

(** What [Restore] accepts of the sessions the aggregate can reach. *)
Definition restorable (s : Session) : bool :=
  IncarnationValid (incarnation s)
  && negb (authorityBound s && emptyCapabilities (ACapabilitySet (SAuthority s)))
  && implb (retryPending s) ((SState s =s StateIdle) || (SState s =s StateRunning))
  && negb ((SState s =s StateCompleted) && (stop s =s StopNone))
  && titleRestorable (titleMeta s)
  && forallb (λ m, forallb plainPart (MParts m)) (Messages s).

Lemma content_roundtrip parts : forallb plainPart parts = true → contentFromDTO (contentToDTO parts) = parts.
Proof.
  induction parts as [|c parts IH]; [done|]. cbn [forallb]. intros [Hc Hp]%andb_true_iff.
  change (contentFromDTO (contentToDTO (c :: parts))) with (contentFromDTO (contentToDTO [c]) ++ contentFromDTO (contentToDTO parts)).
  rewrite (IH Hp). cbn. f_equal. unfold plainPart in Hc. bprop. destruct c; cbn in *. repeat match goal with
  | H : (_ =? _)%Z = true |- _ => apply Z.eqb_eq in H
  | H : (_ =? _)%N = true |- _ => apply N.eqb_eq in H
  end. by subst.
Qed.

Lemma messages_roundtrip ms c :
  forallb (λ m, forallb plainPart (MParts m)) ms = true → foldl (λ c m, Append c (fromDTO m)) c (toDTO <$> ms) = c ++ ms.
Proof.
  revert c. induction ms as [|m ms IH]; intros c; cbn; [by rewrite app_nil_r|]. intros [Hm Hms]%andb_true_iff. rewrite IH by done.
  unfold Append, fromDTO, toDTO. cbn. rewrite content_roundtrip by done. rewrite <-app_assoc. by destruct m.
Qed.

Lemma title_roundtrip t t0 :
  titleRestorable t = true →
  RestoreTitleMetadata t0 (Title t) (TitleProv t) (TitleRevision t) (TitleGeneration t) (titleSourcePrompts t) (titleAttempts t) = t.
Proof.
  unfold titleRestorable. intros H. apply andb_true_iff in H as [[Hl%Nat.leb_le Hs]%andb_true_iff Hg]. bprop.
  apply title_restore_roundtrip; [done| |done]. apply Forall_forall. intros x Hx. rewrite forallb_forall in Hs.
  specialize (Hs x ltac:(by apply list_elem_of_In)). apply andb_true_iff in Hs as [Hn%Nat.leb_le Hb]. by bprop.
Qed.

Section roundtrip.
Context {platform : Platform}.

(** A session before its lifecycle is restored: the creation data of [s]. *)
Definition creationOf (s : Session) : Session :=
  mkSession (SID s) StateIdle (Mode s) (Messages s) (SLimits s) zeroCounters ∅ None [] (SEnvironmentRef s) (ProviderID s) (ModelID s)
    (titleMeta s) (Owner s) (SAuthority s) (authorityBound s) (Kind s) (Relationship s) (CreatedAt s) (incarnation s) None None None
    StopNone zeroRetry false zeroRetry [] (runID s) (labels s).

Lemma restorable_authority s :
  durable s → data_ok s → restorable s = true → ∀ r, SState r = StateIdle → authorityBound r = false → SAuthority r = noAuthority →
  restoreAuthority r (BoundAuthority s) = inl (setAuthorityBound (authorityBound s) (setAuthority (SAuthority s) r)).
Proof.
  intros Hdu [_ _ _ _ Hva] Hr r Hi Hb Ha. unfold BoundAuthority. destruct (authorityBound s) eqn:Eb; cbn [negb restoreAuthority].
  - unfold restorable in Hr. rewrite Eb in Hr. bprop. unfold ValidatePersistedAuthority, emptyCapabilities in *. cbv zeta.
    rewrite (Hva eq_refl). cbn [negb]. destruct (_ && _) eqn:E; [by cbn in *|]. unfold BindAuthority. rewrite Hi, Hb, (Hva eq_refl). done.
  - rewrite (du_unbound s Hdu Eb). destruct r; cbn in *; by subst.
Qed.

Lemma RestoreLabels_owner s r : durable s → Owner r = None → RestoreLabels r (Owner s) noAuthority = ok (setOwner (Owner s) r).
Proof.
  intros Hdu Hr. unfold RestoreLabels. cbn [AProvenance noAuthority]. rewrite (bool_decide_true ([] = [])) by done. cbn [negb].
  destruct (Owner s) as [o|] eqn:Eo; [by rewrite (du_owner s Hdu o Eo), Hr|]. destruct r; cbn in *; by subst.
Qed.

Lemma restoreCreation_ok s minted :
  durable s → data_ok s → restorable s = true → restoreCreation minted (snapshotOf s) = inl (creationOf s).
Proof.
  intros Hdu Hda Hr. unfold restoreCreation. cbn [snapshotOf snEnvironmentRef snID snMode snLimits snCreatedAt snKind snRelationship snAuthority
    snMessages snLabels snModelID snProviderID snRunID snTitle snOwner snIncarnation].
  unfold New. rewrite (data_env s Hda). cbn [negb]. unfold RestoreSessionMetadata. cbn [SState].
  rewrite bool_decide_true by done. cbv zeta. change (default SessionKindUnknown (Some (Kind s))) with (Kind s).
  rewrite (data_kind s Hda). cbn [negb ran ok andThen].
  rewrite (restorable_authority s) by done. cbn [andThen].
  assert (Ht : titleRestorable (titleMeta s) = true) by (unfold restorable in Hr; by bprop).
  assert (Hm : forallb (λ m, forallb plainPart (MParts m)) (Messages s) = true) by (unfold restorable in Hr; by bprop).
  assert (Hi : IncarnationValid (incarnation s) = true) by (unfold restorable in Hr; by bprop).
  rewrite title_roundtrip, messages_roundtrip by done. rewrite (RestoreLabels_owner s) by done. cbn [ran andThen ok].
  unfold RestoreIncarnation. cbn [SState setOwner setTitleMeta BeginRun setRunID setLabels setModelID setProviderID setMessages setAuthorityBound
    setAuthority setRelationship setKind]. rewrite (bool_decide_true (StateIdle = StateIdle)) by done. cbn [negb]. cbv zeta.
  rewrite (bool_decide_false (incarnation s = [])) by (by intros Hn; rewrite Hn in Hi). rewrite Hi. done.
Qed.
(** Decide the comparisons of known constants. *)
Ltac eval_states :=
  repeat match goal with |- context [bool_decide ?P] => first [rewrite (bool_decide_true P) by done|rewrite (bool_decide_false P) by done] end.

(** What [Of] reads through the accessors are the fields, by the lifecycle invariant. *)
Lemma accessors s :
  shape s →
  PendingAskOf s = pending s ∧ PendingAuthorizationOf s = pendingAuthorization s ∧ FailureMetadata s = failureMetadata s ∧
  default StopNone (RecordedStopReason s) = stop s ∧ ValidateAuthorizationState s = None.
Proof.
  unfold shape, clean, PendingAskOf, PendingAuthorizationOf, FailureMetadata, RecordedStopReason, ValidateAuthorizationState. intros H.
  assert (Hst : default StopNone (if stop s =s StopNone then None else Some (stop s)) = stop s).
  { case_bool; [|done]. apply bool_decide_eq_true in E. by rewrite E. }
  rewrite Hst. destruct (SState s) eqn:Es; cbn [negb];
    eval_states; cbn [negb];
    try (destruct H as (H1 & H2 & H3); rewrite ?H1, ?H2; naive_solver).
  - destruct H as ([ask H1] & H2 & H3 & [H4 _] & _). by rewrite H1, H2, H4.
  - destruct H as (H1 & H2 & [H3 _] & _ & p & H5 & H6). by rewrite H1, H3, H5, H6.
Qed.

(** [s] without what is restored after the lifecycle. *)
Definition lifecycleOf (s : Session) : Session := setAttribution [] (setPendingEnrollment None (setOccupancy None s)).

Lemma begin_ok r :
  SState r = StateIdle → pendingWorkspaceEnrollment r = None →
  BeginTurn r = ok (setCounters (mkCounters (wrap64 (Turns (SCounters r) + 1)) (ToolCalls (SCounters r)) (ConsecutiveFailures (SCounters r)))
                      (setState StateRunning r)).
Proof. intros Hi He. unfold BeginTurn, enrollmentPending. rewrite He, Hi. done. Qed.

Lemma pause_ok r p :
  SState r = StateRunning → pending r = None → validatePendingAuthorization compactJSON (Messages r) p = None →
  PauseForAuthorization r p = ok (setState StateAuthorizing (setPendingAuthorization (Some p) r)).
Proof. intros Hi Hp Hv. unfold PauseForAuthorization. rewrite Hi, Hp, Hv. done. Qed.

Lemma validatePark_ok minted r p :
  EnvRefValid (SEnvironmentRef r) = true → validatePendingAuthorization compactJSON (Messages r) p = None →
  validateRestorePendingState minted r StateAuthorizing None (Some p) = None.
Proof.
  intros He Hv. unfold validateRestorePendingState, New. rewrite He. cbn [negb]. rewrite begin_ok by done. cbn [ok]. by rewrite (pause_ok _ p).
Qed.

Lemma enterState_ok s minted :
  shape s → retry_ok s → durable s → data_ok s → restorable s = true →
  RestoreState minted (creationOf s) (restoreData (snapshotOf s)) = inl (lifecycleOf s).
Proof.
  intros Hs Hre Hdu Hda Hr. destruct (accessors s Hs) as (A1 & A2 & A3 & A4 & _).
  assert (Hl : RestoreTokenUsage (TokenUsageSnapshot (tokenUsage s)) = tokenUsage s) by (apply usage_snapshot_roundtrip, Hda).
  assert (Hrs : implb (retryPending s) ((SState s =s StateIdle) || (SState s =s StateRunning)) = true) by (unfold restorable in Hr; rewrite !andb_true_iff in Hr; tauto).
  assert (Hst : negb ((SState s =s StateCompleted) && (stop s =s StopNone)) = true) by (unfold restorable in Hr; rewrite !andb_true_iff in Hr; tauto).
  unfold RestoreState, restoreData, snapshotOf. cbn [rdState rdPending rdPendingAuthorization rdCounters rdTokenUsage rdRetryPending rdRetry snState
    snStopReason snPending snPendingAuthorization snCounters snTokenUsage snFailure snRetryPending snRetry snLastError].
  rewrite A1, A2, A3, A4, Hl.
  destruct Hdu as [Dc Df _ _ _ De _]. clear Hr A1 A2 A3 A4 Hl. unfold shape, clean, retry_ok in *.
  destruct (SState s) eqn:Es.
  - destruct Hs as (H1 & H2 & H3 & H4 & H5). destruct (retryPending s) eqn:Er; destruct s; cbn in *; subst; cbn; [|done].
    unfold RestoreFailedStepRetryPending. cbn. by rewrite Hre.
  - destruct Hs as (H1 & H2 & H3 & [H4 H5] & H6). destruct (retryPending s) eqn:Er; destruct s; cbn in *; subst; cbn; [|done].
    unfold RestoreFailedStepRetryPending. cbn. by rewrite Hre.
  - destruct Hs as ([ask H1] & H2 & H3 & [H4 H5] & H6). destruct s; cbn in *; subst; cbn. by destruct retryPending; cbn in *; subst.
  - destruct Hs as (H1 & H2 & [H3 H4] & H5 & p & H6 & H7). rewrite H1, H6. cbn [fmap option_fmap option_map].
    assert (Hp : fromPendingAuthorizationDTO (toPendingAuthorizationDTO p) = p) by (by destruct p). rewrite Hp.
    rewrite (validatePark_ok minted (creationOf s) p); [|apply (data_env s Hda)|done].
    cbn [enterState rdState rdCounters rdPendingAuthorization]. unfold beginTurnPreservingCounters.
    rewrite begin_ok by done. cbn [ran ok andThen]. rewrite (pause_ok _ p) by done. cbn [ran ok andThen].
    assert (Hr0 : retryPending s = false) by (destruct (retryPending s); [done|done]). rewrite Hr0 in *. clear H7. destruct s; cbn in *; by subst.
  - destruct Hs as (H1 & H2 & [H3 H4] & H5 & H6). apply negb_true_iff in Hst. cbn [andb bool_decide decide] in Hst.
    assert (Hne : stop s ≠ StopNone) by (intros Hn; rewrite Hn in Hst; done). destruct s; cbn in *; subst; cbn.
    destruct stop; done.
  - destruct Hs as (H1 & H2 & H3 & H4 & H5). specialize (Df eq_refl). destruct s; cbn in *; subst; cbn.
    unfold Fail_, RecordFailureMetadata, RecordLastError, cannotEnd. cbn. eval_states. cbn. eval_states. cbn. rewrite H5. cbn.
    destruct (decide (lastError = [])) as [-> |Hne]; [done|]. rewrite (bool_decide_false (lastError = [])) by done. cbn. eval_states. cbn. by rewrite De.
  - destruct Hs as (H1 & H2 & [H3 H4] & H5 & H6). specialize (Dc eq_refl). by destruct s; cbn in *; subst; cbn.
Qed.

Lemma snapshot_restores s minted :
  shape s → retry_ok s → durable s → data_ok s → restorable s = true → Of s = inl (snapshotOf s) ∧ Restore minted (snapshotOf s) = inl (setAttribution [] s).
Proof.
  intros Hs Hre Hdu Hda Hr. destruct (accessors s Hs) as (_ & _ & _ & _ & Hv). split; [unfold Of; by rewrite Hv|].
  unfold Restore. rewrite restoreCreation_ok by done. cbn [andThen]. rewrite enterState_ok by done. cbn [andThen snapshotOf snOccupancy snPendingEnrollment].
  set (r := match latestContextOccupancy s with Some o => _ | None => _ end).
  assert (Hocc : r = setAttribution [] (setPendingEnrollment None s)).
  { unfold r. destruct (latestContextOccupancy s) as [o|] eqn:Eo; [unfold RecordLatestContextOccupancy; rewrite (du_occupancy s Hdu o Eo)|];
      destruct s; cbn in *; by subst. }
  rewrite Hocc. destruct (pendingWorkspaceEnrollment s) as [p|] eqn:Ep; [|destruct s; cbn in *; by subst].
  assert (Hidle : SState s = StateIdle ∧ pending s = None ∧ pendingAuthorization s = None).
  { unfold shape in Hs. destruct (SState s); try naive_solver. }
  destruct Hidle as (Hi & Hpe & Hpa). pose proof (data_enrollment s Hda) as Hab. rewrite Ep in Hab. specialize (Hab ltac:(by eexists)).
  pose proof (du_enrollment s Hdu p Ep) as Hok. apply negb_true_iff in Hok. unfold BeginWorkspaceEnrollment. cbn [SState setAttribution setPendingEnrollment pending
    pendingAuthorization authorityBound enrollmentPending pendingWorkspaceEnrollment]. rewrite Hi, Hpe, Hpa, Hab, Hok. cbn.
  destruct s; cbn in *; by subst.
Qed.

(** C16. A saved session comes back as it was.  Every session the aggregate can reach
    that [restorable] admits is saved without an error, and restoring the snapshot
    drives a fresh session through its own transitions to exactly the saved one: state,
    history, counters, ledger, pending controls, stop reason, failure, retry intent,
    owner, authority and labels.  Only the run-scoped usage attribution, which is
    derived again, is not part of a snapshot. *)
Theorem snapshot_roundtrip s minted :
  reachable s → restorable s = true →
  ∃ d, Of s = inl d ∧ Restore minted d = inl (setAttribution [] s).
Proof.
  intros Hr Hok. destruct (reachable_ok s Hr) as (H1 & H2 & H3). exists (snapshotOf s).
  apply snapshot_restores; try done. by apply reachable_durable.
Qed.

(** ** Whatever is restored is well-formed *)

Definition wellFormed (s : Session) : Prop := shape s ∧ retry_ok s ∧ data_ok s ∧ durable s.

Lemma exec_wellFormed s op : wellFormed s → wellFormed (exec s op).1.
Proof.
  intros (H1 & H2 & H3 & H4). split_and!; [by apply exec_shape|by apply exec_retry|by apply exec_data|by apply exec_durable].
Qed.

Lemma ran_wf s op s' : wellFormed s → ran (exec s op) = inl s' → wellFormed s'.
Proof.
  intros Hw. pose proof (exec_wellFormed s op Hw) as He. destruct (exec s op) as [r [e|]]; cbn in *; [done|]. by intros [= <-].
Qed.

(** Writes outside the lifecycle. *)
Lemma wf_counters s c : wellFormed s → wellFormed (setCounters c s).
Proof. intros (H1 & H2 & [] & []). by split_and!. Qed.

Lemma wf_messages s ms : SState s ≠ StateAuthorizing → wellFormed s → wellFormed (setMessages ms s).
Proof. intros Hn (H1 & H2 & [] & []). split_and!; try done. by apply shape_messages. Qed.

Lemma wf_title s t : wellFormed s → wellFormed (setTitleMeta t s).
Proof. apply (exec_wellFormed s (OTitle t)). Qed.

Lemma wf_run s id : wellFormed s → wellFormed (BeginRun s id).
Proof. apply (exec_wellFormed s (OBeginRun id)). Qed.

Lemma wf_labels s p m l : wellFormed s → wellFormed (setLabels l (setModelID m (setProviderID p s))).
Proof. apply (exec_wellFormed s (OAssignLabels p m l)). Qed.

Lemma andThen_inl {A B} (r : A + SnapshotError) (k : A → B + SnapshotError) b :
  andThen r k = inl b → ∃ a, r = inl a ∧ k a = inl b.
Proof. destruct r as [a|e]; cbn; [|done]. by exists a. Qed.

(** What the labels leave alone. *)
Definition track (s : Session) : State * list Message * Counters * option PendingAsk * option PendingAuthorization :=
  (SState s, Messages s, SCounters s, pending s, pendingAuthorization s).

Lemma labels_track s s' :
  (∃ k r, ran (RestoreSessionMetadata s k r) = inl s') ∨ (∃ a, restoreAuthority s a = inl s') ∨
  (∃ o a, ran (RestoreLabels s o a) = inl s') ∨ (∃ i, ran (RestoreIncarnation s i) = inl s') ∨
  (∃ m, ran (RestoreFailedStepRetryPending s m) = inl s') ∨ (∃ p, ran (BeginWorkspaceEnrollment s p) = inl s') →
  track s' = track s.
Proof.
  intros [(k & r & H)|[(a & H)|[(o & a & H)|[(i & H)|[(m & H)|(p & H)]]]]]; revert H;
    unfold restoreAuthority, RestoreSessionMetadata, RestoreLabels, BindAuthority, RestoreIncarnation, RestoreFailedStepRetryPending,
      BeginWorkspaceEnrollment, ran, ok, fail; repeat case_match; intros; simplify_eq; done.
Qed.

Lemma restoreAuthority_wf s a s' : wellFormed s → restoreAuthority s a = inl s' → wellFormed s'.
Proof.
  intros Hw. destruct a as [a|]; cbn; [|by intros [= <-]]. destruct (ValidatePersistedAuthority a); [done|]. by apply (ran_wf s (OBindAuthority a)).
Qed.

Lemma foldl_append ms c : foldl (λ c m, Append c (fromDTO m)) c ms = c ++ (fromDTO <$> ms).
Proof. revert c. induction ms as [|m ms IH]; intros c; cbn; [by rewrite app_nil_r|]. rewrite IH. unfold Append. by rewrite <-app_assoc. Qed.

Lemma restoreCreation_wf minted d s :
  restoreCreation minted d = inl s →
  wellFormed s ∧ track s = (StateIdle, fromDTO <$> snMessages d, zeroCounters, None, None).
Proof.
  unfold restoreCreation. case_bool; [done|]. destruct (New _ _ _ _ _ _) as [s0|] eqn:En; [|done].
  assert (H0 : wellFormed s0 ∧ track s0 = (StateIdle, [], zeroCounters, None, None)).
  { destruct (New_ok _ _ _ _ _ _ _ En) as (A & B & C). split; [split_and!; try done|].
    - apply reachable_durable. by eapply reachable_new.
    - revert En. unfold New. case_bool; [done|]. by intros [= <-]. }
  destruct H0 as [Hw0 Ht0]. intros (s1 & H1 & H)%andThen_inl.
  assert (Hw1 : wellFormed s1) by (by eapply (ran_wf s0 (ORestoreSessionMetadata _ _))).
  assert (Ht1 : track s1 = track s0) by (apply labels_track; naive_solver).
  apply andThen_inl in H as (s2 & H2 & H).
  assert (Hw2 : wellFormed s2) by (by eapply restoreAuthority_wf).
  assert (Ht2 : track s2 = track s1) by (apply labels_track; naive_solver).
  cbv zeta in H. apply andThen_inl in H as (s4 & H4 & H).
  set (s3 := setTitleMeta _ _) in H4. rewrite Ht1, Ht0 in Ht2. unfold track in Ht2. injection Ht2 as E1 E2 E3 E4 E5.
  assert (Hw3 : wellFormed s3).
  { unfold s3. apply wf_title, wf_run, wf_labels, wf_messages; [congruence|done]. }
  assert (Ht3 : track s3 = (StateIdle, fromDTO <$> snMessages d, zeroCounters, None, None)).
  { unfold s3, track. cbn. by rewrite foldl_append, E1, E2, E3, E4, E5. }
  assert (Hw4 : wellFormed s4) by (by eapply (ran_wf s3 (ORestoreLabels _ _))).
  assert (Ht4 : track s4 = track s3) by (apply labels_track; naive_solver).
  split; [by eapply (ran_wf s4 (ORestoreIncarnation _))|]. rewrite <-Ht3, <-Ht4. apply labels_track; naive_solver.
Qed.

Lemma enterState_wf s data s' :
  wellFormed s → SState s = StateIdle → SCounters s = rdCounters data → enterState s data = inl s' →
  wellFormed s' ∧ SState s' = rdState data ∧ SCounters s' = rdCounters data ∧ Messages s' = Messages s.
Proof.
  intros Hw Hi Hc. unfold enterState.
  assert (Hbegin : ∀ r, beginTurnPreservingCounters s (rdCounters data) = inl r →
    wellFormed r ∧ SState r = StateRunning ∧ SCounters r = rdCounters data ∧ Messages r = Messages s).
  { intros r (r0 & H0 & [= <-])%andThen_inl. split; [apply wf_counters; by eapply (ran_wf s OBeginTurn)|].
    revert H0. unfold BeginTurn, ran, fail, ok. repeat case_match; intros; by simplify_eq. }
  destruct (rdState data).
  - intros [= <-]. done.
  - apply Hbegin.
  - intros (r & (Hr & R1 & R2 & R3)%Hbegin & H)%andThen_inl. destruct (rdPending data) as [ask|]; [|done].
    split; [by eapply (ran_wf r (OPauseForApproval _))|]. revert H. unfold PauseForApproval, ran, fail, ok. case_bool; intros; by simplify_eq.
  - intros (r & (Hr & R1 & R2 & R3)%Hbegin & H)%andThen_inl. destruct (rdPendingAuthorization data) as [p|]; [|done].
    split; [by eapply (ran_wf r (OPauseForAuthorization _))|]. revert H. unfold PauseForAuthorization, ran, fail, ok. repeat case_match; intros; by simplify_eq.
  - case_bool; intros H; (split; [first [by eapply (ran_wf s OComplete)|by eapply (ran_wf s (OStop (rdStop data)))]|]); revert H;
      unfold Complete, Stop, ran, fail, ok; repeat case_match; intros; by simplify_eq.
  - intros (r & H1 & (r2 & H2 & H)%andThen_inl)%andThen_inl.
    assert (Hw1 : wellFormed r) by (by eapply (ran_wf s OFail)). assert (Hw2 : wellFormed r2) by (by eapply (ran_wf r (ORecordFailureMetadata _))).
    assert (T1 : SState r = StateFailed ∧ SCounters r = SCounters s ∧ Messages r = Messages s)
      by (revert H1; unfold Fail_, ran, fail, ok; repeat case_match; intros; by simplify_eq).
    assert (T2 : SState r2 = StateFailed ∧ SCounters r2 = SCounters r ∧ Messages r2 = Messages r)
      by (revert H2; unfold RecordFailureMetadata, ran, fail, ok; repeat case_match; intros; simplify_eq; naive_solver).
    destruct T1 as (? & ? & ?), T2 as (? & ? & ?). revert H. case_bool.
    + intros H. split; [by eapply (ran_wf r2 (ORecordLastError _))|]. revert H. unfold RecordLastError, ran, fail, ok.
      case_bool; intros; simplify_eq; cbn; split_and!; congruence.
    + intros [= <-]. split_and!; congruence.
  - intros H. split; [by eapply (ran_wf s OCancel)|]. revert H. unfold Cancel, ran, fail, ok. repeat case_match; intros; by simplify_eq.
Qed.

Lemma enterState_pending s data s' :
  enterState s data = inl s' →
  (rdState data = StateAwaiting → pending s' = rdPending data) ∧
  (rdState data = StateAuthorizing → pendingAuthorization s' = rdPendingAuthorization data).
Proof.
  unfold enterState. destruct (rdState data); try (intros _; by split); intros (r & _ & H)%andThen_inl; (split; [try done|try done]); intros _; revert H.
  - destruct (rdPending data) as [ask|]; [|done]. unfold PauseForApproval, ran, fail, ok. case_bool; intros; by simplify_eq.
  - destruct (rdPendingAuthorization data) as [p|]; [|done]. unfold PauseForAuthorization, ran, fail, ok. repeat case_match; intros; by simplify_eq.
Qed.

Lemma validateRestore_cases minted s state ask park :
  validateRestorePendingState minted s state ask park = None →
  (is_Some ask ↔ state = StateAwaiting) ∧ (is_Some park ↔ state = StateAuthorizing).
Proof. destruct state, ask as [a|], park as [p|]; cbn; intros H; try discriminate H; split; split; try done; intros [? ?]; done. Qed.

Lemma RestoreState_wf minted s data s' :
  wellFormed s → SState s = StateIdle → RestoreState minted s data = inl s' →
  wellFormed s' ∧ SState s' = rdState data ∧ SCounters s' = rdCounters data ∧ Messages s' = Messages s ∧
  PendingAskOf s' = rdPending data ∧ PendingAuthorizationOf s' = rdPendingAuthorization data.
Proof.
  intros Hw Hi. unfold RestoreState. destruct (validateRestorePendingState _ _ _ _ _) eqn:Ev; [done|]. cbv zeta.
  destruct (validateRestore_cases _ _ _ _ _ Ev) as [V1 V2]. intros (r & He & H)%andThen_inl.
  assert (Hw0 : wellFormed (setTokenUsage (RestoreTokenUsage (rdTokenUsage data)) (setCounters (rdCounters data) s)))
    by (apply (exec_wellFormed _ (ORestoreTokenUsage _)), wf_counters, Hw).
  destruct (enterState_wf _ _ _ Hw0 Hi eq_refl He) as (Hr & R1 & R2 & R3). destruct (enterState_pending _ _ _ He) as [P1 P2].
  assert (Ht : wellFormed s' ∧ track s' = track r).
  { revert H. case_bool; [|by intros [= <-]]. intros H. split; [by eapply (ran_wf r (ORestoreFailedStepRetryPending _))|apply labels_track; naive_solver]. }
  destruct Ht as [Hw' Ht]. unfold track in Ht. injection Ht as T1 T2 T3 T4 T5.
  destruct (accessors s') as (A1 & A2 & _); [apply Hw'|]. rewrite A1, A2, T1, T2, T3, T4, T5, R1, R2, R3. split_and!; try done.
  - destruct (decide (rdState data = StateAwaiting)) as [Ha|Ha]; [by apply P1|]. pose proof (proj1 Hr) as Hs. unfold shape in Hs. rewrite R1 in Hs.
    destruct (rdPending data) as [a|] eqn:Ea; [destruct Ha; by apply V1|]. destruct (rdState data); naive_solver.
  - destruct (decide (rdState data = StateAuthorizing)) as [Ha|Ha]; [by apply P2|]. pose proof (proj1 Hr) as Hs. unfold shape in Hs. rewrite R1 in Hs.
    destruct (rdPendingAuthorization data) as [a|] eqn:Ea; [destruct Ha; by apply V2|]. destruct (rdState data); naive_solver.
Qed.

(** C17. Whatever a store hands back is well-formed.  For any snapshot at all, legacy,
    damaged or forged: when it restores, the session satisfies the lifecycle invariant
    of the aggregate, is in the state the snapshot names, has exactly its messages,
    counters and pending controls, and a bound authority in it is valid. *)
Theorem restored_wellformed minted d s :
  Restore minted d = inl s →
  shape s ∧ retry_ok s ∧ data_ok s ∧ durable s ∧
  SState s = snState d ∧ Messages s = fromDTO <$> snMessages d ∧ SCounters s = snCounters d ∧
  PendingAskOf s = snPending d ∧ PendingAuthorizationOf s = fromPendingAuthorizationDTO <$> snPendingAuthorization d ∧
  (∀ a, BoundAuthority s = Some a → AuthorityValid a = true).
Proof.
  unfold Restore. intros (s1 & H1 & H)%andThen_inl. apply andThen_inl in H as (s2 & H2 & H).
  destruct (restoreCreation_wf _ _ _ H1) as [W1 T1]. unfold track in T1. injection T1 as E1 E2 E3 E4 E5.
  destruct (RestoreState_wf _ _ _ _ W1 E1 H2) as (W2 & R1 & R2 & R3 & R4 & R5). cbv zeta in H.
  set (s3 := match snOccupancy d with Some o => _ | None => s2 end) in H.
  assert (H3 : wellFormed s3 ∧ track s3 = track s2).
  { unfold s3. destruct (snOccupancy d) as [o|]; [|done]. split; [by apply (exec_wellFormed s2 (ORecordOccupancy o))|].
    unfold RecordLatestContextOccupancy. by case_bool. }
  destruct H3 as [W3 T3].
  assert (H4 : wellFormed s ∧ track s = track s2).
  { revert H. destruct (snPendingEnrollment d) as [p|]; [|by intros [= <-]]. intros H. split; [by eapply (ran_wf s3 (OBeginEnrollment _))|].
    rewrite <-T3. apply labels_track; naive_solver. }
  destruct H4 as [W4 T4]. unfold track in T4. injection T4 as F1 F2 F3 F4 F5.
  assert (Ha : PendingAskOf s = PendingAskOf s2 ∧ PendingAuthorizationOf s = PendingAuthorizationOf s2)
    by (unfold PendingAskOf, PendingAuthorizationOf; by rewrite F1, F4, F5).
  destruct Ha as [-> ->]. destruct W4 as (A & B & C & D). split_and!; try done; try congruence.
  - rewrite F1, R1. done.
  - rewrite F3, R2. done.
  - intros a. unfold BoundAuthority. destruct (authorityBound s) eqn:Eb; [|done]. cbn. intros [= <-]. by apply (data_authority s C).
Qed.
End roundtrip.

(** ** Through JSON *)

Section wire.
Context {platform : Platform}.

(** [json.Marshal] and [json.Unmarshal] of a snapshot: raw messages (the arguments of
    calls and of an ask) are compacted, and invalid ones are an error; the provenance of
    an ask is not encoded; the arguments of a parked call are bytes in base64. *)
Definition wireCall (c : ToolCall) : option ToolCall :=
  a ← compactJSON (CallArgs c); Some (mkToolCall (CallID c) (CallName c) a (CallItemID c)).

Definition wireMessage (d : messageDTO) : option messageDTO :=
  calls ← mapM wireCall (dToolCalls d);
  Some (mkMessageDTO (dRole d) (dText d) calls (dToolResult d) (dReasoning d) (dProviderPhase d) (dReasoningItemID d) (dParts d) (dProvenance d)).

Definition wireAsk (a : PendingAsk) : option PendingAsk :=
  args ← compactJSON (AskArgs a);
  Some (mkAsk (AskID a) (AskTool a) args (AskReason a) (AskCall a) (AskGuardrail a) (AskOrigin a) AskProvenanceUnknown).

Definition wireSnapshot (d : Snapshot) : option Snapshot :=
  messages ← mapM wireMessage (snMessages d);
  ask ← match snPending d with Some a => Some <$> wireAsk a | None => Some None end;
  Some (mkSnapshot (snID d) (snState d) (snMode d) (snLimits d) (snCounters d) (snCreatedAt d) (snIncarnation d) messages ask
    (snPendingAuthorization d) (snPendingEnrollment d) (snStopReason d) (snKind d) (snRelationship d) (snProviderID d) (snModelID d)
    (snLabels d) (snTitle d) (snTokenUsage d) (snOccupancy d) (snFailure d) (snRetryPending d) (snRetry d) (snLastError d) (snRunID d)
    (snOwner d) (snAuthority d) (snEnvironmentRef d)).

(** [Marshal]; [None] is an encoding error. *)
Definition Marshal (s : Session) : option Snapshot :=
  match Of s with inl d => wireSnapshot d | inr _ => None end.

(** What compaction leaves the same. *)
Definition compacted (c c' : ToolCall) : Prop :=
  CallID c' = CallID c ∧ CallName c' = CallName c ∧ CallItemID c' = CallItemID c ∧ compactJSON (CallArgs c) = Some (CallArgs c').

Record compactedMessage (m m' : Message) : Prop := {
  cm_calls : Forall2 compacted (MToolCalls m) (MToolCalls m');
  cm_role : MRole m' = MRole m;
  cm_text : MText m' = MText m;
  cm_result : MToolResult m' = MToolResult m;
  cm_reasoning : (MReasoning m', MProviderPhase m', MReasoningItemID m') = (MReasoning m, MProviderPhase m, MReasoningItemID m);
  cm_parts : MParts m' = MParts m;
  cm_provenance : MProvenance m' = MProvenance m
}.

Definition compactedAsk (a a' : PendingAsk) : Prop :=
  compactJSON (AskArgs a) = Some (AskArgs a') ∧
  a' = mkAsk (AskID a) (AskTool a) (AskArgs a') (AskReason a) (AskCall a) (AskGuardrail a) (AskOrigin a) AskProvenanceUnknown.

Lemma compacted_ids cs cs' : Forall2 compacted cs cs' → CallID <$> cs' = CallID <$> cs.
Proof. induction 1 as [|c c' cs cs' (Hi & _) _ IH]; cbn; [done|]. by rewrite Hi, IH. Qed.

Lemma compacted_callIDs cs cs' : Forall2 compacted cs cs' → callIDs cs' = callIDs cs.
Proof. intros H. unfold callIDs. by rewrite (compacted_ids cs cs'). Qed.

Lemma pairLoop_compacted ms ms' i o : Forall2 compactedMessage ms ms' → pairLoop i o ms' = pairLoop i o ms.
Proof.
  intros H. revert i o. induction H as [|m m' ms ms' [Hc Hr _ Hres _ _ _] _ IH]; intros i o; cbn; [done|].
  rewrite Hr, Hres. destruct (MRole m); try apply IH; [by rewrite (compacted_callIDs _ _ Hc), IH|].
  destruct (MToolResult m) as [r|]; [|done]. case_bool; [apply IH|done].
Qed.

Lemma pairing_compacted ms ms' : Forall2 compactedMessage ms ms' → ValidateToolPairing ms' = ValidateToolPairing ms.
Proof. intros H. unfold ValidateToolPairing. by rewrite (pairLoop_compacted ms ms'). Qed.

Lemma lastAssistant_compacted ms ms' :
  Forall2 compactedMessage ms ms' →
  match lastAssistant ms, lastAssistant ms' with
  | Some (p, a, t), Some (p', a', t') => Forall2 compactedMessage p p' ∧ compactedMessage a a' ∧ Forall2 compactedMessage t t'
  | None, None => True
  | _, _ => False
  end.
Proof.
  induction 1 as [|m m' ms ms' Hm Hms IH]; cbn; [done|].
  destruct (lastAssistant ms) as [[[p a] t]|], (lastAssistant ms') as [[[p' a'] t']|]; try done.
  - destruct IH as (? & ? & ?). split_and!; [by constructor|done|done].
  - rewrite (cm_role _ _ Hm). case_bool; [|done]. split_and!; [constructor|done|done].
Qed.

Lemma distinct_compacted bad dup seen cs cs' : Forall2 compacted cs cs' → distinctLoop bad dup seen cs' = distinctLoop bad dup seen cs.
Proof.
  intros H. revert seen. induction H as [|c c' cs cs' (Hi & Hn & _) _ IH]; intros seen; cbn; [done|].
  unfold validAuthorizationCall. rewrite Hi, Hn. case_bool; [done|]. case_bool; [done|]. apply IH.
Qed.

Lemma findPending_compacted p i o cs cs' : Forall2 compacted cs cs' → findPending p i o cs' = findPending p i o cs.
Proof.
  intros H. revert i o. induction H as [|c c' cs cs' (Hi & Hn & Hit & _) _ IH]; intros i o; cbn; [done|].
  unfold sameAuthorizationCallIdentity. rewrite Hi, Hn, Hit. case_bool; [|apply IH]. case_bool; [done|]. apply IH.
Qed.

Lemma answered_compacted known ans ms ms' : Forall2 compactedMessage ms ms' → answeredLoop known ans ms' = answeredLoop known ans ms.
Proof.
  intros H. revert ans. induction H as [|m m' ms ms' [_ Hr _ Hres _ _ _] _ IH]; intros ans; cbn; [done|]. rewrite Hr, Hres.
  destruct (MRole m); try done. destruct (MToolResult m) as [r|]; [|done]. case_bool; [done|]. case_bool; [done|]. apply IH.
Qed.

Lemma progress_compacted at_ i ans cs cs' : Forall2 compacted cs cs' → progressLoop at_ i ans cs' = progressLoop at_ i ans cs.
Proof.
  intros H. revert i. induction H as [|c c' cs cs' (Hi & _) _ IH]; intros i; cbn; [done|]. rewrite Hi. case_bool; [done|]. case_bool; [done|]. apply IH.
Qed.

(** Compaction is idempotent: the documented behaviour of [json.Compact]. *)
Context (Hidem : ∀ a b, compactJSON a = Some b → compactJSON b = Some b).

Lemma sameDeferred_compacted cs cs' ds :
  Forall2 compacted cs cs' → sameDeferred compactJSON cs ds = true → sameDeferred compactJSON cs' ds = true.
Proof.
  intros H. revert ds. induction H as [|c c' cs cs' (Hi & Hn & Hit & Ha) _ IH]; intros [|d ds]; cbn; try done.
  intros [Hc Hd]%andb_true_iff. apply andb_true_iff. split; [|by apply IH].
  unfold sameDeferredAuthorizationCall, sameAuthorizationCallIdentity, equivalentAuthorizationArgs in *. rewrite Hi, Hn, Hit.
  apply andb_true_iff in Hc as [-> Hc]. cbn. case_bool; [done|]. rewrite (Hidem _ _ Ha). rewrite Ha in Hc.
  destruct (decide (CallArgs c = CallArgs d)) as [Heq|Hne].
  - rewrite <-Heq, Ha. by apply bool_decide_true.
  - rewrite (bool_decide_false (CallArgs c = CallArgs d)) in Hc by done. done.
Qed.

Lemma validate_compacted ms ms' p :
  Forall2 compactedMessage ms ms' → validatePendingAuthorization compactJSON ms p = None → validatePendingAuthorization compactJSON ms' p = None.
Proof.
  intros H. unfold validatePendingAuthorization. cbv zeta. do 5 (destruct (_ : bool); [done|]). destruct (distinctLoop _ _ _ _); [done|].
  pose proof (lastAssistant_compacted ms ms' H) as Hl.
  destruct (lastAssistant ms) as [[[q a] t]|], (lastAssistant ms') as [[[q' a'] t']|]; try done. destruct Hl as (Hq & [Ha _ _ _ _ _ _] & Ht).
  unfold validateTurn. cbv zeta. rewrite (pairing_compacted q q' Hq), (distinct_compacted _ _ _ _ _ Ha), (findPending_compacted _ _ _ _ _ Ha).
  destruct (ValidateToolPairing q); [done|]. destruct (distinctLoop _ _ _ _); [done|]. destruct (findPending _ _ _ _) as [[n|]|]; try done.
  destruct (sameDeferred _ _ _) eqn:Es; [|done]. rewrite (sameDeferred_compacted (drop (S n) (MToolCalls a)) _ _ (Forall2_drop _ _ _ (S n) Ha) Es). cbn.
  rewrite (compacted_callIDs _ _ Ha), (answered_compacted _ _ _ _ Ht). destruct (answeredLoop _ _ _); [|done]. by rewrite (progress_compacted _ _ _ _ _ Ha).
Qed.

(** The session a store hands back: [s] with its raw JSON compacted. *)
Definition persisted (s s' : Session) : Prop :=
  ∃ ms ask, Forall2 compactedMessage (Messages s) ms ∧ option_Forall2 compactedAsk (pending s) ask ∧
    s' = setAttribution [] (setMessages ms (setPending ask s)).

Lemma wireMessages_compacted ms ds :
  mapM wireMessage (toDTO <$> ms) = Some ds → ∃ ms', ds = toDTO <$> ms' ∧ Forall2 compactedMessage ms ms'.
Proof.
  revert ds. induction ms as [|m ms IH]; intros ds; cbn; [intros [= <-]; by exists []|].
  intros (d & Hd & (ds' & Hds & [= <-])%bind_Some)%bind_Some. destruct (IH ds' Hds) as (ms' & -> & Hms).
  apply bind_Some in Hd as (calls & Hc%mapM_Some & [= <-]). cbn in Hc.
  exists (mkMessage (MRole m) (MText m) calls (MToolResult m) (MReasoning m) (MProviderPhase m) (MReasoningItemID m) (MParts m) (MProvenance m) :: ms').
  split; [done|]. constructor; [|done]. split; try done. cbn. eapply Forall2_impl; [exact Hc|].
  intros c c' (a & Ha & [= <-])%bind_Some. by split_and!.
Qed.

Lemma wire_persisted s d :
  shape s → wireSnapshot (snapshotOf s) = Some d →
  ∃ ms ask, Forall2 compactedMessage (Messages s) ms ∧ option_Forall2 compactedAsk (pending s) ask ∧
    d = snapshotOf (setMessages ms (setPending ask s)).
Proof.
  intros Hs. destruct (accessors s Hs) as (A1 & A2 & _). unfold wireSnapshot. cbn [snapshotOf snMessages snPending snPendingAuthorization].
  rewrite A1. intros (ds & (ms & -> & Hms)%wireMessages_compacted & (ask & Hask & [= <-])%bind_Some)%bind_Some.
  assert (Ha : option_Forall2 compactedAsk (pending s) ask).
  { destruct (pending s) as [a|]; [|injection Hask as <-; constructor]. apply fmap_Some in Hask as (a' & Ha' & ->).
    apply bind_Some in Ha' as (args & Hargs & [= <-]). constructor. by split. }
  exists ms, ask. split_and!; [done|done|]. unfold snapshotOf. cbn. f_equal.
  unfold PendingAskOf in *. cbn. destruct (negb (SState s =s StateAwaiting)); [|done]. rewrite <-A1 in Ha. by inversion Ha.
Qed.

Lemma persisted_wf s ms ask :
  Forall2 compactedMessage (Messages s) ms → option_Forall2 compactedAsk (pending s) ask →
  wellFormed s → wellFormed (setMessages ms (setPending ask s)).
Proof.
  intros Hms Ha (H1 & H2 & [] & []). split_and!; try done. unfold shape, clean in *. cbn.
  destruct (SState s); try (destruct H1 as (Hp & H1); rewrite Hp in Ha; inversion Ha; by split).
  - destruct H1 as ([a Hp] & H1). rewrite Hp in Ha. inversion Ha. split; [by eexists|done].
  - destruct H1 as (Hp & ? & ? & ? & p & Hpa & Hv). rewrite Hp in Ha. inversion Ha; subst ask. do 4 (split; [done|]). exists p. split; [done|].
    by apply (validate_compacted (Messages s)).
Qed.

Lemma restorable_compacted s ms ask :
  Forall2 compactedMessage (Messages s) ms → restorable (setMessages ms (setPending ask s)) = restorable s.
Proof.
  intros Hms. unfold restorable. cbn. f_equal. induction Hms as [|m m' l l' [_ _ _ _ _ Hp _] _ IH]; cbn; [done|]. by rewrite Hp, IH.
Qed.

(** Persistence through JSON.  A session the aggregate can reach, encoded and
    decoded, restores to itself with its raw JSON compacted: every message, counter and
    control is there, the calls and the pending ask have the same identity and the
    compact form of their arguments, and a call parked at an external authorization
    still matches the compacted history it is checked against. *)
Theorem persisted_roundtrip s minted d :
  reachable s → restorable s = true → Marshal s = Some d → ∃ s', Restore minted d = inl s' ∧ persisted s s'.
Proof.
  intros Hr Hok. destruct (reachable_ok s Hr) as (H1 & H2 & H3). pose proof (reachable_durable s Hr) as H4.
  assert (Hof : Of s = inl (snapshotOf s)) by (by apply snapshot_restores). unfold Marshal. rewrite Hof. intros Hw.
  destruct (wire_persisted s d H1 Hw) as (ms & ask & Hms & Ha & ->).
  destruct (persisted_wf s ms ask Hms Ha) as (W1 & W2 & W3 & W4); [by split_and!|].
  exists (setAttribution [] (setMessages ms (setPending ask s))). split; [|by exists ms, ask].
  apply snapshot_restores; try done. by rewrite restorable_compacted.
Qed.
End wire.

(** ** Samples *)

Definition savedNew : Session :=
  default sampleNew (New #"s1" ModeDefault (mkEnvRef #"local" #"ws" #"1") (mkLimits 5 0 3) 1 #"inc_aaaaaaaaaaaaaaaaaaaaaaaaaa").

Lemma savedNew_reachable {platform : Platform} : reachable savedNew.
Proof. by eapply (reachable_new #"s1" ModeDefault (mkEnvRef #"local" #"ws" #"1") (mkLimits 5 0 3) 1 #"inc_aaaaaaaaaaaaaaaaaaaaaaaaaa"). Qed.

Definition shellCall : ToolCall := NewToolCall #"c1" #"Shell" [].
Definition shellAsk : PendingAsk := mkAsk #"ask-1" #"Shell" [] #"rule" #"c1" None ApprovalOriginPermission AskProvenanceUnknown.
Definition shellTurn : Message := mkMessage RoleAssistant #"ls" [shellCall] None [] [] [] [] UserPromptProvenanceUnknown.

(** An owned session with an authority, in the middle of a turn, at an ask. *)
Definition savedOps : list Op :=
  [ORestoreLabels (Some (mkPrincipal #"iss" #"sub" GrantTypeUser #"Ada")) noAuthority;
   OBindAuthority (mkAuthority (mkCaps [ #"Shell" ] 1 true false) #"root" []);
   OAssignLabels #"openai" #"gpt" (mkLabels #"no-fs" [] (mkPlacement #"local" [] [] []) [] [] [] []);
   ORecordUserPrompt #"list files" [] [] UserPromptProvenancePrincipal; OBeginRun #"run-1"; OBeginTurn;
   ORecordUsage (mkUsage 5 2 1 0 0); ORecordAssistant shellTurn; OPauseForApproval shellAsk].

Lemma snapshot_roundtrip_witness :
  ∃ d, Of (platform := samplePlatform) (runOps (platform := samplePlatform) savedNew savedOps) = inl d ∧
    Restore (platform := samplePlatform) #"minted" d =
      inl (setAttribution [] (runOps (platform := samplePlatform) savedNew savedOps)).
Proof.
  apply (snapshot_roundtrip (platform := samplePlatform)); [apply reachable_runOps, savedNew_reachable|by vm_compute].
Defined.

(** A failed step that is retried and asks for approval: the retry intent is still set in
    the awaiting state, and the saved session cannot be restored. *)
Definition retriedOps : list Op :=
  [ORecordUserPrompt #"list files" [] [] UserPromptProvenancePrincipal; OBeginTurn; OFail;
   ORecordFailureMetadata (mkRetry RetryDispositionRetryable StreamProgressPrecommit); OPrepareFailedStepRetry;
   OBeginTurn; ORecordAssistant shellTurn; OPauseForApproval shellAsk].

Example awaiting_retry_not_restored :
  let s := runOps (platform := samplePlatform) savedNew retriedOps in
  SState s = StateAwaiting ∧ retryPending s = true ∧
  ∃ d, Of (platform := samplePlatform) s = inl d ∧ Restore (platform := samplePlatform) #"minted" d = inr (SnapSession ErrIllegalTransition).
Proof. intros s. split; [by vm_compute|]. split; [by vm_compute|]. exists (snapshotOf s). split; by vm_compute. Qed.

(** A session bound to an empty capability set is saved and not restored. *)
Example empty_authority_not_restored :
  let s := runOps (platform := samplePlatform) savedNew [OBindAuthority (mkAuthority (mkCaps [] 0 false false) #"root" [])] in
  authorityBound s = true ∧
  ∃ d, Of (platform := samplePlatform) s = inl d ∧ Restore (platform := samplePlatform) #"minted" d = inr SnapEmptyAuthority.
Proof. intros s. split; [by vm_compute|]. exists (snapshotOf s). split; by vm_compute. Qed.

(** A platform that compacts: blanks are dropped. *)
Definition blankPlatform : Platform :=
  {| compactJSON := λ x, Some (filter (λ c, c ≠ 32%N) x); legacyIncarnationID := λ _ _ _, [] |}.

Lemma blank_idem a b : compactJSON (Platform := blankPlatform) a = Some b → compactJSON (Platform := blankPlatform) b = Some b.
Proof. cbn. intros [= <-]. f_equal. rewrite list_filter_filter. apply list_filter_iff. naive_solver. Qed.

Definition savedSession : Session := runOps (platform := blankPlatform) savedNew savedOps.

Lemma persisted_roundtrip_witness :
  ∃ d s', Marshal (platform := blankPlatform) savedSession = Some d ∧ Restore (platform := blankPlatform) #"minted" d = inl s' ∧
    persisted (platform := blankPlatform) savedSession s'.
Proof.
  assert (Hm : is_Some (Marshal (platform := blankPlatform) savedSession)).
  { assert (Hb : match Marshal (platform := blankPlatform) savedSession with Some _ => true | None => false end = true) by (vm_compute; reflexivity).
    destruct (Marshal savedSession) as [d|]; [by exists d|done]. }
  destruct Hm as [d Hd]. exists d.
  destruct (persisted_roundtrip (platform := blankPlatform) blank_idem savedSession #"minted" d) as (s' & H1 & H2); [|by vm_compute|exact Hd|by exists s'].
  apply reachable_runOps, savedNew_reachable.
Defined.

Lemma restored_wellformed_witness :
  ∃ d s, Restore (platform := blankPlatform) #"minted" d = inl s ∧ shape (platform := blankPlatform) s ∧ SState s = snState d.
Proof.
  exists (snapshotOf savedSession).
  assert (Hs : reachable (platform := blankPlatform) savedSession) by apply reachable_runOps, savedNew_reachable.
  destruct (reachable_ok savedSession Hs) as (R1 & R2 & R3).
  destruct (snapshot_restores (platform := blankPlatform) savedSession #"minted" R1 R2 (reachable_durable savedSession Hs) R3) as [_ Hr]; [by vm_compute|].
  exists (setAttribution [] savedSession). set (s := setAttribution [] savedSession) in *.
  destruct (restored_wellformed (platform := blankPlatform) #"minted" (snapshotOf savedSession) s Hr) as (H1 & _ & _ & _ & H2 & _). by split_and!.
Defined.
