(* ===== verification/Store.v ===== *)
(** * The session store

    [engine/adapter/memstore/memstore.go] with the contracts of [engine/port/store.go]
    and [engine/port/sessionlineage.go]: saving, creating, loading and deleting
    sessions, the index of lineages, and the pages of the inventory.

    The clock and the scripted failures of [Delete] are arguments; the digest of an owner's
    scope is a parameter.  Every method holds the mutex of the store, so a history is a
    sequence of calls. *)

From stdpp Require Import sorting pretty.
From S2P Require Import Prelude Evaluator Authority Conversation Usage Title Authorization Labels Session Snapshot.

(** ** Data *)

Inductive SessionLineageState := SessionLineageRetained | SessionLineagePruned.
#[global] Instance SessionLineageState_eq_dec : EqDecision SessionLineageState.
Proof. solve_decision. Defined.

Definition MaxSessionLineageRecords : Z := 256.

Record SessionLineageRecord := mkLineage {
  liID : gostr; liKind : SessionKind; liRel : SessionRelationship; liOwnerScope : gostr; liIncarnation : gostr;
  liState : SessionLineageState; liDeletedAt : Z
}.
#[global] Instance SessionLineageRecord_eq_dec : EqDecision SessionLineageRecord.
Proof. solve_decision. Defined.

Record SessionLineageQuery := mkLineageQuery {
  qRootID : gostr; qRootIncarnation : gostr; qRecordID : gostr; qRecordIncarnation : gostr; qLimit : Z
}.

(** [SessionDiscoveryMeta] *)
Record DiscoveryMeta := mkMeta {
  dmID : gostr; dmModifiedAt : Z; dmState : State; dmTurns : Z; dmModelID : gostr; dmCreatedAt : Z; dmTitle : gostr;
  dmTitleProvenance : TitleProvenance; dmOwner : option Principal; dmEnvironmentRef : option EnvironmentRef; dmKind : SessionKind;
  dmRelationship : SessionRelationship; dmActivity : ActivityState; dmEstimatedBytes : Z
}.

Record MetadataCursor := mkMetaCursor { mcModifiedAt : Z; mcID : gostr; mcGeneration : gostr; mcScope : gostr; mcContinuation : gostr }.

Record PageRequest := mkPageRequest { prLimit : Z; prCursor : option MetadataCursor; prOwnershipEnforced : bool; prOwner : option Principal }.

Record MetadataPage := mkPage { pgSessions : list DiscoveryMeta; pgNext : option MetadataCursor; pgTotal : nat }.

Inductive StoreError :=
  | ErrSnapshot (e : SnapshotError) | ErrSessionNotFound | ErrSessionAlreadyExists | ErrSessionLoadFailure (e : SnapshotError)
  | ErrInvalidSessionLineageQuery | ErrSessionMetadataCursorRestart | ErrGenerationEmpty | ErrScripted
  | PanicSlice.

Abbreviation lineageMap := (gmap gostr SessionLineageRecord).

Record Store := mkStore {
  stSessions : gmap gostr Snapshot;
  stSavedAt : gmap gostr Z;
  stEstimatedBytes : gmap gostr Z;
  stActivities : gmap gostr ActivityState;
  stLineageByKey : lineageMap;
  stLineageByID : gmap gostr lineageMap;
  stLineageEdges : gmap gostr lineageMap;
  stGeneration : Z
}.

Definition newStore : Store := mkStore ∅ ∅ ∅ ∅ ∅ ∅ ∅ 0.

(** ** Sizes *)

Definition blen (s : gostr) : Z := Z.of_nat (byteLen s).
Definition bytesLen (b : list N) : Z := Z.of_nat (length b).

(** [base64.StdEncoding.EncodedLen] *)
Definition encodedBytesLen (n : Z) : Z := ((n + 2) `div` 3 * 4)%Z.

Definition sumZ {A} (f : A → Z) (l : list A) : Z := foldr (λ a z, (f a + z)%Z) 0%Z l.

(** The texts of the closed enumerations, whose lengths count. *)
Definition stateText (s : State) : gostr :=
  match s with
  | StateIdle => #"idle" | StateRunning => #"running" | StateAwaiting => #"awaiting" | StateAuthorizing => #"authorizing"
  | StateCompleted => #"completed" | StateFailed => #"failed" | StateCancelled => #"cancelled"
  end.
Definition modeText (m : PermissionMode) : gostr :=
  match m with ModeDefault => #"default" | ModePlan => #"plan" | ModeAccept => #"acceptEdits" end.
Definition stopText (r : StopReason) : gostr :=
  match r with
  | StopNone => [] | StopEndTurn => #"end_turn" | StopMaxTurns => #"max_turns" | StopMaxToolCalls => #"max_tool_calls"
  | StopMaxConsecutiveFailures => #"max_consecutive_failures" | StopCancelled => #"cancelled" | StopError => #"error"
  | StopNoProgress => #"no_progress" | StopBudget => #"budget" | StopTimeout => #"timeout"
  | StopStructuredOutput => #"structured_output" | StopPlanApproved => #"plan_approved" | StopPlanIterate => #"plan_iterate"
  end.
Definition kindText (k : SessionKind) : gostr :=
  match k with
  | SessionKindUnknown => #"unknown" | SessionKindMain => #"main" | SessionKindScheduled => #"scheduled" | SessionKindSubagent => #"subagent"
  | SessionKindParallelBranch => #"parallel_branch" | SessionKindTeamMember => #"team_member" | SessionKindDebug => #"debug"
  end.
Definition roleText (r : Role) : gostr :=
  match r with RoleSystem => #"system" | RoleUser => #"user" | RoleAssistant => #"assistant" | RoleTool => #"tool" end.
Definition titleProvenanceText (p : TitleProvenance) : gostr :=
  match p with
  | TitleProvenanceUnknown => [] | TitleProvenanceFirstPrompt => #"first-prompt" | TitleProvenanceOperator => #"operator"
  | TitleProvenanceGenerated => #"generated"
  end.
Definition grantText (g : GrantType) : gostr :=
  match g with GrantTypeUser => #"user" | GrantTypeClientCredentials => #"client_credentials" | GrantTypeSystem => #"system" end.

Definition estimateContentBytes (c : Content) : Z :=
  (128 + blen (CBlockKind c) + blen (CKind c) + blen (CMIMEType c) + blen (CURL c) + blen (CText c) + blen (CName c) + blen (CTitle c)
  + blen (CDescription c) + blen (CLastModified c) + encodedBytesLen (bytesLen (CData c)) + sumZ (λ a, 4 + blen a) (CAudience c))%Z.

Definition estimateMessageBytes (m : messageDTO) : Z :=
  (96 + blen (roleText (dRole m)) + blen (dText m) + blen (dReasoning m) + blen (dProviderPhase m) + blen (dReasoningItemID m)
  + sumZ (λ c, 64 + blen (CallID c) + blen (CallName c) + bytesLen (CallArgs c) + blen (CallItemID c)) (dToolCalls m)
  + match dToolResult m with
    | Some r => 64 + blen (RCallID r) + blen (RContent r) + sumZ estimateContentBytes (RParts r)
    | None => 0
    end
  + sumZ (λ p, 48 + blen (dKind p) + blen (dMIMEType p) + blen (dURL p) + encodedBytesLen (bytesLen (dData p))) (dParts m))%Z.

(** The sums are of lengths of what is in memory. *)
Definition estimateSnapshotBytes (d : Snapshot) : Z :=
  let env := snEnvironmentRef d in
  let rel := snRelationship d in
  (256 + blen (snID d) + blen (stateText (snState d)) + blen (modeText (snMode d)) + blen (stopText (snStopReason d))
  + blen (match snKind d with Some k => kindText k | None => [] end) + blen (Profile (snLabels d)) + blen (snProviderID d) + blen (snModelID d)
  + blen (ReasoningEffort (snLabels d)) + blen (Title (snTitle d)) + blen (titleProvenanceText (TitleProv (snTitle d))) + blen (snLastError d)
  + blen (snIncarnation d) + blen (EnvKind env) + blen (EnvID env) + blen (EnvRevision env)
  + match snAuthority d with
    | Some a => 96 + blen (AProvenance a) + blen (ADefinitionIdentity a) + sumZ (λ t, 4 + blen t) (Tools (ACapabilitySet a))
    | None => 0
    end
  + blen (ScheduleName rel) + blen (OriginSessionID rel) + blen (OriginIncarnation rel) + blen (ParentSessionID rel) + blen (ParentIncarnation rel)
  + blen (RelCallID rel) + blen (TeamID rel) + blen (MemberName rel) + blen (DebugTargetID rel) + blen (DebugTargetIncarnation rel)
  + match BranchIndex rel with Some _ => 16 | None => 0 end
  + match snPending d with
    | Some a => 96 + blen (AskID a) + blen (AskTool a) + bytesLen (AskArgs a) + blen (AskReason a) + blen (AskCall a)
    | None => 0
    end
  + match snOwner d with
    | Some o => 64 + blen (Issuer o) + blen (Subject o) + blen (grantText (PGrantType o)) + blen (PName o)
    | None => 0
    end
  + 96 * Z.of_nat (size (snTokenUsage d))
  + sumZ estimateMessageBytes (snMessages d))%Z.

(** ** Lineage *)

Section store.
Context {platform : Platform}.
(** The SHA-256 digest of a framed identity in hexadecimal; [None] is the scope of an identity
    that cannot be framed. *)
Context (scopeHash : option gostr → gostr).

(** [PersistedIncarnationID] *)
Definition PersistedIncarnationID (inc id : gostr) (createdAt : Z) (owner : option Principal) : gostr :=
  if IncarnationValid inc then inc else legacyIncarnationID id createdAt owner.

Definition lineageSnapshotRecord (id : gostr) (d : Snapshot) (state : SessionLineageState) (deletedAt : Z) : SessionLineageRecord :=
  mkLineage id (default SessionKindUnknown (snKind d)) (snRelationship d) (scopeHash (principalScopeText (snOwner d)))
    (PersistedIncarnationID (snIncarnation d) id (snCreatedAt d) (snOwner d)) state deletedAt.

Definition sameLineageIncarnation (d : Snapshot) (s : Session) : bool :=
  if negb (snIncarnation d =s []) then snIncarnation d =s incarnation s
  else PersistedIncarnationID [] (snID d) (snCreatedAt d) (snOwner d) =s incarnation s.

Definition lineageRecordKey (id inc : gostr) : gostr := id ++ nul :: inc.

Definition lineageEdgeSubject (r : SessionLineageRecord) : gostr :=
  let rel := liRel r in
  if negb (ParentSessionID rel =s []) then lineageRecordKey (ParentSessionID rel) (ParentIncarnation rel)
  else if negb (OriginSessionID rel =s []) then lineageRecordKey (OriginSessionID rel) (OriginIncarnation rel)
  else if negb (DebugTargetID rel =s []) then lineageRecordKey (DebugTargetID rel) (DebugTargetIncarnation rel)
  else [].

(** The deletion from a partition; deleting from an absent one does nothing. *)
Definition dropEdge (edges : gmap gostr lineageMap) (subject key : gostr) : gmap gostr lineageMap :=
  match edges !! subject with Some m => <[subject := delete key m]> edges | None => edges end.

Definition addEntry (m : gmap gostr lineageMap) (k key : gostr) (r : SessionLineageRecord) : gmap gostr lineageMap :=
  <[k := <[key := r]> (default ∅ (m !! k))]> m.

Definition putLineage (st : Store) (row : SessionLineageRecord) : Store :=
  let key := lineageRecordKey (liID row) (liIncarnation row) in
  let edges := match stLineageByKey st !! key with
               | Some old => let subject := lineageEdgeSubject old in
                             if negb (subject =s []) then dropEdge (stLineageEdges st) subject key else stLineageEdges st
               | None => stLineageEdges st
               end in
  let subject := lineageEdgeSubject row in
  mkStore (stSessions st) (stSavedAt st) (stEstimatedBytes st) (stActivities st) (<[key := row]> (stLineageByKey st))
    (addEntry (stLineageByID st) (liID row) key row)
    (if negb (subject =s []) then addEntry edges subject key row else edges) (stGeneration st).

(** ** Saving and loading *)

(** The publication [Save] and [Create] share. *)
Definition publish (st : Store) (s : Session) (d : Snapshot) (now : Z) : Store :=
  let st := mkStore (<[SID s := d]> (stSessions st)) (stSavedAt st) (stEstimatedBytes st) (stActivities st) (stLineageByKey st) (stLineageByID st)
              (stLineageEdges st) (stGeneration st) in
  let st := putLineage st (lineageSnapshotRecord (SID s) d SessionLineageRetained 0) in
  mkStore (stSessions st) (<[SID s := now]> (stSavedAt st)) (<[SID s := estimateSnapshotBytes d]> (stEstimatedBytes st))
    (<[SID s := ActivityOf (Messages s)]> (stActivities st)) (stLineageByKey st) (stLineageByID st) (stLineageEdges st)
    (wrapU64 (stGeneration st + 1)).

Definition Save (st : Store) (s : Session) (now : Z) : Store * option StoreError :=
  match Of s with
  | inr e => (st, Some (ErrSnapshot e))
  | inl d =>
      let st := match stSessions st !! SID s with
                | Some prior => if negb (sameLineageIncarnation prior s)
                                then putLineage st (lineageSnapshotRecord (SID s) prior SessionLineagePruned now) else st
                | None => st
                end in
      (publish st s d now, None)
  end.

Definition Create (st : Store) (s : Session) (now : Z) : Store * option StoreError :=
  match Of s with
  | inr e => (st, Some (ErrSnapshot e))
  | inl d => match stSessions st !! SID s with Some _ => (st, Some ErrSessionAlreadyExists) | None => (publish st s d now, None) end
  end.

Definition Load (minted : gostr) (st : Store) (id : gostr) : Session + StoreError :=
  match stSessions st !! id with
  | None => inr ErrSessionNotFound
  | Some d => match Restore minted d with inl s => inl s | inr e => inr (ErrSessionLoadFailure e) end
  end.

(** The removal [Delete] and [DeleteSessionIfUnchanged] share. *)
Definition withdraw (st : Store) (id : gostr) : Store :=
  mkStore (delete id (stSessions st)) (delete id (stSavedAt st)) (delete id (stEstimatedBytes st)) (stActivities st) (stLineageByKey st)
    (stLineageByID st) (stLineageEdges st) (stGeneration st).

Definition bumpGeneration (st : Store) : Store :=
  mkStore (stSessions st) (stSavedAt st) (stEstimatedBytes st) (stActivities st) (stLineageByKey st) (stLineageByID st) (stLineageEdges st)
    (wrapU64 (stGeneration st + 1)).

Definition Delete (st : Store) (id : gostr) (failing : bool) (now : Z) : Store * option StoreError :=
  if failing then (st, Some ErrScripted)
  else
    let st := match stSessions st !! id with
              | Some d => bumpGeneration (putLineage st (lineageSnapshotRecord id d SessionLineagePruned now))
              | None => st
              end in
    (withdraw st id, None).

(** ** Conditional deletion *)

Definition sessionRelationshipsEqual (a b : SessionRelationship) : bool :=
  (ScheduleName a =s ScheduleName b) && (OriginSessionID a =s OriginSessionID b) && (ParentSessionID a =s ParentSessionID b)
  && (RelCallID a =s RelCallID b) && (TeamID a =s TeamID b) && (MemberName a =s MemberName b) && (DebugTargetID a =s DebugTargetID b)
  && (BranchIndex a =s BranchIndex b).

Definition SessionDiscoveryMetaEqual (a b : DiscoveryMeta) : bool :=
  (dmID a =s dmID b) && (dmModifiedAt a =? dmModifiedAt b)%Z && (dmState a =s dmState b) && (dmKind a =s dmKind b)
  && sessionRelationshipsEqual (dmRelationship a) (dmRelationship b)
  && match dmOwner a, dmOwner b with None, None => true | Some _, _ => SameIdentity (dmOwner a) (dmOwner b) | _, _ => false end.

Definition DeleteSessionIfUnchanged (st : Store) (expected : DiscoveryMeta) (failing : bool) (now : Z) : Store * bool * option StoreError :=
  let id := dmID expected in
  match stSessions st !! id with
  | None => (st, false, None)
  | Some d =>
      let current := mkMeta id (default 0%Z (stSavedAt st !! id)) (snState d) 0 [] 0 [] TitleProvenanceUnknown (snOwner d) None
                       (default SessionKindUnknown (snKind d)) (snRelationship d) ActivityUnknown 0 in
      if negb (SessionDiscoveryMetaEqual current expected) then (st, false, None)
      else if failing then (st, false, Some ErrScripted)
      else (bumpGeneration (withdraw (putLineage st (lineageSnapshotRecord id d SessionLineagePruned now)) id), true, None)
  end.

(** ** Reading lineages *)

Definition lineageLess (root : gostr) (a b : SessionLineageRecord) : bool :=
  if negb (bool_decide (liID a = root) =s bool_decide (liID b = root)) then liID a =s root
  else if negb (liID a =s liID b) then strLess (liID a) (liID b)
  else if negb (liState a =s liState b) then liState a =s SessionLineageRetained
  else strLess (liIncarnation a) (liIncarnation b).

Definition lineageLe (root : gostr) (a b : SessionLineageRecord) : Prop := lineageLess root b a = false.
#[global] Instance lineageLe_dec root : RelDecision (lineageLe root).
Proof. intros a b. unfold lineageLe. apply _. Defined.

Definition lineageMatches (q : SessionLineageQuery) (r : SessionLineageRecord) : bool :=
  let rel := liRel r in
  (liID r =s qRootID q)
  || (ParentSessionID rel =s qRootID q) && (ParentIncarnation rel =s qRootIncarnation q)
  || (OriginSessionID rel =s qRootID q) && (OriginIncarnation rel =s qRootIncarnation q)
  || (DebugTargetID rel =s qRootID q) && (DebugTargetIncarnation rel =s qRootIncarnation q).

Definition ValidateSessionLineageQuery (q : SessionLineageQuery) : bool :=
  let exact := negb (qRecordID q =s []) || negb (qRecordIncarnation q =s []) in
  negb ((qRootID q =s []) || negb (IncarnationValid (qRootIncarnation q)) || (qLimit q <=? 0)%Z || (MaxSessionLineageRecords <? qLimit q)%Z
    || exact && ((qRecordID q =s []) || (qRecordID q =s qRootID q) || negb (IncarnationValid (qRecordIncarnation q)))).

Definition rowsOf (m : option lineageMap) : list SessionLineageRecord := (map_to_list (default ∅ m)).*2.

(** The records and whether more existed. *)
Definition ReadSessionLineage (st : Store) (q : SessionLineageQuery) : (list SessionLineageRecord * bool) + StoreError :=
  if negb (ValidateSessionLineageQuery q) then inr ErrInvalidSessionLineageQuery
  else
    let partition := lineageRecordKey (qRootID q) (qRootIncarnation q) in
    if negb (qRecordID q =s []) then
      let key := lineageRecordKey (qRecordID q) (qRecordIncarnation q) in
      match default ∅ (stLineageEdges st !! partition) !! key with
      | Some row => if negb (lineageMatches q row) then inl ([], false) else inl ([row], false)
      | None => inl ([], false)
      end
    else
      let rows := merge_sort (lineageLe (qRootID q)) (rowsOf (stLineageByID st !! qRootID q) ++ rowsOf (stLineageEdges st !! partition)) in
      if (qLimit q <? Z.of_nat (length rows))%Z then inl (take (Z.to_nat (qLimit q)) rows, true) else inl (rows, false).

(** ** The inventory *)

Definition scanMetadataContinuation : gostr := #"mecatl-scan-keyset-v1".

(** [CompareSessionMetadataOrder]: the later modification first, then by id. *)
Definition metaBefore (a b : DiscoveryMeta) : bool :=
  (dmModifiedAt b <? dmModifiedAt a)%Z || (dmModifiedAt a =? dmModifiedAt b)%Z && strLess (dmID a) (dmID b).

Definition metaLe (a b : DiscoveryMeta) : Prop := metaBefore b a = false.
#[global] Instance metaLe_dec : RelDecision metaLe.
Proof. intros a b. unfold metaLe. apply _. Defined.

Definition metaVisible (r : PageRequest) (row : DiscoveryMeta) : bool :=
  negb (prOwnershipEnforced r && (match prOwner r with None => true | Some _ => negb (SameIdentity (prOwner r) (dmOwner row)) end)).

Definition prepareSessionMetadataRows (rows : list DiscoveryMeta) (r : PageRequest) : list DiscoveryMeta :=
  merge_sort metaLe (filter (λ row, metaVisible r row = true) rows).

Definition metadataPageScope (r : PageRequest) : gostr :=
  if negb (prOwnershipEnforced r) then #"all"
  else match prOwner r with None => #"owner:none" | Some o => #"owner:" ++ scopeHash (principalScopeText (Some o)) end.

(** A row strictly after the position of a cursor. *)
Definition afterCursor (c : MetadataCursor) (row : DiscoveryMeta) : bool :=
  (dmModifiedAt row <? mcModifiedAt c)%Z || (dmModifiedAt row =? mcModifiedAt c)%Z && strLess (mcID c) (dmID row).

Fixpoint cursorStart (c : MetadataCursor) (rows : list DiscoveryMeta) : nat :=
  match rows with [] => 0 | row :: rows' => if afterCursor c row then 0 else S (cursorStart c rows') end.

Definition paginateSessionMetadata (rows : list DiscoveryMeta) (r : PageRequest) (generation : gostr) (bind : bool) : MetadataPage + StoreError :=
  let filtered := prepareSessionMetadataRows rows r in
  let scope := metadataPageScope r in
  let stale := match prCursor r with
               | Some c => negb (mcGeneration c =s generation) || negb (mcScope c =s scope) || negb (mcContinuation c =s scanMetadataContinuation)
               | None => false
               end in
  if bind && stale then inr ErrSessionMetadataCursorRestart
  else
    let n := Z.of_nat (length filtered) in
    let start := match prCursor r with Some c => Z.of_nat (cursorStart c filtered) | None => 0%Z end in
    let limit := if (prLimit r <? 0)%Z then 0%Z else prLimit r in
    let end_ := wrap64 (start + limit) in
    let end_ := if (n <? end_)%Z then n else end_ in
    if (end_ <? start)%Z then inr PanicSlice
    else
      let next := if (end_ <? n)%Z && (start <? end_)%Z then
                    match filtered !! Z.to_nat (end_ - 1) with
                    | Some last => Some (mkMetaCursor (dmModifiedAt last) (dmID last) generation scope (if bind then scanMetadataContinuation else []))
                    | None => None
                    end
                  else None in
      inl (mkPage (take (Z.to_nat (end_ - start)) (drop (Z.to_nat start) filtered)) next (length filtered)).

Definition PaginateSessionMetadataBound (rows : list DiscoveryMeta) (r : PageRequest) (generation : gostr) : MetadataPage + StoreError :=
  if generation =s [] then inr ErrGenerationEmpty else paginateSessionMetadata rows r generation true.

(** Without a generation to bind the cursor to; an error cannot happen but for the slice. *)
Definition PaginateSessionMetadata (rows : list DiscoveryMeta) (r : PageRequest) : MetadataPage + StoreError :=
  paginateSessionMetadata rows r [] false.

(** [List]: ids and times of the last save, in no particular order. *)
Definition ListSessions (st : Store) : list (gostr * Z) :=
  (λ x : gostr * Snapshot, (x.1, default 0%Z (stSavedAt st !! x.1))) <$> map_to_list (stSessions st).

(** The rows of the store, in no particular order. *)
Definition metadataRows (st : Store) : list DiscoveryMeta :=
  (λ x : gostr * Snapshot, let '(id, d) := x in
    mkMeta id (default 0%Z (stSavedAt st !! id)) (snState d) (Turns (snCounters d)) (snModelID d) (snCreatedAt d) (Title (snTitle d))
      (TitleProv (snTitle d)) (snOwner d) (Some (snEnvironmentRef d)) (default SessionKindUnknown (snKind d)) (snRelationship d)
      (default ActivityUnknown (stActivities st !! id)) (default 0%Z (stEstimatedBytes st !! id))) <$> map_to_list (stSessions st).

(** [strconv.FormatUint] *)
Definition formatUint (n : Z) : gostr := lit (pretty (Z.to_N n)).

Definition PageSessionMetadata (st : Store) (r : PageRequest) : MetadataPage + StoreError :=
  PaginateSessionMetadataBound (metadataRows st) r (formatUint (stGeneration st)).

(** ** Histories *)

Inductive StoreOp :=
  | SSave (s : Session) (now : Z)
  | SCreate (s : Session) (now : Z)
  | SDelete (id : gostr) (failing : bool) (now : Z)
  | SDeleteIfUnchanged (expected : DiscoveryMeta) (failing : bool) (now : Z).

Definition storeExec (st : Store) (op : StoreOp) : Store :=
  match op with
  | SSave s now => (Save st s now).1
  | SCreate s now => (Create st s now).1
  | SDelete id failing now => (Delete st id failing now).1
  | SDeleteIfUnchanged e failing now => (DeleteSessionIfUnchanged st e failing now).1.1
  end.

Definition storeRun (ops : list StoreOp) : Store := foldl storeExec newStore ops.
End store.

(** ** The index of lineages *)

Lemma key_inj id1 i1 id2 i2 : nul ∉ i1 → nul ∉ i2 → lineageRecordKey id1 i1 = lineageRecordKey id2 i2 → id1 = id2 ∧ i1 = i2.
Proof.
  unfold lineageRecordKey. intros H1 H2. revert id2. induction id1 as [|x id1 IH]; intros [|y id2]; cbn; intros Heq; simplify_eq; [done| | |].
  - destruct H1. apply elem_of_app. right. by left.
  - destruct H2. apply elem_of_app. right. by left.
  - by destruct (IH id2) as [-> ->].
Qed.

Lemma key_nonempty id i : lineageRecordKey id i ≠ [].
Proof. unfold lineageRecordKey. by destruct id. Qed.

Lemma forallb_no_nul f l : f nul = false → forallb f l = true → nul ∉ l.
Proof. intros Hf Hl Hin. rewrite forallb_forall in Hl. apply list_elem_of_In in Hin. specialize (Hl _ Hin). congruence. Qed.

Lemma IncarnationValid_no_nul inc : IncarnationValid inc = true → nul ∉ inc.
Proof.
  unfold IncarnationValid. destruct (HasPrefix inc #"inc_") eqn:E1; [|destruct (HasPrefix inc #"legacy_") eqn:E2; [|done]].
  - apply HasPrefix_spec in E1 as [t ->]. case_bool; [done|]. case_bool; [done|]. intros _. apply negb_false_iff in E0.
    rewrite (drop_app_length' #"inc_" t 4) in E0 by done. intros [Hin|Hin]%elem_of_app.
    + revert Hin. apply (bool_decide_unpack (nul ∉ #"inc_")). by vm_compute.
    + by apply (forallb_no_nul base32Lower t) in E0.
  - apply HasPrefix_spec in E2 as [t ->]. case_bool; [done|]. unfold hexDecodes. rewrite (drop_app_length' #"legacy_" t 7) by done.
    intros [_ Hh]%andb_true_iff [Hin|Hin]%elem_of_app.
    + revert Hin. apply (bool_decide_unpack (nul ∉ #"legacy_")). by vm_compute.
    + by apply (forallb_no_nul hexRune t) in Hh.
Qed.

Lemma IncarnationValid_nonempty inc : IncarnationValid inc = true → inc ≠ [].
Proof. by intros H ->. Qed.

(** The two partitions of the index agree with the records. *)
Record indexed (st : Store) : Prop := {
  ix_key : ∀ k r, stLineageByKey st !! k = Some r → k = lineageRecordKey (liID r) (liIncarnation r);
  ix_inc : ∀ k r, stLineageByKey st !! k = Some r → nul ∉ liIncarnation r;
  ix_id : ∀ id k r, default ∅ (stLineageByID st !! id) !! k = Some r ↔ stLineageByKey st !! k = Some r ∧ liID r = id;
  ix_edge : ∀ sub k r, default ∅ (stLineageEdges st !! sub) !! k = Some r ↔
    stLineageByKey st !! k = Some r ∧ lineageEdgeSubject r = sub ∧ sub ≠ []
}.

Lemma addEntry_lookup (m : gmap gostr lineageMap) k key r j key' :
  default ∅ (addEntry m k key r !! j) !! key' = if decide (j = k ∧ key' = key) then Some r else default ∅ (m !! j) !! key'.
Proof.
  unfold addEntry. destruct (decide (j = k)) as [-> |Hne].
  - rewrite lookup_insert_eq. cbn. destruct (decide (key' = key)) as [-> |Hk]; [by rewrite lookup_insert_eq, decide_True|].
    rewrite lookup_insert_ne by done. by rewrite decide_False by naive_solver.
  - rewrite lookup_insert_ne by done. by rewrite decide_False by naive_solver.
Qed.

Lemma dropEdge_lookup (m : gmap gostr lineageMap) k key j key' :
  default ∅ (dropEdge m k key !! j) !! key' = if decide (j = k ∧ key' = key) then None else default ∅ (m !! j) !! key'.
Proof.
  unfold dropEdge. destruct (m !! k) as [e|] eqn:Ek.
  - destruct (decide (j = k)) as [-> |Hne].
    + rewrite lookup_insert_eq, Ek. cbn. destruct (decide (key' = key)) as [-> |Hk]; [by rewrite lookup_delete_eq, decide_True|].
      rewrite lookup_delete_ne by done. by rewrite decide_False by naive_solver.
    + rewrite lookup_insert_ne by done. by rewrite decide_False by naive_solver.
  - destruct (decide (j = k ∧ key' = key)) as [[-> ->]|]; [|done]. by rewrite Ek.
Qed.

Lemma putLineage_indexed st row : nul ∉ liIncarnation row → indexed st → indexed (putLineage st row).
Proof.
  intros Hrow [I1 I2 I3 I4]. set (key := lineageRecordKey (liID row) (liIncarnation row)).
  assert (Hsame : ∀ old, stLineageByKey st !! key = Some old → liID old = liID row).
  { intros old Hold. destruct (key_inj (liID row) (liIncarnation row) (liID old) (liIncarnation old)) as [<- _]; [done|by eapply I2|by apply I1|done]. }
  split; unfold putLineage; fold key; cbn [stLineageByKey stLineageByID stLineageEdges].
  - intros k r. rewrite lookup_insert_Some. intros [[<- <-]|[_ Hr]]; [done|by apply I1].
  - intros k r. rewrite lookup_insert_Some. intros [[<- <-]|[_ Hr]]; [done|by eapply I2].
  - intros id k r. rewrite addEntry_lookup. case_decide as Hd.
    + destruct Hd as [-> ->]. rewrite lookup_insert_eq. naive_solver.
    + rewrite I3. destruct (decide (k = key)) as [-> |Hk].
      * rewrite lookup_insert_eq. split; [|naive_solver]. intros [Hold <-]. destruct Hd. split; [|done]. by apply Hsame.
      * by rewrite lookup_insert_ne.
  - intros sub k r. set (subject := lineageEdgeSubject row).
    set (edges := match stLineageByKey st !! key with Some old => _ | None => _ end).
    assert (He : ∀ sub' k', default ∅ (edges !! sub') !! k' = if decide (k' = key) then None else default ∅ (stLineageEdges st !! sub') !! k').
    { intros sub' k'. unfold edges. assert (Hnone : ∀ s', (∀ old, stLineageByKey st !! key = Some old → lineageEdgeSubject old ≠ s' ∨ s' = []) →
        default ∅ (stLineageEdges st !! s') !! key = None).
      { intros s' Hs. destruct (default ∅ (stLineageEdges st !! s') !! key) as [x|] eqn:Ex; [|done]. apply I4 in Ex as (Hx & Hsx & Hne).
        destruct (Hs x Hx); congruence. }
      destruct (stLineageByKey st !! key) as [old|] eqn:Eold.
      - case_bool.
        + rewrite dropEdge_lookup. case_decide as Hd; case_decide as Hk; naive_solver.
        + case_decide as Hk; [|done]. subst k'. apply Hnone. intros old' [= <-]. apply negb_false_iff, bool_decide_eq_true in E.
          destruct (decide (sub' = [])); [by right|left; congruence].
      - case_decide as Hk; [|done]. subst k'. by apply Hnone. }
    fold subject. case_bool.
    + rewrite addEntry_lookup. case_decide as Hd.
      * destruct Hd as [-> ->]. rewrite lookup_insert_eq. bprop. naive_solver.
      * rewrite He. destruct (decide (k = key)) as [-> |Hk]; [rewrite lookup_insert_eq; naive_solver|]. rewrite lookup_insert_ne by done. apply I4.
    + apply negb_false_iff, bool_decide_eq_true in E. rewrite He.
      destruct (decide (k = key)) as [-> |Hk]; [rewrite lookup_insert_eq; naive_solver|]. rewrite lookup_insert_ne by done. apply I4.
Qed.

(** ** The store and its index *)

Section histories.
Context {platform : Platform}.
Context (scopeHash : option gostr → gostr).

(** A relationship does not name its own session. *)
Definition selfless (id : gostr) (rel : SessionRelationship) : bool :=
  negb (id =s []) && negb (ParentSessionID rel =s id) && negb (OriginSessionID rel =s id) && negb (DebugTargetID rel =s id).

Definition rowOk (id inc : gostr) (kind : SessionKind) (rel : SessionRelationship) : bool :=
  IncarnationValid inc && ValidateSessionMetadata kind rel && selfless id rel.

(** What the callers save: sessions with a valid incarnation and valid metadata, which
    the aggregate guarantees, that are not their own relatives. *)
Definition storable (s : Session) : bool := rowOk (SID s) (incarnation s) (Kind s) (Relationship s).

Definition snapshotOk (id : gostr) (d : Snapshot) : bool :=
  rowOk id (snIncarnation d) (default SessionKindUnknown (snKind d)) (snRelationship d).

(** The invariant, with one id whose session and retained row are in the making. *)
Record storeOkBut (x : option gostr) (st : Store) : Prop := {
  so_index : indexed st;
  so_rows : ∀ k r, stLineageByKey st !! k = Some r → rowOk (liID r) (liIncarnation r) (liKind r) (liRel r) = true;
  so_sessions : ∀ id d, stSessions st !! id = Some d → snapshotOk id d = true;
  so_stored : ∀ id d, stSessions st !! id = Some d → x ≠ Some id →
    stLineageByKey st !! lineageRecordKey id (snIncarnation d) = Some (lineageSnapshotRecord scopeHash id d SessionLineageRetained 0);
  so_retained : ∀ k r, stLineageByKey st !! k = Some r → liState r = SessionLineageRetained → x ≠ Some (liID r) →
    ∃ d, stSessions st !! liID r = Some d ∧ r = lineageSnapshotRecord scopeHash (liID r) d SessionLineageRetained 0
}.

Abbreviation storeOk := (storeOkBut None).

Lemma storeOk_new : storeOk newStore.
Proof.
  split; cbn; try (intros ? ? H; by rewrite lookup_empty in H).
  split; cbn; try (intros ? ? H; by rewrite lookup_empty in H); intros sub k r; rewrite lookup_empty; cbn; rewrite lookup_empty; naive_solver.
Qed.

Lemma rowOk_inc id inc kind rel : rowOk id inc kind rel = true → IncarnationValid inc = true.
Proof. unfold rowOk. intros [[H _]%andb_true_iff _]%andb_true_iff. done. Qed.

Lemma record_fields id d state t :
  snapshotOk id d = true →
  let r := lineageSnapshotRecord scopeHash id d state t in
  liID r = id ∧ liIncarnation r = snIncarnation d ∧ liState r = state ∧ rowOk (liID r) (liIncarnation r) (liKind r) (liRel r) = true.
Proof.
  intros H r. pose proof (rowOk_inc _ _ _ _ H) as Hi. assert (Hr : liIncarnation r = snIncarnation d) by (cbn; unfold PersistedIncarnationID; by rewrite Hi).
  split_and!; [done|done|done|]. rewrite Hr. exact H.
Qed.

(** Writing a row of one id leaves the rows of the others. *)
Lemma put_others st row k r :
  indexed st → nul ∉ liIncarnation row → liID r ≠ liID row →
  stLineageByKey (putLineage st row) !! k = Some r ↔ stLineageByKey st !! k = Some r.
Proof.
  intros [I1 I2 _ _] Hn Hne. cbn. destruct (decide (k = lineageRecordKey (liID row) (liIncarnation row))) as [-> |Hk].
  - rewrite lookup_insert_eq. split; [naive_solver|]. intros Hr. destruct Hne. pose proof (I1 _ _ Hr) as Heq.
    symmetry. apply (key_inj (liID row) (liIncarnation row) (liID r) (liIncarnation r)); [done|by eapply I2|done].
  - by rewrite lookup_insert_ne.
Qed.

Lemma prune_ok st id d now :
  storeOk st → stSessions st !! id = Some d →
  let st' := putLineage st (lineageSnapshotRecord scopeHash id d SessionLineagePruned now) in
  storeOkBut (Some id) st' ∧ ∀ k r, stLineageByKey st' !! k = Some r → liID r = id → liState r = SessionLineagePruned.
Proof.
  intros [Hix Hrows Hse Hst Hre] Hd st'. pose proof (Hse id d Hd) as Hok.
  destruct (record_fields id d SessionLineagePruned now Hok) as (F1 & F2 & F3 & F4). set (row := lineageSnapshotRecord scopeHash id d SessionLineagePruned now) in *.
  assert (Hnul : nul ∉ liIncarnation row) by (apply IncarnationValid_no_nul; rewrite F2; by eapply rowOk_inc).
  split; [split|].
  - by apply putLineage_indexed.
  - intros k r. cbn. rewrite lookup_insert_Some. intros [[_ <-]|[_ Hr]]; [done|by eapply Hrows].
  - exact Hse.
  - intros id' d' Hd' Hne. assert (Hne' : id' ≠ id) by congruence. apply put_others; [done|done|cbn; congruence|]. by apply Hst.
  - intros k r Hr Hret Hne. apply put_others in Hr; [|done|done|cbn; congruence]. by apply (Hre k).
  - intros k r Hr Hid. cbn in Hr. apply lookup_insert_Some in Hr as [[_ <-]|[Hk Hr]]; [done|]. destruct (liState r) eqn:Es; [|done].
    destruct (Hre k r Hr Es) as (d' & Hd' & Hr'); [done|]. destruct Hk. rewrite (ix_key st Hix k r Hr).
    rewrite Hid in Hd'. assert (d' = d) as -> by congruence. apply (f_equal liIncarnation) in Hr'.
    rewrite Hid in Hr'. destruct (record_fields id d SessionLineageRetained 0 Hok) as (_ & G2 & _). rewrite Hid, Hr', G2. change (lineageRecordKey id (liIncarnation row) = lineageRecordKey id (snIncarnation d)). by rewrite F2.
Qed.

Lemma withdraw_ok st id :
  storeOkBut (Some id) st → (∀ k r, stLineageByKey st !! k = Some r → liID r = id → liState r = SessionLineagePruned) → storeOk (withdraw st id).
Proof.
  intros [[I1 I2 I3 I4] Hrows Hse Hst Hre] Hp. split; cbn.
  - by split.
  - exact Hrows.
  - intros id' d' [_ Hd']%lookup_delete_Some. by apply Hse.
  - intros id' d' [Hne Hd']%lookup_delete_Some _. apply Hst; [done|congruence].
  - intros k r Hr Hret _. destruct (decide (liID r = id)) as [Hid|Hne]; [specialize (Hp k r Hr Hid); congruence|].
    destruct (Hre k r Hr Hret) as (d & Hd & Hr'); [congruence|]. exists d. split; [|done]. by rewrite lookup_delete_ne by congruence.
Qed.

Lemma bumpGeneration_ok st : storeOk st → storeOk (bumpGeneration st).
Proof. intros [[] ? ? ? ?]. by split. Qed.

Lemma publish_ok st s now :
  storeOkBut (Some (SID s)) st → storable s = true →
  (∀ k r, stLineageByKey st !! k = Some r → liID r = SID s → liState r = SessionLineageRetained → liIncarnation r = incarnation s) →
  storeOk (publish scopeHash st s (snapshotOf s) now).
Proof.
  intros [Hix Hrows Hse Hst Hre] Hs Hmine.
  assert (Hok : snapshotOk (SID s) (snapshotOf s) = true) by exact Hs.
  destruct (record_fields (SID s) (snapshotOf s) SessionLineageRetained 0 Hok) as (F1 & F2 & F3 & F4).
  set (row := lineageSnapshotRecord scopeHash (SID s) (snapshotOf s) SessionLineageRetained 0) in *.
  assert (Hnul : nul ∉ liIncarnation row) by (apply IncarnationValid_no_nul; rewrite F2; by eapply rowOk_inc).
  assert (Hix' : indexed (putLineage st row)) by (by apply putLineage_indexed). destruct Hix' as [J1 J2 J3 J4].
  split; cbn.
  - by split.
  - intros k r. rewrite lookup_insert_Some. intros [[_ <-]|[_ Hr]]; [done|by eapply Hrows].
  - intros id' d'. rewrite lookup_insert_Some. intros [[<- <-]|[_ Hd']]; [done|by apply Hse].
  - intros id' d'. rewrite lookup_insert_Some. intros [[<- <-]|[Hne Hd']] _.
    + change (<[lineageRecordKey (SID s) (liIncarnation row) := row]> (stLineageByKey st) !! lineageRecordKey (SID s) (incarnation s) = Some row).
      rewrite F2. apply lookup_insert_eq.
    + apply (put_others st row); [done|done|cbn; congruence|]. apply Hst; [done|congruence].
  - intros k r Hr Hret _. apply lookup_insert_Some in Hr as [[_ <-]|[Hk Hr]].
    + exists (snapshotOf s). split; [by rewrite lookup_insert_eq|done].
    + destruct (decide (liID r = SID s)) as [Hid|Hne].
      * destruct Hk. rewrite (ix_key st Hix k r Hr), Hid, (Hmine k r Hr Hid Hret).
        change (lineageRecordKey (SID s) (liIncarnation row) = lineageRecordKey (SID s) (incarnation s)). by rewrite F2.
      * destruct (Hre k r Hr Hret) as (d & Hd & Hr'); [congruence|]. exists d. split; [by rewrite lookup_insert_ne|done].
Qed.

Definition goodOp (op : StoreOp) : bool := match op with SSave s _ | SCreate s _ => storable s | _ => true end.

Lemma weaken_ok id st : storeOk st → storeOkBut (Some id) st.
Proof. intros [? ? ? Hst Hre]. split; [done|done|done|intros id' d Hd _; by apply Hst|intros k r Hr Hret _; by apply (Hre k)]. Qed.

Lemma Of_inl s d : Of s = inl d → d = snapshotOf s.
Proof. unfold Of. destruct (ValidateAuthorizationState s); [done|]. by intros [= <-]. Qed.

Lemma retained_inc st k r d :
  storeOk st → stLineageByKey st !! k = Some r → liState r = SessionLineageRetained → stSessions st !! liID r = Some d → liIncarnation r = snIncarnation d.
Proof.
  intros Hok Hr Hret Hd. destruct (so_retained _ _ Hok k r Hr Hret) as (d' & Hd' & Hr'); [done|]. assert (d' = d) as -> by congruence.
  apply (f_equal liIncarnation) in Hr'. rewrite Hr'. by apply (record_fields (liID r) d), (so_sessions _ _ Hok).
Qed.

Lemma storeExec_ok st op : goodOp op = true → storeOk st → storeOk (storeExec scopeHash st op).
Proof.
  intros Hg Hok. destruct op as [s now|s now|id failing now|e failing now]; cbn [storeExec goodOp] in *.
  - unfold Save. destruct (Of s) as [d|e] eqn:Eo; [|done]. apply Of_inl in Eo as ->. cbn [fst].
    destruct (stSessions st !! SID s) as [prior|] eqn:Ep; [case_bool|].
    + destruct (prune_ok st (SID s) prior now Hok Ep) as [Hb Hp]. apply publish_ok; [done|done|]. intros k r Hr Hid Hret. specialize (Hp k r Hr Hid). congruence.
    + apply publish_ok; [by apply weaken_ok|done|]. intros k r Hr Hid Hret. rewrite <-Hid in Ep. rewrite (retained_inc st k r prior) by done.
      pose proof (so_sessions _ _ Hok _ _ Ep) as Hv%rowOk_inc%IncarnationValid_nonempty. apply negb_false_iff in E. unfold sameLineageIncarnation in E.
      rewrite bool_decide_false in E by done. cbn [negb] in E. by apply bool_decide_eq_true in E.
    + apply publish_ok; [by apply weaken_ok|done|]. intros k r Hr Hid Hret. destruct (so_retained _ _ Hok k r Hr Hret) as (d & Hd & _); [done|]. congruence.
  - unfold Create. destruct (Of s) as [d|e] eqn:Eo; [|done]. apply Of_inl in Eo as ->. destruct (stSessions st !! SID s) as [prior|] eqn:Ep; [done|].
    apply publish_ok; [by apply weaken_ok|done|]. intros k r Hr Hid Hret. destruct (so_retained _ _ Hok k r Hr Hret) as (d & Hd & _); [done|]. congruence.
  - unfold Delete. case_bool; [done|]. cbn [fst]. destruct (stSessions st !! id) as [d|] eqn:Ed.
    + destruct (prune_ok st id d now Hok Ed) as [Hb Hp]. 
      change (storeOk (bumpGeneration (withdraw (putLineage st (lineageSnapshotRecord scopeHash id d SessionLineagePruned now)) id))).
      apply bumpGeneration_ok. by apply withdraw_ok.
    + apply withdraw_ok; [by apply weaken_ok|]. intros k r Hr Hid. destruct (liState r) eqn:Es; [|done].
      destruct (so_retained _ _ Hok k r Hr Es) as (d & Hd & _); [done|]. congruence.
  - unfold DeleteSessionIfUnchanged. cbv zeta. destruct (stSessions st !! dmID e) as [d|] eqn:Ed; [|done]. case_bool; [done|]. case_bool; [done|]. cbn [fst].
    destruct (prune_ok st (dmID e) d now Hok Ed) as [Hb Hp]. apply bumpGeneration_ok. by apply withdraw_ok.
Qed.

Lemma storeRun_ok ops : forallb goodOp ops = true → storeOk (storeRun scopeHash ops).
Proof.
  unfold storeRun. generalize storeOk_new. generalize newStore. induction ops as [|op ops IH]; intros st Hst; [done|]. cbn. intros [Ho Hops]%andb_true_iff.
  apply IH; [by apply storeExec_ok|done].
Qed.

(** ** Tombstones stay *)

Lemma put_keeps st row k r :
  stLineageByKey st !! k = Some r → indexed st → nul ∉ liIncarnation row →
  ∃ r', stLineageByKey (putLineage st row) !! k = Some r' ∧ (liID r', liIncarnation r') = (liID r, liIncarnation r).
Proof.
  intros Hr [I1 I2 _ _] Hn. cbn. destruct (decide (k = lineageRecordKey (liID row) (liIncarnation row))) as [-> |Hk].
  - exists row. split; [by rewrite lookup_insert_eq|]. destruct (key_inj (liID row) (liIncarnation row) (liID r) (liIncarnation r)) as [-> ->];
      [done|by eapply I2|by apply I1|done].
  - exists r. split; [by rewrite lookup_insert_ne|done].
Qed.

(** ** Lineage reads *)

(** The reference reading: every record of the index that matches, in order. *)
Definition lineageScan (st : Store) (q : SessionLineageQuery) : list SessionLineageRecord :=
  merge_sort (lineageLe (qRootID q)) (filter (λ r, lineageMatches q r = true) (map_to_list (stLineageByKey st)).*2).

Definition lineagePoint (st : Store) (q : SessionLineageQuery) : list SessionLineageRecord :=
  match stLineageByKey st !! lineageRecordKey (qRecordID q) (qRecordIncarnation q) with
  | Some r => if lineageMatches q r then [r] else []
  | None => []
  end.

(** The order of the rows is the order of one text per row. *)
Definition lineageRank (root : gostr) (r : SessionLineageRecord) : gostr :=
  (if liID r =s root then 0 else 1)%N :: (N.succ <$> liID r) ++ 0%N :: (if liState r =s SessionLineageRetained then 0 else 1)%N :: liIncarnation r.

Lemma strLess_sep a b x y :
  strLess ((N.succ <$> a) ++ 0%N :: x) ((N.succ <$> b) ++ 0%N :: y) = if decide (a = b) then strLess x y else strLess a b.
Proof.
  revert b. induction a as [|c a IH]; intros [|d b]; cbn; [done|by destruct d|by destruct c|]. rewrite IH.
  assert (Hlt : (N.succ c <? N.succ d)%N = (c <? d)%N) by (apply eq_true_iff_eq; rewrite !N.ltb_lt; lia).
  assert (Heq : (N.succ c =? N.succ d)%N = (c =? d)%N) by (apply eq_true_iff_eq; rewrite !N.eqb_eq; lia). rewrite Hlt, Heq.
  destruct (decide (a = b)) as [-> |Hne].
  - destruct (N.eqb_spec c d) as [-> |Hcd]; [by rewrite decide_True, N.ltb_irrefl|]. rewrite decide_False by congruence. by rewrite strLess_irrefl.
  - by rewrite decide_False by congruence.
Qed.

Lemma lineageLess_rank root a b : lineageLess root a b = strLess (lineageRank root a) (lineageRank root b).
Proof.
  unfold lineageLess, lineageRank. cbn [strLess]. rewrite strLess_sep.
  destruct (decide (liID a = root)) as [Ha|Ha], (decide (liID b = root)) as [Hb|Hb];
    repeat first [rewrite (bool_decide_true _ Ha)|rewrite (bool_decide_false _ Ha)|rewrite (bool_decide_true _ Hb)|rewrite (bool_decide_false _ Hb)]; cbn; try done.
  - rewrite (bool_decide_true (liID a = liID b)) by congruence. rewrite decide_True by congruence. by destruct (liState a), (liState b).
  - destruct (decide (liID a = liID b)) as [Hab|Hab]; [rewrite (bool_decide_true _ Hab)|by rewrite (bool_decide_false _ Hab)].
    by destruct (liState a), (liState b).
Qed.

Lemma lineageLe_rank root a b : lineageLe root a b ↔ strLe (lineageRank root a) (lineageRank root b).
Proof. unfold lineageLe, strLe. by rewrite lineageLess_rank. Qed.

#[local] Instance lineageLe_total root : base.Total (lineageLe root).
Proof. intros a b. rewrite !lineageLe_rank. apply strLe_total. Qed.

#[local] Instance lineageLe_trans root : Transitive (lineageLe root).
Proof. intros a b c. rewrite !lineageLe_rank. apply strLe_trans. Qed.

Lemma lineageRank_key root a b : lineageRank root a = lineageRank root b → liID a = liID b ∧ liIncarnation a = liIncarnation b.
Proof.
  unfold lineageRank. intros [= _ H]. revert H. generalize (liID a) (liID b). intros l. induction l as [|x l IH]; intros [|y l']; cbn.
  - naive_solver.
  - intros [= H]. by destruct y.
  - intros [= H]. by destruct x.
  - intros [= Hxy H]. destruct (IH l' H) as [-> ?]. apply N.succ_inj in Hxy as ->. done.
Qed.

(** A relationship names at most one relative, whose incarnation is framed. *)
Lemma relatives_one kind rel :
  ValidateSessionMetadata kind rel = true →
  ∃ p i, nul ∉ i ∧
    ((ParentSessionID rel = p ∧ ParentIncarnation rel = i ∧ OriginSessionID rel = [] ∧ DebugTargetID rel = []) ∨
     (OriginSessionID rel = p ∧ OriginIncarnation rel = i ∧ ParentSessionID rel = [] ∧ DebugTargetID rel = []) ∨
     (DebugTargetID rel = p ∧ DebugTargetIncarnation rel = i ∧ ParentSessionID rel = [] ∧ OriginSessionID rel = [])).
Proof.
  assert (Hinc : ∀ id i, validRelatedIncarnation id i = true → nul ∉ i).
  { intros id i. unfold validRelatedIncarnation. intros H. apply orb_true_iff in H as [H|[_ H]%andb_true_iff]; [|by apply IncarnationValid_no_nul].
    apply bool_decide_eq_true in H as ->. apply not_elem_of_nil. }
  assert (He : ∀ sn o oi p pi c bi t m g gi, mkRel sn o oi p pi c bi t m g gi = emptyRel → o = [] ∧ p = [] ∧ g = []) by (by intros * [= _ -> _ -> _ _ _ _ _ -> _]).
  destruct rel as [sn o oi p pi c bi t m g gi]. destruct kind; cbn [ValidateSessionMetadata];
    unfold validScheduledRelationship, validSubagentRelationship, validParallelBranchRelationship, validTeamMemberRelationship, validDebugRelationship;
    cbv zeta; cbn; rewrite ?andb_true_iff, ?bool_decide_eq_true.
  1,2: intros [= -> -> -> -> -> -> -> -> -> -> ->]; exists [], []; split; [apply not_elem_of_nil|auto].
  - intros [[_ Hi%Hinc] (_ & -> & ->)%He]. exists o, oi. auto 10.
  - intros [[_ Hi%Hinc] (-> & _ & ->)%He]. exists p, pi. auto 10.
  - intros [[_ Hi%Hinc] (-> & _ & ->)%He]. exists p, pi. auto 10.
  - intros [[_ Hi%Hinc] (-> & _ & ->)%He]. exists p, pi. auto 10.
  - intros [[_ Hi%Hinc] (-> & -> & _)%He]. exists g, gi. auto 10.
Qed.

Lemma matches_edge q r :
  qRootID q ≠ [] → nul ∉ qRootIncarnation q → ValidateSessionMetadata (liKind r) (liRel r) = true →
  lineageMatches q r = true ↔ liID r = qRootID q ∨ lineageEdgeSubject r = lineageRecordKey (qRootID q) (qRootIncarnation q).
Proof.
  intros Hroot Hn Hv. destruct (relatives_one _ _ Hv) as (p & i & Hi & Hrel). unfold lineageMatches, lineageEdgeSubject. cbv zeta.
  rewrite !orb_true_iff, !andb_true_iff, !bool_decide_eq_true.
  assert (Hkey : lineageRecordKey p i = lineageRecordKey (qRootID q) (qRootIncarnation q) ↔ p = qRootID q ∧ i = qRootIncarnation q).
  { split; [by apply key_inj|by intros [-> ->]]. }
  assert (Hno : [] ≠ lineageRecordKey (qRootID q) (qRootIncarnation q)) by (symmetry; apply key_nonempty).
  destruct Hrel as [(-> & -> & H1 & H2)|[(-> & -> & H1 & H2)|(-> & -> & H1 & H2)]]; rewrite H1, H2;
    rewrite ?(bool_decide_true ([] = [])) by done; cbn; destruct (decide (p = [])) as [-> |Hp];
    rewrite ?(bool_decide_true ([] = [])), ?(bool_decide_false (p = [])) by done; cbn; rewrite ?Hkey; naive_solver.
Qed.

Lemma elem_of_values (m : lineageMap) r : r ∈ (map_to_list m).*2 ↔ ∃ k, m !! k = Some r.
Proof.
  rewrite list_elem_of_fmap. split.
  - intros ([k r'] & -> & H). apply elem_of_map_to_list in H. by exists k.
  - intros [k H]. exists (k, r). split; [done|]. by apply elem_of_map_to_list.
Qed.

Lemma values_NoDup (m : lineageMap) : (∀ k r, m !! k = Some r → k = lineageRecordKey (liID r) (liIncarnation r)) → NoDup (map_to_list m).*2.
Proof.
  intros Hk. apply NoDup_fmap_2_strong; [|apply NoDup_map_to_list]. intros [k r] [k' r'] H H' Heq. apply elem_of_map_to_list, Hk in H. apply elem_of_map_to_list, Hk in H'.
  cbn in Heq. subst r'. congruence.
Qed.

(** The partitions of a query together hold exactly the matching records, once. *)
Lemma read_rows_perm st q :
  storeOk st → qRootID q ≠ [] → nul ∉ qRootIncarnation q →
  rowsOf (stLineageByID st !! qRootID q) ++ rowsOf (stLineageEdges st !! lineageRecordKey (qRootID q) (qRootIncarnation q)) ≡ₚ
  filter (λ r, lineageMatches q r = true) (map_to_list (stLineageByKey st)).*2.
Proof.
  intros [[I1 I2 I3 I4] Hrows _ _ _] Hroot Hn. assert (Hv : ∀ k r, stLineageByKey st !! k = Some r →
    ValidateSessionMetadata (liKind r) (liRel r) = true ∧ selfless (liID r) (liRel r) = true).
  { intros k r Hr. specialize (Hrows k r Hr). unfold rowOk in Hrows. rewrite !andb_true_iff in Hrows. tauto. }
  unfold rowsOf. apply NoDup_Permutation.
  - apply NoDup_app. split_and!.
    + apply values_NoDup. intros k r [Hr _]%I3. by apply I1.
    + intros r [k [Hr Hid]%I3]%elem_of_values [k' (Hr' & Hs & _)%I4]%elem_of_values. destruct (Hv k r Hr) as [Hm Hself].
      unfold selfless in Hself. rewrite !andb_true_iff, !negb_true_iff, !bool_decide_eq_false in Hself. destruct Hself as [[[H0 H1] H2] H3].
      destruct (relatives_one _ _ Hm) as (p & i & Hi & Hrel). rewrite Hid in *. unfold lineageEdgeSubject in Hs. cbv zeta in Hs.
      assert (Hkey : ∀ p, p ≠ qRootID q → lineageRecordKey p i ≠ lineageRecordKey (qRootID q) (qRootIncarnation q)).
      { intros p' Hp' Heq. by apply key_inj in Heq as [? _]. }
      repeat case_bool; try (by apply (key_nonempty (qRootID q) (qRootIncarnation q)));
        repeat match goal with E : negb (bool_decide _) = _ |- _ => first [apply negb_true_iff, bool_decide_eq_false in E|apply negb_false_iff, bool_decide_eq_true in E] end;
        destruct Hrel as [(? & ? & ? & ?)|[(? & ? & ? & ?)|(? & ? & ? & ?)]]; subst p i; try congruence; (eapply Hkey; [|exact Hs]); congruence.
    + apply values_NoDup. intros k r (Hr & _)%I4. by apply I1.
  - apply NoDup_filter, values_NoDup, I1.
  - intros r. rewrite elem_of_app, list_elem_of_filter, !elem_of_values. split.
    + intros [[k [Hr Hid]%I3]|[k (Hr & Hs & _)%I4]]; (split; [|by exists k]); apply matches_edge; try done; try (by eapply Hv); auto.
    + intros [Hm [k Hr]]. apply matches_edge in Hm; [|done|done|by eapply Hv].
      destruct Hm as [Hid|Hs]; [left; exists k; by apply I3|right; exists k; apply I4; split_and!; [done|done|apply key_nonempty]].
Qed.

Lemma lineage_sorted_unique st q l :
  indexed st → l ≡ₚ filter (λ r, lineageMatches q r = true) (map_to_list (stLineageByKey st)).*2 → merge_sort (lineageLe (qRootID q)) l = lineageScan st q.
Proof.
  intros [I1 I2 _ _] Hp. unfold lineageScan. apply (StronglySorted_unique_strong (lineageLe (qRootID q))).
  - intros a b. rewrite !merge_sort_Permutation, Hp, !list_elem_of_filter, !elem_of_values. intros [_ [ka Ha]] [_ [kb Hb]].
    rewrite !lineageLe_rank. intros H1 H2. pose proof (anti_symm strLe _ _ H1 H2) as [Hid Hinc]%lineageRank_key.
    apply I1 in Ha as Ka. apply I1 in Hb as Kb. assert (ka = kb) by congruence. congruence.
  - apply StronglySorted_merge_sort; apply _.
  - apply StronglySorted_merge_sort; apply _.
  - by rewrite !merge_sort_Permutation.
Qed.

(** A lineage read over the two partitions of the index gives what a scan of every
    record would: the matching records, each once, in the documented order, cut at the
    limit with the cut reported; a point read gives the one matching record or none.
    This holds in every store built by any sequence of operations. *)
Theorem lineage_read_exact ops q :
  forallb goodOp ops = true → ValidateSessionLineageQuery q = true →
  let st := storeRun scopeHash ops in
  let limit := Z.to_nat (qLimit q) in
  ReadSessionLineage st q =
    inl (if qRecordID q =s [] then (take limit (lineageScan st q), bool_decide (limit < length (lineageScan st q))%nat)
         else (lineagePoint st q, false)).
Proof.
  intros Hops Hq st limit. pose proof (storeRun_ok ops Hops) as Hok. fold st in Hok. unfold ReadSessionLineage. rewrite Hq. cbn [negb].
  unfold ValidateSessionLineageQuery in Hq. cbv zeta in Hq. rewrite negb_true_iff, !orb_false_iff, negb_false_iff, !bool_decide_eq_false, !Z.leb_gt in Hq.
  destruct Hq as [[[[Hroot Hinc] Hlim] _] Hex]. apply IncarnationValid_no_nul in Hinc.
  destruct (decide (qRecordID q = [])) as [Hr|Hr]; [rewrite !(bool_decide_true _ Hr)|rewrite !(bool_decide_false _ Hr) in *]; cbn [negb].
  - cbv zeta. rewrite (lineage_sorted_unique st q) by (by apply Hok || by apply read_rows_perm).
    case_bool; [apply Z.ltb_lt in E; rewrite bool_decide_true by lia; done|apply Z.ltb_ge in E; rewrite bool_decide_false by lia].
    by rewrite take_ge by lia.
  - cbn in Hex. rewrite orb_false_iff, negb_false_iff, bool_decide_eq_false in Hex. destruct Hex as [Hne Hri%IncarnationValid_no_nul].
    destruct Hok as [[I1 I2 _ I4] Hrows _ _ _]. unfold lineagePoint. set (key := lineageRecordKey (qRecordID q) (qRecordIncarnation q)). cbv zeta.
    destruct (default ∅ (stLineageEdges st !! lineageRecordKey (qRootID q) (qRootIncarnation q)) !! key) as [r|] eqn:Ee.
    + apply I4 in Ee as (Er & _). rewrite Er. by destruct (lineageMatches q r).
    + destruct (stLineageByKey st !! key) as [r|] eqn:Er; [|done]. destruct (lineageMatches q r) eqn:Em; [|done].
      assert (Hv : ValidateSessionMetadata (liKind r) (liRel r) = true).
      { specialize (Hrows key r Er). unfold rowOk in Hrows. rewrite !andb_true_iff in Hrows. tauto. }
      apply matches_edge in Em; [|done|done|done]. destruct Em as [Hid|Hs].
      * apply I1 in Er as Hk. apply key_inj in Hk as [Hk _]; [congruence|done|by eapply I2].
      * assert (Hc : default ∅ (stLineageEdges st !! lineageRecordKey (qRootID q) (qRootIncarnation q)) !! key = Some r)
          by (apply I4; split_and!; [done|done|apply key_nonempty]). congruence.
Qed.

(** ** Records outlive their sessions *)

Definition rowKept (st st' : Store) : Prop :=
  ∀ k r, stLineageByKey st !! k = Some r → ∃ r', stLineageByKey st' !! k = Some r' ∧ (liID r', liIncarnation r') = (liID r, liIncarnation r).

Lemma rowKept_refl st : rowKept st st.
Proof. intros k r Hr. by exists r. Qed.

Lemma rowKept_trans st1 st2 st3 : rowKept st1 st2 → rowKept st2 st3 → rowKept st1 st3.
Proof. intros H1 H2 k r Hr. destruct (H1 k r Hr) as (r1 & Hr1 & E1). destruct (H2 k r1 Hr1) as (r2 & Hr2 & E2). exists r2. split; congruence. Qed.

Lemma rowKept_put st row : indexed st → nul ∉ liIncarnation row → rowKept st (putLineage st row).
Proof. intros Hi Hn k r Hr. by apply put_keeps. Qed.

Lemma prune_kept st id d now : storeOk st → stSessions st !! id = Some d → rowKept st (putLineage st (lineageSnapshotRecord scopeHash id d SessionLineagePruned now)).
Proof.
  intros Hok Hd. pose proof (so_sessions _ _ Hok id d Hd) as Hs. apply rowKept_put; [apply Hok|].
  destruct (record_fields id d SessionLineagePruned now Hs) as (_ & -> & _). by apply IncarnationValid_no_nul, (rowOk_inc _ _ _ _ Hs).
Qed.

Lemma publish_kept st s now : indexed st → storable s = true → rowKept st (publish scopeHash st s (snapshotOf s) now).
Proof.
  intros Hi Hs. assert (Hok : snapshotOk (SID s) (snapshotOf s) = true) by exact Hs. apply (rowKept_put st); [done|].
  destruct (record_fields (SID s) (snapshotOf s) SessionLineageRetained 0 Hok) as (_ & -> & _). by apply IncarnationValid_no_nul, (rowOk_inc _ _ _ _ Hok).
Qed.

Lemma storeExec_kept st op : goodOp op = true → storeOk st → rowKept st (storeExec scopeHash st op).
Proof.
  intros Hg Hok. destruct op as [s now|s now|id failing now|e failing now]; cbn [storeExec goodOp] in *.
  - unfold Save. destruct (Of s) as [d|e] eqn:Eo; [|apply rowKept_refl]. apply Of_inl in Eo as ->. cbn [fst].
    destruct (stSessions st !! SID s) as [prior|] eqn:Ep; [case_bool|].
    + eapply rowKept_trans; [by eapply prune_kept|]. apply publish_kept; [|done]. by destruct (prune_ok st (SID s) prior now Hok Ep) as [[] _].
    + apply publish_kept; [apply Hok|done].
    + apply publish_kept; [apply Hok|done].
  - unfold Create. destruct (Of s) as [d|e] eqn:Eo; [|apply rowKept_refl]. apply Of_inl in Eo as ->.
    destruct (stSessions st !! SID s); [apply rowKept_refl|]. apply publish_kept; [apply Hok|done].
  - unfold Delete. case_bool; [apply rowKept_refl|]. cbn [fst]. destruct (stSessions st !! id) as [d|] eqn:Ed; [|exact (rowKept_refl st)].
    exact (prune_kept st id d now Hok Ed).
  - unfold DeleteSessionIfUnchanged. cbv zeta. destruct (stSessions st !! dmID e) as [d|] eqn:Ed; [|apply rowKept_refl].
    case_bool; [apply rowKept_refl|]. case_bool; [apply rowKept_refl|]. exact (prune_kept st (dmID e) d now Hok Ed).
Qed.

(** In every store the retained lineage records are exactly the records of the
    stored sessions, one each; no operation loses a record, so a deleted or replaced
    incarnation keeps its tombstone; and a deletion leaves the session unloadable with
    its record pruned at the time of the deletion. *)
Theorem lineage_tracks_store ops :
  forallb goodOp ops = true →
  let st := storeRun scopeHash ops in
  (∀ r, (∃ k, stLineageByKey st !! k = Some r) ∧ liState r = SessionLineageRetained ↔
        ∃ d, stSessions st !! liID r = Some d ∧ r = lineageSnapshotRecord scopeHash (liID r) d SessionLineageRetained 0) ∧
  (∀ op, goodOp op = true → rowKept st (storeExec scopeHash st op)) ∧
  (∀ id d now minted, stSessions st !! id = Some d →
    let st' := (Delete scopeHash st id false now).1 in
    Load minted st' id = inr ErrSessionNotFound ∧
    stLineageByKey st' !! lineageRecordKey id (snIncarnation d) = Some (lineageSnapshotRecord scopeHash id d SessionLineagePruned now)).
Proof.
  intros Hops st. pose proof (storeRun_ok ops Hops) as Hok. fold st in Hok. split_and!.
  - intros r. split.
    + intros [[k Hr] Hret]. by apply (so_retained _ _ Hok k r Hr Hret).
    + intros (d & Hd & Hr). split; [|by rewrite Hr]. exists (lineageRecordKey (liID r) (snIncarnation d)). rewrite Hr at 2. by apply (so_stored _ _ Hok).
  - intros op Hop. by apply storeExec_kept.
  - intros id d now minted Hd. unfold Delete, Load. rewrite Hd. cbn. rewrite lookup_delete_eq. split; [done|].
    pose proof (so_sessions _ _ Hok id d Hd) as Hi%rowOk_inc. unfold PersistedIncarnationID. rewrite Hi. apply lookup_insert_eq.
Qed.

(** ** The store as a map *)

(** What a store promises: a map from ids to sessions with the time of the last save. *)
Abbreviation SpecStore := (gmap gostr (Session * Z)).

Definition savable (s : Session) : bool := match Of s with inl _ => true | inr _ => false end.

Definition unchanged (entry : Session * Z) (e : DiscoveryMeta) : bool :=
  let '(s, savedAt) := entry in
  (savedAt =? dmModifiedAt e)%Z && (SState s =s dmState e) && (Kind s =s dmKind e) && sessionRelationshipsEqual (Relationship s) (dmRelationship e)
  && match Owner s, dmOwner e with None, None => true | o, o' => SameIdentity o o' end.

Definition specExec (m : SpecStore) (op : StoreOp) : SpecStore :=
  match op with
  | SSave s now => if savable s then <[SID s := (s, now)]> m else m
  | SCreate s now => if savable s && bool_decide (m !! SID s = None) then <[SID s := (s, now)]> m else m
  | SDelete id failing _ => if failing then m else delete id m
  | SDeleteIfUnchanged e failing _ =>
      match m !! dmID e with Some entry => if unchanged entry e && negb failing then delete (dmID e) m else m | None => m end
  end.

Definition refines (st : Store) (m : SpecStore) : Prop :=
  stSessions st = (λ e, snapshotOf e.1) <$> m ∧ stSavedAt st = snd <$> m.

Lemma publish_refines st m s now : refines st m → refines (publish scopeHash st s (snapshotOf s) now) (<[SID s := (s, now)]> m).
Proof. intros [H1 H2]. split; cbn; by rewrite fmap_insert, ?H1, ?H2. Qed.

Lemma withdraw_refines st m id : refines st m → refines (withdraw st id) (delete id m).
Proof. intros [H1 H2]. split; cbn; by rewrite fmap_delete, ?H1, ?H2. Qed.

Lemma refines_lookup st m id : refines st m → stSessions st !! id = (λ e, snapshotOf e.1) <$> m !! id ∧ stSavedAt st !! id = snd <$> m !! id.
Proof. intros [-> ->]. by rewrite !lookup_fmap. Qed.

Lemma current_unchanged s savedAt e :
  SessionDiscoveryMetaEqual (mkMeta (dmID e) savedAt (SState s) 0 [] 0 [] TitleProvenanceUnknown (Owner s) None (Kind s) (Relationship s) ActivityUnknown 0) e
  = unchanged (s, savedAt) e.
Proof. unfold SessionDiscoveryMetaEqual, unchanged. cbn. rewrite bool_decide_true by done. by destruct (Owner s), (dmOwner e). Qed.

Ltac rewrite_current s savedAt e :=
  change ((λ x : Session * Z, snapshotOf x.1) <$> Some (s, savedAt)) with (Some (snapshotOf s)); cbv beta iota;
  match goal with |- context [SessionDiscoveryMetaEqual ?c e] =>
    change (SessionDiscoveryMetaEqual c e) with
      (SessionDiscoveryMetaEqual (mkMeta (dmID e) savedAt (SState s) 0 [] 0 [] TitleProvenanceUnknown (Owner s) None (Kind s) (Relationship s) ActivityUnknown 0) e)
  end; rewrite (current_unchanged s savedAt e).

Lemma storeExec_refines st m op : refines st m → refines (storeExec scopeHash st op) (specExec m op).
Proof.
  intros HR. destruct op as [s now|s now|id failing now|e failing now]; cbn [storeExec specExec].
  - unfold Save, savable. destruct (Of s) as [d|e] eqn:Eo; [|done]. apply Of_inl in Eo as ->. cbn [fst]. apply publish_refines.
    destruct (stSessions st !! SID s); [case_bool|]; exact HR.
  - unfold Create, savable. destruct (Of s) as [d|e] eqn:Eo; [|done]. apply Of_inl in Eo as ->. destruct (refines_lookup st m (SID s) HR) as [-> _].
    destruct (m !! SID s) as [x|]; cbn; [exact HR|]. by apply publish_refines.
  - unfold Delete. destruct failing; [done|]. cbn [fst]. apply withdraw_refines. destruct (stSessions st !! id); exact HR.
  - unfold DeleteSessionIfUnchanged. cbv zeta. destruct (refines_lookup st m (dmID e) HR) as [-> ->].
    destruct (m !! dmID e) as [[s savedAt]|]; [|exact HR].
    rewrite_current s savedAt e. destruct (unchanged (s, savedAt) e); [|exact HR]. destruct failing; [exact HR|]. by apply (withdraw_refines st).
Qed.

Lemma storeRun_refines ops : refines (storeRun scopeHash ops) (foldl specExec ∅ ops).
Proof.
  unfold storeRun. assert (H0 : refines newStore ∅) by (split; cbn; by rewrite fmap_empty). revert H0. generalize newStore (∅ : SpecStore).
  induction ops as [|op ops IH]; intros st m HR; [done|]. cbn. by apply IH, storeExec_refines.
Qed.

(** C18. The store implements a map of snapshots.  After any sequence of saves, creations
    and deletions, whatever the lineage index holds, loading an id that the map does not
    have reports that it is absent; loading one it has restores exactly the snapshot of its
    last save (and reports what that restoration refuses), whatever was done to other ids
    since.  If its own methods can reach the saved session and it is restorable, the load
    gives it back as it was, but for the attribution of its run.  A session that is not
    restorable, such as one awaiting an approval in a retried step, can be saved and not
    loaded.  The listing names exactly the entries of the map with the times of their last
    saves; the conditional deletion succeeds exactly on an entry whose compared metadata
    are unchanged. *)
Theorem store_refines_map ops id minted :
  let st := storeRun scopeHash ops in
  let m := foldl specExec ∅ ops in
  (m !! id = None → Load minted st id = inr ErrSessionNotFound) ∧
  (∀ s savedAt, m !! id = Some (s, savedAt) →
    stSavedAt st !! id = Some savedAt ∧
    Load minted st id = match Restore minted (snapshotOf s) with inl s' => inl s' | inr e => inr (ErrSessionLoadFailure e) end ∧
    (reachable s → restorable s = true → Load minted st id = inl (setAttribution [] s))) ∧
  ListSessions st ≡ₚ (λ x, (x.1, x.2.2)) <$> map_to_list m ∧
  (∀ e now, (DeleteSessionIfUnchanged scopeHash st e false now).1.2 = match m !! dmID e with Some entry => unchanged entry e | None => false end).
Proof.
  intros st m. pose proof (storeRun_refines ops) as HR. fold st m in HR. destruct (refines_lookup st m id HR) as [Hs Ht]. split_and!.
  - intros Hm. unfold Load. rewrite Hs, Hm. done.
  - intros s savedAt Hm. rewrite Hm in Hs, Ht. split; [done|]. split; [unfold Load; by rewrite Hs|]. intros Hr Hok. unfold Load. rewrite Hs. cbn. destruct (reachable_ok s Hr) as (R1 & R2 & R3).
    destruct (snapshot_restores s minted R1 R2 (reachable_durable s Hr) R3 Hok) as [_ ->]. done.
  - unfold ListSessions. destruct HR as [-> ->]. rewrite map_to_list_fmap, <-list_fmap_compose. apply Permutation_refl', list_fmap_ext.
    intros i [k [s savedAt]] Hi%list_elem_of_lookup_2%elem_of_map_to_list. cbn. by rewrite lookup_fmap, Hi.
  - intros e now. unfold DeleteSessionIfUnchanged. cbv zeta. destruct (refines_lookup st m (dmID e) HR) as [-> ->].
    destruct (m !! dmID e) as [[s savedAt]|]; [|done].
    rewrite_current s savedAt e. by destruct (unchanged (s, savedAt) e).
Qed.
End histories.

(** ** Samples *)

Definition rootInc : gostr := #"inc_aaaaaaaaaaaaaaaaaaaaaaaaaa".
Definition childSession : Session :=
  setRelationship (mkRel [] [] [] #"s1" rootInc #"c1" None [] [] [] []) (setKind SessionKindSubagent
    (default sampleNew (New #"s2" ModeDefault (mkEnvRef #"local" #"ws" #"1") (mkLimits 5 0 3) 2 #"inc_baaaaaaaaaaaaaaaaaaaaaaaaa"))).

(** A session, its child, and the deletion of the child. *)
Definition storedOps : list StoreOp := [SCreate savedSession 10; SSave childSession 20; SSave savedNew 30; SDelete #"s2" false 40].
Definition rootQuery : SessionLineageQuery := mkLineageQuery #"s1" rootInc [] [] 8.

Lemma lineage_read_exact_witness :
  let st := storeRun (platform := blankPlatform) (λ _, []) storedOps in
  length (lineageScan st rootQuery) = 2 ∧ ReadSessionLineage st rootQuery = inl (lineageScan st rootQuery, false).
Proof.
  intros st. assert (Hl : length (lineageScan st rootQuery) = 2) by (vm_compute; reflexivity). split; [done|].
  pose proof (lineage_read_exact (platform := blankPlatform) (λ _, []) storedOps rootQuery) as H. cbv zeta in H. fold st in H. rewrite H; [|by vm_compute|by vm_compute].
  rewrite bool_decide_true by done. rewrite take_ge by (rewrite Hl; cbn; lia). by rewrite bool_decide_false by (rewrite Hl; cbn; lia).
Defined.

Lemma lineage_tracks_store_witness :
  let st := storeRun (platform := blankPlatform) (λ _, []) storedOps in
  (∃ d, stSessions st !! #"s1" = Some d) ∧ rowKept st (storeExec (platform := blankPlatform) (λ _, []) st (SDelete #"s1" false 50)).
Proof.
  intros st. split.
  - assert (H : match stSessions st !! #"s1" with Some _ => true | None => false end = true) by (vm_compute; reflexivity).
    destruct (stSessions st !! #"s1") as [d|]; [by exists d|done].
  - apply (lineage_tracks_store (platform := blankPlatform) (λ _, []) storedOps); by vm_compute.
Defined.

Lemma store_refines_map_witness :
  Load (platform := blankPlatform) #"minted" (storeRun (platform := blankPlatform) (λ _, []) storedOps) #"s2" = inr ErrSessionNotFound ∧
  Load (platform := blankPlatform) #"minted" (storeRun (platform := blankPlatform) (λ _, []) storedOps) #"s1" = inl (setAttribution [] savedNew).
Proof.
  split.
  - apply (store_refines_map (platform := blankPlatform) (λ _, []) storedOps #"s2" #"minted"). by vm_compute.
  - apply (proj1 (proj2 (store_refines_map (platform := blankPlatform) (λ _, []) storedOps #"s1" #"minted")) savedNew 30%Z);
      [by vm_compute|apply savedNew_reachable|by vm_compute].
Defined.
