(* ===== verification/Inventory.v ===== *)
(** * The pages of the inventory

    [PageSessionMetadata] of [engine/adapter/memstore/memstore.go] over the keyset
    paging of [engine/port/store.go]: the order of the rows, the position a cursor
    stands for, what a walk over the pages returns, and when a cursor is refused. *)

From stdpp Require Import sorting pretty.
From S2P Require Import Prelude Evaluator Authority Conversation Usage Title Authorization Labels Session Snapshot Store.

(** ** The order of the rows *)

Lemma metaBefore_spec a b :
  metaBefore a b = true ↔ (dmModifiedAt b < dmModifiedAt a)%Z ∨ dmModifiedAt a = dmModifiedAt b ∧ strLess (dmID a) (dmID b) = true.
Proof. unfold metaBefore. by rewrite orb_true_iff, andb_true_iff, Z.ltb_lt, Z.eqb_eq. Qed.

Lemma metaLe_spec a b :
  metaLe a b ↔ (dmModifiedAt b < dmModifiedAt a)%Z ∨ dmModifiedAt a = dmModifiedAt b ∧ strLe (dmID a) (dmID b).
Proof.
  unfold metaLe, strLe. rewrite <-!not_true_iff_false, metaBefore_spec.
  destruct (Z.lt_trichotomy (dmModifiedAt a) (dmModifiedAt b)) as [?|[?|?]]; split; intros; destruct_or?; try lia; try (right; split; [lia|]); try (left; lia);
    intros ?; naive_solver lia.
Qed.

#[export] Instance metaLe_total : base.Total metaLe.
Proof.
  intros a b. rewrite !metaLe_spec. destruct (Z.lt_trichotomy (dmModifiedAt a) (dmModifiedAt b)) as [?|[?|?]]; [by right; left| |by left; left].
  destruct (strLe_total (dmID a) (dmID b)); [left|right]; by right.
Qed.

#[export] Instance metaLe_trans : Transitive metaLe.
Proof.
  intros a b c. rewrite !metaLe_spec. intros [H1|[H1 L1]] [H2|[H2 L2]]; [left; lia|left; lia|left; lia|right].
  split; [lia|]. by transitivity (dmID b).
Qed.

(** A different row that is not before is after. *)
Lemma metaLe_strict a b : metaLe a b → dmID a ≠ dmID b → metaBefore a b = true.
Proof.
  rewrite metaLe_spec, metaBefore_spec. intros [H|[H L]] Hne; [by left|right]. split; [done|]. apply strLe_less in L as [?|?]; [congruence|done].
Qed.

(** ** Cursors as positions *)

Definition cursorOf (generation scope : gostr) (row : DiscoveryMeta) : MetadataCursor :=
  mkMetaCursor (dmModifiedAt row) (dmID row) generation scope scanMetadataContinuation.

Lemma afterCursor_before generation scope last row : afterCursor (cursorOf generation scope last) row = metaBefore last row.
Proof. unfold afterCursor, metaBefore. cbn. by rewrite Z.eqb_sym. Qed.

Lemma cursorStart_at generation scope l1 last l2 :
  StronglySorted metaLe (l1 ++ last :: l2) → NoDup (dmID <$> l1 ++ last :: l2) →
  cursorStart (cursorOf generation scope last) (l1 ++ last :: l2) = S (length l1).
Proof.
  induction l1 as [|x l1 IH]; cbn [app fmap list_fmap cursorStart length]; intros Hs Hn; inversion_clear Hs as [|? ? Hs' Hx]; apply NoDup_cons in Hn as [Hnx Hn'];
    rewrite afterCursor_before.
  - assert (Hself : metaLe last last) by (rewrite metaLe_spec; right; split; [done|apply strLess_irrefl]). unfold metaLe in Hself. rewrite Hself.
    destruct l2 as [|y l2]; [done|]. cbn [cursorStart]. rewrite afterCursor_before, metaLe_strict; [done| |].
    + by inversion Hx.
    + intros Heq. apply Hnx. cbn. rewrite Heq. by left.
  - rewrite Forall_forall in Hx. assert (Hl : metaLe x last) by (apply Hx, elem_of_app; right; by left). unfold metaLe in Hl. rewrite Hl.
    by rewrite IH.
Qed.

(** ** Generations *)

Lemma pretty_go_length x s : (String.length s ≤ String.length (pretty_N_go x s))%nat.
Proof.
  revert s. induction (N.lt_wf_0 x) as [x _ IH]; intros s. destruct (decide (x = 0%N)) as [-> |Hx]; [by rewrite pretty_N_go_0|].
  rewrite pretty_N_go_step by lia. etransitivity; [|apply IH; apply N.div_lt; lia]. cbn. lia.
Qed.

Lemma formatUint_nonempty n : formatUint n ≠ [].
Proof.
  unfold formatUint. intros H. apply (lit_inj _ "") in H. unfold pretty, pretty_N in H. case_decide; [done|]. rewrite pretty_N_go_step in H by lia.
  apply (f_equal String.length) in H. match type of H with String.length (pretty_N_go ?y ?s) = _ => pose proof (pretty_go_length y s) as Hl end. cbn in Hl, H. lia.
Qed.

Lemma formatUint_inj n m : (0 <= n)%Z → (0 <= m)%Z → formatUint n = formatUint m → n = m.
Proof. unfold formatUint. intros Hn Hm H%lit_inj. apply (inj pretty) in H. lia. Qed.

(** ** Pages *)

Section pages.
Context {platform : Platform}.
Context (scopeHash : option gostr → gostr).

Definition setCursor (c : option MetadataCursor) (r : PageRequest) : PageRequest := mkPageRequest (prLimit r) c (prOwnershipEnforced r) (prOwner r).

(** The rows a request sees, and the cursor of a position among them. *)
Definition inventory (st : Store) (r : PageRequest) : list DiscoveryMeta := prepareSessionMetadataRows (metadataRows st) r.

Definition cursorAt (st : Store) (r : PageRequest) (i : nat) : option MetadataCursor :=
  match i with 0 => None | S j => cursorOf (formatUint (stGeneration st)) (metadataPageScope scopeHash r) <$> inventory st r !! j end.

(** A client that follows the cursors of the pages. *)
Fixpoint walkPages (fuel : nat) (st : Store) (r : PageRequest) : option (list DiscoveryMeta) :=
  match fuel with
  | 0 => None
  | S fuel' =>
      match PageSessionMetadata scopeHash st r with
      | inr _ => None
      | inl pg =>
          match pgNext pg with
          | None => Some (pgSessions pg)
          | Some c => app (pgSessions pg) <$> walkPages fuel' st (setCursor (Some c) r)
          end
      end
  end.

Lemma metadataRows_ids st : dmID <$> metadataRows st = (map_to_list (stSessions st)).*1.
Proof. unfold metadataRows. rewrite <-list_fmap_compose. apply list_fmap_ext. by intros ? [id d] _. Qed.

Lemma inventory_perm st r : inventory st r ≡ₚ filter (λ row, metaVisible r row = true) (metadataRows st).
Proof. apply merge_sort_Permutation. Qed.

Lemma inventory_sorted st r : StronglySorted metaLe (inventory st r).
Proof. apply StronglySorted_merge_sort; apply _. Qed.

Lemma inventory_ids st r : NoDup (dmID <$> inventory st r).
Proof.
  rewrite inventory_perm. assert (Hn : NoDup (dmID <$> metadataRows st)) by (rewrite metadataRows_ids; apply NoDup_fst_map_to_list).
  revert Hn. induction (metadataRows st) as [|x l IH]; [done|]. rewrite fmap_cons, NoDup_cons, filter_cons. intros [Hx Hn].
  case_decide; [rewrite fmap_cons; apply NoDup_cons; split; [|by apply IH]|by apply IH]. intros Hin. apply Hx. apply list_elem_of_fmap in Hin as (y & -> & [_ Hy]%list_elem_of_filter).
  by apply list_elem_of_fmap_2.
Qed.

Lemma cursorAt_start st r i :
  (i ≤ length (inventory st r))%nat → match cursorAt st r i with Some c => cursorStart c (inventory st r) | None => 0 end = i.
Proof.
  destruct i as [|j]; [done|]. cbn. intros Hj. destruct (lookup_lt_is_Some_2 (inventory st r) j) as [row Hrow]; [lia|]. rewrite Hrow. cbn [fmap option_fmap option_map].
  pose proof (take_drop_middle _ _ _ Hrow) as Hsplit. rewrite <-Hsplit, cursorStart_at; rewrite ?Hsplit; [|apply inventory_sorted|apply inventory_ids].
  rewrite length_take. lia.
Qed.

(** The page at a position. *)
Lemma page_at st r i :
  prCursor r = cursorAt st r i → (i ≤ length (inventory st r))%nat → (0 < prLimit r)%Z → (Z.of_nat (length (inventory st r)) + prLimit r < 2 ^ 63)%Z →
  let j := (i + Z.to_nat (prLimit r))%nat in
  PageSessionMetadata scopeHash st r =
    inl (mkPage (take (Z.to_nat (prLimit r)) (drop i (inventory st r))) (if decide (j < length (inventory st r))%nat then cursorAt st r j else None) (length (inventory st r))).
Proof.
  intros Hc Hi Hl Hmax j. unfold PageSessionMetadata, PaginateSessionMetadataBound. rewrite bool_decide_false by apply formatUint_nonempty.
  unfold paginateSessionMetadata. fold (inventory st r). cbv zeta. pose proof (cursorAt_start st r i Hi) as Hstart. rewrite Hc.
  assert (Hfresh : match cursorAt st r i with Some c => negb (mcGeneration c =s formatUint (stGeneration st)) || negb (mcScope c =s metadataPageScope scopeHash r)
    || negb (mcContinuation c =s scanMetadataContinuation) | None => false end = false).
  { destruct i as [|i']; [done|]. cbn. destruct (inventory st r !! i'); [|done]. cbn [fmap option_fmap option_map cursorOf mcGeneration mcScope mcContinuation]. by rewrite !bool_decide_true. }
  rewrite Hfresh. cbn [andb].
  assert (Hs : match cursorAt st r i with Some c => Z.of_nat (cursorStart c (inventory st r)) | None => 0%Z end = Z.of_nat i) by (destruct (cursorAt st r i); lia).
  rewrite Hs. destruct (Z.ltb_spec (prLimit r) 0); [lia|]. rewrite wrap64_id by (unfold int64; lia).
  assert (Hj : (Z.of_nat i + prLimit r)%Z = Z.of_nat j) by lia. rewrite Hj. case_decide as Hd.
  - destruct (Z.ltb_spec (Z.of_nat (length (inventory st r))) (Z.of_nat j)); [lia|]. destruct (Z.ltb_spec (Z.of_nat j) (Z.of_nat i)); [lia|].
    destruct (Z.ltb_spec (Z.of_nat j) (Z.of_nat (length (inventory st r)))); [|lia]. destruct (Z.ltb_spec (Z.of_nat i) (Z.of_nat j)); [|lia]. cbn [andb].
    f_equal. f_equal; [f_equal; [lia|f_equal; lia]|]. destruct j as [|j']; [lia|]. cbn [cursorAt]. replace (Z.to_nat (Z.of_nat (S j') - 1)) with j' by lia.
    by destruct (inventory st r !! j').
  - destruct (Z.ltb_spec (Z.of_nat (length (inventory st r))) (Z.of_nat j)); [|assert (Z.of_nat j = Z.of_nat (length (inventory st r))) as -> by lia];
      (destruct (Z.ltb_spec (Z.of_nat (length (inventory st r))) (Z.of_nat i)); [lia|]); rewrite Z.ltb_irrefl; cbn [andb]; f_equal; f_equal;
      rewrite Nat2Z.id; rewrite !take_ge by (rewrite length_drop; lia); done.
Qed.

Lemma walk_from fuel st r i :
  prCursor r = cursorAt st r i → (i ≤ length (inventory st r))%nat → (0 < prLimit r)%Z → (Z.of_nat (length (inventory st r)) + prLimit r < 2 ^ 63)%Z →
  (length (inventory st r) - i < fuel)%nat → walkPages fuel st r = Some (drop i (inventory st r)).
Proof.
  revert r i. induction fuel as [|fuel IH]; intros r i Hc Hi Hl Hmax Hf; [lia|]. cbn [walkPages]. rewrite (page_at st r i) by done. cbn [pgNext pgSessions].
  case_decide as Hd; [|by rewrite take_ge by (rewrite length_drop; lia)].
  set (j := (i + Z.to_nat (prLimit r))%nat) in *. destruct (cursorAt st r j) as [c|] eqn:Ec.
  - rewrite (IH (setCursor (Some c) r) j); try done; [|change (inventory st (setCursor (Some c) r)) with (inventory st r); lia..].
    change (inventory st (setCursor (Some c) r)) with (inventory st r). cbn. f_equal. unfold j. rewrite <-drop_drop. by rewrite take_drop.
  - destruct j as [|j'] eqn:Ej; [lia|]. cbn in Ec. destruct (lookup_lt_is_Some_2 (inventory st r) j') as [row Hrow]; [lia|]. by rewrite Hrow in Ec.
Qed.

Lemma inventory_length st r : (length (inventory st r) ≤ size (stSessions st))%nat.
Proof.
  rewrite inventory_perm, length_filter. unfold metadataRows. by rewrite length_fmap, length_map_to_list.
Qed.

(** ** Cursors of another state *)

(** Whatever changes a row also moves the generation. *)
Lemma rows_or_generation st op :
  metadataRows (storeExec scopeHash st op) = metadataRows st ∨ stGeneration (storeExec scopeHash st op) = wrapU64 (stGeneration st + 1).
Proof.
  destruct op as [s now|s now|id failing now|e failing now]; cbn [storeExec].
  - unfold Save. destruct (Of s) as [d|]; [|by left]. right. cbn [fst]. by destruct (stSessions st !! SID s); [case_bool|].
  - unfold Create. destruct (Of s) as [d|]; [|by left]. destruct (stSessions st !! SID s); [by left|by right].
  - unfold Delete. case_bool; [by left|]. cbn [fst]. destruct (stSessions st !! id) as [d|] eqn:Ed; [by right|left].
    unfold metadataRows. cbn [withdraw stSessions stSavedAt stActivities stEstimatedBytes]. rewrite (delete_id (stSessions st)) by done.
    apply list_fmap_ext. intros i [id' d'] Hi%list_elem_of_lookup_2%elem_of_map_to_list. assert (id' ≠ id) by congruence. by rewrite !lookup_delete_ne by done.
  - unfold DeleteSessionIfUnchanged. cbv zeta. destruct (stSessions st !! dmID e) as [d|]; [|by left]. case_bool; [by left|]. case_bool; [by left|by right].
Qed.

Lemma wrapU64_nonneg z : (0 <= wrapU64 z)%Z.
Proof. unfold wrapU64. apply Z.mod_pos_bound. lia. Qed.

Lemma generation_range ops : (0 <= stGeneration (storeRun scopeHash ops) < 2 ^ 64)%Z.
Proof.
  assert (Hstep : ∀ st op, (0 <= stGeneration st < 2 ^ 64)%Z → (0 <= stGeneration (storeExec scopeHash st op) < 2 ^ 64)%Z).
  { intros st op Hst. assert (Hw : (0 <= wrapU64 (stGeneration st + 1) < 2 ^ 64)%Z) by (apply Z.mod_pos_bound; lia).
    destruct op as [s now|s now|id failing now|e failing now]; cbn [storeExec].
    - unfold Save. destruct (Of s); [|done]. cbn [fst]. by destruct (stSessions st !! SID s); [case_bool|].
    - unfold Create. destruct (Of s); [|done]. by destruct (stSessions st !! SID s).
    - unfold Delete. case_bool; [done|]. by destruct (stSessions st !! id).
    - unfold DeleteSessionIfUnchanged. cbv zeta. destruct (stSessions st !! dmID e); [|done]. case_bool; [done|]. by case_bool. }
  unfold storeRun. assert (H0 : (0 <= stGeneration newStore < 2 ^ 64)%Z) by (cbn; lia). revert H0. generalize newStore.
  induction ops as [|op ops IH]; intros st Hst; [done|]. cbn. by apply IH, Hstep.
Qed.

Lemma next_generation st r pg c : PageSessionMetadata scopeHash st r = inl pg → pgNext pg = Some c → mcGeneration c = formatUint (stGeneration st).
Proof.
  unfold PageSessionMetadata, PaginateSessionMetadataBound. case_bool; [done|]. unfold paginateSessionMetadata. cbv zeta.
  match goal with |- context [if true && ?b then _ else _] => destruct (true && b) end; [done|].
  match goal with |- (if ?b then _ else _) = _ → _ => destruct b end; [done|]. intros [= <-]. cbn [pgNext].
  match goal with |- (if ?b then _ else _) = _ → _ => destruct b end; [|done]. case_match; [|done]. by intros [= <-].
Qed.

Lemma stale_generation st r c : prCursor r = Some c → mcGeneration c ≠ formatUint (stGeneration st) → PageSessionMetadata scopeHash st r = inr ErrSessionMetadataCursorRestart.
Proof.
  intros Hc Hg. unfold PageSessionMetadata, PaginateSessionMetadataBound. rewrite bool_decide_false by apply formatUint_nonempty.
  unfold paginateSessionMetadata. cbv zeta. by rewrite Hc, (bool_decide_false (mcGeneration c = _)).
Qed.

(** C19. Following the cursors of the pages terminates within one page per stored session
    and returns every visible session exactly once, latest first; and a cursor handed out
    before any operation changed a row of the inventory is refused with a restart, so a
    walk never skips or repeats a session silently.  The bound keeps the sum of position
    and limit in an [int]. *)
Theorem inventory_paging_complete ops r :
  let st := storeRun scopeHash ops in
  prCursor r = None → (0 < prLimit r)%Z → (Z.of_nat (size (stSessions st)) + prLimit r < 2 ^ 63)%Z →
  (∃ rows, walkPages (S (size (stSessions st))) st r = Some rows ∧
    rows ≡ₚ filter (λ row, metaVisible r row = true) (metadataRows st) ∧ StronglySorted metaLe rows ∧ NoDup (dmID <$> rows)) ∧
  (∀ r' pg c op, PageSessionMetadata scopeHash st r' = inl pg → pgNext pg = Some c →
    metadataRows (storeExec scopeHash st op) ≠ metadataRows st →
    PageSessionMetadata scopeHash (storeExec scopeHash st op) (setCursor (Some c) r') = inr ErrSessionMetadataCursorRestart).
Proof.
  intros st Hc Hl Hmax. pose proof (inventory_length st r) as Hlen. split.
  - exists (inventory st r). split_and!; [|apply inventory_perm|apply inventory_sorted|apply inventory_ids].
    rewrite (walk_from _ st r 0); [done|by rewrite Hc|lia|done|lia|lia].
  - intros r' pg c op Hpg Hnext Hrows. apply (stale_generation _ _ c); [done|]. rewrite (next_generation st r' pg c) by done.
    destruct (rows_or_generation st op) as [?| ->]; [done|]. pose proof (generation_range ops) as Hg. fold st in Hg. intros Heq.
    apply formatUint_inj in Heq; [|lia|apply wrapU64_nonneg]. unfold wrapU64 in Heq.
    destruct (decide (stGeneration st + 1 < 2 ^ 64)%Z); [rewrite Z.mod_small in Heq by lia; lia|].
    assert (stGeneration st = 2 ^ 64 - 1)%Z as Hgen by lia. by rewrite Hgen in Heq.
Qed.
End pages.

Definition firstPage : PageRequest := mkPageRequest 1 None false None.

Lemma inventory_paging_complete_witness :
  let st := storeRun (platform := blankPlatform) (λ _, []) [SCreate savedSession 10; SSave childSession 20] in
  ∃ rows, walkPages (λ _, []) 3 st firstPage = Some rows ∧ dmID <$> rows = [ #"s2"; #"s1" ] ∧ StronglySorted metaLe rows.
Proof.
  intros st. assert (Hsize : size (stSessions st) = 2) by (vm_compute; reflexivity).
  destruct (inventory_paging_complete (platform := blankPlatform) (λ _, []) [SCreate savedSession 10; SSave childSession 20] firstPage) as [(rows & H1 & _ & H2 & _) _];
    [done|done|fold st; rewrite Hsize; cbn; lia|]. fold st in H1. rewrite Hsize in H1. exists rows. split_and!; [done| |done].
  assert (Hw : option_map (map dmID) (walkPages (λ _, []) 3 st firstPage) = Some [ #"s2"; #"s1" ]) by (vm_compute; reflexivity).
  rewrite H1 in Hw. by injection Hw.
Defined.
