(* ===== verification/Eventlog.v ===== *)
(** * The event log

    [engine/adapter/memstore/eventlog.go] with the cursors of
    [engine/port/cursoreventlog.go]: appending events and gap markers, resuming after a
    cursor, following the tail while others append or reset the log.

    Every critical section of the log is a step; a follower is a machine between its
    critical sections, its consumer and its context.  A channel is a number that is open
    until it is put into the set of closed ones.  The payload of an event, the base64 of
    the JSON envelope of a cursor and the random generations are parameters. *)

From stdpp Require Import pretty.
From S2P Require Import Prelude.

(** ** Cursors *)

Record cursorEnvelope := mkEnvelope { envV : gostr; envS : gostr; envG : gostr; envP : gostr }.

(** What the encoders promise: an envelope is read back, and no encoding is empty. *)
Class CursorCodec := {
  encodeEnvelope : cursorEnvelope → gostr;
  decodeEnvelope : gostr → option cursorEnvelope;
  codec_roundtrip : ∀ e, decodeEnvelope (encodeEnvelope e) = Some e;
  codec_nonempty : ∀ e, encodeEnvelope e ≠ []
}.

Definition cursorEnvelopeVersion : gostr := #"cur/1".

Inductive CursorError := ErrCursorMalformed | ErrCursorExpired.

(** [strconv.Itoa] of a length. *)
Definition Itoa (n : nat) : gostr := lit (pretty (N.of_nat n)).

Definition digit (c : rune) : bool := ((48 <=? c) && (c <=? 57))%N.
Definition decimal (s : gostr) : Z := foldl (λ a c, (10 * a + (Z.of_N c - 48))%Z) 0%Z s.

(** [strconv.Atoi] *)
Definition Atoi (s : gostr) : option Z :=
  let '(neg, t) := match s with
                   | c :: t => if c =r chr "-" then (true, t) else if c =r chr "+" then (false, t) else (false, s)
                   | [] => (false, [])
                   end in
  if (t =s []) || negb (forallb digit t) then None
  else let v := if (neg : bool) then (- decimal t)%Z else decimal t in
       if ((- 2 ^ 63 <=? v) && (v <? 2 ^ 63))%Z then Some v else None.

Section codec.
Context {codec : CursorCodec}.

Definition EncodeCursor (id generation position : gostr) : gostr := encodeEnvelope (mkEnvelope cursorEnvelopeVersion id generation position).

Definition DecodeCursor (cur id currentGeneration : gostr) : gostr + CursorError :=
  if cur =s [] then inl []
  else match decodeEnvelope cur with
       | None => inr ErrCursorMalformed
       | Some env =>
           if negb (envV env =s cursorEnvelopeVersion) then inr ErrCursorMalformed
           else if negb (envS env =s id) then inr ErrCursorMalformed
           else if negb (envG env =s currentGeneration) then inr ErrCursorExpired
           else inl (envP env)
       end.
End codec.

(** ** The log *)

Section log.
Context {Event : Type} {codec : CursorCodec}.

(** [LogRecord] before a read stamps the cursor and the live mark on it. *)
Inductive LogEntry := LogRecordEvent (ev : Event) | LogRecordGap (reason : gostr).
Record LogRecord := mkLogRecord { lrRecord : LogEntry; lrCursor : gostr; lrLive : bool }.

Record memLog := mkMemLog { lgGeneration : gostr; lgRecords : list LogEntry; lgChanged : nat }.

Record EventLog := mkEventLog { elLogs : gmap gostr memLog; elClosed : gset nat; elNextChan : nat }.

Definition NewEventLog : EventLog := mkEventLog ∅ ∅ 0.

Definition putLog (l : EventLog) (id : gostr) (generation : gostr) (records : list LogEntry) (closing : gset nat) : EventLog :=
  mkEventLog (<[id := mkMemLog generation records (elNextChan l)]> (elLogs l)) (closing ∪ elClosed l) (S (elNextChan l)).

(** [fresh] is what [newGeneration] would mint. *)
Definition ensureLocked (l : EventLog) (id fresh : gostr) : EventLog * memLog :=
  match elLogs l !! id with
  | Some lg => (l, lg)
  | None => (putLog l id fresh [] ∅, mkMemLog fresh [] (elNextChan l))
  end.

Definition appendRecord (l : EventLog) (id : gostr) (rec : LogEntry) (fresh : gostr) : EventLog * gostr :=
  let '(l, lg) := ensureLocked l id fresh in
  let records := lgRecords lg ++ [rec] in
  (putLog l id (lgGeneration lg) records {[lgChanged lg]}, EncodeCursor id (lgGeneration lg) (Itoa (length records))).

Definition AppendEvent (l : EventLog) (id : gostr) (ev : Event) (fresh : gostr) : EventLog * gostr := appendRecord l id (LogRecordEvent ev) fresh.
Definition AppendGap (l : EventLog) (id reason fresh : gostr) : EventLog * gostr := appendRecord l id (LogRecordGap reason) fresh.

Definition recordsOf (l : EventLog) (id : gostr) : list LogEntry := match elLogs l !! id with Some lg => lgRecords lg | None => [] end.

(** [Read]: the events, without the gaps. *)
Definition Read (l : EventLog) (id : gostr) : list Event := omap (λ r, match r with LogRecordEvent ev => Some ev | LogRecordGap _ => None end) (recordsOf l id).

Definition resolve (l : EventLog) (id after fresh : gostr) : EventLog * ((nat * gostr) + CursorError) :=
  let '(l, lg) := ensureLocked l id fresh in
  (l, match DecodeCursor after id (lgGeneration lg) with
      | inr e => inr e
      | inl pos => if pos =s [] then inl (0, lgGeneration lg)
                   else match Atoi pos with
                        | Some idx => if (idx <? 0)%Z then inr ErrCursorMalformed else inl (Z.to_nat idx, lgGeneration lg)
                        | None => inr ErrCursorMalformed
                        end
      end).

Definition sliceFrom (l : EventLog) (id : gostr) (from : nat) (fresh : gostr) : EventLog * (list LogEntry * gostr * nat) :=
  let '(l, lg) := ensureLocked l id fresh in
  (l, (drop from (lgRecords lg), lgGeneration lg, lgChanged lg)).

Definition Reset (l : EventLog) (id fresh : gostr) : EventLog :=
  putLog l id fresh [] (match elLogs l !! id with Some lg => {[lgChanged lg]} | None => ∅ end).

(** ** A reader *)

(** Where the iterator of [ReadAfter] stands: before [resolve], before [sliceFrom], in the
    loop over a batch with the channel captured with it, in the [select], returned. *)
Inductive readPhase :=
  | RStart (after : gostr) | RSlice | RBatch (batch : list LogEntry) (wait : nat) | RWait (wait : nat) | RDone (err : option CursorError).

Record Reader := mkReader {
  rdID : gostr; rdLimit : Z; rdFollow : bool; rdPhase : readPhase;
  rdNext : nat; rdGen : gostr; rdYielded : Z; rdLive : bool; rdOut : list LogRecord
}.

Definition ReadAfter (id after : gostr) (limit : Z) (follow : bool) : Reader := mkReader id limit follow (RStart after) 0 [] 0 false [].

Definition setPhase (p : readPhase) (r : Reader) : Reader :=
  mkReader (rdID r) (rdLimit r) (rdFollow r) p (rdNext r) (rdGen r) (rdYielded r) (rdLive r) (rdOut r).

(** [yield]; [cont] is what the consumer answers. *)
Definition yieldRecord (r : Reader) (rec : LogEntry) (rest : list LogEntry) (wait : nat) (cont : bool) : Reader :=
  let next := S (rdNext r) in
  let out := rdOut r ++ [mkLogRecord rec (EncodeCursor (rdID r) (rdGen r) (Itoa next)) (rdLive r)] in
  let yielded := (rdYielded r + 1)%Z in
  if negb cont then mkReader (rdID r) (rdLimit r) (rdFollow r) (RDone None) next (rdGen r) (rdYielded r) (rdLive r) out
  else mkReader (rdID r) (rdLimit r) (rdFollow r)
         (if ((0 <? rdLimit r) && (rdLimit r <=? yielded))%Z then RDone None else RBatch rest wait) next (rdGen r) yielded (rdLive r) out.

(** One step; [cancelled] is whether the context is done, seen in the [select] only. *)
Definition readerStep (l : EventLog) (r : Reader) (fresh : gostr) (cont cancelled : bool) : EventLog * Reader :=
  match rdPhase r with
  | RStart after =>
      match resolve l (rdID r) after fresh with
      | (l, inr e) => (l, setPhase (RDone (Some e)) r)
      | (l, inl (start, gen)) => (l, mkReader (rdID r) (rdLimit r) (rdFollow r) RSlice start gen (rdYielded r) (rdLive r) (rdOut r))
      end
  | RSlice =>
      match sliceFrom l (rdID r) (rdNext r) fresh with
      | (l, (batch, gen, wait)) => (l, setPhase (if negb (gen =s rdGen r) then RDone (Some ErrCursorExpired) else RBatch batch wait) r)
      end
  | RBatch (rec :: rest) wait => (l, yieldRecord r rec rest wait cont)
  | RBatch [] wait =>
      (l, if negb (rdFollow r) then setPhase (RDone None) r
          else mkReader (rdID r) (rdLimit r) (rdFollow r) (RWait wait) (rdNext r) (rdGen r) (rdYielded r) true (rdOut r))
  | RWait wait => (l, if cancelled then setPhase (RDone None) r else if bool_decide (wait ∈ elClosed l) then setPhase RSlice r else r)
  | RDone _ => (l, r)
  end.

(** ** Interleavings *)

(** The history of each generation is kept beside the log. *)
Record World := mkWorld { wLog : EventLog; wReader : Reader; wPast : gmap (gostr * gostr) (list LogEntry) }.

Inductive LogAction :=
  | AAppend (id : gostr) (rec : LogEntry) (fresh : gostr)
  | AReset (id fresh : gostr)
  | AEnsure (id fresh : gostr)
  | AStep (fresh : gostr) (cont cancelled : bool).

Definition freshOf (a : LogAction) : gostr := match a with AAppend _ _ g | AReset _ g | AEnsure _ g | AStep g _ _ => g end.

Definition act (w : World) (a : LogAction) : World :=
  match a with
  | AAppend id rec fresh =>
      let gen := lgGeneration (ensureLocked (wLog w) id fresh).2 in
      mkWorld (appendRecord (wLog w) id rec fresh).1 (wReader w) (<[(id, gen) := default [] (wPast w !! (id, gen)) ++ [rec]]> (wPast w))
  | AReset id fresh => mkWorld (Reset (wLog w) id fresh) (wReader w) (wPast w)
  | AEnsure id fresh => mkWorld (ensureLocked (wLog w) id fresh).1 (wReader w) (wPast w)
  | AStep fresh cont cancelled =>
      let '(l, r) := readerStep (wLog w) (wReader w) fresh cont cancelled in mkWorld l r (wPast w)
  end.

Definition runLog (r : Reader) (acts : list LogAction) : World := foldl act (mkWorld NewEventLog r ∅) acts.

(** What was appended to a log since it was minted. *)
Definition past (w : World) (id gen : gostr) : list LogEntry := default [] (wPast w !! (id, gen)).
End log.
Arguments LogEntry : clear implicits.
Arguments LogRecord : clear implicits.
Arguments memLog : clear implicits.
Arguments EventLog : clear implicits.
Arguments Reader : clear implicits.
Arguments readPhase : clear implicits.
Arguments LogAction : clear implicits.
Arguments World : clear implicits.

(** ** Decimal positions *)

Lemma decimal_app a b : decimal (a ++ b) = foldl (λ a c, (10 * a + (Z.of_N c - 48))%Z) (decimal a) b.
Proof. apply foldl_app. Qed.

Lemma pretty_char_code d : (d < 10)%N → Ascii.N_of_ascii (pretty_N_char d) = (48 + d)%N.
Proof. intros Hd. assert (d = 0 ∨ d = 1 ∨ d = 2 ∨ d = 3 ∨ d = 4 ∨ d = 5 ∨ d = 6 ∨ d = 7 ∨ d = 8 ∨ d = 9)%N as Hc by lia. by repeat destruct Hc as [-> |Hc]; subst. Qed.

Lemma pretty_go_decimal x s :
  ∃ ds, lit (pretty_N_go x s) = ds ++ lit s ∧ forallb digit ds = true ∧ decimal ds = Z.of_N x ∧ (x ≠ 0%N → ds ≠ []).
Proof.
  revert s. induction (N.lt_wf_0 x) as [x _ IH]; intros s. destruct (decide (x = 0%N)) as [-> |Hx].
  { exists []. rewrite pretty_N_go_0. done. }
  rewrite pretty_N_go_step by lia. assert (Hm : (x `mod` 10 < 10)%N) by (apply N.mod_lt; lia).
  destruct (IH (x `div` 10)%N ltac:(apply N.div_lt; lia) (String (pretty_N_char (x `mod` 10)) s)) as (ds & -> & Hd & Hv & _).
  change (lit (String (pretty_N_char (x `mod` 10)) s)) with (Ascii.N_of_ascii (pretty_N_char (x `mod` 10)) :: lit s). rewrite pretty_char_code by done. exists (ds ++ [(48 + x `mod` 10)%N]). split_and!.
  - by rewrite <-app_assoc.
  - rewrite forallb_app, Hd. cbn [forallb andb]. rewrite andb_true_r. unfold digit. apply andb_true_iff.
    revert Hm. generalize (x `mod` 10)%N. intros m Hm. split; apply N.leb_le; lia.
  - rewrite decimal_app, Hv. cbn. pose proof (N.div_mod x 10 ltac:(lia)) as Hdm.
    revert Hdm. generalize (x `div` 10)%N (x `mod` 10)%N. lia.
  - intros _. by destruct ds.
Qed.

Lemma Itoa_spec n : ∃ c t, Itoa n = c :: t ∧ forallb digit (c :: t) = true ∧ decimal (c :: t) = Z.of_nat n.
Proof.
  unfold Itoa, pretty, pretty_N. case_decide as Hn.
  - assert (n = 0) as -> by lia. by exists (chr "0"), [].
  - destruct (pretty_go_decimal (N.of_nat n) "") as (ds & -> & Hd & Hv & Hne). change (lit "") with ([] : gostr). rewrite app_nil_r. destruct ds as [|c t]; [by destruct Hne|].
    exists c, t. split_and!; [done|done|]. rewrite Hv. lia.
Qed.

Lemma Atoi_Itoa n : (Z.of_nat n < 2 ^ 63)%Z → Atoi (Itoa n) = Some (Z.of_nat n).
Proof.
  intros Hn. destruct (Itoa_spec n) as (c & t & -> & Hd & Hv). unfold Atoi. pose proof Hd as Hc. cbn in Hc. apply andb_true_iff in Hc as [Hc _].
  unfold digit in Hc. apply andb_true_iff in Hc as [H1%N.leb_le H2%N.leb_le].
  destruct (N.eqb_spec c (chr "-")) as [E|_]; [unfold chr in E; cbn in E; lia|]. destruct (N.eqb_spec c (chr "+")) as [E|_]; [unfold chr in E; cbn in E; lia|].
  rewrite bool_decide_false by done. rewrite Hd. cbn [negb orb]. rewrite Hv.
  destruct (Z.leb_spec (- 2 ^ 63) (Z.of_nat n)); [|lia]. by destruct (Z.ltb_spec (Z.of_nat n) (2 ^ 63)); [|lia].
Qed.

Lemma Itoa_nonempty n : Itoa n ≠ [].
Proof. destruct (Itoa_spec n) as (c & t & -> & _). done. Qed.

(** ** Cursors of a log *)

Lemma DecodeCursor_Encode {codec : CursorCodec} id g p id' g' :
  DecodeCursor (EncodeCursor id g p) id' g' =
  if negb (id =s id') then inr ErrCursorMalformed else if negb (g =s g') then inr ErrCursorExpired else inl p.
Proof.
  unfold DecodeCursor, EncodeCursor. rewrite bool_decide_false by apply codec_nonempty. rewrite codec_roundtrip. cbn [envV envS envG envP].
  by rewrite (bool_decide_true (cursorEnvelopeVersion = _)).
Qed.

(** ** The log and its history *)

Section following.
Context {Event : Type} {codec : CursorCodec}.
Implicit Types w : World Event.

(** The channels of the logs are open and their own; what a log holds is what was appended
    since its generation was minted. *)
Record logOk (used : list gostr) w : Prop := {
  lo_past : ∀ id lg, elLogs (wLog w) !! id = Some lg → past w id (lgGeneration lg) = lgRecords lg;
  lo_open : ∀ id lg, elLogs (wLog w) !! id = Some lg → lgChanged lg ∉ elClosed (wLog w) ∧ lgChanged lg < elNextChan (wLog w);
  lo_closed : ∀ c, c ∈ elClosed (wLog w) → c < elNextChan (wLog w);
  lo_own : ∀ id id' lg lg', elLogs (wLog w) !! id = Some lg → elLogs (wLog w) !! id' = Some lg' → lgChanged lg = lgChanged lg' → id = id';
  lo_gen : ∀ id lg, elLogs (wLog w) !! id = Some lg → lgGeneration lg ∈ used;
  lo_used : ∀ id g, g ∉ used → wPast w !! (id, g) = None
}.

(** What no step undoes: history is only appended to, and a log that changes has closed
    the channel its readers hold. *)
Record grows w w' : Prop := {
  gr_past : ∀ id g, past w id g `prefix_of` past w' id g;
  gr_closed : elClosed (wLog w) ⊆ elClosed (wLog w');
  gr_log : ∀ id lg, elLogs (wLog w) !! id = Some lg → lgChanged lg ∈ elClosed (wLog w') ∨ elLogs (wLog w') !! id = Some lg
}.

Lemma grows_refl w w' : wLog w' = wLog w → wPast w' = wPast w → grows w w'.
Proof. intros Hl Hp. split; unfold past; rewrite ?Hl, ?Hp; auto. Qed.

(** Writing the log of one id under a generation whose history it holds. *)
Lemma putLog_ok used w id gen records closing p' :
  logOk used w → (gen ∈ used) →
  (∀ lg, elLogs (wLog w) !! id = Some lg → lgChanged lg ∈ closing) → (∀ c, c ∈ closing → ∃ lg, elLogs (wLog w) !! id = Some lg ∧ c = lgChanged lg) →
  (∀ id' g, id' ≠ id → p' !! (id', g) = wPast w !! (id', g)) → default [] (p' !! (id, gen)) = records →
  (∀ id' g, g ∉ used → p' !! (id', g) = None) → (∀ g, past w id g `prefix_of` default [] (p' !! (id, g))) →
  let w' := mkWorld (putLog (wLog w) id gen records closing) (wReader w) p' in logOk used w' ∧ grows w w'.
Proof.
  intros [L1 L2 L3 L4 L5 L6] Hg Hold Hclosing Hother Hrec Hused Hpre w'. split; split; cbn.
  - intros id' lg. rewrite lookup_insert_Some. intros [[<- <-]|[Hne Hlg]]; [exact Hrec|]. unfold past, w'. cbn. rewrite Hother by done. by apply L1.
  - intros id' lg. rewrite lookup_insert_Some. intros [[<- <-]|[Hne Hlg]]; cbn.
    + split; [|lia]. rewrite elem_of_union. intros [Hc|Hc]; [|apply L3 in Hc; lia]. destruct (Hclosing _ Hc) as (lg & Hlg & Heq). destruct (L2 _ _ Hlg) as [_ H]. lia.
    + destruct (L2 _ _ Hlg) as [Hnc Hlt]. split; [|lia]. rewrite elem_of_union. intros [Hc|Hc]; [|done]. destruct (Hclosing _ Hc) as (lg' & Hlg' & Heq).
      destruct Hne. by eapply L4.
  - intros c. rewrite elem_of_union. intros [Hc|Hc]; [|apply L3 in Hc; lia]. destruct (Hclosing _ Hc) as (lg & Hlg & ->). destruct (L2 _ _ Hlg) as [_ H]. lia.
  - intros id1 id2 lg1 lg2. rewrite !lookup_insert_Some. intros [[<- <-]|[Hn1 H1]] [[<- <-]|[Hn2 H2]] Heq; cbn in Heq; [done| | |by eapply L4].
    + destruct (L2 _ _ H2) as [_ H]. lia.
    + destruct (L2 _ _ H1) as [_ H]. lia.
  - intros id' lg. rewrite lookup_insert_Some. intros [[<- <-]|[Hne Hlg]]; [exact Hg|by eapply L5].
  - intros id' g Hn. by apply Hused.
  - intros id' g. destruct (decide (id' = id)) as [-> |Hne]; [apply Hpre|]. unfold past, w'. cbn. by rewrite Hother by done.
  - set_solver.
  - intros id' lg Hlg. destruct (decide (id' = id)) as [-> |Hne]; [left; apply elem_of_union; left; by apply Hold|right; by rewrite lookup_insert_ne].
Qed.

Lemma logOk_weaken used g w : logOk used w → logOk (used ++ [g]) w.
Proof. intros [L1 L2 L3 L4 L5 L6]. split; try done; intros; [apply elem_of_app; left; by eapply L5|]. apply L6. rewrite elem_of_app in *. naive_solver. Qed.

Lemma ensure_ok used w id fresh :
  logOk used w → fresh ∉ used →
  let e := ensureLocked (wLog w) id fresh in let w' := mkWorld e.1 (wReader w) (wPast w) in
  logOk (used ++ [fresh]) w' ∧ grows w w' ∧ elLogs e.1 !! id = Some e.2.
Proof.
  intros Hok Hf. unfold ensureLocked. destruct (elLogs (wLog w) !! id) as [lg|] eqn:El; cbn.
  - split_and!; [|by apply grows_refl|done]. apply (logOk_weaken _ fresh) in Hok. by destruct Hok.
  - destruct (putLog_ok (used ++ [fresh]) w id fresh [] ∅ (wPast w)) as [H1 H2].
    + by apply logOk_weaken.
    + apply elem_of_app. right. by left.
    + intros lg Hlg. congruence.
    + intros c Hc. set_solver.
    + done.
    + by rewrite (lo_used _ _ Hok) by done.
    + intros id' g Hg. apply (lo_used _ _ Hok). rewrite elem_of_app in Hg. naive_solver.
    + intros g. done.
    + split_and!; [exact H1|exact H2|by rewrite lookup_insert_eq].
Qed.

Lemma grows_trans w1 w2 w3 : grows w1 w2 → grows w2 w3 → grows w1 w3.
Proof.
  intros [P1 C1 G1] [P2 C2 G2]. split; [intros id g; by transitivity (past w2 id g)|set_solver|].
  intros id lg Hlg. destruct (G1 id lg Hlg) as [Hc|Hlg']; [left; by apply C2|by apply G2].
Qed.

Lemma append_ok used w id rec fresh :
  logOk used w → fresh ∉ used → let w' := act w (AAppend id rec fresh) in logOk (used ++ [fresh]) w' ∧ grows w w'.
Proof.
  intros Hok Hf w'. unfold w', act, appendRecord. destruct (ensure_ok used w id fresh Hok Hf) as (H1 & H2 & H3). cbv zeta in *.
  destruct (ensureLocked (wLog w) id fresh) as [l lg] eqn:Ee. cbn [fst snd] in *. set (w1 := mkWorld l (wReader w) (wPast w)) in *.
  destruct (putLog_ok (used ++ [fresh]) w1 id (lgGeneration lg) (lgRecords lg ++ [rec]) {[lgChanged lg]}
    (<[(id, lgGeneration lg) := default [] (wPast w !! (id, lgGeneration lg)) ++ [rec]]> (wPast w))) as [H4 H5].
  - done.
  - by apply (lo_gen _ _ H1 id).
  - intros lg' Hlg'. cbn in Hlg'. rewrite H3 in Hlg'. simplify_eq. by apply elem_of_singleton.
  - intros c ->%elem_of_singleton. by exists lg.
  - intros id' g Hne. rewrite lookup_insert_ne by congruence. done.
  - rewrite lookup_insert_eq. cbn. f_equal. apply (lo_past _ _ H1 id lg H3).
  - intros id' g Hg. rewrite lookup_insert_ne; [by apply (lo_used _ _ H1)|]. intros [= <- <-]. apply Hg. by apply (lo_gen _ _ H1 id).
  - intros g. destruct (decide (g = lgGeneration lg)) as [-> |Hg].
    + rewrite lookup_insert_eq. by exists [rec].
    + by rewrite lookup_insert_ne by congruence.
  - split; [exact H4|]. by eapply grows_trans.
Qed.

Lemma reset_ok used w id fresh : logOk used w → fresh ∉ used → let w' := act w (AReset id fresh) in logOk (used ++ [fresh]) w' ∧ grows w w'.
Proof.
  intros Hok Hf w'. unfold w', act, Reset. apply putLog_ok.
  - by apply logOk_weaken.
  - apply elem_of_app. right. by left.
  - intros lg ->. by apply elem_of_singleton.
  - intros c. destruct (elLogs (wLog w) !! id) as [lg|]; [|set_solver]. intros ->%elem_of_singleton. by exists lg.
  - done.
  - by rewrite (lo_used _ _ Hok) by done.
  - intros id' g Hg. apply (lo_used _ _ Hok). rewrite elem_of_app in Hg. naive_solver.
  - done.
Qed.

(** ** The reader *)

(** The position a cursor stands for. *)
Definition positioned (after id gen : gostr) (start : nat) : Prop :=
  (DecodeCursor after id gen = inl [] ∧ start = 0) ∨
  (∃ pos, DecodeCursor after id gen = inl pos ∧ pos ≠ [] ∧ Atoi pos = Some (Z.of_nat start)).

(** The channel a reader holds is closed, or the log is still the one it read the batch from. *)
Definition captured w (next : nat) (batch : list (LogEntry Event)) (wait : nat) : Prop :=
  let r := wReader w in
  (∃ rest, drop next (past w (rdID r) (rdGen r)) = batch ++ rest) ∧
  (wait ∈ elClosed (wLog w) ∨
   ∃ lg, elLogs (wLog w) !! rdID r = Some lg ∧ lgGeneration lg = rdGen r ∧ lgChanged lg = wait ∧ drop next (lgRecords lg) = batch).

Definition returned (p : readPhase Event) : bool := match p with RDone _ => true | _ => false end.

Record readOk (start : nat) w : Prop := {
  ro_out : lrRecord <$> rdOut (wReader w) = take (length (rdOut (wReader w))) (drop start (past w (rdID (wReader w)) (rdGen (wReader w))));
  ro_next : rdNext (wReader w) = start + length (rdOut (wReader w));
  ro_cursor : ∀ i x, rdOut (wReader w) !! i = Some x → lrCursor x = EncodeCursor (rdID (wReader w)) (rdGen (wReader w)) (Itoa (start + S i));
  ro_limit : (0 < rdLimit (wReader w) → Z.of_nat (length (rdOut (wReader w))) <= rdLimit (wReader w))%Z;
  ro_count : returned (rdPhase (wReader w)) = false → rdYielded (wReader w) = Z.of_nat (length (rdOut (wReader w))) ∧
    (0 < rdLimit (wReader w) → rdYielded (wReader w) < rdLimit (wReader w))%Z;
  ro_phase : match rdPhase (wReader w) with
             | RStart _ => False
             | RBatch batch wait => captured w (rdNext (wReader w)) batch wait
             | RWait wait => captured w (rdNext (wReader w)) [] wait
             | RSlice | RDone _ => True
             end
}.

Definition readerOk (after : gostr) w : Prop :=
  match rdPhase (wReader w) with
  | RStart a => a = after ∧ rdOut (wReader w) = [] ∧ rdYielded (wReader w) = 0%Z
  | p => (∃ e, p = RDone (Some e) ∧ rdOut (wReader w) = []) ∨ ∃ start, positioned after (rdID (wReader w)) (rdGen (wReader w)) start ∧ readOk start w
  end.

Lemma take_drop_grown {A} n start (p p' l : list A) : p `prefix_of` p' → l = take n (drop start p) → length l = n → l = take n (drop start p').
Proof.
  intros [q ->] Hl Hn. assert (Hlen : n ≤ length (drop start p)) by (rewrite <-Hn, Hl, length_take; lia). destruct (decide (start ≤ length p)) as [Hs|Hs].
  - rewrite drop_app_le by done. by rewrite take_app_le.
  - rewrite length_drop in Hlen. assert (n = 0) as -> by lia. by rewrite take_0 in *.
Qed.

Lemma drop_grown {A} n (p p' batch : list A) : p `prefix_of` p' → (∃ rest, drop n p = batch ++ rest) → ∃ rest, drop n p' = batch ++ rest.
Proof.
  intros [q ->] [rest Hr]. destruct (decide (n ≤ length p)) as [Hn|Hn].
  - rewrite drop_app_le by done. exists (rest ++ q). by rewrite Hr, app_assoc.
  - rewrite (drop_ge p) in Hr by lia. destruct batch; [|done]. by eexists.
Qed.

Lemma captured_grown w w' next batch wait : grows w w' → wReader w' = wReader w → captured w next batch wait → captured w' next batch wait.
Proof.
  intros [P C G] Hr [H1 H2]. unfold captured in *. cbv zeta in *. rewrite Hr. split; [by eapply drop_grown; [apply P|]|]. destruct H2 as [Hc|(lg & Hlg & Hg & <- & Hb)]; [left; by apply C|].
  destruct (G _ _ Hlg) as [Hc|Hlg']; [by left|right; by exists lg].
Qed.

Lemma readOk_grown start w w' : grows w w' → wReader w' = wReader w → readOk start w → readOk start w'.
Proof.
  intros Hg Hr [R1 R2 R3 R4 R5 R6]. split; rewrite Hr; try done.
  - eapply take_drop_grown; [apply Hg|exact R1|by rewrite length_fmap].
  - revert R6. destruct (rdPhase (wReader w)); try done; intros R6; by eapply captured_grown.
Qed.

Lemma readerOk_grown after w w' : grows w w' → wReader w' = wReader w → readerOk after w → readerOk after w'.
Proof.
  intros Hg Hr. unfold readerOk. rewrite Hr. destruct (rdPhase (wReader w)); try done;
    (intros [?|(start & Hp & Hok)]; [by left|right; exists start; split; [done|by eapply readOk_grown]]).
Qed.

Lemma logOk_reader used l r r' p : logOk used (mkWorld l r p) → logOk used (mkWorld l r' p).
Proof. by intros []. Qed.

(** The records that were yielded, with a reader in another phase. *)
Lemma readOk_phase start l r live p ph :
  readOk start (mkWorld l r p) → returned (rdPhase r) = false →
  (match ph with
   | RStart _ => False
   | RBatch batch wait => captured (mkWorld l r p) (rdNext r) batch wait
   | RWait wait => captured (mkWorld l r p) (rdNext r) [] wait
   | RSlice | RDone _ => True
   end) →
  readOk start (mkWorld l (mkReader (rdID r) (rdLimit r) (rdFollow r) ph (rdNext r) (rdGen r) (rdYielded r) live (rdOut r)) p).
Proof. intros [R1 R2 R3 R4 R5 R6] Hn Hph. by split; cbn in *; auto. Qed.

Lemma readOk_yield start l r p rec rest wait cont :
  readOk start (mkWorld l r p) → rdPhase r = RBatch (rec :: rest) wait → readOk start (mkWorld l (yieldRecord r rec rest wait cont) p).
Proof.
  intros [R1 R2 R3 R4 R5 R6] Hph. cbn in *. rewrite Hph in R5, R6. destruct (R5 eq_refl) as [Hy Hlt]. destruct R6 as [[more Hm] Hc]. cbn in Hm, Hc.
  assert (Hout : lrRecord <$> rdOut r ++ [mkLogRecord rec (EncodeCursor (rdID r) (rdGen r) (Itoa (S (rdNext r)))) (rdLive r)] =
    take (S (length (rdOut r))) (drop start (past (mkWorld l r p) (rdID r) (rdGen r)))).
  { rewrite fmap_app, R1. cbn [fmap list_fmap lrRecord]. symmetry. apply take_S_r. rewrite lookup_drop, <-R2.
    rewrite <-(Nat.add_0_r (rdNext r)), <-lookup_drop, Hm. done. }
  assert (Hcur : ∀ i x, (rdOut r ++ [mkLogRecord rec (EncodeCursor (rdID r) (rdGen r) (Itoa (S (rdNext r)))) (rdLive r)]) !! i = Some x →
    lrCursor x = EncodeCursor (rdID r) (rdGen r) (Itoa (start + S i))).
  { intros i x [Hx|[Hge Hx]]%lookup_app_Some; [by apply R3|]. apply list_lookup_singleton_Some in Hx as [Hi <-]. cbn. do 2 f_equal. lia. }
  assert (Hlen : length (rdOut r ++ [mkLogRecord rec (EncodeCursor (rdID r) (rdGen r) (Itoa (S (rdNext r)))) (rdLive r)]) = S (length (rdOut r)))
    by (rewrite length_app; cbn; lia).
  unfold yieldRecord. cbv zeta. destruct cont; cbn [negb]; (split; cbn [wReader rdOut rdNext rdGen rdID rdLimit rdPhase rdYielded returned wLog]; rewrite ?Hlen; try done; try lia).
  - destruct ((0 <? rdLimit r) && (rdLimit r <=? rdYielded r + 1))%Z eqn:El; [done|]. intros _. split; [lia|]. intros Hl.
    apply andb_false_iff in El as [El|El]; [apply Z.ltb_ge in El; lia|apply Z.leb_gt in El; lia].
  - destruct ((0 <? rdLimit r) && (rdLimit r <=? rdYielded r + 1))%Z; [done|]. split.
    + exists more. change (drop (S (rdNext r)) (past (mkWorld l r p) (rdID r) (rdGen r)) = rest ++ more). replace (S (rdNext r)) with (rdNext r + 1) by lia.
      rewrite <-drop_drop, Hm. done.
    + destruct Hc as [Hc|(lg & Hlg & Hg & Hw & Hd)]; [by left|right]. exists lg. split_and!; [done|done|done|].
      change (drop (S (rdNext r)) (lgRecords lg) = rest). replace (S (rdNext r)) with (rdNext r + 1) by lia. by rewrite <-drop_drop, Hd.
Qed.

Lemma resolve_spec (l : EventLog Event) id after fresh start gen l' :
  resolve l id after fresh = (l', inl (start, gen)) → gen = lgGeneration (ensureLocked l id fresh).2 ∧ positioned after id gen start.
Proof.
  unfold resolve, positioned. destruct (ensureLocked l id fresh) as [l1 lg]. cbn [snd]. destruct (DecodeCursor after id (lgGeneration lg)) as [pos|e] eqn:Ed; [|by intros [=]].
  case_bool.
  - intros [= _ <- <-]. apply bool_decide_eq_true in E. subst pos. split; [done|]. by left.
  - apply bool_decide_eq_false in E. destruct (Atoi pos) as [idx|] eqn:Ea; [|by intros [=]]. destruct (Z.ltb_spec idx 0); [by intros [=]|].
    intros [= _ <- <-]. split; [done|]. right. exists pos. split_and!; [done|done|]. by rewrite Z2Nat.id by lia.
Qed.

Lemma resolve_log (l : EventLog Event) id after fresh : (resolve l id after fresh).1 = (ensureLocked l id fresh).1.
Proof. unfold resolve. by destruct (ensureLocked l id fresh). Qed.

Lemma step_ok used w fresh cont cancelled after :
  logOk used w → fresh ∉ used → readerOk after w → let w' := act w (AStep fresh cont cancelled) in logOk (used ++ [fresh]) w' ∧ readerOk after w'.
Proof.
  intros Hok Hf Hr w'. destruct w as [l r p]. unfold w', act. cbn [wLog wReader wPast]. unfold readerStep.
  destruct (ensure_ok used (mkWorld l r p) (rdID r) fresh Hok Hf) as (E1 & E2 & E3). cbv zeta in *. cbn [wLog wReader wPast] in *.
  unfold readerOk in Hr. cbn [wReader] in Hr. destruct (rdPhase r) as [a| |[|rec rest] wait|wait|err] eqn:Eph.
  - destruct Hr as (-> & Ho & Hy). destruct (resolve l (rdID r) after fresh) as [l1 res] eqn:Er. pose proof (resolve_log l (rdID r) after fresh) as Hl. rewrite Er in Hl. cbn in Hl. subst l1.
    destruct res as [[start gen]|e]; (split; [by eapply logOk_reader|]); unfold readerOk; cbn.
    + right. apply resolve_spec in Er as [_ Hp]. exists start. split; [done|]. split; cbn; rewrite ?Ho; cbn; rewrite ?take_0; try done; try lia.
    + left. by exists e.
  - destruct Hr as [(e & He & _)|(start & Hp & Hro)]; [done|]. unfold sliceFrom. destruct (ensureLocked l (rdID r) fresh) as [l1 lg] eqn:Ee. cbn [fst snd] in *.
    apply (readOk_grown start _ _ E2 eq_refl) in Hro. split; [by eapply logOk_reader|]. unfold readerOk. cbn [wReader setPhase rdPhase]. case_bool.
    + right. exists start. split; [done|]. apply readOk_phase; [done|by rewrite Eph|done].
    + apply negb_false_iff, bool_decide_eq_true in E. right. exists start. split; [done|]. apply readOk_phase; [done|by rewrite Eph|]. split; cbn [wReader wLog].
      * exists []. rewrite app_nil_r, <-E. f_equal. apply (lo_past _ _ E1 (rdID r) lg E3).
      * right. by exists lg.
  - destruct Hr as [(e & He & _)|(start & Hp & Hro)]; [done|]. split; [by apply logOk_weaken; eapply logOk_reader|]. pose proof (ro_phase _ _ Hro) as Hc. cbn in Hc. rewrite Eph in Hc.
    unfold readerOk. case_bool; cbn [wReader setPhase rdPhase]; right; exists start; (split; [done|]); apply readOk_phase; try done; by rewrite Eph.
  - destruct Hr as [(e & He & _)|(start & Hp & Hro)]; [done|]. split; [by apply logOk_weaken; eapply logOk_reader|].
    assert (Hy : readOk start (mkWorld l (yieldRecord r rec rest wait cont) p)) by (by apply readOk_yield). unfold readerOk. cbn [wReader].
    assert (Hpos : positioned after (rdID (yieldRecord r rec rest wait cont)) (rdGen (yieldRecord r rec rest wait cont)) start) by (unfold yieldRecord; by destruct cont).
    destruct (rdPhase (yieldRecord r rec rest wait cont)) eqn:Ey; try (right; by exists start). pose proof (ro_phase _ _ Hy) as Hx. cbn in Hx. by rewrite Ey in Hx.
  - destruct Hr as [(e & He & _)|(start & Hp & Hro)]; [done|]. split; [by apply logOk_weaken; eapply logOk_reader|]. unfold readerOk.
    destruct cancelled; [|case_bool]; cbn [wReader setPhase rdPhase].
    + right. exists start. split; [done|]. apply readOk_phase; [done|by rewrite Eph|done].
    + right. exists start. split; [done|]. apply readOk_phase; [done|by rewrite Eph|done].
    + rewrite Eph. right. by exists start.
  - split; [by apply logOk_weaken|]. unfold readerOk. cbn [wReader]. by rewrite Eph.
Qed.

Lemma run_ok r acts :
  NoDup (freshOf <$> acts) → rdPhase r = RStart (match rdPhase r with RStart a => a | _ => [] end) → rdOut r = [] → rdYielded r = 0%Z →
  let w := runLog r acts in logOk (freshOf <$> acts) w ∧ readerOk (match rdPhase r with RStart a => a | _ => [] end) w.
Proof.
  intros Hn Hp Ho Hy. cbv zeta. set (after := match rdPhase r with RStart a => a | _ => [] end) in *. clearbody after. revert Hn.
  induction acts as [|a acts IH] using rev_ind; intros Hn.
  - split; [split; cbn; try set_solver|unfold readerOk; cbn; by rewrite Hp].
  - rewrite fmap_app in Hn |- *. apply NoDup_app in Hn as (Hn & Hd & _). destruct (IH Hn) as [I1 I2]. unfold runLog in *. rewrite foldl_app. cbn [foldl].
    set (w := foldl act (mkWorld NewEventLog r ∅) acts) in *.
    assert (Hf : freshOf a ∉ freshOf <$> acts) by (intros Hin; apply (Hd _ Hin); cbn; by left).
    destruct a as [id rec g|id g|id g|g cont cancelled]; cbn [fmap list_fmap freshOf] in *.
    + destruct (append_ok _ w id rec g I1 Hf) as [H1 H2]. split; [done|]. by eapply readerOk_grown.
    + destruct (reset_ok _ w id g I1 Hf) as [H1 H2]. split; [done|]. by eapply readerOk_grown.
    + destruct (ensure_ok _ w id g I1 Hf) as (H1 & H2 & _). split; [done|]. by eapply readerOk_grown.
    + by apply step_ok.
Qed.

Lemma reader_fixed (r : Reader Event) acts : rdID (wReader (runLog r acts)) = rdID r ∧ rdLimit (wReader (runLog r acts)) = rdLimit r.
Proof.
  induction acts as [|a acts IH] using rev_ind; [done|]. unfold runLog in *. rewrite foldl_app. cbn [foldl]. revert IH. generalize (foldl act (mkWorld NewEventLog r ∅) acts).
  intros w IH. destruct a as [id rec g|id g|id g|g cont cancelled]; try done. cbn [act]. unfold readerStep, yieldRecord.
  repeat case_match; simplify_eq; cbn [wReader rdID rdLimit setPhase]; try done; repeat case_match; done.
Qed.

(** C20. Following a log misses nothing and repeats nothing.  However appends, gap markers,
    resets, other readers, the consumer and the context interleave with a reader, what it
    has yielded is a contiguous run of the records of one generation of the log, beginning
    at the position its cursor stands for; each record carries the cursor of its own
    position; a positive limit bounds the whole read; and no wake-up is lost: a reader
    parked on a channel that is still open has yielded every record of the log, which has
    not been reset. *)
Theorem event_follow_exact id after limit follow (acts : list (LogAction Event)) :
  NoDup (freshOf <$> acts) →
  let w := runLog (ReadAfter id after limit follow) acts in
  let r := wReader w in
  rdPhase r = RStart after ∨ ((∃ e, rdPhase r = RDone (Some e)) ∧ rdOut r = []) ∨
  ∃ start, positioned after id (rdGen r) start ∧
    lrRecord <$> rdOut r = take (length (rdOut r)) (drop start (past w id (rdGen r))) ∧
    (∀ i x, rdOut r !! i = Some x → lrCursor x = EncodeCursor id (rdGen r) (Itoa (start + S i))) ∧
    (0 < limit → Z.of_nat (length (rdOut r)) <= limit)%Z ∧
    (∀ wait, rdPhase r = RWait wait → wait ∉ elClosed (wLog w) →
      ∃ lg, elLogs (wLog w) !! id = Some lg ∧ lgGeneration lg = rdGen r ∧ lrRecord <$> rdOut r = drop start (lgRecords lg)).
Proof.
  intros Hn w r. destruct (run_ok (ReadAfter id after limit follow) acts Hn eq_refl eq_refl eq_refl) as [Hl Hr].
  destruct (reader_fixed (ReadAfter id after limit follow) acts) as [Hid Hlim]. fold w in Hl, Hr, Hid, Hlim. fold r in Hid, Hlim. cbn in Hid, Hlim.
  unfold readerOk in Hr. fold r in Hr. destruct (rdPhase r) as [a| | | |err] eqn:Eph; [left; destruct Hr as [-> _]; done| | | |].
  all: right; destruct Hr as [(e & He & Ho)|(start & Hp & [R1 R2 R3 R4 R5 R6])]; [left; split; [by exists e|done]|right].
  all: fold r in R1, R2, R3, R4, R5, R6; rewrite Hid, ?Hlim, Eph in *.
  all: exists start; split; [done|]; split; [done|]; split; [done|]; split; [done|]; intros wait' [= <-] Hopen.
  destruct R6 as [_ [?|(lg & Hlg & Hg & Hw & Hd)]]; [done|]. fold r in Hlg, Hg, Hd. rewrite Hid in Hlg. exists lg. split_and!; [done|done|].
  pose proof (lo_past _ _ Hl id lg Hlg) as Hpast. rewrite Hg in Hpast. rewrite R1, Hpast. apply take_ge. apply (f_equal length) in Hd. rewrite length_drop in *. cbn in Hd. lia.
Qed.

(** ** Resuming *)

Definition appendedTo (id : gostr) (acts : list (LogAction Event)) : list (LogEntry Event) :=
  omap (λ a, match a with AAppend id' rec _ => if decide (id' = id) then Some rec else None | _ => None end) acts.

Definition resets (id : gostr) (a : LogAction Event) : bool := match a with AReset id' _ => bool_decide (id' = id) | _ => false end.

Lemma ensure_other (l : EventLog Event) id id' g lg : elLogs l !! id = Some lg → elLogs (ensureLocked l id' g).1 !! id = Some lg.
Proof. intros H. unfold ensureLocked. destruct (elLogs l !! id') eqn:E; [done|]. cbn. rewrite lookup_insert_ne by congruence. done. Qed.

Lemma ensure_same (l : EventLog Event) id g lg : elLogs l !! id = Some lg → ensureLocked l id g = (l, lg).
Proof. intros H. unfold ensureLocked. by rewrite H. Qed.

Lemma step_log w g cont cancelled : wLog (act w (AStep g cont cancelled)) = wLog w ∨ wLog (act w (AStep g cont cancelled)) = (ensureLocked (wLog w) (rdID (wReader w)) g).1.
Proof.
  cbn [act]. unfold readerStep. destruct (rdPhase (wReader w)) as [a| |[|]| |]; try (by left).
  - right. pose proof (resolve_log (wLog w) (rdID (wReader w)) a g) as H. by destruct (resolve _ _ _ _) as [? [[]|]].
  - right. unfold sliceFrom. by destruct (ensureLocked (wLog w) (rdID (wReader w)) g).
Qed.

(** What an action does to the log of an id. *)
Lemma act_log_at w a id lg :
  elLogs (wLog w) !! id = Some lg →
  ∃ lg', elLogs (wLog (act w a)) !! id = Some lg' ∧
    if resets id a then lgGeneration lg' = freshOf a ∧ lgRecords lg' = []
    else lgGeneration lg' = lgGeneration lg ∧ lgRecords lg' = lgRecords lg ++ appendedTo id [a].
Proof.
  intros Hlg. destruct a as [id' rec g|id' g|id' g|g cont cancelled]; cbn [resets freshOf].
  - cbn [act wLog]. unfold appendRecord, appendedTo. cbn. destruct (decide (id' = id)) as [-> |Hne].
    + rewrite (ensure_same _ _ _ _ Hlg). cbn. rewrite lookup_insert_eq. by eexists.
    + pose proof (ensure_other (wLog w) id id' g lg Hlg) as He. destruct (ensureLocked (wLog w) id' g) as [l1 lg1]. cbn in *. rewrite lookup_insert_ne by done.
      exists lg. by rewrite app_nil_r.
  - cbn. case_bool_decide as Hc; [subst; rewrite lookup_insert_eq; by eexists|]. rewrite lookup_insert_ne by done. exists lg. by rewrite app_nil_r.
  - exists lg. cbn. rewrite app_nil_r. split; [by apply ensure_other|done].
  - exists lg. cbn [appendedTo omap list_omap]. rewrite app_nil_r. split; [|done]. destruct (step_log w g cont cancelled) as [-> | ->]; [done|by apply ensure_other].
Qed.

Lemma acts_log_at w acts id lg :
  elLogs (wLog w) !! id = Some lg → lgGeneration lg ∉ freshOf <$> acts →
  ∃ lg', elLogs (wLog (foldl act w acts)) !! id = Some lg' ∧
    if existsb (resets id) acts then lgGeneration lg' ≠ lgGeneration lg else lgGeneration lg' = lgGeneration lg ∧ lgRecords lg' = lgRecords lg ++ appendedTo id acts.
Proof.
  intros Hlg. induction acts as [|a acts IH] using rev_ind; intros Hn; [exists lg; cbn; by rewrite app_nil_r|].
  rewrite fmap_app, not_elem_of_app in Hn. destruct Hn as [Hn Ha]. cbn in Ha. rewrite list_elem_of_singleton in Ha. destruct (IH Hn) as (lg1 & H1 & H2).
  rewrite foldl_app. cbn [foldl]. destruct (act_log_at (foldl act w acts) a id lg1 H1) as (lg2 & H3 & H4). exists lg2. split; [done|].
  rewrite existsb_app. cbn [existsb]. rewrite orb_false_r. unfold appendedTo in *. rewrite omap_app.
  destruct (existsb (resets id) acts), (resets id a); cbn [orb]; destruct H4 as [H4 H5]; rewrite ?H4; try congruence.
  destruct H2 as [H2 H6]. split; [congruence|]. by rewrite H5, H6, app_assoc.
Qed.

(** The log after an append holds the record last, and the cursor is its position. *)
Lemma append_cursor used w id rec fresh :
  logOk used w → fresh ∉ used →
  let w' := act w (AAppend id rec fresh) in
  ∃ lg, elLogs (wLog w') !! id = Some lg ∧ lgRecords lg = recordsOf (wLog w) id ++ [rec] ∧ lgGeneration lg ∈ used ++ [fresh] ∧
    (appendRecord (wLog w) id rec fresh).2 = EncodeCursor id (lgGeneration lg) (Itoa (length (lgRecords lg))).
Proof.
  intros Hok Hf w'. destruct (append_ok used w id rec fresh Hok Hf) as [[_ _ _ _ Hg _] _]. fold w' in Hg. unfold w' in *. cbn [act wLog] in *. unfold appendRecord, recordsOf, ensureLocked in *.
  destruct (elLogs (wLog w) !! id) as [lg|] eqn:El; cbn in *; rewrite lookup_insert_eq; (eexists; split; [done|]; split; [done|]; split; [|done]; apply (Hg id); by rewrite lookup_insert_eq).
Qed.

(** C21. A cursor resumes exactly where it was handed out, or is refused.  After any later
    activity the cursor of an append stands for the records appended to that session since,
    all of them and nothing else; if the log was reset in between it has expired, and for
    another session it is malformed: it never addresses a different record. *)
Theorem cursor_resumes (r : Reader Event) acts id rec fresh acts' g :
  NoDup (freshOf <$> acts ++ AAppend id rec fresh :: acts') →
  rdPhase r = RStart [] → rdOut r = [] → rdYielded r = 0%Z →
  let w := runLog r acts in
  let c := (appendRecord (wLog w) id rec fresh).2 in
  let w' := runLog r (acts ++ AAppend id rec fresh :: acts') in
  let n := S (length (recordsOf (wLog w) id)) in
  (Z.of_nat n < 2 ^ 63)%Z →
  (if existsb (resets id) acts' then (resolve (wLog w') id c g).2 = inr ErrCursorExpired
   else (∃ gen, (resolve (wLog w') id c g).2 = inl (n, gen)) ∧ drop n (recordsOf (wLog w') id) = appendedTo id acts') ∧
  (∀ id', id' ≠ id → (resolve (wLog w') id' c g).2 = inr ErrCursorMalformed).
Proof.
  intros Hn Hp Ho Hy w c w' n Hb. rewrite fmap_app, NoDup_app in Hn. destruct Hn as (Hn1 & Hd & Hn2). rewrite fmap_cons, NoDup_cons in Hn2. destruct Hn2 as [Hf2 Hn2]. cbn [freshOf] in *.
  assert (Hf : fresh ∉ freshOf <$> acts) by (intros Hin; apply (Hd _ Hin); by left).
  destruct (run_ok r acts Hn1) as [Hok _]; [by rewrite Hp|done|done|]. fold w in Hok.
  destruct (append_cursor _ w id rec fresh Hok Hf) as (lg & Hlg & Hrs & Hgen & Hc). fold c in Hc.
  assert (Hw' : w' = foldl act (act w (AAppend id rec fresh)) acts') by (unfold w', w, runLog; by rewrite foldl_app).
  assert (Hlen : length (lgRecords lg) = n) by (unfold n; rewrite Hrs, length_app; cbn; lia).
  destruct (acts_log_at (act w (AAppend id rec fresh)) acts' id lg Hlg) as (lg' & Hlg' & Hcase).
  { intros Hin. apply elem_of_app in Hgen as [Hg|Hg%list_elem_of_singleton]; [apply (Hd _ Hg); by right|congruence]. }
  rewrite <-Hw' in Hlg'. split.
  - assert (Hres : (resolve (wLog w') id c g).2 = match DecodeCursor c id (lgGeneration lg') with inr e => inr e | inl pos =>
      if pos =s [] then inl (0, lgGeneration lg') else match Atoi pos with Some idx => if (idx <? 0)%Z then inr ErrCursorMalformed else inl (Z.to_nat idx, lgGeneration lg')
        | None => inr ErrCursorMalformed end end) by (unfold resolve; by rewrite (ensure_same _ _ _ _ Hlg')).
    rewrite Hres, Hc, Hlen, DecodeCursor_Encode. rewrite (bool_decide_true (id = id)) by done. cbn [negb].
    destruct (existsb (resets id) acts'); [by rewrite bool_decide_false by congruence|]. destruct Hcase as [Hg Hr]. rewrite bool_decide_true by congruence. cbn [negb].
    rewrite bool_decide_false by apply Itoa_nonempty. rewrite Atoi_Itoa by done. destruct (Z.ltb_spec (Z.of_nat n) 0); [lia|]. rewrite Nat2Z.id. split; [by eexists|].
    unfold recordsOf. rewrite Hlg', Hr, <-Hlen. apply drop_app_length.
  - intros id' Hne. unfold resolve. destruct (ensureLocked (wLog w') id' g) as [l1 lg1]. cbn. rewrite Hc, DecodeCursor_Encode. by rewrite bool_decide_false by congruence.
Qed.

(** The legacy reading is the append order without the gap markers: whatever else
    happens to a log that is not reset, [Read] returns the events appended to it, each once
    and in order. *)
Theorem read_append_order (r : Reader Event) acts id :
  NoDup (freshOf <$> acts) → rdPhase r = RStart [] → rdOut r = [] → rdYielded r = 0%Z → existsb (resets id) acts = false →
  Read (wLog (runLog r acts)) id = omap (λ a, match a with AAppend id' (LogRecordEvent ev) _ => if decide (id' = id) then Some ev else None | _ => None end) acts.
Proof.
  intros Hn Hp Ho Hy. assert (Hrec : existsb (resets id) acts = false → recordsOf (wLog (runLog r acts)) id = appendedTo id acts).
  { induction acts as [|a acts IH] using rev_ind; [done|]. rewrite existsb_app. cbn [existsb]. rewrite orb_false_r. intros [H1 H2]%orb_false_iff.
    rewrite fmap_app, NoDup_app in Hn. destruct Hn as (Hn & _). specialize (IH Hn H1). unfold runLog in *. rewrite foldl_app. cbn [foldl]. revert IH.
    unfold appendedTo. rewrite omap_app. intros IH. generalize dependent (foldl act (mkWorld NewEventLog r ∅) acts). intros w IH. rewrite <-IH.
    destruct (elLogs (wLog w) !! id) as [lg|] eqn:El.
    - destruct (act_log_at w a id lg El) as (lg' & Hlg' & Hcase). rewrite H2 in Hcase. destruct Hcase as [_ Hr]. unfold recordsOf. by rewrite Hlg', El, Hr.
    - unfold recordsOf. rewrite El. assert (He : ∀ id' g, default [] (lgRecords <$> elLogs (ensureLocked (wLog w) id' g).1 !! id) = []).
      { intros id' g. unfold ensureLocked. destruct (elLogs (wLog w) !! id'); cbn; [by rewrite El|]. destruct (decide (id' = id)) as [-> |];
          [by rewrite lookup_insert_eq|by rewrite lookup_insert_ne, El]. }
      assert (Hm : ∀ l : EventLog Event, match elLogs l !! id with Some lg => lgRecords lg | None => [] end = default [] (lgRecords <$> elLogs l !! id))
        by (intros l; by destruct (elLogs l !! id)).
      destruct a as [id' rec g|id' g|id' g|g cont cancelled].
      + cbn [act wLog]. unfold appendRecord. cbn [omap list_omap]. destruct (decide (id' = id)) as [-> |Hne].
        * unfold ensureLocked. rewrite El. cbn. by rewrite lookup_insert_eq.
        * rewrite Hm. specialize (He id' g). destruct (ensureLocked (wLog w) id' g) as [l1 lg1]. cbn in *. by rewrite lookup_insert_ne.
      + cbn in H2. apply bool_decide_eq_false in H2. cbn. by rewrite lookup_insert_ne, El.
      + rewrite Hm. apply He.
      + rewrite Hm. destruct (step_log w g cont cancelled) as [-> | ->]; [by rewrite El|apply He]. }
  intros Hres. unfold Read. rewrite Hrec by done. unfold appendedTo. clear. induction acts as [|a acts IH]; [done|]. destruct a as [id' [ev|reason] g|id' g|id' g|g cont cancelled]; cbn; try done.
  - destruct (decide (id' = id)); cbn; [by f_equal|done].
  - destruct (decide (id' = id)); done.
Qed.
End following.

(** ** Samples *)

#[local] Instance cursorEnvelope_eq_dec : EqDecision cursorEnvelope.
Proof. solve_decision. Defined.
#[local] Instance cursorEnvelope_countable : Countable cursorEnvelope.
Proof.
  apply (inj_countable' (λ e, (envV e, envS e, envG e, envP e)) (λ x, let '(v, s, g, p) := x in mkEnvelope v s g p)). by intros [].
Defined.

(** Some codec: the envelope as one number. *)
Definition numberCodec : CursorCodec.
Proof.
  refine {| encodeEnvelope := λ e, [Npos (encode e)]; decodeEnvelope := λ s, match s with [Npos p] => decode p | _ => None end |}.
  - intros e. apply decode_encode.
  - done.
Defined.

Definition sampleActs : list (LogAction nat) :=
  [AAppend #"s1" (LogRecordEvent 1) #"g1"; AStep #"g2" true false; AAppend #"s1" (LogRecordGap #"full") #"g3"; AStep #"g4" true false; AStep #"g5" true false;
   AStep #"g6" true false; AStep #"g7" true false; AAppend #"s2" (LogRecordEvent 7) #"g8"].

Definition sampleWorld : World nat := runLog (codec := numberCodec) (ReadAfter #"s1" [] 0 true) sampleActs.

Lemma sampleWorld_parked :
  rdPhase (wReader sampleWorld) = RWait 2 ∧ recordsOf (wLog sampleWorld) #"s1" = [LogRecordEvent 1; LogRecordGap #"full"] ∧ 2 ∉ elClosed (wLog sampleWorld).
Proof. split_and!; [by vm_compute|by vm_compute|apply (bool_decide_unpack _); by vm_compute]. Qed.

Lemma sampleActs_fresh : NoDup (freshOf <$> sampleActs).
Proof. apply (bool_decide_unpack _). by vm_compute. Qed.

Lemma event_follow_exact_witness :
  ∃ w : World nat, rdPhase (wReader w) = RWait 2 ∧ lrRecord <$> rdOut (wReader w) = [LogRecordEvent 1; LogRecordGap #"full"].
Proof.
  exists sampleWorld. destruct sampleWorld_parked as (Hp & Hr & Ho).
  pose proof (event_follow_exact (codec := numberCodec) #"s1" [] 0 true sampleActs sampleActs_fresh) as H. cbv zeta in H. fold sampleWorld in H.
  generalize dependent sampleWorld. intros w Hp Hr Ho H. split; [exact Hp|].
  destruct H as [H|[[[e H] _]|(start & Hpos & _ & _ & _ & Hw)]]; [congruence|congruence|].
  destruct Hpos as [[_ ->]|(pos & Hd & Hne & _)]; [|unfold DecodeCursor in Hd; rewrite bool_decide_true in Hd by done; congruence].
  destruct (Hw 2 Hp Ho) as (lg & Hlg & _ & ->). unfold recordsOf in Hr. by rewrite Hlg in Hr.
Defined.

Lemma cursor_resumes_witness :
  let c := (appendRecord (codec := numberCodec) NewEventLog #"s1" (LogRecordEvent 1) #"g1").2 in
  (resolve (codec := numberCodec) (wLog (runLog (codec := numberCodec) (ReadAfter #"s1" [] 0 true) sampleActs)) #"s2" c #"g9").2 = inr ErrCursorMalformed.
Proof.
  apply (cursor_resumes (codec := numberCodec) (ReadAfter #"s1" [] 0 true) [] #"s1" (LogRecordEvent 1) #"g1" (tail sampleActs) #"g9");
    [apply sampleActs_fresh|done|done|done|by vm_compute|done].
Defined.

Lemma read_append_order_witness : Read (wLog (runLog (codec := numberCodec) (ReadAfter #"s1" [] 0 true) sampleActs)) #"s1" = [1].
Proof. rewrite (read_append_order (codec := numberCodec)); [done|apply sampleActs_fresh|done|done|done|by vm_compute]. Defined.
