(* ===== verification/Skills.v ===== *)
(** * Learned skills

    The skill lifecycle of [engine/learning/skill.go] and its in-memory repository
    [engine/adapter/memskill/memskill.go]: bundles, provenance and evaluations with their
    validators, drafts and their merging, evaluation, staging, activation, rejection,
    archiving and rollback under compare-and-swap.

    The SHA-256 digests of JSON values are parameters.  Every method holds the mutex for
    its whole body, so a history is a sequence of calls; the clock is an argument, and a
    cancelled context, which returns before anything happens, is left out. *)

From stdpp Require Import sorting pretty.
From S2P Require Import Prelude Fence Conversation Labels.

(** ** Data *)

Definition MaxSkillsPerPartition : nat := 1024.
Definition MaxSkillVersionsPerSkill : nat := 32.
Definition MaxSkillReceipts : nat := 32.
Definition MaxSkillEvaluations : nat := 16.
Definition MaxSkillProposals : nat := 16.
Definition MaxSkillEvidence : nat := 32.
Definition MaxSkillSignals : nat := 16.
Definition MaxSkillFixtures : nat := 32.
Definition MaxSkillDescriptionBytes : nat := 1024.
Definition MaxSkillBodyBytes : N := 32768.
Definition MaxSkillEvaluationTextBytes : nat := 4096.
Definition MaxSkillOwnerBytes : nat := 256.
Definition DefaultSkillPageSize : Z := 50.
Definition MaxSkillPageSize : Z := 200.
Definition MaxCandidateEvidence : nat := 16.

Inductive SkillState := SkillDraft | SkillEvaluated | SkillStaged | SkillActive | SkillArchived | SkillRejected.
#[global] Instance SkillState_eq_dec : EqDecision SkillState.
Proof. solve_decision. Defined.

(** A text outside the closed vocabulary is kept. *)
Inductive EvaluationVerdict := EvaluationPass | EvaluationFail | EvaluationAbstain | EvaluationError | VerdictOther (s : gostr).
#[global] Instance EvaluationVerdict_eq_dec : EqDecision EvaluationVerdict.
Proof. solve_decision. Defined.
Definition VerdictValid (v : EvaluationVerdict) : bool := match v with VerdictOther _ => false | _ => true end.

Inductive ValidationDisposition := DispositionNone | ValidationAccept | ValidationExactDuplicate | ValidationSimilarStageHint | DispositionOther (s : gostr).
#[global] Instance ValidationDisposition_eq_dec : EqDecision ValidationDisposition.
Proof. solve_decision. Defined.
Definition DispositionValid (d : ValidationDisposition) : bool :=
  match d with ValidationAccept | ValidationExactDuplicate | ValidationSimilarStageHint => true | _ => false end.

Inductive SkillProvenanceOrigin := OriginNone | SkillProvenanceLegacyModel | OriginOther (s : gostr).
#[global] Instance SkillProvenanceOrigin_eq_dec : EqDecision SkillProvenanceOrigin.
Proof. solve_decision. Defined.

Inductive SignalKind :=
  | SignalSubstantialSuccess | SignalRepeatedCorrection | SignalFailureRecovery | SignalRepeatedToolSequence | SignalExplicitRemember
  | SignalExplicitLearnProcedure | SignalContradiction | SignalHostRequested | SignalOther (s : gostr).
#[global] Instance SignalKind_eq_dec : EqDecision SignalKind.
Proof. solve_decision. Defined.
Definition SignalKindValid (k : SignalKind) : bool := match k with SignalOther _ => false | _ => true end.

Inductive EvidenceLocator := EvidenceMessage | EvidenceEvent | LocatorOther (s : gostr).
#[global] Instance EvidenceLocator_eq_dec : EqDecision EvidenceLocator.
Proof. solve_decision. Defined.
Definition locatorText (l : EvidenceLocator) : gostr := match l with EvidenceMessage => #"message" | EvidenceEvent => #"event" | LocatorOther s => s end.

Record EvidenceRef := mkEvidence {
  eProtocol : gostr; eSessionID : gostr; eLocator : EvidenceLocator; eOrdinal : Z; eManifestIndex : Z; eOriginalMessage : option Z;
  eEventSeq : option Z; eToolCallID : gostr; eDigest : gostr; eAggregateDigest : gostr
}.
#[global] Instance EvidenceRef_eq_dec : EqDecision EvidenceRef.
Proof. solve_decision. Defined.

Record Signal := mkSignal { sgKind : SignalKind; sgEvidence : list EvidenceRef }.
#[global] Instance Signal_eq_dec : EqDecision Signal.
Proof. solve_decision. Defined.

Record SkillPartition := mkPartition { spPrincipal : gostr; spProject : gostr }.
#[global] Instance SkillPartition_eq_dec : EqDecision SkillPartition.
Proof. solve_decision. Defined.

Record SkillBundle := mkBundle { sbName : gostr; sbDescription : gostr; sbBody : gostr }.
#[global] Instance SkillBundle_eq_dec : EqDecision SkillBundle.
Proof. solve_decision. Defined.

Record SkillProvenance := mkProvenance {
  pvOrigin : SkillProvenanceOrigin; pvDisposition : ValidationDisposition; pvProposalIDs : list gostr; pvEvidenceRefs : list EvidenceRef; pvSignals : list Signal
}.
#[global] Instance SkillProvenance_eq_dec : EqDecision SkillProvenance.
Proof. solve_decision. Defined.

Record SkillEvaluation := mkEvaluation {
  evVerdict : EvaluationVerdict; evFixtureIDs : list gostr; evBaseline : gostr; evTreatment : gostr; evReason : gostr; evAt : option Z
}.

(** The operations that leave a receipt. *)
Inductive ReceiptOperation :=
  | OpRecordEvaluation | OpStage | OpActivate | OpActivateValidated | OpSuperseded | OpReject | OpArchive | OpRollbackFrom | OpRollbackTo.
#[global] Instance ReceiptOperation_eq_dec : EqDecision ReceiptOperation.
Proof. solve_decision. Defined.

Record SkillReceipt := mkReceipt { rcOperation : ReceiptOperation; rcFrom : SkillState; rcTo : SkillState; rcVersion : gostr; rcAt : Z }.

Record SkillVersion := mkVersion {
  vID : gostr; vVersion : gostr; vRevision : gostr; vState : SkillState; vOwnerAgent : gostr; vPartition : SkillPartition; vBundle : SkillBundle;
  vProvenance : SkillProvenance; vDisposition : ValidationDisposition; vEvaluations : list SkillEvaluation; vReceipts : list SkillReceipt;
  vSupersedes : gostr; vCreatedAt : Z; vUpdatedAt : Z
}.

Record SkillList := mkSkillList { slAfter : gostr; slLimit : Z; slName : gostr; slState : option (SkillState + gostr); slOwnerAgent : gostr }.
Record SkillPage := mkSkillPage { pgVersions : list SkillVersion; pgNextSkill : gostr; pgGeneration : Z }.

Inductive SkillError :=
  | ErrInvalidSkill | ErrSkillNotFound | ErrSkillConflict | ErrSkillTransition | ErrSkillLimit | ErrSkillOwnerMismatch | PanicIndex.

Record skillRecord := mkSkillRecord { srOwner : gostr; srName : gostr; srVersions : list SkillVersion }.

Record Store := mkSkillStore { records : gmap gostr (gmap gostr skillRecord); generations : gmap gostr Z; next : Z }.

Definition New : Store := mkSkillStore ∅ ∅ 0.

(** ** Validation *)

Definition hasUnsafeControls (s : gostr) : bool :=
  existsb (λ r, isCf r || (IsControl r && negb (r =r 10) && negb (r =r 9)) || (r =r 8232) || (r =r 8233))%N s.

Definition nameRune (r : rune) : bool :=
  (r =r chr "-") || (r =r chr "_") || ((chr "a" <=? r) && (r <=? chr "z"))%N || ((chr "0" <=? r) && (r <=? chr "9"))%N.

Definition ValidLearnedSkillName (name : gostr) : bool :=
  match name with
  | [] => false
  | first :: _ =>
      negb (64 <? byteLen name)
      && (((chr "a" <=? first) && (first <=? chr "z"))%N || ((chr "0" <=? first) && (first <=? chr "9"))%N)
      && forallb nameRune name
  end.

Definition ValidateSkillPartition (p : SkillPartition) (owner : gostr) : bool :=
  negb ((TrimSpace (spPrincipal p) =s []) || (1024 <? byteLen (spPrincipal p)) || (4096 <? byteLen (spProject p))
    || (TrimSpace owner =s []) || (MaxSkillOwnerBytes <? byteLen owner)).

Definition ValidateSkillBundle (b : SkillBundle) : bool :=
  negb (negb (ValidLearnedSkillName (sbName b)) || (TrimSpace (sbDescription b) =s []) || (TrimSpace (sbBody b) =s [])
    || (MaxSkillDescriptionBytes <? byteLen (sbDescription b)) || (MaxSkillBodyBytes <? N.of_nat (byteLen (sbBody b)))%N
    || existsb (λ r, (r =r 13) || (r =r 10) || (r =r 9)) (sbDescription b)
    || hasUnsafeControls (sbDescription b) || hasUnsafeControls (sbBody b)).

Definition validProposalDigest (s : gostr) : bool :=
  if (byteLen s <? 16) || (128 <? byteLen s) then false else hexDecodes s.

(** [strconv.FormatInt] *)
Definition formatInt (n : Z) : gostr := lit (pretty n).

Definition evidenceIdentity (e : EvidenceRef) : gostr :=
  Join [eSessionID e; locatorText (eLocator e); formatInt (eOrdinal e); match eEventSeq e with Some n => formatInt n | None => [] end; eToolCallID e; eDigest e] [nul].

Definition validSkillEvidence (e : EvidenceRef) : bool :=
  if (eSessionID e =s []) || (256 <? byteLen (eSessionID e)) || (eOrdinal e <? 0)%Z || negb (validProposalDigest (eDigest e))
     || (256 <? byteLen (eToolCallID e)) || hasUnsafeControls (eSessionID e) || hasUnsafeControls (eToolCallID e) then false
  else match eLocator e with
       | EvidenceMessage => match eEventSeq e with None => true | Some _ => false end
       | EvidenceEvent => match eEventSeq e with Some n => (0 <=? n)%Z | None => false end
       | LocatorOther _ => false
       end.

(** The loop over a collection with the keys seen so far. *)
Fixpoint allFresh {A} (ok : A → bool) (key : A → gostr) (seen : list gostr) (l : list A) : bool :=
  match l with [] => true | x :: l' => if negb (ok x) || (key x ∈? seen) then false else allFresh ok key (key x :: seen) l' end.

Definition ValidateSkillProvenance (p : SkillProvenance) : bool :=
  let links := length (pvProposalIDs p) + length (pvEvidenceRefs p) + length (pvSignals p) in
  if (MaxSkillProposals <? length (pvProposalIDs p)) || (MaxSkillEvidence <? length (pvEvidenceRefs p)) || (MaxSkillSignals <? length (pvSignals p))
     || (negb (pvDisposition p =s DispositionNone) && negb (DispositionValid (pvDisposition p)))
     || ((links =? 0) && negb (pvOrigin p =s SkillProvenanceLegacyModel)) || (negb (links =? 0) && (pvOrigin p =s SkillProvenanceLegacyModel))
     || (negb (pvOrigin p =s OriginNone) && negb (pvOrigin p =s SkillProvenanceLegacyModel)) then false
  else allFresh (λ id, negb ((id =s []) || (256 <? byteLen id) || hasUnsafeControls id)) id [] (pvProposalIDs p)
    && allFresh validSkillEvidence evidenceIdentity [] (pvEvidenceRefs p)
    && forallb (λ s, SignalKindValid (sgKind s) && negb (MaxCandidateEvidence <? length (sgEvidence s)) && forallb validSkillEvidence (sgEvidence s)) (pvSignals p).

Definition ValidateSkillEvaluation (e : SkillEvaluation) : bool :=
  if negb (VerdictValid (evVerdict e)) || (((evVerdict e =s EvaluationPass) || (evVerdict e =s EvaluationFail)) && (length (evFixtureIDs e) =? 0))
     || (MaxSkillFixtures <? length (evFixtureIDs e)) || (MaxSkillEvaluationTextBytes <? byteLen (evBaseline e))
     || (MaxSkillEvaluationTextBytes <? byteLen (evTreatment e)) || (MaxSkillEvaluationTextBytes <? byteLen (evReason e)) then false
  else allFresh (λ id, negb ((TrimSpace id =s []) || (256 <? byteLen id) || hasUnsafeControls id)) id [] (evFixtureIDs e).

(** ** Provenance *)

(** Appending what is not there yet. *)
Definition mergeNew {A} `{EqDecision A} (dst src : list A) : list A := foldl (λ out x, if bool_decide (x ∈ out) then out else out ++ [x]) dst src.

Definition mergeStrings (dst src : list gostr) (limit : nat) : option (list gostr) :=
  let out := mergeNew dst src in if limit <? length out then None else Some out.

Definition mergeProvenance (dst src : SkillProvenance) : SkillProvenance + SkillError :=
  if negb (pvOrigin dst =s pvOrigin src) && negb (pvOrigin dst =s OriginNone) && negb (pvOrigin src =s OriginNone) then inr ErrInvalidSkill
  else
    let origin := if pvOrigin dst =s OriginNone then pvOrigin src else pvOrigin dst in
    let disposition :=
      if (pvDisposition dst =s ValidationSimilarStageHint) || (pvDisposition src =s ValidationSimilarStageHint) then ValidationSimilarStageHint
      else if pvDisposition dst =s DispositionNone then pvDisposition src else pvDisposition dst in
    match mergeStrings (pvProposalIDs dst) (pvProposalIDs src) MaxSkillProposals with
    | None => inr ErrSkillLimit
    | Some proposals =>
        let evidence := mergeNew (pvEvidenceRefs dst) (pvEvidenceRefs src) in
        if MaxSkillEvidence <? length evidence then inr ErrSkillLimit
        else let signals := mergeNew (pvSignals dst) (pvSignals src) in
             if MaxSkillSignals <? length signals then inr ErrSkillLimit else inl (mkProvenance origin disposition proposals evidence signals)
    end.

(** ** The repository *)

(** SHA-256 in hexadecimal of the JSON form of a partition, a list of texts, a bundle. *)
Class SkillDigests := { digestPartition : SkillPartition → gostr; digestTexts : list gostr → gostr; digestBundle : SkillBundle → gostr }.

Section repository.
Context {digests : SkillDigests}.

Definition partitionKey (p : SkillPartition) : gostr := digestPartition p.
Definition skillID (p : SkillPartition) (owner name : gostr) : gostr := #"skill-" ++ take 32 (digestTexts [spPrincipal p; spProject p; owner; name]).
Definition SkillVersionID (b : SkillBundle) : gostr := #"skill-version-" ++ take 32 (digestBundle b).

Definition bucketOf (s : Store) (pk : gostr) : gmap gostr skillRecord := default ∅ (records s !! pk).
Definition generationLocked (s : Store) (p : SkillPartition) : Z := default 0%Z (generations s !! partitionKey p).

Definition Generation (s : Store) (p : SkillPartition) : Z + SkillError :=
  if negb (ValidateSkillPartition p #"generation") then inr ErrInvalidSkill else inl (generationLocked s p).

Definition revisionText (n : Z) : gostr := #"mem-" ++ lit (pretty (Z.to_N n)).

(** [revision]: the counter and its text. *)
Definition revision (n : Z) : Z * gostr := let n := wrapU64 (n + 1) in (n, revisionText n).

(** Writing a record back, which advances the generation of its partition. *)
Definition putSkill (s : Store) (p : SkillPartition) (id : gostr) (r : skillRecord) (n : Z) : Store :=
  let pk := partitionKey p in
  mkSkillStore (<[pk := <[id := r]> (bucketOf s pk)]> (records s)) (<[pk := wrapU64 (generationLocked s p + 1)]> (generations s)) n.

Definition withRevision (rev : gostr) (now : Z) (v : SkillVersion) : SkillVersion :=
  mkVersion (vID v) (vVersion v) rev (vState v) (vOwnerAgent v) (vPartition v) (vBundle v) (vProvenance v) (vDisposition v) (vEvaluations v) (vReceipts v)
    (vSupersedes v) (vCreatedAt v) now.
Definition withState (st : SkillState) (v : SkillVersion) : SkillVersion :=
  mkVersion (vID v) (vVersion v) (vRevision v) st (vOwnerAgent v) (vPartition v) (vBundle v) (vProvenance v) (vDisposition v) (vEvaluations v) (vReceipts v)
    (vSupersedes v) (vCreatedAt v) (vUpdatedAt v).
Definition withEvaluations (es : list SkillEvaluation) (v : SkillVersion) : SkillVersion :=
  mkVersion (vID v) (vVersion v) (vRevision v) (vState v) (vOwnerAgent v) (vPartition v) (vBundle v) (vProvenance v) (vDisposition v) es (vReceipts v)
    (vSupersedes v) (vCreatedAt v) (vUpdatedAt v).
Definition withProvenance (p : SkillProvenance) (v : SkillVersion) : SkillVersion :=
  mkVersion (vID v) (vVersion v) (vRevision v) (vState v) (vOwnerAgent v) (vPartition v) (vBundle v) p (pvDisposition p) (vEvaluations v) (vReceipts v)
    (vSupersedes v) (vCreatedAt v) (vUpdatedAt v).

Definition appendReceipt (op : ReceiptOperation) (from to : SkillState) (now : Z) (v : SkillVersion) : SkillVersion :=
  let rs := vReceipts v ++ [mkReceipt op from to (vVersion v) now] in
  let rs := if MaxSkillReceipts <? length rs then drop (length rs - MaxSkillReceipts) rs else rs in
  mkVersion (vID v) (vVersion v) (vRevision v) (vState v) (vOwnerAgent v) (vPartition v) (vBundle v) (vProvenance v) (vDisposition v) (vEvaluations v) rs
    (vSupersedes v) (vCreatedAt v) (vUpdatedAt v).

Definition setVersions (vs : list SkillVersion) (r : skillRecord) : skillRecord := mkSkillRecord (srOwner r) (srName r) vs.

(** The loop over the bucket for a record of the name. *)
Definition recordNamed (b : gmap gostr skillRecord) (name : gostr) : option (gostr * skillRecord) :=
  head (filter (λ kr, srName kr.2 = name) (map_to_list b)).

Definition versionIndex (vs : list SkillVersion) (version : gostr) : option (nat * SkillVersion) := list_find (λ v, vVersion v = version) vs.

Definition CreateDraft (s : Store) (p : SkillPartition) (owner : gostr) (b : SkillBundle) (prov : SkillProvenance) (now : Z) : Store * (SkillVersion + SkillError) :=
  if negb (ValidateSkillPartition p owner) then (s, inr ErrInvalidSkill)
  else if negb (ValidateSkillBundle b) then (s, inr ErrInvalidSkill)
  else if negb (ValidateSkillProvenance prov) then (s, inr ErrInvalidSkill)
  else
    let version := SkillVersionID b in
    let bucket := bucketOf s (partitionKey p) in
    match recordNamed bucket (sbName b) with
    | Some (id, r) =>
        if negb (srOwner r =s owner) then (s, inr ErrSkillOwnerMismatch)
        else match versionIndex (srVersions r) version with
             | Some (i, v) =>
                 match mergeProvenance (vProvenance v) prov with
                 | inr e => (s, inr e)
                 | inl merged =>
                     if merged =s vProvenance v then (s, inl v)
                     else let '(n, rev) := revision (next s) in
                          let v' := withRevision rev now (withProvenance merged v) in
                          (putSkill s p id (setVersions (<[i := v']> (srVersions r)) r) n, inl v')
                 end
             | None =>
                 if MaxSkillVersionsPerSkill <=? length (srVersions r) then (s, inr ErrSkillLimit)
                 else match last (srVersions r) with
                      | None => (s, inr PanicIndex)
                      | Some previous =>
                          let '(n, rev) := revision (next s) in
                          let v := mkVersion (vID previous) version rev SkillDraft owner p b prov (pvDisposition prov) [] [] (vVersion previous) now now in
                          (putSkill s p id (setVersions (srVersions r ++ [v]) r) n, inl v)
                      end
             end
    | None =>
        if MaxSkillsPerPartition <=? size bucket then (s, inr ErrSkillLimit)
        else
          let id := skillID p owner (sbName b) in
          let '(n, rev) := revision (next s) in
          let v := mkVersion id version rev SkillDraft owner p b prov (pvDisposition prov) [] [] [] now now in
          (putSkill s p id (mkSkillRecord owner (sbName b) [v]) n, inl v)
    end.

Definition locate (b : gmap gostr skillRecord) (owner id version : gostr) : (skillRecord * nat) + SkillError :=
  match b !! id with
  | None => inr ErrSkillNotFound
  | Some r =>
      if negb (srOwner r =s owner) then inr ErrSkillOwnerMismatch
      else if version =s [] then inl (r, length (srVersions r) - 1)
      else match versionIndex (srVersions r) version with Some (i, _) => inl (r, i) | None => inr ErrSkillNotFound end
  end.

Definition Get (s : Store) (p : SkillPartition) (owner id version : gostr) : option SkillVersion + SkillError :=
  if negb (ValidateSkillPartition p owner) then inr ErrInvalidSkill
  else match locate (bucketOf s (partitionKey p)) owner id version with
       | inr ErrSkillNotFound => inl None
       | inr e => inr e
       | inl (r, i) => match srVersions r !! i with Some v => inl (Some v) | None => inr PanicIndex end
       end.

(** [update]; the function returns the record with the counter it advanced, or an error
    before it changed anything. *)
Definition update (s : Store) (p : SkillPartition) (owner id version expected : gostr) (now : Z)
    (fn : Z → skillRecord → nat → SkillVersion → (Z * skillRecord) + SkillError) : Store * (SkillVersion + SkillError) :=
  if negb (ValidateSkillPartition p owner) then (s, inr ErrInvalidSkill)
  else match locate (bucketOf s (partitionKey p)) owner id version with
       | inr e => (s, inr e)
       | inl (r, i) =>
           match srVersions r !! i with
           | None => (s, inr PanicIndex)
           | Some v =>
               if negb (vRevision v =s expected) then (s, inr ErrSkillConflict)
               else match fn (next s) r i v with
                    | inr e => (s, inr e)
                    | inl (n, r') =>
                        let '(n, rev) := revision n in
                        match srVersions r' !! i with
                        | None => (s, inr PanicIndex)
                        | Some v' =>
                            let v' := withRevision rev now v' in
                            (putSkill s p id (setVersions (<[i := v']> (srVersions r')) r') n, inl v')
                        end
                    end
           end
       end.

(** A function that rewrites its own version only. *)
Definition own (f : SkillVersion → SkillVersion + SkillError) (n : Z) (r : skillRecord) (i : nat) (v : SkillVersion) : (Z * skillRecord) + SkillError :=
  match f v with inl v' => inl (n, setVersions (<[i := v']> (srVersions r)) r) | inr e => inr e end.

Definition RecordEvaluation (s : Store) (p : SkillPartition) (owner id version expected : gostr) (e : SkillEvaluation) (now : Z) : Store * (SkillVersion + SkillError) :=
  if negb (ValidateSkillEvaluation e) then (s, inr ErrInvalidSkill)
  else update s p owner id version expected now (own (λ v,
    if negb (vState v =s SkillDraft) && negb (vState v =s SkillEvaluated) then inr ErrSkillTransition
    else if MaxSkillEvaluations <=? length (vEvaluations v) then inr ErrSkillLimit
    else
      let e := mkEvaluation (evVerdict e) (evFixtureIDs e) (evBaseline e) (evTreatment e) (evReason e) (Some (default now (evAt e))) in
      let st := if (evVerdict e =s EvaluationFail) || (evVerdict e =s EvaluationError) then SkillRejected else SkillEvaluated in
      inl (appendReceipt OpRecordEvaluation (vState v) st now (withState st (withEvaluations (vEvaluations v ++ [e]) v))))).

Definition lastVerdict (v : SkillVersion) : option EvaluationVerdict := evVerdict <$> last (vEvaluations v).

Definition Stage (s : Store) (p : SkillPartition) (owner id version expected : gostr) (now : Z) : Store * (SkillVersion + SkillError) :=
  update s p owner id version expected now (own (λ v,
    match lastVerdict v with
    | Some verdict =>
        if negb (vState v =s SkillEvaluated) || (verdict =s EvaluationFail) then inr ErrSkillTransition
        else inl (appendReceipt OpStage SkillEvaluated SkillStaged now (withState SkillStaged v))
    | None => inr ErrSkillTransition
    end)).

(** The loop that archives the other active versions. *)
Fixpoint supersede (n : Z) (now : Z) (i j : nat) (vs : list SkillVersion) : Z * list SkillVersion :=
  match vs with
  | [] => (n, [])
  | v :: vs' =>
      if negb (j =? i)%nat && (vState v =s SkillActive) then
        let '(n, rev) := revision n in
        let v := appendReceipt OpSuperseded SkillActive SkillArchived now (withRevision rev now (withState SkillArchived v)) in
        let '(n, vs') := supersede n now i (S j) vs' in (n, v :: vs')
      else let '(n, vs') := supersede n now i (S j) vs' in (n, v :: vs')
  end.

Definition activatable (validated : bool) (v : SkillVersion) : bool :=
  (vState v =s SkillStaged) &&
  match lastVerdict v with
  | None => false
  | Some verdict =>
      if validated then
        negb (negb (verdict =s EvaluationAbstain) || (length (pvEvidenceRefs (vProvenance v)) =? 0)
          || (negb (vDisposition v =s ValidationAccept) && negb (vDisposition v =s ValidationExactDuplicate))
          || (pvOrigin (vProvenance v) =s SkillProvenanceLegacyModel))
      else verdict =s EvaluationPass
  end.

Definition activate (s : Store) (p : SkillPartition) (owner id version expected : gostr) (validated : bool) (now : Z) : Store * (SkillVersion + SkillError) :=
  update s p owner id version expected now (λ n r i v,
    if negb (activatable validated v) then inr ErrSkillTransition
    else
      let '(n, vs) := supersede n now i 0 (srVersions r) in
      let v' := appendReceipt (if validated then OpActivateValidated else OpActivate) SkillStaged SkillActive now (withState SkillActive v) in
      inl (n, setVersions (<[i := v']> vs) r)).

Definition Reject (s : Store) (p : SkillPartition) (owner id version expected : gostr) (now : Z) : Store * (SkillVersion + SkillError) :=
  update s p owner id version expected now (own (λ v,
    if (vState v =s SkillActive) || (vState v =s SkillArchived) || (vState v =s SkillRejected) then inr ErrSkillTransition
    else inl (appendReceipt OpReject (vState v) SkillRejected now (withState SkillRejected v)))).

Definition Archive (s : Store) (p : SkillPartition) (owner id version expected : gostr) (now : Z) : Store * (SkillVersion + SkillError) :=
  update s p owner id version expected now (own (λ v,
    if negb (vState v =s SkillActive) then inr ErrSkillTransition
    else inl (appendReceipt OpArchive SkillActive SkillArchived now (withState SkillArchived v)))).

Definition rollbackEligible (v : SkillVersion) : bool :=
  (vState v =s SkillArchived) &&
  existsb (λ r, (rcTo r =s SkillActive) && ((rcOperation r =s OpActivate) || (rcOperation r =s OpActivateValidated) || (rcOperation r =s OpRollbackTo))) (vReceipts v).

(** The last index at which the loop found a version. *)
Fixpoint lastIndex (f : SkillVersion → bool) (i : nat) (vs : list SkillVersion) : option nat :=
  match vs with
  | [] => None
  | v :: vs' => match lastIndex f (S i) vs' with Some j => Some j | None => if f v then Some i else None end
  end.

Definition Rollback (s : Store) (p : SkillPartition) (owner id expectedActive target : gostr) (now : Z) : Store * (SkillVersion + SkillError) :=
  if negb (ValidateSkillPartition p owner) then (s, inr ErrInvalidSkill)
  else match bucketOf s (partitionKey p) !! id with
  | None => (s, inr ErrSkillNotFound)
  | Some r =>
      if negb (srOwner r =s owner) then (s, inr ErrSkillOwnerMismatch)
      else
        let vs := srVersions r in
        match lastIndex (λ v, vState v =s SkillActive) 0 vs with
        | None => (s, inr ErrSkillConflict)
        | Some ai =>
            match vs !! ai with
            | None => (s, inr PanicIndex)
            | Some a =>
                if negb (vRevision a =s expectedActive) then (s, inr ErrSkillConflict)
                else match lastIndex (λ v, vVersion v =s target) 0 vs with
                | None => (s, inr ErrSkillNotFound)
                | Some ti =>
                    match vs !! ti with
                    | None => (s, inr PanicIndex)
                    | Some t =>
                        if negb (rollbackEligible t) then (s, inr ErrSkillTransition)
                        else
                          let '(n, rev) := revision (next s) in
                          let a' := withRevision rev now (withState SkillArchived (appendReceipt OpRollbackFrom (vState a) SkillArchived now a)) in
                          let vs := <[ai := a']> vs in
                          let '(n, rev) := revision n in
                          let t' := withRevision rev now (withState SkillActive (appendReceipt OpRollbackTo (vState t) SkillActive now t)) in
                          (putSkill s p id (setVersions (<[ti := t']> vs) r) n, inl t')
                    end
                end
            end
        end
  end.

(** ** Listing *)

(** The version of a record that a state filter selects: the latest in that state. *)
Definition selected (o : SkillList) (r : skillRecord) : option SkillVersion :=
  match slState o with
  | None => last (srVersions r)
  | Some (inl st) => (lastIndex (λ v, vState v =s st) 0 (srVersions r)) ≫= λ i, srVersions r !! i
  | Some (inr _) => None
  end.

Definition listed (o : SkillList) (kr : gostr * skillRecord) : option (gostr * SkillVersion) :=
  let '(id, r) := kr in
  match selected o r with
  | None => None
  | Some v => if strLess (slAfter o) id && ((slName o =s []) || (srName r =s slName o)) && ((slOwnerAgent o =s []) || (srOwner r =s slOwnerAgent o))
              then Some (id, v) else None
  end.

Definition idLe (a b : gostr * SkillVersion) : Prop := strLe a.1 b.1.
#[global] Instance idLe_dec : RelDecision idLe.
Proof. intros a b. unfold idLe. apply _. Defined.

Definition List (s : Store) (p : SkillPartition) (o : SkillList) : SkillPage + SkillError :=
  let limit := if (slLimit o <=? 0)%Z then DefaultSkillPageSize else slLimit o in
  if (MaxSkillPageSize <? limit)%Z then inr ErrSkillLimit
  else if match slState o with Some (inr _) => true | _ => false end then inr ErrInvalidSkill
  else
    let rows := merge_sort idLe (omap (listed o) (map_to_list (bucketOf s (partitionKey p)))) in
    let page := (take (Z.to_nat limit) rows).*2 in
    inl (mkSkillPage page (if (limit <? Z.of_nat (length rows))%Z then match last page with Some v => vID v | None => [] end else []) (generationLocked s p)).

(** ** Histories *)

Inductive SkillOp :=
  | OCreateDraft (p : SkillPartition) (owner : gostr) (b : SkillBundle) (prov : SkillProvenance) (now : Z)
  | ORecordEvaluation (p : SkillPartition) (owner id version expected : gostr) (e : SkillEvaluation) (now : Z)
  | OStage (p : SkillPartition) (owner id version expected : gostr) (now : Z)
  | OActivate (p : SkillPartition) (owner id version expected : gostr) (validated : bool) (now : Z)
  | OReject (p : SkillPartition) (owner id version expected : gostr) (now : Z)
  | OArchive (p : SkillPartition) (owner id version expected : gostr) (now : Z)
  | ORollback (p : SkillPartition) (owner id expectedActive target : gostr) (now : Z).

Definition skillExec (s : Store) (op : SkillOp) : Store * (SkillVersion + SkillError) :=
  match op with
  | OCreateDraft p owner b prov now => CreateDraft s p owner b prov now
  | ORecordEvaluation p owner id version expected e now => RecordEvaluation s p owner id version expected e now
  | OStage p owner id version expected now => Stage s p owner id version expected now
  | OActivate p owner id version expected validated now => activate s p owner id version expected validated now
  | OReject p owner id version expected now => Reject s p owner id version expected now
  | OArchive p owner id version expected now => Archive s p owner id version expected now
  | ORollback p owner id expectedActive target now => Rollback s p owner id expectedActive target now
  end.

Definition skillRun (ops : list SkillOp) : Store := foldl (λ s op, (skillExec s op).1) New ops.
End repository.

(** * Properties *)

(** ** Revisions *)

Lemma revisionText_inj a b : (0 <= a)%Z → (0 <= b)%Z → revisionText a = revisionText b → a = b.
Proof. unfold revisionText. intros Ha Hb H%app_inv_head%lit_inj. apply (inj pretty) in H. lia. Qed.

(** A revision minted after [lo], up to [hi]. *)
Definition mintedIn (lo hi : Z) (v : SkillVersion) : Prop := ∃ k, (lo < k <= hi)%Z ∧ vRevision v = revisionText k.

Lemma mintedIn_weaken lo hi lo' hi' v : (lo' <= lo)%Z → (hi <= hi')%Z → mintedIn lo hi v → mintedIn lo' hi' v.
Proof. intros H1 H2 (k & Hk & Hv). exists k. split; [lia|done]. Qed.

Lemma revision_next n : (0 <= n < 2 ^ 64 - 1)%Z → revision n = ((n + 1)%Z, revisionText (n + 1)).
Proof. intros H. unfold revision, wrapU64. by rewrite Z.mod_small by lia. Qed.

(** The revisions of a record are distinct and were minted by the store. *)
Definition revsOk (n : Z) (vs : list SkillVersion) : Prop := NoDup (vRevision <$> vs) ∧ Forall (mintedIn 0 n) vs.

(** Each version keeps its revision or has a new one. *)
Definition revised (n n' : Z) (vs vs' : list SkillVersion) : Prop :=
  ∀ i v', vs' !! i = Some v' → (∃ v, vs !! i = Some v ∧ vRevision v' = vRevision v) ∨ mintedIn n n' v'.

Lemma revised_refl n vs : revised n n vs vs.
Proof. intros i v Hv. left. by exists v. Qed.

Lemma revised_trans n1 n2 n3 vs1 vs2 vs3 : (n1 <= n2 <= n3)%Z → revised n1 n2 vs1 vs2 → revised n2 n3 vs2 vs3 → revised n1 n3 vs1 vs3.
Proof.
  intros Hn H1 H2 i v3 H3. destruct (H2 i v3 H3) as [(v2 & Hv2 & E2)|H]; [|right; eapply mintedIn_weaken; [| |done]; lia].
  destruct (H1 i v2 Hv2) as [(v1 & Hv1 & E1)|(k & Hk & Hr)]; [left; exists v1; split; congruence|right; exists k; split; [lia|congruence]].
Qed.

Lemma old_not_minted n n' v v' : (0 <= n)%Z → mintedIn 0 n v → mintedIn n n' v' → vRevision v ≠ vRevision v'.
Proof. intros Hn (k & Hk & ->) (k' & Hk' & ->) H. apply revisionText_inj in H; lia. Qed.

(** A rewritten version with a new revision. *)
Lemma revsOk_insert n vs i v' : (0 <= n)%Z → i < length vs → revsOk n vs → vRevision v' = revisionText (n + 1) → revsOk (n + 1) (<[i := v']> vs) ∧ revised n (n + 1) vs (<[i := v']> vs).
Proof.
  intros Hn Hi [Hd Hm] Hr. assert (Hnew : mintedIn n (n + 1) v') by (exists (n + 1)%Z; split; [lia|done]). split; [split|].
  - rewrite list_fmap_insert. apply NoDup_alt. intros a b x Ha Hb. rewrite NoDup_alt in Hd.
    assert (Hfresh : ∀ j y, (vRevision <$> vs) !! j = Some y → y ≠ vRevision v').
    { intros j y Hj. rewrite list_lookup_fmap in Hj. apply fmap_Some in Hj as (v & Hv & ->). rewrite Forall_lookup in Hm. eapply old_not_minted; [exact Hn|by eapply Hm|done]. }
    destruct (decide (a = i)) as [-> |Hai], (decide (b = i)) as [-> |Hbi]; [done| | |].
    + rewrite list_lookup_insert_eq in Ha by (by rewrite length_fmap). rewrite list_lookup_insert_ne in Hb by done. simplify_eq. by apply Hfresh in Hb.
    + rewrite list_lookup_insert_eq in Hb by (by rewrite length_fmap). rewrite list_lookup_insert_ne in Ha by done. simplify_eq. by apply Hfresh in Ha.
    + rewrite list_lookup_insert_ne in Ha, Hb by done. by eapply Hd.
  - apply Forall_insert; [eapply Forall_impl; [done|]; intros v Hv; eapply mintedIn_weaken; [| |done]; lia|]. eapply mintedIn_weaken; [| |done]; lia.
  - intros j v Hv. destruct (decide (j = i)) as [-> |Hj].
    + rewrite list_lookup_insert_eq in Hv by done. simplify_eq. by right.
    + rewrite list_lookup_insert_ne in Hv by done. left. by exists v.
Qed.

Lemma revsOk_app n vs v : (0 <= n)%Z → revsOk n vs → vRevision v = revisionText (n + 1) → revsOk (n + 1) (vs ++ [v]) ∧ revised n (n + 1) vs (vs ++ [v]).
Proof.
  intros Hn [Hd Hm] Hr. assert (Hnew : mintedIn n (n + 1) v) by (exists (n + 1)%Z; split; [lia|done]). split; [split|].
  - rewrite fmap_app. apply NoDup_app. split_and!; [done| |apply NoDup_singleton]. intros x (w & -> & Hw)%list_elem_of_fmap Hx%list_elem_of_singleton.
    rewrite Forall_forall in Hm. by eapply old_not_minted; [exact Hn|by apply Hm|done|].
  - apply Forall_app. split; [eapply Forall_impl; [done|]; intros w Hw; eapply mintedIn_weaken; [| |done]; lia|]. constructor; [|done]. eapply mintedIn_weaken; [| |done]; lia.
  - intros j w [Hw|[_ Hw]]%lookup_app_Some; [left; by exists w|]. apply list_lookup_singleton_Some in Hw as [_ <-]. by right.
Qed.

(** A version that got a new revision: nobody holds its former one. *)
Lemma revision_consumed n n' vs vs' i v v' :
  (0 <= n)%Z → revsOk n vs → vs !! i = Some v → revised n n' vs vs' → vs' !! i = Some v' → mintedIn n n' v' →
  ∀ j w, vs' !! j = Some w → vRevision w ≠ vRevision v.
Proof.
  intros Hn [Hd Hm] Hi Hrv Hi' Hnew j w Hw Heq. rewrite Forall_lookup in Hm. rewrite NoDup_alt in Hd. destruct (Hrv j w Hw) as [(u & Hu & Hr)|H].
  - destruct (decide (j = i)) as [-> |Hj].
    + simplify_eq. eapply (old_not_minted n n'); [done|by eapply Hm|exact Hnew|done].
    + apply Hj. apply (Hd j i (vRevision v)); rewrite list_lookup_fmap; [rewrite Hu|rewrite Hi]; cbn; congruence.
  - eapply (old_not_minted n n'); [done|by eapply (Hm i v)|exact H|done].
Qed.

(** ** What each version satisfies *)

Definition qualified (v : SkillVersion) : Prop :=
  lastVerdict v = Some EvaluationPass ∨ (lastVerdict v = Some EvaluationAbstain ∧ pvEvidenceRefs (vProvenance v) ≠ []).

Definition activation (r : SkillReceipt) : bool :=
  (rcTo r =s SkillActive) && ((rcOperation r =s OpActivate) || (rcOperation r =s OpActivateValidated) || (rcOperation r =s OpRollbackTo)).

Record vOk (v : SkillVersion) : Prop := {
  vo_active : vState v = SkillActive → qualified v ∧ ∃ pre a, vReceipts v = pre ++ [a] ∧ activation a = true;
  vo_archived : vState v = SkillArchived → qualified v ∧ ∃ pre a b, vReceipts v = pre ++ [a; b] ∧ activation a = true;
  vo_receipts : length (vReceipts v) ≤ MaxSkillReceipts;
  vo_evaluations : length (vEvaluations v) ≤ MaxSkillEvaluations
}.

Record recOk (r : skillRecord) : Prop := {
  re_some : srVersions r ≠ [];
  re_length : length (srVersions r) ≤ MaxSkillVersionsPerSkill;
  re_ids : NoDup (vVersion <$> srVersions r);
  re_versions : Forall vOk (srVersions r);
  re_active : ∀ i j v w, srVersions r !! i = Some v → srVersions r !! j = Some w → vState v = SkillActive → vState w = SkillActive → i = j
}.

Lemma appendReceipt_receipts op from to now v :
  length (vReceipts v) ≤ MaxSkillReceipts →
  let v' := appendReceipt op from to now v in
  length (vReceipts v') ≤ MaxSkillReceipts ∧
  (∃ pre, vReceipts v' = pre ++ [mkReceipt op from to (vVersion v) now]) ∧
  (∀ pre a, vReceipts v = pre ++ [a] → ∃ pre', vReceipts v' = pre' ++ [a; mkReceipt op from to (vVersion v) now]).
Proof.
  intros Hl. set (x := mkReceipt op from to (vVersion v) now). unfold appendReceipt. cbv zeta. cbn [vReceipts]. fold x. set (rs := vReceipts v ++ [x]). assert (Hlen : length rs = S (length (vReceipts v))) by (unfold rs; rewrite length_app; cbn; lia).
  assert (Hcut : ∀ k, k ≤ length (vReceipts v) → drop k rs = drop k (vReceipts v) ++ [x]) by (intros k Hk; unfold rs; by rewrite drop_app_le).
  unfold MaxSkillReceipts in *. destruct (Nat.ltb_spec 32 (length rs)).
  - rewrite Hcut by lia. split; [rewrite length_app, length_drop; cbn; lia|]. split; [by eexists|]. intros pre a Hpre.
    assert (length (vReceipts v) = S (length pre)) by (rewrite Hpre, length_app; cbn; lia). rewrite Hpre, drop_app_le by lia. exists (drop (length rs - 32) pre). by rewrite <-app_assoc.
  - split; [lia|]. split; [by eexists|]. intros pre a Hpre. exists pre. unfold rs. by rewrite Hpre, <-app_assoc.
Qed.

Lemma vOk_revision rev now v : vOk v → vOk (withRevision rev now v).
Proof. by intros []. Qed.

(** Rewriting one version of a record. *)
Lemma recOk_set r i v v' :
  recOk r → srVersions r !! i = Some v → vVersion v' = vVersion v → vOk v' →
  (vState v' = SkillActive → ∀ j w, j ≠ i → srVersions r !! j = Some w → vState w ≠ SkillActive) →
  recOk (setVersions (<[i := v']> (srVersions r)) r).
Proof.
  intros [R1 R2 R3 R4 R5] Hi Hv Hok Ha. pose proof (lookup_lt_Some _ _ _ Hi) as Hlt. split; cbn [srVersions setVersions].
  - intros H. apply R1. apply (f_equal length) in H. rewrite length_insert in H. by destruct (srVersions r).
  - by rewrite length_insert.
  - rewrite list_fmap_insert, list_insert_id; [done|]. rewrite list_lookup_fmap, Hi. cbn. by rewrite Hv.
  - by apply Forall_insert.
  - intros a b x y Hx Hy Sx Sy. destruct (decide (a = i)) as [-> |Hai], (decide (b = i)) as [-> |Hbi]; [done| | |].
    + rewrite list_lookup_insert_eq in Hx by done. rewrite list_lookup_insert_ne in Hy by done. simplify_eq. by destruct (Ha Sx b y).
    + rewrite list_lookup_insert_eq in Hy by done. rewrite list_lookup_insert_ne in Hx by done. simplify_eq. by destruct (Ha Sy a x).
    + rewrite list_lookup_insert_ne in Hx, Hy by done. by eapply R5.
Qed.

Lemma recOk_revision r i v rev now : recOk r → srVersions r !! i = Some v → recOk (setVersions (<[i := withRevision rev now v]> (srVersions r)) r).
Proof.
  intros Hr Hi. apply (recOk_set r i v); [done|done|done| |].
  - apply vOk_revision. pose proof (re_versions _ Hr) as Hf. rewrite Forall_lookup in Hf. by eapply Hf.
  - cbn. intros Hs j w Hj Hw Hsw. apply Hj. symmetry. by eapply (re_active _ Hr).
Qed.

(** ** Record-level steps *)

(** What the function of an update guarantees. *)
Definition fnOk (fn : Z → skillRecord → nat → SkillVersion → (Z * skillRecord) + SkillError) : Prop :=
  ∀ n r i v n' r', (0 <= n)%Z → (n + 64 < 2 ^ 64)%Z → recOk r → revsOk n (srVersions r) → srVersions r !! i = Some v → fn n r i v = inl (n', r') →
  (n <= n' <= n + 32)%Z ∧ recOk r' ∧ revsOk n' (srVersions r') ∧ revised n n' (srVersions r) (srVersions r') ∧ srOwner r' = srOwner r ∧ srName r' = srName r ∧
  length (srVersions r') = length (srVersions r).

Lemma same_revision n vs i v v' : vs !! i = Some v → vRevision v' = vRevision v → revsOk n vs → revsOk n (<[i := v']> vs) ∧ revised n n vs (<[i := v']> vs).
Proof.
  intros Hi Hr [Hd Hm]. pose proof (lookup_lt_Some _ _ _ Hi) as Hlt. split; [split|].
  - rewrite list_fmap_insert, list_insert_id; [done|]. rewrite list_lookup_fmap, Hi. cbn. by rewrite Hr.
  - apply Forall_insert; [done|]. rewrite Forall_lookup in Hm. destruct (Hm _ _ Hi) as (k & Hk & Hv). exists k. split; [done|congruence].
  - intros j w Hw. left. destruct (decide (j = i)) as [-> |Hj]; [rewrite list_lookup_insert_eq in Hw by done; simplify_eq; by exists v|].
    rewrite list_lookup_insert_ne in Hw by done. by exists w.
Qed.

Lemma own_ok f :
  (∀ v v', vOk v → f v = inl v' → vRevision v' = vRevision v ∧ vVersion v' = vVersion v ∧ vOk v' ∧ vState v' ≠ SkillActive) → fnOk (own f).
Proof.
  intros Hf n r i v n' r' Hn _ Hr Hrev Hi. unfold own. destruct (f v) as [v'|] eqn:Ef; [|done]. intros [= <- <-].
  assert (Hv : vOk v) by (pose proof (re_versions _ Hr) as H; rewrite Forall_lookup in H; by eapply H). destruct (Hf v v' Hv Ef) as (H1 & H2 & H3 & H4).
  destruct (same_revision n (srVersions r) i v v' Hi H1 Hrev) as [H5 H6]. split_and!; [lia|lia|by eapply recOk_set|done|done|done|done|cbn; by rewrite length_insert].
Qed.

(** A state in which no invariant speaks about the receipts. *)
Lemma vOk_inert op from st now v es :
  vOk v → st ≠ SkillActive → st ≠ SkillArchived → length es ≤ MaxSkillEvaluations → vOk (appendReceipt op from st now (withState st (withEvaluations es v))).
Proof.
  intros [A B C D] H1 H2 H3. destruct (appendReceipt_receipts op from st now (withState st (withEvaluations es v)) C) as [H4 _]. by split.
Qed.

Lemma withEvaluations_same v : withEvaluations (vEvaluations v) v = v.
Proof. by destruct v. Qed.

Lemma vOk_retired op from now v : vOk v → vState v = SkillActive → vOk (appendReceipt op from SkillArchived now (withState SkillArchived v)).
Proof.
  intros Hv Hs. destruct (vo_active v Hv Hs) as [Hq (pre & a & Hr & Ha)]. destruct (appendReceipt_receipts op from SkillArchived now (withState SkillArchived v) (vo_receipts v Hv)) as (H1 & _ & H2).
  destruct (H2 pre a Hr) as [pre' Hpre']. split; [done| |done|apply Hv]. intros _. split; [exact Hq|]. by exists pre', a, (mkReceipt op from SkillArchived (vVersion v) now).
Qed.

Lemma vOk_activated op from now v :
  vOk v → qualified v → activation (mkReceipt op from SkillActive (vVersion v) now) = true → vOk (appendReceipt op from SkillActive now (withState SkillActive v)).
Proof.
  intros Hv Hq Ha. destruct (appendReceipt_receipts op from SkillActive now (withState SkillActive v) (vo_receipts v Hv)) as (H1 & [pre H2] & _).
  split; [|done|done|apply Hv]. intros _. split; [exact Hq|]. by exists pre, (mkReceipt op from SkillActive (vVersion v) now).
Qed.

(** The superseding loop. *)
Lemma supersede_spec n now i j vs n' vs' :
  (0 <= n)%Z → (n + Z.of_nat (length vs) < 2 ^ 64 - 1)%Z → revsOk n vs → Forall vOk vs → supersede n now i j vs = (n', vs') →
  (n <= n' <= n + Z.of_nat (length vs))%Z ∧ length vs' = length vs ∧ revsOk n' vs' ∧ revised n n' vs vs' ∧ Forall vOk vs' ∧
  vVersion <$> vs' = vVersion <$> vs ∧ (∀ m v', vs' !! m = Some v' → (j + m)%nat ≠ i → vState v' ≠ SkillActive) ∧
  (∀ m v, vs !! m = Some v → (j + m)%nat = i → vs' !! m = Some v).
Proof.
  revert n j n' vs'. induction vs as [|v vs IH]; intros n j n' vs' Hn Hb [Hd Hm] Hok; cbn [supersede].
  { intros [= <- <-]. split_and!; try done; try lia. }
  cbn [length] in Hb. rewrite fmap_cons, NoDup_cons in Hd. destruct Hd as [Hnv Hd]. apply Forall_cons in Hm as [Hmv Hm]. apply Forall_cons in Hok as [Hv Hok].
  assert (Hstep : ∀ n1, (n <= n1 <= n + 1)%Z → revsOk n1 vs) by (intros n1 H1; split; [done|]; eapply Forall_impl; [exact Hm|]; intros w Hw; eapply mintedIn_weaken; [| |done]; lia).
  destruct (negb (j =? i)%nat && (vState v =s SkillActive)) eqn:Ec.
  - apply andb_true_iff in Ec as [Hji%negb_true_iff%Nat.eqb_neq Hs%bool_decide_eq_true]. rewrite revision_next by lia.
    destruct (supersede (n + 1) now i (S j) vs) as [n1 vs1] eqn:Es. intros [= <- <-].
    destruct (IH (n + 1)%Z (S j) n1 vs1) as (G1 & G2 & G3 & G4 & G5 & G6 & G7 & G8); [lia|lia|by apply Hstep; lia|done|done|].
    set (v1 := appendReceipt OpSuperseded SkillActive SkillArchived now (withRevision (revisionText (n + 1)) now (withState SkillArchived v))).
    assert (Hnew : mintedIn n n1 v1) by (exists (n + 1)%Z; split; [lia|done]).
    split_and!; [lia|cbn; lia|cbn; by rewrite G2| | | | | |].
    + split.
      * rewrite fmap_cons. apply NoDup_cons. split; [|apply G3]. intros (w & Hw & Hin)%list_elem_of_fmap. apply list_elem_of_lookup in Hin as [m Hin].
        destruct (G4 m w Hin) as [(u & Hu & Hru)|(k & Hk & Hrk)].
        -- rewrite Forall_lookup in Hm. destruct (Hm m u Hu) as (k & Hk & Hrk). rewrite Hru, Hrk in Hw. apply revisionText_inj in Hw; lia.
        -- rewrite Hrk in Hw. apply revisionText_inj in Hw; lia.
      * constructor; [eapply mintedIn_weaken; [| |exact Hnew]; lia|apply G3].
    + intros [|m] w Hw; cbn in Hw; [simplify_eq; by right|]. destruct (G4 m w Hw) as [H|H]; [by left|right; eapply mintedIn_weaken; [| |done]; lia].
    + constructor; [|done]. apply (vOk_revision (revisionText (n + 1)) now) in Hv. by apply (vOk_retired OpSuperseded SkillActive now) in Hv.
    + rewrite !fmap_cons, G6. done.
    + intros [|m] w Hw Hj; cbn in Hw; [by simplify_eq|]. apply (G7 m w Hw). lia.
    + intros [|m] w Hw Hj; cbn in Hw |- *; [lia|]. apply G8; [done|lia].
  - destruct (supersede n now i (S j) vs) as [n1 vs1] eqn:Es. intros [= <- <-].
    destruct (IH n (S j) n1 vs1) as (G1 & G2 & G3 & G4 & G5 & G6 & G7 & G8); [lia|lia|by apply Hstep; lia|done|done|].
    split_and!; [lia|cbn; lia|cbn; by rewrite G2| | | | | |].
    + split.
      * rewrite fmap_cons. apply NoDup_cons. split; [|apply G3]. intros (w & Hw & Hin)%list_elem_of_fmap. apply list_elem_of_lookup in Hin as [m Hin].
        destruct (G4 m w Hin) as [(u & Hu & Hru)|H]; [|by eapply old_not_minted].
        apply Hnv. apply list_elem_of_fmap. exists u. split; [congruence|by eapply list_elem_of_lookup_2].
      * constructor; [eapply mintedIn_weaken; [| |exact Hmv]; lia|apply G3].
    + intros [|m] w Hw; cbn in Hw; [simplify_eq; left; by exists w|]. apply (G4 m w Hw).
    + by constructor.
    + rewrite !fmap_cons, G6. done.
    + intros [|m] w Hw Hj; cbn in Hw; [|apply (G7 m w Hw); lia]. simplify_eq. apply andb_false_iff in Ec as [Ec|Ec].
      * apply negb_false_iff, Nat.eqb_eq in Ec. lia.
      * by apply bool_decide_eq_false in Ec.
    + intros [|m] w Hw Hj; cbn in Hw |- *; [done|]. apply G8; [done|lia].
Qed.

Lemma activate_fnOk validated now :
  fnOk (λ n r i v,
    if negb (activatable validated v) then inr ErrSkillTransition
    else
      let '(n, vs) := supersede n now i 0 (srVersions r) in
      let v' := appendReceipt (if validated then OpActivateValidated else OpActivate) SkillStaged SkillActive now (withState SkillActive v) in
      inl (n, setVersions (<[i := v']> vs) r)).
Proof.
  intros n r i v n' r' Hn Hb Hr Hrev Hi. destruct (activatable validated v) eqn:Ea; cbn [negb]; [|done].
  destruct (supersede n now i 0 (srVersions r)) as [n1 vs1] eqn:Es. intros [= <- <-]. pose proof (re_length _ Hr) as Hlen. unfold MaxSkillVersionsPerSkill in Hlen.
  destruct (supersede_spec n now i 0 (srVersions r) n1 vs1) as (G1 & G2 & G3 & G4 & G5 & G6 & G7 & G8); [lia|lia|done|apply Hr|done|].
  assert (Hi1 : vs1 !! i = Some v) by (by apply G8). assert (Hv : vOk v) by (rewrite Forall_lookup in G5; by eapply G5).
  assert (Hq : qualified v).
  { unfold activatable in Ea. apply andb_true_iff in Ea as [_ Ea]. unfold qualified. destruct (lastVerdict v) as [verdict|]; [|done]. destruct validated.
    - right. rewrite negb_true_iff, !orb_false_iff, negb_false_iff in Ea. destruct Ea as [[[Hv1%bool_decide_eq_true Hv2] _] _]. split; [by subst|].
      intros H. by rewrite H in Hv2.
    - left. apply bool_decide_eq_true in Ea. by subst. }
  set (v' := appendReceipt (if validated then OpActivateValidated else OpActivate) SkillStaged SkillActive now (withState SkillActive v)).
  assert (Hv' : vOk v') by (apply vOk_activated; [done|done|by destruct validated]).
  destruct (same_revision n1 vs1 i v v' Hi1 eq_refl G3) as [H1 H2].
  assert (Hr1 : recOk (setVersions vs1 r)).
  { split; cbn [srVersions setVersions]; [| |by rewrite G6; apply Hr|done|].
    - intros H. apply (re_some _ Hr). rewrite H in G2. by destruct (srVersions r).
    - rewrite G2. apply Hr.
    - intros a b x y Hx Hy Sx Sy. destruct (decide (a = i)) as [-> |Ha]; [|by destruct (G7 a x Hx Ha)]. destruct (decide (b = i)) as [-> |Hb']; [done|by destruct (G7 b y Hy Hb')]. }
  split_and!; [lia|lia| |done| |done|done|].
  - apply (recOk_set (setVersions vs1 r) i v v'); [done|done|done|done|]. intros _ m w Hm Hw. by apply (G7 m w Hw).
  - eapply (revised_trans n n1 n1); [lia|done|done].
  - cbn. by rewrite length_insert.
Qed.

(** ** The repository *)

Section invariants.
Context {digests : SkillDigests}.
(** The ids of skills do not collide. *)
Hypothesis texts_inj : ∀ a b, take 32 (digestTexts a) = take 32 (digestTexts b) → a = b.

Record storeOk (s : Store) : Prop := {
  so_rec : ∀ pk id r, bucketOf s pk !! id = Some r → recOk r ∧ revsOk (next s) (srVersions r);
  so_size : ∀ pk, size (bucketOf s pk) ≤ MaxSkillsPerPartition;
  so_name : ∀ pk id id' r r', bucketOf s pk !! id = Some r → bucketOf s pk !! id' = Some r' → srName r = srName r' → id = id';
  so_key : ∀ pk id r, bucketOf s pk !! id = Some r → ∃ p, id = skillID p (srOwner r) (srName r);
  so_next : (0 <= next s)%Z
}.

Record evolves (s s' : Store) : Prop := {
  ev_next : (next s <= next s')%Z;
  ev_rec : ∀ pk id r, bucketOf s pk !! id = Some r →
    ∃ r', bucketOf s' pk !! id = Some r' ∧ srOwner r' = srOwner r ∧ srName r' = srName r ∧ revised (next s) (next s') (srVersions r) (srVersions r')
}.

Lemma evolves_refl s : evolves s s.
Proof. split; [lia|]. intros pk id r Hr. exists r. split_and!; [done|done|done|apply revised_refl]. Qed.

Lemma bucketOf_put s p id r n pk : bucketOf (putSkill s p id r n) pk = if decide (pk = partitionKey p) then <[id := r]> (bucketOf s (partitionKey p)) else bucketOf s pk.
Proof. unfold bucketOf, putSkill. cbn. case_decide as Hd; [subst; by rewrite lookup_insert_eq|by rewrite lookup_insert_ne by congruence]. Qed.

Lemma revsOk_weaken n n' vs : (n <= n')%Z → revsOk n vs → revsOk n' vs.
Proof. intros Hn [H1 H2]. split; [done|]. eapply Forall_impl; [done|]. intros v Hv. eapply mintedIn_weaken; [| |done]; lia. Qed.

Lemma revised_weaken n n' n'' vs vs' : (n' <= n'')%Z → revised n n' vs vs' → revised n n'' vs vs'.
Proof. intros Hn H i v Hv. destruct (H i v Hv) as [?|?]; [by left|right; eapply mintedIn_weaken; [| |done]; lia]. Qed.

Lemma put_ok s p id r' n :
  storeOk s → (next s <= n)%Z → recOk r' → revsOk n (srVersions r') →
  match bucketOf s (partitionKey p) !! id with
  | Some r => srOwner r' = srOwner r ∧ srName r' = srName r ∧ revised (next s) n (srVersions r) (srVersions r')
  | None => size (bucketOf s (partitionKey p)) < MaxSkillsPerPartition ∧ (∀ id' r, bucketOf s (partitionKey p) !! id' = Some r → srName r ≠ srName r') ∧
            ∃ p', id = skillID p' (srOwner r') (srName r')
  end →
  storeOk (putSkill s p id r' n) ∧ evolves s (putSkill s p id r' n).
Proof.
  intros [S1 S2 S3 S4 S5] Hn Hr Hrev Hold. set (b := bucketOf s (partitionKey p)) in *. split; split; cbn [next putSkill].
  - intros pk id' r. rewrite bucketOf_put. case_decide as Hd; [subst; rewrite lookup_insert_Some; intros [[<- <-]|[_ Hr']]; [done|]|intros Hr'].
    all: destruct (S1 _ _ _ Hr') as [H1 H2]; split; [done|by eapply revsOk_weaken].
  - intros pk. rewrite bucketOf_put. case_decide as Hd; [|apply S2]. destruct (b !! id) as [r|] eqn:Eb; fold b.
    + rewrite map_size_insert_Some by (by exists r). apply S2.
    + rewrite map_size_insert_None by done. lia.
  - intros pk id1 id2 r1 r2. rewrite bucketOf_put. case_decide as Hd; [|apply S3]. fold b. rewrite !lookup_insert_Some. subst pk.
    intros [[<- <-]|[N1 H1]] [[<- <-]|[N2 H2]] Hname; [done| | |by eapply (S3 (partitionKey p))].
    + destruct (b !! id) as [r|] eqn:Eb; [|destruct Hold as (_ & Hno & _); by destruct (Hno id2 r2)].
      eapply (S3 (partitionKey p)); [exact Eb|exact H2|]. destruct Hold as (_ & <- & _). done.
    + destruct (b !! id) as [r|] eqn:Eb; [|destruct Hold as (_ & Hno & _); by destruct (Hno id1 r1)].
      eapply (S3 (partitionKey p)); [exact H1|exact Eb|]. destruct Hold as (_ & <- & _). done.
  - intros pk id' r. rewrite bucketOf_put. case_decide as Hd; [|apply S4]. fold b. rewrite lookup_insert_Some. intros [[<- <-]|[_ H]]; [|by eapply (S4 (partitionKey p))].
    destruct (b !! id) as [r|] eqn:Eb; [|by destruct Hold as (_ & _ & ?)]. destruct Hold as (-> & -> & _). by eapply (S4 (partitionKey p)).
  - lia.
  - done.
  - intros pk id' r H. rewrite bucketOf_put. case_decide as Hd; [|exists r; split_and!; [done|done|done|]; eapply revised_weaken; [done|apply revised_refl]].
    fold b. subst pk. destruct (decide (id' = id)) as [-> |Hne].
    + unfold b in Hold. rewrite H in Hold. exists r'. rewrite lookup_insert_eq. naive_solver.
    + exists r. rewrite lookup_insert_ne by done. split_and!; [done|done|done|]. eapply revised_weaken; [done|apply revised_refl].
Qed.

Lemma locate_spec b owner id version r i : locate b owner id version = inl (r, i) → b !! id = Some r ∧ srOwner r = owner.
Proof.
  unfold locate. destruct (b !! id) as [r'|]; [|done]. case_bool; [done|]. apply negb_false_iff, bool_decide_eq_true in E. case_bool; [by intros [= <- <-]|].
  destruct (versionIndex (srVersions r') version) as [[j v]|]; [|done]. by intros [= <- <-].
Qed.

(** An update keeps the invariant, and after it nobody holds the revision it consumed. *)
Lemma update_ok s p owner id version expected now fn :
  fnOk fn → storeOk s → (next s + 64 < 2 ^ 64)%Z →
  let res := update s p owner id version expected now fn in
  storeOk res.1 ∧ evolves s res.1 ∧ (next res.1 <= next s + 64)%Z ∧
  (∀ v, res.2 = inl v → (∃ r i v0, bucketOf s (partitionKey p) !! id = Some r ∧ srVersions r !! i = Some v0 ∧ vRevision v0 = expected) ∧
    ∀ r i v', bucketOf res.1 (partitionKey p) !! id = Some r → srVersions r !! i = Some v' → vRevision v' ≠ expected).
Proof.
  intros Hfn Hok Hb res. pose proof (so_next _ Hok) as Hn0. assert (Hsame : ∀ e : SkillError, let res := (s, inr e) : Store * (SkillVersion + SkillError) in
    storeOk res.1 ∧ evolves s res.1 ∧ (next res.1 <= next s + 64)%Z ∧ (∀ v, res.2 = inl v → (∃ r i v0, bucketOf s (partitionKey p) !! id = Some r ∧ srVersions r !! i = Some v0 ∧ vRevision v0 = expected) ∧
      ∀ r i v', bucketOf res.1 (partitionKey p) !! id = Some r → srVersions r !! i = Some v' → vRevision v' ≠ expected)).
  { intros e. cbn. split_and!; [done|apply evolves_refl|lia|done]. }
  unfold res, update. case_bool; [apply Hsame|]. destruct (locate _ owner id version) as [[r i]|e] eqn:El; [|apply Hsame]. apply locate_spec in El as [Hr _].
  destruct (srVersions r !! i) as [v|] eqn:Ei; [|apply Hsame]. case_bool; [apply Hsame|]. apply negb_false_iff, bool_decide_eq_true in E0.
  destruct (so_rec _ Hok _ _ _ Hr) as [Hrec Hrev]. destruct (fn (next s) r i v) as [[n1 r1]|e] eqn:Ef; [|apply Hsame].
  destruct (Hfn _ _ _ _ _ _ Hn0 Hb Hrec Hrev Ei Ef) as (F1 & F2 & F3 & F4 & F5 & F6 & F7). rewrite revision_next by lia.
  destruct (srVersions r1 !! i) as [v1|] eqn:Ei1; [|apply Hsame]. set (v' := withRevision (revisionText (n1 + 1)) now v1). set (r' := setVersions (<[i := v']> (srVersions r1)) r1).
  destruct (revsOk_insert n1 (srVersions r1) i v') as [G1 G2]; [lia|by eapply lookup_lt_Some|done|done|].
  assert (Hrv : revised (next s) (n1 + 1) (srVersions r) (srVersions r')) by (eapply (revised_trans _ n1); [lia|done|done]).
  destruct (put_ok s p id r' (n1 + 1)) as [P1 P2]; [done|lia|by apply recOk_revision|done|by rewrite Hr|].
  split_and!; [done|done|cbn; lia|]. intros v2 [= <-]. split; [by exists r, i, v|]. intros r2 j w Hr2 Hw. cbn [fst] in Hr2. rewrite bucketOf_put, decide_True, lookup_insert_eq in Hr2 by done.
  assert (Hr2' : r2 = r') by congruence. rewrite Hr2' in Hw. rewrite <-E0.
  apply (revision_consumed (next s) (n1 + 1) (srVersions r) (srVersions r') i v v' Hn0 Hrev Ei Hrv) with j; [|exists (n1 + 1)%Z; split; [lia|done]|done].
  cbn. apply list_lookup_insert_eq. by eapply lookup_lt_Some.
Qed.

(** ** Every operation *)

Lemma vOk_moved op from st now v : vOk v → st ≠ SkillActive → st ≠ SkillArchived → vOk (appendReceipt op from st now (withState st v)).
Proof. intros Hv H1 H2. rewrite <-(withEvaluations_same v). apply vOk_inert; [done|done|done|apply Hv]. Qed.

Lemma recordNamed_Some b name id r : recordNamed b name = Some (id, r) → b !! id = Some r ∧ srName r = name.
Proof.
  unfold recordNamed. destruct (filter _ (map_to_list b)) as [|kr l] eqn:Ef; [done|]. intros [= ->].
  assert (Hin : (id, r) ∈ filter (λ kr, srName kr.2 = name) (map_to_list b)) by (rewrite Ef; by left).
  apply list_elem_of_filter in Hin as [Hn Hin%elem_of_map_to_list]. done.
Qed.

Lemma recordNamed_None b name id r : recordNamed b name = None → b !! id = Some r → srName r ≠ name.
Proof.
  unfold recordNamed. destruct (filter _ (map_to_list b)) as [|kr l] eqn:Ef; [|done]. intros _ Hr Hn.
  assert (Hin : (id, r) ∈ filter (λ kr, srName kr.2 = name) (map_to_list b)) by (apply list_elem_of_filter; split; [done|by apply elem_of_map_to_list]).
  rewrite Ef in Hin. by apply not_elem_of_nil in Hin.
Qed.

Lemma mergeNew_prefix {A} `{EqDecision A} (dst src : list A) : dst `prefix_of` mergeNew dst src.
Proof.
  unfold mergeNew. revert dst. induction src as [|x src IH]; intros dst; cbn; [done|]. case_bool_decide; [apply IH|].
  transitivity (dst ++ [x]); [by apply prefix_app_r|apply IH].
Qed.

Lemma merge_evidence dst src m : mergeProvenance dst src = inl m → pvEvidenceRefs dst ≠ [] → pvEvidenceRefs m ≠ [].
Proof.
  unfold mergeProvenance. case_bool; [done|]. cbv zeta. destruct (mergeStrings _ _ _); [|done]. case_bool; [done|]. case_bool; [done|]. intros [= <-] Hd Hm. cbn in Hm.
  destruct (mergeNew_prefix (pvEvidenceRefs dst) (pvEvidenceRefs src)) as [k Hk]. rewrite Hm in Hk. destruct (pvEvidenceRefs dst); done.
Qed.

Lemma vOk_provenance m v : vOk v → (pvEvidenceRefs (vProvenance v) ≠ [] → pvEvidenceRefs m ≠ []) → vOk (withProvenance m v).
Proof.
  intros [A B C D] Hm. assert (Hq : qualified v → qualified (withProvenance m v)) by (intros [H|[H1 H2]]; [by left|right; split; [done|by apply Hm]]).
  split; [intros Hs; destruct (A Hs)|intros Hs; destruct (B Hs)|done|done]; auto.
Qed.

Lemma create_ok s p owner b prov now :
  storeOk s → (next s + 64 < 2 ^ 64)%Z → let res := CreateDraft s p owner b prov now in storeOk res.1 ∧ evolves s res.1 ∧ (next res.1 <= next s + 64)%Z.
Proof.
  intros Hok Hb res. pose proof (so_next _ Hok) as Hn0.
  assert (Hsame : ∀ x : SkillVersion + SkillError, let res := (s, x) in storeOk res.1 ∧ evolves s res.1 ∧ (next res.1 <= next s + 64)%Z)
    by (intros x; cbn; split_and!; [done|apply evolves_refl|lia]).
  unfold res, CreateDraft. case_bool; [apply Hsame|]. case_bool; [apply Hsame|]. case_bool; [apply Hsame|]. cbv zeta.
  destruct (recordNamed _ (sbName b)) as [[id r]|] eqn:Er.
  - apply recordNamed_Some in Er as [Hr Hname]. case_bool; [apply Hsame|]. destruct (so_rec _ Hok _ _ _ Hr) as [Hrec Hrev].
    destruct (versionIndex (srVersions r) (SkillVersionID b)) as [[i v]|] eqn:Ev.
    + apply list_find_Some in Ev as (Hi & _ & _). destruct (mergeProvenance (vProvenance v) prov) as [m|] eqn:Em; [|apply Hsame]. case_bool; [apply Hsame|].
      rewrite revision_next by lia. set (v' := withRevision (revisionText (next s + 1)) now (withProvenance m v)).
      destruct (revsOk_insert (next s) (srVersions r) i v') as [G1 G2]; [done|by eapply lookup_lt_Some|done|done|].
      assert (Hv : vOk v) by (pose proof (re_versions _ Hrec) as H; rewrite Forall_lookup in H; by eapply H).
      destruct (put_ok s p id (setVersions (<[i := v']> (srVersions r)) r) (next s + 1)) as [P1 P2]; [done|lia| |done|by rewrite Hr|split_and!; [done|done|cbn; lia]].
      apply (recOk_set r i v); [done|done|done|apply vOk_revision, vOk_provenance; [done|by eapply merge_evidence]|].
      cbn. intros Hs j w Hj Hw Hsw. apply Hj. symmetry. by eapply (re_active _ Hrec).
    + case_bool; [apply Hsame|]. apply Nat.leb_gt in E3. destruct (last (srVersions r)) as [previous|]; [|apply Hsame]. rewrite revision_next by lia.
      set (v' := mkVersion _ _ _ _ _ _ _ _ _ _ _ _ _ _). destruct (revsOk_app (next s) (srVersions r) v') as [G1 G2]; [done|done|done|].
      destruct (put_ok s p id (setVersions (srVersions r ++ [v']) r) (next s + 1)) as [P1 P2]; [done|lia| |done|by rewrite Hr|split_and!; [done|done|cbn; lia]].
      split; cbn [srVersions setVersions].
      * by destruct (srVersions r).
      * rewrite length_app. cbn. unfold MaxSkillVersionsPerSkill in *. lia.
      * rewrite fmap_app. apply NoDup_app. split_and!; [apply Hrec| |apply NoDup_singleton]. intros x (w & -> & Hw)%list_elem_of_fmap Hx%list_elem_of_singleton.
        unfold versionIndex in Ev. rewrite list_find_None, Forall_forall in Ev. by apply (Ev w Hw).
      * apply Forall_app. split; [apply Hrec|]. constructor; [|done]. split; cbn; [done|done|lia|lia].
      * intros a c x y [Hx|[_ Hx]]%lookup_app_Some [Hy|[_ Hy]]%lookup_app_Some Sx Sy; [by eapply (re_active _ Hrec)| | |];
          repeat match goal with H : [v'] !! _ = Some _ |- _ => apply list_lookup_singleton_Some in H as [_ <-] end; done.
  - case_bool; [apply Hsame|]. apply Nat.leb_gt in E2. rewrite revision_next by lia. set (v' := mkVersion _ _ _ _ _ _ _ _ _ _ _ _ _ _).
    assert (Hid : bucketOf s (partitionKey p) !! skillID p owner (sbName b) = None).
    { destruct (bucketOf s (partitionKey p) !! skillID p owner (sbName b)) as [r|] eqn:Er'; [|done]. destruct (so_key _ Hok _ _ _ Er') as [p' Hp'].
      destruct (recordNamed_None _ _ _ _ Er Er'). unfold skillID in Hp'. apply app_inv_head, texts_inj in Hp'. congruence. }
    destruct (revsOk_app (next s) [] v') as [G1 G2]; [done|split; [apply NoDup_nil_2|constructor]|done|].
    destruct (put_ok s p (skillID p owner (sbName b)) (mkSkillRecord owner (sbName b) [v']) (next s + 1)) as [P1 P2]; [done|lia| |done| |split_and!; [done|done|cbn; lia]].
    + split; cbn; [done|unfold MaxSkillVersionsPerSkill; lia|apply NoDup_singleton| |].
      * constructor; [|done]. split; cbn; [done|done|lia|lia].
      * intros a c x y Hx Hy Sx. apply list_lookup_singleton_Some in Hx as [_ <-]. done.
    + rewrite Hid. split_and!; [done| |by exists p]. intros id' r Hr. by eapply recordNamed_None.
Qed.

Lemma lastIndex_spec f j vs i : lastIndex f j vs = Some i → ∃ m v, i = j + m ∧ vs !! m = Some v ∧ f v = true.
Proof.
  revert j. induction vs as [|v vs IH]; intros j; cbn; [done|]. destruct (lastIndex f (S j) vs) as [k|] eqn:El.
  - intros [= <-]. destruct (IH (S j) El) as (m & w & -> & Hw & Hf). exists (S m), w. split_and!; [lia|done|done].
  - destruct (f v) eqn:Ef; [|done]. intros [= <-]. exists 0, v. split_and!; [lia|done|done].
Qed.

(** What a successful request for a revision leaves behind. *)
Definition consumes (s s' : Store) (p : SkillPartition) (id expected : gostr) : Prop :=
  (∃ r i v0, bucketOf s (partitionKey p) !! id = Some r ∧ srVersions r !! i = Some v0 ∧ vRevision v0 = expected) ∧
  ∀ r i v', bucketOf s' (partitionKey p) !! id = Some r → srVersions r !! i = Some v' → vRevision v' ≠ expected.

Lemma skillRollback_ok s p owner id expected target now :
  storeOk s → (next s + 64 < 2 ^ 64)%Z →
  let res := Rollback s p owner id expected target now in
  storeOk res.1 ∧ evolves s res.1 ∧ (next res.1 <= next s + 64)%Z ∧ (∀ v, res.2 = inl v → consumes s res.1 p id expected).
Proof.
  intros Hok Hb res. pose proof (so_next _ Hok) as Hn0.
  assert (Hsame : ∀ e : SkillError, let res := (s, inr e) : Store * (SkillVersion + SkillError) in
    storeOk res.1 ∧ evolves s res.1 ∧ (next res.1 <= next s + 64)%Z ∧ (∀ v, res.2 = inl v → consumes s res.1 p id expected))
    by (intros x; cbn; split_and!; [done|apply evolves_refl|lia|done]).
  unfold res, Rollback. case_bool; [apply Hsame|]. destruct (bucketOf s (partitionKey p) !! id) as [r|] eqn:Hr; [|apply Hsame]. case_bool; [apply Hsame|]. cbv zeta.
  destruct (lastIndex (λ v, vState v =s SkillActive) 0 (srVersions r)) as [ai|] eqn:Ea; [|apply Hsame].
  destruct (lastIndex_spec _ _ _ _ Ea) as (m & a & -> & Ha & Sa%bool_decide_eq_true). cbn [Nat.add] in *. rewrite Ha. case_bool; [apply Hsame|].
  apply negb_false_iff, bool_decide_eq_true in E1. destruct (lastIndex (λ v, vVersion v =s target) 0 (srVersions r)) as [ti|] eqn:Et; [|apply Hsame].
  destruct (lastIndex_spec _ _ _ _ Et) as (tm & t & -> & Ht & _). cbn [Nat.add] in *. rewrite Ht. case_bool; [apply Hsame|]. apply negb_false_iff in E2.
  apply andb_true_iff in E2 as [St%bool_decide_eq_true _]. assert (Hne : m ≠ tm) by (intros ->; simplify_eq; congruence).
  destruct (so_rec _ Hok _ _ _ Hr) as [Hrec Hrev]. pose proof (re_versions _ Hrec) as Hvs. rewrite Forall_lookup in Hvs.
  rewrite revision_next by lia. cbv beta iota. rewrite revision_next by lia. cbv beta iota.
  set (a' := withRevision (revisionText (next s + 1)) now _). set (t' := withRevision (revisionText (next s + 1 + 1)) now _).
  assert (Hoka : vOk a') by (apply vOk_revision; exact (vOk_retired OpRollbackFrom (vState a) now a (Hvs _ _ Ha) Sa)).
  assert (Hokt : vOk t') by (apply vOk_revision; exact (vOk_activated OpRollbackTo (vState t) now t (Hvs _ _ Ht) (proj1 (vo_archived t (Hvs _ _ Ht) St)) eq_refl)).
  set (vs1 := <[m := a']> (srVersions r)). assert (Hr1 : recOk (setVersions vs1 r)) by (by apply (recOk_set r m a)).
  assert (Ht1 : vs1 !! tm = Some t) by (unfold vs1; by rewrite list_lookup_insert_ne). pose proof (lookup_lt_Some _ _ _ Ha) as Hlt.
  destruct (revsOk_insert (next s) (srVersions r) m a') as [G1 G2]; [done|done|done|done|]. fold vs1 in G1, G2.
  destruct (revsOk_insert (next s + 1) vs1 tm t') as [G3 G4]; [lia|by eapply lookup_lt_Some|done|done|]. set (vs2 := <[tm := t']> vs1) in *.
  assert (Hr2 : recOk (setVersions vs2 r)).
  { apply (recOk_set (setVersions vs1 r) tm t); [done|done|done|done|]. intros _ j w Hj Hw Sw. cbn in Hw. destruct (decide (j = m)) as [-> |Hjm].
    - unfold vs1 in Hw. rewrite list_lookup_insert_eq in Hw by done. by simplify_eq.
    - unfold vs1 in Hw. rewrite list_lookup_insert_ne in Hw by done. apply Hjm. by eapply (re_active _ Hrec). }
  assert (Hrv : revised (next s) (next s + 1 + 1) (srVersions r) vs2) by (eapply (revised_trans _ (next s + 1)); [lia|done|done]).
  destruct (put_ok s p id (setVersions vs2 r) (next s + 1 + 1)) as [P1 P2]; [done|lia|done|done|by rewrite Hr|].
  split_and!; [done|done|cbn; lia|]. intros v _. split; [by exists r, m, a|]. intros r2 j w H2 Hw. cbn [fst] in H2. rewrite bucketOf_put, decide_True, lookup_insert_eq in H2 by done.
  assert (H2' : r2 = setVersions vs2 r) by congruence. rewrite H2' in Hw. rewrite <-E1.
  apply (revision_consumed (next s) (next s + 1 + 1) (srVersions r) vs2 m a a' Hn0 Hrev Ha Hrv) with j; [|exists (next s + 1)%Z; split; [lia|done]|done].
  unfold vs2, vs1. rewrite list_lookup_insert_ne by done. by rewrite list_lookup_insert_eq.
Qed.

(** The revision a request names. *)
Definition expectedOf (op : SkillOp) : option (SkillPartition * gostr * gostr) :=
  match op with
  | OCreateDraft _ _ _ _ _ => None
  | ORecordEvaluation p _ id _ e _ _ | OStage p _ id _ e _ | OActivate p _ id _ e _ _ | OReject p _ id _ e _ | OArchive p _ id _ e _ | ORollback p _ id e _ _ => Some (p, id, e)
  end.

Definition stepOk (s : Store) (op : SkillOp) : Prop :=
  let res := skillExec s op in
  storeOk res.1 ∧ evolves s res.1 ∧ (next res.1 <= next s + 64)%Z ∧
  (∀ v p id e, res.2 = inl v → expectedOf op = Some (p, id, e) → consumes s res.1 p id e).

Lemma update_step s op p owner id version expected now fn :
  fnOk fn → storeOk s → (next s + 64 < 2 ^ 64)%Z → skillExec s op = update s p owner id version expected now fn → expectedOf op = Some (p, id, expected) → stepOk s op.
Proof.
  intros Hfn Hok Hb Hex Hexp. destruct (update_ok s p owner id version expected now fn Hfn Hok Hb) as (U1 & U2 & U3 & U4). unfold stepOk. cbv zeta in *. rewrite Hex.
  split_and!; [done|done|done|]. intros v p' id' e Hv He. rewrite Hexp in He. injection He as <- <- <-. by apply (U4 v).
Qed.

Lemma skillExec_ok s op : storeOk s → (next s + 64 < 2 ^ 64)%Z → stepOk s op.
Proof.
  intros Hok Hb. destruct op as [p owner b prov now|p owner id version e ev now|p owner id version e now|p owner id version e validated now|p owner id version e now
    |p owner id version e now|p owner id e target now].
  - destruct (create_ok s p owner b prov now Hok Hb) as (C1 & C2 & C3). by split_and!.
  - destruct (ValidateSkillEvaluation ev) eqn:Ev.
    + eapply (update_step s _ p owner id version e now); [|done|done|cbn [skillExec]; unfold RecordEvaluation; by rewrite Ev|done].
      apply own_ok. intros v v' Hv. case_bool; [done|]. case_bool; [done|]. intros [= <-]. apply Nat.leb_gt in E0. split_and!; [done|done| |].
      * apply vOk_inert; [done|by case_bool|by case_bool|]. rewrite length_app. cbn. unfold MaxSkillEvaluations in *. lia.
      * cbn. by case_bool.
    + unfold stepOk. cbn [skillExec]. unfold RecordEvaluation. rewrite Ev. cbn. split_and!; [done|apply evolves_refl|lia|done].
  - eapply update_step; [|done|done|done|done]. apply own_ok. intros v v' Hv. destruct (lastVerdict v) as [verdict|]; [|done]. case_bool; [done|]. intros [= <-].
    split_and!; [done|done|by apply vOk_moved|done].
  - eapply update_step; [apply activate_fnOk|done|done|done|done].
  - eapply update_step; [|done|done|done|done]. apply own_ok. intros v v' Hv. case_bool; [done|]. intros [= <-]. split_and!; [done|done|by apply vOk_moved|done].
  - eapply update_step; [|done|done|done|done]. apply own_ok. intros v v' Hv. case_bool; [done|]. intros [= <-]. apply negb_false_iff, bool_decide_eq_true in E.
    split_and!; [done|done|by apply vOk_retired|done].
  - destruct (skillRollback_ok s p owner id e target now Hok Hb) as (C1 & C2 & C3 & C4). split_and!; [done|done|done|]. intros v p' id' e' Hv [= <- <- <-]. by apply (C4 v).
Qed.

Lemma storeOk_New : storeOk New.
Proof.
  assert (Hb : ∀ pk, bucketOf New pk = ∅) by done.
  split; intros; rewrite ?Hb in *; try (by rewrite lookup_empty in *); try done. rewrite map_size_empty. unfold MaxSkillsPerPartition. lia.
Qed.

Lemma evolves_trans s1 s2 s3 : evolves s1 s2 → evolves s2 s3 → evolves s1 s3.
Proof.
  intros [N1 E1] [N2 E2]. split; [lia|]. intros pk id r Hr. destruct (E1 pk id r Hr) as (r1 & Hr1 & O1 & M1 & V1). destruct (E2 pk id r1 Hr1) as (r2 & Hr2 & O2 & M2 & V2).
  exists r2. split_and!; [done|congruence|congruence|]. eapply (revised_trans _ (next s2)); [lia|done|done].
Qed.

Lemma exec_list_ok s ops :
  storeOk s → (next s + 64 * Z.of_nat (length ops) < 2 ^ 64)%Z → let s' := foldl (λ s op, (skillExec s op).1) s ops in
  storeOk s' ∧ evolves s s' ∧ (next s' <= next s + 64 * Z.of_nat (length ops))%Z.
Proof.
  revert s. induction ops as [|op ops IH]; intros s Hok Hb; cbn [foldl length] in *; [split_and!; [done|apply evolves_refl|lia]|].
  destruct (skillExec_ok s op Hok ltac:(lia)) as (S1 & S2 & S3 & _). destruct (IH _ S1 ltac:(lia)) as (I1 & I2 & I3). split_and!; [done|by eapply evolves_trans|lia].
Qed.

Lemma archived_eligible v : vOk v → vState v = SkillArchived → rollbackEligible v = true.
Proof.
  intros Hv Hs. unfold rollbackEligible. rewrite bool_decide_true by done. cbn [andb]. destruct (vo_archived v Hv Hs) as [_ (pre & a & b & -> & Ha)].
  rewrite existsb_app. cbn [existsb]. unfold activation in Ha. rewrite Ha. apply orb_true_r.
Qed.

(** C22. What is active was earned.  After any sequence of repository calls every skill has
    at most one active version; a version is active or archived only if its last
    evaluation passed, or abstained on a version with cited evidence; every archived
    version can be rolled back to, although receipts are cut to the last 32; and the
    documented limits hold. *)
Theorem skill_active_earned ops :
  (64 * Z.of_nat (length ops) < 2 ^ 64)%Z →
  let s := skillRun ops in
  ∀ pk, size (bucketOf s pk) ≤ MaxSkillsPerPartition ∧ ∀ id r, bucketOf s pk !! id = Some r →
    length (srVersions r) ≤ MaxSkillVersionsPerSkill ∧ NoDup (vVersion <$> srVersions r) ∧
    (∀ i j v w, srVersions r !! i = Some v → srVersions r !! j = Some w → vState v = SkillActive → vState w = SkillActive → i = j) ∧
    (∀ v, v ∈ srVersions r →
      (vState v = SkillActive ∨ vState v = SkillArchived → qualified v) ∧ (vState v = SkillArchived → rollbackEligible v = true) ∧
      length (vReceipts v) ≤ MaxSkillReceipts ∧ length (vEvaluations v) ≤ MaxSkillEvaluations).
Proof.
  intros Hb s pk. destruct (exec_list_ok New ops storeOk_New Hb) as (Hok & _ & _). fold s in Hok. split; [apply Hok|]. intros id r Hr.
  destruct (so_rec _ Hok _ _ _ Hr) as [[R1 R2 R3 R4 R5] _]. split_and!; [done|done|done|]. intros v Hv. rewrite Forall_forall in R4. specialize (R4 v Hv).
  split_and!; [|by apply archived_eligible|apply R4|apply R4]. intros [H|H]; [by apply (vo_active _ R4)|by apply (vo_archived _ R4)].
Qed.

(** A request wins once.  When an evaluation, staging, activation, rejection, archiving
    or rollback that names a revision of a skill succeeds, no request that names that
    revision of that skill ever succeeds again, whatever happens in between. *)
Theorem skill_revision_once ops op ops' op' p id e v :
  (64 * Z.of_nat (length ops + S (length ops') + 1) < 2 ^ 64)%Z →
  expectedOf op = Some (p, id, e) → expectedOf op' = Some (p, id, e) → (skillExec (skillRun ops) op).2 = inl v →
  ∃ err, (skillExec (skillRun (ops ++ op :: ops')) op').2 = inr err.
Proof.
  intros Hb He He' Hv. unfold skillRun in *. rewrite foldl_app. cbn [foldl]. set (s := foldl (λ s op, (skillExec s op).1) New ops) in *.
  destruct (exec_list_ok New ops storeOk_New) as (Hok & _ & Hn); [cbn; lia|]. fold s in Hok, Hn. cbn [next New] in Hn.
  destruct (skillExec_ok s op Hok ltac:(lia)) as (S1 & S2 & S3 & S4). destruct (S4 v p id e Hv He) as [(r0 & i0 & v0 & Hr0 & Hv0 & Hrev) Hgone].
  set (s1 := (skillExec s op).1) in *. destruct (exec_list_ok s1 ops' S1 ltac:(lia)) as (T1 & T2 & T3). set (s2 := foldl (λ s op, (skillExec s op).1) s1 ops') in *.
  destruct (skillExec s2 op').2 as [v'|err] eqn:E'; [|by exists err]. exfalso.
  destruct (skillExec_ok s2 op' T1 ltac:(lia)) as (_ & _ & _ & S5). destruct (S5 v' p id e E' He') as [(r & i & w & Hr & Hw & Hrw) _].
  destruct (ev_rec _ _ S2 _ _ _ Hr0) as (r1 & Hr1 & _). destruct (ev_rec _ _ T2 _ _ _ Hr1) as (r2 & Hr2 & _ & _ & Hrv). simplify_eq.
  destruct (Hrv i w Hw) as [(u & Hu & Hru)|(k & Hk & Hwk)]; [apply (Hgone r1 i u Hr1 Hu); congruence|].
  destruct (so_rec _ Hok _ _ _ Hr0) as [_ [_ Hm]]. rewrite Forall_lookup in Hm. destruct (Hm _ _ Hv0) as (k0 & Hk0 & Hr0k). pose proof (ev_next _ _ S2).
  rewrite Hwk, Hr0k in Hrw. apply revisionText_inj in Hrw; lia.
Qed.
End invariants.

(** ** Samples *)

#[local] Instance sampleDigests : SkillDigests :=
  {| digestPartition := spPrincipal; digestTexts := λ l, [Npos (encode l)]; digestBundle := sbBody |}.

Lemma sample_texts_inj a b : take 32 (digestTexts a) = take 32 (digestTexts b) → a = b.
Proof. cbn. intros [= H]. by apply (inj encode). Qed.

Definition me : SkillPartition := mkPartition #"me" [].
Definition release : SkillBundle := mkBundle #"release" #"cut a release" #"tag and push".
Definition cited : SkillProvenance :=
  mkProvenance OriginNone ValidationAccept [] [mkEvidence [] #"s1" EvidenceMessage 0 0 None None [] #"0123456789abcdef" []] [].
Definition releaseID : gostr := skillID me #"main" #"release".

(** A draft that is evaluated, staged and activated on the strength of its evidence. *)
Definition releaseOps : list SkillOp :=
  [OCreateDraft me #"main" release cited 1; ORecordEvaluation me #"main" releaseID [] #"mem-1" (mkEvaluation EvaluationAbstain [] [] [] [] None) 2;
   OStage me #"main" releaseID [] #"mem-2" 3].
Definition activateRelease : SkillOp := OActivate me #"main" releaseID [] #"mem-3" true 4.

Lemma skill_active_earned_witness :
  ∃ r, bucketOf (skillRun (releaseOps ++ [activateRelease])) #"me" !! releaseID = Some r ∧ vState <$> srVersions r = [SkillActive] ∧ ∀ v, v ∈ srVersions r → qualified v.
Proof.
  assert (Hs : (λ r, vState <$> srVersions r) <$> bucketOf (skillRun (releaseOps ++ [activateRelease])) #"me" !! releaseID = Some [SkillActive]) by (vm_compute; reflexivity).
  destruct (bucketOf (skillRun (releaseOps ++ [activateRelease])) #"me" !! releaseID) as [r|] eqn:Er; [|done]. cbn in Hs. injection Hs as Hs. exists r. split_and!; [done|done|].
  intros v Hv. destruct (skill_active_earned sample_texts_inj (releaseOps ++ [activateRelease]) ltac:(cbn; lia) #"me") as [_ H].
  destruct (H releaseID r Er) as (_ & _ & _ & Hq). apply (Hq v Hv). left. assert (Hin : vState v ∈ vState <$> srVersions r) by (by apply list_elem_of_fmap_2).
  rewrite Hs in Hin. by apply list_elem_of_singleton in Hin.
Defined.

Lemma skill_revision_once_witness : ∃ err, (skillExec (skillRun (releaseOps ++ activateRelease :: [])) activateRelease).2 = inr err.
Proof.
  assert (Hs : match (skillExec (skillRun releaseOps) activateRelease).2 with inl _ => true | inr _ => false end = true) by (vm_compute; reflexivity).
  destruct (skillExec (skillRun releaseOps) activateRelease).2 as [v|] eqn:Ev; [|done].
  apply (skill_revision_once sample_texts_inj releaseOps activateRelease [] activateRelease me releaseID #"mem-3" v); [cbn; lia|done|done|exact Ev].
Defined.
