(* ===== verification/Regexp.v ===== *)
(** * Regular expressions

    What the code uses of the [regexp] package: patterns with classes, repetition, word and
    text boundaries and the case-insensitive flag.  A pattern is a term; [ends] lists the
    ends of its matches from a position, in the order of preference of the package
    (leftmost, then the first alternative, then the longest repetition), so that its head is
    the match the package reports.  [ends_matches] relates it to the language of the
    pattern. *)

From Stdlib Require Import Ascii.
From S2P Require Import Prelude.

(** ** Patterns *)

Module Re.

Inductive re :=
  | Eps | Class_ (p : rune → bool) | Cat (a b : re) | Alt (a b : re) | Star (a : re) | WordBoundary | BeginText | EndText.

Fixpoint cat (rs : list re) : re := match rs with [] => Eps | [r] => r | r :: rs' => Cat r (cat rs') end.
Fixpoint alt (rs : list re) : re := match rs with [] => Class_ (λ _, false) | [r] => r | r :: rs' => Alt r (alt rs') end.
Definition Plus (r : re) : re := Cat r (Star r).
Definition Quest (r : re) : re := Alt r Eps.
Fixpoint times (n : nat) (r : re) : re := match n with 0 => Eps | S n' => Cat r (times n' r) end.
Fixpoint upto (n : nat) (r : re) : re := match n with 0 => Eps | S n' => Quest (Cat r (upto n' r)) end.
(** [r{n,}] and [r{n,n+m}] *)
Definition atLeast (n : nat) (r : re) : re := Cat (times n r) (Star r).
Definition between (n m : nat) (r : re) : re := Cat (times n r) (upto m r).

Definition between_ (lo hi : ascii) (r : rune) : bool := ((chr lo <=? r) && (r <=? chr hi))%N.
Arguments between_ (lo hi)%_char_scope r.
Definition digit : rune → bool := between_ "0" "9".
Definition lowercase : rune → bool := between_ "a" "z".
Definition uppercase : rune → bool := between_ "A" "Z".
Definition oneOf (set : gostr) (r : rune) : bool := r ∈? set.
(** [\s] *)
Definition blank : rune → bool := λ r, (r =r 9) || (r =r 10) || (r =r 12) || (r =r 13) || (r =r 32).

(** [(?i)]: a rune stands for every rune that folds to the same: the other case of an ASCII
    letter, the long s and the Kelvin sign. *)
Definition folded (p : rune → bool) (r : rune) : bool :=
  p r || lowercase r && p (r - 32)%N || uppercase r && p (r + 32)%N
  || (r =r 383) && (p (chr "s") || p (chr "S")) || (r =r 8490) && (p (chr "k") || p (chr "K")).
Definition ci (p : rune → bool) : re := Class_ (folded p).
Definition text (s : gostr) : re := cat ((λ c, ci (N.eqb c)) <$> s).
Definition spaces : re := Star (Class_ blank).
Definition spaces1 : re := Plus (Class_ blank).

(** ** Matching *)

(** A position: the rune before it and the text after it. *)
Abbreviation position := (option rune * gostr)%type.

Definition wordRune (r : option rune) : bool :=
  match r with Some r => digit r || lowercase r || uppercase r || (r =r chr "_") | None => false end.
Definition boundary (p : position) : bool := xorb (wordRune p.1) (wordRune (head p.2)).

Fixpoint starEnds (f : position → list position) (n : nat) (p : position) : list position :=
  match n with
  | 0 => [p]
  | S n' => flat_map (λ q, if length q.2 <? length p.2 then starEnds f n' q else []) (f p) ++ [p]
  end.

Fixpoint ends (r : re) (p : position) : list position :=
  match r with
  | Eps => [p]
  | Class_ f => match p.2 with c :: s => if f c then [(Some c, s)] else [] | [] => [] end
  | Cat a b => flat_map (ends b) (ends a p)
  | Alt a b => ends a p ++ ends b p
  | Star a => starEnds (ends a) (length p.2) p
  | WordBoundary => if boundary p then [p] else []
  | BeginText => match p.1 with None => [p] | Some _ => [] end
  | EndText => match p.2 with [] => [p] | _ => [] end
  end.

Definition matchHere (r : re) (p : position) : bool := match ends r p with [] => false | _ => true end.

Fixpoint matchFrom (r : re) (prev : option rune) (s : gostr) : bool :=
  matchHere r (prev, s) || match s with [] => false | c :: s' => matchFrom r (Some c) s' end.

(** [Regexp.MatchString] *)
Definition MatchString (r : re) (s : gostr) : bool := matchFrom r None s.

(** ** The language of a pattern *)

Inductive matches : re → position → position → Prop :=
  | m_eps p : matches Eps p p
  | m_class (f : rune → bool) prev c s : f c = true → matches (Class_ f) (prev, c :: s) (Some c, s)
  | m_cat a b p q t : matches a p q → matches b q t → matches (Cat a b) p t
  | m_left a b p q : matches a p q → matches (Alt a b) p q
  | m_right a b p q : matches b p q → matches (Alt a b) p q
  | m_done a p : matches (Star a) p p
  | m_more a p q t : matches a p q → matches (Star a) q t → matches (Star a) p t
  | m_boundary p : boundary p = true → matches WordBoundary p p
  | m_begin s : matches BeginText (None, s) (None, s)
  | m_end prev : matches EndText (prev, []) (prev, []).
#[export] Hint Constructors matches : go.

(** [q] is [p] moved over some runes. *)
Definition moved (p q : position) : Prop := ∃ w, p.2 = w ++ q.2 ∧ q.1 = match last w with Some c => Some c | None => p.1 end.

Lemma moved_refl p : moved p p.
Proof. by exists []. Qed.

Lemma moved_trans p q t : moved p q → moved q t → moved p t.
Proof.
  intros (w & H1 & H2) (v & H3 & H4). exists (w ++ v). split; [by rewrite H1, H3, app_assoc|]. rewrite H4, H2, last_app. by destruct (last v).
Qed.

Lemma matches_moved r p q : matches r p q → moved p q.
Proof.
  induction 1; try apply moved_refl; try done; [by exists [c]|by eapply moved_trans|by eapply moved_trans].
Qed.

Lemma moved_length p q : moved p q → length q.2 <= length p.2 ∧ (length q.2 = length p.2 → q = p).
Proof.
  intros (w & H1 & H2). rewrite H1, length_app. split; [lia|]. intros E. assert (w = []) as -> by (destruct w; [done|cbn in E; lia]).
  destruct p, q. cbn in *. by subst.
Qed.

Lemma starEnds_spec a n p q :
  (∀ p q, q ∈ ends a p ↔ matches a p q) → length p.2 <= n → q ∈ starEnds (ends a) n p ↔ matches (Star a) p q.
Proof.
  intros Ha. revert p. induction n as [|n IH]; intros p Hn; cbn [starEnds].
  - rewrite list_elem_of_singleton. split; [intros ->; auto with go|]. intros Hm. apply matches_moved, moved_length in Hm as [H1 H2]. apply H2. lia.
  - rewrite elem_of_app, list_elem_of_singleton, list_elem_of_In, in_flat_map. split.
    + intros [(x & Hx & Hq)| ->]; [|auto with go]. apply list_elem_of_In, Ha in Hx. destruct (length x.2 <? length p.2) eqn:E; [|done]. apply Nat.ltb_lt in E.
      apply list_elem_of_In, IH in Hq; [|lia]. by eapply m_more.
    + intros Hm. remember (Star a) as r eqn:Er. revert Hn Er. induction Hm as [| | | | |a' p|a' p x t Hx _ Hq IHq| | |]; intros Hn Er; try done; [by right|]. injection Er as ->.
      pose proof (moved_length _ _ (matches_moved _ _ _ Hx)) as [H1 H2]. destruct (decide (length x.2 = length p.2)) as [E|E].
      * specialize (H2 E). subst x. by apply IHq.
      * left. exists x. split; [by apply list_elem_of_In, Ha|]. assert (length x.2 <? length p.2 = true) as -> by (apply Nat.ltb_lt; lia). apply list_elem_of_In, IH; [lia|done].
Qed.

Theorem ends_matches r p q : q ∈ ends r p ↔ matches r p q.
Proof.
  revert p q. induction r as [|f|a IHa b IHb|a IHa b IHb|a IHa| | |]; intros p q; cbn [ends].
  - rewrite list_elem_of_singleton. split; [intros ->; auto with go|by inversion 1].
  - split.
    + destruct p as [prev [|c s]]; cbn; [by intros ?%not_elem_of_nil|]. destruct (f c) eqn:E; [|by intros ?%not_elem_of_nil]. intros ->%list_elem_of_singleton. auto with go.
    + inversion 1 as [|? ? c s Hf| | | | | | | |]; subst. cbn. rewrite Hf. by apply list_elem_of_singleton.
  - rewrite list_elem_of_In, in_flat_map. split.
    + intros (x & Hx%list_elem_of_In%IHa & Hq%list_elem_of_In%IHb). by eapply m_cat.
    + inversion 1; subst. eexists. split; apply list_elem_of_In; [by apply IHa|by apply IHb].
  - rewrite elem_of_app, IHa, IHb. split; [intros [?|?]; auto with go|]. inversion 1; subst; auto.
  - by apply starEnds_spec.
  - destruct (boundary p) eqn:E; [rewrite list_elem_of_singleton|]; split; [intros ->; auto with go|by inversion 1|by intros ?%not_elem_of_nil|]. inversion 1; subst. congruence.
  - destruct p as [[c|] s]; cbn; [split; [by intros ?%not_elem_of_nil|by inversion 1]|]. rewrite list_elem_of_singleton. split; [intros ->; auto with go|by inversion 1].
  - destruct p as [prev [|c s]]; cbn; [rewrite list_elem_of_singleton; split; [intros ->; auto with go|by inversion 1]|]. split; [by intros ?%not_elem_of_nil|by inversion 1].
Qed.

Lemma matchHere_spec r p : matchHere r p = true ↔ ∃ q, matches r p q.
Proof.
  unfold matchHere. split.
  - destruct (ends r p) as [|q l] eqn:E; [done|]. intros _. exists q. apply ends_matches. rewrite E. left.
  - intros [q Hq%ends_matches]. by destruct (ends r p); [apply not_elem_of_nil in Hq|].
Qed.

Lemma matchFrom_spec r prev s :
  matchFrom r prev s = true ↔ ∃ w v q, s = w ++ v ∧ matches r (match last w with Some c => Some c | None => prev end, v) q.
Proof.
  revert prev. induction s as [|c s IH]; intros prev; cbn [matchFrom]; rewrite orb_true_iff, matchHere_spec.
  - split; [intros [[q Hq]|]; [|done]; by exists [], [], q|]. intros (w & v & q & Hs & Hq). symmetry in Hs. apply app_eq_nil in Hs as [-> ->]. left. by exists q.
  - rewrite IH. split.
    + intros [[q Hq]|(w & v & q & -> & Hq)]; [by exists [], (c :: s), q|]. exists (c :: w), v, q. split; [done|]. rewrite last_cons. by destruct (last w).
    + intros ([|c' w] & v & q & Hs & Hq); [left; exists q; by cbn in Hs; subst|]. injection Hs as <- ->. right. exists w, v, q. split; [done|]. rewrite last_cons in Hq. by destruct (last w).
Qed.

(** A text matches when the pattern relates two of its positions. *)
Theorem MatchString_spec r s : MatchString r s = true ↔ ∃ w v q, s = w ++ v ∧ matches r (last w, v) q.
Proof.
  unfold MatchString. rewrite matchFrom_spec. split; intros (w & v & q & Hs & Hq); exists w, v, q; (split; [done|]); by destruct (last w).
Qed.
End Re.
