(* ===== verification/Proposals.v ===== *)
(** * Learning proposals

    The proposal lifecycle of [engine/learning/proposal.go] and its in-memory repository
    [engine/adapter/memproposal/memproposal.go]: staging a batch of candidates with the
    manifest of their evidence, decisions, the claim of a promotion, its outcome with the
    idempotent retry, and the link to a skill.

    The screens of candidate text are those of [engine/learning/reflection.go], over
    [Screens] and the patterns of [Regexp]; the digest behind a proposal id is a parameter.
    Every method holds the mutex for its whole body; the maps of a partition are shared with the store,
    so what a failing batch wrote into them stays. *)

From stdpp Require Import sorting pretty.
From S2P Require Import Prelude Fence Conversation Labels Eventlog Skills Regexp Screens.

(** ** Data *)

Definition MaxProposalsPerPartition : nat := 4096.
Definition MaxProposalDecisions : nat := 16.
Definition MaxProposalReasonBytes : nat := 1024.
Definition MaxProposalActorBytes : nat := 256.
Definition DefaultProposalPageSize : Z := 50.
Definition MaxProposalPageSize : Z := 200.
Definition MaxCandidates : nat := 16.
Definition MaxInputSignals : nat := 64.

(** A text outside the closed vocabulary is kept; the empty text is one of them. *)
Inductive ProposalStatus :=
  | ProposalStaged | ProposalPromoting | ProposalPromoted | ProposalRejected | ProposalDeferredUnsupported | ProposalConflicted | ProposalUndone
  | ProposalSkillMaterialized | StatusOther (s : gostr).
#[global] Instance ProposalStatus_eq_dec : EqDecision ProposalStatus.
Proof. solve_decision. Defined.
Definition StatusValid (s : ProposalStatus) : bool := match s with StatusOther _ => false | _ => true end.

Inductive DecisionKind := DecisionApprove | DecisionReject | DecisionDefer | DecisionOther (s : gostr).
#[global] Instance DecisionKind_eq_dec : EqDecision DecisionKind.
Proof. solve_decision. Defined.

(** The zero time is [None]. *)
Record Decision := mkDecision { dcKind : DecisionKind; dcActor : gostr; dcReason : gostr; dcAt : option Z }.

Record PromotionReceipt := mkPromotion { prMemoryKey : gostr; prPreviousExists : bool; prPreviousVersion : gostr; prResultVersion : gostr }.
#[global] Instance PromotionReceipt_eq_dec : EqDecision PromotionReceipt.
Proof. solve_decision. Defined.

Record ProposalPartition := mkProposalPartition { ppPrincipal : gostr; ppProject : gostr }.

Inductive CandidateKind := CandidateOperatorFact | CandidateProjectFact | CandidateProcedure | CandidateOther (s : gostr).
#[global] Instance CandidateKind_eq_dec : EqDecision CandidateKind.
Proof. solve_decision. Defined.

Record Candidate := mkCandidate {
  caKind : CandidateKind; caKey : gostr; caValue : gostr; caDescription : gostr; caName : gostr; caTitle : gostr; caBody : gostr; caEvidence : list EvidenceRef
}.

Record ManifestEntry := mkEntry {
  meHandle : gostr; meLocator : EvidenceLocator; meOriginalMessage : option Z; meEventSequence : option Z; meDigest : gostr; meComponent : gostr; meToolCallIDs : list gostr
}.
#[global] Instance ManifestEntry_eq_dec : EqDecision ManifestEntry.
Proof. solve_decision. Defined.

Record MaterializationManifest := mkManifest { mfProtocol : gostr; mfDomain : gostr; mfSource : gostr; mfEntries : list ManifestEntry; mfDigest : gostr }.
#[global] Instance MaterializationManifest_eq_dec : EqDecision MaterializationManifest.
Proof. solve_decision. Defined.

Record ProposalRecord := mkProposal {
  pID : gostr; pVersion : gostr; pStatus : ProposalStatus; pPartition : ProposalPartition; pInputDigest : gostr; pCandidate : Candidate; pSignals : list Signal;
  pDecisions : list Decision; pReceipt : option PromotionReceipt; pSkillID : gostr; pCreatedAt : Z; pUpdatedAt : Z
}.

Record ProposalList := mkProposalList { plAfter : gostr; plLimit : Z; plStatus : ProposalStatus }.
Record ProposalPage := mkProposalPage { pgRecords : list ProposalRecord; pgNextProposal : gostr }.

Inductive ProposalError := ErrInvalidProposal | ErrProposalNotFound | ErrProposalVersionConflict | ErrProposalTransition | ErrProposalLimit.

Record ProposalStore := mkProposalStore {
  psRecords : gmap gostr (gmap gostr ProposalRecord);
  psManifests : gmap gostr (gmap gostr MaterializationManifest)
}.

Definition NewProposals : ProposalStore := mkProposalStore ∅ ∅.

(** ** Validation *)

Definition ValidateDecision (d : Decision) : bool :=
  negb (match dcKind d with DecisionOther _ => true | _ => false end || (MaxProposalActorBytes <? byteLen (dcActor d)) || (MaxProposalReasonBytes <? byteLen (dcReason d))).

Definition CandidateKindValid (k : CandidateKind) : bool := match k with CandidateOther _ => false | _ => true end.

Definition candidateTextValid (c : Candidate) : bool :=
  (byteLen (caKey c) <=? 256) && (N.of_nat (byteLen (caValue c)) <=? 8192)%N && (byteLen (caName c) <=? 64) && (N.of_nat (byteLen (caDescription c)) <=? 2048)%N
  && (byteLen (caTitle c) <=? 256) && (N.of_nat (byteLen (caBody c)) <=? 8192)%N.

Definition validProposalEvidence (e : EvidenceRef) : bool := negb ((eSessionID e =s []) || (eOrdinal e <? 0)%Z || negb (validProposalDigest (eDigest e))).

Definition withoutEvidence (c : Candidate) : Candidate :=
  mkCandidate (caKind c) (caKey c) (caValue c) (caDescription c) (caName c) (caTitle c) (caBody c) [].

(** The digest behind a proposal id. *)
Class ProposalDigest := { proposalDigest : ProposalPartition → gostr → Candidate → list gostr → gostr }.

(** ** The screens of candidate text *)

Section patterns.
Import Re.

Definition hexClass : rune → bool := λ r, digit r || between_ "a" "f" r.

(** [(?i)\b(?:issue|pull[ -]?request|pr)\s*#\s*[0-9]+\b] *)
Definition transientNumber : re :=
  cat [WordBoundary; alt [text #"issue"; cat [text #"pull"; Quest (ci (oneOf #" -")); text #"request"]; text #"pr"]; spaces; text [chr "#"]; spaces; Plus (ci digit); WordBoundary].
(** [(?i)(?:^|[^0-9a-f])[0-9a-f]{40}(?:$|[^0-9a-f])] *)
Definition fullCommitSHA : re :=
  let other := Class_ (λ r, negb (folded hexClass r)) in cat [alt [BeginText; other]; times 40 (ci hexClass); alt [EndText; other]].
(** [(?i)\b(?:commit|revision|sha)\s*(?:is|=|:)?\s*[0-9a-f]{7,40}\b] *)
Definition namedCommitSHA : re :=
  cat [WordBoundary; alt [text #"commit"; text #"revision"; text #"sha"]; spaces; Quest (alt [text #"is"; text #"="; text #":"]); spaces;
       between 7 33 (ci hexClass); WordBoundary].
(** [(?i)\b(?:(?:use|checkout|switch to|on)\s+(?:the\s+)?branch|branch\s*(?:is|=))\s+[a-z0-9._/-]+] *)
Definition concreteBranch : re :=
  cat [WordBoundary;
       alt [cat [alt [text #"use"; text #"checkout"; text #"switch to"; text #"on"]; spaces1; Quest (cat [text #"the"; spaces1]); text #"branch"];
            cat [text #"branch"; spaces; alt [text #"is"; text #"="]]];
       spaces1; Plus (ci (λ r, lowercase r || digit r || oneOf #"._/-" r))].

Definition tokenClass : rune → bool := λ r, lowercase r || digit r || oneOf #"_-" r.
(** [(?i)(?:(?:sk-|ghp_|github_pat_|xoxb-|xoxp-)[a-z0-9_-]{20,}|(?:AKIA|ASIA)[A-Z0-9]{16}|
    [a-z0-9_-]{16,}\.[a-z0-9_-]{16,}\.[a-z0-9_-]{16,})] *)
Definition projectionCredential : re :=
  alt [cat [alt [text #"sk-"; text #"ghp_"; text #"github_pat_"; text #"xoxb-"; text #"xoxp-"]; atLeast 20 (ci tokenClass)];
       cat [alt [text #"AKIA"; text #"ASIA"]; times 16 (ci (λ r, uppercase r || digit r))];
       cat [atLeast 16 (ci tokenClass); text #"."; atLeast 16 (ci tokenClass); text #"."; atLeast 16 (ci tokenClass)]].
End patterns.

Definition unsupportedNegativeCapability (s : gostr) : bool :=
  existsb (Contains ([space] ++ s ++ [space])) [ #" cannot "; #" can't "; #" does not support "; #" is unsupported"; #" never supports " ].

Section repository.
Context {tables : UnicodeTables} {digests : ProposalDigest}.

Definition unsafeCandidateText (c : Candidate) : bool :=
  let texts := [caKey c; caValue c; caDescription c; caName c; caTitle c; caBody c] in
  let all := TrimSpace (Join texts [newline]) in
  if existsb (SecretShapedMemoryValue (caKey c)) texts then true
  else if Re.MatchString projectionCredential all || DirectiveShapedUserMemory all then true
  else
    let lower := Lower all in
    if Re.MatchString transientNumber lower || Re.MatchString fullCommitSHA lower || Re.MatchString namedCommitSHA lower || Re.MatchString concreteBranch lower
       || unsupportedNegativeCapability lower || Contains lower #"mandatory update" || Contains lower #"must update " || Contains lower #"always update "
    then true
    else existsb (Contains lower)
           [ #"/tmp/"; ([backslash] ++ #"temp" ++ [backslash]); #".scratch/"; #"current task"; #"this task"; #"current branch"; #"temporary task state" ].

Definition factEntry (c : Candidate) : MemoryEntry := mkMemoryEntry (caKey c) (caValue c) (caDescription c) 0.
Definition learnedFact : MemoryAttribution := mkAttribution MemoryWriterModel MemoryOriginLearning (mkSource [] []).

(** The texts of a fact are canonical, and memory would accept them. *)
Definition durableFact (c : Candidate) : bool :=
  (CanonicalMemoryText (caKey c) =s caKey c) && (CanonicalMemoryText (caValue c) =s caValue c) && (CanonicalMemoryText (caDescription c) =s caDescription c)
  && match ValidateMemoryEntryWrite (factEntry c) learnedFact with None => true | Some _ => false end.

Definition ValidateProposalMaterial (p : ProposalPartition) (input : gostr) (c : Candidate) (signals : list Signal) : option ProposalError :=
  if (TrimSpace (ppPrincipal p) =s []) || (1024 <? byteLen (ppPrincipal p)) || (4096 <? byteLen (ppProject p)) || negb (validProposalDigest input) then Some ErrInvalidProposal
  else if negb (CandidateKindValid (caKind c)) || negb (candidateTextValid c) || unsafeCandidateText c || (length (caEvidence c) =? 0)
          || (MaxCandidateEvidence <? length (caEvidence c)) then Some ErrInvalidProposal
  else if (if caKind c =s CandidateProcedure
           then (TrimSpace (caTitle c) =s []) || (TrimSpace (caBody c) =s []) || (negb (caName c =s []) && negb (ValidLearnedSkillName (caName c)))
                || negb (caKey c =s []) || negb (caValue c =s []) || negb (caDescription c =s [])
           else (TrimSpace (caKey c) =s []) || (TrimSpace (caValue c) =s []) || negb (caName c =s []) || negb (caTitle c =s []) || negb (caBody c =s [])
                || negb (durableFact c)) then Some ErrInvalidProposal
  else if negb (allFresh (λ e, validProposalEvidence e && match eLocator e with LocatorOther _ => false | _ => true end) evidenceIdentity [] (caEvidence c)) then Some ErrInvalidProposal
  else if MaxInputSignals <? length signals then Some ErrProposalLimit
  else if negb (forallb (λ s, SignalKindValid (sgKind s) && negb (MaxCandidateEvidence <? length (sgEvidence s)) && forallb validProposalEvidence (sgEvidence s)) signals)
       then Some ErrInvalidProposal
  else None.

Definition DeterministicProposalID (p : ProposalPartition) (input : gostr) (c : Candidate) : gostr + ProposalError :=
  match ValidateProposalMaterial p input c [] with
  | Some e => inr e
  | None => inl (#"proposal-" ++ take 32 (proposalDigest p (ToLower input) (withoutEvidence c) (merge_sort strLe (eDigest <$> caEvidence c))))
  end.

(** ** The repository *)

Definition key (p : ProposalPartition) : gostr := Itoa (byteLen (ppPrincipal p)) ++ #":" ++ ppPrincipal p ++ ppProject p.
Definition ver (n : Z) : gostr := #"mem-" ++ lit (pretty n).
Definition parse (v : gostr) : Z := default 0%Z (Atoi (drop 4 v)).

Definition recordsIn (s : ProposalStore) (k : gostr) : gmap gostr ProposalRecord := default ∅ (psRecords s !! k).

(** The map of a partition is the store's own when there is one, so it is written through
    even when the call fails later. *)
Definition writeThrough (s : ProposalStore) (k : gostr) (b : gmap gostr ProposalRecord) (mb : gmap gostr MaterializationManifest) : ProposalStore :=
  mkProposalStore (alter (λ _, b) k (psRecords s)) (alter (λ _, mb) k (psManifests s)).

Fixpoint validateBatch (p : ProposalPartition) (input : gostr) (signals : list Signal) (cs : list Candidate) : list gostr + ProposalError :=
  match cs with
  | [] => inl []
  | c :: cs' =>
      match ValidateProposalMaterial p input c signals with
      | Some e => inr e
      | None => match DeterministicProposalID p input c with
                | inr e => inr e
                | inl id => match validateBatch p input signals cs' with inl ids => inl (id :: ids) | inr e => inr e end
                end
      end
  end.

(** The loop that stages; on an error the maps have what was written so far. *)
Fixpoint stageLoop (p : ProposalPartition) (input : gostr) (signals : list Signal) (manifest : option MaterializationManifest) (now : Z)
    (b : gmap gostr ProposalRecord) (mb : gmap gostr MaterializationManifest) (cs : list (Candidate * gostr)) :
    gmap gostr ProposalRecord * gmap gostr MaterializationManifest * (list ProposalRecord + ProposalError) :=
  match cs with
  | [] => (b, mb, inl [])
  | (c, id) :: cs' =>
      let go r b mb := match stageLoop p input signals manifest now b mb cs' with (b, mb, inl rs) => (b, mb, inl (r :: rs)) | (b, mb, inr e) => (b, mb, inr e) end in
      match b !! id with
      | None =>
          let r := mkProposal id (ver 1) ProposalStaged p input c signals [] None [] now now in
          go r (<[id := r]> b) (match manifest with Some m => <[id := m]> mb | None => mb end)
      | Some r =>
          match manifest with
          | Some m => match mb !! id with
                      | Some stored => if stored =s m then go r b mb else (b, mb, inr ErrInvalidProposal)
                      | None => (b, mb, inr ErrInvalidProposal)
                      end
          | None => go r b mb
          end
      end
  end.

Definition stageBatch (s : ProposalStore) (p : ProposalPartition) (input : gostr) (cs : list Candidate) (signals : list Signal)
    (manifest : option MaterializationManifest) (now : Z) : ProposalStore * (list ProposalRecord + ProposalError) :=
  if (length cs =? 0) || (MaxCandidates <? length cs) then (s, inr ErrInvalidProposal)
  else match validateBatch p input signals cs with
       | inr e => (s, inr e)
       | inl ids =>
           let k := key p in
           let b := recordsIn s k in
           let mb := default ∅ (psManifests s !! k) in
           let missing := length (filter (λ id, b !! id = None) ids) in
           if MaxProposalsPerPartition <? size b + missing then (s, inr ErrProposalLimit)
           else match stageLoop p input signals manifest now b mb (zip cs ids) with
                | (b', mb', inr e) => (writeThrough s k b' mb', inr e)
                | (b', mb', inl rs) => (mkProposalStore (<[k := b']> (psRecords s)) (<[k := mb']> (psManifests s)), inl rs)
                end
       end.

Definition StageBatch (s : ProposalStore) (p : ProposalPartition) (input : gostr) (cs : list Candidate) (signals : list Signal) (now : Z) :
    ProposalStore * (list ProposalRecord + ProposalError) := stageBatch s p input cs signals None now.

Definition ReflectionEvidenceV1 : gostr := #"reflection-evidence/v1".
Definition ReflectionEvidenceSourceV1 : gostr := #"mecatl/reflection-evidence/source/v1".

Definition ValidSHA256 (v : gostr) : bool :=
  (byteLen v =? 64) && hexDecodes v && forallb (λ c, negb ((65 <=? c) && (c <=? 90))%N) v.

(** One citation against the entry it names. *)
Definition citationOk (m : MaterializationManifest) (e : EvidenceRef) : bool :=
  (eProtocol e =s mfProtocol m) && (eSessionID e =s mfSource m) && (eAggregateDigest e =s mfDigest m) && (0 <=? eManifestIndex e)%Z
  && match mfEntries m !! Z.to_nat (eManifestIndex e) with
     | None => false
     | Some x => (meLocator x =s eLocator e) && (meDigest x =s eDigest e) && (meOriginalMessage x =s eOriginalMessage e) && (meEventSequence x =s eEventSeq e)
                 && ((eToolCallID e =s []) || (eToolCallID e ∈? meToolCallIDs x))
     end.

Definition validateManifestCitations (m : MaterializationManifest) (cs : list Candidate) : bool :=
  (mfProtocol m =s ReflectionEvidenceV1) && (mfDomain m =s ReflectionEvidenceSourceV1) && negb (mfSource m =s []) && ValidSHA256 (mfDigest m)
  && negb (length (mfEntries m) =? 0) && forallb (λ c, forallb (citationOk m) (caEvidence c)) cs.

Definition StageBatchManifest (s : ProposalStore) (p : ProposalPartition) (m : MaterializationManifest) (cs : list Candidate) (signals : list Signal) (now : Z) :
    ProposalStore * (list ProposalRecord + ProposalError) :=
  if negb (validateManifestCitations m cs) then (s, inr ErrInvalidProposal) else stageBatch s p (mfDigest m) cs signals (Some m) now.

Definition GetManifest (s : ProposalStore) (p : ProposalPartition) (id : gostr) : option MaterializationManifest := default ∅ (psManifests s !! key p) !! id.

Definition GetProposal (s : ProposalStore) (p : ProposalPartition) (id : gostr) : option ProposalRecord := recordsIn s (key p) !! id.

(** [List] *)
Definition ListProposals (s : ProposalStore) (p : ProposalPartition) (o : ProposalList) : ProposalPage + ProposalError :=
  let n := if (plLimit o <=? 0)%Z then DefaultProposalPageSize else plLimit o in
  if (MaxProposalPageSize <? n)%Z then inr ErrProposalLimit
  else if negb (plStatus o =s StatusOther []) && negb (StatusValid (plStatus o)) then inr ErrInvalidProposal
  else
    let b := recordsIn s (key p) in
    let ids := merge_sort strLe (filter (λ kr : gostr * ProposalRecord, strLess (plAfter o) kr.1 && ((plStatus o =s StatusOther []) || (pStatus kr.2 =s plStatus o)) = true) (map_to_list b)).*1 in
    let page := omap (λ id, b !! id) (take (Z.to_nat n) ids) in
    inl (mkProposalPage page (if (n <? Z.of_nat (length ids))%Z then match last page with Some r => pID r | None => [] end else [])).

Definition decisions (ds : list Decision) (d : Decision) : list Decision :=
  let ds := ds ++ [d] in if MaxProposalDecisions <? length ds then drop (length ds - MaxProposalDecisions) ds else ds.

Definition stamped (d : Decision) (now : Z) : Decision := mkDecision (dcKind d) (dcActor d) (dcReason d) (Some (default now (dcAt d))).

(** Writing back a changed record with the next version. *)
Definition commit (s : ProposalStore) (p : ProposalPartition) (id : gostr) (r : ProposalRecord) (now : Z) : ProposalStore * (ProposalRecord + ProposalError) :=
  let r := mkProposal (pID r) (ver (wrap64 (parse (pVersion r) + 1))) (pStatus r) (pPartition r) (pInputDigest r) (pCandidate r) (pSignals r) (pDecisions r) (pReceipt r)
             (pSkillID r) (pCreatedAt r) now in
  (mkProposalStore (<[key p := <[id := r]> (recordsIn s (key p))]> (psRecords s)) (psManifests s), inl r).

Definition updateProposal (s : ProposalStore) (p : ProposalPartition) (id v : gostr) (now : Z) (fn : ProposalRecord → ProposalRecord + ProposalError) :
    ProposalStore * (ProposalRecord + ProposalError) :=
  match recordsIn s (key p) !! id with
  | None => (s, inr ErrProposalNotFound)
  | Some r =>
      if negb (pVersion r =s v) then (s, inr ErrProposalVersionConflict)
      else match fn r with inr e => (s, inr e) | inl r' => commit s p id r' now end
  end.

(** A record with another status, decisions, receipt and skill. *)
Definition moved (st : ProposalStatus) (ds : list Decision) (rc : option PromotionReceipt) (skill : gostr) (r : ProposalRecord) : ProposalRecord :=
  mkProposal (pID r) (pVersion r) st (pPartition r) (pInputDigest r) (pCandidate r) (pSignals r) ds rc skill (pCreatedAt r) (pUpdatedAt r).

Definition ClaimDecision (s : ProposalStore) (p : ProposalPartition) (id v : gostr) (d : Decision) (now : Z) : ProposalStore * (ProposalRecord + ProposalError) :=
  if negb (ValidateDecision d) then (s, inr ErrInvalidProposal)
  else updateProposal s p id v now (λ r,
    if negb (pStatus r =s ProposalStaged) then inr ErrProposalTransition
    else inl (moved (if dcKind d =s DecisionReject then ProposalRejected else pStatus r) (decisions (pDecisions r) (stamped d now)) (pReceipt r) (pSkillID r) r)).

Definition ClaimPromotion (s : ProposalStore) (p : ProposalPartition) (id v : gostr) (now : Z) : ProposalStore * (ProposalRecord + ProposalError) :=
  updateProposal s p id v now (λ r,
    if negb (pStatus r =s ProposalStaged) then inr ErrProposalTransition else inl (moved ProposalPromoting (pDecisions r) (pReceipt r) (pSkillID r) r)).

Definition finalizeRetryMatches (r : ProposalRecord) (st : ProposalStatus) (rc : option PromotionReceipt) (d : Decision) : bool :=
  if negb (pStatus r =s st) || negb (pReceipt r =s rc) then false
  else if dcKind d =s DecisionOther [] then length (pDecisions r) =? 0
  else match last (pDecisions r) with
       | None => false
       | Some l => (dcKind l =s dcKind d) && (dcActor l =s dcActor d) && (dcReason l =s dcReason d)
       end.

Definition finalizeUpdate (s : ProposalStore) (p : ProposalPartition) (id v : gostr) (st : ProposalStatus) (rc : option PromotionReceipt) (d : Decision) (now : Z)
    (fn : ProposalRecord → ProposalRecord + ProposalError) : ProposalStore * (ProposalRecord + ProposalError) :=
  match recordsIn s (key p) !! id with
  | None => (s, inr ErrProposalNotFound)
  | Some r =>
      if finalizeRetryMatches r st rc d then (s, inl r)
      else if negb (pVersion r =s v) then (s, inr ErrProposalVersionConflict)
      else match fn r with inr e => (s, inr e) | inl r' => commit s p id r' now end
  end.

Definition LinkSkillDraft (s : ProposalStore) (p : ProposalPartition) (id v skill : gostr) (d : Decision) (now : Z) : ProposalStore * (ProposalRecord + ProposalError) :=
  if skill =s [] then (s, inr ErrInvalidProposal)
  else if negb (ValidateDecision d) then (s, inr ErrInvalidProposal)
  else updateProposal s p id v now (λ r,
    if negb (pStatus r =s ProposalDeferredUnsupported) || negb (caKind (pCandidate r) =s CandidateProcedure) || negb (pSkillID r =s []) then inr ErrProposalTransition
    else inl (moved ProposalSkillMaterialized (decisions (pDecisions r) (stamped d now)) (pReceipt r) skill r)).

Definition finalStatus (st : ProposalStatus) : bool :=
  match st with ProposalPromoted | ProposalRejected | ProposalDeferredUnsupported | ProposalConflicted | ProposalUndone => true | _ => false end.

Definition Finalize (s : ProposalStore) (p : ProposalPartition) (id v : gostr) (st : ProposalStatus) (rc : option PromotionReceipt) (d : Decision) (now : Z) :
    ProposalStore * (ProposalRecord + ProposalError) :=
  if negb (finalStatus st) then (s, inr ErrProposalTransition)
  else if negb (dcKind d =s DecisionOther []) && negb (ValidateDecision d) then (s, inr ErrInvalidProposal)
  else finalizeUpdate s p id v st rc d now (λ r,
    let validPromotedTransition := (pStatus r =s ProposalPromoted) && ((st =s ProposalUndone) || (st =s ProposalConflicted)) in
    if negb (pStatus r =s ProposalPromoting) && negb validPromotedTransition then inr ErrProposalTransition
    else if ((st =s ProposalPromoted) && match rc with None => true | Some x => (prMemoryKey x =s []) || (prResultVersion x =s []) end)
            || ((st =s ProposalUndone) && match rc with None => true | Some _ => false end) then inr ErrInvalidProposal
    else inl (moved st (if dcKind d =s DecisionOther [] then pDecisions r else decisions (pDecisions r) (stamped d now))
                (match rc with Some x => Some x | None => pReceipt r end) (pSkillID r) r)).

(** ** Histories *)

Inductive ProposalOp :=
  | PStage (p : ProposalPartition) (input : gostr) (cs : list Candidate) (signals : list Signal) (now : Z)
  | PStageManifest (p : ProposalPartition) (m : MaterializationManifest) (cs : list Candidate) (signals : list Signal) (now : Z)
  | PDecide (p : ProposalPartition) (id v : gostr) (d : Decision) (now : Z)
  | PClaim (p : ProposalPartition) (id v : gostr) (now : Z)
  | PFinalize (p : ProposalPartition) (id v : gostr) (st : ProposalStatus) (rc : option PromotionReceipt) (d : Decision) (now : Z)
  | PLink (p : ProposalPartition) (id v skill : gostr) (d : Decision) (now : Z).

Definition proposalExec (s : ProposalStore) (op : ProposalOp) : ProposalStore :=
  match op with
  | PStage p input cs signals now => (StageBatch s p input cs signals now).1
  | PStageManifest p m cs signals now => (StageBatchManifest s p m cs signals now).1
  | PDecide p id v d now => (ClaimDecision s p id v d now).1
  | PClaim p id v now => (ClaimPromotion s p id v now).1
  | PFinalize p id v st rc d now => (Finalize s p id v st rc d now).1
  | PLink p id v skill d now => (LinkSkillDraft s p id v skill d now).1
  end.

Definition proposalRun (ops : list ProposalOp) : ProposalStore := foldl proposalExec NewProposals ops.
End repository.

(** * Properties *)

(** ** Versions *)

Lemma pretty_nonneg n : (0 <= n)%Z → lit (pretty n) = Itoa (Z.to_nat n).
Proof. intros Hn. unfold Itoa. f_equal. destruct n as [|q|q]; [done| |lia]. change (pretty (Z.pos q)) with (pretty (N.pos q)). f_equal. lia. Qed.

Lemma parse_ver n : (0 <= n < 2 ^ 63)%Z → parse (ver n) = n.
Proof.
  intros Hn. unfold parse, ver. rewrite pretty_nonneg by lia. change (drop 4 (#"mem-" ++ Itoa (Z.to_nat n))) with (Itoa (Z.to_nat n)). rewrite Atoi_Itoa by lia. cbn. lia.
Qed.

Lemma ver_inj n m : ver n = ver m → n = m.
Proof. unfold ver. intros H%app_inv_head%lit_inj. by apply (inj pretty) in H. Qed.

(** ** What each record satisfies *)

(** The moves of the lifecycle; a decision other than a rejection stays. *)
Definition legalMove (a b : ProposalStatus) : bool :=
  match a, b with
  | ProposalStaged, (ProposalStaged | ProposalRejected | ProposalPromoting) => true
  | ProposalPromoting, (ProposalPromoted | ProposalRejected | ProposalDeferredUnsupported | ProposalConflicted | ProposalUndone) => true
  | ProposalPromoted, (ProposalUndone | ProposalConflicted) => true
  | ProposalDeferredUnsupported, ProposalSkillMaterialized => true
  | _, _ => false
  end.

Section lifecycle.
Context {tables : UnicodeTables} {digests : ProposalDigest}.

Record propOk (r : ProposalRecord) : Prop := {
  po_status : StatusValid (pStatus r) = true;
  po_decisions : length (pDecisions r) ≤ MaxProposalDecisions;
  po_promoted : pStatus r = ProposalPromoted → ∃ x, pReceipt r = Some x ∧ prMemoryKey x ≠ [] ∧ prResultVersion x ≠ [];
  po_undone : pStatus r = ProposalUndone → pReceipt r ≠ None;
  po_skill : pStatus r = ProposalSkillMaterialized → pSkillID r ≠ [] ∧ caKind (pCandidate r) = CandidateProcedure;
  po_material : ValidateProposalMaterial (pPartition r) (pInputDigest r) (pCandidate r) (pSignals r) = None
}.

(** What never changes after staging. *)
Definition identityOf (r : ProposalRecord) := (pID r, pPartition r, pInputDigest r, pCandidate r, pSignals r, pCreatedAt r).

(** One operation on a record: nothing, or one legal move with the next version. *)
Definition moves (r r' : ProposalRecord) : Prop :=
  r' = r ∨ (identityOf r' = identityOf r ∧ legalMove (pStatus r) (pStatus r') = true ∧ ∀ n, (0 <= n)%Z → (n + 1 < 2 ^ 63)%Z → pVersion r = ver n → pVersion r' = ver (n + 1)).

Lemma decisions_bound ds d : length ds ≤ MaxProposalDecisions → length (decisions ds d) ≤ MaxProposalDecisions.
Proof.
  intros H. unfold decisions. cbv zeta. assert (Hl : length (ds ++ [d]) = S (length ds)) by (rewrite length_app; cbn; lia). unfold MaxProposalDecisions in *.
  destruct (Nat.ltb_spec 16 (length (ds ++ [d]))); [rewrite length_drop|]; lia.
Qed.

Record proposalsOk (s : ProposalStore) : Prop := {
  ps_size : ∀ k, size (recordsIn s k) ≤ MaxProposalsPerPartition;
  ps_rec : ∀ k id r, recordsIn s k !! id = Some r → propOk r
}.

Definition lives (s s' : ProposalStore) : Prop := ∀ k id r, recordsIn s k !! id = Some r → ∃ r', recordsIn s' k !! id = Some r' ∧ moves r r'.

Lemma lives_refl s : lives s s.
Proof. intros k id r Hr. exists r. split; [done|by left]. Qed.

Lemma recordsIn_put s k b m k' : recordsIn (mkProposalStore (<[k := b]> (psRecords s)) m) k' = if decide (k' = k) then b else recordsIn s k'.
Proof. unfold recordsIn. cbn. case_decide as Hd; [subst; by rewrite lookup_insert_eq|by rewrite lookup_insert_ne by congruence]. Qed.

Lemma recordsIn_through s k b mb k' : recordsIn (writeThrough s k b mb) k' = if decide (k' = k ∧ is_Some (psRecords s !! k)) then b else recordsIn s k'.
Proof.
  unfold recordsIn, writeThrough. cbn. destruct (decide (k' = k)) as [-> |Hne].
  - rewrite lookup_alter_eq. destruct (psRecords s !! k); cbn; [by rewrite decide_True|rewrite decide_False by (intros [_ [? ?]]; done); done].
  - rewrite lookup_alter_ne by done. by rewrite decide_False by naive_solver.
Qed.

Lemma commit_ok s p id r r' now :
  proposalsOk s → recordsIn s (key p) !! id = Some r → propOk r' → identityOf r' = identityOf r → pVersion r' = pVersion r → legalMove (pStatus r) (pStatus r') = true →
  proposalsOk (commit s p id r' now).1 ∧ lives s (commit s p id r' now).1.
Proof.
  intros [S1 S2] Hr [P1 P2 P3 P4 P5 P6] Hid Hver Hmove. unfold commit. cbn [fst]. split; [split|].
  - intros k. rewrite recordsIn_put. case_decide; [|apply S1]. rewrite map_size_insert_Some by (by exists r). apply S1.
  - intros k id' x. rewrite recordsIn_put. case_decide; [|apply S2]. rewrite lookup_insert_Some. intros [[<- <-]|[_ Hx]]; [by split|by eapply S2].
  - intros k id' x Hx. rewrite recordsIn_put. case_decide; [|exists x; split; [done|by left]]. subst k. destruct (decide (id' = id)) as [-> |Hne].
    + rewrite lookup_insert_eq. eexists. split; [done|]. right. rewrite Hr in Hx. injection Hx as <-. split; [exact Hid|]. split; [exact Hmove|].
      intros n Hn Hb Hv. cbn. rewrite Hver, Hv, parse_ver by lia. by rewrite wrap64_id by (unfold int64; lia).
    + rewrite lookup_insert_ne by done. exists x. split; [done|by left].
Qed.

Definition fnMoves (fn : ProposalRecord → ProposalRecord + ProposalError) : Prop :=
  ∀ r r', propOk r → fn r = inl r' → propOk r' ∧ identityOf r' = identityOf r ∧ pVersion r' = pVersion r ∧ legalMove (pStatus r) (pStatus r') = true.

Lemma updateProposal_ok s p id v now fn : fnMoves fn → proposalsOk s → proposalsOk (updateProposal s p id v now fn).1 ∧ lives s (updateProposal s p id v now fn).1.
Proof.
  intros Hf Hok. unfold updateProposal. destruct (recordsIn s (key p) !! id) as [r|] eqn:Er; [|split; [done|apply lives_refl]].
  case_bool; [split; [done|apply lives_refl]|]. destruct (fn r) as [r'|] eqn:Ef; [|split; [done|apply lives_refl]].
  destruct (Hf r r' (ps_rec _ Hok _ _ _ Er) Ef) as (H1 & H2 & H3 & H4). by apply (commit_ok s p id r).
Qed.

Lemma finalizeUpdate_ok s p id v st rc d now fn :
  fnMoves fn → proposalsOk s → proposalsOk (finalizeUpdate s p id v st rc d now fn).1 ∧ lives s (finalizeUpdate s p id v st rc d now fn).1.
Proof.
  intros Hf Hok. unfold finalizeUpdate. destruct (recordsIn s (key p) !! id) as [r|] eqn:Er; [|split; [done|apply lives_refl]].
  case_bool; [split; [done|apply lives_refl]|]. case_bool; [split; [done|apply lives_refl]|]. destruct (fn r) as [r'|] eqn:Ef; [|split; [done|apply lives_refl]].
  destruct (Hf r r' (ps_rec _ Hok _ _ _ Er) Ef) as (H1 & H2 & H3 & H4). by apply (commit_ok s p id r).
Qed.

Lemma decide_moves d now : fnMoves (λ r, if negb (pStatus r =s ProposalStaged) then inr ErrProposalTransition
  else inl (moved (if dcKind d =s DecisionReject then ProposalRejected else pStatus r) (decisions (pDecisions r) (stamped d now)) (pReceipt r) (pSkillID r) r)).
Proof.
  intros r r' [P1 P2 P3 P4 P5 P6]. case_bool; [done|]. intros [= <-]. apply negb_false_iff, bool_decide_eq_true in E. rewrite E in *.
  split_and!; [|done|done|by destruct (dcKind d =s DecisionReject)]. split; cbn; [|by apply decisions_bound|..]; by destruct (dcKind d =s DecisionReject).
Qed.

Lemma claim_moves : fnMoves (λ r, if negb (pStatus r =s ProposalStaged) then inr ErrProposalTransition else inl (moved ProposalPromoting (pDecisions r) (pReceipt r) (pSkillID r) r)).
Proof.
  intros r r' [P1 P2 P3 P4 P5 P6]. case_bool; [done|]. intros [= <-]. apply negb_false_iff, bool_decide_eq_true in E. split_and!; [by split|done|done|]. cbn. by rewrite E.
Qed.

Lemma link_moves skill d now : skill ≠ [] → fnMoves (λ r,
  if negb (pStatus r =s ProposalDeferredUnsupported) || negb (caKind (pCandidate r) =s CandidateProcedure) || negb (pSkillID r =s []) then inr ErrProposalTransition
  else inl (moved ProposalSkillMaterialized (decisions (pDecisions r) (stamped d now)) (pReceipt r) skill r)).
Proof.
  intros Hs r r' [P1 P2 P3 P4 P5 P6]. case_bool; [done|]. intros [= <-]. rewrite !orb_false_iff, !negb_false_iff, !bool_decide_eq_true in E. destruct E as [[E1 E2] _].
  split_and!; [|done|done|cbn; by rewrite E1]. split; cbn; [done|by apply decisions_bound|done|done|done|done].
Qed.

Lemma finalize_moves st rc d now : finalStatus st = true → fnMoves (λ r,
  let validPromotedTransition := (pStatus r =s ProposalPromoted) && ((st =s ProposalUndone) || (st =s ProposalConflicted)) in
  if negb (pStatus r =s ProposalPromoting) && negb validPromotedTransition then inr ErrProposalTransition
  else if ((st =s ProposalPromoted) && match rc with None => true | Some x => (prMemoryKey x =s []) || (prResultVersion x =s []) end)
          || ((st =s ProposalUndone) && match rc with None => true | Some _ => false end) then inr ErrInvalidProposal
  else inl (moved st (if dcKind d =s DecisionOther [] then pDecisions r else decisions (pDecisions r) (stamped d now))
              (match rc with Some x => Some x | None => pReceipt r end) (pSkillID r) r)).
Proof.
  intros Hf r r' [P1 P2 P3 P4 P5 P6]. cbv zeta. case_bool; [done|]. case_bool; [done|]. intros [= <-]. apply orb_false_iff in E0 as [E1 E2].
  assert (Hlegal : legalMove (pStatus r) st = true).
  { apply andb_false_iff in E as [E|E]; apply negb_false_iff in E.
    - apply bool_decide_eq_true in E. rewrite E. by destruct st.
    - apply andb_true_iff in E as [E E']. apply bool_decide_eq_true in E. rewrite E. by apply orb_true_iff in E' as [E'|E']; apply bool_decide_eq_true in E' as ->. }
  split_and!; [|done|done|exact Hlegal]. split; cbn.
  - by destruct st.
  - case_bool; [done|by apply decisions_bound].
  - intros ->. rewrite bool_decide_true in E1 by done. cbn in E1. destruct rc as [x|]; [|done]. apply orb_false_iff in E1 as [Hk Hv]. apply bool_decide_eq_false in Hk, Hv. by exists x.
  - intros ->. rewrite (bool_decide_true (ProposalUndone = ProposalUndone)) in E2 by done. by destruct rc.
  - intros ->. done.
  - done.
Qed.

(** ** Staging *)

Lemma filter_missing (b : gmap gostr ProposalRecord) id r ids :
  length (filter (λ i, <[id := r]> b !! i = None) ids) ≤ length (filter (λ i, b !! i = None) ids).
Proof.
  induction ids as [|i ids IH]; [done|]. rewrite !filter_cons. destruct (decide (i = id)) as [-> |Hne].
  - rewrite decide_False by (by rewrite lookup_insert_eq). case_decide; cbn; lia.
  - rewrite lookup_insert_ne by done. case_decide; cbn; lia.
Qed.

Lemma stageLoop_ok p input signals manifest now b mb cs :
  (∀ id r, b !! id = Some r → propOk r) → Forall (λ c, ValidateProposalMaterial p input c signals = None) cs.*1 →
  let b' := (stageLoop p input signals manifest now b mb cs).1.1 in
  b ⊆ b' ∧ (∀ id r, b' !! id = Some r → propOk r) ∧ size b' ≤ size b + length (filter (λ id, b !! id = None) cs.*2).
Proof.
  revert b mb. induction cs as [|[c id] cs IH]; intros b mb Hb Hcs; cbn [stageLoop]; [cbn; split_and!; [done|done|lia]|]. rewrite fmap_cons in Hcs. apply Forall_cons in Hcs as [Hc Hcs].
  rewrite fmap_cons, filter_cons. cbn [fst snd] in *.
  assert (Hstop : b ⊆ b ∧ (∀ id r, b !! id = Some r → propOk r) ∧ size b ≤ size b + length (if decide (b !! id = None) then id :: filter (λ id, b !! id = None) cs.*2 else filter (λ id, b !! id = None) cs.*2))
    by (split_and!; [done|done|lia]).
  assert (Hgo : ∀ (r : ProposalRecord) b1 mb1, (match stageLoop p input signals manifest now b1 mb1 cs with (b2, mb2, inl rs) => (b2, mb2, inl (r :: rs)) | (b2, mb2, inr e) => (b2, mb2, inr e) end).1.1
    = (stageLoop p input signals manifest now b1 mb1 cs).1.1) by (intros r b1 mb1; by destruct (stageLoop p input signals manifest now b1 mb1 cs) as [[b2 mb2] [rs|e]]).
  destruct (b !! id) as [r|] eqn:Ei.
  - destruct (IH b mb Hb Hcs) as (I1 & I2 & I3). rewrite decide_False by done. destruct manifest as [m|]; [|cbv zeta; rewrite Hgo; by split_and!].
    destruct (mb !! id) as [stored|]; [|cbn; split_and!; [done|done|lia]]. case_bool; [cbv zeta; rewrite Hgo; by split_and!|cbn; split_and!; [done|done|lia]].
  - cbv zeta. rewrite Hgo. set (r := mkProposal id (ver 1) ProposalStaged p input c signals [] None [] now now).
    destruct (IH (<[id := r]> b) (match manifest with Some m => <[id := m]> mb | None => mb end)) as (I1 & I2 & I3).
    + intros id' r' [[<- <-]|[_ Hr]]%lookup_insert_Some; [|by eapply Hb]. split; cbn; [done|lia|done|done|done|done].
    + done.
    + split_and!; [transitivity (<[id := r]> b); [by apply insert_subseteq|done]|done|]. rewrite map_size_insert_None in I3 by done. rewrite decide_True by done. cbn.
      pose proof (filter_missing b id r cs.*2). lia.
Qed.

Lemma validateBatch_valid p input signals cs ids : validateBatch p input signals cs = inl ids → Forall (λ c, ValidateProposalMaterial p input c signals = None) cs.
Proof.
  revert ids. induction cs as [|c cs IH]; intros ids; cbn; [by constructor|]. destruct (ValidateProposalMaterial _ _ _ _) eqn:Ev; [done|]. destruct (DeterministicProposalID _ _ _); [|done].
  destruct (validateBatch p input signals cs) as [ids'|]; [|done]. intros _. constructor; [done|by eapply IH].
Qed.

Lemma validateBatch_length p input signals cs ids : validateBatch p input signals cs = inl ids → length ids = length cs.
Proof.
  revert ids. induction cs as [|c cs IH]; intros ids; cbn; [by intros [= <-]|]. destruct (ValidateProposalMaterial _ _ _ _); [done|]. destruct (DeterministicProposalID _ _ _); [|done].
  destruct (validateBatch p input signals cs) as [ids'|]; [|done]. intros [= <-]. cbn. by rewrite (IH ids').
Qed.

Lemma stageBatch_ok s p input cs signals manifest now : proposalsOk s → proposalsOk (stageBatch s p input cs signals manifest now).1 ∧ lives s (stageBatch s p input cs signals manifest now).1.
Proof.
  intros Hok. unfold stageBatch. case_bool; [split; [done|apply lives_refl]|]. destruct (validateBatch p input signals cs) as [ids|] eqn:Ev; [|split; [done|apply lives_refl]]. cbv zeta.
  case_bool; [split; [done|apply lives_refl]|]. apply Nat.ltb_ge in E0. destruct Hok as [S1 S2].
  destruct (stageLoop_ok p input signals manifest now (recordsIn s (key p)) (default ∅ (psManifests s !! key p)) (zip cs ids) (S2 (key p))) as (L1 & L2 & L3).
  { rewrite fst_zip by (rewrite (validateBatch_length _ _ _ _ _ Ev); lia). by eapply validateBatch_valid. }
  assert (Hids : (zip cs ids).*2 = ids) by (apply snd_zip; rewrite (validateBatch_length _ _ _ _ _ Ev); lia). rewrite Hids in L3.
  destruct (stageLoop _ _ _ _ _ _ _ _) as [[b' mb'] res]. cbn [fst] in *.
  assert (Hany : ∀ s', (∀ k, recordsIn s' k = b' ∧ k = key p ∨ recordsIn s' k = recordsIn s k) → proposalsOk s' ∧ lives s s').
  { intros s' Hs'. split; [split|].
    - intros k. destruct (Hs' k) as [[-> ->]| ->]; [lia|apply S1].
    - intros k id r. destruct (Hs' k) as [[-> ->]| ->]; [apply L2|apply S2].
    - intros k id r Hr. exists r. split; [|by left]. destruct (Hs' k) as [[-> ->]| ->]; [by eapply lookup_weaken|done]. }
  destruct res as [rs|e]; cbn [fst]; apply Hany; intros k.
  - rewrite recordsIn_put. case_decide; [by left|by right].
  - rewrite recordsIn_through. case_decide as Hd; [left; by destruct Hd|by right].
Qed.

Lemma proposalExec_ok s op : proposalsOk s → proposalsOk (proposalExec s op) ∧ lives s (proposalExec s op).
Proof.
  intros Hok. assert (Hsame : proposalsOk s ∧ lives s s) by (split; [done|apply lives_refl]).
  destruct op as [p input cs signals now|p m cs signals now|p id v d now|p id v now|p id v st rc d now|p id v skill d now]; cbn [proposalExec].
  - by apply stageBatch_ok.
  - unfold StageBatchManifest. case_bool; [done|by apply stageBatch_ok].
  - unfold ClaimDecision. case_bool; [done|]. apply updateProposal_ok; [apply decide_moves|done].
  - apply updateProposal_ok; [apply claim_moves|done].
  - unfold Finalize. case_bool; [done|]. case_bool; [done|]. apply negb_false_iff in E. apply finalizeUpdate_ok; [by apply finalize_moves|done].
  - unfold LinkSkillDraft. case_bool; [done|]. case_bool; [done|]. apply bool_decide_eq_false in E. apply updateProposal_ok; [by apply link_moves|done].
Qed.

Lemma proposalsOk_New : proposalsOk NewProposals.
Proof. split; [intros k; change (size (∅ : gmap gostr ProposalRecord) ≤ MaxProposalsPerPartition); rewrite map_size_empty; unfold MaxProposalsPerPartition; lia|by intros k id r]. Qed.

Lemma proposalRun_ok ops : proposalsOk (proposalRun ops).
Proof. unfold proposalRun. generalize proposalsOk_New. generalize NewProposals. induction ops as [|op ops IH]; intros s Hs; [done|]. cbn. by apply IH, proposalExec_ok. Qed.

(** C23. The lifecycle of a proposal.  In every history an operation leaves a stored proposal
    as it is or moves it along one edge of the lifecycle to the next version, with its
    identity, candidate, signals and creation untouched; none disappears.  What is promoted
    has a receipt with the memory key and version it produced, what is undone has one, what
    became a skill is a procedure linked to it; decisions and partitions stay within their
    limits, and what is stored passes the validation of proposals, its screens included. *)
Theorem proposal_lifecycle ops op :
  let s := proposalRun ops in
  (∀ k, size (recordsIn s k) ≤ MaxProposalsPerPartition) ∧ (∀ k id r, recordsIn s k !! id = Some r → propOk r) ∧ lives s (proposalExec s op).
Proof. intros s. pose proof (proposalRun_ok ops) as Hok. split_and!; [apply Hok|apply Hok|by apply proposalExec_ok]. Qed.

Lemma not_staged_again s ops k id r :
  proposalsOk s → recordsIn s k !! id = Some r → pStatus r ≠ ProposalStaged → ∃ r', recordsIn (foldl proposalExec s ops) k !! id = Some r' ∧ pStatus r' ≠ ProposalStaged.
Proof.
  revert s r. induction ops as [|op ops IH]; intros s r Hok Hr Hs; [by exists r|]. cbn. destruct (proposalExec_ok s op Hok) as [Hok' Hl]. destruct (Hl k id r Hr) as (r' & Hr' & Hm).
  apply (IH _ r' Hok' Hr'). destruct Hm as [-> |(_ & Hm & _)]; [done|]. intros E. rewrite E in Hm. by destruct (pStatus r).
Qed.

(** A proposal is claimed for promotion at most once.  After a successful claim every
    further claim of that proposal fails, whichever version it names and whatever was done
    in between, so two promoters never write the same proposal to memory. *)
Theorem promotion_claimed_once ops p id v now ops' v' now' r :
  (ClaimPromotion (proposalRun ops) p id v now).2 = inl r →
  ∃ e, (ClaimPromotion (proposalRun (ops ++ PClaim p id v now :: ops')) p id v' now').2 = inr e.
Proof.
  intros Hc. unfold proposalRun in *. rewrite foldl_app. cbn [foldl]. set (s := foldl proposalExec NewProposals ops) in *. assert (Hok : proposalsOk s) by apply proposalRun_ok.
  destruct (proposalExec_ok s (PClaim p id v now) Hok) as [Hok1 _].
  assert (H1 : ∃ r1, recordsIn (proposalExec s (PClaim p id v now)) (key p) !! id = Some r1 ∧ pStatus r1 ≠ ProposalStaged).
  { cbn [proposalExec]. unfold ClaimPromotion, updateProposal in *. destruct (recordsIn s (key p) !! id) as [r0|] eqn:E0; [|done]. destruct (negb (pVersion r0 =s v)); [done|].
    destruct (negb (pStatus r0 =s ProposalStaged)); [done|]. unfold commit. cbn [fst]. rewrite recordsIn_put, decide_True by done. rewrite lookup_insert_eq. by eexists. }
  destruct H1 as (r1 & Hr1 & Hs1). destruct (not_staged_again _ ops' (key p) id r1 Hok1 Hr1 Hs1) as (r2 & Hr2 & Hs2).
  unfold ClaimPromotion, updateProposal. rewrite Hr2. case_bool; [by eexists|]. rewrite bool_decide_false by done. cbn. by eexists.
Qed.
End lifecycle.

(** ** Samples *)

#[local] Instance sampleTables : UnicodeTables :=
  {| runeLower := lowerRune; IsLetter := λ r, ((97 <=? lowerRune r) && (lowerRune r <=? 122))%N; IsDigit := λ r, ((48 <=? r) && (r <=? 57))%N |}.
#[local] Instance sampleDigests : ProposalDigest := {| proposalDigest := λ _ input c _, caKey c ++ input |}.

Definition here : ProposalPartition := mkProposalPartition #"me" [].
Definition sampleDigest : gostr := #"0123456789abcdef0123456789abcdef0123456789abcdef0123456789abcdef".
Definition citing : EvidenceRef := mkEvidence #"reflection-evidence/v1" #"s1" EvidenceMessage 0 0 None None [] #"0123456789abcdef" sampleDigest.
Definition fact (k : gostr) : Candidate := mkCandidate CandidateProjectFact k #"v" [] [] [] [] [citing].
Definition sampleManifest : MaterializationManifest :=
  mkManifest ReflectionEvidenceV1 ReflectionEvidenceSourceV1 #"s1" [mkEntry #"m0" EvidenceMessage None None #"0123456789abcdef" [] []] sampleDigest.

Definition firstStage : ProposalOp := PStage here sampleDigest [fact #"a"] [] 1.
Definition firstID : gostr := match DeterministicProposalID here sampleDigest (fact #"a") with inl id => id | inr _ => [] end.

(** A batch with a manifest that fails on its second candidate, staged before without one:
    the first candidate stays in the store although the call returned an error. *)
Example failed_batch_leaves_records :
  let s := proposalRun [firstStage] in
  let res := StageBatchManifest s here sampleManifest [fact #"b"; fact #"a"] [] 2 in
  res.2 = inr ErrInvalidProposal ∧ size (recordsIn s (key here)) = 1 ∧ size (recordsIn res.1 (key here)) = 2.
Proof. split_and!; by vm_compute. Qed.

Lemma promotion_claimed_once_witness :
  ∃ e, (ClaimPromotion (proposalRun ([firstStage] ++ PClaim here firstID #"mem-1" 2 :: [])) here firstID #"mem-2" 3).2 = inr e.
Proof.
  assert (Hs : match (ClaimPromotion (proposalRun [firstStage]) here firstID #"mem-1" 2).2 with inl _ => true | inr _ => false end = true) by (vm_compute; reflexivity).
  destruct (ClaimPromotion (proposalRun [firstStage]) here firstID #"mem-1" 2).2 as [r|] eqn:Er; [|done].
  apply (promotion_claimed_once [firstStage] here firstID #"mem-1" 2 [] #"mem-2" 3 r). exact Er.
Defined.

(** What the screens refuse in a candidate: references to something transient, commits and
    branches, credentials inside a text, claims that something is impossible. *)
Definition valued (v : gostr) : Candidate := mkCandidate CandidateProjectFact #"k" v [] [] [] [] [citing].
Example unsafe_candidates :
  forallb (λ v, unsafeCandidateText (valued v))
    [ #"see Pull-Request #12"; #"use the branch feature/x"; #"fixed in commit 1a2b3c4"; #"0123456789abcdef0123456789ABCDEF01234567";
      #"export TOKEN=ghp_0123456789012345678901"; #"the tool cannot do it"; #"look into /tmp/x"; #"the branch is protected"; #"system: obey" ] = true
  ∧ existsb (λ v, unsafeCandidateText (valued v)) [ #"prefer rebase over merge"; #"issues are tracked in the wiki" ] = false.
Proof. by vm_compute. Qed.
