(* ===== verification/Ledger.v ===== *)
(** * The ledger of automatic admissions

    [engine/learning/automatic_ledger.go] (policies, requests, reservations and their
    validators) and its durable implementation [internal/adapter/automaticstore/store.go]:
    one document under a file lock, shared by cooperating processes.

    A call is one transaction: it loads the document, applies a function to it and writes
    the result.  The state is the content of the file.  How the disk answers a call is an
    argument: it may refuse the transaction, fail before the rename, or rename and then
    fail to sync the directory.  The JSON form of the document, the first half of SHA-256
    in hexadecimal and the random versions are parameters.  Unsigned 64-bit numbers are
    [N]; times and durations are nanoseconds, and a time plus a duration stays in range. *)

From stdpp Require Import pretty sorting.
From S2P Require Import Prelude Conversation Authorization Labels Attempts.

(** ** The vocabulary *)

Definition MaxAutomaticReservationIDBytes : nat := 96.
Definition MaxAutomaticReservationDiscoveryBatch : N := 128.
Definition MaxAutomaticReservationRecords : nat := 512.
Definition MaxAutomaticReservationRecordsPerPrincipal : nat := 128.

Inductive LedgerError :=
  | ErrInvalidAutomaticReservation | ErrAutomaticAdmissionDuplicate | ErrAutomaticAdmissionCooldown
  | ErrAutomaticAdmissionLimit | ErrAutomaticReservationConflict | ErrAutomaticReservationNotFound
  | ErrAutomaticReservationVersion | ErrAutomaticReservationFence | ErrAutomaticReservationState
  | ErrDocument | ErrDisk | ErrRandom | errNoExpiredReservations.
#[global] Instance LedgerError_eq_dec : EqDecision LedgerError.
Proof. solve_decision. Defined.

Definition maxU64 : N := 2 ^ 64 - 1.
Definition addU64 (a b : N) : N := (a + b) mod 2 ^ 64.

Record AutomaticAdmissionPolicy := mkPolicy {
  Window : Z; Cooldown : Z; DedupeWindow : Z; MaxCount : N; MaxTokens : N;
  MaxCountPerPrincipal : N; MaxTokensPerPrincipal : N; ReservationClaimDuration : Z
}.
#[global] Instance AutomaticAdmissionPolicy_eq_dec : EqDecision AutomaticAdmissionPolicy.
Proof. solve_decision. Defined.

Definition PolicyValidate (p : AutomaticAdmissionPolicy) : bool :=
  negb ((Window p <=? 0)%Z || (Cooldown p <? 0)%Z || (DedupeWindow p <? Window p)%Z
        || (MaxCount p =? 0)%N || (MaxTokens p =? 0)%N || (MaxCountPerPrincipal p =? 0)%N || (MaxTokensPerPrincipal p =? 0)%N
        || (ReservationClaimDuration p <=? 0)%Z || (Window p <? ReservationClaimDuration p)%Z).

Inductive AutomaticChargeDisposition :=
  | AutomaticChargeHeld | AutomaticChargeRetained | AutomaticChargeReclaimed | AutomaticChargeOther (s : gostr).
#[global] Instance AutomaticChargeDisposition_eq_dec : EqDecision AutomaticChargeDisposition.
Proof. solve_decision. Defined.

Definition ChargeValid (d : AutomaticChargeDisposition) : bool :=
  (d =s AutomaticChargeHeld) || (d =s AutomaticChargeRetained) || (d =s AutomaticChargeReclaimed).

Record AutomaticReservationFence := mkFence { Generation : N; ExpiresAt : Time }.
#[global] Instance AutomaticReservationFence_eq_dec : EqDecision AutomaticReservationFence.
Proof. solve_decision. Defined.

Definition noFence : AutomaticReservationFence := mkFence 0 0.
Definition FenceValid (f : AutomaticReservationFence) : bool := (0 <? Generation f)%N && negb (IsZero (ExpiresAt f)).
Definition ValidAt (f : AutomaticReservationFence) (now : Time) : bool :=
  FenceValid f && negb (IsZero now) && (now <? ExpiresAt f)%Z.

Record AutomaticReservationRequest := mkRequest {
  qID : gostr; qAttemptID : gostr; qPrincipal : gostr; qDigest : gostr; qClass : AdmissionClass; qTokens : N;
  qExpectedPolicyRevision : gostr
}.

Record AutomaticReservation := mkReservation {
  ID : gostr; AttemptID : gostr; Version : gostr; Principal : gostr; Digest : gostr; Class_ : AdmissionClass;
  PolicyRevision : gostr; Tokens : N; Charge : AutomaticChargeDisposition; AttemptCreated : bool;
  ReservedAt : Time; ChargeExpiresAt : Time; DedupeExpiresAt : Time; ClaimDuration : Z; Fence_ : AutomaticReservationFence
}.
#[global] Instance AutomaticReservation_eq_dec : EqDecision AutomaticReservation.
Proof. solve_decision. Defined.

(** [Time.Sub] saturates at the longest duration. *)
Definition TimeSub (a b : Time) : Z := Z.max (- 2 ^ 63) (Z.min (2 ^ 63 - 1) (a - b)).

Definition validAccounting (r : AutomaticReservation) : bool :=
  (0 <? Tokens r)%N && ChargeValid (Charge r) && negb (IsZero (ReservedAt r))
  && (ReservedAt r <? ChargeExpiresAt r)%Z && (ReservedAt r <? DedupeExpiresAt r)%Z
  && negb (DedupeExpiresAt r <? ChargeExpiresAt r)%Z && (0 <? ClaimDuration r)%Z
  && (ClaimDuration r <=? TimeSub (ChargeExpiresAt r) (ReservedAt r))%Z.

Definition validChargeState (r : AutomaticReservation) : bool :=
  match Charge r with
  | AutomaticChargeHeld => negb (AttemptCreated r) && FenceValid (Fence_ r)
  | AutomaticChargeRetained => AttemptCreated r && negb (FenceValid (Fence_ r))
  | AutomaticChargeReclaimed => negb (AttemptCreated r) && negb (FenceValid (Fence_ r))
  | AutomaticChargeOther _ => false
  end.

(** ** The document *)

Record entry := mkEntry { Reservation : AutomaticReservation }.
#[global] Instance entry_eq_dec : EqDecision entry.
Proof. solve_decision. Defined.

(** A map that was never made is [None]. *)
Record document := mkDocument {
  Format : gostr; dPolicy : AutomaticAdmissionPolicy; dPolicyRevision : gostr; Records : option (gmap gostr entry)
}.

Definition recordsOf (d : document) : gmap gostr entry := default ∅ (Records d).
Definition setRecords (m : gmap gostr entry) (d : document) : document := mkDocument (Format d) (dPolicy d) (dPolicyRevision d) (Some m).

(** What the encoder promises: what it wrote is read back. *)
Class LedgerPlatform := {
  sum16 : gostr → gostr;
  Bytes : Type;
  Marshal : document → option Bytes;
  Unmarshal : Bytes → option document;
  rawLen : Bytes → Z;
  unmarshal_marshal : ∀ d b, Marshal d = Some b → Unmarshal b = Some d
}.

Section ledger.
Context {platform : LedgerPlatform}.

Definition AutomaticReservationIDForAttempt (attemptID : gostr) : gostr + LedgerError :=
  if negb (validOpaque attemptID MaxAttemptIDBytes) || negb (HasPrefix attemptID #"attempt-") then inr ErrInvalidAutomaticReservation
  else inl (#"reservation-" ++ sum16 attemptID).

Definition decimalText (z : Z) : gostr := lit (pretty z).

Definition AutomaticAdmissionPolicyRevisionFor (p : AutomaticAdmissionPolicy) : gostr + LedgerError :=
  if negb (PolicyValidate p) then inr ErrInvalidAutomaticReservation
  else inl (sum16 (Join [decimalText (Window p); decimalText (Cooldown p); decimalText (DedupeWindow p); decimalText (Z.of_N (MaxCount p));
                         decimalText (Z.of_N (MaxTokens p)); decimalText (Z.of_N (MaxCountPerPrincipal p));
                         decimalText (Z.of_N (MaxTokensPerPrincipal p)); decimalText (ReservationClaimDuration p)] #":")).

Definition automaticClass (c : AdmissionClass) : bool := (c =s AdmissionWeighted) || (c =s AdmissionHard).

Definition RequestValidate (r : AutomaticReservationRequest) : bool :=
  match AutomaticReservationIDForAttempt (qAttemptID r) with
  | inr _ => false
  | inl expected =>
      negb (negb (qID r =s expected) || (qPrincipal r =s []) || negb (validDigest (qDigest r)) || negb (automaticClass (qClass r))
            || (qTokens r =? 0)%N || negb (validOpaque (qExpectedPolicyRevision r) MaxAttemptVersionBytes))
  end.

Definition validIdentity (r : AutomaticReservation) (expected : gostr) : bool :=
  (ID r =s expected) && validOpaque (Version r) MaxAttemptVersionBytes && negb (Principal r =s []) && validDigest (Digest r)
  && validOpaque (PolicyRevision r) MaxAttemptVersionBytes && automaticClass (Class_ r).

Definition ReservationValidate (r : AutomaticReservation) : bool :=
  match AutomaticReservationIDForAttempt (AttemptID r) with
  | inr _ => false
  | inl expected => validIdentity r expected && validAccounting r && validChargeState r
  end.

(** ** The store *)

Definition documentType : gostr := #"mecatl-automatic-admission/1".
Definition maxDocument : Z := Z.shiftl 16 20.

Record Store := mkStore { policy : AutomaticAdmissionPolicy; policyRevision : gostr }.

(** The root directory may be a symbolic link or unreadable. *)
Definition New (dir : gostr) (hasClock rootOk : bool) (p : AutomaticAdmissionPolicy) : Store + LedgerError :=
  if (TrimSpace dir =s []) || negb hasClock then inr ErrDocument
  else match AutomaticAdmissionPolicyRevisionFor p with
       | inr e => inr e
       | inl revision => if negb rootOk then inr ErrDisk else inl (mkStore p revision)
       end.

Definition emptyDocument (s : Store) : document := mkDocument documentType (policy s) (policyRevision s) (Some ∅).

Definition validateDocument (d : document) : bool :=
  match AutomaticAdmissionPolicyRevisionFor (dPolicy d), Records d with
  | inl revision, Some m =>
      (Format d =s documentType) && (revision =s dPolicyRevision d)
      && forallb (λ kv, (kv.1 =s ID (Reservation kv.2)) && ReservationValidate (Reservation kv.2)
                        && (PolicyRevision (Reservation kv.2) =s dPolicyRevision d)) (map_to_list m)
  | _, _ => false
  end.

Definition load (s : Store) (file : option Bytes) : document + LedgerError :=
  match file with
  | None => inl (emptyDocument s)
  | Some raw =>
      if (maxDocument <? rawLen raw)%Z then inr ErrDocument
      else match Unmarshal raw with
           | None => inr ErrDocument
           | Some doc =>
               if negb (validateDocument doc) then inr ErrDocument
               else if negb (dPolicy doc =s policy s) || negb (dPolicyRevision doc =s policyRevision s) then inr ErrDocument
               else inl doc
           end
  end.

Inductive Disk := DiskWorks | DiskUnavailable | DiskWriteFails | DiskSyncFails.

Definition save (file : option Bytes) (disk : Disk) (doc : document) : option Bytes * option LedgerError :=
  if negb (validateDocument doc) then (file, Some ErrDocument)
  else match Marshal doc with
       | None => (file, Some ErrDocument)
       | Some raw =>
           if (maxDocument <? rawLen raw)%Z then (file, Some ErrDocument)
           else match disk with
                | DiskWorks => (Some raw, None)
                | DiskSyncFails => (Some raw, Some ErrDisk)
                | DiskUnavailable | DiskWriteFails => (file, Some ErrDisk)
                end
       end.

(** The function assigns the result, whether or not it succeeds and its document is
    written afterwards. *)
Definition transaction {A} (s : Store) (file : option Bytes) (disk : Disk) (write : bool) (zero : A)
    (fn : document → A * (document + LedgerError)) : option Bytes * (A * option LedgerError) :=
  match disk, load s file with
  | DiskUnavailable, _ => (file, (zero, Some ErrDisk))
  | _, inr e => (file, (zero, Some e))
  | _, inl doc =>
      match fn doc with
      | (a, inr e) => (file, (a, Some e))
      | (a, inl doc') =>
          if negb write then (file, (a, None))
          else let '(file', e) := save file disk doc' in (file', (a, e))
      end
  end.

(** ** Reserving *)

Definition pruneResolved (now : Time) (m : gmap gostr entry) : gmap gostr entry :=
  filter (λ kv, negb (negb (Charge (Reservation kv.2) =s AutomaticChargeHeld) && negb (now <? DedupeExpiresAt (Reservation kv.2))%Z) = true) m.

Definition sameImmutable (stored : entry) (q : AutomaticReservationRequest) : bool :=
  let r := Reservation stored in
  (ID r =s qID q) && (AttemptID r =s qAttemptID q) && (Principal r =s qPrincipal q) && (Digest r =s qDigest q)
  && (Class_ r =s qClass q) && (Tokens r =? qTokens q)%N && (PolicyRevision r =s qExpectedPolicyRevision q).

Record charges := mkCharges { globalCount : N; globalTokens : N; principalCount : N; principalTokens : N }.

(** The loop of [admissionError] over the records, in the order the map gives them. *)
Fixpoint admissionLoop (s : Store) (q : AutomaticReservationRequest) (now : Time) (c : charges) (rs : list entry) : charges + LedgerError :=
  match rs with
  | [] => inl c
  | e :: rs' =>
      let r := Reservation e in
      if Charge r =s AutomaticChargeReclaimed then admissionLoop s q now c rs'
      else if (now <? DedupeExpiresAt r)%Z && (Digest r =s qDigest q) then inr ErrAutomaticAdmissionDuplicate
      else if (qClass q =s AdmissionWeighted) && (Principal r =s qPrincipal q) && (now <? ReservedAt r + Cooldown (policy s))%Z
        then inr ErrAutomaticAdmissionCooldown
      else if negb (now <? ChargeExpiresAt r)%Z then admissionLoop s q now c rs'
      else if (maxU64 - globalTokens c <? Tokens r)%N then inr ErrAutomaticAdmissionLimit
      else if negb (Principal r =s qPrincipal q)
        then admissionLoop s q now (mkCharges (addU64 (globalCount c) 1) (addU64 (globalTokens c) (Tokens r)) (principalCount c) (principalTokens c)) rs'
      else if (maxU64 - principalTokens c <? Tokens r)%N then inr ErrAutomaticAdmissionLimit
      else admissionLoop s q now (mkCharges (addU64 (globalCount c) 1) (addU64 (globalTokens c) (Tokens r))
                                    (addU64 (principalCount c) 1) (addU64 (principalTokens c) (Tokens r))) rs'
  end.

Definition admissionError (s : Store) (rs : list entry) (q : AutomaticReservationRequest) (now : Time) : option LedgerError :=
  match admissionLoop s q now (mkCharges 0 0 0 0) rs with
  | inr e => Some e
  | inl c =>
      let p := policy s in
      if (MaxCount p <=? globalCount c)%N || (MaxTokens p <=? globalTokens c)%N || (MaxTokens p - globalTokens c <? qTokens q)%N
         || (MaxCountPerPrincipal p <=? principalCount c)%N || (MaxTokensPerPrincipal p <=? principalTokens c)%N
         || (MaxTokensPerPrincipal p - principalTokens c <? qTokens q)%N
      then Some ErrAutomaticAdmissionLimit else None
  end.

Definition owned (principal : gostr) (m : gmap gostr entry) : nat :=
  length (filter (λ e, Principal (Reservation e) = principal) (map_to_list m).*2).

Definition reservationQuotaError (m : gmap gostr entry) (principal : gostr) : option LedgerError :=
  if MaxAutomaticReservationRecords <=? size m then Some ErrAutomaticAdmissionLimit
  else if MaxAutomaticReservationRecordsPerPrincipal <=? owned principal m then Some ErrAutomaticAdmissionLimit
  else None.

Definition newReservation (s : Store) (q : AutomaticReservationRequest) (version : gostr) (now : Time) : AutomaticReservation :=
  mkReservation (qID q) (qAttemptID q) version (qPrincipal q) (qDigest q) (qClass q) (policyRevision s) (qTokens q) AutomaticChargeHeld
    false now (now + Window (policy s)) (now + DedupeWindow (policy s)) (ReservationClaimDuration (policy s))
    (mkFence 1 (now + ReservationClaimDuration (policy s))).

(** A version is [None] when the random source fails. *)
Definition reserveIn (s : Store) (q : AutomaticReservationRequest) (now : Time) (version : option gostr) (doc : document)
    : option AutomaticReservation * (document + LedgerError) :=
  let m := pruneResolved now (recordsOf doc) in
  match m !! qID q with
  | Some stored =>
      if sameImmutable stored q then (Some (Reservation stored), inl (setRecords m doc)) else (None, inr ErrAutomaticReservationConflict)
  | None =>
      match admissionError s (map_to_list m).*2 q now with
      | Some e => (None, inr e)
      | None =>
          match reservationQuotaError m (qPrincipal q) with
          | Some e => (None, inr e)
          | None =>
              match version with
              | None => (None, inr ErrRandom)
              | Some v => let r := newReservation s q v now in (Some r, inl (setRecords (<[qID q := mkEntry r]> m) doc))
              end
          end
      end
  end.

Definition Reserve (s : Store) (file : option Bytes) (disk : Disk) (q : AutomaticReservationRequest) (now : Time) (version : option gostr)
    : option Bytes * (option AutomaticReservation * option LedgerError) :=
  if negb (RequestValidate q) || (128 <? byteLen (qPrincipal q)) || negb (qExpectedPolicyRevision q =s policyRevision s)
     || (MaxTokens (policy s) <? qTokens q)%N || (MaxTokensPerPrincipal (policy s) <? qTokens q)%N
  then (file, (None, Some ErrInvalidAutomaticReservation))
  else if IsZero now then (file, (None, Some ErrInvalidAutomaticReservation))
  else transaction s file disk true None (reserveIn s q now version).

Definition Get (s : Store) (file : option Bytes) (disk : Disk) (id : gostr) : option AutomaticReservation * option LedgerError :=
  (transaction s file disk false None (λ doc, (Reservation <$> recordsOf doc !! id, inl doc))).2.

(** ** Taking over and resolving *)

Definition refence (version : gostr) (fence : AutomaticReservationFence) (charge : AutomaticChargeDisposition) (created : bool)
    (r : AutomaticReservation) : AutomaticReservation :=
  mkReservation (ID r) (AttemptID r) version (Principal r) (Digest r) (Class_ r) (PolicyRevision r) (Tokens r) charge created
    (ReservedAt r) (ChargeExpiresAt r) (DedupeExpiresAt r) (ClaimDuration r) fence.

Definition takeOver (version : gostr) (now : Time) (r : AutomaticReservation) : AutomaticReservation :=
  refence version (mkFence (addU64 (Generation (Fence_ r)) 1) (now + ClaimDuration r)) (Charge r) (AttemptCreated r) r.

Definition expired (now : Time) (r : AutomaticReservation) : bool :=
  (Charge r =s AutomaticChargeHeld) && negb (now <? ExpiresAt (Fence_ r))%Z.

(** One random version for each id; the ids are keys of the map. *)
Fixpoint discoverLoop (now : Time) (versions : list (option gostr)) (m : gmap gostr entry) (ids : list gostr)
    : list AutomaticReservation * (gmap gostr entry + LedgerError) :=
  match ids with
  | [] => ([], inl m)
  | id :: ids' =>
      match head versions with
      | Some (Some version) =>
          match takeOver version now ∘ Reservation <$> m !! id with
          | Some r =>
              if negb (ReservationValidate r) then ([], inr ErrInvalidAutomaticReservation)
              else let '(rs, res) := discoverLoop now (tail versions) (<[id := mkEntry r]> m) ids' in (r :: rs, res)
          | None => ([], inr ErrInvalidAutomaticReservation)
          end
      | _ => ([], inr ErrRandom)
      end
  end.

Definition expiredIDs (now : Time) (m : gmap gostr entry) : list gostr :=
  merge_sort strLe (filter (λ kv, expired now (Reservation kv.2) = true) (map_to_list m)).*1.

Definition discoverIn (limit : N) (now : Time) (versions : list (option gostr)) (doc : document) : list AutomaticReservation * (document + LedgerError) :=
  let ids := expiredIDs now (recordsOf doc) in
  if length ids =? 0 then ([], inr errNoExpiredReservations)
  else match discoverLoop now versions (recordsOf doc) (take (N.to_nat limit) ids) with
       | (rs, inr e) => (rs, inr e)
       | (rs, inl m) => (rs, inl (setRecords m doc))
       end.

Definition DiscoverExpired (s : Store) (file : option Bytes) (disk : Disk) (limit : N) (now : Time) (versions : list (option gostr))
    : option Bytes * (list AutomaticReservation * option LedgerError) :=
  if (limit =? 0)%N || (MaxAutomaticReservationDiscoveryBatch <? limit)%N then (file, ([], Some ErrInvalidAutomaticReservation))
  else if IsZero now then (file, ([], Some ErrInvalidAutomaticReservation))
  else let '(file', (rs, e)) := transaction s file disk true [] (discoverIn limit now versions) in
       if bool_decide (e = Some errNoExpiredReservations) then (file', ([], None)) else (file', (rs, e)).

Definition mutateIn (id expected : gostr) (fn : AutomaticReservation → AutomaticReservation + LedgerError) (doc : document)
    : option AutomaticReservation * (document + LedgerError) :=
  match recordsOf doc !! id with
  | None => (None, inr ErrAutomaticReservationNotFound)
  | Some stored =>
      if negb (Version (Reservation stored) =s expected) then (None, inr ErrAutomaticReservationVersion)
      else match fn (Reservation stored) with
           | inr e => (None, inr e)
           | inl r =>
               if negb (ReservationValidate r) then (None, inr ErrInvalidAutomaticReservation)
               else (Some r, inl (setRecords (<[id := mkEntry r]> (recordsOf doc)) doc))
           end
  end.

Definition reassigned (now : Time) (version : option gostr) (r : AutomaticReservation) : AutomaticReservation + LedgerError :=
  if negb (Charge r =s AutomaticChargeHeld) then inr ErrAutomaticReservationState
  else if IsZero now || (now <? ExpiresAt (Fence_ r))%Z then inr ErrAutomaticReservationFence
  else match version with None => inr ErrRandom | Some v => inl (takeOver v now r) end.

Definition Reassign (s : Store) (file : option Bytes) (disk : Disk) (id expected : gostr) (now : Time) (version : option gostr)
    : option Bytes * (option AutomaticReservation * option LedgerError) :=
  transaction s file disk true None (mutateIn id expected (reassigned now version)).

Definition resolved (fence : AutomaticReservationFence) (disposition : AutomaticChargeDisposition) (now : Time) (version : option gostr)
    (r : AutomaticReservation) : AutomaticReservation + LedgerError :=
  if negb (Charge r =s AutomaticChargeHeld) then inr ErrAutomaticReservationState
  else if negb (Fence_ r =s fence) || negb (ValidAt (Fence_ r) now) then inr ErrAutomaticReservationFence
  else match version with
       | None => inr ErrRandom
       | Some v => inl (refence v noFence disposition (disposition =s AutomaticChargeRetained) r)
       end.

Definition resolve (s : Store) (file : option Bytes) (disk : Disk) (id expected : gostr) (fence : AutomaticReservationFence)
    (disposition : AutomaticChargeDisposition) (now : Time) (version : option gostr) : option Bytes * (option AutomaticReservation * option LedgerError) :=
  transaction s file disk true None (mutateIn id expected (resolved fence disposition now version)).

Definition Retain (s : Store) (file : option Bytes) (disk : Disk) (id expected : gostr) (fence : AutomaticReservationFence) (now : Time) (version : option gostr) :=
  resolve s file disk id expected fence AutomaticChargeRetained now version.

Definition Reclaim (s : Store) (file : option Bytes) (disk : Disk) (id expected : gostr) (fence : AutomaticReservationFence) (now : Time) (version : option gostr) :=
  resolve s file disk id expected fence AutomaticChargeReclaimed now version.

(** ** Histories

    The processes that share the ledger call it one after the other, each with its own
    configuration and its own reading of the clock.  What was issued is what the document
    holds and what was pruned from it; a record that is in both documents under its id was
    reserved at the same time. *)

Inductive LedgerCall :=
  | CReserve (q : AutomaticReservationRequest) (version : option gostr)
  | CGet (id : gostr)
  | CDiscover (limit : N) (versions : list (option gostr))
  | CReassign (id expected : gostr) (version : option gostr)
  | CResolve (id expected : gostr) (fence : AutomaticReservationFence) (retain : bool) (version : option gostr).

Definition dispositionOf (retain : bool) : AutomaticChargeDisposition := if retain then AutomaticChargeRetained else AutomaticChargeReclaimed.

Record LedgerStep := mkStep { sStore : Store; sNow : Time; sDisk : Disk; sCall : LedgerCall }.

Definition callFile (st : LedgerStep) (file : option Bytes) : option Bytes :=
  let '(mkStep s now disk call) := st in
  match call with
  | CReserve q v => (Reserve s file disk q now v).1
  | CGet _ => file
  | CDiscover limit vs => (DiscoverExpired s file disk limit now vs).1
  | CReassign id e v => (Reassign s file disk id e now v).1
  | CResolve id e f true v => (Retain s file disk id e f now v).1
  | CResolve id e f false v => (Reclaim s file disk id e f now v).1
  end.

Definition decoded (file : option Bytes) : option document := file ≫= Unmarshal.
Definition contents (file : option Bytes) : gmap gostr entry := from_option recordsOf ∅ (decoded file).
Definition values (m : gmap gostr entry) : list AutomaticReservation := Reservation <$> (map_to_list m).*2.

Definition survives (m : gmap gostr entry) (kv : gostr * entry) : Prop :=
  ReservedAt ∘ Reservation <$> m !! kv.1 = Some (ReservedAt (Reservation kv.2)).
#[global] Instance survives_dec m kv : Decision (survives m kv).
Proof. unfold survives. apply _. Defined.

Definition lost (m m' : gmap gostr entry) : list AutomaticReservation :=
  Reservation <$> (filter (λ kv, ¬ survives m' kv) (map_to_list m)).*2.

Record world := mkWorld { wFile : option Bytes; wPast : list AutomaticReservation }.

Definition ledgerStep (w : world) (st : LedgerStep) : world :=
  let file := callFile st (wFile w) in
  mkWorld file (wPast w ++ lost (contents (wFile w)) (contents file)).

Definition ledgerRun (steps : list LedgerStep) : world := foldl ledgerStep (mkWorld None []) steps.
Definition issued (w : world) : list AutomaticReservation := wPast w ++ values (contents (wFile w)).

(** The clock is read in the order in which the file lock is obtained. *)
Definition clockAdvances (steps : list LedgerStep) : Prop := Sorted Z.le (sNow <$> steps).

(** ** What a call does to the records *)

(** A held record is taken over or resolved. *)
Inductive move (now : Time) (call : LedgerCall) (m : gmap gostr entry) : gmap gostr entry → Prop :=
  | mv_take id r v :
      m !! id = Some (mkEntry r) → Charge r = AutomaticChargeHeld → (ExpiresAt (Fence_ r) <= now)%Z →
      ReservationValidate (takeOver v now r) = true →
      move now call m (<[id := mkEntry (takeOver v now r)]> m)
  | mv_resolve id r retain v v' :
      call = CResolve id (Version r) (Fence_ r) retain v' → m !! id = Some (mkEntry r) → Charge r = AutomaticChargeHeld → ValidAt (Fence_ r) now = true →
      move now call m (<[id := mkEntry (refence v noFence (dispositionOf retain) retain r)]> m).

Inductive change (s : Store) (now : Time) (call : LedgerCall) (m : gmap gostr entry) : gmap gostr entry → Prop :=
  | ch_prune : change s now call m (pruneResolved now m)
  | ch_reserve q v :
      pruneResolved now m !! qID q = None → (qTokens q <= MaxTokens (policy s))%N → (qTokens q <= MaxTokensPerPrincipal (policy s))%N →
      admissionError s (map_to_list (pruneResolved now m)).*2 q now = None → reservationQuotaError (pruneResolved now m) (qPrincipal q) = None →
      change s now call m (<[qID q := mkEntry (newReservation s q v now)]> (pruneResolved now m))
  | ch_moves m' : rtc (move now call) m m' → change s now call m m'.

Lemma load_spec s file doc :
  load s file = inl doc →
  recordsOf doc = contents file ∧ dPolicy doc = policy s ∧ (∀ d, decoded file = Some d → d = doc) ∧ (is_Some file → validateDocument doc = true).
Proof.
  unfold load, contents, decoded. destruct file as [raw|]; [|intros [= <-]; split_and!; [done|done|done|by intros []]].
  destruct (_ <? _)%Z; [done|]. cbn. destruct (Unmarshal raw) as [d|]; [|done]. destruct (validateDocument d) eqn:Ev; [|done]. cbn.
  destruct (dPolicy d =s policy s) eqn:Ep; [|done]. destruct (dPolicyRevision d =s policyRevision s); [|done]. intros [= <-]. bprop. split_and!; [done|done| |done].
  by intros ? [= <-].
Qed.

Lemma ledgerSave_spec file disk doc : (save file disk doc).1 = file ∨ validateDocument doc = true ∧ decoded (save file disk doc).1 = Some doc.
Proof.
  unfold save. destruct (validateDocument doc); [|by left]. cbn. destruct (Marshal doc) as [raw|] eqn:Em; [|by left].
  destruct (_ <? _)%Z; [by left|]. destruct disk; [right|by left|by left|right]; (split; [done|]); by apply unmarshal_marshal.
Qed.

(** A transaction leaves the file or writes the document its function made of the loaded one. *)
Lemma transaction_spec {A} s file disk (zero : A) fn :
  let res := transaction s file disk true zero fn in
  res.1 = file ∨ ∃ doc doc' a, load s file = inl doc ∧ fn doc = (a, inl doc') ∧ validateDocument doc' = true ∧ decoded res.1 = Some doc' ∧ res.2.1 = a.
Proof.
  cbn. unfold transaction. destruct disk; [|by left| |]; (destruct (load s file) as [doc|] eqn:El; [|by left]); destruct (fn doc) as [a [doc'|]] eqn:Ef; try (by left); cbn;
    match goal with |- context [save file ?d doc'] => pose proof (ledgerSave_spec file d doc') as Hs; destruct (save file d doc') as [f e] end; cbn in *;
    (destruct Hs as [->|[Hv Hd]]; [by left|right]); by exists doc, doc', a.
Qed.

Lemma discoverLoop_moves now call versions m ids rs m' :
  (∀ id, id ∈ ids → ∃ r, m !! id = Some (mkEntry r) ∧ expired now r = true) → NoDup ids →
  discoverLoop now versions m ids = (rs, inl m') → rtc (move now call) m m'.
Proof.
  revert versions m rs. induction ids as [|id ids IH]; intros versions m rs He Hn; cbn [discoverLoop]; [intros [= <- <-]; done|].
  destruct (head versions) as [[v|]|]; [|done|done]. destruct (He id) as (r & Hr & Hx); [by left|]. rewrite Hr. cbn.
  destruct (ReservationValidate (takeOver v now r)) eqn:Ev; [|done]. cbn.
  destruct (discoverLoop now (tail versions) _ ids) as [rs' [m1|]] eqn:Ed; [|done]. intros [= <- <-]. apply NoDup_cons in Hn as [Hni Hn].
  unfold expired in Hx. bprop. eapply rtc_l; [apply (mv_take _ _ _ id r v); [done|done|lia|done]|]. eapply IH, Ed; [|done].
  intros id' Hid. destruct (He id') as (r' & Hr' & Hx'); [by right|]. exists r'. split; [|done]. by rewrite lookup_insert_ne by congruence.
Qed.

Lemma expiredIDs_elem now m id : id ∈ expiredIDs now m → ∃ r, m !! id = Some (mkEntry r) ∧ expired now r = true.
Proof.
  unfold expiredIDs. rewrite merge_sort_Permutation. intros ([id' [r]] & -> & [Hx Hin]%list_elem_of_filter)%list_elem_of_fmap.
  apply elem_of_map_to_list in Hin. by exists r.
Qed.

Lemma expiredIDs_NoDup now m : NoDup (expiredIDs now m).
Proof.
  unfold expiredIDs. rewrite merge_sort_Permutation. eapply sublist_NoDup; [apply (NoDup_fst_map_to_list m)|]. apply fmap_sublist, sublist_filter.
Qed.

Lemma mutateIn_spec id expected fn doc a doc' :
  mutateIn id expected fn doc = (a, inl doc') →
  ∃ r r', recordsOf doc !! id = Some (mkEntry r) ∧ Version r = expected ∧ fn r = inl r' ∧ ReservationValidate r' = true ∧ a = Some r'
    ∧ doc' = setRecords (<[id := mkEntry r']> (recordsOf doc)) doc.
Proof.
  unfold mutateIn. destruct (recordsOf doc !! id) as [[r]|]; [|done]. cbn. destruct (Version r =s expected) eqn:Ev; [|done]. cbn.
  destruct (fn r) as [r'|] eqn:Ef; [|done]. destruct (ReservationValidate r') eqn:Er; [|done]. intros [= <- <-]. bprop. exists r, r'. by split_and!.
Qed.

Lemma reassigned_spec now v r r' :
  reassigned now v r = inl r' → ∃ v', r' = takeOver v' now r ∧ Charge r = AutomaticChargeHeld ∧ (ExpiresAt (Fence_ r) <= now)%Z.
Proof.
  unfold reassigned. destruct (Charge r =s AutomaticChargeHeld) eqn:Ec; [|done]. cbn. destruct (_ || _) eqn:Eo; [done|].
  destruct v as [v'|]; [|done]. intros [= <-]. bprop. exists v'. split_and!; [done|done|lia].
Qed.

Lemma resolved_spec f disp now v r r' :
  resolved f disp now v r = inl r' →
  ∃ v', r' = refence v' noFence disp (disp =s AutomaticChargeRetained) r ∧ Charge r = AutomaticChargeHeld ∧ Fence_ r = f ∧ ValidAt (Fence_ r) now = true.
Proof.
  unfold resolved. destruct (Charge r =s AutomaticChargeHeld) eqn:Ec; [|done]. cbn. destruct (_ || _) eqn:Eo; [done|].
  destruct v as [v'|]; [|done]. intros [= <-]. bprop. exists v'. by split_and!.
Qed.

Lemma call_change st file :
  callFile st file = file ∨ ∃ doc doc', load (sStore st) file = inl doc ∧ validateDocument doc' = true ∧ decoded (callFile st file) = Some doc' ∧
    dPolicy doc' = dPolicy doc ∧ change (sStore st) (sNow st) (sCall st) (recordsOf doc) (recordsOf doc').
Proof.
  destruct st as [s now disk [q v|id|limit vs|id e v|id e f retain v]]; cbn [callFile sStore sNow sCall]; [| by left | | |].
  - unfold Reserve. destruct (_ || _) eqn:Eg; [by left|]. destruct (IsZero now); [by left|].
    destruct (transaction_spec s file disk None (reserveIn s q now v)) as [H|(doc & doc' & a & Hl & Hf & Hv & Hd & _)]; [by left|right].
    exists doc, doc'. revert Hf. unfold reserveIn. set (m := pruneResolved now (recordsOf doc)).
    assert (Hb : (qTokens q <= MaxTokens (policy s))%N ∧ (qTokens q <= MaxTokensPerPrincipal (policy s))%N) by (rewrite !orb_false_iff, !N.ltb_ge in Eg; lia).
    destruct (m !! qID q) as [stored|] eqn:Em; [destruct (sameImmutable stored q); [|done]; intros [= <- <-]; split_and!; [done..|apply ch_prune]|].
    destruct (admissionError _ _ q now) eqn:Ea; [done|]. destruct (reservationQuotaError m _) eqn:Eq; [done|]. destruct v as [v|]; [|done].
    intros [= <- <-]. split_and!; [done..|]. destruct Hb. cbn. by apply ch_reserve.
  - unfold DiscoverExpired. destruct (_ || _); [by left|]. destruct (IsZero now); [by left|].
    destruct (transaction_spec s file disk [] (discoverIn limit now vs)) as [H|(doc & doc' & a & Hl & Hf & Hv & Hd & _)].
    { left. destruct (transaction _ _ _ _ _ _) as [f [rs e]]. by destruct (bool_decide _). }
    right. exists doc, doc'. destruct (transaction s file disk true [] (discoverIn limit now vs)) as [f [rs e]]. cbn in Hd.
    split_and!; [done|done|by destruct (bool_decide _)| |]; revert Hf; unfold discoverIn; destruct (_ =? 0); try done;
      destruct (discoverLoop _ _ _ _) as [rs' [m'|]] eqn:Ed; try done; intros [= <- <-]; [done|]. apply ch_moves. eapply discoverLoop_moves, Ed.
    + intros id Hid. apply (expiredIDs_elem now). by eapply elem_of_take in Hid as (i & Hi & _); eapply list_elem_of_lookup_2.
    + eapply sublist_NoDup; [apply (expiredIDs_NoDup now)|apply sublist_take].
  - unfold Reassign. destruct (transaction_spec s file disk None (mutateIn id e (reassigned now v))) as [H|(doc & doc' & a & Hl & Hf & Hv & Hd & _)]; [by left|right].
    exists doc, doc'. apply mutateIn_spec in Hf as (r & r' & Hr & He & Hf & Hval & _ & ->). apply reassigned_spec in Hf as (v' & -> & Hc & Hx). split_and!; [done..|].
    apply ch_moves, rtc_once. by apply mv_take.
  - assert (Hres : callFile (mkStep s now disk (CResolve id e f retain v)) file = (resolve s file disk id e f (dispositionOf retain) now v).1) by (by destruct retain).
    cbn [callFile] in Hres. rewrite Hres. unfold resolve.
    destruct (transaction_spec s file disk None (mutateIn id e (resolved f (dispositionOf retain) now v))) as [H|(doc & doc' & a & Hl & Hf & Hv & Hd & _)]; [by left|right].
    exists doc, doc'. apply mutateIn_spec in Hf as (r & r' & Hr & He & Hf & Hval & _ & ->). apply resolved_spec in Hf as (v' & -> & Hc & Hx & Hva). split_and!; [done..|].
    subst. apply ch_moves, rtc_once. replace (dispositionOf retain =s AutomaticChargeRetained) with retain by (by destruct retain). by eapply mv_resolve.
Qed.

(** ** Charges over time *)

Definition Nsum (l : list N) : N := foldr N.add 0%N l.

(** A charge runs from its reservation for a length of time, unless it was given back. *)
Definition running (len t : Z) (r : AutomaticReservation) : Prop :=
  Charge r ≠ AutomaticChargeReclaimed ∧ (ReservedAt r <= t < ReservedAt r + len)%Z.
#[global] Instance running_dec len t r : Decision (running len t r).
Proof. unfold running. apply _. Defined.

Definition total (wt : AutomaticReservation → N) (len t : Z) (l : list AutomaticReservation) : N := Nsum (wt <$> filter (running len t) l).

Lemma total_cons wt len t r l : total wt len t (r :: l) = ((if decide (running len t r) then wt r else 0) + total wt len t l)%N.
Proof. unfold total. rewrite filter_cons. by destruct (decide _). Qed.

Lemma total_app wt len t l k : total wt len t (l ++ k) = (total wt len t l + total wt len t k)%N.
Proof. induction l as [|r l IH]; [done|]. cbn [app]. rewrite !total_cons, IH. lia. Qed.

#[global] Instance total_perm wt len t : Proper ((≡ₚ) ==> eq) (total wt len t).
Proof. induction 1; rewrite ?total_cons; try congruence; lia. Qed.

Lemma total_zero wt len t l : (∀ r, r ∈ l → running len t r → wt r = 0%N) → total wt len t l = 0%N.
Proof.
  induction l as [|r l IH]; [done|]. intros H. rewrite total_cons, IH by (intros; apply H; [by right|done]).
  destruct (decide _) as [Hr|]; [|done]. rewrite (H r); [done|by left|done].
Qed.

Lemma total_mono wt len t t' l : (∀ r, r ∈ l → running len t r → running len t' r) → (total wt len t l <= total wt len t' l)%N.
Proof.
  induction l as [|r l IH]; [done|]. intros H. rewrite !total_cons. pose proof (IH (λ r' Hr', H r' (list_elem_of_further _ _ _ Hr'))).
  destruct (decide (running len t r)) as [Hr|]; [rewrite (decide_True (P := running len t' r)) by (apply H; [by left|done]); lia|].
  destruct (decide _); lia.
Qed.

Lemma values_elem m r : r ∈ values m ↔ ∃ id, m !! id = Some (mkEntry r).
Proof.
  unfold values. rewrite list_elem_of_fmap. split.
  - intros (e' & -> & ([id [r']] & -> & Hin)%list_elem_of_fmap). apply elem_of_map_to_list in Hin. by exists id.
  - intros [id Hid]. exists (mkEntry r). split; [done|]. apply list_elem_of_fmap. exists (id, mkEntry r). by rewrite elem_of_map_to_list.
Qed.

Lemma values_insert m id e : m !! id = None → values (<[id := e]> m) ≡ₚ Reservation e :: values m.
Proof. intros H. unfold values. by rewrite (map_to_list_insert m id e H). Qed.

Lemma values_update m id e e' : m !! id = Some e →
  ∃ l, values m ≡ₚ Reservation e :: l ∧ values (<[id := e']> m) ≡ₚ Reservation e' :: l.
Proof.
  intros H. exists (values (delete id m)). split; [rewrite <-(insert_delete_id m id e H) at 1|rewrite <-(insert_delete_eq m id e')]; apply values_insert, lookup_delete_eq.
Qed.

Lemma owned_values x m : owned x m = length (filter (λ r, Principal r = x) (values m)).
Proof.
  unfold owned, values. induction (map_to_list m).*2 as [|e l IH]; [done|]. rewrite fmap_cons, !filter_cons. destruct (decide _); cbn; lia.
Qed.

Lemma size_values m : size m = length (values m).
Proof. unfold values. by rewrite !length_fmap, length_map_to_list. Qed.

(** ** What is lost *)

Lemma filter_split {A} (P : A → Prop) `{!∀ x, Decision (P x)} (l : list A) : l ≡ₚ filter (λ x, ¬ P x) l ++ filter P l.
Proof.
  induction l as [|x l IH]; [done|]. rewrite !filter_cons. destruct (decide (P x)) as [HP|HP].
  - rewrite (decide_False (P := ¬ P x)) by tauto. by rewrite <-Permutation_middle, <-IH.
  - rewrite (decide_True (P := ¬ P x)) by done. cbn. by rewrite <-IH.
Qed.

Lemma map_to_list_filtered (P : gostr * entry → Prop) `{!∀ x, Decision (P x)} (m : gmap gostr entry) :
  map_to_list (filter P m) ≡ₚ filter P (map_to_list m).
Proof.
  apply NoDup_Permutation; [apply NoDup_map_to_list|apply NoDup_filter, NoDup_map_to_list|]. intros [id e].
  rewrite list_elem_of_filter, !elem_of_map_to_list, map_lookup_filter_Some. tauto.
Qed.

Definition kept (now : Time) (r : AutomaticReservation) : Prop := Charge r = AutomaticChargeHeld ∨ (now < DedupeExpiresAt r)%Z.

Lemma pruned_lookup now m id e : pruneResolved now m !! id = Some e ↔ m !! id = Some e ∧ kept now (Reservation e).
Proof.
  unfold pruneResolved, kept. rewrite map_lookup_filter_Some. cbn. rewrite negb_true_iff, andb_false_iff, !negb_false_iff, bool_decide_eq_true, Z.ltb_lt. done.
Qed.

Lemma lost_split now m m' :
  (∀ id e, m !! id = Some e → survives m' (id, e) ↔ kept now (Reservation e)) → values m ≡ₚ lost m m' ++ values (pruneResolved now m).
Proof.
  intros H. unfold lost, values. unfold pruneResolved. rewrite (map_to_list_filtered _ m), <-!fmap_app. rewrite (filter_split (survives m') (map_to_list m)) at 1. do 2 apply Permutation_map. apply Permutation_app_head.
  apply NoDup_Permutation; [apply NoDup_filter, NoDup_map_to_list..|]. intros [id e]. rewrite !list_elem_of_filter, !elem_of_map_to_list. cbn.
  pose proof (pruned_lookup now m id e) as Hp. unfold pruneResolved in Hp. rewrite map_lookup_filter_Some in Hp. cbn in Hp. pose proof (H id e). tauto.
Qed.

Lemma lost_elem m m' r : r ∈ lost m m' → ∃ id, m !! id = Some (mkEntry r) ∧ ¬ survives m' (id, mkEntry r).
Proof.
  unfold lost. intros (e' & -> & ([id [r']] & -> & [Hs Hin]%list_elem_of_filter)%list_elem_of_fmap)%list_elem_of_fmap. apply elem_of_map_to_list in Hin. by exists id.
Qed.

Lemma lost_nil m m' : (∀ id e, m !! id = Some e → survives m' (id, e)) → lost m m' = [].
Proof.
  intros H. destruct (lost m m') as [|r l] eqn:El; [done|]. destruct (lost_elem m m' r) as (id & Hid & Hs); [rewrite El; by left|]. by destruct Hs; apply H.
Qed.

(** ** The invariant *)

(** The limits of a policy: who is charged what, for how long, and up to which sum. *)
Inductive limit (p : AutomaticAdmissionPolicy) : (AutomaticReservation → N) → Z → N → Prop :=
  | limit_count : limit p (λ _, 1%N) (Window p) (MaxCount p)
  | limit_tokens : limit p Tokens (Window p) (MaxTokens p)
  | limit_principal_count x : limit p (λ r, if decide (Principal r = x) then 1%N else 0%N) (Window p) (MaxCountPerPrincipal p)
  | limit_principal_tokens x : limit p (λ r, if decide (Principal r = x) then Tokens r else 0%N) (Window p) (MaxTokensPerPrincipal p)
  | limit_digest d : limit p (λ r, if decide (Digest r = d) then 1%N else 0%N) (DedupeWindow p) 1
  | limit_cooldown x : (Cooldown p <= DedupeWindow p)%Z →
      limit p (λ r, if decide (Principal r = x ∧ Class_ r = AdmissionWeighted) then 1%N else 0%N) (Cooldown p) 1.

Record recOk (p : AutomaticAdmissionPolicy) (T : Time) (r : AutomaticReservation) : Prop := {
  ro_reserved : (ReservedAt r <= T)%Z;
  ro_charge : ChargeExpiresAt r = (ReservedAt r + Window p)%Z;
  ro_dedupe : DedupeExpiresAt r = (ReservedAt r + DedupeWindow p)%Z;
  ro_claim : ClaimDuration r = ReservationClaimDuration p
}.

Record ledgerOk (p : AutomaticAdmissionPolicy) (T : Time) (past : list AutomaticReservation) (m : gmap gostr entry) : Prop := {
  lo_rec : ∀ id e, m !! id = Some e → recOk p T (Reservation e);
  lo_past : ∀ r, r ∈ past → (ReservedAt r + DedupeWindow p <= T)%Z;
  lo_size : size m ≤ MaxAutomaticReservationRecords;
  lo_owned : ∀ x, owned x m ≤ MaxAutomaticReservationRecordsPerPrincipal;
  lo_total : ∀ wt len B, limit p wt len B → ∀ t, (total wt len t (past ++ values m) <= B)%N
}.

Lemma limit_refence p wt len B v f c a r : limit p wt len B → wt (refence v f c a r) = wt r.
Proof. by destruct 1. Qed.

Lemma limit_len p wt len B : PolicyValidate p = true → limit p wt len B → (len <= DedupeWindow p)%Z.
Proof. unfold PolicyValidate. intros H. bprop. destruct 1; lia. Qed.

Lemma ledgerOk_later p T T' past m : (T <= T')%Z → ledgerOk p T past m → ledgerOk p T' past m.
Proof.
  intros HT [H1 H2 H3 H4 H5]. split; try done; [intros id e He; destruct (H1 id e He); split; [lia|done..]|]. intros r Hr. specialize (H2 r Hr). lia.
Qed.

Lemma move_spec now call m m' : move now call m m' →
  ∃ id r v f c a, m !! id = Some (mkEntry r) ∧ Charge r = AutomaticChargeHeld ∧ m' = <[id := mkEntry (refence v f c a r)]> m.
Proof. destruct 1 as [id r v|id r b v v']; [by eexists id, r, _, _, _, _|by eexists id, r, _, _, _, _]. Qed.

Lemma move_ok p now call past m m' : move now call m m' → ledgerOk p now past m → ledgerOk p now past m'.
Proof.
  intros (id & r & v & f & c & a & Hr & Hc & ->)%move_spec [H1 H2 H3 H4 H5]. set (r' := refence v f c a r).
  destruct (values_update m id _ (mkEntry r') Hr) as (l & Hl & Hl'). cbn in Hl, Hl'. split; [| done | | |].
  - intros id' e. destruct (decide (id = id')) as [<-|Hi]; [rewrite lookup_insert_eq|rewrite lookup_insert_ne by done; apply H1].
    intros [= <-]. destruct (H1 id _ Hr). by split.
  - by rewrite map_size_insert_Some.
  - intros x. specialize (H4 x). rewrite owned_values, Hl, filter_cons in H4. rewrite owned_values, Hl', filter_cons. by destruct (decide _).
  - intros wt len B Hlim t. specialize (H5 wt len B Hlim t). rewrite total_app, Hl, total_cons in H5. rewrite total_app, Hl', total_cons.
    unfold r'. rewrite (limit_refence _ _ _ _ _ _ _ _ _ Hlim). destruct (decide (running len t (refence v f c a r))) as [[_ Hrun]|]; [|lia].
    rewrite decide_True in H5 by (split; [by rewrite Hc|done]). lia.
Qed.

Lemma moves_survive now call m m' id e : rtc (move now call) m m' → m !! id = Some e → survives m' (id, e).
Proof.
  intros Hm. revert e. induction Hm as [m|m m1 m' Hm _ IH]; intros e He; [unfold survives; cbn; by rewrite He|].
  apply move_spec in Hm as (id' & r & v & f & c & a & Hr & Hc & ->). destruct (decide (id' = id)) as [->|Hi].
  - rewrite He in Hr. injection Hr as ->. apply (IH (mkEntry (refence v f c a r))). by rewrite lookup_insert_eq.
  - apply IH. by rewrite lookup_insert_ne.
Qed.

Lemma pruned_survive now m id e : m !! id = Some e → survives (pruneResolved now m) (id, e) ↔ kept now (Reservation e).
Proof.
  intros He. unfold survives. cbn. split.
  - destruct (pruneResolved now m !! id) as [e'|] eqn:Ep; [|done]. intros _. apply pruned_lookup in Ep as [He' Hk]. by simplify_eq.
  - intros Hk. by rewrite (proj2 (pruned_lookup now m id e) (conj He Hk)).
Qed.

Lemma pruneResolved_ok p now past m m' :
  (∀ id e, m !! id = Some e → survives m' (id, e) ↔ kept now (Reservation e)) →
  ledgerOk p now past m → ledgerOk p now (past ++ lost m m') (pruneResolved now m).
Proof.
  intros Hs [H1 H2 H3 H4 H5]. pose proof (lost_split now m m' Hs) as Hsp. split.
  - intros id e [He _]%pruned_lookup. eauto.
  - intros r [Hr|Hr]%elem_of_app; [eauto|]. apply lost_elem in Hr as (id & Hid & Hr). destruct (H1 _ _ Hid). cbn in *.
    rewrite Hs in Hr by done. unfold kept in Hr. cbn in Hr. lia.
  - unfold pruneResolved. etransitivity; [apply map_size_filter|done].
  - intros x. etransitivity; [|apply (H4 x)]. rewrite !owned_values, Hsp, filter_app, length_app. lia.
  - intros wt len B Hlim t. rewrite <-app_assoc, total_app, <-Hsp, <-total_app. eauto.
Qed.

(** ** Admission *)

Definition ofPrincipal (x : gostr) (wt : AutomaticReservation → N) (r : AutomaticReservation) : N := if decide (Principal r = x) then wt r else 0%N.

Definition chargesOk (c : charges) (n : nat) : Prop :=
  (globalCount c + N.of_nat n <= maxU64)%N ∧ (principalCount c <= globalCount c)%N ∧ (globalTokens c <= maxU64)%N ∧ (principalTokens c <= maxU64)%N.

Lemma addU64_exact a b : (a + b <= maxU64)%N → addU64 a b = (a + b)%N.
Proof. unfold addU64, maxU64. intros H. apply N.mod_small. lia. Qed.

(** An admitted request saw the exact charges that run at its time, and no obstacle. *)
Lemma admissionLoop_spec s q now rs c c' :
  admissionLoop s q now c rs = inl c' → (∀ e, e ∈ rs → recOk (policy s) now (Reservation e)) → chargesOk c (length rs) →
  let l := Reservation <$> rs in
  let now_total wt := total wt (Window (policy s)) now l in
  globalCount c' = (globalCount c + now_total (λ _, 1))%N ∧ globalTokens c' = (globalTokens c + now_total Tokens)%N ∧
  principalCount c' = (principalCount c + now_total (ofPrincipal (qPrincipal q) (λ _, 1)))%N ∧
  principalTokens c' = (principalTokens c + now_total (ofPrincipal (qPrincipal q) Tokens))%N ∧
  ∀ r, r ∈ l → Charge r ≠ AutomaticChargeReclaimed →
    (Digest r = qDigest q → DedupeExpiresAt r <= now)%Z ∧
    (qClass q = AdmissionWeighted → Principal r = qPrincipal q → ReservedAt r + Cooldown (policy s) <= now)%Z.
Proof.
  revert c. induction rs as [|[r] rs IH]; intros c; cbn [admissionLoop Reservation].
  { intros [= <-] _ _. unfold total. cbn. rewrite !N.add_0_r. split_and!; try done. intros r Hr. by apply elem_of_nil in Hr. }
  intros Hl Hok Hc. assert (Hok' : ∀ e, e ∈ rs → recOk (policy s) now (Reservation e)) by (intros; apply Hok; by right).
  destruct (Hok (mkEntry r)) as [R1 R2 R3 R4]; [by left|]. cbn in R1, R2, R3, R4. rewrite fmap_cons. cbn zeta. rewrite !total_cons. cbn [Reservation].
  destruct Hc as (C1 & C2 & C3 & C4). cbn [length] in C1.
  destruct (Charge r =s AutomaticChargeReclaimed) eqn:Ec.
  { bprop. rewrite !(decide_False (P := running _ _ r)) by (unfold running; tauto). destruct (IH c Hl Hok') as (I1 & I2 & I3 & I4 & I5); [split_and!; lia|].
    rewrite I1, I2, I3, I4, !N.add_0_l. split_and!; try done. intros r' [-> |Hr']%elem_of_cons; [done|by apply I5]. }
  destruct ((now <? DedupeExpiresAt r)%Z && (Digest r =s qDigest q)) eqn:Ed; [done|].
  destruct ((qClass q =s AdmissionWeighted) && (Principal r =s qPrincipal q) && _) eqn:Ew; [done|].
  assert (Hhere : (Digest r = qDigest q → DedupeExpiresAt r <= now)%Z ∧
    (qClass q = AdmissionWeighted → Principal r = qPrincipal q → ReservedAt r + Cooldown (policy s) <= now)%Z).
  { split; intros.
    - rewrite (bool_decide_true _ H), andb_true_r in Ed. by apply Z.ltb_ge in Ed.
    - rewrite (bool_decide_true _ H), (bool_decide_true _ H0) in Ew. by apply Z.ltb_ge in Ew. }
  bprop. destruct (negb (now <? ChargeExpiresAt r)%Z) eqn:Ex.
  { bprop. apply Z.ltb_ge in Ex. rewrite !(decide_False (P := running _ _ r)) by (unfold running; lia). destruct (IH c Hl Hok') as (I1 & I2 & I3 & I4 & I5); [split_and!; lia|].
    rewrite I1, I2, I3, I4, !N.add_0_l. split_and!; try done. intros r' [-> |Hr']%elem_of_cons; [done|by apply I5]. }
  bprop. rewrite !(decide_True (P := running _ _ r)) by (unfold running; split; [done|lia]).
  destruct (maxU64 - globalTokens c <? Tokens r)%N eqn:Eg; [done|]. apply N.ltb_ge in Eg. unfold ofPrincipal at 1 3.
  destruct (negb (Principal r =s qPrincipal q)) eqn:Ep; bprop.
  - rewrite !(decide_False (P := Principal r = _)) by done. rewrite !addU64_exact in Hl by lia.
    destruct (IH _ Hl Hok') as (I1 & I2 & I3 & I4 & I5); [split_and!; cbn [globalCount globalTokens principalCount principalTokens]; lia|].
    cbn [globalCount globalTokens principalCount principalTokens] in I1, I2, I3, I4. rewrite I1, I2, I3, I4. split_and!; try lia.
    intros r' [-> |Hr']%elem_of_cons; [done|by apply I5].
  - rewrite !(decide_True (P := Principal r = _)) by done. destruct (maxU64 - principalTokens c <? Tokens r)%N eqn:Et; [done|]. apply N.ltb_ge in Et.
    rewrite !addU64_exact in Hl by lia.
    destruct (IH _ Hl Hok') as (I1 & I2 & I3 & I4 & I5); [split_and!; cbn [globalCount globalTokens principalCount principalTokens]; lia|].
    cbn [globalCount globalTokens principalCount principalTokens] in I1, I2, I3, I4. rewrite I1, I2, I3, I4. split_and!; try lia.
    intros r' [-> |Hr']%elem_of_cons; [done|by apply I5].
Qed.

Lemma total_none wt len now (l : list AutomaticReservation) :
  (∀ r, r ∈ l → Charge r ≠ AutomaticChargeReclaimed → wt r ≠ 0%N → (ReservedAt r + len <= now)%Z) → total wt len now l = 0%N.
Proof.
  intros H. apply total_zero. intros r Hr [Hc Ht]. destruct (decide (wt r = 0%N)) as [E|E]; [done|]. specialize (H r Hr Hc E). lia.
Qed.

(** A request that is admitted leaves room under every limit that charges it. *)
Lemma admission_room s q v now rs wt len B :
  admissionError s rs q now = None → (∀ e, e ∈ rs → recOk (policy s) now (Reservation e)) → (N.of_nat (length rs) <= maxU64)%N →
  limit (policy s) wt len B →
  wt (newReservation s q v now) = 0%N ∨ (wt (newReservation s q v now) + total wt len now (Reservation <$> rs) <= B)%N.
Proof.
  unfold admissionError. destruct (admissionLoop _ _ _ _ rs) as [c|] eqn:El; [|done]. destruct (_ || _) eqn:Eb; [done|]. intros _ Hok Hlen Hlim.
  destruct (admissionLoop_spec s q now rs _ c El Hok) as (I1 & I2 & I3 & I4 & I5); [by split_and!|].
  cbn [globalCount globalTokens principalCount principalTokens] in I1, I2, I3, I4. rewrite N.add_0_l in I1, I2, I3, I4. rewrite I1, I2, I3, I4, !orb_false_iff, !N.leb_gt, !N.ltb_ge in Eb.
  destruct Eb as (((((B1 & B2) & B3) & B4) & B5) & B6). destruct Hlim as [| |x|x|d|x Hx]; cbn [newReservation Principal Digest Class_ Tokens].
  - right. lia.
  - right. cbn. lia.
  - destruct (decide (qPrincipal q = x)) as [<-|]; [right|by left]. fold (ofPrincipal (qPrincipal q) (λ _, 1%N)). change (λ r, if decide _ then 1%N else 0%N) with (ofPrincipal (qPrincipal q) (λ _, 1%N)). lia.
  - destruct (decide (qPrincipal q = x)) as [<-|]; [right|by left]. change (λ r, if decide _ then Tokens r else 0%N) with (ofPrincipal (qPrincipal q) Tokens). lia.
  - destruct (decide (qDigest q = d)) as [<-|]; [right|by left]. rewrite total_none; [lia|]. intros r Hr Hc Hw. destruct (I5 r Hr Hc) as [I6 _].
    destruct (decide (Digest r = qDigest q)) as [E|]; [|done]. specialize (I6 E). apply list_elem_of_fmap in Hr as (e & -> & He). destruct (Hok e He). lia.
  - destruct (decide _) as [[<- Hw]|]; [right|by left]. rewrite total_none; [lia|]. intros r Hr Hc Hwt. destruct (I5 r Hr Hc) as [_ I6].
    destruct (decide _) as [[E _]|]; [|done]. by apply I6.
Qed.

Lemma quota_spec m x : reservationQuotaError m x = None → size m < MaxAutomaticReservationRecords ∧ owned x m < MaxAutomaticReservationRecordsPerPrincipal.
Proof.
  unfold reservationQuotaError. destruct (MaxAutomaticReservationRecords <=? size m) eqn:E1; [done|]. destruct (_ <=? owned x m) eqn:E2; [done|].
  apply Nat.leb_gt in E1, E2. done.
Qed.

Lemma reserve_ok s now past m q v :
  PolicyValidate (policy s) = true → ledgerOk (policy s) now past m → m !! qID q = None →
  admissionError s (map_to_list m).*2 q now = None → reservationQuotaError m (qPrincipal q) = None →
  ledgerOk (policy s) now past (<[qID q := mkEntry (newReservation s q v now)]> m).
Proof.
  intros Hp [H1 H2 H3 H4 H5] Hn Ha Hq. apply quota_spec in Hq as [Q1 Q2]. set (r := newReservation s q v now).
  assert (Hv := values_insert m (qID q) (mkEntry r) Hn). cbn [Reservation] in Hv. split; [|done| | |].
  - intros id e. destruct (decide (qID q = id)) as [<-|Hi]; [rewrite lookup_insert_eq|rewrite lookup_insert_ne by done; apply H1].
    intros [= <-]. by split.
  - rewrite map_size_insert_None by done. lia.
  - intros x. rewrite owned_values, Hv, filter_cons. specialize (H4 x). rewrite owned_values in H4, Q2. destruct (decide _) as [E|]; [|done]. cbn in E. subst x. cbn. lia.
  - intros wt len B Hlim t. specialize (H5 wt len B Hlim). rewrite total_app, Hv, total_cons. pose proof (limit_len _ _ _ _ Hp Hlim) as Hlen.
    assert (Ht := H5 t). rewrite total_app in Ht. destruct (decide (running len t r)) as [[_ Hr]|]; [|lia].
    change (ReservedAt r) with now in Hr. rewrite (total_zero wt len t past); [|intros r' Hr' [_ Hr2]; specialize (H2 r' Hr'); lia].
    destruct (admission_room s q v now (map_to_list m).*2 wt len B Ha) as [Hw|Hw]; [| |done|fold r in Hw; lia|].
    + intros e ([id e'] & -> & Hin)%list_elem_of_fmap. apply elem_of_map_to_list in Hin. eauto.
    + rewrite length_fmap, length_map_to_list. assert (N.of_nat 512 < maxU64)%N by done. unfold MaxAutomaticReservationRecords in *. lia.
    + fold r in Hw. rewrite N.add_0_l. etransitivity; [|exact Hw]. apply N.add_le_mono_l. cbn. fold (values m). apply total_mono. intros r' Hr' [Hc Ht'].
      split; [done|]. apply values_elem in Hr' as (id & Hid). destruct (H1 _ _ Hid). cbn in *. lia.
Qed.

Lemma change_ok s now call past m m' :
  PolicyValidate (policy s) = true → change s now call m m' → ledgerOk (policy s) now past m → ledgerOk (policy s) now (past ++ lost m m') m'.
Proof.
  intros Hp Hc Hok. destruct Hc as [|q v Hn _ _ Ha Hq|m' Hm].
  - apply pruneResolved_ok; [|done]. intros id e He. by apply pruned_survive.
  - apply reserve_ok; try done. apply pruneResolved_ok; [|done]. intros id e He. rewrite <-pruned_survive by done. unfold survives. cbn.
    destruct (decide (qID q = id)) as [<-|Hi]; [|by rewrite lookup_insert_ne]. rewrite lookup_insert_eq, Hn. cbn. split; [|done].
    intros [= Ht]. assert (Hk : ¬ kept now (Reservation e)).
    { intros Hk. rewrite (proj2 (pruned_lookup now m _ e) (conj He Hk)) in Hn. done. }
    destruct Hk. right. destruct (lo_rec _ _ _ _ Hok _ _ He). unfold PolicyValidate in Hp. bprop. lia.
  - rewrite lost_nil, app_nil_r by (intros id e; by apply (moves_survive now call)). induction Hm as [|m m1 m' Hm _ IH]; [done|]. by apply IH, (move_ok _ _ _ _ _ _ Hm).
Qed.

(** ** Worlds *)

Definition worldOk (T : Time) (w : world) : Prop :=
  match wFile w with
  | None => wPast w = []
  | Some raw => ∃ d, Unmarshal raw = Some d ∧ PolicyValidate (dPolicy d) = true ∧ ledgerOk (dPolicy d) T (wPast w) (recordsOf d)
  end.

Lemma ledgerOk_empty p T : ledgerOk p T [] ∅.
Proof.
  split.
  - intros id e H. by rewrite lookup_empty in H.
  - intros r H. by apply elem_of_nil in H.
  - rewrite map_size_empty. lia.
  - intros x. rewrite owned_values. unfold values. rewrite map_to_list_empty. cbn. lia.
  - intros wt len B _ t. unfold values. rewrite map_to_list_empty. cbn. lia.
Qed.

Lemma validateDocument_policy d : validateDocument d = true → PolicyValidate (dPolicy d) = true.
Proof. unfold validateDocument, AutomaticAdmissionPolicyRevisionFor. by destruct (PolicyValidate (dPolicy d)). Qed.

Lemma lost_self m : lost m m = [].
Proof. apply lost_nil. intros id e He. unfold survives. cbn. by rewrite He. Qed.

Lemma ledgerStep_ok T w st : (T <= sNow st)%Z → worldOk T w → worldOk (sNow st) (ledgerStep w st).
Proof.
  intros HT. unfold worldOk, ledgerStep. cbn. destruct (call_change st (wFile w)) as [->|(doc & doc' & Hl & Hv & Hd & Hp & Hc)].
  { rewrite lost_self, app_nil_r. destruct (wFile w) as [raw|]; [|done]. intros (d & H1 & H2 & H3). exists d. split_and!; [done|done|]. by eapply ledgerOk_later. }
  destruct (load_spec _ _ _ Hl) as (L1 & L2 & L3 & L4). unfold contents at 2 3. rewrite Hd. cbn [from_option]. intros Hw.
  assert (Hold : PolicyValidate (policy (sStore st)) = true ∧ ledgerOk (policy (sStore st)) (sNow st) (wPast w) (contents (wFile w))).
  { rewrite <-L2. split; [rewrite <-Hp; by apply validateDocument_policy|]. destruct (wFile w) as [raw|] eqn:Ef.
    - destruct Hw as (d & H1 & H2 & H3). assert (d = doc) as -> by (apply L3; unfold decoded; cbn; by rewrite H1). rewrite <-L1. by eapply ledgerOk_later.
    - rewrite Hw. apply ledgerOk_empty. }
  destruct Hold as [Hpv Hok]. unfold decoded in Hd. destruct (callFile st (wFile w)) as [raw|]; [|done]. cbn in Hd. exists doc'. split_and!; [done|by apply validateDocument_policy|].
  rewrite Hp, L2. rewrite L1 in Hc. by eapply change_ok.
Qed.

Lemma run_ok_from T w steps : worldOk T w → StronglySorted Z.le (T :: (sNow <$> steps)) → ∃ T', worldOk T' (foldl ledgerStep w steps).
Proof.
  revert T w. induction steps as [|st steps IH]; intros T w Hw Hs; [by eexists|]. apply StronglySorted_inv in Hs as [Hs Hall].
  rewrite fmap_cons in Hs, Hall. apply Forall_cons in Hall as [Hle _]. apply (IH (sNow st)); [|done]. by eapply ledgerStep_ok.
Qed.

Lemma ledgerRun_ok steps : clockAdvances steps → ∃ T, worldOk T (ledgerRun steps).
Proof.
  unfold clockAdvances, ledgerRun. destruct steps as [|st steps]; [by exists 0%Z|]. intros Hs. apply (run_ok_from (sNow st)); [done|].
  apply Sorted_StronglySorted; [intros ???; lia|]. apply Sorted_cons; [done|]. rewrite fmap_cons. apply HdRel_cons. lia.
Qed.

Lemma run_totals steps d : clockAdvances steps → decoded (wFile (ledgerRun steps)) = Some d →
  ∀ wt len B, limit (dPolicy d) wt len B → ∀ t, (total wt len t (issued (ledgerRun steps)) <= B)%N.
Proof.
  intros Hs Hd. destruct (ledgerRun_ok steps Hs) as [T Hw]. unfold worldOk, decoded, issued, contents, decoded in *. destruct (wFile (ledgerRun steps)) as [raw|]; [|done].
  destruct Hw as (d' & H1 & H2 & H3). cbn in *. rewrite Hd in *. injection H1 as <-. apply H3.
Qed.

Lemma Nsum_ones {A} (l : list A) : Nsum ((λ _, 1%N) <$> l) = N.of_nat (length l).
Proof. induction l as [|x l IH]; [done|]. cbn [fmap list_fmap Nsum foldr length]. fold (Nsum ((λ _, 1%N) <$> l)). rewrite IH. lia. Qed.

Lemma Nsum_filter {A} (P : A → Prop) `{!∀ x, Decision (P x)} (f : A → N) l : Nsum (f <$> filter P l) = Nsum ((λ x, if decide (P x) then f x else 0%N) <$> l).
Proof. induction l as [|x l IH]; [done|]. rewrite filter_cons. cbn. destruct (decide (P x)); cbn; unfold Nsum in *; by rewrite IH. Qed.

(** C39. The budget of automatic learning holds.  Whatever processes share the ledger, however
    their calls fail, and however often reservations are taken over, at every time the
    reservations that are not given back and were made within the last window are at most
    as many as the policy allows, with at most as many tokens, in all and for each
    principal.  Reservations pruned from the document count as well.  The clock is read in
    the order of the file lock. *)
Theorem automatic_budget_respected steps d t :
  clockAdvances steps → decoded (wFile (ledgerRun steps)) = Some d →
  let p := dPolicy d in
  let active := filter (running (Window p) t) (issued (ledgerRun steps)) in
  (N.of_nat (length active) <= MaxCount p)%N ∧ (Nsum (Tokens <$> active) <= MaxTokens p)%N ∧
  ∀ x, let own := filter (λ r, Principal r = x) active in
    (N.of_nat (length own) <= MaxCountPerPrincipal p)%N ∧ (Nsum (Tokens <$> own) <= MaxTokensPerPrincipal p)%N.
Proof.
  intros Hs Hd p active. pose proof (run_totals steps d Hs Hd) as H. split_and!.
  - rewrite <-Nsum_ones. apply (H _ _ _ (limit_count p) t).
  - apply (H _ _ _ (limit_tokens p) t).
  - intros x own. split.
    + rewrite <-Nsum_ones. unfold own. rewrite Nsum_filter. apply (H _ _ _ (limit_principal_count p x) t).
    + unfold own. rewrite Nsum_filter. apply (H _ _ _ (limit_principal_tokens p x) t).
Qed.

Lemma two_elements {A} (l : list A) i j x y : l !! i = Some x → l !! j = Some y → i ≠ j → ∃ k, l ≡ₚ x :: y :: k.
Proof.
  intros Hi Hj Hn. assert (Hy : y ∈ delete i l).
  { destruct (decide (j < i)); apply list_elem_of_lookup; [exists j; by rewrite list_lookup_delete_lt by done|exists (pred j)].
    rewrite list_lookup_delete_ge by lia. by replace (S (pred j)) with j by lia. }
  apply elem_of_Permutation in Hy as [k Hk]. exists k. by rewrite (delete_Permutation l i x Hi), Hk.
Qed.

Lemma total_two wt len t l i j r r' :
  l !! i = Some r → l !! j = Some r' → i ≠ j → running len t r → running len t r' → wt r = 1%N → wt r' = 1%N → (2 <= total wt len t l)%N.
Proof.
  intros Hi Hj Hn Hr Hr' Hw Hw'. destruct (two_elements l i j r r' Hi Hj Hn) as [k ->]. rewrite !total_cons, !decide_True by done. lia.
Qed.

(** Automatic learning does not repeat itself.  Of two reservations of the same input
    that are not given back the later was made at least the deduplication window after the
    earlier; and where the cooldown is not longer than that window, of two weighted
    reservations of a principal the later was made at least the cooldown after the
    earlier. *)
Theorem automatic_admissions_spaced steps d i j r r' :
  clockAdvances steps → decoded (wFile (ledgerRun steps)) = Some d →
  issued (ledgerRun steps) !! i = Some r → issued (ledgerRun steps) !! j = Some r' → i ≠ j →
  Charge r ≠ AutomaticChargeReclaimed → Charge r' ≠ AutomaticChargeReclaimed → (ReservedAt r <= ReservedAt r')%Z →
  (Digest r = Digest r' → ReservedAt r + DedupeWindow (dPolicy d) <= ReservedAt r')%Z ∧
  ((Cooldown (dPolicy d) <= DedupeWindow (dPolicy d))%Z → Principal r = Principal r' → Class_ r = AdmissionWeighted → Class_ r' = AdmissionWeighted →
   ReservedAt r + Cooldown (dPolicy d) <= ReservedAt r')%Z.
Proof.
  intros Hs Hd Hi Hj Hn Hc Hc' Ht. pose proof (run_totals steps d Hs Hd) as H. split.
  - intros Hdig. destruct (Z.le_gt_cases (ReservedAt r + DedupeWindow (dPolicy d)) (ReservedAt r')) as [|Hlt]; [done|exfalso].
    apply (N.lt_nge 1 2); [done|]. etransitivity; [|apply (H _ _ _ (limit_digest _ (Digest r)) (ReservedAt r'))].
    apply (total_two _ _ _ _ i j r r'); try done; try (split; (done || lia)); cbn; by rewrite decide_True.
  - intros Hcool Hp Hw Hw'. destruct (Z.le_gt_cases (ReservedAt r + Cooldown (dPolicy d)) (ReservedAt r')) as [|Hlt]; [done|exfalso].
    apply (N.lt_nge 1 2); [done|]. etransitivity; [|apply (H _ _ _ (limit_cooldown _ (Principal r) Hcool) (ReservedAt r'))].
    apply (total_two _ _ _ _ i j r r'); try done; try (split; (done || lia)); cbn; by rewrite decide_True.
Qed.

(** ** Who may change a reservation *)

Definition keeperOf (id : gostr) (r : AutomaticReservation) (st : LedgerStep) : Prop :=
  if decide (Charge r = AutomaticChargeHeld)
  then (sNow st < ExpiresAt (Fence_ r))%Z ∧ ∀ retain v, sCall st ≠ CResolve id (Version r) (Fence_ r) retain v
  else (sNow st < DedupeExpiresAt r)%Z.

Lemma change_keeps s now disk call m m' id r :
  change s now call m m' → m !! id = Some (mkEntry r) → keeperOf id r (mkStep s now disk call) → m' !! id = Some (mkEntry r).
Proof.
  unfold keeperOf. cbn. intros Hc Hr Hk.
  assert (Hp : pruneResolved now m !! id = Some (mkEntry r)) by (apply pruned_lookup; split; [done|]; unfold kept; cbn; destruct (decide _); [by left|by right]).
  destruct Hc as [|q v Hn _ _ _ _|m' Hm]; [done|by rewrite lookup_insert_ne by congruence|]. clear Hp.
  induction Hm as [m|m m1 m' Hm _ IH]; [done|]. apply IH. destruct Hm as [id' r' v Hr' Hc Hx _|id' r' b v v' Hcall Hr' Hc Hva];
    (destruct (decide (id' = id)) as [->|]; [exfalso|by rewrite lookup_insert_ne]); rewrite Hr in Hr'; injection Hr' as <-; rewrite decide_True in Hk by done.
  - lia.
  - by eapply (proj2 Hk).
Qed.

Lemma run_keeps w later id r :
  contents (wFile w) !! id = Some (mkEntry r) → Forall (keeperOf id r) later → contents (wFile (foldl ledgerStep w later)) !! id = Some (mkEntry r).
Proof.
  revert w. induction later as [|st later IH]; intros w Hr Hl; [done|]. apply Forall_cons in Hl as [Hk Hl]. cbn [foldl]. apply IH; [|done]. change (contents (callFile st (wFile w)) !! id = Some (mkEntry r)).
  destruct (call_change st (wFile w)) as [->|(doc & doc' & Hld & _ & Hd & _ & Hc)]; [done|]. destruct (load_spec _ _ _ Hld) as (L1 & _). rewrite L1 in Hc.
  unfold contents. rewrite Hd. cbn [from_option]. destruct st. by eapply change_keeps.
Qed.

Lemma mutate_resolved s file disk id e fn r :
  contents file !! id = Some (mkEntry r) → Charge r ≠ AutomaticChargeHeld → (∀ r', Charge r' ≠ AutomaticChargeHeld → fn r' = inr ErrAutomaticReservationState) →
  (transaction s file disk true None (mutateIn id e fn)).2.2 ≠ None.
Proof.
  intros Hr Hc Hfn. unfold transaction. destruct disk; [|done| |]; (destruct (load s file) as [doc|] eqn:El; [|done]);
    (destruct (load_spec _ _ _ El) as (L1 & _)); rewrite <-L1 in Hr; unfold mutateIn; rewrite Hr; cbn [Reservation]; (destruct (negb _); [done|]); by rewrite Hfn.
Qed.

Lemma resolve_result s file disk id e f disp now v r :
  (resolve s file disk id e f disp now v).2 = (Some r, None) →
  contents (resolve s file disk id e f disp now v).1 !! id = Some (mkEntry r) ∧ Charge r = disp.
Proof.
  unfold resolve, transaction. destruct disk; [|done| |]; (destruct (load s file) as [doc|] eqn:El; [|done]);
    (destruct (mutateIn id e _ doc) as [a [doc'|]] eqn:Em; [|done]); cbn [negb];
    match goal with |- context [save file ?d doc'] => pose proof (ledgerSave_spec file d doc') as Hs; unfold save in * end;
    (destruct (validateDocument doc') eqn:Ev; [|done]); cbn [negb] in *; (destruct (Marshal doc') as [raw|] eqn:Ema; [|done]); (destruct (_ <? _)%Z; [done|]); try done.
  cbn. intros [= ->]. apply mutateIn_spec in Em as (r0 & r1 & Hr0 & He & Hf & _ & [= <-] & ->). apply resolved_spec in Hf as (v' & -> & _ & _).
  unfold contents, decoded. cbn. rewrite (unmarshal_marshal _ _ Ema). cbn. by rewrite lookup_insert_eq.
Qed.

(** A reservation has one owner and is resolved once.  Until its fence expires a held
    reservation is changed by nobody but a caller who names its version and its fence.
    Once it was successfully retained or reclaimed it stays as that call left it, and every
    further attempt to take it over, retain it or reclaim it fails, until deduplication
    lets it go: an attempt is created for it or its charge is given back, never both. *)
Theorem reservation_exclusive steps later :
  (∀ id r, contents (wFile (ledgerRun steps)) !! id = Some (mkEntry r) → Charge r = AutomaticChargeHeld →
    Forall (λ st, (sNow st < ExpiresAt (Fence_ r))%Z ∧ ∀ retain v, sCall st ≠ CResolve id (Version r) (Fence_ r) retain v) later →
    contents (wFile (ledgerRun (steps ++ later))) !! id = Some (mkEntry r)) ∧
  (∀ s now disk id e f retain v r,
    (resolve s (wFile (ledgerRun steps)) disk id e f (dispositionOf retain) now v).2 = (Some r, None) →
    Forall (λ st, sNow st < DedupeExpiresAt r)%Z later →
    let w := ledgerRun (steps ++ mkStep s now disk (CResolve id e f retain v) :: later) in
    contents (wFile w) !! id = Some (mkEntry r) ∧ Charge r = dispositionOf retain ∧
    ∀ s' disk' e' f' now' v',
      (Reassign s' (wFile w) disk' id e' now' v').2.2 ≠ None ∧ (Retain s' (wFile w) disk' id e' f' now' v').2.2 ≠ None ∧
      (Reclaim s' (wFile w) disk' id e' f' now' v').2.2 ≠ None).
Proof.
  split.
  - intros id r Hr Hc Hl. unfold ledgerRun. rewrite foldl_app. apply run_keeps; [done|]. eapply Forall_impl; [exact Hl|].
    intros st Hst. unfold keeperOf. by rewrite decide_True.
  - intros s now disk id e f retain v r Hres Hl w. destruct (resolve_result _ _ _ _ _ _ _ _ _ _ Hres) as [Hr Hc].
    assert (Hh : Charge r ≠ AutomaticChargeHeld) by (rewrite Hc; by destruct retain).
    assert (Hw : contents (wFile w) !! id = Some (mkEntry r)).
    { unfold w, ledgerRun. rewrite foldl_app. cbn [foldl]. apply run_keeps; [by destruct retain|]. eapply Forall_impl; [exact Hl|]. intros st Hst. unfold keeperOf. by rewrite decide_False. }
    split_and!; [done|done|]. intros s' disk' e' f' now' v'. split_and!; apply (mutate_resolved _ _ _ _ _ _ r Hw Hh); intros r' Hr'; unfold reassigned, resolved; by rewrite bool_decide_false.
Qed.

(** A response that was lost is recovered by asking again: the same identity gets the same
    reservation, and nothing is charged. *)
Theorem reserve_retry_idempotent s q now v doc stored :
  pruneResolved now (recordsOf doc) !! qID q = Some stored → sameImmutable stored q = true →
  reserveIn s q now v doc = (Some (Reservation stored), inl (setRecords (pruneResolved now (recordsOf doc)) doc)).
Proof. intros Hs Hi. unfold reserveIn. by rewrite Hs, Hi. Qed.
End ledger.

(** ** Samples *)

#[local] Program Instance samplePlatform : LedgerPlatform := {|
  sum16 := take 32; Bytes := document; Marshal := Some; Unmarshal := Some; rawLen := λ _, 0%Z |}.
Next Obligation. by intros d b [= <-]. Qed.

Definition samplePolicy : AutomaticAdmissionPolicy := mkPolicy 10 3 10 4 6 4 6 5.
Definition sampleRevision : gostr := take 32 #"10:3:10:4:6:4:6:5".
Definition sampleStore : Store := mkStore samplePolicy sampleRevision.

Definition sampleRequest (attempt : string) (digit : rune) (tokens : N) : AutomaticReservationRequest :=
  mkRequest (#"reservation-" ++ #attempt) (#attempt) #"alice" (replicate 64 digit) AdmissionWeighted tokens sampleRevision.

Definition at_ (now : Z) (call : LedgerCall) : LedgerStep := mkStep sampleStore now DiskWorks call.

(** Two reservations, the first retained. *)
Definition sampleSteps : list LedgerStep :=
  [at_ 1 (CReserve (sampleRequest "attempt-a" (chr "a") 5) (Some #"v1"));
   at_ 2 (CResolve #"reservation-attempt-a" #"v1" (mkFence 1 6) true (Some #"v2"));
   at_ 4 (CReserve (sampleRequest "attempt-c" (chr "c") 1) (Some #"v3"))].

Example sample_new : New #"/var/lib" true true samplePolicy = inl sampleStore.
Proof. by vm_compute. Qed.

Example sample_issued : Tokens <$> issued (ledgerRun sampleSteps) = [5%N; 1%N] ∨ Tokens <$> issued (ledgerRun sampleSteps) = [1%N; 5%N].
Proof. vm_compute. tauto. Qed.

(** The same input again, and more tokens than are left. *)
Example sample_refused :
  (Reserve sampleStore (wFile (ledgerRun sampleSteps)) DiskWorks (sampleRequest "attempt-d" (chr "c") 1) 9 (Some #"v4")).2 = (None, Some ErrAutomaticAdmissionDuplicate) ∧
  (Reserve sampleStore (wFile (ledgerRun sampleSteps)) DiskWorks (sampleRequest "attempt-d" (chr "d") 1) 9 (Some #"v4")).2 = (None, Some ErrAutomaticAdmissionLimit) ∧
  (Reserve sampleStore (wFile (ledgerRun sampleSteps)) DiskWorks (sampleRequest "attempt-d" (chr "d") 1) 6 (Some #"v4")).2 = (None, Some ErrAutomaticAdmissionCooldown).
Proof. split_and!; by vm_compute. Qed.

(** The clock is read before the lock is waited for.  A caller that read 10 and got the lock
    after a caller that read 11 does not see the charge that the other pruned. *)
Example late_clock_reading_overcharges :
  let steps := sampleSteps ++ [at_ 11 (CReserve (sampleRequest "attempt-c" (chr "c") 1) (Some #"v5"));
                               at_ 10 (CReserve (sampleRequest "attempt-d" (chr "d") 5) (Some #"v6"))] in
  Nsum (Tokens <$> filter (running (Window samplePolicy) 10) (issued (ledgerRun steps))) = 11%N.
Proof. by vm_compute. Qed.

(** A cooldown that is longer than the deduplication window is forgotten with the record. *)
Example cooldown_forgotten :
  let p := mkPolicy 10 100 10 4 6 4 6 5 in
  let revision := take 32 #"10:100:10:4:6:4:6:5" in
  let request a c := mkRequest (#"reservation-" ++ #a) #a #"alice" (replicate 64 (chr c)) AdmissionWeighted 1 revision in
  let step now call := mkStep (mkStore p revision) now DiskWorks call in
  let steps := [step 1%Z (CReserve (request "attempt-a" "a"%char) (Some #"v1"));
                step 2%Z (CResolve #"reservation-attempt-a" #"v1" (mkFence 1 6) true (Some #"v2"));
                step 12%Z (CReserve (request "attempt-b" "b"%char) (Some #"v3"))] in
  PolicyValidate p = true ∧ ReservedAt <$> issued (ledgerRun steps) = [1%Z; 12%Z].
Proof. split; by vm_compute. Qed.

Lemma sample_clock : clockAdvances sampleSteps.
Proof. repeat constructor; cbn; lia. Qed.

Lemma automatic_budget_respected_witness :
  ∃ d, decoded (wFile (ledgerRun sampleSteps)) = Some d ∧
  (Nsum (Tokens <$> filter (running (Window (dPolicy d)) 5) (issued (ledgerRun sampleSteps))) <= MaxTokens (dPolicy d))%N.
Proof.
  assert (Hs : is_Some (decoded (wFile (ledgerRun sampleSteps)))) by (vm_compute; by eexists).
  destruct (decoded (wFile (ledgerRun sampleSteps))) as [d|] eqn:Ed; [|by destruct Hs]. exists d. split; [reflexivity|].
  exact (proj1 (proj2 (automatic_budget_respected sampleSteps d 5 sample_clock Ed))).
Defined.

(** The same input, a deduplication window later. *)
Definition repeatedSteps : list LedgerStep :=
  [at_ 1 (CReserve (sampleRequest "attempt-a" (chr "a") 5) (Some #"v1"));
   at_ 2 (CResolve #"reservation-attempt-a" #"v1" (mkFence 1 6) true (Some #"v2"));
   at_ 11 (CReserve (sampleRequest "attempt-b" (chr "a") 5) (Some #"v3"))].

Definition repeatedIssued : list AutomaticReservation := issued (ledgerRun repeatedSteps).

Lemma repeated_facts :
  is_Some (decoded (wFile (ledgerRun repeatedSteps))) ∧ dPolicy <$> decoded (wFile (ledgerRun repeatedSteps)) = Some samplePolicy ∧
  (λ r, (ReservedAt r, Charge r)) <$> repeatedIssued = [(1%Z, AutomaticChargeRetained); (11%Z, AutomaticChargeHeld)] ∧
  Digest <$> repeatedIssued = [replicate 64 (chr "a"); replicate 64 (chr "a")].
Proof. split_and!; try (by vm_compute). vm_compute. by eexists. Qed.

Lemma repeated_pair : ∃ d r r', decoded (wFile (ledgerRun repeatedSteps)) = Some d ∧ repeatedIssued = [r; r'] ∧ Digest r = Digest r' ∧
  Charge r ≠ AutomaticChargeReclaimed ∧ Charge r' ≠ AutomaticChargeReclaimed ∧ (ReservedAt r <= ReservedAt r')%Z.
Proof.
  destruct repeated_facts as ([d Hs] & _ & Hr & Hd). exists d. destruct repeatedIssued as [|r [|r' [|]]]; try discriminate Hr. injection Hr as H1 H2 H3 H4. injection Hd as Hd1 Hd2.
  exists r, r'. split; [exact Hs|]. rewrite H1, H2, H3, H4. split_and!; [reflexivity|congruence|discriminate|discriminate|lia].
Qed.

Lemma automatic_admissions_spaced_witness :
  ∃ d r r', repeatedIssued = [r; r'] ∧ Digest r = Digest r' ∧ (ReservedAt r + DedupeWindow (dPolicy d) <= ReservedAt r')%Z.
Proof.
  destruct repeated_pair as (d & r & r' & Ed & Hl & Hd & Hc & Hc' & Ht). exists d, r, r'. split; [exact Hl|]. split; [exact Hd|].
  assert (Hs : clockAdvances repeatedSteps) by (repeat constructor; cbn; lia).
  assert (Hi : repeatedIssued !! 0 = Some r) by (rewrite Hl; reflexivity). assert (Hj : repeatedIssued !! 1 = Some r') by (rewrite Hl; reflexivity).
  exact (proj1 (automatic_admissions_spaced repeatedSteps d 0 1 r r' Hs Ed Hi Hj (Nat.neq_succ_diag_r 0) Hc Hc' Ht) Hd).
Defined.
