(* ===== verification/Admission.v ===== *)
(** * The admission of trajectories to learning

    [engine/learning/signals.go] (what a completed run shows), [admission.go] (the policies
    that admit it to reflection) and of [evidence.go] and [reflection.go] the references to
    messages and the bounds of an input.

    Automatic admission detects signals in the messages of the current run alone, without
    events, existing facts or a manifest; that is the path modelled.  Contexts are not
    cancelled.  [ToLower] of the standard library and the SHA-256 of the canonical
    projection of a message are parameters. *)

From S2P Require Import Prelude Conversation Usage Title Labels Session Attempts Skills.

(** ** The vocabulary *)

Definition Sensitivity := N.
Definition SensitivityUnset : Sensitivity := 0%N.
Definition Conservative : Sensitivity := 1%N.
Definition Balanced : Sensitivity := 2%N.
Definition Eager : Sensitivity := 3%N.

Definition ParseSensitivity (value : gostr) : Sensitivity * bool :=
  if value =s #"conservative" then (Conservative, true)
  else if value =s #"balanced" then (Balanced, true)
  else if value =s #"eager" then (Eager, true)
  else (Balanced, false).

Definition SensitivityNext (s : Sensitivity) : Sensitivity :=
  if s =r Conservative then Balanced else if s =r Balanced then Eager else Conservative.

Definition Threshold (s : Sensitivity) : Z :=
  if s =r Conservative then 6 else if s =r Eager then 3 else 4.

Record MessageSpan := mkSpan { Start : Z; End_ : Z }.
Definition SpanValid (s : MessageSpan) (messageCount : Z) : bool := ((0 <=? Start s) && (Start s <? End_ s) && (End_ s <=? messageCount))%Z.
Definition SpanContains (s : MessageSpan) (ordinal : Z) : bool := ((Start s <=? ordinal) && (ordinal <? End_ s))%Z.

Inductive AdmissionReason :=
  | ReasonBelowThreshold | ReasonInvalidCurrentSpan | ReasonNonMainSession | ReasonIneligibleStop | ReasonTrivialRun
  | ReasonExplicitRemember | ReasonExplicitLearnProcedure | ReasonRepeatedCorrection | ReasonTrustedHostContradiction
  | ReasonFailureRecovery | ReasonRepeatedToolSequence | ReasonSubstantialSuccess | ReasonModelTurnsModifier
  | ReasonSuccessfulToolsModifier | ReasonRunTokensModifier | ReasonPolicyAlways | ReasonPolicyNever | ReasonHostRequested
  | ReasonHardTrigger | ReasonWeightedThreshold | ReasonDuplicate | ReasonRateLimit | ReasonQueueFull | ReasonCoordinatorClosed
  | ReasonTimeout | ReasonReflectionFailed | ReasonAbstained | ReasonStaged | ReasonPromoted | ReasonConflicted.
#[global] Instance AdmissionReason_eq_dec : EqDecision AdmissionReason.
Proof. solve_decision. Defined.

Record Trajectory := mkTrajectory {
  tRunID : gostr; tSessionID : gostr; tWorkspace : gostr; tStop : StopReason; tUsage : Usage; tMessages : list Message;
  tKind : SessionKind; tCounters : Counters; tCurrent : MessageSpan; tPrincipal : option Principal
}.

Record AdmissionDecision := mkDecision {
  DAdmitted : bool; DClass : AdmissionClass; Score : Z; DThreshold : Z; Reasons : list AdmissionReason; Signals : list Signal
}.

Definition MaxInputMessages : nat := 256.
Definition MaxCandidateEvidence : nat := 16.
Definition substantialSuccessfulTools : nat := 3.

(** Without events, signals, facts and manifest. *)
Definition ValidateInput (t : Trajectory) : bool := negb (tSessionID t =s []) && (length (tMessages t) <=? MaxInputMessages).

Class LearningInput := { ToLower : gostr → gostr; messageDigest : Message → gostr }.

Section admission.
Context {input : LearningInput}.

(** ** References *)

Definition messageHasCall (m : Message) (id : gostr) : bool :=
  existsb (λ c, CallID c =s id) (MToolCalls m) || match MToolResult m with Some r => RCallID r =s id | None => false end.

Definition MessageEvidenceRef (t : Trajectory) (ordinal : nat) (callID : gostr) : option EvidenceRef :=
  match tMessages t !! ordinal with
  | None => None
  | Some m =>
      if negb (callID =s []) && negb (messageHasCall m callID) then None
      else Some (mkEvidence [] (tSessionID t) EvidenceMessage (Z.of_nat ordinal) 0 None None callID (messageDigest m) [])
  end.

(** ** Texts *)

Definition lowered (text : gostr) : gostr := ToLower (TrimSpace text).

Definition explicitRememberText (text : gostr) : bool :=
  let line := lowered text in
  existsb (λ prefix, HasPrefix line prefix && (4 <=? byteLen (TrimSpace (drop (length prefix) line))))
    [ #"remember that "; #"please remember that "; #"please remember "; #"learn that " ].

Definition apostrophe : rune := 8217%N.
Definition emDash : rune := 8212%N.

Definition affirmativeIntent (line : gostr) : bool :=
  if ContainsRune line (chr "?") then false
  else negb (existsb (λ word, Contains (#" " ++ line ++ #" ") (#" " ++ word ++ #" "))
    [ #"not"; #"never"; #"no"; #"don't"; #"don" ++ [apostrophe] ++ #"t"; #"cannot"; #"can't"; #"can" ++ [apostrophe] ++ #"t" ]).

Definition imperativePrefix (line prefix : gostr) : bool :=
  if negb (HasPrefix line prefix) then false
  else match drop (length prefix) line with
       | [] => true
       | next :: _ => (next =r space) || (next =r chr ",") || (next =r chr ":") || (next =r chr ";") || (next =r chr "!")
       end.

Definition explicitLearnProcedureText (text : gostr) : bool :=
  let line := lowered text in
  if negb (affirmativeIntent line) then false
  else existsb (imperativePrefix line)
    [ #"learn this procedure"; #"learn this workflow"; #"save this as a skill"; #"remember this procedure";
      #"create a skill"; #"make a skill"; #"build a skill"; #"turn this workflow into a skill"; #"turn this procedure into a skill" ].

Definition correctionTurn (text : gostr) : bool :=
  existsb (HasPrefix (lowered text))
    [ #"no, "; #"no " ++ [emDash] ++ #" "; #"no: "; #"actually, "; #"that's incorrect"; #"that is incorrect"; #"you missed "; #"i already said " ].

(** ** Detection *)

(** The successful results so far and the last assistant message with text; a failed result
    ends the loop. *)
Fixpoint substantialLoop (t : Trajectory) (i : nat) (ms : list Message) (refs : list EvidenceRef) (final : option nat) : option (list EvidenceRef * option nat) :=
  match ms with
  | [] => Some (refs, final)
  | m :: ms' =>
      let final := if (MRole m =s RoleAssistant) && negb (TrimSpace (MText m) =s []) then Some i else final in
      match MToolResult m with
      | Some r =>
          if negb (MRole m =s RoleTool) then substantialLoop t (S i) ms' refs final
          else if RIsError r then None
          else match MessageEvidenceRef t i (RCallID r) with
               | Some ref => substantialLoop t (S i) ms' (refs ++ [ref]) final
               | None => substantialLoop t (S i) ms' refs final
               end
      | None => substantialLoop t (S i) ms' refs final
      end
  end.

Definition substantialSuccess (t : Trajectory) : list EvidenceRef :=
  if negb (tStop t =s StopEndTurn) then []
  else match substantialLoop t 0 (tMessages t) [] None with
       | Some (refs, Some final) =>
           if length refs <? substantialSuccessfulTools then []
           else match MessageEvidenceRef t final [] with
                | Some finalRef => take MaxCandidateEvidence (refs ++ [finalRef])
                | None => []
                end
       | _ => []
       end.

Fixpoint recoveryLoop (t : Trajectory) (i : nat) (ms : list Message) (callNames : gmap gostr gostr) (failedByName : gmap gostr EvidenceRef) : list EvidenceRef :=
  match ms with
  | [] => []
  | m :: ms' =>
      let callNames := foldl (λ names c, <[CallID c := CallName c]> names) callNames (MToolCalls m) in
      match MToolResult m with
      | Some r =>
          let name := default [] (callNames !! RCallID r) in
          if negb (MRole m =s RoleTool) || (name =s []) then recoveryLoop t (S i) ms' callNames failedByName
          else match MessageEvidenceRef t i (RCallID r) with
               | None => recoveryLoop t (S i) ms' callNames failedByName
               | Some ref =>
                   if RIsError r then recoveryLoop t (S i) ms' callNames (<[name := ref]> failedByName)
                   else match failedByName !! name with
                        | Some failed => [failed; ref]
                        | None => recoveryLoop t (S i) ms' callNames failedByName
                        end
               end
      | None => recoveryLoop t (S i) ms' callNames failedByName
      end
  end.

Definition failureRecovery (t : Trajectory) : list EvidenceRef := recoveryLoop t 0 (tMessages t) ∅ ∅.

Definition indexed {A} (l : list A) : list (nat * A) := zip (seq 0 (length l)) l.

Definition occurrences (t : Trajectory) : list (gostr * EvidenceRef) :=
  omap (λ im, let m := im.2 in
    if negb (MRole m =s RoleAssistant) || (length (MToolCalls m) <? 2) then None
    else (λ ref, (Join (CallName <$> MToolCalls m) [0%N], ref)) <$> MessageEvidenceRef t im.1 []) (indexed (tMessages t)).

Fixpoint repeatedLoop (first : gmap gostr EvidenceRef) (os : list (gostr * EvidenceRef)) : list EvidenceRef :=
  match os with
  | [] => []
  | (key, ref) :: os' =>
      match first !! key with
      | Some ref0 => [ref0; ref]
      | None => repeatedLoop (<[key := ref]> first) os'
      end
  end.

Definition calls (t : Trajectory) : list (gostr * EvidenceRef) :=
  mbind (λ im, let m := im.2 in
    if negb (MRole m =s RoleAssistant) then []
    else omap (λ c, (λ ref, (CallName c, ref)) <$> MessageEvidenceRef t im.1 (CallID c)) (MToolCalls m)) (indexed (tMessages t)).

Fixpoint pairsLoop (cs : list (gostr * EvidenceRef)) (i : nat) (pairs : gmap gostr nat) (rest : list (gostr * EvidenceRef)) : list EvidenceRef :=
  match rest with
  | (a, refA) :: (((b, refB) :: _) as rest') =>
      let key := a ++ [0%N] ++ b in
      match pairs !! key with
      | Some firstIndex =>
          if S firstIndex <? i then
            match cs !! firstIndex, cs !! S firstIndex with
            | Some (_, ref0), Some (_, ref1) => [ref0; ref1; refA; refB]
            | _, _ => []
            end
          else pairsLoop cs (S i) pairs rest'
      | None => pairsLoop cs (S i) (<[key := i]> pairs) rest'
      end
  | _ => []
  end.

Definition repeatedSequence (t : Trajectory) : list EvidenceRef :=
  match repeatedLoop ∅ (occurrences t) with
  | [] => pairsLoop (calls t) 0 ∅ (calls t)
  | refs => refs
  end.

(** The first genuine prompt with the intent. *)
Fixpoint explicitLoop (t : Trajectory) (intent : gostr → bool) (ims : list (nat * Message)) : list EvidenceRef :=
  match ims with
  | [] => []
  | (i, m) :: ims' =>
      if negb (IsGenuineUserPrompt m) || negb (intent (MText m)) then explicitLoop t intent ims'
      else match MessageEvidenceRef t i [] with Some ref => [ref] | None => explicitLoop t intent ims' end
  end.

Definition explicitRemember (t : Trajectory) : list EvidenceRef := explicitLoop t explicitRememberText (indexed (tMessages t)).
Definition explicitLearnProcedure (t : Trajectory) : list EvidenceRef := explicitLoop t explicitLearnProcedureText (indexed (tMessages t)).

Definition repeatedCorrections (t : Trajectory) : list EvidenceRef :=
  let refs := omap (λ im, if negb (MRole im.2 =s RoleUser) || negb (correctionTurn (MText im.2)) then None else MessageEvidenceRef t im.1 []) (indexed (tMessages t)) in
  if length refs <? 2 then [] else take MaxCandidateEvidence refs.

Definition signalOf (kind : SignalKind) (refs : list EvidenceRef) : list Signal :=
  if 0 <? length refs then [mkSignal kind refs] else [].

Definition DetectSignals (t : Trajectory) : list Signal :=
  if negb (ValidateInput t) then []
  else signalOf SignalSubstantialSuccess (substantialSuccess t) ++ signalOf SignalFailureRecovery (failureRecovery t)
       ++ signalOf SignalRepeatedToolSequence (repeatedSequence t) ++ signalOf SignalExplicitRemember (explicitRemember t)
       ++ signalOf SignalExplicitLearnProcedure (explicitLearnProcedure t) ++ signalOf SignalRepeatedCorrection (repeatedCorrections t).

Definition explicitCurrentPromptSignals (t : Trajectory) : list Signal :=
  match tMessages t with
  | [] => []
  | m :: _ =>
      if negb (IsGenuineUserPrompt m) then []
      else match MessageEvidenceRef t 0 [] with
           | None => []
           | Some ref =>
               if explicitRememberText (MText m) then [mkSignal SignalExplicitRemember [ref]]
               else if explicitLearnProcedureText (MText m) then [mkSignal SignalExplicitLearnProcedure [ref]]
               else []
           end
  end.

Definition explicitKind (k : SignalKind) : bool := (k =s SignalExplicitRemember) || (k =s SignalExplicitLearnProcedure).
Definition nonExplicitSignals (signals : list Signal) : list Signal := filter (λ g, negb (explicitKind (sgKind g)) = true) signals.

(** ** The current run *)

Definition currentTrajectory (t : Trajectory) : Trajectory :=
  let current := take (Z.to_nat (End_ (tCurrent t) - Start (tCurrent t))) (drop (Z.to_nat (Start (tCurrent t))) (tMessages t)) in
  mkTrajectory (tRunID t) (tSessionID t) (tWorkspace t) (tStop t) (tUsage t) current (tKind t) (tCounters t) (mkSpan 0 (Z.of_nat (length current))) (tPrincipal t).

Definition shiftRef (by_ : Z) (ref : EvidenceRef) : EvidenceRef :=
  mkEvidence (eProtocol ref) (eSessionID ref) (eLocator ref) (eOrdinal ref + by_) (eManifestIndex ref) (eOriginalMessage ref) (eEventSeq ref)
    (eToolCallID ref) (eDigest ref) (eAggregateDigest ref).

Definition signalHasOnlyCurrentEvidence (g : Signal) (span : MessageSpan) : bool :=
  if length (sgEvidence g) =? 0 then (sgKind g =s SignalContradiction) || (sgKind g =s SignalHostRequested)
  else forallb (λ ref, (eLocator ref =s EvidenceMessage) && SpanContains span (eOrdinal ref)) (sgEvidence g).

Definition signalOrder : list SignalKind :=
  [SignalExplicitRemember; SignalExplicitLearnProcedure; SignalRepeatedCorrection; SignalContradiction; SignalFailureRecovery;
   SignalRepeatedToolSequence; SignalSubstantialSuccess; SignalHostRequested].

Definition firstOfKind (all : list Signal) (kind : SignalKind) : option Signal := head (filter (λ g, sgKind g = kind) all).

Definition hostSignal (span : MessageSpan) (g : Signal) : bool :=
  ((sgKind g =s SignalContradiction) || (sgKind g =s SignalHostRequested)) && signalHasOnlyCurrentEvidence g span.

Definition detectSignalsScoped (t : Trajectory) (hostSignals : list Signal) : list Signal :=
  let current := currentTrajectory t in
  let detected := nonExplicitSignals (DetectSignals current) ++ explicitCurrentPromptSignals current in
  let detected := (λ g, mkSignal (sgKind g) (shiftRef (Start (tCurrent t)) <$> sgEvidence g)) <$> detected in
  let all := filter (λ g, hostSignal (tCurrent t) g = true) hostSignals ++ detected in
  omap (firstOfKind all) signalOrder.

(** ** The policies *)

Definition hardStop (stop : StopReason) : bool :=
  (stop =s StopEndTurn) || (stop =s StopMaxTurns) || (stop =s StopMaxToolCalls) || (stop =s StopBudget).

Definition signalHasGenuineCurrentPrompt (t : Trajectory) (g : Signal) (span : MessageSpan) : bool :=
  existsb (λ ref, (eLocator ref =s EvidenceMessage) && SpanContains span (eOrdinal ref)
    && match tMessages t !! Z.to_nat (eOrdinal ref) with Some m => IsGenuineUserPrompt m | None => false end) (sgEvidence g).

Definition successfulToolResults (t : Trajectory) (span : MessageSpan) : nat :=
  length (filter (λ m, (MRole m =s RoleTool) && match MToolResult m with Some r => negb (RIsError r) | None => false end = true)
    (take (Z.to_nat (End_ span - Start span)) (drop (Z.to_nat (Start span)) (tMessages t)))).

Definition weightOf (k : SignalKind) : option (Z * AdmissionReason) :=
  match k with
  | SignalRepeatedCorrection => Some (5%Z, ReasonRepeatedCorrection)
  | SignalContradiction => Some (5%Z, ReasonTrustedHostContradiction)
  | SignalFailureRecovery => Some (4%Z, ReasonFailureRecovery)
  | SignalRepeatedToolSequence => Some (3%Z, ReasonRepeatedToolSequence)
  | SignalSubstantialSuccess => Some (2%Z, ReasonSubstantialSuccess)
  | _ => None
  end.

Definition scoreSignals (signals : list Signal) : Z * list AdmissionReason :=
  foldl (λ acc g, match weightOf (sgKind g) with Some (w, reason) => (acc.1 + w, acc.2 ++ [reason])%Z | None => acc end) (0%Z, []) signals.

Definition modifiers (t : Trajectory) : list AdmissionReason :=
  (if (4 <=? Turns (tCounters t))%Z then [ReasonModelTurnsModifier] else [])
  ++ (if 5 <=? successfulToolResults t (tCurrent t) then [ReasonSuccessfulToolsModifier] else [])
  ++ (if (12000 <=? TotalTokens (tUsage t))%Z then [ReasonRunTokensModifier] else []).

Definition skippedDecision (threshold : Z) (reason : AdmissionReason) : AdmissionDecision := mkDecision false AdmissionSkipped 0 threshold [reason] [].

Definition hardSignal (t : Trajectory) (g : Signal) : bool :=
  explicitKind (sgKind g) && hardStop (tStop t) && signalHasGenuineCurrentPrompt t g (tCurrent t).

(** [ThresholdPolicy.Decide] *)
Definition Decide (s : Sensitivity) (t : Trajectory) (hostSignals : list Signal) : AdmissionDecision :=
  let threshold := Threshold s in
  let span := tCurrent t in
  if negb (tKind t =s SessionKindMain) then skippedDecision threshold ReasonNonMainSession
  else if negb (SpanValid span (Z.of_nat (length (tMessages t))))
          || negb (match tMessages t !! Z.to_nat (Start span) with Some m => IsGenuineUserPrompt m | None => false end)
  then skippedDecision threshold ReasonInvalidCurrentSpan
  else
    let signals := detectSignalsScoped t hostSignals in
    match head (filter (λ g, hardSignal t g = true) signals) with
    | Some g =>
        mkDecision true AdmissionHard 0 threshold
          [if sgKind g =s SignalExplicitLearnProcedure then ReasonExplicitLearnProcedure else ReasonExplicitRemember] signals
    | None =>
        if negb (tStop t =s StopEndTurn) then skippedDecision threshold ReasonIneligibleStop
        else if (Turns (tCounters t) <=? 1)%Z && (ToolCalls (tCounters t) =? 0)%Z then skippedDecision threshold ReasonTrivialRun
        else
          let '(base, reasons) := scoreSignals signals in
          if (base =? 0)%Z then skippedDecision threshold ReasonBelowThreshold
          else
            let score := (base + Z.of_nat (length (modifiers t)))%Z in
            let reasons := reasons ++ modifiers t in
            if (threshold <=? score)%Z then mkDecision true AdmissionWeighted score threshold reasons signals
            else mkDecision false AdmissionSkipped score threshold (reasons ++ [ReasonBelowThreshold]) signals
    end.

Definition AlwaysDecide (t : Trajectory) (hostSignals : list Signal) : AdmissionDecision :=
  if negb (tKind t =s SessionKindMain) || negb (SpanValid (tCurrent t) (Z.of_nat (length (tMessages t))))
  then skippedDecision 0 ReasonPolicyNever
  else mkDecision true AdmissionWeighted 0 0 [ReasonPolicyAlways] (detectSignalsScoped t hostSignals).

Definition NeverDecide : AdmissionDecision := skippedDecision 0 ReasonPolicyNever.

(** ** References are sound *)

(** A reference names a message of the trajectory, its digest, and a call that is in it. *)
Definition refersTo (t : Trajectory) (ref : EvidenceRef) : Prop :=
  eLocator ref = EvidenceMessage ∧ eSessionID ref = tSessionID t ∧
  ∃ i m, eOrdinal ref = Z.of_nat i ∧ tMessages t !! i = Some m ∧ eDigest ref = messageDigest m ∧
    (eToolCallID ref = [] ∨ messageHasCall m (eToolCallID ref) = true).

Lemma MessageEvidenceRef_spec t i c ref : MessageEvidenceRef t i c = Some ref → refersTo t ref.
Proof.
  unfold MessageEvidenceRef. destruct (tMessages t !! i) as [m|] eqn:Em; [|done]. destruct (negb (c =s []) && _) eqn:Ec; [done|]. intros [= <-].
  split_and!; [done|done|]. exists i, m. split_and!; [done|done|done|]. cbn. apply andb_false_iff in Ec as [Ec|Ec]; bprop; tauto.
Qed.

Abbreviation allRefer t := (Forall (refersTo t)).

Lemma substantialLoop_refs t i ms refs final refs' final' :
  allRefer t refs → substantialLoop t i ms refs final = Some (refs', final') → allRefer t refs'.
Proof.
  revert i refs final. induction ms as [|m ms IH]; intros i refs final Hr; cbn [substantialLoop]; [by intros [= <- _]|].
  destruct (MToolResult m) as [r|]; [|by apply IH]. destruct (negb _); [by apply IH|]. destruct (RIsError r); [done|].
  destruct (MessageEvidenceRef t i (RCallID r)) eqn:Er; [|by apply IH]. apply IH, Forall_app. split; [done|]. apply Forall_singleton. by eapply MessageEvidenceRef_spec.
Qed.

Lemma recoveryLoop_refs t i ms names failed :
  (∀ n ref, failed !! n = Some ref → refersTo t ref) → allRefer t (recoveryLoop t i ms names failed).
Proof.
  revert i names failed. induction ms as [|m ms IH]; intros i names failed Hf; cbn [recoveryLoop]; [done|].
  destruct (MToolResult m) as [r|]; [|by apply IH]. destruct (_ || _); [by apply IH|]. destruct (MessageEvidenceRef t i (RCallID r)) as [ref|] eqn:Er; [|by apply IH].
  apply MessageEvidenceRef_spec in Er. destruct (RIsError r).
  - apply IH. intros n ref' [[<- <-]|[_ H]]%lookup_insert_Some; [done|by eapply Hf].
  - destruct (failed !! _) as [f|] eqn:Ef; [|by apply IH]. apply Forall_cons; split; [by eapply Hf|by apply Forall_singleton].
Qed.

Lemma repeatedLoop_refs t first os :
  (∀ k ref, first !! k = Some ref → refersTo t ref) → Forall (λ o, refersTo t o.2) os → allRefer t (repeatedLoop first os).
Proof.
  revert first. induction os as [|[key ref] os IH]; intros first Hf Ho; cbn [repeatedLoop]; [done|]. apply Forall_cons in Ho as [Hr Ho]. cbn in Hr.
  destruct (first !! key) as [ref0|] eqn:Ef; [apply Forall_cons; split; [by eapply Hf|by apply Forall_singleton]|]. apply IH; [|done]. intros k ref' [[<- <-]|[_ H]]%lookup_insert_Some; [done|by eapply Hf].
Qed.

Lemma pairsLoop_refs t cs i pairs rest :
  Forall (λ o, refersTo t o.2) cs → Forall (λ o, refersTo t o.2) rest → allRefer t (pairsLoop cs i pairs rest).
Proof.
  intros Hcs. revert i pairs. induction rest as [|[a refA] rest IH]; intros i pairs Hr; cbn [pairsLoop]; [done|]. apply Forall_cons in Hr as [Ha Hr].
  destruct rest as [|[b refB] rest]; [done|]. pose proof Hr as Hr'. apply Forall_cons in Hr' as [Hb _]. destruct (pairs !! _) as [j|]; [|by apply IH].
  destruct (_ <? i); [|by apply IH]. destruct (cs !! j) as [[n0 r0]|] eqn:E0; [|done]. destruct (cs !! S j) as [[n1 r1]|] eqn:E1; [|done].
  rewrite Forall_lookup in Hcs. apply Hcs in E0, E1. rewrite !Forall_cons. by split_and!.
Qed.

Lemma occurrences_refs t : Forall (λ o, refersTo t o.2) (occurrences t).
Proof.
  unfold occurrences. apply Forall_forall. intros [k ref] ([i m] & _ & H)%list_elem_of_omap. cbn in *. destruct (_ || _); [done|].
  destruct (MessageEvidenceRef t i []) eqn:Er; [|done]. injection H as <- <-. by eapply MessageEvidenceRef_spec.
Qed.

Lemma calls_refs t : Forall (λ o, refersTo t o.2) (calls t).
Proof.
  unfold calls. apply Forall_forall. intros [k ref] ([i m] & H & _)%list_elem_of_bind. cbn in *. destruct (negb _); [by apply elem_of_nil in H|].
  apply list_elem_of_omap in H as (c & _ & H). destruct (MessageEvidenceRef t i (CallID c)) eqn:Er; [|done]. injection H as <- <-. by eapply MessageEvidenceRef_spec.
Qed.

Lemma explicitLoop_refs t intent ims : allRefer t (explicitLoop t intent ims).
Proof.
  induction ims as [|[i m] ims IH]; cbn [explicitLoop]; [done|]. destruct (_ || _); [done|]. destruct (MessageEvidenceRef t i []) eqn:Er; [|done].
  apply Forall_singleton. by eapply MessageEvidenceRef_spec.
Qed.

Lemma substantialSuccess_refs t : allRefer t (substantialSuccess t).
Proof.
  unfold substantialSuccess. destruct (negb _); [done|]. destruct (substantialLoop _ _ _ _ _) as [[refs [final|]]|] eqn:El; try done.
  destruct (_ <? _); [done|]. destruct (MessageEvidenceRef t final []) eqn:Er; [|done]. apply Forall_take, Forall_app.
  split; [by eapply substantialLoop_refs, El|]. apply Forall_singleton. by eapply MessageEvidenceRef_spec.
Qed.

Lemma repeatedSequence_refs t : allRefer t (repeatedSequence t).
Proof.
  unfold repeatedSequence. pose proof (repeatedLoop_refs t ∅ (occurrences t)) as H. destruct (repeatedLoop ∅ (occurrences t)) as [|r rs].
  - apply pairsLoop_refs; apply calls_refs.
  - apply H; [|apply occurrences_refs]. intros k ref. by rewrite lookup_empty.
Qed.

Lemma repeatedCorrections_refs t : allRefer t (repeatedCorrections t).
Proof.
  unfold repeatedCorrections. destruct (_ <? _); [done|]. apply Forall_take, Forall_forall. intros ref ([i m] & _ & H)%list_elem_of_omap. cbn in H.
  destruct (_ || _); [done|]. by eapply MessageEvidenceRef_spec.
Qed.

Definition cites (t : Trajectory) (g : Signal) : Prop := allRefer t (sgEvidence g).

Lemma signalOf_cites t k refs : allRefer t refs → Forall (cites t) (signalOf k refs).
Proof. intros H. unfold signalOf. destruct (_ <? _); [|done]. by apply Forall_singleton. Qed.

Lemma DetectSignals_cites t : Forall (cites t) (DetectSignals t).
Proof.
  unfold DetectSignals. destruct (negb _); [done|]. rewrite !Forall_app. split_and!; apply signalOf_cites;
    auto using substantialSuccess_refs, repeatedSequence_refs, repeatedCorrections_refs.
  - apply recoveryLoop_refs. intros n ref. by rewrite lookup_empty.
  - apply explicitLoop_refs.
  - apply explicitLoop_refs.
Qed.

Lemma explicitCurrent_cites t : Forall (cites t) (explicitCurrentPromptSignals t).
Proof.
  unfold explicitCurrentPromptSignals. destruct (tMessages t) as [|m ms]; [done|]. destruct (negb _); [done|].
  destruct (MessageEvidenceRef t 0 []) eqn:Er; [|done]. apply MessageEvidenceRef_spec in Er.
  repeat match goal with |- context [if ?b then _ else _] => destruct b end; try done; apply Forall_singleton; unfold cites; cbn; by apply Forall_singleton.
Qed.

(** ** The current run *)

Lemma current_lookup t i m :
  SpanValid (tCurrent t) (Z.of_nat (length (tMessages t))) = true → tMessages (currentTrajectory t) !! i = Some m →
  tMessages t !! (Z.to_nat (Start (tCurrent t)) + i) = Some m ∧ SpanContains (tCurrent t) (Z.of_nat i + Start (tCurrent t)) = true.
Proof.
  unfold SpanValid, SpanContains. intros Hs Hm. cbn in Hm. apply lookup_take_Some in Hm as [Hm Hi]. rewrite lookup_drop in Hm. split; [done|]. bprop. lia.
Qed.

Lemma refersTo_shift t ref :
  SpanValid (tCurrent t) (Z.of_nat (length (tMessages t))) = true → refersTo (currentTrajectory t) ref →
  refersTo t (shiftRef (Start (tCurrent t)) ref) ∧ SpanContains (tCurrent t) (eOrdinal (shiftRef (Start (tCurrent t)) ref)) = true.
Proof.
  intros Hs (H1 & H2 & i & m & Hi & Hm & Hd & Hc). destruct (current_lookup t i m Hs Hm) as [Hm' Hin]. cbn. rewrite Hi. split; [|done].
  split_and!; [done|done|]. exists (Z.to_nat (Start (tCurrent t)) + i), m. split_and!; [|done|done|done]. cbn. rewrite Hi. unfold SpanValid in Hs. bprop. lia.
Qed.

(** A signal is the host's, and then a contradiction or a request, or it was detected and
    cites messages of the current run. *)
Definition signalSound (t : Trajectory) (hosts : list Signal) (g : Signal) : Prop :=
  (g ∈ hosts ∧ hostSignal (tCurrent t) g = true) ∨
  (SignalKindValid (sgKind g) = true ∧ Forall (λ ref, refersTo t ref ∧ SpanContains (tCurrent t) (eOrdinal ref) = true) (sgEvidence g)).

Lemma firstOfKind_spec all k g : firstOfKind all k = Some g → g ∈ all ∧ sgKind g = k.
Proof.
  unfold firstOfKind. intros H. assert (Hin : g ∈ filter (λ g, sgKind g = k) all) by (destruct (filter _ all); [done|injection H as ->; by left]).
  apply list_elem_of_filter in Hin. tauto.
Qed.

Lemma scoped_sound t hosts :
  SpanValid (tCurrent t) (Z.of_nat (length (tMessages t))) = true →
  Forall (signalSound t hosts) (detectSignalsScoped t hosts) ∧ NoDup (sgKind <$> detectSignalsScoped t hosts).
Proof.
  intros Hs. unfold detectSignalsScoped. set (all := _ ++ _). split.
  - apply Forall_forall. intros g (k & Hk & [Hg Hkind]%firstOfKind_spec)%list_elem_of_omap. apply elem_of_app in Hg as [[Hh Hg]%list_elem_of_filter|Hg]; [by left|right].
    apply list_elem_of_fmap in Hg as (g' & -> & Hg'). split.
    + cbn in Hkind |- *. rewrite Hkind. unfold signalOrder in Hk. repeat (apply elem_of_cons in Hk as [-> |Hk]; [done|]). by apply elem_of_nil in Hk.
    + assert (Hc : cites (currentTrajectory t) g').
      { apply elem_of_app in Hg' as [[_ Hg']%list_elem_of_filter|Hg'];
          [pose proof (DetectSignals_cites (currentTrajectory t)) as H|pose proof (explicitCurrent_cites (currentTrajectory t)) as H]; rewrite Forall_forall in H; by apply H. }
      apply Forall_forall. cbn. intros ref (ref' & -> & Hr)%list_elem_of_fmap. apply refersTo_shift; [done|]. unfold cites in Hc. rewrite Forall_forall in Hc. by apply Hc.
  - generalize all. clear. intros all. assert (H : ∀ ks, NoDup ks → NoDup (sgKind <$> omap (firstOfKind all) ks) ∧ ∀ k, k ∈ sgKind <$> omap (firstOfKind all) ks → k ∈ ks).
    { induction ks as [|k ks IH]; intros Hn; [split; [constructor|intros k Hk; by apply elem_of_nil in Hk]|]. apply NoDup_cons in Hn as [Hni Hn]. destruct (IH Hn) as [IH1 IH2]. cbn.
      destruct (firstOfKind all k) as [g|] eqn:Ef; [|split; [done|]; intros; right; auto]. apply firstOfKind_spec in Ef as [_ Hk]. cbn. split.
      - apply NoDup_cons. split; [|done]. rewrite Hk. intros H%IH2. done.
      - intros k' [-> |H]%elem_of_cons; [rewrite Hk; by left|right; auto]. }
    apply H. unfold signalOrder. apply (bool_decide_unpack _). by vm_compute.
Qed.

(** ** Decisions *)

Definition currentPrompt (t : Trajectory) : option Message := tMessages t !! Z.to_nat (Start (tCurrent t)).

Definition explicitText (k : SignalKind) (text : gostr) : bool :=
  if k =s SignalExplicitRemember then explicitRememberText text else explicitLearnProcedureText text.

Lemma current_head t m ms :
  SpanValid (tCurrent t) (Z.of_nat (length (tMessages t))) = true → tMessages (currentTrajectory t) = m :: ms → currentPrompt t = Some m.
Proof.
  intros Hs Hm. destruct (current_lookup t 0 m Hs) as [H _]; [by rewrite Hm|]. unfold currentPrompt. by rewrite Nat.add_0_r in H.
Qed.

Lemma explicit_from_prompt t hosts g :
  SpanValid (tCurrent t) (Z.of_nat (length (tMessages t))) = true → g ∈ detectSignalsScoped t hosts → explicitKind (sgKind g) = true →
  ∃ m, currentPrompt t = Some m ∧ IsGenuineUserPrompt m = true ∧ explicitText (sgKind g) (MText m) = true.
Proof.
  intros Hs (k & _ & [Hg _]%firstOfKind_spec)%list_elem_of_omap Hk. apply elem_of_app in Hg as [[Hh _]%list_elem_of_filter|Hg].
  { unfold hostSignal, explicitKind in *. destruct (sgKind g); cbn in *; done. }
  apply list_elem_of_fmap in Hg as (g' & -> & Hg'). cbn in *. apply elem_of_app in Hg' as [[Hn _]%list_elem_of_filter|Hg']; [by rewrite Hk in Hn|].
  unfold explicitCurrentPromptSignals in Hg'. destruct (tMessages (currentTrajectory t)) as [|m ms] eqn:Em; [by apply elem_of_nil in Hg'|].
  exists m. split; [by eapply current_head|]. destruct (IsGenuineUserPrompt m); [|by apply elem_of_nil in Hg']. split; [done|]. cbn [negb] in Hg'.
  destruct (MessageEvidenceRef _ 0 []); [|by apply elem_of_nil in Hg']. destruct (explicitRememberText (MText m)) eqn:Er; [by apply list_elem_of_singleton in Hg' as ->|].
  destruct (explicitLearnProcedureText (MText m)) eqn:El; [by apply list_elem_of_singleton in Hg' as ->|by apply elem_of_nil in Hg'].
Qed.

Definition weightSum (signals : list Signal) : Z := foldr (λ g a, match weightOf (sgKind g) with Some (w, _) => w + a | None => a end)%Z 0%Z signals.

Lemma scoreSignals_sum signals : (scoreSignals signals).1 = weightSum signals.
Proof.
  unfold scoreSignals. assert (H : ∀ acc : Z * list AdmissionReason,
    (foldl (λ acc g, match weightOf (sgKind g) with Some (w, reason) => (acc.1 + w, acc.2 ++ [reason])%Z | None => acc end) acc signals).1 = (acc.1 + weightSum signals)%Z).
  { induction signals as [|g l IH]; intros acc; cbn [foldl weightSum foldr]; [lia|]. rewrite IH. fold (weightSum l). destruct (weightOf (sgKind g)) as [[w r]|]; cbn; lia. }
  rewrite H. cbn. lia.
Qed.

Lemma weightSum_nonzero signals : weightSum signals ≠ 0%Z → ∃ g, g ∈ signals ∧ weightOf (sgKind g) ≠ None.
Proof.
  induction signals as [|g l IH]; [done|]. cbn [weightSum foldr]. fold (weightSum l). destruct (weightOf (sgKind g)) as [[w r]|] eqn:Ew.
  - intros _. exists g. split; [by left|by rewrite Ew].
  - intros H. destruct (IH H) as (g' & Hg & Hw). exists g'. split; [by right|done].
Qed.

Lemma head_filter_spec {A} (f : A → bool) l x : head (filter (λ y, f y = true) l) = Some x → x ∈ l ∧ f x = true.
Proof.
  intros H. assert (Hin : x ∈ filter (λ y, f y = true) l) by (destruct (filter _ l); [done|injection H as ->; by left]). apply list_elem_of_filter in Hin. tauto.
Qed.

(** C35. Automatic learning starts only for a reason.  An admitted trajectory belongs to a main
    session, and its current run begins with a genuine user prompt.  Either that prompt asks
    for it in the words the reason names, and the run ended its turn or was stopped by the
    limit on turns, on tool calls or by the budget (for no other reason); or the
    run ended its turn, was not trivial, and the weights of its signals with the modifiers
    reach the threshold.  Every signal of the decision is one of the host's contradictions or
    requests, or cites messages of the current run by their digests, and no kind occurs
    twice. *)
Theorem admission_sound s t hosts :
  let d := Decide s t hosts in
  DAdmitted d = true →
  tKind t = SessionKindMain ∧ SpanValid (tCurrent t) (Z.of_nat (length (tMessages t))) = true ∧
  Forall (signalSound t hosts) (Signals d) ∧ NoDup (sgKind <$> Signals d) ∧
  ∃ prompt, currentPrompt t = Some prompt ∧ IsGenuineUserPrompt prompt = true ∧
    ((DClass d = AdmissionHard ∧ hardStop (tStop t) = true ∧
      ((Reasons d = [ReasonExplicitRemember] ∧ explicitRememberText (MText prompt) = true) ∨
       (Reasons d = [ReasonExplicitLearnProcedure] ∧ explicitLearnProcedureText (MText prompt) = true))) ∨
     (DClass d = AdmissionWeighted ∧ tStop t = StopEndTurn ∧ (1 < Turns (tCounters t) ∨ ToolCalls (tCounters t) ≠ 0)%Z ∧
      (Threshold s <= Score d)%Z ∧ Score d = (weightSum (Signals d) + Z.of_nat (length (modifiers t)))%Z ∧
      ∃ g, g ∈ Signals d ∧ weightOf (sgKind g) ≠ None)).
Proof.
  intros d. unfold d, Decide. destruct (tKind t =s SessionKindMain) eqn:Ek; [|done]. cbn [negb].
  destruct (SpanValid _ _) eqn:Es; [|done]. cbn [negb orb]. fold (currentPrompt t). destruct (currentPrompt t) as [prompt|] eqn:Ep; [|done].
  destruct (IsGenuineUserPrompt prompt) eqn:Eg; [|done]. cbn [negb]. bprop. destruct (scoped_sound t hosts Es) as [Hsound Hnd].
  destruct (head _) as [g|] eqn:Eh.
  - intros _. cbn [Signals DClass Reasons]. split_and!; try done. exists prompt. split_and!; [done|done|left]. apply (head_filter_spec (hardSignal t)) in Eh as [Hg Hh].
    unfold hardSignal in Hh. bprop. split_and!; [done|done|]. destruct (explicit_from_prompt t hosts g Es Hg) as (m & Hm & _ & Ht); [done|]. simplify_eq.
    unfold explicitKind, explicitText in *. destruct (sgKind g); cbn in *; try done; [by left|by right].
  - destruct (tStop t =s StopEndTurn) eqn:Et; [|done]. cbn [negb]. destruct (_ && _) eqn:Etr; [done|]. pose proof (scoreSignals_sum (detectSignalsScoped t hosts)) as Hsum.
    destruct (scoreSignals _) as [base reasons]. cbn [fst] in Hsum. destruct (base =? 0)%Z eqn:Eb; [done|]. destruct (Threshold s <=? _)%Z eqn:Eth; [|done]. intros _. cbn [Signals DClass Score].
    bprop. split_and!; try done. exists prompt. split_and!; [done|done|right]. apply Z.eqb_neq in Eb. apply Z.leb_le in Eth. split_and!; [done|done| |done|by rewrite Hsum|].
    + apply andb_false_iff in Etr as [Etr|Etr]; [left; by apply Z.leb_gt in Etr|right; by apply Z.eqb_neq in Etr].
    + apply weightSum_nonzero. by rewrite <-Hsum.
Qed.

(** A weaker sensitivity only tightens: what it admits, a stronger one admits with the same
    class, score and signals. *)
Theorem sensitivity_tightens s s' t hosts :
  (Threshold s' <= Threshold s)%Z → DAdmitted (Decide s t hosts) = true →
  DAdmitted (Decide s' t hosts) = true ∧ DClass (Decide s' t hosts) = DClass (Decide s t hosts) ∧ Score (Decide s' t hosts) = Score (Decide s t hosts) ∧
  Reasons (Decide s' t hosts) = Reasons (Decide s t hosts) ∧ Signals (Decide s' t hosts) = Signals (Decide s t hosts).
Proof.
  intros Ht. unfold Decide. destruct (negb _); [done|]. destruct (_ || _); [done|]. destruct (head _); [done|]. destruct (negb _); [done|]. destruct (_ && _); [done|].
  destruct (scoreSignals _) as [base reasons]. destruct (base =? 0)%Z; [done|]. destruct (Threshold s <=? _)%Z eqn:E; [|done]. apply Z.leb_le in E.
  rewrite (proj2 (Z.leb_le _ _)) by lia. done.
Qed.

Lemma thresholds_ordered : (Threshold Eager <= Threshold Balanced <= Threshold Conservative)%Z ∧ Threshold SensitivityUnset = Threshold Balanced.
Proof. done. Qed.

(** The host cannot forge what is detected: signals of other kinds are not even looked at. *)
Theorem host_signals_limited s t hosts : Decide s t hosts = Decide s t (filter (λ g, hostSignal (tCurrent t) g = true) hosts).
Proof.
  assert (H : detectSignalsScoped t (filter (λ g, hostSignal (tCurrent t) g = true) hosts) = detectSignalsScoped t hosts); [|unfold Decide; by rewrite H].
  unfold detectSignalsScoped. f_equal. f_equal. f_equal. induction hosts as [|g l IH]; [done|]. rewrite !filter_cons. destruct (decide _) as [Hg|]; [|done].
  rewrite filter_cons, decide_True by done. by f_equal.
Qed.

Lemma head_filter_some {A} (f : A → bool) l x : x ∈ l → f x = true → ∃ y, head (filter (λ y, f y = true) l) = Some y.
Proof.
  intros Hx Hf. assert (Hin : x ∈ filter (λ y, f y = true) l) by (by apply list_elem_of_filter). destruct (filter _ l); [by apply elem_of_nil in Hin|by eexists].
Qed.

Lemma explicit_signal t m ref ms :
  tMessages (currentTrajectory t) = m :: ms → IsGenuineUserPrompt m = true → MessageEvidenceRef (currentTrajectory t) 0 [] = Some ref →
  explicitRememberText (MText m) || explicitLearnProcedureText (MText m) = true →
  ∃ k, explicitKind k = true ∧ explicitCurrentPromptSignals (currentTrajectory t) = [mkSignal k [ref]].
Proof.
  intros Hm Hg Hr Ht. unfold explicitCurrentPromptSignals. rewrite Hm, Hg, Hr. cbn [negb].
  destruct (explicitRememberText (MText m)); [by exists SignalExplicitRemember|]. cbn in Ht. rewrite Ht. by exists SignalExplicitLearnProcedure.
Qed.

(** Who asks to be remembered is heard: a run of a main session whose genuine prompt asks
    for it explicitly and that was not cut off is admitted, whatever its length, its other
    signals and the sensitivity. *)
Theorem explicit_request_admitted s t hosts prompt :
  tKind t = SessionKindMain → SpanValid (tCurrent t) (Z.of_nat (length (tMessages t))) = true → currentPrompt t = Some prompt →
  IsGenuineUserPrompt prompt = true → hardStop (tStop t) = true →
  explicitRememberText (MText prompt) || explicitLearnProcedureText (MText prompt) = true →
  DAdmitted (Decide s t hosts) = true ∧ DClass (Decide s t hosts) = AdmissionHard.
Proof.
  intros Hk Hs Hp Hg Hh Ht. unfold Decide. rewrite Hk, Hs. fold (currentPrompt t). rewrite Hp, Hg. cbn [negb orb]. rewrite bool_decide_true by done. cbn [negb].
  assert (Hx : ∃ g, g ∈ detectSignalsScoped t hosts ∧ hardSignal t g = true).
  { pose proof Hs as Hs'. unfold SpanValid in Hs'. bprop. destruct (tMessages (currentTrajectory t)) as [|m ms] eqn:Em.
    { exfalso. apply (f_equal length) in Em. cbn in Em. rewrite length_take, length_drop in Em. lia. }
    pose proof (current_head t m ms Hs Em) as Hm. rewrite Hp in Hm. injection Hm as <-.
    assert (Hr : ∃ ref, MessageEvidenceRef (currentTrajectory t) 0 [] = Some ref ∧ eOrdinal ref = 0%Z ∧ eLocator ref = EvidenceMessage).
    { unfold MessageEvidenceRef. rewrite Em. cbn. by eexists. }
    destruct Hr as (ref & Hr & Ho & Hl). destruct (explicit_signal t prompt ref ms Em Hg Hr Ht) as (k & Hke & Hsig).
    set (g := mkSignal k [shiftRef (Start (tCurrent t)) ref]). assert (Hgk : hardSignal t g = true).
    { unfold hardSignal, signalHasGenuineCurrentPrompt. cbn [sgKind sgEvidence g existsb shiftRef eLocator eOrdinal]. rewrite Hke, Hh, Hl, Ho, Z.add_0_l.
      fold (currentPrompt t). rewrite Hp, Hg, bool_decide_true by done. unfold SpanContains. cbn. rewrite (proj2 (Z.leb_le _ _)), (proj2 (Z.ltb_lt _ _)) by lia. done. }
    unfold detectSignalsScoped. rewrite Hsig. set (all := _ ++ _).
    assert (Hin : g ∈ filter (λ g, sgKind g = k) all).
    { apply list_elem_of_filter. split; [done|]. unfold all. rewrite fmap_app. apply elem_of_app. right. apply elem_of_app. right. by apply list_elem_of_singleton. }
    destruct (firstOfKind all k) as [g'|] eqn:Ef; [|unfold firstOfKind in Ef; destruct (filter _ all); [by apply elem_of_nil in Hin|done]].
    exists g'. split; [apply list_elem_of_omap; exists k; split; [|done]; unfold explicitKind in Hke; apply orb_true_iff in Hke as [Hke|Hke]; bprop; subst k; unfold signalOrder; set_solver|].
    apply firstOfKind_spec in Ef as [Hin' Hk']. apply elem_of_app in Hin' as [[Hho _]%list_elem_of_filter|Hin'].
    { exfalso. unfold hostSignal in Hho. rewrite Hk' in Hho. unfold explicitKind in Hke. destruct k; cbn in *; done. }
    apply list_elem_of_fmap in Hin' as (g0 & -> & Hg0). cbn in Hk'. apply elem_of_app in Hg0 as [[Hne _]%list_elem_of_filter|Hg0]; [by rewrite Hk', Hke in Hne|].
    apply list_elem_of_singleton in Hg0 as ->. exact Hgk. }
  destruct Hx as (g & Hin & Hgh). destruct (head_filter_some (hardSignal t) _ g Hin Hgh) as [y ->]. done.
Qed.
End admission.

(** ** Samples *)

#[local] Instance sampleInput : LearningInput := {| ToLower := Fence.ToLower; messageDigest := λ m, TrimSpace (MText m) |}.

Definition userSays (text : gostr) : Message := mkMessage RoleUser text [] None [] [] [] [] UserPromptProvenancePrincipal.
Definition assistantCalls (id : gostr) (text : gostr) : Message :=
  mkMessage RoleAssistant text [NewToolCall id #"Shell" []] None [] [] [] [] UserPromptProvenanceUnknown.
Definition toolAnswers (id : gostr) (failed : bool) : Message :=
  mkMessage RoleTool [] [] (Some (mkToolResult id #"output" failed [])) [] [] [] [] UserPromptProvenanceUnknown.

Definition sampleRun (prompt : gostr) (rest : list Message) : Trajectory :=
  let ms := userSays #"earlier" :: userSays prompt :: rest in
  mkTrajectory #"r1" #"s1" #"/w" StopEndTurn zeroUsage ms SessionKindMain (mkCounters 3 2 0) (mkSpan 1 (Z.of_nat (length ms))) None.

Definition recovering : Trajectory :=
  sampleRun #"fix the build" [assistantCalls #"c1" []; toolAnswers #"c1" true; assistantCalls #"c2" []; toolAnswers #"c2" false].

(** A failure that was recovered from is worth four points: enough for the balanced
    sensitivity, not for the conservative one. *)
Example sample_recovery :
  Score (Decide Balanced recovering []) = 4%Z ∧ DAdmitted (Decide Balanced recovering []) = true ∧ DAdmitted (Decide Conservative recovering []) = false ∧
  (λ g, eOrdinal <$> sgEvidence g) <$> Signals (Decide Balanced recovering []) = [[3%Z; 5%Z]].
Proof. split_and!; by vm_compute. Qed.

Definition remembering : Trajectory := sampleRun #"Please remember that I use vim" [].

Lemma remembering_admitted : DAdmitted (Decide Conservative remembering []) = true.
Proof. by vm_compute. Qed.

Example sample_texts :
  explicitLearnProcedureText #"Create a skill: release notes" = true ∧ explicitLearnProcedureText #"Create a skills page" = false ∧
  explicitLearnProcedureText #"create a skill, but not now" = false ∧ explicitRememberText #"remember that x" = false ∧ correctionTurn #"No, the other one" = true.
Proof. split_and!; by vm_compute. Qed.

Lemma admission_sound_witness : tKind remembering = SessionKindMain ∧ Forall (signalSound remembering []) (Signals (Decide Conservative remembering [])).
Proof.
  pose proof (admission_sound Conservative remembering [] remembering_admitted) as (H1 & _ & H3 & _). split; [exact H1|exact H3].
Defined.

Lemma remembering_facts : SpanValid (tCurrent remembering) (Z.of_nat (length (tMessages remembering))) = true ∧
  currentPrompt remembering = Some (userSays #"Please remember that I use vim") ∧ IsGenuineUserPrompt (userSays #"Please remember that I use vim") = true ∧
  explicitRememberText #"Please remember that I use vim" || explicitLearnProcedureText #"Please remember that I use vim" = true.
Proof. split_and!; by vm_compute. Qed.

Lemma explicit_request_admitted_witness : DAdmitted (Decide Eager remembering []) = true ∧ DClass (Decide Eager remembering []) = AdmissionHard.
Proof.
  destruct remembering_facts as (H1 & H2 & H3 & H4). exact (explicit_request_admitted Eager remembering [] _ eq_refl H1 H2 H3 eq_refl H4).
Defined.
