(* ===== verification/Memory.v ===== *)
(** * The memory store

    The reference store [engine/adapter/memmemory/memmemory.go] with the revisions of
    [engine/tool/memorylifecycle.go]: compare-and-set writes, tombstones, undo and a bounded
    history per key.

    Every method holds the store's lock, so a method is a step.  Attribution travels in the
    context and is an argument here; a cancelled context is left out. *)

From stdpp Require Import pretty sorting.
From S2P Require Import Prelude Conversation Fence Screens.

(** ** Revisions *)

Inductive MemoryStatus := MemoryStatusActive | MemoryStatusSuperseded | MemoryStatusDeleted.
#[global] Instance MemoryStatus_eq_dec : EqDecision MemoryStatus.
Proof. solve_decision. Defined.

Record MemoryRevision := mkRevision {
  mvKey : gostr; mvValue : gostr; mvDescription : gostr; mvVersion : gostr; mvStatus : MemoryStatus; mvWriter : gostr; mvOrigin : gostr;
  mvSource : MemorySource; mvUpdatedAt : Z
}.

Record MemoryRecord := mkMemoryRecord { mrCurrent : MemoryRevision; mrRevisions : list MemoryRevision }.
Record MemoryCurrent := mkCurrent { mcExists : bool; mcVersion : gostr }.

Section memory.
Context {tables : UnicodeTables}.

(** ** The store *)

Definition defaultSearchLimit : Z := 10.
Definition maxRevisionsPerKey : nat := 64.

Record record := mkRecord { rvRevisions : list MemoryRevision; rvUndone : gset gostr; rvTruncated : bool }.
Record Store := mkStore { stRecords : gmap gostr record; stNext : N }.

Definition New : Store := mkStore ∅ 0.

Definition entryOf (r : MemoryRevision) : MemoryEntry := mkMemoryEntry (mvKey r) (mvValue r) (mvDescription r) (mvUpdatedAt r).

Definition active (s : Store) (k : gostr) : option MemoryRevision :=
  match stRecords s !! k with
  | None => None
  | Some r => match last (rvRevisions r) with Some c => if mvStatus c =s MemoryStatusActive then Some c else None | None => None end
  end.

Definition current (s : Store) (k : gostr) : option gostr :=
  match stRecords s !! k with None => None | Some r => mvVersion <$> last (rvRevisions r) end.

Definition Recall (s : Store) (k : gostr) : option MemoryEntry := entryOf <$> active s k.

Definition keyLe (a b : MemoryEntry) : Prop := strLe (enKey a) (enKey b).
#[global] Instance keyLe_dec a b : Decision (keyLe a b).
Proof. unfold keyLe. apply _. Defined.

Definition List_ (s : Store) (prefix : gostr) : list MemoryEntry :=
  merge_sort keyLe (omap (λ k, if HasPrefix k prefix then entryOf <$> active s k else None) (map_to_list (stRecords s)).*1).

Definition description (e : MemoryEntry) : gostr :=
  if TrimSpace (enDescription e) =s []
  then default [] (head (filter (λ v, v ≠ []) (TrimSpace <$> Split (enValue e) newline)))
  else TrimSpace (enDescription e).

Definition routed (e : MemoryEntry) : MemoryEntry := mkMemoryEntry (enKey e) [] (description e) (enUpdatedAt e).

Definition Index (s : Store) : list MemoryEntry := routed <$> List_ s [].

Definition Search_ (s : Store) (query : gostr) (k : Z) : list MemoryEntry :=
  let terms := Fields (Lower query) in
  if length terms =? 0 then []
  else
    let k := if (k <=? 0)%Z then defaultSearchLimit else k in
    let matches e := let haystack := Lower (enKey e ++ [space] ++ enDescription e ++ [space] ++ enValue e) in existsb (Contains haystack) terms in
    take (Z.to_nat k) (routed <$> filter (λ e, matches e = true) (List_ s [])).

(** ** Writing *)

Definition supersede (r : MemoryRevision) : MemoryRevision :=
  if mvStatus r =s MemoryStatusActive
  then mkRevision (mvKey r) (mvValue r) (mvDescription r) (mvVersion r) MemoryStatusSuperseded (mvWriter r) (mvOrigin r) (mvSource r) (mvUpdatedAt r)
  else r.

Fixpoint supersedeLast (rs : list MemoryRevision) : list MemoryRevision :=
  match rs with
  | [] => []
  | [r] => [supersede r]
  | r :: rs' => r :: supersedeLast rs'
  end.

Definition versionText (n : N) : gostr := #"mem-" ++ lit (pretty n).

Definition ensure (s : Store) (k : gostr) : record := default (mkRecord [] ∅ false) (stRecords s !! k).

Definition retainLatest (r : record) : record :=
  if length (rvRevisions r) <=? maxRevisionsPerKey then r
  else mkRecord (drop (length (rvRevisions r) - maxRevisionsPerKey) (rvRevisions r)) (rvUndone r) true.

(** A revision is appended under the next version. *)
Definition append (s : Store) (k : gostr) (rev : gostr → MemoryRevision) : Store :=
  let r := ensure s k in
  let n := ((stNext s + 1) mod 2 ^ 64)%N in
  mkStore (<[k := retainLatest (mkRecord (supersedeLast (rvRevisions r) ++ [rev (versionText n)]) (rvUndone r) (rvTruncated r))]> (stRecords s)) n.

Definition appendActive (s : Store) (e : MemoryEntry) (a : MemoryAttribution) (fallbackOrigin : gostr) (now : Z) : Store :=
  let origin := if maOrigin a =s [] then fallbackOrigin else maOrigin a in
  append s (enKey e) (λ v, mkRevision (enKey e) (enValue e) (TrimSpace (enDescription e)) v MemoryStatusActive (maWriter a) origin (maSource a) now).

Definition appendDeleted (s : Store) (k : gostr) (a : MemoryAttribution) (origin : gostr) (now : Z) : Store :=
  let o := if origin =s MemoryOriginUndo then origin else if maOrigin a =s [] then origin else maOrigin a in
  append s k (λ v, mkRevision k [] [] v MemoryStatusDeleted (maWriter a) o (maSource a) now).

(** [None] only for a key without revisions. *)
Definition snapshot (s : Store) (k : gostr) : option MemoryRecord :=
  match stRecords s !! k with
  | None => None
  | Some r => (λ c, mkMemoryRecord c (rvRevisions r)) <$> last (rvRevisions r)
  end.

Definition written (s : Store) (k : gostr) : Store * (MemoryRecord + MemoryError) :=
  (s, match snapshot s k with Some r => inl r | None => inr ErrMemoryNotFound end).

Definition Remember (s : Store) (e : MemoryEntry) (expected : MemoryCurrent) (a : MemoryAttribution) (now : Z) : Store * (MemoryRecord + MemoryError) :=
  match ValidateMemoryEntryWrite e a with
  | Some err => (s, inr err)
  | None =>
      let actual := current s (enKey e) in
      if negb (Bool.eqb (bool_decide (is_Some actual)) (mcExists expected)) || bool_decide (is_Some actual) && negb (default [] actual =s mcVersion expected)
      then (s, inr (MemoryVersionConflict (enKey e) (mcVersion expected) (default [] actual)))
      else written (appendActive s e a MemoryOriginExplicit now) (enKey e)
  end.

Definition Inspect_ (s : Store) (k : gostr) : option MemoryRecord := snapshot s k.

Definition compare (s : Store) (k expected : gostr) : option MemoryError :=
  let actual := default [] (current s k) in if negb (actual =s expected) then Some (MemoryVersionConflict k expected actual) else None.

Definition Forget (s : Store) (k expected : gostr) (a : MemoryAttribution) (now : Z) : Store * (MemoryRecord + MemoryError) :=
  match compare s k expected with
  | Some err => (s, inr err)
  | None =>
      match last (rvRevisions (ensure s k)) with
      | None => (s, inr ErrMemoryNotFound)
      | Some c => if mvStatus c =s MemoryStatusDeleted then (s, inr ErrMemoryNotFound) else written (appendDeleted s k a MemoryOriginExplicit now) k
      end
  end.

Definition undoable (r : record) (c : MemoryRevision) : bool := negb (mvOrigin c =s MemoryOriginUndo) && negb (mvVersion c ∈? rvUndone r).

(** The last position that satisfies a test. *)
Fixpoint lastIndex {A} (p : A → bool) (l : list A) : option nat :=
  match l with
  | [] => None
  | x :: l' => match lastIndex p l' with Some i => Some (S i) | None => if p x then Some 0 else None end
  end.

Definition withUndoOrigin (a : MemoryAttribution) : MemoryAttribution := mkAttribution (maWriter a) MemoryOriginUndo (maSource a).

Definition markUndone (s : Store) (k v : gostr) : Store :=
  let r := ensure s k in mkStore (<[k := mkRecord (rvRevisions r) ({[v]} ∪ rvUndone r) (rvTruncated r)]> (stRecords s)) (stNext s).

Definition Undo_ (s : Store) (k expected : gostr) (a : MemoryAttribution) (now : Z) : Store * (MemoryRecord + MemoryError) :=
  match compare s k expected with
  | Some err => (s, inr err)
  | None =>
      let r := ensure s k in
      if length (rvRevisions r) =? 0 then (s, inr ErrMemoryNotFound)
      else match lastIndex (undoable r) (rvRevisions r) with
           | None => (s, inr (if rvTruncated r then ErrBeyondHistory else ErrNothingToUndo))
           | Some target =>
               if (target =? 0) && rvTruncated r then (s, inr ErrBeyondHistory)
               else
                 let s1 := markUndone s k (default [] (mvVersion <$> rvRevisions r !! target)) in
                 let a := withUndoOrigin a in
                 match target, rvRevisions r !! pred target with
                 | S _, Some before =>
                     if mvStatus before =s MemoryStatusDeleted then written (appendDeleted s1 k a MemoryOriginUndo now) k
                     else written (appendActive s1 (entryOf before) a MemoryOriginUndo now) k
                 | _, _ => written (appendDeleted s1 k a MemoryOriginUndo now) k
                 end
           end
  end.

(** ** Histories *)

Inductive MemoryOp :=
  | MRemember (e : MemoryEntry) (expected : MemoryCurrent) (a : MemoryAttribution) (now : Z)
  | MForget (k expected : gostr) (a : MemoryAttribution) (now : Z)
  | MUndo (k expected : gostr) (a : MemoryAttribution) (now : Z).

Definition memoryExec (s : Store) (op : MemoryOp) : Store * (MemoryRecord + MemoryError) :=
  match op with
  | MRemember e expected a now => Remember s e expected a now
  | MForget k expected a now => Forget s k expected a now
  | MUndo k expected a now => Undo_ s k expected a now
  end.

Definition memoryRun (ops : list MemoryOp) : Store := foldl (λ s op, (memoryExec s op).1) New ops.

(** Only an undo is attributed to the undo workflow. *)
Definition honest (op : MemoryOp) : Prop :=
  match op with MRemember _ _ a _ | MForget _ _ a _ => maOrigin a ≠ MemoryOriginUndo | MUndo _ _ _ _ => True end.

(** ** The specification

    A key has a stack of contents, [None] for a deletion, each with the number of the write
    that made it; undo pops it.  What was written more than the retained number of writes
    ago cannot be undone. *)
Record spKey := mkSp { spCount : nat; spVersion : gostr; spStack : list (nat * option (gostr * gostr)) }.
Record spec := mkSpec { spKeys : gmap gostr spKey; spNext : N }.

Definition spNew : spec := mkSpec ∅ 0.
Definition spOf (a : spec) (k : gostr) : spKey := default (mkSp 0 [] []) (spKeys a !! k).
Definition top (st : list (nat * option (gostr * gostr))) : option (gostr * gostr) := match st with [] => None | (_, c) :: _ => c end.

(** What a key means: its value and description. *)
Definition meaning (a : spec) (k : gostr) : option (gostr * gostr) := top (spStack (spOf a k)).

Definition spWrite (a : spec) (k : gostr) (st : list (nat * option (gostr * gostr))) : spec * ((gostr * option (gostr * gostr)) + MemoryError) :=
  let n := ((spNext a + 1) mod 2 ^ 64)%N in
  (mkSpec (<[k := mkSp (S (spCount (spOf a k))) (versionText n) st]> (spKeys a)) n, inl (versionText n, top st)).

Definition specExec (a : spec) (op : MemoryOp) : spec * ((gostr * option (gostr * gostr)) + MemoryError) :=
  match op with
  | MRemember e expected at_ _ =>
      let p := spOf a (enKey e) in
      match ValidateMemoryEntryWrite e at_ with
      | Some err => (a, inr err)
      | None =>
          if negb (Bool.eqb (0 <? spCount p) (mcExists expected)) || (0 <? spCount p) && negb (spVersion p =s mcVersion expected)
          then (a, inr (MemoryVersionConflict (enKey e) (mcVersion expected) (spVersion p)))
          else spWrite a (enKey e) ((spCount p, Some (enValue e, TrimSpace (enDescription e))) :: spStack p)
      end
  | MForget k expected _ _ =>
      let p := spOf a k in
      if negb (spVersion p =s expected) then (a, inr (MemoryVersionConflict k expected (spVersion p)))
      else match meaning a k with
           | None => (a, inr ErrMemoryNotFound)
           | Some _ => spWrite a k ((spCount p, None) :: spStack p)
           end
  | MUndo k expected _ _ =>
      let p := spOf a k in
      if negb (spVersion p =s expected) then (a, inr (MemoryVersionConflict k expected (spVersion p)))
      else if spCount p =? 0 then (a, inr ErrMemoryNotFound)
      else match spStack p with
           | [] => (a, inr (if maxRevisionsPerKey <? spCount p then ErrBeyondHistory else ErrNothingToUndo))
           | (t, _) :: st =>
               if (maxRevisionsPerKey <? spCount p) && (t <=? spCount p - maxRevisionsPerKey) then (a, inr ErrBeyondHistory)
               else spWrite a k st
           end
  end.

Definition specRun (ops : list MemoryOp) : spec := foldl (λ a op, (specExec a op).1) spNew ops.

(** ** The complete history of a key *)

Definition contentOf (c : MemoryRevision) : option (gostr * gostr) :=
  if mvStatus c =s MemoryStatusDeleted then None else Some (mvValue c, mvDescription c).

Record core := mkCore { coVersion : gostr; coOrigin : gostr; coContent : option (gostr * gostr) }.
Definition coreOf (c : MemoryRevision) : core := mkCore (mvVersion c) (mvOrigin c) (contentOf c).

Definition push (st : list (nat * option (gostr * gostr))) (i : nat) (x : core) : list (nat * option (gostr * gostr)) :=
  if coOrigin x =s MemoryOriginUndo then tail st else (i, coContent x) :: st.

Definition replay (l : list core) : list (nat * option (gostr * gostr)) := (foldl (λ p x, (S p.1, push p.2 p.1 x)) (0, []) l).2.

Lemma replay_snoc l x : replay (l ++ [x]) = push (replay l) (length l) x.
Proof.
  assert (H : (foldl (λ p x, (S p.1, push p.2 p.1 x)) (0, []) l).1 = length l).
  { induction l as [|y l IH] using rev_ind; [done|]. rewrite foldl_app, length_app. cbn. rewrite IH. lia. }
  unfold replay. rewrite foldl_app. cbn. by rewrite H.
Qed.

(** Below an entry of the stack is the stack of the time it was pushed. *)
Lemma replay_below l pre t c st :
  replay l = pre ++ (t, c) :: st → st = replay (take t l) ∧ ∃ x, l !! t = Some x ∧ coOrigin x ≠ MemoryOriginUndo ∧ coContent x = c.
Proof.
  revert pre. induction l as [|x l IH] using rev_ind; intros pre; [by destruct pre|]. rewrite replay_snoc. unfold push.
  assert (Hext : ∀ pre', replay l = pre' ++ (t, c) :: st → st = replay (take t (l ++ [x])) ∧ ∃ y, (l ++ [x]) !! t = Some y ∧ coOrigin y ≠ MemoryOriginUndo ∧ coContent y = c).
  { intros pre' H. destruct (IH _ H) as (Hst & y & Hy & Ho & Hc). apply lookup_lt_Some in Hy as Hlt. rewrite take_app_le by lia. split; [done|].
    exists y. split_and!; [by apply lookup_app_l_Some|done|done]. }
  destruct (coOrigin x =s MemoryOriginUndo) eqn:Eo; bprop.
  - intros H. destruct (replay l) as [|e st0] eqn:Er; [by destruct pre|]. cbn in H. apply (Hext (e :: pre)). by rewrite H.
  - destruct pre as [|e pre].
    + intros [= <- <- <-]. rewrite take_app_length. split; [done|]. exists x. split_and!; [|done|done]. by rewrite lookup_app_r, Nat.sub_diag by lia.
    + intros [= _ H]. by apply (Hext pre).
Qed.

Lemma replay_bound l i : i ∈ (replay l).*1 → i < length l.
Proof.
  intros ([t c] & -> & (pre & st & H)%list_elem_of_split)%list_elem_of_fmap. apply replay_below in H as (_ & x & Hx & _). by apply lookup_lt_Some in Hx.
Qed.

Lemma replay_descending l pre t c st i : replay l = pre ++ (t, c) :: st → i ∈ st.*1 → i < t.
Proof.
  intros H Hi. apply replay_below in H as (-> & x & Hx & _). apply replay_bound in Hi. rewrite length_take in Hi. lia.
Qed.

(** ** The simulation *)

Definition alive (l : list core) (i : nat) : Prop := i ∈ (replay l).*1.
#[global] Instance alive_dec l i : Decision (alive l i).
Proof. unfold alive. apply _. Defined.

Record keyOk (n : N) (l : list core) (undone : gset gostr) : Prop := {
  ko_versions : ∀ i j x y, l !! i = Some x → l !! j = Some y → coVersion x = coVersion y → i = j;
  ko_fresh : ∀ x, x ∈ l → ∃ m, (m <= n)%N ∧ coVersion x = versionText m;
  ko_undone_fresh : ∀ v, v ∈ undone → ∃ m, (m <= n)%N ∧ v = versionText m;
  ko_meaning : ∀ i x, l !! i = Some x → coContent x = top (replay (take (S i) l));
  ko_trimmed : ∀ x v d, x ∈ l → coContent x = Some (v, d) → TrimSpace d = d;
  ko_undone : ∀ i x, l !! i = Some x → coOrigin x ≠ MemoryOriginUndo → coVersion x ∈ undone ↔ ¬ alive l i
}.

(** The complete history [l] of a key that the store keeps the end of. *)
Record holds (n : N) (k : gostr) (r : record) (l : list core) : Prop := {
  ho_cores : coreOf <$> rvRevisions r = drop (length l - maxRevisionsPerKey) l;
  ho_truncated : rvTruncated r = (maxRevisionsPerKey <? length l);
  ho_ok : keyOk n l (rvUndone r);
  ho_keys : ∀ c, c ∈ rvRevisions r → mvKey c = k;
  ho_last : ∀ c, last (rvRevisions r) = Some c → mvStatus c ≠ MemoryStatusSuperseded
}.

Definition spKeyOf (l : list core) : spKey := mkSp (length l) (default [] (coVersion <$> last l)) (replay l).

Definition simKey (n : N) (k : gostr) (r : option record) (p : option spKey) : Prop :=
  ∃ l, holds n k (default (mkRecord [] ∅ false) r) l ∧ default (mkSp 0 [] []) p = spKeyOf l ∧ (is_Some r ↔ l ≠ []).

Definition sim (s : Store) (a : spec) : Prop := stNext s = spNext a ∧ ∀ k, simKey (stNext s) k (stRecords s !! k) (spKeys a !! k).

Lemma supersede_core r : coreOf (supersede r) = coreOf r.
Proof. unfold supersede. destruct (mvStatus r =s MemoryStatusActive) eqn:E; [|done]. bprop. unfold coreOf, contentOf. cbn. by rewrite E. Qed.

Lemma supersedeLast_cores rs : coreOf <$> supersedeLast rs = coreOf <$> rs.
Proof.
  induction rs as [|r [|r' rs] IH]; [done| |]; [cbn; by rewrite supersede_core|]. cbn [supersedeLast fmap list_fmap]. f_equal. exact IH.
Qed.

Lemma versionText_inj n m : versionText n = versionText m → n = m.
Proof. unfold versionText. intros H%app_inv_head%lit_inj. by apply (inj pretty) in H. Qed.

Lemma keyOk_later n n' l U : (n <= n')%N → keyOk n l U → keyOk n' l U.
Proof.
  intros Hn [H1 H2 H3 H4 H5 H6]. split; try done; intros y Hy; [destruct (H2 y Hy) as (m & Hm & Hv)|destruct (H3 y Hy) as (m & Hm & Hv)]; exists m; (split; [lia|done]).
Qed.

Lemma keyOk_nil n : keyOk n [] ∅.
Proof. split; intros; try (by rewrite lookup_nil in *); set_solver. Qed.

Section extend.
Context (n n' : N) (l : list core) (U : gset gostr) (x : core).
Hypothesis Hok : keyOk n l U.
Hypothesis Hnew : (n < n')%N.
Hypothesis Hver : coVersion x = versionText n'.
Hypothesis Htrim : ∀ v d, coContent x = Some (v, d) → TrimSpace d = d.

Lemma fresh_version y : y ∈ l → coVersion y ≠ coVersion x.
Proof. intros Hy E. destruct (ko_fresh _ _ _ Hok y Hy) as (m & Hm & Hv). rewrite Hv, Hver in E. apply versionText_inj in E. lia. Qed.

Lemma fresh_undone : coVersion x ∉ U.
Proof. intros H. destruct (ko_undone_fresh _ _ _ Hok _ H) as (m & Hm & Hv). rewrite Hver in Hv. apply versionText_inj in Hv. lia. Qed.

Lemma snoc_lookup i y : (l ++ [x]) !! i = Some y → (l !! i = Some y ∧ i < length l) ∨ (i = length l ∧ y = x).
Proof.
  intros [H|[H1 H2]]%lookup_app_Some; [left; split; [done|by apply lookup_lt_Some in H]|right].
  apply list_lookup_singleton_Some in H2 as [H2 ->]. split; [lia|done].
Qed.

(** The parts of the invariant that do not depend on what [x] does. *)
Lemma extend_common V : (∀ v, v ∈ V → v ∈ U ∨ ∃ y, y ∈ l ∧ v = coVersion y) → coContent x = top (replay (l ++ [x])) →
  (∀ i y, (l ++ [x]) !! i = Some y → coOrigin y ≠ MemoryOriginUndo → coVersion y ∈ V ↔ ¬ alive (l ++ [x]) i) → keyOk n' (l ++ [x]) V.
Proof.
  intros HV Hm Hu. split; [| | | | |done].
  - intros i j y z [[Hi Hli]|[-> ->]]%snoc_lookup [[Hj Hlj]|[-> ->]]%snoc_lookup E; [by eapply (ko_versions _ _ _ Hok)| | |done]; exfalso.
    + apply list_elem_of_lookup_2 in Hi. by apply (fresh_version y Hi).
    + apply list_elem_of_lookup_2 in Hj. by apply (fresh_version z Hj).
  - intros y [Hy| ->%list_elem_of_singleton]%elem_of_app; [|by exists n'; split; [lia|]]. destruct (ko_fresh _ _ _ Hok y Hy) as (m & Hm' & Hv). exists m. split; [lia|done].
  - intros v [Hv|(y & Hy & ->)]%HV; [destruct (ko_undone_fresh _ _ _ Hok v Hv) as (m & Hm' & E)|destruct (ko_fresh _ _ _ Hok y Hy) as (m & Hm' & E)]; exists m; (split; [lia|done]).
  - intros i y [[Hi Hli]|[-> ->]]%snoc_lookup; [rewrite take_app_le by lia; by apply (ko_meaning _ _ _ Hok)|].
    by rewrite take_ge by (rewrite length_app; cbn; lia).
  - intros y v d [Hy| ->%list_elem_of_singleton]%elem_of_app; [by apply (ko_trimmed _ _ _ Hok)|apply Htrim].
Qed.

Lemma extend_write : coOrigin x ≠ MemoryOriginUndo → keyOk n' (l ++ [x]) U ∧ replay (l ++ [x]) = (length l, coContent x) :: replay l.
Proof.
  intros Ho. assert (Hr : replay (l ++ [x]) = (length l, coContent x) :: replay l) by (rewrite replay_snoc; unfold push; by rewrite bool_decide_false).
  split; [|done]. apply extend_common; [by left|by rewrite Hr|]. intros i y Hy Hyo. unfold alive. rewrite Hr. cbn. rewrite elem_of_cons.
  apply snoc_lookup in Hy as [[Hi Hli]|[-> ->]].
  - rewrite (ko_undone _ _ _ Hok i y Hi Hyo). unfold alive. split; [intros Ha [Hb|Hb]; [lia|done]|tauto].
  - split; [intros Hu; by destruct fresh_undone|]. intros Ha. exfalso. apply Ha. by left.
Qed.

Lemma extend_undo t c st y : coOrigin x = MemoryOriginUndo → replay l = (t, c) :: st → l !! t = Some y → coContent x = top st →
  keyOk n' (l ++ [x]) ({[coVersion y]} ∪ U) ∧ replay (l ++ [x]) = st.
Proof.
  intros Ho Hl Hy Hc. assert (Hr : replay (l ++ [x]) = st) by (rewrite replay_snoc, Hl; unfold push; by rewrite bool_decide_true).
  split; [|done]. apply extend_common; [|by rewrite Hr|].
  - intros v [->%elem_of_singleton|Hv]%elem_of_union; [right; exists y; split; [by eapply list_elem_of_lookup_2|done]|by left].
  - intros i z Hz Hzo. apply snoc_lookup in Hz as [[Hi Hli]|[-> ->]]; [|done]. unfold alive. rewrite Hr, elem_of_union, elem_of_singleton.
    rewrite (ko_undone _ _ _ Hok i z Hi Hzo). unfold alive. rewrite Hl. cbn. rewrite elem_of_cons. split.
    + intros [E|E]; [|tauto]. rewrite (ko_versions _ _ _ Hok i t z y Hi Hy E). intros Hin. pose proof (replay_descending l [] t c st t Hl Hin). lia.
    + intros Hn. destruct (decide (i = t)) as [->|]; [left; congruence|right; tauto].
Qed.
End extend.

(** ** Appending *)

Lemma supersedeLast_keys rs k : (∀ c, c ∈ rs → mvKey c = k) → ∀ c, c ∈ supersedeLast rs → mvKey c = k.
Proof.
  induction rs as [|r [|r' rs] IH]; intros H c Hc; [by apply H| |].
  - apply list_elem_of_singleton in Hc as ->. unfold supersede. case_bool; cbn; (apply (H r); by left).
  - apply elem_of_cons in Hc as [-> |Hc]; [apply H; by left|]. apply IH; [|done]. intros c' Hc'. apply H. by right.
Qed.

Lemma supersedeLast_length rs : length (supersedeLast rs) = length rs.
Proof. induction rs as [|r [|r' rs] IH]; [done|done|]. cbn [supersedeLast length]. f_equal. exact IH. Qed.

Lemma retain_holds n' k r l U rev x :
  coreOf <$> rvRevisions r = drop (length l - maxRevisionsPerKey) l → rvTruncated r = (maxRevisionsPerKey <? length l) →
  (∀ c, c ∈ rvRevisions r → mvKey c = k) → keyOk n' (l ++ [x]) U → coreOf rev = x → mvKey rev = k → mvStatus rev ≠ MemoryStatusSuperseded →
  let r' := retainLatest (mkRecord (supersedeLast (rvRevisions r) ++ [rev]) U (rvTruncated r)) in
  holds n' k r' (l ++ [x]) ∧ last (rvRevisions r') = Some rev.
Proof.
  intros Hc Ht Hk Hok Hx Hrk Hst r'. assert (Hlen : length (rvRevisions r) = length l - (length l - maxRevisionsPerKey)) by (by rewrite <-(length_fmap coreOf), Hc, length_drop).
  assert (Hcs : coreOf <$> (supersedeLast (rvRevisions r) ++ [rev]) = drop (length l - maxRevisionsPerKey) (l ++ [x])).
  { rewrite fmap_app, supersedeLast_cores, Hc, drop_app_le by lia. cbn. by rewrite Hx. }
  assert (Hks : ∀ c, c ∈ supersedeLast (rvRevisions r) ++ [rev] → mvKey c = k).
  { intros c [Hin| ->%list_elem_of_singleton]%elem_of_app; [by eapply supersedeLast_keys|done]. }
  unfold r', retainLatest. cbn [rvRevisions rvUndone rvTruncated]. rewrite length_app, supersedeLast_length, Hlen. cbn [length].
  unfold maxRevisionsPerKey in *. destruct (_ <=? 64) eqn:E; [apply Nat.leb_le in E|apply Nat.leb_gt in E].
  - assert (length l ≤ 63) by lia. split; [split; cbn [rvRevisions rvUndone rvTruncated]|].
    + rewrite Hcs, length_app. cbn [length]. unfold maxRevisionsPerKey. f_equal. lia.
    + rewrite Ht, length_app. cbn [length]. unfold maxRevisionsPerKey. by rewrite (proj2 (Nat.ltb_ge 64 (length l))), (proj2 (Nat.ltb_ge 64 (length l + 1))) by lia.
    + done.
    + done.
    + intros c. by rewrite last_snoc; intros [= <-].
    + cbn [rvRevisions]. by rewrite last_snoc.
  - assert (Hd : ∃ w, drop (length l - (length l - 64) + 1 - 64) (supersedeLast (rvRevisions r) ++ [rev]) = w ++ [rev]).
    { rewrite drop_app_le by (rewrite supersedeLast_length; lia). by eexists. }
    destruct Hd as [w Hw]. split; [split; cbn [rvRevisions rvUndone rvTruncated]|].
    + rewrite fmap_drop, Hcs, drop_drop, length_app. cbn [length]. unfold maxRevisionsPerKey. f_equal. lia.
    + rewrite length_app. cbn [length]. unfold maxRevisionsPerKey. symmetry. apply Nat.ltb_lt. lia.
    + done.
    + intros c Hin. apply Hks. eapply list_elem_of_lookup in Hin as [i Hi]. rewrite lookup_drop in Hi. by eapply list_elem_of_lookup_2.
    + intros c. rewrite Hw, last_snoc. by intros [= <-].
    + cbn [rvRevisions]. by rewrite Hw, last_snoc.
Qed.

Definition outOk (o : MemoryRecord + MemoryError) (o' : (gostr * option (gostr * gostr)) + MemoryError) : Prop :=
  match o, o' with
  | inl r, inl (v, c) => mvVersion (mrCurrent r) = v ∧ contentOf (mrCurrent r) = c
  | inr e, inr e' => e = e'
  | _, _ => False
  end.

(** [s1] is [s], where the record of [k] may have other versions undone. *)
Lemma write_sim s s1 a k rev x l U st :
  let n' := (stNext s + 1)%N in
  sim s a → (n' < 2 ^ 64)%N → holds (stNext s) k (ensure s k) l → spOf a k = spKeyOf l →
  stNext s1 = stNext s → (∀ k', k ≠ k' → stRecords s1 !! k' = stRecords s !! k') → ensure s1 k = mkRecord (rvRevisions (ensure s k)) U (rvTruncated (ensure s k)) →
  coreOf (rev (versionText n')) = x → coVersion x = versionText n' → mvKey (rev (versionText n')) = k → mvStatus (rev (versionText n')) ≠ MemoryStatusSuperseded →
  keyOk n' (l ++ [x]) U → replay (l ++ [x]) = st → coContent x = top st →
  sim (append s1 k rev) (spWrite a k st).1 ∧ outOk (written (append s1 k rev) k).2 (spWrite a k st).2.
Proof.
  intros n' [Hn Hs] Hb Hh Hp Hn1 Hr1 He1 Hx Hv Hk Hst Hok Hre Hc.
  destruct (retain_holds n' k (ensure s k) l U (rev (versionText n')) x (ho_cores _ _ _ _ Hh) (ho_truncated _ _ _ _ Hh) (ho_keys _ _ _ _ Hh) Hok Hx Hk Hst) as [Hh' Hl'].
  assert (Hm : ((stNext s + 1) mod 2 ^ 64 = n')%N) by (by apply N.mod_small).
  assert (Hrec : stRecords (append s1 k rev) !! k = Some (retainLatest (mkRecord (supersedeLast (rvRevisions (ensure s k)) ++ [rev (versionText n')]) U (rvTruncated (ensure s k))))).
  { unfold append. cbn [stRecords]. rewrite lookup_insert_eq, He1, Hn1, Hm. done. }
  split.
  - split; [unfold append, spWrite; cbn; by rewrite Hn1, Hn|]. intros k'. unfold spWrite. cbn [fst spKeys].
    assert (Hnx : stNext (append s1 k rev) = n') by (unfold append; cbn; by rewrite Hn1). rewrite Hnx. destruct (decide (k = k')) as [<-|Hne].
    + exists (l ++ [x]). rewrite Hrec, lookup_insert_eq. split_and!; [done| |].
      * cbn [default from_option id]. unfold spKeyOf. rewrite last_snoc, length_app. cbn. rewrite Hp, Hre, Hv, <-Hn, Hm. cbn. f_equal. lia.
      * split; [|by eexists]. intros _. by destruct l.
    + destruct (Hs k') as (l' & H1 & H2 & H3). exists l'. unfold append. cbn [stRecords]. rewrite !lookup_insert_ne by done. rewrite Hr1 by done.
      split_and!; [|done|done]. destruct H1 as [A1 A2 A3 A4 A5]. split; try done. eapply keyOk_later, A3. lia.
  - unfold written, snapshot, spWrite. cbn [snd]. rewrite Hrec, Hl'. cbn. rewrite <-Hn, Hm. clear Hl' Hh'. subst x. split; [exact Hv|exact Hc].
Qed.

(** ** Reading *)

Lemma sim_key s a k : sim s a → ∃ l, holds (stNext s) k (ensure s k) l ∧ spOf a k = spKeyOf l ∧ (is_Some (stRecords s !! k) ↔ l ≠ []).
Proof. intros [_ H]. exact (H k). Qed.

Lemma last_core n k r l : holds n k r l → coreOf <$> last (rvRevisions r) = last l.
Proof.
  intros H. rewrite <-fmap_last, (ho_cores _ _ _ _ H). destruct l as [|x l _] using rev_ind; [done|].
  rewrite drop_app_le by (rewrite length_app; unfold maxRevisionsPerKey; cbn; lia). by rewrite !last_snoc.
Qed.

Lemma sim_current s k l : holds (stNext s) k (ensure s k) l → (is_Some (stRecords s !! k) ↔ l ≠ []) → current s k = coVersion <$> last l.
Proof.
  intros Hh Hi. rewrite <-(last_core _ _ _ _ Hh). unfold current, ensure in *. destruct (stRecords s !! k) as [r|]; cbn; [|done].
  by destruct (last (rvRevisions r)).
Qed.

Lemma last_meaning n k r l : holds n k r l → contentOf <$> last (rvRevisions r) = (λ _, top (replay l)) <$> last l.
Proof.
  intros H. rewrite <-(last_core _ _ _ _ H). destruct (last (rvRevisions r)) as [c|] eqn:Ec; [|done]. cbn. f_equal.
  pose proof (last_core _ _ _ _ H) as Hl. rewrite Ec in Hl. cbn in Hl. destruct l as [|x l _] using rev_ind; [done|]. rewrite last_snoc in Hl. injection Hl as <-.
  pose proof (ko_meaning _ _ _ (ho_ok _ _ _ _ H) (length l) (coreOf c)) as Hm. rewrite take_ge in Hm by (rewrite length_app; cbn; lia). apply Hm. by rewrite lookup_app_r, Nat.sub_diag by lia.
Qed.

Lemma sim_recall s a k : sim s a → (λ e, (enValue e, enDescription e)) <$> Recall s k = meaning a k.
Proof.
  intros Hs. destruct (sim_key s a k Hs) as (l & Hh & Hp & Hi). unfold meaning. rewrite Hp. cbn. pose proof (last_meaning _ _ _ _ Hh) as Hm. pose proof (last_core _ _ _ _ Hh) as Hc.
  pose proof (ho_last _ _ _ _ Hh) as Hl. unfold Recall, active, ensure in *. destruct (stRecords s !! k) as [r|]; cbn in *.
  - destruct (last (rvRevisions r)) as [c|]; cbn in *.
    + rewrite <-Hc in Hm. cbn in Hm. injection Hm as <-. specialize (Hl c eq_refl). unfold contentOf. destruct (mvStatus c); done.
    + destruct l; [done|]. by rewrite last_cons in Hc; destruct (last l).
  - destruct l; [done|]. exfalso. by destruct (proj2 Hi).
Qed.

Lemma lastIndex_last {A} (p : A → bool) l :
  match lastIndex p l with
  | Some i => (∃ x, l !! i = Some x ∧ p x = true) ∧ ∀ j x, l !! j = Some x → p x = true → j <= i
  | None => ∀ j x, l !! j = Some x → p x = false
  end.
Proof.
  induction l as [|y l IH]; cbn [lastIndex]; [intros j x H; by rewrite lookup_nil in H|]. destruct (lastIndex p l) as [i|].
  - destruct IH as [(x & Hx & Hp) H]. split; [by exists x|]. intros [|j] z Hz Hpz; [lia|]. specialize (H j z Hz Hpz). lia.
  - destruct (p y) eqn:Ep.
    + split; [by exists y|]. intros [|j] z Hz Hpz; [lia|]. cbn in Hz. by rewrite (IH j z Hz) in Hpz.
    + intros [|j] z Hz; [by injection Hz as ->|]. by apply (IH j).
Qed.

Lemma retained_lookup n k r l j c : holds n k r l → rvRevisions r !! j = Some c → l !! (length l - maxRevisionsPerKey + j) = Some (coreOf c).
Proof. intros H Hj. rewrite <-lookup_drop, <-(ho_cores _ _ _ _ H), list_lookup_fmap, Hj. done. Qed.

Lemma retained_lookup_inv n k r l i x : holds n k r l → length l - maxRevisionsPerKey <= i → l !! i = Some x → ∃ c, rvRevisions r !! (i - (length l - maxRevisionsPerKey)) = Some c ∧ coreOf c = x.
Proof.
  intros H Hi Hx. assert (Hd : drop (length l - maxRevisionsPerKey) l !! (i - (length l - maxRevisionsPerKey)) = Some x) by (rewrite lookup_drop; rewrite <-Hx; f_equal; lia).
  rewrite <-(ho_cores _ _ _ _ H), list_lookup_fmap in Hd. destruct (rvRevisions r !! _) as [c|]; [|done]. exists c. split; [done|by injection Hd].
Qed.

Lemma undoable_alive n k r l j c : holds n k r l → rvRevisions r !! j = Some c → undoable r c = true ↔ alive l (length l - maxRevisionsPerKey + j).
Proof.
  intros H Hj. pose proof (retained_lookup _ _ _ _ _ _ H Hj) as Hl. unfold undoable. rewrite andb_true_iff, !negb_true_iff, !bool_decide_eq_false. split.
  - intros [Ho Hu]. destruct (decide (alive l (length l - maxRevisionsPerKey + j))); [done|]. exfalso. apply Hu. by apply (ko_undone _ _ _ (ho_ok _ _ _ _ H) _ _ Hl Ho).
  - intros Ha. pose proof Ha as Ha'. apply list_elem_of_fmap in Ha' as ([t d] & Ht & (pre & st & Hr)%list_elem_of_split). cbn in Ht. subst t.
    apply replay_below in Hr as (_ & x & Hx & Ho & _). rewrite Hl in Hx. injection Hx as <-. split; [done|]. intros Hu.
    by apply (ko_undone _ _ _ (ho_ok _ _ _ _ H) _ _ Hl Ho) in Hu.
Qed.

(** The revision that undo takes back is the top of the stack, as far as it is retained. *)
Lemma undo_target n k r l : holds n k r l →
  lastIndex (undoable r) (rvRevisions r) =
  match replay l with
  | [] => None
  | (t, _) :: _ => if length l - maxRevisionsPerKey <=? t then Some (t - (length l - maxRevisionsPerKey)) else None
  end.
Proof.
  intros H. pose proof (lastIndex_last (undoable r) (rvRevisions r)) as Hs. destruct (replay l) as [|[t d] st] eqn:Er.
  - destruct (lastIndex _ _) as [i|]; [|done]. destruct Hs as [(c & Hc & Hu) _]. apply (undoable_alive _ _ _ _ _ _ H Hc) in Hu. unfold alive in Hu. rewrite Er in Hu. by apply elem_of_nil in Hu.
  - destruct (replay_below l [] t d st Er) as (_ & x & Hx & _). assert (Hat : alive l t) by (unfold alive; rewrite Er; by left).
    assert (Hmax : ∀ i, alive l i → i <= t).
    { unfold alive. rewrite Er. intros i [-> |Hi]%elem_of_cons; [done|]. pose proof (replay_descending l [] t d st i Er Hi). lia. }
    set (off := length l - maxRevisionsPerKey) in *. destruct (off <=? t) eqn:Et; [apply Nat.leb_le in Et|apply Nat.leb_gt in Et].
    + destruct (retained_lookup_inv _ _ _ _ _ _ H Et Hx) as (c & Hc & _). assert (Hu : undoable r c = true) by (apply (undoable_alive _ _ _ _ _ _ H Hc); fold off; by replace (off + (t - off)) with t by lia).
      fold off in Hc. destruct (lastIndex _ _) as [i|]; [|by rewrite (Hs _ _ Hc) in Hu]. destruct Hs as [(c' & Hc' & Hu') Hle]. specialize (Hle _ _ Hc Hu).
      apply (undoable_alive _ _ _ _ _ _ H Hc'), Hmax in Hu'. fold off in Hu'. f_equal. lia.
    + destruct (lastIndex _ _) as [i|]; [|done]. destruct Hs as [(c' & Hc' & Hu') _]. apply (undoable_alive _ _ _ _ _ _ H Hc'), Hmax in Hu'. fold off in Hu'. lia.
Qed.

(** ** The simulation *)

Definition step_ok (s : Store) (a : spec) (op : MemoryOp) : Prop :=
  sim (memoryExec s op).1 (specExec a op).1 ∧ outOk (memoryExec s op).2 (specExec a op).2.

Lemma holds_append s k l o c :
  holds (stNext s) k (ensure s k) l → o ≠ MemoryOriginUndo → (∀ v d, c = Some (v, d) → TrimSpace d = d) →
  let x := mkCore (versionText (stNext s + 1)) o c in
  keyOk (stNext s + 1) (l ++ [x]) (rvUndone (ensure s k)) ∧ replay (l ++ [x]) = (length l, c) :: replay l.
Proof. intros H Ho Ht x. apply (extend_write (stNext s) (stNext s + 1) l _ x (ho_ok _ _ _ _ H)); [lia|done|exact Ht|exact Ho]. Qed.

Lemma record_eta r : mkRecord (rvRevisions r) (rvUndone r) (rvTruncated r) = r.
Proof. by destruct r. Qed.

Lemma remember_step s a e expected at_ now :
  sim s a → (stNext s + 1 < 2 ^ 64)%N → maOrigin at_ ≠ MemoryOriginUndo → step_ok s a (MRemember e expected at_ now).
Proof.
  intros Hs Hb Ho. unfold step_ok. cbn [memoryExec specExec]. unfold Remember. destruct (ValidateMemoryEntryWrite e at_); [done|].
  destruct (sim_key s a (enKey e) Hs) as (l & Hh & Hp & Hi). rewrite (sim_current _ _ _ Hh Hi), Hp. unfold spKeyOf. cbn [spCount spVersion spStack].
  assert (Hex : bool_decide (is_Some (coVersion <$> last l)) = (0 <? length l)).
  { destruct l as [|x l _] using rev_ind; [done|]. rewrite last_snoc, length_app, bool_decide_true by (by eexists). symmetry. apply Nat.ltb_lt. cbn. lia. }
  rewrite Hex. destruct (_ || _); [done|]. set (o := if maOrigin at_ =s [] then MemoryOriginExplicit else maOrigin at_).
  assert (Hou : o ≠ MemoryOriginUndo) by (unfold o; by destruct (_ =s _)). set (c := Some (enValue e, TrimSpace (enDescription e))).
  destruct (holds_append s (enKey e) l o c Hh Hou) as [Hok Hr]; [intros v d [= <- <-]; apply TrimSpace_idemp|].
  by apply (write_sim s s a (enKey e) _ (mkCore (versionText (stNext s + 1)) o c) l (rvUndone (ensure s (enKey e))) _ Hs Hb Hh Hp); rewrite ?record_eta.
Qed.

Lemma compare_sim s a k l expected : holds (stNext s) k (ensure s k) l → spOf a k = spKeyOf l → (is_Some (stRecords s !! k) ↔ l ≠ []) →
  compare s k expected = if negb (spVersion (spOf a k) =s expected) then Some (MemoryVersionConflict k expected (spVersion (spOf a k))) else None.
Proof. intros Hh Hp Hi. unfold compare. by rewrite (sim_current _ _ _ Hh Hi), Hp. Qed.

Lemma forget_step s a k expected at_ now :
  sim s a → (stNext s + 1 < 2 ^ 64)%N → maOrigin at_ ≠ MemoryOriginUndo → step_ok s a (MForget k expected at_ now).
Proof.
  intros Hs Hb Ho. unfold step_ok. cbn [memoryExec specExec]. unfold Forget. destruct (sim_key s a k Hs) as (l & Hh & Hp & Hi). rewrite (compare_sim s a k l _ Hh Hp Hi).
  destruct (negb (_ =s expected)); [done|]. unfold meaning. rewrite Hp. unfold spKeyOf. cbn [spCount spVersion spStack].
  pose proof (last_meaning _ _ _ _ Hh) as Hm. pose proof (last_core _ _ _ _ Hh) as Hc. destruct (last (rvRevisions (ensure s k))) as [r|] eqn:El.
  - rewrite <-Hc in Hm. cbn in Hm. injection Hm as Hm. unfold contentOf in Hm. destruct (mvStatus r =s MemoryStatusDeleted); rewrite <-Hm; [done|].
    set (o := if maOrigin at_ =s [] then MemoryOriginExplicit else maOrigin at_). assert (Hou : o ≠ MemoryOriginUndo) by (unfold o; by destruct (_ =s _)).
    destruct (holds_append s k l o None Hh Hou) as [Hok Hr]; [done|].
    apply (write_sim s s a k _ (mkCore (versionText (stNext s + 1)) o None) l (rvUndone (ensure s k)) _ Hs Hb Hh Hp); rewrite ?record_eta; done.
  - destruct l as [|x l _] using rev_ind; [done|]. by rewrite last_snoc in Hc.
Qed.

Lemma undo_write s a k l t d st y rev :
  sim s a → (stNext s + 1 < 2 ^ 64)%N → holds (stNext s) k (ensure s k) l → spOf a k = spKeyOf l → replay l = (t, d) :: st → l !! t = Some y →
  let v := versionText (stNext s + 1) in
  coreOf (rev v) = mkCore v MemoryOriginUndo (top st) → mvKey (rev v) = k → mvStatus (rev v) ≠ MemoryStatusSuperseded →
  (∀ x w, top st = Some (x, w) → TrimSpace w = w) →
  sim (append (markUndone s k (coVersion y)) k rev) (spWrite a k st).1 ∧ outOk (written (append (markUndone s k (coVersion y)) k rev) k).2 (spWrite a k st).2.
Proof.
  intros Hs Hb Hh Hp Hr Hy v Hx Hk Hst Ht.
  destruct (extend_undo (stNext s) (stNext s + 1) l _ (mkCore v MemoryOriginUndo (top st)) (ho_ok _ _ _ _ Hh)) with t d st y as [Hok Hre]; try done; [lia|].
  apply (write_sim s (markUndone s k (coVersion y)) a k rev (mkCore v MemoryOriginUndo (top st)) l ({[coVersion y]} ∪ rvUndone (ensure s k)) st Hs Hb Hh Hp); try done.
  - intros k' Hne. unfold markUndone. cbn. by rewrite lookup_insert_ne.
  - unfold markUndone, ensure at 1. cbn. by rewrite lookup_insert_eq.
Qed.

Lemma content_top n k r l t d st : holds n k r l → replay l = (t, d) :: st → ∀ x w, top st = Some (x, w) → TrimSpace w = w.
Proof.
  intros H Hr x w Ht. destruct st as [|[t' d'] st]; [done|]. cbn in Ht. subst d'. change ((t, d) :: (t', Some (x, w)) :: st) with ([(t, d)] ++ (t', Some (x, w)) :: st) in Hr.
  apply replay_below in Hr as (_ & y & Hy & _ & Hc). by apply (ko_trimmed _ _ _ (ho_ok _ _ _ _ H) y x w (list_elem_of_lookup_2 _ _ _ Hy)).
Qed.

(** What was current before the top of the stack was written. *)
Lemma before_top n k r l t d st c :
  holds n k r l → replay l = (S t, d) :: st → length l - maxRevisionsPerKey <= t → rvRevisions r !! (t - (length l - maxRevisionsPerKey)) = Some c → contentOf c = top st.
Proof.
  intros H Hr Ht Hc. pose proof (retained_lookup _ _ _ _ _ _ H Hc) as Hl. replace (_ + (t - _)) with t in Hl by lia.
  pose proof (ko_meaning _ _ _ (ho_ok _ _ _ _ H) _ _ Hl) as Hm. destruct (replay_below l [] _ _ _ Hr) as [-> _]. exact Hm.
Qed.

Lemma undo_step s a k expected at_ now : sim s a → (stNext s + 1 < 2 ^ 64)%N → step_ok s a (MUndo k expected at_ now).
Proof.
  intros Hs Hb. unfold step_ok. cbn [memoryExec specExec]. unfold Undo_. destruct (sim_key s a k Hs) as (l & Hh & Hp & Hi). rewrite (compare_sim s a k l _ Hh Hp Hi).
  destruct (negb (_ =s expected)); [done|]. rewrite (undo_target _ _ _ _ Hh), (ho_truncated _ _ _ _ Hh), Hp. unfold spKeyOf. cbn [spCount spVersion spStack].
  assert (Hlen : length (rvRevisions (ensure s k)) = length l - (length l - maxRevisionsPerKey)) by (by rewrite <-(length_fmap coreOf), (ho_cores _ _ _ _ Hh), length_drop).
  rewrite Hlen. destruct (length l =? 0) eqn:E0; [apply Nat.eqb_eq in E0; by rewrite E0|]. apply Nat.eqb_neq in E0.
  destruct (_ =? 0) eqn:E1; [apply Nat.eqb_eq in E1; unfold maxRevisionsPerKey in E1; lia|]. clear E1. destruct (replay l) as [|[t d] st] eqn:Er; [done|].
  set (off := length l - maxRevisionsPerKey). destruct (replay_below l [] t d st Er) as (Hst & y & Hy & _).
  assert (Hoff : (maxRevisionsPerKey <? length l) = negb (off =? 0)).
  { unfold off, maxRevisionsPerKey. destruct (Nat.ltb_spec 64 (length l)), (Nat.eqb_spec (length l - 64) 0); try done; lia. }
  rewrite Hoff. destruct (off <=? t) eqn:Et; [apply Nat.leb_le in Et|apply Nat.leb_gt in Et].
  2: { rewrite (proj2 (Nat.leb_le t off)) by lia. destruct (Nat.eqb_spec off 0); [lia|done]. }
  destruct (retained_lookup_inv _ _ _ _ _ _ Hh Et Hy) as (c & Hc & Hcy). fold off in Hc. rewrite Hc.
  assert (Hv : default [] (mvVersion <$> Some c) = coVersion y) by (by rewrite <-Hcy). rewrite Hv. pose proof (content_top _ _ _ _ _ _ _ Hh Er) as Htrim.
  assert (Hgoal : ∀ rev, coreOf (rev (versionText (stNext s + 1))) = mkCore (versionText (stNext s + 1)) MemoryOriginUndo (top st) →
    mvKey (rev (versionText (stNext s + 1))) = k → mvStatus (rev (versionText (stNext s + 1))) ≠ MemoryStatusSuperseded →
    sim (append (markUndone s k (coVersion y)) k rev) (spWrite a k st).1 ∧ outOk (written (append (markUndone s k (coVersion y)) k rev) k).2 (spWrite a k st).2).
  { intros rev H1 H2 H3. by eapply undo_write. }
  destruct (t - off) as [|j] eqn:Ej; cbn [Nat.eqb andb].
  - assert (t = off) as -> by lia. rewrite Nat.leb_refl, andb_true_r. destruct (Nat.eqb_spec off 0) as [E|E]; [|done]. cbn [negb].
    apply Hgoal; [|done|done]. unfold coreOf, contentOf. cbn. f_equal. by rewrite Hst, E.
  - rewrite (proj2 (Nat.leb_gt t off)) by lia. rewrite andb_false_r. cbn [pred].
    assert (Hj : j = pred t - off) by lia. destruct (lookup_lt_is_Some_2 (rvRevisions (ensure s k)) j) as [b Hbj]; [apply lookup_lt_Some in Hc; lia|]. rewrite Hbj.
    assert (Hbt : contentOf b = top st).
    { destruct t as [|t]; [lia|]. cbn [pred] in Hj. apply (before_top _ _ _ _ _ _ _ _ Hh Er); fold off; [lia|by rewrite <-Hj]. }
    pose proof (ho_keys _ _ _ _ Hh b (list_elem_of_lookup_2 _ _ _ Hbj)) as Hbk. unfold contentOf in Hbt. destruct (mvStatus b =s MemoryStatusDeleted) eqn:Eb.
    + apply Hgoal; [|done|done]. unfold coreOf, contentOf. cbn. by rewrite <-Hbt.
    + assert (Hw : TrimSpace (mvDescription b) = mvDescription b) by (apply (Htrim (mvValue b)); by rewrite <-Hbt).
      unfold appendActive. cbn [entryOf enKey]. rewrite Hbk. apply Hgoal; [|done|done]. unfold coreOf, contentOf.
      cbn [mvVersion mvOrigin mvStatus mvValue mvDescription enValue enDescription entryOf]. by rewrite Hw, <-Hbt.
Qed.

Lemma sim_New : sim New spNew.
Proof.
  split; [done|]. intros k. exists []. split_and!; [|done|by split; [intros []|]]. split; try done; [apply keyOk_nil|intros c H; by apply elem_of_nil in H].
Qed.

Lemma exec_step s a op : sim s a → (stNext s + 1 < 2 ^ 64)%N → honest op → step_ok s a op.
Proof. destruct op; intros; [by apply remember_step|by apply forget_step|by apply undo_step]. Qed.

Lemma spWrite_next a k st : (spNext (spWrite a k st).1 <= spNext a + 1)%N.
Proof. unfold spWrite. cbn. by apply N.Div0.mod_le. Qed.

Lemma specExec_next a op : (spNext (specExec a op).1 <= spNext a + 1)%N.
Proof.
  destruct op as [e ex at_ now|k ex at_ now|k ex at_ now]; cbn [specExec];
    repeat match goal with |- context [match ?x with _ => _ end] => destruct x end; try apply spWrite_next; cbn; lia.
Qed.

Lemma run_sim ops : (N.of_nat (length ops) < 2 ^ 64)%N → Forall honest ops → sim (memoryRun ops) (specRun ops) ∧ (spNext (specRun ops) <= N.of_nat (length ops))%N.
Proof.
  unfold memoryRun, specRun. induction ops as [|op ops IH] using rev_ind; intros Hb Hh; [split; [apply sim_New|done]|]. rewrite length_app in Hb. cbn [length] in Hb.
  apply Forall_app in Hh as [Hh Hop]. apply Forall_cons in Hop as [Hop _]. rewrite !foldl_app, length_app. cbn [foldl length]. destruct IH as [Hs Hn]; [lia|done|].
  split; [refine (proj1 (exec_step _ _ op Hs _ Hop)); destruct Hs as [-> _]; lia|]. pose proof (specExec_next (foldl (λ a op, (specExec a op).1) spNew ops) op). lia.
Qed.

(** C37. The memory store is an undo stack per key.  After any calls, fewer than 2^64, of
    which none attributes a remembered or forgotten fact to the undo workflow ([honest]),
    each key means the top of the stack that the specification computes: a remembered
    value, a deletion or nothing; and every further such call fails with the error of the
    specification or succeeds with its version and its meaning.  Superseded marks,
    tombstones, the set of undone versions and the cut of the history to 64 revisions are
    thus invisible, but for undo, which is refused beyond them.  The attribution matters:
    an undo steps over a fact that claims the undo origin ([claimed_undo_skipped]). *)
Theorem memory_refines_undo_stack ops op :
  (N.of_nat (length ops) + 1 < 2 ^ 64)%N → Forall honest ops → honest op →
  (∀ k, (λ e, (enValue e, enDescription e)) <$> Recall (memoryRun ops) k = meaning (specRun ops) k) ∧
  outOk (memoryExec (memoryRun ops) op).2 (specExec (specRun ops) op).2.
Proof.
  intros Hb Hh Hop. destruct (run_sim ops) as [Hs Hn]; [lia|done|]. split; [intros k; by apply sim_recall|].
  apply (exec_step _ _ op Hs); [|done]. destruct Hs as [-> _]. lia.
Qed.

(** ** What a version says

    Versions are never given twice, so a revision that is current under the version an
    earlier inspection saw is the revision that was inspected, whoever wrote it. *)

Lemma retainLatest_last r c : last (rvRevisions r) = Some c → last (rvRevisions (retainLatest r)) = Some c.
Proof.
  intros H. apply last_Some in H as [w Hw]. unfold retainLatest. destruct (_ <=? _); [by rewrite Hw, last_snoc|]. cbn. rewrite Hw, length_app. cbn [length].
  rewrite drop_app_le by (unfold maxRevisionsPerKey; lia). by rewrite last_snoc.
Qed.

Definition currentRevision (s : Store) (k : gostr) : option MemoryRevision := mrCurrent <$> Inspect_ s k.

Lemma currentRevision_last s k : currentRevision s k = last (rvRevisions (ensure s k)).
Proof. unfold currentRevision, Inspect_, snapshot, ensure. destruct (stRecords s !! k) as [r|]; [|done]. cbn. by destruct (last (rvRevisions r)). Qed.

Lemma current_version s k : current s k = mvVersion <$> currentRevision s k.
Proof. unfold current, currentRevision, Inspect_, snapshot. destruct (stRecords s !! k) as [r|]; [|done]. by destruct (last (rvRevisions r)). Qed.

Lemma append_current s k rev k' : (stNext s + 1 < 2 ^ 64)%N →
  stNext (append s k rev) = (stNext s + 1)%N ∧
  currentRevision (append s k rev) k' = if decide (k = k') then Some (rev (versionText (stNext s + 1))) else currentRevision s k'.
Proof.
  intros Hb. unfold append. rewrite N.mod_small by done. split; [done|]. rewrite !currentRevision_last. unfold ensure at 1. cbn [stRecords].
  destruct (decide (k = k')) as [<-|Hne]; [|by rewrite lookup_insert_ne]. rewrite lookup_insert_eq. cbn [default from_option id].
  apply retainLatest_last. cbn [rvRevisions]. by rewrite last_snoc.
Qed.

Lemma markUndone_current s k v k' : stNext (markUndone s k v) = stNext s ∧ currentRevision (markUndone s k v) k' = currentRevision s k'.
Proof.
  split; [done|]. rewrite !currentRevision_last. unfold markUndone, ensure at 1. cbn [stRecords].
  destruct (decide (k = k')) as [<-|Hne]; [by rewrite lookup_insert_eq|by rewrite lookup_insert_ne].
Qed.

(** From [s] to [s'] the current revision of [k] stayed, or became one of a new version. *)
Definition settled (k : gostr) (s s' : Store) : Prop :=
  (stNext s <= stNext s')%N ∧
  (currentRevision s' k = currentRevision s k ∨
   ∃ n c, (stNext s < n <= stNext s')%N ∧ currentRevision s' k = Some c ∧ mvVersion c = versionText n).

Lemma settled_refl k s : settled k s s.
Proof. split; [done|by left]. Qed.

Lemma append_settled s s1 k k' rev : stNext s1 = stNext s → currentRevision s1 k' = currentRevision s k' →
  (∀ v, mvVersion (rev v) = v) → (stNext s + 1 < 2 ^ 64)%N →
  settled k' s (append s1 k rev) ∧ (stNext (append s1 k rev) <= stNext s + 1)%N.
Proof.
  intros Hn Hc Hv Hb. destruct (append_current s1 k rev k') as [H1 H2]; [by rewrite Hn|]. unfold settled. rewrite H1, H2, Hn. split_and!; [lia| |done].
  destruct (decide (k = k')) as [<-|]; [right|by left]. exists (stNext s + 1)%N. eexists. split_and!; [lia|lia|done|apply Hv].
Qed.

Lemma memoryExec_settled s op k : (stNext s + 1 < 2 ^ 64)%N → settled k s (memoryExec s op).1 ∧ (stNext (memoryExec s op).1 <= stNext s + 1)%N.
Proof.
  intros Hb. assert (Hid : settled k s s ∧ (stNext s <= stNext s + 1)%N) by (split; [apply settled_refl|lia]).
  destruct op as [e ex a now|k1 ex a now|k1 ex a now]; cbn [memoryExec].
  - unfold Remember. destruct (ValidateMemoryEntryWrite e a); [done|]. destruct (_ || _); [done|]. by apply append_settled.
  - unfold Forget. destruct (compare s k1 ex); [done|]. destruct (last _) as [c|]; [|done]. destruct (mvStatus c =s MemoryStatusDeleted); [done|]. by apply append_settled.
  - unfold Undo_. destruct (compare s k1 ex); [done|]. destruct (length _ =? 0); [done|]. destruct (lastIndex _ _) as [target|]; [|done].
    destruct (_ && _); [done|]. cbv zeta. set (v := default [] _). destruct (markUndone_current s k1 v k) as [Hn Hc].
    destruct target as [|t]; [by apply append_settled|]. destruct (_ !! pred (S t)) as [before|]; [|by apply append_settled].
    destruct (mvStatus before =s MemoryStatusDeleted); by apply append_settled.
Qed.

Lemma settled_trans k s1 s2 s3 : settled k s1 s2 → settled k s2 s3 → settled k s1 s3.
Proof.
  intros [Hn Hc] [Hn' Hc']. split; [lia|]. destruct Hc' as [->|(n & c & Hnn & H)]; [|right; exists n, c; split; [lia|done]].
  destruct Hc as [->|(n & c & Hnn & H)]; [by left|right; exists n, c; split; [lia|done]].
Qed.

Lemma run_settled ops s k : (stNext s + N.of_nat (length ops) < 2 ^ 64)%N →
  let s' := foldl (λ s op, (memoryExec s op).1) s ops in settled k s s' ∧ (stNext s' <= stNext s + N.of_nat (length ops))%N.
Proof.
  revert s. induction ops as [|op ops IH]; intros s Hb; cbn [foldl length] in *; [split; [apply settled_refl|lia]|].
  destruct (memoryExec_settled s op k) as [H1 Hn]; [lia|]. destruct (IH (memoryExec s op).1) as [H2 Hn2]; [lia|]. split; [by eapply settled_trans|lia].
Qed.

(** A current version was given by the store. *)
Lemma current_given ops k c : (N.of_nat (length ops) < 2 ^ 64)%N → currentRevision (memoryRun ops) k = Some c →
  ∃ n, (n <= stNext (memoryRun ops))%N ∧ mvVersion c = versionText n.
Proof.
  intros Hb Hc. destruct (run_settled ops New k) as [[_ Hs] _]; [cbn; lia|]. fold (memoryRun ops) in Hs. rewrite Hc in Hs.
  destruct Hs as [Hs|(n & c' & Hn & [= <-] & Hv)]; [done|]. exists n. split; [lia|done].
Qed.

Lemma current_same ops ops' k rec :
  (N.of_nat (length ops + length ops') < 2 ^ 64)%N →
  Inspect_ (memoryRun ops) k = Some rec → current (memoryRun (ops ++ ops')) k = Some (mvVersion (mrCurrent rec)) →
  currentRevision (memoryRun (ops ++ ops')) k = Some (mrCurrent rec).
Proof.
  intros Hb Hi Hc. assert (Hrec : currentRevision (memoryRun ops) k = Some (mrCurrent rec)) by (unfold currentRevision; by rewrite Hi).
  destruct (current_given ops k (mrCurrent rec)) as (n & Hn & Hv); [lia|done|]. destruct (run_settled ops New k) as [_ Hlen]; [cbn; lia|]. fold (memoryRun ops) in Hlen. cbn [stNext New] in Hlen.
  destruct (run_settled ops' (memoryRun ops) k) as [[_ Hs] _]; [lia|]. rewrite current_version in Hc. unfold memoryRun in *. rewrite foldl_app in *.
  destruct Hs as [->|(n' & c & Hn' & Hcur & Hv')]; [done|]. exfalso. rewrite Hcur in Hc. injection Hc as Hc. rewrite Hv, Hv' in Hc. apply versionText_inj in Hc. lia.
Qed.

Lemma current_none s k : current s k = None → Recall s k = None.
Proof. unfold current, Recall, active. destruct (stRecords s !! k) as [r|]; [|done]. by destruct (last (rvRevisions r)). Qed.

Lemma inactive_unreadable s k c : currentRevision s k = Some c → mvStatus c ≠ MemoryStatusActive → Recall s k = None.
Proof.
  rewrite currentRevision_last. unfold ensure, Recall, active. destruct (stRecords s !! k) as [r|]; [|done]. cbn. intros -> H. by rewrite bool_decide_false.
Qed.

(** What a successful write of the store returns. *)
Lemma remember_written s e expected a now s' rec :
  Remember s e expected a now = (s', inl rec) →
  current s (enKey e) = (if mcExists expected then Some (mcVersion expected) else None) ∧ Inspect_ s' (enKey e) = Some rec ∧
  ∃ v, mrCurrent rec = mkRevision (enKey e) (enValue e) (TrimSpace (enDescription e)) v MemoryStatusActive (maWriter a)
    (if maOrigin a =s [] then MemoryOriginExplicit else maOrigin a) (maSource a) now.
Proof.
  unfold Remember. destruct (ValidateMemoryEntryWrite e a); [done|]. destruct (_ || _) eqn:Eg; [done|]. intros H.
  assert (Hcur : current s (enKey e) = if mcExists expected then Some (mcVersion expected) else None).
  { apply orb_false_iff in Eg as [E1 E2]. destruct (current s (enKey e)) as [v|]; cbn in *; destruct (mcExists expected); try done. bprop. by subst. }
  split; [done|]. unfold written, Inspect_ in *. injection H as <- Hr. destruct (snapshot _ _) as [r|] eqn:Es; [|done]. injection Hr as ->. split; [done|].
  unfold appendActive, append, snapshot in Es. cbn [stRecords] in Es. rewrite lookup_insert_eq in Es. erewrite retainLatest_last in Es by (cbn [rvRevisions]; by rewrite last_snoc). injection Es as <-. cbn. by eexists.
Qed.

(** Listing visits every readable key of the prefix. *)
Lemma list_spec s prefix e : e ∈ List_ s prefix ↔ ∃ k, HasPrefix k prefix = true ∧ Recall s k = Some e.
Proof.
  unfold List_, Recall. rewrite merge_sort_Permutation, list_elem_of_omap. split.
  - intros (k & _ & H). exists k. by destruct (HasPrefix k prefix).
  - intros (k & Hp & H). exists k. rewrite Hp. split; [|done]. unfold active in H. destruct (stRecords s !! k) as [r|] eqn:Er; [|done].
    apply list_elem_of_fmap. exists (k, r). by rewrite elem_of_map_to_list.
Qed.

(** ** What becomes durable *)

Definition modelAuthored (a : MemoryAttribution) : bool :=
  (maWriter a =s MemoryWriterModel) || (maOrigin a =s MemoryOriginLearning) || (maOrigin a =s MemoryOriginConsolidation).

(** A revision with content has the content of an accepted write of the history. *)
Definition vouched (ops : list MemoryOp) (v : MemoryRevision) : Prop :=
  mvStatus v = MemoryStatusDeleted ∨ ∃ e expected a now, MRemember e expected a now ∈ ops ∧ ValidateMemoryEntryWrite e a = None ∧
    enKey e = mvKey v ∧ enValue e = mvValue v ∧ TrimSpace (enDescription e) = mvDescription v.

Definition allVouched (ops : list MemoryOp) (s : Store) : Prop := ∀ k r, stRecords s !! k = Some r → Forall (λ v, mvKey v = k ∧ vouched ops v) (rvRevisions r).

Lemma revision_vouched_mono ops ops' v : vouched ops v → vouched (ops ++ ops') v.
Proof. intros [?|(e & ex & a & now & Hin & ?)]; [by left|]. right. exists e, ex, a, now. rewrite elem_of_app. tauto. Qed.

Lemma allVouched_mono ops ops' s : allVouched ops s → allVouched (ops ++ ops') s.
Proof. intros H k r Hr. eapply Forall_impl; [by apply H|]. intros v [? ?]. split; [done|by apply revision_vouched_mono]. Qed.

Lemma allVouched_ensure ops s k : allVouched ops s → Forall (λ v, mvKey v = k ∧ vouched ops v) (rvRevisions (ensure s k)).
Proof. intros H. unfold ensure. destruct (stRecords s !! k) eqn:E; [by eapply H|by apply Forall_nil]. Qed.

Lemma supersedeLast_vouched ops k rs :
  Forall (λ v, mvKey v = k ∧ vouched ops v) rs → Forall (λ v, mvKey v = k ∧ vouched ops v) (supersedeLast rs).
Proof.
  intros H. induction H as [|v rs [Hk Hv] Hrs IH]; [by apply Forall_nil|]. destruct rs as [|v' rs]; cbn [supersedeLast]; [|by apply Forall_cons].
  apply Forall_singleton. unfold supersede. destruct (mvStatus v =s MemoryStatusActive) eqn:E; [|done]. bprop. split; [done|].
  destruct Hv as [Hd|Hv]; [congruence|]. by right.
Qed.

Lemma append_vouched ops s k rev : allVouched ops s → (∀ v, mvKey (rev v) = k ∧ vouched ops (rev v)) → allVouched ops (append s k rev).
Proof.
  intros H Hrev k' r. unfold append. cbn [stRecords]. destruct (decide (k = k')) as [->|Hne]; [|rewrite lookup_insert_ne by done; apply H].
  rewrite lookup_insert_eq. intros [= <-].
  assert (Hall : Forall (λ v, mvKey v = k' ∧ vouched ops v) (supersedeLast (rvRevisions (ensure s k')) ++ [rev (versionText ((stNext s + 1) mod 2 ^ 64)%N)])).
  { apply Forall_app. split; [by apply supersedeLast_vouched, allVouched_ensure|]. apply Forall_singleton, Hrev. }
  unfold retainLatest. cbn [rvRevisions]. destruct (_ <=? _); [done|]. by apply Forall_drop.
Qed.

Lemma append_deleted_vouched ops s k a origin now : allVouched ops s → allVouched ops (appendDeleted s k a origin now).
Proof. intros H. apply append_vouched; [done|]. intros v. split; [done|by left]. Qed.

Lemma written_fst s k : (written s k).1 = s.
Proof. done. Qed.

Lemma exec_vouched ops s op : allVouched ops s → allVouched (ops ++ [op]) (memoryExec s op).1.
Proof.
  intros H. apply (allVouched_mono _ [op]) in H. destruct op as [e ex a now|k ex a now|k ex a now]; cbn [memoryExec].
  - unfold Remember. destruct (ValidateMemoryEntryWrite e a) eqn:Ev; [done|]. destruct (_ || _); [done|]. rewrite written_fst. apply append_vouched; [done|].
    intros v. split; [done|]. right. exists e, ex, a, now. split_and!; try done. apply elem_of_app. right. by apply list_elem_of_singleton.
  - unfold Forget. destruct (compare s k ex); [done|]. destruct (last _) as [c|]; [|done]. destruct (_ =s _); [done|]. rewrite written_fst. by apply append_deleted_vouched.
  - unfold Undo_. destruct (compare s k ex); [done|]. destruct (_ =? 0); [done|]. destruct (lastIndex _ _) as [target|]; [|done]. destruct (_ && _); [done|]. cbv zeta.
    set (s1 := markUndone s k _). assert (H1 : allVouched (ops ++ [MUndo k ex a now]) s1).
    { intros k' r. unfold s1, markUndone. cbn [stRecords]. destruct (decide (k = k')) as [->|Hne]; [|rewrite lookup_insert_ne by done; apply H].
      rewrite lookup_insert_eq. intros [= <-]. by apply allVouched_ensure. }
    destruct target as [|t]; [by apply (append_deleted_vouched _ s1)|].
    cbn [Nat.pred]. destruct (rvRevisions (ensure s k) !! t) as [before|] eqn:Eb; [|by apply (append_deleted_vouched _ s1)].
    destruct (mvStatus before =s MemoryStatusDeleted) eqn:Ed; rewrite written_fst; [by apply append_deleted_vouched|]. bprop.
    pose proof (proj1 (Forall_lookup _ _) (allVouched_ensure _ s k H) _ _ Eb) as [Hk Hv]. apply append_vouched; [done|]. intros v. cbn. split; [done|].
    destruct Hv as [Hv|(e & ex' & a' & now' & Hin & Hval & Hke & Hve & Hd)]; [done|]. right. exists e, ex', a', now'. split_and!; try done.
    rewrite Hd. change (mvDescription before = TrimSpace (mvDescription before)). by rewrite <-Hd, TrimSpace_idemp.
Qed.

Lemma run_vouched ops : allVouched ops (memoryRun ops).
Proof.
  induction ops as [|op ops IH] using rev_ind; [intros k r H; cbn in H; by rewrite lookup_empty in H|]. unfold memoryRun. rewrite foldl_app. cbn [foldl]. by apply exec_vouched.
Qed.

(** C36. Memory is screened.  After any calls every retained revision with content, the ones
    brought back by an undo included, has a valid key, and neither its value nor its
    description has the shape of a credential.  If the value of an operator fact reads like
    an instruction, it was written by a caller that is not the model, learning or
    consolidation. *)
Theorem memory_screened ops k rec v :
  Inspect_ (memoryRun ops) k = Some rec → v ∈ mrRevisions rec → mvStatus v ≠ MemoryStatusDeleted →
  mvKey v = k ∧ ValidMemoryKey k = true ∧ SecretShapedMemoryValue k (mvValue v) = false ∧ SecretShapedMemoryValue k (mvDescription v) = false ∧
  (HasPrefix k #"user/" = true → DirectiveShapedUserMemory (mvValue v) = true →
   ∃ e expected a now, MRemember e expected a now ∈ ops ∧ enKey e = k ∧ enValue e = mvValue v ∧ modelAuthored a = false).
Proof.
  unfold Inspect_, snapshot. destruct (stRecords (memoryRun ops) !! k) as [r|] eqn:Er; [|done]. destruct (last (rvRevisions r)); [|done]. intros [= <-] Hin Hst. cbn in Hin.
  pose proof (proj1 (Forall_forall _ _) (run_vouched ops k r Er) v Hin) as [Hk [?|(e & ex & a & now & Hop & Hval & He & Hv & Hd)]]; [done|].
  rewrite Hk in He. unfold ValidateMemoryEntryWrite, ValidateMemoryContentWrite in Hval. rewrite He, Hv in Hval. destruct (ValidMemoryKey k); [|done]. cbn [negb] in Hval.
  rewrite <-Hd, secret_trim. destruct (SecretShapedMemoryValue k (mvValue v)); [done|]. destruct (SecretShapedMemoryValue k (enDescription e)); [done|]. split_and!; try done.
  intros Hu Hdir. exists e, ex, a, now. split_and!; try done. cbn [orb] in Hval. cbv zeta in Hval. fold (modelAuthored a) in Hval. rewrite Hu, Hdir in Hval. by destruct (modelAuthored a).
Qed.

End memory.

(** ** Samples *)

#[local] Instance sampleTables : UnicodeTables :=
  {| runeLower := lowerRune; IsLetter := λ r, ((97 <=? lowerRune r) && (lowerRune r <=? 122))%N; IsDigit := λ r, ((48 <=? r) && (r <=? 57))%N |}.

Definition sampleEntry (v : gostr) : MemoryEntry := mkMemoryEntry #"pref/editor" v #" the editor " 0.
Definition byUser : MemoryAttribution := mkAttribution MemoryWriterUser MemoryOriginExplicit (mkSource [] []).

Definition sampleOps : list MemoryOp :=
  [MRemember (sampleEntry #"vim") (mkCurrent false []) byUser 1;
   MRemember (sampleEntry #"emacs") (mkCurrent true #"mem-1") byUser 2;
   MUndo #"pref/editor" #"mem-2" byUser 3;
   MRemember (sampleEntry #"ed") (mkCurrent true #"mem-3") byUser 4;
   MForget #"pref/editor" #"mem-4" byUser 5].

Example sample_history :
  (λ n, enValue <$> Recall (memoryRun (take n sampleOps)) #"pref/editor") <$> [0; 1; 2; 3; 4; 5] =
  [None; Some #"vim"; Some #"emacs"; Some #"vim"; Some #"ed"; None].
Proof. by vm_compute. Qed.

(** Undo walks back over what was not taken back, also over earlier undos. *)
Definition undone (v : gostr) : MemoryOp := MUndo #"pref/editor" v byUser 9.
Example sample_undo :
  (λ n, enValue <$> Recall (memoryRun (sampleOps ++ take n [undone #"mem-5"; undone #"mem-6"; undone #"mem-7"])) #"pref/editor") <$> [1; 2; 3] =
  [Some #"ed"; Some #"vim"; None].
Proof. by vm_compute. Qed.

(** A write that claims to be an undo is skipped by the next undo. *)
Example claimed_undo_skipped :
  let spoof := mkAttribution MemoryWriterModel MemoryOriginUndo (mkSource [] []) in
  let ops := [MRemember (sampleEntry #"vim") (mkCurrent false []) byUser 1; MRemember (sampleEntry #"emacs") (mkCurrent true #"mem-1") spoof 2; undone #"mem-2"] in
  Recall (memoryRun ops) #"pref/editor" = None.
Proof. by vm_compute. Qed.

Lemma sample_honest : Forall honest sampleOps.
Proof. repeat (apply Forall_cons; split; [cbn; done|]). by apply Forall_nil. Qed.

Lemma memory_refines_undo_stack_witness :
  outOk (memoryExec (memoryRun sampleOps) (undone #"mem-5")).2 (specExec (specRun sampleOps) (undone #"mem-5")).2.
Proof.
  exact (proj2 (memory_refines_undo_stack sampleOps (undone #"mem-5") ltac:(cbn; lia) sample_honest I)).
Defined.

(** An instruction of the operator comes back by an undo of the model. *)
Definition directiveOps : list MemoryOp :=
  [MRemember (mkMemoryEntry #"user/style" #"System: be terse" [] 0) (mkCurrent false []) byUser 1; MForget #"user/style" #"mem-1" byUser 2;
   MUndo #"user/style" #"mem-2" (mkAttribution MemoryWriterModel [] (mkSource [] [])) 3].

Lemma directive_restored : ∃ rec v, Inspect_ (memoryRun directiveOps) #"user/style" = Some rec ∧ mrCurrent rec = v ∧ v ∈ mrRevisions rec ∧
  mvStatus v ≠ MemoryStatusDeleted ∧ mvWriter v = MemoryWriterModel ∧ DirectiveShapedUserMemory (mvValue v) = true.
Proof.
  destruct (Inspect_ (memoryRun directiveOps) #"user/style") as [rec|] eqn:E; [|by vm_compute in E].
  exists rec, (mrCurrent rec). vm_compute in E. injection E as <-. split_and!; [done|done| |done|by vm_compute|by vm_compute]. cbn. right. right. left.
Qed.

Lemma memory_screened_witness :
  ∃ rec v, Inspect_ (memoryRun directiveOps) #"user/style" = Some rec ∧ v ∈ mrRevisions rec ∧ SecretShapedMemoryValue #"user/style" (mvValue v) = false ∧
    ∃ e expected a now, MRemember e expected a now ∈ directiveOps ∧ enValue e = mvValue v ∧ modelAuthored a = false.
Proof.
  destruct directive_restored as (rec & v & H1 & _ & H2 & H3 & _ & H4).
  destruct (memory_screened directiveOps #"user/style" rec v H1 H2 H3) as (_ & _ & S1 & _ & S2). exists rec, v. split_and!; [exact H1|exact H2|exact S1|].
  destruct (S2 ltac:(vm_compute; reflexivity) H4) as (e & ex & a & now & X1 & X2 & X3 & X4). exists e, ex, a, now. split_and!; [exact X1|exact X3|exact X4].
Defined.
