(* ===== verification/Promotion.v ===== *)
(** * Promotion of proposals into memory

    [engine/adapter/memorypromotion/memorypromotion.go]: the standard policy, the promotion
    of a staged proposal, the reconciliation of a claim that was interrupted, and undo, over
    the proposal repository and the memory store.

    The promoter holds no lock: before each of its calls others may have called both stores
    any number of times, and it may be stopped before any call, by a crash or by its
    context.  The record that the code returns with an error is left out. *)

From S2P Require Import Prelude Fence Skills Proposals Screens Memory.

(** ** The policy *)

Inductive Mode := Off | Review | Auto.
#[global] Instance Mode_eq_dec : EqDecision Mode.
Proof. solve_decision. Defined.

Inductive PolicyDisposition :=
  | DispositionPromote | DispositionDuplicate | DispositionReview | DispositionReject | DispositionConflict | DispositionUnsupported.
#[global] Instance PolicyDisposition_eq_dec : EqDecision PolicyDisposition.
Proof. solve_decision. Defined.

Record PolicyInput := mkInput {
  piMode : Mode; piTrustedProject : bool; piApproved : bool; piCandidate : Candidate; piCurrent : option MemoryRevision; piExisting : list MemoryEntry
}.
Record PolicyResult := mkResult { plDisposition : PolicyDisposition; plReason : gostr }.

Section promotion.
Context {tables : UnicodeTables} {digests : ProposalDigest}.

Definition canonicalEqual (a b : gostr) : bool := TrimSpace (CanonicalMemoryText a) =s TrimSpace (CanonicalMemoryText b).

Definition learnedAttribution (source : MemorySource) : MemoryAttribution := mkAttribution MemoryWriterModel MemoryOriginLearning source.
Definition noSource : MemorySource := mkSource [] [].
Definition entryFor (c : Candidate) : MemoryEntry := mkMemoryEntry (caKey c) (caValue c) (caDescription c) 0.

Definition durable (c : Candidate) : bool :=
  (CanonicalMemoryText (caKey c) =s caKey c) && (CanonicalMemoryText (caValue c) =s caValue c) && (CanonicalMemoryText (caDescription c) =s caDescription c)
  && match ValidateMemoryEntryWrite (entryFor c) (learnedAttribution noSource) with None => true | Some _ => false end.

(** [StandardPolicy.Evaluate] *)
Definition Evaluate (i : PolicyInput) : PolicyResult :=
  let c := piCandidate i in
  if caKind c =s CandidateProcedure then mkResult DispositionUnsupported #"procedure promotion is deferred"
  else if negb (caKind c =s CandidateOperatorFact) && negb (caKind c =s CandidateProjectFact) then mkResult DispositionReject #"unsupported candidate kind"
  else if negb (durable c) then mkResult DispositionReject #"candidate failed durable memory validation"
  else
    let rest :=
      if existsb (λ x, negb (enKey x =s caKey c) && canonicalEqual (enValue x) (caValue c)) (piExisting i)
      then mkResult DispositionReview #"possible semantic duplicate under another key"
      else if piApproved i then mkResult DispositionPromote #"approved for promotion"
      else if negb (piMode i =s Auto) || (caKind c =s CandidateProjectFact) && negb (piTrustedProject i)
      then mkResult DispositionReview #"host posture requires review"
      else mkResult DispositionPromote #"eligible under automatic host posture" in
    match piCurrent i with
    | Some cur =>
        if mvStatus cur =s MemoryStatusActive then
          if canonicalEqual (mvValue cur) (caValue c) && canonicalEqual (mvDescription cur) (caDescription c)
          then mkResult DispositionDuplicate #"exact current duplicate"
          else if (mvWriter cur =s MemoryWriterUser) || (mvOrigin cur =s MemoryOriginExplicit)
          then mkResult DispositionConflict #"current fact is user-explicit"
          else mkResult DispositionConflict #"current key has different content"
        else rest
    | None => rest
    end.

(** ** The world of the promoter *)

(** The writes of the promoter to memory are recorded, each with the store it found. *)
Record World := mkWorld { wProposals : ProposalStore; wMemory : Memory.Store; wWrites : list (Memory.Store * MemoryRecord) }.

Inductive Other := OProposal (op : ProposalOp) | OMemory (op : MemoryOp).

Definition act (w : World) (o : Other) : World :=
  match o with
  | OProposal op => mkWorld (proposalExec (wProposals w) op) (wMemory w) (wWrites w)
  | OMemory op => mkWorld (wProposals w) (memoryExec (wMemory w) op).1 (wWrites w)
  end.

Record Env := mkEnv { others : nat → list Other; stop : nat; clock : nat → Z }.

Inductive PromotionError := FromProposals (e : ProposalError) | FromMemory (e : MemoryError) | Stopped | Panicked.

Abbreviation Outcome := (World * (ProposalRecord + PromotionError))%type.

(** The [i]-th call to a store. *)
Definition call {A} (env : Env) (i : nat) (w : World) (f : World → World * A) (k : World → A → Outcome) : Outcome :=
  if stop env <=? i then (w, inr Stopped) else let '(w', a) := f (foldl act w (others env i)) in k w' a.

Definition readProposals {A} (f : ProposalStore → A) (w : World) : World * A := (w, f (wProposals w)).
Definition readMemory {A} (f : Memory.Store → A) (w : World) : World * A := (w, f (wMemory w)).
Definition writeProposals (f : ProposalStore → ProposalStore * (ProposalRecord + ProposalError)) (w : World) : World * (ProposalRecord + ProposalError) :=
  let '(p, r) := f (wProposals w) in (mkWorld p (wMemory w) (wWrites w), r).
Definition writeMemory (f : Memory.Store → Memory.Store * (MemoryRecord + MemoryError)) (w : World) : World * (MemoryRecord + MemoryError) :=
  let '(m, r) := f (wMemory w) in (mkWorld (wProposals w) m (wWrites w ++ match r with inl rec => [(wMemory w, rec)] | inr _ => [] end), r).

Definition returned (w : World) (r : ProposalRecord + ProposalError) : Outcome :=
  (w, match r with inl p => inl p | inr e => inr (FromProposals e) end).

Definition decided (k : DecisionKind) (actor reason : gostr) : Decision := mkDecision k actor reason None.

(** [receipt] *)
Definition receiptOf (k : gostr) (prev : option MemoryRecord) (result : gostr) : PromotionReceipt :=
  match prev with
  | Some m => if mvVersion (mrCurrent m) =s [] then mkPromotion k false [] result else mkPromotion k true (mvVersion (mrCurrent m)) result
  | None => mkPromotion k false [] result
  end.

(** ** Promotion *)

Definition reconcile (env : Env) (i : nat) (w : World) (r : ProposalRecord) : Outcome :=
  let k := caKey (pCandidate r) in
  call env i w (readMemory (λ m, Inspect_ m k)) (λ w mr,
    let linked := match mr with Some m => if msProposalID (mvSource (mrCurrent m)) =s pID r then Some m else None | None => None end in
    match linked with
    | Some m =>
        call env (S i) w (writeProposals (λ s, Finalize s (pPartition r) (pID r) (pVersion r) ProposalPromoted (Some (receiptOf k None (mvVersion (mrCurrent m))))
          (decided DecisionApprove #"reconciler" #"linked memory revision already committed") (clock env (S i)))) returned
    | None =>
        call env (S i) w (writeProposals (λ s, Finalize s (pPartition r) (pID r) (pVersion r) ProposalConflicted None
          (decided DecisionDefer #"reconciler" #"promotion claim has no current linked revision") (clock env (S i)))) returned
    end).

(** The write to memory, and the end of the promotion. *)
Definition promote (env : Env) (i : nat) (w : World) (part : ProposalPartition) (id : gostr) (r claimed : ProposalRecord) (mr : option MemoryRecord) (reason : gostr) : Outcome :=
  let c := pCandidate r in
  match head (caEvidence c) with
  | None => (w, inr Panicked)
  | Some e =>
      let cur := match mr with Some m => mkCurrent true (mvVersion (mrCurrent m)) | None => mkCurrent false [] end in
      call env i w (writeMemory (λ m, Remember m (entryFor c) cur (learnedAttribution (mkSource (eSessionID e) id)) (clock env i))) (λ w res,
        match res with
        | inr (MemoryVersionConflict _ _ _) =>
            call env (S i) w (writeProposals (λ s, Finalize s part id (pVersion claimed) ProposalConflicted None
              (decided DecisionDefer #"convergence-cas" #"memory changed during promotion") (clock env (S i)))) returned
        | inr err => (w, inr (FromMemory err))
        | inl written =>
            call env (S i) w (writeProposals (λ s, Finalize s part id (pVersion claimed) ProposalPromoted
              (Some (receiptOf (caKey c) mr (mvVersion (mrCurrent written)))) (decided DecisionApprove #"standard-policy" reason) (clock env (S i)))) returned
        end)
  end.

Definition Process (env : Env) (w : World) (part : ProposalPartition) (id expected : gostr) (input : PolicyInput) : Outcome :=
  call env 0 w (readProposals (λ s, GetProposal s part id)) (λ w found,
  match found with
  | None => (w, inr (FromProposals ErrProposalNotFound))
  | Some r =>
      if negb (pVersion r =s expected) then (w, inr (FromProposals ErrProposalVersionConflict))
      else if pStatus r =s ProposalPromoting then reconcile env 1 w r
      else if negb (pStatus r =s ProposalStaged) then (w, inr (FromProposals ErrProposalTransition))
      else
        let c := pCandidate r in
        call env 1 w (readMemory (λ m, Inspect_ m (caKey c))) (λ w mr,
        call env 2 w (readMemory (λ m, List_ m [])) (λ w existing,
        let result := Evaluate (mkInput (piMode input) (piTrustedProject input) (piApproved input) c
                        (match mr with Some m => Some (mrCurrent m) | None => piCurrent input end) existing) in
        let decision := decided DecisionDefer #"standard-policy" (plReason result) in
        match plDisposition result with
        | DispositionReview => call env 3 w (writeProposals (λ s, ClaimDecision s part id expected decision (clock env 3))) returned
        | DispositionReject =>
            call env 3 w (writeProposals (λ s, ClaimDecision s part id expected (decided DecisionReject #"standard-policy" (plReason result)) (clock env 3))) returned
        | disposition =>
            call env 3 w (writeProposals (λ s, ClaimPromotion s part id expected (clock env 3))) (λ w res,
            match res with
            | inr e => (w, inr (FromProposals e))
            | inl claimed =>
                match disposition with
                | DispositionUnsupported =>
                    call env 4 w (writeProposals (λ s, Finalize s part id (pVersion claimed) ProposalDeferredUnsupported None decision (clock env 4))) returned
                | DispositionConflict =>
                    call env 4 w (writeProposals (λ s, Finalize s part id (pVersion claimed) ProposalConflicted None decision (clock env 4))) returned
                | DispositionDuplicate =>
                    call env 4 w (writeProposals (λ s, Finalize s part id (pVersion claimed) ProposalPromoted
                      (Some (receiptOf (caKey c) mr (match mr with Some m => mvVersion (mrCurrent m) | None => [] end))) decision (clock env 4))) returned
                | _ => promote env 4 w part id r claimed mr (plReason result)
                end
            end)
        end))
  end).

Definition Undo (env : Env) (w : World) (part : ProposalPartition) (id expected : gostr) : Outcome :=
  call env 0 w (readProposals (λ s, GetProposal s part id)) (λ w found,
  match found with
  | None => (w, inr (FromProposals ErrProposalNotFound))
  | Some r =>
      match pReceipt r with
      | Some rc =>
          if negb (pVersion r =s expected) || negb (pStatus r =s ProposalPromoted) then (w, inr (FromProposals ErrProposalTransition))
          else
            call env 1 w (readMemory (λ m, Inspect_ m (prMemoryKey rc))) (λ w mr,
            let ours := match mr with
                        | Some m => if (mvVersion (mrCurrent m) =s prResultVersion rc) && (msProposalID (mvSource (mrCurrent m)) =s id) then Some m else None
                        | None => None end in
            match ours with
            | None =>
                call env 2 w (writeProposals (λ s, Finalize s part id expected ProposalConflicted None
                  (decided DecisionDefer #"undo" #"promoted revision is no longer current") (clock env 2))) returned
            | Some m =>
                call env 2 w (writeMemory (λ s, Undo_ s (prMemoryKey rc) (mvVersion (mrCurrent m)) (mkAttribution MemoryWriterSystem MemoryOriginUndo (mkSource [] id)) (clock env 2))) (λ w res,
                match res with
                | inr e => (w, inr (FromMemory e))
                | inl done_ =>
                    call env 3 w (writeProposals (λ s, Finalize s part id expected ProposalUndone
                      (Some (mkPromotion (prMemoryKey rc) (prPreviousExists rc) (prPreviousVersion rc) (mvVersion (mrCurrent done_))))
                      (decided DecisionApprove #"undo" #"compensating revision committed") (clock env 3))) returned
                end)
            end)
      | None => (w, inr (FromProposals ErrProposalTransition))
      end
  end).

(** ** What others do *)

Definition memoryOps (os : list Other) : list MemoryOp := omap (λ o, match o with OMemory op => Some op | OProposal _ => None end) os.

Lemma act_memory w os : wMemory (foldl act w os) = foldl (λ s op, (memoryExec s op).1) (wMemory w) (memoryOps os) ∧ wWrites (foldl act w os) = wWrites w.
Proof. revert w. induction os as [|[op|op] os IH]; intros w; [done| |]; cbn [foldl]; rewrite !(proj1 (IH _)), !(proj2 (IH _)); done. Qed.

Definition reached (n : nat) (m : Memory.Store) (ops : list MemoryOp) : Prop := m = memoryRun ops ∧ length ops <= n.

Lemma act_reached n w os ops : reached n (wMemory w) ops →
  reached (n + length os) (wMemory (foldl act w os)) (ops ++ memoryOps os).
Proof.
  intros [H1 H2]. destruct (act_memory w os) as [Hm _]. split.
  - rewrite Hm, H1. unfold memoryRun. by rewrite foldl_app.
  - rewrite length_app. assert (length (memoryOps os) <= length os); [|lia]. unfold memoryOps. clear. induction os as [|[]]; cbn; lia.
Qed.

Lemma call_split {A} env i w (f : World → World * A) k :
  call env i w f k = (w, inr Stopped) ∨ call env i w f k = k (f (foldl act w (others env i))).1 (f (foldl act w (others env i))).2.
Proof. unfold call. destruct (stop env <=? i); [by left|right]. by destruct (f _). Qed.

(** A call that does not write to memory. *)
Definition quiet {A} (f : World → World * A) : Prop := ∀ w, wMemory (f w).1 = wMemory w ∧ wWrites (f w).1 = wWrites w.

Lemma quiet_readP {A} (g : ProposalStore → A) : quiet (readProposals g).
Proof. done. Qed.
Lemma quiet_readM {A} (g : Memory.Store → A) : quiet (readMemory g).
Proof. done. Qed.
Lemma quiet_writeP g : quiet (writeProposals g).
Proof. intros w. unfold writeProposals. by destruct (g (wProposals w)). Qed.

Lemma call_writes {A} env i w (f : World → World * A) k : quiet f →
  (∀ w' a, wWrites w' = wWrites w → wWrites (k w' a).1 = wWrites w) → wWrites (call env i w f k).1 = wWrites w.
Proof.
  intros Hq Hk. destruct (call_split env i w f k) as [->| ->]; [done|]. apply Hk. rewrite (proj2 (Hq _)). apply act_memory.
Qed.

Lemma call_writes_end env i w g : wWrites (call env i w (writeProposals g) returned).1 = wWrites w.
Proof. apply call_writes; [apply quiet_writeP|]. done. Qed.

Lemma reconcile_writes env i w r : wWrites (reconcile env i w r).1 = wWrites w.
Proof.
  unfold reconcile. apply call_writes; [apply quiet_readM|]. intros w' mr Hw. destruct mr as [m|]; [destruct (_ =s _)|]; by rewrite call_writes_end.
Qed.

Lemma finalize_result s p id v st rc d now r : (Finalize s p id v st (Some rc) d now).2 = inl r → pStatus r = st ∧ pReceipt r = Some rc.
Proof.
  unfold Finalize, finalizeUpdate. destruct (negb _); [done|]. destruct (_ && _); [done|]. destruct (recordsIn s (key p) !! id) as [r0|]; [|done].
  destruct (finalizeRetryMatches r0 st (Some rc) d) eqn:Em.
  - intros [= <-]. unfold finalizeRetryMatches in Em. destruct (_ || _) eqn:E; [done|]. bprop. done.
  - destruct (negb _); [done|]. cbv zeta. destruct (_ && _); [done|]. destruct (_ || _); [done|]. unfold commit. by intros [= <-].
Qed.

Lemma returned_finalize env i w s_fn r :
  (∀ s p, (s_fn s).2 = inl p → pStatus p = ProposalPromoted ∧ pReceipt p = Some r) →
  ∀ p, (call env i w (writeProposals s_fn) returned).2 = inl p → pStatus p = ProposalPromoted ∧ pReceipt p = Some r.
Proof.
  intros Hs p. destruct (call_split env i w (writeProposals s_fn) returned) as [->| ->]; [done|]. unfold writeProposals.
  destruct (s_fn (wProposals (foldl act w (others env i)))) as [s' [q|e]] eqn:Es; cbn; [|done]. intros [= <-]. apply (Hs (wProposals (foldl act w (others env i)))). by rewrite Es.
Qed.

(** What the policy promotes. *)
Lemma evaluate_promote i : plDisposition (Evaluate i) = DispositionPromote →
  let c := piCandidate i in
  (caKind c = CandidateOperatorFact ∨ caKind c = CandidateProjectFact) ∧ durable c = true ∧
  (piApproved i = true ∨ piMode i = Auto ∧ (caKind c = CandidateProjectFact → piTrustedProject i = true)) ∧
  (∀ cur, piCurrent i = Some cur → mvStatus cur ≠ MemoryStatusActive).
Proof.
  unfold Evaluate. cbv zeta. set (c := piCandidate i). destruct (caKind c =s CandidateProcedure); [done|]. destruct (negb (caKind c =s CandidateOperatorFact) && _) eqn:Ek; [done|].
  destruct (durable c) eqn:Ed; [|done]. cbn [negb]. set (rest := if existsb _ _ then _ else _).
  assert (Hrest : plDisposition rest = DispositionPromote → piApproved i = true ∨ piMode i = Auto ∧ (caKind c = CandidateProjectFact → piTrustedProject i = true)).
  { unfold rest. destruct (existsb _ _); [done|]. destruct (piApproved i); [by left|]. destruct (_ || _) eqn:Em; [done|]. intros _. right. apply orb_false_iff in Em as [E1 E2]. bprop. split; [done|].
    intros Hk. rewrite bool_decide_true in E2 by done. cbn in E2. by bprop. }
  assert (Hkind : caKind c = CandidateOperatorFact ∨ caKind c = CandidateProjectFact).
  { apply andb_false_iff in Ek as [Ek|Ek]; bprop; tauto. }
  destruct (piCurrent i) as [cur|]; [|intros H; split_and!; [done|done|by apply Hrest|done]].
  destruct (mvStatus cur =s MemoryStatusActive) eqn:Es; [repeat match goal with |- context [plDisposition (if ?b then _ else _)] => destruct b end; intros H; discriminate H|]. bprop.
  intros H. split_and!; [done|done|by apply Hrest|]. by intros ? [= <-].
Qed.

(** The screens of staging are those of the policy: it never rejects a staged fact. *)
Lemma staged_durable ops part id r : GetProposal (proposalRun ops) part id = Some r → caKind (pCandidate r) ≠ CandidateProcedure → durable (pCandidate r) = true.
Proof.
  intros Hr Hk. pose proof (po_material r (ps_rec _ (proposalRun_ok ops) _ _ _ Hr)) as Hv. unfold ValidateProposalMaterial in Hv.
  destruct (_ || _); [done|]. destruct (_ || _); [done|]. rewrite (bool_decide_false _ Hk) in Hv.
  destruct (durableFact (pCandidate r)) eqn:E; [exact E|]. by rewrite orb_true_r in Hv.
Qed.

Lemma staged_kind ops part id r : GetProposal (proposalRun ops) part id = Some r → CandidateKindValid (caKind (pCandidate r)) = true.
Proof.
  intros Hr. pose proof (po_material r (ps_rec _ (proposalRun_ok ops) _ _ _ Hr)) as Hv. unfold ValidateProposalMaterial in Hv.
  destruct (_ || _); [done|]. by destruct (CandidateKindValid _).
Qed.

Lemma staged_not_rejected ops part id r i :
  GetProposal (proposalRun ops) part id = Some r → piCandidate i = pCandidate r → plDisposition (Evaluate i) ≠ DispositionReject.
Proof.
  intros Hr Hi. pose proof (staged_kind _ _ _ _ Hr) as Hk. unfold Evaluate. cbv zeta. rewrite Hi. destruct (caKind (pCandidate r)) eqn:Ek; [| |done|done];
    rewrite (staged_durable _ _ _ _ Hr) by (by rewrite Ek); cbn; repeat case_match; done.
Qed.

Definition traffic (env : Env) : nat := sum_list ((λ i, length (others env i)) <$> seq 0 5).

(** A write of the promoter: the store before it, the record it made, the proposal it was for. *)
Definition learned (before : Memory.Store) (rec : MemoryRecord) (r : ProposalRecord) (id : gostr) : Prop :=
  let c := pCandidate r in let cur := mrCurrent rec in
  Recall before (caKey c) = None ∧ mvKey cur = caKey c ∧ mvValue cur = caValue c ∧ mvDescription cur = TrimSpace (caDescription c) ∧
  mvStatus cur = MemoryStatusActive ∧ mvWriter cur = MemoryWriterModel ∧ mvOrigin cur = MemoryOriginLearning ∧ msProposalID (mvSource cur) = id.

Lemma promote_learns env i w part id r claimed mr reason ops ops' :
  let w1 := foldl act w (others env i) in
  wMemory w1 = memoryRun (ops ++ ops') → (N.of_nat (length ops + length ops') < 2 ^ 64)%N →
  Inspect_ (memoryRun ops) (caKey (pCandidate r)) = mr → (∀ m, mr = Some m → mvStatus (mrCurrent m) ≠ MemoryStatusActive) →
  let out := promote env i w part id r claimed mr reason in
  wWrites out.1 = wWrites w ∨ ∃ rec, wWrites out.1 = wWrites w ++ [(wMemory w1, rec)] ∧ learned (wMemory w1) rec r id ∧
    ∀ p, out.2 = inl p → pStatus p = ProposalPromoted ∧ prResultVersion <$> pReceipt p = Some (mvVersion (mrCurrent rec)).
Proof.
  intros w1 Hm Hb Hi Hst out. unfold out, promote. clear out. destruct (head (caEvidence (pCandidate r))) as [e|]; [|by left].
  destruct (call_split env i w (writeMemory (λ m, Remember m (entryFor (pCandidate r)) match mr with Some m0 => mkCurrent true (mvVersion (mrCurrent m0)) | None => mkCurrent false [] end
    (learnedAttribution (mkSource (eSessionID e) id)) (clock env i))) (λ w res, match res with
        | inr (MemoryVersionConflict _ _ _) =>
            call env (S i) w (writeProposals (λ s, Finalize s part id (pVersion claimed) ProposalConflicted None
              (decided DecisionDefer #"convergence-cas" #"memory changed during promotion") (clock env (S i)))) returned
        | inr err => (w, inr (FromMemory err))
        | inl written =>
            call env (S i) w (writeProposals (λ s, Finalize s part id (pVersion claimed) ProposalPromoted
              (Some (receiptOf (caKey (pCandidate r)) mr (mvVersion (mrCurrent written)))) (decided DecisionApprove #"standard-policy" reason) (clock env (S i)))) returned
        end)) as [->| ->]; [by left|]. fold w1. destruct (act_memory w (others env i)) as [_ Hw]. fold w1 in Hw. unfold writeMemory.
  set (cur := match mr with Some _ => _ | None => _ end). destruct (Remember (wMemory w1) (entryFor (pCandidate r)) cur _ _) as [m' [rec|err]] eqn:Er; cbn [fst snd].
  2: { left. destruct err; try (cbn [fst wWrites]; by rewrite app_nil_r). rewrite call_writes_end. cbn. by rewrite app_nil_r, Hw. }
  right. exists rec. apply remember_written in Er as (Hcur & _ & v & Hrec). cbn in Hcur. split; [|split].
  - rewrite call_writes_end. cbn. by rewrite Hw.
  - unfold learned. cbv zeta. rewrite Hrec. cbn. split_and!; try done. destruct mr as [m0|]; [|by apply current_none]. cbn in Hcur.
    rewrite Hm in Hcur |- *. by eapply inactive_unreadable; [eapply current_same|by apply Hst].
  - intros p Hp. apply (returned_finalize _ _ _ _ (receiptOf (caKey (pCandidate r)) mr (mvVersion (mrCurrent rec)))) in Hp; [|intros s q; apply finalize_result].
    destruct Hp as [-> ->]. split; [done|]. unfold receiptOf. destruct mr as [m0|]; [|done]. by destruct (mvVersion (mrCurrent m0) =s []).
Qed.

(** C38. Learning does not overwrite memory.  Whatever others do to both stores before a
    promotion and between its calls, fewer than 2^64 calls to memory in all, and wherever
    it stops, it writes to memory at most once, and then only the fact of a staged proposal
    that the policy admits, under a key that nothing could be recalled under at that very
    moment.  The revision is attributed to the model, to learning and to the proposal, and
    if the promotion returns a proposal it is promoted with the version of that revision on
    its receipt. *)
Theorem promotion_never_overwrites env w part id expected input ops :
  wMemory w = memoryRun ops →
  (N.of_nat (length ops + traffic env) < 2 ^ 64)%N →
  let out := Process env w part id expected input in
  wWrites out.1 = wWrites w ∨ ∃ before rec r, wWrites out.1 = wWrites w ++ [(before, rec)] ∧ learned before rec r id ∧
    GetProposal (wProposals (foldl act w (others env 0))) part id = Some r ∧ pStatus r = ProposalStaged ∧
    (caKind (pCandidate r) = CandidateOperatorFact ∨ caKind (pCandidate r) = CandidateProjectFact) ∧ durable (pCandidate r) = true ∧
    (piApproved input = true ∨ piMode input = Auto ∧ (caKind (pCandidate r) = CandidateProjectFact → piTrustedProject input = true)) ∧
    ∀ p, out.2 = inl p → pStatus p = ProposalPromoted ∧ prResultVersion <$> pReceipt p = Some (mvVersion (mrCurrent rec)).
Proof.
  intros Hm Hb out. unfold out, Process. clear out. unfold traffic in Hb. cbn in Hb.
  assert (H0 : reached (length ops) (wMemory w) ops) by (by split_and!). pose proof (act_reached _ _ (others env 0) _ H0) as H1.
  match goal with |- context [call env 0 w ?f ?k] => destruct (call_split env 0 w f k) as [->| ->]; [by left|] end.
  destruct (act_memory w (others env 0)) as [_ Hw1]. set (w1 := foldl act w (others env 0)) in *. cbn [readProposals fst snd].
  destruct (GetProposal (wProposals w1) part id) as [r|] eqn:Eg; [|by left]. destruct (negb _); [by left|].
  destruct (pStatus r =s ProposalPromoting); [left; by rewrite reconcile_writes|]. destruct (pStatus r =s ProposalStaged) eqn:Es; [|by left]. cbn [negb]. bprop.
  pose proof (act_reached _ _ (others env 1) _ H1) as H2. match goal with |- context [call env 1 w1 ?f ?k] => destruct (call_split env 1 w1 f k) as [->| ->]; [by left|] end.
  destruct (act_memory w1 (others env 1)) as [_ Hw2]. rewrite Hw1 in Hw2. set (w2 := foldl act w1 (others env 1)) in *. cbn [readMemory fst snd].
  set (mr := Inspect_ (wMemory w2) (caKey (pCandidate r))). pose proof (act_reached _ _ (others env 2) _ H2) as H3.
  match goal with |- context [call env 2 w2 ?f ?k] => destruct (call_split env 2 w2 f k) as [->| ->]; [by left|] end.
  destruct (act_memory w2 (others env 2)) as [_ Hw3]. rewrite Hw2 in Hw3. set (w3 := foldl act w2 (others env 2)) in *. cbn [readMemory fst snd].
  set (inp := mkInput _ _ _ _ _ _). pose proof (evaluate_promote inp) as Hev. cbn [inp piCandidate piApproved piMode piTrustedProject piCurrent] in Hev.
  destruct (plDisposition (Evaluate inp)) eqn:Ed; try (left; by rewrite call_writes_end);
    try (left; rewrite <-Hw3; apply call_writes; [apply quiet_writeP|]; intros w' [claimed|e] Hw'; [by rewrite call_writes_end|done]).
  destruct Hev as (K1 & K2 & K3 & K4); [done|]. pose proof (act_reached _ _ (others env 3) _ H3) as H4.
  match goal with |- context [call env 3 w3 ?f ?k] => destruct (call_split env 3 w3 f k) as [->| ->]; [by left|] end.
  destruct (act_memory w3 (others env 3)) as [_ Hw4]. rewrite Hw3 in Hw4. set (w4 := foldl act w3 (others env 3)) in *.
  pose proof (quiet_writeP (λ s, ClaimPromotion s part id expected (clock env 3)) w4) as [Q1 Q2]. destruct (writeProposals _ w4) as [w5 [claimed|e]]; cbn [fst snd] in *; [|by left; rewrite Q2].
  rewrite <-Q1 in H4. pose proof (act_reached _ _ (others env 4) _ H4) as [M1 M2]. set (ops2 := (ops ++ memoryOps (others env 0)) ++ memoryOps (others env 1)) in *.
  destruct (promote_learns env 4 w5 part id r claimed mr (plReason (Evaluate inp)) ops2 (memoryOps (others env 2) ++ memoryOps (others env 3) ++ memoryOps (others env 4))) as [Hsame|(rec & Hlog & Hl & Hret)].
  - by rewrite M1, <-!app_assoc.
  - assert (Hlen : length (((ops2 ++ memoryOps (others env 2)) ++ memoryOps (others env 3)) ++ memoryOps (others env 4)) =
      length ops2 + length (memoryOps (others env 2) ++ memoryOps (others env 3) ++ memoryOps (others env 4))) by (rewrite !length_app; lia). lia.
  - unfold mr. by rewrite (proj1 H2).
  - intros m Hmr. apply K4. by rewrite Hmr.
  - left. by rewrite Hsame, Q2.
  - right. exists (wMemory (foldl act w5 (others env 4))), rec, r. rewrite Hlog, Q2, Hw4. by split_and!.
Qed.
End promotion.

(** ** Samples *)

#[local] Instance sampleTables : UnicodeTables :=
  {| runeLower := lowerRune; IsLetter := λ r, ((97 <=? lowerRune r) && (lowerRune r <=? 122))%N; IsDigit := λ r, ((48 <=? r) && (r <=? 57))%N |}.
#[local] Instance sampleDigests : ProposalDigest := {| proposalDigest := λ _ input c _, caKey c ++ input |}.

Definition editorFact : Candidate := mkCandidate CandidateProjectFact #"pref/editor" #"vim" #"the editor" [] [] [] [citing].
Definition editorID : gostr := match DeterministicProposalID here sampleDigest editorFact with inl id => id | inr _ => [] end.
Definition start : World := mkWorld (proposalRun [PStage here sampleDigest [editorFact] [] 1]) New [].

Definition remembering (k v : gostr) (now : Z) : Other :=
  OMemory (MRemember (mkMemoryEntry k v #"d" 0) (mkCurrent false []) (mkAttribution MemoryWriterUser MemoryOriginExplicit noSource) now).

(** Another writer works on another key between the calls, or on the same key right before
    the write of the promoter. *)
Definition elsewhere : Env := mkEnv (λ i, if i =? 4 then [remembering #"pref/shell" #"fish" 4] else []) 9 (λ i, Z.of_nat i + 10)%Z.
Definition racing : Env := mkEnv (λ i, if i =? 4 then [remembering #"pref/editor" #"ed" 4] else []) 9 (λ i, Z.of_nat i + 10)%Z.
Definition crashing : Env := mkEnv (λ _, []) 5 (λ i, Z.of_nat i + 10)%Z.
Definition trusted : PolicyInput := mkInput Auto true false editorFact None [].

Definition statusOf (o : World * (ProposalRecord + PromotionError)) : option ProposalStatus := match o.2 with inl p => Some (pStatus p) | inr _ => None end.
Definition editorOf (o : World * (ProposalRecord + PromotionError)) : option gostr := enValue <$> Recall (wMemory o.1) #"pref/editor".

Example promoted_editor : let o := Process elsewhere start here editorID #"mem-1" trusted in statusOf o = Some ProposalPromoted ∧ editorOf o = Some #"vim".
Proof. by vm_compute. Qed.
Example lost_race : let o := Process racing start here editorID #"mem-1" trusted in statusOf o = Some ProposalConflicted ∧ editorOf o = Some #"ed".
Proof. by vm_compute. Qed.
(** The fact is in memory and the proposal still claimed; the next call finds the linked
    revision and finishes the promotion. *)
Example crash_reconciled :
  let o := Process crashing start here editorID #"mem-1" trusted in
  let o' := Process elsewhere o.1 here editorID #"mem-2" trusted in
  statusOf o = None ∧ editorOf o = Some #"vim" ∧ statusOf o' = Some ProposalPromoted ∧ length (wWrites o'.1) = 1.
Proof. by vm_compute. Qed.
Example promotion_undone :
  let o := Process elsewhere start here editorID #"mem-1" trusted in
  let o' := Undo elsewhere o.1 here editorID #"mem-3" in statusOf o' = Some ProposalUndone ∧ editorOf o' = None.
Proof. by vm_compute. Qed.

Lemma elsewhere_writes : length (wWrites (Process elsewhere start here editorID #"mem-1" trusted).1) = 1.
Proof. by vm_compute. Qed.

Lemma promotion_never_overwrites_witness :
  ∃ before rec r, wWrites (Process elsewhere start here editorID #"mem-1" trusted).1 = [(before, rec)] ∧ learned before rec r editorID.
Proof.
  pose proof (promotion_never_overwrites elsewhere start here editorID #"mem-1" trusted [] eq_refl ltac:(cbn; lia)) as [H|(before & rec & r & H & Hl & _)].
  - pose proof elsewhere_writes as Hw. rewrite H in Hw. discriminate Hw.
  - exists before, rec, r. split; [exact H|exact Hl].
Defined.
